(* ===== verification/_CoqProject ===== *)
-Q . S2P
Prelude.v
Intrusive.v
RawQueue.v
RawQueueInv.v
RawQueueSpec.v
Address.v
FrameAlloc.v
FrameAllocInv.v
FrameAllocSpec.v
FrameData.v
VolatileBuffer.v
VolatileBufferInv.v
VolatileBufferSeq.v
Pipe.v
Priority.v
RunQueue.v
RunQueueInv.v
IdCounter.v
Mutex.v
Capability.v
SecCtx.v
SecCtxInv.v
IntervalTree.v
PageTree.v
PageTreeInv.v
ObjCopy.v
ObjCopyInv.v
Tlb.v
PageTable.v
PageTableInv.v
PageTableRead.v
PageTableMap.v
Hachage.v
HachageInv.v
SlotAlloc.v
Space.v
Pty.v
PtyInv.v
PtyPost.v
SeqCell.v
PtyEnd.v
PtySafe.v
ThreadSync.v
ThreadSyncInv.v
ThreadSyncLost.v
Timeout.v
TimeoutInv.v
SpinOnce.v
SimpleMutex.v
CondVar.v
DirtySet.v
Region.v
ArchPages.v
VirtMem.v
VirtMemInv.v
VirtMemLost.v
MemTracker.v
TrackerFrames.v
PagerReq.v
PagerReqInv.v
