(* ===== verification/Prelude.v ===== *)
(** * Twizzler: a verification development

    Twizzler is an operating system in Rust built around persistent objects.  A small
    kernel ([src/src/kernel]) manages physical memory, page tables, object pages, threads
    and security contexts; libraries ([src/src/lib]) give programs queues, pipes, keys
    and capabilities; services and a runtime sit on top.  This development models the
    parts below as Rocq functions and step relations translated from the source, and
    proves what makes them correct.

    ** Conventions

    A Rust function is a function into [outcome]: it returns ([Ret]), panics ([Panic]) or,
    for a loop with fuel, has run out of it ([NoFuel]).  [Result] is [result], [Option] is
    [option].  Integers are [Z] with their width written out: [chk] is arithmetic that
    panics on overflow in a build with checks and wraps in one without (the class
    [Build]; theorems hold for both unless they say otherwise), [wrap] and the bit
    operations are those of the width.  State is passed explicitly.  Code that runs under
    a lock is one function; code that shares atomics with other threads is a step
    function, one step per atomic access, and a relation interleaves the steps of any
    number of threads.  Code outside the repository is a class with the promises of its
    documentation as laws and at least one instance.

    ** Parts

    Queues ([RawQueue], [RawQueueInv], [RawQueueSpec]; src/src/lib/twizzler-queue-raw).
    A bounded ring for many producers and one consumer.  For every interleaving, items
    arrive in the order of reservation, no outstanding slot is overwritten, and a
    consumer does not sleep on a queue that has items; calls that do not overlap refine a
    bounded FIFO.

    Byte buffer and pipes ([VolatileBuffer], [VolatileBufferInv], [VolatileBufferSeq],
    [Pipe]; src/src/lib/twizzler-io).  The bytes readers claim are a prefix of the bytes
    writers reserve; the end counts of a pipe are exact; [read] and [write] on every
    branch.

    Addresses ([Address]; kernel/src/arch/amd64/address.rs).  Exact arithmetic on
    canonical addresses.

    Physical memory ([Intrusive], [FrameAlloc], [FrameAllocInv], [FrameAllocSpec],
    [FrameData]; kernel/src/memory/frame.rs).  The admitted frames of a region tile it
    and the free lists hold exactly those not allocated; allocation, freeing and
    splitting keep this.  [FrameData] is the contents of a frame.

    Page tables ([PageTable], [PageTableInv], [PageTableRead], [PageTableMap];
    kernel/src/memory/pagetables and arch/amd64/memory/pagetables).  Entries, tables with
    the count kept in their spare bits, and the recursive map, unmap, change and readmap
    over tables in physical memory.  [walk] is the translation of the processor.  Mapping
    an unmapped region gives exactly the translations asked for, unmapping removes exactly
    those that meet the region and frees exactly the tables that become unreachable, and
    reading reports the translation.  A provider of physical memory is the class
    [PhysAddrProvider] with the promise [Provider], kept by [ContiguousProvider].

    TLB shootdown ([Tlb]; arch/amd64/memory/pagetables/consistency.rs).  When the slots
    of a processor are seen empty, it has carried out every invalidation asked of it.

    Object pages ([IntervalTree], [PageTree], [PageTreeInv], [ObjCopy], [ObjCopyInv];
    kernel/src/obj).  Page vectors, ranges and the page tree with copy on write, and
    copying and zeroing of ranges.  A write goes to a page nothing else refers to, and
    leaves every other page of every object alone; a copied region shows the source's
    pages until one side is written.

    Threads ([Priority], [RunQueue], [RunQueueInv], [Mutex], [IdCounter];
    kernel/src/thread, processor, mutex.rs, idcounter.rs).  Priorities and donation, run
    queues that lose no thread and serve classes in order, mutual exclusion without
    lost wakeups, distinct identifiers.

    Security ([Capability], [SecCtx], [SecCtxInv]; src/src/lib/twizzler-security and
    kernel/src/security.rs).  Keys, signatures and capabilities over the classes [Ecdsa]
    and [Hashes]; a context stores capabilities without overlap, and everything the
    kernel grants beyond the default comes from a capability that verifies.

    Persistent hash map ([Hachage], [HachageInv];
    src/src/lib/twizzler/src/collections/hachage).  The open-addressing table with its
    control tags, probing, rehashing in place and growth inside an object.  Lookup,
    insertion and removal refine a finite map; [removed_elements_return] is the case in
    which they do not.

    Slots and the address space of a program ([SlotAlloc], [Space];
    src/src/rt/reference/src/runtime/slot.rs, src/src/rt/monitor/src/mon/space.rs and
    space/).  The runtime's allocator of slots, for the early counter and for the bitmap
    of pairs with its stack of single slots, gives out no slot that somebody owns; the
    monitor's mappings are counted so that the slot of a live handle stays mapped, for
    threads that interleave but do not map the same object at the same time.

    Terminals ([Pty], [PtyInv], [PtyPost], [SeqCell], [PtyEnd], [PtySafe];
    src/src/lib/twizzler-io/src/pty.rs).  The line discipline ([input_map], output
    conversion, line assembly, signals, echo), the generation-counted settings, and the
    two ends over the shared byte buffers.  A typed line is echoed and read, printed
    bytes are read expanded, no sequence of calls panics, and the settings are never
    torn; [terminal_defects] and [full_terminal_spins] are what does not work.

    Word waits ([ThreadSync], [ThreadSyncInv], [ThreadSyncLost];
    src/src/kernel/src/syscall/sync.rs, obj/thread_sync.rs).  The tables of the threads
    asleep on the words of an object, the two flags of a thread, critical sections and the
    requeue list, with each access of [sys_thread_sync] and [add_to_requeue] a step.  No
    sleeping thread is lost, a wake reaches every thread on the word and a thread it
    reaches gets to a run queue, as long as the last access of [add_to_requeue] does not
    take a thread off the list that a later wake has put there; [late_removal_loses] is a
    run in which it does, and the thread never runs again.

    Kernel timeouts and locks ([Timeout], [TimeoutInv], [SpinOnce], [SimpleMutex],
    [CondVar]; src/src/kernel/src/clock.rs, spinlock.rs, once.rs, condvar.rs and
    src/src/lib/twizzler-abi/src/simple_mutex.rs).  The wheel of windows that holds the
    callbacks of timeouts, driven by the hard tick and by the thread that runs the
    callbacks: each is called once, never before its time except when its window is
    full, and is not called once it has been released.  The ticket lock and the user
    mutex exclude, the user mutex loses no sleeper over waits whose wakes take only threads
    that sleep (those of [ThreadSync] may take a stale entry), callers of [Once] agree on one value,
    and [signal] reaches every waiter of a condition variable; it does not return when a
    waiter it holds up is still in the tree, which is [signal_deadlocks].

    Virtual memory ([DirtySet], [Region], [ArchPages], [VirtMem], [VirtMemInv],
    [VirtMemLost]; src/src/kernel/src/memory/context.rs, context/virtmem.rs,
    context/virtmem/region.rs and fault.rs, memory/pagetables/shared.rs,
    arch/amd64/context.rs, the mapping calls of syscall/object.rs, and the dirty set and
    context counts of obj/mod.rs).  This is where the parts above meet: memory contexts
    with their regions, the tables of each security context, shared tables, object pages,
    permissions and threads in one state, and each operation of the kernel on it as one
    step.  [ArchPages] has the tables at the level of their leaves, as the theorems of
    [PageTableInv] and [PageTableMap] give them.  After any operations from boot the own
    tables of a security context map nothing outside of the regions of its context and
    nothing beyond their protections; unmapping and invalidation reach every such mapping;
    a page fault maps only what security has granted to the faulting thread, and then the
    access goes through.  What is mapped through a shared table is excepted:
    [unmap_keeps_shared] and the theorems of [VirtMemLost] are what goes wrong.
    [regions_refine] and [drain_exact] are about the region manager and the set of dirty
    pages alone.

    Accounting of memory ([MemTracker], [TrackerFrames];
    src/src/kernel/src/memory/tracker.rs).  The counts of pages by their use, allocation
    that waits for memory, freeing and the waking of waiters, one access at a time, over any
    allocator that gives frames of the size asked for that nobody holds; [TrackerFrames]
    shows that the allocator of [FrameAlloc] is one.  The counts add up to the memory there
    is, with what is on its way, and freeing leaves nobody asleep who was waiting.  [stale_waiter_panics] and
    [failed_allocation_strands] are two schedules in which waiting goes wrong.

    Requests to the pager ([PagerReq], [PagerReqInv]; src/src/kernel/src/pager.rs and
    pager/inflight.rs, request.rs and queues.rs).  Threads enter requests in a table of 256
    slots, send their commands and wait; the handler of completions marks, wakes and
    removes.  [pager_waits_end] shows that slots, free bits and the tree of requests agree,
    that whoever waits has a command outstanding whose end wakes them, and that nobody waits
    when all has been answered; it says which completions and syncs make a thread panic.
    [handler_waits_for_itself] is a deadlock of the handler, and
    [requests_go_astray] has three smaller gaps.  [sync_sends_pages] is about the commands
    of a sync, [chunk_covers] about the range of pages asked for around a fault.

    ** How the parts meet

    Lock-free parts share the shape of [RawQueue]: a system state, a step relation, and an
    invariant by induction on runs ([rtc_invariant]).  [FrameAlloc] and the run queues
    are proved against the class [LinkedList]; the page trees and the regions
    of a context against [IntervalTree]; the dirty set against [BitSet];
    mapping against [Provider]; capabilities against [Ecdsa]; word waits against
    [IndexMap]; accounting against [RawFrames]; requests to the pager against [ReqTree]
    and the constants [ObjConsts].  [Pipe] uses the byte buffer through its whole-call functions, [Mutex] uses
    priority donation, [SecCtx] the capabilities, [ObjCopy] the page trees, and [VirtMem]
    the page trees, page tables, regions, dirty sets and security contexts.  [Space] is
    proved against [SlotService], the promise of a slot allocator, which [SlotAlloc] keeps.
    The line discipline is proved against [Sink] and [Source], the promises of bounded
    buffers, which the byte buffer keeps ([PtyEnd]).

    ** Bounds and fuel

    The queue theorems assume fewer than [2^31] reservations and the buffer theorems fewer
    than [2^64] bytes, the widths of the counters; the code compares them modulo these.
    The loops of the page tables are structural on the level and the index.  Fuel
    occurs in loops over queues, over reserved slots, and over regions; each such theorem
    states a bound that is enough (one step per item, slot, or page) and proves the loop
    returns within it.  Probing in the hash map takes one step per bucket, reading lines
    one per byte.  Where a loop of the source does not end, [NoFuel] for every fuel is the
    theorem.  The settings theorem assumes fewer than [2^63] updates, the theorems on
    timeouts fewer than [2^63] ticks and registrations, that on the ticket lock fewer than
    [2^64 - 1] calls of [lock].  The number of frames
    mapping needs is [need], one per chunk of each level that the region touches.  In the
    theorems on virtual memory the size of an object is a power of two from a page to
    [2^44], an object has fewer than [2^64] mappings in a context, the frames for page
    tables are there, a run of pages found by a fault ends within its object ([pages_in]),
    and each operation is atomic.  Accounting is for fewer than [2^64] pages.

    ** Not modelled

    Code whose whole effect is on hardware registers, ports and interrupts (most of
    kernel/src/arch, machine, the clock sources and the drivers), assembly and context switches; the
    scheduler's main loop and processor selection; system call dispatch; the service of
    the pager and file systems, whose behaviour is that of external crates; the dynamic linker and the
    runtime glue; generated secure-gate code; demonstrations and tests.  They either have
    no state a theorem could be about without a model of the device or the crate below
    them, or only pass arguments to parts modelled here.  Within modelled files, printing,
    statistics and tracing are left out, and so is the unwrap of an address read back from a
    page table entry, which was written from a [PhysAddr]. *)
From stdpp Require Export base tactics numbers list list_numbers gmap sets relations.
From Stdlib Require Export ZArith Lia.

#[local] Open Scope Z_scope.

#[global] Arguments Z.land : simpl never.
#[global] Arguments Z.lor : simpl never.
#[global] Arguments Z.lxor : simpl never.
#[global] Arguments Z.ldiff : simpl never.
#[global] Arguments Z.shiftl : simpl never.
#[global] Arguments Z.shiftr : simpl never.
#[global] Arguments Z.testbit : simpl never.
#[global] Arguments Z.pow : simpl never.
#[global] Arguments Z.modulo : simpl never.
#[global] Arguments Z.div : simpl never.

(** ** Outcomes of Rust code

    A Rust function either returns, panics (an [assert!], an [unwrap] of [None],
    an index out of range, an arithmetic overflow in a build that checks it), or,
    for a loop modelled with fuel, runs out of it.  [NoFuel] is never the result
    of a terminating loop given the fuel its theorem states. *)
Inductive outcome (A : Type) : Type :=
| Ret (a : A)
| Panic
| NoFuel.
Arguments Ret {A} a.
Arguments Panic {A}.
Arguments NoFuel {A}.

Definition obind {A B} (m : outcome A) (f : A -> outcome B) : outcome B :=
  match m with Ret a => f a | Panic => Panic | NoFuel => NoFuel end.

Declare Scope outcome_scope.
Delimit Scope outcome_scope with outcome.
Notation "'let!' x ':=' m 'in' k" := (obind m (fun x => k))
  (at level 10, x pattern, m at level 100, k at level 200) : outcome_scope.
#[global] Open Scope outcome_scope.

#[global] Instance outcome_eq_dec {A} `{EqDecision A} : EqDecision (outcome A).
Proof. solve_decision. Defined.

(** The value returned, or a default. *)
Definition ret_or {A} (d : A) (m : outcome A) : A := match m with Ret a => a | _ => d end.

(** Inversion of a returned tuple that does not reduce its components. *)
Lemma Ret_inj {A} (a a' : A) : Ret a = Ret a' -> a = a'.
Proof. by intros [= ->]. Qed.

Lemma Ret_pair {A B} (a a' : A) (b b' : B) : Ret (a, b) = Ret (a', b') -> a = a' /\ b = b'.
Proof. by intros [= -> ->]. Qed.

Lemma Ret_triple {A B C} (a a' : A) (b b' : B) (c c' : C) :
  Ret (a, b, c) = Ret (a', b', c') -> a = a' /\ b = b' /\ c = c'.
Proof. by intros [= -> -> ->]. Qed.

(** [assert!(b)] *)
Definition rassert (b : bool) : outcome unit := if b then Ret tt else Panic.

(** [Option::unwrap] *)
Definition unwrap {A} (o : option A) : outcome A :=
  match o with Some a => Ret a | None => Panic end.

(** [Result<A, E>] *)
Inductive result (A E : Type) : Type :=
| Ok (a : A)
| Err (e : E).
Arguments Ok {A E} a.
Arguments Err {A E} e.

#[global] Instance result_eq_dec {A E} `{EqDecision A, EqDecision E} : EqDecision (result A E).
Proof. solve_decision. Defined.

Definition is_ok {A E} (r : result A E) : bool :=
  match r with Ok _ => true | Err _ => false end.

(** ** Machine integers

    A [w]-bit unsigned integer is a [Z] in [0, 2^w).  Rust's [+], [-], [*] panic on
    overflow in a build with overflow checks (the dev profile) and wrap around in
    one without (the release profile); the workspace sets neither, so every model
    takes the profile as a parameter and the theorems hold for both.  Atomic
    [fetch_add] and [fetch_sub] always wrap. *)
Class Build := overflow_checks : bool.

Definition wrap (w z : Z) : Z := z mod 2 ^ w.

Definition in_u (w z : Z) : bool := (0 <=? z) && (z <? 2 ^ w).

Definition chk `{Build} (w z : Z) : outcome Z :=
  if in_u w z then Ret z
  else if overflow_checks then Panic else Ret (wrap w z).

Definition checked_add (w a b : Z) : option Z := if in_u w (a + b) then Some (a + b) else None.
Definition checked_sub (w a b : Z) : option Z := if in_u w (a - b) then Some (a - b) else None.
Definition saturating_sub (a b : Z) : Z := Z.max 0 (a - b).

Lemma in_u_spec w z : in_u w z = true <-> 0 <= z < 2 ^ w.
Proof. unfold in_u. rewrite andb_true_iff, Z.leb_le, Z.ltb_lt. done. Qed.

Lemma in_u_false w z : in_u w z = false <-> z < 0 \/ 2 ^ w <= z.
Proof. unfold in_u. rewrite andb_false_iff, Z.leb_gt, Z.ltb_ge. done. Qed.

Lemma chk_in `{Build} w z : 0 <= z < 2 ^ w -> chk w z = Ret z.
Proof. intros Hz. unfold chk. by rewrite (proj2 (in_u_spec w z) Hz). Qed.

Lemma chk_range `{Build} w z r : 0 <= w -> chk w z = Ret r -> 0 <= r < 2 ^ w.
Proof.
  unfold chk. intros Hw. destruct (in_u w z) eqn:E; [intros [= <-]; by apply in_u_spec|].
  destruct overflow_checks; [done|]. intros [= <-]. apply Z.mod_pos_bound. by apply Z.pow_pos_nonneg.
Qed.

Lemma wrap_small w z : 0 <= z < 2 ^ w -> wrap w z = z.
Proof. intros. unfold wrap. by apply Z.mod_small. Qed.

Lemma wrap_range w z : 0 <= w -> 0 <= wrap w z < 2 ^ w.
Proof. intros. unfold wrap. apply Z.mod_pos_bound. by apply Z.pow_pos_nonneg. Qed.

Lemma pow2_pos n : 0 <= n -> 0 < 2 ^ n.
Proof. intros. by apply Z.pow_pos_nonneg. Qed.

(** Masks: [x & (2^n - 1)] is [x mod 2^n]. *)
Lemma land_mask x n m : 0 <= n -> m = 2 ^ n - 1 -> Z.land x m = x mod 2 ^ n.
Proof.
  intros Hn ->. rewrite <- Z.land_ones by done.
  by rewrite Z.ones_equiv, Z.sub_1_r.
Qed.

(** A field of [n] bits below another: [(a << n) | b]. *)
Lemma lor_shiftl_add a b n : 0 <= n -> 0 <= b < 2 ^ n -> Z.lor (Z.shiftl a n) b = a * 2 ^ n + b.
Proof.
  intros Hn Hb. pose proof (Z.add_lor_land (Z.shiftl a n) b) as E.
  assert (Z.land (Z.shiftl a n) b = 0) as E0.
  { apply Z.bits_inj'. intros m Hm. rewrite Z.land_spec, Z.bits_0. destruct (decide (m < n)).
    - by rewrite Z.shiftl_spec_low.
    - rewrite <- (Z.mod_small b (2 ^ n)), Z.mod_pow2_bits_high by lia. by rewrite andb_false_r. }
  rewrite Z.shiftl_mul_pow2 in * by done. lia.
Qed.

Lemma shiftr_field a b n : 0 <= n -> 0 <= b < 2 ^ n -> Z.shiftr (a * 2 ^ n + b) n = a.
Proof. intros Hn Hb. rewrite Z.shiftr_div_pow2 by done. rewrite Z.div_add_l by lia. rewrite Z.div_small by lia. lia. Qed.

Lemma land_field a b n m : 0 <= n -> 0 <= b < 2 ^ n -> m = 2 ^ n - 1 -> Z.land (a * 2 ^ n + b) m = b.
Proof. intros Hn Hb Hm. rewrite (land_mask _ n) by done. rewrite Z.add_comm, Z_mod_plus_full. by apply Z.mod_small. Qed.

(** Testing, setting and clearing one flag bit. *)
Lemma land_bit f k : 0 <= k -> (Z.land f (2 ^ k) =? 0) = negb (Z.testbit f k).
Proof.
  intros Hk. destruct (Z.testbit f k) eqn:E; simpl.
  - apply Z.eqb_neq. intros H0. assert (Z.testbit (Z.land f (2 ^ k)) k = true) as Ht.
    { by rewrite Z.land_spec, E, Z.pow2_bits_true by done. }
    by rewrite H0, Z.bits_0 in Ht.
  - apply Z.eqb_eq, Z.bits_inj'. intros m Hm. rewrite Z.land_spec, Z.bits_0.
    destruct (decide (m = k)) as [->|]; [by rewrite E|]. by rewrite Z.pow2_bits_false, andb_false_r.
Qed.

Lemma testbit_lor_bit f k j : 0 <= k -> Z.testbit (Z.lor f (2 ^ k)) j = Z.testbit f j || bool_decide (k = j).
Proof. intros Hk. rewrite Z.lor_spec, Z.pow2_bits_eqb by done. f_equal. by destruct (Z.eqb_spec k j), (bool_decide_reflect (k = j)). Qed.

Lemma testbit_ldiff_bit f k j : 0 <= k -> Z.testbit (Z.ldiff f (2 ^ k)) j = Z.testbit f j && bool_decide (k <> j).
Proof.
  intros Hk. rewrite Z.ldiff_spec, Z.pow2_bits_eqb by done. f_equal.
  destruct (Z.eqb_spec k j); [rewrite bool_decide_eq_false_2 by tauto|rewrite bool_decide_eq_true_2 by done]; done.
Qed.

(** Decide the integer comparisons of the goal that [lia] settles. *)
Ltac zbool :=
  repeat match goal with
  | |- context [Z.eqb ?a ?b] =>
      first [ rewrite (proj2 (Z.eqb_eq a b)) by lia | rewrite (proj2 (Z.eqb_neq a b)) by lia ]
  | |- context [Z.leb ?a ?b] =>
      first [ rewrite (proj2 (Z.leb_le a b)) by lia | rewrite (proj2 (Z.leb_gt a b)) by lia ]
  | |- context [Z.ltb ?a ?b] =>
      first [ rewrite (proj2 (Z.ltb_lt a b)) by lia | rewrite (proj2 (Z.ltb_ge a b)) by lia ]
  end.

(** The lemmas that settle the arithmetic side conditions of the models. *)
Create HintDb twz.
#[export] Hint Resolve wrap_range pow2_pos : twz.
Create Rewrite HintDb twz.
#[export] Hint Rewrite @wrap_small @chk_in using lia : twz.

(** ** Lists addressed by [Z] *)
Definition zlen {A} (l : list A) : Z := Z.of_nat (length l).

Lemma zlen_nonneg {A} (l : list A) : 0 <= zlen l.
Proof. unfold zlen. lia. Qed.

Lemma zlen_app {A} (l k : list A) : zlen (l ++ k) = zlen l + zlen k.
Proof. unfold zlen. rewrite length_app. lia. Qed.

(** ** Counting the entries of a map *)
Section mcount.
Context {A : Type} (P : A -> bool).
Implicit Types m : gmap nat A.

Definition mcount m : Z := Z.of_nat (size (filter (fun x => P x.2 = true) m)).

Definition holds_at m (i : nat) : bool := match m !! i with Some x => P x | None => false end.

Lemma mcount_nonneg m : 0 <= mcount m.
Proof. unfold mcount. lia. Qed.

Lemma mcount_new m i x : m !! i = None -> mcount (<[i := x]> m) = mcount m + Z.b2z (P x).
Proof.
  intros Hi. unfold mcount. rewrite map_filter_insert.
  assert (filter (fun x => P x.2 = true) m !! i = None) as Hf by (apply map_lookup_filter_None; by left).
  case_decide as E; simpl in *.
  - rewrite map_size_insert_None, E by done. simpl. lia.
  - rewrite delete_id by done. destruct (P x); [done|]. simpl. lia.
Qed.

Lemma mcount_delete m i : mcount (delete i m) = mcount m - Z.b2z (holds_at m i).
Proof.
  unfold holds_at. destruct (m !! i) as [x|] eqn:E.
  - rewrite <- (insert_delete_id m i x E) at 2. rewrite mcount_new by apply lookup_delete_eq. lia.
  - rewrite delete_id by done. simpl. lia.
Qed.

Lemma mcount_insert m i x : mcount (<[i := x]> m) = mcount m - Z.b2z (holds_at m i) + Z.b2z (P x).
Proof. rewrite <- insert_delete_eq, mcount_new, mcount_delete by apply lookup_delete_eq. lia. Qed.

Lemma mcount_pos m i x : m !! i = Some x -> P x = true -> 1 <= mcount m.
Proof.
  intros Hi Hx. pose proof (mcount_delete m i) as E. unfold holds_at in E. rewrite Hi, Hx in E. simpl in E.
  pose proof (mcount_nonneg (delete i m)). lia.
Qed.

Lemma mcount_zero m : map_Forall (fun _ x => P x = false) m -> mcount m = 0.
Proof.
  intros Hm. unfold mcount. replace (filter _ m) with (∅ : gmap nat A); [done|].
  symmetry. apply map_empty. intros i. apply map_lookup_filter_None. right.
  intros x Hx. simpl. by rewrite (Hm i x Hx).
Qed.

Lemma mcount_fmap (f : A -> A) m : (forall x, P (f x) = P x) -> mcount (f <$> m) = mcount m.
Proof.
  intros Hf. unfold mcount. rewrite map_filter_fmap, map_size_fmap. do 2 f_equal.
  apply map_filter_ext. intros i x _. simpl. by rewrite Hf.
Qed.
End mcount.
#[global] Arguments mcount : simpl never.

(** ** Postconditions

    What holds of the value of a computation, if it has one. *)
Definition post {A} (m : outcome A) (Q : A -> Prop) : Prop := forall a, m = Ret a -> Q a.

Lemma post_ret {A} (a : A) (Q : A -> Prop) : Q a -> post (Ret a) Q.
Proof. by intros Ha b [= <-]. Qed.

Lemma post_panic {A} (Q : A -> Prop) : post Panic Q.
Proof. by intros a. Qed.

Lemma post_nofuel {A} (Q : A -> Prop) : post NoFuel Q.
Proof. by intros a. Qed.

Lemma post_bind {A B} (m : outcome A) (k : A -> outcome B) (P : A -> Prop) (Q : B -> Prop) :
  post m P -> (forall a, P a -> post (k a) Q) -> post (obind m k) Q.
Proof. intros Hm Hk b. destruct m as [a| |]; cbn [obind]; [|discriminate..]. intros E. by eapply Hk; [apply Hm|]. Qed.

Lemma post_any {A B} (m : outcome A) (k : A -> outcome B) (Q : B -> Prop) :
  (forall a, m = Ret a -> post (k a) Q) -> post (obind m k) Q.
Proof. intros Hk b. destruct m as [a| |]; cbn [obind]; [|discriminate..]. by apply Hk. Qed.

Lemma obind_Ret {A B} (m : outcome A) (k : A -> outcome B) b : obind m k = Ret b -> exists a, m = Ret a /\ k a = Ret b.
Proof. destruct m as [a| |]; [|discriminate..]. by exists a. Qed.

Lemma post_weaken {A} (m : outcome A) (P Q : A -> Prop) : post m P -> (forall a, P a -> Q a) -> post m Q.
Proof. intros Hm Hi a E. by apply Hi, Hm. Qed.

Create HintDb post.
#[export] Hint Resolve post_ret post_panic post_nofuel : post.

(** ** Vectors *)

(** [iter().position(..)] *)
Fixpoint position {A} (p : A -> bool) (l : list A) : option nat :=
  match l with
  | [] => None
  | x :: l => if p x then Some O else S <$> position p l
  end.

(** The last element takes the place of the one removed; an index out of range panics. *)
Definition swap_remove {A} (l : list A) (i : nat) : outcome (A * list A) :=
  let! x := unwrap (l !! i) in
  let! y := unwrap (last l) in
  Ret (x, take (length l - 1) (<[i := y]> l)).

Lemma position_Some {A} (p : A -> bool) l i : position p l = Some i -> exists x, l !! i = Some x /\ p x = true.
Proof.
  revert i. induction l as [|x l IH]; intros i; cbn; [done|]. destruct (p x) eqn:E; [intros [= <-]; by exists x|].
  destruct (position p l) as [j|]; [|done]. intros [= <-]. destruct (IH j eq_refl) as (y & Hy & Hp). by exists y.
Qed.

Lemma position_None {A} (p : A -> bool) l : position p l = None -> Forall (fun x => p x = false) l.
Proof.
  induction l as [|x l IH]; cbn; [constructor|]. destruct (p x) eqn:E; [done|]. destruct (position p l); [done|]. constructor; auto.
Qed.

Lemma swap_remove_ok {A} (l : list A) i x : l !! i = Some x -> exists l', swap_remove l i = Ret (x, l') /\ l ≡ₚ x :: l'.
Proof.
  intros Hi. unfold swap_remove. rewrite Hi. cbn [unwrap obind]. destruct (last l) as [y|] eqn:El.
  2:{ apply last_None in El as ->. done. }
  cbn [unwrap obind]. eexists. split; [done|]. apply last_Some in El as [k ->]. rewrite length_app. cbn [length].
  replace (length k + 1 - 1)%nat with (length k) by lia. destruct (decide (i < length k)%nat) as [Hlt|Hge].
  - rewrite insert_app_l, take_app_length' by (rewrite ?length_insert; done). rewrite lookup_app_l in Hi by done.
    rewrite (Permutation_app_comm k [y]). cbn. rewrite insert_take_drop by done.
    rewrite <- (take_drop_middle k i x) at 1 by done. rewrite <- !Permutation_middle. apply perm_swap.
  - assert (i = length k) as -> by (apply lookup_lt_Some in Hi; rewrite length_app in Hi; cbn in Hi; lia).
    rewrite lookup_app_r, Nat.sub_diag in Hi by lia. cbn in Hi. injection Hi as ->.
    rewrite insert_app_r_alt, take_app_length by lia. by rewrite Permutation_app_comm.
Qed.

(** ** Reachability

    An invariant that holds initially and is kept by every step holds in every
    reachable state. *)
Lemma rtc_invariant {S} (R : relation S) (I : S -> Prop) (s0 s : S) :
  I s0 -> (forall a b, I a -> R a b -> I b) -> rtc R s0 s -> I s.
Proof. intros H0 Hstep Hr. induction Hr; eauto. Qed.

(** ** Sums over maps *)
Definition gsum {K V} `{Countable K} (w : V -> Z) (m : gmap K V) : Z := map_fold (fun _ v acc => w v + acc) 0 m.

Lemma gsum_empty {K V} `{Countable K} (w : V -> Z) : gsum w (∅ : gmap K V) = 0.
Proof. apply map_fold_empty. Qed.

Lemma gsum_delete {K V} `{Countable K} (w : V -> Z) (m : gmap K V) k v : m !! k = Some v -> gsum w (delete k m) = gsum w m - w v.
Proof. intros Hk. unfold gsum. rewrite (map_fold_delete_L _ _ k v m); [lia| |done]. intros. lia. Qed.

Lemma gsum_insert {K V} `{Countable K} (w : V -> Z) (m : gmap K V) k v : gsum w (<[k := v]> m) = gsum w m - default 0 (w <$> m !! k) + w v.
Proof.
  destruct (m !! k) as [v'|] eqn:E; cbn [fmap option_fmap option_map default].
  - rewrite <- insert_delete_eq. unfold gsum at 1. rewrite map_fold_insert_L; [|intros; lia|apply lookup_delete_eq]. fold (gsum w (delete k m)). rewrite (gsum_delete w m k v') by done. cbn. lia.
  - unfold gsum at 1. rewrite map_fold_insert_L; [|intros; lia|done]. fold (gsum w m). cbn. lia.
Qed.

Lemma gsum_nonneg {K V} `{Countable K} (w : V -> Z) (m : gmap K V) : (forall k v, m !! k = Some v -> 0 <= w v) -> 0 <= gsum w m.
Proof.
  induction m as [|k v m Hk IH] using map_ind; intros Hw; [by rewrite gsum_empty|]. rewrite gsum_insert, Hk. cbn.
  pose proof (Hw k v ltac:(apply lookup_insert_eq)). assert (0 <= gsum w m); [|lia]. apply IH. intros k' v' Hv. apply (Hw k'). rewrite lookup_insert_ne; [done|congruence].
Qed.

Lemma gsum_ge {K V} `{Countable K} (w : V -> Z) (m : gmap K V) k v : (forall k v, m !! k = Some v -> 0 <= w v) -> m !! k = Some v -> w v <= gsum w m.
Proof.
  intros Hw Hk. pose proof (gsum_delete w m k v Hk). assert (0 <= gsum w (delete k m)); [|lia]. apply gsum_nonneg. intros k' v' [_ Hv]%lookup_delete_Some. by apply (Hw k').
Qed.
