(* ===== verification/Intrusive.v ===== *)
(** * The intrusive linked list

    The kernel keeps frames and threads in [LinkedList]s of the [intrusive_collections]
    crate, which is not part of this repository.  [LinkedList] is what its documentation
    promises of the operations used: a deque of the elements that are linked. *)
From S2P Require Import Prelude.

Class LinkedList (A L : Type) := {
  ll_new : L;
  ll_push_back : L -> A -> L;
  ll_pop_back : L -> option A * L;
  ll_pop_front : L -> option A * L;
  ll_is_empty : L -> bool;
  (** Iteration, front to back. *)
  ll_list : L -> list A;
  (** A cursor moved from the front to the first element that satisfies the test, and
      that element removed; nothing if there is none. *)
  ll_remove : (A -> bool) -> L -> L;
  ll_new_spec : ll_list ll_new = [];
  ll_push_spec l x : ll_list (ll_push_back l x) = ll_list l ++ [x];
  ll_pop_nil l : ll_list l = [] -> ll_pop_back l = (None, l);
  ll_pop_snoc l xs x : ll_list l = xs ++ [x] ->
    exists l', ll_pop_back l = (Some x, l') /\ ll_list l' = xs;
  ll_front_nil l : ll_list l = [] -> ll_pop_front l = (None, l);
  ll_front_cons l x xs : ll_list l = x :: xs ->
    exists l', ll_pop_front l = (Some x, l') /\ ll_list l' = xs;
  ll_is_empty_spec l : ll_is_empty l = true <-> ll_list l = [];
  ll_remove_none p l : Forall (fun x => p x = false) (ll_list l) -> ll_list (ll_remove p l) = ll_list l;
  ll_remove_some p l xs x ys : ll_list l = xs ++ x :: ys -> Forall (fun y => p y = false) xs -> p x = true ->
    ll_list (ll_remove p l) = xs ++ ys }.

Fixpoint remove_first {A} (p : A -> bool) (l : list A) : list A :=
  match l with
  | [] => []
  | x :: xs => if p x then xs else x :: remove_first p xs
  end.

#[refine, global] Instance LinkedList_list (A : Type) : LinkedList A (list A) := {
  ll_new := [];
  ll_push_back l x := l ++ [x];
  ll_pop_back l := match last l with Some x => (Some x, removelast l) | None => (None, l) end;
  ll_pop_front l := match l with x :: xs => (Some x, xs) | [] => (None, l) end;
  ll_is_empty l := match l with [] => true | _ => false end;
  ll_list l := l;
  ll_remove := remove_first }.
Proof.
  - done.
  - done.
  - by intros l ->.
  - intros l xs x ->. rewrite last_snoc, removelast_last. by exists xs.
  - by intros l ->.
  - intros l x xs ->. by exists xs.
  - by intros [].
  - intros p l. induction 1 as [|x l Hx _ IH]; simpl; [done|]. by rewrite Hx, IH.
  - intros p l xs x ys -> Hxs Hx. induction Hxs as [|y xs Hy _ IH]; simpl; [by rewrite Hx|]. by rewrite Hy, IH.
Defined.
