(* ===== verification/RawQueue.v ===== *)
(** * The raw queue of [src/lib/twizzler-queue-raw]

    A bounded multi-producer single-consumer ring shared between threads: a header
    of atomic counters ([RawQueueHdr]) and a buffer of entries.  [submit] reserves a
    slot with a compare-exchange on [head], fills it, publishes it by writing the
    turn bit of its [cmd_slot], and rings the [bell]; [receive] takes the slot at
    [tail] once its turn bit matches.

    Every atomic access is one step of a thread ([reserve_slot_step],
    [submit_step], [get_next_ready_step], [receive_step]); [sys_step] interleaves
    any number of producers with the one consumer the queue allows. *)
From S2P Require Import Prelude.

#[local] Open Scope Z_scope.

Module RawQueue.

Definition MASK31 : Z := 0x7fffffff.
Definition BIT31 : Z := 0x80000000.

(** ** Data *)
Record QueueEntry (T : Type) := mkEntry { cmd_slot : Z; info : Z; data : T }.
Arguments mkEntry {T} _ _ _.
Arguments cmd_slot {T} _.
Arguments info {T} _.
Arguments data {T} _.

Definition QueueEntry_new {T} (inf : Z) (item : T) : QueueEntry T := mkEntry 0 inf item.

Record RawQueueHdr := mkHdr {
  l2len : Z; stride : Z; head : Z; waiters : Z; bell : Z; tail : Z }.

Inductive QueueError := Unknown | WouldBlock.

#[global] Instance QueueError_eq_dec : EqDecision QueueError.
Proof. solve_decision. Defined.

Definition set_head (q : RawQueueHdr) (v : Z) :=
  mkHdr (l2len q) (stride q) v (waiters q) (bell q) (tail q).
Definition set_waiters (q : RawQueueHdr) (v : Z) :=
  mkHdr (l2len q) (stride q) (head q) v (bell q) (tail q).
Definition set_bell (q : RawQueueHdr) (v : Z) :=
  mkHdr (l2len q) (stride q) (head q) (waiters q) v (tail q).
Definition set_tail (q : RawQueueHdr) (v : Z) :=
  mkHdr (l2len q) (stride q) (head q) (waiters q) (bell q) v.

(** ** Header operations *)
Definition RawQueueHdr_new (l2 st : Z) : RawQueueHdr := mkHdr l2 st 0 0 0 0.

(** [1 << self.l2len] *)
Definition len (q : RawQueueHdr) : Z := Z.shiftl 1 (l2len q).

Definition len_bytes `{Build} (q : RawQueueHdr) : outcome Z := chk 64 (len q * stride q).

Definition is_full `{Build} (q : RawQueueHdr) (h t : Z) : outcome bool :=
  let! d := chk 64 (Z.land h MASK31 - Z.land t MASK31) in
  Ret (len q <=? d).

Definition is_empty (bell tail : Z) : bool := Z.land bell MASK31 =? Z.land tail MASK31.

Definition is_turn {T} (q : RawQueueHdr) (t : Z) (item : QueueEntry T) : bool :=
  let turn := (t / len q) mod 2 in
  let val := Z.shiftr (cmd_slot item) 31 in
  Bool.eqb (val =? 0) (turn =? 1).

Definition consumer_waiting (q : RawQueueHdr) : bool := negb (Z.land (tail q) BIT31 =? 0).

Definition submitter_waiting (q : RawQueueHdr) : bool := 0 <? waiters q.

Definition consumer_set_waiting (q : RawQueueHdr) (waiting : bool) : RawQueueHdr :=
  if waiting then set_tail q (Z.lor (tail q) BIT31)
  else set_tail q (Z.ldiff (tail q) BIT31).

Definition inc_submit_waiting (q : RawQueueHdr) : RawQueueHdr :=
  set_waiters q (wrap 32 (waiters q + 1)).

Definition dec_submit_waiting (q : RawQueueHdr) : RawQueueHdr :=
  set_waiters q (wrap 32 (waiters q - 1)).

(** [(h / self.len() as u32) % 2 == 0] *)
Definition get_turn (q : RawQueueHdr) (h : Z) : bool := (h / wrap 32 (len q)) mod 2 =? 0.

(** The index [get_buf] adds to the buffer pointer. *)
Definition buf_idx (q : RawQueueHdr) (off : Z) : nat := Z.to_nat (Z.land off (len q - 1)).

Definition get_buf {T} (q : RawQueueHdr) (buf : list (QueueEntry T)) (off : Z)
  : outcome (QueueEntry T) := unwrap (buf !! buf_idx q off).

(** ** [reserve_slot], one atomic access at a time

    [RsWait h t] is the call [wait(&self.tail, t)]; [RsSleep] is the thread blocked
    inside it.  The callback's contract, from the comment on [submit]: it waits until
    the word differs from the value, or until the word is rung. *)
Inductive rs_pc :=
| RsLoadHead
| RsLoadTail (h : Z)
| RsCas (h : Z)
| RsIncWait (h : Z)
| RsLoadTail2 (h : Z)
| RsWait (t : Z)
| RsSleep (t : Z)
| RsDecWait (h : Z).

Record rs_local := mkRs { rs_at : rs_pc; waiter : bool; attempts : Z }.

Definition rs_init : rs_local := mkRs RsLoadHead false 1000.

Definition rs_goto (l : rs_local) (pc : rs_pc) : rs_local := mkRs pc (waiter l) (attempts l).

Definition reserve_slot_step `{Build} (nonblock : bool) (q : RawQueueHdr) (l : rs_local)
  : outcome (RawQueueHdr * (rs_local + result Z QueueError)) :=
  match rs_at l with
  | RsLoadHead => Ret (q, inl (rs_goto l (RsLoadTail (head q))))
  | RsLoadTail h =>
      let! full := is_full q h (tail q) in
      Ret (q,
        if negb full then inl (rs_goto l (RsCas h))
        else if nonblock then inr (Err WouldBlock)
        else if negb (attempts l =? 0) then inl (mkRs RsLoadHead (waiter l) (attempts l - 1))
        else if negb (waiter l) then inl (mkRs (RsIncWait h) true (attempts l))
        else inl (rs_goto l (RsLoadTail2 h)))
  | RsCas h =>
      let! h1 := chk 32 (h + 1) in
      Ret (if head q =? h
           then (set_head q h1,
                 if waiter l then inl (rs_goto l (RsDecWait h)) else inr (Ok (Z.land h MASK31)))
           else (q, inl (rs_goto l RsLoadHead)))
  | RsIncWait h => Ret (inc_submit_waiting q, inl (rs_goto l (RsLoadTail2 h)))
  | RsLoadTail2 h =>
      let! full := is_full q h (tail q) in
      Ret (q, inl (rs_goto l (if full then RsWait (tail q) else RsLoadHead)))
  | RsWait t => Ret (q, inl (rs_goto l (if tail q =? t then RsSleep t else RsLoadHead)))
  | RsSleep t => Ret (q, inl (rs_goto l RsLoadHead))
  | RsDecWait h => Ret (dec_submit_waiting q, inr (Ok (Z.land h MASK31)))
  end.

(** ** [submit] *)
Inductive submit_pc :=
| SubReserve (l : rs_local)
| SubData (h : Z)
| SubInfo (h : Z)
| SubCmd (h : Z)
| SubBell (h : Z)        (* [ring]: [self.bell.fetch_add(1)] *)
| SubCheckWaiting        (* [ring]: [if self.consumer_waiting() { ring(&self.bell) }] *)
| SubDone (r : result unit QueueError).

(** The value [submit] stores into [cmd_slot]: [h | if turn { 1u32 << 31 } else { 0 }]. *)
Definition cmd_of (q : RawQueueHdr) (h : Z) : Z :=
  Z.lor h (if get_turn q h then BIT31 else 0).

(** [submit_step] gives the header, the buffer, the next program point and whether
    [ring(&self.bell)] was called. *)
Definition submit_step `{Build} {T} (item : QueueEntry T) (nonblock : bool)
    (q : RawQueueHdr) (buf : list (QueueEntry T)) (pc : submit_pc)
  : outcome (RawQueueHdr * list (QueueEntry T) * submit_pc * bool) :=
  match pc with
  | SubReserve l =>
      let! (q', r) := reserve_slot_step nonblock q l in
      Ret (q', buf,
           match r with
           | inl l' => SubReserve l'
           | inr (Ok h) => SubData h
           | inr (Err e) => SubDone (Err e)
           end, false)
  | SubData h =>
      let! e := get_buf q buf h in
      Ret (q, <[buf_idx q h := mkEntry (cmd_slot e) (info e) (data item)]> buf, SubInfo h, false)
  | SubInfo h =>
      let! e := get_buf q buf h in
      Ret (q, <[buf_idx q h := mkEntry (cmd_slot e) (info item) (data e)]> buf, SubCmd h, false)
  | SubCmd h =>
      let! e := get_buf q buf h in
      Ret (q, <[buf_idx q h := mkEntry (cmd_of q h) (info e) (data e)]> buf, SubBell h, false)
  | SubBell h => Ret (set_bell q (wrap 64 (bell q + 1)), buf, SubCheckWaiting, false)
  | SubCheckWaiting => Ret (q, buf, SubDone (Ok tt), consumer_waiting q)
  | SubDone r => Ret (q, buf, SubDone r, false)
  end.

(** ** [get_next_ready], [advance_tail] and [receive] *)
Inductive gn_pc :=
| GnLoadTail
| GnLoadBell (t : Z)
| GnCheck (t b : Z)
| GnSetWait (t : Z)
| GnLoadBell2 (t : Z)
| GnCheck2 (t b : Z)
| GnWait (b : Z)
| GnSleep (b : Z)
| GnClear (t : Z).

Record gn_local := mkGn { gn_at : gn_pc; gn_attempts : Z }.

Definition gn_init : gn_local := mkGn GnLoadTail 1000.

Definition gn_goto (l : gn_local) (pc : gn_pc) : gn_local := mkGn pc (gn_attempts l).

Definition get_next_ready_step {T} (nonblock : bool) (q : RawQueueHdr)
    (buf : list (QueueEntry T)) (l : gn_local)
  : outcome (RawQueueHdr * (gn_local + result Z QueueError)) :=
  match gn_at l with
  | GnLoadTail => Ret (q, inl (gn_goto l (GnLoadBell (Z.land (tail q) MASK31))))
  | GnLoadBell t => Ret (q, inl (gn_goto l (GnCheck t (bell q))))
  | GnCheck t b =>
      let! item := get_buf q buf t in
      Ret (q,
        if negb (is_empty b t) && is_turn q t item
        then (if gn_attempts l =? 0 then inl (gn_goto l (GnClear t)) else inr (Ok t))
        else if nonblock then inr (Err WouldBlock)
        else if negb (gn_attempts l =? 0) then inl (mkGn GnLoadTail (gn_attempts l - 1))
        else inl (gn_goto l (GnSetWait t)))
  | GnSetWait t => Ret (consumer_set_waiting q true, inl (gn_goto l (GnLoadBell2 t)))
  | GnLoadBell2 t => Ret (q, inl (gn_goto l (GnCheck2 t (bell q))))
  | GnCheck2 t b =>
      let! item := get_buf q buf t in
      Ret (q, inl (gn_goto l
        (if is_empty b t || negb (is_turn q t item) then GnWait b else GnLoadTail)))
  | GnWait b => Ret (q, inl (gn_goto l (if bell q =? b then GnSleep b else GnLoadTail)))
  | GnSleep b => Ret (q, inl (gn_goto l GnLoadTail))
  | GnClear t => Ret (consumer_set_waiting q false, inr (Ok t))
  end.

Inductive receive_pc (T : Type) :=
| RcGet (l : gn_local)
| RcRead (t : Z)
| RcAdvLoad (item : QueueEntry T)
| RcAdvStore (item : QueueEntry T) (t : Z)
| RcAdvCheck (item : QueueEntry T)
| RcDone (r : result (QueueEntry T) QueueError).
Arguments RcGet {T} _.
Arguments RcRead {T} _.
Arguments RcAdvLoad {T} _.
Arguments RcAdvStore {T} _ _.
Arguments RcAdvCheck {T} _.
Arguments RcDone {T} _.

(** [receive_step] gives the header, the next program point and whether
    [ring(&self.tail)] was called. *)
Definition receive_step `{Build} {T} (nonblock : bool) (q : RawQueueHdr)
    (buf : list (QueueEntry T)) (pc : receive_pc T)
  : outcome (RawQueueHdr * receive_pc T * bool) :=
  match pc with
  | RcGet l =>
      let! (q', r) := get_next_ready_step nonblock q buf l in
      Ret (q', match r with
               | inl l' => RcGet l'
               | inr (Ok t) => RcRead t
               | inr (Err e) => RcDone (Err e)
               end, false)
  | RcRead t => let! item := get_buf q buf t in Ret (q, RcAdvLoad item, false)
  | RcAdvLoad item => Ret (q, RcAdvStore item (tail q), false)
  | RcAdvStore item t =>
      let! t1 := chk 64 (t + 1) in
      Ret (set_tail q (Z.land t1 MASK31), RcAdvCheck item, false)
  | RcAdvCheck item => Ret (q, RcDone (Ok item), submitter_waiting q)
  | RcDone r => Ret (q, RcDone r, false)
  end.

(** ** Polling and sleeping on several queues

    These operations are given for a queue no other thread changes meanwhile: each is
    a function of the header and the buffer. *)
Definition has_pending {T} (q : RawQueueHdr) (raw_buf : list (QueueEntry T)) : outcome bool :=
  let t := Z.land (tail q) MASK31 in
  let b := bell q in
  let! item := get_buf q raw_buf t in
  Ret (negb (is_empty b t) && is_turn q t item).

Definition has_space `{Build} (q : RawQueueHdr) : outcome bool :=
  let! full := is_full q (head q) (tail q) in
  Ret (negb full).

(** A word of the header that a thread sleeps on or rings. *)
Inductive word := Bell | Tail.

#[global] Instance word_eq_dec : EqDecision word.
Proof. solve_decision. Defined.

Definition setup_rec_sleep_simple (q : RawQueueHdr) : RawQueueHdr * (word * Z) :=
  let q' := consumer_set_waiting q true in
  (q', (Bell, Z.land (tail q') MASK31)).

Definition setup_send_sleep_simple `{Build} (q : RawQueueHdr) : outcome (RawQueueHdr * (word * Z)) :=
  let t := Z.land (tail q) MASK31 in
  let h := Z.land (head q) MASK31 in
  let! full := is_full q h t in
  Ret (q, (Tail, if full then t else 2 ^ 64 - 1)).

Definition waiter_slot : Type := option word * Z.

Definition setup_rec_sleep {T} (q : RawQueueHdr) (sleep : bool) (raw_buf : list (QueueEntry T))
  : outcome (RawQueueHdr * waiter_slot * result Z QueueError) :=
  let t := Z.land (tail q) MASK31 in
  let b := bell q in
  let! item := get_buf q raw_buf t in
  if is_empty b t || negb (is_turn q t item) then
    if sleep then
      let q' := consumer_set_waiting q true in
      let b' := bell q' in
      if negb (is_empty b' t) && is_turn q' t item then Ret (q', (Some Bell, b'), Ok t)
      else Ret (q', (Some Bell, b'), Err WouldBlock)
    else Ret (q, (Some Bell, b), Err WouldBlock)
  else Ret (q, (Some Bell, b), Ok t).

Definition advance_tail_setup `{Build} (q : RawQueueHdr) (ringer : option word)
  : outcome (RawQueueHdr * option word) :=
  let t := tail q in
  let! t1 := chk 64 (t + 1) in
  let q' := set_tail q (Z.land t1 MASK31) in
  Ret (q', if submitter_waiting q' then Some Tail else ringer).

(** What [setup_sleep] writes through its references. *)
Record poll (T : Type) := mkPoll {
  pq : RawQueueHdr; pbuf : list (QueueEntry T);
  output : option (QueueEntry T); pwaiter : waiter_slot; ringer : option word }.
Arguments mkPoll {T} _ _ _ _ _.
Arguments pq {T} _.
Arguments pbuf {T} _.
Arguments output {T} _.
Arguments pwaiter {T} _.
Arguments ringer {T} _.

Definition setup_sleep `{Build} {T} (sleep : bool) (x : poll T)
  : outcome (poll T * result unit QueueError) :=
  let! (q, w, r) := setup_rec_sleep (pq x) sleep (pbuf x) in
  match r with
  | Err e => Ret (mkPoll q (pbuf x) (output x) w (ringer x), Err e)
  | Ok t =>
      let! item := get_buf q (pbuf x) t in
      let! (q', rg) := advance_tail_setup q (ringer x) in
      Ret (mkPoll q' (pbuf x) (Some item) w rg, Ok tt)
  end.

(** The [for] loop of [multi_receive]: the queues with their cells, and the count. *)
Fixpoint multi_scan `{Build} {T} (sleep : bool) (xs : list (poll T)) (count : Z)
  : outcome (list (poll T) * Z) :=
  match xs with
  | [] => Ret ([], count)
  | x :: xs' =>
      let! (x', res) := setup_sleep sleep x in
      let! count' := (if is_ok res then chk 64 (count + 1) else Ret count) in
      let! (xs'', c) := multi_scan sleep xs' count' in
      Ret (x' :: xs'', c)
  end.

(** The outer loop.  [world n xs] is what the other threads do to the queues between
    the [n]th iteration and the next, including while [multi_wait] blocks. *)
Fixpoint multi_loop `{Build} {T} (world : nat -> list (poll T) -> list (poll T)) (nonblock : bool)
    (fuel n : nat) (attempts : Z) (xs : list (poll T))
  : outcome (list (poll T) * result Z QueueError) :=
  match fuel with
  | O => NoFuel
  | S fuel' =>
      let! (xs', count) := multi_scan (attempts =? 0) xs 0 in
      if 0 <? count then Ret (xs', Ok count)
      else if nonblock then Ret (xs', Err WouldBlock)
      else multi_loop world nonblock fuel' (S n)
             (if 0 <? attempts then attempts - 1 else attempts) (world n xs')
  end.

Definition multi_receive `{Build} {T} (world : nat -> list (poll T) -> list (poll T))
    (nonblock : bool) (fuel : nat)
    (queues : list (RawQueueHdr * list (QueueEntry T))) (out : list (option (QueueEntry T)))
  : outcome (list (poll T) * result Z QueueError) :=
  if negb (Nat.eqb (length out) (length queues)) then Ret ([], Err Unknown)
  else multi_loop world nonblock fuel 0 100
         (zip_with (fun '(q, b) o => mkPoll q b o (None, 0) None) queues out).

(** ** The system: producers, one consumer, and the shared memory

    [reserved] and [received] are history variables: the items in the order their
    slots were reserved, and the items [receive] has returned. *)
Section system.
Context `{Build} {T : Type}.

Record producer := mkProd { p_item : QueueEntry T; p_nonblock : bool; p_pc : submit_pc }.

Record sys := mkSys {
  hdr : RawQueueHdr;
  buf : list (QueueEntry T);
  prods : gmap nat producer;
  c_nonblock : bool;
  cons : receive_pc T;
  reserved : list (QueueEntry T);
  received : list (QueueEntry T) }.

(** [ring(&self.bell)]: wake the consumer if it sleeps on the bell. *)
Definition ring_bell (c : receive_pc T) : receive_pc T :=
  match c with
  | RcGet l => match gn_at l with GnSleep _ => RcGet (gn_goto l GnLoadTail) | _ => c end
  | _ => c
  end.

(** [ring(&self.tail)]: wake every producer that sleeps on the tail. *)
Definition ring_tail (p : producer) : producer :=
  match p_pc p with
  | SubReserve l =>
      match rs_at l with
      | RsSleep _ => mkProd (p_item p) (p_nonblock p) (SubReserve (rs_goto l RsLoadHead))
      | _ => p
      end
  | _ => p
  end.

Inductive event :=
| EvSubmit (p : nat) (item : QueueEntry T) (nonblock : bool)  (* a thread calls [submit] *)
| EvProd (p : nat)                                            (* a producer's next access *)
| EvReceive (nonblock : bool)                                 (* the consumer calls [receive] *)
| EvCons.                                                     (* the consumer's next access *)

Definition prod_idle (s : sys) (p : nat) : bool :=
  match prods s !! p with
  | None => true
  | Some pr => match p_pc pr with SubDone _ => true | _ => false end
  end.

Definition cons_idle (s : sys) : bool :=
  match cons s with RcDone _ => true | _ => false end.

Definition exec (s : sys) (e : event) : outcome sys :=
  match e with
  | EvSubmit p item nb =>
      if prod_idle s p
      then Ret (mkSys (hdr s) (buf s) (<[p := mkProd item nb (SubReserve rs_init)]> (prods s))
                  (c_nonblock s) (cons s) (reserved s) (received s))
      else Ret s
  | EvProd p =>
      match prods s !! p with
      | None => Ret s
      | Some pr =>
          let! (q', b', pc', rang) := submit_step (p_item pr) (p_nonblock pr) (hdr s) (buf s) (p_pc pr) in
          Ret (mkSys q' b' (<[p := mkProd (p_item pr) (p_nonblock pr) pc']> (prods s))
                 (c_nonblock s) (if rang : bool then ring_bell (cons s) else cons s)
                 (if head q' =? head (hdr s) then reserved s else reserved s ++ [p_item pr])
                 (received s))
      end
  | EvReceive nb =>
      if cons_idle s
      then Ret (mkSys (hdr s) (buf s) (prods s) nb (RcGet gn_init) (reserved s) (received s))
      else Ret s
  | EvCons =>
      let! (q', pc', rang) := receive_step (c_nonblock s) (hdr s) (buf s) (cons s) in
      Ret (mkSys q' (buf s) (if rang : bool then ring_tail <$> prods s else prods s)
             (c_nonblock s) pc' (reserved s)
             (match cons s with RcAdvCheck item => received s ++ [item] | _ => received s end))
  end.

Fixpoint run (s : sys) (es : list event) : outcome sys :=
  match es with
  | [] => Ret s
  | e :: es' => let! s' := exec s e in run s' es'
  end.

Inductive sys_step : sys -> sys -> Prop :=
| sys_step_exec s e s' : exec s e = Ret s' -> sys_step s s'.

(** A fresh queue: a new header over a buffer whose entries are zeroed. *)
Definition init (l2 st : Z) (b : list (QueueEntry T)) : sys :=
  mkSys (RawQueueHdr_new l2 st) b ∅ false (RcDone (Err WouldBlock)) [] [].

Definition fresh_buf (l2 : Z) (b : list (QueueEntry T)) : Prop :=
  zlen b = 2 ^ l2 /\ Forall (fun e => cmd_slot e = 0) b.

(** What travels through the queue: the tag and the data. *)
Definition payload (e : QueueEntry T) : Z * T := (info e, data e).

(** Number of slots reserved, consumed, and published by the bell. *)
Definition consumed (s : sys) : Z := Z.land (tail (hdr s)) MASK31.
End system.
Arguments producer T : clear implicits.
Arguments sys T : clear implicits.
Arguments event T : clear implicits.

End RawQueue.
