(* ===== verification/RawQueueInv.v ===== *)
(** * The raw queue: the invariant of every interleaving

    The invariant relates the counters, the buffer, the program points of the
    producers and of the consumer, and the history of reservations; it is kept by
    every step of [RawQueue.sys_step] as long as fewer than [2^31] slots have been
    reserved (the counters are compared modulo [2^31]). *)
From S2P Require Import Prelude RawQueue.

#[local] Open Scope Z_scope.

Module RawQueueInv.
Import RawQueue.

(** ** Slots, turns and commands as arithmetic *)
Definition slot_idx (k j : Z) : nat := Z.to_nat (j mod 2 ^ k).
Definition turn (k j : Z) : bool := (j / 2 ^ k) mod 2 =? 0.
Definition ready (k j c : Z) : bool := Bool.eqb (Z.shiftr c 31 =? 0) (negb (turn k j)).
Definition cmd (k j : Z) : Z := Z.lor j (if turn k j then BIT31 else 0).

Lemma len_pow q : 0 <= l2len q -> len q = 2 ^ l2len q.
Proof. intros. unfold len. by rewrite Z.shiftl_1_l. Qed.

Lemma pow_le_30 k : 0 <= k <= 30 -> 0 < 2 ^ k <= 2 ^ 30.
Proof. intros. split; [apply pow2_pos; lia | apply Z.pow_le_mono_r; lia]. Qed.

Lemma buf_idx_eq q j : 0 <= l2len q -> buf_idx q j = slot_idx (l2len q) j.
Proof. intros. unfold buf_idx, slot_idx. rewrite len_pow by done. by rewrite (land_mask _ (l2len q)). Qed.

Lemma mod2_cases a : a mod 2 = 0 \/ a mod 2 = 1.
Proof. pose proof (Z.mod_pos_bound a 2). lia. Qed.

Lemma is_turn_ready {T} q j (e : QueueEntry T) :
  0 <= l2len q -> is_turn q j e = ready (l2len q) j (cmd_slot e).
Proof.
  intros. unfold is_turn, ready, turn. rewrite len_pow by done.
  destruct (mod2_cases (j / 2 ^ l2len q)) as [->| ->]; done.
Qed.

Lemma cmd_of_eq q j : 0 <= l2len q <= 30 -> cmd_of q j = cmd (l2len q) j.
Proof.
  intros Hk. unfold cmd_of, cmd, get_turn, turn. rewrite len_pow by lia.
  rewrite wrap_small; [done|]. pose proof (pow_le_30 _ Hk). lia.
Qed.

Lemma cmd_shiftr k j : 0 <= j < 2 ^ 31 -> Z.shiftr (cmd k j) 31 = if turn k j then 1 else 0.
Proof.
  intros Hj. unfold cmd. rewrite Z.shiftr_lor, (Z.shiftr_div_pow2 j), Z.div_small by lia.
  by destruct (turn k j).
Qed.

Lemma turn_flip k j : 0 <= k -> turn k (j + 2 ^ k) = negb (turn k j).
Proof.
  intros. unfold turn. pose proof (pow2_pos k).
  replace (j + 2 ^ k) with (j + 1 * 2 ^ k) by lia.
  rewrite Z_div_plus_full by lia.
  destruct (mod2_cases (j / 2 ^ k)) as [E|E]; rewrite E;
    rewrite Z.add_mod, E by lia; done.
Qed.

Lemma ready_cmd k j : 0 <= j < 2 ^ 31 -> ready k j (cmd k j) = true.
Proof. intros. unfold ready. rewrite cmd_shiftr by done. by destruct (turn k j). Qed.

Lemma ready_cmd_next k j : 0 <= k -> 0 <= j < 2 ^ 31 -> ready k (j + 2 ^ k) (cmd k j) = false.
Proof.
  intros. unfold ready. rewrite cmd_shiftr, turn_flip by done. by destruct (turn k j).
Qed.

Lemma ready_zero k j : 0 <= k -> 0 <= j < 2 ^ k -> ready k j 0 = false.
Proof. intros. unfold ready, turn. by rewrite Z.div_small by lia. Qed.

Lemma window_inj n a b t : 0 < n -> t <= a < t + n -> t <= b < t + n -> a mod n = b mod n -> a = b.
Proof.
  intros Hn Ha Hb Hm.
  pose proof (Z.div_mod a n). pose proof (Z.div_mod b n).
  assert (a / n = b / n); [|nia].
  destruct (Z.lt_trichotomy (a / n) (b / n)) as [?|[?|?]]; [nia|done|nia].
Qed.

Lemma slot_idx_inj k a b t :
  0 <= k -> t <= a < t + 2 ^ k -> t <= b < t + 2 ^ k -> slot_idx k a = slot_idx k b -> a = b.
Proof.
  intros Hk Ha Hb E. pose proof (pow2_pos k Hk). apply (window_inj (2 ^ k) a b t); try done.
  unfold slot_idx in E.
  pose proof (Z.mod_pos_bound a (2 ^ k)). pose proof (Z.mod_pos_bound b (2 ^ k)). lia.
Qed.

Lemma slot_idx_lt k j n : 0 <= k -> n = 2 ^ k -> (slot_idx k j < Z.to_nat n)%nat.
Proof.
  intros Hk ->. unfold slot_idx. pose proof (Z.mod_pos_bound j (2 ^ k) (pow2_pos k Hk)). lia.
Qed.

(** The masked counters. *)
Lemma land31_small x : 0 <= x < 2 ^ 31 -> Z.land x MASK31 = x.
Proof. intros. rewrite (land_mask _ 31) by (done || lia). by apply Z.mod_small. Qed.

Lemma land31_range x : 0 <= Z.land x MASK31 < 2 ^ 31.
Proof. rewrite (land_mask _ 31) by (done || lia). apply Z.mod_pos_bound. lia. Qed.

(** The tail is the consumed count, with the waiting flag in bit 31. *)
Definition tail_val (t : Z) (w : bool) : Z := if w then t + BIT31 else t.

Lemma tail_val_land t w : 0 <= t < 2 ^ 31 -> Z.land (tail_val t w) MASK31 = t.
Proof.
  intros. rewrite (land_mask _ 31) by (done || lia). unfold tail_val, BIT31. destruct w.
  - replace (t + 2147483648) with (t + 1 * 2 ^ 31) by lia. rewrite Z_mod_plus_full. apply Z.mod_small; lia.
  - by apply Z.mod_small.
Qed.

Lemma land_bit31 t : 0 <= t < 2 ^ 31 -> Z.land t BIT31 = 0.
Proof.
  intros. apply Z.bits_inj'. intros i Hi. rewrite Z.land_spec, Z.bits_0.
  change BIT31 with (2 ^ 31). destruct (decide (i = 31)) as [->|].
  - rewrite <- (Z.mod_small t (2 ^ 31)) by lia. by rewrite Z.mod_pow2_bits_high by lia.
  - rewrite Z.pow2_bits_false by done. apply andb_false_r.
Qed.

Lemma lor_bit31 t : 0 <= t < 2 ^ 31 -> Z.lor t BIT31 = t + BIT31.
Proof. intros Ht. pose proof (Z.add_lor_land t BIT31). rewrite land_bit31 in * by done. lia. Qed.

Lemma tail_val_set t w : 0 <= t < 2 ^ 31 -> Z.lor (tail_val t w) BIT31 = tail_val t true.
Proof.
  intros. destruct w; simpl; [|by apply lor_bit31].
  rewrite <- lor_bit31 by done. by rewrite <- Z.lor_assoc.
Qed.

Lemma tail_val_clear t w : 0 <= t < 2 ^ 31 -> Z.ldiff (tail_val t w) BIT31 = tail_val t false.
Proof.
  intros Ht. assert (Z.ldiff t BIT31 = t) as E.
  { pose proof (Z.lor_ldiff_and t BIT31) as E. rewrite land_bit31, Z.lor_0_r in E; done. }
  destruct w; simpl; [|done]. rewrite <- lor_bit31 by done.
  apply Z.bits_inj'. intros i Hi. rewrite <- E at 2.
  rewrite !Z.ldiff_spec, Z.lor_spec. by destruct (Z.testbit t i), (Z.testbit BIT31 i).
Qed.

Lemma tail_val_waiting t w : 0 <= t < 2 ^ 31 -> negb (Z.land (tail_val t w) BIT31 =? 0) = w.
Proof.
  intros Ht. destruct w; simpl; [|by rewrite land_bit31].
  rewrite <- lor_bit31 by done. by rewrite Z.land_lor_distr_l, land_bit31.
Qed.

(** ** The invariant *)
Section invariant.
Context {T : Type}.
Implicit Types (ps : gmap nat (producer T)) (res buf : list (QueueEntry T)).

(** The slot a producer has reserved and not yet published. *)
Definition held_slot (pc : submit_pc) : option Z :=
  match pc with
  | SubReserve l => match rs_at l with RsDecWait h => Some h | _ => None end
  | SubData h | SubInfo h | SubCmd h => Some h
  | _ => None
  end.

(** A producer that holds a slot or has yet to count it on the bell. *)
Definition pending (pc : submit_pc) : bool :=
  match pc with
  | SubReserve l => match rs_at l with RsDecWait _ => true | _ => false end
  | SubData _ | SubInfo _ | SubCmd _ | SubBell _ => true
  | _ => false
  end.

Definition pend_count ps : Z := mcount (fun pr => pending (p_pc pr)) ps.

Definition nohold ps (j : Z) : Prop :=
  map_Forall (fun _ pr => held_slot (p_pc pr) <> Some j) ps.

Definition held_uniq ps : Prop :=
  forall p p' pr pr' h, ps !! p = Some pr -> ps !! p' = Some pr' ->
    held_slot (p_pc pr) = Some h -> held_slot (p_pc pr') = Some h -> p = p'.

Definition in_slot (k j : Z) buf (P : QueueEntry T -> Prop) : Prop :=
  exists e, buf !! slot_idx k j = Some e /\ P e.

Definition holds_res (tl hd h : Z) res (item : QueueEntry T) : Prop :=
  tl <= h < hd /\ res !! Z.to_nat h = Some item.

Definition prod_ok (k tl hd : Z) buf res (pr : producer T) : Prop :=
  let item := p_item pr in
  match p_pc pr with
  | SubReserve l =>
      match rs_at l with
      | RsLoadTail h => 0 <= h <= hd
      | RsCas h => 0 <= h <= hd /\ h < tl + 2 ^ k
      | RsDecWait h => holds_res tl hd h res item
      | _ => True
      end
  | SubData h => holds_res tl hd h res item
  | SubInfo h => holds_res tl hd h res item /\ in_slot k h buf (fun e => data e = data item)
  | SubCmd h => holds_res tl hd h res item /\ in_slot k h buf (fun e => payload e = payload item)
  | _ => True
  end.

Definition at_check_waiting ps : Prop :=
  exists p pr, ps !! p = Some pr /\ p_pc pr = SubCheckWaiting.

Definition gn_ok (tl hd bl : Z) (w : bool) ps (l : gn_local) : Prop :=
  match gn_at l with
  | GnLoadTail => True
  | GnLoadBell t | GnSetWait t => t = tl
  | GnCheck t b => t = tl /\ tl <= b <= bl
  | GnLoadBell2 t => t = tl /\ w = true
  | GnCheck2 t b => t = tl /\ w = true /\ tl <= b <= bl
  | GnWait b => w = true /\ (b = tl \/ b < hd)
  | GnSleep b => w = true /\ (b = tl \/ b < hd) /\ (bl = b \/ at_check_waiting ps)
  | GnClear t => t = tl /\ tl < bl /\ nohold ps tl
  end.

Definition cons_ok (tl hd bl : Z) (w : bool) ps res (c : receive_pc T) : Prop :=
  match c with
  | RcGet l => gn_ok tl hd bl w ps l
  | RcRead t => t = tl /\ tl < bl /\ nohold ps tl
  | RcAdvLoad item =>
      tl < bl /\ nohold ps tl /\ (payload <$> res) !! Z.to_nat tl = Some (payload item)
  | RcAdvStore item t =>
      tl < bl /\ nohold ps tl /\ (payload <$> res) !! Z.to_nat tl = Some (payload item) /\
      t = tail_val tl w
  | _ => True
  end.

(** The item [advance_tail] has already consumed and [receive] not yet returned. *)
Definition in_hand (c : receive_pc T) : list (Z * T) :=
  match c with RcAdvCheck item => [payload item] | _ => [] end.

Record Inv_at (k tl hd bl : Z) (w : bool) buf ps (c : receive_pc T) res
    (rcv : list (QueueEntry T)) : Prop := mkInv {
  inv_k : 0 <= k <= 30;
  inv_buf : zlen buf = 2 ^ k;
  inv_hd : hd = zlen res;
  inv_hd31 : hd < 2 ^ 31;
  inv_win : 0 <= tl <= bl /\ bl <= hd <= tl + 2 ^ k;
  inv_count : bl + pend_count ps = hd;
  inv_uniq : held_uniq ps;
  inv_committed : forall j, tl <= j < hd -> nohold ps j ->
    in_slot k j buf (fun e => cmd_slot e = cmd k j /\
      (payload <$> res) !! Z.to_nat j = Some (payload e));
  inv_fresh : forall j, tl <= j < tl + 2 ^ k -> ~ (j < hd /\ nohold ps j) ->
    in_slot k j buf (fun e => ready k j (cmd_slot e) = false);
  inv_prods : forall p pr, ps !! p = Some pr -> prod_ok k tl hd buf res pr;
  inv_cons : cons_ok tl hd bl w ps res c;
  inv_hist : (payload <$> rcv) ++ in_hand c = take (Z.to_nat tl) (payload <$> res) }.

Definition Inv (s : sys T) : Prop :=
  exists tl w, tail (hdr s) = tail_val tl w /\
    Inv_at (l2len (hdr s)) tl (head (hdr s)) (bell (hdr s)) w (buf s) (prods s) (cons s)
      (reserved s) (received s).

(** ** Frame lemmas *)
Definition held_at ps (p : nat) : option Z := ps !! p ≫= fun pr => held_slot (p_pc pr).
Definition pend_at ps (p : nat) : bool := holds_at (fun pr => pending (p_pc pr)) ps p.

Lemma pend_count_insert ps p pr :
  pend_count (<[p := pr]> ps) =
  pend_count ps - Z.b2z (pend_at ps p) + Z.b2z (pending (p_pc pr)).
Proof. exact (mcount_insert (fun pr => pending (p_pc pr)) ps p pr). Qed.

Lemma nohold_insert ps p pr j :
  nohold (<[p := pr]> ps) j <->
  held_slot (p_pc pr) <> Some j /\ (forall p' pr', p' <> p -> ps !! p' = Some pr' -> held_slot (p_pc pr') <> Some j).
Proof.
  unfold nohold, map_Forall. split.
  - intros Hn. split; [apply (Hn p), lookup_insert_eq|].
    intros p' pr' ? ?. apply (Hn p'). by rewrite lookup_insert_ne.
  - intros [H1 H2] p' pr' [[-> ->]|[? ?]]%lookup_insert_Some; eauto.
Qed.

Lemma nohold_split ps p j :
  nohold ps j <->
  held_at ps p <> Some j /\ (forall p' pr', p' <> p -> ps !! p' = Some pr' -> held_slot (p_pc pr') <> Some j).
Proof.
  unfold nohold, map_Forall, held_at. split.
  - intros Hn. split; [|eauto]. destruct (ps !! p) eqn:E; simpl; [eauto|done].
  - intros [H1 H2] p' pr' E. destruct (decide (p' = p)) as [->|]; [|eauto].
    by rewrite E in H1.
Qed.

Lemma nohold_same ps p pr j :
  held_slot (p_pc pr) = held_at ps p -> nohold (<[p := pr]> ps) j <-> nohold ps j.
Proof. intros E. by rewrite nohold_insert, (nohold_split ps p), E. Qed.

Lemma held_uniq_insert ps p pr :
  held_slot (p_pc pr) = None \/ held_slot (p_pc pr) = held_at ps p ->
  held_uniq ps -> held_uniq (<[p := pr]> ps).
Proof.
  intros Hh Hu. assert (forall q qr h, <[p := pr]> ps !! q = Some qr -> held_slot (p_pc qr) = Some h ->
    exists qr', ps !! q = Some qr' /\ held_slot (p_pc qr') = Some h) as Hback.
  { intros q qr h [[-> ->]|[? ?]]%lookup_insert_Some Hq; [|eauto].
    destruct Hh as [Hh|Hh]; rewrite Hh in Hq; [done|].
    unfold held_at in Hq. destruct (ps !! q); [eauto|done]. }
  intros q q' qr qr' h Hq Hq' Hs Hs'.
  destruct (Hback _ _ _ Hq Hs) as (? & ? & ?), (Hback _ _ _ Hq' Hs') as (? & ? & ?). eauto.
Qed.

Lemma check_waiting_insert ps p pr :
  (forall old, ps !! p = Some old -> p_pc old <> SubCheckWaiting) ->
  at_check_waiting ps -> at_check_waiting (<[p := pr]> ps).
Proof.
  intros Hold (q & qr & Hq & E). exists q, qr. split; [|done].
  rewrite lookup_insert_ne; [done|]. intros ->. by eapply Hold.
Qed.

Lemma cons_ok_mono tl hd hd' bl bl' w ps ps' res res' c :
  (tl < bl -> nohold ps tl -> nohold ps' tl) -> hd <= hd' -> bl <= bl' ->
  (bl = bl' /\ (at_check_waiting ps -> at_check_waiting ps') \/ at_check_waiting ps') ->
  res `prefix_of` res' ->
  cons_ok tl hd bl w ps res c -> cons_ok tl hd' bl' w ps' res' c.
Proof.
  intros Hn Hh Hb Hc [r ->] Hok.
  assert (forall x, (payload <$> res) !! Z.to_nat tl = Some x ->
    (payload <$> (res ++ r)) !! Z.to_nat tl = Some x).
  { intros x Hx. rewrite fmap_app. by apply lookup_app_l_Some. }
  destruct c as [l| | | | |]; simpl in *; try (intuition (auto; lia)).
  unfold gn_ok in *. destruct (gn_at l); intuition (auto; lia).
Qed.

Lemma prod_ok_frame k tl tl' hd hd' buf buf' res res' pr :
  tl <= tl' -> hd <= hd' -> res `prefix_of` res' ->
  (forall h, held_slot (p_pc pr) = Some h ->
     tl' <= h /\ buf' !! slot_idx k h = buf !! slot_idx k h) ->
  prod_ok k tl hd buf res pr -> prod_ok k tl' hd' buf' res' pr.
Proof.
  intros Ht Hh [r ->] Hheld Hok. unfold prod_ok, in_slot, holds_res in *.
  assert (forall h x, res !! Z.to_nat h = Some x -> (res ++ r) !! Z.to_nat h = Some x)
    by (intros; by apply lookup_app_l_Some).
  destruct (p_pc pr) as [l|h|h|h| | |]; simpl in *; try done.
  - destruct (rs_at l); try done; try lia. destruct (Hheld _ eq_refl). intuition (auto; lia).
  - destruct (Hheld _ eq_refl). intuition (auto; lia).
  - destruct (Hheld _ eq_refl) as [? ->]. intuition (auto; lia).
  - destruct (Hheld _ eq_refl) as [? ->]. intuition (auto; lia).
Qed.

Lemma held_res k tl hd buf res pr h :
  prod_ok k tl hd buf res pr -> held_slot (p_pc pr) = Some h -> holds_res tl hd h res (p_item pr).
Proof.
  unfold prod_ok. intros Hok Hh. destruct (p_pc pr) as [l| | | | | |]; simplify_eq/=; try tauto.
  destruct (rs_at l); simplify_eq/=; done.
Qed.

(** A producer step that takes, publishes and rings nothing. *)
Lemma Inv_prod_quiet k tl hd bl w buf ps c c' res rcv p pr :
  Inv_at k tl hd bl w buf ps c res rcv ->
  held_slot (p_pc pr) = held_at ps p -> pending (p_pc pr) = pend_at ps p ->
  prod_ok k tl hd buf res pr ->
  cons_ok tl hd bl w (<[p := pr]> ps) res c' -> in_hand c' = in_hand c ->
  Inv_at k tl hd bl w buf (<[p := pr]> ps) c' res rcv.
Proof.
  intros [] Hh Hp Hok Hc Hhand. split; auto.
  - rewrite pend_count_insert, Hp. lia.
  - apply held_uniq_insert; auto.
  - intros j ?. rewrite nohold_same by done. auto.
  - intros j ?. rewrite nohold_same by done. auto.
  - intros q qr [[-> ->]|[? ?]]%lookup_insert_Some; eauto.
  - by rewrite Hhand.
Qed.

(** The compare-exchange on [head] succeeds. *)
Lemma Inv_reserve k tl hd bl w buf ps c res rcv p pr item :
  Inv_at k tl hd bl w buf ps c res rcv -> p_item pr = item ->
  held_at ps p = None -> pend_at ps p = false -> (at_check_waiting ps -> at_check_waiting (<[p := pr]> ps)) ->
  hd < tl + 2 ^ k -> hd + 1 < 2 ^ 31 ->
  held_slot (p_pc pr) = Some hd -> pending (p_pc pr) = true ->
  (holds_res tl (hd + 1) hd (res ++ [item]) item ->
   prod_ok k tl (hd + 1) buf (res ++ [item]) pr) ->
  Inv_at k tl (hd + 1) bl w buf (<[p := pr]> ps) c (res ++ [item]) rcv.
Proof.
  intros [] Hitem Hh Hp Hcw Hroom Hlim Hh' Hp' Hok.
  assert (forall q qr h, ps !! q = Some qr -> held_slot (p_pc qr) = Some h -> tl <= h < hd) as Hlt.
  { intros q qr h Hq Hqh. by destruct (held_res _ _ _ _ _ _ _ (inv_prods0 q qr Hq) Hqh). }
  assert (forall j, j < hd -> nohold (<[p := pr]> ps) j <-> nohold ps j) as Hn.
  { intros j ?. rewrite nohold_insert, (nohold_split ps p), Hh, Hh'.
    split; intros [? ?]; (split; [intros ?; simplify_eq; lia|done]). }
  split; auto; try lia.
  - rewrite zlen_app. unfold zlen at 2. simpl. lia.
  - rewrite pend_count_insert, Hp, Hp'. simpl. lia.
  - intros q q' qr qr' h [[-> ->]|[? Hq]]%lookup_insert_Some [[-> ->]|[? Hq']]%lookup_insert_Some Hs Hs';
      try done; try (by eapply inv_uniq0); rewrite Hh' in *; simplify_eq;
      [specialize (Hlt _ _ _ Hq' Hs')|specialize (Hlt _ _ _ Hq Hs)]; lia.
  - intros j Hj Hnh. assert (j <> hd) by (intros ->; apply nohold_insert in Hnh; by destruct Hnh).
    rewrite Hn in Hnh by lia. destruct (inv_committed0 j) as (e & ? & ? & ?); [lia|done|].
    exists e. split_and!; [done..|]. rewrite fmap_app. by apply lookup_app_l_Some.
  - intros j Hj Hnh. apply inv_fresh0; [done|]. intros [? ?]. apply Hnh. rewrite Hn by done. split; [lia|done].
  - intros q qr [[-> <-]|[? Hq]]%lookup_insert_Some.
    + apply Hok. split; [lia|]. rewrite lookup_app_r by (unfold zlen in *; lia).
      by replace (Z.to_nat hd - length res)%nat with 0%nat by (unfold zlen in *; lia).
    + eapply prod_ok_frame; [| | | |by eapply inv_prods0]; [lia|lia|by eexists|].
      intros h ?. split; [|done]. by eapply Hlt.
  - eapply cons_ok_mono; [| | | | |done]; [|lia|lia|left; by split|by eexists].
    intros. apply Hn; [lia|done].
  - rewrite fmap_app, take_app_le; [done|]. rewrite length_fmap. unfold zlen in *. lia.
Qed.

(** A producer fills its slot, whose command word it leaves. *)
Lemma Inv_write k tl hd bl w buf ps c res rcv p old pr h e e' :
  Inv_at k tl hd bl w buf ps c res rcv ->
  ps !! p = Some old -> held_slot (p_pc old) = Some h -> held_slot (p_pc pr) = Some h ->
  p_item pr = p_item old -> pending (p_pc pr) = pending (p_pc old) -> p_pc old <> SubCheckWaiting ->
  buf !! slot_idx k h = Some e -> cmd_slot e' = cmd_slot e ->
  (holds_res tl hd h res (p_item pr) -> in_slot k h (<[slot_idx k h := e']> buf) (eq e') ->
   prod_ok k tl hd (<[slot_idx k h := e']> buf) res pr) ->
  Inv_at k tl hd bl w (<[slot_idx k h := e']> buf) (<[p := pr]> ps) c res rcv.
Proof.
  intros [] Hp Hh Hh' Hi Hpe Hncw He Hcmd Hok.
  destruct (held_res _ _ _ _ _ _ _ (inv_prods0 _ _ Hp) Hh) as [Hr Hres].
  assert (held_slot (p_pc pr) = held_at ps p) as Hsame by (unfold held_at; rewrite Hp; simpl; congruence).
  assert (forall j, tl <= j < tl + 2 ^ k -> j <> h ->
    <[slot_idx k h := e']> buf !! slot_idx k j = buf !! slot_idx k j) as Hne.
  { intros j ? Hjh. apply list_lookup_insert_ne. intros E. apply Hjh.
    symmetry. apply (slot_idx_inj k h j tl); (done || lia). }
  split; auto.
  - unfold zlen. by rewrite length_insert.
  - rewrite pend_count_insert, Hpe. unfold pend_at, holds_at. rewrite Hp. lia.
  - apply held_uniq_insert; auto.
  - intros j Hj Hn. rewrite nohold_same in Hn by done.
    assert (j <> h) by (intros ->; by apply (Hn p _ Hp)).
    unfold in_slot. rewrite Hne by (done || lia). by apply inv_committed0.
  - intros j Hj Hn. rewrite nohold_same in Hn by done.
    destruct (decide (j = h)) as [->|].
    + destruct (inv_fresh0 h Hj Hn) as (e0 & ? & ?). simplify_eq. exists e'.
      split; [|by rewrite Hcmd]. apply list_lookup_insert_eq. by eapply lookup_lt_Some.
    + unfold in_slot. rewrite Hne by done. by apply inv_fresh0.
  - intros q qr [[<- <-]|[? Hq]]%lookup_insert_Some.
    + apply Hok; [by rewrite Hi|]. exists e'. split; [|done].
      apply list_lookup_insert_eq. by eapply lookup_lt_Some.
    + eapply prod_ok_frame; [| | | |by eapply inv_prods0]; [lia|lia|done|].
      intros x Hx. destruct (held_res _ _ _ _ _ _ _ (inv_prods0 _ _ Hq) Hx).
      split; [lia|]. apply Hne; [lia|]. intros ->. eauto.
  - eapply cons_ok_mono; [| | | | |done]; [|lia|lia| |done].
    + intros ?. by rewrite nohold_same.
    + left. split; [done|]. apply check_waiting_insert. intros ??; by simplify_eq.
Qed.

(** A producer publishes its slot by writing the command word. *)
Lemma Inv_publish k tl hd bl w buf ps c res rcv p old pr h e e' :
  Inv_at k tl hd bl w buf ps c res rcv ->
  ps !! p = Some old -> held_slot (p_pc old) = Some h -> held_slot (p_pc pr) = None ->
  pending (p_pc pr) = pending (p_pc old) -> p_pc old <> SubCheckWaiting ->
  buf !! slot_idx k h = Some e -> cmd_slot e' = cmd k h -> payload e' = payload (p_item old) ->
  prod_ok k tl hd (<[slot_idx k h := e']> buf) res pr ->
  Inv_at k tl hd bl w (<[slot_idx k h := e']> buf) (<[p := pr]> ps) c res rcv.
Proof.
  intros [] Hp Hh Hh' Hpe Hncw He Hcmd Hpay Hok.
  destruct (held_res _ _ _ _ _ _ _ (inv_prods0 _ _ Hp) Hh) as [Hr Hres].
  assert (forall j, tl <= j < tl + 2 ^ k -> j <> h ->
    <[slot_idx k h := e']> buf !! slot_idx k j = buf !! slot_idx k j) as Hne.
  { intros j ? Hjh. apply list_lookup_insert_ne. intros E. apply Hjh.
    symmetry. apply (slot_idx_inj k h j tl); (done || lia). }
  assert (forall j, j <> h -> nohold (<[p := pr]> ps) j <-> nohold ps j) as Hn.
  { intros j ?. rewrite nohold_insert, (nohold_split ps p). unfold held_at. rewrite Hp, Hh'. simpl.
    rewrite Hh. split; intros [? ?]; (split; [congruence|done]). }
  assert (nohold (<[p := pr]> ps) h) as Hfree.
  { apply nohold_insert. split; [by rewrite Hh'|]. intros p' pr' Hpp Hp' Hx. by apply Hpp, (inv_uniq0 p' p pr' old h). }
  split; auto.
  - unfold zlen. by rewrite length_insert.
  - rewrite pend_count_insert, Hpe. unfold pend_at, holds_at. rewrite Hp. lia.
  - apply held_uniq_insert; auto.
  - intros j Hj Hnh. destruct (decide (j = h)) as [->|].
    + exists e'. split; [apply list_lookup_insert_eq; by eapply lookup_lt_Some|].
      split; [done|]. by rewrite list_lookup_fmap, Hres, Hpay.
    + unfold in_slot. rewrite Hne by (done || lia). apply inv_committed0; [done|]. by apply Hn.
  - intros j Hj Hnh. assert (j <> h) as Hjh by (intros ->; apply Hnh; split; [lia|done]).
    unfold in_slot. rewrite Hne by done. apply inv_fresh0; [done|]. by rewrite <- Hn.
  - intros q qr [[<- <-]|[? Hq]]%lookup_insert_Some; [done|].
    eapply prod_ok_frame; [| | | |by eapply inv_prods0]; [lia|lia|done|].
    intros x Hx. destruct (held_res _ _ _ _ _ _ _ (inv_prods0 _ _ Hq) Hx).
    split; [lia|]. apply Hne; [lia|]. intros ->. eauto.
  - eapply cons_ok_mono; [| | | | |done]; [|lia|lia| |done].
    + intros ??. destruct (decide (tl = h)) as [->|]; [done|]. by apply Hn.
    + left. split; [done|]. apply check_waiting_insert. intros ??; by simplify_eq.
Qed.

(** A producer counts its published slot on the bell. *)
Lemma Inv_bell k tl hd bl w buf ps c res rcv p old pr h :
  Inv_at k tl hd bl w buf ps c res rcv ->
  ps !! p = Some old -> p_pc old = SubBell h -> p_pc pr = SubCheckWaiting ->
  Inv_at k tl hd (bl + 1) w buf (<[p := pr]> ps) c res rcv.
Proof.
  intros [] Hp Hpc Hpc'.
  assert (held_slot (p_pc pr) = held_at ps p) as Hsame
    by (unfold held_at; rewrite Hp; simpl; by rewrite Hpc, Hpc').
  assert (pend_count (<[p := pr]> ps) = pend_count ps - 1) as Hcount.
  { rewrite pend_count_insert, Hpc'. unfold pend_at, holds_at. rewrite Hp, Hpc. simpl. lia. }
  assert (0 <= pend_count (<[p := pr]> ps)) by apply mcount_nonneg.
  split; auto; try lia.
  - apply held_uniq_insert; auto.
  - intros j ?. rewrite nohold_same by done. auto.
  - intros j ?. rewrite nohold_same by done. auto.
  - intros q qr [[<- <-]|[? Hq]]%lookup_insert_Some; [|eauto].
    unfold prod_ok. by rewrite Hpc'.
  - eapply cons_ok_mono; [| | | | |done]; [|lia|lia| |done].
    + intros ?. by rewrite nohold_same.
    + right. exists p, pr. split; [apply lookup_insert_eq|done].
Qed.

(** A consumer step that changes only its program point and the waiting flag. *)
Lemma Inv_cons_quiet k tl hd bl w w' buf ps c c' res rcv :
  Inv_at k tl hd bl w buf ps c res rcv ->
  cons_ok tl hd bl w' ps res c' -> in_hand c' = in_hand c ->
  Inv_at k tl hd bl w' buf ps c' res rcv.
Proof. intros [] ? E. split; auto. by rewrite E. Qed.

(** [advance_tail] stores the new tail. *)
Lemma Inv_advance k tl hd bl w buf ps item t res rcv :
  Inv_at k tl hd bl w buf ps (RcAdvStore item t) res rcv ->
  Inv_at k (tl + 1) hd bl false buf ps (RcAdvCheck item) res rcv.
Proof.
  intros []. destruct inv_cons0 as (Hb & Hn & Hpay & _).
  assert (forall q qr h, ps !! q = Some qr -> held_slot (p_pc qr) = Some h -> tl + 1 <= h) as Hheld.
  { intros q qr h Hq Hh. destruct (held_res _ _ _ _ _ _ _ (inv_prods0 _ _ Hq) Hh).
    assert (h <> tl) by (intros ->; by apply (Hn q _ Hq)). lia. }
  split; auto; try lia.
  - intros j ?. apply inv_committed0. lia.
  - intros j Hj Hnf. destruct (decide (j < tl + 2 ^ k)); [apply inv_fresh0; [lia|done]|].
    assert (j = tl + 2 ^ k) as -> by lia.
    destruct (inv_committed0 tl) as (e & He & Hc & _); [lia|done|].
    exists e. split; [|rewrite Hc; apply ready_cmd_next; lia].
    rewrite <- He. unfold slot_idx. do 2 f_equal.
    rewrite <- (Z.mul_1_l (2 ^ k)) at 1. by rewrite Z_mod_plus_full.
  - intros q qr Hq. eapply prod_ok_frame; [| | | |by eapply inv_prods0]; [lia|lia|done|].
    intros h Hh. split; [by eapply Hheld|done].
  - done.
  - simpl in *. rewrite app_nil_r in inv_hist0. rewrite inv_hist0.
    replace (Z.to_nat (tl + 1)) with (S (Z.to_nat tl)) by lia. by rewrite (take_S_r _ _ _ Hpay).
Qed.

(** Ringing the tail only wakes sleepers. *)
Lemma ring_tail_cases (pr : producer T) :
  ring_tail pr = pr \/
  exists l t, p_pc pr = SubReserve l /\ rs_at l = RsSleep t /\
    p_pc (ring_tail pr) = SubReserve (rs_goto l RsLoadHead).
Proof.
  unfold ring_tail. destruct (p_pc pr) as [l| | | | | |]; auto.
  destruct (rs_at l) eqn:El; eauto 10.
Qed.

Lemma ring_tail_same (pr : producer T) :
  held_slot (p_pc (ring_tail pr)) = held_slot (p_pc pr) /\
  pending (p_pc (ring_tail pr)) = pending (p_pc pr) /\
  (p_pc pr = SubCheckWaiting -> p_pc (ring_tail pr) = SubCheckWaiting).
Proof.
  destruct (ring_tail_cases pr) as [->|(l & t & E & El & ->)]; [done|].
  rewrite E. simpl. by rewrite El.
Qed.

Lemma ring_tail_ok k tl hd buf res pr :
  prod_ok k tl hd buf res pr -> prod_ok k tl hd buf res (ring_tail pr).
Proof.
  destruct (ring_tail_cases pr) as [->|(l & t & E & El & E')]; [done|].
  intros _. unfold prod_ok. by rewrite E'.
Qed.

Lemma pend_count_ring ps : pend_count (ring_tail <$> ps) = pend_count ps.
Proof. apply (mcount_fmap (fun pr => pending (p_pc pr))). intros pr. by destruct (ring_tail_same pr) as (_ & -> & _). Qed.

Lemma nohold_ring ps j : nohold (ring_tail <$> ps) j <-> nohold ps j.
Proof.
  unfold nohold. rewrite map_Forall_fmap.
  split; intros Hf; (eapply map_Forall_impl; [exact Hf|]); intros i x; simpl;
    by destruct (ring_tail_same x) as (-> & _).
Qed.

Lemma Inv_ring_tail k tl hd bl w buf ps c res rcv :
  Inv_at k tl hd bl w buf ps c res rcv -> Inv_at k tl hd bl w buf (ring_tail <$> ps) c res rcv.
Proof.
  intros []. split; auto.
  - by rewrite pend_count_ring.
  - intros p p' pr pr' h (x & <- & Hx)%lookup_fmap_Some (y & <- & Hy)%lookup_fmap_Some.
    destruct (ring_tail_same x) as (-> & _), (ring_tail_same y) as (-> & _). eauto.
  - intros j ?. rewrite nohold_ring. auto.
  - intros j ?. rewrite nohold_ring. auto.
  - intros p pr (x & <- & Hx)%lookup_fmap_Some. eauto using ring_tail_ok.
  - eapply cons_ok_mono; [| | | | |done]; [|lia|lia| |done]; [intros _; by rewrite nohold_ring|].
    left. split; [done|]. intros (p & pr & Hp & E). exists p, (ring_tail pr).
    rewrite lookup_fmap, Hp. split; [done|]. by apply ring_tail_same.
Qed.

(** [receive] returns its item. *)
Lemma Inv_return k tl hd bl w buf ps item res rcv :
  Inv_at k tl hd bl w buf ps (RcAdvCheck item) res rcv ->
  Inv_at k tl hd bl w buf ps (RcDone (Ok item)) res (rcv ++ [item]).
Proof. intros []. split; auto. simpl in *. by rewrite app_nil_r, fmap_app. Qed.

(** ** Every step keeps the invariant *)
Context `{Build}.

Lemma is_full_false q h tl w :
  0 <= l2len q <= 30 -> 0 <= h < 2 ^ 31 -> 0 <= tl < 2 ^ 31 ->
  is_full q h (tail_val tl w) = Ret false -> h < tl + 2 ^ l2len q.
Proof.
  intros Hk Hh Ht. unfold is_full. rewrite tail_val_land, land31_small, len_pow by lia.
  pose proof (pow_le_30 _ Hk). unfold chk. destruct (in_u 64 (h - tl)) eqn:E; simpl.
  - intros [= Hf]. apply Z.leb_gt in Hf. lia.
  - destruct overflow_checks; simpl; [done|]. intros [= Hf]. apply Z.leb_gt in Hf.
    apply in_u_false in E. destruct E as [E|E]; [|lia]. unfold wrap in Hf.
    rewrite <- (Z_mod_plus_full (h - tl) 1 (2 ^ 64)), Z.mod_small in Hf; lia.
Qed.

Lemma Inv_tl31 k tl hd bl w buf ps c res rcv :
  Inv_at k tl hd bl w buf ps c res rcv -> 0 <= tl < 2 ^ 31 /\ 0 <= hd < 2 ^ 31 /\ tl <= bl < 2 ^ 31.
Proof. intros []. lia. Qed.

Lemma buf_lookup k (b : list (QueueEntry T)) j :
  0 <= k -> zlen b = 2 ^ k -> exists e, b !! slot_idx k j = Some e.
Proof.
  intros Hk Hb. apply lookup_lt_is_Some. unfold zlen in Hb.
  pose proof (slot_idx_lt k j (2 ^ k) Hk eq_refl). lia.
Qed.

(** The program points a producer may move to without touching the shared state. *)
Definition inert (pc : submit_pc) : Prop := held_slot pc = None /\ pending pc = false.

Lemma Inv_prod_inert k tl hd bl w buf ps c res rcv p pr :
  Inv_at k tl hd bl w buf ps c res rcv ->
  (forall old, ps !! p = Some old -> inert (p_pc old) /\ p_pc old <> SubCheckWaiting) ->
  inert (p_pc pr) -> prod_ok k tl hd buf res pr ->
  Inv_at k tl hd bl w buf (<[p := pr]> ps) c res rcv.
Proof.
  intros HI Hold [Hh Hp] Hok.
  assert (held_at ps p = None /\ pend_at ps p = false) as [E1 E2].
  { unfold held_at, pend_at, holds_at. destruct (ps !! p) as [old|] eqn:E; simpl; [|done].
    by destruct (Hold _ eq_refl) as [[-> ->] _]. }
  apply (Inv_prod_quiet _ _ _ _ _ _ _ c); [done|congruence|congruence|done| |done].
  eapply cons_ok_mono; [| | | | |by eapply inv_cons]; [|lia|lia| |done].
  - intros _. rewrite nohold_same; [done|congruence].
  - left. split; [done|]. apply check_waiting_insert. intros old Ho. by apply Hold.
Qed.

Definition upd_prod (pr : producer T) (pc : submit_pc) : producer T :=
  mkProd (p_item pr) (p_nonblock pr) pc.

(** The producer's effect on the invariant's parameters: a new head records the item. *)
Definition push_if (b : bool) (res : list (QueueEntry T)) (item : QueueEntry T) :=
  if b then res else res ++ [item].

Definition after_reserve (r : rs_local + result Z QueueError) : submit_pc :=
  match r with inl l' => SubReserve l' | inr (Ok h) => SubData h | inr (Err e) => SubDone (Err e) end.

Lemma reserve_inert q tl w buf ps c res rcv p pr l r :
  Inv_at (l2len q) tl (head q) (bell q) w buf ps c res rcv ->
  ps !! p = Some pr -> p_pc pr = SubReserve l -> held_slot (p_pc pr) = None ->
  inert (after_reserve r) ->
  prod_ok (l2len q) tl (head q) buf res (upd_prod pr (after_reserve r)) ->
  Inv_at (l2len q) tl (head q) (bell q) w buf (<[p := upd_prod pr (after_reserve r)]> ps) c res rcv.
Proof.
  intros HI Hp Hpc Hh Hin Hok. apply Inv_prod_inert; [done| |done|done].
  intros old Ho. simplify_eq. rewrite Hpc in *. split; [|done]. split; [done|].
  simpl in *. by destruct (rs_at l).
Qed.

Lemma reserve_cas q tl w buf ps c res rcv p pr l h r :
  Inv_at (l2len q) tl (head q) (bell q) w buf ps c res rcv ->
  ps !! p = Some pr -> p_pc pr = SubReserve l -> rs_at l = RsCas h ->
  head q = h -> zlen res + 1 < 2 ^ 31 ->
  r = (if waiter l then inl (rs_goto l (RsDecWait h)) else inr (Ok (Z.land h MASK31))) ->
  Inv_at (l2len q) tl (h + 1) (bell q) w buf (<[p := upd_prod pr (after_reserve r)]> ps) c
    (res ++ [p_item pr]) rcv.
Proof.
  intros HI Hp Hpc El Hh Hlim ->. pose proof (inv_hd _ _ _ _ _ _ _ _ _ _ HI).
  destruct (Inv_tl31 _ _ _ _ _ _ _ _ _ _ HI) as (? & ? & ?).
  pose proof (inv_prods _ _ _ _ _ _ _ _ _ _ HI _ _ Hp) as Hok.
  unfold prod_ok in Hok. rewrite Hpc, El in Hok. rewrite land31_small by lia. subst h.
  apply Inv_reserve; try (done || lia).
  - unfold held_at. rewrite Hp. simpl. by rewrite Hpc; simpl; rewrite El.
  - unfold pend_at, holds_at. rewrite Hp. simpl. by rewrite Hpc; simpl; rewrite El.
  - apply check_waiting_insert. intros ??. simplify_eq. by rewrite Hpc.
  - by destruct (waiter l).
  - by destruct (waiter l).
  - by destruct (waiter l).
Qed.

Lemma reserve_inv q tl w buf ps c res rcv p pr l q' r :
  tail q = tail_val tl w ->
  Inv_at (l2len q) tl (head q) (bell q) w buf ps c res rcv ->
  ps !! p = Some pr -> p_pc pr = SubReserve l ->
  reserve_slot_step (p_nonblock pr) q l = Ret (q', r) ->
  zlen (push_if (head q' =? head q) res (p_item pr)) < 2 ^ 31 ->
  l2len q' = l2len q /\ tail q' = tail q /\ bell q' = bell q /\
  Inv_at (l2len q) tl (head q') (bell q) w buf (<[p := upd_prod pr (after_reserve r)]> ps)
    c (push_if (head q' =? head q) res (p_item pr)) rcv.
Proof.
  intros Ht HI Hp Hpc. destruct (Inv_tl31 _ _ _ _ _ _ _ _ _ _ HI) as (? & ? & ?).
  pose proof (inv_k _ _ _ _ _ _ _ _ _ _ HI).
  pose proof (inv_prods _ _ _ _ _ _ _ _ _ _ HI _ _ Hp) as Hok.
  assert (rs_at l <> RsDecWait (match rs_at l with RsDecWait h => h | _ => 0 end) ->
    held_slot (p_pc pr) = None) as Hheld by (rewrite Hpc; simpl; by destruct (rs_at l)).
  unfold reserve_slot_step, prod_ok in *. rewrite Hpc in Hok.
  destruct (rs_at l) eqn:El; simpl; intros Hs Hlim.
  - injection Hs as <- <-. rewrite Z.eqb_refl. split_and!; auto.
    apply (reserve_inert q) with l; [done|done|done|by apply Hheld|..]; [done|]. unfold prod_ok. simpl. lia.
  - destruct (is_full q h (tail q)) as [full| |] eqn:Ef; simpl in Hs; [|done..]. injection Hs as <- <-. rewrite Z.eqb_refl.
    split_and!; auto. rewrite Ht in Ef.
    apply (reserve_inert q) with l; [done|done|done|by apply Hheld|..]; destruct full; [| | |apply is_full_false in Ef; [|lia..]];
      destruct (p_nonblock pr), (attempts l =? 0), (waiter l); done || (unfold prod_ok; simpl; lia).
  - destruct (chk 32 (h + 1)) as [h1| |] eqn:Ec; simpl in Hs; [|done..].
    rewrite chk_in in Ec by (simpl; lia). injection Ec as <-.
    destruct (head q =? h) eqn:Eh; injection Hs as <- <-; cbn [head set_head] in *.
    + apply Z.eqb_eq in Eh. destruct (h + 1 =? head q) eqn:E'; [lia|]. simpl in Hlim.
      rewrite zlen_app in Hlim. unfold zlen at 2 in Hlim. simpl in Hlim.
      split_and!; auto. eapply reserve_cas; eauto.
    + rewrite Z.eqb_refl. split_and!; auto. apply (reserve_inert q) with l; [done|done|done|by apply Hheld|..]; done.
  - injection Hs as <- <-. cbn [head inc_submit_waiting dec_submit_waiting set_waiters] in *. rewrite Z.eqb_refl. split_and!; auto. apply (reserve_inert q) with l; [done|done|done|by apply Hheld|..]; done.
  - destruct (is_full q h (tail q)) as [full| |] eqn:Ef; simpl in Hs; [|done..]. injection Hs as <- <-. rewrite Z.eqb_refl.
    split_and!; auto. apply (reserve_inert q) with l; [done|done|done|by apply Hheld|..]; by destruct full.
  - injection Hs as <- <-. cbn [head inc_submit_waiting dec_submit_waiting set_waiters] in *. rewrite Z.eqb_refl. split_and!; auto.
    apply (reserve_inert q) with l; [done|done|done|by apply Hheld|..]; by destruct (tail q =? t).
  - injection Hs as <- <-. cbn [head inc_submit_waiting dec_submit_waiting set_waiters] in *. rewrite Z.eqb_refl. split_and!; auto. apply (reserve_inert q) with l; [done|done|done|by apply Hheld|..]; done.
  - injection Hs as <- <-. cbn [head inc_submit_waiting dec_submit_waiting set_waiters] in *. rewrite Z.eqb_refl. split_and!; auto.
    assert (Z.land h MASK31 = h) as -> by (apply land31_small; destruct Hok; lia).
    eapply Inv_prod_quiet; eauto; simpl.
    + unfold held_at. rewrite Hp. simpl. rewrite Hpc. simpl. by rewrite El.
    + unfold pend_at, holds_at. rewrite Hp, Hpc. simpl. by rewrite El.
    + eapply cons_ok_mono; [| | | | |by eapply inv_cons]; [|lia|lia| |done].
      * intros _. rewrite nohold_same; [done|]. unfold held_at. rewrite Hp. simpl. rewrite Hpc. simpl. by rewrite El.
      * left. split; [done|]. apply check_waiting_insert. intros ??. simplify_eq. by rewrite Hpc.
Qed.

(** Leaving [SubCheckWaiting], a producer wakes the consumer if it sleeps. *)
Lemma in_hand_ring (b : bool) (c : receive_pc T) : in_hand (if b then ring_bell c else c) = in_hand c.
Proof. destruct b, c as [l| | | | |]; try done. simpl. by destruct (gn_at l). Qed.

Lemma cons_ok_ring tl hd bl w ps ps' res c :
  (nohold ps tl -> nohold ps' tl) ->
  cons_ok tl hd bl w ps res c -> cons_ok tl hd bl w ps' res (if w then ring_bell c else c).
Proof.
  intros Hn Hok. destruct w, c as [l| | | | |]; simpl in *; unfold gn_ok in *; try tauto;
    destruct (gn_at l) eqn:E; simpl; unfold gn_ok; rewrite ?E; simpl; intuition congruence.
Qed.

Lemma submit_inv q tl w buf ps c res rcv p pr q' buf' pc' rang :
  tail q = tail_val tl w ->
  Inv_at (l2len q) tl (head q) (bell q) w buf ps c res rcv ->
  ps !! p = Some pr ->
  submit_step (p_item pr) (p_nonblock pr) q buf (p_pc pr) = Ret (q', buf', pc', rang) ->
  zlen (push_if (head q' =? head q) res (p_item pr)) < 2 ^ 31 ->
  l2len q' = l2len q /\ tail q' = tail q /\
  Inv_at (l2len q) tl (head q') (bell q') w buf' (<[p := upd_prod pr pc']> ps)
    (if rang then ring_bell c else c) (push_if (head q' =? head q) res (p_item pr)) rcv.
Proof.
  intros Ht HI Hp Hs Hlim. destruct (Inv_tl31 _ _ _ _ _ _ _ _ _ _ HI) as (? & ? & ?).
  pose proof (inv_k _ _ _ _ _ _ _ _ _ _ HI) as Hk.
  pose proof (inv_prods _ _ _ _ _ _ _ _ _ _ HI _ _ Hp) as Hok. unfold prod_ok in Hok.
  assert (forall h, get_buf q buf h = unwrap (buf !! slot_idx (l2len q) h)) as Hget
    by (intros; unfold get_buf; by rewrite buf_idx_eq by lia).
  destruct (p_pc pr) as [l|h|h|h|h| |r] eqn:Hpc; cbn [submit_step] in Hs.
  - destruct (reserve_slot_step (p_nonblock pr) q l) as [[q1 r]| |] eqn:Er; simpl in Hs; [|done..].
    injection Hs as <- <- <- <-.
    destruct (reserve_inv _ _ _ _ _ _ _ _ _ _ _ _ _ Ht HI Hp Hpc Er Hlim) as (? & ? & -> & ?). auto.
  - rewrite Hget in Hs. destruct (buf !! _) as [e|] eqn:He; simpl in Hs; [|done].
    injection Hs as <- <- <- <-. rewrite Z.eqb_refl, buf_idx_eq by lia. split_and!; auto.
    eapply Inv_write; eauto; try (by rewrite Hpc).
    intros Hr (e0 & ? & <-). split; [done|]. by eexists.
  - rewrite Hget in Hs. destruct (buf !! _) as [e|] eqn:He; simpl in Hs; [|done].
    injection Hs as <- <- <- <-. rewrite Z.eqb_refl, buf_idx_eq by lia. split_and!; auto.
    destruct Hok as [? (e0 & ? & Hd)]. simplify_eq.
    eapply Inv_write; eauto; try (by rewrite Hpc).
    intros Hr (e1 & ? & <-). split; [done|]. eexists. split; [done|]. unfold payload. simpl. by rewrite Hd.
  - rewrite Hget in Hs. destruct (buf !! _) as [e|] eqn:He; simpl in Hs; [|done].
    injection Hs as <- <- <- <-. rewrite Z.eqb_refl, buf_idx_eq by lia. split_and!; auto.
    destruct Hok as [? (e0 & ? & Hd)]. simplify_eq.
    eapply Inv_publish; [done|done|by rewrite Hpc|done|by rewrite Hpc|by rewrite Hpc|done|by apply cmd_of_eq|by apply (f_equal2 pair)|done].
  - injection Hs as <- <- <- <-. cbn [head set_bell bell l2len tail]. rewrite Z.eqb_refl, wrap_small by lia.
    split_and!; auto. by eapply Inv_bell.
  - injection Hs as <- <- <- <-. rewrite Z.eqb_refl. split_and!; auto.
    unfold consumer_waiting. rewrite Ht, tail_val_waiting by done.
    eapply Inv_prod_quiet; [done|unfold held_at; by rewrite Hp; simpl; rewrite Hpc
      |unfold pend_at, holds_at; by rewrite Hp, Hpc|done| |by apply in_hand_ring].
    eapply cons_ok_ring; [|by eapply inv_cons]. intros. rewrite nohold_same; [done|].
    unfold held_at; by rewrite Hp; simpl; rewrite Hpc.
  - injection Hs as <- <- <- <-. rewrite Z.eqb_refl. split_and!; auto.
    unfold upd_prod. rewrite <- Hpc. destruct pr as [it nb pc0]. simpl. by rewrite insert_id.
Qed.

(** The slot at the tail is found ready only when it is published. *)
Lemma ready_published k tl hd bl w buf ps c res rcv e :
  Inv_at k tl hd bl w buf ps c res rcv ->
  buf !! slot_idx k tl = Some e -> ready k tl (cmd_slot e) = true -> tl < hd /\ nohold ps tl.
Proof.
  intros [] He Hr. destruct (decide (tl < hd /\ nohold ps tl)) as [|Hn]; [done|].
  destruct (inv_fresh0 tl) as (e' & ? & ?); [|done|congruence].
  pose proof (pow_le_30 _ inv_k0). lia.
Qed.

Lemma holder_pending ps j : ~ nohold ps j -> 1 <= pend_count ps.
Proof.
  unfold nohold. intros (p & pr & Hp & Hh)%map_not_Forall; [|apply _].
  destruct (decide (held_slot (p_pc pr) = Some j)) as [E|]; [|done].
  assert (pending (p_pc pr) = true) as Hpe.
  { destruct (p_pc pr) as [l| | | | | |]; try done. simpl in *. by destruct (rs_at l). }
  by eapply (mcount_pos (fun pr => pending (p_pc pr))).
Qed.

Lemma unready_pending k tl hd bl w buf ps c res rcv e :
  Inv_at k tl hd bl w buf ps c res rcv ->
  buf !! slot_idx k tl = Some e -> ready k tl (cmd_slot e) = false -> tl = hd \/ bl < hd.
Proof.
  intros [] He Hr. destruct (decide (tl < hd /\ nohold ps tl)) as [[Hlt Hn]|Hn].
  - destruct (inv_committed0 tl) as (e' & ? & Hc & _); [lia|done|]. simplify_eq.
    rewrite Hc, ready_cmd in Hr; [done|lia].
  - destruct (decide (tl < hd)); [|lia]. right.
    assert (1 <= pend_count ps); [|lia]. apply (holder_pending _ tl). tauto.
Qed.

Lemma is_empty_eq b t : 0 <= b < 2 ^ 31 -> 0 <= t < 2 ^ 31 -> is_empty b t = (b =? t).
Proof. intros. unfold is_empty. by rewrite !land31_small. Qed.

Lemma get_ready_inv q tl w buf ps l res rcv nb q' r :
  tail q = tail_val tl w ->
  Inv_at (l2len q) tl (head q) (bell q) w buf ps (RcGet l) res rcv ->
  get_next_ready_step nb q buf l = Ret (q', r) ->
  l2len q' = l2len q /\ head q' = head q /\ bell q' = bell q /\
  exists w', tail q' = tail_val tl w' /\
  Inv_at (l2len q) tl (head q) (bell q) w' buf ps
    (match r with inl l' => RcGet l' | inr (Ok t) => RcRead t | inr (Err e) => RcDone (Err e) end)
    res rcv.
Proof.
  intros Ht HI Hs. destruct (Inv_tl31 _ _ _ _ _ _ _ _ _ _ HI) as (? & ? & ?).
  pose proof (inv_k _ _ _ _ _ _ _ _ _ _ HI) as Hk.
  pose proof (inv_win _ _ _ _ _ _ _ _ _ _ HI) as Hw.
  pose proof (inv_cons _ _ _ _ _ _ _ _ _ _ HI) as Hok. simpl in Hok. unfold gn_ok in Hok.
  assert (forall h, get_buf q buf h = unwrap (buf !! slot_idx (l2len q) h)) as Hget
    by (intros; unfold get_buf; by rewrite buf_idx_eq by lia).
  assert (forall c', cons_ok tl (head q) (bell q) w ps res c' -> in_hand c' = [] ->
    Inv_at (l2len q) tl (head q) (bell q) w buf ps c' res rcv) as Hquiet
    by (intros; eapply Inv_cons_quiet; eauto).
  unfold get_next_ready_step in Hs.
  destruct (gn_at l) as [|t|t b|t|t|t b|b|b|t] eqn:El.
  - apply Ret_pair in Hs as [<- <-]. split_and!; auto. exists w. split; [done|]. apply Hquiet; [|done].
    simpl. unfold gn_ok. simpl. by rewrite Ht, tail_val_land.
  - apply Ret_pair in Hs as [<- <-]. split_and!; auto. exists w. split; [done|]. apply Hquiet; [|done].
    simpl. unfold gn_ok. simpl. lia.
  - destruct Hok as [-> ?]. rewrite Hget in Hs.
    destruct (buf !! _) as [e|] eqn:He; cbn [obind unwrap] in Hs; [|done]. apply Ret_pair in Hs as [<- <-].
    rewrite is_empty_eq, is_turn_ready by lia. split_and!; auto. exists w. split; [done|].
    destruct (b =? tl) eqn:Eb, (ready _ tl (cmd_slot e)) eqn:Er; simpl;
      try (destruct nb, (gn_attempts l =? 0); by apply Hquiet).
    destruct (ready_published _ _ _ _ _ _ _ _ _ _ _ HI He Er).
    destruct (gn_attempts l =? 0); (apply Hquiet; [|done]); split_and!; done || lia.
  - apply Ret_pair in Hs as [<- <-]. unfold consumer_set_waiting. simpl. split_and!; auto. exists true.
    rewrite Ht, tail_val_set by done. split; [done|].
    eapply Inv_cons_quiet; eauto; done.
  - apply Ret_pair in Hs as [<- <-]. split_and!; auto. exists w. split; [done|]. apply Hquiet; [|done].
    simpl. unfold gn_ok. simpl. destruct Hok. split_and!; (done || lia).
  - destruct Hok as (-> & -> & ?). rewrite Hget in Hs.
    destruct (buf !! _) as [e|] eqn:He; cbn [obind unwrap] in Hs; [|done]. apply Ret_pair in Hs as [<- <-].
    rewrite is_empty_eq, is_turn_ready by lia. split_and!; auto. exists true. split; [done|].
    apply Hquiet; [|by destruct (_ || _)].
    destruct (b =? tl) eqn:Eb, (ready _ tl (cmd_slot e)) eqn:Er; simpl; unfold gn_ok; simpl; try done;
      split; auto; [lia|lia|].
    destruct (unready_pending _ _ _ _ _ _ _ _ _ _ _ HI He Er); lia.
  - apply Ret_pair in Hs as [<- <-]. split_and!; auto. exists w. split; [done|].
    destruct (bell q =? b) eqn:E; (apply Hquiet; [|done]); simpl; unfold gn_ok; simpl; [|done].
    split_and!; try tauto. left. lia.
  - apply Ret_pair in Hs as [<- <-]. split_and!; auto. exists w. split; [done|]. by apply Hquiet.
  - destruct Hok as (-> & ? & ?). apply Ret_pair in Hs as [<- <-]. unfold consumer_set_waiting. simpl.
    split_and!; auto. exists false. rewrite Ht, tail_val_clear by done. split; [done|].
    eapply Inv_cons_quiet; eauto; done.
Qed.

Definition push_received (c : receive_pc T) (rcv : list (QueueEntry T)) :=
  match c with RcAdvCheck item => rcv ++ [item] | _ => rcv end.

Lemma receive_inv q tl w buf ps c res rcv nb q' c' rang :
  tail q = tail_val tl w ->
  Inv_at (l2len q) tl (head q) (bell q) w buf ps c res rcv ->
  receive_step nb q buf c = Ret (q', c', rang) ->
  l2len q' = l2len q /\ head q' = head q /\ bell q' = bell q /\
  exists tl' w', tail q' = tail_val tl' w' /\
  Inv_at (l2len q) tl' (head q) (bell q) w' buf (if rang then ring_tail <$> ps else ps) c' res
    (push_received c rcv).
Proof.
  intros Ht HI Hs. destruct (Inv_tl31 _ _ _ _ _ _ _ _ _ _ HI) as (? & ? & ?).
  pose proof (inv_k _ _ _ _ _ _ _ _ _ _ HI) as Hk.
  pose proof (inv_cons _ _ _ _ _ _ _ _ _ _ HI) as Hok.
  destruct c as [l|t|item|item t|item|r]; cbn [receive_step cons_ok] in Hs, Hok.
  - destruct (get_next_ready_step nb q buf l) as [[q1 r]| |] eqn:Eg; cbn [obind unwrap] in Hs; [|done..].
    apply Ret_triple in Hs as (<- & <- & <-).
    destruct (get_ready_inv _ _ _ _ _ _ _ _ _ _ _ Ht HI Eg) as (? & ? & ? & w' & ? & ?).
    split_and!; auto. by exists tl, w'.
  - destruct Hok as (-> & ? & ?). unfold get_buf in Hs. rewrite buf_idx_eq in Hs by lia.
    destruct (buf !! _) as [e|] eqn:He; cbn [obind unwrap] in Hs; [|done]. apply Ret_triple in Hs as (<- & <- & <-).
    split_and!; auto. exists tl, w. split; [done|]. eapply Inv_cons_quiet; [done| |done].
    simpl. split_and!; auto. pose proof (inv_win _ _ _ _ _ _ _ _ _ _ HI).
    destruct (inv_committed _ _ _ _ _ _ _ _ _ _ HI tl) as (e' & ? & _ & ?); [lia|done|]. by simplify_eq.
  - apply Ret_triple in Hs as (<- & <- & <-). split_and!; auto. exists tl, w. split; [done|].
    eapply Inv_cons_quiet; [done| |done]. simpl. destruct_and!. split_and!; auto.
  - pose proof (inv_win _ _ _ _ _ _ _ _ _ _ HI). destruct Hok as (? & ? & ? & ->).
    assert (0 <= tail_val tl w + 1 < 2 ^ 64) by (unfold tail_val, BIT31; destruct w; lia).
    rewrite chk_in in Hs by done. cbn [obind] in Hs. apply Ret_triple in Hs as (<- & <- & <-). simpl.
    split_and!; auto. exists (tl + 1), false. split; [|by eapply Inv_advance].
    replace (tail_val tl w + 1) with (tail_val (tl + 1) w) by (unfold tail_val; destruct w; lia).
    apply (tail_val_land (tl + 1)). lia.
  - apply Ret_triple in Hs as (<- & <- & <-). split_and!; auto. exists tl, w. split; [done|].
    destruct (submitter_waiting q); [apply Inv_ring_tail|]; by apply Inv_return.
  - apply Ret_triple in Hs as (<- & <- & <-). split_and!; auto. by exists tl, w.
Qed.

Lemma exec_inv (s s' : sys T) e :
  Inv s -> exec s e = Ret s' -> zlen (reserved s') < 2 ^ 31 ->
  Inv s' /\ l2len (hdr s') = l2len (hdr s).
Proof.
  intros (tl & w & Ht & HI) He Hlim. assert (Inv s) as HIs by by exists tl, w.
  destruct e as [p item nb|p|nb|]; simpl in He.
  - destruct (prod_idle s p) eqn:Ei; simplify_eq; [|done]. split; [|done].
    exists tl, w. split; [done|]. simpl. apply Inv_prod_inert; try done.
    intros old Ho. unfold prod_idle in Ei. rewrite Ho in Ei. by destruct (p_pc old).
  - destruct (prods s !! p) as [pr|] eqn:Hp; simplify_eq; [|done].
    destruct (submit_step _ _ _ _ _) as [[[[q' b'] pc'] rang]| |] eqn:Es; simplify_eq/=.
    destruct (submit_inv _ _ _ _ _ _ _ _ _ _ _ _ _ _ Ht HI Hp Es Hlim) as (E1 & E2 & ?).
    split; [|done]. exists tl, w. simpl. rewrite E1, E2. done.
  - destruct (cons_idle s) eqn:Ei; simplify_eq; [|done]. split; [|done].
    exists tl, w. split; [done|]. simpl. eapply Inv_cons_quiet; [done|done|].
    unfold cons_idle in Ei. by destruct (cons s).
  - destruct (receive_step _ _ _ _) as [[[q' c'] rang]| |] eqn:Er; simplify_eq/=.
    destruct (receive_inv _ _ _ _ _ _ _ _ _ _ _ _ Ht HI Er) as (E1 & E2 & E3 & tl' & w' & ? & ?).
    split; [|done]. exists tl', w'. simpl. rewrite E1, E2, E3. split; [done|]. destruct rang; done.
Qed.

Lemma exec_reserved_mono (s s' : sys T) e : exec s e = Ret s' -> reserved s `prefix_of` reserved s'.
Proof.
  intros He. destruct e as [p item nb|p|nb|]; simpl in He.
  - by destruct (prod_idle s p); simplify_eq.
  - destruct (prods s !! p) as [pr|]; simplify_eq; [|done].
    destruct (submit_step _ _ _ _ _) as [[[[q' b'] pc'] rang]| |]; simplify_eq/=.
    destruct (_ =? _); [done|by eexists].
  - by destruct (cons_idle s); simplify_eq.
  - by destruct (receive_step _ _ _ _) as [[[q' c'] rang]| |]; simplify_eq/=.
Qed.

Lemma init_inv l2 st b : 0 <= l2 <= 30 -> fresh_buf l2 b -> Inv (init l2 st b : sys T).
Proof.
  intros Hk [Hlen Hz]. exists 0, false. split; [done|]. pose proof (pow_le_30 _ Hk).
  split; simpl; auto; try done; try lia.
  - intros j Hj _. destruct (buf_lookup l2 b j) as [e He]; [lia|done|]. exists e. split; [done|].
    rewrite Forall_lookup in Hz. rewrite (Hz _ _ He). apply ready_zero; lia.
Qed.

Lemma reachable_inv l2 st b s :
  0 <= l2 <= 30 -> fresh_buf l2 b -> rtc sys_step (init l2 st b : sys T) s ->
  zlen (reserved s) < 2 ^ 31 -> Inv s /\ l2len (hdr s) = l2.
Proof.
  intros Hk Hb Hr. apply (rtc_invariant sys_step
    (fun s => zlen (reserved s) < 2 ^ 31 -> Inv s /\ l2len (hdr s) = l2) (init l2 st b)).
  - intros _. split; [by apply init_inv|done].
  - intros a c IH Hstep Hlim. destruct Hstep as [s1 e s2 He]. destruct IH as [HI <-].
    + apply exec_reserved_mono, prefix_length in He. unfold zlen in *. lia.
    + by apply (exec_inv s1 s2 e).
  - done.
Qed.

(** The buffer entry that backs slot [j]. *)
Definition slot_entry (s : sys T) (j : Z) : option (QueueEntry T) :=
  buf s !! buf_idx (hdr s) j.

(** ** Consequences of the invariant, as the queue's clients see them *)
Lemma Inv_consumed (s : sys T) tl w :
  tail (hdr s) = tail_val tl w -> 0 <= tl < 2 ^ 31 -> consumed s = tl.
Proof. intros E ?. unfold consumed. by rewrite E, tail_val_land. Qed.

Lemma Inv_fifo (s : sys T) : Inv s -> payload <$> received s `prefix_of` payload <$> reserved s.
Proof.
  intros (tl & w & Ht & HI). pose proof (inv_hist _ _ _ _ _ _ _ _ _ _ HI) as Hh.
  etrans; [|apply (prefix_take _ (Z.to_nat tl))]. rewrite <- Hh. by eexists.
Qed.

(** All producers are between calls. *)
Definition producers_idle (s : sys T) : Prop :=
  map_Forall (fun _ pr => exists r, p_pc pr = SubDone r) (prods s).

Lemma idle_nohold (s : sys T) j : producers_idle s -> nohold (prods s) j.
Proof. intros Hi p pr Hp. destruct (Hi p pr Hp) as [r ->]. done. Qed.

Lemma idle_pending (s : sys T) : producers_idle s -> pend_count (prods s) = 0.
Proof.
  intros Hi. apply mcount_zero. eapply map_Forall_impl; [exact Hi|]. by intros p pr [r ->].
Qed.

Lemma Inv_window (s : sys T) :
  Inv s -> consumed s <= head (hdr s) <= consumed s + 2 ^ l2len (hdr s) /\
  forall j, consumed s <= j < head (hdr s) -> nohold (prods s) j ->
    exists e r, slot_entry s j = Some e /\ reserved s !! Z.to_nat j = Some r /\
      payload e = payload r /\ is_turn (hdr s) j e = true.
Proof.
  intros (tl & w & Ht & HI). destruct (Inv_tl31 _ _ _ _ _ _ _ _ _ _ HI) as (? & ? & ?).
  pose proof (inv_k _ _ _ _ _ _ _ _ _ _ HI) as Hk.
  rewrite (Inv_consumed s tl w Ht) by done.
  split; [pose proof (inv_win _ _ _ _ _ _ _ _ _ _ HI); lia|]. intros j Hj Hn.
  destruct (inv_committed _ _ _ _ _ _ _ _ _ _ HI j Hj Hn) as (e & He & Hc & Hp).
  rewrite list_lookup_fmap in Hp. destruct (reserved s !! Z.to_nat j) as [r|]; [|done].
  exists e, r. unfold slot_entry. rewrite buf_idx_eq, is_turn_ready, Hc by lia.
  split_and!; [done|done|simpl in Hp; congruence|apply ready_cmd; lia].
Qed.

Lemma Inv_no_lost_wakeup (s : sys T) l b :
  Inv s -> producers_idle s -> cons s = RcGet l -> gn_at l = GnSleep b -> consumed s = head (hdr s).
Proof.
  intros (tl & w & Ht & HI) Hi Hc Hl. pose proof (inv_cons _ _ _ _ _ _ _ _ _ _ HI) as Hok.
  pose proof (inv_count _ _ _ _ _ _ _ _ _ _ HI) as Hcnt. rewrite idle_pending in Hcnt by done.
  rewrite Hc in Hok. simpl in Hok. unfold gn_ok in Hok. rewrite Hl in Hok.
  rewrite (Inv_consumed s tl w Ht) by (by destruct (Inv_tl31 _ _ _ _ _ _ _ _ _ _ HI)).
  destruct Hok as (_ & Hb & [E|(p & pr & Hp & E)]); [lia|].
  destruct (Hi p pr Hp) as [r Hr]. congruence.
Qed.
End invariant.

End RawQueueInv.
