(* ===== verification/RawQueueSpec.v ===== *)
(** * The raw queue: what it promises

    The theorems about [RawQueue.sys] for every interleaving ([queue_fifo],
    [queue_no_overwrite], [queue_no_lost_wakeup]), the refinement of a bounded FIFO
    by calls that do not overlap, and the behaviours of [is_full] that break the
    promise for stale or wrapped counters. *)
From S2P Require Import Prelude RawQueue RawQueueInv.

#[local] Open Scope Z_scope.

Module RawQueueSpec.
Import RawQueue RawQueueInv.

(** ** Calls that do not overlap *)
Section sequential.
Context `{Build} {T : Type}.

(** The abstract queue: what has been reserved and not consumed. *)
Definition contents (s : sys T) : list (Z * T) :=
  drop (Z.to_nat (consumed s)) (payload <$> reserved s).

Definition quiescent (s : sys T) : Prop := producers_idle s /\ cons_idle s = true.

(** A whole non-blocking [submit] by thread [p], alone. *)
Definition submit_alone (p : nat) (item : QueueEntry T) (s : sys T) : outcome (sys T) :=
  run s (EvSubmit p item true :: replicate 8 (EvProd p)).

(** A whole non-blocking [receive], alone. *)
Definition receive_alone (s : sys T) : outcome (sys T) :=
  run s (EvReceive true :: replicate 7 EvCons).

Definition submit_result (s : sys T) (p : nat) : option (result unit QueueError) :=
  match prods s !! p with
  | Some pr => match p_pc pr with SubDone r => Some r | _ => None end
  | None => None
  end.

Definition receive_result (s : sys T) : option (result (QueueEntry T) QueueError) :=
  match cons s with RcDone r => Some r | _ => None end.

Lemma run_cons (s s1 s2 : sys T) e es :
  exec s e = Ret s1 -> run s1 es = Ret s2 -> run s (e :: es) = Ret s2.
Proof. intros E. simpl. by rewrite E. Qed.

Lemma run_reachable (s s' : sys T) es : run s es = Ret s' -> rtc sys_step s s'.
Proof.
  revert s. induction es as [|e es IH]; intros s Hr; simpl in Hr; [by simplify_eq|].
  destruct (exec s e) as [s1| |] eqn:E; simpl in Hr; [|done..].
  eapply rtc_l; [by econstructor|by apply IH].
Qed.

(** One access of the only active producer. *)
Lemma exec_prod q b ps nb c res rcv p item nbp pc q' b' pc' rang :
  submit_step item nbp q b pc = Ret (q', b', pc', rang) ->
  exec (mkSys q b (<[p := mkProd item nbp pc]> ps) nb c res rcv : sys T) (EvProd p) =
  Ret (mkSys q' b' (<[p := mkProd item nbp pc']> ps) nb (if rang then ring_bell c else c)
         (push_if (head q' =? head q) res item) rcv).
Proof.
  intros E. cbn [exec prods]. rewrite lookup_insert_eq. cbn [p_item p_nonblock p_pc hdr buf].
  rewrite E. cbn [obind]. by rewrite insert_insert_eq.
Qed.

Lemma is_full_val q h tl w :
  0 <= l2len q -> 0 <= tl <= h -> h < 2 ^ 31 ->
  is_full q h (tail_val tl w) = Ret (2 ^ l2len q <=? h - tl).
Proof.
  intros ? ? ?. unfold is_full. rewrite tail_val_land, land31_small, len_pow by lia.
  by rewrite chk_in by lia.
Qed.

Lemma idle_insert (s : sys T) p pr r :
  producers_idle s -> p_pc pr = SubDone r ->
  map_Forall (fun _ pr => exists r, p_pc pr = SubDone r) (<[p := pr]> (prods s)).
Proof. intros Hi E. apply map_Forall_insert_2; [by exists r|done]. Qed.

Lemma exec_submit (s : sys T) p item nb :
  producers_idle s ->
  exec s (EvSubmit p item nb) =
  Ret (mkSys (hdr s) (buf s) (<[p := mkProd item nb (SubReserve rs_init)]> (prods s))
         (c_nonblock s) (cons s) (reserved s) (received s)).
Proof.
  intros Hi. cbn [exec]. unfold prod_idle. destruct (prods s !! p) as [pr|] eqn:E; [|done].
  by destruct (Hi p pr E) as [r ->].
Qed.

Lemma ring_bell_idle (s : sys T) (b : bool) :
  cons_idle s = true -> (if b then ring_bell (cons s) else cons s) = cons s.
Proof. unfold cons_idle. by destruct b, (cons s). Qed.

Lemma submit_full (s : sys T) p item :
  Inv s -> quiescent s -> 2 ^ l2len (hdr s) <= head (hdr s) - consumed s ->
  submit_alone p item s =
  Ret (mkSys (hdr s) (buf s) (<[p := mkProd item true (SubDone (Err WouldBlock))]> (prods s))
         (c_nonblock s) (cons s) (reserved s) (received s)).
Proof.
  intros (tl & w & Ht & HI) [Hi Hc] Hfull. destruct (Inv_tl31 _ _ _ _ _ _ _ _ _ _ HI) as (? & ? & ?).
  pose proof (inv_win _ _ _ _ _ _ _ _ _ _ HI). pose proof (inv_k _ _ _ _ _ _ _ _ _ _ HI).
  rewrite (Inv_consumed s tl w Ht) in Hfull by done.
  eapply run_cons; [by apply exec_submit|]. cbn [replicate].
  eapply run_cons; [by apply exec_prod|].
  eapply run_cons; [apply exec_prod; cbn [submit_step rs_at rs_goto reserve_slot_step];
    rewrite Ht, is_full_val, (proj2 (Z.leb_le _ _) Hfull) by lia; done|].
  do 6 (eapply run_cons; [by apply exec_prod|]).
  by rewrite Z.eqb_refl.
Qed.

Lemma get_buf_set_head q (b : list (QueueEntry T)) h j :
  get_buf (set_head q h) b j = get_buf q b j.
Proof. done. Qed.

(** The three stores of [submit] into the slot it reserved. *)
Lemma submit_stores q (b : list (QueueEntry T)) h :
  0 <= l2len q <= 30 -> zlen b = 2 ^ l2len q ->
  exists e, get_buf q b h = Ret e /\ forall e', get_buf q (<[buf_idx q h := e']> b) h = Ret e'.
Proof.
  intros Hk Hb. destruct (buf_lookup (l2len q) b h) as [e He]; [lia|done|].
  exists e. unfold get_buf. rewrite buf_idx_eq by lia. rewrite He. split; [done|].
  intros e'. rewrite list_lookup_insert_eq; [done|]. by eapply lookup_lt_Some.
Qed.

Lemma submit_room (s : sys T) p item :
  Inv s -> quiescent s -> head (hdr s) - consumed s < 2 ^ l2len (hdr s) ->
  exists q' b', consumed s = Z.land (tail q') MASK31 /\
  submit_alone p item s =
  Ret (mkSys q' b' (<[p := mkProd item true (SubDone (Ok tt))]> (prods s))
         (c_nonblock s) (cons s) (reserved s ++ [item]) (received s)).
Proof.
  intros (tl & w & Ht & HI) [Hi Hc] Hroom. destruct (Inv_tl31 _ _ _ _ _ _ _ _ _ _ HI) as (? & ? & ?).
  pose proof (inv_win _ _ _ _ _ _ _ _ _ _ HI). pose proof (inv_k _ _ _ _ _ _ _ _ _ _ HI).
  pose proof (inv_buf _ _ _ _ _ _ _ _ _ _ HI) as Hb.
  rewrite (Inv_consumed s tl w Ht) in * by done.
  destruct (submit_stores (hdr s) (buf s) (head (hdr s))) as (e & He & He'); [done|done|].
  set (q := hdr s) in *. set (h := head q) in *.
  exists (set_bell (set_head q (h + 1)) (wrap 64 (bell q + 1))). eexists.
  split; [symmetry; by apply (Inv_consumed s tl w)|]. unfold submit_alone.
  eapply run_cons; [by apply exec_submit|]; cbn [replicate].
  eapply run_cons; [by apply exec_prod with (pc' := SubReserve (mkRs (RsLoadTail h) false 1000))|].
  eapply run_cons.
  { apply exec_prod with (pc' := SubReserve (mkRs (RsCas h) false 1000)) (rang := false).
    cbn [submit_step rs_at reserve_slot_step]. fold q.
    by rewrite Ht, is_full_val, (proj2 (Z.leb_gt _ _) Hroom) by lia. }
  eapply run_cons.
  { apply exec_prod with (pc' := SubData h) (rang := false) (q' := set_head q (h + 1)).
    cbn [submit_step rs_at reserve_slot_step]. unfold h at 2 3.
    rewrite chk_in, Z.eqb_refl by lia. cbn [obind waiter]. by rewrite land31_small by lia. }
  eapply run_cons; [apply exec_prod; cbn [submit_step]; rewrite get_buf_set_head, He; done|].
  eapply run_cons; [apply exec_prod; cbn [submit_step]; rewrite get_buf_set_head, He'; done|].
  eapply run_cons; [apply exec_prod; cbn [submit_step];
    rewrite get_buf_set_head, list_insert_insert_eq, He'; done|].
  eapply run_cons; [by apply exec_prod|].
  eapply run_cons; [by apply exec_prod|].
  rewrite ring_bell_idle by done. cbn [head set_head set_bell]. fold h.
  rewrite !Z.eqb_refl, !(proj2 (Z.eqb_neq (h + 1) h)) by lia. done.
Qed.

Lemma contents_len (s : sys T) :
  Inv s -> zlen (contents s) = head (hdr s) - consumed s /\ 0 <= consumed s <= zlen (reserved s) /\
    head (hdr s) < 2 ^ 31.
Proof.
  intros (tl & w & Ht & HI). destruct (Inv_tl31 _ _ _ _ _ _ _ _ _ _ HI) as (? & ? & ?).
  pose proof (inv_win _ _ _ _ _ _ _ _ _ _ HI). pose proof (inv_hd _ _ _ _ _ _ _ _ _ _ HI).
  unfold contents, zlen in *. rewrite length_drop, length_fmap, (Inv_consumed s tl w Ht) by done. lia.
Qed.

(** One access of the consumer. *)
Lemma exec_cons q b ps nb c res rcv q' c' rang :
  receive_step nb q b c = Ret (q', c', rang) ->
  exec (mkSys q b ps nb c res rcv : sys T) EvCons =
  Ret (mkSys q' b (if rang then ring_tail <$> ps else ps) nb c' res (push_received c rcv)).
Proof. intros E. cbn [exec c_nonblock hdr buf cons]. by rewrite E. Qed.

Lemma exec_receive (s : sys T) nb :
  cons_idle s = true ->
  exec s (EvReceive nb) =
  Ret (mkSys (hdr s) (buf s) (prods s) nb (RcGet gn_init) (reserved s) (received s)).
Proof. intros Hc. cbn [exec]. by rewrite Hc. Qed.

Lemma receive_check (s : sys T) :
  Inv s -> quiescent s ->
  exists e, get_buf (hdr s) (buf s) (consumed s) = Ret e /\
    negb (is_empty (bell (hdr s)) (consumed s)) && is_turn (hdr s) (consumed s) e =
      (consumed s <? head (hdr s)) /\
    (consumed s < head (hdr s) -> (payload <$> reserved s) !! Z.to_nat (consumed s) = Some (payload e)).
Proof.
  intros (tl & w & Ht & HI) [Hi Hc]. destruct (Inv_tl31 _ _ _ _ _ _ _ _ _ _ HI) as (? & ? & ?).
  pose proof (inv_win _ _ _ _ _ _ _ _ _ _ HI). pose proof (inv_k _ _ _ _ _ _ _ _ _ _ HI).
  pose proof (inv_count _ _ _ _ _ _ _ _ _ _ HI) as Hcnt. rewrite idle_pending in Hcnt by done.
  rewrite (Inv_consumed s tl w Ht) by done. unfold get_buf. rewrite buf_idx_eq by lia.
  destruct (decide (tl < head (hdr s))) as [Hlt|].
  - destruct (inv_committed _ _ _ _ _ _ _ _ _ _ HI tl) as (e & He & Hcmd & Hp); [lia|by apply idle_nohold|].
    exists e. rewrite He, is_empty_eq, is_turn_ready, Hcmd, ready_cmd by lia. split_and!; [done| |done].
    rewrite (proj2 (Z.eqb_neq _ _)), (proj2 (Z.ltb_lt _ _) Hlt) by lia. done.
  - destruct (buf_lookup (l2len (hdr s)) (buf s) tl) as [e He]; [lia|by eapply inv_buf|].
    exists e. rewrite He, is_empty_eq by lia. split_and!; [done| |lia].
    rewrite (proj2 (Z.eqb_eq _ _)), (proj2 (Z.ltb_ge _ _)) by lia. done.
Qed.

Lemma receive_some (s : sys T) e :
  Inv s -> quiescent s -> get_buf (hdr s) (buf s) (consumed s) = Ret e ->
  negb (is_empty (bell (hdr s)) (consumed s)) && is_turn (hdr s) (consumed s) e = true ->
  consumed s < head (hdr s) ->
  receive_alone s =
  Ret (mkSys (set_tail (hdr s) (consumed s + 1)) (buf s)
         (if submitter_waiting (hdr s) then ring_tail <$> prods s else prods s)
         true (RcDone (Ok e)) (reserved s) (received s ++ [e])).
Proof.
  intros (tl & w & Ht & HI) [Hi Hc] He Hchk Hlt.
  destruct (Inv_tl31 _ _ _ _ _ _ _ _ _ _ HI) as (? & ? & ?).
  pose proof (Inv_consumed s tl w Ht) as Ec. rewrite Ec in * by done. unfold consumed in Ec.
  unfold receive_alone. cbn [replicate]. eapply run_cons; [by apply exec_receive|].
  eapply run_cons; [by apply exec_cons with (c' := RcGet (mkGn (GnLoadBell (Z.land (tail (hdr s)) MASK31)) 1000))|].
  rewrite Ec by done.
  eapply run_cons; [by apply exec_cons with (c' := RcGet (mkGn (GnCheck tl (bell (hdr s))) 1000))|].
  eapply run_cons.
  { apply exec_cons with (c' := RcRead tl) (rang := false) (q' := hdr s).
    cbn [receive_step get_next_ready_step gn_at]. rewrite He. cbn [obind]. by rewrite Hchk. }
  eapply run_cons; [apply exec_cons; cbn [receive_step]; by rewrite He|].
  eapply run_cons; [by apply exec_cons|].
  eapply run_cons.
  { apply exec_cons with (c' := RcAdvCheck e) (rang := false) (q' := set_tail (hdr s) (tl + 1)).
    cbn [receive_step]. rewrite Ht, chk_in by (unfold tail_val, BIT31; destruct w; lia). cbn [obind].
    replace (tail_val tl w + 1) with (tail_val (tl + 1) w) by (unfold tail_val; destruct w; lia).
    rewrite tail_val_land by lia. done. }
  eapply run_cons; [by apply exec_cons|]. done.
Qed.

Lemma receive_none (s : sys T) e :
  quiescent s -> get_buf (hdr s) (buf s) (consumed s) = Ret e ->
  negb (is_empty (bell (hdr s)) (consumed s)) && is_turn (hdr s) (consumed s) e = false ->
  receive_alone s =
  Ret (mkSys (hdr s) (buf s) (prods s) true (RcDone (Err WouldBlock)) (reserved s) (received s)).
Proof.
  intros [Hi Hc] He Hchk. unfold receive_alone. cbn [replicate].
  eapply run_cons; [by apply exec_receive|].
  eapply run_cons; [by apply exec_cons with (c' := RcGet (mkGn (GnLoadBell (consumed s)) 1000))|].
  eapply run_cons; [by apply exec_cons with (c' := RcGet (mkGn (GnCheck (consumed s) (bell (hdr s))) 1000))|].
  eapply run_cons.
  { apply exec_cons with (c' := RcDone (Err WouldBlock)) (rang := false) (q' := hdr s).
    cbn [receive_step get_next_ready_step gn_at]. rewrite He. cbn [obind]. by rewrite Hchk. }
  do 4 (eapply run_cons; [by apply exec_cons|]). done.
Qed.

Lemma idle_ring_tail (s : sys T) :
  producers_idle s ->
  map_Forall (fun _ pr => exists r, p_pc pr = SubDone r) (ring_tail <$> prods s).
Proof.
  intros Hi. apply map_Forall_fmap. eapply map_Forall_impl; [exact Hi|].
  intros p pr [r Hr]. exists r. simpl. unfold ring_tail. by rewrite Hr.
Qed.
End sequential.

(** C9: [submit] refines a bounded FIFO.  From any reachable state in which no other call
    is in progress, a non-blocking [submit] returns: when the queue holds [2^l2]
    items it fails with [WouldBlock] and changes nothing a client can see; otherwise
    it succeeds and the item is appended to the contents. *)
Theorem submit_refines `{Build} {T} l2 st (b : list (QueueEntry T)) (s : sys T) p item :
  0 <= l2 <= 30 -> fresh_buf l2 b -> rtc sys_step (init l2 st b) s ->
  zlen (reserved s) < 2 ^ 31 -> quiescent s ->
  exists s', submit_alone p item s = Ret s' /\ quiescent s' /\ received s' = received s /\
    if zlen (contents s) =? 2 ^ l2
    then submit_result s' p = Some (Err WouldBlock) /\ contents s' = contents s
    else submit_result s' p = Some (Ok tt) /\ contents s' = contents s ++ [payload item].
Proof.
  intros Hk Hb Hr Hlim Hq. destruct (reachable_inv _ _ _ _ Hk Hb Hr Hlim) as [HI <-].
  destruct (Inv_window s HI) as [Hw _]. destruct (contents_len s HI) as [Hlen Htl]. destruct Hq as [Hi Hc].
  destruct (zlen (contents s) =? 2 ^ l2len (hdr s)) eqn:E; rewrite Hlen in E.
  - eexists. split; [apply submit_full; [done|done|lia]|].
    unfold submit_result. simpl. rewrite lookup_insert_eq. split_and!; try done.
    split; [by eapply idle_insert|done].
  - destruct (submit_room s p item HI) as (q' & b' & Ec & ->); [done|lia|]. eexists. split; [done|].
    unfold submit_result. simpl. rewrite lookup_insert_eq. split_and!; try done.
    + split; [by eapply idle_insert|done].
    + unfold contents. unfold consumed at 1. simpl. rewrite <- Ec, fmap_app, drop_app_le; [done|].
      rewrite length_fmap. unfold zlen in *. lia.
Qed.

(** C12: [receive] refines a bounded FIFO.  From any reachable state in which no other
    call is in progress, a non-blocking [receive] returns: the oldest item, which it
    removes from the contents, or [WouldBlock] exactly when the queue is empty. *)
Theorem receive_refines `{Build} {T} l2 st (b : list (QueueEntry T)) (s : sys T) :
  0 <= l2 <= 30 -> fresh_buf l2 b -> rtc sys_step (init l2 st b) s ->
  zlen (reserved s) < 2 ^ 31 -> quiescent s ->
  exists s', receive_alone s = Ret s' /\ quiescent s' /\
    match contents s with
    | [] => receive_result s' = Some (Err WouldBlock) /\ contents s' = []
    | x :: rest => exists e, receive_result s' = Some (Ok e) /\ payload e = x /\ contents s' = rest
    end.
Proof.
  intros Hk Hb Hr Hlim Hq. destruct (reachable_inv _ _ _ _ Hk Hb Hr Hlim) as [HI <-].
  destruct (Inv_window s HI) as [Hw _]. destruct (contents_len s HI) as [Hlen Htl].
  destruct (receive_check s HI Hq) as (e & He & Hchk & Hp).
  destruct (consumed s <? head (hdr s)) eqn:E; [apply Z.ltb_lt in E|apply Z.ltb_ge in E].
  - eexists. split; [by apply receive_some|]. destruct Hq as [Hi Hc]. split.
    { split; [|done]. unfold producers_idle. simpl.
      destruct (submitter_waiting (hdr s)); [by apply idle_ring_tail|done]. }
    unfold contents at 1. rewrite (drop_S _ (payload e)) by auto. exists e. split_and!; [done|done|].
    unfold contents, consumed at 1. simpl. rewrite land31_small by lia. f_equal. lia.
  - eexists. split; [by eapply receive_none|]. split; [by destruct Hq|].
    destruct (contents s) as [|x rest] eqn:Ec; [done|]. unfold zlen in Hlen. simpl in Hlen. lia.
Qed.

(** C1: FIFO.  Whatever the interleaving of any number of submitting threads with
    the receiving thread, and in both build profiles, the items that [receive] has
    returned are a prefix of the items in the order their slots were reserved:
    nothing is lost, duplicated, reordered or torn (tag and data of different
    items), as long as fewer than [2^31] slots have been reserved. *)
Theorem queue_fifo `{Build} {T} (l2 st : Z) (b : list (QueueEntry T)) (s : sys T) :
  0 <= l2 <= 30 -> fresh_buf l2 b -> rtc sys_step (init l2 st b) s ->
  zlen (reserved s) < 2 ^ 31 ->
  payload <$> received s `prefix_of` payload <$> reserved s.
Proof. intros. eapply Inv_fifo, (reachable_inv l2 st b); eauto. Qed.

(** C2: capacity, and no overwrite.  In every reachable state at most [2^l2] slots are
    reserved and unconsumed, and the entry of each of them that no producer is still
    filling is intact in the buffer: it carries the reserved item and the turn bit
    that marks it ready. *)
Theorem queue_no_overwrite `{Build} {T} (l2 st : Z) (b : list (QueueEntry T)) (s : sys T) :
  0 <= l2 <= 30 -> fresh_buf l2 b -> rtc sys_step (init l2 st b) s ->
  zlen (reserved s) < 2 ^ 31 ->
  consumed s <= head (hdr s) <= consumed s + 2 ^ l2 /\
  forall j, consumed s <= j < head (hdr s) -> nohold (prods s) j ->
    exists e r, slot_entry s j = Some e /\ reserved s !! Z.to_nat j = Some r /\
      payload e = payload r /\ is_turn (hdr s) j e = true.
Proof.
  intros Hk Hb Hr Hlim. destruct (reachable_inv _ _ _ _ Hk Hb Hr Hlim) as [HI <-]. by apply Inv_window.
Qed.

(** C3: no lost wakeup.  A consumer blocked in [wait] while no [submit] is in progress
    is blocked on an empty queue: every item submitted before it went to sleep, or
    while it was doing so, has woken it. *)
Theorem queue_no_lost_wakeup `{Build} {T} (l2 st : Z) (b : list (QueueEntry T)) (s : sys T) l v :
  0 <= l2 <= 30 -> fresh_buf l2 b -> rtc sys_step (init l2 st b) s ->
  zlen (reserved s) < 2 ^ 31 ->
  producers_idle s -> cons s = RcGet l -> gn_at l = GnSleep v ->
  consumed s = head (hdr s).
Proof. intros. eapply Inv_no_lost_wakeup; eauto. by eapply reachable_inv. Qed.

(** ** [is_full] on counters that have passed each other *)

(** When the masked head is below the masked tail, [is_full] subtracts below zero:
    a build with overflow checks panics, one without reports a full queue whatever
    its occupancy.  [reserve_slot] loads [head] before [tail], so a head that other
    calls have overtaken, or a counter that has passed [2^31], gives such arguments. *)
Theorem is_full_underflow `{Build} q h t :
  0 <= l2len q <= 62 -> Z.land h MASK31 < Z.land t MASK31 ->
  is_full q h t = if overflow_checks then Panic else Ret true.
Proof.
  intros Hk Hlt. pose proof (land31_range h). pose proof (land31_range t).
  unfold is_full, chk. assert (in_u 64 (Z.land h MASK31 - Z.land t MASK31) = false) as ->
    by (apply in_u_false; lia).
  destruct overflow_checks; [done|]. cbn [obind]. rewrite len_pow by lia. f_equal. apply Z.leb_le.
  unfold wrap. rewrite <- (Z_mod_plus_full _ 1), Z.mod_small by lia.
  assert (2 ^ l2len q <= 2 ^ 62) by (apply Z.pow_le_mono_r; lia). lia.
Qed.

(** The schedule: thread 0 loads [head]; thread 1 submits and the item is received;
    thread 0 goes on with its stale head. *)
Definition stale_schedule : list (event Z) :=
  [EvSubmit 0 (QueueEntry_new 7 70) true; EvProd 0; EvSubmit 1 (QueueEntry_new 8 80) true] ++
  replicate 8 (EvProd 1) ++ [EvReceive true] ++ replicate 7 EvCons ++ [EvProd 0].

Definition zero_buf (n : nat) : list (QueueEntry Z) := replicate n (QueueEntry_new 0 0).

(** A stale head makes [submit] fail.  There is a schedule on a queue of four slots
    whose last step is a lone non-blocking [submit] on an empty queue: with overflow
    checks it panics; without, it returns [WouldBlock]. *)
Theorem submit_stale_head :
  run (H := true) (init 2 0 (zero_buf 4)) stale_schedule = Panic /\
  exists s, run (H := false) (init 2 0 (zero_buf 4)) stale_schedule = Ret s /\
    submit_result s 0 = Some (Err WouldBlock) /\ contents s = [] /\ cons_idle s = true.
Proof. split; [by vm_compute|]. eexists. split; [vm_compute; reflexivity|]. by vm_compute. Qed.

(** ** [multi_receive] without blocking *)
Section multi.
Context `{Build} {T : Type}.

Definition poll_ok (x : poll T) : Prop :=
  0 <= l2len (pq x) /\ zlen (pbuf x) = 2 ^ l2len (pq x) /\ 0 <= tail (pq x) < 2 ^ 64 - 1.

Definition pending_now (x : poll T) : bool :=
  match has_pending (pq x) (pbuf x) with Ret b => b | _ => false end.

(** The effect of one poll: the item at the tail is taken, or nothing changes. *)
Definition polled (x x' : poll T) : Prop :=
  if pending_now x
  then exists item, get_buf (pq x) (pbuf x) (Z.land (tail (pq x)) MASK31) = Ret item /\
       output x' = Some item /\ pq x' = set_tail (pq x) (Z.land (tail (pq x) + 1) MASK31)
  else output x' = output x /\ pq x' = pq x.

Lemma setup_sleep_spec x :
  poll_ok x ->
  exists x', setup_sleep false x = Ret (x', if pending_now x then Ok tt else Err WouldBlock) /\
    polled x x'.
Proof.
  intros (Hk & Hb & Ht).
  destruct (buf_lookup (l2len (pq x)) (pbuf x) (Z.land (tail (pq x)) MASK31) Hk Hb) as [e He].
  assert (get_buf (pq x) (pbuf x) (Z.land (tail (pq x)) MASK31) = Ret e) as Hg
    by (unfold get_buf; by rewrite buf_idx_eq, He).
  unfold polled, pending_now, has_pending, setup_sleep, setup_rec_sleep. rewrite Hg. cbn [obind].
  rewrite <- (negb_involutive (is_empty _ _ || _)), negb_orb, negb_involutive.
  destruct (negb (is_empty _ _) && is_turn _ _ _); cbn [obind negb]; [|eauto].
  rewrite Hg. unfold advance_tail_setup. rewrite chk_in by lia. cbn [obind]. eauto 10.
Qed.

Lemma multi_scan_spec xs c :
  Forall poll_ok xs -> 0 <= c -> c + zlen xs < 2 ^ 64 ->
  exists xs', multi_scan false xs c = Ret (xs', c + zlen (filter (fun x => pending_now x = true) xs)) /\
    Forall2 polled xs xs'.
Proof.
  intros Hok. revert c. induction Hok as [|x xs Hx _ IH]; intros c Hc Hlim.
  { exists []. split; [|done]. cbn [multi_scan]. by rewrite Z.add_0_r. }
  destruct (setup_sleep_spec x Hx) as (x' & Hs & Hp). cbn [multi_scan]. rewrite Hs. cbn [obind].
  unfold zlen in *. cbn [length] in Hlim. rewrite filter_cons.
  destruct (pending_now x); cbn [is_ok].
  - rewrite chk_in by lia. cbn [obind]. destruct (IH (c + 1)) as (xs' & -> & HF); [lia|lia|].
    exists (x' :: xs'). split; [|by constructor]. cbn [obind]. do 2 f_equal. simpl. lia.
  - cbn [obind]. destruct (IH c) as (xs' & -> & HF); [lia|lia|]. exists (x' :: xs'). split; [done|by constructor].
Qed.
End multi.

(** A non-blocking [multi_receive] returns.  When the output array has one cell per
    queue, it takes the item at the tail of every queue that has one pending, into
    that queue's cell, leaves the other cells and queues alone, and returns the
    number of items, or [WouldBlock] when there is none. *)
Theorem multi_receive_nonblock `{Build} {T} world fuel
    (queues : list (RawQueueHdr * list (QueueEntry T))) (out : list (option (QueueEntry T))) :
  length out = length queues -> zlen queues < 2 ^ 64 ->
  let xs := zip_with (fun '(q, b) o => mkPoll q b o (None, 0) None) queues out in
  Forall poll_ok xs ->
  let count := zlen (filter (fun x => pending_now x = true) xs) in
  exists xs', multi_receive world true (S fuel) queues out =
    Ret (xs', if 0 <? count then Ok count else Err WouldBlock) /\ Forall2 polled xs xs'.
Proof.
  intros Hlen Hlim xs Hok count. unfold multi_receive. rewrite Hlen, Nat.eqb_refl. cbn [negb multi_loop].
  fold xs. destruct (multi_scan_spec xs 0) as (xs' & Hs & HF); [done|lia| |].
  { unfold zlen, xs in *. rewrite length_zip_with. lia. }
  change (100 =? 0) with false. rewrite Hs. cbn [obind]. rewrite Z.add_0_l. fold count.
  exists xs'. by destruct (0 <? count).
Qed.

(** ** Witnesses *)
Definition demo_schedule : list (event Z) :=
  [EvSubmit 0 (QueueEntry_new 7 70) false; EvSubmit 1 (QueueEntry_new 8 80) true; EvProd 0;
   EvProd 1; EvProd 1; EvProd 1; EvProd 0; EvProd 0; EvReceive false] ++
  replicate 6 (EvProd 1) ++ replicate 8 EvCons ++ replicate 9 (EvProd 0).

Definition demo : sys Z :=
  match run (H := true) (init 1 0 (zero_buf 2)) demo_schedule with
  | Ret s => s | _ => init 1 0 [] end.

(** The same queue with the consumer asleep: it polls a thousand times, then sleeps. *)
Definition asleep : sys Z :=
  match run (H := true) (init 1 0 (zero_buf 2))
    (demo_schedule ++ [EvReceive true] ++ replicate 7 EvCons ++ [EvReceive false] ++ replicate 3007 EvCons) with
  | Ret s => s | _ => init 1 0 [] end.

Lemma demo_fresh : fresh_buf 1 (zero_buf 2).
Proof. split; [done|]. by repeat constructor. Qed.

Lemma queue_fifo_witness :
  received demo <> [] /\ payload <$> received demo `prefix_of` payload <$> reserved demo.
Proof.
  split; [by vm_compute|]. apply (queue_fifo (H := true) 1 0 (zero_buf 2)).
  - lia.
  - apply demo_fresh.
  - apply (run_reachable _ _ demo_schedule). by vm_compute.
  - by vm_compute.
Defined.

Lemma queue_no_overwrite_witness : head (hdr demo) = 2 /\ consumed demo = 1 /\
  consumed demo <= head (hdr demo) <= consumed demo + 2 ^ 1.
Proof.
  split; [by vm_compute|]. split; [by vm_compute|].
  apply (queue_no_overwrite (H := true) 1 0 (zero_buf 2)).
  - lia.
  - apply demo_fresh.
  - apply (run_reachable _ _ demo_schedule). by vm_compute.
  - by vm_compute.
Defined.

Lemma demo_quiescent : quiescent demo.
Proof.
  split; [|by vm_compute]. apply map_Forall_to_list. vm_compute (map_to_list _).
  repeat (apply Forall_cons; split; [by eexists|]). apply Forall_nil_2.
Qed.

Lemma asleep_idle : producers_idle asleep.
Proof.
  apply map_Forall_to_list. vm_compute (map_to_list _).
  repeat (apply Forall_cons; split; [by eexists|]). apply Forall_nil_2.
Qed.

Lemma queue_no_lost_wakeup_witness : zlen (received asleep) = 2 /\ consumed asleep = head (hdr asleep).
Proof.
  split; [by vm_compute|].
  apply (queue_no_lost_wakeup (H := true) 1 0 (zero_buf 2) asleep (mkGn (GnSleep 2) 0) 2).
  - lia.
  - apply demo_fresh.
  - apply (run_reachable _ _ (demo_schedule ++ [EvReceive true] ++ replicate 7 EvCons ++
      [EvReceive false] ++ replicate 3007 EvCons)). by vm_compute.
  - by vm_compute.
  - apply asleep_idle.
  - by vm_compute.
  - done.
Defined.

Lemma submit_refines_witness : contents demo = [(7, 70)] /\
  exists s', submit_alone (H := true) 5 (QueueEntry_new 9 90) demo = Ret s' /\ quiescent s' /\
    received s' = received demo /\
    submit_result s' 5 = Some (Ok tt) /\ contents s' = contents demo ++ [(9, 90)].
Proof.
  split; [by vm_compute|].
  apply (submit_refines (H := true) 1 0 (zero_buf 2) demo 5 (QueueEntry_new 9 90)).
  - lia.
  - apply demo_fresh.
  - apply (run_reachable _ _ demo_schedule). by vm_compute.
  - by vm_compute.
  - apply demo_quiescent.
Defined.

Lemma receive_refines_witness :
  exists s', receive_alone (H := true) demo = Ret s' /\ quiescent s' /\
    exists e, receive_result s' = Some (Ok e) /\ payload e = (7, 70) /\ contents s' = [].
Proof.
  apply (receive_refines (H := true) 1 0 (zero_buf 2) demo).
  - lia.
  - apply demo_fresh.
  - apply (run_reachable _ _ demo_schedule). by vm_compute.
  - by vm_compute.
  - apply demo_quiescent.
Defined.

Lemma is_full_underflow_witness :
  is_full (H := false) (RawQueueHdr_new 2 0) (2 ^ 31) (2 ^ 31 - 1) = Ret true.
Proof. apply (is_full_underflow (H := false) (RawQueueHdr_new 2 0)); [simpl; lia|by vm_compute]. Defined.

Lemma multi_receive_nonblock_witness :
  exists xs', multi_receive (H := true) (fun _ xs => xs) true 1
    [(hdr demo, buf demo); (RawQueueHdr_new 0 0, zero_buf 1)] [None; None] = Ret (xs', Ok 1) /\
    Forall2 polled [mkPoll (hdr demo) (buf demo) None (None, 0) None;
                    mkPoll (RawQueueHdr_new 0 0) (zero_buf 1) None (None, 0) None] xs'.
Proof.
  apply (multi_receive_nonblock (H := true) (fun _ xs => xs) 0
    [(hdr demo, buf demo); (RawQueueHdr_new 0 0, zero_buf 1)] [None; None]).
  - done.
  - by vm_compute.
  - repeat constructor; by vm_compute.
Defined.
End RawQueueSpec.
