(* ===== verification/Address.v ===== *)
(** * Virtual and physical addresses of [src/kernel/src/arch/amd64/address.rs]

    [VirtAddr] and [PhysAddr] wrap a [u64].  A virtual address is canonical when it
    lies outside the hole between the two halves of the address space; a physical
    address is valid when it fits in the width [cpuid] reports, a parameter of the
    operations here.  The theorems show that [offset], [align_up] and [align_down]
    compute the exact address, or fail when that address is not one. *)
From S2P Require Import Prelude.

#[local] Open Scope Z_scope.

Module Address.

Record VirtAddr := mkVirt { vraw : Z }.
Record PhysAddr := mkPhys { praw : Z }.

#[global] Instance VirtAddr_eq_dec : EqDecision VirtAddr.
Proof. solve_decision. Defined.
#[global] Instance PhysAddr_eq_dec : EqDecision PhysAddr.
Proof. solve_decision. Defined.

Inductive NonCanonical := mkNonCanonical.

#[global] Instance NonCanonical_eq_dec : EqDecision NonCanonical.
Proof. solve_decision. Defined.

(** [Offset] *)
Inductive Offset := Usize (u : Z) | Isize (i : Z).

Definition HEAP_START : VirtAddr := mkVirt 0xffffff0000000000.
Definition KOBJ_START : VirtAddr := mkVirt 0xfffff00000000000.
Definition PHYS_START : VirtAddr := mkVirt 0xffff800000000000.
Definition start_kernel_memory : VirtAddr := mkVirt 0xffff800000000000.
Definition start_kernel_object_memory : VirtAddr := KOBJ_START.
Definition end_kernel_object_memory : VirtAddr := HEAP_START.
Definition start_user_memory : VirtAddr := mkVirt 0x0.
Definition end_user_memory : VirtAddr := mkVirt 0x0000800000000000.

(** ** Virtual addresses *)
Definition canonical (addr : Z) : bool := (0xFFFF800000000000 <=? addr) || (addr <=? 0x00007fffffffffff).

Definition VirtAddr_new (addr : Z) : result VirtAddr NonCanonical :=
  if canonical addr then Ok (mkVirt addr) else Err mkNonCanonical.

Definition VirtAddr_is_aligned_to (a : VirtAddr) (alignment : Z) : outcome bool :=
  if alignment =? 0 then Panic else Ret (vraw a mod alignment =? 0).

Definition is_kernel (a : VirtAddr) : bool := 0xffff800000000000 <=? vraw a.

Definition is_kernel_object_memory (a : VirtAddr) : bool :=
  (vraw start_kernel_object_memory <=? vraw a) && (vraw a <? vraw end_kernel_object_memory).

(** [isize::abs]: overflows on the least value, and then the cast [as u64] of the wrapped
    value gives [2^63]. *)
Definition isize_abs `{Build} (i : Z) : outcome Z :=
  if i =? - 2 ^ 63 then (if overflow_checks then Panic else Ret (2 ^ 63)) else Ret (Z.abs i).

(** [x.checked_add(u).ok_or(NonCanonical)?] and its continuation. *)
Definition or_noncanonical {A} (o : option Z) (k : Z -> result A NonCanonical) : result A NonCanonical :=
  match o with Some a => k a | None => Err mkNonCanonical end.

Definition VirtAddr_offset `{Build} (a : VirtAddr) (o : Offset) : outcome (result VirtAddr NonCanonical) :=
  match o with
  | Usize u => Ret (or_noncanonical (checked_add 64 (vraw a) u) VirtAddr_new)
  | Isize u =>
      let! abs := isize_abs u in
      Ret (if u <? 0 then or_noncanonical (checked_sub 64 (vraw a) abs) VirtAddr_new
           else or_noncanonical (checked_add 64 (vraw a) abs) VirtAddr_new)
  end.

Definition is_power_of_two (x : Z) : bool := (0 <? x) && (Z.land x (x - 1) =? 0).

(** [!x] on a [u64] *)
Definition not64 (x : Z) : Z := 2 ^ 64 - 1 - x.

Definition VirtAddr_align_down (a : VirtAddr) (align : Z) : outcome (result VirtAddr NonCanonical) :=
  let! _ := rassert (is_power_of_two align) in
  Ret (VirtAddr_new (Z.land (vraw a) (not64 (align - 1)))).

Definition VirtAddr_align_up (a : VirtAddr) (align : Z) : outcome (result VirtAddr NonCanonical) :=
  let! _ := rassert (is_power_of_two align) in
  let mask := align - 1 in
  if Z.land (vraw a) mask =? 0 then Ret (Ok a)
  else match checked_add 64 (Z.lor (vraw a) mask) 1 with
       | Some aligned => Ret (VirtAddr_new aligned)
       | None => Ret (Err mkNonCanonical)
       end.

(** [Sub for VirtAddr] *)
Definition VirtAddr_sub (a b : VirtAddr) : outcome Z := unwrap (checked_sub 64 (vraw a) (vraw b)).

(** ** Physical addresses; [bits] is the width the processor reports. *)
Section phys.
Context (bits : Z).

Definition phys_mem_map_len : Z := Z.min (Z.shiftl 1 bits) (vraw KOBJ_START - vraw PHYS_START).

Definition PhysAddr_new (addr : Z) : result PhysAddr NonCanonical :=
  if (bits =? 64) || (addr <? Z.shiftl 1 bits) then Ok (mkPhys addr) else Err mkNonCanonical.

Definition PhysAddr_offset `{Build} (a : PhysAddr) (o : Offset) : outcome (result PhysAddr NonCanonical) :=
  match o with
  | Usize u => Ret (or_noncanonical (checked_add 64 (praw a) u) PhysAddr_new)
  | Isize u =>
      let! abs := isize_abs u in
      Ret (if u <? 0 then or_noncanonical (checked_sub 64 (praw a) abs) PhysAddr_new
           else or_noncanonical (checked_add 64 (praw a) abs) PhysAddr_new)
  end.

Definition PhysAddr_align_down (a : PhysAddr) (align : Z) : outcome (result PhysAddr NonCanonical) :=
  let! _ := rassert (is_power_of_two align) in
  Ret (PhysAddr_new (Z.land (praw a) (not64 (align - 1)))).

Definition PhysAddr_align_up (a : PhysAddr) (align : Z) : outcome (result PhysAddr NonCanonical) :=
  let! _ := rassert (is_power_of_two align) in
  let mask := align - 1 in
  if Z.land (praw a) mask =? 0 then Ret (Ok a)
  else match checked_add 64 (Z.lor (praw a) mask) 1 with
       | Some aligned => Ret (PhysAddr_new aligned)
       | None => Panic
       end.
End phys.

Definition PhysAddr_is_aligned_to (a : PhysAddr) (alignment : Z) : outcome bool :=
  if alignment =? 0 then Panic else Ret (praw a mod alignment =? 0).

(** [Sub for PhysAddr] *)
Definition PhysAddr_sub (a b : PhysAddr) : outcome Z := unwrap (checked_sub 64 (praw a) (praw b)).

(** ** Rounding to a power of two *)
Definition round_down (x m : Z) : Z := x - x mod m.
Definition round_up (x m : Z) : Z := if x mod m =? 0 then x else x - x mod m + m.

Lemma is_power_of_two_pow n : 0 <= n -> is_power_of_two (2 ^ n) = true.
Proof.
  intros Hn. unfold is_power_of_two. pose proof (pow2_pos n Hn).
  rewrite (land_mask _ n), Z.mod_same by lia. lia.
Qed.

Lemma land_not_mask x n :
  0 <= n <= 64 -> 0 <= x < 2 ^ 64 -> Z.land x (not64 (2 ^ n - 1)) = round_down x (2 ^ n).
Proof.
  intros Hn Hx. unfold round_down.
  assert (Z.land x (not64 (2 ^ n - 1)) = Z.ldiff x (Z.ones n)) as ->.
  { apply Z.bits_inj'. intros i Hi. rewrite Z.land_spec, Z.ldiff_spec.
    replace (not64 (2 ^ n - 1)) with (Z.ones 64 - Z.ones n) by (unfold not64; rewrite !Z.ones_equiv; lia).
    assert (Z.ldiff (Z.ones n) (Z.ones 64) = 0) as Hd.
    { apply Z.bits_inj'. intros j Hj. rewrite Z.ldiff_spec, Z.bits_0, !Z.testbit_ones_nonneg by lia.
      destruct (j <? n) eqn:?, (j <? 64) eqn:?; (done || lia). }
    rewrite Z.sub_nocarry_ldiff, Z.ldiff_spec by done. rewrite !Z.testbit_ones_nonneg by lia.
    destruct (Z.testbit x i) eqn:Ex; [|done]. destruct (i <? 64) eqn:E64; [done|].
    rewrite <- (Z.mod_small x (2 ^ 64)), Z.mod_pow2_bits_high in Ex by lia. done. }
  rewrite Z.ldiff_ones_r, Z.shiftl_mul_pow2, Z.shiftr_div_pow2 by lia.
  pose proof (pow2_pos n). pose proof (Z.div_mod x (2 ^ n)). lia.
Qed.

Lemma lor_mask x n : 0 <= n -> 0 <= x -> Z.lor x (2 ^ n - 1) = round_down x (2 ^ n) + (2 ^ n - 1).
Proof.
  intros Hn Hx. unfold round_down. pose proof (Z.add_lor_land x (2 ^ n - 1)) as E.
  rewrite (land_mask x n) in E by done. lia.
Qed.

Lemma align_up_val x n :
  0 <= n <= 63 -> 0 <= x < 2 ^ 64 ->
  (if Z.land x (2 ^ n - 1) =? 0 then Some x else checked_add 64 (Z.lor x (2 ^ n - 1)) 1) =
  if round_up x (2 ^ n) <? 2 ^ 64 then Some (round_up x (2 ^ n)) else None.
Proof.
  intros Hn Hx. unfold round_up. rewrite (land_mask x n) by lia.
  destruct (x mod 2 ^ n =? 0) eqn:E.
  - by rewrite (proj2 (Z.ltb_lt x (2 ^ 64))) by lia.
  - rewrite lor_mask by lia. unfold checked_add, round_down.
    pose proof (Z.mod_pos_bound x (2 ^ n) (pow2_pos n ltac:(lia))).
    pose proof (Z.mod_le x (2 ^ n) ltac:(lia) (pow2_pos n ltac:(lia))).
    replace (x - x mod 2 ^ n + (2 ^ n - 1) + 1) with (x - x mod 2 ^ n + 2 ^ n) by lia.
    unfold in_u. by rewrite (proj2 (Z.leb_le _ _)) by lia.
Qed.

(** [round_up] is the least multiple above, [round_down] the greatest below. *)
Lemma round_up_least x m y : 0 < m -> x <= y -> y mod m = 0 -> round_up x m <= y.
Proof.
  intros Hm Hxy Hy. unfold round_up. destruct (x mod m =? 0) eqn:E; [done|].
  pose proof (Z.div_mod x m). pose proof (Z.div_mod y m). pose proof (Z.mod_pos_bound x m Hm).
  assert (x / m < y / m); [|nia]. destruct (Z.lt_ge_cases (x / m) (y / m)); [done|]. nia.
Qed.

Lemma round_up_ge x m : 0 < m -> x <= round_up x m < x + m /\ round_up x m mod m = 0.
Proof.
  intros Hm. unfold round_up. pose proof (Z.mod_pos_bound x m Hm).
  destruct (x mod m =? 0) eqn:E; [split; [lia|by apply Z.eqb_eq]|]. apply Z.eqb_neq in E. split; [lia|].
  pose proof (Z.div_mod x m ltac:(lia)) as Hd.
  replace (x - x mod m + m) with ((x / m + 1) * m) by lia. apply Z_mod_mult.
Qed.

Lemma round_down_le x m : 0 < m -> x - m < round_down x m <= x /\ round_down x m mod m = 0.
Proof.
  intros Hm. unfold round_down. pose proof (Z.mod_pos_bound x m Hm). split; [lia|].
  pose proof (Z.div_mod x m ltac:(lia)) as Hd.
  replace (x - x mod m) with ((x / m) * m) by lia. apply Z_mod_mult.
Qed.

Lemma round_down_greatest x m y : 0 < m -> y <= x -> y mod m = 0 -> y <= round_down x m.
Proof.
  intros Hm Hyx Hy. unfold round_down.
  pose proof (Z.div_mod x m). pose proof (Z.div_mod y m).
  assert (y / m <= x / m) by (apply Z.div_le_mono; lia). nia.
Qed.

(** The address an offset points to. *)
Definition offset_val (o : Offset) : Z := match o with Usize u => u | Isize i => i end.

Definition offset_wf (o : Offset) : Prop :=
  match o with Usize u => 0 <= u < 2 ^ 64 | Isize i => - 2 ^ 63 < i < 2 ^ 63 end.

(** Virtual offsets are exact.  [offset] of a 64-bit address by any representable
    offset (other than the least [isize]) returns the sum as an integer when it is a
    canonical 64-bit address, and [NonCanonical] otherwise: it never wraps around and
    never lands in the hole between the two halves. *)
Theorem VirtAddr_offset_exact `{Build} (a : VirtAddr) (o : Offset) :
  0 <= vraw a < 2 ^ 64 -> offset_wf o ->
  VirtAddr_offset a o =
  Ret (let x := vraw a + offset_val o in
       if in_u 64 x && canonical x then Ok (mkVirt x) else Err mkNonCanonical).
Proof.
  intros Ha Ho. unfold VirtAddr_offset, isize_abs, checked_add, checked_sub, or_noncanonical, VirtAddr_new.
  destruct o as [u|i]; simpl in *.
  - by destruct (in_u 64 (vraw a + u)).
  - rewrite (proj2 (Z.eqb_neq i (- 2 ^ 63))) by lia. cbn [obind]. f_equal.
    destruct (i <? 0) eqn:E.
    + replace (vraw a - Z.abs i) with (vraw a + i) by lia. by destruct (in_u 64 (vraw a + i)).
    + replace (vraw a + Z.abs i) with (vraw a + i) by lia. by destruct (in_u 64 (vraw a + i)).
Qed.

Lemma VirtAddr_offset_exact_witness :
  VirtAddr_offset (H := true) (mkVirt 0x7fffffffff00) (Usize 0x1000) = Ret (Err mkNonCanonical).
Proof. apply (VirtAddr_offset_exact (H := true) (mkVirt 0x7fffffffff00) (Usize 0x1000)); simpl; lia. Defined.

(** Alignment of virtual addresses.  For a canonical address and a power of two,
    [align_up] returns the least multiple at or above the address, [align_down] the
    greatest at or below; each fails with [NonCanonical] exactly when that multiple is
    not a canonical 64-bit address. *)
Theorem VirtAddr_align_spec (a : VirtAddr) (n : Z) :
  0 <= vraw a < 2 ^ 64 -> canonical (vraw a) = true -> 0 <= n <= 63 ->
  exists up down,
    VirtAddr_align_up a (2 ^ n) =
      Ret (if in_u 64 up && canonical up then Ok (mkVirt up) else Err mkNonCanonical) /\
    VirtAddr_align_down a (2 ^ n) =
      Ret (if canonical down then Ok (mkVirt down) else Err mkNonCanonical) /\
    down <= vraw a <= up /\ up mod 2 ^ n = 0 /\ down mod 2 ^ n = 0 /\
    (forall y, y mod 2 ^ n = 0 -> (vraw a <= y -> up <= y) /\ (y <= vraw a -> y <= down)).
Proof.
  intros Ha Hc Hn. pose proof (pow2_pos n ltac:(lia)) as Hp.
  exists (round_up (vraw a) (2 ^ n)), (round_down (vraw a) (2 ^ n)).
  destruct (round_up_ge (vraw a) _ Hp), (round_down_le (vraw a) _ Hp). split_and!; try lia.
  - unfold VirtAddr_align_up. rewrite is_power_of_two_pow by lia. cbn [rassert obind].
    pose proof (align_up_val (vraw a) n Hn Ha) as E. unfold in_u. rewrite (proj2 (Z.leb_le _ _)) by lia.
    unfold VirtAddr_new. destruct (Z.land _ _ =? 0).
    + destruct (round_up _ _ <? 2 ^ 64); simplify_eq. rewrite <- E, Hc. by destruct a.
    + rewrite E. by destruct (round_up _ _ <? 2 ^ 64).
  - unfold VirtAddr_align_down. rewrite is_power_of_two_pow by lia. cbn [rassert obind].
    by rewrite land_not_mask by lia.
  - intros y Hy. split; intros; [by apply round_up_least|by apply round_down_greatest].
Qed.

Lemma VirtAddr_align_spec_witness :
  exists up down,
    VirtAddr_align_up (mkVirt 0x7fffffffffff) (2 ^ 12) =
      Ret (if in_u 64 up && canonical up then Ok (mkVirt up) else Err mkNonCanonical) /\
    VirtAddr_align_down (mkVirt 0x7fffffffffff) (2 ^ 12) =
      Ret (if canonical down then Ok (mkVirt down) else Err mkNonCanonical) /\
    down <= 0x7fffffffffff <= up /\ up mod 2 ^ 12 = 0 /\ down mod 2 ^ 12 = 0 /\
    (forall y, y mod 2 ^ 12 = 0 -> (0x7fffffffffff <= y -> up <= y) /\ (y <= 0x7fffffffffff -> y <= down)).
Proof. apply (VirtAddr_align_spec (mkVirt 0x7fffffffffff) 12); simpl; (lia || by vm_compute). Defined.

Lemma PhysAddr_align (bits : Z) (a : PhysAddr) (n : Z) :
  0 < bits <= 64 -> 0 <= praw a < 2 ^ bits -> 0 <= n <= 63 ->
  PhysAddr_align_down bits a (2 ^ n) = Ret (Ok (mkPhys (round_down (praw a) (2 ^ n)))) /\
  PhysAddr_align_up bits a (2 ^ n) =
    let up := round_up (praw a) (2 ^ n) in
    if up <? 2 ^ bits then Ret (Ok (mkPhys up))
    else if up <? 2 ^ 64 then Ret (Err mkNonCanonical) else Panic.
Proof.
  intros Hb Ha Hn. pose proof (pow2_pos n ltac:(lia)) as Hp.
  assert (2 ^ bits <= 2 ^ 64) by (apply Z.pow_le_mono_r; lia).
  destruct (round_up_ge (praw a) _ Hp), (round_down_le (praw a) _ Hp).
  assert (forall x, x < 2 ^ 64 -> (bits =? 64) || (x <? Z.shiftl 1 bits) = (x <? 2 ^ bits)) as Hv.
  { intros x Hx. rewrite Z.shiftl_1_l. destruct (bits =? 64) eqn:E; [|done].
    apply Z.eqb_eq in E as ->. symmetry. by apply Z.ltb_lt. }
  unfold PhysAddr_align_down, PhysAddr_align_up. rewrite is_power_of_two_pow by lia. cbn [rassert obind].
  split.
  - rewrite land_not_mask by lia. unfold PhysAddr_new. rewrite Hv by lia.
    by rewrite (proj2 (Z.ltb_lt _ _)) by lia.
  - pose proof (align_up_val (praw a) n Hn ltac:(lia)) as E. cbv zeta. destruct (Z.land _ _ =? 0).
    + destruct (round_up _ _ <? 2 ^ 64) eqn:E64; simplify_eq. rewrite <- E.
      rewrite (proj2 (Z.ltb_lt _ _)) by lia. by destruct a.
    + rewrite E. destruct (round_up _ _ <? 2 ^ 64) eqn:E64.
      * unfold PhysAddr_new. rewrite Hv by lia. by destruct (_ <? 2 ^ bits).
      * by rewrite (proj2 (Z.ltb_ge _ (2 ^ bits))) by lia.
Qed.

(** Alignment of physical addresses.  For an address valid at the processor's width,
    [align_up] to a power of two returns the least multiple at or above it, fails with
    [NonCanonical] when that multiple needs more bits, and panics when it does not
    fit in 64 bits; [align_down] always succeeds, with the greatest multiple below. *)
Theorem PhysAddr_align_spec (bits : Z) (a : PhysAddr) (n : Z) :
  0 < bits <= 64 -> 0 <= praw a < 2 ^ bits -> 0 <= n <= 63 ->
  PhysAddr_align_down bits a (2 ^ n) = Ret (Ok (mkPhys (round_down (praw a) (2 ^ n)))) /\
  PhysAddr_align_up bits a (2 ^ n) =
    let up := round_up (praw a) (2 ^ n) in
    if up <? 2 ^ bits then Ret (Ok (mkPhys up))
    else if up <? 2 ^ 64 then Ret (Err mkNonCanonical) else Panic.
Proof. apply PhysAddr_align. Qed.

Lemma PhysAddr_align_spec_witness :
  PhysAddr_align_down 64 (mkPhys (2 ^ 64 - 1)) (2 ^ 12) = Ret (Ok (mkPhys (2 ^ 64 - 4096))) /\
  PhysAddr_align_up 64 (mkPhys (2 ^ 64 - 1)) (2 ^ 12) = Panic.
Proof. apply (PhysAddr_align_spec 64 (mkPhys (2 ^ 64 - 1)) 12); simpl; lia. Defined.
End Address.
