(* ===== verification/FrameAlloc.v ===== *)
(** * The physical frame allocator of [src/kernel/src/memory/frame.rs]

    Physical memory is cut into regions; each region keeps an array of [Frame]
    metadata, one entry per page, and free lists at three levels (4K, 2M, 1G).  An
    allocation takes a frame from the list of its level, splitting a bigger one when
    that list is empty.

    A [FrameRef] is a pointer into the array of a region: the array's base and an
    index.  All the arrays live in one [heap], passed through the operations as the
    kernel's memory is.  The intrusive linked lists of the free lists are a library of
    their own, here the class [LinkedList] of what its documentation promises.  The
    bit flags of a frame are a record of booleans; the frame's spin lock only guards
    the page's contents, which the module [FrameData] models. *)
From S2P Require Import Prelude Intrusive Address.

#[local] Open Scope Z_scope.

Module FrameAlloc.
Import Address.

Definition FRAME_SIZE : Z := 0x1000.
Definition NR_LEVELS : nat := 3.

(** [core::alloc::Layout] *)
Record Layout := mkLayout { lsize : Z; lalign : Z }.

Definition PHYS_LEVEL_LAYOUTS : list Layout :=
  [mkLayout FRAME_SIZE FRAME_SIZE;
   mkLayout (FRAME_SIZE * 512) (FRAME_SIZE * 512);
   mkLayout (FRAME_SIZE * 512 * 512) (FRAME_SIZE * 512 * 512)].

(** [PhysicalFrameFlags] *)
Record PhysicalFrameFlags := mkFlags {
  ZEROED : bool; ALLOCATED : bool; ADMITTED : bool; KERNEL : bool }.

Definition flags_empty : PhysicalFrameFlags := mkFlags false false false false.
(** [flags & PhysicalFrameFlags::ZEROED] *)
Definition only_zeroed (f : PhysicalFrameFlags) : PhysicalFrameFlags := mkFlags (ZEROED f) false false false.

Record Frame := mkFrame { pa : Z; flags : PhysicalFrameFlags; flevel : Z }.

#[global] Instance PhysicalFrameFlags_eq_dec : EqDecision PhysicalFrameFlags.
Proof. solve_decision. Defined.
#[global] Instance Frame_eq_dec : EqDecision Frame.
Proof. solve_decision. Defined.

Abbreviation FrameRef := (Z * Z)%type.
Abbreviation heap := (gmap FrameRef Frame).

Definition with_flags (f : Frame) (g : PhysicalFrameFlags -> PhysicalFrameFlags) : Frame :=
  mkFrame (pa f) (g (flags f)) (flevel f).

Definition set_admitted (f : Frame) : Frame :=
  with_flags f (fun g => mkFlags (ZEROED g) (ALLOCATED g) true (KERNEL g)).
Definition set_free (f : Frame) : Frame :=
  with_flags f (fun g => mkFlags (ZEROED g) false (ADMITTED g) (KERNEL g)).
Definition set_allocated (f : Frame) : Frame :=
  with_flags f (fun g => mkFlags (ZEROED g) true (ADMITTED g) (KERNEL g)).
Definition set_kernel (kernel : bool) (f : Frame) : Frame :=
  with_flags f (fun g => mkFlags (ZEROED g) (ALLOCATED g) (ADMITTED g) kernel).
Definition set_not_zero (f : Frame) : Frame :=
  with_flags f (fun g => mkFlags false (ALLOCATED g) (ADMITTED g) (KERNEL g)).
(** The flag part of [Frame::zero]. *)
Definition zero (f : Frame) : Frame :=
  with_flags f (fun g => mkFlags true (ALLOCATED g) (ADMITTED g) (KERNEL g)).

(** [Frame::reset] *)
Definition reset (p level : Z) (init : PhysicalFrameFlags) : Frame := mkFrame p init level.

Definition level_layout (level : Z) : outcome Layout :=
  unwrap (PHYS_LEVEL_LAYOUTS !! Z.to_nat level).

(** [Frame::size] *)
Definition frame_size (f : Frame) : outcome Z :=
  let! l := level_layout (flevel f) in Ret (lsize l).

Section alloc.
Context `{Build} {L : Type} `{LinkedList FrameRef L} (bits sizeof_Frame : Z).

(** [AllocationRegionLevel] *)
Record Level := mkLevel { alloc_size : Z; align : Z; free : Z; zeroed : L; non_zeroed : L }.

Definition Level_new (l : Layout) : Level := mkLevel (lsize l) (lalign l) 0 ll_new ll_new.

(** [pa + off], unwrapped *)
Definition offset_unwrap (p off : Z) : outcome Z :=
  let! r := PhysAddr_offset bits (mkPhys p) (Usize off) in
  match r with Ok a => Ret (praw a) | Err _ => Panic end.

(** Reading and updating the frame a reference points to. *)
Definition deref (h : heap) (r : FrameRef) : outcome Frame := unwrap (h !! r).
Definition modify (h : heap) (r : FrameRef) (g : Frame -> Frame) : outcome heap :=
  let! f := deref h r in Ret (<[r := g f]> h).

Definition push (lv : Level) (z : bool) (r : FrameRef) : outcome Level :=
  let! n := chk 64 (free lv + 1) in
  Ret (if z then mkLevel (alloc_size lv) (align lv) n (ll_push_back (zeroed lv) r) (non_zeroed lv)
       else mkLevel (alloc_size lv) (align lv) n (zeroed lv) (ll_push_back (non_zeroed lv) r)).

(** [AllocationRegionLevel::free] *)
Definition Level_free (h : heap) (lv : Level) (r : FrameRef) : outcome Level :=
  let! f := deref h r in push lv (ZEROED (flags f)) r.

Definition pop_zeroed (lv : Level) : outcome (option FrameRef * Level) :=
  match ll_pop_back (zeroed lv) with
  | (Some f, l') =>
      let! n := chk 64 (free lv - 1) in
      Ret (Some f, mkLevel (alloc_size lv) (align lv) n l' (non_zeroed lv))
  | (None, l') => Ret (None, mkLevel (alloc_size lv) (align lv) (free lv) l' (non_zeroed lv))
  end.

Definition pop_non_zeroed (lv : Level) : outcome (option FrameRef * Level) :=
  match ll_pop_back (non_zeroed lv) with
  | (Some f, l') =>
      let! n := chk 64 (free lv - 1) in
      Ret (Some f, mkLevel (alloc_size lv) (align lv) n (zeroed lv) l')
  | (None, l') => Ret (None, mkLevel (alloc_size lv) (align lv) (free lv) (zeroed lv) l')
  end.

(** [AllocationRegionLevel::allocate] *)
Definition Level_allocate (lv : Level) (try_zero only_zero : bool) : outcome (option FrameRef * Level) :=
  if only_zero then pop_zeroed lv
  else
    let! (o, lv1) := pop_non_zeroed lv in
    match o with
    | Some f => Ret (Some f, lv1)
    | None => if try_zero then pop_zeroed lv1 else Ret (None, lv1)
    end.

(** [AllocationRegionLevel::admit_one] *)
Definition admit_one (h : heap) (lv : Level) (r : FrameRef) (addr level : Z) (init : PhysicalFrameFlags)
  : outcome (heap * Level) :=
  let h' := <[r := set_free (set_admitted (reset addr level init))]> h in
  let! lv' := push lv (ZEROED init) r in
  Ret (h', lv').

(** ** [FrameIndexer] and [AllocationRegion] *)
Record FrameIndexer := mkIndexer {
  start : Z; len : Z; frame_array_ptr : Z; frame_array_len : Z }.

Definition contains (ix : FrameIndexer) (p : Z) : outcome bool :=
  if start ix <=? p then
    let! e := offset_unwrap (start ix) (len ix) in Ret (p <? e)
  else Ret false.

(** [get_frame] and [get_frame_mut] *)
Definition get_frame (ix : FrameIndexer) (p : Z) : outcome (option FrameRef) :=
  let! c := contains ix p in
  if negb c then Ret None
  else
    let! d := PhysAddr_sub (mkPhys p) (mkPhys (start ix)) in
    let index := d / FRAME_SIZE in
    let! _ := rassert (index <? frame_array_len ix) in
    Ret (Some (frame_array_ptr ix, index)).

Record AllocationRegion := mkRegion { indexer : FrameIndexer; nr_pages : Z; levels : list Level }.

Definition set_level (rg : AllocationRegion) (i : Z) (lv : Level) : AllocationRegion :=
  mkRegion (indexer rg) (nr_pages rg) (<[Z.to_nat i := lv]> (levels rg)).

Definition get_level (rg : AllocationRegion) (i : Z) : outcome Level :=
  unwrap (levels rg !! Z.to_nat i).

(** [AllocationRegion::free] *)
Definition Region_free (h : heap) (rg : AllocationRegion) (r : FrameRef) : outcome (heap * AllocationRegion) :=
  let! f := deref h r in
  let! c := contains (indexer rg) (pa f) in
  if negb c then Ret (h, rg)
  else
    let! h1 := modify h r set_free in
    let level := flevel f in
    let! _ := rassert (level <? Z.of_nat NR_LEVELS) in
    let! lv := get_level rg level in
    let! lv' := Level_free h1 lv r in
    Ret (h1, set_level rg level lv').

(** [find_level] *)
Definition find_level (rg : AllocationRegion) (l : Layout) : option nat :=
  fst <$> list_find (fun lv => (lsize l <=? alloc_size lv) && (lalign l <=? align lv) = true) (levels rg).

(** The loop of [split]: child frames [child_idx..] are admitted one level down. *)
Fixpoint split_children (n : nat) (child_idx : Z) (r : FrameRef) (base level new_size : Z)
    (h : heap) (rg : AllocationRegion) : outcome (heap * AllocationRegion) :=
  match n with
  | O => Ret (h, rg)
  | S n' =>
      let! off := chk 64 (child_idx * new_size) in
      let! p := offset_unwrap base off in
      let! o := get_frame (indexer rg) p in
      let! child := unwrap o in
      let! f := deref h r in
      let! lv := get_level rg (level - 1) in
      let! (h', lv') := admit_one h lv child p (level - 1) (only_zeroed (flags f)) in
      split_children n' (child_idx + 1) r base level new_size h' (set_level rg (level - 1) lv')
  end.

(** [AllocationRegion::split] *)
Definition split (h : heap) (rg : AllocationRegion) (r : FrameRef) : outcome (heap * AllocationRegion) :=
  let! f := deref h r in
  let! c := contains (indexer rg) (pa f) in
  if negb c then Ret (h, rg)
  else
    let level := flevel f in
    let! _ := rassert (0 <? level) in
    let! nl := level_layout (level - 1) in
    let! sz := frame_size f in
    let child_count := sz / lsize nl in
    let! (h1, rg1) := split_children (Z.to_nat (child_count - 1)) 1 r (pa f) level (lsize nl) h rg in
    let! f1 := deref h1 r in
    let! o := get_frame (indexer rg1) (pa f1) in
    let! r' := unwrap o in
    let! f2 := deref h1 r' in
    let! lv := get_level rg1 (level - 1) in
    let! (h2, lv') := admit_one h1 lv r' (pa f2) (level - 1) (only_zeroed (flags f2)) in
    Ret (h2, set_level rg1 (level - 1) lv').

(** [AllocationRegion::do_allocate]; [k] levels remain from [level] to the top. *)
Fixpoint do_allocate (k : nat) (try_zero only_zero : bool) (h : heap) (rg : AllocationRegion)
  : outcome (option FrameRef * heap * AllocationRegion) :=
  match k with
  | O => Ret (None, h, rg)
  | S k' =>
      let level := Z.of_nat (NR_LEVELS - k) in
      let! lv := get_level rg level in
      let! (o, lv') := Level_allocate lv try_zero only_zero in
      let rg1 := set_level rg level lv' in
      match o with
      | Some f => Ret (Some f, h, rg1)
      | None =>
          let! (b, h1, rg2) := do_allocate k' try_zero only_zero h rg1 in
          match b with
          | None => Ret (None, h1, rg2)
          | Some bigger =>
              let! (h2, rg3) := split h1 rg2 bigger in
              let! lv2 := get_level rg3 level in
              let! (o2, lv2') := Level_allocate lv2 try_zero only_zero in
              Ret (o2, h2, set_level rg3 level lv2')
          end
      end
  end.

(** [AllocationRegion::allocate] *)
Definition Region_allocate (try_zero only_zero : bool) (l : Layout) (h : heap) (rg : AllocationRegion)
  : outcome (option FrameRef * heap * AllocationRegion) :=
  match find_level rg l with
  | None => Ret (None, h, rg)
  | Some level =>
      let! (o, h1, rg1) := do_allocate (NR_LEVELS - level) try_zero only_zero h rg in
      match o with
      | None => Ret (None, h1, rg1)
      | Some r =>
          let! f := deref h1 r in
          let! _ := rassert (negb (ALLOCATED (flags f))) in
          let! h2 := modify h1 r set_allocated in
          Ret (Some r, h2, rg1)
      end
  end.

(** The loop of [split_and_keep]. *)
Fixpoint keep_children (n : nat) (child_idx : Z) (r : FrameRef) (base level new_size : Z)
    (h : heap) (rg : AllocationRegion) : outcome heap :=
  match n with
  | O => Ret h
  | S n' =>
      let! off := chk 64 (child_idx * new_size) in
      let! p := offset_unwrap base off in
      let! o := get_frame (indexer rg) p in
      let! child := unwrap o in
      let! f := deref h r in
      keep_children n' (child_idx + 1) r base level new_size
        (<[child := set_allocated (set_admitted (reset p (level - 1) (only_zeroed (flags f))))]> h) rg
  end.

(** [AllocationRegion::split_and_keep] *)
Definition split_and_keep (h : heap) (rg : AllocationRegion) (r : FrameRef)
  : outcome (heap * (FrameRef * Z)) :=
  let! f := deref h r in
  let! c := contains (indexer rg) (pa f) in
  let! _ := rassert c in
  let level := flevel f in
  if level =? 0 then
    let! l0 := level_layout 0 in Ret (h, (r, lsize l0))
  else
    let! nl := level_layout (level - 1) in
    let! sz := frame_size f in
    let child_count := sz / lsize nl in
    let! h1 := keep_children (Z.to_nat (child_count - 1)) 1 r (pa f) level (lsize nl) h rg in
    let! f1 := deref h1 r in
    let! o := get_frame (indexer rg) (pa f1) in
    let! r' := unwrap o in
    let! f2 := deref h1 r' in
    let! ll := level_layout level in
    Ret (<[r' := set_allocated (set_admitted (reset (pa f2) (level - 1) (only_zeroed (flags f2))))]> h1,
         (r', lsize ll)).

(** ** Building a region *)
Inductive MemoryRegionKind := UsableRam | Reserved | BootloaderReserved.
Record MemoryRegion := mkMem { mstart : Z; mlength : Z; kind : MemoryRegionKind }.

(** The inner loop of [new]: the metadata of each page of the frame is reset. *)
Fixpoint reset_pages (n : nat) (i : Z) (ix : FrameIndexer) (cursor : Z) (h : heap) : outcome heap :=
  match n with
  | O => Ret h
  | S n' =>
      let! off := chk 64 (i * FRAME_SIZE) in
      let! sub_addr := offset_unwrap cursor off in
      let! o := get_frame ix sub_addr in
      let! r := unwrap o in
      reset_pages n' (i + 1) ix cursor (<[r := reset sub_addr 0 flags_empty]> h)
  end.

Definition fits (cursor remaining : Z) (lv : Level) : bool :=
  (cursor mod align lv =? 0) && (alloc_size lv <=? remaining).

(** [levels.iter().rev().position(..)] *)
Definition select_level (lvs : list Level) (cursor remaining : Z) : outcome Z :=
  match list_find (fun lv => fits cursor remaining lv = true) (rev lvs) with
  | Some (i, _) => Ret (Z.of_nat (NR_LEVELS - 1) - Z.of_nat i)
  | None => Panic
  end.

(** The loop of [new], from [cursor] up to [e]. *)
Fixpoint fill_region (fuel : nat) (ix : FrameIndexer) (cursor e : Z) (h : heap) (lvs : list Level)
  : outcome (heap * list Level) :=
  match fuel with
  | O => NoFuel
  | S fuel' =>
      if cursor <? e then
        let! remaining := PhysAddr_sub (mkPhys e) (mkPhys cursor) in
        let! level := select_level lvs cursor remaining in
        let! o := get_frame ix cursor in
        let! r := unwrap o in
        let! ll := level_layout level in
        let! h1 := reset_pages (Z.to_nat (lsize ll / FRAME_SIZE)) 0 ix cursor h in
        let! lv := unwrap (lvs !! Z.to_nat level) in
        let! (h2, lv') := admit_one h1 lv r cursor level flags_empty in
        let! cursor' := offset_unwrap cursor (alloc_size lv') in
        fill_region fuel' ix cursor' e h2 (<[Z.to_nat level := lv']> lvs)
      else Ret (h, lvs)
  end.

(** [AllocationRegion::new]; the direct map takes the array to the address of its page,
    so its base is that physical address. *)
Definition Region_new (fuel : nat) (m : MemoryRegion) (h : heap) : outcome (heap * option AllocationRegion) :=
  let! r := PhysAddr_align_up bits (mkPhys (mstart m)) FRAME_SIZE in
  match r with
  | Err _ => Panic
  | Ok st =>
      let! skipped := chk 64 (praw st - mstart m) in
      let! length := chk 64 (mlength m - skipped) in
      let nr_pages := length / FRAME_SIZE in
      if nr_pages <=? 1 then Ret (h, None)
      else
        let! frame_array_len := chk 64 (sizeof_Frame * nr_pages) in
        let array_pages := (frame_array_len - 1) / FRAME_SIZE + 1 in
        if nr_pages <=? array_pages then Ret (h, None)
        else
          let! first := offset_unwrap (praw st) (array_pages * FRAME_SIZE) in
          let ix := mkIndexer first ((nr_pages - array_pages) * FRAME_SIZE) (praw st) frame_array_len in
          let! e := offset_unwrap (praw st) (nr_pages * FRAME_SIZE) in
          let! (h', lvs) := fill_region fuel ix first e h (map Level_new PHYS_LEVEL_LAYOUTS) in
          Ret (h', Some (mkRegion ix nr_pages lvs))
  end.

(** ** [PhysicalFrameAllocator] *)
Fixpoint regions_new (fuel : nat) (ms : list MemoryRegion) (h : heap)
  : outcome (heap * list AllocationRegion) :=
  match ms with
  | [] => Ret (h, [])
  | m :: ms' =>
      let! (h1, o) := (match kind m with UsableRam => Region_new fuel m h | _ => Ret (h, None) end) in
      let! (h2, rgs) := regions_new fuel ms' h1 in
      Ret (h2, match o with Some rg => rg :: rgs | None => rgs end)
  end.

Definition total (rgs : list AllocationRegion) : Z :=
  foldl (fun acc rg => nr_pages rg + acc) 0 rgs.

(** One of the two loops of [__do_alloc]. *)
Fixpoint alloc_loop (try_zero only_zero : bool) (l : Layout) (h : heap) (rgs : list AllocationRegion)
  : outcome (option FrameRef * heap * list AllocationRegion) :=
  match rgs with
  | [] => Ret (None, h, [])
  | rg :: rgs' =>
      let! (o, h1, rg1) := Region_allocate try_zero only_zero l h rg in
      match o with
      | Some f => Ret (Some f, h1, rg1 :: rgs')
      | None =>
          let! (o', h2, rgs2) := alloc_loop try_zero only_zero l h1 rgs' in
          Ret (o', h2, rg1 :: rgs2)
      end
  end.

Definition do_alloc (fl : PhysicalFrameFlags) (l : Layout) (h : heap) (rgs : list AllocationRegion)
  : outcome (option FrameRef * heap * list AllocationRegion) :=
  let! (o, h1, rgs1) := alloc_loop false (ZEROED fl) l h rgs in
  match o with
  | Some f => Ret (Some f, h1, rgs1)
  | None => alloc_loop true false l h1 rgs1
  end.

(** [PhysicalFrameAllocator::alloc] *)
Definition PFA_alloc (fl : PhysicalFrameFlags) (l : Layout) (h : heap) (rgs : list AllocationRegion)
  : outcome (option FrameRef * heap * list AllocationRegion) :=
  let! (o, h1, rgs1) := do_alloc fl l h rgs in
  match o with
  | None => Ret (None, h1, rgs1)
  | Some r =>
      let! f := deref h1 r in
      if ZEROED fl && negb (ZEROED (flags f)) then
        let! h2 := modify h1 r zero in Ret (Some r, h2, rgs1)
      else Ret (Some r, h1, rgs1)
  end.

(** [PhysicalFrameAllocator::free] *)
Fixpoint PFA_free (h : heap) (rgs : list AllocationRegion) (r : FrameRef)
  : outcome (heap * list AllocationRegion) :=
  match rgs with
  | [] => Ret (h, [])
  | rg :: rgs' =>
      let! f := deref h r in
      let! c := contains (indexer rg) (pa f) in
      if c then let! (h1, rg1) := Region_free h rg r in Ret (h1, rg1 :: rgs')
      else let! (h1, rgs1) := PFA_free h rgs' r in Ret (h1, rg :: rgs1)
  end.

Definition raw_alloc_frame (fl : PhysicalFrameFlags) (l : Layout) (h : heap) (rgs : list AllocationRegion)
  : outcome (option FrameRef * heap * list AllocationRegion) :=
  let! (o, h1, rgs1) := PFA_alloc fl l h rgs in
  match o with
  | None => Ret (None, h1, rgs1)
  | Some r =>
      let! f := deref h1 r in
      let! _ := (if ZEROED fl then rassert (ZEROED (flags f)) else Ret tt) in
      let! h2 := modify h1 r set_not_zero in
      let! f2 := deref h2 r in
      let! _ := rassert (ADMITTED (flags f2)) in
      let! _ := rassert (ALLOCATED (flags f2)) in
      Ret (Some r, h2, rgs1)
  end.

Definition raw_free_frame (h : heap) (rgs : list AllocationRegion) (r : FrameRef)
  : outcome (heap * list AllocationRegion) :=
  let! f := deref h r in
  if negb (ADMITTED (flags f)) then Ret (h, rgs)
  else
    let! _ := rassert (ADMITTED (flags f)) in
    let! _ := rassert (ALLOCATED (flags f)) in
    PFA_free h rgs r.

(** [get_frame] over the indexers of all regions *)
Fixpoint get_frame_any (rgs : list AllocationRegion) (p : Z) : outcome (option FrameRef) :=
  match rgs with
  | [] => Ret None
  | rg :: rgs' =>
      let! o := get_frame (indexer rg) p in
      match o with Some r => Ret (Some r) | None => get_frame_any rgs' p end
  end.

(** [PhysicalFrameAllocator::split_frame] *)
Fixpoint split_frame (h : heap) (rgs : list AllocationRegion) (r : FrameRef)
  : outcome (heap * (FrameRef * Z)) :=
  match rgs with
  | [] => Panic
  | rg :: rgs' =>
      let! f := deref h r in
      let! c := contains (indexer rg) (pa f) in
      if c then split_and_keep h rg r else split_frame h rgs' r
  end.
End alloc.
Arguments Level L : clear implicits.
Arguments AllocationRegion L : clear implicits.
End FrameAlloc.
