(* ===== verification/FrameAllocInv.v ===== *)
(** * The frame allocator's invariant

    The admitted frames of a region tile it: every page lies in exactly one of them.
    The free lists hold exactly the admitted frames that are not allocated, each in
    the list of its level and of its zeroed flag.  The operations of [FrameAlloc] keep
    both, whatever the free lists' implementation. *)
From S2P Require Import Prelude Intrusive Address FrameAlloc.

#[local] Open Scope Z_scope.

Module FrameAllocInv.
Import Address FrameAlloc.

Definition pages (l : Z) : Z := 512 ^ l.

Lemma pages_cases l : 0 <= l <= 2 -> l = 0 \/ l = 1 \/ l = 2.
Proof. lia. Qed.

Lemma pages_pos l : 0 <= l -> 0 < pages l.
Proof. intros. unfold pages. by apply Z.pow_pos_nonneg. Qed.

Lemma pages_succ l : 0 < l -> pages l = 512 * pages (l - 1).
Proof. intros. unfold pages. rewrite <- Z.pow_succ_r by lia. f_equal. lia. Qed.

Lemma level_layout_eq l :
  0 <= l <= 2 -> level_layout l = Ret (mkLayout (FRAME_SIZE * pages l) (FRAME_SIZE * pages l)).
Proof. intros [->|[->| ->]]%pages_cases; done. Qed.

Lemma frame_size_eq f : 0 <= flevel f <= 2 -> frame_size f = Ret (FRAME_SIZE * pages (flevel f)).
Proof. intros. unfold frame_size. by rewrite level_layout_eq. Qed.

Section inv.
Context `{Build} {L : Type} `{LinkedList FrameRef L} (bits : Z).
Implicit Types (h : heap) (ix : FrameIndexer) (rg : AllocationRegion L) (lv : Level L) (lvs : list (Level L)).

Abbreviation base ix := (frame_array_ptr ix).
Abbreviation npages ix := (len ix / FRAME_SIZE).

(** ** Well-formed indexers *)
Record wf_ix ix : Prop := {
  wf_bits : 0 < bits <= 64;
  wf_start : 0 <= start ix /\ start ix mod FRAME_SIZE = 0;
  wf_len : 0 < len ix /\ len ix mod FRAME_SIZE = 0;
  wf_end : start ix + len ix < 2 ^ bits;
  wf_array : npages ix <= frame_array_len ix }.

Lemma wf_end64 ix : wf_ix ix -> start ix + len ix < 2 ^ 64.
Proof. intros []. pose proof (Z.pow_le_mono_r 2 bits 64). lia. Qed.

Lemma wf_len_pages ix : wf_ix ix -> len ix = npages ix * FRAME_SIZE.
Proof. intros []. pose proof (Z.div_mod (len ix) FRAME_SIZE). unfold FRAME_SIZE in *. lia. Qed.

Lemma offset_unwrap_ok p off :
  0 < bits <= 64 -> 0 <= p -> 0 <= off -> p + off < 2 ^ bits ->
  offset_unwrap bits p off = Ret (p + off).
Proof.
  intros Hb Hp Ho Hlt. pose proof (Z.pow_le_mono_r 2 bits 64).
  unfold offset_unwrap, PhysAddr_offset, checked_add. simpl.
  rewrite (proj2 (in_u_spec _ _)) by lia. cbn [or_noncanonical]. unfold PhysAddr_new.
  rewrite Z.shiftl_1_l, (proj2 (Z.ltb_lt _ _) Hlt), orb_true_r. done.
Qed.

Lemma contains_spec ix p :
  wf_ix ix -> contains bits ix p = Ret ((start ix <=? p) && (p <? start ix + len ix)).
Proof.
  intros []. unfold contains. destruct (start ix <=? p); [|done]. cbn [andb].
  by rewrite offset_unwrap_ok by lia.
Qed.

(** The address of page [i], and the frame found there. *)
Definition addr ix (i : Z) : Z := start ix + i * FRAME_SIZE.

Lemma addr_range ix i : wf_ix ix -> 0 <= i < npages ix -> start ix <= addr ix i < start ix + len ix.
Proof. intros Hw Hi. pose proof (wf_len_pages ix Hw). unfold addr, FRAME_SIZE in *. nia. Qed.

Lemma contains_addr ix i : wf_ix ix -> 0 <= i < npages ix -> contains bits ix (addr ix i) = Ret true.
Proof.
  intros Hw Hi. pose proof (addr_range ix i Hw Hi). rewrite contains_spec by done.
  by rewrite (proj2 (Z.leb_le _ _)), (proj2 (Z.ltb_lt _ _)) by lia.
Qed.

Lemma get_frame_addr ix i :
  wf_ix ix -> 0 <= i < npages ix -> get_frame bits ix (addr ix i) = Ret (Some (base ix, i)).
Proof.
  intros Hw Hi. unfold get_frame. rewrite contains_addr by done. cbn [obind negb].
  pose proof (addr_range ix i Hw Hi). pose proof (wf_end64 ix Hw). destruct Hw.
  unfold PhysAddr_sub, checked_sub. simpl. rewrite (proj2 (in_u_spec _ _)) by lia. cbn [unwrap obind].
  replace (addr ix i - start ix) with (i * FRAME_SIZE) by (unfold addr; lia).
  rewrite Z.div_mul by done. unfold rassert. by rewrite (proj2 (Z.ltb_lt _ _)) by lia.
Qed.

(** ** Admitted frames tile the first [c] pages *)
Definition adm h (b i : Z) (f : Frame) : Prop := h !! (b, i) = Some f /\ ADMITTED (flags f) = true.

Definition owns h (b i p : Z) : Prop := exists f, adm h b i f /\ i <= p < i + pages (flevel f).

Definition frame_ok ix (c i : Z) (f : Frame) : Prop :=
  pa f = addr ix i /\ 0 <= flevel f <= 2 /\ 0 <= i /\ i + pages (flevel f) <= c /\
  pa f mod (FRAME_SIZE * pages (flevel f)) = 0.

Record Tiled h ix (c : Z) : Prop := {
  t_frame : forall i f, adm h (base ix) i f -> frame_ok ix c i f;
  t_cover : forall p, 0 <= p < c -> exists i, owns h (base ix) i p;
  t_uniq : forall p i j, owns h (base ix) i p -> owns h (base ix) j p -> i = j }.

Lemma adm_fun h b i f g : adm h b i f -> adm h b i g -> f = g.
Proof. unfold adm. naive_solver. Qed.

Lemma owns_self h ix c i f : Tiled h ix c -> adm h (base ix) i f -> owns h (base ix) i i.
Proof.
  intros Ht Ha. exists f. split; [done|].
  destruct (t_frame _ _ _ Ht i f Ha) as (_ & ? & _). pose proof (pages_pos (flevel f)). lia.
Qed.

(** Nothing else is admitted inside an admitted frame. *)
Lemma adm_inside h ix c i f j g :
  Tiled h ix c -> adm h (base ix) i f -> adm h (base ix) j g -> i <= j < i + pages (flevel f) -> j = i.
Proof.
  intros Ht Hi Hj Hr. apply (t_uniq _ _ _ Ht j); [by eapply owns_self|]. by exists f.
Qed.

(** Changing the flags of frames, but not [ADMITTED]. *)
Definition same_shape h h' (b : Z) : Prop :=
  forall i, match h !! (b, i), h' !! (b, i) with
    | Some f, Some f' => pa f' = pa f /\ flevel f' = flevel f /\ ADMITTED (flags f') = ADMITTED (flags f)
    | None, None => True
    | _, _ => False
    end.

Lemma Tiled_shape h h' ix c : same_shape h h' (base ix) -> Tiled h ix c -> Tiled h' ix c.
Proof.
  intros Hs Ht.
  assert (forall i f', adm h' (base ix) i f' ->
    exists f, adm h (base ix) i f /\ pa f' = pa f /\ flevel f' = flevel f) as Hback.
  { intros i f' [Hf Ha]. specialize (Hs i). rewrite Hf in Hs. unfold adm.
    destruct (h !! _); [|done]. naive_solver congruence. }
  assert (forall i f, adm h (base ix) i f ->
    exists f', adm h' (base ix) i f' /\ pa f' = pa f /\ flevel f' = flevel f) as Hforw.
  { intros i f [Hf Ha]. specialize (Hs i). rewrite Hf in Hs. unfold adm.
    destruct (h' !! _); [|done]. naive_solver congruence. }
  assert (forall i p, owns h' (base ix) i p -> owns h (base ix) i p) as Hown.
  { intros i p (f' & Ha & Hr). destruct (Hback _ _ Ha) as (f & ? & _ & E). exists f. by rewrite <- E. }
  split.
  - intros i f' Ha. destruct (Hback _ _ Ha) as (f & Hf & E1 & E2).
    unfold frame_ok. rewrite E1, E2. by apply Ht.
  - intros p Hp. destruct (t_cover _ _ _ Ht p Hp) as (i & f & Ha & Hr).
    destruct (Hforw _ _ Ha) as (f' & ? & _ & E). exists i, f'. by rewrite E.
  - intros p i j Hi Hj. eapply (t_uniq _ _ _ Ht); eauto.
Qed.

(** ** Splitting frame [i] of level [l] into 512 children *)
Definition child (al : bool) ix (i s l : Z) (z : bool) (k : Z) : Frame :=
  mkFrame (addr ix (i + k * s)) (mkFlags z al true false) (l - 1).

(** The entries for children [c..c+n) are written, the rest are untouched. *)
Definition written (b i s c n : Z) (val : Z -> Frame) h h' : Prop :=
  (forall k, c <= k < c + n -> h' !! (b, i + k * s) = Some (val k)) /\
  (forall r, (forall k, c <= k < c + n -> r <> (b, i + k * s)) -> h' !! r = h !! r).

Definition is_child (i s j : Z) : Prop := exists k, 0 <= k < 512 /\ j = i + k * s.

Lemma is_child_dec i s j : 0 < s -> is_child i s j \/ ~ is_child i s j.
Proof.
  intros Hs. destruct (decide (i <= j < i + 512 * s /\ (j - i) mod s = 0)) as [[Hr Hm]|Hn].
  - left. exists ((j - i) / s). pose proof (Z.div_mod (j - i) s). nia.
  - right. intros (k & Hk & ->). apply Hn. split; [nia|].
    replace (i + k * s - i) with (k * s) by lia. apply Z_mod_mult.
Qed.

Lemma written_cases b i s val h h' j f :
  written b i s 0 512 val h h' -> 0 < s -> h' !! (b, j) = Some f ->
  (exists k, 0 <= k < 512 /\ j = i + k * s /\ f = val k) \/ (~ is_child i s j /\ h !! (b, j) = Some f).
Proof.
  intros [Hw Hu] Hs Hf. destruct (is_child_dec i s j Hs) as [(k & Hk & ->)|Hn].
  - left. exists k. rewrite Hw in Hf by lia. by simplify_eq.
  - right. split; [done|]. rewrite <- Hf. symmetry. apply Hu. intros k Hk ?. simplify_eq.
    apply Hn. exists k. split; [lia|done].
Qed.

Section split.
Context (al : bool) h h' ix c i f (Ht : Tiled h ix c) (Ha : adm h (base ix) i f) (Hl : 0 < flevel f).
Let s := pages (flevel f - 1).
Let z := ZEROED (flags f).
Context (Hw : written (base ix) i s 0 512 (child al ix i s (flevel f) z) h h').

Lemma split_s : 0 < s /\ pages (flevel f) = 512 * s.
Proof. split; [apply pages_pos; lia|by apply pages_succ]. Qed.

Lemma child_inside k : 0 <= k < 512 -> i <= i + k * s < i + pages (flevel f).
Proof. destruct split_s as [? ->]. nia. Qed.

Lemma child_adm k : 0 <= k < 512 -> adm h' (base ix) (i + k * s) (child al ix i s (flevel f) z k).
Proof. intros. split; [|done]. apply Hw. lia. Qed.

(** What was admitted before and is not the split frame is untouched. *)
Lemma split_other j g : adm h (base ix) j g -> j <> i -> adm h' (base ix) j g /\ ~ is_child i s j.
Proof.
  intros Hj Hne. assert (~ is_child i s j) as Hn.
  { intros (k & Hk & ->). apply Hne. by eapply (adm_inside h ix c i f), child_inside. }
  split; [|done]. destruct Hj as [Hj ?]. split; [|done]. rewrite <- Hj. apply Hw.
  intros k Hk ?. simplify_eq. apply Hn. exists k. split; [lia|done].
Qed.

Lemma split_adm_cases j g :
  adm h' (base ix) j g ->
  (exists k, 0 <= k < 512 /\ j = i + k * s /\ g = child al ix i s (flevel f) z k) \/
  (~ is_child i s j /\ adm h (base ix) j g /\ j <> i).
Proof.
  destruct split_s as [Hs _]. intros [Hj Hg].
  destruct (written_cases _ _ _ _ _ _ _ _ Hw Hs Hj) as [|[Hn ?]]; [by left|]. right.
  split_and!; [done|done|]. intros ->. apply Hn. exists 0. lia.
Qed.

Lemma split_Tiled : Tiled h' ix c.
Proof.
  destruct split_s as [Hs Hp]. destruct (t_frame _ _ _ Ht i f Ha) as (Hpa & Hlv & Hi & Hend & Hal).
  split.
  - intros j g [(k & Hk & -> & ->)|(_ & Hj & _)]%split_adm_cases; [|by apply Ht].
    pose proof (child_inside k Hk). unfold frame_ok. simpl. fold s. split_and!; try (done || nia).
    replace (addr ix (i + k * s)) with (pa f + k * (FRAME_SIZE * s)) by (rewrite Hpa; unfold addr; lia).
    rewrite Z_mod_plus_full. apply Z.mod_divide; [unfold FRAME_SIZE; nia|].
    apply Z.mod_divide in Hal; [|unfold FRAME_SIZE; nia]. etrans; [|exact Hal].
    exists 512. rewrite Hp. lia.
  - intros p Hpr. destruct (t_cover _ _ _ Ht p Hpr) as (j & g & Hj & Hr).
    destruct (decide (j = i)) as [->|Hne].
    + assert (g = f) as -> by by eapply adm_fun. exists (i + (p - i) / s * s).
      pose proof (Z.div_mod (p - i) s). pose proof (Z.mod_pos_bound (p - i) s).
      exists (child al ix i s (flevel f) z ((p - i) / s)). split; [apply child_adm; nia|]. simpl. fold s. lia.
    + exists j, g. split; [by apply split_other|done].
  - intros p j j' (g & Hg & Hr) (g' & Hg' & Hr').
    destruct (split_adm_cases _ _ Hg) as [(k & Hk & -> & ->)|(Hn & Ho & Hne)],
      (split_adm_cases _ _ Hg') as [(k' & Hk' & -> & ->)|(Hn' & Ho' & Hne')]; simpl in *; fold s in Hr, Hr' |- *.
    + f_equal. assert (k = k') as ->; [|done]. nia.
    + exfalso. apply Hne'. apply (t_uniq _ _ _ Ht p); [by exists g'|]. exists f. split; [done|].
      pose proof (child_inside k Hk). nia.
    + exfalso. apply Hne. apply (t_uniq _ _ _ Ht p); [by exists g|]. exists f. split; [done|].
      pose proof (child_inside k' Hk'). nia.
    + apply (t_uniq _ _ _ Ht p); by eexists.
Qed.
End split.

(** ** The free lists *)
Definition sel (z : bool) lv : list FrameRef := ll_list (if z then zeroed lv else non_zeroed lv).

(** Frame [(b, i)] is free at level [l] with zeroed flag [z], and not [x], the frame in hand. *)
Definition free_at h (b : Z) (x : option Z) (l : Z) (z : bool) (r : FrameRef) : Prop :=
  exists i f, r = (b, i) /\ x <> Some i /\ adm h b i f /\ flevel f = l /\
    ALLOCATED (flags f) = false /\ ZEROED (flags f) = z.

Record level_ok h (b : Z) (x : option Z) (l : Z) lv : Prop := {
  lo_size : alloc_size lv = FRAME_SIZE * pages l;
  lo_align : align lv = FRAME_SIZE * pages l;
  lo_in : forall z r, r ∈ sel z lv <-> free_at h b x l z r;
  lo_nodup : forall z, NoDup (sel z lv);
  lo_free : free lv = zlen (sel true lv) + zlen (sel false lv) }.

Definition Listed h (b : Z) (x : option Z) lvs : Prop :=
  length lvs = 3%nat /\ forall l lv, lvs !! l = Some lv -> level_ok h b x (Z.of_nat l) lv.

Record Good h rg (x : option Z) : Prop := {
  g_wf : wf_ix (indexer rg);
  g_tiled : Tiled h (indexer rg) (npages (indexer rg));
  g_listed : Listed h (base (indexer rg)) x (levels rg) }.

(** A free list has at most one entry per page. *)
Lemma nodup_bound (b n : Z) (rs : list FrameRef) :
  0 <= n -> NoDup rs -> (forall r, r ∈ rs -> exists i, r = (b, i) /\ 0 <= i < n) -> zlen rs <= n.
Proof.
  intros Hn Hnd Hr. assert (rs ⊆+ ((fun i => (b, i)) <$> seqZ 0 n)) as Hs.
  { apply NoDup_submseteq; [done|]. intros r Hin. destruct (Hr r Hin) as (i & -> & Hi).
    apply list_elem_of_fmap. exists i. split; [done|]. apply elem_of_seqZ. lia. }
  apply submseteq_length in Hs. rewrite length_fmap, length_seqZ in Hs. unfold zlen. lia.
Qed.

Lemma level_free_bound h ix c x l lv :
  Tiled h ix c -> 0 <= c -> level_ok h (base ix) x l lv -> 0 <= free lv <= c.
Proof.
  intros Ht Hn Hl. rewrite (lo_free _ _ _ _ _ Hl). rewrite <- zlen_app. split; [apply zlen_nonneg|].
  apply (nodup_bound (base ix)); [done| |].
  - apply NoDup_app. split_and!; [by eapply lo_nodup| |by eapply lo_nodup].
    intros r (i & f & -> & _ & Hi & _ & _ & E)%(lo_in _ _ _ _ _ Hl)
      (j & g & ? & _ & Hj & _ & _ & E')%(lo_in _ _ _ _ _ Hl). simplify_eq.
    assert (f = g) by by eapply adm_fun. congruence.
  - intros r [Hr|Hr]%elem_of_app; apply (lo_in _ _ _ _ _ Hl) in Hr as (i & f & -> & _ & Hi & _);
      exists i; (split; [done|]); destruct (t_frame _ _ _ Ht i f Hi) as (_ & ? & ? & ? & _);
      pose proof (pages_pos (flevel f)); lia.
Qed.

Lemma npages_bound ix : wf_ix ix -> 0 <= npages ix < 2 ^ 52.
Proof.
  intros Hw. pose proof (wf_end64 ix Hw). destruct Hw. unfold FRAME_SIZE in *.
  split; [apply Z.div_pos; lia|]. apply Z.div_lt_upper_bound; lia.
Qed.

Lemma get_level_ok rg h x l :
  Good h rg x -> 0 <= l <= 2 ->
  exists lv, get_level rg l = Ret lv /\ levels rg !! Z.to_nat l = Some lv /\
    level_ok h (base (indexer rg)) x l lv /\ 0 <= free lv < 2 ^ 52.
Proof.
  intros [Hw Ht [Hlen Hl]] Hr. destruct (levels rg !! Z.to_nat l) as [lv|] eqn:E.
  - exists lv. unfold get_level. rewrite E. specialize (Hl _ _ E). rewrite Z2Nat.id in Hl by lia.
    split_and!; [done|done|done| |]; pose proof (npages_bound _ Hw);
      destruct (level_free_bound _ _ _ _ _ _ Ht ltac:(lia) Hl); lia.
  - apply lookup_ge_None in E. lia.
Qed.

(** ** Pushing and popping *)
Lemma push_spec lv z r :
  0 <= free lv -> free lv + 1 < 2 ^ 64 ->
  exists lv', push lv z r = Ret lv' /\ alloc_size lv' = alloc_size lv /\ align lv' = align lv /\
    free lv' = free lv + 1 /\ sel z lv' = sel z lv ++ [r] /\ sel (negb z) lv' = sel (negb z) lv.
Proof.
  intros. unfold push. rewrite chk_in by lia. cbn [obind]. eexists. split; [done|].
  unfold sel. destruct z; simpl; by rewrite ll_push_spec.
Qed.

(** Which lists an allocation may take from. *)
Definition allowed (try_zero only_zero z : bool) : bool :=
  if only_zero then z else negb z || try_zero.

Definition popped lv lv' z r : Prop :=
  alloc_size lv' = alloc_size lv /\ align lv' = align lv /\ free lv' = free lv - 1 /\
  sel z lv = sel z lv' ++ [r] /\ sel (negb z) lv' = sel (negb z) lv.

Definition same_lists lv lv' : Prop :=
  alloc_size lv' = alloc_size lv /\ align lv' = align lv /\ free lv' = free lv /\
  forall z, sel z lv' = sel z lv.

Lemma pop_list_cases (l : L) :
  (ll_list l = [] /\ ll_pop_back l = (None, l)) \/
  (exists r l', ll_pop_back l = (Some r, l') /\ ll_list l = ll_list l' ++ [r]).
Proof.
  destruct (ll_list l) as [|x xs _] eqn:E using rev_ind; [left; split; [done|by apply ll_pop_nil]|].
  right. destruct (ll_pop_snoc l xs x E) as (l' & Hp & Hl). exists x, l'. by rewrite Hl.
Qed.

Lemma pop_zeroed_spec lv :
  0 < free lv < 2 ^ 64 \/ sel true lv = [] ->
  exists o lv', pop_zeroed lv = Ret (o, lv') /\
    match o with Some r => popped lv lv' true r | None => sel true lv = [] /\ same_lists lv lv' end.
Proof.
  intros Hf. unfold pop_zeroed. destruct (pop_list_cases (zeroed lv)) as [[E ->]|(r & l' & -> & E)].
  - do 2 eexists. split; [done|]. split; [done|]. by split_and!.
  - destruct Hf as [Hf|Hf]; [|unfold sel in Hf; rewrite E in Hf; by apply app_nil in Hf as [_ ?]].
    rewrite chk_in by lia. cbn [obind]. do 2 eexists. split; [done|]. unfold popped, sel. simpl. done.
Qed.

Lemma pop_non_zeroed_spec lv :
  0 < free lv < 2 ^ 64 \/ sel false lv = [] ->
  exists o lv', pop_non_zeroed lv = Ret (o, lv') /\
    match o with Some r => popped lv lv' false r | None => sel false lv = [] /\ same_lists lv lv' end.
Proof.
  intros Hf. unfold pop_non_zeroed. destruct (pop_list_cases (non_zeroed lv)) as [[E ->]|(r & l' & -> & E)].
  - do 2 eexists. split; [done|]. split; [done|]. by split_and!.
  - destruct Hf as [Hf|Hf]; [|unfold sel in Hf; rewrite E in Hf; by apply app_nil in Hf as [_ ?]].
    rewrite chk_in by lia. cbn [obind]. do 2 eexists. split; [done|]. unfold popped, sel. simpl. done.
Qed.

Lemma Level_allocate_spec lv tz oz :
  free lv = zlen (sel true lv) + zlen (sel false lv) -> free lv < 2 ^ 64 ->
  exists o lv', Level_allocate lv tz oz = Ret (o, lv') /\
    match o with
    | Some r => exists z, allowed tz oz z = true /\ popped lv lv' z r
    | None => (forall z, allowed tz oz z = true -> sel z lv = []) /\ same_lists lv lv'
    end.
Proof.
  intros Hf Hb. assert (forall z, 0 < free lv < 2 ^ 64 \/ sel z lv = []) as Hpos.
  { intros z. destruct (sel z lv) as [|y ys] eqn:E; [by right|left].
    pose proof (zlen_nonneg (sel true lv)). pose proof (zlen_nonneg (sel false lv)).
    assert (0 < zlen (sel z lv)) by (rewrite E; unfold zlen; simpl; lia). destruct z; lia. }
  unfold Level_allocate. destruct oz.
  - destruct (pop_zeroed_spec lv (Hpos true)) as (o & lv' & -> & Ho). do 2 eexists. split; [done|].
    destruct o; [by exists true|]. destruct Ho as [? ?]. split; [|done]. by intros [].
  - destruct (pop_non_zeroed_spec lv (Hpos false)) as (o & lv' & -> & Ho). cbn [obind].
    destruct o; [do 2 eexists; split; [done|]; by exists false|].
    destruct Ho as [E Hs]. destruct tz.
    + assert (0 < free lv' < 2 ^ 64 \/ sel true lv' = []) as Hpos'
        by (destruct Hs as (_ & _ & -> & ->); apply Hpos).
      destruct (pop_zeroed_spec lv' Hpos') as (o & lv2 & -> & Ho). do 2 eexists. split; [done|].
      destruct Hs as (S1 & S2 & S3 & S4). destruct o.
      * exists true. split; [done|]. unfold popped in *. destruct Ho as (O1 & O2 & O3 & O4 & O5).
        rewrite <- !S4. split_and!; congruence.
      * destruct Ho as [E' (O1 & O2 & O3 & O4)]. split; [intros [] _; [by rewrite <- S4|done]|].
        split_and!; congruence.
    + do 2 eexists. split; [done|]. split; [|done]. by intros [].
Qed.

Lemma set_level_indexer rg l lv : indexer (set_level rg l lv) = indexer rg.
Proof. done. Qed.

Lemma level_ok_same h b x l lv lv' : same_lists lv lv' -> level_ok h b x l lv -> level_ok h b x l lv'.
Proof.
  intros (E1 & E2 & E3 & E4) []. split; rewrite ?E1, ?E2, ?E3, ?E4; try done.
  - intros z r. by rewrite E4.
  - intros z. by rewrite E4.
Qed.

Lemma Listed_insert h b x lvs l lv' :
  Listed h b x lvs -> 0 <= l <= 2 -> level_ok h b x l lv' -> Listed h b x (<[Z.to_nat l := lv']> lvs).
Proof.
  intros [Hlen Hl] Hr Hok. split; [by rewrite length_insert|].
  intros m lv [(<- & -> & _)|[? ?]]%list_lookup_insert_Some; [|by apply Hl]. by rewrite Z2Nat.id by lia.
Qed.

Lemma Good_same h rg x l lv lv' :
  Good h rg x -> 0 <= l <= 2 -> level_ok h (base (indexer rg)) x l lv -> same_lists lv lv' ->
  Good h (set_level rg l lv') x.
Proof.
  intros [Hw Ht Hl] Hr Hok Hs. split; [done|done|]. apply Listed_insert; [done|done|].
  by eapply level_ok_same.
Qed.

(** Popping takes the frame in hand. *)
Lemma Good_pop h rg l lv lv' z r :
  Good h rg None -> 0 <= l <= 2 -> levels rg !! Z.to_nat l = Some lv ->
  level_ok h (base (indexer rg)) None l lv -> popped lv lv' z r ->
  exists i f, r = (base (indexer rg), i) /\ adm h (base (indexer rg)) i f /\ flevel f = l /\
    ALLOCATED (flags f) = false /\ ZEROED (flags f) = z /\ Good h (set_level rg l lv') (Some i).
Proof.
  intros [Hw Ht [Hlen Hl]] Hr Hlv Hok (E1 & E2 & E3 & E4 & E5).
  assert (r ∈ sel z lv) as Hin by (rewrite E4; set_solver).
  apply (lo_in _ _ _ _ _ Hok) in Hin as (i & f & -> & _ & Ha & Hfl & Hal & Hz).
  exists i, f. split_and!; try done. split; [done|done|]. simpl.
  assert (forall z' r', r' ∈ sel z' lv' <-> r' ∈ sel z' lv /\ r' <> (base (indexer rg), i)) as Hin.
  { intros z' r'. destruct (decide (z' = z)) as [->|Hne].
    - pose proof (lo_nodup _ _ _ _ _ Hok z) as Hnd. rewrite E4 in Hnd |- *.
      apply NoDup_app in Hnd as (_ & Hnd & _). rewrite elem_of_app, list_elem_of_singleton.
      split; [|tauto]. intros Hin. split; [by left|]. intros ->. apply (Hnd _ Hin). set_solver.
    - assert (z' = negb z) as -> by by destruct z, z'. rewrite E5. split; [|tauto].
      intros Hin. split; [done|]. intros ->. apply (lo_in _ _ _ _ _ Hok) in Hin.
      destruct Hin as (j & g & ? & _ & Hg & _ & _ & E). simplify_eq.
      assert (f = g) as -> by by eapply adm_fun. by destruct (ZEROED (flags g)). }
  split; [by rewrite length_insert|].
  intros m lv0 Hm. apply list_lookup_insert_Some in Hm as [(<- & -> & _)|[Hne Hm]].
  - rewrite Z2Nat.id by lia. split; [by rewrite E1, (lo_size _ _ _ _ _ Hok)
      |by rewrite E2, (lo_align _ _ _ _ _ Hok)| | |].
    + intros z' r'. rewrite Hin, (lo_in _ _ _ _ _ Hok). unfold free_at. split.
      * intros [(j & g & -> & _ & ?) ?]. exists j, g. split; [done|]. split; [congruence|done].
      * intros (j & g & -> & ? & ?). split; [|congruence]. exists j, g. done.
    + intros z'. pose proof (lo_nodup _ _ _ _ _ Hok z') as Hnd.
      destruct (decide (z' = z)) as [->|?]; [rewrite E4 in Hnd; by apply NoDup_app in Hnd as [? _]|].
      assert (z' = negb z) as -> by by destruct z, z'. by rewrite E5.
    + rewrite E3, (lo_free _ _ _ _ _ Hok). pose proof (f_equal zlen E4) as E6. rewrite zlen_app in E6.
      unfold zlen at 3 in E6. simpl in E6. destruct z; simpl in *; rewrite E5; lia.
  - specialize (Hl m lv0 Hm). destruct Hl as [? ? Hl' ? ?]. split; [done|done| |done|done].
    intros z' r'. rewrite Hl'. unfold free_at.
    split; intros (j & g & ? & ? & Hg & Hgl & ?); exists j, g; (split_and!; [done| |done|done|tauto|tauto]).
    + intros ?. simplify_eq. assert (f = g) as -> by by eapply adm_fun. apply Hne. lia.
    + done.
Qed.

(** ** Splitting in the code *)
Lemma set_level_id rg l lv : levels rg !! Z.to_nat l = Some lv -> set_level rg l lv = rg.
Proof. intros E. unfold set_level. rewrite list_insert_id by done. by destruct rg. Qed.

Lemma set_level_twice rg l lv lv' : set_level (set_level rg l lv) l lv' = set_level rg l lv'.
Proof. unfold set_level. simpl. by rewrite list_insert_insert_eq. Qed.

Lemma get_level_set rg l lv lv0 :
  levels rg !! Z.to_nat l = Some lv0 -> levels (set_level rg l lv) !! Z.to_nat l = Some lv.
Proof. intros E. simpl. apply list_lookup_insert_eq. by eapply lookup_lt_Some. Qed.

(** The children of frame [i], in the order [split] pushes them. *)
Definition child_refs (b i s c n : Z) : list FrameRef := (fun k => (b, i + k * s)) <$> seqZ c n.

Definition pushed lv lv' z rs : Prop :=
  alloc_size lv' = alloc_size lv /\ align lv' = align lv /\ free lv' = free lv + zlen rs /\
  sel z lv' = sel z lv ++ rs /\ sel (negb z) lv' = sel (negb z) lv.

Lemma pushed_trans lv lv1 lv2 z rs rs' :
  pushed lv lv1 z rs -> pushed lv1 lv2 z rs' -> pushed lv lv2 z (rs ++ rs').
Proof.
  intros (A1 & A2 & A3 & A4 & A5) (B1 & B2 & B3 & B4 & B5).
  unfold pushed. rewrite zlen_app, B4, A4, app_assoc. split_and!; try congruence; lia.
Qed.

Lemma push_pushed lv z r :
  0 <= free lv < 2 ^ 63 -> exists lv', push lv z r = Ret lv' /\ pushed lv lv' z [r].
Proof. intros. destruct (push_spec lv z r) as (lv' & ? & ?); [lia|lia|]. by exists lv'. Qed.

Lemma child_refs_succ b i s c n :
  0 <= n -> child_refs b i s c (Z.succ n) = (b, i + c * s) :: child_refs b i s (c + 1) n.
Proof. intros. unfold child_refs. by rewrite seqZ_cons, Z.pred_succ by lia. Qed.

Lemma written_step b i s c n val h h' :
  0 < s -> 0 <= n ->
  written b i s (c + 1) n val (<[(b, i + c * s) := val c]> h) h' -> written b i s c (Z.succ n) val h h'.
Proof.
  intros Hs Hn [Hw Hu]. split.
  - intros k Hk. destruct (decide (k = c)) as [->|]; [|apply Hw; lia].
    rewrite Hu; [by rewrite lookup_insert_eq|]. intros k' Hk' ?. simplify_eq. nia.
  - intros r Hr. rewrite Hu; [|intros k Hk; apply Hr; lia].
    rewrite lookup_insert_ne; [done|]. intros <-. apply (Hr c); [lia|done].
Qed.

Lemma split_children_spec ix n c h rg lv i f :
  let l := flevel f in let s := pages (l - 1) in let z := ZEROED (flags f) in
  indexer rg = ix -> wf_ix ix -> h !! (base ix, i) = Some f -> pa f = addr ix i -> 0 < l <= 2 -> 0 <= i ->
  i + pages l <= npages ix -> levels rg !! Z.to_nat (l - 1) = Some lv ->
  1 <= c -> c + Z.of_nat n <= 512 -> 0 <= free lv -> free lv + Z.of_nat n < 2 ^ 53 ->
  exists h' lv',
    split_children bits n c (base ix, i) (pa f) l (FRAME_SIZE * s) h rg = Ret (h', set_level rg (l - 1) lv') /\
    written (base ix) i s c (Z.of_nat n) (child false ix i s l z) h h' /\
    pushed lv lv' z (child_refs (base ix) i s c (Z.of_nat n)).
Proof.
  intros l s z Hix Hw Hf Hpa Hl Hi Hend. assert (0 < s /\ pages l = 512 * s) as [Hs Hp]
    by (split; [apply pages_pos; lia|apply pages_succ; lia]).
  revert c h rg lv Hix Hf. induction n as [|n IH]; intros c h rg lv Hix Hf Hlv Hc Hcn Hfr Hfn.
  { exists h, lv. cbn [split_children]. rewrite set_level_id by done. split_and!; try done.
    - split; [lia|done].
    - unfold pushed. change (child_refs _ _ _ _ _) with (@nil FrameRef).
      rewrite app_nil_r. unfold zlen. simpl. split_and!; try done. lia. }
  pose proof (wf_end64 ix Hw). pose proof (wf_len_pages ix Hw).
  pose proof (addr_range ix (i + c * s) Hw ltac:(nia)).
  assert (pa f + c * (FRAME_SIZE * s) = addr ix (i + c * s)) as Ha by (rewrite Hpa; unfold addr; lia).
  assert (0 <= c * (FRAME_SIZE * s)) by (unfold FRAME_SIZE; nia).
  assert (0 <= pa f) by (rewrite Hpa; destruct Hw; unfold addr, FRAME_SIZE; lia).
  cbn [split_children]. rewrite chk_in by lia. cbn [obind].
  rewrite offset_unwrap_ok by (destruct Hw; lia). cbn [obind].
  rewrite Ha, Hix, get_frame_addr by (done || nia). cbn [obind unwrap].
  unfold deref at 1. rewrite Hf. cbn [obind unwrap]. unfold get_level. rewrite Hlv. cbn [obind unwrap].
  unfold admit_one. change (ZEROED (only_zeroed (flags f))) with z.
  destruct (push_pushed lv z (base ix, i + c * s)) as (lv1 & -> & Hp1); [lia|]. cbn [obind].
  change (set_free _) with (child false ix i s l z c).
  destruct (IH (c + 1) (<[(base ix, i + c * s) := child false ix i s l z c]> h) (set_level rg (l - 1) lv1) lv1)
    as (h' & lv' & -> & Hwr & Hp2); try (done || lia).
  - rewrite lookup_insert_ne; [done|]. intros ?. simplify_eq. nia.
  - by eapply get_level_set.
  - destruct Hp1 as (_ & _ & E & _). unfold zlen in E. simpl in E. lia.
  - destruct Hp1 as (_ & _ & E & _). unfold zlen in E. simpl in E. lia.
  - exists h', lv'. rewrite set_level_twice, Nat2Z.inj_succ, child_refs_succ by lia. split_and!; [done| |].
    + apply written_step; [done|lia|done].
    + by apply (pushed_trans lv lv1 lv' z [_]).
Qed.

(** Admitting new frames pushes them on the list they belong to. *)
Lemma level_ok_admit h h' b x lv lv' l z rs :
  level_ok h b x l lv -> pushed lv lv' z rs -> NoDup rs ->
  (forall r, free_at h' b None l z r <-> free_at h b x l z r \/ r ∈ rs) ->
  (forall r, r ∈ rs -> ~ free_at h b x l z r) ->
  (forall r, free_at h' b None l (negb z) r <-> free_at h b x l (negb z) r) ->
  level_ok h' b None l lv'.
Proof.
  intros [] (E1 & E2 & E3 & E4 & E5) Hnd Hz Hfresh Hnz.
  assert (forall z', sel z' lv' = if decide (z' = z) then sel z' lv ++ rs else sel z' lv) as Hsel.
  { intros z'. destruct (decide (z' = z)) as [->|]; [done|].
    assert (z' = negb z) as -> by by destruct z, z'. done. }
  split; [congruence|congruence| | |].
  - intros z' r. rewrite Hsel. destruct (decide (z' = z)) as [->|].
    + by rewrite elem_of_app, lo_in0, Hz.
    + assert (z' = negb z) as -> by by destruct z, z'. by rewrite lo_in0, Hnz.
  - intros z'. rewrite Hsel. destruct (decide (z' = z)) as [->|]; [|done].
    apply NoDup_app. split_and!; [done| |done]. intros r Hr Hr'. by apply (Hfresh r Hr'), lo_in0.
  - rewrite E3, lo_free0, !Hsel. destruct z; simpl; rewrite zlen_app; lia.
Qed.

Lemma split_free_at al h h' ix c i f l' z' r :
  Tiled h ix c -> adm h (base ix) i f -> 0 < flevel f ->
  written (base ix) i (pages (flevel f - 1)) 0 512
    (child al ix i (pages (flevel f - 1)) (flevel f) (ZEROED (flags f))) h h' ->
  free_at h' (base ix) None l' z' r <->
  free_at h (base ix) (Some i) l' z' r \/
  (al = false /\ l' = flevel f - 1 /\ z' = ZEROED (flags f) /\
   exists k, 0 <= k < 512 /\ r = (base ix, i + k * pages (flevel f - 1))).
Proof.
  intros Ht Ha Hl Hw. split.
  - intros (j & g & -> & _ & Hg & <- & Hal & <-).
    destruct (split_adm_cases al h h' ix i f Hl Hw j g Hg) as [(k & Hk & -> & ->)|(Hn & Ho & Hne)].
    + right. split_and!; try done. by exists k.
    + left. exists j, g. split_and!; try done. congruence.
  - intros [(j & g & -> & Hx & Hg & <- & Hal & <-)|(-> & -> & -> & k & Hk & ->)].
    + exists j, g. split_and!; try done.
      by destruct (split_other al h h' ix c i f Ht Ha Hl Hw j g Hg) as [? _]; [congruence|].
    + exists (i + k * pages (flevel f - 1)), (child false ix i (pages (flevel f - 1)) (flevel f) (ZEROED (flags f)) k).
      split_and!; try done. by apply (child_adm false h h' ix i f).
Qed.

Lemma child_refs_in b i s c n r :
  r ∈ child_refs b i s c n <-> exists k, c <= k < c + n /\ r = (b, i + k * s).
Proof.
  unfold child_refs. rewrite list_elem_of_fmap. split; intros (k & A & B).
  - exists k. apply elem_of_seqZ in B. split; [lia|done].
  - exists k. split; [done|]. apply elem_of_seqZ. lia.
Qed.

Lemma child_refs_nodup b i s c n : 0 < s -> NoDup (child_refs b i s c n).
Proof.
  intros Hs. unfold child_refs. apply NoDup_fmap_2_strong; [|apply NoDup_seqZ].
  intros x y _ _ ?. simplify_eq. nia.
Qed.

Lemma child_count_eq l :
  0 < l -> FRAME_SIZE * pages l / (FRAME_SIZE * pages (l - 1)) = 512.
Proof.
  intros Hl. rewrite (pages_succ l Hl). pose proof (pages_pos (l - 1) ltac:(lia)).
  replace (FRAME_SIZE * (512 * pages (l - 1))) with (512 * (FRAME_SIZE * pages (l - 1))) by lia.
  apply Z.div_mul. unfold FRAME_SIZE. lia.
Qed.

(** The code of [split]: its heap and its one changed level. *)
Lemma split_run h rg lv i f :
  let ix := indexer rg in let l := flevel f in let s := pages (l - 1) in let z := ZEROED (flags f) in
  wf_ix ix -> adm h (base ix) i f -> frame_ok ix (npages ix) i f -> 0 < l ->
  levels rg !! Z.to_nat (l - 1) = Some lv -> 0 <= free lv < 2 ^ 52 ->
  exists h' lv', split bits h rg (base ix, i) = Ret (h', set_level rg (l - 1) lv') /\
    written (base ix) i s 0 512 (child false ix i s l z) h h' /\
    pushed lv lv' z (child_refs (base ix) i s 1 511 ++ [(base ix, i)]).
Proof.
  intros ix l s z Hw [Hf _] (Hpa & Hlr & Hi & Hend & Hal) Hl Hlv Hfr.
  assert (0 < s /\ pages l = 512 * s) as [Hs Hp] by (split; [apply pages_pos; lia|apply pages_succ; lia]).
  fold l in Hlr, Hend. unfold split, deref at 1. rewrite Hf. cbn [obind unwrap].
  rewrite Hpa, contains_addr by (done || lia). cbn [obind negb]. fold l.
  unfold rassert. rewrite (proj2 (Z.ltb_lt 0 l)) by done. cbn [obind].
  rewrite level_layout_eq by lia. cbn [obind lsize]. rewrite frame_size_eq by done. cbn [obind].
  fold l. rewrite child_count_eq by done. rewrite <- Hpa.
  destruct (split_children_spec ix (Z.to_nat (512 - 1)) 1 h rg lv i f)
    as (h1 & lv1 & E & [Hw1 Hu1] & Hp1); try (done || lia).
  fold l s z in E, Hw1, Hu1, Hp1. fold s. rewrite E. change (Z.of_nat (Z.to_nat (512 - 1))) with 511 in *.
  assert (h1 !! (base ix, i) = Some f) as Hf1.
  { rewrite Hu1; [done|]. intros k Hk ?. simplify_eq. nia. }
  cbn [obind]. unfold deref at 1. rewrite Hf1. cbn [obind unwrap]. rewrite set_level_indexer. fold ix.
  rewrite Hpa, get_frame_addr by (done || lia). cbn [obind unwrap]. unfold deref. rewrite Hf1. cbn [obind unwrap].
  unfold get_level. rewrite (get_level_set _ _ _ lv) by done. cbn [obind unwrap].
  unfold admit_one. change (ZEROED (only_zeroed (flags f))) with z.
  destruct (push_pushed lv1 z (base ix, i)) as (lv2 & -> & Hp2).
  { destruct Hp1 as (_ & _ & E1 & _). unfold zlen, child_refs in E1.
    rewrite length_fmap, length_seqZ in E1. lia. }
  cbn [obind]. eexists _, lv2. rewrite set_level_twice. split; [done|]. split; [|by eapply pushed_trans].
  rewrite Hpa. split.
  - intros k Hk. destruct (decide (k = 0)) as [->|].
    + replace (i + 0 * s) with i by lia. rewrite lookup_insert_eq. unfold child.
      by replace (i + 0 * s) with i by lia.
    + rewrite lookup_insert_ne; [apply Hw1; lia|]. intros ?. simplify_eq. nia.
  - intros r Hr. rewrite lookup_insert_ne; [apply Hu1; intros; apply Hr; lia|].
    intros <-. apply (Hr 0); [lia|]. f_equal. lia.
Qed.

Lemma split_spec h rg i f :
  let ix := indexer rg in let l := flevel f in let s := pages (l - 1) in
  Good h rg (Some i) -> adm h (base ix) i f -> 0 < l -> ALLOCATED (flags f) = false ->
  exists h' lv', split bits h rg (base ix, i) = Ret (h', set_level rg (l - 1) lv') /\
    written (base ix) i s 0 512 (child false ix i s l (ZEROED (flags f))) h h' /\
    Good h' (set_level rg (l - 1) lv') None.
Proof.
  intros ix l s HG Ha Hl Hal. pose proof (g_tiled _ _ _ HG) as Ht. pose proof (g_wf _ _ _ HG) as Hw.
  pose proof (t_frame _ _ _ Ht i f Ha) as Hok. assert (0 <= l - 1 <= 2) as Hl2 by (destruct Hok; lia).
  assert (0 < s) by (apply pages_pos; lia).
  destruct (get_level_ok rg h _ _ HG Hl2) as (lv & _ & Hlv & Hlok & Hfr).
  destruct (split_run h rg lv i f) as (h' & lv' & E & Hwr & Hpu); try done.
  exists h', lv'. split; [done|]. split; [done|].
  assert (forall l' z' r, free_at h' (base ix) None l' z' r <-> free_at h (base ix) (Some i) l' z' r \/
    (false = false /\ l' = l - 1 /\ z' = ZEROED (flags f) /\ exists k, 0 <= k < 512 /\ r = (base ix, i + k * s))) as Hfree
    by (intros; by eapply split_free_at).
  split; [done|by eapply split_Tiled|]. destruct (g_listed _ _ _ HG) as [Hlen Hls].
  split; [simpl; by rewrite length_insert|]. intros m lv0. simpl.
  intros [(<- & -> & _)|[Hne Hm]]%list_lookup_insert_Some.
  - rewrite Z2Nat.id by lia. fold l s in Hpu. assert (forall r, r ∈ child_refs (base ix) i s 1 511 ++ [(base ix, i)] <->
      exists k, 0 <= k < 512 /\ r = (base ix, i + k * s)) as Hrs.
    { intros r. rewrite elem_of_app, child_refs_in, list_elem_of_singleton. split.
      - intros [(k & ? & ->)| ->]; [exists k; split; [lia|done]|exists 0; split; [lia|f_equal; lia]].
      - intros (k & ? & ->). destruct (decide (k = 0)) as [->|]; [right; f_equal; lia|left].
        exists k. split; [lia|done]. }
    eapply level_ok_admit; [exact Hlok|exact Hpu| | | |].
    + apply NoDup_app. split_and!; [by apply child_refs_nodup| |apply NoDup_singleton].
      intros r (k & ? & ->)%child_refs_in. rewrite list_elem_of_singleton. intros ?. simplify_eq. nia.
    + intros r. fold ix. rewrite Hfree, Hrs. split; (intros [?|?]; [by left|right]); tauto.
    + intros r (k & Hk & ->)%Hrs (j & g & ? & Hx & Hg & _). simplify_eq.
      destruct (split_other _ h h' ix (npages ix) i f Ht Ha Hl Hwr _ _ Hg) as [_ Hn]; [congruence|].
      apply Hn. by exists k.
    + intros r. fold ix. rewrite Hfree. split; [|by left]. intros [?|(_ & _ & Hz & _)]; [done|].
      by destruct (ZEROED (flags f)).
  - destruct (Hls m lv0 Hm) as [? ? Hin ? ?]. split; try done. intros z' r. fold ix in Hin |- *. rewrite Hin, Hfree.
    split; [by left|]. intros [?|(_ & Hm' & _)]; [done|]. exfalso. apply Hne. lia.
Qed.

(** ** Allocating *)
(** Other regions' frames and allocated frames are not touched, and no frame but [x] becomes
    allocated. *)
Definition preserved (b : Z) (x : option Z) h h' : Prop :=
  (forall b' j, b' <> b -> h' !! (b', j) = h !! (b', j)) /\
  (forall j g, adm h b j g -> ALLOCATED (flags g) = true -> h' !! (b, j) = Some g) /\
  (forall j g, adm h' b j g -> ALLOCATED (flags g) = true -> x = Some j \/ adm h b j g).

Lemma preserved_refl b x h : preserved b x h h.
Proof. split_and!; [done| |by right]. by intros j g []. Qed.

Lemma preserved_trans b x h1 h2 h3 : preserved b None h1 h2 -> preserved b x h2 h3 -> preserved b x h1 h3.
Proof.
  intros (A1 & A2 & A3) (B1 & B2 & B3). split_and!; [intros; by rewrite B1, A1| |].
  - intros j g Hg Hal. apply B2; [|done]. split; [by apply A2|by destruct Hg].
  - intros j g Hg Hal. destruct (B3 j g Hg Hal) as [?|Hg2]; [by left|]. destruct (A3 j g Hg2 Hal) as [?|?]; [done|by right].
Qed.

Lemma split_preserved h h' ix c i f :
  Tiled h ix c -> adm h (base ix) i f -> 0 < flevel f -> ALLOCATED (flags f) = false ->
  written (base ix) i (pages (flevel f - 1)) 0 512
    (child false ix i (pages (flevel f - 1)) (flevel f) (ZEROED (flags f))) h h' ->
  preserved (base ix) None h h'.
Proof.
  intros Ht Ha Hl Hal Hw. split_and!.
  - intros b' j Hb. apply Hw. intros k _ ?. by simplify_eq.
  - intros j g Hg Hga. destruct (decide (j = i)) as [->|].
    + assert (f = g) as -> by by eapply adm_fun. congruence.
    + by destruct (split_other _ h h' ix c i f Ht Ha Hl Hw j g Hg) as [[? _] _].
  - intros j g [Hj Hg] Hga. right. split; [|done]. destruct Hw as [Hin Hout]. set (s := pages (flevel f - 1)) in *.
    destruct (decide (0 <= (j - i) / s < 512 /\ j = i + (j - i) / s * s)) as [[Hk Ej]|Hno].
    + specialize (Hin _ Hk). rewrite <- Ej, Hj in Hin. injection Hin as ->. discriminate.
    + rewrite <- Hj. symmetry. apply Hout. intros k Hk [= Ej]. apply Hno. assert (0 < s) by (apply pages_pos; lia).
      replace ((j - i) / s) with k by (rewrite Ej; replace (i + k * s - i) with (k * s) by lia; by rewrite Z.div_mul by lia). split; [lia|done].
Qed.

Definition alloc_result tz oz (level : Z) h rg (o : option FrameRef) h' rg' : Prop :=
  let b := base (indexer rg) in
  indexer rg' = indexer rg /\ nr_pages rg' = nr_pages rg /\ preserved b None h h' /\
  match o with
  | Some r => exists i f, r = (b, i) /\ adm h' b i f /\ flevel f = level /\
      ALLOCATED (flags f) = false /\ allowed tz oz (ZEROED (flags f)) = true /\ Good h' rg' (Some i)
  | None => h' = h /\ Good h rg' None /\
      forall l z r, level <= l -> allowed tz oz z = true -> ~ free_at h b None l z r
  end.

(** After a split the level below has a frame to give. *)
Lemma allocate_after_split tz oz h rg l i f :
  Good h rg None -> 0 <= l <= 2 -> adm h (base (indexer rg)) i f -> flevel f = l ->
  ALLOCATED (flags f) = false -> allowed tz oz (ZEROED (flags f)) = true ->
  exists o lv lv', get_level rg l = Ret lv /\ Level_allocate lv tz oz = Ret (o, lv') /\
    alloc_result tz oz l h rg o h (set_level rg l lv') /\ o <> None.
Proof.
  intros HG Hl Ha Hfl Hal Hz. destruct (get_level_ok rg h _ _ HG Hl) as (lv & Hg & Hlv & Hlok & Hfr).
  destruct (Level_allocate_spec lv tz oz) as (o & lv' & E & Ho); [by eapply lo_free|lia|].
  exists o, lv, lv'. split; [done|]. split; [done|].
  destruct o as [r|].
  - destruct Ho as (z & Hz' & Hp).
    destruct (Good_pop h rg l lv lv' z r HG Hl Hlv Hlok Hp) as (j & g & -> & Hj & Hjl & Hja & <- & HG').
    split; [|done]. split_and!; [done|done|apply preserved_refl|]. by exists j, g.
  - exfalso. destruct Ho as [Hnil _]. specialize (Hnil _ Hz).
    assert ((base (indexer rg), i) ∈ sel (ZEROED (flags f)) lv) as Hin.
    { apply (lo_in _ _ _ _ _ Hlok). exists i, f. split_and!; done. }
    rewrite Hnil in Hin. by apply not_elem_of_nil in Hin.
Qed.

Lemma do_allocate_spec k h rg tz oz :
  (k <= 3)%nat -> Good h rg None ->
  exists o h' rg', do_allocate bits k tz oz h rg = Ret (o, h', rg') /\
    alloc_result tz oz (Z.of_nat (3 - k)) h rg o h' rg'.
Proof.
  revert h rg. induction k as [|k IH]; intros h rg Hk HG.
  { do 3 eexists. split; [done|]. split_and!; try done; [apply preserved_refl|].
    intros l z r Hl _ (i & f & _ & _ & Ha & Hfl & _).
    destruct (t_frame _ _ _ (g_tiled _ _ _ HG) i f Ha) as (_ & ? & _). lia. }
  cbn [do_allocate]. change (NR_LEVELS - S k)%nat with (3 - S k)%nat. set (l := Z.of_nat (3 - S k)).
  assert (0 <= l <= 2) as Hl by lia.
  destruct (get_level_ok rg h _ _ HG Hl) as (lv & -> & Hlv & Hlok & Hfr). cbn [obind].
  destruct (Level_allocate_spec lv tz oz) as (o & lv' & -> & Ho); [by eapply lo_free|lia|]. cbn [obind].
  destruct o as [r|].
  { destruct Ho as (z & Hz & Hp).
    destruct (Good_pop h rg l lv lv' z r HG Hl Hlv Hlok Hp) as (i & f & -> & Ha & Hfl & Hal & <- & HG').
    do 3 eexists. split; [done|]. split_and!; try done; [apply preserved_refl|]. by exists i, f. }
  destruct Ho as [Hnil Hsame]. pose proof (Good_same _ _ _ _ _ _ HG Hl Hlok Hsame) as HG1.
  destruct (IH h (set_level rg l lv') ltac:(lia) HG1) as (o & h1 & rg2 & -> & Eix & Enr & Hpre & Ho).
  cbn [obind]. rewrite set_level_indexer in *. change (nr_pages (set_level rg l lv')) with (nr_pages rg) in Enr.
  destruct o as [bigger|].
  - destruct Ho as (i & f & -> & Ha & Hfl & Hal & Hz & HG2).
    rewrite <- Eix in Ha |- *. destruct (split_spec h1 rg2 i f HG2 Ha) as (h2 & lv2 & -> & Hw & HG3); [lia|done|].
    cbn [obind]. replace (flevel f - 1) with l in * by lia.
    destruct (allocate_after_split tz oz h2 (set_level rg2 l lv2) l i
      (child false (indexer rg2) i (pages l) (flevel f) (ZEROED (flags f)) 0)) as (o & lv3 & lv4 & E3 & E4 & Hres & Hne); try done.
    { pose proof (child_adm false h1 h2 (indexer rg2) i f) as Hc. replace (flevel f - 1) with l in Hc by lia.
      specialize (Hc Hw 0 ltac:(lia)). by replace (i + 0 * pages l) with i in Hc by lia. }
    { simpl. lia. }
    rewrite E3. cbn [obind]. rewrite E4. cbn [obind]. do 3 eexists. split; [done|].
    destruct Hres as (R1 & R2 & R3 & R4). destruct o; [|done]. unfold alloc_result.
    split; [exact Eix|]. split; [exact Enr|]. rewrite <- Eix in Hpre |- *. split; [|exact R4].
    eapply preserved_trans; [exact Hpre|]. eapply preserved_trans; [|exact R3].
    apply (split_preserved h1 h2 (indexer rg2) (npages (indexer rg2)) i f);
      [apply HG2|done|lia|done|]. by replace (flevel f - 1) with l by lia.
  - destruct Ho as (-> & HG2 & Hnone). do 3 eexists. split; [done|]. split_and!; try done.
    intros l' z r Hle Hz Hfree. destruct (decide (l' = l)) as [->|]; [|by eapply (Hnone l' z r); [lia|..]].
    apply (lo_in _ _ _ _ _ Hlok) in Hfree. rewrite Hnil in Hfree by done. by apply not_elem_of_nil in Hfree.
Qed.

(** ** Flag changes of one frame *)
Lemma same_shape_insert h b i f f' :
  h !! (b, i) = Some f -> pa f' = pa f -> flevel f' = flevel f ->
  ADMITTED (flags f') = ADMITTED (flags f) -> same_shape h (<[(b, i) := f']> h) b.
Proof.
  intros Hf ? ? ? j. destruct (decide (j = i)) as [->|].
  - by rewrite lookup_insert_eq, Hf.
  - rewrite lookup_insert_ne by congruence. by destruct (h !! (b, j)).
Qed.

Lemma free_at_insert h b i f' l z r :
  ADMITTED (flags f') = true ->
  free_at (<[(b, i) := f']> h) b None l z r <->
  free_at h b (Some i) l z r \/
  (r = (b, i) /\ l = flevel f' /\ ALLOCATED (flags f') = false /\ z = ZEROED (flags f')).
Proof.
  intros Had. unfold free_at, adm. split.
  - intros (j & g & -> & _ & [Hj Hg] & <- & Hal & <-).
    apply lookup_insert_Some in Hj as [[? <-]|[Hne Hj]]; simplify_eq; [by right|left].
    exists j, g. split_and!; try done. congruence.
  - intros [(j & g & -> & Hx & [Hj Hg] & <- & Hal & <-)|(-> & -> & Hal & ->)].
    + exists j, g. split_and!; try done. by rewrite lookup_insert_ne by congruence.
    + exists i, f'. split_and!; try done. apply lookup_insert_eq.
Qed.

Lemma free_at_allocated h b i f l z r :
  adm h b i f -> ALLOCATED (flags f) = true -> free_at h b (Some i) l z r <-> free_at h b None l z r.
Proof.
  intros Ha Hal. split; intros (j & g & -> & Hx & Hj & Hl & Hg & Hz); exists j, g; split_and!; try done.
  intros ?. simplify_eq. assert (f = g) as -> by by eapply adm_fun. congruence.
Qed.

Lemma Good_set_allocated h rg i f :
  let b := base (indexer rg) in
  Good h rg (Some i) -> adm h b i f -> Good (<[(b, i) := set_allocated f]> h) rg None.
Proof.
  cbv zeta. intros [Hw Ht [Hlen Hl]] Ha. split; [done| |].
  - eapply Tiled_shape; [|done]. by eapply same_shape_insert; [apply Ha|..].
  - split; [done|]. intros m lv Hm. destruct (Hl m lv Hm) as [? ? Hin ? ?]. split; try done.
    intros z r. rewrite Hin. rewrite free_at_insert by apply Ha. split; [by left|].
    intros [?|(_ & _ & ? & _)]; done.
Qed.

(** Any other change of an allocated frame's flags. *)
Lemma Good_allocated_flags h rg i f f' :
  let b := base (indexer rg) in
  Good h rg None -> adm h b i f -> ALLOCATED (flags f) = true -> pa f' = pa f -> flevel f' = flevel f ->
  ADMITTED (flags f') = true -> ALLOCATED (flags f') = true -> Good (<[(b, i) := f']> h) rg None.
Proof.
  cbv zeta. intros [Hw Ht [Hlen Hl]] Ha Hal Hpa Hlv Had Hal'. split; [done| |].
  - eapply Tiled_shape; [|done]. destruct Ha as [Ha1 Ha2]. eapply same_shape_insert; [done|done|done|congruence].
  - split; [done|]. intros m lv Hm. destruct (Hl m lv Hm) as [? ? Hin ? ?]. split; try done.
    intros z r. rewrite Hin, free_at_insert, free_at_allocated by done. split; [by left|].
    intros [?|(_ & _ & ? & _)]; [done|congruence].
Qed.

Lemma find_level_spec h rg x lay :
  Good h rg x ->
  match find_level rg lay with
  | Some n => (n < 3)%nat /\ lsize lay <= FRAME_SIZE * pages (Z.of_nat n) /\
      lalign lay <= FRAME_SIZE * pages (Z.of_nat n) /\
      (forall m, 0 <= m < Z.of_nat n -> ~ (lsize lay <= FRAME_SIZE * pages m /\ lalign lay <= FRAME_SIZE * pages m))
  | None => forall m, 0 <= m <= 2 -> ~ (lsize lay <= FRAME_SIZE * pages m /\ lalign lay <= FRAME_SIZE * pages m)
  end.
Proof.
  intros [_ _ [Hlen Hl]]. unfold find_level.
  assert (forall m lv, levels rg !! m = Some lv ->
    ((lsize lay <=? alloc_size lv) && (lalign lay <=? align lv) = true <->
     lsize lay <= FRAME_SIZE * pages (Z.of_nat m) /\ lalign lay <= FRAME_SIZE * pages (Z.of_nat m))) as Hfit.
  { intros m lv Hm. destruct (Hl m lv Hm) as [-> -> _ _ _]. rewrite andb_true_iff, !Z.leb_le. done. }
  assert (forall m, 0 <= m <= 2 -> exists lv, levels rg !! Z.to_nat m = Some lv) as Hget.
  { intros m Hm. apply lookup_lt_is_Some. lia. }
  destruct (list_find _ (levels rg)) as [[n lv]|] eqn:E; simpl.
  - apply list_find_Some in E as (Hn & Hf & Hmin). split; [by apply lookup_lt_Some in Hn; lia|].
    apply (Hfit _ _ Hn) in Hf. split_and!; try tauto. intros m Hm Hf'.
    pose proof (lookup_lt_Some _ _ _ Hn). destruct (Hget m ltac:(lia)) as [lv' Hm'].
    apply (Hmin (Z.to_nat m) lv' Hm'); [lia|]. apply (Hfit _ _ Hm'). by rewrite Z2Nat.id by lia.
  - apply list_find_None in E. rewrite Forall_lookup in E. intros m Hm Hf'.
    destruct (Hget m Hm) as [lv' Hm']. apply (E _ _ Hm'). apply (Hfit _ _ Hm'). by rewrite Z2Nat.id by lia.
Qed.

(** ** [AllocationRegion::allocate] and [free] *)
Definition fits_layout (lay : Layout) (f : Frame) : Prop :=
  lsize lay <= FRAME_SIZE * pages (flevel f) /\ lalign lay <= FRAME_SIZE * pages (flevel f).

Definition disjoint_frames (f g : Frame) : Prop :=
  pa f + FRAME_SIZE * pages (flevel f) <= pa g \/ pa g + FRAME_SIZE * pages (flevel g) <= pa f.

Lemma tiled_disjoint h ix c i j f g :
  Tiled h ix c -> adm h (base ix) i f -> adm h (base ix) j g -> i <> j -> disjoint_frames f g.
Proof.
  intros Ht Hi Hj Hne.
  destruct (t_frame _ _ _ Ht i f Hi) as (Pi & ? & _), (t_frame _ _ _ Ht j g Hj) as (Pj & ? & _).
  pose proof (pages_pos (flevel f)). pose proof (pages_pos (flevel g)).
  unfold disjoint_frames. rewrite Pi, Pj. unfold addr, FRAME_SIZE.
  destruct (decide (i < j)).
  - left. destruct (decide (i + pages (flevel f) <= j)); [lia|]. exfalso. apply Hne. symmetry.
    apply (adm_inside h ix c i f j g Ht Hi Hj). lia.
  - right. destruct (decide (j + pages (flevel g) <= i)); [lia|]. exfalso. apply Hne.
    apply (adm_inside h ix c j g i f Ht Hj Hi). lia.
Qed.

(** What a successful allocation gives. *)
Record allocated_frame (allow : bool -> bool) (lay : Layout) ix h h' (r : FrameRef) : Prop := {
  af_ref : exists i f, r = (base ix, i) /\ adm h' (base ix) i f /\ ALLOCATED (flags f) = true /\
    allow (ZEROED (flags f)) = true /\ fits_layout lay f /\
    pa f = addr ix i /\ 0 <= flevel f <= 2 /\ pa f mod (FRAME_SIZE * pages (flevel f)) = 0 /\
    (forall j g, adm h (base ix) j g -> ALLOCATED (flags g) = true -> j <> i /\ disjoint_frames f g) /\
    (forall l, 0 <= l < flevel f -> ~ (lsize lay <= FRAME_SIZE * pages l /\ lalign lay <= FRAME_SIZE * pages l)) }.

Lemma Region_allocate_spec tz oz lay h rg :
  let ix := indexer rg in
  Good h rg None ->
  exists o h' rg', Region_allocate bits tz oz lay h rg = Ret (o, h', rg') /\
    indexer rg' = ix /\ nr_pages rg' = nr_pages rg /\ Good h' rg' None /\ preserved (base ix) (snd <$> o) h h' /\
    match o with
    | Some r => allocated_frame (allowed tz oz) lay ix h h' r
    | None => h' = h /\ forall j g, adm h (base ix) j g -> ALLOCATED (flags g) = false ->
        allowed tz oz (ZEROED (flags g)) = true -> ~ fits_layout lay g
    end.
Proof.
  cbv zeta. intros HG. unfold Region_allocate. pose proof (find_level_spec h rg None lay HG) as Hfl.
  destruct (find_level rg lay) as [n|].
  2:{ do 3 eexists. split; [done|]. split_and!; try done; [apply preserved_refl|].
      intros j g Hj _ _. destruct (t_frame _ _ _ (g_tiled _ _ _ HG) j g Hj) as (_ & ? & _). by apply Hfl. }
  destruct Hfl as (Hn & Hs & Ha & Hmin).
  destruct (do_allocate_spec (NR_LEVELS - n) h rg tz oz) as (o & h1 & rg1 & -> & Eix & Enr & Hpre & Ho);
    [unfold NR_LEVELS; lia|done|]. replace (3 - (NR_LEVELS - n))%nat with n in Ho by (unfold NR_LEVELS; lia).
  cbn [obind]. destruct o as [r|].
  - destruct Ho as (i & f & -> & Hi & Hl & Hal & Hz & HG1). unfold modify, deref. pose proof Hi as [Hf _].
    rewrite Hf. cbn [obind unwrap]. rewrite Hal. cbn [negb rassert obind].
    do 3 eexists. split; [done|].
    pose proof (Good_set_allocated h1 rg1 i f) as HG2. rewrite Eix in HG2. specialize (HG2 HG1 Hi).
    assert (forall j g, adm h (base (indexer rg)) j g -> ALLOCATED (flags g) = true -> j <> i) as Hne.
    { intros j g Hj Hg ->. pose proof (proj1 (proj2 Hpre) i g Hj Hg). simplify_eq. congruence. }
    split_and!; try done.
    + destruct Hpre as (P1 & P2 & P3). split_and!; [intros b' j Hb; rewrite lookup_insert_ne by congruence; by apply P1| |].
      * intros j g Hj Hg. rewrite lookup_insert_ne by (specialize (Hne j g Hj Hg); congruence). by apply P2.
      * intros j g [Hj Hadj] Hg. cbn. destruct (decide (j = i)) as [->|Hji]; [by left|right]. rewrite lookup_insert_ne in Hj by congruence.
        by destruct (P3 j g (conj Hj Hadj) Hg).
    + split. exists i, (set_allocated f). pose proof (g_tiled _ _ _ HG2) as Ht. rewrite Eix in Ht.
      assert (adm (<[(base (indexer rg), i) := set_allocated f]> h1) (base (indexer rg)) i (set_allocated f)) as Hi'.
      { split; [apply lookup_insert_eq|apply Hi]. }
      destruct (t_frame _ _ _ Ht _ _ Hi') as (T1 & T2 & T3 & T4 & T5).
      split_and!; try (done || tauto).
      { split; change (flevel (set_allocated f)) with (flevel f); by rewrite Hl. }
      2:{ change (flevel (set_allocated f)) with (flevel f). by rewrite Hl. }
      intros j g Hj Hg. specialize (Hne j g Hj Hg). split; [done|].
      eapply tiled_disjoint; [exact Ht|exact Hi'| |by symmetry].
      split; [|apply Hj]. rewrite lookup_insert_ne by congruence. by apply Hpre.
  - destruct Ho as (-> & HG1 & Hnone). do 3 eexists. split; [done|]. split_and!; try done.
    intros j g Hj Hg Hz [F1 F2]. destruct (t_frame _ _ _ (g_tiled _ _ _ HG) j g Hj) as (_ & Hlv & _).
    apply (Hnone (flevel g) (ZEROED (flags g)) (base (indexer rg), j)); [|done|by exists j, g].
    destruct (decide (Z.of_nat n <= flevel g)); [done|]. exfalso. apply (Hmin (flevel g)); [lia|done].
Qed.

Lemma Region_free_spec h rg i f :
  let b := base (indexer rg) in
  Good h rg None -> adm h b i f -> ALLOCATED (flags f) = true ->
  exists rg', Region_free bits h rg (b, i) = Ret (<[(b, i) := set_free f]> h, rg') /\
    indexer rg' = indexer rg /\ nr_pages rg' = nr_pages rg /\ Good (<[(b, i) := set_free f]> h) rg' None.
Proof.
  cbv zeta. intros HG Hi Hal. pose proof Hi as [Hf Had].
  destruct (t_frame _ _ _ (g_tiled _ _ _ HG) i f Hi) as (T1 & T2 & T3 & T4 & T5).
  pose proof (pages_pos (flevel f) ltac:(lia)).
  unfold Region_free, modify, deref at 1 2. rewrite Hf. cbn [obind unwrap].
  rewrite T1, contains_addr by (apply HG || lia). cbn [obind negb].
  unfold rassert. change (Z.of_nat NR_LEVELS) with 3. rewrite (proj2 (Z.ltb_lt _ _)) by lia. cbn [obind].
  destruct (get_level_ok rg h _ _ HG T2) as (lv & -> & Hlv & Hlok & Hfr). cbn [obind].
  unfold Level_free, deref. rewrite lookup_insert_eq. cbn [obind unwrap].
  change (ZEROED (flags (set_free f))) with (ZEROED (flags f)).
  destruct (push_pushed lv (ZEROED (flags f)) (base (indexer rg), i)) as (lv' & -> & Hp); [lia|]. cbn [obind].
  eexists. split; [done|]. split_and!; try done. split; [apply HG| |].
  { eapply Tiled_shape; [|apply HG]. by eapply same_shape_insert. }
  assert (forall l z r, free_at (<[(base (indexer rg), i) := set_free f]> h) (base (indexer rg)) None l z r <->
    free_at h (base (indexer rg)) None l z r \/
    (r = (base (indexer rg), i) /\ l = flevel f /\ z = ZEROED (flags f))) as Hfree.
  { intros l z r. rewrite free_at_insert, free_at_allocated by done. simpl. tauto. }
  destruct (g_listed _ _ _ HG) as [Hlen Hls]. split; [simpl; by rewrite length_insert|]. simpl.
  intros m lv0 [(<- & -> & _)|[Hne Hm]]%list_lookup_insert_Some.
  - rewrite Z2Nat.id by lia. eapply level_ok_admit; [exact Hlok|exact Hp|apply NoDup_singleton| | |].
    + intros r. rewrite Hfree, list_elem_of_singleton. tauto.
    + intros r ->%list_elem_of_singleton (j & g & ? & _ & Hj & _ & Hg & _). simplify_eq.
      assert (f = g) as -> by by eapply adm_fun. congruence.
    + intros r. rewrite Hfree. split; [|by left]. intros [?|(_ & _ & Hz)]; [done|]. by destruct (ZEROED (flags f)).
  - destruct (Hls m lv0 Hm) as [? ? Hin ? ?]. split; try done. intros z r. rewrite Hin, Hfree.
    split; [by left|]. intros [?|(_ & Hm' & _)]; [done|]. exfalso. apply Hne. lia.
Qed.

(** ** [split_and_keep]: the children stay allocated *)
Lemma keep_children_spec rg n c h i f :
  let ix := indexer rg in let l := flevel f in let s := pages (l - 1) in let z := ZEROED (flags f) in
  wf_ix ix -> h !! (base ix, i) = Some f -> pa f = addr ix i -> 0 < l <= 2 -> 0 <= i ->
  i + pages l <= npages ix -> 1 <= c -> c + Z.of_nat n <= 512 ->
  exists h', keep_children bits n c (base ix, i) (pa f) l (FRAME_SIZE * s) h rg = Ret h' /\
    written (base ix) i s c (Z.of_nat n) (child true ix i s l z) h h'.
Proof.
  intros ix l s z Hw Hf Hpa Hl Hi Hend. assert (0 < s /\ pages l = 512 * s) as [Hs Hp]
    by (split; [apply pages_pos; lia|apply pages_succ; lia]).
  revert c h Hf. induction n as [|n IH]; intros c h Hf Hc Hcn.
  { exists h. split; [done|]. split; [lia|done]. }
  pose proof (wf_end64 ix Hw). pose proof (wf_len_pages ix Hw).
  pose proof (addr_range ix (i + c * s) Hw ltac:(nia)).
  assert (pa f + c * (FRAME_SIZE * s) = addr ix (i + c * s)) as Ha by (rewrite Hpa; unfold addr; lia).
  assert (0 <= c * (FRAME_SIZE * s)) by (unfold FRAME_SIZE; nia).
  assert (0 <= pa f) by (rewrite Hpa; destruct Hw; unfold addr, FRAME_SIZE; lia).
  cbn [keep_children]. rewrite chk_in by lia. cbn [obind].
  rewrite offset_unwrap_ok by (destruct Hw; lia). cbn [obind]. fold ix.
  rewrite Ha, get_frame_addr by (done || nia). cbn [obind unwrap].
  unfold deref at 1. rewrite Hf. cbn [obind unwrap].
  change (set_allocated _) with (child true ix i s l z c).
  destruct (IH (c + 1) (<[(base ix, i + c * s) := child true ix i s l z c]> h)) as (h' & -> & Hwr); [|lia|lia|].
  - rewrite lookup_insert_ne; [done|]. intros ?. simplify_eq. nia.
  - exists h'. split; [done|]. rewrite Nat2Z.inj_succ. apply written_step; [done|lia|done].
Qed.

Lemma split_and_keep_spec h rg i f :
  let ix := indexer rg in let l := flevel f in let s := pages (l - 1) in
  Good h rg None -> adm h (base ix) i f -> 0 < l -> ALLOCATED (flags f) = true ->
  exists h', split_and_keep bits h rg (base ix, i) = Ret (h', ((base ix, i), FRAME_SIZE * pages l)) /\
    written (base ix) i s 0 512 (child true ix i s l (ZEROED (flags f))) h h' /\ Good h' rg None.
Proof.
  intros ix l s HG Ha Hl Hal. pose proof (g_tiled _ _ _ HG) as Ht. pose proof (g_wf _ _ _ HG) as Hw.
  destruct (t_frame _ _ _ Ht i f Ha) as (Hpa & Hlr & Hi & Hend & _). pose proof Ha as [Hf _].
  assert (0 < s /\ pages l = 512 * s) as [Hs Hp] by (split; [apply pages_pos; lia|apply pages_succ; lia]).
  fold ix l in Hpa, Hlr, Hend, Hw. unfold split_and_keep, deref at 1. rewrite Hf. cbn [obind unwrap]. fold ix.
  rewrite Hpa, contains_addr by (done || lia). cbn [obind rassert]. fold l.
  rewrite (proj2 (Z.eqb_neq l 0)) by lia. rewrite level_layout_eq by lia. cbn [obind lsize].
  rewrite frame_size_eq by done. cbn [obind]. fold l. rewrite child_count_eq by done. rewrite <- Hpa.
  destruct (keep_children_spec rg (Z.to_nat (512 - 1)) 1 h i f) as (h1 & E & Hw1 & Hu1); try (done || lia).
  fold ix l s in E, Hw1, Hu1 |- *. rewrite E. change (Z.of_nat (Z.to_nat (512 - 1))) with 511 in *.
  assert (h1 !! (base ix, i) = Some f) as Hf1.
  { rewrite Hu1; [done|]. intros k Hk ?. simplify_eq. nia. }
  cbn [obind]. unfold deref. rewrite Hf1. cbn [obind unwrap].
  rewrite Hpa, get_frame_addr by (done || lia). cbn [obind unwrap]. rewrite Hf1. cbn [obind unwrap].
  rewrite level_layout_eq by done. cbn [obind lsize]. eexists. split; [done|].
  match goal with |- ?W /\ _ => assert W as Hwr end.
  { rewrite Hpa. split.
    - intros k Hk. destruct (decide (k = 0)) as [->|].
      + replace (i + 0 * s) with i by lia. rewrite lookup_insert_eq. unfold child.
        by replace (i + 0 * s) with i by lia.
      + rewrite lookup_insert_ne; [apply Hw1; lia|]. intros ?. simplify_eq. nia.
    - intros r Hr. rewrite lookup_insert_ne; [apply Hu1; intros; apply Hr; lia|].
      intros <-. apply (Hr 0); [lia|]. f_equal. lia. }
  split; [done|]. split; [done|by eapply split_Tiled|]. destruct (g_listed _ _ _ HG) as [Hlen Hls].
  split; [done|]. intros m lv Hm. destruct (Hls m lv Hm) as [? ? Hin ? ?]. split; try done.
  intros z r. fold ix in Hin |- *. rewrite Hin, (split_free_at true h _ ix _ i f _ _ _ Ht Ha Hl Hwr).
  rewrite (free_at_allocated _ _ _ _ _ _ _ Ha Hal). split; [by left|]. by intros [?|(? & _)].
Qed.
End inv.
End FrameAllocInv.
