(* ===== verification/FrameAllocSpec.v ===== *)
(** * The frame allocator: what it promises

    [AllocationRegion::new] builds a region that satisfies the invariant of
    [FrameAllocInv]; allocation, freeing and splitting keep it and do what their
    callers rely on. *)
From S2P Require Import Prelude Intrusive Address FrameAlloc FrameAllocInv.

#[local] Open Scope Z_scope.

Module FrameAllocSpec.
Import Address FrameAlloc FrameAllocInv.

Section new.
Context `{Build} {L : Type} `{LinkedList FrameRef L} (bits sizeof_Frame : Z).
Implicit Types (h : heap) (ix : FrameIndexer) (lvs : list (Level L)).

(** ** Filling a region *)

(** A new free frame of level [l] at page [c], over pages whose metadata is reset. *)
Definition extended ix (c l : Z) h h' : Prop :=
  h' !! (frame_array_ptr ix, c) = Some (mkFrame (addr ix c) (mkFlags false false true false) l) /\
  (forall j, c < j < c + pages l -> exists g, h' !! (frame_array_ptr ix, j) = Some g /\ ADMITTED (flags g) = false) /\
  (forall r, (forall j, c <= j < c + pages l -> r <> (frame_array_ptr ix, j)) -> h' !! r = h !! r).

Lemma extended_adm ix c l h h' j g :
  Tiled h ix c -> 0 <= l -> extended ix c l h h' ->
  adm h' (frame_array_ptr ix) j g <->
  adm h (frame_array_ptr ix) j g \/ (j = c /\ g = mkFrame (addr ix c) (mkFlags false false true false) l).
Proof.
  intros Ht Hl (Hc & Hin & Hout). pose proof (pages_pos l Hl). split.
  - intros [Hj Hg]. destruct (decide (j = c)) as [->|]; [right; split; [done|congruence]|].
    destruct (decide (c < j < c + pages l)) as [Hr|].
    { destruct (Hin j Hr) as (g' & ? & ?). congruence. }
    left. split; [|done]. rewrite <- Hj. symmetry. apply Hout. intros k Hk ?. simplify_eq. lia.
  - intros [Ha|[-> ->]]; [|done]. destruct (t_frame _ _ _ Ht j g Ha) as (_ & ? & ? & ? & _).
    pose proof (pages_pos (flevel g)). destruct Ha as [Hj Hg]. split; [|done]. rewrite <- Hj.
    apply Hout. intros k Hk ?. simplify_eq. lia.
Qed.

Lemma extended_tiled ix c l h h' :
  Tiled h ix c -> 0 <= c -> 0 <= l <= 2 -> addr ix c mod (FRAME_SIZE * pages l) = 0 ->
  extended ix c l h h' -> Tiled h' ix (c + pages l).
Proof.
  intros Ht Hc Hl Hal He. pose proof (pages_pos l ltac:(lia)).
  assert (forall j g, adm h' (frame_array_ptr ix) j g -> adm h (frame_array_ptr ix) j g \/
    (j = c /\ g = mkFrame (addr ix c) (mkFlags false false true false) l)) as Hadm
    by (intros j g; apply extended_adm; (done || lia)).
  split.
  - intros j g [Ha|[-> ->]]%Hadm.
    + destruct (t_frame _ _ _ Ht j g Ha) as (? & ? & ? & ? & ?). split_and!; (done || lia).
    + split_and!; simpl; (done || lia).
  - intros p Hp. destruct (decide (p < c)) as [Hlt|].
    + destruct (t_cover _ _ _ Ht p ltac:(lia)) as (i & f & Ha & Hr). exists i, f. split; [|done].
      apply (extended_adm ix c l h); [done|lia|done|by left].
    + exists c. eexists. split; [apply (extended_adm ix c l h); [done|lia|done|by right]|]. simpl. lia.
  - intros p i j (f & Hf & Hfr) (g & Hg & Hgr).
    apply Hadm in Hf as [Hf|[-> ->]], Hg as [Hg|[-> ->]]; simpl in *.
    + apply (t_uniq _ _ _ Ht p); by eexists.
    + destruct (t_frame _ _ _ Ht i f Hf) as (_ & _ & _ & ? & _). lia.
    + destruct (t_frame _ _ _ Ht j g Hg) as (_ & _ & _ & ? & _). lia.
    + done.
Qed.

Lemma extended_free_at ix c l h h' l' z r :
  Tiled h ix c -> 0 <= l -> extended ix c l h h' ->
  free_at h' (frame_array_ptr ix) None l' z r <->
  free_at h (frame_array_ptr ix) None l' z r \/ (r = (frame_array_ptr ix, c) /\ l' = l /\ z = false).
Proof.
  intros Ht Hl He. split.
  - intros (j & g & -> & _ & Hj & <- & Hal & <-). apply (extended_adm ix c l h h') in Hj; [|done..].
    destruct Hj as [Hj|[-> ->]]; [left|by right]. exists j, g. done.
  - intros [(j & g & -> & _ & Hj & <- & Hal & <-)|(-> & -> & ->)].
    + exists j, g. split_and!; try done. apply (extended_adm ix c l h h'); [done..|by left].
    + exists c. eexists. split_and!; [done|done|apply (extended_adm ix c l h h'); [done..|by right]|done..].
Qed.

Lemma extended_listed ix c l h h' lvs lv lv' :
  Tiled h ix c -> 0 <= l <= 2 -> extended ix c l h h' ->
  Listed h (frame_array_ptr ix) None lvs -> lvs !! Z.to_nat l = Some lv ->
  pushed lv lv' false [(frame_array_ptr ix, c)] ->
  Listed h' (frame_array_ptr ix) None (<[Z.to_nat l := lv']> lvs).
Proof.
  intros Ht Hl He [Hlen Hls] Hlv Hp. split; [by rewrite length_insert|].
  assert (forall l' z r, free_at h' (frame_array_ptr ix) None l' z r <->
    free_at h (frame_array_ptr ix) None l' z r \/ (r = (frame_array_ptr ix, c) /\ l' = l /\ z = false)) as Hf
    by (intros; apply extended_free_at; (done || lia)).
  intros m lv0 [(<- & -> & _)|[Hne Hm]]%list_lookup_insert_Some.
  - specialize (Hls _ _ Hlv). rewrite Z2Nat.id in * by lia.
    eapply level_ok_admit; [exact Hls|exact Hp|apply NoDup_singleton| | |].
    + intros r. rewrite Hf, list_elem_of_singleton. tauto.
    + intros r ->%list_elem_of_singleton (j & g & ? & _ & Hj & _). simplify_eq.
      destruct (t_frame _ _ _ Ht _ _ Hj) as (_ & ? & _ & ? & _). pose proof (pages_pos (flevel g)). lia.
    + intros r. rewrite Hf. split; [|by left]. by intros [?|(_ & _ & ?)].
  - destruct (Hls m lv0 Hm) as [? ? Hin ? ?]. split; try done. intros z r. rewrite Hin, Hf.
    split; [by left|]. intros [?|(_ & Hm' & _)]; [done|]. exfalso. apply Hne. lia.
Qed.

Lemma reset_pages_spec ix c n i h :
  wf_ix bits ix -> 0 <= c -> 0 <= i -> c + i + Z.of_nat n <= len ix / FRAME_SIZE ->
  exists h', reset_pages bits n i ix (addr ix c) h = Ret h' /\
    written (frame_array_ptr ix) c 1 i (Z.of_nat n) (fun k => reset (addr ix (c + k)) 0 flags_empty) h h'.
Proof.
  intros Hw Hc. revert i h. induction n as [|n IH]; intros i h Hi Hn.
  { exists h. split; [done|]. split; [lia|done]. }
  pose proof (wf_end64 bits ix Hw). pose proof (wf_len_pages bits ix Hw).
  pose proof (addr_range bits ix (c + i) Hw ltac:(lia)). pose proof (wf_start _ _ Hw).
  assert (addr ix c + i * FRAME_SIZE = addr ix (c + i)) as Ha by (unfold addr; lia).
  cbn [reset_pages]. rewrite chk_in by (unfold addr, FRAME_SIZE in *; lia). cbn [obind].
  rewrite offset_unwrap_ok by (destruct Hw; unfold addr, FRAME_SIZE in *; lia). cbn [obind].
  rewrite Ha, get_frame_addr by (done || lia). cbn [obind unwrap].
  destruct (IH (i + 1) (<[(frame_array_ptr ix, c + i) := reset (addr ix (c + i)) 0 flags_empty]> h))
    as (h' & -> & Hwr); [lia|lia|].
  exists h'. split; [done|]. rewrite Nat2Z.inj_succ. apply written_step; [lia|lia|].
  replace (c + i * 1) with (c + i) by lia. done.
Qed.

Lemma select_level_spec h b lvs cursor remaining :
  Listed h b None lvs -> cursor mod FRAME_SIZE = 0 -> FRAME_SIZE <= remaining ->
  exists l, select_level lvs cursor remaining = Ret l /\ 0 <= l <= 2 /\
    cursor mod (FRAME_SIZE * pages l) = 0 /\ FRAME_SIZE * pages l <= remaining.
Proof.
  intros [Hlen Hl] Hc Hr. destruct lvs as [|l0 [|l1 [|l2 [|]]]]; simplify_eq/=.
  assert (forall m lv, [l0; l1; l2] !! m = Some lv -> fits cursor remaining lv = true ->
    cursor mod (FRAME_SIZE * pages (Z.of_nat m)) = 0 /\ FRAME_SIZE * pages (Z.of_nat m) <= remaining) as Hfit.
  { intros m lv Hm. destruct (Hl m lv Hm) as [E1 E2 _ _ _]. unfold fits.
    rewrite E1, E2, andb_true_iff, Z.eqb_eq, Z.leb_le. done. }
  assert (fits cursor remaining l0 = true) as H0'.
  { destruct (Hl 0%nat l0 eq_refl) as [E1 E2 _ _ _]. unfold fits. rewrite E1, E2.
    change (FRAME_SIZE * pages (Z.of_nat 0)) with FRAME_SIZE. lia. }
  unfold select_level. cbn [rev app list_find]. change (Z.of_nat (NR_LEVELS - 1)) with 2.
  case_decide as E2; [|case_decide as E1]; [| |rewrite decide_True by done]; simpl.
  - exists 2. split; [done|]. split; [lia|]. by apply (Hfit 2%nat l2).
  - exists 1. split; [done|]. split; [lia|]. by apply (Hfit 1%nat l1).
  - exists 0. split; [done|]. split; [lia|]. by apply (Hfit 0%nat l0).
Qed.

Lemma addr_aligned ix c : wf_ix bits ix -> addr ix c mod FRAME_SIZE = 0.
Proof. intros []. unfold addr. rewrite Z_mod_plus_full. tauto. Qed.

Lemma fill_region_spec ix fuel c h lvs :
  let n := len ix / FRAME_SIZE in
  wf_ix bits ix -> 0 <= c <= n -> n - c < Z.of_nat fuel ->
  Tiled h ix c -> Listed h (frame_array_ptr ix) None lvs ->
  exists h' lvs', fill_region bits fuel ix (addr ix c) (addr ix n) h lvs = Ret (h', lvs') /\
    Tiled h' ix n /\ Listed h' (frame_array_ptr ix) None lvs' /\
    (forall j g, adm h' (frame_array_ptr ix) j g -> adm h (frame_array_ptr ix) j g \/ ALLOCATED (flags g) = false) /\
    (forall b j, b <> frame_array_ptr ix -> h' !! (b, j) = h !! (b, j)).
Proof.
  intros n Hw. pose proof (wf_end64 bits ix Hw). pose proof (wf_len_pages bits ix Hw).
  pose proof (wf_start _ _ Hw). pose proof (wf_end _ _ Hw). pose proof (npages_bound bits ix Hw).
  assert (addr ix n = start ix + len ix) as Hend by (unfold addr; lia).
  revert c h lvs. induction fuel as [|fuel IH]; intros c h lvs Hc Hf Ht Hl; [lia|].
  cbn [fill_region]. rewrite Hend. destruct (addr ix c <? start ix + len ix) eqn:E.
  2:{ apply Z.ltb_ge in E. assert (c = n) as -> by (unfold addr, FRAME_SIZE in *; lia).
      exists h, lvs. split_and!; auto. }
  apply Z.ltb_lt in E. assert (c < n) by (unfold addr, FRAME_SIZE in *; lia).
  assert (start ix <= addr ix c) by (unfold addr, FRAME_SIZE; lia).
  unfold PhysAddr_sub, checked_sub. simpl praw. rewrite (proj2 (in_u_spec _ _)) by lia. cbn [unwrap obind].
  destruct (select_level_spec h (frame_array_ptr ix) lvs (addr ix c) (start ix + len ix - addr ix c))
    as (l & -> & Hl2 & Hal & Hfit); [done|by apply addr_aligned|unfold addr, FRAME_SIZE in *; lia|].
  pose proof (pages_pos l ltac:(lia)).
  assert (c + pages l <= n) by (unfold addr, FRAME_SIZE in *; lia).
  cbn [obind]. rewrite get_frame_addr by (done || lia). cbn [obind unwrap].
  rewrite level_layout_eq by done. cbn [obind lsize].
  replace (FRAME_SIZE * pages l / FRAME_SIZE) with (pages l)
    by (rewrite Z.mul_comm, Z.div_mul; done).
  destruct (reset_pages_spec ix c (Z.to_nat (pages l)) 0 h) as (h1 & -> & Hw1 & Hu1); [done|lia|lia|lia|].
  rewrite Z2Nat.id in * by lia. cbn [obind].
  destruct (lvs !! Z.to_nat l) as [lv|] eqn:Elv; [|apply lookup_ge_None in Elv; destruct Hl; lia].
  cbn [unwrap obind]. destruct Hl as [Hlen Hls]. pose proof (Hls _ _ Elv) as Hlok. rewrite Z2Nat.id in Hlok by lia.
  destruct (level_free_bound _ _ _ _ _ _ Ht ltac:(lia) Hlok).
  unfold admit_one. destruct (push_pushed lv (ZEROED flags_empty) (frame_array_ptr ix, c)) as (lv' & Ep & Hp); [lia|].
  rewrite Ep. cbn [obind]. set (h2 := <[_ := _]> h1).
  assert (extended ix c l h h2) as He.
  { unfold h2. split_and!.
    - by rewrite lookup_insert_eq.
    - intros j Hj. rewrite lookup_insert_ne by (intros ?; simplify_eq; lia).
      specialize (Hw1 (j - c) ltac:(lia)). replace (c + (j - c) * 1) with j in Hw1 by lia. by eexists.
    - intros r Hr. rewrite lookup_insert_ne by (intros <-; apply (Hr c); [lia|done]).
      apply Hu1. intros k Hk. apply Hr. lia. }
  assert (alloc_size lv' = FRAME_SIZE * pages l) as -> by (destruct Hp as (-> & _); apply Hlok).
  rewrite offset_unwrap_ok by (destruct Hw; unfold FRAME_SIZE in *; lia). cbn [obind].
  replace (addr ix c + FRAME_SIZE * pages l) with (addr ix (c + pages l)) by (unfold addr; lia).
  destruct (IH (c + pages l) h2 (<[Z.to_nat l := lv']> lvs)) as (h' & lvs' & E' & Ht' & Hl' & Ha' & Ho');
    [lia|lia|by eapply extended_tiled; (done || lia)|by eapply extended_listed|].
  rewrite Hend in E'. rewrite E'. exists h', lvs'. split_and!; try done.
  - intros j g Hj. destruct (Ha' j g Hj) as [Hj2|]; [|by right].
    apply (extended_adm ix c l h h2) in Hj2; [|done|lia|done]. destruct Hj2 as [|[-> ->]]; [by left|by right].
  - intros b j Hb. rewrite Ho' by done. apply He. intros k _ ?. by simplify_eq.
Qed.

Lemma Listed_new h b :
  (forall i, h !! (b, i) = None) -> Listed h b None (map Level_new PHYS_LEVEL_LAYOUTS : list (Level L)).
Proof.
  intros Hfresh. split; [done|]. intros m lv Hm.
  assert (forall z : bool, sel z lv = [] /\ free lv = 0 /\
    alloc_size lv = FRAME_SIZE * pages (Z.of_nat m) /\ align lv = FRAME_SIZE * pages (Z.of_nat m)) as Hlv.
  { destruct m as [|[|[|]]]; simplify_eq/=; intros []; unfold sel; simpl; by rewrite ll_new_spec. }
  split; [by destruct (Hlv true) as (_ & _ & ? & _)|by destruct (Hlv true) as (_ & _ & _ & ?)| | |].
  - intros z r. destruct (Hlv z) as [-> _]. split; [by intros ?%not_elem_of_nil|].
    intros (i & f & _ & _ & [Hi _] & _). by rewrite Hfresh in Hi.
  - intros z. destruct (Hlv z) as [-> _]. apply NoDup_nil_2.
  - destruct (Hlv true) as (-> & -> & _), (Hlv false) as (-> & _). done.
Qed.

Lemma Tiled_zero h ix : (forall i, h !! (frame_array_ptr ix, i) = None) -> Tiled h ix 0.
Proof.
  intros Hfresh. split.
  - intros i f [Hi _]. by rewrite Hfresh in Hi.
  - lia.
  - intros p i j (f & [Hi _] & _). by rewrite Hfresh in Hi.
Qed.

(** The first page of a memory region, and its whole pages. *)
Definition first_page (m : MemoryRegion) : Z := round_up (mstart m) FRAME_SIZE.
Definition whole_pages (m : MemoryRegion) : Z := (mlength m - (first_page m - mstart m)) / FRAME_SIZE.

(** A region the allocator manages: within the memory region, behind its metadata, all free. *)
Record fresh_region (m : MemoryRegion) h (rg : AllocationRegion L) : Prop := {
  fr_good : Good bits h rg None;
  fr_base : frame_array_ptr (indexer rg) = first_page m;
  fr_pages : nr_pages rg = whole_pages m;
  fr_meta : first_page m + sizeof_Frame * nr_pages rg <= start (indexer rg);
  fr_end : start (indexer rg) + len (indexer rg) = first_page m + whole_pages m * FRAME_SIZE;
  fr_free : forall j g, adm h (frame_array_ptr (indexer rg)) j g -> ALLOCATED (flags g) = false }.

Lemma array_pages_bounds n : 0 < n -> n <= ((n - 1) / FRAME_SIZE + 1) * FRAME_SIZE.
Proof.
  intros. pose proof (Z.div_mod (n - 1) FRAME_SIZE). pose proof (Z.mod_pos_bound (n - 1) FRAME_SIZE).
  unfold FRAME_SIZE in *. lia.
Qed.

Lemma Region_new_spec fuel m h :
  0 < bits <= 64 -> 0 < sizeof_Frame <= FRAME_SIZE -> 0 <= mstart m -> FRAME_SIZE <= mlength m ->
  mstart m + mlength m < 2 ^ bits -> mlength m / FRAME_SIZE < Z.of_nat fuel ->
  (forall i, h !! (first_page m, i) = None) ->
  exists h' o, Region_new (L := L) bits sizeof_Frame fuel m h = Ret (h', o) /\
    match o with Some rg => fresh_region m h' rg | None => h' = h end /\
    (forall b j, b <> first_page m -> h' !! (b, j) = h !! (b, j)).
Proof.
  intros Hb Hsz Hs Hlen Hend Hfuel Hfresh. pose proof (Z.pow_le_mono_r 2 bits 64 ltac:(lia) ltac:(lia)).
  destruct (round_up_ge (mstart m) FRAME_SIZE ltac:(done)) as [Hr Hr0]. fold (first_page m) in Hr, Hr0.
  unfold Region_new. destruct (PhysAddr_align bits (mkPhys (mstart m)) 12) as [_ E]; [done|cbn [praw]; lia|lia|].
  change (2 ^ 12) with FRAME_SIZE in E. cbv zeta in E. cbn [praw] in E. fold (first_page m) in E.
  rewrite (proj2 (Z.ltb_lt _ _)) in E by lia. rewrite E. cbn [obind praw].
  rewrite chk_in by lia. cbn [obind]. rewrite chk_in by lia. cbn [obind]. fold (whole_pages m).
  assert (whole_pages m * FRAME_SIZE <= mlength m - (first_page m - mstart m)) as Hwp.
  { unfold whole_pages. rewrite Z.mul_comm. apply Z.mul_div_le. done. }
  destruct (whole_pages m <=? 1) eqn:E1; [do 2 eexists; split; [done|]; auto|]. apply Z.leb_gt in E1.
  rewrite chk_in by (unfold FRAME_SIZE in *; nia). cbn [obind]. set (fal := sizeof_Frame * whole_pages m).
  set (ap := (fal - 1) / FRAME_SIZE + 1).
  assert (fal <= ap * FRAME_SIZE) as Hap by (apply array_pages_bounds; unfold fal; nia).
  destruct (whole_pages m <=? ap) eqn:E2; [do 2 eexists; split; [done|]; auto|]. apply Z.leb_gt in E2.
  assert (0 < fal) by (unfold fal; nia). assert (0 <= ap) by (unfold FRAME_SIZE in *; lia).
  rewrite offset_unwrap_ok by (unfold FRAME_SIZE in *; lia). cbn [obind].
  set (ix := mkIndexer _ _ _ _). rewrite offset_unwrap_ok by (unfold FRAME_SIZE in *; lia). cbn [obind].
  assert (len ix / FRAME_SIZE = whole_pages m - ap) as Hn by (simpl; by apply Z.div_mul).
  assert (wf_ix bits ix) as Hw.
  { assert (whole_pages m <= fal) by (unfold fal; nia). split; cbn [start len frame_array_len ix].
    - done.
    - split; [unfold FRAME_SIZE in *; lia|]. by rewrite Z_mod_plus_full.
    - split; [unfold FRAME_SIZE in *; lia|]. apply Z_mod_mult.
    - unfold FRAME_SIZE in *; lia.
    - rewrite Z.div_mul by done. lia. }
  assert (addr ix 0 = first_page m + ap * FRAME_SIZE) as Ha0 by (unfold addr; simpl; lia).
  assert (addr ix (len ix / FRAME_SIZE) = first_page m + whole_pages m * FRAME_SIZE) as Han
    by (rewrite Hn; unfold addr; simpl; lia).
  assert (whole_pages m <= mlength m / FRAME_SIZE) by (apply Z.div_le_mono; [done|lia]).
  destruct (fill_region_spec ix fuel 0 h (map Level_new PHYS_LEVEL_LAYOUTS)) as (h' & lvs & Ef & Ht & Hl & Hal & Ho);
    [done|lia|lia|by apply Tiled_zero|by apply Listed_new|].
  rewrite Ha0, Han in Ef. change (start ix) with (first_page m + ap * FRAME_SIZE).
  rewrite Ef. cbn [obind]. do 2 eexists. split; [done|]. split; [|done].
  split; simpl; try done; try lia.
  intros j g Hj. destruct (Hal j g Hj) as [[Hj0 _]|]; [|done]. by rewrite Hfresh in Hj0.
Qed.
End new.

(** ** All regions together *)
Section pfa.
Context `{Build} {L : Type} `{LinkedList FrameRef L} (bits : Z).
Implicit Types (h : heap) (rg : AllocationRegion L) (rgs : list (AllocationRegion L)).

Definition rbase rg : Z := frame_array_ptr (indexer rg).
Definition rend rg : Z := start (indexer rg) + len (indexer rg).

(** Distinct arrays over disjoint ranges. *)
Definition apart rg rg' : Prop :=
  rbase rg <> rbase rg' /\ (rend rg <= start (indexer rg') \/ rend rg' <= start (indexer rg)).

Fixpoint PFA_ok h rgs : Prop :=
  match rgs with
  | [] => True
  | rg :: rgs' => Good bits h rg None /\ Forall (apart rg) rgs' /\ PFA_ok h rgs'
  end.

(** [r] points to an admitted frame of one of the regions. *)
Definition live h rgs (r : FrameRef) (f : Frame) : Prop :=
  exists rg i, rg ∈ rgs /\ r = (rbase rg, i) /\ adm h (rbase rg) i f.

Lemma Good_frame h h' rg x :
  (forall j, h' !! (rbase rg, j) = h !! (rbase rg, j)) -> Good bits h rg x -> Good bits h' rg x.
Proof.
  intros E [Hw Ht [Hlen Hl]].
  assert (forall i f, adm h' (rbase rg) i f <-> adm h (rbase rg) i f) as Ha by (intros; unfold adm; by rewrite E).
  assert (forall l z r, free_at h' (rbase rg) x l z r <-> free_at h (rbase rg) x l z r) as Hf.
  { intros l z r. unfold free_at. setoid_rewrite Ha. done. }
  split; [done| |].
  - eapply Tiled_shape; [|done]. intros i. fold (rbase rg). rewrite E. by destruct (h !! _).
  - split; [done|]. intros m lv Hm. destruct (Hl m lv Hm) as [? ? Hin ? ?]. split; try done.
    intros z r. by rewrite Hf.
Qed.

Lemma PFA_ok_frame h h' rgs :
  (forall rg j, rg ∈ rgs -> h' !! (rbase rg, j) = h !! (rbase rg, j)) -> PFA_ok h rgs -> PFA_ok h' rgs.
Proof.
  induction rgs as [|rg rgs IH]; [done|]. intros E (HG & Ha & Hok). split_and!; [|done|].
  - eapply Good_frame; [|done]. intros j. apply E. set_solver.
  - apply IH; [|done]. intros rg' j Hin. apply E. set_solver.
Qed.

Lemma apart_indexer rg rg1 rgs rgs1 :
  indexer rg1 = indexer rg -> map indexer rgs1 = map indexer rgs ->
  Forall (apart rg) rgs -> Forall (apart rg1) rgs1.
Proof.
  intros E. revert rgs1. induction rgs as [|x rgs IH]; intros [|x1 rgs1] Em Ha; simplify_eq/=; [done|].
  inversion Ha as [|? ? Hx Hrest]; subst. constructor; [|by apply IH].
  unfold apart, rbase, rend in *. by rewrite E, H1.
Qed.

Lemma frame_range h rg x i f :
  Good bits h rg x -> adm h (rbase rg) i f ->
  start (indexer rg) <= pa f /\ pa f + FRAME_SIZE * pages (flevel f) <= rend rg.
Proof.
  intros HG Ha. destruct (t_frame _ _ _ (g_tiled _ _ _ _ HG) i f Ha) as (-> & ? & ? & ? & _).
  pose proof (wf_len_pages bits _ (g_wf _ _ _ _ HG)). unfold rend, addr, FRAME_SIZE in *. lia.
Qed.

Lemma live_Good h rgs r f :
  PFA_ok h rgs -> live h rgs r f ->
  exists rg i, rg ∈ rgs /\ r = (rbase rg, i) /\ adm h (rbase rg) i f /\ Good bits h rg None.
Proof.
  intros Hok (rg & i & Hin & -> & Ha). exists rg, i. split_and!; try done.
  induction rgs as [|x rgs IH]; [by apply not_elem_of_nil in Hin|]. destruct Hok as (HG & _ & Hok).
  apply elem_of_cons in Hin as [->|Hin]; auto.
Qed.

Lemma live_cons h rg rgs r f :
  live h (rg :: rgs) r f <-> (exists i, r = (rbase rg, i) /\ adm h (rbase rg) i f) \/ live h rgs r f.
Proof.
  unfold live. split.
  - intros (x & i & [->|Hin]%elem_of_cons & ? & ?); [left; by exists i|right; by exists x, i].
  - intros [(i & ? & ?)|(x & i & ? & ? & ?)]; [exists rg, i|exists x, i]; split_and!; set_solver.
Qed.

(** Frames of regions apart do not overlap. *)
Lemma apart_disjoint h h' rg rg' i j f g :
  apart rg rg' -> Good bits h rg None -> adm h (rbase rg) i f ->
  Good bits h' rg' None -> adm h' (rbase rg') j g -> disjoint_frames f g /\ disjoint_frames g f.
Proof.
  intros [_ Hr] HG Hf HG' Hg. pose proof (frame_range _ _ _ _ _ HG Hf). pose proof (frame_range _ _ _ _ _ HG' Hg).
  unfold disjoint_frames. lia.
Qed.

(** What an allocation over all regions promises. *)
Record given (allow : bool -> bool) (lay : Layout) h rgs h' rgs' (r : FrameRef) (f : Frame) : Prop := {
  gv_live : live h' rgs' r f;
  gv_alloc : ALLOCATED (flags f) = true;
  gv_zero : allow (ZEROED (flags f)) = true;
  gv_fits : fits_layout lay f;
  gv_level : 0 <= flevel f <= 2;
  gv_align : pa f mod (FRAME_SIZE * pages (flevel f)) = 0;
  gv_new : forall r' g, live h rgs r' g -> ALLOCATED (flags g) = true -> r' <> r /\ disjoint_frames f g;
  gv_min : forall l, 0 <= l < flevel f -> ~ (lsize lay <= FRAME_SIZE * pages l /\ lalign lay <= FRAME_SIZE * pages l) }.

Definition loop_result (allow : bool -> bool) (lay : Layout) h rgs (o : option FrameRef) h' rgs' : Prop :=
  map indexer rgs' = map indexer rgs /\ PFA_ok h' rgs' /\
  (forall b j, (forall rg, rg ∈ rgs -> b <> rbase rg) -> h' !! (b, j) = h !! (b, j)) /\
  (forall r g, live h rgs r g -> ALLOCATED (flags g) = true -> h' !! r = Some g) /\
  (forall r g, live h' rgs' r g -> ALLOCATED (flags g) = true -> o = Some r \/ live h rgs r g) /\
  match o with
  | Some r => exists f, given allow lay h rgs h' rgs' r f
  | None => h' = h /\ forall r g, live h rgs r g -> ALLOCATED (flags g) = false ->
      allow (ZEROED (flags g)) = true -> ~ fits_layout lay g
  end.

Lemma loop_here tz oz lay h rg rgs r h1 rg1 :
  PFA_ok h (rg :: rgs) -> indexer rg1 = indexer rg -> Good bits h1 rg1 None ->
  preserved (rbase rg) (Some r.2) h h1 -> allocated_frame (allowed tz oz) lay (indexer rg) h h1 r ->
  loop_result (allowed tz oz) lay h (rg :: rgs) (Some r) h1 (rg1 :: rgs).
Proof.
  intros (HG & Hap & Hok) Eix HG1 (Hp1 & Hp2 & Hp3) [(i & f & -> & Hi & Hal & Hz & Hfit & Hpa & Hlv & Hmod & Hnew & Hmin)].
  assert (rbase rg1 = rbase rg) as Eb by (unfold rbase; by rewrite Eix).
  rewrite Forall_forall in Hap. split_and!.
  - simpl. by rewrite Eix.
  - split_and!; [done| |].
    + apply (apart_indexer rg rg1 rgs rgs); [done|done|by apply Forall_forall].
    + apply (PFA_ok_frame h); [|done]. intros rg' j Hin. apply Hp1. destruct (Hap rg' Hin) as [? _]. congruence.
  - intros b j Hb. apply Hp1. apply Hb. set_solver.
  - intros r' g [(j & -> & Hj)|(rg' & j & Hin & -> & Hj)]%live_cons Hg; [by apply Hp2|].
    rewrite Hp1; [by apply Hj|]. destruct (Hap rg' Hin) as [? _]. congruence.
  - intros r' g [(j & -> & Hj)|(rg' & j & Hin & -> & Hj)]%live_cons Hg.
    + rewrite Eb in *. destruct (Hp3 j g Hj Hg) as [[= ->]|Hj']; [by left|]. right. apply live_cons. left. by exists j.
    + right. apply live_cons. right. exists rg', j. split_and!; [done|done|]. destruct Hj as [Hj Ha]. split; [|done]. rewrite <- Hj. symmetry. apply Hp1. destruct (Hap rg' Hin) as [? _]. congruence.
  - exists f. split; try done.
    + apply live_cons. left. exists i. rewrite Eb. done.
    + intros r' g Hr' Hg. apply live_cons in Hr' as [(j & -> & Hj)|Hr'].
      * destruct (Hnew j g Hj Hg). split; [congruence|done].
      * destruct (live_Good h rgs r' g Hok Hr') as (rg' & j & Hin & -> & Hj & HG').
        destruct (Hap rg' Hin) as [Hne Hr]. split; [intros [= E _]; by apply Hne|].
        apply (apart_disjoint h1 h rg1 rg' i j f g); try done; [|by rewrite Eb].
        unfold apart, rend. rewrite Eix, Eb. done.
Qed.

Lemma alloc_loop_spec tz oz lay h rgs :
  PFA_ok h rgs ->
  exists o h' rgs', alloc_loop bits tz oz lay h rgs = Ret (o, h', rgs') /\
    loop_result (allowed tz oz) lay h rgs o h' rgs'.
Proof.
  revert h. induction rgs as [|rg rgs IH]; intros h Hok.
  { do 3 eexists. split; [done|]. split_and!; try done.
    - intros r g (x & i & Hin & _). by apply not_elem_of_nil in Hin.
    - intros r g (x & i & Hin & _). by apply not_elem_of_nil in Hin.
    - intros r g (x & i & Hin & _). by apply not_elem_of_nil in Hin. }
  pose proof Hok as (HG & Hap & Hok'). cbn [alloc_loop].
  destruct (Region_allocate_spec bits tz oz lay h rg HG) as (o & h1 & rg1 & -> & Eix & _ & HG1 & Hpre & Ho).
  cbn [obind]. destruct o as [r|].
  { do 3 eexists. split; [done|]. by apply loop_here. }
  destruct Ho as [-> Hnone].
  destruct (IH h Hok') as (o & h2 & rgs2 & -> & Em & Hok2 & Hout & Hkeep & Honly & Ho). cbn [obind].
  assert (rbase rg1 = rbase rg) as Eb by (unfold rbase; by rewrite Eix).
  rewrite Forall_forall in Hap.
  assert (forall j, h2 !! (rbase rg, j) = h !! (rbase rg, j)) as Hrg.
  { intros j. apply Hout. intros x Hx. by destruct (Hap x Hx). }
  do 3 eexists. split; [done|]. split_and!.
  - simpl. by rewrite Eix, Em.
  - split_and!; [|apply (apart_indexer rg rg1 rgs rgs2); [done|done|by apply Forall_forall]|done].
    eapply Good_frame; [|done]. intros j. by rewrite Eb, Hrg.
  - intros b j Hb. apply Hout. intros x Hx. apply Hb. set_solver.
  - intros r g [(j & -> & Hj)|Hr]%live_cons Hg; [rewrite Hrg; apply Hj|by apply Hkeep].
  - intros r g [(j & -> & Hj)|Hr]%live_cons Hg.
    + right. apply live_cons. left. exists j. rewrite Eb in *. split; [done|]. destruct Hj as [Hj ?]. split; [|done]. by rewrite <- Hrg.
    + destruct (Honly r g Hr Hg) as [?|?]; [by left|]. right. apply live_cons. by right.
  - destruct o as [r|].
    + destruct Ho as (f & [G1 G2 G3 G4 G5 G6 G7 G8]). exists f. split; try done.
      * apply live_cons. by right.
      * intros r' g [(j & -> & Hj)|Hr']%live_cons Hg; [|by apply G7].
        destruct (live_Good h2 rgs2 r f Hok2 G1) as (rg' & i & Hin & -> & Hi & HG').
        assert (apart rg rg') as Hapr.
        { assert (indexer rg' ∈ map indexer rgs) as Hix by (rewrite <- Em; by apply (list_elem_of_fmap_2 indexer)).
          apply list_elem_of_fmap in Hix as (x & Ex & Hx). specialize (Hap x Hx).
          unfold apart, rbase, rend in *. by rewrite Ex. }
        split; [destruct Hapr; congruence|].
        by apply (apart_disjoint h h2 rg rg' j i g f Hapr HG Hj HG' Hi).
    + destruct Ho as [-> Hnone2]. split; [done|]. intros r g [(j & -> & Hj)|Hr]%live_cons; eauto.
Qed.

(** Changing the flags of the frame just given. *)
Lemma given_flags allow lay h rgs h1 rgs1 r f g :
  PFA_ok h1 rgs1 -> given allow lay h rgs h1 rgs1 r f ->
  (forall fl, ADMITTED (g fl) = ADMITTED fl /\ ALLOCATED (g fl) = ALLOCATED fl) ->
  modify h1 r (fun x => with_flags x g) = Ret (<[r := with_flags f g]> h1) /\
  PFA_ok (<[r := with_flags f g]> h1) rgs1 /\
  given (fun _ => true) lay h rgs (<[r := with_flags f g]> h1) rgs1 r (with_flags f g).
Proof.
  intros Hok [G1 G2 G3 G4 G5 G6 G7 G8] Hg. destruct (Hg (flags f)) as [Hg1 Hg2].
  pose proof G1 as (rg & i & Hin & -> & Hi). pose proof Hi as [Hf Had].
  assert (ADMITTED (flags (with_flags f g)) = true) as Had' by (simpl; congruence).
  assert (ALLOCATED (flags (with_flags f g)) = true) as Hal' by (simpl; congruence).
  split; [|split].
  - unfold modify, deref. by rewrite Hf.
  - clear -Hok Hin Hi G2 Had' Hal'. induction rgs1 as [|x rgs1 IH]; [done|]. destruct Hok as (HG & Hap & Hok).
    apply elem_of_cons in Hin as [->|Hin].
    + split_and!; [by apply (Good_allocated_flags bits h1 x i f)|done|].
      apply (PFA_ok_frame h1); [|done]. intros y j Hy. apply lookup_insert_ne.
      rewrite Forall_forall in Hap. destruct (Hap y Hy) as [? _]. congruence.
    + split_and!; [|done|by apply IH]. apply (Good_frame h1); [|done]. intros j. apply lookup_insert_ne.
      rewrite Forall_forall in Hap. destruct (Hap rg Hin) as [? _]. congruence.
  - split; try done. exists rg, i. split_and!; try done. split; [apply lookup_insert_eq|done].
Qed.

Lemma do_alloc_spec fl lay h rgs :
  PFA_ok h rgs ->
  exists o h' rgs', do_alloc bits fl lay h rgs = Ret (o, h', rgs') /\
    loop_result (fun _ => true) lay h rgs o h' rgs'.
Proof.
  intros Hok. unfold do_alloc.
  destruct (alloc_loop_spec false (ZEROED fl) lay h rgs Hok) as (o & h1 & rgs1 & -> & R1 & R2 & R3 & R4 & RO & R5).
  cbn [obind]. destruct o as [r|].
  - do 3 eexists. split; [done|]. split_and!; try done. destruct R5 as (f & [G1 G2 G3 G4 G5 G6 G7 G8]). by exists f.
  - destruct R5 as [-> _].
    destruct (alloc_loop_spec true false lay h rgs1 R2) as (o & h2 & rgs2 & -> & S1 & S2 & S3 & S4 & SO & S5).
    assert (forall r g, live h rgs1 r g <-> live h rgs r g) as Hlive.
    { intros r g. unfold live. split; intros (rg & i & Hin & -> & Hi).
      - assert (indexer rg ∈ map indexer rgs) as Hx by (rewrite <- R1; by apply (list_elem_of_fmap_2 indexer)).
        apply list_elem_of_fmap in Hx as (x & Ex & Hx). exists x, i. unfold rbase in *. rewrite <- Ex. done.
      - assert (indexer rg ∈ map indexer rgs1) as Hx by (rewrite R1; by apply (list_elem_of_fmap_2 indexer)).
        apply list_elem_of_fmap in Hx as (x & Ex & Hx). exists x, i. unfold rbase in *. rewrite <- Ex. done. }
    do 3 eexists. split; [done|]. split_and!; [congruence|done| | | |].
    + intros b j Hb. apply S3. intros rg Hin.
      assert (indexer rg ∈ map indexer rgs) as Hx by (rewrite <- R1; by apply (list_elem_of_fmap_2 indexer)).
      apply list_elem_of_fmap in Hx as (x & Ex & Hx). unfold rbase in *. rewrite Ex. by apply Hb.
    + intros r g Hr. apply S4. by apply Hlive.
    + intros r g Hr Hg. destruct (SO r g Hr Hg) as [?|?]; [by left|]. right. by apply Hlive.
    + destruct o as [r|].
      * destruct S5 as (f & [G1 G2 G3 G4 G5 G6 G7 G8]). exists f. split; try done.
        intros r' g Hr'. apply G7. by apply Hlive.
      * destruct S5 as [-> S5]. split; [done|]. intros r g Hr Hg _. apply (S5 r g); [by apply Hlive|done|].
        by destruct (ZEROED (flags g)).
Qed.

Lemma raw_alloc_spec fl lay h rgs :
  PFA_ok h rgs ->
  exists o h' rgs', raw_alloc_frame bits fl lay h rgs = Ret (o, h', rgs') /\ PFA_ok h' rgs' /\
    map indexer rgs' = map indexer rgs /\
    (forall r g, live h rgs r g -> ALLOCATED (flags g) = true -> h' !! r = Some g) /\
    (forall r g, live h' rgs' r g -> ALLOCATED (flags g) = true -> o = Some r \/ live h rgs r g) /\
    match o with
    | Some r => exists f, given negb lay h rgs h' rgs' r f
    | None => h' = h /\ forall r g, live h rgs r g -> ALLOCATED (flags g) = false -> ~ fits_layout lay g
    end.
Proof.
  intros Hok. unfold raw_alloc_frame, PFA_alloc.
  destruct (do_alloc_spec fl lay h rgs Hok) as (o & h1 & rgs1 & -> & R1 & R2 & R3 & R4 & RO & R5). cbn [obind].
  destruct o as [r|].
  2:{ destruct R5 as [-> R5]. do 3 eexists. split; [done|]. split_and!; try done. intros r g Hr Hg. by apply (R5 r g). }
  destruct R5 as (f & Gf). pose proof (gv_live _ _ _ _ _ _ _ _ Gf) as (rg & i & Hin & Er & [Hf _]). rewrite <- Er in Hf.
  set (nz := fun g : PhysicalFrameFlags => mkFlags false (ALLOCATED g) (ADMITTED g) (KERNEL g)).
  set (zz := fun g : PhysicalFrameFlags => mkFlags true (ALLOCATED g) (ADMITTED g) (KERNEL g)).
  assert (exists h2 f2, (let! f := deref h1 r in
      if ZEROED fl && negb (ZEROED (flags f)) then let! h2 := modify h1 r zero in Ret (Some r, h2, rgs1)
      else Ret (Some r, h1, rgs1)) = Ret (Some r, h2, rgs1) /\ h2 !! r = Some f2 /\ PFA_ok h2 rgs1 /\
      (ZEROED fl = true -> ZEROED (flags f2) = true) /\ (forall r', r' <> r -> h2 !! r' = h1 !! r') /\
      given (fun _ => true) lay h rgs h2 rgs1 r f2) as (h2 & f2 & E2 & Hf2 & Hok2 & Hz2 & Hne2 & Gf2).
  { unfold deref. rewrite Hf. cbn [unwrap obind].
    destruct (ZEROED fl && negb (ZEROED (flags f))) eqn:E.
    - destruct (given_flags _ lay h rgs h1 rgs1 r f zz R2 Gf) as (Em & Hok2 & Gf2); [done|].
      change zero with (fun x => with_flags x zz). rewrite Em. cbn [obind]. do 2 eexists. split; [done|].
      split; [apply lookup_insert_eq|]. split_and!; try done. intros r' Hr'. by apply lookup_insert_ne.
    - do 2 eexists. split; [done|]. split_and!; try done. intros Hz. rewrite Hz in E.
      by destruct (ZEROED (flags f)). }
  rewrite E2. cbn [obind]. unfold deref at 1. rewrite Hf2. cbn [unwrap obind].
  assert ((if ZEROED fl then rassert (ZEROED (flags f2)) else Ret tt) = Ret tt) as ->
    by (destruct (ZEROED fl); [by rewrite Hz2|done]).
  cbn [obind]. destruct (given_flags _ lay h rgs h2 rgs1 r f2 nz Hok2 Gf2) as (Em & Hok3 & Gf3); [done|].
  change set_not_zero with (fun x => with_flags x nz). rewrite Em. cbn [obind]. unfold deref.
  rewrite lookup_insert_eq. cbn [unwrap obind].
  destruct (gv_live _ _ _ _ _ _ _ _ Gf3) as (rg3 & i3 & _ & _ & [_ Had3]).
  rewrite Had3, (gv_alloc _ _ _ _ _ _ _ _ Gf3). cbn [rassert obind].
  do 3 eexists. split; [done|]. split_and!; try done.
  - intros r' g Hr' Hg. destruct (gv_new _ _ _ _ _ _ _ _ Gf r' g Hr' Hg) as [Hne _].
    rewrite lookup_insert_ne by done. rewrite Hne2 by done. by apply R4.
  - intros r' g Hr' Hg. destruct (decide (r' = r)) as [->|Hne]; [by left|]. destruct (RO r' g) as [?|?]; [|done|by left|by right].
    destruct Hr' as (rg' & j & Hin' & -> & [Hj Ha]). exists rg', j. split_and!; [done|done|]. split; [|done]. rewrite lookup_insert_ne, Hne2 in Hj by done. done.
  - exists (with_flags f2 nz). by destruct Gf3.
Qed.

(** ** Freeing *)
Lemma contains_apart h rg rg' i f :
  apart rg rg' -> wf_ix bits (indexer rg) -> Good bits h rg' None -> adm h (rbase rg') i f ->
  contains bits (indexer rg) (pa f) = Ret false.
Proof.
  intros [_ Hr] Hw HG Hi. destruct (frame_range _ _ _ _ _ HG Hi).
  destruct (t_frame _ _ _ (g_tiled _ _ _ _ HG) i f Hi) as (_ & ? & _). pose proof (pages_pos (flevel f)).
  rewrite contains_spec by done. unfold rend, FRAME_SIZE in *. f_equal.
  destruct Hr; [rewrite (proj2 (Z.ltb_ge _ _)) by lia; apply andb_false_r
               |rewrite (proj2 (Z.leb_gt _ _)) by lia; done].
Qed.

Lemma contains_own h rg i f :
  Good bits h rg None -> adm h (rbase rg) i f -> contains bits (indexer rg) (pa f) = Ret true.
Proof.
  intros HG Hi. destruct (t_frame _ _ _ (g_tiled _ _ _ _ HG) i f Hi) as (-> & ? & ? & ? & _).
  pose proof (pages_pos (flevel f)). apply contains_addr; [apply HG|lia].
Qed.

Lemma PFA_free_spec h rgs r f :
  PFA_ok h rgs -> live h rgs r f -> ALLOCATED (flags f) = true ->
  exists rgs', PFA_free bits h rgs r = Ret (<[r := set_free f]> h, rgs') /\
    map indexer rgs' = map indexer rgs /\ PFA_ok (<[r := set_free f]> h) rgs'.
Proof.
  intros Hok (rg & i & Hin & -> & Hi) Hal. induction rgs as [|x rgs IH]; [by apply not_elem_of_nil in Hin|].
  destruct Hok as (HG & Hap & Hok). pose proof Hap as Hap'. rewrite Forall_forall in Hap'.
  cbn [PFA_free]. unfold deref at 1. rewrite (proj1 Hi). cbn [unwrap obind].
  apply elem_of_cons in Hin as [->|Hin].
  - rewrite (contains_own h x i f) by done. cbn [obind].
    destruct (Region_free_spec bits h x i f HG Hi Hal) as (rg' & E & Eix & _ & HG'). unfold rbase. rewrite E. cbn [obind].
    eexists. split; [done|]. split; [simpl; by rewrite Eix|]. split_and!; [done| |].
    + by apply (apart_indexer x rg' rgs rgs).
    + apply (PFA_ok_frame h); [|done]. intros y j Hy. apply lookup_insert_ne.
      destruct (Hap' y Hy) as [? _]. unfold rbase in *. congruence.
  - destruct (live_Good h rgs (rbase rg, i) f Hok) as (y & j & Hy & Ey & Hj & HGy); [by exists rg, i|].
    injection Ey as Eb <-. rewrite (contains_apart h x y i f) by (auto; apply HG). cbn [obind].
    destruct (IH Hok Hin) as (rgs' & -> & Em & Hok'). cbn [obind]. eexists. split; [done|].
    split; [simpl; by rewrite Em|]. split_and!; [|by apply (apart_indexer x x rgs rgs')|done].
    apply (Good_frame h); [|done]. intros k. apply lookup_insert_ne. destruct (Hap' rg Hin) as [? _]. congruence.
Qed.
End pfa.

(** Building a region.  For a page-sized or larger memory region below the end of
    physical memory, [AllocationRegion::new] returns; the region it makes satisfies
    the allocator's invariant (every page is in exactly one admitted, aligned frame;
    the free lists hold exactly the free frames), has all its frames free, ends with
    the last whole page, and keeps its frame metadata below the pages it manages. *)
Theorem region_new_ok `{Build} {L} `{LinkedList FrameRef L} (bits sizeof_Frame : Z) (fuel : nat) (m : MemoryRegion) (h : heap) :
  0 < bits <= 64 -> 0 < sizeof_Frame <= FRAME_SIZE -> 0 <= mstart m -> FRAME_SIZE <= mlength m ->
  mstart m + mlength m < 2 ^ bits -> mlength m / FRAME_SIZE < Z.of_nat fuel ->
  (forall i, h !! (first_page m, i) = None) ->
  exists h' o, Region_new (L := L) bits sizeof_Frame fuel m h = Ret (h', o) /\
    match o with Some rg => fresh_region bits sizeof_Frame m h' rg | None => h' = h end /\
    (forall b j, b <> first_page m -> h' !! (b, j) = h !! (b, j)).
Proof. intros. by apply Region_new_spec. Qed.

(** C25: allocation.  On regions that satisfy the invariant [raw_alloc_frame] returns
    without failing any of its assertions and keeps the invariant and every frame
    that was allocated.  The frame it gives fits the layout, is aligned to its size, is
    marked allocated and not zeroed, and overlaps no frame that was allocated before; no
    smaller level fits the layout, and no other frame becomes allocated.  It gives none only when no free frame of any region fits the layout. *)
Theorem raw_alloc_frame_ok `{Build} {L} `{LinkedList FrameRef L} (bits : Z) (fl : PhysicalFrameFlags) (lay : Layout)
    (h : heap) (rgs : list (AllocationRegion L)) :
  PFA_ok bits h rgs ->
  exists o h' rgs', raw_alloc_frame bits fl lay h rgs = Ret (o, h', rgs') /\ PFA_ok bits h' rgs' /\
    map indexer rgs' = map indexer rgs /\
    (forall r g, live h rgs r g -> ALLOCATED (flags g) = true -> h' !! r = Some g) /\
    (forall r g, live h' rgs' r g -> ALLOCATED (flags g) = true -> o = Some r \/ live h rgs r g) /\
    match o with
    | Some r => exists f, given negb lay h rgs h' rgs' r f
    | None => h' = h /\ forall r g, live h rgs r g -> ALLOCATED (flags g) = false -> ~ fits_layout lay g
    end.
Proof. apply raw_alloc_spec. Qed.

(** Freeing.  [raw_free_frame] of an allocated frame of the allocator returns, marks
    it free and keeps the invariant; freeing it a second time panics, and freeing a
    frame that was never admitted changes nothing. *)
Theorem raw_free_frame_ok `{Build} {L} `{LinkedList FrameRef L} (bits : Z) (h : heap)
    (rgs : list (AllocationRegion L)) (r : FrameRef) (f : Frame) :
  PFA_ok bits h rgs -> h !! r = Some f ->
  (ADMITTED (flags f) = false -> raw_free_frame bits h rgs r = Ret (h, rgs)) /\
  (live h rgs r f -> ALLOCATED (flags f) = false -> raw_free_frame bits h rgs r = Panic) /\
  (live h rgs r f -> ALLOCATED (flags f) = true ->
   exists rgs', raw_free_frame bits h rgs r = Ret (<[r := set_free f]> h, rgs') /\
     PFA_ok bits (<[r := set_free f]> h) rgs').
Proof.
  intros Hok Hf. unfold raw_free_frame, deref. rewrite Hf. cbn [unwrap obind].
  split_and!.
  - by intros ->.
  - intros (rg & i & _ & _ & [_ ->]) ->. done.
  - intros Hl Hal. pose proof Hl as (rg & i & _ & _ & [_ Had]). rewrite Had, Hal. cbn [negb rassert obind].
    destruct (PFA_free_spec bits h rgs r f Hok Hl Hal) as (rgs' & -> & _ & ?). by exists rgs'.
Qed.

(** Splitting.  [split_and_keep] of an allocated frame above the lowest level keeps the
    invariant and replaces the frame by 512 allocated frames of the level below that
    cover the same pages, in order, with the same zeroed flag. *)
Theorem split_and_keep_ok `{Build} {L} `{LinkedList FrameRef L} (bits : Z) (h : heap)
    (rg : AllocationRegion L) (i : Z) (f : Frame) :
  Good bits h rg None -> adm h (rbase rg) i f -> 0 < flevel f -> ALLOCATED (flags f) = true ->
  exists h', split_and_keep bits h rg (rbase rg, i) =
      Ret (h', ((rbase rg, i), FRAME_SIZE * pages (flevel f))) /\ Good bits h' rg None /\
    forall k, 0 <= k < 512 -> exists c, adm h' (rbase rg) (i + k * pages (flevel f - 1)) c /\
      pa c = pa f + k * (FRAME_SIZE * pages (flevel f - 1)) /\ flevel c = flevel f - 1 /\
      ALLOCATED (flags c) = true /\ ZEROED (flags c) = ZEROED (flags f).
Proof.
  intros HG Hi Hl Hal. destruct (split_and_keep_spec bits h rg i f HG Hi Hl Hal) as (h' & E & [Hw _] & HG').
  exists h'. split; [done|]. split; [done|]. intros k Hk. eexists. split; [split; [by apply Hw|done]|].
  destruct (t_frame _ _ _ (g_tiled _ _ _ _ HG) i f Hi) as (-> & _). split; [|done].
  unfold addr, FRAME_SIZE. cbn [pa child]. unfold addr, FRAME_SIZE. lia.
Qed.

(** ** Witnesses: memory that ends with an aligned large page. *)
Definition demo_mem : MemoryRegion := mkMem (0x200000 - 8 * FRAME_SIZE) (520 * FRAME_SIZE) UsableRam.

Definition demo_new : heap * option (AllocationRegion (list FrameRef)) :=
  ret_or (∅, None) (Region_new (H := true) 48 32 521 demo_mem ∅).

Definition demo_heap : heap := fst demo_new.
Definition demo_region : AllocationRegion (list FrameRef) :=
  default (mkRegion (mkIndexer 0 0 0 0) 0 []) (snd demo_new).

Lemma region_new_ok_witness :
  exists h' o, Region_new (H := true) (L := list FrameRef) 48 32 521 demo_mem ∅ = Ret (h', o) /\
    match o with Some rg => fresh_region 48 32 demo_mem h' rg | None => h' = ∅ end /\
    (forall b j, b <> first_page demo_mem -> h' !! (b, j) = (∅ : heap) !! (b, j)).
Proof.
  apply (region_new_ok (H := true)); by vm_compute.
Defined.

Lemma frame_demo_some : is_Some (snd demo_new).
Proof.
  apply not_eq_None_Some. intros E.
  assert (bool_decide (is_Some (snd demo_new)) = true) as E' by (vm_compute; reflexivity).
  rewrite E in E'. done.
Qed.

Lemma frame_demo_fresh : fresh_region 48 32 demo_mem demo_heap demo_region.
Proof.
  destruct (Region_new_spec (H := true) (L := list FrameRef) 48 32 521 demo_mem ∅)
    as (h' & o & E & Ho & _); [lia|by vm_compute..|].
  pose proof frame_demo_some as Hs. unfold demo_heap, demo_region, demo_new in *. rewrite E in *.
  cbn [ret_or fst snd] in *. destruct o as [rg|]; [done|]. by destruct Hs.
Qed.

Lemma frame_demo_ok : PFA_ok 48 demo_heap [demo_region].
Proof. split_and!; [apply frame_demo_fresh|done|done]. Qed.

Lemma raw_alloc_frame_ok_witness :
  exists o h' rgs', raw_alloc_frame (H := true) 48 flags_empty (mkLayout 0x3000 0x1000) demo_heap [demo_region]
      = Ret (o, h', rgs') /\ PFA_ok 48 h' rgs' /\
    (forall r g, live demo_heap [demo_region] r g -> ALLOCATED (flags g) = true -> h' !! r = Some g) /\
    match o with
    | Some r => exists f, given negb (mkLayout 0x3000 0x1000) demo_heap [demo_region] h' rgs' r f
    | None => h' = demo_heap /\ forall r g, live demo_heap [demo_region] r g -> ALLOCATED (flags g) = false ->
        ~ fits_layout (mkLayout 0x3000 0x1000) g
    end.
Proof.
  destruct (raw_alloc_frame_ok (H := true) 48 flags_empty (mkLayout 0x3000 0x1000) demo_heap [demo_region]) as (o & h' & rgs' & E & Hok & _ & Hk & _ & Ho).
  - apply frame_demo_ok.
  - exists o, h', rgs'. split; [exact E|]. split; [exact Hok|]. split; [exact Hk|exact Ho].
Defined.

(** After one allocation of a small page and one of a large page. *)
Definition demo_alloc : option FrameRef * heap * list (AllocationRegion (list FrameRef)) :=
  ret_or (None, ∅, [])
    (raw_alloc_frame (H := true) 48 flags_empty (mkLayout 0x200000 0x1000) demo_heap [demo_region]).
Definition demo_ref : FrameRef := (0x1f8000, 3).
Definition demo_frame : Frame := mkFrame 0x200000 (mkFlags false true true false) 1.

Lemma demo_alloc_ok : PFA_ok 48 demo_alloc.1.2 demo_alloc.2.
Proof.
  destruct (raw_alloc_spec (H := true) 48 flags_empty (mkLayout 0x200000 0x1000) demo_heap [demo_region] frame_demo_ok)
    as (o & h' & rgs' & E & Hok & _). unfold demo_alloc. by rewrite E.
Qed.

Definition demo_region2 : AllocationRegion (list FrameRef) := hd demo_region demo_alloc.2.

Lemma demo_alloc_regions : demo_alloc.2 = [demo_region2].
Proof. by vm_compute. Qed.

Lemma raw_free_frame_ok_witness :
  exists rgs', raw_free_frame (H := true) 48 demo_alloc.1.2 demo_alloc.2 demo_ref =
    Ret (<[demo_ref := set_free demo_frame]> demo_alloc.1.2, rgs') /\
    PFA_ok 48 (<[demo_ref := set_free demo_frame]> demo_alloc.1.2) rgs'.
Proof.
  apply (raw_free_frame_ok (H := true) 48 demo_alloc.1.2 demo_alloc.2 demo_ref demo_frame).
  - apply demo_alloc_ok.
  - by vm_compute.
  - exists demo_region2, 3. rewrite demo_alloc_regions. split; [by apply list_elem_of_singleton|].
    split; [by vm_compute|]. split; by vm_compute.
  - done.
Defined.

Lemma split_and_keep_ok_witness :
  exists h', split_and_keep (H := true) 48 demo_alloc.1.2 demo_region2 (rbase demo_region2, 3) =
      Ret (h', ((rbase demo_region2, 3), FRAME_SIZE * pages 1)) /\ Good 48 h' demo_region2 None /\
    forall k, 0 <= k < 512 -> exists c, adm h' (rbase demo_region2) (3 + k * pages (1 - 1)) c /\
      pa c = 0x200000 + k * (FRAME_SIZE * pages (1 - 1)) /\ flevel c = 1 - 1 /\
      ALLOCATED (flags c) = true /\ ZEROED (flags c) = false.
Proof.
  apply (split_and_keep_ok (H := true) 48 demo_alloc.1.2 demo_region2 3 demo_frame).
  - pose proof demo_alloc_ok as Hok. rewrite demo_alloc_regions in Hok. apply Hok.
  - split; by vm_compute.
  - done.
  - done.
Defined.
End FrameAllocSpec.
