(* ===== verification/FrameData.v ===== *)
(** * The contents of a physical frame

    [Frame::zero], [copy_contents_from] and [copy_contents_from_physaddr] of
    [src/kernel/src/memory/frame.rs] work on the page's bytes and on the [ZEROED] flag
    that claims they are all zero.  A frame is here its flag and its bytes; the copies
    run under the frame's lock, so each is one function. *)
From S2P Require Import Prelude.

#[local] Open Scope Z_scope.

Module FrameData.

Record FrameBytes := mkBytes { zeroed : bool; bytes : list Z }.

#[global] Instance FrameBytes_eq_dec : EqDecision FrameBytes.
Proof. solve_decision. Defined.

(** The slice [[off, off + n)] of the page, and writing a slice back. *)
Definition slice (l : list Z) (off n : nat) : list Z := take n (drop off l).
Definition splice (l : list Z) (off : nat) (s : list Z) : list Z :=
  take off l ++ s ++ drop (off + length s) l.

(** [Frame::zero] *)
Definition fill_zero (f : FrameBytes) : FrameBytes :=
  mkBytes true (replicate (length (bytes f)) 0).

(** [Frame::set_not_zero] *)
Definition clear_zeroed (f : FrameBytes) : FrameBytes := mkBytes false (bytes f).

(** [Frame::copy_contents_from] *)
Definition copy_contents_from (self other : FrameBytes) (doff soff len : nat) : FrameBytes :=
  if zeroed other then
    if zeroed self then self
    else mkBytes true (splice (bytes self) doff (replicate len 0))
  else mkBytes false (splice (bytes self) doff (slice (bytes other) soff len)).

(** [Frame::copy_contents_from_physaddr]; [other] is the memory at the source address. *)
Definition copy_contents_from_physaddr (self : FrameBytes) (doff : nat) (other : list Z) (len : nat)
  : FrameBytes :=
  mkBytes false (splice (bytes self) doff (take len other)).

(** The flag tells the truth. *)
Definition truthful (f : FrameBytes) : Prop := zeroed f = true -> Forall (fun b => b = 0) (bytes f).

(** ** Slices *)
Lemma slice_zero l off n :
  Forall (fun b => b = 0) l -> (off + n <= length l)%nat -> slice l off n = replicate n 0.
Proof.
  intros Hl Hn. apply list_eq. intros i. unfold slice. destruct (decide (i < n)%nat) as [Hi|Hi].
  - rewrite lookup_take_lt by done. rewrite lookup_drop, lookup_replicate_2 by done.
    destruct (lookup_lt_is_Some_2 l (off + i)) as [x Hx]; [lia|]. rewrite Hx. f_equal.
    by rewrite Forall_lookup in Hl; apply (Hl _ _ Hx).
  - rewrite lookup_take_ge by lia. symmetry. apply lookup_ge_None. rewrite length_replicate. lia.
Qed.

Lemma splice_same l off n :
  (off + n <= length l)%nat -> splice l off (slice l off n) = l.
Proof.
  intros Hn. unfold splice, slice. rewrite length_take, length_drop.
  replace (n `min` (length l - off))%nat with n by lia. rewrite <- drop_drop, take_drop, take_drop. done.
Qed.

Lemma splice_all l s : length s = length l -> splice l 0 s = s.
Proof. intros E. unfold splice. rewrite take_0, drop_ge by lia. by rewrite app_nil_r. Qed.

(** [copy_contents_from] copies.  When the zeroed flags of both frames are true of
    their bytes and the two ranges lie within them, the bytes afterwards are the old
    bytes with the destination range replaced by the source range, whichever of the
    shortcuts for zeroed frames is taken. *)
Theorem copy_contents_from_bytes self other doff soff len :
  truthful self -> truthful other ->
  (doff + len <= length (bytes self))%nat -> (soff + len <= length (bytes other))%nat ->
  bytes (copy_contents_from self other doff soff len) =
    splice (bytes self) doff (slice (bytes other) soff len).
Proof.
  intros Hs Ho Hd Hr. unfold copy_contents_from. destruct (zeroed other) eqn:Eo; [|done].
  rewrite (slice_zero (bytes other)) by auto. destruct (zeroed self) eqn:Es; [|done].
  rewrite <- (slice_zero (bytes self) doff len) by auto. by rewrite splice_same.
Qed.

Lemma copy_contents_from_bytes_witness :
  bytes (copy_contents_from (mkBytes false [1; 2; 3]) (mkBytes true [0; 0; 0]) 1 0 1) = [1; 0; 3].
Proof.
  apply (copy_contents_from_bytes (mkBytes false [1; 2; 3]) (mkBytes true [0; 0; 0]) 1 0 1).
  - done.
  - intros _. by repeat constructor.
  - simpl. lia.
  - simpl. lia.
Defined.

(** The flag after a copy.  Copying from a frame that is not zeroed, to a frame that
    is already zeroed, or over the whole frame leaves the flag true of the bytes; the
    remaining case, part of a zeroed frame onto a frame that is not, marks the frame
    zeroed whatever its other bytes are. *)
Theorem copy_contents_from_flag self other doff soff len :
  truthful self -> (doff + len <= length (bytes self))%nat ->
  let f := copy_contents_from self other doff soff len in
  (zeroed other = false \/ zeroed self = true \/ (doff = 0%nat /\ len = length (bytes self)) -> truthful f) /\
  (zeroed other = true -> zeroed self = false -> zeroed f = true /\
   forall i b, bytes self !! i = Some b -> (i < doff \/ doff + len <= i)%nat -> bytes f !! i = Some b).
Proof.
  intros Hs Hd f. unfold f, copy_contents_from. split.
  - destruct (zeroed other) eqn:Eo; [|by intros _].
    destruct (zeroed self) eqn:Es; [by intros _|]. intros [?|[?|[-> ->]]]; [done|done|].
    intros _. simpl. rewrite splice_all by apply length_replicate. by apply Forall_replicate.
  - intros -> ->. split; [done|]. intros i b Hb Hi. simpl. unfold splice. rewrite length_replicate.
    pose proof (lookup_lt_Some _ _ _ Hb). destruct Hi as [Hi|Hi].
    + rewrite lookup_app_l by (rewrite length_take; lia). by rewrite lookup_take_lt.
    + rewrite lookup_app_r by (rewrite length_take; lia). rewrite length_take.
      rewrite lookup_app_r by (rewrite length_replicate; lia). rewrite length_replicate, lookup_drop.
      rewrite <- Hb. f_equal. lia.
Qed.

Lemma copy_contents_from_flag_witness :
  let f := copy_contents_from (mkBytes false [1; 2; 3]) (mkBytes true [0; 0; 0]) 1 0 1 in
  zeroed f = true /\ bytes f !! 0%nat = Some 1.
Proof.
  destruct (copy_contents_from_flag (mkBytes false [1; 2; 3]) (mkBytes true [0; 0; 0]) 1 0 1) as [_ Hf].
  - done.
  - simpl. lia.
  - destruct (Hf eq_refl eq_refl) as [Hz Hb]. split; [exact Hz|]. apply (Hb 0%nat); [done|lia].
Defined.
End FrameData.
