(* ===== verification/VolatileBuffer.v ===== *)
(** * The lock-free byte buffer of [src/lib/twizzler-io/src/buffer.rs]

    A [VolatileBuffer] is a circle of [N] bytes shared by any number of readers and
    writers.  A writer reserves a range with a compare-exchange on [reserve], waits for
    [head] to reach it, copies its bytes in and moves [head]; a reader copies bytes out
    and claims them with a compare-exchange on [tail].

    As in [RawQueue], every access of the shared counters and every copy is one step
    ([read_step], [write_step]), and [sys_step] interleaves the threads.  The
    invariant gives the stream property: what the readers have claimed is a prefix of
    what the writers have reserved. *)
From S2P Require Import Prelude.

#[local] Open Scope Z_scope.

Module VolatileBuffer.

Record VB := mkVB { reserve : Z; head : Z; tail : Z; buffer : list Z }.

Section buffer.
Context `{Build} (N : Z).

Definition VB_new : VB := mkVB 0 0 0 (replicate (Z.to_nat N) 0).

Definition avail_space (b : VB) : outcome Z :=
  let! used := chk 64 (reserve b - tail b) in chk 64 (N - 1 - used).

Definition pending_bytes (b : VB) : outcome Z := chk 64 (head b - tail b).

Definition is_empty (b : VB) : bool := head b =? tail b.

(** The bytes copied out of the circle, [n] of them wanted. *)
Definition read_from_circle (buf : list Z) (n phase : nat) : list Z :=
  let second := take phase buf in
  let first := drop phase buf in
  let first_len := Nat.min (length first) n in
  let second_len := Nat.min (length second) (n - first_len) in
  take first_len first ++ take second_len second.

(** The circle after copying [src] in, and the count. *)
Definition write_to_circle (buf src : list Z) (phase : nat) : list Z * nat :=
  let second := take phase buf in
  let first := drop phase buf in
  let first_len := Nat.min (length first) (length src) in
  let second_len := Nat.min (length second) (length src - first_len) in
  (take second_len (drop first_len src) ++ drop second_len second ++
   take first_len src ++ drop first_len first, (first_len + second_len)%nat).

(** ** [read_bytes] *)
Inductive rd_pc :=
| RdLoadHead
| RdLoadTail (h : Z)
| RdCopy (h t : Z)
| RdCas (t : Z) (data : list Z)
| RdDone.

(** The bytes still wanted, those read so far, and the program point. *)
Record reader := mkRd { want : nat; got : list Z; r_pc : rd_pc }.

(** [read_step] also gives the bytes claimed, if any. *)
Definition read_step (b : VB) (r : reader) : outcome (VB * reader * list Z) :=
  match r_pc r with
  | RdLoadHead =>
      Ret (b, mkRd (want r) (got r) (if Nat.eqb (want r) 0 then RdDone else RdLoadTail (head b)), [])
  | RdLoadTail h =>
      if tail b =? h then Ret (b, mkRd (want r) (got r) RdDone, [])
      else
        let! _ := rassert (tail b <=? h) in
        Ret (b, mkRd (want r) (got r) (RdCopy h (tail b)), [])
  | RdCopy h t =>
      let n := Nat.min (want r) (Z.to_nat (h - t)) in
      Ret (b, mkRd (want r) (got r) (RdCas t (read_from_circle (buffer b) n (Z.to_nat (t mod N)))), [])
  | RdCas t data =>
      let n := length data in
      let! t' := chk 64 (t + Z.of_nat n) in
      if tail b =? t
      then Ret (mkVB (reserve b) (head b) t' (buffer b), mkRd (want r - n) (got r ++ data) RdLoadHead, data)
      else Ret (b, mkRd (want r) (got r) RdLoadHead, [])
  | RdDone => Ret (b, r, [])
  end.

(** ** [write_bytes] *)
Inductive wr_pc :=
| WrLoadResv
| WrLoadTail (resv : Z)
| WrCas (resv : Z) (n : nat)
| WrSpin (resv : Z) (n : nat)
| WrCopy (resv : Z) (n : nat)
| WrAdd (resv : Z) (n : nat)
| WrDone.

(** The bytes not yet written, the count so far, and the program point. *)
Record writer := mkWr { rest : list Z; count : nat; w_pc : wr_pc }.

Definition w_goto (w : writer) (pc : wr_pc) : writer := mkWr (rest w) (count w) pc.

(** [write_step] also gives the bytes whose range was reserved, if any. *)
Definition write_step (b : VB) (w : writer) : outcome (VB * writer * list Z) :=
  match w_pc w with
  | WrLoadResv =>
      Ret (b, w_goto w (if Nat.eqb (length (rest w)) 0 then WrDone else WrLoadTail (reserve b)), [])
  | WrLoadTail resv =>
      let! used := chk 64 (resv - tail b) in
      let! avail := chk 64 (N - 1 - used) in
      Ret (b, w_goto w (if avail =? 0 then WrDone
                        else WrCas resv (Nat.min (length (rest w)) (Z.to_nat avail))), [])
  | WrCas resv n =>
      let! resv' := chk 64 (resv + Z.of_nat n) in
      if reserve b =? resv
      then Ret (mkVB resv' (head b) (tail b) (buffer b), w_goto w (WrSpin resv n), take n (rest w))
      else Ret (b, w_goto w WrLoadResv, [])
  | WrSpin resv n =>
      Ret (b, w_goto w (if head b =? resv then WrCopy resv n else WrSpin resv n), [])
  | WrCopy resv n =>
      let (buf', n') := write_to_circle (buffer b) (take n (rest w)) (Z.to_nat (resv mod N)) in
      Ret (mkVB (reserve b) (head b) (tail b) buf', w_goto w (WrAdd resv n'), [])
  | WrAdd resv n =>
      Ret (mkVB (reserve b) (wrap 64 (head b + Z.of_nat n)) (tail b) (buffer b),
           mkWr (drop n (rest w)) (count w + n) WrLoadResv, [])
  | WrDone => Ret (b, w, [])
  end.

(** ** Any number of readers and writers

    [reserved] and [claimed] are history: the bytes in the order their ranges were
    reserved, and the bytes in the order readers claimed them. *)
Record sys := mkSys {
  vb : VB; readers : gmap nat reader; writers : gmap nat writer;
  reserved : list Z; claimed : list Z }.

Inductive event :=
| EvRead (i : nat) (n : nat)          (* a thread calls [read_bytes] on [n] bytes *)
| EvReader (i : nat)
| EvWrite (i : nat) (bytes : list Z)  (* a thread calls [write_bytes] *)
| EvWriter (i : nat).

Definition reader_idle (s : sys) (i : nat) : bool :=
  match readers s !! i with Some r => match r_pc r with RdDone => true | _ => false end | None => true end.
Definition writer_idle (s : sys) (i : nat) : bool :=
  match writers s !! i with Some w => match w_pc w with WrDone => true | _ => false end | None => true end.

Definition exec (s : sys) (e : event) : outcome sys :=
  match e with
  | EvRead i n =>
      Ret (if reader_idle s i
           then mkSys (vb s) (<[i := mkRd n [] RdLoadHead]> (readers s)) (writers s) (reserved s) (claimed s)
           else s)
  | EvReader i =>
      match readers s !! i with
      | None => Ret s
      | Some r =>
          let! (b, r', c) := read_step (vb s) r in
          Ret (mkSys b (<[i := r']> (readers s)) (writers s) (reserved s) (claimed s ++ c))
      end
  | EvWrite i bytes =>
      Ret (if writer_idle s i
           then mkSys (vb s) (readers s) (<[i := mkWr bytes 0 WrLoadResv]> (writers s)) (reserved s) (claimed s)
           else s)
  | EvWriter i =>
      match writers s !! i with
      | None => Ret s
      | Some w =>
          let! (b, w', c) := write_step (vb s) w in
          Ret (mkSys b (readers s) (<[i := w']> (writers s)) (reserved s ++ c) (claimed s))
      end
  end.

Fixpoint run (s : sys) (es : list event) : outcome sys :=
  match es with
  | [] => Ret s
  | e :: es' => let! s' := exec s e in run s' es'
  end.

Inductive sys_step : sys -> sys -> Prop :=
| sys_step_exec s e s' : exec s e = Ret s' -> sys_step s s'.

Definition init : sys := mkSys VB_new ∅ ∅ [] [].
End buffer.

(** ** The circle *)
Section circle.
Context (N : Z) (HN : 1 <= N).

(** Where stream position [p] lives. *)
Definition pos (p : Z) : nat := Z.to_nat (p mod N).

Lemma pos_lt p : (pos p < Z.to_nat N)%nat.
Proof. unfold pos. pose proof (Z.mod_pos_bound p N). lia. Qed.

Lemma pos_add t i :
  0 <= i <= N ->
  pos (t + i) = if decide (t mod N + i < N) then (pos t + Z.to_nat i)%nat else Z.to_nat (t mod N + i - N).
Proof.
  intros Hi. unfold pos. pose proof (Z.mod_pos_bound t N ltac:(lia)).
  assert ((t + i) mod N = (t mod N + i) mod N) as E by (rewrite Zplus_mod_idemp_l; done).
  rewrite E. case_decide.
  - rewrite Z.mod_small by lia. lia.
  - f_equal. rewrite <- (Z_mod_plus_full _ (-1)). rewrite Z.mod_small by lia. lia.
Qed.

Lemma pos_inj t p q : t <= p < t + N -> t <= q < t + N -> pos p = pos q -> p = q.
Proof.
  intros Hp Hq E. unfold pos in E.
  pose proof (Z.mod_pos_bound p N). pose proof (Z.mod_pos_bound q N).
  pose proof (Z.div_mod p N). pose proof (Z.div_mod q N).
  assert (p mod N = q mod N) by lia.
  assert (p / N = q / N); [|nia]. destruct (Z.lt_trichotomy (p / N) (q / N)) as [?|[?|?]]; nia.
Qed.

Lemma read_from_circle_spec buf n t :
  length buf = Z.to_nat N -> Z.of_nat n <= N ->
  let r := read_from_circle buf n (pos t) in
  length r = n /\ forall i, (i < n)%nat -> r !! i = buf !! pos (t + Z.of_nat i).
Proof.
  intros Hl Hn. pose proof (pos_lt t). unfold read_from_circle. rewrite length_drop, length_take.
  cbv zeta. split.
  { rewrite length_app, !length_take, length_drop. lia. }
  intros i Hi. rewrite pos_add by lia. assert (pos t = Z.to_nat (t mod N)) as Ep by done.
  pose proof (Z.mod_pos_bound t N ltac:(lia)). case_decide.
  - rewrite lookup_app_l by (rewrite length_take, length_drop; lia).
    rewrite lookup_take_lt, lookup_drop by lia. f_equal. lia.
  - rewrite lookup_app_r by (rewrite length_take, length_drop; lia). rewrite length_take, length_drop.
    rewrite lookup_take_lt by lia. rewrite lookup_take_lt by lia. f_equal. lia.
Qed.

Lemma write_to_circle_spec buf src t :
  length buf = Z.to_nat N -> zlen src <= N ->
  let (buf', n) := write_to_circle buf src (pos t) in
  n = length src /\ length buf' = Z.to_nat N /\
  (forall i, (i < length src)%nat -> buf' !! pos (t + Z.of_nat i) = src !! i) /\
  (forall q, (forall i, (i < length src)%nat -> q <> pos (t + Z.of_nat i)) -> buf' !! q = buf !! q).
Proof.
  intros Hl Hn. unfold zlen in Hn. pose proof (pos_lt t) as Hp. unfold write_to_circle.
  rewrite length_drop, length_take. set (fl := Nat.min (length buf - pos t) (length src)).
  set (sl := Nat.min (Nat.min (pos t) (length buf)) (length src - fl)).
  assert (pos t = Z.to_nat (t mod N)) as Ep by done. pose proof (Z.mod_pos_bound t N ltac:(lia)).
  assert (length (take sl (drop fl src)) = sl) as L1 by (rewrite length_take, length_drop; lia).
  assert (length (drop sl (take (pos t) buf)) = (pos t - sl)%nat) as L2 by (rewrite length_drop, length_take; lia).
  assert (length (take fl src) = fl) as L3 by (rewrite length_take; lia).
  split_and!.
  - lia.
  - rewrite !length_app, L1, L2, L3, length_drop, length_drop. lia.
  - intros i Hi. rewrite pos_add by lia. case_decide.
    + rewrite lookup_app_r, L1 by lia. rewrite lookup_app_r, L2 by lia.
      rewrite lookup_app_l by (rewrite L3; lia). rewrite lookup_take_lt by lia. f_equal. lia.
    + rewrite lookup_app_l by (rewrite L1; lia). rewrite lookup_take_lt, lookup_drop by lia. f_equal. lia.
  - intros q Hq. destruct (decide (q < sl)%nat) as [Hs|Hs].
    { exfalso. apply (Hq (fl + q)%nat); [lia|]. rewrite pos_add by lia. rewrite decide_False by lia. lia. }
    rewrite lookup_app_r, L1 by lia. destruct (decide (q < pos t)%nat) as [Hs2|Hs2].
    { rewrite lookup_app_l by (rewrite L2; lia). rewrite lookup_drop, lookup_take_lt by lia. f_equal. lia. }
    rewrite lookup_app_r, L2 by lia. destruct (decide (q < pos t + fl)%nat) as [Hs3|Hs3].
    { exfalso. apply (Hq (q - pos t)%nat); [lia|]. rewrite pos_add by lia. rewrite decide_True by lia. lia. }
    rewrite lookup_app_r, L3 by lia. rewrite !lookup_drop. f_equal. lia.
Qed.
End circle.
End VolatileBuffer.
