(* ===== verification/VolatileBufferInv.v ===== *)
(** * The byte buffer's invariant and its stream property

    Writers own disjoint reserved ranges; between [tail] and [head] the circle holds
    the reserved bytes at their positions; a reader whose compare-exchange can still
    succeed holds the bytes at its position.  Every step of [VolatileBuffer.sys_step]
    keeps this while fewer than [2^64] bytes have been reserved. *)
From S2P Require Import Prelude VolatileBuffer.

#[local] Open Scope Z_scope.

Module VolatileBufferInv.
Import VolatileBuffer.

Section inv.
Context `{Build} (N : Z) (HN : 1 <= N) (HN64 : N < 2 ^ 64).

Definition stream (log : list Z) (t : Z) (n : nat) : list Z := take n (drop (Z.to_nat t) log).

(** The circle holds the log on [[a, b)]. *)
Definition holds (buf log : list Z) (a b : Z) : Prop :=
  forall p, a <= p < b -> buf !! pos N p = log !! Z.to_nat p.

Definition range (pc : wr_pc) : option (Z * nat) :=
  match pc with WrSpin r n | WrCopy r n | WrAdd r n => Some (r, n) | _ => None end.

(** A reserved range still to be published. *)
Definition range_ok (b : VB) (log : list Z) (w : writer) (r : Z) (n : nat) : Prop :=
  head b <= r /\ r + Z.of_nat n <= reserve b /\ (0 < n <= length (rest w))%nat /\
  stream log r n = take n (rest w).

Definition writer_ok (b : VB) (log : list Z) (w : writer) : Prop :=
  match w_pc w with
  | WrLoadResv | WrDone => True
  | WrLoadTail r => 0 <= r <= reserve b /\ rest w <> []
  | WrCas r n => 0 <= r <= reserve b /\ (0 < n <= length (rest w))%nat /\
      (r = reserve b -> r + Z.of_nat n <= tail b + N - 1)
  | WrSpin r n => range_ok b log w r n
  | WrCopy r n => range_ok b log w r n /\ r = head b
  | WrAdd r n => range_ok b log w r n /\ r = head b /\ holds (buffer b) log r (r + Z.of_nat n)
  end.

Definition reader_ok (b : VB) (log : list Z) (rd : reader) : Prop :=
  match r_pc rd with
  | RdLoadHead | RdDone => True
  | RdLoadTail h => 0 <= h <= head b
  | RdCopy h t => 0 <= t <= tail b /\ t <= h <= head b
  | RdCas t data => 0 <= t <= tail b /\
      (tail b = t -> t + zlen data <= head b /\ data = stream log t (length data))
  end.

Definition disjoint_ranges (ws : gmap nat writer) : Prop :=
  forall i j w w' r n r' n', i <> j -> ws !! i = Some w -> ws !! j = Some w' ->
    range (w_pc w) = Some (r, n) -> range (w_pc w') = Some (r', n') ->
    r + Z.of_nat n <= r' \/ r' + Z.of_nat n' <= r.

Record Inv_at (b : VB) (rs : gmap nat reader) (ws : gmap nat writer) (log cl : list Z) : Prop := {
  i_len : length (buffer b) = Z.to_nat N;
  i_win : 0 <= tail b <= head b /\ head b <= reserve b <= tail b + N - 1;
  i_log : reserve b = zlen log;
  i_max : reserve b < 2 ^ 64;
  i_data : holds (buffer b) log (tail b) (head b);
  i_claim : cl = take (Z.to_nat (tail b)) log;
  i_disj : disjoint_ranges ws;
  i_writers : map_Forall (fun _ w => writer_ok b log w) ws;
  i_readers : map_Forall (fun _ r => reader_ok b log r) rs }.

Definition Inv (s : sys) : Prop := Inv_at (vb s) (readers s) (writers s) (reserved s) (claimed s).

(** ** Streams *)
Lemma stream_app log l t n : t + Z.of_nat n <= zlen log -> 0 <= t -> stream (log ++ l) t n = stream log t n.
Proof.
  intros Hn Ht. unfold stream, zlen in *. rewrite drop_app_le by lia. rewrite take_app_le; [done|].
  rewrite length_drop. lia.
Qed.

Lemma stream_lookup log t n i : (i < n)%nat -> 0 <= t -> stream log t n !! i = log !! Z.to_nat (t + Z.of_nat i).
Proof. intros Hi Ht. unfold stream. rewrite lookup_take_lt, lookup_drop by done. f_equal. lia. Qed.

Lemma stream_length log t n : 0 <= t -> t + Z.of_nat n <= zlen log -> length (stream log t n) = n.
Proof. intros. unfold stream, zlen in *. rewrite length_take, length_drop. lia. Qed.

Lemma take_stream log t n : 0 <= t -> t + Z.of_nat n <= zlen log ->
  take (Z.to_nat t) log ++ stream log t n = take (Z.to_nat (t + Z.of_nat n)) log.
Proof.
  intros. unfold stream, zlen in *. replace (Z.to_nat (t + Z.of_nat n)) with (Z.to_nat t + n)%nat by lia.
  apply take_take_drop.
Qed.

Lemma holds_app buf log l a b : b <= zlen log -> 0 <= a -> holds buf log a b -> holds buf (log ++ l) a b.
Proof.
  intros Hb Ha Hh p Hp. rewrite Hh by done. symmetry. apply lookup_app_l. unfold zlen in *. lia.
Qed.

(** Longer logs and larger counters keep the threads' facts. *)
Lemma reader_ok_mono b b' log l rd :
  tail b <= tail b' -> head b <= head b' -> head b <= zlen log ->
  reader_ok b log rd -> reader_ok b' (log ++ l) rd.
Proof.
  intros Ht Hh Hl Hok. unfold reader_ok in *. destruct (r_pc rd) as [|h|h t|t data|]; try done; try lia.
  destruct Hok as [? Hd]. split; [lia|]. intros E. destruct Hd as [? ->]; [lia|].
  rewrite stream_length by (unfold zlen in *; lia). split; [unfold zlen in *; rewrite stream_length; (lia || unfold zlen; lia)|].
  symmetry. apply stream_app; unfold zlen in *; lia.
Qed.

Lemma writer_ok_tail b log w t' :
  tail b <= t' -> writer_ok b log w -> writer_ok (mkVB (reserve b) (head b) t' (buffer b)) log w.
Proof.
  intros Ht Hok. unfold writer_ok, range_ok in *. destruct (w_pc w); simpl; try done.
  destruct Hok as (? & ? & Hr). split_and!; try tauto. intros E. specialize (Hr E). lia.
Qed.

(** ** Readers *)
Lemma Inv_reader_quiet b rs ws log cl i r' :
  Inv_at b rs ws log cl -> reader_ok b log r' -> Inv_at b (<[i := r']> rs) ws log (cl ++ []).
Proof. intros [] Hr. rewrite app_nil_r. split; auto. by apply map_Forall_insert_2. Qed.

Lemma read_step_inv b rs ws log cl i r b' r' c :
  Inv_at b rs ws log cl -> rs !! i = Some r -> read_step N b r = Ret (b', r', c) ->
  Inv_at b' (<[i := r']> rs) ws log (cl ++ c).
Proof.
  intros HI Hi Hs. pose proof HI as []. pose proof (i_readers0 i r Hi) as Hok. simpl in Hok.
  unfold read_step, reader_ok in *. destruct (r_pc r) as [|h|h t|t data|] eqn:Er.
  - apply Ret_triple in Hs as (<- & <- & <-). apply Inv_reader_quiet; [done|]. unfold reader_ok. simpl.
    destruct (Nat.eqb _ _); [done|lia].
  - destruct (tail b =? h) eqn:E.
    { apply Ret_triple in Hs as (<- & <- & <-). by apply Inv_reader_quiet. }
    destruct (tail b <=? h) eqn:E'; cbn [rassert obind] in Hs; [|done].
    apply Ret_triple in Hs as (<- & <- & <-). apply Inv_reader_quiet; [done|]. unfold reader_ok. simpl. lia.
  - apply Ret_triple in Hs as (<- & <- & <-). apply Inv_reader_quiet; [done|]. unfold reader_ok. simpl.
    split; [lia|]. intros Et. subst t. set (n := Nat.min (want r) (Z.to_nat (h - tail b))).
    fold (pos N (tail b)). destruct (read_from_circle_spec N HN (buffer b) n (tail b)) as [Hlen Hget]; [done|lia|].
    unfold zlen. rewrite Hlen. split; [lia|]. apply list_eq. intros k.
    destruct (decide (k < n)%nat) as [Hk|Hk].
    + rewrite Hget, stream_lookup by lia. apply i_data0. lia.
    + rewrite !lookup_ge_None_2; [done| |lia]. rewrite stream_length; (lia || unfold zlen in *; lia).
  - destruct Hok as [Ht Hd]. destruct (tail b =? t) eqn:E.
    + apply Z.eqb_eq in E. destruct (Hd E) as [Hle Hdata]. unfold zlen in Hle.
      rewrite chk_in in Hs by lia. cbn [obind] in Hs. apply Ret_triple in Hs as (<- & <- & <-).
      split; simpl; auto; try lia.
      * intros p Hp. apply i_data0. lia.
      * rewrite i_claim0, E, Hdata at 1. rewrite take_stream; [done|lia|unfold zlen in *; lia].
      * eapply map_Forall_impl; [exact i_writers0|]. intros j w Hw. apply writer_ok_tail; [lia|done].
      * apply map_Forall_insert_2; [done|]. eapply map_Forall_impl; [exact i_readers0|].
        intros j rd Hrd. rewrite <- (app_nil_r log). eapply reader_ok_mono; [| | |exact Hrd]; simpl; lia.
    + destruct (chk 64 (t + Z.of_nat (length data))); cbn [obind] in Hs; [|done..].
      apply Ret_triple in Hs as (<- & <- & <-). by apply Inv_reader_quiet.
  - apply Ret_triple in Hs as (<- & <- & <-). apply Inv_reader_quiet; [done|]. unfold reader_ok. by rewrite Er.
Qed.

(** ** Writers *)
Lemma disjoint_insert ws i w' :
  disjoint_ranges ws ->
  (forall r n j w r2 n2, range (w_pc w') = Some (r, n) -> j <> i -> ws !! j = Some w ->
     range (w_pc w) = Some (r2, n2) -> r + Z.of_nat n <= r2 \/ r2 + Z.of_nat n2 <= r) ->
  disjoint_ranges (<[i := w']> ws).
Proof.
  intros Hd Hnew j k wj wk r n r2 n2 Hjk
    [[<- <-]|[Hj Hwj]]%lookup_insert_Some [[<- <-]|[Hk Hwk]]%lookup_insert_Some Rj Rk.
  - done.
  - by eapply Hnew.
  - destruct (Hnew _ _ _ _ _ _ Rk ltac:(done) Hwj Rj); lia.
  - by eapply (Hd j k).
Qed.

Lemma disjoint_same ws i w w' :
  disjoint_ranges ws -> ws !! i = Some w ->
  (range (w_pc w') = None \/ range (w_pc w') = range (w_pc w)) -> disjoint_ranges (<[i := w']> ws).
Proof.
  intros Hd Hi Hr. apply disjoint_insert; [done|]. intros r n j wj r2 n2 R Hj Hwj R2.
  destruct Hr as [Hr|Hr]; rewrite Hr in R; [done|].
  by apply (Hd i j w wj r n r2 n2).
Qed.

Lemma Inv_writer_quiet b rs ws log cl i w w' :
  Inv_at b rs ws log cl -> ws !! i = Some w ->
  (range (w_pc w') = None \/ range (w_pc w') = range (w_pc w)) -> writer_ok b log w' ->
  Inv_at b rs (<[i := w']> ws) (log ++ []) cl.
Proof.
  intros [] Hi Hr Hw. rewrite app_nil_r. split; auto; [by eapply disjoint_same|].
  by apply map_Forall_insert_2.
Qed.

(** Two writers cannot both own the head. *)
Lemma head_owner b rs ws log cl i j w w' r n n' :
  Inv_at b rs ws log cl -> ws !! i = Some w -> ws !! j = Some w' ->
  range (w_pc w) = Some (r, n) -> range (w_pc w') = Some (r, n') -> (0 < n)%nat -> (0 < n')%nat -> i = j.
Proof.
  intros [] Hi Hj Hr Hr' ? ?. destruct (decide (i = j)) as [|Hne]; [done|].
  destruct (i_disj0 i j w w' r n r n' Hne Hi Hj Hr Hr'); lia.
Qed.

Lemma Inv_writer_reserve b rs ws log cl i w n :
  Inv_at b rs ws log cl -> ws !! i = Some w -> range (w_pc w) = None -> (0 < n <= length (rest w))%nat ->
  reserve b + Z.of_nat n <= tail b + N - 1 -> reserve b + Z.of_nat n < 2 ^ 64 ->
  Inv_at (mkVB (reserve b + Z.of_nat n) (head b) (tail b) (buffer b)) rs
    (<[i := w_goto w (WrSpin (reserve b) n)]> ws) (log ++ take n (rest w)) cl.
Proof.
  intros [] Hi Hr Hn Hroom Hmax.
  assert (zlen (take n (rest w)) = Z.of_nat n) as Hzl by (unfold zlen; rewrite length_take; lia).
  split; simpl; auto; try lia.
  - rewrite zlen_app. lia.
  - apply holds_app; [lia|lia|done].
  - rewrite i_claim0. symmetry. apply take_app_le. unfold zlen in *. lia.
  - apply disjoint_insert; [done|]. intros r n1 j wj r2 n2 [= <- <-] Hj Hwj R2. right.
    specialize (i_writers0 j wj Hwj). simpl in i_writers0. unfold writer_ok, range_ok in i_writers0.
    destruct (w_pc wj); simplify_eq/=; lia.
  - apply map_Forall_insert_2.
    + unfold writer_ok, range_ok. simpl. split_and!; try lia.
      unfold stream. rewrite i_log0. rewrite drop_app_length' by (unfold zlen; lia). rewrite take_ge; [done|].
      rewrite length_take. lia.
    + eapply map_Forall_impl; [exact i_writers0|]. intros j wj Hwj. unfold writer_ok, range_ok in *. simpl.
      destruct (w_pc wj); try done; simpl in *; try (destruct_and!; split_and!; try (done || lia)).
      all: try (rewrite stream_app by lia; done).
      apply holds_app; (done || lia).
  - eapply map_Forall_impl; [exact i_readers0|]. intros j rd Hrd. eapply reader_ok_mono; [| | |exact Hrd]; simpl; lia.
Qed.

Lemma Inv_writer_copy b rs ws log cl i w n :
  Inv_at b rs ws log cl -> ws !! i = Some w -> w_pc w = WrCopy (head b) n ->
  exists buf', write_to_circle (buffer b) (take n (rest w)) (Z.to_nat (head b mod N)) = (buf', n) /\
  Inv_at (mkVB (reserve b) (head b) (tail b) buf') rs (<[i := w_goto w (WrAdd (head b) n)]> ws) (log ++ []) cl.
Proof.
  intros HI Hi Hpc. pose proof HI as []. rewrite app_nil_r.
  pose proof (i_writers0 i w Hi) as Hok. simpl in Hok. unfold writer_ok, range_ok in Hok. rewrite Hpc in Hok.
  destruct Hok as [(Hh & Hle & Hn & Hst) _].
  assert (length (take n (rest w)) = n) as Hlt by (rewrite length_take; lia).
  pose proof (write_to_circle_spec N HN (buffer b) (take n (rest w)) (head b) i_len0) as Hwr.
  fold (pos N (head b)). destruct (write_to_circle _ _ _) as [buf' n'].
  destruct Hwr as (Hn' & Hl & Hin & Hout); [unfold zlen; lia|]. rewrite Hlt in Hn', Hin, Hout. subst n'.
  exists buf'. split; [done|].
  assert (forall p, tail b <= p < tail b + N -> ~ (head b <= p < head b + Z.of_nat n) ->
    buf' !! pos N p = buffer b !! pos N p) as Hkeep.
  { intros p Hp Hnp. apply Hout. intros k Hk E. apply Hnp.
    apply (pos_inj N HN (tail b)) in E; [|lia|lia]. lia. }
  split; simpl; auto.
  - intros p Hp. rewrite Hkeep by lia. by apply i_data0.
  - eapply disjoint_same; [done|done|]. right. by rewrite Hpc.
  - apply map_Forall_insert_2.
    + unfold writer_ok, range_ok. simpl. split_and!; try (done || lia).
      intros p Hp. specialize (Hin (Z.to_nat (p - head b)) ltac:(lia)).
      replace (head b + Z.of_nat (Z.to_nat (p - head b))) with p in Hin by lia. rewrite Hin, <- Hst.
      rewrite stream_lookup by lia. f_equal. lia.
    + intros j wj Hwj. destruct (decide (j = i)) as [->|Hne].
      * simplify_eq. unfold writer_ok, range_ok. rewrite Hpc. simpl. split_and!; (done || lia).
      * pose proof (i_writers0 j wj Hwj) as Hj. simpl in Hj. unfold writer_ok, range_ok in *.
        destruct (w_pc wj) as [| | | | |rj nj|] eqn:Ej; try done. exfalso. apply Hne. destruct Hj as [Hj [-> _]].
        eapply (head_owner b rs ws log cl j i wj w (head b) nj n HI Hwj Hi); [by rewrite Ej|by rewrite Hpc|lia|lia].
Qed.

Lemma Inv_writer_add b rs ws log cl i w n :
  Inv_at b rs ws log cl -> ws !! i = Some w -> w_pc w = WrAdd (head b) n ->
  Inv_at (mkVB (reserve b) (head b + Z.of_nat n) (tail b) (buffer b)) rs
    (<[i := mkWr (drop n (rest w)) (count w + n) WrLoadResv]> ws) (log ++ []) cl.
Proof.
  intros HI Hi Hpc. pose proof HI as []. rewrite app_nil_r.
  pose proof (i_writers0 i w Hi) as Hok. simpl in Hok. unfold writer_ok, range_ok in Hok. rewrite Hpc in Hok.
  destruct Hok as [(Hh & Hle & Hn & Hst) [_ Hholds]].
  split; simpl; auto; try lia.
  - intros p Hp. destruct (decide (p < head b)); [apply i_data0; lia|apply Hholds; lia].
  - eapply disjoint_same; [done|done|]. by left.
  - intros j wj Hwj. apply lookup_insert_Some in Hwj as [[<- <-]|[Hne Hwj]]; [done|].
    pose proof (i_writers0 j wj Hwj) as Hj. simpl in Hj.
    assert (forall rj nj, range (w_pc wj) = Some (rj, nj) -> range_ok b log wj rj nj ->
      head b + Z.of_nat n <= rj) as Hmove.
    { intros rj nj Rj (? & ? & ? & _).
      destruct (i_disj0 i j w wj (head b) n rj nj) as [|]; try done; [by rewrite Hpc|lia]. }
    unfold writer_ok, range_ok in *. simpl.
    destruct (w_pc wj) as [| | |rj nj|rj nj|rj nj|]; try done; simpl in *;
      specialize (Hmove rj nj eq_refl); destruct_and!; specialize (Hmove ltac:(split_and!; (done || lia)));
      split_and!; (done || lia).
  - eapply map_Forall_impl; [exact i_readers0|]. intros j rd Hrd. rewrite <- (app_nil_r log).
    eapply reader_ok_mono; [| | |exact Hrd]; simpl; lia.
Qed.

Lemma write_step_inv b rs ws log cl i w b' w' c :
  Inv_at b rs ws log cl -> ws !! i = Some w -> write_step N b w = Ret (b', w', c) ->
  zlen (log ++ c) < 2 ^ 64 -> Inv_at b' rs (<[i := w']> ws) (log ++ c) cl.
Proof.
  intros HI Hi Hs Hlim. pose proof HI as []. pose proof (i_writers0 i w Hi) as Hok. simpl in Hok.
  unfold write_step in Hs. unfold writer_ok in Hok. destruct (w_pc w) as [|r|r n|r n|r n|r n|] eqn:Ew.
  - apply Ret_triple in Hs as (<- & <- & <-).
    eapply Inv_writer_quiet; [done|done| |]; destruct (Nat.eqb _ 0) eqn:E; try (by left); unfold writer_ok; simpl; [done|].
    split; [lia|]. intros E'. by rewrite E' in E.
  - destruct (chk 64 (r - tail b)) as [used| |] eqn:Eu; cbn [obind] in Hs; [|done..].
    destruct (chk 64 (N - 1 - used)) as [avail| |] eqn:Ea; cbn [obind] in Hs; [|done..].
    apply Ret_triple in Hs as (<- & <- & <-). destruct Hok as [Hr Hne].
    eapply Inv_writer_quiet; [done|done| |]; destruct (avail =? 0) eqn:E; try (by left); unfold writer_ok; simpl; [done|].
    assert (0 <= avail) by (by eapply chk_range; [|exact Ea]).
    assert (length (rest w) <> 0%nat) by (by intros ?%nil_length_inv).
    split_and!; try lia. intros Er. rewrite chk_in in Eu by lia. injection Eu as <-.
    rewrite chk_in in Ea by lia. injection Ea as <-. lia.
  - destruct Hok as (Hr & Hn & Hroom). destruct (reserve b =? r) eqn:E.
    + apply Z.eqb_eq in E. subst r. specialize (Hroom eq_refl).
      assert (reserve b + Z.of_nat n < 2 ^ 64).
      { destruct (chk 64 (reserve b + Z.of_nat n)); cbn [obind] in Hs; [|done..].
        apply Ret_triple in Hs as (_ & _ & <-). rewrite zlen_app in Hlim.
        unfold zlen at 2 in Hlim. rewrite length_take in Hlim. lia. }
      rewrite chk_in in Hs by lia. cbn [obind] in Hs. apply Ret_triple in Hs as (<- & <- & <-).
      apply Inv_writer_reserve; try (done || lia). by rewrite Ew.
    + destruct (chk 64 (r + Z.of_nat n)); cbn [obind] in Hs; [|done..].
      apply Ret_triple in Hs as (<- & <- & <-). eapply Inv_writer_quiet; [done|done|by left|done].
  - apply Ret_triple in Hs as (<- & <- & <-). eapply Inv_writer_quiet; [done|done| |].
    + right. rewrite Ew. by destruct (head b =? r).
    + unfold writer_ok. destruct (head b =? r) eqn:E; simpl; [split; [done|lia]|done].
  - destruct Hok as [Hok ->]. destruct (Inv_writer_copy b rs ws log cl i w n HI Hi Ew) as (buf' & E & HI').
    rewrite E in Hs. apply Ret_triple in Hs as (<- & <- & <-). done.
  - destruct Hok as ((? & ? & ? & ?) & -> & _). rewrite wrap_small in Hs by lia.
    apply Ret_triple in Hs as (<- & <- & <-). by apply Inv_writer_add.
  - apply Ret_triple in Hs as (<- & <- & <-). eapply Inv_writer_quiet; [done|done|by right|]. unfold writer_ok. by rewrite Ew.
Qed.

Lemma vb_exec_inv s s' e :
  Inv s -> exec N s e = Ret s' -> zlen (reserved s') < 2 ^ 64 -> Inv s'.
Proof.
  intros HI He Hlim. unfold Inv in *. destruct e as [i n|i|i bytes|i]; cbn [exec] in He.
  - apply Ret_inj in He as <-. destruct (reader_idle s i); [|done]. simpl.
    rewrite <- (app_nil_r (claimed s)). by apply Inv_reader_quiet.
  - destruct (readers s !! i) as [r|] eqn:Ei; [|by apply Ret_inj in He as <-].
    destruct (read_step N (vb s) r) as [[[b r'] c]| |] eqn:Es; cbn [obind] in He; [|done..].
    apply Ret_inj in He as <-. by eapply read_step_inv.
  - apply Ret_inj in He as <-. destruct (writer_idle s i) eqn:Ei; [|done]. simpl.
    destruct HI. split; auto.
    + apply disjoint_insert; [done|]. intros r n0 j w r2 n2 [=].
    + by apply map_Forall_insert_2.
  - destruct (writers s !! i) as [w|] eqn:Ei; [|by apply Ret_inj in He as <-].
    destruct (write_step N (vb s) w) as [[[b w'] c]| |] eqn:Es; cbn [obind] in He; [|done..].
    apply Ret_inj in He as <-. by eapply write_step_inv.
Qed.

Lemma vb_reserved_mono s s' e : exec N s e = Ret s' -> reserved s `prefix_of` reserved s'.
Proof.
  intros He. destruct e as [i n|i|i bytes|i]; cbn [exec] in He.
  - apply Ret_inj in He as <-. by destruct (reader_idle s i).
  - destruct (readers s !! i) as [r|]; [|by apply Ret_inj in He as <-].
    destruct (read_step N (vb s) r) as [[[b r'] c]| |]; cbn [obind] in He; [|done..]. by apply Ret_inj in He as <-.
  - apply Ret_inj in He as <-. by destruct (writer_idle s i).
  - destruct (writers s !! i) as [w|]; [|by apply Ret_inj in He as <-].
    destruct (write_step N (vb s) w) as [[[b w'] c]| |]; cbn [obind] in He; [|done..].
    apply Ret_inj in He as <-. by eexists.
Qed.

Lemma vb_init_inv : Inv (init N).
Proof.
  split; simpl; auto; try done; try lia.
  - apply length_replicate.
  - intros p Hp. lia.
Qed.

Lemma vb_reachable_inv s :
  rtc (sys_step N) (init N) s -> zlen (reserved s) < 2 ^ 64 -> Inv s.
Proof.
  intros Hr. apply (rtc_invariant (sys_step N) (fun s => zlen (reserved s) < 2 ^ 64 -> Inv s) (init N)); [| |done].
  - intros _. apply vb_init_inv.
  - intros a c IH Hstep Hlim. destruct Hstep as [s1 e s2 He]. eapply vb_exec_inv; [|done|done].
    apply IH. apply vb_reserved_mono, prefix_length in He. unfold zlen in *. lia.
Qed.

Lemma vb_run_reachable s s' es : run N s es = Ret s' -> rtc (sys_step N) s s'.
Proof.
  revert s. induction es as [|e es IH]; intros s Hr; simpl in Hr; [by simplify_eq|].
  destruct (exec N s e) as [s1| |] eqn:E; simpl in Hr; [|done..].
  eapply rtc_l; [by econstructor|by apply IH].
Qed.
End inv.

(** The buffer is a byte stream.  For every interleaving of any number of readers and
    writers, in both build profiles, the bytes the readers have claimed, in the order of
    their claims, are the first bytes the writers reserved, in the order of their
    reservations; at most [N - 1] bytes are reserved and unclaimed, and every published
    byte not yet claimed is intact in the circle. *)
Theorem vb_stream `{Build} (N : Z) (s : sys) :
  1 <= N < 2 ^ 64 -> rtc (sys_step N) (init N) s -> zlen (reserved s) < 2 ^ 64 ->
  claimed s = take (Z.to_nat (tail (vb s))) (reserved s) /\
  tail (vb s) <= head (vb s) <= zlen (reserved s) /\ zlen (reserved s) <= tail (vb s) + (N - 1) /\
  forall p, tail (vb s) <= p < head (vb s) ->
    buffer (vb s) !! Z.to_nat (p mod N) = reserved s !! Z.to_nat p.
Proof.
  intros HN Hr Hlim. destruct (vb_reachable_inv N) with (s := s) as []; try (done || lia).
  split_and!; try (done || lia).
Qed.

(** A writer, then a reader, of a circle of eight bytes. *)
Definition vb_demo_schedule : list event :=
  [EvWrite 0 [5; 6; 7]; EvRead 0 2] ++ replicate 7 (EvWriter 0) ++ replicate 6 (EvReader 0).

Definition vb_demo : sys := ret_or (init 8) (run (H := true) 8 (init 8) vb_demo_schedule).

Lemma vb_stream_witness :
  claimed vb_demo = [5; 6] /\ tail (vb vb_demo) = 2 /\
  claimed vb_demo = take (Z.to_nat (tail (vb vb_demo))) (reserved vb_demo).
Proof.
  split; [by vm_compute|]. split; [by vm_compute|]. apply (vb_stream (H := true) 8).
  - lia.
  - apply (vb_run_reachable (H := true) 8 _ _ vb_demo_schedule). by vm_compute.
  - by vm_compute.
Defined.

(** Reader 0 loads [head]; a byte is written and reader 1 takes it; reader 0 goes on. *)
Definition stale_read : list event :=
  [EvRead 0 1; EvReader 0; EvWrite 0 [5]] ++ replicate 6 (EvWriter 0) ++
  [EvRead 1 1] ++ replicate 4 (EvReader 1) ++ [EvReader 0].

(** Two readers can fail the reader's assertion.  [read_bytes] loads [head] before
    [tail]; when another reader has claimed bytes published in between, [tail] is past that
    head and [assert!(head >= tail)] panics, in both build profiles. *)
Theorem read_bytes_stale_head : forall b : bool, run (H := b) 8 (init 8) stale_read = Panic.
Proof. intros []; by vm_compute. Qed.
End VolatileBufferInv.
