(* ===== verification/VolatileBufferSeq.v ===== *)
(** * [read_bytes] and [write_bytes] run to completion

    The step functions of [VolatileBuffer] iterated by one thread.  Run with nobody else
    touching the counters, [read_bytes] takes the front of the byte queue the buffer
    represents and [write_bytes] appends to its back, each in two passes of its loop at
    most, which is the fuel given. *)
From S2P Require Import Prelude VolatileBuffer.
Import VolatileBuffer.

#[local] Open Scope Z_scope.

Module VolatileBufferSeq.
Section seq.
Context `{Build} (N : Z).

Fixpoint read_loop (fuel : nat) (b : VB) (r : reader) : outcome (VB * list Z) :=
  match r_pc r with
  | RdDone => Ret (b, got r)
  | _ =>
      match fuel with
      | O => NoFuel
      | S f => let! (b', r', _) := read_step N b r in read_loop f b' r'
      end
  end.

(** The bytes read; their number is the count the code returns. *)
Definition read_bytes (b : VB) (n : nat) : outcome (VB * list Z) :=
  read_loop 6 b (mkRd n [] RdLoadHead).

Fixpoint write_loop (fuel : nat) (b : VB) (w : writer) : outcome (VB * nat) :=
  match w_pc w with
  | WrDone => Ret (b, count w)
  | _ =>
      match fuel with
      | O => NoFuel
      | S f => let! (b', w', _) := write_step N b w in write_loop f b' w'
      end
  end.

Definition write_bytes (b : VB) (bytes : list Z) : outcome (VB * nat) :=
  write_loop 8 b (mkWr bytes 0 WrLoadResv).

(** ** The byte queue a quiet buffer represents *)
Record vb_rep (b : VB) (c : list Z) : Prop := mkVbRep {
  vr_len : length (buffer b) = Z.to_nat N;
  vr_resv : reserve b = head b;
  vr_tail : 0 <= tail b;
  vr_head : head b = tail b + zlen c;
  vr_cap : zlen c <= N - 1;
  vr_bound : tail b + N < 2 ^ 64;
  vr_data : forall i, (i < length c)%nat -> buffer b !! pos N (tail b + Z.of_nat i) = c !! i }.

Lemma vb_rep_new : 1 <= N < 2 ^ 64 -> vb_rep (VB_new N) [].
Proof.
  intros. split; simpl; try done; unfold zlen; simpl; try lia. apply length_replicate.
Qed.

Lemma vb_rep_window b c n :
  vb_rep b c -> (n <= length c)%nat -> read_from_circle (buffer b) n (pos N (tail b)) = take n c.
Proof.
  intros [Hl _ _ _ Hc _ Hd] Hn. unfold zlen in Hc.
  destruct (read_from_circle_spec N ltac:(lia) (buffer b) n (tail b)) as [HL Hr]; [done|lia|].
  apply list_eq. intros i. destruct (decide (i < n)%nat) as [Hi|Hi].
  - rewrite Hr by done. rewrite lookup_take_lt by lia. apply Hd. lia.
  - rewrite !lookup_ge_None_2; [done|rewrite length_take; lia|lia].
Qed.

Lemma vb_rep_claim b c n :
  vb_rep b c -> (n <= length c)%nat -> tail b + Z.of_nat n + N < 2 ^ 64 ->
  vb_rep (mkVB (reserve b) (head b) (tail b + Z.of_nat n) (buffer b)) (drop n c).
Proof.
  intros [Hl Hr Ht Hh Hc Hb Hd] Hn Hb'. unfold zlen in *. split; cbn; rewrite ?length_drop; unfold zlen; rewrite ?length_drop; try lia.
  intros i Hi. rewrite lookup_drop. rewrite <- Hd by lia. do 2 f_equal. lia.
Qed.

(** A write of [bytes] at the head of a quiet buffer. *)
Lemma vb_rep_append b c bytes :
  vb_rep b c -> zlen c + zlen bytes <= N - 1 ->
  let (buf', n) := write_to_circle (buffer b) bytes (pos N (head b)) in
  n = length bytes /\
  vb_rep (mkVB (head b + zlen bytes) (head b + zlen bytes) (tail b) buf') (c ++ bytes).
Proof.
  intros [Hl Hr Ht Hh Hc Hb Hd] Hn. unfold zlen in *.
  pose proof (write_to_circle_spec N ltac:(lia) (buffer b) bytes (head b) Hl ltac:(unfold zlen; lia)) as Hw.
  destruct (write_to_circle _ _ _) as [buf' n]. destruct Hw as (-> & HL & Hin & Hout). split; [done|].
  split; cbn; unfold zlen; rewrite ?length_app; try lia.
  intros i Hi. destruct (decide (i < length c)%nat) as [Hi2|Hi2].
  - rewrite lookup_app_l by done. rewrite Hout; [by apply Hd|].
    intros j Hj E. apply (pos_inj N ltac:(lia) (tail b)) in E; lia.
  - rewrite lookup_app_r by lia. rewrite <- Hin by lia. do 2 f_equal. lia.
Qed.

Lemma read_empty_pass fuel b n got0 :
  vb_rep b [] -> read_loop (S (S fuel)) b (mkRd n got0 RdLoadHead) = Ret (b, got0).
Proof.
  intros [_ _ _ Hh _ _ _]. unfold zlen in Hh. cbn [length] in Hh.
  cbn [read_loop r_pc read_step want got obind]. destruct (Nat.eqb n 0); [by destruct fuel|].
  cbn [read_loop r_pc read_step want got]. zbool.
  by destruct fuel.
Qed.

(** [read_bytes], run alone, returns the first bytes queued and leaves the others. *)
Lemma read_bytes_alone b c n :
  vb_rep b c -> tail b + zlen c + N < 2 ^ 64 ->
  exists b', read_bytes b n = Ret (b', take n c) /\ vb_rep b' (drop n c) /\
    head b' = head b /\ tail b' = tail b + zlen (take n c).
Proof.
  intros Hv Hb. pose proof Hv as [Hl Hr Ht Hh Hc Hb' Hd]. unfold read_bytes.
  destruct (decide (n = 0%nat)) as [->|Hn].
  { exists b. rewrite take_0, drop_0. unfold zlen. simpl. split_and!; try done. lia. }
  destruct (decide (c = [])) as [->|Hc0].
  { exists b. rewrite take_nil, drop_nil. rewrite read_empty_pass by done. unfold zlen. simpl. split_and!; try done. lia. }
  assert (1 <= zlen c) by (destruct c; [done|]; unfold zlen; simpl; lia).
  cbn [read_loop r_pc read_step want got obind].
  replace (Nat.eqb n 0) with false by (symmetry; by apply Nat.eqb_neq).
  cbn [read_loop r_pc read_step want got obind].
  zbool.
  zbool.
  cbn [read_loop r_pc read_step want got obind rassert]. change (Z.to_nat (tail b mod N)) with (pos N (tail b)).
  set (k := Nat.min n (Z.to_nat (head b - tail b))).
  assert (k = Nat.min n (length c)) as Ek by (unfold k, zlen in *; lia).
  rewrite (vb_rep_window b c k Hv) by lia. cbn [app].
  assert (take k c = take n c) as Et.
  { rewrite Ek. rewrite <- take_take, (take_ge c (length c)) by lia. done. }
  assert (drop k c = drop n c) as Ed.
  { rewrite Ek. destruct (decide (n <= length c)%nat); [by rewrite Nat.min_l|]. rewrite Nat.min_r by lia. by rewrite !drop_ge by lia. }
  rewrite Et. assert (length (take n c) = k) as EL by (rewrite length_take; lia). rewrite EL. unfold zlen in *.
  rewrite chk_in by lia. cbn [obind]. rewrite Z.eqb_refl.
  pose proof (vb_rep_claim b c k Hv ltac:(lia) ltac:(lia)) as Hv'. rewrite Ed in Hv'.
  eexists. split; [|split; [exact Hv'|cbn; lia]].
  cbn [read_loop r_pc read_step want got obind].
  destruct (Nat.eqb (n - k) 0) eqn:E; [done|]. apply Nat.eqb_neq in E.
  assert (drop n c = []) as Ed0 by (apply drop_ge; lia). rewrite Ed0 in Hv'.
  pose proof (vr_head _ _ Hv') as Hh'. cbn in Hh'. unfold zlen in Hh'. cbn in Hh'.
  cbn [read_loop r_pc read_step want got obind tail head].
  zbool. done.
Qed.

Lemma write_loop_S f b w :
  w_pc w <> WrDone ->
  write_loop (S f) b w = let! (b', w', _) := write_step N b w in write_loop f b' w'.
Proof. intros Hw. cbn [write_loop]. by destruct (w_pc w). Qed.

Ltac wstep := cbn [obind]; rewrite write_loop_S by done; unfold write_step at 1.

Lemma write_full_pass fuel b c bytes k :
  vb_rep b c -> zlen c = N - 1 -> write_loop (S (S fuel)) b (mkWr bytes k WrLoadResv) = Ret (b, k).
Proof.
  intros [_ Hr Ht Hh _ Hb _] Hc. wstep; cbn [w_pc write_step w_goto rest count obind].
  destruct (Nat.eqb (length bytes) 0); [by destruct fuel|].
  wstep; cbn [w_pc write_step w_goto rest count obind]. pose proof (zlen_nonneg c).
  rewrite chk_in by lia. cbn [obind]. rewrite chk_in by lia. cbn [obind]. zbool. by destruct fuel.
Qed.

(** [write_bytes], run alone, appends as many bytes as fit and returns their number. *)
Lemma write_bytes_alone b c bytes :
  vb_rep b c ->
  let k := Nat.min (length bytes) (Z.to_nat (N - 1 - zlen c)) in
  exists b', write_bytes b bytes = Ret (b', k) /\ vb_rep b' (c ++ take k bytes) /\ tail b' = tail b.
Proof.
  intros Hv k. pose proof Hv as [Hl Hr Ht Hh Hc Hb Hd]. pose proof (zlen_nonneg c). unfold write_bytes.
  destruct (decide (length bytes = 0%nat)) as [Hn|Hn].
  { exists b. replace k with 0%nat by lia. rewrite take_0, app_nil_r.
    wstep; cbn [w_pc write_step w_goto rest count obind]. by rewrite Hn. }
  destruct (decide (zlen c = N - 1)) as [Hf|Hf].
  { exists b. replace k with 0%nat by lia. rewrite take_0, app_nil_r. by erewrite write_full_pass. }
  wstep; cbn [w_pc write_step w_goto rest count obind].
  replace (Nat.eqb (length bytes) 0) with false by (symmetry; by apply Nat.eqb_neq).
  wstep; cbn [w_pc write_step w_goto rest count obind].
  rewrite chk_in by lia. cbn [obind]. rewrite chk_in by lia. cbn [obind]. zbool.
  wstep; cbn [w_pc write_step w_goto rest count obind].
  replace (Nat.min (length bytes) (Z.to_nat (N - 1 - (reserve b - tail b)))) with k by lia.
  rewrite chk_in by lia. cbn [obind]. rewrite Z.eqb_refl.
  wstep; cbn [w_pc write_step w_goto rest count obind head].
  zbool. wstep; cbn [w_pc write_step w_goto rest count obind head reserve tail buffer].
  rewrite Hr. change (Z.to_nat (head b mod N)) with (pos N (head b)).
  assert (length (take k bytes) = k) as EL by (rewrite length_take; lia).
  pose proof (vb_rep_append b c (take k bytes) Hv) as Ha. unfold zlen in *. rewrite EL in Ha.
  specialize (Ha ltac:(lia)). destruct (write_to_circle _ _ _) as [buf' n']. destruct Ha as [-> Hv'].
  wstep; cbn [w_pc write_step w_goto rest count obind head reserve tail buffer].
  rewrite wrap_small by lia.
  eexists. split; [|split; [exact Hv'|done]].
  wstep; cbn [w_pc write_step w_goto rest count obind head reserve tail buffer].
  destruct (Nat.eqb (length (drop k bytes)) 0) eqn:E; [done|].
  apply Nat.eqb_neq in E. rewrite length_drop in E.
  wstep; cbn [w_pc write_step w_goto rest count obind head reserve tail buffer].
  rewrite chk_in by lia. cbn [obind]. rewrite chk_in by lia. cbn [obind]. zbool. done.
Qed.
End seq.
End VolatileBufferSeq.
