(* ===== verification/Pipe.v ===== *)
(** * Pipes ([src/lib/twizzler-io/src/pipe.rs])

    A pipe is a shared [PipeBase] (counts of reader and writer ends and a
    [VolatileBuffer]) and, in each process, handles ([Pipe]) that say which ends they
    hold.  The operations on handles are functions on the [world] of one pipe and all
    its handles; [Pipe::read] and [Pipe::write] are step functions whose steps are the
    separate loads of the counts, the buffer operation and the sleep, so that another
    handle can act in between.

    [pipe_counts]: after any sequence of operations the counts are exactly the numbers of
    open ends.  [pipe_read_alone], [pipe_write_alone]: the results of [read] and [write]
    on every branch.  [read_misses_last_close]: the interleaving in which a blocking
    read goes to sleep for good although the pipe is at end of file. *)
From S2P Require Import Prelude VolatileBuffer VolatileBufferSeq.
Import VolatileBuffer VolatileBufferSeq.

#[local] Open Scope Z_scope.

Module Pipe.

Definition BUF_SZ : Z := 4096.

Record PipeBase := mkPipeBase { readers : Z; writers : Z; buffer : VB }.
Definition PipeBase_new : PipeBase := mkPipeBase 1 1 (VB_new BUF_SZ).

Record Handle := mkHandle { reader : bool; writer : bool }.

(** The words of the pipe object a thread can sleep on. *)
Inductive word := WHead | WTail | WReaders | WWriters.

(** [wakes] lists the [ThreadSyncWake] calls made so far on the counts. *)
Record world := mkWorld { base : PipeBase; handles : gmap nat Handle; wakes : list word }.

Definition create_object (h : nat) : world :=
  mkWorld PipeBase_new {[h := mkHandle true true]} [].

Definition increment_reader (w : world) : world :=
  mkWorld (mkPipeBase (wrap 64 (readers (base w) + 1)) (writers (base w)) (buffer (base w)))
    (handles w) (wakes w ++ [WReaders]).

Definition increment_writer (w : world) : world :=
  mkWorld (mkPipeBase (readers (base w)) (wrap 64 (writers (base w) + 1)) (buffer (base w)))
    (handles w) (wakes w ++ [WWriters]).

Definition put (w : world) (h : nat) (p : Handle) : world :=
  mkWorld (base w) (<[h := p]> (handles w)) (wakes w).

Definition open_object (w : world) (h : nat) : world :=
  increment_writer (increment_reader (put w h (mkHandle true true))).

Definition enable_reader (w : world) (h : nat) (p : Handle) : world :=
  let w' := put w h (mkHandle true (writer p)) in
  if reader p then w' else increment_reader w'.

Definition enable_writer (w : world) (h : nat) (p : Handle) : world :=
  let w' := put w h (mkHandle (reader p) true) in
  if writer p then w' else increment_writer w'.

Definition close_reader (w : world) (h : nat) (p : Handle) : world :=
  let w' := put w h (mkHandle false (writer p)) in
  if negb (reader p) then w'
  else if readers (base w) =? 0 then w'
  else mkWorld (mkPipeBase (wrap 64 (readers (base w) - 1)) (writers (base w)) (buffer (base w)))
         (handles w') (wakes w ++ [WReaders]).

Definition close_writer (w : world) (h : nat) (p : Handle) : world :=
  let w' := put w h (mkHandle (reader p) false) in
  if negb (writer p) then w'
  else if writers (base w) =? 0 then w'
  else mkWorld (mkPipeBase (readers (base w)) (wrap 64 (writers (base w) - 1)) (buffer (base w)))
         (handles w') (wakes w ++ [WWriters]).

Definition clone (w : world) (h' : nat) (p : Handle) : world :=
  let w1 := if reader p then increment_reader w else w in
  let w2 := if writer p then increment_writer w1 else w1 in
  put w2 h' p.

Definition drop_pipe (w : world) (h : nat) (p : Handle) : world :=
  let w1 := if reader p then close_reader w h p else w in
  let w2 := if writer p then close_writer w1 h (mkHandle false (writer p)) else w1 in
  mkWorld (base w2) (delete h (handles w2)) (wakes w2).

(** ** Reading and writing *)
Definition has_pending_data (w : world) : bool := negb (is_empty (buffer (base w))).
Definition has_avail_space `{Build} (w : world) : outcome bool :=
  let! n := avail_space BUF_SZ (buffer (base w)) in Ret (0 <? n).

(** A [ThreadSyncSleep] with [ThreadSyncOp::Equal]: sleep while the word has the value. *)
Definition sleep := (word * Z)%type.

Definition load (b : PipeBase) (x : word) : Z :=
  match x with
  | WHead => head (buffer b) | WTail => tail (buffer b)
  | WReaders => readers b | WWriters => writers b
  end.

Definition sync_for_pending_data (b : VB) : sleep := (WHead, head b).
Definition sync_for_avail_space (b : VB) : sleep := (WTail, tail b).

(** [sys_thread_sync] on several sleeps blocks while every one of them still holds. *)
Definition blocked (b : PipeBase) (ss : list sleep) : bool :=
  forallb (fun s => load b s.1 =? s.2) ss.

Inductive ErrorKind := WouldBlock | BrokenPipe.

Definition set_buffer (w : world) (v : VB) : world :=
  mkWorld (mkPipeBase (readers (base w)) (writers (base w)) v) (handles w) (wakes w).

(** [do_sleep]: the two loads, then the system call. *)
Inductive sleep_pc :=
| SlReaders (s : sleep)
| SlWriters (s : sleep) (readers : Z)
| SlWait (ss : list sleep)
| SlReturn.

Definition do_sleep_step (b : PipeBase) (pc : sleep_pc) : sleep_pc :=
  match pc with
  | SlReaders s => SlWriters s (readers b)
  | SlWriters s r => SlWait [s; (WReaders, r); (WWriters, writers b)]
  | SlWait ss => if blocked b ss then SlWait ss else SlReturn
  | SlReturn => SlReturn
  end.

Inductive read_pc :=
| RLoadWriters
| RSync (writers : Z)
| RBytes (writers : Z) (sync : sleep)
| RSleep (pc : sleep_pc)
| RDone (r : result (list Z) ErrorKind).

Inductive write_pc :=
| WLoadReaders
| WSync (readers : Z)
| WBytes (readers : Z) (sync : sleep)
| WSleep (pc : sleep_pc)
| WDone (r : result nat ErrorKind).

Section rw.
Context `{Build}.

(** [Pipe::read] of [n] bytes; the [Ok] result carries the bytes. *)
Definition read_step (n : nat) (nb : bool) (w : world) (pc : read_pc) : outcome (world * read_pc) :=
  match pc with
  | RLoadWriters => Ret (w, RSync (writers (base w)))
  | RSync ws => Ret (w, RBytes ws (sync_for_pending_data (buffer (base w))))
  | RBytes ws sync =>
      let! (v, bytes) := read_bytes BUF_SZ (buffer (base w)) n in
      Ret (set_buffer w v,
           if Nat.eqb (length bytes) 0 && Nat.ltb 0 n && (0 <? ws)
           then if nb then RDone (Err WouldBlock) else RSleep (SlReaders sync)
           else RDone (Ok bytes))
  | RSleep SlReturn => Ret (w, RLoadWriters)
  | RSleep pc' => Ret (w, RSleep (do_sleep_step (base w) pc'))
  | RDone r => Ret (w, pc)
  end.

(** [Pipe::write]; the [Ok] result is the count. *)
Definition write_step (bytes : list Z) (nb : bool) (w : world) (pc : write_pc) : outcome (world * write_pc) :=
  match pc with
  | WLoadReaders => Ret (w, WSync (readers (base w)))
  | WSync rs =>
      let sync := sync_for_avail_space (buffer (base w)) in
      Ret (w, if rs =? 0 then WDone (Err BrokenPipe) else WBytes rs sync)
  | WBytes rs sync =>
      let! (v, count) := write_bytes BUF_SZ (buffer (base w)) bytes in
      Ret (set_buffer w v,
           if Nat.eqb count 0 && Nat.ltb 0 (length bytes) && (0 <? rs)
           then if nb then WDone (Err WouldBlock) else WSleep (SlReaders sync)
           else WDone (Ok count))
  | WSleep SlReturn => Ret (w, WLoadReaders)
  | WSleep pc' => Ret (w, WSleep (do_sleep_step (base w) pc'))
  | WDone r => Ret (w, pc)
  end.

Fixpoint read_run (k : nat) (n : nat) (nb : bool) (w : world) (pc : read_pc) : outcome (world * read_pc) :=
  match k with
  | O => Ret (w, pc)
  | S k' => let! (w', pc') := read_step n nb w pc in read_run k' n nb w' pc'
  end.

Fixpoint write_run (k : nat) (bytes : list Z) (nb : bool) (w : world) (pc : write_pc) : outcome (world * write_pc) :=
  match k with
  | O => Ret (w, pc)
  | S k' => let! (w', pc') := write_step bytes nb w pc in write_run k' bytes nb w' pc'
  end.
End rw.

(** ** Sequences of operations on handles *)
Inductive event :=
| EvOpen (h : nat)
| EvClone (h h' : nat)
| EvDrop (h : nat)
| EvEnableReader (h : nat)
| EvEnableWriter (h : nat)
| EvCloseReader (h : nat)
| EvCloseWriter (h : nat).

Definition on (w : world) (h : nat) (f : Handle -> world) : world :=
  match handles w !! h with Some p => f p | None => w end.

(** A new handle takes a fresh name. *)
Definition if_fresh (w : world) (h : nat) (w' : world) : world :=
  match handles w !! h with Some _ => w | None => w' end.

Definition exec (w : world) (e : event) : world :=
  match e with
  | EvOpen h => if_fresh w h (open_object w h)
  | EvClone h h' => on w h (fun p => if_fresh w h' (clone w h' p))
  | EvDrop h => on w h (drop_pipe w h)
  | EvEnableReader h => on w h (enable_reader w h)
  | EvEnableWriter h => on w h (enable_writer w h)
  | EvCloseReader h => on w h (close_reader w h)
  | EvCloseWriter h => on w h (close_writer w h)
  end.

Definition run (w : world) (es : list event) : world := fold_left exec es w.

(** ** The counts are exact *)
Definition open_readers (w : world) : Z := mcount reader (handles w).
Definition open_writers (w : world) : Z := mcount writer (handles w).

Record exact (bound : Z) (w : world) : Prop := mkExact {
  ex_readers : readers (base w) = open_readers w;
  ex_writers : writers (base w) = open_writers w;
  ex_rbound : readers (base w) <= bound;
  ex_wbound : writers (base w) <= bound }.

Section counts.
Implicit Types (w : world) (p : Handle).

Lemma exact_put w h p p' :
  handles w !! h = Some p ->
  open_readers (put w h p') = open_readers w - Z.b2z (reader p) + Z.b2z (reader p') /\
  open_writers (put w h p') = open_writers w - Z.b2z (writer p) + Z.b2z (writer p').
Proof.
  intros Hp. unfold open_readers, open_writers. cbn. rewrite !mcount_insert. unfold holds_at. by rewrite Hp.
Qed.

Lemma exact_fresh w h p :
  handles w !! h = None ->
  open_readers (put w h p) = open_readers w + Z.b2z (reader p) /\
  open_writers (put w h p) = open_writers w + Z.b2z (writer p).
Proof. intros Hp. unfold open_readers, open_writers. cbn. by rewrite !mcount_new. Qed.

(** An open end is counted, so the count it sees is not 0. *)
Lemma exact_open w h p :
  handles w !! h = Some p ->
  (reader p = true -> 1 <= open_readers w) /\ (writer p = true -> 1 <= open_writers w).
Proof. intros Hp. split; intros; by eapply mcount_pos. Qed.

Ltac counts := split; unfold open_readers, open_writers; cbn in *; rewrite ?wrap_small by lia; lia.

Lemma exec_exact bound w e :
  0 <= bound < 2 ^ 64 - 1 -> exact bound w -> exact (bound + 1) (exec w e).
Proof.
  intros Hb [Hr Hw Hrb Hwb]. pose proof (mcount_nonneg reader (handles w)). pose proof (mcount_nonneg writer (handles w)).
  assert (exact (bound + 1) w) as Hsame by (split; lia). unfold open_readers, open_writers in *.
  destruct e as [h|h h'|h|h|h|h|h]; unfold exec, on, if_fresh; destruct (handles w !! h) as [p|] eqn:Hp; try done.
  - destruct (exact_fresh w h (mkHandle true true) Hp). unfold open_readers, open_writers in *. counts.
  - destruct (handles w !! h') eqn:Hp'; [done|].
    destruct (exact_fresh w h' p Hp'). unfold open_readers, open_writers, clone in *.
    destruct (reader p), (writer p); counts.
  - destruct (exact_open w h p Hp) as [Ho1 Ho2]. unfold open_readers, open_writers in *.
    pose proof (mcount_delete reader (handles w) h) as D1. pose proof (mcount_delete writer (handles w) h) as D2.
    unfold holds_at in D1, D2. rewrite Hp in D1, D2. unfold drop_pipe, close_reader, close_writer, open_readers, open_writers.
    destruct (reader p), (writer p); cbn in *; split; cbn; unfold open_readers, open_writers; cbn;
      do 2 (zbool; cbn); rewrite ?delete_insert_eq, ?wrap_small by lia; lia.
  - destruct (exact_put w h p (mkHandle true (writer p)) Hp). unfold open_readers, open_writers, enable_reader in *.
    destruct (reader p); counts.
  - destruct (exact_put w h p (mkHandle (reader p) true) Hp). unfold open_readers, open_writers, enable_writer in *.
    destruct (writer p); counts.
  - destruct (exact_open w h p Hp) as [Ho1 Ho2]. unfold open_readers, open_writers in *.
    destruct (exact_put w h p (mkHandle false (writer p)) Hp). unfold open_readers, open_writers, close_reader in *.
    destruct (reader p); cbn [negb]; zbool; counts.
  - destruct (exact_open w h p Hp) as [Ho1 Ho2]. unfold open_readers, open_writers in *.
    destruct (exact_put w h p (mkHandle (reader p) false) Hp). unfold open_readers, open_writers, close_writer in *.
    destruct (writer p); cbn [negb]; zbool; counts.
Qed.

Lemma run_exact es bound w :
  0 <= bound -> bound + zlen es < 2 ^ 64 -> exact bound w -> exact (bound + zlen es) (run w es).
Proof.
  revert bound w. induction es as [|e es IH]; intros bound w Hb Hl Hw; unfold zlen in *; cbn [length] in *.
  - by replace (bound + Z.of_nat 0) with bound by lia.
  - replace (bound + Z.of_nat (S (length es))) with (bound + 1 + Z.of_nat (length es)) by lia.
    apply IH; [lia..|]. apply exec_exact; [lia|done].
Qed.
End counts.

(** Whatever sequence of opens, clones, enables, closes and drops is made on the
    handles of a new pipe, the [readers] and [writers] counts of the pipe are exactly
    the numbers of reader and writer ends still open (as long as the sequence is
    shorter than the counts can count): no close underflows a count, no end is counted
    twice, and a count is 0 only when no such end is left. *)
Theorem pipe_counts (h : nat) (es : list event) :
  zlen es + 1 < 2 ^ 64 ->
  let w := run (create_object h) es in
  readers (base w) = open_readers w /\ writers (base w) = open_writers w.
Proof.
  intros Hl w. destruct (run_exact es 1 (create_object h)) as [Hr Hw _ _]; [lia..| |done].
  unfold create_object. split; unfold open_readers, open_writers; cbn; try done;
    rewrite <- insert_empty, mcount_new by apply lookup_empty; by rewrite mcount_zero.
Qed.

Lemma pipe_counts_witness :
  let es := [EvClone 0 1; EvCloseWriter 0; EvCloseReader 1; EvOpen 2; EvDrop 1] in
  readers (base (run (create_object 0) es)) = 2 /\ writers (base (run (create_object 0) es)) = 1 /\
  open_readers (run (create_object 0) es) = 2.
Proof.
  intros es. assert (zlen es + 1 < 2 ^ 64) as Hes by (vm_compute; done).
  destruct (pipe_counts 0 es Hes) as [Hr Hw]. rewrite <- Hr. split_and!; by vm_compute.
Defined.

(** ** [read] and [write] on every branch *)
Section results.
Context `{Build}.

(** [Pipe::read] with nobody interfering, on a pipe that holds the bytes [c].  It
    takes the first [n] bytes and leaves the others in order.  With bytes wanted and
    none there it fails with [WouldBlock], or goes to sleep on the head of the buffer,
    as long as there is a writer end, and returns 0 bytes (end of file) when there is
    none. *)
Theorem pipe_read_alone (w : world) (c : list Z) (n : nat) (nb : bool) :
  vb_rep BUF_SZ (buffer (base w)) c ->
  head (buffer (base w)) + BUF_SZ < 2 ^ 64 ->
  exists v', read_run 3 n nb w RLoadWriters = Ret (set_buffer w v',
      if decide (c = [] /\ (0 < n)%nat /\ 0 < writers (base w))
      then if nb then RDone (Err WouldBlock) else RSleep (SlReaders (WHead, head (buffer (base w))))
      else RDone (Ok (take n c))) /\
    vb_rep BUF_SZ v' (drop n c).
Proof.
  intros Hv Hb. pose proof (vr_head _ _ _ Hv) as Hh.
  destruct (read_bytes_alone BUF_SZ _ c n Hv ltac:(lia)) as (v' & E & Hv' & _ & _). exists v'. split; [|done].
  cbn [read_run read_step obind]. rewrite E. cbn [obind]. do 2 f_equal.
  case_decide as D.
  - destruct D as (-> & Hn & Hw). rewrite take_nil. zbool.
    by rewrite (proj2 (Nat.ltb_lt 0 n) Hn).
  - destruct (Nat.eqb (length (take n c)) 0 && Nat.ltb 0 n && (0 <? writers (base w))) eqn:Eb; [|done].
    exfalso. apply D. rewrite !andb_true_iff, Nat.eqb_eq, Nat.ltb_lt, Z.ltb_lt, length_take in Eb.
    split_and!; [|lia..]. destruct c; [done|]. cbn in Eb. lia.
Qed.

(** [Pipe::write] with nobody interfering, on a pipe that holds the bytes [c].  With
    no reader end it fails with [BrokenPipe] and writes nothing.  Otherwise it appends
    the bytes that fit in the [BUF_SZ - 1] the buffer can hold and returns their number,
    except that when there are bytes to write and no room it fails with [WouldBlock], or
    goes to sleep on the tail of the buffer. *)
Theorem pipe_write_alone (w : world) (c bytes : list Z) (nb : bool) :
  vb_rep BUF_SZ (buffer (base w)) c ->
  0 <= readers (base w) ->
  let k := Nat.min (length bytes) (Z.to_nat (BUF_SZ - 1 - zlen c)) in
  exists v', write_run 3 bytes nb w WLoadReaders = Ret (set_buffer w v',
      if decide (readers (base w) = 0) then WDone (Err BrokenPipe)
      else if decide (bytes <> [] /\ zlen c = BUF_SZ - 1)
      then if nb then WDone (Err WouldBlock) else WSleep (SlReaders (WTail, tail (buffer (base w))))
      else WDone (Ok k)) /\
    vb_rep BUF_SZ v' (if decide (readers (base w) = 0) then c else c ++ take k bytes).
Proof.
  intros Hv Hr k. cbn [write_run write_step obind]. case_decide as D0.
  { exists (buffer (base w)). zbool. cbn [write_run write_step obind]. by destruct w as [[]]. }
  zbool. cbn [write_run write_step obind].
  destruct (write_bytes_alone BUF_SZ _ c bytes Hv) as (v' & E & Hv' & _). fold k in E, Hv'.
  exists v'. split; [|done]. rewrite E. cbn [obind]. do 2 f_equal. zbool.
  pose proof (vr_cap _ _ _ Hv) as Hc. pose proof (zlen_nonneg c) as Hc0.
  case_decide as D.
  - destruct D as [Hb Hf]. assert (0 < length bytes)%nat by (destruct bytes; [done|cbn; lia]).
    replace k with 0%nat by lia. by rewrite (proj2 (Nat.ltb_lt 0 (length bytes))).
  - destruct (Nat.eqb k 0 && Nat.ltb 0 (length bytes) && true) eqn:Eb; [|done].
    exfalso. apply D. rewrite !andb_true_iff, Nat.eqb_eq, Nat.ltb_lt in Eb.
    split; [intros ->; cbn in Eb; lia|lia].
Qed.
End results.

(** A reader end and a writer end in different hands. *)
Definition two_ends : world := run (create_object 0) [EvClone 0 1; EvCloseWriter 0; EvCloseReader 1].

Lemma two_ends_rep : vb_rep BUF_SZ (buffer (base two_ends)) [].
Proof. apply (vb_rep_new BUF_SZ). unfold BUF_SZ. lia. Qed.

Lemma pipe_read_alone_witness :
  exists v', read_run (H := true) 3 4 true two_ends RLoadWriters = Ret (set_buffer two_ends v', RDone (Err WouldBlock)).
Proof.
  destruct (pipe_read_alone (H := true) two_ends [] 4 true two_ends_rep) as (v' & E & _); [vm_compute; done|].
  exists v'. rewrite E. reflexivity.
Defined.

Lemma pipe_write_alone_witness :
  exists v', write_run (H := true) 3 [7; 8; 9] true two_ends WLoadReaders = Ret (set_buffer two_ends v', WDone (Ok 3%nat)) /\
    vb_rep BUF_SZ v' [7; 8; 9].
Proof.
  destruct (pipe_write_alone (H := true) two_ends [] [7; 8; 9] true two_ends_rep) as (v' & E & Hv); [vm_compute; done|].
  assert (readers (base two_ends) <> 0) as Hn by (vm_compute; congruence).
  exists v'. rewrite (decide_False _ _ Hn) in E. rewrite (decide_False _ _ Hn) in Hv.
  rewrite decide_False in E by (intros [_ Hf]; vm_compute in Hf; done). by split.
Defined.

(** A blocking [read] can miss the close of the last writer end.  The reader sees one
    writer and an empty buffer and decides to sleep; the writer is dropped; [do_sleep]
    then samples the writer count again and sleeps while it is equal to that sample, 0.
    The thread is blocked although the pipe is at end of file: a [read] that starts now
    returns 0 bytes at once. *)
Theorem read_misses_last_close `{Build} :
  let closed := exec two_ends (EvDrop 1) in
  exists pc ss,
    read_run 4 8 false two_ends RLoadWriters = Ret (two_ends, RSleep pc) /\
    open_writers closed = 0 /\
    read_step 8 false closed (RSleep pc) = Ret (closed, RSleep (SlWait ss)) /\
    blocked (base closed) ss = true /\
    read_run 3 8 false closed RLoadWriters = Ret (closed, RDone (Ok [])).
Proof.
  exists (SlWriters (WHead, 0) 1), [(WHead, 0); (WReaders, 1); (WWriters, 0)].
  split_and!; vm_compute; reflexivity.
Qed.
End Pipe.
