(* ===== verification/Priority.v ===== *)
(** * Thread priorities and priority donation ([src/kernel/src/thread/priority.rs])

    A [Priority] is a class and a value, kept in the thread as one 32-bit word
    ([raw], [from_raw]).  A thread waiting for another donates its priority to it
    ([donate_priority]); the receiver drops the donation when it leaves the kernel
    ([remove_donated_priority]).

    [priority_raw_spec]: the encoding is a round trip and keeps the order.
    [donation_effective]: after any sequence of donations and removals the effective
    priority is the highest of the base priority and the donations since the last
    removal.  [donate_remove_race]: donation and removal take several atomic accesses,
    and one interleaving leaves the thread at the highest realtime priority. *)
From S2P Require Import Prelude.

#[local] Open Scope Z_scope.

Module Priority.

Inductive PriorityClass := Idle | Background | User | Realtime.

#[global] Instance PriorityClass_eq_dec : EqDecision PriorityClass.
Proof. solve_decision. Defined.

Record Priority := mkPriority { class : PriorityClass; value : Z }.

#[global] Instance Priority_eq_dec : EqDecision Priority.
Proof. solve_decision. Defined.

Definition MAX_PRIORITY : Z := 128.

Definition INTERRUPT : Priority := mkPriority Realtime (MAX_PRIORITY - 1).
Definition REALTIME : Priority := mkPriority Realtime (MAX_PRIORITY / 2).
Definition USER : Priority := mkPriority User (MAX_PRIORITY / 2).
Definition BACKGROUND : Priority := mkPriority Background (MAX_PRIORITY / 2).
Definition IDLE : Priority := mkPriority Idle (MAX_PRIORITY / 2).

(** [self.class as u32] *)
Definition class_u32 (c : PriorityClass) : Z :=
  match c with Idle => 0 | Background => 1 | User => 2 | Realtime => 3 end.

Definition from_raw (d : Z) : Priority :=
  let c := Z.shiftr d 16 in
  mkPriority (if c =? 0 then Idle else if c =? 1 then Background else if c =? 2 then User else Realtime)
    (Z.min (Z.land d 0xffff) (MAX_PRIORITY - 1)).

Definition raw (p : Priority) : Z := Z.lor (Z.shiftl (class_u32 (class p)) 16) (value p).

(** The derived order: by class, then by value. *)
Definition pri_ltb (p q : Priority) : bool :=
  (class_u32 (class p) <? class_u32 (class q)) ||
  ((class_u32 (class p) =? class_u32 (class q)) && (value p <? value q)).

(** [core::cmp::max] returns its second argument unless the first is greater. *)
Definition pri_max (p q : Priority) : Priority := if pri_ltb q p then p else q.

(** ** The fields of [Thread] the scheduler uses *)
Record Thread := mkThread {
  id : Z; priority : Z; stable_priority : Z; flags : Z; donated_priority : Z;
  pinned_to : option Z; deadline : Z }.

Definition THREAD_PROC_IDLE : Z := 1.
Definition THREAD_HAS_DONATED_PRIORITY : Z := 2.
Definition u32_MAX : Z := 2 ^ 32 - 1.

Definition set_flags (t : Thread) (f : Z) : Thread :=
  mkThread (id t) (priority t) (stable_priority t) f (donated_priority t) (pinned_to t) (deadline t).
Definition set_donated (t : Thread) (d : Z) : Thread :=
  mkThread (id t) (priority t) (stable_priority t) (flags t) d (pinned_to t) (deadline t).
Definition set_stable (t : Thread) (d : Z) : Thread :=
  mkThread (id t) (priority t) d (flags t) (donated_priority t) (pinned_to t) (deadline t).

Definition has_donated (t : Thread) : bool := negb (Z.land (flags t) THREAD_HAS_DONATED_PRIORITY =? 0).
Definition is_idle_thread (t : Thread) : bool := negb (Z.land (flags t) THREAD_PROC_IDLE =? 0).

(** [remove_donated_priority]: the [fetch_and], then the store if the flag was set. *)
Definition remove_clear (t : Thread) : Thread := set_flags t (Z.ldiff (flags t) THREAD_HAS_DONATED_PRIORITY).
Definition remove_store (was_set : bool) (t : Thread) : Thread :=
  if was_set then set_donated t u32_MAX else t.
Definition remove_donated_priority (t : Thread) : Thread := remove_store (has_donated t) (remove_clear t).

Definition get_donated_priority (t : Thread) : option Priority :=
  if has_donated t
  then if donated_priority t =? u32_MAX then None else Some (from_raw (donated_priority t))
  else None.

Definition get_stable_effective_priority (t : Thread) : Priority := from_raw (stable_priority t).

Definition effective_priority (t : Thread) : Priority :=
  let p := from_raw (priority t) in
  if has_donated t then pri_max (from_raw (donated_priority t)) p else p.

Definition stable_effective_priority (t : Thread) : Priority * Thread :=
  let p := effective_priority t in (p, set_stable t (raw p)).

(** [donate_priority]: the checks, the store, the [fetch_or].  The result says whether
    the donation was taken and whether the thread must be rescheduled; [cur] is the
    current thread. *)
Definition donate_check (t : Thread) (pri : Priority) : option bool :=
  match get_donated_priority t with
  | Some current =>
      if pri_ltb pri current then None else Some (pri_ltb (effective_priority t) pri)
  | None => Some (pri_ltb (effective_priority t) pri)
  end.
Definition donate_store (t : Thread) (pri : Priority) : Thread := set_donated t (raw pri).
Definition donate_flag (t : Thread) : Thread :=
  set_flags t (Z.lor (flags t) THREAD_HAS_DONATED_PRIORITY).
Definition donate_priority (cur : option Z) (t : Thread) (pri : Priority) : Thread * bool * bool :=
  match donate_check t pri with
  | None => (t, false, false)
  | Some needs_resched =>
      let resched := needs_resched && negb (bool_decide (cur = Some (id t))) in
      (donate_flag (donate_store t pri), true, resched)
  end.

(** ** The encoding *)
Definition pri_ok (p : Priority) : Prop := 0 <= value p < MAX_PRIORITY.

Lemma class_u32_range c : 0 <= class_u32 c < 4.
Proof. destruct c; simpl; lia. Qed.

Lemma class_u32_inj c c' : class_u32 c = class_u32 c' -> c = c'.
Proof. by destruct c, c'. Qed.

Lemma raw_sum p : pri_ok p -> raw p = class_u32 (class p) * 2 ^ 16 + value p.
Proof. unfold pri_ok, MAX_PRIORITY. intros Hp. apply lor_shiftl_add; lia. Qed.

Lemma from_raw_raw p : pri_ok p -> from_raw (raw p) = p.
Proof.
  intros Hp. rewrite raw_sum by done. unfold pri_ok, from_raw, MAX_PRIORITY in *.
  rewrite shiftr_field, (land_field _ _ 16) by lia. rewrite Z.min_l by lia.
  destruct p as [[] v]; done.
Qed.

Lemma from_raw_ok d : 0 <= d -> pri_ok (from_raw d).
Proof.
  intros Hd. unfold pri_ok, from_raw, MAX_PRIORITY. cbn. rewrite (land_mask _ 16) by done.
  pose proof (Z.mod_pos_bound d (2 ^ 16)). lia.
Qed.

Lemma pri_ltb_raw p q : pri_ok p -> pri_ok q -> pri_ltb p q = (raw p <? raw q).
Proof.
  intros Hp Hq. rewrite !raw_sum by done. unfold pri_ltb, pri_ok, MAX_PRIORITY in *.
  destruct (Z.ltb_spec (class_u32 (class p)) (class_u32 (class q))); simpl; [zbool; done|].
  destruct (Z.eqb_spec (class_u32 (class p)) (class_u32 (class q))) as [->|]; simpl; [|zbool; done].
  destruct (Z.ltb_spec (value p) (value q)); zbool; done.
Qed.

(** A priority survives its encoding in the 32-bit word ([from_raw (raw p) = p] for
    a value below [MAX_PRIORITY]), every word decodes to such a priority, and the order of
    priorities (by class, then by value) is the order of the words. *)
Theorem priority_raw_spec (p q : Priority) (d : Z) :
  pri_ok p -> pri_ok q -> 0 <= d < 2 ^ 32 ->
  from_raw (raw p) = p /\ 0 <= raw p < 2 ^ 32 /\
  pri_ok (from_raw d) /\
  (pri_ltb p q = true <-> raw p < raw q).
Proof.
  intros Hp Hq Hd. split_and!.
  - by apply from_raw_raw.
  - rewrite raw_sum by done. pose proof (class_u32_range (class p)). unfold pri_ok, MAX_PRIORITY in Hp. lia.
  - rewrite raw_sum by done. pose proof (class_u32_range (class p)). unfold pri_ok, MAX_PRIORITY in Hp. lia.
  - apply from_raw_ok. lia.
  - rewrite pri_ltb_raw by done. apply Z.ltb_lt.
Qed.

Lemma priority_raw_spec_witness : from_raw (raw USER) = USER /\ pri_ltb USER INTERRUPT = true /\ pri_ok (from_raw u32_MAX).
Proof.
  assert (pri_ok USER) as H1 by (vm_compute; split; congruence).
  assert (pri_ok INTERRUPT) as H2 by (vm_compute; split; congruence).
  destruct (priority_raw_spec USER INTERRUPT u32_MAX H1 H2) as (E & _ & Ho & Hl); [vm_compute; split; congruence|].
  split_and!; [exact E|apply Hl; vm_compute; reflexivity|exact Ho].
Defined.

(** ** Donation *)
Lemma has_donated_bit t : has_donated t = Z.testbit (flags t) 1.
Proof. unfold has_donated. change THREAD_HAS_DONATED_PRIORITY with (2 ^ 1). by rewrite land_bit, negb_involutive. Qed.

Lemma donate_flag_donated t : has_donated (donate_flag t) = true.
Proof.
  rewrite has_donated_bit. cbn. change THREAD_HAS_DONATED_PRIORITY with (2 ^ 1).
  rewrite testbit_lor_bit by done. apply orb_true_r.
Qed.

Lemma remove_clear_donated t : has_donated (remove_clear t) = false.
Proof.
  rewrite has_donated_bit. cbn. change THREAD_HAS_DONATED_PRIORITY with (2 ^ 1).
  rewrite testbit_ldiff_bit by done. apply andb_false_r.
Qed.

Lemma pri_max_raw p q : pri_ok p -> pri_ok q -> raw (pri_max p q) = Z.max (raw p) (raw q).
Proof. intros Hp Hq. unfold pri_max. rewrite pri_ltb_raw by done. destruct (Z.ltb_spec (raw q) (raw p)); lia. Qed.

Lemma pri_max_ok p q : pri_ok p -> pri_ok q -> pri_ok (pri_max p q).
Proof. unfold pri_max. by destruct (pri_ltb q p). Qed.

Lemma raw_inj p q : pri_ok p -> pri_ok q -> raw p = raw q -> p = q.
Proof. intros Hp Hq E. rewrite <- (from_raw_raw p), <- (from_raw_raw q) by done. by rewrite E. Qed.

(** What is donated to a thread: nothing, or one priority. *)
Definition donated (t : Thread) : option Priority :=
  if has_donated t then Some (from_raw (donated_priority t)) else None.

Inductive donation := Donate (p : Priority) | Remove.

Definition donation_step (t : Thread) (e : donation) : Thread :=
  match e with
  | Donate p => (donate_priority None t p).1.1
  | Remove => remove_donated_priority t
  end.

(** The donations since the last removal. *)
Definition since_removal (es : list donation) : list Priority :=
  fold_left (fun acc e => match e with Donate p => acc ++ [p] | Remove => [] end) es [].

Definition highest (base : Z) (l : list Priority) : Z := foldr (fun p m => Z.max (raw p) m) base l.

Lemma highest_snoc base l p : highest base (l ++ [p]) = Z.max (raw p) (highest base l).
Proof. induction l as [|q l IH]; simpl; [done|]. unfold highest in *. simpl. rewrite IH. lia. Qed.

Lemma highest_max base b' l : highest (Z.max base b') l = Z.max base (highest b' l).
Proof. induction l as [|q l IH]; simpl; [done|]. unfold highest in *. simpl. rewrite IH. lia. Qed.

Record donated_inv (b : Priority) (t : Thread) (l : list Priority) : Prop := mkDonatedInv {
  di_base : priority t = raw b;
  di_flag : has_donated t = bool_decide (l <> []);
  di_ok : l <> [] -> exists p, pri_ok p /\ donated_priority t = raw p /\ raw p = highest 0 l }.

Lemma donated_effective b t l :
  pri_ok b -> donated_inv b t l -> pri_ok (effective_priority t) /\ raw (effective_priority t) = highest (raw b) l.
Proof.
  intros Hb [Hp Hf Ho]. unfold effective_priority. rewrite Hf, Hp, from_raw_raw by done.
  case_bool_decide as D.
  - destruct (Ho D) as (p & Hpo & -> & Eh). rewrite from_raw_raw by done. split; [by apply pri_max_ok|].
    rewrite pri_max_raw by done. rewrite Eh, Z.max_comm, <- highest_max.
    pose proof (class_u32_range (class b)). unfold pri_ok in Hb. rewrite Z.max_l; [done|]. rewrite raw_sum by done. lia.
  - subst l. by split.
Qed.

Lemma raw_bound p : pri_ok p -> 0 <= raw p < u32_MAX.
Proof.
  intros Hp. rewrite raw_sum by done. pose proof (class_u32_range (class p)).
  unfold pri_ok, MAX_PRIORITY, u32_MAX in *. lia.
Qed.

Lemma donated_step b t l e :
  pri_ok b -> (forall p, e = Donate p -> pri_ok p) -> donated_inv b t l ->
  donated_inv b (donation_step t e) (match e with Donate p => l ++ [p] | Remove => [] end).
Proof.
  intros Hb He Hi. pose proof Hi as [Hp Hf Ho]. destruct e as [p|].
  - specialize (He p eq_refl). cbn [donation_step]. unfold donate_priority, donate_check, get_donated_priority.
    rewrite Hf. case_bool_decide as D.
    + destruct (Ho D) as (c & Hc & Ec & Eh). pose proof (raw_bound c Hc). rewrite Ec. zbool. rewrite from_raw_raw by done.
      rewrite pri_ltb_raw by done. destruct (Z.ltb_spec (raw p) (raw c)); cbn.
      * split; [done|by rewrite Hf, !bool_decide_eq_true_2 by (done || by destruct l)|].
        intros _. exists c. split_and!; [done..|]. rewrite highest_snoc. lia.
      * split; [done|rewrite donate_flag_donated, bool_decide_eq_true_2; [done|by destruct l]|].
        intros _. exists p. split_and!; [done..|]. rewrite highest_snoc. lia.
    + subst l. cbn.
      split; [done|by rewrite donate_flag_donated|]. intros _. exists p. split_and!; [done..|].
      unfold highest. cbn. pose proof (raw_bound p He). lia.
  - cbn [donation_step]. unfold remove_donated_priority, remove_store.
    split; [by destruct (has_donated t)| |done].
    transitivity (has_donated (remove_clear t)); [by destruct (has_donated t)|by rewrite remove_clear_donated].
Qed.

Lemma donated_run b es t :
  pri_ok b -> Forall (fun e => forall p, e = Donate p -> pri_ok p) es -> donated_inv b t [] ->
  donated_inv b (fold_left donation_step es t) (since_removal es).
Proof.
  intros Hb Hes Ht. unfold since_removal. induction es as [|e es IH] using rev_ind; [done|].
  rewrite !fold_left_app. cbn. apply Forall_app in Hes as [Hes [He _]%Forall_cons].
  by apply (donated_step b _ _ e Hb He), IH.
Qed.

(** Priority donation.  Take a thread with base priority [b] and no donation, and any
    sequence of [donate_priority] and [remove_donated_priority] calls one after the
    other.  Its effective priority is then the highest of [b] and the priorities donated
    since the last removal; with none donated since, it is [b] again. *)
Theorem donation_effective (b : Priority) (t : Thread) (es : list donation) :
  pri_ok b -> priority t = raw b -> has_donated t = false ->
  Forall (fun e => forall p, e = Donate p -> pri_ok p) es ->
  let t' := fold_left donation_step es t in
  raw (effective_priority t') = highest (raw b) (since_removal es) /\
  (since_removal es = [] -> effective_priority t' = b).
Proof.
  intros Hb Hp Hf Hes t'.
  assert (donated_inv b t' (since_removal es)) as Hi.
  { apply donated_run; [done..|]. by split. }
  destruct (donated_effective _ _ _ Hb Hi) as [Ho E]. split; [done|].
  intros E0. rewrite E0 in E. by apply raw_inj.
Qed.

Definition demo_thread : Thread := mkThread 1 (raw USER) (raw USER) 0 u32_MAX None 100.

Lemma donation_effective_witness :
  let t' := fold_left donation_step [Donate INTERRUPT; Remove; Donate REALTIME; Donate BACKGROUND] demo_thread in
  raw (effective_priority t') = raw REALTIME.
Proof.
  destruct (donation_effective USER demo_thread [Donate INTERRUPT; Remove; Donate REALTIME; Donate BACKGROUND])
    as [E _]; [vm_compute; split; congruence|reflexivity|reflexivity| |].
  - repeat apply Forall_cons_2; try apply Forall_nil_2; intros p [= <-]; vm_compute; split; congruence.
  - cbv zeta. rewrite E. reflexivity.
Defined.

(** Donation and removal race.  A thread at [USER] holds a [USER] donation; a waiter
    donates [USER] again while the thread, leaving the kernel, removes its donation.  The
    donor stores the priority, the thread clears the flag, the donor sets the flag, the
    thread stores [u32::MAX].  The flag is set and [u32::MAX] decodes to the highest
    realtime priority, which the thread now runs at although nobody donated it;
    [get_donated_priority] reports no donation at the same time. *)
Theorem donate_remove_race :
  let t0 := (donate_priority None demo_thread USER).1.1 in
  donate_check t0 USER = Some false /\
  let t1 := donate_store t0 USER in
  let was_set := has_donated t1 in
  let t2 := remove_clear t1 in
  let t3 := donate_flag t2 in
  let t4 := remove_store was_set t3 in
  effective_priority t0 = USER /\ effective_priority t4 = INTERRUPT /\ get_donated_priority t4 = None.
Proof. vm_compute; split_and!; reflexivity. Qed.
End Priority.
