(* ===== verification/RunQueue.v ===== *)
(** * The run queue ([src/kernel/src/processor/rq.rs], [timeshare.rs])

    A processor's run queue holds its runnable threads in three parts: two
    [PriorityQueue]s (realtime and idle), each an array of FIFO lists indexed by
    priority, and a [TimeshareQueue], a circular calendar of FIFO lists.  The atomics of
    [RunQueue] (flags, load counters, current priority) are fields of the record; the
    operations are the code's, run one at a time.  A thread's pinning, deadline and
    stable priority do not change while it is queued. *)
From S2P Require Import Prelude Intrusive Priority.
Import Priority.

#[local] Open Scope Z_scope.

Module RunQueue.

Definition NR_QUEUES : nat := 8.
Definition RQ_HAS_RT : Z := 1.
Definition RQ_HAS_TS : Z := 2.
Definition RQ_HAS_IL : Z := 4.
Definition MAX_TIMESLICE_TICKS : Z := 100.
Definition MIN_TIMESLICE_TICKS : Z := 2.
Definition DEFAULT_TIMESLICE_TICKS : Z := 32.

(** [a[i]] and [a[i] = x] panic out of range. *)
Definition index {A} (l : list A) (i : nat) : outcome A := unwrap (l !! i).

(** The highest index below [n] that satisfies [p]: [for i in (0..n).rev()]. *)
Fixpoint find_rev (p : nat -> bool) (n : nat) : option nat :=
  match n with
  | O => None
  | S i => if p i then Some i else find_rev p i
  end.

Section rq.
Context `{Build} {L : Type} `{LinkedList Thread L} (N : nat).

(** [MAX_PRIORITY as usize / N] *)
Definition pri_step : Z := MAX_PRIORITY / Z.of_nat N.
Definition pri_index (v : Z) : nat := Z.to_nat (v / pri_step).

(** ** [PriorityQueue] *)
Record PriorityQueue := mkPQ { pq_count : Z; pq_queues : list L }.

Definition PQ_new : PriorityQueue := mkPQ 0 (replicate N ll_new).

Definition nonempty_at (qs : list L) (i : nat) : bool :=
  match qs !! i with Some q => negb (ll_is_empty q) | None => false end.

Definition PQ_highest_priority (q : PriorityQueue) : option Z :=
  if pq_count q =? 0 then None
  else match find_rev (nonempty_at (pq_queues q)) N with
       | Some i => Some (wrap 16 (Z.of_nat i * pri_step))
       | None => None
       end.

Definition PQ_is_empty (q : PriorityQueue) : bool := pq_count q =? 0.

Definition PQ_insert (q : PriorityQueue) (th : Thread) : outcome PriorityQueue :=
  let p := effective_priority th in
  let i := if bool_decide (class p = User) then (N - 1)%nat else pri_index (value p) in
  let! l := index (pq_queues q) i in
  let! c := chk 64 (pq_count q + 1) in
  Ret (mkPQ c (<[i := ll_push_back l th]> (pq_queues q))).

(** [for q in 0..N { if let Some(th) = self.queues[q].pop_front() ..}] *)
Fixpoint take_scan (qs : list L) : option Thread * list L :=
  match qs with
  | [] => (None, [])
  | l :: qs' =>
      match ll_pop_front l with
      | (Some th, l') => (Some th, l' :: qs')
      | (None, l') => let (o, r) := take_scan qs' in (o, l' :: r)
      end
  end.

Definition PQ_take (q : PriorityQueue) : outcome (PriorityQueue * option Thread) :=
  if pq_count q =? 0 then Ret (q, None)
  else match take_scan (pq_queues q) with
       | (Some th, qs) => let! c := chk 64 (pq_count q - 1) in Ret (mkPQ c qs, Some th)
       | (None, qs) => Ret (mkPQ (pq_count q) qs, None)
       end.

(** ** [TimeshareQueue] *)
Record TimeshareQueue := mkTS {
  ts_count : Z; priorities : list Z; insert_idx : nat; take_idx : nat; ts_queues : list L }.

Definition TS_new : TimeshareQueue := mkTS 0 (replicate N 0) 0 0 (replicate N ll_new).

Definition TS_is_empty (q : TimeshareQueue) : bool := ts_count q =? 0.

Definition TS_highest_priority (q : TimeshareQueue) : option Z :=
  if TS_is_empty q then None
  else match find_rev (fun i => match priorities q !! i with Some n => 0 <? n | None => false end) N with
       | Some i => Some (wrap 16 (Z.of_nat i * pri_step))
       | None => None
       end.

Definition TS_slot (q : TimeshareQueue) (v : Z) (current : bool) : outcome nat :=
  if current then Ret (take_idx q)
  else
    let! d := chk 16 (MAX_PRIORITY - v) in
    let i := ((insert_idx q + Z.to_nat (d / pri_step)) mod N)%nat in
    Ret (if Nat.eqb i (take_idx q) && negb (Nat.eqb (take_idx q) (insert_idx q))
         then match i with O => (N - 1)%nat | S j => j end
         else i).

Definition TS_insert (q : TimeshareQueue) (th : Thread) (current : bool) : outcome TimeshareQueue :=
  let (pri, th') := stable_effective_priority th in
  let! i := TS_slot q (value pri) current in
  let! l := index (ts_queues q) i in
  let! n := index (priorities q) (pri_index (value pri)) in
  let! n' := chk 32 (n + 1) in
  let! c := chk 64 (ts_count q + 1) in
  Ret (mkTS c (<[pri_index (value pri) := n']> (priorities q)) (insert_idx q) (take_idx q)
         (<[i := ll_push_back l th']> (ts_queues q))).

(** The body of the loop of [take] when the list [i] gave [th]. *)
Definition TS_taken (q : TimeshareQueue) (i : nat) (th : Thread) (l' : L) : outcome (TimeshareQueue * option Thread) :=
  let qs := <[i := l']> (ts_queues q) in
  let k := pri_index (value (get_stable_effective_priority th)) in
  let! n := index (priorities q) k in
  let! c := chk 64 (ts_count q - 1) in
  let t := if negb (Nat.eqb i (insert_idx q)) && ll_is_empty l' then ((i + 1) mod N)%nat else i in
  Ret (mkTS c (<[k := saturating_sub n 1]> (priorities q)) (insert_idx q) t qs, Some th).

(** [for i in 0..N], from [i] on with [k] rounds left. *)
Fixpoint TS_take_loop (i k : nat) (q : TimeshareQueue) : outcome (TimeshareQueue * option Thread) :=
  match k with
  | O => Ret (mkTS (ts_count q) (priorities q) (insert_idx q) (insert_idx q) (ts_queues q), None)
  | S k' =>
      let j := ((take_idx q + i) mod N)%nat in
      let! l := index (ts_queues q) j in
      match ll_pop_front l with
      | (Some th, l') => TS_taken q j th l'
      | (None, l') =>
          TS_take_loop (S i) k'
            (mkTS (ts_count q) (priorities q) (insert_idx q) (take_idx q) (<[j := l']> (ts_queues q)))
      end
  end.

Definition TS_take (q : TimeshareQueue) : outcome (TimeshareQueue * option Thread) := TS_take_loop 0 N q.

Definition advance_insert_index (q : TimeshareQueue) (steps : nat) (force : bool) : TimeshareQueue :=
  if TS_is_empty q then q
  else if negb (Nat.eqb (insert_idx q) (take_idx q)) && negb force then q
  else mkTS (ts_count q) (priorities q) ((insert_idx q + steps) mod N) (take_idx q) (ts_queues q).

(** ** [RunQueue] *)
Record RunQueue := mkRQ {
  realtime : PriorityQueue; timeshare : TimeshareQueue; idle : PriorityQueue;
  cur_raw : Z; rq_flags : Z; load : Z; timeshare_load : Z; movable : Z; last_tick : Z }.

Definition RQ_new : RunQueue := mkRQ PQ_new TS_new PQ_new 0 0 0 0 0 0.

Definition current_priority (r : RunQueue) : Priority := from_raw (cur_raw r).

Definition is_movable (th : Thread) : bool := match pinned_to th with None => true | Some _ => false end.

(** [insert], up to the choice of the part: the counters and the current priority. *)
Definition RQ_account (r : RunQueue) (th : Thread) : RunQueue :=
  let p := effective_priority th in
  mkRQ (realtime r) (timeshare r) (idle r)
    (if pri_ltb (from_raw (cur_raw r)) p then raw p else cur_raw r)
    (rq_flags r) (wrap 32 (load r + 1)) (timeshare_load r)
    (if is_movable th then wrap 32 (movable r + 1) else movable r) (last_tick r).

Definition insert_realtime (r : RunQueue) (th : Thread) : outcome (RunQueue * bool) :=
  let! q := PQ_insert (realtime r) th in
  Ret (mkRQ q (timeshare r) (idle r) (cur_raw r) (Z.lor (rq_flags r) RQ_HAS_RT) (load r)
         (timeshare_load r) (movable r) (last_tick r), true).

Definition insert_timeshare (r : RunQueue) (th : Thread) (current : bool) : outcome (RunQueue * bool) :=
  let! q := TS_insert (timeshare r) th current in
  Ret (mkRQ (realtime r) q (idle r) (cur_raw r) (Z.lor (rq_flags r) RQ_HAS_TS) (load r)
         (wrap 32 (timeshare_load r + 1)) (movable r) (last_tick r), true).

Definition insert_idle (r : RunQueue) (th : Thread) : outcome (RunQueue * bool) :=
  let! q := PQ_insert (idle r) th in
  Ret (mkRQ (realtime r) (timeshare r) q (cur_raw r) (Z.lor (rq_flags r) RQ_HAS_IL) (load r)
         (timeshare_load r) (movable r) (last_tick r), false).

(** [now] is [get_current_ticks()]. *)
Definition RQ_insert (now : Z) (r : RunQueue) (th : Thread) (current : bool) : outcome (RunQueue * bool) :=
  let! _ := rassert (negb (is_idle_thread th)) in
  let r1 := RQ_account r th in
  match class (effective_priority th) with
  | Realtime => insert_realtime r1 th
  | User => if deadline th <=? now then insert_realtime r1 th else insert_timeshare r1 th current
  | _ => insert_idle r1 th
  end.

Definition or0 (o : option Z) : Z := match o with Some v => v | None => 0 end.

Definition recalc_priority_timeshare (cur : Z) (q : TimeshareQueue) (il : PriorityQueue) : Z :=
  if bool_decide (class (from_raw cur) = User)
  then if TS_is_empty q then raw (mkPriority Idle (or0 (PQ_highest_priority il)))
       else raw (mkPriority User (or0 (TS_highest_priority q)))
  else cur.

Definition has_flag (r : RunQueue) (f : Z) : bool := negb (Z.land (rq_flags r) f =? 0).

(** The flags after a part is taken from, the part now empty or not. *)
Definition flags_after (r : RunQueue) (f : Z) (empty : bool) : Z :=
  if empty then Z.ldiff (rq_flags r) f else rq_flags r.

(** [movable.fetch_sub] with its assertion. *)
Definition take_movable (r : RunQueue) (th : Thread) : outcome Z :=
  if is_movable th then let! _ := rassert (0 <? movable r) in Ret (wrap 32 (movable r - 1)) else Ret (movable r).

Definition take_realtime (r : RunQueue) : outcome (RunQueue * option Thread) :=
  if negb (has_flag r RQ_HAS_RT) then Ret (r, None)
  else
    let! (q, o) := PQ_take (realtime r) in
    match o with
    | None => Ret (mkRQ q (timeshare r) (idle r) (cur_raw r) (rq_flags r) (load r) (timeshare_load r)
                     (movable r) (last_tick r), None)
    | Some th =>
        let! m := take_movable r th in
        let cur :=
          if bool_decide (class (current_priority r) = Realtime)
          then if PQ_is_empty q then raw (mkPriority User (MAX_PRIORITY - 1))
               else raw (mkPriority Realtime (or0 (PQ_highest_priority q)))
          else cur_raw r in
        Ret (mkRQ q (timeshare r) (idle r) cur (flags_after r RQ_HAS_RT (PQ_is_empty q))
               (wrap 32 (load r - 1)) (timeshare_load r) m (last_tick r), Some th)
    end.

Definition take_timeshare (r : RunQueue) : outcome (RunQueue * option Thread) :=
  if negb (has_flag r RQ_HAS_TS) then Ret (r, None)
  else
    let! (q, o) := TS_take (timeshare r) in
    match o with
    | None => Ret (mkRQ (realtime r) q (idle r) (cur_raw r) (rq_flags r) (load r) (timeshare_load r)
                     (movable r) (last_tick r), None)
    | Some th =>
        let! m := take_movable r th in
        let cur :=
          if bool_decide (class (current_priority r) = User)
          then recalc_priority_timeshare (cur_raw r) q (idle r) else cur_raw r in
        Ret (mkRQ (realtime r) q (idle r) cur (flags_after r RQ_HAS_TS (TS_is_empty q))
               (wrap 32 (load r - 1)) (wrap 32 (timeshare_load r - 1)) m (last_tick r), Some th)
    end.

Definition take_idle (r : RunQueue) : outcome (RunQueue * option Thread) :=
  if negb (has_flag r RQ_HAS_IL) then Ret (r, None)
  else
    let! (q, o) := PQ_take (idle r) in
    match o with
    | None => Ret (mkRQ (realtime r) (timeshare r) q (cur_raw r) (rq_flags r) (load r) (timeshare_load r)
                     (movable r) (last_tick r), None)
    | Some th =>
        let! m := take_movable r th in
        Ret (mkRQ (realtime r) (timeshare r) q (raw (mkPriority Idle (or0 (PQ_highest_priority q))))
               (flags_after r RQ_HAS_IL (PQ_is_empty q))
               (wrap 32 (load r - 1)) (timeshare_load r) m (last_tick r), Some th)
    end.

Definition RQ_is_empty (r : RunQueue) : bool :=
  Z.land (rq_flags r) (Z.lor (Z.lor RQ_HAS_IL RQ_HAS_RT) RQ_HAS_TS) =? 0.

Definition RQ_take (r : RunQueue) (stealing : bool) : outcome (RunQueue * option Thread) :=
  if RQ_is_empty r || (stealing && (movable r =? 0)) then Ret (r, None)
  else
    let! (r1, o1) := take_realtime r in
    match o1 with
    | Some th => Ret (r1, Some th)
    | None =>
        let! (r2, o2) := take_timeshare r1 in
        match o2 with
        | Some th => Ret (r2, Some th)
        | None =>
            let! (r3, o3) := take_idle r2 in
            match o3 with
            | Some th => Ret (r3, Some th)
            | None =>
                Ret (mkRQ (realtime r3) (timeshare r3) (idle r3) 0 (rq_flags r3) (load r3) (timeshare_load r3)
                       (movable r3) (last_tick r3), None)
            end
        end
    end.

Definition timeslice (r : RunQueue) (c : PriorityClass) : Z :=
  match c with
  | User =>
      if timeshare_load r =? 0 then MAX_TIMESLICE_TICKS
      else Z.max (DEFAULT_TIMESLICE_TICKS / timeshare_load r) MIN_TIMESLICE_TICKS
  | _ => MAX_TIMESLICE_TICKS
  end.

Definition rq_deadline (r : RunQueue) (c : PriorityClass) : outcome Z := chk 64 (timeslice r c * load r).

(** [hardtick] at tick [now]: the pair returned and the queue after. *)
Definition hardtick (now : Z) (r : RunQueue) : outcome (RunQueue * (Z * Z)) :=
  let! ticks := chk 64 (now - last_tick r) in
  if ticks =? 0 then Ret (r, (now, 0))
  else Ret (mkRQ (realtime r) (timeshare r) (idle r) (cur_raw r) (rq_flags r) (load r) (timeshare_load r)
              (movable r) (wrap 64 (last_tick r + ticks)), (now, ticks)).

Definition clock (r : RunQueue) : RunQueue :=
  mkRQ (realtime r) (advance_insert_index (timeshare r) 1 true) (idle r) (cur_raw r) (rq_flags r) (load r)
    (timeshare_load r) (movable r) (last_tick r).
End rq.
End RunQueue.
