(* ===== verification/RunQueueInv.v ===== *)
(** * The run queue loses no thread

    The invariant of [RunQueue] (every counter, flag and per-priority count agrees with
    the lists) and the theorems on [insert] and [take]. *)
From S2P Require Import Prelude Intrusive Priority RunQueue.
Import Priority RunQueue.

#[local] Open Scope Z_scope.

Module RunQueueInv.

(** ** Lists of lists *)
Section concat.
Context {A L : Type} (f : L -> list A).

Lemma concat_insert (qs : list L) i l l' :
  qs !! i = Some l -> concat (f <$> <[i := l']> qs) ++ f l ≡ₚ f l' ++ concat (f <$> qs).
Proof.
  intros Hi. rewrite <- (take_drop_middle qs i l Hi) at 2. pose proof (lookup_lt_Some _ _ _ Hi).
  rewrite insert_take_drop by done. rewrite !fmap_app, !concat_app. cbn. solve_Permutation.
Qed.

Lemma concat_push (qs : list L) i l l' x :
  qs !! i = Some l -> f l' = f l ++ [x] -> concat (f <$> <[i := l']> qs) ≡ₚ x :: concat (f <$> qs).
Proof.
  intros Hi E. pose proof (concat_insert qs i l l' Hi) as P. rewrite E in P.
  apply (Permutation_app_inv_r (f l)). rewrite P. solve_Permutation.
Qed.

Lemma concat_pop (qs : list L) i l l' x :
  qs !! i = Some l -> f l = x :: f l' -> concat (f <$> qs) ≡ₚ x :: concat (f <$> <[i := l']> qs).
Proof.
  intros Hi E. pose proof (concat_insert qs i l l' Hi) as P. rewrite E in P.
  apply (Permutation_app_inv_l (f l')). rewrite <- P. solve_Permutation.
Qed.

Lemma concat_nil_all (qs : list L) : (forall i l, qs !! i = Some l -> f l = []) -> concat (f <$> qs) = [].
Proof.
  induction qs as [|l qs IH]; intros Hq; [done|]. cbn. rewrite (Hq 0%nat l eq_refl). apply IH.
  intros i. apply (Hq (S i)).
Qed.
End concat.

Section inv.
Context `{Build} {L : Type} `{LinkedList Thread L} (N : nat).
Context (HN : pri_step N * Z.of_nat N = MAX_PRIORITY).

Lemma N_pos : (0 < N)%nat.
Proof.
  destruct (decide (N = 0%nat)) as [E|]; [|lia]. pose proof HN as HN'. rewrite E in HN'. unfold MAX_PRIORITY in HN'. lia.
Qed.

Lemma pri_index_lt v : 0 <= v < MAX_PRIORITY -> (pri_index N v < N)%nat.
Proof.
  intros Hv. unfold pri_index. pose proof N_pos.
  assert (0 < pri_step N) by (unfold MAX_PRIORITY in *; nia).
  pose proof (Z.div_lt_upper_bound v (pri_step N) (Z.of_nat N) ltac:(lia) ltac:(lia)).
  pose proof (Z.div_pos v (pri_step N)). lia.
Qed.

Definition th_ok (th : Thread) : Prop := 0 <= priority th /\ 0 <= donated_priority th.

Lemma effective_ok th : th_ok th -> pri_ok (effective_priority th).
Proof.
  intros [Hp Hd]. unfold effective_priority.
  destruct (has_donated th); [apply pri_max_ok|]; by apply from_raw_ok.
Qed.

(** ** [PriorityQueue] *)
Definition pq_queued (q : PriorityQueue (L := L)) : list Thread := concat (ll_list <$> pq_queues q).

Record pq_ok (q : PriorityQueue (L := L)) : Prop := mkPqOk {
  po_len : length (pq_queues q) = N;
  po_count : pq_count q = zlen (pq_queued q) }.

Lemma PQ_new_ok : pq_ok (PQ_new N) /\ pq_queued (PQ_new N) = [].
Proof.
  assert (pq_queued (PQ_new N) = []) as E.
  { apply concat_nil_all. intros i l [-> _]%lookup_replicate. apply ll_new_spec. }
  split; [|done]. split; [apply length_replicate|]. by rewrite E.
Qed.

Lemma PQ_insert_ok q th :
  pq_ok q -> th_ok th -> zlen (pq_queued q) + 1 < 2 ^ 64 ->
  exists q', PQ_insert N q th = Ret q' /\ pq_ok q' /\ pq_queued q' ≡ₚ th :: pq_queued q.
Proof.
  intros [Hl Hc] Ht Hb. unfold PQ_insert. cbv zeta.
  set (i := if bool_decide _ then _ else _).
  assert (i < N)%nat as Hi.
  { unfold i. case_bool_decide; [pose proof N_pos; lia|]. by apply pri_index_lt, effective_ok. }
  destruct (lookup_lt_is_Some_2 (pq_queues q) i) as [l El]; [lia|].
  unfold index. rewrite El. cbn [unwrap obind]. rewrite chk_in by (rewrite Hc; pose proof (zlen_nonneg (pq_queued q)); lia).
  cbn [obind]. eexists. split; [done|].
  assert (pq_queued (mkPQ (pq_count q + 1) (<[i := ll_push_back l th]> (pq_queues q))) ≡ₚ th :: pq_queued q) as P.
  { eapply concat_push; [done|]. apply ll_push_spec. }
  split; [|done]. split; [cbn; by rewrite length_insert|].
  unfold zlen in *. rewrite P. cbn. lia.
Qed.

Lemma take_scan_spec (qs : list L) :
  match take_scan qs with
  | (Some th, qs') => concat (ll_list <$> qs) = th :: concat (ll_list <$> qs') /\ length qs' = length qs
  | (None, qs') => concat (ll_list <$> qs) = [] /\ qs' = qs
  end.
Proof.
  induction qs as [|l qs IH]; [done|]. cbn [take_scan].
  destruct (ll_list l) as [|x xs] eqn:E.
  - rewrite (ll_front_nil l E). destruct (take_scan qs) as [[th|] qs'].
    + cbn. rewrite E. cbn. by destruct IH as [-> ->].
    + cbn. rewrite E. cbn. by destruct IH as [-> ->].
  - destruct (ll_front_cons l x xs E) as (l' & -> & E'). cbn. by rewrite E, E'.
Qed.

(** [PriorityQueue::take] takes the first thread of the first list that has one. *)
Lemma PQ_take_ok q :
  pq_ok q -> zlen (pq_queued q) < 2 ^ 64 ->
  (pq_queued q = [] /\ PQ_take q = Ret (q, None)) \/
  exists q' th, PQ_take q = Ret (q', Some th) /\ pq_ok q' /\ pq_queued q = th :: pq_queued q'.
Proof.
  intros [Hl Hc] Hb. unfold PQ_take, pq_queued in *. pose proof (take_scan_spec (pq_queues q)) as Hs.
  destruct (take_scan (pq_queues q)) as [[th|] qs].
  - destruct Hs as [E El]. right. rewrite E in Hc, Hb. unfold zlen in *. cbn in Hc, Hb. zbool.
    rewrite chk_in by lia. cbn [obind]. do 2 eexists. split_and!; [done| |by cbn].
    split; cbn; [lia|]. unfold pq_queued, zlen. cbn. lia.
  - destruct Hs as [E ->]. left. rewrite E in Hc. unfold zlen in Hc. cbn in Hc. zbool. done.
Qed.

Lemma PQ_is_empty_spec q : pq_ok q -> PQ_is_empty q = bool_decide (pq_queued q = []).
Proof.
  intros [_ Hc]. unfold PQ_is_empty. rewrite Hc. unfold zlen.
  destruct (pq_queued q); [done|]. rewrite bool_decide_eq_false_2 by done. apply Z.eqb_neq. cbn. lia.
Qed.

(** ** [TimeshareQueue] *)
Definition ts_queued (q : TimeshareQueue (L := L)) : list Thread := concat (ll_list <$> ts_queues q).
Definition stable_index (th : Thread) : nat := pri_index N (value (get_stable_effective_priority th)).
Definition count_at (i : nat) (l : list Thread) : Z := zlen (filter (fun th => stable_index th = i) l).

Record ts_ok (q : TimeshareQueue (L := L)) : Prop := mkTsOk {
  to_len : length (ts_queues q) = N;
  to_plen : length (priorities q) = N;
  to_insert : (insert_idx q < N)%nat;
  to_take : (take_idx q < N)%nat;
  to_count : ts_count q = zlen (ts_queued q);
  to_stable : Forall (fun th => 0 <= stable_priority th) (ts_queued q);
  to_pris : forall i, (i < N)%nat -> priorities q !! i = Some (count_at i (ts_queued q)) }.

Lemma TS_new_ok : ts_ok (TS_new N) /\ ts_queued (TS_new N) = [].
Proof.
  assert (ts_queued (TS_new N) = []) as E.
  { apply concat_nil_all. intros i l [-> _]%lookup_replicate. apply ll_new_spec. }
  pose proof N_pos. split; [|done]. split; rewrite ?E; cbn; try apply length_replicate; try done; try lia; try constructor.
  intros i Hi. by rewrite lookup_replicate_2.
Qed.

Lemma count_at_cons i th l : count_at i (th :: l) = Z.b2z (bool_decide (stable_index th = i)) + count_at i l.
Proof. unfold count_at, zlen. rewrite filter_cons. case_decide as D; [rewrite bool_decide_eq_true_2 by done|rewrite bool_decide_eq_false_2 by done]; cbn; lia. Qed.

#[export] Instance count_at_Proper i : Proper ((≡ₚ) ==> (=)) (count_at i).
Proof. intros l l' P. unfold count_at, zlen. by rewrite P. Qed.

Lemma stable_index_lt th : 0 <= stable_priority th -> (stable_index th < N)%nat.
Proof. intros. by apply pri_index_lt, from_raw_ok. Qed.

Lemma TS_slot_ok q v current : ts_ok q -> 0 <= v < MAX_PRIORITY -> exists i, TS_slot N q v current = Ret i /\ (i < N)%nat.
Proof.
  intros Hq Hv. pose proof N_pos. destruct Hq. unfold TS_slot. destruct current; [eauto|].
  unfold MAX_PRIORITY in *. rewrite chk_in by lia. cbn [obind]. eexists. split; [done|].
  pose proof (Nat.mod_upper_bound (insert_idx q + Z.to_nat ((128 - v) / pri_step N)) N ltac:(lia)).
  destruct (_ && _); [|done]. destruct (_ mod N)%nat; lia.
Qed.

Lemma TS_insert_ok q th current :
  ts_ok q -> th_ok th -> zlen (ts_queued q) + 1 < 2 ^ 32 ->
  exists q', TS_insert N q th current = Ret q' /\ ts_ok q' /\
    ts_queued q' ≡ₚ (stable_effective_priority th).2 :: ts_queued q.
Proof.
  intros Hq Ht Hb. pose proof (effective_ok th Ht) as Hp. pose proof Hq as [Hl Hpl Hi Htk Hc Hs Hpr].
  unfold TS_insert, stable_effective_priority. set (pri := effective_priority th) in *. set (th' := set_stable th (raw pri)).
  destruct (TS_slot_ok q (value pri) current Hq Hp) as (i & -> & Hi').
  destruct (lookup_lt_is_Some_2 (ts_queues q) i) as [l El]; [lia|]. cbn [obind].
  unfold index. rewrite El. cbn [unwrap obind].
  assert (pri_index N (value pri) < N)%nat as Hk by by apply pri_index_lt.
  rewrite Hpr by done. cbn [unwrap obind].
  assert (0 <= count_at (pri_index N (value pri)) (ts_queued q) <= zlen (ts_queued q)) as Hcb.
  { unfold count_at, zlen. pose proof (length_filter (fun th => stable_index th = pri_index N (value pri)) (ts_queued q)). lia. }
  rewrite chk_in by lia. cbn [obind]. rewrite chk_in by (pose proof (zlen_nonneg (ts_queued q)); lia). cbn [obind].
  eexists. split; [done|].
  assert (ts_queued (mkTS (ts_count q + 1) (<[pri_index N (value pri) := count_at (pri_index N (value pri)) (ts_queued q) + 1]> (priorities q))
      (insert_idx q) (take_idx q) (<[i := ll_push_back l th']> (ts_queues q))) ≡ₚ th' :: ts_queued q) as P.
  { eapply concat_push; [done|]. apply ll_push_spec. }
  split; [|done].
  assert (stable_index th' = pri_index N (value pri)) as Es.
  { unfold stable_index, get_stable_effective_priority, th'. cbn [stable_priority set_stable]. by rewrite from_raw_raw. }
  split; cbn [ts_queues priorities insert_idx take_idx ts_count]; rewrite ?length_insert; try done.
  - unfold zlen in *. rewrite P. cbn [length]. lia.
  - rewrite P. constructor; [|done]. cbn. pose proof (raw_bound pri Hp). lia.
  - intros j Hj. rewrite P, count_at_cons, Es. destruct (decide (pri_index N (value pri) = j)) as [<-|Hne].
    + rewrite list_lookup_insert_eq by lia. rewrite bool_decide_eq_true_2 by done. f_equal. cbn. lia.
    + rewrite list_lookup_insert_ne by done. rewrite bool_decide_eq_false_2 by done. rewrite Hpr by done. done.
Qed.

(** The lists are visited in a circle from [take_idx]. *)
Lemma circle_all t b : (t < N)%nat -> (b < N)%nat -> exists j, (j < N)%nat /\ ((t + j) mod N)%nat = b.
Proof.
  intros Ht Hb. exists ((b + N - t) mod N)%nat. split; [apply Nat.mod_upper_bound; lia|].
  rewrite Nat.Div0.add_mod_idemp_r. replace (t + (b + N - t))%nat with (b + 1 * N)%nat by lia.
  rewrite Nat.Div0.mod_add. by apply Nat.mod_small.
Qed.

Lemma TS_taken_ok q i l l' th xs :
  ts_ok q -> zlen (ts_queued q) < 2 ^ 64 -> (i < N)%nat -> ts_queues q !! i = Some l ->
  ll_list l = th :: xs -> ll_list l' = xs ->
  exists q', TS_taken N q i th l' = Ret (q', Some th) /\ ts_ok q' /\ ts_queued q ≡ₚ th :: ts_queued q'.
Proof.
  intros [Hl Hpl Hi Htk Hc Hs Hpr] Hb Hi' El E E'. pose proof N_pos.
  assert (ts_queued q ≡ₚ th :: concat (ll_list <$> <[i := l']> (ts_queues q))) as P.
  { eapply concat_pop; [done|]. by rewrite E'. }
  rewrite P in Hs. apply Forall_cons in Hs as [Hst Hs].
  pose proof (stable_index_lt th Hst) as Hk. unfold TS_taken, index. cbv zeta.
  change (pri_index N (value (get_stable_effective_priority th))) with (stable_index th).
  rewrite Hpr by done. cbn [unwrap obind].
  assert (zlen (ts_queued q) = 1 + zlen (concat (ll_list <$> <[i := l']> (ts_queues q)))) as Ez.
  { unfold zlen. rewrite P. cbn [length]. lia. }
  pose proof (zlen_nonneg (concat (ll_list <$> <[i := l']> (ts_queues q)))).
  rewrite chk_in by lia. cbn [obind]. eexists. split; [done|]. split; [|done].
  split; cbn [ts_queues priorities insert_idx take_idx ts_count]; rewrite ?length_insert; try done.
  - destruct (_ && _); [apply Nat.mod_upper_bound; lia|done].
  - unfold ts_queued. cbn [ts_queues]. lia.
  - intros j Hj. unfold ts_queued. cbn [ts_queues]. destruct (decide (stable_index th = j)) as [<-|Hne].
    + rewrite list_lookup_insert_eq by lia. f_equal. rewrite P, count_at_cons, bool_decide_eq_true_2 by done.
      unfold saturating_sub, count_at. cbn. pose proof (zlen_nonneg (filter (fun th0 => stable_index th0 = stable_index th) (concat (ll_list <$> <[i := l']> (ts_queues q))))). lia.
    + rewrite list_lookup_insert_ne by done. rewrite Hpr by done. rewrite P, count_at_cons, bool_decide_eq_false_2 by done. done.
Qed.

Lemma TS_take_loop_ok q i k :
  ts_ok q -> zlen (ts_queued q) < 2 ^ 64 -> (i + k)%nat = N ->
  (forall j, (j < i)%nat -> forall l, ts_queues q !! ((take_idx q + j) mod N)%nat = Some l -> ll_list l = []) ->
  (ts_queued q = [] /\ exists q', TS_take_loop N i k q = Ret (q', None) /\ ts_ok q' /\ ts_queued q' = []) \/
  exists q' th, TS_take_loop N i k q = Ret (q', Some th) /\ ts_ok q' /\ ts_queued q ≡ₚ th :: ts_queued q'.
Proof.
  intros Hq Hb. revert i. induction k as [|k IH]; intros i Hik Hemp.
  - left. assert (ts_queued q = []) as E.
    { apply concat_nil_all. intros b l Hbl. pose proof (lookup_lt_Some _ _ _ Hbl) as Hlt.
      destruct (circle_all (take_idx q) b) as (j & Hj & Ej); [apply Hq|by rewrite (to_len q Hq) in Hlt|].
      apply (Hemp j); [lia|]. by rewrite Ej. }
    split; [done|]. eexists. split; [done|]. split; [|done]. destruct Hq. by split.
  - cbn [TS_take_loop]. set (b := ((take_idx q + i) mod N)%nat).
    assert (b < N)%nat as Hbn by (apply Nat.mod_upper_bound; pose proof N_pos; lia).
    destruct (lookup_lt_is_Some_2 (ts_queues q) b) as [l El]; [by rewrite (to_len q Hq)|].
    unfold index. rewrite El. cbn [unwrap obind]. destruct (ll_list l) as [|x xs] eqn:E.
    + rewrite (ll_front_nil l E). rewrite (list_insert_id _ _ _ El).
      replace (mkTS _ _ _ _ _) with q by by destruct q.
      apply IH; [lia|]. intros j Hj l0 El0. destruct (decide (j = i)) as [->|]; [|by apply (Hemp j); [lia|]].
      fold b in El0. congruence.
    + destruct (ll_front_cons l x xs E) as (l' & -> & E'). right.
      destruct (TS_taken_ok q b l l' x xs) as (q' & Et & Hq' & P); eauto 10.
Qed.

Lemma TS_is_empty_spec q : ts_ok q -> TS_is_empty q = bool_decide (ts_queued q = []).
Proof.
  intros [_ _ _ _ Hc _ _]. unfold TS_is_empty. rewrite Hc. unfold zlen.
  destruct (ts_queued q); [done|]. rewrite bool_decide_eq_false_2 by done. apply Z.eqb_neq. cbn. lia.
Qed.

(** ** [RunQueue] *)
Definition queued (r : RunQueue (L := L)) : list Thread :=
  pq_queued (realtime r) ++ ts_queued (timeshare r) ++ pq_queued (idle r).

(** The flag word for the parts that have threads. *)
Definition flag_word (rt ts il : bool) : Z := Z.b2z rt + 2 * Z.b2z ts + 4 * Z.b2z il.

Definition has {A} (l : list A) : bool := bool_decide (l <> []).

Record rq_ok (r : RunQueue (L := L)) : Prop := mkRqOk {
  ro_rt : pq_ok (realtime r);
  ro_ts : ts_ok (timeshare r);
  ro_il : pq_ok (idle r);
  ro_flags : rq_flags r = flag_word (has (pq_queued (realtime r))) (has (ts_queued (timeshare r))) (has (pq_queued (idle r)));
  ro_load : load r = zlen (queued r);
  ro_tsload : timeshare_load r = zlen (ts_queued (timeshare r));
  ro_movable : movable r = zlen (filter (fun th => is_movable th = true) (queued r));
  ro_bound : load r < 2 ^ 32 }.

Lemma RQ_new_ok : rq_ok (RQ_new N) /\ queued (RQ_new N) = [].
Proof.
  destruct PQ_new_ok as [Hp Ep]. destruct TS_new_ok as [Ht Et].
  assert (queued (RQ_new N) = []) as E by (unfold queued; cbn [RQ_new realtime timeshare idle]; by rewrite Ep, Et).
  split; [|done]. split; try done; cbn [RQ_new realtime timeshare idle rq_flags load timeshare_load movable]; rewrite ?E, ?Ep, ?Et; done.
Qed.

Lemma zlen_perm {A} (l l' : list A) : l ≡ₚ l' -> zlen l = zlen l'.
Proof. intros P. unfold zlen. by rewrite P. Qed.

Lemma has_cons {A} (x : A) l l' : l ≡ₚ x :: l' -> has l = true.
Proof. intros P. apply bool_decide_eq_true_2. intros ->. by apply Permutation_nil_cons in P. Qed.

Lemma movable_cons th l l' :
  l ≡ₚ th :: l' ->
  zlen (filter (fun th => is_movable th = true) l) =
  Z.b2z (is_movable th) + zlen (filter (fun th => is_movable th = true) l').
Proof. intros P. unfold zlen. rewrite P, filter_cons. case_decide as D; [rewrite D|apply not_true_is_false in D; rewrite D]; cbn; lia. Qed.

(** Adding a thread to one part. *)
Lemma added_ok r rt ts il cur fl tsl lt th th' :
  rq_ok r -> load r + 1 < 2 ^ 32 -> pq_ok rt -> ts_ok ts -> pq_ok il ->
  is_movable th' = is_movable th ->
  pq_queued rt ++ ts_queued ts ++ pq_queued il ≡ₚ th' :: queued r ->
  fl = flag_word (has (pq_queued rt)) (has (ts_queued ts)) (has (pq_queued il)) ->
  tsl = zlen (ts_queued ts) ->
  rq_ok (mkRQ rt ts il cur fl (wrap 32 (load r + 1)) tsl
           (if is_movable th then wrap 32 (movable r + 1) else movable r) lt).
Proof.
  intros [_ _ _ _ Hld _ Hmv Hbd] Hb Hrt Hts Hil Em P Hfl Htsl.
  pose proof (zlen_nonneg (queued r)).
  assert (0 <= movable r <= load r) as Hm.
  { rewrite Hmv, Hld. unfold zlen. pose proof (length_filter (fun th => is_movable th = true) (queued r)). lia. }
  split; cbn [realtime timeshare idle rq_flags load timeshare_load movable]; try done; unfold queued; cbn [realtime timeshare idle].
  - rewrite wrap_small by lia. rewrite (zlen_perm _ _ P). unfold zlen in *. cbn. lia.
  - rewrite (movable_cons th' _ _ P), Em, <- Hmv. destruct (is_movable th); cbn; [rewrite wrap_small; lia|lia].
  - rewrite wrap_small; lia.
Qed.

(** Removing a thread from one part. *)
Lemma removed_ok r rt ts il fl tsl th :
  rq_ok r -> pq_ok rt -> ts_ok ts -> pq_ok il ->
  queued r ≡ₚ th :: pq_queued rt ++ ts_queued ts ++ pq_queued il ->
  fl = flag_word (has (pq_queued rt)) (has (ts_queued ts)) (has (pq_queued il)) ->
  tsl = zlen (ts_queued ts) ->
  exists m, take_movable r th = Ret m /\
    forall cur lt, rq_ok (mkRQ rt ts il cur fl (wrap 32 (load r - 1)) tsl m lt).
Proof.
  intros [_ _ _ _ Hld _ Hmv Hbd] Hrt Hts Hil P Hfl Htsl.
  pose proof (zlen_perm _ _ P) as Ez. pose proof (movable_cons th _ _ P) as Em.
  assert (zlen (filter (fun th => is_movable th = true) (pq_queued rt ++ ts_queued ts ++ pq_queued il))
          <= zlen (pq_queued rt ++ ts_queued ts ++ pq_queued il)) as Hf.
  { unfold zlen. pose proof (length_filter (fun th => is_movable th = true) (pq_queued rt ++ ts_queued ts ++ pq_queued il)). lia. }
  set (rest := pq_queued rt ++ ts_queued ts ++ pq_queued il) in *.
  assert (zlen (th :: rest) = 1 + zlen rest) as Ec by (unfold zlen; cbn [length]; lia).
  pose proof (zlen_nonneg rest). pose proof (zlen_nonneg (filter (fun th => is_movable th = true) rest)).
  exists (movable r - Z.b2z (is_movable th)). split.
  { unfold take_movable. destruct (is_movable th); cbn in *; [|f_equal; lia].
    rewrite (proj2 (Z.ltb_lt 0 (movable r))) by lia. cbn. rewrite wrap_small by lia. done. }
  intros cur lt. split; cbn [realtime timeshare idle rq_flags load timeshare_load movable]; try done; unfold queued; cbn [realtime timeshare idle]; fold rest.
  - rewrite wrap_small; lia.
  - lia.
  - rewrite wrap_small; lia.
Qed.

Lemma flag_word_lor a b c :
  Z.lor (flag_word a b c) RQ_HAS_RT = flag_word true b c /\
  Z.lor (flag_word a b c) RQ_HAS_TS = flag_word a true c /\
  Z.lor (flag_word a b c) RQ_HAS_IL = flag_word a b true.
Proof. by destruct a, b, c. Qed.

Lemma flag_word_ldiff a b c :
  Z.ldiff (flag_word a b c) RQ_HAS_RT = flag_word false b c /\
  Z.ldiff (flag_word a b c) RQ_HAS_TS = flag_word a false c /\
  Z.ldiff (flag_word a b c) RQ_HAS_IL = flag_word a b false.
Proof. by destruct a, b, c. Qed.

Lemma has_flag_spec r :
  rq_ok r ->
  has_flag r RQ_HAS_RT = has (pq_queued (realtime r)) /\
  has_flag r RQ_HAS_TS = has (ts_queued (timeshare r)) /\
  has_flag r RQ_HAS_IL = has (pq_queued (idle r)) /\
  RQ_is_empty r = negb (has (queued r)).
Proof.
  intros [_ _ _ Hf _ _ _ _]. unfold has_flag, RQ_is_empty, queued. rewrite Hf.
  destruct (pq_queued (realtime r)), (ts_queued (timeshare r)), (pq_queued (idle r)); done.
Qed.

(** *** [insert] *)
Lemma insert_realtime_ok r th :
  rq_ok r -> th_ok th -> load r + 1 < 2 ^ 32 ->
  exists r', insert_realtime N (RQ_account r th) th = Ret (r', true) /\ rq_ok r' /\ queued r' ≡ₚ th :: queued r.
Proof.
  intros Hr Ht Hb. pose proof Hr as [Hrt Hts Hil Hf Hld _ _ _]. unfold insert_realtime.
  assert (zlen (pq_queued (realtime r)) <= zlen (queued r)) by (unfold queued, zlen; rewrite length_app; lia).
  destruct (PQ_insert_ok (realtime r) th Hrt Ht) as (q & E & Hq & P); [lia|].
  cbn [RQ_account realtime timeshare idle cur_raw rq_flags load timeshare_load movable last_tick].
  rewrite E. cbn [obind]. eexists. split; [done|].
  assert (pq_queued q ++ ts_queued (timeshare r) ++ pq_queued (idle r) ≡ₚ th :: queued r) as P' by (unfold queued; by rewrite P).
  split; [|done]. apply (added_ok r _ _ _ _ _ _ _ th th); try done; [|apply Hr].
  rewrite Hf, (has_cons _ _ _ P). apply flag_word_lor.
Qed.

Lemma insert_timeshare_ok r th current :
  rq_ok r -> th_ok th -> load r + 1 < 2 ^ 32 ->
  exists r', insert_timeshare N (RQ_account r th) th current = Ret (r', true) /\ rq_ok r' /\
    queued r' ≡ₚ (stable_effective_priority th).2 :: queued r.
Proof.
  intros Hr Ht Hb. pose proof Hr as [Hrt Hts Hil Hf Hld Htl _ _]. unfold insert_timeshare.
  assert (zlen (ts_queued (timeshare r)) <= zlen (queued r)) by (unfold queued, zlen; rewrite !length_app; lia).
  destruct (TS_insert_ok (timeshare r) th current Hts Ht) as (q & E & Hq & P); [lia|].
  cbn [RQ_account realtime timeshare idle cur_raw rq_flags load timeshare_load movable last_tick].
  rewrite E. cbn [obind]. eexists. split; [done|].
  assert (pq_queued (realtime r) ++ ts_queued q ++ pq_queued (idle r) ≡ₚ (stable_effective_priority th).2 :: queued r) as P'.
  { unfold queued. rewrite P. solve_Permutation. }
  split; [|done]. apply (added_ok r _ _ _ _ _ _ _ th (stable_effective_priority th).2); try done.
  - rewrite Hf, (has_cons _ _ _ P). apply flag_word_lor.
  - rewrite (zlen_perm _ _ P), Htl. pose proof (zlen_nonneg (ts_queued (timeshare r))). unfold zlen in *. cbn [length]. rewrite wrap_small; lia.
Qed.

Lemma insert_idle_ok r th :
  rq_ok r -> th_ok th -> load r + 1 < 2 ^ 32 ->
  exists r', insert_idle N (RQ_account r th) th = Ret (r', false) /\ rq_ok r' /\ queued r' ≡ₚ th :: queued r.
Proof.
  intros Hr Ht Hb. pose proof Hr as [Hrt Hts Hil Hf Hld _ _ _]. unfold insert_idle.
  assert (zlen (pq_queued (idle r)) <= zlen (queued r)) by (unfold queued, zlen; rewrite !length_app; lia).
  destruct (PQ_insert_ok (idle r) th Hil Ht) as (q & E & Hq & P); [lia|].
  cbn [RQ_account realtime timeshare idle cur_raw rq_flags load timeshare_load movable last_tick].
  rewrite E. cbn [obind]. eexists. split; [done|].
  assert (pq_queued (realtime r) ++ ts_queued (timeshare r) ++ pq_queued q ≡ₚ th :: queued r) as P'.
  { unfold queued. rewrite P. solve_Permutation. }
  split; [|done]. apply (added_ok r _ _ _ _ _ _ _ th th); try done; [|apply Hr].
  rewrite Hf, (has_cons _ _ _ P). apply flag_word_lor.
Qed.

(** *** [take] *)
Lemma take_realtime_ok r :
  rq_ok r ->
  (pq_queued (realtime r) = [] /\ take_realtime N r = Ret (r, None)) \/
  exists r' th, take_realtime N r = Ret (r', Some th) /\ rq_ok r' /\
    pq_queued (realtime r) = th :: pq_queued (realtime r') /\ queued r ≡ₚ th :: queued r'.
Proof.
  intros Hr. pose proof Hr as [Hrt Hts Hil Hf Hld Htl _ Hbd]. unfold take_realtime.
  destruct (has_flag_spec r Hr) as (-> & _ & _ & _).
  assert (zlen (pq_queued (realtime r)) <= zlen (queued r)) by (unfold queued, zlen; rewrite length_app; lia).
  destruct (PQ_take_ok (realtime r) Hrt) as [[E E2]|(q & th & E & Hq & Eq)]; [lia|left; by rewrite E|].
  right. rewrite (has_cons th _ (pq_queued q)) by by rewrite Eq. cbn [negb]. rewrite E. cbn [obind].
  assert (queued r ≡ₚ th :: pq_queued q ++ ts_queued (timeshare r) ++ pq_queued (idle r)) as P by (unfold queued; by rewrite Eq).
  destruct (removed_ok r q (timeshare r) (idle r) (flags_after r RQ_HAS_RT (PQ_is_empty q)) (timeshare_load r) th) as (m & Em & Hok);
    [done..| |apply Htl|].
  { unfold flags_after. rewrite (PQ_is_empty_spec q Hq), Hf, (has_cons th _ (pq_queued q)) by by rewrite Eq.
    unfold has at 4. destruct (pq_queued q); [apply flag_word_ldiff|done]. }
  rewrite Em. cbn [obind]. do 2 eexists. split; [done|]. split; [apply Hok|]. by split.
Qed.

Lemma take_timeshare_ok r :
  rq_ok r ->
  (ts_queued (timeshare r) = [] /\ take_timeshare N r = Ret (r, None)) \/
  exists r' th, take_timeshare N r = Ret (r', Some th) /\ rq_ok r' /\
    th ∈ ts_queued (timeshare r) /\ queued r ≡ₚ th :: queued r'.
Proof.
  intros Hr. pose proof Hr as [Hrt Hts Hil Hf Hld Htl _ Hbd]. unfold take_timeshare.
  destruct (has_flag_spec r Hr) as (_ & -> & _ & _).
  assert (zlen (ts_queued (timeshare r)) <= zlen (queued r)) by (unfold queued, zlen; rewrite !length_app; lia).
  destruct (TS_take_loop_ok (timeshare r) 0 N Hts) as [[E _]|(q & th & E & Hq & Eq)]; [lia|done|lia|left; by rewrite E|].
  right. rewrite (has_cons th _ _ Eq). cbn [negb]. unfold TS_take. rewrite E. cbn [obind].
  assert (queued r ≡ₚ th :: pq_queued (realtime r) ++ ts_queued q ++ pq_queued (idle r)) as P.
  { unfold queued. rewrite Eq. solve_Permutation. }
  destruct (removed_ok r (realtime r) q (idle r) (flags_after r RQ_HAS_TS (TS_is_empty q)) (wrap 32 (timeshare_load r - 1)) th)
    as (m & Em & Hok); [done..| | |].
  { unfold flags_after. rewrite (TS_is_empty_spec q Hq), Hf, (has_cons th _ _ Eq).
    unfold has at 5. destruct (ts_queued q); [apply flag_word_ldiff|done]. }
  { rewrite Htl, (zlen_perm _ _ Eq). pose proof (zlen_nonneg (ts_queued q)). pose proof (zlen_perm _ _ Eq).
    unfold zlen in *. cbn [length] in *. rewrite wrap_small; lia. }
  rewrite Em. cbn [obind]. do 2 eexists. split; [done|]. split; [apply Hok|]. split; [|done].
  rewrite Eq. by left.
Qed.

Lemma take_idle_ok r :
  rq_ok r ->
  (pq_queued (idle r) = [] /\ take_idle N r = Ret (r, None)) \/
  exists r' th, take_idle N r = Ret (r', Some th) /\ rq_ok r' /\
    pq_queued (idle r) = th :: pq_queued (idle r') /\ queued r ≡ₚ th :: queued r'.
Proof.
  intros Hr. pose proof Hr as [Hrt Hts Hil Hf Hld Htl _ Hbd]. unfold take_idle.
  destruct (has_flag_spec r Hr) as (_ & _ & -> & _).
  assert (zlen (pq_queued (idle r)) <= zlen (queued r)) by (unfold queued, zlen; rewrite !length_app; lia).
  destruct (PQ_take_ok (idle r) Hil) as [[E E2]|(q & th & E & Hq & Eq)]; [lia|left; by rewrite E|].
  right. rewrite (has_cons th _ (pq_queued q)) by by rewrite Eq. cbn [negb]. rewrite E. cbn [obind].
  assert (queued r ≡ₚ th :: pq_queued (realtime r) ++ ts_queued (timeshare r) ++ pq_queued q) as P.
  { unfold queued. rewrite Eq. solve_Permutation. }
  destruct (removed_ok r (realtime r) (timeshare r) q (flags_after r RQ_HAS_IL (PQ_is_empty q)) (timeshare_load r) th) as (m & Em & Hok);
    [done..| |apply Htl|].
  { unfold flags_after. rewrite (PQ_is_empty_spec q Hq), Hf, (has_cons th (pq_queued (idle r)) (pq_queued q)) by by rewrite Eq.
    unfold has at 6. destruct (pq_queued q); [apply flag_word_ldiff|done]. }
  rewrite Em. cbn [obind]. do 2 eexists. split; [done|]. split; [apply Hok|]. by split.
Qed.
End inv.

(** [RunQueue::insert] of a thread that is not a processor's idle thread returns and
    keeps the invariant: the thread is queued and every other one stays queued, the
    counters and flags agree with the lists, and the result says whether the thread is
    of a class the processor must be told about (realtime or user).  A thread put in
    the timeshare queue has its effective priority recorded in it. *)
Theorem rq_insert_ok `{Build} {L} `{LinkedList Thread L} (N : nat) (now : Z) (r : RunQueue (L := L))
    (th : Thread) (current : bool) :
  pri_step N * Z.of_nat N = MAX_PRIORITY -> rq_ok N r -> th_ok th -> is_idle_thread th = false ->
  load r + 1 < 2 ^ 32 ->
  exists r' th', RQ_insert N now r th current = Ret (r', bool_decide (class (effective_priority th) = User \/ class (effective_priority th) = Realtime)) /\
    rq_ok N r' /\ queued r' ≡ₚ th' :: queued r /\
    th' = (if bool_decide (class (effective_priority th) = User /\ now < deadline th)
           then (stable_effective_priority th).2 else th).
Proof.
  intros HN Hr Ht Hi Hb. unfold RQ_insert. rewrite Hi. cbn [negb rassert obind].
  destruct (insert_realtime_ok N HN r th Hr Ht Hb) as (r1 & E1 & Hr1 & P1).
  destruct (insert_timeshare_ok N HN r th current Hr Ht Hb) as (r2 & E2 & Hr2 & P2).
  destruct (insert_idle_ok N HN r th Hr Ht Hb) as (r3 & E3 & Hr3 & P3).
  destruct (class (effective_priority th)) eqn:Ec.
  - rewrite E3. by exists r3, th.
  - rewrite E3. by exists r3, th.
  - destruct (Z.leb_spec (deadline th) now).
    + rewrite E1, (bool_decide_eq_false_2 (User = User /\ _)) by lia. by exists r1, th.
    + rewrite E2, (bool_decide_eq_true_2 (User = User /\ _)) by done. by exists r2, (stable_effective_priority th).2.
  - rewrite E1. by exists r1, th.
Qed.

(** [RunQueue::take] returns and keeps the invariant.  It gives a thread whenever one is
    queued, unless the caller is stealing and every queued thread is pinned, and removes
    exactly that thread.  Realtime threads go first, then timeshare threads, then idle
    ones; a realtime or idle thread is the first of the lowest list of its part. *)
Theorem rq_take_ok `{Build} {L} `{LinkedList Thread L} (N : nat) (r : RunQueue (L := L)) (stealing : bool) :
  pri_step N * Z.of_nat N = MAX_PRIORITY -> rq_ok N r ->
  (RQ_take N r stealing = Ret (r, None) /\
   (queued r = [] \/ (stealing = true /\ Forall (fun th => is_movable th = false) (queued r)))) \/
  exists r' th, RQ_take N r stealing = Ret (r', Some th) /\ rq_ok N r' /\ queued r ≡ₚ th :: queued r' /\
    match pq_queued (realtime r), ts_queued (timeshare r) with
    | first :: _, _ => th = first
    | [], (_ :: _) as ts => th ∈ ts
    | [], [] => exists rest, pq_queued (idle r) = th :: rest
    end.
Proof.
  intros HN Hr. unfold RQ_take. destruct (has_flag_spec N r Hr) as (_ & _ & _ & Ee).
  destruct (RQ_is_empty r) eqn:E0.
  { left. split; [done|]. left. destruct (queued r); [done|]. cbn in Ee. done. }
  destruct (stealing && (movable r =? 0)) eqn:E1.
  { left. split; [done|]. right. apply andb_true_iff in E1 as [-> E1%Z.eqb_eq]. split; [done|].
    rewrite (ro_movable N r Hr) in E1. apply Forall_forall. intros th Hth.
    destruct (is_movable th) eqn:Em; [|done]. exfalso.
    assert (th ∈ filter (fun th => is_movable th = true) (queued r)) as Hf by by apply list_elem_of_filter.
    destruct (filter _ (queued r)); [by apply elem_of_nil in Hf|]. unfold zlen in E1. cbn in E1. lia. }
  right. cbn [orb]. destruct (take_realtime_ok N r Hr) as [[Er ->]|(r1 & th & -> & Hr1 & Eq & P)].
  2:{ cbn [obind]. exists r1, th. rewrite Eq. by split_and!. }
  cbn [obind]. destruct (take_timeshare_ok N HN r Hr) as [[Et ->]|(r2 & th & -> & Hr2 & Hin & P)].
  2:{ cbn [obind]. exists r2, th. rewrite Er. destruct (ts_queued (timeshare r)); [by apply elem_of_nil in Hin|]. by split_and!. }
  cbn [obind]. destruct (take_idle_ok N r Hr) as [[Ei ->]|(r3 & th & -> & Hr3 & Eq & P)].
  { exfalso. unfold queued in Ee. by rewrite Er, Et, Ei in Ee. }
  cbn [obind]. exists r3, th. rewrite Er, Et. split_and!; eauto.
Qed.

(** Threads for the examples: name, priority, pinning. *)
Definition demo (i : Z) (p : Priority) (pin : option Z) : Thread := mkThread i (raw p) (raw p) 0 u32_MAX pin 100.
Abbreviation NewRQ := (RQ_new (L := list Thread) NR_QUEUES).

Definition demo_rq `{Build} : RunQueue (L := list Thread) :=
  ret_or NewRQ (let! (r, _) := RQ_insert NR_QUEUES 5 NewRQ (demo 1 USER None) false in
    let! (r, _) := RQ_insert NR_QUEUES 5 r (demo 2 IDLE (Some 0)) false in Ret r).

Lemma nr_queues_step : pri_step NR_QUEUES * Z.of_nat NR_QUEUES = MAX_PRIORITY.
Proof. reflexivity. Qed.

Lemma rq_insert_ok_witness :
  exists r' th', RQ_insert (H := true) NR_QUEUES 5 NewRQ (demo 1 USER None) false = Ret (r', true) /\
    rq_ok NR_QUEUES r' /\ queued r' ≡ₚ [th'].
Proof.
  destruct (RQ_new_ok (L := list Thread) NR_QUEUES nr_queues_step) as [Hr E].
  destruct (rq_insert_ok (H := true) NR_QUEUES 5 NewRQ (demo 1 USER None) false nr_queues_step Hr)
    as (r' & th' & E1 & H1 & P & _); [split; vm_compute; congruence|reflexivity|reflexivity|].
  exists r', th'. rewrite E1. rewrite E in P. by split_and!.
Defined.

Lemma rq_take_ok_witness :
  exists th r', RQ_take (H := true) NR_QUEUES (demo_rq (H := true)) false = Ret (r', Some th) /\ id th = 1.
Proof.
  assert (rq_ok NR_QUEUES (demo_rq (H := true))) as Hr.
  { split; [split; reflexivity| |split; reflexivity|reflexivity|reflexivity|reflexivity|reflexivity|reflexivity].
    split; try reflexivity; [vm_compute; lia|vm_compute; lia| |].
    - repeat constructor. vm_compute. congruence.
    - intros i Hi. do 8 (destruct i as [|i]; [reflexivity|]). unfold NR_QUEUES in Hi. lia. }
  destruct (rq_take_ok (H := true) NR_QUEUES (demo_rq (H := true)) false nr_queues_step Hr)
    as [[E _]|(r' & th & E & _ & _ & Hm)]; [by vm_compute in E|].
  exists th, r'. split; [exact E|]. vm_compute in Hm. apply list_elem_of_singleton in Hm. by rewrite Hm.
Defined.

(** [PriorityQueue::take] scans its lists from index 0, the lowest priority, while
    [insert] puts a thread at an index that grows with its priority and
    [highest_priority] reports the highest index: with an interrupt-priority thread
    queued first and a lower realtime thread second, the queue reports priority 112 and
    [take] gives the lower one. *)
Theorem take_gives_lowest `{Build} :
  let lo := demo 2 (mkPriority Realtime 3) None in
  let hi := demo 1 INTERRUPT None in
  pri_ltb (effective_priority lo) (effective_priority hi) = true /\
  exists q q', (let! q1 := PQ_insert NR_QUEUES (PQ_new (L := list Thread) NR_QUEUES) hi in PQ_insert NR_QUEUES q1 lo) = Ret q /\
    PQ_highest_priority NR_QUEUES q = Some 112 /\ PQ_take q = Ret (q', Some lo).
Proof.
  intros lo hi. split; [reflexivity|].
  set (m := let! q1 := _ in _).
  exists (ret_or (PQ_new NR_QUEUES) m). eexists. split_and!; vm_compute; reflexivity.
Qed.

(** Stealing takes pinned threads.  [take] refuses to steal only when nothing queued is
    movable; when something is, it still gives the next thread, here one pinned to its
    processor. *)
Theorem steal_takes_pinned `{Build} :
  exists r r', (let! (r, _) := RQ_insert NR_QUEUES 5 NewRQ (demo 1 REALTIME (Some 0)) false in
      let! (r, _) := RQ_insert NR_QUEUES 5 r (demo 2 USER None) false in Ret r) = Ret r /\
    RQ_take NR_QUEUES r true = Ret (r', Some (demo 1 REALTIME (Some 0))).
Proof.
  set (m := let! _ := _ in _). exists (ret_or NewRQ m). eexists. split; vm_compute; reflexivity.
Qed.
End RunQueueInv.
