(* ===== verification/IdCounter.v ===== *)
(** * Identifier allocation ([src/kernel/src/idcounter.rs])

    [IdCounter] hands out 64-bit identifiers: a released one if there is any, else the
    next value of an atomic counter.  Each operation has one effect on the shared state
    (a pop or a push under the lock, or a [fetch_add]), so a run is a sequence of
    operations; [live] is the identifiers currently held by callers. *)
From S2P Require Import Prelude.

#[local] Open Scope Z_scope.

Module IdCounter.

(** [reuse] is a [Once] that holds the vector after the first release. *)
Record IdCounter := mkIdCounter { counter : Z; reuse : option (list Z) }.

Definition IdCounter_new : IdCounter := mkIdCounter 1 None.

(** A [Vec] as a list with its last element first. *)
Definition next (c : IdCounter) : IdCounter * Z :=
  match reuse c with
  | Some (id :: ids) => (mkIdCounter (counter c) (Some ids), id)
  | _ => (mkIdCounter (wrap 64 (counter c + 1)) (reuse c), counter c)
  end.

(** [next_simple] repeats the code of [next] for a bare identifier. *)
Definition next_simple (c : IdCounter) : IdCounter * Z :=
  match reuse c with
  | Some (id :: ids) => (mkIdCounter (counter c) (Some ids), id)
  | _ => (mkIdCounter (wrap 64 (counter c + 1)) (reuse c), counter c)
  end.

Definition release (c : IdCounter) (id : Z) : outcome IdCounter :=
  let! _ := rassert (0 <? id) in
  let ids := match reuse c with Some ids => ids | None => [] end in
  Ret (mkIdCounter (counter c) (Some (id :: ids))).

(** [release_simple] and the drop of an [Id] release it. *)
Definition release_simple (c : IdCounter) (id : Z) : outcome IdCounter := release c id.
Definition drop_id (c : IdCounter) (id : Z) : outcome IdCounter := release c id.

Inductive op := Next | NextSimple | Drop (k : nat) | ReleaseSimple (k : nat).

(** A caller takes an identifier, or gives back the [k]-th of those it holds. *)
Definition step (s : IdCounter * list Z) (o : op) : outcome (IdCounter * list Z) :=
  let (c, live) := s in
  match o with
  | Next => let (c', id) := next c in Ret (c', id :: live)
  | NextSimple => let (c', id) := next_simple c in Ret (c', id :: live)
  | Drop k | ReleaseSimple k =>
      match live !! k with
      | None => Ret s
      | Some id =>
          let! c' := match o with Drop _ => drop_id c id | _ => release_simple c id end in
          Ret (c', take k live ++ drop (S k) live)
      end
  end.

Fixpoint run (s : IdCounter * list Z) (os : list op) : outcome (IdCounter * list Z) :=
  match os with
  | [] => Ret s
  | o :: os' => let! s' := step s o in run s' os'
  end.

Definition free (c : IdCounter) : list Z := match reuse c with Some ids => ids | None => [] end.

(** Held and released identifiers together are [1 .. counter - 1], each once. *)
Record ids_ok (bound : Z) (s : IdCounter * list Z) : Prop := mkIdsOk {
  ido_range : 1 <= counter s.1 <= bound;
  ido_perm : s.2 ++ free s.1 ≡ₚ seqZ 1 (counter s.1 - 1) }.

Lemma next_ok bound c live :
  bound < 2 ^ 64 - 1 -> ids_ok bound (c, live) ->
  let (c', id) := next c in ids_ok (bound + 1) (c', id :: live).
Proof.
  intros Hb [Hr Hp]. unfold next, free in *. cbn [fst snd] in *.
  assert (ids_ok (bound + 1) (mkIdCounter (wrap 64 (counter c + 1)) (reuse c), counter c :: live)) as Hfresh.
  { split; cbn [fst snd counter]; rewrite wrap_small by lia; [lia|]. unfold free. cbn [reuse].
    replace (counter c + 1 - 1) with (counter c - 1 + 1) by lia. rewrite seqZ_app by lia.
    rewrite <- Hp. replace (1 + (counter c - 1)) with (counter c) by lia. cbn. solve_Permutation. }
  destruct (reuse c) as [[|id ids]|] eqn:E; [done| |done].
  split; cbn [fst snd counter]; [lia|]. unfold free. cbn [reuse]. rewrite <- Hp. solve_Permutation.
Qed.

Lemma release_ok bound c live k id :
  ids_ok bound (c, live) -> live !! k = Some id ->
  exists c', release c id = Ret c' /\ ids_ok bound (c', take k live ++ drop (S k) live).
Proof.
  intros [Hr Hp] Hk. cbn [fst snd] in *. unfold release.
  assert (0 < id) as Hid.
  { assert (id ∈ seqZ 1 (counter c - 1)) as Hin.
    { rewrite <- Hp. apply elem_of_app. left. by eapply list_elem_of_lookup_2. }
    apply elem_of_seqZ in Hin. lia. }
  rewrite (proj2 (Z.ltb_lt 0 id) Hid). cbn [rassert obind]. eexists. split; [done|].
  split; cbn [fst snd counter]; [done|]. rewrite <- Hp. rewrite <- (take_drop_middle live k id Hk) at 3.
  unfold free. cbn [reuse]. solve_Permutation.
Qed.

Lemma run_ok os bound s :
  ids_ok bound s -> bound + zlen os < 2 ^ 64 ->
  exists s', run s os = Ret s' /\ ids_ok (bound + zlen os) s'.
Proof.
  revert bound s. induction os as [|o os IH]; intros bound [c live] Hs Hb; unfold zlen in *; cbn [length] in *.
  { exists (c, live). by rewrite Z.add_0_r. }
  assert (exists s1, step (c, live) o = Ret s1 /\ ids_ok (bound + 1) s1) as (s1 & E1 & H1).
  { destruct o as [| |k|k]; cbn [step].
    - pose proof (next_ok bound c live ltac:(lia) Hs) as Hn. destruct (next c). eauto.
    - pose proof (next_ok bound c live ltac:(lia) Hs) as Hn. change (next_simple c) with (next c). destruct (next c). eauto.
    - destruct (live !! k) as [id|] eqn:Hk; [|eexists; split; [done|]; destruct Hs; split; [lia|done]].
      destruct (release_ok bound c live k id Hs Hk) as (c' & E & [H1 H2]). unfold drop_id. rewrite E. cbn.
      eexists. split; [done|]. split; [lia|done].
    - destruct (live !! k) as [id|] eqn:Hk; [|eexists; split; [done|]; destruct Hs; split; [lia|done]].
      destruct (release_ok bound c live k id Hs Hk) as (c' & E & [H1 H2]). unfold release_simple. rewrite E. cbn.
      eexists. split; [done|]. split; [lia|done]. }
  cbn [run]. rewrite E1. cbn [obind]. destruct (IH (bound + 1) s1 H1 ltac:(lia)) as (s' & E & Hs').
  exists s'. split; [done|]. by replace (bound + Z.of_nat (S (length os))) with (bound + 1 + Z.of_nat (length os)) by lia.
Qed.

(** In any sequence of operations on a new counter (fewer than it can count) no
    operation panics, and at the end the identifiers in use are positive and pairwise
    distinct: an identifier is reused only after it was given back. *)
Theorem ids_distinct (os : list op) :
  zlen os + 1 < 2 ^ 64 ->
  exists c live, run (IdCounter_new, []) os = Ret (c, live) /\ NoDup live /\ Forall (fun id => 0 < id) live.
Proof.
  intros Hb. destruct (run_ok os 1 (IdCounter_new, [])) as ([c live] & E & [Hr Hp]); [by split|lia|].
  exists c, live. split; [done|]. cbn [fst snd] in *.
  assert (NoDup (live ++ free c)) as Hnd by (rewrite Hp; apply NoDup_seqZ).
  apply NoDup_app in Hnd as (Hnd & _ & _). split; [done|].
  apply Forall_forall. intros id Hid.
  assert (id ∈ seqZ 1 (counter c - 1)) as Hin by (rewrite <- Hp; apply elem_of_app; by left).
  apply elem_of_seqZ in Hin. lia.
Qed.

Lemma ids_distinct_witness :
  exists c live, run (IdCounter_new, []) [Next; NextSimple; Next; Drop 1; ReleaseSimple 0; Next] = Ret (c, live) /\
    NoDup live.
Proof.
  destruct (ids_distinct [Next; NextSimple; Next; Drop 1; ReleaseSimple 0; Next]) as (c & live & E & Hn & _); [reflexivity|].
  exists c, live. by split.
Defined.
End IdCounter.
