(* ===== verification/Mutex.v ===== *)
(** * The sleeping mutex ([src/kernel/src/mutex.rs])

    [Mutex::lock] takes the mutex if it is free; otherwise the thread links itself in the
    queue, donates its priority to the owner and sleeps, and tries again when it runs.
    Releasing the mutex wakes the first sleeper.  The queue is under a spinlock, so each
    pass through that critical section is one step here ([lock_try], [release],
    [unlink]), and [exec] interleaves the steps of any number of threads.  A sleeping
    thread runs again when [release] schedules it or when something else does (a
    timeout); in the second case it is still linked until it takes the spinlock to unlink
    itself, and [release] can take it off the queue before that.  Calls of [lock] before
    there are threads are not modelled.

    [mutex_exclusive]: at most one thread holds the mutex.  [mutex_no_lost_wakeup]: when
    threads sleep on a free mutex, a thread is on its way to take it.
    [unlock_drops_donation]: the priority donated through one mutex is lost when its
    owner releases another. *)
From S2P Require Import Prelude Intrusive Priority.
Import Priority.

#[local] Open Scope Z_scope.

Module Mutex.
Section mutex.
Context {L : Type} `{LinkedList nat L}.

Abbreviation threads := (gmap nat Thread).

Record SleepQueue := mkSQ { queue : L; pri : option Priority; owner : option nat; owned : bool }.

Definition Mutex_new : SleepQueue := mkSQ ll_new None None false.

Definition thread_of (ths : threads) (t : nat) : outcome Thread := unwrap (ths !! t).

(** [donate_priority] to thread [t]; a reschedule has no effect on the mutex. *)
Definition donate (ths : threads) (t : nat) (p : Priority) : outcome threads :=
  let! th := thread_of ths t in Ret (<[t := (donate_priority None th p).1.1]> ths).

(** [iter().map(effective_priority).max()]; [max] of equal elements is the last one. *)
Definition queue_pri (ths : threads) (l : list nat) : option Priority :=
  foldl (fun m t =>
    match ths !! t with
    | Some th => Some (match m with Some p => if pri_ltb (effective_priority th) p then p else effective_priority th
                                  | None => effective_priority th end)
    | None => m
    end) None l.

(** The start of [lock]: the assertions, and the donation to restore on unlock.  [crit] are the
    threads in a critical section ([is_critical]). *)
Definition lock_enter (q : SleepQueue) (crit : gset nat) (ths : threads) (t : nat) : outcome (option Priority) :=
  let! _ := rassert (negb (bool_decide (t ∈ crit))) in
  let! _ := rassert (negb (bool_decide (t ∈ ll_list (queue q)))) in
  let! th := thread_of ths t in Ret (get_donated_priority th).

Inductive tried := Taken | Slept | Spin.

(** One pass of the loop of [lock] through the critical section. *)
Definition lock_try (q : SleepQueue) (ths : threads) (t : nat) : outcome (SleepQueue * threads * tried) :=
  if negb (owned q) then
    let! ths' := match pri q with Some p => donate ths t p | None => Ret ths end in
    Ret (mkSQ (queue q) (pri q) (Some t) true, ths', Taken)
  else if bool_decide (owner q = Some t) then Panic
  else
    let! th := thread_of ths t in
    if is_idle_thread th then Ret (q, ths, Spin)
    else
      let l := ll_push_back (queue q) t in
      let p := queue_pri ths (ll_list l) in
      let! ths' :=
        match owner q, p with
        | Some o, Some p' =>
            let! oth := thread_of ths o in
            if pri_ltb (effective_priority oth) p' then donate ths o p' else Ret ths
        | _, _ => Ret ths
        end in
      Ret (mkSQ l p (owner q) (owned q), ths', Slept).

(** After the sleep: a thread that is still linked removes itself, and asserts that it is not. *)
Definition unlink (q : SleepQueue) (t : nat) : outcome SleepQueue :=
  let q' := if bool_decide (t ∈ ll_list (queue q))
            then mkSQ (ll_remove (fun x => Nat.eqb x t) (queue q)) (pri q) (owner q) (owned q) else q in
  let! _ := rassert (negb (bool_decide (t ∈ ll_list (queue q')))) in Ret q'.

(** [release]; also the thread scheduled. *)
Definition release (q : SleepQueue) : SleepQueue * option nat :=
  match ll_pop_front (queue q) with
  | (Some t, l) => (mkSQ l (pri q) None false, Some t)
  | (None, l) => (mkSQ l None None false, None)
  end.

(** [LockGuard::drop] by thread [t], which had the donation [prev] when it locked. *)
Definition guard_drop (q : SleepQueue) (ths : threads) (t : nat) (prev : option Priority)
    : outcome (SleepQueue * threads * option nat) :=
  let! th := thread_of ths t in
  let th1 := remove_donated_priority th in
  let th2 := match prev with Some p => (donate_priority None th1 p).1.1 | None => th1 end in
  let (q', w) := release q in
  Ret (q', <[t := th2]> ths, w).

(** ** Any number of threads *)
Inductive mpc :=
| Out                             (* not using the mutex *)
| Trying (prev : option Priority) (* in the loop of [lock], running *)
| Asleep (prev : option Priority) (* sleeping, linked in the queue *)
| Woken (prev : option Priority)  (* scheduled by [release], which took it off the queue *)
| Late (prev : option Priority)   (* scheduled by something else, has not unlinked itself yet *)
| Holding (prev : option Priority).

Record sys := mkSys { mx : SleepQueue; ths : threads; pcs : gmap nat mpc; crit : gset nat }.

Inductive event :=
| EvLock (t : nat)     (* calls [lock] *)
| EvTry (t : nat)
| EvTimeout (t : nat)  (* a sleeping thread is scheduled by something else *)
| EvRun (t : nat)      (* a thread that was scheduled goes on after its sleep *)
| EvUnlock (t : nat)   (* drops its guard *)
| EvCritical (t : nat) (b : bool). (* enters or leaves a critical section, outside of [lock] *)

Definition wake (pcs : gmap nat mpc) (w : option nat) : gmap nat mpc :=
  match w with
  | Some t => match pcs !! t with Some (Asleep prev) => <[t := Woken prev]> pcs | _ => pcs end
  | None => pcs
  end.

(** A thread goes on behind [finish_blocking]. *)
Definition resume (s : sys) (t : nat) (prev : option Priority) : outcome sys :=
  let! q := unlink (mx s) t in Ret (mkSys q (ths s) (<[t := Trying prev]> (pcs s)) (crit s)).

Definition exec (s : sys) (e : event) : outcome sys :=
  match e with
  | EvLock t =>
      match pcs s !! t with
      | Some Out | Some (Holding _) =>
          let! prev := lock_enter (mx s) (crit s) (ths s) t in
          match pcs s !! t with
          | Some Out => Ret (mkSys (mx s) (ths s) (<[t := Trying prev]> (pcs s)) (crit s))
          | _ => (* the first pass, by a thread that already holds it *)
              let! (q, ths', _) := lock_try (mx s) (ths s) t in Ret (mkSys q ths' (pcs s) (crit s))
          end
      | _ => Ret s
      end
  | EvTry t =>
      match pcs s !! t with
      | Some (Trying prev) =>
          let! (q, ths', r) := lock_try (mx s) (ths s) t in
          Ret (mkSys q ths' (<[t := match r with Taken => Holding prev | Slept => Asleep prev | Spin => Trying prev end]> (pcs s)) (crit s))
      | _ => Ret s
      end
  | EvTimeout t =>
      match pcs s !! t with
      | Some (Asleep prev) => Ret (mkSys (mx s) (ths s) (<[t := Late prev]> (pcs s)) (crit s))
      | _ => Ret s
      end
  | EvRun t =>
      match pcs s !! t with
      | Some (Woken prev) | Some (Late prev) => resume s t prev
      | _ => Ret s
      end
  | EvUnlock t =>
      match pcs s !! t with
      | Some (Holding prev) =>
          let! (q, ths', w) := guard_drop (mx s) (ths s) t prev in
          Ret (mkSys q ths' (wake (<[t := Out]> (pcs s)) w) (crit s))
      | _ => Ret s
      end
  | EvCritical t b =>
      match pcs s !! t with
      | Some Out | Some (Holding _) => Ret (mkSys (mx s) (ths s) (pcs s) (if b then {[t]} ∪ crit s else crit s ∖ {[t]}))
      | _ => Ret s
      end
  end.

Fixpoint run (s : sys) (es : list event) : outcome sys :=
  match es with
  | [] => Ret s
  | e :: es' => let! s' := exec s e in run s' es'
  end.

Inductive sys_step : sys -> sys -> Prop :=
| sys_step_exec s e s' : exec s e = Ret s' -> sys_step s s'.

(** A free mutex and threads that do not use it yet. *)
Definition init (ths : threads) : sys := mkSys Mutex_new ths ((fun _ => Out) <$> ths) ∅.

(** ** The invariant *)
Definition coming (pcs : gmap nat mpc) : Prop :=
  exists t prev, pcs !! t = Some (Trying prev) \/ pcs !! t = Some (Woken prev) \/ pcs !! t = Some (Late prev).

Record Inv (s : sys) : Prop := mkInv {
  in_holder : forall t prev, pcs s !! t = Some (Holding prev) -> owned (mx s) = true /\ owner (mx s) = Some t;
  in_owned : owned (mx s) = true -> exists t prev, owner (mx s) = Some t /\ pcs s !! t = Some (Holding prev);
  in_queue : forall t, t ∈ ll_list (queue (mx s)) -> exists prev, pcs s !! t = Some (Asleep prev) \/ pcs s !! t = Some (Late prev);
  in_asleep : forall t prev, pcs s !! t = Some (Asleep prev) -> t ∈ ll_list (queue (mx s));
  in_nodup : NoDup (ll_list (queue (mx s)));
  in_wake : ll_list (queue (mx s)) <> [] -> owned (mx s) = true \/ coming (pcs s);
  in_known : forall t pc, pcs s !! t = Some pc -> is_Some (ths s !! t) }.

Lemma mutex_init_inv (m : threads) : Inv (init m).
Proof.
  assert (forall t pc, ((fun _ => Out) <$> m) !! t = Some pc -> pc = Out) as Hout.
  { intros t pc. rewrite lookup_fmap. destruct (m !! t); by intros [= <-]. }
  split; cbn [init mx ths pcs queue owned owner Mutex_new].
  - intros t prev Ht. apply Hout in Ht. done.
  - done.
  - intros t. rewrite ll_new_spec. by intros ?%elem_of_nil.
  - intros t prev Ht. apply Hout in Ht. done.
  - rewrite ll_new_spec. constructor.
  - by rewrite ll_new_spec.
  - intros t pc. rewrite lookup_fmap. destruct (m !! t); [eauto|done].
Qed.

(** The threads known stay known. *)
Lemma donate_known (m m' : threads) t p : donate m t p = Ret m' -> forall u, is_Some (m !! u) -> is_Some (m' !! u).
Proof.
  unfold donate, thread_of. destruct (m !! t); [|done]. cbn. intros E%Ret_inj u Hu. subst m'.
  destruct (decide (u = t)) as [->|]; [rewrite lookup_insert_eq; eauto|by rewrite lookup_insert_ne].
Qed.

Lemma donate_ret (m : threads) t p : is_Some (m !! t) -> exists m', donate m t p = Ret m'.
Proof. intros [th E]. unfold donate, thread_of. rewrite E. cbn. eauto. Qed.

(** The invariant does not depend on who is in a critical section. *)
Lemma Inv_crit q m p c c' : Inv (mkSys q m p c) -> Inv (mkSys q m p c').
Proof. intros [? ? ? ? ? ? ?]. by split. Qed.

(** A thread that is not on the queue has not slept. *)
Lemma Inv_unlinked q m p c t pc : Inv (mkSys q m p c) -> p !! t = Some pc ->
  (forall prev, pc <> Asleep prev /\ pc <> Late prev) -> t ∉ ll_list (queue q).
Proof. intros Hi Hp Hpc [prev Hq]%(in_queue _ Hi). cbn in Hq. destruct (Hpc prev), Hq; congruence. Qed.

(** Moving [t], which does not hold the mutex, to trying or to being late. *)
Lemma Inv_move q m p c t pc pc' prev :
  Inv (mkSys q m p c) -> p !! t = Some pc -> (forall pv, pc <> Holding pv) ->
  (pc' = Late prev \/ pc' = Trying prev /\ t ∉ ll_list (queue q)) ->
  Inv (mkSys q m (<[t := pc']> p) c).
Proof.
  intros [H1 H2 H3 H3' H4 H5 H6] Hp Hpc Hc. cbn in *. split; cbn.
  - intros u pv [[-> E]|[Hne Hu]]%lookup_insert_Some; [destruct Hc as [->|[-> _]]; done|eauto].
  - intros Ho. destruct (H2 Ho) as (u & pv & Hou & Hu). exists u, pv. split; [done|].
    rewrite lookup_insert_ne; [done|]. intros ->. rewrite Hp in Hu. injection Hu as ->. by apply (Hpc pv).
  - intros u Hu. destruct (decide (u = t)) as [->|]; [|rewrite lookup_insert_ne by done; eauto].
    destruct Hc as [->|[_ ?]]; [|done]. exists prev. right. apply lookup_insert_eq.
  - intros u pv [[-> E]|[Hne Hu]]%lookup_insert_Some; [destruct Hc as [->|[-> _]]; done|eauto].
  - done.
  - intros _. right. exists t, prev. rewrite lookup_insert_eq. destruct Hc as [->|[-> _]]; eauto.
  - intros u pc0 [[-> _]|[_ Hu]]%lookup_insert_Some; eauto.
Qed.

(** A thread takes the free mutex. *)
Lemma Inv_taken q m m' p c t prev pr :
  Inv (mkSys q m p c) -> owned q = false -> p !! t = Some (Trying prev) ->
  (forall u, is_Some (m !! u) -> is_Some (m' !! u)) ->
  Inv (mkSys (mkSQ (queue q) pr (Some t) true) m' (<[t := Holding prev]> p) c).
Proof.
  intros Hi Ho Hp Hm. pose proof (Inv_unlinked _ _ _ _ _ _ Hi Hp ltac:(done)) as Hnq.
  destruct Hi as [H1 H2 H3 H3' H4 H5 H6]. cbn in *. split; cbn.
  - intros u prev' [[-> E]|[Hne Hu]]%lookup_insert_Some; [done|]. destruct (H1 u prev' Hu). congruence.
  - intros _. exists t, prev. by rewrite lookup_insert_eq.
  - intros u Hu. rewrite lookup_insert_ne by (by intros ->). eauto.
  - intros u pv [[-> E]|[Hne Hu]]%lookup_insert_Some; [done|eauto].
  - done.
  - by left.
  - intros u pc [[-> _]|[_ Hu]]%lookup_insert_Some; eauto.
Qed.

(** A thread links itself in the queue of a mutex somebody holds. *)
Lemma Inv_slept q m m' p c t prev l pr :
  Inv (mkSys q m p c) -> owned q = true -> p !! t = Some (Trying prev) ->
  ll_list l = ll_list (queue q) ++ [t] ->
  (forall u, is_Some (m !! u) -> is_Some (m' !! u)) ->
  Inv (mkSys (mkSQ l pr (owner q) (owned q)) m' (<[t := Asleep prev]> p) c).
Proof.
  intros Hi Ho Hp El Hm. pose proof (Inv_unlinked _ _ _ _ _ _ Hi Hp ltac:(done)) as Hnq.
  destruct Hi as [H1 H2 H3 H3' H4 H5 H6]. cbn in *. split; cbn; rewrite ?El.
  - intros u prev' [[-> E]|[Hne Hu]]%lookup_insert_Some; [done|eauto].
  - intros _. destruct (H2 Ho) as (u & prev' & Hou & Hu). exists u, prev'. split; [done|].
    rewrite lookup_insert_ne; [done|]. intros ->. congruence.
  - intros u [Hu| ->%list_elem_of_singleton]%elem_of_app; [rewrite lookup_insert_ne by (by intros ->); eauto|].
    exists prev. left. apply lookup_insert_eq.
  - intros u pv [[-> E]|[Hne Hu]]%lookup_insert_Some; apply elem_of_app; [right; by left|left; eauto].
  - apply NoDup_app. split_and!; [done| |apply NoDup_singleton]. by intros u Hu ->%list_elem_of_singleton.
  - by left.
  - intros u pc [[-> _]|[_ Hu]]%lookup_insert_Some; eauto.
Qed.

(** A thread that was scheduled removes itself and tries again. *)
Lemma unlink_spec (q : SleepQueue) t :
  NoDup (ll_list (queue q)) ->
  exists q', unlink q t = Ret q' /\ NoDup (ll_list (queue q')) /\ owner q' = owner q /\ owned q' = owned q /\
  (forall u, u ∈ ll_list (queue q') <-> u ∈ ll_list (queue q) /\ u <> t).
Proof.
  intros Hnd. unfold unlink. cbv zeta. destruct (decide (t ∈ ll_list (queue q))) as [Ht|Ht].
  - rewrite (bool_decide_eq_true_2 _ Ht). apply list_elem_of_split in Ht as (xs & ys & E). rewrite E in Hnd.
    assert ((t ∉ xs) /\ (t ∉ ys)) as [Hx Hy].
    { apply NoDup_app in Hnd as (_ & Hd & [Hy _]%NoDup_cons). split; [|done]. intros Hx. apply (Hd t Hx). by left. }
    assert (El : ll_list (ll_remove (fun x => Nat.eqb x t) (queue q)) = xs ++ ys).
    { apply (ll_remove_some _ _ xs t ys E); [|apply Nat.eqb_refl]. apply Forall_forall. intros u Hu. apply Nat.eqb_neq. by intros ->. }
    cbn [queue]. rewrite El, bool_decide_eq_false_2 by (rewrite elem_of_app; tauto). eexists. split; [reflexivity|]. cbn. rewrite El.
    split_and!; [|done..|].
    + apply NoDup_app in Hnd as (Hn1 & Hd & [_ Hn2]%NoDup_cons). apply NoDup_app. split_and!; [done| |done].
      intros u Hu Hu2. apply (Hd u Hu). by right.
    + intros u. rewrite E, !elem_of_app, elem_of_cons. naive_solver.
  - rewrite !(bool_decide_eq_false_2 _ Ht). eexists. split; [reflexivity|]. split_and!; [done..|]. intros u. split; [|tauto].
    intros Hu. split; [done|]. by intros ->.
Qed.

Lemma Inv_resume q m p c t prev :
  Inv (mkSys q m p c) -> (p !! t = Some (Late prev) \/ p !! t = Some (Woken prev)) ->
  exists s', resume (mkSys q m p c) t prev = Ret s' /\ Inv s'.
Proof.
  intros [H1 H2 H3 H3' H4 H5 H6] Hp. cbn in *. destruct (unlink_spec q t H4) as (q' & E & Hn & Eo & Ed & Hq).
  unfold resume. cbn. rewrite E. cbn. eexists. split; [reflexivity|]. split; cbn; rewrite ?Eo, ?Ed.
  - intros u prev' [[-> ?]|[Hne Hu]]%lookup_insert_Some; [done|eauto].
  - intros Ho. destruct (H2 Ho) as (u & prev' & Hou & Hu). exists u, prev'. split; [done|].
    rewrite lookup_insert_ne; [done|]. intros ->. destruct Hp; congruence.
  - intros u [Hu Hne]%Hq. rewrite lookup_insert_ne by done. eauto.
  - intros u pv [[-> ?]|[Hne Hu]]%lookup_insert_Some; [done|]. apply Hq. eauto.
  - done.
  - intros _. right. exists t, prev. left. apply lookup_insert_eq.
  - intros u pc [[-> _]|[_ Hu]]%lookup_insert_Some; [|eauto]. destruct Hp; eauto.
Qed.

(** The owner releases the mutex; who is first on the queue is scheduled. *)
Lemma wake_lookup p w u pc : wake p w !! u = Some pc ->
  p !! u = Some pc \/ w = Some u /\ exists prev, p !! u = Some (Asleep prev) /\ pc = Woken prev.
Proof.
  unfold wake. destruct w as [x|]; [|by left]. destruct (p !! x) as [[]|] eqn:E; try (by left).
  intros [[-> <-]|[_ ?]]%lookup_insert_Some; [right; eauto|by left].
Qed.

Lemma wake_ne p x u : u <> x -> wake p (Some x) !! u = p !! u.
Proof. intros Hne. unfold wake. destruct (p !! x) as [[]|]; try done. by rewrite lookup_insert_ne. Qed.

Lemma Inv_release_empty q m m' p c t prev :
  Inv (mkSys q m p c) -> p !! t = Some (Holding prev) -> (forall u, is_Some (m !! u) -> is_Some (m' !! u)) ->
  ll_list (queue q) = [] -> Inv (mkSys (mkSQ (queue q) None None false) m' (<[t := Out]> p) c).
Proof.
  intros [H1 H2 H3 H3' H4 H5 H6] Hp Hm Eq. cbn in *. split; cbn; rewrite ?Eq in *; try done.
  - intros u prev' [[-> E]|[Hne Hu]]%lookup_insert_Some; [done|]. destruct (H1 u prev' Hu), (H1 t prev Hp). congruence.
  - by intros u ?%elem_of_nil.
  - intros u pv [[-> E]|[Hne Hu]]%lookup_insert_Some; [done|eauto].
  - intros u pc [[-> _]|[_ Hu]]%lookup_insert_Some; eauto.
Qed.

Lemma Inv_release_first q m m' p c t prev x xs l :
  Inv (mkSys q m p c) -> p !! t = Some (Holding prev) -> (forall u, is_Some (m !! u) -> is_Some (m' !! u)) ->
  ll_list (queue q) = x :: xs -> ll_list l = xs -> Inv (mkSys (mkSQ l (pri q) None false) m' (wake (<[t := Out]> p) (Some x)) c).
Proof.
  intros Hi Hp Hm Eq El. pose proof (Inv_unlinked _ _ _ _ _ _ Hi Hp ltac:(done)) as Hnq. destruct Hi as [H1 H2 H3 H3' H4 H5 H6]. cbn [mx ths pcs queue owned owner] in *.
  rewrite Eq in *. apply NoDup_cons in H4 as [Hnx Hnd]. assert (Hxt : x <> t) by (intros ->; apply Hnq; by left).
  destruct (H3 x ltac:(by left)) as [px Hx]. split; cbn [mx ths pcs queue owned owner]; rewrite ?El; try done.
  - intros u pv [[[-> E]|[Hne Hu]]%lookup_insert_Some|(_ & ? & _ & ?)]%wake_lookup; [done| |done].
    destruct (H1 u pv Hu), (H1 t prev Hp). congruence.
  - intros u Hu. rewrite wake_ne by (by intros ->). rewrite lookup_insert_ne; [apply H3; by right|]. intros ->. apply Hnq. by right.
  - intros u pv Hw. pose proof Hw as [[[-> E]|[Hne Hu]]%lookup_insert_Some|(_ & ? & _ & ?)]%wake_lookup; [done| |done].
    pose proof (H3' u pv Hu) as [?|?]%elem_of_cons; [|done]. subst u. exfalso.
    revert Hw. unfold wake. rewrite lookup_insert_ne, Hu by done. rewrite lookup_insert_eq. done.
  - intros _. right. exists x, px. unfold wake. rewrite lookup_insert_ne by done.
    destruct Hx as [E|E]; rewrite E; [rewrite lookup_insert_eq|rewrite lookup_insert_ne by done]; auto.
  - intros u pc [[[-> _]|[_ Hu]]%lookup_insert_Some|(_ & ? & [[-> _]|[_ Hu]]%lookup_insert_Some & _)]%wake_lookup; eauto.
Qed.

Lemma Inv_release q m m' p c t prev :
  Inv (mkSys q m p c) -> p !! t = Some (Holding prev) ->
  (forall u, is_Some (m !! u) -> is_Some (m' !! u)) ->
  let (q', w) := release q in Inv (mkSys q' m' (wake (<[t := Out]> p) w) c).
Proof.
  intros Hi Hp Hm. unfold release. destruct (ll_list (queue q)) as [|x xs] eqn:Eq.
  - rewrite (ll_front_nil _ Eq). by eapply Inv_release_empty.
  - destruct (ll_front_cons _ x xs Eq) as (l' & -> & El'). by eapply Inv_release_first.
Qed.

(** [lock_try] by a thread that tries: it returns, and keeps the invariant. *)
Lemma try_inv q m p c t prev :
  Inv (mkSys q m p c) -> p !! t = Some (Trying prev) ->
  exists q' m' r, lock_try q m t = Ret (q', m', r) /\
    Inv (mkSys q' m' (<[t := match r with Taken => Holding prev | Slept => Asleep prev | Spin => Trying prev end]> p) c).
Proof.
  intros Hs Hp. pose proof Hs as [H1 H2 H3 H3' H4 H5 H6]. cbn in *. unfold lock_try.
  destruct (H6 t _ Hp) as [th Eth]. destruct (owned q) eqn:Ho; cbn [negb].
  - destruct (H2 eq_refl) as (o & po & Eo & Hpo). rewrite bool_decide_eq_false_2 by congruence.
    unfold thread_of at 1. rewrite Eth. cbn [unwrap obind]. destruct (is_idle_thread th).
    { do 3 eexists. split; [done|]. by rewrite insert_id. }
    set (l := ll_push_back (queue q) t). rewrite Eo.
    assert (exists m', match queue_pri m (ll_list l) with
        | Some p' => let! oth := thread_of m o in if pri_ltb (effective_priority oth) p' then donate m o p' else Ret m
        | None => Ret m end = Ret m' /\ forall u, is_Some (m !! u) -> is_Some (m' !! u)) as (m' & E & Hm).
    { destruct (queue_pri m (ll_list l)) as [p'|]; [|eauto]. destruct (H6 o _ Hpo) as [oth Eoth].
      unfold thread_of. rewrite Eoth. cbn [unwrap obind]. destruct (pri_ltb _ _); [|eauto].
      destruct (donate_ret m o p') as [m' E]; [eauto|]. exists m'. split; [done|]. by eapply donate_known. }
    cbv zeta. fold l. rewrite E. cbn [obind]. do 3 eexists. split; [done|].
    rewrite <- Eo, <- Ho. apply (Inv_slept q m); [done..|apply ll_push_spec|done].
  - assert (exists m', match pri q with Some p0 => donate m t p0 | None => Ret m end = Ret m' /\
        forall u, is_Some (m !! u) -> is_Some (m' !! u)) as (m' & E & Hm).
    { destruct (pri q) as [p0|]; [|eauto]. destruct (donate_ret m t p0) as [m' E]; [eauto|].
      exists m'. split; [done|]. by eapply donate_known. }
    rewrite E. cbn [obind]. do 3 eexists. split; [done|]. by apply (Inv_taken q m).
Qed.

(** A call of [lock] that is not allowed: by the thread that holds the mutex, or in a critical
    section. *)
Definition misused (s : sys) (e : event) : Prop :=
  exists t, e = EvLock t /\ ((exists prev, pcs s !! t = Some (Holding prev)) \/ pcs s !! t = Some Out /\ t ∈ crit s).

Lemma enter_ret q m p c t pc :
  Inv (mkSys q m p c) -> p !! t = Some pc -> (pc = Out \/ exists prev, pc = Holding prev) ->
  if bool_decide (t ∈ c) then lock_enter q c m t = Panic else exists prev, lock_enter q c m t = Ret prev.
Proof.
  intros Hi Hp Hpc. unfold lock_enter. case_bool_decide; [done|]. cbn [negb rassert obind].
  rewrite bool_decide_eq_false_2 by (eapply Inv_unlinked; [done..|]; destruct Hpc as [->|[? ->]]; done).
  cbn [negb rassert obind]. destruct (in_known _ Hi t _ Hp) as [th E]. cbn in E. unfold thread_of. rewrite E. cbn. eauto.
Qed.

Lemma unlock_inv q m p c t prev :
  Inv (mkSys q m p c) -> p !! t = Some (Holding prev) ->
  exists q' m' w, guard_drop q m t prev = Ret (q', m', w) /\ Inv (mkSys q' m' (wake (<[t := Out]> p) w) c).
Proof.
  intros Hs Hp. destruct (in_known _ Hs t _ Hp) as [th E]. cbn in E. unfold guard_drop, thread_of. rewrite E.
  cbn [unwrap obind]. set (th2 := match prev with Some _ => _ | None => _ end).
  pose proof (Inv_release q m (<[t := th2]> m) p c t prev Hs Hp) as Hr.
  destruct (release q) as [q' w]. do 3 eexists. split; [done|]. apply Hr. intros u Hu.
  destruct (decide (u = t)) as [->|]; [rewrite lookup_insert_eq; eauto|by rewrite lookup_insert_ne].
Qed.

(** What an event does: it panics, or it leads to a state with the invariant. *)
Definition goes (s : sys) (e : event) : Prop :=
  (misused s e /\ exec s e = Panic) \/ (~ misused s e /\ exists s', exec s e = Ret s' /\ Inv s').

Lemma exec_lock q m p c t : Inv (mkSys q m p c) -> goes (mkSys q m p c) (EvLock t).
Proof.
  intros Hs. unfold goes. cbn [exec pcs mx ths crit].
  destruct (p !! t) as [pc|] eqn:Hp;
    [|right; split; [intros (? & [= <-] & [[? Hx]|[Hx _]]); cbn in Hx; congruence|eauto]].
  destruct pc as [|prev|prev|prev|prev|prev];
    try (right; split; [intros (? & [= <-] & [[? Hx]|[Hx _]]); cbn in Hx; congruence|]; by eauto).
  - pose proof (enter_ret q m p c t Out Hs Hp (or_introl eq_refl)) as He. case_bool_decide as Hc.
    { rewrite He. left. split; [|done]. exists t. split; [done|]. by right. }
    destruct He as [pv ->]. cbn [obind]. right. split; [intros (? & [= <-] & [[? Hx]|[_ Hx]]); cbn in Hx; [congruence|done]|].
    eexists. split; [done|]. eapply (Inv_move q m p c t Out _ pv); [done..|]. right. split; [done|]. by eapply Inv_unlinked.
  - left. split; [exists t; split; [done|]; left; eauto|].
    pose proof (enter_ret q m p c t _ Hs Hp (or_intror (ex_intro _ prev eq_refl))) as He.
    case_bool_decide; [by rewrite He|]. destruct He as [pv ->]. cbn [obind].
    destruct (in_holder _ Hs t prev Hp) as [Ho Eo]. cbn in Ho, Eo. unfold lock_try. rewrite Ho. cbn [negb]. by rewrite bool_decide_eq_true_2.
Qed.

Lemma mutex_exec_inv s e : Inv s -> goes s e.
Proof.
  intros Hs. destruct s as [q m p c]. destruct e as [t|t|t|t|t|t b]; [by apply exec_lock|..];
    (right; split; [by intros (? & [=] & _)|]); cbn [exec pcs mx ths crit];
    destruct (p !! t) as [pc|] eqn:Hp; eauto; destruct pc as [|prev|prev|prev|prev|prev]; eauto.
  - destruct (try_inv q m p c t prev Hs Hp) as (q' & m' & r & -> & Hi). cbn [obind]. eauto.
  - eexists. split; [done|]. eapply (Inv_move q m p c t _ _ prev); [done..|by left].
  - apply Inv_resume; [done|by right].
  - apply Inv_resume; [done|by left].
  - destruct (unlock_inv q m p c t prev Hs Hp) as (q' & m' & w & -> & Hi). cbn [obind]. eauto.
  - eexists. split; [done|]. by eapply Inv_crit.
  - eexists. split; [done|]. by eapply Inv_crit.
Qed.

Lemma mutex_reachable_inv m s : rtc sys_step (init m) s -> Inv s.
Proof.
  apply (rtc_invariant sys_step Inv); [apply mutex_init_inv|].
  intros s0 s1 Hi Hst. destruct Hst as [s0 e s1 E]. destruct (mutex_exec_inv s0 e Hi) as [[_ E']|(_ & s' & E' & Hs')]; [congruence|].
  rewrite E in E'. by apply Ret_inj in E' as ->.
Qed.

Lemma mutex_run_reachable es s s' : run s es = Ret s' -> rtc sys_step s s'.
Proof.
  revert s. induction es as [|e es IH]; intros s E; cbn [run] in E; [apply Ret_inj in E as ->; done|].
  destruct (exec s e) as [s1| |] eqn:E1; cbn [obind] in E; try done.
  eapply rtc_l; [by eapply sys_step_exec|eauto].
Qed.
End mutex.

(** C13: mutual exclusion.  However the threads interleave, and whatever critical sections
    they enter and leave, at most one holds the mutex, and it is the recorded owner; a mutex
    nobody holds is free.  A step panics exactly when it is a call of [lock] by the thread
    that holds the mutex, or by a thread in a critical section; every other step goes
    through. *)
Theorem mutex_exclusive {L} `{LinkedList nat L} (m : gmap nat Thread) (s : sys (L := L)) :
  rtc sys_step (init m) s ->
  (forall t prev, pcs s !! t = Some (Holding prev) -> owner (mx s) = Some t) /\
  (owned (mx s) = true <-> exists t prev, pcs s !! t = Some (Holding prev)) /\
  (forall e, exec s e = Panic <-> misused s e) /\
  (forall e, ~ misused s e -> exists s', exec s e = Ret s').
Proof.
  intros Hr. apply mutex_reachable_inv in Hr. split_and!.
  - intros t prev Ht. by destruct (in_holder s Hr t prev Ht).
  - split; [intros Ho; destruct (in_owned s Hr Ho) as (t & prev & _ & Ht); eauto|].
    intros (t & prev & Ht). by destruct (in_holder s Hr t prev Ht).
  - intros e. destruct (mutex_exec_inv s e Hr) as [[Hre E]|(Hre & s' & E & _)]; split; try done. by rewrite E.
  - intros e He. destruct (mutex_exec_inv s e Hr) as [[Hre E]|(Hre & s' & E & _)]; [done|eauto].
Qed.

(** C21: no lost wake-up.  However the threads interleave, no thread is on the queue twice, all
    threads asleep on the mutex are on it, and it holds besides them only threads that
    something else has scheduled and that have not yet unlinked themselves: in particular
    nobody whom [release] has woken.  And when somebody is on the queue of a mutex that is
    free, some thread is about to try to take it. *)
Theorem mutex_no_lost_wakeup {L} `{LinkedList nat L} (m : gmap nat Thread) (s : sys (L := L)) :
  rtc sys_step (init m) s ->
  NoDup (ll_list (queue (mx s))) /\
  (forall t prev, pcs s !! t = Some (Asleep prev) -> t ∈ ll_list (queue (mx s))) /\
  (forall t, t ∈ ll_list (queue (mx s)) -> exists prev, pcs s !! t = Some (Asleep prev) \/ pcs s !! t = Some (Late prev)) /\
  (owned (mx s) = false -> ll_list (queue (mx s)) <> [] ->
   exists u pu, pcs s !! u = Some (Trying pu) \/ pcs s !! u = Some (Woken pu) \/ pcs s !! u = Some (Late pu)).
Proof.
  intros Hr. apply mutex_reachable_inv in Hr. split_and!; [apply Hr..|].
  intros Ho Hq. destruct (in_wake s Hr Hq) as [?|Hc]; [congruence|exact Hc].
Qed.

(** Three threads: the first and the second at user, the third at realtime priority. *)
Definition demo_ths : gmap nat Thread :=
  list_to_map [(1%nat, mkThread 1 (raw USER) (raw USER) 0 u32_MAX None 0);
               (2%nat, mkThread 2 (raw USER) (raw USER) 0 u32_MAX None 0);
               (3%nat, mkThread 3 (raw REALTIME) (raw REALTIME) 0 u32_MAX None 0)].
Definition demo_init : sys (L := list nat) := init demo_ths.
Definition demo_contend : list event :=
  [EvLock 1; EvTry 1; EvLock 2; EvTry 2; EvLock 3; EvTry 3; EvUnlock 1].

Lemma mutex_exclusive_witness :
  owned (mx (ret_or demo_init (run demo_init demo_contend))) = false /\
  exec (ret_or demo_init (run demo_init [EvLock 1; EvTry 1])) (EvLock 1) = Panic.
Proof.
  assert (rtc sys_step demo_init (ret_or demo_init (run demo_init [EvLock 1; EvTry 1]))) as Hr.
  { apply (mutex_run_reachable [EvLock 1; EvTry 1]). vm_compute. reflexivity. }
  destruct (mutex_exclusive demo_ths _ Hr) as (_ & _ & Hp & _). split; [vm_compute; reflexivity|].
  apply Hp. exists 1%nat. split; [done|]. left. exists None. vm_compute. reflexivity.
Defined.

Lemma mutex_no_lost_wakeup_witness :
  let s := ret_or demo_init (run demo_init demo_contend) in
  exists u pu, pcs s !! u = Some (Trying pu) \/ pcs s !! u = Some (Woken pu) \/ pcs s !! u = Some (Late pu).
Proof.
  intros s. assert (rtc sys_step demo_init s) as Hr.
  { apply (mutex_run_reachable demo_contend). vm_compute. reflexivity. }
  destruct (mutex_no_lost_wakeup demo_ths s Hr) as (_ & _ & _ & Hw). apply Hw; vm_compute; [reflexivity|discriminate].
Defined.

(** Thread 1 takes the mutexes [a] and then [b]; thread 3, at realtime priority, blocks on
    [a] and donates its priority to thread 1; thread 1 releases [b].  It still holds [a]
    with thread 3 asleep on it, but dropping the guard of [b] removed the donation and
    restored the one in force when [b] was locked, which was none: thread 1 is back at
    user priority. *)
Theorem unlock_drops_donation :
  (let! (a1, m1, _) := lock_try (L := list nat) Mutex_new demo_ths 1 in
   let! prev := lock_enter (L := list nat) Mutex_new ∅ m1 1 in
   let! (b1, m2, _) := lock_try (L := list nat) Mutex_new m1 1 in
   let! (a2, m3, r) := lock_try a1 m2 3 in
   let! (b2, m4, _) := guard_drop b1 m3 1 prev in
   Ret (r, owner a2, ll_list (queue a2), effective_priority <$> m3 !! 1%nat, effective_priority <$> m4 !! 1%nat)) =
  Ret (Slept, Some 1%nat, [3%nat], Some REALTIME, Some USER).
Proof. vm_compute. reflexivity. Qed.
End Mutex.
