(* ===== verification/Capability.v ===== *)
(** * Keys and capabilities ([src/lib/twizzler-security])

    A capability grants protections on a target object to a security context and is
    signed with the target's signing key.  [keys/sign.rs], [keys/verify.rs] and
    [keys/sig.rs] wrap the [p256] crate, [capability.rs] serialises, hashes and signs.
    The curve and the hash functions are not part of this repository: [Ecdsa] and
    [Hashes] are what their documentation promises.

    [cap_roundtrip]: a new capability verifies under the key that belongs to its signing
    key.  [serialize_inj]: the signed bytes determine every field of the capability. *)
From S2P Require Import Prelude.

#[local] Open Scope Z_scope.

Module Capability.

Definition MAX_KEY_SIZE : nat := 128.
Definition MAX_SIG_SIZE : nat := 128.
Definition ECDSA_SECRET_KEY_LENGTH : nat := 32.

Inductive SecurityError := InvalidKey | InvalidScheme | SignatureMismatch | GateDenied.

#[global] Instance SecurityError_eq_dec : EqDecision SecurityError.
Proof. solve_decision. Defined.

(** Propagation of an [Err] with [?]. *)
Definition rbind {A B E} (m : result A E) (f : A -> result B E) : result B E :=
  match m with Ok a => f a | Err e => Err e end.

Definition ok_or {A E} (e : E) (o : option A) : result A E :=
  match o with Some a => Ok a | None => Err e end.

(** ** The [p256] crate *)
Class Ecdsa := {
  EcdsaSigningKey : Type; EcdsaVerifyingKey : Type; EcdsaSignature : Type;
  sk_from_slice : list Z -> option EcdsaSigningKey;
  sk_to_bytes : EcdsaSigningKey -> list Z;
  sk_verifying_key : EcdsaSigningKey -> EcdsaVerifyingKey;
  (** Parsing the bytes of a point and building a key from it. *)
  vk_from_bytes : list Z -> option EcdsaVerifyingKey;
  vk_to_bytes : EcdsaVerifyingKey -> list Z;
  sig_from_slice : list Z -> option EcdsaSignature;
  sig_to_bytes : EcdsaSignature -> list Z;
  ecdsa_sign : EcdsaSigningKey -> list Z -> EcdsaSignature;
  ecdsa_verify : EcdsaVerifyingKey -> list Z -> EcdsaSignature -> bool;
  sk_roundtrip k : sk_from_slice (sk_to_bytes k) = Some k;
  vk_roundtrip v : vk_from_bytes (vk_to_bytes v) = Some v;
  sig_roundtrip s : sig_from_slice (sig_to_bytes s) = Some s;
  sk_size k : (length (sk_to_bytes k) <= 32)%nat;
  vk_size v : (length (vk_to_bytes v) <= 65)%nat;
  sig_size s : (length (sig_to_bytes s) <= 64)%nat;
  ecdsa_correct k m : ecdsa_verify (sk_verifying_key k) m (ecdsa_sign k m) = true }.

(** ** The hash functions *)
Class Hashes := { blake3_hash : list Z -> list Z; sha256_hash : list Z -> list Z }.

(** ** Keys *)
Inductive SigningScheme := Ecdsa_scheme.

Record Signature := mkSignature { sig_buf : list Z; sig_scheme : SigningScheme }.
Record SigningKey := mkSigningKey { sk_key : list Z; sk_scheme : SigningScheme }.
Record VerifyingKey := mkVerifyingKey { vk_key : list Z; vk_scheme : SigningScheme }.

Section keys.
Context `{Ecdsa}.

(** [heapless::Vec::from_slice] into a buffer of [n] bytes, with [expect]. *)
Definition buffer (n : nat) (bytes : list Z) : outcome (list Z) :=
  let! _ := rassert (Nat.leb (length bytes) n) in Ret bytes.

Definition Signature_from (s : EcdsaSignature) : outcome Signature :=
  let! b := buffer MAX_SIG_SIZE (sig_to_bytes s) in Ret (mkSignature b Ecdsa_scheme).

Definition EcdsaSignature_try_from (s : Signature) : result EcdsaSignature SecurityError :=
  match sig_scheme s with Ecdsa_scheme => ok_or SignatureMismatch (sig_from_slice (sig_buf s)) end.

Definition SigningKey_from (k : EcdsaSigningKey) : outcome SigningKey :=
  let! b := buffer MAX_KEY_SIZE (sk_to_bytes k) in Ret (mkSigningKey b Ecdsa_scheme).

Definition EcdsaSigningKey_try_from (k : SigningKey) : result EcdsaSigningKey SecurityError :=
  match sk_scheme k with Ecdsa_scheme => ok_or InvalidKey (sk_from_slice (sk_key k)) end.

Definition SigningKey_from_slice (slice : list Z) (scheme : SigningScheme) : outcome (result SigningKey SecurityError) :=
  match scheme with
  | Ecdsa_scheme =>
      match sk_from_slice slice with
      | None => Ret (Err InvalidKey)
      | Some key => let! b := buffer MAX_KEY_SIZE (sk_to_bytes key) in Ret (Ok (mkSigningKey b Ecdsa_scheme))
      end
  end.

Definition SigningKey_sign (k : SigningKey) (msg : list Z) : outcome (result Signature SecurityError) :=
  match sk_scheme k with
  | Ecdsa_scheme =>
      match EcdsaSigningKey_try_from k with
      | Err e => Ret (Err e)
      | Ok key => let! s := Signature_from (ecdsa_sign key msg) in Ret (Ok s)
      end
  end.

Definition VerifyingKey_from (v : EcdsaVerifyingKey) : outcome VerifyingKey :=
  let! b := buffer MAX_KEY_SIZE (vk_to_bytes v) in Ret (mkVerifyingKey b Ecdsa_scheme).

Definition EcdsaVerifyingKey_try_from (v : VerifyingKey) : result EcdsaVerifyingKey SecurityError :=
  ok_or InvalidKey (vk_from_bytes (vk_key v)).

Definition VerifyingKey_new (scheme : SigningScheme) (k : SigningKey) : outcome (result VerifyingKey SecurityError) :=
  match scheme with
  | Ecdsa_scheme =>
      match EcdsaSigningKey_try_from k with
      | Err e => Ret (Err e)
      | Ok key =>
          let! b := buffer MAX_KEY_SIZE (vk_to_bytes (sk_verifying_key key)) in
          Ret (Ok (mkVerifyingKey b Ecdsa_scheme))
      end
  end.

Definition VerifyingKey_from_slice (slice : list Z) (scheme : SigningScheme) : outcome (result VerifyingKey SecurityError) :=
  match scheme with
  | Ecdsa_scheme =>
      match vk_from_bytes slice with
      | None => Ret (Err InvalidKey)
      | Some key => let! v := VerifyingKey_from key in Ret (Ok v)
      end
  end.

Definition VerifyingKey_verify (v : VerifyingKey) (msg : list Z) (s : Signature) : result unit SecurityError :=
  match vk_scheme v with
  | Ecdsa_scheme =>
      rbind (EcdsaVerifyingKey_try_from v) (fun key =>
      rbind (EcdsaSignature_try_from s) (fun sig =>
      if ecdsa_verify key msg sig then Ok tt else Err SignatureMismatch))
  end.

(** [new_kernel_keypair] from random bytes. *)
Definition new_kernel_keypair (random : list Z) : outcome (option (SigningKey * VerifyingKey)) :=
  match sk_from_slice (take ECDSA_SECRET_KEY_LENGTH random) with
  | None => Ret None
  | Some k =>
      let! s := SigningKey_from k in
      let! v := VerifyingKey_from (sk_verifying_key k) in
      Ret (Some (s, v))
  end.

(** [new_keypair], up to building the two objects: [random] is what the random number
    source gives for the [ECDSA_SECRET_KEY_LENGTH] bytes asked, if it works. *)
Definition new_keypair (random : option (list Z)) : outcome (option (SigningKey * VerifyingKey)) :=
  match random with
  | None => Ret None
  | Some bytes =>
      match sk_from_slice bytes with
      | None => Ret None
      | Some k =>
          let! s := SigningKey_from k in
          let! v := VerifyingKey_from (sk_verifying_key k) in
          Ret (Some (s, v))
      end
  end.
End keys.

(** ** Flags, gates, revocation *)
Definition CapFlags_Blake3 : Z := 1.
Definition CapFlags_Sha256 : Z := 2.

Inductive HashingAlgo := Blake3 | Sha256.

Definition CapFlags_from (a : HashingAlgo) : Z :=
  match a with Blake3 => CapFlags_Blake3 | Sha256 => CapFlags_Sha256 end.

(** [value.iter()]: the named flags that are set, then the bits without a name. *)
Definition flags_iter (f : Z) : list Z :=
  (if Z.testbit f 0 then [CapFlags_Blake3] else []) ++ (if Z.testbit f 1 then [CapFlags_Sha256] else []) ++
  (let r := Z.ldiff f 3 in if r =? 0 then [] else [r]).

Definition flag_algo (flag : Z) : option HashingAlgo :=
  if flag =? CapFlags_Sha256 then Some Sha256 else if flag =? CapFlags_Blake3 then Some Blake3 else None.

Fixpoint algo_loop (fs : list Z) (r : option HashingAlgo) : result HashingAlgo SecurityError :=
  match fs with
  | [] => ok_or InvalidScheme r
  | f :: fs' =>
      match flag_algo f, r with
      | Some a, Some _ => Err InvalidScheme
      | Some a, None => algo_loop fs' (Some a)
      | None, _ => algo_loop fs' r
      end
  end.

Definition HashingAlgo_try_from (f : Z) : result HashingAlgo SecurityError := algo_loop (flags_iter f) None.

Record Gate := mkGate { offset : Z; glength : Z; align : Z }.
Definition Gate_new (o l a : Z) : Gate := mkGate o l a.
Definition MAX_LEN : Z := 1000000000.
Definition Gate_default : Gate := mkGate 0 MAX_LEN 1.

(** A [Revoc] is its 128-bit time. *)
Record Revoc := mkRevoc { inner : Z }.

(** [to_le_bytes] of an [n]-byte integer. *)
Fixpoint le_bytes (n : nat) (z : Z) : list Z :=
  match n with O => [] | S n' => z mod 256 :: le_bytes n' (z / 256) end.

Definition Revoc_to_bytes (r : Revoc) : list Z := le_bytes 16 (inner r).

(** ** Capabilities *)
Record Cap := mkCap {
  target : Z; accessor : Z; protections : Z; flags : Z; gate : Gate; revocation : Revoc; sig : Signature }.

Definition CAP_SERIALIZED_LEN : nat := 78.

(** [arr[a..b].copy_from_slice(bytes)] *)
Definition copy_slice (a : nat) (bytes arr : list Z) : list Z :=
  take a arr ++ bytes ++ drop (a + length bytes) arr.

Definition serialize (acc tgt prots fl : Z) (r : Revoc) (g : Gate) : list Z :=
  let h := replicate CAP_SERIALIZED_LEN 0 in
  let h := copy_slice 0 (le_bytes 16 acc) h in
  let h := copy_slice 16 (le_bytes 16 tgt) h in
  let h := copy_slice 32 (le_bytes 2 prots) h in
  let h := copy_slice 34 (le_bytes 2 fl) h in
  let h := copy_slice 36 (Revoc_to_bytes r) h in
  let h := copy_slice 52 (le_bytes 8 (offset g)) h in
  let h := copy_slice 60 (le_bytes 8 (glength g)) h in
  copy_slice 68 (le_bytes 8 (align g)) h.

Section cap.
Context `{Ecdsa} `{Hashes}.

Definition hash_with (a : HashingAlgo) (bytes : list Z) : list Z :=
  match a with Blake3 => blake3_hash bytes | Sha256 => sha256_hash bytes end.

Definition Cap_new (tgt acc prots : Z) (key : SigningKey) (r : Revoc) (g : Gate) (algo : HashingAlgo)
    : outcome (result Cap SecurityError) :=
  let fl := CapFlags_from algo in
  let hash_arr := serialize acc tgt prots fl r g in
  let! s := SigningKey_sign key (hash_with algo hash_arr) in
  match s with
  | Err e => Ret (Err e)
  | Ok s => Ret (Ok (mkCap tgt acc prots fl g r s))
  end.

Definition verify_sig (c : Cap) (v : VerifyingKey) : result unit SecurityError :=
  let hash_arr := serialize (accessor c) (target c) (protections c) (flags c) (revocation c) (gate c) in
  rbind (HashingAlgo_try_from (flags c)) (fun algo => VerifyingKey_verify v (hash_with algo hash_arr) (sig c)).

End cap.

Definition check_gate `{Build} (c : Cap) (ptr_offset al : Z) : outcome (result unit SecurityError) :=
  if ptr_offset <? offset (gate c) then Ret (Err GateDenied)
  else
    let! last := chk 64 (offset (gate c) + glength (gate c)) in
    if last <? ptr_offset then Ret (Err GateDenied)
    else if negb (align (gate c) =? al) then Ret (Err GateDenied)
    else Ret (Ok tt).

(** ** Serialisation *)
Lemma length_le_bytes n z : length (le_bytes n z) = n.
Proof. revert z. induction n as [|n IH]; intros z; simpl; [done|]. by rewrite IH. Qed.

Lemma le_bytes_inj n z z' : 0 <= z < 256 ^ Z.of_nat n -> 0 <= z' < 256 ^ Z.of_nat n -> le_bytes n z = le_bytes n z' -> z = z'.
Proof.
  revert z z'. induction n as [|n IH]; intros z z' Hz Hz' E.
  { change (256 ^ Z.of_nat 0) with 1 in *. lia. }
  rewrite Nat2Z.inj_succ, Z.pow_succ_r in Hz, Hz' by lia. cbn [le_bytes] in E. injection E as E0 E1.
  apply IH in E1; [|split; [apply Z.div_pos; lia|apply Z.div_lt_upper_bound; lia]..].
  pose proof (Z.div_mod z 256). pose proof (Z.div_mod z' 256). lia.
Qed.

Lemma copy_slice_at pre mid bytes post a :
  length pre = a -> length mid = length bytes -> copy_slice a bytes (pre ++ mid ++ post) = pre ++ bytes ++ post.
Proof.
  intros <- Hm. unfold copy_slice. rewrite take_app_length. do 2 f_equal.
  rewrite <- Hm, app_assoc, <- length_app. apply drop_app_length.
Qed.

(** The fields one after the other, and two bytes of padding. *)
Lemma serialize_layout acc tgt prots fl r g :
  serialize acc tgt prots fl r g =
  le_bytes 16 acc ++ le_bytes 16 tgt ++ le_bytes 2 prots ++ le_bytes 2 fl ++ le_bytes 16 (inner r) ++
  le_bytes 8 (offset g) ++ le_bytes 8 (glength g) ++ le_bytes 8 (align g) ++ [0; 0].
Proof. reflexivity. Qed.

(** The values the fields can have. *)
Definition fields_ok (acc tgt prots fl : Z) (r : Revoc) (g : Gate) : Prop :=
  in_u 128 acc = true /\ in_u 128 tgt = true /\ in_u 16 prots = true /\ in_u 16 fl = true /\ in_u 128 (inner r) = true /\
  in_u 64 (offset g) = true /\ in_u 64 (glength g) = true /\ in_u 64 (align g) = true.

Lemma le_field n w z z' (l l' : list Z) :
  w = 8 * Z.of_nat n -> in_u w z = true -> in_u w z' = true ->
  le_bytes n z ++ l = le_bytes n z' ++ l' -> z = z' /\ l = l'.
Proof.
  intros -> Hz%in_u_spec Hz'%in_u_spec E. apply app_inj_1 in E as [E1 E2]; [|by rewrite !length_le_bytes].
  split; [|done]. apply (le_bytes_inj n); [..|done]; change 256 with (2 ^ 8); by rewrite <- Z.pow_mul_r by lia.
Qed.

(** The bytes that are hashed and signed determine the capability: two sets of fields
    with the same serialisation are equal, so a signature on one capability is a
    signature on no other. *)
Theorem serialize_inj (acc tgt prots fl : Z) (r : Revoc) (g : Gate) (acc' tgt' prots' fl' : Z) (r' : Revoc) (g' : Gate) :
  fields_ok acc tgt prots fl r g -> fields_ok acc' tgt' prots' fl' r' g' ->
  serialize acc tgt prots fl r g = serialize acc' tgt' prots' fl' r' g' ->
  acc = acc' /\ tgt = tgt' /\ prots = prots' /\ fl = fl' /\ r = r' /\ g = g'.
Proof.
  rewrite !serialize_layout. intros (H1 & H2 & H3 & H4 & H5 & H6 & H7 & H8) (H1' & H2' & H3' & H4' & H5' & H6' & H7' & H8') E.
  apply (le_field _ 128) in E as [-> E]; [|done..]. apply (le_field _ 128) in E as [-> E]; [|done..].
  apply (le_field _ 16) in E as [-> E]; [|done..]. apply (le_field _ 16) in E as [-> E]; [|done..].
  apply (le_field _ 128) in E as [Er E]; [|done..]. apply (le_field _ 64) in E as [Eo E]; [|done..].
  apply (le_field _ 64) in E as [El E]; [|done..]. apply (le_field _ 64) in E as [Ea _]; [|done..].
  destruct r, r', g, g'. cbn in *. by subst.
Qed.

Lemma serialize_inj_witness :
  serialize 1 2 3 1 (mkRevoc 9) Gate_default <> serialize 1 5 3 1 (mkRevoc 9) Gate_default.
Proof.
  intros E. destruct (serialize_inj 1 2 3 1 (mkRevoc 9) Gate_default 1 5 3 1 (mkRevoc 9) Gate_default) as (_ & Ht & _);
    [repeat split..|exact E|]. discriminate Ht.
Defined.

(** ** Signing and verifying *)
Section verify.
Context `{Ecdsa} `{Hashes}.

(** The verifying key belongs to the signing key. *)
Definition key_pair (s : SigningKey) (v : VerifyingKey) : Prop :=
  exists k, sk_from_slice (sk_key s) = Some k /\ vk_from_bytes (vk_key v) = Some (sk_verifying_key k).

Lemma buffer_fits n b : (length b <= n)%nat -> buffer n b = Ret b.
Proof. intros Hb. unfold buffer. by rewrite (proj2 (Nat.leb_le _ _) Hb). Qed.

Lemma sign_verify s v msg : key_pair s v -> exists sg, SigningKey_sign s msg = Ret (Ok sg) /\ VerifyingKey_verify v msg sg = Ok tt.
Proof.
  intros (k & Ek & Ev). unfold SigningKey_sign, EcdsaSigningKey_try_from. destruct s as [sk []]. cbn in *. rewrite Ek. cbn [ok_or].
  unfold Signature_from. rewrite buffer_fits by (unfold MAX_SIG_SIZE; pose proof (sig_size (ecdsa_sign k msg)); lia).
  cbn [obind]. eexists. split; [done|]. unfold VerifyingKey_verify, EcdsaVerifyingKey_try_from, EcdsaSignature_try_from.
  destruct v as [vk []]. cbn in *. rewrite Ev. cbn. rewrite sig_roundtrip. cbn. by rewrite ecdsa_correct.
Qed.

Lemma keypair_ok random :
  match new_kernel_keypair random with
  | Ret (Some (s, v)) => key_pair s v
  | Ret None => sk_from_slice (take ECDSA_SECRET_KEY_LENGTH random) = None
  | _ => False
  end.
Proof.
  unfold new_kernel_keypair. destruct (sk_from_slice (take ECDSA_SECRET_KEY_LENGTH random)) as [k|]; [|done].
  unfold SigningKey_from. rewrite buffer_fits by (unfold MAX_KEY_SIZE; pose proof (sk_size k); lia). cbn [obind].
  unfold VerifyingKey_from. rewrite buffer_fits by (unfold MAX_KEY_SIZE; pose proof (vk_size (sk_verifying_key k)); lia). cbn [obind].
  exists k. cbn. by rewrite sk_roundtrip, vk_roundtrip.
Qed.

Lemma verifying_key_new_ok s v' :
  VerifyingKey_new Ecdsa_scheme s = Ret (Ok v') -> key_pair s v'.
Proof.
  unfold VerifyingKey_new, EcdsaSigningKey_try_from. destruct s as [sk []]. cbn. unfold key_pair. cbn.
  destruct (sk_from_slice sk) as [k|]; [|done]. cbn [ok_or].
  rewrite buffer_fits by (unfold MAX_KEY_SIZE; pose proof (vk_size (sk_verifying_key k)); lia). cbn [obind].
  intros [= <-]. exists k. cbn. by rewrite vk_roundtrip.
Qed.

Lemma algo_roundtrip a : HashingAlgo_try_from (CapFlags_from a) = Ok a.
Proof. by destruct a. Qed.

Lemma cap_new_verifies tgt acc prots s v r g algo :
  key_pair s v ->
  exists c, Cap_new tgt acc prots s r g algo = Ret (Ok c) /\ verify_sig c v = Ok tt /\
    target c = tgt /\ accessor c = acc /\ protections c = prots /\ gate c = g /\ revocation c = r.
Proof.
  intros Hk. unfold Cap_new.
  destruct (sign_verify s v (hash_with algo (serialize acc tgt prots (CapFlags_from algo) r g)) Hk) as (sg & -> & Hv).
  cbn [obind]. eexists. split; [done|]. split; [|done].
  unfold verify_sig. cbn [accessor target protections flags revocation gate sig]. by rewrite algo_roundtrip.
Qed.
End verify.

(** Creating capabilities and verifying them.  A key pair made from random bytes (when the
    curve accepts them) signs a capability for any target, accessor, protections, gate
    and revocation under either hash function without an error, and the capability
    carries those fields and verifies under the verifying key of the pair, and under the
    one [VerifyingKey::new] derives from the signing key. *)
Theorem cap_roundtrip `{Ecdsa} `{Hashes} (random : list Z) (s : SigningKey) (v v' : VerifyingKey)
    (tgt acc prots : Z) (r : Revoc) (g : Gate) (algo : HashingAlgo) :
  new_kernel_keypair random = Ret (Some (s, v)) -> VerifyingKey_new Ecdsa_scheme s = Ret (Ok v') ->
  exists c, Cap_new tgt acc prots s r g algo = Ret (Ok c) /\
    verify_sig c v = Ok tt /\ verify_sig c v' = Ok tt /\
    target c = tgt /\ accessor c = acc /\ protections c = prots /\ gate c = g /\ revocation c = r.
Proof.
  intros Hp Hn. pose proof (keypair_ok random) as Hk. rewrite Hp in Hk.
  destruct (cap_new_verifies tgt acc prots s v r g algo Hk) as (c & E & Hv & Hf).
  destruct (cap_new_verifies tgt acc prots s v' r g algo (verifying_key_new_ok _ _ Hn)) as (c' & E' & Hv' & _).
  rewrite E in E'. injection E' as <-. exists c. tauto.
Qed.

(** A toy scheme: a key is a byte, a signature adds it to the sum of the message. *)
Definition toy_sum (k : Z) (m : list Z) : Z := k + foldr Z.add 0 m.
#[refine, global] Instance toy_ecdsa : Ecdsa := {
  EcdsaSigningKey := Z; EcdsaVerifyingKey := Z; EcdsaSignature := Z;
  sk_from_slice l := head l; sk_to_bytes k := [k]; sk_verifying_key k := k;
  vk_from_bytes l := head l; vk_to_bytes v := [v];
  sig_from_slice l := head l; sig_to_bytes s := [s];
  ecdsa_sign := toy_sum; ecdsa_verify v m s := s =? toy_sum v m }.
Proof. 1-3: done. 1-3: simpl; lia. intros k m. apply Z.eqb_refl. Defined.
#[global] Instance toy_hashes : Hashes := { blake3_hash m := m; sha256_hash m := rev m }.

Definition toy_sk : SigningKey := mkSigningKey [7] Ecdsa_scheme.
Definition toy_vk : VerifyingKey := mkVerifyingKey [7] Ecdsa_scheme.

Lemma cap_roundtrip_witness :
  exists c, Cap_new 1 2 3 toy_sk (mkRevoc 0) Gate_default Sha256 = Ret (Ok c) /\ verify_sig c toy_vk = Ok tt.
Proof.
  destruct (cap_roundtrip [7; 1; 1] toy_sk toy_vk toy_vk 1 2 3 (mkRevoc 0) Gate_default Sha256)
    as (c & E & Hv & _); [vm_compute; reflexivity..|].
  exists c. by split.
Defined.

(** The gate check, for 64-bit fields.  When the end of the gate fits in 64 bits the
    check accepts exactly the offsets from the start of the gate to its end, the end
    included, with the alignment the gate names.  When it does not fit, an offset at or
    after the start panics in a build with overflow checks. *)
Theorem check_gate_spec `{Build} (c : Cap) (p al : Z) :
  0 <= offset (gate c) -> 0 <= glength (gate c) ->
  let last := offset (gate c) + glength (gate c) in
  (last < 2 ^ 64 ->
   check_gate c p al = Ret (if bool_decide (offset (gate c) <= p <= last /\ align (gate c) = al) then Ok tt else Err GateDenied)) /\
  (2 ^ 64 <= last -> overflow_checks = true -> offset (gate c) <= p -> check_gate c p al = Panic).
Proof.
  intros Ho Hl last. unfold check_gate. split.
  - intros Hlast. destruct (Z.ltb_spec p (offset (gate c))).
    { by rewrite bool_decide_eq_false_2 by lia. }
    rewrite chk_in by lia. cbn [obind]. fold last. destruct (Z.ltb_spec last p); [by rewrite bool_decide_eq_false_2 by lia|].
    destruct (Z.eqb_spec (align (gate c)) al); cbn [negb]; [by rewrite bool_decide_eq_true_2 by lia|by rewrite bool_decide_eq_false_2 by lia].
  - intros Hlast Hc Hp. rewrite (proj2 (Z.ltb_ge _ _) Hp). unfold chk. fold last.
    by rewrite (proj2 (in_u_false 64 last)), Hc by lia.
Qed.

Lemma check_gate_spec_witness :
  let c := mkCap 1 2 3 1 (mkGate 0 100 1) (mkRevoc 0) (mkSignature [] Ecdsa_scheme) in
  check_gate (H := true) c 100 1 = Ret (Ok tt).
Proof.
  intros c. destruct (check_gate_spec (H := true) c 100 1) as [Hs _]; [vm_compute; congruence..|].
  rewrite Hs by reflexivity. reflexivity.
Defined.
End Capability.
