(* ===== verification/SecCtx.v ===== *)
(** * Security contexts

    [src/lib/twizzler-security/src/sec_ctx]: a security context is an object whose base
    maps a target object to the capabilities for it stored in the same object
    ([SecCtx::insert_cap]).  [src/kernel/src/security.rs]: the kernel looks up what a
    context grants on a target ([SecurityContext::lookup]), searches the contexts
    attached to a thread ([SecCtxMgr::search_access]) and switches between them.

    A context's object is written by user programs, so the kernel part takes its
    contents as they are: any base, and any capability at any offset ([cap_at]).  The
    objects the kernel finds, their metadata and the verifying keys they hold are the
    parameters [lookup_object], [read_meta] and [key_of]; [MAX_SIZE], the size of an
    object, comes from the runtime's interface and [sizeof_Cap] from the compiler. *)
From S2P Require Import Prelude Capability.
From stdpp Require Import sorting.
Import Capability.

#[local] Open Scope Z_scope.

Module SecCtx.

Definition MASKS_MAX : nat := 16.
Definition SEC_CTX_MAP_LEN : nat := 16.
Definition MAP_ITEMS_PER_OBJ : nat := 16.

Record Mask := mkMask { mtarget : Z; permmask : Z; ovrmask : Z }.
Inductive CtxMapItemType := ItemCap | ItemDel.
Record CtxMapItem := mkItem { item_type : CtxMapItemType; ioffset : Z }.

Definition UNDETACHABLE : Z := 1.

Record SecCtxBase := mkBase {
  map : gmap Z (list CtxMapItem); masks : gmap Z Mask; global_mask : Z; boffset : Z; bflags : Z }.

Definition SecCtxBase_new (global_mask flags : Z) : SecCtxBase := mkBase ∅ ∅ global_mask 0 flags.

Record PermsInfo := mkPerms { ctx : Z; provide : Z; restrict : Z }.

(** ** The user's side *)
Inductive TwzError := OutOfResources.

(** The object of a context: its base and the capabilities written into it. *)
Record SecCtxObj := mkObj { sid : Z; base : SecCtxBase; content : gmap Z Cap }.

Definition SecCtx_new (i global_mask flags : Z) : SecCtxObj := mkObj i (SecCtxBase_new global_mask flags) ∅.

Section user.
Context `{Build} (sizeof_Cap OBJECT_ROOT_OFFSET : Z).

(** The map with the item added for the target, unless it is full. *)
Definition add_item (m : gmap Z (list CtxMapItem)) (t : Z) (it : CtxMapItem) : result (gmap Z (list CtxMapItem)) TwzError :=
  match m !! t with
  | Some vec => if Nat.ltb (length vec) MAP_ITEMS_PER_OBJ then Ok (<[t := vec ++ [it]]> m) else Err OutOfResources
  | None => if Nat.ltb (size m) SEC_CTX_MAP_LEN then Ok (<[t := [it]]> m) else Err OutOfResources
  end.

Definition insert_cap (c : SecCtxObj) (cap : Cap) : outcome (result SecCtxObj TwzError) :=
  let b := base c in
  let! off1 := chk 64 (boffset b + sizeof_Cap) in
  let! ioff := chk 64 (off1 + OBJECT_ROOT_OFFSET) in
  let alignment := 16 - ioff mod 16 in
  let! ioff' := chk 64 (ioff + alignment) in
  let! off2 := chk 64 (off1 + alignment) in
  match add_item (map b) (target cap) (mkItem ItemCap ioff') with
  | Err e => Ret (Err e)
  | Ok m => Ret (Ok (mkObj (sid c) (mkBase m (masks b) (global_mask b) off2 (bflags b)) (<[ioff' := cap]> (content c))))
  end.
End user.

(** ** The kernel's side *)
Definition KERNEL_SCTX : Z := 0.

(** The object of a context as the kernel maps it. *)
Record KernelObject := mkKobj { kid : Z; kbase : SecCtxBase; cap_at : Z -> Cap }.

Record SecurityContext := mkSctx { kobj : option KernelObject; cache : gmap Z PermsInfo }.

Definition SecurityContext_new (k : option KernelObject) : SecurityContext := mkSctx k ∅.

Definition sctx_id (c : SecurityContext) : Z := match kobj c with Some k => kid k | None => KERNEL_SCTX end.
Definition sctx_flags (c : SecurityContext) : option Z := match kobj c with Some k => Some (bflags (kbase k)) | None => None end.

Section kernel.
Context `{Ecdsa} `{Hashes} (sizeof_Cap MAX_SIZE : Z).
Context (lookup_object : Z -> option Z) (read_meta : Z -> option Z) (key_of : Z -> VerifyingKey).

Definition lea_raw (k : KernelObject) (off : Z) : option Cap :=
  if (MAX_SIZE <=? off) then None
  else match checked_add 64 off sizeof_Cap with
       | None => None
       | Some e => if MAX_SIZE <=? e then None else Some (cap_at k off)
       end.

(** [cap.verify_sig(v_key).is_ok()] *)
Definition verifies (c : Cap) (v : VerifyingKey) : bool := is_ok (verify_sig c v).

(** The loop over the items for a target: the protections granted so far, and whether
    the loop ended early because an item points outside the object. *)
Fixpoint items_loop (k : KernelObject) (v : VerifyingKey) (items : list CtxMapItem) (granted : Z) : outcome (Z * bool) :=
  match items with
  | [] => Ret (granted, false)
  | it :: items' =>
      match item_type it with
      | ItemDel => Panic
      | ItemCap =>
          match lea_raw k (ioffset it) with
          | None => Ret (granted, true)
          | Some cap => items_loop k v items' (if verifies cap v then Z.lor granted (protections cap) else granted)
          end
      end
  end.

(** The verifying key of a target: the object its metadata names. *)
Definition target_key (id : Z) : option VerifyingKey :=
  match lookup_object id with
  | None => None
  | Some o =>
      match read_meta o with
      | None => None
      | Some kuid => match lookup_object kuid with None => None | Some v => Some (key_of v) end
      end
  end.

Definition sctx_lookup (c : SecurityContext) (id default_prots : Z) : outcome (SecurityContext * PermsInfo) :=
  match cache c !! id with
  | Some p => Ret (c, p)
  | None =>
      let granted := Z.lor 0 default_prots in
      let perms g := mkPerms (sctx_id c) g 0 in
      match kobj c with
      | None => Ret (c, perms granted)
      | Some k =>
          let b := kbase k in
          match map b !! id with
          | None => Ret (c, perms granted)
          | Some items =>
              match target_key id with
              | None => Ret (c, perms (Z.land granted (global_mask b)))
              | Some v =>
                  let! (g, early) := items_loop k v items granted in
                  if early then Ret (c, perms (Z.land g (global_mask b)))
                  else
                    let p :=
                      match masks b !! id with
                      | None => perms (Z.land g (global_mask b))
                      | Some m => perms (Z.land (Z.land g (permmask m)) (Z.lor (global_mask b) (ovrmask m)))
                      end in
                    Ret (mkSctx (kobj c) (<[id := p]> (cache c)), p)
              end
          end
      end
  end.

(** ** The contexts of a thread

    Contexts are shared ([Arc]): [heap] holds them, a manager refers to them. *)
Abbreviation heap := (gmap nat SecurityContext).

(** [inactive] is a [BTreeMap] by the contexts' identifiers. *)
Record SecCtxMgr := mkMgr { active : nat; inactive : gmap Z nat; active_id : Z }.

Record AccessInfo := mkAccess { target_id : Z; access_kind : Z }.

Definition SecCtxMgr_new (h : heap) (r : nat) : outcome SecCtxMgr :=
  let! c := unwrap (h !! r) in Ret (mkMgr r ∅ (sctx_id c)).

Definition heap_lookup (h : heap) (r : nat) (id default_prots : Z) : outcome (heap * PermsInfo) :=
  let! c := unwrap (h !! r) in
  let! (c', p) := sctx_lookup c id default_prots in
  Ret (<[r := c']> h, p).

Definition mgr_lookup (h : heap) (m : SecCtxMgr) (id default_prots : Z) : outcome (heap * PermsInfo) :=
  heap_lookup h (active m) id default_prots.

(** [access_kind & !restrict & provide == access_kind] *)
Definition perms_satisfy (a : AccessInfo) (p : PermsInfo) : bool :=
  Z.land (Z.ldiff (access_kind a) (restrict p)) (provide p) =? access_kind a.

(** Iteration over a [BTreeMap]: in the order of the keys. *)
Definition key_le (x y : Z * nat) : Prop := x.1 <= y.1.
#[global] Instance key_le_dec x y : Decision (key_le x y).
Proof. unfold key_le. apply _. Defined.
Definition in_order (m : gmap Z nat) : list (Z * nat) := merge_sort key_le (map_to_list m).

Fixpoint search_loop (h : heap) (rs : list (Z * nat)) (a : AccessInfo) (default_prots : Z) : outcome (heap * option PermsInfo) :=
  match rs with
  | [] => Ret (h, None)
  | (_, r) :: rs' =>
      let! (h', p) := heap_lookup h r (target_id a) default_prots in
      if perms_satisfy a p then Ret (h', Some p) else search_loop h' rs' a default_prots
  end.

Definition search_access (h : heap) (m : SecCtxMgr) (a : AccessInfo) (default_prots : Z) : outcome (heap * PermsInfo) :=
  let! (h1, active_perms) := mgr_lookup h m (target_id a) default_prots in
  if perms_satisfy a active_perms then Ret (h1, active_perms)
  else
    let! c := unwrap (h1 !! active m) in
    match sctx_flags c with
    | Some f =>
        if Z.testbit f 0 then Ret (h1, active_perms)
        else
          let! (h2, o) := search_loop h1 (in_order (inactive m)) a default_prots in
          Ret (h2, match o with Some p => p | None => active_perms end)
    | None =>
        let! (h2, o) := search_loop h1 (in_order (inactive m)) a default_prots in
        Ret (h2, match o with Some p => p | None => active_perms end)
    end.

Inductive SwitchResult := NoSwitch | Switched | NotAttached.

Definition switch_context (h : heap) (m : SecCtxMgr) (id : Z) : outcome (SecCtxMgr * SwitchResult) :=
  if active_id m =? id then Ret (m, NoSwitch)
  else
    match inactive m !! id with
    | None => Ret (m, NotAttached)
    | Some r =>
        let! old := unwrap (h !! active m) in
        Ret (mkMgr r (<[sctx_id old := active m]> (delete id (inactive m))) id, Switched)
    end.

Inductive AttachError := AlreadyBound.

Definition attach (h : heap) (m : SecCtxMgr) (r : nat) : outcome (SecCtxMgr * result unit AttachError) :=
  let! c := unwrap (h !! r) in
  let! a := unwrap (h !! active m) in
  if (sctx_id a =? sctx_id c) || bool_decide (is_Some (inactive m !! sctx_id c)) then Ret (m, Err AlreadyBound)
  else Ret (mkMgr (active m) (<[sctx_id c := r]> (inactive m)) (active_id m), Ok tt).

Definition mgr_clone (h : heap) (m : SecCtxMgr) : outcome SecCtxMgr :=
  let! a := unwrap (h !! active m) in Ret (mkMgr (active m) (inactive m) (sctx_id a)).
End kernel.
End SecCtx.
