(* ===== verification/SecCtxInv.v ===== *)
(** * What a security context grants

    [insert_cap_ok]: capabilities are stored without overlap and found under their
    target.  [lookup_authentic]: every protection the kernel grants beyond the default
    comes from a capability that verifies under the target's key, and the context's masks
    bound it.  [cap_grants]: the whole path from a key pair through [insert_cap] to the
    kernel's [lookup].  [search_access_spec], [mgr_ops_ok]: the contexts of a thread.
    [lookup_ignores_fields]: the kernel does not compare the target and the accessor of
    a capability with the object and the context it is used for. *)
From S2P Require Import Prelude Capability SecCtx.
From stdpp Require Import sorting.
Import Capability SecCtx.

#[local] Open Scope Z_scope.

Module SecCtxInv.

Section user.
Context `{Build} (sizeof_Cap ROOT : Z) (Hsize : 0 < sizeof_Cap) (Hroot : 0 <= ROOT).

Record sctx_ok (c : SecCtxObj) : Prop := mkSctxOk {
  so_off : 0 <= boffset (base c);
  so_items : forall t items it, map (base c) !! t = Some items -> it ∈ items ->
    item_type it = ItemCap /\ exists cap, content c !! ioffset it = Some cap /\ target cap = t;
  so_range : forall o cap, content c !! o = Some cap -> ROOT <= o <= ROOT + boffset (base c) /\ o mod 16 = 0;
  so_apart : forall o o' cap cap', content c !! o = Some cap -> content c !! o' = Some cap' -> o < o' -> o + sizeof_Cap <= o' }.

(** The capabilities stored for a target, in order. *)
Definition caps_for (c : SecCtxObj) (t : Z) : list Cap :=
  omap (fun it => content c !! ioffset it) (default [] (map (base c) !! t)).

Lemma sctx_new_ok i g f : sctx_ok (SecCtx_new i g f).
Proof. split; cbn; try lia; intros *; rewrite lookup_empty; done. Qed.

(** The new item is past everything stored. *)
Lemma insert_offset o : 0 <= o -> 16 - o mod 16 > 0 /\ (o + (16 - o mod 16)) mod 16 = 0.
Proof.
  intros Ho. pose proof (Z.mod_pos_bound o 16). split; [lia|].
  replace (o + (16 - o mod 16)) with ((o / 16 + 1) * 16) by (pose proof (Z.div_mod o 16); lia). apply Z.mod_mul. lia.
Qed.

Lemma omap_content (m m' : gmap Z Cap) (l : list CtxMapItem) :
  (forall it, it ∈ l -> m !! ioffset it = m' !! ioffset it) ->
  omap (fun it => m !! ioffset it) l = omap (fun it => m' !! ioffset it) l.
Proof.
  induction l as [|it l IH]; intros Hl; [done|]. cbn. rewrite (Hl it) by by left.
  rewrite IH by (intros; apply Hl; by right). done.
Qed.

Lemma insert_cap_state c cap m' off off' :
  sctx_ok c -> ROOT + boffset (base c) < off -> sizeof_Cap + boffset (base c) + ROOT <= off -> off = ROOT + off' -> off mod 16 = 0 ->
  add_item (map (base c)) (target cap) (mkItem ItemCap off) = Ok m' ->
  let c' := mkObj (sid c) (mkBase m' (masks (base c)) (global_mask (base c)) off' (bflags (base c))) (<[off := cap]> (content c)) in
  sctx_ok c' /\ caps_for c' (target cap) = caps_for c (target cap) ++ [cap] /\
  forall t, t <> target cap -> caps_for c' t = caps_for c t.
Proof.
  intros [Ho Hi Hr Ha] Hoff Hoff2 Eoff Hal Em c'.
  assert (content c !! off = None) as Hnew.
  { destruct (content c !! off) eqn:E; [|done]. apply Hr in E. lia. }
  assert (forall t items it, map (base c) !! t = Some items -> it ∈ items -> ioffset it <> off) as Hne.
  { intros t items it Ht Hit E. destruct (Hi t items it Ht Hit) as (_ & cp & Hc & _). rewrite E in Hc. congruence. }
  assert (forall t, map (base c') !! t = if decide (t = target cap)
      then Some (default [] (map (base c) !! t) ++ [mkItem ItemCap off]) else map (base c) !! t) as Hm.
  { intros t. cbn. unfold add_item in Em. destruct (map (base c) !! target cap) eqn:E.
    - destruct (Nat.ltb _ _); [|done]. injection Em as <-. case_decide as D; [subst; by rewrite lookup_insert_eq, E|by rewrite lookup_insert_ne].
    - destruct (Nat.ltb _ _); [|done]. injection Em as <-. case_decide as D; [subst; by rewrite lookup_insert_eq, E|by rewrite lookup_insert_ne]. }
  split_and!.
  - split; cbn.
    + lia.
    + intros t items it Ht Hit. rewrite Hm in Ht. case_decide as D.
      * injection Ht as <-. apply elem_of_app in Hit as [Hit|Hit]; [|apply list_elem_of_singleton in Hit as ->].
        -- destruct (map (base c) !! t) eqn:E; [|by apply elem_of_nil in Hit]. cbn in Hit.
           destruct (Hi t l it E Hit) as (? & cp & Hc & ?). split; [done|]. exists cp. split; [|done].
           rewrite lookup_insert_ne; [done|]. by apply not_eq_sym, (Hne t l it).
        -- split; [done|]. exists cap. cbn. by rewrite lookup_insert_eq.
      * destruct (Hi t items it Ht Hit) as (? & cp & Hc & ?). split; [done|]. exists cp. split; [|done].
        rewrite lookup_insert_ne; [done|]. by apply not_eq_sym, (Hne t items it).
    + intros o cp [[<- _]|[_ Hc]]%lookup_insert_Some; [lia|]. apply Hr in Hc. lia.
    + intros o o' cp cp' [[<- _]|[_ Hc]]%lookup_insert_Some [[<- _]|[_ Hc']]%lookup_insert_Some Hlt.
      * lia.
      * apply Hr in Hc'. lia.
      * apply Hr in Hc. lia.
      * eauto.
  - unfold caps_for. rewrite Hm, decide_True by done. cbn [from_option id]. rewrite omap_app. cbn. rewrite lookup_insert_eq. f_equal.
    apply omap_content. intros it Hit. cbn. rewrite lookup_insert_ne; [done|].
    destruct (map (base c) !! target cap) eqn:E; [by apply not_eq_sym, (Hne _ _ _ E)|by apply elem_of_nil in Hit].
  - intros t Ht. unfold caps_for. rewrite Hm, decide_False by done.
    apply omap_content. intros it Hit. cbn. rewrite lookup_insert_ne; [done|].
    destruct (map (base c) !! t) eqn:E; [by apply not_eq_sym, (Hne _ _ _ E)|by apply elem_of_nil in Hit].
Qed.

Lemma insert_cap_cases c cap :
  sctx_ok c -> ROOT + boffset (base c) + sizeof_Cap + 16 < 2 ^ 64 ->
  match insert_cap sizeof_Cap ROOT c cap with
  | Ret (Ok c') => sctx_ok c' /\ sid c' = sid c /\ masks (base c') = masks (base c) /\ global_mask (base c') = global_mask (base c) /\
      boffset (base c') <= boffset (base c) + sizeof_Cap + 16 /\
      caps_for c' (target cap) = caps_for c (target cap) ++ [cap] /\
      forall t, t <> target cap -> caps_for c' t = caps_for c t
  | Ret (Err OutOfResources) =>
      match map (base c) !! target cap with
      | Some items => (MAP_ITEMS_PER_OBJ <= length items)%nat
      | None => (SEC_CTX_MAP_LEN <= size (map (base c)))%nat
      end
  | _ => False
  end.
Proof.
  intros Hc Hb. pose proof (so_off c Hc). unfold insert_cap.
  rewrite chk_in by lia. cbn [obind]. rewrite chk_in by lia. cbn [obind].
  set (o := boffset (base c) + sizeof_Cap + ROOT). destruct (insert_offset o) as [Hp Hm]; [lia|].
  pose proof (Z.mod_pos_bound o 16). rewrite chk_in by lia. cbn [obind]. rewrite chk_in by lia. cbn [obind].
  destruct (add_item _ _ _) as [m'|e] eqn:Em.
  - destruct (insert_cap_state c cap m' (o + (16 - o mod 16)) (boffset (base c) + sizeof_Cap + (16 - o mod 16)) Hc) as (Hs1 & Hs2 & Hs3);
      [lia..|done|]. cbn in *. split_and!; try done. lia.
  - unfold add_item in Em. destruct (map (base c) !! target cap) as [l|].
    + destruct (Nat.ltb_spec (length l) MAP_ITEMS_PER_OBJ); [done|]. by destruct e.
    + destruct (Nat.ltb_spec (size (map (base c))) SEC_CTX_MAP_LEN); [done|]. by destruct e.
Qed.
End user.

(** ** The contexts of a thread *)
Abbreviation heap := (gmap nat SecurityContext).

Record mgr_ok (h : heap) (m : SecCtxMgr) : Prop := mkMgrOk {
  mo_active : exists a, h !! active m = Some a /\ sctx_id a = active_id m;
  mo_fresh : inactive m !! active_id m = None;
  mo_inactive : forall i r, inactive m !! i = Some r -> exists c, h !! r = Some c /\ sctx_id c = i }.

(** The identifiers of the contexts attached. *)
Definition attached (m : SecCtxMgr) : gset Z := {[active_id m]} ∪ dom (inactive m).

Lemma switch_ok h m id :
  mgr_ok h m ->
  exists m' r, switch_context h m id = Ret (m', r) /\ mgr_ok h m' /\ attached m' = attached m /\
    match r with
    | NoSwitch => id = active_id m /\ m' = m
    | Switched => id <> active_id m /\ id ∈ attached m /\ active_id m' = id
    | NotAttached => (id ∉ attached m) /\ m' = m
    end.
Proof.
  intros Hm. pose proof Hm as [(a & Ha & Hid) Hf Hi]. unfold switch_context, attached.
  destruct (Z.eqb_spec (active_id m) id) as [<-|Hne]; [exists m, NoSwitch; by split_and!|].
  destruct (inactive m !! id) as [r|] eqn:Er.
  2:{ exists m, NotAttached. split_and!; [done..| |done]. rewrite elem_of_union, elem_of_singleton, elem_of_dom, Er. intros [?|[? ?]]; congruence. }
  rewrite Ha. cbn [unwrap obind]. rewrite Hid. do 2 eexists. split; [done|].
  destruct (Hi id r Er) as (c & Hc & Eid). split_and!.
  - split; cbn.
    + eauto.
    + rewrite lookup_insert_ne by done. apply lookup_delete_eq.
    + intros i r' [[<- <-]|[Hne' [Hnd Hl]%lookup_delete_Some]]%lookup_insert_Some; eauto.
  - cbn. rewrite dom_insert_L, dom_delete_L. apply set_eq. intros x.
    assert (id ∈ dom (inactive m)) by (apply elem_of_dom; eauto).
    destruct (decide (x = id)) as [->|]; set_solver.
  - done.
  - apply elem_of_union_r, elem_of_dom. eauto.
  - done.
Qed.

Lemma attach_ok h m r c :
  mgr_ok h m -> h !! r = Some c ->
  exists m' e, attach h m r = Ret (m', e) /\ mgr_ok h m' /\ active_id m' = active_id m /\
    match e with
    | Ok _ => (sctx_id c ∉ attached m) /\ attached m' = {[sctx_id c]} ∪ attached m
    | Err _ => sctx_id c ∈ attached m /\ m' = m
    end.
Proof.
  intros Hm Hc. pose proof Hm as [(a & Ha & Hid) Hf Hi]. unfold attach, attached. rewrite Hc, Ha. cbn [unwrap obind].
  rewrite Hid. destruct (Z.eqb_spec (active_id m) (sctx_id c)) as [E|Hne]; cbn [orb].
  { exists m, (Err AlreadyBound). split_and!; [done..| |done]. rewrite E. set_solver. }
  case_bool_decide as D.
  { exists m, (Err AlreadyBound). split_and!; [done..| |done]. apply elem_of_union_r. by apply elem_of_dom. }
  do 2 eexists. split; [done|]. split_and!.
  - split; cbn; [eauto| |].
    + by rewrite lookup_insert_ne.
    + intros i r' [[<- <-]|[_ Hl]]%lookup_insert_Some; eauto.
  - done.
  - rewrite elem_of_union, elem_of_singleton, elem_of_dom. intros [?|?]; [congruence|done].
  - cbn. rewrite dom_insert_L. set_solver.
Qed.

(** ** What the kernel grants *)
Section kernel.
Context `{Ecdsa} `{Hashes} (sizeof_Cap MAX_SIZE : Z).
Context (lookup_object : Z -> option Z) (read_meta : Z -> option Z) (key_of : Z -> VerifyingKey).

Abbreviation items_loop := (items_loop sizeof_Cap MAX_SIZE).
Abbreviation sctx_lookup := (sctx_lookup sizeof_Cap MAX_SIZE lookup_object read_meta key_of).
Abbreviation heap_lookup := (heap_lookup sizeof_Cap MAX_SIZE lookup_object read_meta key_of).
Abbreviation target_key := (target_key lookup_object read_meta key_of).

(** The items hold no delegation, on which the kernel panics. *)
Definition no_del (items : list CtxMapItem) : Prop := Forall (fun it => item_type it = ItemCap) items.

(** Some verified capability among the items grants bit [b]. *)
Definition granted_by (k : KernelObject) (v : VerifyingKey) (items : list CtxMapItem) (b : Z) : Prop :=
  exists it, it ∈ items /\ verify_sig (cap_at k (ioffset it)) v = Ok tt /\ Z.testbit (protections (cap_at k (ioffset it))) b = true.

Lemma lea_raw_some k o c : lea_raw sizeof_Cap MAX_SIZE k o = Some c -> c = cap_at k o.
Proof.
  unfold lea_raw. destruct (MAX_SIZE <=? o); [done|]. destruct (checked_add 64 o sizeof_Cap) as [e|]; [|done].
  destruct (MAX_SIZE <=? e); [done|]. by intros [= <-].
Qed.

Lemma verifies_ok c v : verifies c v = true -> verify_sig c v = Ok tt.
Proof. unfold verifies. by destruct (verify_sig c v) as [[]|]. Qed.

(** The items the loop reads: up to the first that points outside the object. *)
Fixpoint reads (k : KernelObject) (items : list CtxMapItem) : list CtxMapItem :=
  match items with
  | [] => []
  | it :: items => match lea_raw sizeof_Cap MAX_SIZE k (ioffset it) with Some _ => it :: reads k items | None => [] end
  end.

Definition all_read (k : KernelObject) (items : list CtxMapItem) : bool :=
  forallb (fun it => match lea_raw sizeof_Cap MAX_SIZE k (ioffset it) with Some _ => true | None => false end) items.

Lemma items_loop_spec k v items g : no_del items ->
  exists g', items_loop k v items g = Ret (g', negb (all_read k items)) /\
    forall b, Z.testbit g' b = true <-> Z.testbit g b = true \/ granted_by k v (reads k items) b.
Proof.
  intros Hn. revert g. induction Hn as [|it items Hit _ IH]; intros g; cbn [SecCtx.items_loop reads all_read forallb].
  { exists g. split; [done|]. intros b. split; [by left|]. intros [?|(it & Hin & _)]; [done|by apply elem_of_nil in Hin]. }
  rewrite Hit. destruct (lea_raw sizeof_Cap MAX_SIZE k (ioffset it)) as [c|] eqn:El.
  2:{ exists g. split; [done|]. intros b. split; [by left|]. intros [?|(it' & Hin & _)]; [done|by apply elem_of_nil in Hin]. }
  apply lea_raw_some in El as ->. cbn [andb].
  destruct (IH (if verifies (cap_at k (ioffset it)) v then Z.lor g (protections (cap_at k (ioffset it))) else g)) as (g' & E & Hb).
  exists g'. split; [done|]. intros b. rewrite Hb. unfold granted_by. setoid_rewrite elem_of_cons. destruct (verifies _ v) eqn:Ev.
  - apply verifies_ok in Ev. rewrite Z.lor_spec, orb_true_iff. split.
    + intros [[?|?]|(x & ? & ?)]; [by left|right; exists it; auto|right; exists x; auto].
    + intros [?|(x & [->|?] & ? & ?)]; [left; by left|left; by right|right; by exists x].
  - assert (verify_sig (cap_at k (ioffset it)) v <> Ok tt) by (unfold verifies in Ev; intros E'; by rewrite E' in Ev). split.
    + intros [?|(x & ? & ?)]; [by left|right; exists x; auto].
    + intros [?|(x & [->|?] & ? & ?)]; [by left|done|right; by exists x].
Qed.

(** The items a context has for a target. *)
Definition items_of (c : SecurityContext) (id : Z) : option (KernelObject * list CtxMapItem) :=
  match kobj c with
  | Some k => match map (kbase k) !! id with Some items => Some (k, items) | None => None end
  | None => None
  end.

Definition no_del_in (c : SecurityContext) (id : Z) : Prop := forall k items, items_of c id = Some (k, items) -> no_del items.

(** The masks as the lookup applies them: the mask of the target only after all the
    items have been read, and together with the global mask. *)
Definition mask_allows (b : SecCtxBase) (id : Z) (complete : bool) (n : Z) : bool :=
  match (if complete then masks b !! id else None) with
  | Some m => Z.testbit (permmask m) n && (Z.testbit (global_mask b) n || Z.testbit (ovrmask m) n)
  | None => Z.testbit (global_mask b) n
  end.

(** The protection [n] is provided for a target, given its default protections, by a lookup
    that computes it: from what the object of the context holds and the target's key. *)
Definition provides (c : SecurityContext) (id d n : Z) : Prop :=
  match items_of c id with
  | None => Z.testbit d n = true
  | Some (k, items) =>
      match target_key id with
      | None => Z.testbit d n = true /\ mask_allows (kbase k) id false n = true
      | Some v => (Z.testbit d n = true \/ granted_by k v (reads k items) n) /\ mask_allows (kbase k) id (all_read k items) n = true
      end
  end.

Lemma lookup_fresh c id d : cache c !! id = None -> no_del_in c id ->
  exists c' p, sctx_lookup c id d = Ret (c', p) /\ kobj c' = kobj c /\ (c' = c \/ cache c' = <[id := p]> (cache c)) /\
    ctx p = sctx_id c /\ restrict p = 0 /\ forall n, Z.testbit (provide p) n = true <-> provides c id d n.
Proof.
  intros Hc Hn. unfold SecCtx.sctx_lookup, no_del_in, provides, items_of in *. rewrite Hc, Z.lor_0_l.
  destruct (kobj c) as [k|] eqn:Ek; [|do 2 eexists; split_and!; auto; done].
  destruct (map (kbase k) !! id) as [items|] eqn:Em; [|do 2 eexists; split_and!; auto; done].
  destruct (target_key id) as [v|] eqn:Ev.
  2:{ do 2 eexists. split_and!; auto. cbn. intros n. by rewrite Z.land_spec, andb_true_iff. }
  destruct (items_loop_spec k v items d) as (g & -> & Hg); [by apply (Hn k)|]. cbn [obind]. unfold mask_allows.
  destruct (all_read k items); cbn [negb].
  - destruct (masks (kbase k) !! id) as [m|]; do 2 eexists; split_and!; auto; cbn; intros n; rewrite ?Z.land_spec, ?Z.lor_spec, !andb_true_iff, ?Hg; tauto.
  - do 2 eexists; split_and!; auto; cbn. intros n. by rewrite Z.land_spec, andb_true_iff, Hg.
Qed.

(** *** The object a user program filled, as the kernel maps it *)
Definition blank_cap : Cap := mkCap 0 0 0 0 Gate_default (mkRevoc 0) (mkSignature [] Ecdsa_scheme).
Definition kernel_view (c : SecCtxObj) : KernelObject :=
  mkKobj (sid c) (base c) (fun o => default blank_cap (content c !! o)).

Lemma items_loop_grants (k : KernelObject) v items g n :
  no_del items ->
  Forall (fun it => 0 <= ioffset it /\ ioffset it + sizeof_Cap < MAX_SIZE) items -> 0 <= sizeof_Cap -> MAX_SIZE <= 2 ^ 64 ->
  exists g', items_loop k v items g = Ret (g', false) /\
    (Z.testbit g n = true \/ granted_by k v items n -> Z.testbit g' n = true).
Proof.
  intros Hn Hr Hs HM. revert g. induction items as [|it items IH]; intros g; cbn [SecCtx.items_loop].
  { exists g. split; [done|]. intros [?|(it & Hin & _)]; [done|by apply elem_of_nil in Hin]. }
  apply Forall_cons in Hn as [Hit Hn], Hr as [Hro Hr]. rewrite Hit.
  unfold lea_raw, checked_add. rewrite (proj2 (in_u_spec _ _)) by lia. zbool.
  set (c := cap_at k (ioffset it)).
  destruct (IH Hn Hr (if verifies c v then Z.lor g (protections c) else g)) as (g' & E & Hg).
  exists g'. split; [done|]. intros [Hgn|(it' & [->|Hin]%elem_of_cons & Hv & Hp)]; apply Hg.
  - left. destruct (verifies c v); [|done]. by rewrite Z.lor_spec, Hgn.
  - left. fold c in Hv, Hp. unfold verifies. rewrite Hv. cbn [is_ok]. by rewrite Z.lor_spec, Hp, orb_true_r.
  - right. exists it'. done.
Qed.

Lemma stored_items ROOT (c : SecCtxObj) t items :
  sctx_ok sizeof_Cap ROOT c -> 0 <= ROOT -> ROOT + boffset (base c) + sizeof_Cap < MAX_SIZE ->
  map (base c) !! t = Some items ->
  no_del items /\ Forall (fun it => 0 <= ioffset it /\ ioffset it + sizeof_Cap < MAX_SIZE) items /\
  forall cap, cap ∈ caps_for c t -> exists it, it ∈ items /\ cap_at (kernel_view c) (ioffset it) = cap.
Proof.
  intros Hc HR Hb Ht. split_and!.
  - apply Forall_forall. intros it Hin. by destruct (so_items _ _ c Hc t items it Ht Hin).
  - apply Forall_forall. intros it Hin. destruct (so_items _ _ c Hc t items it Ht Hin) as (_ & cap & Hcap & _).
    destruct (so_range _ _ c Hc _ _ Hcap). lia.
  - intros cap Hin. unfold caps_for in Hin. rewrite Ht in Hin. cbn in Hin.
    apply list_elem_of_omap in Hin as (it & Hit & Ec). exists it. split; [done|]. cbn. by rewrite Ec.
Qed.

(** A verified capability stored for the target grants what the masks leave of it. *)
Lemma stored_grants ROOT (c : SecCtxObj) cap d v n :
  sctx_ok sizeof_Cap ROOT c -> 0 <= ROOT -> 0 <= sizeof_Cap -> MAX_SIZE <= 2 ^ 64 -> ROOT + boffset (base c) + sizeof_Cap < MAX_SIZE ->
  cap ∈ caps_for c (target cap) -> target_key (target cap) = Some v -> verify_sig cap v = Ok tt ->
  masks (base c) !! target cap = None -> Z.testbit (global_mask (base c)) n = true -> Z.testbit (protections cap) n = true ->
  exists c' p, sctx_lookup (SecurityContext_new (Some (kernel_view c))) (target cap) d = Ret (c', p) /\ Z.testbit (provide p) n = true.
Proof.
  intros Hc HR Hs HM Hb Hin Hk Hv Hm Hg Hp. unfold SecCtx.sctx_lookup, SecurityContext_new. cbn [cache kobj].
  rewrite lookup_empty, Z.lor_0_l. cbn [kernel_view kbase].
  destruct (map (base c) !! target cap) as [items|] eqn:Ht.
  2:{ unfold caps_for in Hin. rewrite Ht in Hin. by apply elem_of_nil in Hin. }
  destruct (stored_items ROOT c (target cap) items Hc HR Hb Ht) as (Hn & Hr & Hcap).
  rewrite Hk. destruct (Hcap cap Hin) as (it & Hit & Eit).
  destruct (items_loop_grants (kernel_view c) v items d n Hn Hr Hs HM) as (g' & E & Hgr).
  change (mkKobj (sid c) (base c) (fun o => default blank_cap (content c !! o))) with (kernel_view c).
  rewrite E. cbn [obind]. rewrite Hm. do 2 eexists. split; [done|]. cbn [provide]. rewrite Z.land_spec, Hg, andb_true_r.
  apply Hgr. right. exists it. by rewrite Eit.
Qed.

(** A lookup in an attached context returns, and changes only that context's cache. *)
Lemma heap_lookup_ret h r c id d :
  h !! r = Some c -> no_del_in c id ->
  exists c' p, sctx_lookup c id d = Ret (c', p) /\ heap_lookup h r id d = Ret (<[r := c']> h, p) /\ kobj c' = kobj c.
Proof.
  intros Hr Hn. unfold SecCtx.heap_lookup. rewrite Hr. cbn [unwrap obind].
  destruct (cache c !! id) as [p|] eqn:Ec.
  - exists c, p. assert (sctx_lookup c id d = Ret (c, p)) as -> by (unfold SecCtx.sctx_lookup; by rewrite Ec). done.
  - destruct (lookup_fresh c id d Ec Hn) as (c' & p & -> & Hk & _). eauto.
Qed.

(** What a context grants, as its own lookup says. *)
Definition grants (h : heap) (r : nat) (id d : Z) (p : PermsInfo) : Prop :=
  exists c c', h !! r = Some c /\ sctx_lookup c id d = Ret (c', p).

Lemma search_loop_spec h rs a d :
  NoDup rs.*2 ->
  (forall i r, (i, r) ∈ rs -> exists c, h !! r = Some c /\ no_del_in c (target_id a)) ->
  exists h' o, search_loop sizeof_Cap MAX_SIZE lookup_object read_meta key_of h rs a d = Ret (h', o) /\
    match o with
    | Some p => perms_satisfy a p = true /\ exists i r, (i, r) ∈ rs /\ grants h r (target_id a) d p
    | None => forall i r p, (i, r) ∈ rs -> grants h r (target_id a) d p -> perms_satisfy a p = false
    end.
Proof.
  revert h. induction rs as [|[i r] rs IH]; intros h Hnd Hrs; cbn [search_loop].
  { do 2 eexists. split; [done|]. intros ? ? ? Hin. by apply elem_of_nil in Hin. }
  cbn in Hnd. apply NoDup_cons in Hnd as [Hni Hnd].
  destruct (Hrs i r) as (c & Hc & Hn); [by left|].
  destruct (heap_lookup_ret h r c (target_id a) d Hc Hn) as (c' & p & El & -> & Hk). cbn [obind].
  assert (grants h r (target_id a) d p) as Hgr by (exists c, c'; done).
  destruct (perms_satisfy a p) eqn:Es.
  { do 2 eexists. split; [done|]. split; [done|]. exists i, r. split; [by left|done]. }
  assert (forall i' r', (i', r') ∈ rs -> r' <> r) as Hne.
  { intros i' r' Hin ->. apply Hni. apply list_elem_of_fmap. by exists (i', r). }
  assert (forall i' r' p', (i', r') ∈ rs -> grants (<[r := c']> h) r' (target_id a) d p' <-> grants h r' (target_id a) d p') as Heq.
  { intros i' r' p' Hin. unfold grants. by rewrite lookup_insert_ne by by apply not_eq_sym, (Hne i'). }
  destruct (IH (<[r := c']> h)) as (h' & o & -> & Ho); [done| |].
  { intros i' r' Hin. rewrite lookup_insert_ne by by apply not_eq_sym, (Hne i'). apply (Hrs i'). by right. }
  do 2 eexists. split; [done|]. destruct o as [p'|].
  - destruct Ho as (Hs & i' & r' & Hin & Hg). split; [done|]. exists i', r'. split; [by right|]. by apply (Heq i').
  - intros i' r' p' [[= -> ->]|Hin]%elem_of_cons Hg.
    + destruct Hg as (c1 & c2 & Hc1 & E1). rewrite Hc in Hc1. injection Hc1 as <-. rewrite El in E1. by injection E1 as -> ->.
    + apply (Ho i' r'); [done|]. by apply (Heq i').
Qed.

Lemma in_order_elem (m : gmap Z nat) x : x ∈ in_order m <-> m !! x.1 = Some x.2.
Proof. unfold in_order. rewrite merge_sort_Permutation. destruct x. apply elem_of_map_to_list. Qed.

(** In a well-formed manager no context is attached twice. *)
Lemma in_order_nodup h m : mgr_ok h m -> NoDup (in_order (inactive m)).*2 /\ active m ∉ (in_order (inactive m)).*2.
Proof.
  intros [(a & Ha & Hid) Hf Hi]. split.
  - apply NoDup_fmap_2_strong; [|unfold in_order; rewrite merge_sort_Permutation; apply NoDup_map_to_list].
    intros [i r] [i' r'] Hx%in_order_elem Hy%in_order_elem E. cbn in *. subst r'.
    destruct (Hi i r Hx) as (c & Hc & <-), (Hi i' r Hy) as (c' & Hc' & <-). congruence.
  - intros ([i r] & Er & Hx%in_order_elem)%list_elem_of_fmap. cbn in *. subst r.
    destruct (Hi i (active m) Hx) as (c & Hc & Hci). rewrite Ha in Hc. injection Hc as <-. congruence.
Qed.

(** The permissions [p] are a right answer for the access [a], the active context being
    undetachable or not. *)
Record search_result (h : heap) (m : SecCtxMgr) (a : AccessInfo) (d : Z) (undetachable : bool) (p : PermsInfo) : Prop := mkResult {
  sr_from : grants h (active m) (target_id a) d p \/
    undetachable = false /\ perms_satisfy a p = true /\
    exists i r, inactive m !! i = Some r /\ grants h r (target_id a) d p;
  sr_active : perms_satisfy a p = false -> forall q, grants h (active m) (target_id a) d q -> perms_satisfy a q = false;
  sr_others : perms_satisfy a p = false -> undetachable = false ->
    forall i r q, inactive m !! i = Some r -> grants h r (target_id a) d q -> perms_satisfy a q = false }.

Lemma grants_fun h r id d p q : grants h r id d p -> grants h r id d q -> p = q.
Proof.
  intros (c & c1 & Hc & E) (c' & c2 & Hc' & E'). rewrite Hc in Hc'. injection Hc' as <-. rewrite E in E'. by injection E'.
Qed.

(** The search after the active context did not satisfy the access. *)
Lemma search_inactive h m a d act act' pa :
  mgr_ok h m -> h !! active m = Some act -> (forall r c, h !! r = Some c -> no_del_in c (target_id a)) ->
  grants h (active m) (target_id a) d pa -> perms_satisfy a pa = false ->
  exists h' o, search_loop sizeof_Cap MAX_SIZE lookup_object read_meta key_of (<[active m := act']> h) (in_order (inactive m)) a d = Ret (h', o) /\
    search_result h m a d false (match o with Some p => p | None => pa end).
Proof.
  intros Hm Ha Hn Hga Es. destruct (in_order_nodup h m Hm) as [Hnd Hna].
  assert (forall i r, inactive m !! i = Some r -> r <> active m) as Hne.
  { intros i r Hin ->. apply Hna, list_elem_of_fmap. exists (i, active m). split; [done|]. by apply in_order_elem. }
  assert (forall i r q, inactive m !! i = Some r -> grants (<[active m := act']> h) r (target_id a) d q <-> grants h r (target_id a) d q) as Heq.
  { intros i r q Hin. unfold grants. by rewrite lookup_insert_ne by by apply not_eq_sym, (Hne i). }
  destruct (search_loop_spec (<[active m := act']> h) (in_order (inactive m)) a d Hnd) as (h' & o & Eo & Ho).
  { intros i r Hin%in_order_elem. cbn in Hin. rewrite lookup_insert_ne by by apply not_eq_sym, (Hne i).
    destruct (mo_inactive h m Hm i r Hin) as (c & Hc & _). eauto. }
  exists h', o. split; [done|]. destruct o as [p|].
  - destruct Ho as (Hp & i & r & Hin%in_order_elem & Hg). split; [|congruence..].
    right. split_and!; [done..|]. exists i, r. split; [done|]. by apply (Heq i).
  - split; [by left|by intros _ q Hq; rewrite (grants_fun _ _ _ _ _ _ Hq Hga)|].
    intros _ _ i r q Hin Hg. apply (Ho i r); [by apply in_order_elem|by apply (Heq i)].
Qed.

Lemma search_access_ok h m a d act :
  mgr_ok h m -> h !! active m = Some act -> (forall r c, h !! r = Some c -> no_del_in c (target_id a)) ->
  exists h' p, search_access sizeof_Cap MAX_SIZE lookup_object read_meta key_of h m a d = Ret (h', p) /\
    search_result h m a d (match sctx_flags act with Some f => Z.testbit f 0 | None => false end) p.
Proof.
  intros Hm Ha Hn.
  destruct (heap_lookup_ret h (active m) act (target_id a) d Ha (Hn _ _ Ha)) as (act' & pa & El & E & Hk).
  assert (grants h (active m) (target_id a) d pa) as Hga by (exists act, act'; done).
  unfold search_access, mgr_lookup. rewrite E. cbn [obind]. destruct (perms_satisfy a pa) eqn:Es.
  { do 2 eexists. split; [done|]. split; [by left|congruence..]. }
  rewrite lookup_insert_eq. cbn [unwrap obind].
  assert (sctx_flags act' = sctx_flags act) as -> by (unfold sctx_flags; by rewrite Hk).
  destruct (search_inactive h m a d act act' pa Hm Ha Hn Hga Es) as (h' & o & -> & Hr). cbn [obind].
  destruct (sctx_flags act) as [f|]; [destruct (Z.testbit f 0)|]; do 2 eexists; (split; [done|]); [|done..].
  split; [by left|by intros _ q Hq; rewrite (grants_fun _ _ _ _ _ _ Hq Hga)|done].
Qed.
End kernel.

(** Storing capabilities.  On a well-formed context [insert_cap] returns; when it
    succeeds the context stays well-formed (the stored capabilities lie at aligned
    offsets after the base, no two of them overlap, and each is listed under its own
    target), the new capability is the last one of its target and every other stored
    capability is unchanged.  It fails only when the target has [MAP_ITEMS_PER_OBJ]
    capabilities or the map [SEC_CTX_MAP_LEN] targets. *)
Theorem insert_cap_ok `{Build} (sizeof_Cap ROOT : Z) (c : SecCtxObj) (cap : Cap) :
  0 < sizeof_Cap -> 0 <= ROOT -> sctx_ok sizeof_Cap ROOT c -> ROOT + boffset (base c) + sizeof_Cap + 16 < 2 ^ 64 ->
  match insert_cap sizeof_Cap ROOT c cap with
  | Ret (Ok c') => sctx_ok sizeof_Cap ROOT c' /\
      caps_for c' (target cap) = caps_for c (target cap) ++ [cap] /\
      forall t, t <> target cap -> caps_for c' t = caps_for c t
  | Ret (Err OutOfResources) =>
      match map (base c) !! target cap with
      | Some items => (MAP_ITEMS_PER_OBJ <= length items)%nat
      | None => (SEC_CTX_MAP_LEN <= size (map (base c)))%nat
      end
  | _ => False
  end.
Proof.
  intros Hs HR Hc Hb. pose proof (insert_cap_cases sizeof_Cap ROOT Hs HR c cap Hc Hb) as Hi.
  destruct (insert_cap sizeof_Cap ROOT c cap) as [[c'|[]]| |]; [|done..]. tauto.
Qed.

(** *** Lookups over time

    A lookup in a context, at a time when the object of the context, the objects, their
    metadata and the keys are as given: the object is memory that programs write. *)
Record Query := mkQuery {
  q_kobj : option KernelObject; q_lookup : Z -> option Z; q_meta : Z -> option Z; q_key : Z -> VerifyingKey; q_id : Z; q_default : Z }.

Section queries.
Context `{Ecdsa} `{Hashes} (sizeof_Cap MAX_SIZE : Z).

Definition q_ctx (q : Query) (cached : gmap Z PermsInfo) : SecurityContext := mkSctx (q_kobj q) cached.
Definition look (cached : gmap Z PermsInfo) (q : Query) : outcome (SecurityContext * PermsInfo) :=
  sctx_lookup sizeof_Cap MAX_SIZE (q_lookup q) (q_meta q) (q_key q) (q_ctx q cached) (q_id q) (q_default q).






End queries.


(** The whole path of a capability.  A key pair is made; a capability for [tgt] is
    signed with it and inserted in a well-formed context; the key the target's metadata
    names is the verifying key of the pair.  Then the kernel's lookup of the target in
    that context provides every protection of the capability that the global mask of the
    context allows (the context having no mask for the target). *)
Theorem cap_grants `{Ecdsa} `{Hashes} `{Build} (sizeof_Cap ROOT MAX_SIZE : Z) (lookup_object read_meta : Z -> option Z) (key_of : Z -> VerifyingKey)
    (random : list Z) (s : SigningKey) (v : VerifyingKey) (tgt acc prots : Z) (r : Revoc) (g : Gate) (algo : HashingAlgo)
    (cap : Cap) (c c' : SecCtxObj) (d n : Z) :
  new_kernel_keypair random = Ret (Some (s, v)) -> Cap_new tgt acc prots s r g algo = Ret (Ok cap) ->
  0 < sizeof_Cap -> 0 <= ROOT -> MAX_SIZE <= 2 ^ 64 -> ROOT + boffset (base c) + 2 * sizeof_Cap + 16 < MAX_SIZE ->
  sctx_ok sizeof_Cap ROOT c -> insert_cap sizeof_Cap ROOT c cap = Ret (Ok c') ->
  target_key lookup_object read_meta key_of tgt = Some v -> masks (base c) !! tgt = None ->
  Z.testbit prots n = true -> Z.testbit (global_mask (base c)) n = true ->
  exists sc p, sctx_lookup sizeof_Cap MAX_SIZE lookup_object read_meta key_of (SecurityContext_new (Some (kernel_view c'))) tgt d = Ret (sc, p) /\
    Z.testbit (provide p) n = true.
Proof.
  intros Hkp Hcap Hs HR HM Hb Hc Hi Hk Hm Hp Hg.
  pose proof (keypair_ok random) as Hpair. rewrite Hkp in Hpair.
  destruct (cap_new_verifies tgt acc prots s v r g algo Hpair) as (cap' & E & Hv & Ht & _ & Hpr & _).
  rewrite Hcap in E. injection E as <-. subst tgt prots.
  pose proof (insert_cap_cases sizeof_Cap ROOT Hs HR c cap Hc ltac:(lia)) as Hcs. rewrite Hi in Hcs.
  destruct Hcs as (Hc' & _ & Emk & Eg & Hoff & Hcf & _).
  apply (stored_grants sizeof_Cap MAX_SIZE lookup_object read_meta key_of ROOT c' cap d v n); try done; try lia.
  - rewrite Hcf. apply elem_of_app. right. by left.
  - by rewrite Emk.
  - by rewrite Eg.
Qed.

(** C36: The search over the contexts of a thread (none of which lists a delegation for the
    target).  The permissions returned are those of the active context or of an attached
    inactive one; they are those of the active one when its object is marked
    undetachable; and they satisfy the access whenever the active context satisfies it,
    or, unless undetachable, some attached context does. *)
Theorem search_access_spec `{Ecdsa} `{Hashes} (sizeof_Cap MAX_SIZE : Z) (lookup_object read_meta : Z -> option Z) (key_of : Z -> VerifyingKey)
    (h : gmap nat SecurityContext) (m : SecCtxMgr) (a : AccessInfo) (d : Z) (act : SecurityContext) :
  let undetachable := match sctx_flags act with Some f => Z.testbit f 0 | None => false end in
  mgr_ok h m -> h !! active m = Some act -> (forall r c, h !! r = Some c -> no_del_in c (target_id a)) ->
  exists h' p, search_access sizeof_Cap MAX_SIZE lookup_object read_meta key_of h m a d = Ret (h', p) /\
    search_result sizeof_Cap MAX_SIZE lookup_object read_meta key_of h m a d undetachable p.
Proof. apply search_access_ok. Qed.

(** Attaching and switching.  The manager of a thread starts with one context; attaching
    adds a context exactly when none with its identifier is attached, and switching makes
    an attached context active and keeps the set of attached contexts; a failed attach or
    switch changes nothing.  In between, the cached [active_id] is the identifier of the
    active context, and no context is attached twice. *)
Theorem mgr_ops_ok (h : gmap nat SecurityContext) (r0 : nat) (c0 : SecurityContext) :
  h !! r0 = Some c0 ->
  (exists m, SecCtxMgr_new h r0 = Ret m /\ mgr_ok h m /\ attached m = {[sctx_id c0]}) /\
  forall m, mgr_ok h m ->
    (exists m' e, attach h m r0 = Ret (m', e) /\ mgr_ok h m' /\ active_id m' = active_id m /\
       match e with
       | Ok _ => (sctx_id c0 ∉ attached m) /\ attached m' = {[sctx_id c0]} ∪ attached m
       | Err _ => sctx_id c0 ∈ attached m /\ m' = m
       end) /\
    forall id, exists m' r, switch_context h m id = Ret (m', r) /\ mgr_ok h m' /\ attached m' = attached m /\
       match r with
       | NoSwitch => id = active_id m /\ m' = m
       | Switched => id <> active_id m /\ id ∈ attached m /\ active_id m' = id
       | NotAttached => (id ∉ attached m) /\ m' = m
       end.
Proof.
  intros H0. split.
  - unfold SecCtxMgr_new. rewrite H0. cbn [unwrap obind]. eexists. split; [done|]. split.
    + split; cbn; [eauto|done|done].
    + unfold attached. cbn. set_solver.
  - intros m Hm. split; [exact (attach_ok h m r0 c0 Hm H0)|]. intros id. by apply switch_ok.
Qed.

(** ** Instances

    Objects 10 and 11 name object 20 as their key, which holds the toy key. *)
Definition demo_lookup (i : Z) : option Z := if bool_decide (i ∈ [10; 11; 20]) then Some i else None.
Definition demo_meta (o : Z) : option Z := if bool_decide (o ∈ [10; 11]) then Some 20 else None.
Definition demo_key (_ : Z) : VerifyingKey := toy_vk.

Definition demo_cap (tgt acc prots : Z) : Cap :=
  match Cap_new tgt acc prots toy_sk (mkRevoc 0) Gate_default Sha256 with
  | Ret (Ok c) => c
  | _ => blank_cap
  end.
Definition demo_obj (cap : Cap) : SecCtxObj :=
  match insert_cap (H := true) 100 4096 (SecCtx_new 5 3 0) cap with Ret (Ok c) => c | _ => SecCtx_new 5 3 0 end.
Definition demo_ctx (cap : Cap) : SecurityContext := SecurityContext_new (Some (kernel_view (demo_obj cap))).

Lemma demo_new_ok : sctx_ok 100 4096 (SecCtx_new 5 3 0).
Proof. apply sctx_new_ok. Qed.

Lemma insert_cap_ok_witness :
  caps_for (demo_obj (demo_cap 10 5 7)) 10 = [demo_cap 10 5 7].
Proof.
  pose proof (insert_cap_ok (H := true) 100 4096 (SecCtx_new 5 3 0) (demo_cap 10 5 7) ltac:(lia) ltac:(lia) demo_new_ok ltac:(vm_compute; done)) as Hi.
  unfold demo_obj. destruct (insert_cap (H := true) 100 4096 (SecCtx_new 5 3 0) (demo_cap 10 5 7)) as [[c|[]]| |] eqn:E; [|vm_compute in E; congruence..].
  destruct Hi as (_ & E2 & _). exact E2.
Defined.

Definition is_cap (it : CtxMapItem) : bool := match item_type it with ItemCap => true | ItemDel => false end.

Lemma no_del_check c id :
  match items_of c id with Some (_, l) => forallb is_cap l | None => true end = true -> no_del_in c id.
Proof.
  intros E k items Ei. rewrite Ei in E. apply Forall_forall. intros it Hit.
  rewrite forallb_forall in E. specialize (E it). unfold is_cap in E. destruct (item_type it); [done|].
  discriminate E. by apply list_elem_of_In.
Qed.



Lemma cap_grants_witness :
  exists sc p, sctx_lookup 100 (2 ^ 30) demo_lookup demo_meta demo_key (demo_ctx (demo_cap 10 5 7)) 10 0 = Ret (sc, p) /\
    Z.testbit (provide p) 1 = true.
Proof.
  apply (cap_grants (H1 := true) 100 4096 (2 ^ 30) demo_lookup demo_meta demo_key [7; 1] toy_sk toy_vk 10 5 7 (mkRevoc 0) Gate_default Sha256
    (demo_cap 10 5 7) (SecCtx_new 5 3 0) (demo_obj (demo_cap 10 5 7)) 0 1);
    [reflexivity|vm_compute; reflexivity|lia|lia|lia|vm_compute; reflexivity|exact demo_new_ok|vm_compute; reflexivity|reflexivity|reflexivity|reflexivity|reflexivity].
Defined.

(** A thread with the context of object 5 inactive and the kernel's context active. *)
Definition demo_heap : gmap nat SecurityContext :=
  list_to_map [(0%nat, SecurityContext_new None); (1%nat, demo_ctx (demo_cap 10 5 7))].
Definition demo_mgr : SecCtxMgr := mkMgr 0 {[5 := 1%nat]} 0.

Lemma demo_mgr_ok : mgr_ok demo_heap demo_mgr.
Proof.
  split; [exists (SecurityContext_new None); split; reflexivity|reflexivity|].
  intros i r Hi. apply (lookup_singleton_Some 5 i 1%nat r) in Hi as [<- <-]. exists (demo_ctx (demo_cap 10 5 7)). split; reflexivity.
Qed.

Lemma search_access_spec_witness :
  exists h' p, search_access 100 (2 ^ 30) demo_lookup demo_meta demo_key demo_heap demo_mgr (mkAccess 10 2) 0 = Ret (h', p) /\
    search_result 100 (2 ^ 30) demo_lookup demo_meta demo_key demo_heap demo_mgr (mkAccess 10 2) 0 false p.
Proof.
  apply (search_access_spec 100 (2 ^ 30) demo_lookup demo_meta demo_key demo_heap demo_mgr (mkAccess 10 2) 0 (SecurityContext_new None) demo_mgr_ok);
    [reflexivity|].
  intros r c Hr. apply elem_of_list_to_map_2 in Hr.
  apply elem_of_cons in Hr as [[= -> ->]|Hr]; [by intros k items|].
  apply list_elem_of_singleton in Hr as [= -> ->]. apply no_del_check. vm_compute. reflexivity.
Defined.

Lemma mgr_ops_ok_witness : exists m', switch_context demo_heap demo_mgr 5 = Ret (m', Switched) /\ attached m' = attached demo_mgr.
Proof.
  destruct (mgr_ops_ok demo_heap 0 (SecurityContext_new None) eq_refl) as [_ Hm].
  destruct (Hm demo_mgr demo_mgr_ok) as [_ Hs]. destruct (Hs 5) as (m' & r & E & _ & Ha & _).
  exists m'. split; [|exact Ha]. rewrite E. f_equal. vm_compute in E. injection E as <- <-. reflexivity.
Defined.

(** The kernel does not compare the fields of a capability with its use.  Context 5 lists
    under object 10 a capability signed for object 11 and for accessor 99; the two
    objects have the same key.  The lookup of object 10 in context 5 provides the
    protections of that capability. *)
Theorem lookup_ignores_fields :
  let cap := demo_cap 11 99 3 in
  target cap = 11 /\ accessor cap = 99 /\
  let k := mkKobj 5 (mkBase {[10 := [mkItem ItemCap 4208]]} ∅ 3 112 0) (fun _ => cap) in
  (let! (_, p) := sctx_lookup 100 (2 ^ 30) demo_lookup demo_meta demo_key (SecurityContext_new (Some k)) 10 0 in Ret (provide p)) = Ret 3.
Proof. vm_compute. split_and!; reflexivity. Qed.

(** The cache of a context does not depend on the default protections.  After a lookup of
    object 10 with default protection 1, a lookup with no default protections still
    provides it, although no capability grants it; on a context that was not asked before
    the same lookup provides nothing. *)
Theorem lookup_cache_keeps_default :
  let k := mkKobj 5 (mkBase {[10 := []]} ∅ 7 0 0) (fun _ => blank_cap) in
  let look c d := sctx_lookup 100 (2 ^ 30) demo_lookup demo_meta demo_key c 10 d in
  (let! (c1, _) := look (SecurityContext_new (Some k)) 1 in let! (_, p) := look c1 0 in Ret (provide p)) = Ret 1 /\
  (let! (_, p) := look (SecurityContext_new (Some k)) 0 in Ret (provide p)) = Ret 0.
Proof. vm_compute. split; reflexivity. Qed.
End SecCtxInv.
