(* ===== verification/IntervalTree.v ===== *)
(** * Trees of disjoint intervals

    Object page trees, page vectors and the region maps of virtual memory contexts are
    [NonOverlappingIntervalTree]s of the crate of that name, which is not part of this
    repository.  [IntervalTree] is what the kernel relies on: a collection of disjoint
    half-open intervals with values, in increasing order, in which an interval is found
    and removed by any point it contains, [range] lists the intervals that meet a range,
    and [insert_replace] first takes those out and returns them. *)
From stdpp Require Import sorting.
From S2P Require Import Prelude.

#[local] Open Scope Z_scope.

Record ival (V : Type) := Ival { i_lo : Z; i_hi : Z; i_val : V }.
Arguments Ival {V} _ _ _.
Arguments i_lo {V} _.
Arguments i_hi {V} _.
Arguments i_val {V} _.

Definition contains {V} (k : Z) (e : ival V) : bool := (i_lo e <=? k) && (k <? i_hi e).
Definition overlaps {V} (a b : Z) (e : ival V) : bool := (i_lo e <? b) && (a <? i_hi e).

(** The first interval that contains a point. *)
Fixpoint ifind {V} (k : Z) (l : list (ival V)) : option (ival V) :=
  match l with
  | [] => None
  | e :: l => if contains k e then Some e else ifind k l
  end.

(** Keeping the elements that satisfy a test. *)
Fixpoint ikeep {V} (p : ival V -> bool) (l : list (ival V)) : list (ival V) :=
  match l with
  | [] => []
  | e :: l => if p e then e :: ikeep p l else ikeep p l
  end.

(** Insertion at the place given by the lower end. *)
Fixpoint iinsert {V} (e : ival V) (l : list (ival V)) : list (ival V) :=
  match l with
  | [] => [e]
  | f :: l => if i_lo e <? i_lo f then e :: f :: l else f :: iinsert e l
  end.

Class IntervalTree (T : Type -> Type) := {
  it_new {V} : T V;
  it_get {V} : T V -> Z -> option V;
  (** [get_mut(k)] and a change of the value it points to. *)
  it_modify {V} : T V -> Z -> (V -> V) -> T V;
  it_remove {V} : T V -> Z -> option V * T V;
  it_insert {V} : T V -> Z -> Z -> V -> T V;
  it_insert_replace {V} : T V -> Z -> Z -> V -> list (ival V) * T V;
  it_range {V} : T V -> Z -> Z -> list (ival V);
  it_len {V} : T V -> Z;
  (** The intervals, in order. *)
  it_list {V} : T V -> list (ival V);
  it_new_spec {V} : it_list (it_new (V := V)) = [];
  it_get_spec {V} (t : T V) k : it_get t k = i_val <$> ifind k (it_list t);
  it_modify_spec {V} (t : T V) k f :
    it_list (it_modify t k f) =
    (fun e => if contains k e then Ival (i_lo e) (i_hi e) (f (i_val e)) else e) <$> it_list t;
  it_remove_spec {V} (t : T V) k :
    (it_remove t k).1 = i_val <$> ifind k (it_list t) /\
    it_list (it_remove t k).2 = ikeep (fun e => negb (contains k e)) (it_list t);
  it_insert_spec {V} (t : T V) a b v : ikeep (overlaps a b) (it_list t) = [] ->
    it_list (it_insert t a b v) = iinsert (Ival a b v) (it_list t);
  it_insert_replace_spec {V} (t : T V) a b v :
    (it_insert_replace t a b v).1 = ikeep (overlaps a b) (it_list t) /\
    it_list (it_insert_replace t a b v).2 =
      iinsert (Ival a b v) (ikeep (fun e => negb (overlaps a b e)) (it_list t));
  it_range_spec {V} (t : T V) a b : it_range t a b = ikeep (overlaps a b) (it_list t);
  it_len_spec {V} (t : T V) : it_len t = zlen (it_list t) }.

(** A tree as its list of intervals. *)
Definition ivals (V : Type) : Type := list (ival V).

#[refine, global] Instance IntervalTree_list : IntervalTree ivals := {
  it_new V := [];
  it_get V l k := i_val <$> ifind k l;
  it_modify V l k f := (fun e => if contains k e then Ival (i_lo e) (i_hi e) (f (i_val e)) else e) <$> l;
  it_remove V l k := (i_val <$> ifind k l, ikeep (fun e => negb (contains k e)) l);
  it_insert V l a b v := iinsert (Ival a b v) l;
  it_insert_replace V l a b v :=
    (ikeep (overlaps a b) l, iinsert (Ival a b v) (ikeep (fun e => negb (overlaps a b e)) l));
  it_range V l a b := ikeep (overlaps a b) l;
  it_len V l := zlen l;
  it_list V l := l }.
Proof. all: done. Defined.

(** ** Well-formed lists of intervals *)
Definition before {V} (e f : ival V) : Prop := i_hi e <= i_lo f.

Definition iok {V} (l : list (ival V)) : Prop :=
  StronglySorted before l /\ Forall (fun e => i_lo e < i_hi e) l.

Lemma contains_iff {V} k (e : ival V) : contains k e = true <-> i_lo e <= k < i_hi e.
Proof. unfold contains. rewrite andb_true_iff, Z.leb_le, Z.ltb_lt. done. Qed.

Lemma contains_false {V} k (e : ival V) : contains k e = false <-> k < i_lo e \/ i_hi e <= k.
Proof. unfold contains. rewrite andb_false_iff, Z.leb_gt, Z.ltb_ge. done. Qed.

Lemma overlaps_spec {V} a b (e : ival V) : overlaps a b e = true <-> i_lo e < b /\ a < i_hi e.
Proof. unfold overlaps. rewrite andb_true_iff, !Z.ltb_lt. done. Qed.

Lemma overlaps_false {V} a b (e : ival V) : overlaps a b e = false <-> b <= i_lo e \/ i_hi e <= a.
Proof. unfold overlaps. rewrite andb_false_iff, !Z.ltb_ge. done. Qed.

Lemma elem_ikeep {V} p (l : list (ival V)) e : e ∈ ikeep p l <-> e ∈ l /\ p e = true.
Proof.
  induction l as [|f l IH]; simpl; [set_solver|]. rewrite (elem_of_cons l). destruct (p f) eqn:E.
  - rewrite elem_of_cons, IH. split; [intros [->|[? ?]]; auto|]. intros [[->|?] ?]; auto.
  - rewrite IH. split; [tauto|]. intros [[->|?] ?]; [congruence|done].
Qed.

Lemma elem_iinsert {V} (e f : ival V) l : f ∈ iinsert e l <-> f = e \/ f ∈ l.
Proof. induction l as [|g l IH]; simpl; [set_solver|]. destruct (_ <? _); rewrite !elem_of_cons, ?IH; naive_solver. Qed.

Lemma ifind_elem {V} k (l : list (ival V)) e : ifind k l = Some e -> e ∈ l /\ contains k e = true.
Proof.
  induction l as [|f l IH]; simpl; [done|]. destruct (contains k f) eqn:E.
  - intros [= <-]. split; [by left|done].
  - intros [? ?]%IH. split; [by right|done].
Qed.

Lemma ifind_None {V} k (l : list (ival V)) : ifind k l = None <-> Forall (fun e => contains k e = false) l.
Proof.
  induction l as [|f l IH]; simpl; [by split|]. destruct (contains k f) eqn:E; rewrite Forall_cons, <- ?IH.
  - split; [done|]. intros [? _]. congruence.
  - tauto.
Qed.

Lemma iok_nil {V} : iok ([] : list (ival V)).
Proof. split; constructor. Qed.

Lemma iok_cons {V} (e : ival V) l : iok (e :: l) <-> Forall (before e) l /\ i_lo e < i_hi e /\ iok l.
Proof.
  unfold iok. rewrite Forall_cons. split.
  - intros [Hs [He Hl]]. inversion Hs; subst. done.
  - intros (? & ? & ? & ?). split_and!; [by constructor|done|done].
Qed.

Lemma iok_ifind {V} (l : list (ival V)) e k : iok l -> e ∈ l -> contains k e = true -> ifind k l = Some e.
Proof.
  intros Hl. induction l as [|f l IH]; [set_solver|]. apply iok_cons in Hl as (Hb & Hf & Hl).
  rewrite elem_of_cons. intros He Hk. simpl. destruct (contains k f) eqn:E.
  - destruct He as [->|He]; [done|]. rewrite Forall_forall in Hb. specialize (Hb e He).
    apply contains_iff in E, Hk. unfold before in Hb. lia.
  - destruct He as [->|He]; [congruence|]. by apply IH.
Qed.

Lemma iok_ikeep {V} p (l : list (ival V)) : iok l -> iok (ikeep p l).
Proof.
  induction l as [|e l IH]; simpl; [done|]. rewrite iok_cons. intros (Hb & He & Hl).
  destruct (p e); [|by apply IH]. apply iok_cons. split_and!; [|done|by apply IH].
  rewrite Forall_forall in *. intros f [Hf _]%elem_ikeep. by apply Hb.
Qed.

Lemma iok_iinsert {V} (e : ival V) l :
  iok l -> i_lo e < i_hi e -> Forall (fun f => overlaps (i_lo e) (i_hi e) f = false) l -> iok (iinsert e l).
Proof.
  intros Hl He Ho. induction l as [|f l IH]; simpl.
  { apply iok_cons. split_and!; [constructor|done|apply iok_nil]. }
  apply iok_cons in Hl as (Hb & Hf & Hl). apply Forall_cons in Ho as [Hof Ho].
  apply overlaps_false in Hof. destruct (Z.ltb_spec (i_lo e) (i_lo f)).
  - apply iok_cons. split_and!; [|done|by apply iok_cons].
    apply Forall_cons. split; [unfold before; lia|]. eapply Forall_impl; [exact Hb|]. unfold before. simpl. lia.
  - apply iok_cons. split_and!; [|done|by apply IH]. apply Forall_forall. intros g [->|Hg]%elem_iinsert.
    + unfold before. lia.
    + rewrite Forall_forall in Hb. by apply Hb.
Qed.

(** ** What a point finds after an update *)
Lemma ifind_iinsert {V} k (e : ival V) l :
  Forall (fun f => overlaps (i_lo e) (i_hi e) f = false) l ->
  ifind k (iinsert e l) = if contains k e then Some e else ifind k l.
Proof.
  induction 1 as [|f l Hf _ IH]; simpl; [done|]. destruct (_ <? _); simpl; [done|]. rewrite IH.
  destruct (contains k f) eqn:E1, (contains k e) eqn:E2; try done.
  apply contains_iff in E1, E2. apply overlaps_false in Hf. lia.
Qed.

Lemma ifind_ikeep {V} k p (l : list (ival V)) : iok l ->
  ifind k (ikeep p l) = match ifind k l with Some e => if p e then Some e else None | None => None end.
Proof.
  induction l as [|e l IH]; simpl; [done|]. intros (Hb & He & Hl)%iok_cons. specialize (IH Hl).
  destruct (p e) eqn:Ep, (contains k e) eqn:Ek; simpl; rewrite ?Ek, ?Ep; try done.
  rewrite IH. destruct (ifind k l) as [f|] eqn:Ef; [|done]. apply ifind_elem in Ef as [Hf Ef].
  rewrite Forall_forall in Hb. specialize (Hb f Hf). apply contains_iff in Ek, Ef. unfold before in Hb. lia.
Qed.

Lemma no_overlap_ikeep {V} a b (l : list (ival V)) :
  Forall (fun f => overlaps a b f = false) (ikeep (fun e => negb (overlaps a b e)) l).
Proof. apply Forall_forall. intros f [_ Hf]%elem_ikeep. by destruct (overlaps a b f). Qed.

(** ** The laws of a well-formed tree *)
Section tree.
Context `{IntervalTree T} {V : Type}.
Implicit Types t : T V.

Definition it_ok t : Prop := iok (it_list t).

(** The interval of a tree that contains a point. *)
Definition it_at t k : option (ival V) := ifind k (it_list t).

Lemma it_new_ok : it_ok it_new.
Proof. unfold it_ok. rewrite it_new_spec. apply iok_nil. Qed.

Lemma it_at_new k : it_at it_new k = None.
Proof. unfold it_at. by rewrite it_new_spec. Qed.

Lemma it_get_at t k : it_get t k = i_val <$> it_at t k.
Proof. apply it_get_spec. Qed.

Lemma it_remove_ok t k : it_ok t -> it_ok (it_remove t k).2.
Proof. unfold it_ok. rewrite (proj2 (it_remove_spec t k)). apply iok_ikeep. Qed.

Lemma it_remove_val t k : (it_remove t k).1 = i_val <$> it_at t k.
Proof. apply it_remove_spec. Qed.

Lemma it_at_remove t k k' : it_ok t ->
  it_at (it_remove t k).2 k' =
  match it_at t k' with Some e => if contains k e then None else Some e | None => None end.
Proof.
  intros Ht. unfold it_at. rewrite (proj2 (it_remove_spec t k)), ifind_ikeep by done.
  destruct (ifind k' _) as [e|]; [|done]. by destruct (contains k e).
Qed.

Lemma it_insert_replace_ok t a b v : it_ok t -> a < b -> it_ok (it_insert_replace t a b v).2.
Proof.
  unfold it_ok. intros Ht Hab. rewrite (proj2 (it_insert_replace_spec t a b v)).
  apply iok_iinsert; [by apply iok_ikeep|done|apply no_overlap_ikeep].
Qed.

Lemma it_at_insert_replace t a b v k : it_ok t ->
  it_at (it_insert_replace t a b v).2 k =
  if contains k (Ival a b v) then Some (Ival a b v) else
  match it_at t k with Some e => if overlaps a b e then None else Some e | None => None end.
Proof.
  intros Ht. unfold it_at. rewrite (proj2 (it_insert_replace_spec t a b v)).
  rewrite ifind_iinsert by apply no_overlap_ikeep. rewrite ifind_ikeep by done.
  destruct (contains k _); [done|]. destruct (ifind k _) as [e|]; [|done]. by destruct (overlaps a b e).
Qed.

Lemma it_at_elem t k e : it_ok t -> it_at t k = Some e <-> e ∈ it_list t /\ contains k e = true.
Proof. intros Ht. split; [apply ifind_elem|]. intros [? ?]. by apply iok_ifind. Qed.

Lemma it_ok_lt t e : it_ok t -> e ∈ it_list t -> i_lo e < i_hi e.
Proof. intros [_ Ht] He. rewrite Forall_forall in Ht. by apply Ht. Qed.
End tree.

(** ** Membership, order and permutations *)
Lemma iok_disjoint {V} (l : list (ival V)) e f :
  iok l -> e ∈ l -> f ∈ l -> e = f \/ i_hi e <= i_lo f \/ i_hi f <= i_lo e.
Proof.
  induction l as [|g l IH]; [set_solver|]. intros (Hb & Hg & Hl)%iok_cons. rewrite !elem_of_cons.
  rewrite Forall_forall in Hb. unfold before in Hb. intros [->|He] [->|Hf]; auto.
Qed.

Lemma iinsert_perm {V} (e : ival V) l : iinsert e l ≡ₚ e :: l.
Proof.
  induction l as [|f l IH]; simpl; [done|]. destruct (_ <? _); [done|]. rewrite IH. constructor.
Qed.

Lemma ikeep_perm {V} (l : list (ival V)) e k : iok l -> ifind k l = Some e ->
  l ≡ₚ e :: ikeep (fun f => negb (contains k f)) l.
Proof.
  induction l as [|f l IH]; simpl; [done|]. intros (Hb & Hf & Hl)%iok_cons Hk.
  destruct (contains k f) eqn:E; simpl.
  - injection Hk as <-. constructor. clear IH. induction l as [|g l IH]; simpl; [done|].
    apply Forall_cons in Hb as [Hfg Hb]. apply iok_cons in Hl as (_ & ? & Hl).
    assert (contains k g = false) as ->.
    { apply contains_false. apply contains_iff in E. unfold before in Hfg. lia. }
    simpl. by rewrite <- IH.
  - rewrite (IH Hl Hk) at 1. constructor.
Qed.

Lemma ikeep_nil {V} p (l : list (ival V)) : ikeep p l = [] <-> Forall (fun e => p e = false) l.
Proof.
  induction l as [|e l IH]; simpl; [by split|]. rewrite Forall_cons, <- IH. destruct (p e); [|tauto].
  split; [done|]. by intros [? _].
Qed.

Lemma ikeep_ext {V} p q (l : list (ival V)) : (forall e, e ∈ l -> p e = q e) -> ikeep p l = ikeep q l.
Proof.
  induction l as [|e l IH]; simpl; [done|]. intros Hpq. rewrite Hpq, IH; [done| |by left].
  intros f Hf. apply Hpq. by right.
Qed.

(** The first interval that meets a range of one point is the one that contains it. *)
Lemma head_ikeep {V} k (l : list (ival V)) : head (ikeep (overlaps k (k + 1)) l) = ifind k l.
Proof.
  induction l as [|e l IH]; simpl; [done|]. replace (overlaps k (k + 1) e) with (contains k e).
  - destruct (contains k e); [done|]. apply IH.
  - unfold contains, overlaps. f_equal. destruct (Z.leb_spec (i_lo e) k), (Z.ltb_spec (i_lo e) (k + 1)); lia || done.
Qed.

Lemma ikeep_point {V} k (l : list (ival V)) e : iok l -> ifind k l = Some e -> ikeep (overlaps k (k + 1)) l = [e].
Proof.
  intros Hl Hk. rewrite <- head_ikeep in Hk. destruct (ikeep _ l) as [|f m] eqn:E; [done|]. injection Hk as ->.
  assert (iok (e :: m)) as Hm by (rewrite <- E; by apply iok_ikeep).
  assert (forall g, g ∈ e :: m -> overlaps k (k + 1) g = true) as Ho.
  { intros g Hg. rewrite <- E in Hg. by apply elem_ikeep in Hg as [_ ?]. }
  destruct m as [|g m]; [done|]. exfalso. apply iok_cons in Hm as (Hb & _ & _). apply Forall_cons in Hb as [Hb _].
  pose proof (Ho e ltac:(by left)) as O1. pose proof (Ho g ltac:(right; by left)) as O2.
  apply overlaps_spec in O1, O2. unfold before in Hb. lia.
Qed.

Lemma iok_snoc {V} (l : list (ival V)) z e : iok (l ++ [z]) -> e ∈ l -> i_hi e <= i_lo z.
Proof.
  induction l as [|f l IH]; [set_solver|]. simpl. intros (Hb & _ & Hl)%iok_cons [->|He]%elem_of_cons; [|by apply IH].
  rewrite Forall_forall in Hb. apply (Hb z). set_solver.
Qed.
