(* ===== verification/PageTree.v ===== *)
(** * Object pages: page references, page vectors, page ranges and the page tree

    [Page] and [PageRef] of [src/src/kernel/src/obj/pages.rs], [PageVec] of [obj/pagevec.rs],
    [PageRange] and [PageRangeTree] of [obj/range.rs].  An object's memory is a tree of
    page ranges; a range is backed by nothing, by one page reference or by a shared page
    vector.  The vectors and the pages are behind [Arc]s: the model keeps the vectors in a
    store under an identifier, and computes the strong count of a vector or of a page by
    counting its references, which is what decides whether a write copies first. *)
From stdpp Require Import sorting.
From S2P Require Import Prelude FrameAlloc IntervalTree.

#[local] Open Scope Z_scope.

Module PageTree.

(** [PageNumber::PAGE_SIZE] *)
Definition PAGE_SIZE : Z := FrameAlloc.FRAME_SIZE.

(** ** Pages (obj/pages.rs) *)

(** [FrameOrWired]; a frame is its physical address and its size. *)
Inductive FrameOrWired :=
| Frame (pa size count : Z)
| Wired (pa size : Z).

(** [Arc<Page>]: [arc] is the identity of the allocation. *)
Record Page := mkPage { arc : nat; frame : FrameOrWired }.

Record PageRef := mkPageRef { pr_page : Page; pr_pn : Z; pr_count : Z }.

#[global] Instance FrameOrWired_eq_dec : EqDecision FrameOrWired.
Proof. solve_decision. Defined.
#[global] Instance Page_eq_dec : EqDecision Page.
Proof. solve_decision. Defined.
#[global] Instance PageRef_eq_dec : EqDecision PageRef.
Proof. solve_decision. Defined.

(** [Page::nr_pages] *)
Definition page_nr_pages (p : Page) : Z :=
  match frame p with Frame _ size count => size * count | Wired _ s => s end / PAGE_SIZE.

(** [Page::physical_address] *)
Definition page_physical_address (p : Page) : Z :=
  match frame p with Frame pa _ _ => pa | Wired pa _ => pa end.

(** [PageRef::physical_address] *)
Definition physical_address (p : PageRef) : Z := page_physical_address (pr_page p) + pr_pn p * PAGE_SIZE.

(** [PageRef::adjust] *)
Definition adjust (p : PageRef) (off : Z) : outcome PageRef :=
  let! _ := rassert (off <? pr_count p) in
  Ret (mkPageRef (pr_page p) (pr_pn p + off) (pr_count p - off)).

(** [PageRef::adjust_down] *)
Definition adjust_down (p : PageRef) (off : Z) : outcome PageRef :=
  let! _ := rassert (off <=? pr_pn p) in
  Ret (mkPageRef (pr_page p) (pr_pn p - off) (pr_count p + off)).

(** [PageRef::trimmed] *)
Definition trimmed (p : PageRef) (count : Z) : outcome PageRef :=
  let! _ := rassert (count <=? pr_count p) in
  Ret (mkPageRef (pr_page p) (pr_pn p) count).

(** Physical memory: the byte at each address. *)
Definition Mem : Type := Z -> Z.

Definition mem_copy (m : Mem) (dst src len : Z) : Mem :=
  fun a => if (dst <=? a) && (a <? dst + len) then m (src + (a - dst)) else m a.

Definition mem_fill (m : Mem) (dst len v : Z) : Mem :=
  fun a => if (dst <=? a) && (a <? dst + len) then v else m a.

(** [Page::copy_from]; the two ways the frame copies ([copy_contents_from] and
    [copy_contents_from_physaddr]) write [len] bytes through raw pointers. *)
Definition page_copy_from (m : Mem) (self other : Page) (doff soff len : Z) : outcome Mem :=
  match frame self with
  | Frame f _ count =>
      match frame other with
      | Frame otherframe _ othercount =>
          let! _ := rassert (count <=? othercount) in
          let! _ := rassert (count =? 1) in
          Ret (mem_copy m (f + doff) (otherframe + soff) len)
      | Wired phys_addr _ => Ret (mem_copy m (f + doff) (phys_addr + doff) len)
      end
  | Wired _ _ => Panic
  end.

(** [PageRef::copy_from] *)
Definition copy_from (m : Mem) (self other : PageRef) : outcome Mem :=
  let len := Z.min (pr_count self) (pr_count other) in
  page_copy_from m (pr_page self) (pr_page other) (pr_pn self * PAGE_SIZE) (pr_pn other * PAGE_SIZE)
    (len * PAGE_SIZE).

Section pagetree.
Context `{IntervalTree T}.

(** The page vectors by identity, physical memory, the next identity of an [Arc], and the
    frames the caller's [FrameAllocator] can still hand out. *)
Record Heap := mkHeap { pvs : gmap nat (T PageRef); mem : Mem; arcs : nat; pool : list Z }.

Definition set_mem (h : Heap) (m : Mem) : Heap := mkHeap (pvs h) m (arcs h) (pool h).

(** [Arc::new(Page::new(allocator.try_allocate()?, 1))] *)
Definition try_allocate_page (h : Heap) : option Page * Heap :=
  match pool h with
  | f :: fs => (Some (mkPage (arcs h) (Frame f PAGE_SIZE 1)), mkHeap (pvs h) (mem h) (S (arcs h)) fs)
  | [] => (None, h)
  end.

(** [Arc::new(Mutex::new(pv))] *)
Definition new_pv (h : Heap) (pv : T PageRef) : nat * Heap :=
  (arcs h, mkHeap (<[arcs h := pv]> (pvs h)) (mem h) (S (arcs h)) (pool h)).

(** ** Page vectors (obj/pagevec.rs) *)

(** [PageVec::add_page] *)
Definition pv_add_page (pv : T PageRef) (off : Z) (page : PageRef) : PageRef * T PageRef :=
  (page, (it_insert_replace pv off (off + pr_count page) page).2).

(** [PageVec::try_get_page] *)
Definition pv_try_get_page (pv : T PageRef) (pn : Z) : outcome (option PageRef) :=
  match it_range pv pn (pn + 1) with
  | [] => Ret None
  | e :: _ =>
      if (pn <? i_lo e) || (pr_count (i_val e) <=? pn - i_lo e) then Ret None
      else let! p := adjust (i_val e) (pn - i_lo e) in Ret (Some p)
  end.

(** The inner loop of [PageVec::clone_pages_limited]: the pages [i], [i + 1], ... of an entry. *)
Fixpoint clone_entry (h : Heap) (pv : T PageRef) (k : Z) (entry : PageRef) (i : Z) (n : nat)
  : outcome (option (T PageRef) * Heap) :=
  match n with
  | O => Ret (Some pv, h)
  | S n =>
      match try_allocate_page h with
      | (None, h) => Ret (None, h)
      | (Some page, h) =>
          let new_page := mkPageRef page 0 1 in
          let! src := adjust entry i in
          let! m := copy_from (mem h) new_page src in
          clone_entry (set_mem h m) (it_insert pv (k + i) (k + i + 1) new_page) k entry (i + 1) n
      end
  end.

Fixpoint clone_entries (h : Heap) (pv : T PageRef) (es : list (ival PageRef))
  : outcome (option (T PageRef) * Heap) :=
  match es with
  | [] => Ret (Some pv, h)
  | e :: es =>
      let! r := clone_entry h pv (i_lo e) (i_val e) 0 (Z.to_nat (pr_count (i_val e))) in
      match r with
      | (Some pv, h) => clone_entries h pv es
      | (None, h) => Ret (None, h)
      end
  end.

(** [PageVec::clone_pages_limited] *)
Definition clone_pages_limited (h : Heap) (pv : T PageRef) (start len : Z)
  : outcome (option (T PageRef) * Heap) :=
  clone_entries h it_new (it_range pv start (start + len)).

(** [heapless::Vec::push]: an error when the vector is full. *)
Definition vec_push {A} (cap : nat) (v : list A) (x : A) : option (list A) :=
  if (length v <? cap)%nat then Some (v ++ [x]) else None.

(** [PageVec::holes] *)
Fixpoint pv_holes_loop (cap : nat) (es : list (ival PageRef)) (last_end : Z) (holes : list (Z * Z))
  : Z * list (Z * Z) :=
  match es with
  | [] => (last_end, holes)
  | e :: es =>
      if last_end + 1 <? i_lo e then
        match vec_push cap holes (last_end + 1, i_lo e - last_end - 1) with
        | None => (last_end, holes)
        | Some holes => pv_holes_loop cap es (i_lo e + pr_count (i_val e)) holes
        end
      else pv_holes_loop cap es (i_lo e + pr_count (i_val e)) holes
  end.

Definition pv_holes (cap : nat) (pv : T PageRef) (pn : Z) (holes : list (Z * Z)) : Z * list (Z * Z) :=
  pv_holes_loop cap (it_range pv pn (2 ^ 64 - 1)) pn holes.

(** [PageVec::pages]; the mapping settings that go with each page are the caller's. *)
Fixpoint pv_pages_loop (cap : nat) (es : list (ival PageRef)) (start : Z) (pages : list PageRef) : list PageRef :=
  match es with
  | [] => pages
  | e :: es =>
      if (i_lo e =? start) && (length pages <? cap)%nat then
        pv_pages_loop cap es (start + pr_count (i_val e)) (pages ++ [i_val e])
      else pages
  end.

Definition pv_pages (cap : nat) (pv : T PageRef) (pn : Z) (pages : list PageRef) : list PageRef :=
  pv_pages_loop cap (it_range pv pn (pn + Z.of_nat cap)) pn pages.

(** ** Page ranges (obj/range.rs) *)

(** [BackingPages]; a vector is named by its identity. *)
Inductive BackingPages :=
| Nothing
| Single (p : PageRef)
| Many (pv : nat).

(** [sleep] is the lock flag of the range's [RangeSleep], once it has one. *)
Record PageRange := mkRange {
  r_start : Z; r_length : Z; r_offset : Z; r_backing : BackingPages; r_sleep : option bool }.

(** [PageRange::new] *)
Definition range_new (start : Z) : PageRange := mkRange start 0 0 Nothing None.

(** [PageRange::new_from] *)
Definition new_from (r : PageRange) (new_start new_offset new_length : Z) : PageRange :=
  mkRange new_start new_length new_offset (r_backing r) None.

Definition set_backing (r : PageRange) (b : BackingPages) : PageRange :=
  mkRange (r_start r) (r_length r) (r_offset r) b (r_sleep r).
Definition set_length (r : PageRange) (n : Z) : PageRange :=
  mkRange (r_start r) n (r_offset r) (r_backing r) (r_sleep r).

(** The end of [PageRange::range]. *)
Definition r_end (r : PageRange) : Z := r_start r + r_length r.

(** *** Strong counts

    [rs] is every page range alive, of whatever object; [pins] the page references held
    outside of page trees. *)
Definition is_many (i : nat) (r : PageRange) : bool :=
  match r_backing r with Many j => bool_decide (i = j) | _ => false end.
Definition is_single (a : nat) (r : PageRange) : bool :=
  match r_backing r with Single p => bool_decide (a = arc (pr_page p)) | _ => false end.

Definition count {A} (p : A -> bool) (l : list A) : Z := zlen (filter (fun x => p x = true) l).

(** [Arc::strong_count] of a page vector *)
Definition pv_strong (rs : list PageRange) (i : nat) : Z := count (is_many i) rs.

(** [PageRef::ref_count]: references from ranges, from live page vectors and from [pins]. *)
Definition ref_count (h : Heap) (rs : list PageRange) (pins : list PageRef) (a : nat) : Z :=
  count (is_single a) rs + count (fun p => bool_decide (a = arc (pr_page p))) pins +
  foldr (fun '(i, pv) n =>
    (if 0 <? pv_strong rs i
     then count (fun e => bool_decide (a = arc (pr_page (i_val e)))) (it_list pv) else 0) + n)
    0 (map_to_list (pvs h)).

(** [PageRange::pv_ref_count] *)
Definition pv_ref_count (h : Heap) (rs : list PageRange) (pins : list PageRef) (r : PageRange) : Z :=
  match r_backing r with
  | Nothing => 1
  | Single p => ref_count h rs pins (arc (pr_page p))
  | Many i => pv_strong rs i
  end.

(** [PageRange::is_shared] *)
Definition is_shared (h : Heap) (rs : list PageRange) (pins : list PageRef) (r : PageRange) : bool :=
  1 <? pv_ref_count h rs pins r.

(** [PageRange::is_locked] *)
Definition is_locked (r : PageRange) : bool := match r_sleep r with Some b => b | None => false end.

(** [PageRange::sleeper] *)
Definition sleeper (r : PageRange) : PageRange :=
  match r_sleep r with
  | None => mkRange (r_start r) (r_length r) (r_offset r) (r_backing r) (Some false)
  | Some _ => r
  end.

(** [PageRange::holes] *)
Definition range_holes (cap : nat) (h : Heap) (r : PageRange) (off : Z) (holes : list (Z * Z)) : outcome (Z * list (Z * Z)) :=
  if r_length r <=? off then Ret (r_length r, holes)
  else match r_backing r with
  | Nothing => Ret (r_length r, default holes (vec_push cap holes (off, r_length r - off)))
  | Single p =>
      if pr_count p <=? r_offset r + off then
        let delta := r_offset r + off - pr_count p in
        Ret (r_length r, default holes (vec_push cap holes (off, delta)))
      else Ret (Z.min (pr_count p - r_offset r) (r_length r - off) + off, holes)
  | Many i => let! pv := unwrap (pvs h !! i) in Ret (pv_holes cap pv (r_offset r + off) holes)
  end.

(** [PageRange::pages] *)
Definition range_pages (cap : nat) (h : Heap) (r : PageRange) (pn : Z) (pages : list PageRef) : outcome (list PageRef) :=
  let! _ := rassert (r_start r <=? pn) in
  let off := pn - r_start r in
  match r_backing r with
  | Nothing => Ret pages
  | Single p =>
      let! _ := rassert (off <? pr_count p) in
      let! q := adjust p (r_offset r + off) in
      unwrap (vec_push cap pages q)
  | Many i => let! pv := unwrap (pvs h !! i) in Ret (pv_pages cap pv (r_offset r + off) pages)
  end.

(** [PageRange::try_get_page] *)
Definition range_try_get_page (h : Heap) (rs : list PageRange) (pins : list PageRef) (r : PageRange) (pn : Z)
  : outcome (option (PageRef * bool)) :=
  let! _ := rassert (r_start r <=? pn) in
  let off := pn - r_start r in
  let shared := is_shared h rs pins r in
  let! p :=
    match r_backing r with
    | Nothing => Ret None
    | Single p =>
        let! _ := rassert (off <? pr_count p) in
        let! q := adjust p (r_offset r + off) in Ret (Some q)
    | Many i => let! pv := unwrap (pvs h !! i) in pv_try_get_page pv (r_offset r + off)
    end in
  Ret ((fun q => (q, shared)) <$> p).

(** [PageRange::add_page] *)
Definition range_add_page (h : Heap) (r : PageRange) (pn : Z) (page : PageRef)
  : outcome (PageRef * PageRange * Heap) :=
  let! _ := rassert (r_start r <=? pn) in
  let! _ := rassert (pn <? r_end r) in
  let off := pn - r_start r in
  let max := r_end r - pn in
  let count := Z.min max (pr_count page) in
  match r_backing r with
  | Nothing => Ret (page, set_backing r (Single page), h)
  | Single p =>
      let pv := (pv_add_page it_new 0 p).2 in
      let! tp := trimmed page count in
      let '(q, pv) := pv_add_page pv off tp in
      let '(i, h) := new_pv h pv in
      Ret (q, mkRange (r_start r) (r_length r) 0 (Many i) (r_sleep r), h)
  | Many i =>
      let! pv := unwrap (pvs h !! i) in
      let '(q, pv) := pv_add_page pv (r_offset r + off) page in
      Ret (q, r, mkHeap (<[i := pv]> (pvs h)) (mem h) (arcs h) (pool h))
  end.

(** [PageRange::split_at] *)
Definition split_at (r : PageRange) (pn : Z) : outcome (option PageRange * PageRange * option PageRange) :=
  let! _ := rassert (r_start r <=? pn) in
  let! _ := rassert (pn <? r_end r) in
  let r1 := if r_start r <? pn then Some (new_from r (r_start r) (r_offset r) (pn - r_start r)) else None in
  let last := r_start r + (r_length r - 1) in
  let r3 := if pn <? last
            then Some (new_from r (pn + 1) (r_offset r + (pn + 1 - r_start r)) (last - pn)) else None in
  let r2 := new_from r pn (r_offset r + (pn - r_start r)) 1 in
  Ret (r1, r2, r3).

(** ** The page tree *)

(** [PageRangeTree::insert_replace] *)
Definition insert_replace (t : T PageRange) (lo hi : Z) (r : PageRange)
  : outcome (list (ival PageRange) * T PageRange) :=
  let! _ := rassert (negb (r_length r =? 0)) in
  let! _ := rassert (negb (lo =? hi)) in
  Ret (it_insert_replace t lo hi r).

(** An insertion whose result the caller asserts to be empty. *)
Definition insert_fresh (t : T PageRange) (r : PageRange) : outcome (T PageRange) :=
  let! (kicked, t) := insert_replace t (r_start r) (r_end r) r in
  let! _ := rassert (zlen kicked =? 0) in
  Ret t.

Definition insert_opt (t : T PageRange) (r : option PageRange) : outcome (T PageRange) :=
  match r with Some r => insert_fresh t r | None => Ret t end.

(** The closure [clone] of [split_into_three]: a private copy of the backing of [r2]. *)
Definition clone_backing (h : Heap) (r2 : PageRange) : outcome (option BackingPages * Heap) :=
  match r_backing r2 with
  | Nothing => Ret (Some Nothing, h)
  | Single p =>
      match try_allocate_page h with
      | (None, h) => Ret (None, h)
      | (Some page, h) =>
          let new_page := mkPageRef page 0 (pr_count p) in
          let! m := copy_from (mem h) new_page p in
          Ret (Some (Single new_page), set_mem h m)
      end
  | Many i =>
      let! pv := unwrap (pvs h !! i) in
      let! c := clone_pages_limited h pv (r_offset r2) (r_length r2) in
      match c with
      | (None, h) => Ret (None, h)
      | (Some pv, h) => let '(j, h) := new_pv h pv in Ret (Some (Many j), h)
      end
  end.

(** [PageRangeTree::split_into_three] *)
Definition split_into_three (t : T PageRange) (h : Heap) (pn : Z) (discard : bool)
  : outcome (bool * T PageRange * Heap) :=
  match it_remove t pn with
  | (None, t) => Ret (true, t, h)
  | (Some range, t) =>
      let! (r1, r2, r3) := split_at range pn in
      let! (backing, h) := if discard then Ret (Some Nothing, h) else clone_backing h r2 in
      match backing with
      | None => Ret (false, it_insert t (r_start range) (r_end range) range, h)
      | Some backing =>
          let r2 := set_backing r2 backing in
          let! t := insert_opt t r1 in
          let! t := insert_fresh t r2 in
          let! t := insert_opt t r3 in
          Ret (true, t, h)
      end
  end.

(** [PageStatus] *)
Inductive PageStatus :=
| Ready (p : PageRef) (shared : bool)
| NoPage
| AllocFail
| DataFail
| Locked.

(** [GetPageFlags] *)
Definition WRITE : Z := 1.
Definition STABLE : Z := 2.
Definition has (flags f : Z) : bool := Z.land flags f =? f.

(** The page ranges alive while an operation runs on tree [t]: its own and those of the
    other trees. *)
Definition ranges (t : T PageRange) (others : list PageRange) : list PageRange :=
  (i_val <$> it_list t) ++ others.

Section ops.
(** The ranges of the other page trees and the page references held elsewhere. *)
Context (others : list PageRange) (pins : list PageRef).

(** [PageRangeTree::try_do_get_page] *)
Definition try_do_get_page (t : T PageRange) (h : Heap) (pn : Z) : outcome (option (PageRef * bool * bool)) :=
  match it_get t pn with
  | None => Ret None
  | Some range =>
      let! r := range_try_get_page h (ranges t others) pins range pn in
      Ret ((fun '(p, shared) => (p, shared, is_locked range)) <$> r)
  end.

(** [PageRangeTree::get_page]; [alloc] tells whether the caller passes an allocator. *)
Definition get_page (t : T PageRange) (h : Heap) (pn flags : Z) (alloc : bool)
  : outcome (PageStatus * T PageRange * Heap) :=
  let! g := try_do_get_page t h pn in
  match g with
  | None => Ret (NoPage, t, h)
  | Some (page, shared, locked) =>
      if locked && has flags STABLE then Ret (Locked, it_modify t pn sleeper, h)
      else if negb shared || negb (has flags WRITE) then Ret (Ready page shared, t, h)
      else
        let! (ok, t, h) := if alloc then split_into_three t h pn false else Ret (true, t, h) in
        if negb ok then Ret (AllocFail, t, h)
        else
          let! g := try_do_get_page t h pn in
          match g with
          | None => Ret (NoPage, t, h)
          | Some (page, shared, _) =>
              let! _ := rassert (negb shared) in
              Ret (Ready page shared, t, h)
          end
  end.

(** [PageRangeTree::try_get_page] *)
Definition try_get_page (t : T PageRange) (h : Heap) (pn flags : Z) : outcome (PageStatus * T PageRange) :=
  let! g := try_do_get_page t h pn in
  match g with
  | None => Ret (NoPage, t)
  | Some (page, shared, locked) =>
      if locked && has flags STABLE then Ret (Locked, it_modify t pn sleeper)
      else Ret (Ready page shared, t)
  end.

Definition MAX_EXTENSION_ALLOWED : Z := 16.

(** [PageRangeTree::add_page]; [max_pages] is [PageNumber::meta_page().next()]. *)
Definition add_page `{Build} (max_pages : Z) (t : T PageRange) (h : Heap) (pn : Z) (page : PageRef) (alloc : bool)
  : outcome (option PageRef * T PageRange * Heap) :=
  match it_get t pn with
  | Some range =>
      let! (ok, t, h) :=
        if is_shared h (ranges t others) pins range
        then if alloc then split_into_three t h pn true else Ret (true, t, h)
        else Ret (true, t, h) in
      if negb ok then Ret (None, t, h)
      else
        let '(removed, t) := it_remove t pn in
        let! range := unwrap removed in
        let! off := chk 64 (pn - r_start range) in
        let extra_len := saturating_sub (pr_count page + off) (r_length range) in
        let range := set_length range (r_length range + extra_len) in
        let! (p, range, h) := range_add_page h range pn page in
        Ret (Some p, (it_insert_replace t (r_start range) (r_end range) range).2, h)
  | None =>
      let new_range (_ : unit) :=
        let range := set_length (range_new pn) (pr_count page) in
        let! (p, range, h) := range_add_page h range pn page in
        Ret (Some p, (it_insert_replace t (r_start range) (r_end range) range).2, h) in
      match last (it_range t 0 pn) with
      | Some e =>
          let prev_range := i_val e in
          let end_ := r_start prev_range + (r_length prev_range - 1) in
          let! room := chk 64 (max_pages - pn) in
          let! nr_extra_pages := chk 64 (Z.min (pr_count page) room - 1) in
          let! diff := chk 64 (pn - end_) in
          if negb (is_shared h (ranges t others) pins prev_range) && (diff <=? MAX_EXTENSION_ALLOWED) then
            let '(removed, t) := it_remove t end_ in
            let! prev_range := unwrap removed in
            let prev_range := set_length prev_range (r_length prev_range + (diff + nr_extra_pages)) in
            let! (p, prev_range, h) := range_add_page h prev_range pn page in
            Ret (Some p, (it_insert_replace t (r_start prev_range) (r_end prev_range) prev_range).2, h)
          else new_range tt
      | None => new_range tt
      end
  end.

End ops.
End pagetree.
End PageTree.
