(* ===== verification/PageTreeInv.v ===== *)
(** * Copy on write: the invariant of object page trees

    The pages an object sees are its [view].  For trees of single-page frames the file
    shows that asking for a page to write makes it private to that page number, keeps its
    contents, and changes no other page of any object. *)
From stdpp Require Import sorting.
From S2P Require Import Prelude FrameAlloc IntervalTree PageTree.

#[local] Open Scope Z_scope.

Module PageTreeInv.
Import PageTree.

(** ** Counting *)
Lemma count_perm {A} (p : A -> bool) l k : l ≡ₚ k -> count p l = count p k.
Proof. intros Hl. unfold count, zlen. by rewrite Hl. Qed.

Lemma count_app {A} (p : A -> bool) l k : count p (l ++ k) = count p l + count p k.
Proof. unfold count. by rewrite filter_app, zlen_app. Qed.

Lemma count_cons {A} (p : A -> bool) x l : count p (x :: l) = Z.b2z (p x) + count p l.
Proof. unfold count, zlen. rewrite filter_cons. case_decide as E; [rewrite E|destruct (p x); [done|]]; simpl; lia. Qed.

Lemma count_nil {A} (p : A -> bool) : count p [] = 0.
Proof. done. Qed.

Lemma count_nonneg {A} (p : A -> bool) l : 0 <= count p l.
Proof. apply zlen_nonneg. Qed.

Lemma count_zero {A} (p : A -> bool) l : (forall x, x ∈ l -> p x = false) -> count p l = 0.
Proof.
  intros Hl. unfold count. induction l as [|x l IH]; [done|].
  rewrite filter_cons_False by (rewrite Hl; [done|by left]). apply IH. intros y Hy. apply Hl. by right.
Qed.

Lemma count_pos {A} (p : A -> bool) x l : x ∈ l -> p x = true -> 1 <= count p l.
Proof.
  intros [l1 [l2 ->]]%list_elem_of_split Hx. rewrite count_app, count_cons, Hx.
  pose proof (count_nonneg p l1). pose proof (count_nonneg p l2). simpl. lia.
Qed.

#[global] Arguments count : simpl never.

(** ** What an object sees *)
Section views.
Context `{IntervalTree T}.
Implicit Types (h : Heap (T := T)) (t : T PageRange) (pv : T PageRef).

(** The page at an offset of a reference. *)
Definition padj (p : PageRef) (off : Z) : option PageRef :=
  if off <? pr_count p then Some (mkPageRef (pr_page p) (pr_pn p + off) (pr_count p - off)) else None.

Definition pv_view pv (k : Z) : option PageRef :=
  match it_at pv k with Some e => padj (i_val e) (k - i_lo e) | None => None end.

Definition rview h (r : PageRange) (pn : Z) : option PageRef :=
  let k := r_offset r + (pn - r_start r) in
  match r_backing r with
  | Nothing => None
  | Single p => padj p k
  | Many i => match pvs h !! i with Some pv => pv_view pv k | None => None end
  end.

(** The page an object has at a page number. *)
Definition view h t (pn : Z) : option PageRef :=
  match it_at t pn with Some e => rview h (i_val e) pn | None => None end.

(** ** Page vectors *)

(** Every entry of a vector covers as many page numbers as it has pages. *)
Definition pv_ok pv : Prop :=
  it_ok pv /\ Forall (fun e => i_hi e = i_lo e + pr_count (i_val e)) (it_list pv).

Lemma pv_new_ok : pv_ok it_new.
Proof. split; [apply it_new_ok|]. by rewrite it_new_spec. Qed.

Lemma adjust_padj p off : 0 <= off -> adjust p off = match padj p off with Some q => Ret q | None => Panic end.
Proof. intros. unfold adjust, padj, rassert. by destruct (off <? pr_count p). Qed.

Lemma padj_0 p : pr_count p = 1 -> padj p 0 = Some p.
Proof. unfold padj. intros Hc. rewrite Hc. simpl. destruct p; simpl in *. do 2 f_equal; lia. Qed.

Lemma pv_add_page_ok pv off p : pv_ok pv -> 0 < pr_count p -> pv_ok (pv_add_page pv off p).2.
Proof.
  intros [Hok Hl] Hp. split; [apply it_insert_replace_ok; [done|lia]|]. simpl.
  rewrite (proj2 (it_insert_replace_spec _ _ _ _)). apply Forall_forall. intros e [->|He]%elem_iinsert; [done|].
  apply elem_ikeep in He as [He _]. rewrite Forall_forall in Hl. by apply Hl.
Qed.

Lemma pv_try_get_page_view pv k : pv_ok pv -> pv_try_get_page pv k = Ret (pv_view pv k).
Proof.
  intros [Hok Hl]. unfold pv_try_get_page, pv_view, it_at. rewrite it_range_spec, <- head_ikeep.
  destruct (ikeep (overlaps k (k + 1)) (it_list pv)) as [|e es] eqn:E; [done|]. simpl.
  assert (e ∈ ikeep (overlaps k (k + 1)) (it_list pv)) as [He Ho]%elem_ikeep by (rewrite E; by left).
  rewrite Forall_forall in Hl. specialize (Hl e He). apply overlaps_spec in Ho. zbool. simpl.
  rewrite adjust_padj by lia. unfold padj. zbool. done.
Qed.

(** A page vector is a map from page offsets to pages.  After [PageVec::add_page] the
    offsets the page covers read back the page at the right index, an entry the page
    overlaps is gone as a whole, and every other offset reads what it read before;
    [try_get_page] never panics. *)
Theorem pv_add_page_view pv off p k : pv_ok pv -> 0 < pr_count p ->
  pv_try_get_page (pv_add_page pv off p).2 k =
  Ret (if (off <=? k) && (k <? off + pr_count p)
       then Some (mkPageRef (pr_page p) (pr_pn p + (k - off)) (pr_count p - (k - off)))
       else match it_at pv k with
            | Some e => if overlaps off (off + pr_count p) e then None else pv_view pv k
            | None => None
            end).
Proof.
  intros Hpv Hp. rewrite pv_try_get_page_view by by apply pv_add_page_ok. f_equal. unfold pv_view. simpl.
  rewrite it_at_insert_replace by apply Hpv. change (contains k (Ival off (off + pr_count p) p))
    with ((off <=? k) && (k <? off + pr_count p)).
  destruct ((off <=? k) && (k <? off + pr_count p)) eqn:E.
  - simpl. unfold padj. apply andb_true_iff in E as [E1%Z.leb_le E2%Z.ltb_lt]. by zbool.
  - destruct (it_at pv k) as [e|]; [|done]. by destruct (overlaps _ _ e).
Qed.

(** ** The invariant *)

(** A reference to the one page of a frame or of a wired region. *)
Definition page_ok (p : PageRef) : Prop :=
  pr_pn p = 0 /\ pr_count p = 1 /\
  match frame (pr_page p) with Frame _ s c => s = PAGE_SIZE /\ c = 1 | Wired _ s => s = PAGE_SIZE end.

(** The references reachable from ranges and from page vectors. *)
Definition used h (rs : list PageRange) (p : PageRef) : Prop :=
  (exists r, r ∈ rs /\ r_backing r = Single p) \/
  (exists i pv e, pvs h !! i = Some pv /\ e ∈ it_list pv /\ i_val e = p).

Definition range_ok h (r : PageRange) : Prop :=
  0 < r_length r /\
  match r_backing r with
  | Nothing => True
  | Single _ => r_offset r = 0 /\ r_length r = 1
  | Many i => is_Some (pvs h !! i)
  end.

Record wf h (rs : list PageRange) : Prop := {
  wf_range r : r ∈ rs -> range_ok h r;
  wf_pv i pv : pvs h !! i = Some pv -> pv_ok pv /\ (i < arcs h)%nat;
  wf_used p : used h rs p ->
    page_ok p /\ (arc (pr_page p) < arcs h)%nat /\ (physical_address p ∉ pool h) /\
    (PAGE_SIZE | physical_address p);
  wf_pa p q : used h rs p -> used h rs q -> physical_address p = physical_address q -> p = q;
  wf_arc p q : used h rs p -> used h rs q -> arc (pr_page p) = arc (pr_page q) -> p = q;
  wf_excl i pv e r : pvs h !! i = Some pv -> e ∈ it_list pv -> r ∈ rs -> r_backing r <> Single (i_val e);
  wf_once i pv e j pv' e' : pvs h !! i = Some pv -> e ∈ it_list pv -> pvs h !! j = Some pv' ->
    e' ∈ it_list pv' -> i_val e = i_val e' -> i = j /\ e = e';
  wf_pool : NoDup (pool h) /\ Forall (fun f => (PAGE_SIZE | f)) (pool h) }.

(** A tree's keys are the bounds of its ranges. *)
Definition tree_ok t : Prop :=
  it_ok t /\ Forall (fun e => i_lo e = r_start (i_val e) /\ i_hi e = r_end (i_val e)) (it_list t).

Definition pins_ok h (pins : list PageRef) : Prop := Forall (fun p => (arc (pr_page p) < arcs h)%nat) pins.

Lemma pv_single h rs i pv e : wf h rs -> pvs h !! i = Some pv -> e ∈ it_list pv ->
  page_ok (i_val e) /\ i_hi e = i_lo e + 1.
Proof.
  intros Hw Hi He. destruct (wf_pv _ _ Hw i pv Hi) as [[Hok Hl] _]. rewrite Forall_forall in Hl.
  destruct (wf_used _ _ Hw (i_val e)) as [Hp _]; [right; by exists i, pv, e|]. split; [done|].
  rewrite (Hl e He). by rewrite (proj1 (proj2 Hp)).
Qed.

(** Under the invariant a view is the page itself. *)
Lemma pv_view_at h rs i pv k : wf h rs -> pvs h !! i = Some pv -> pv_view pv k = i_val <$> it_at pv k.
Proof.
  intros Hw Hi. unfold pv_view. destruct (it_at pv k) as [e|] eqn:E; [|done].
  destruct (wf_pv _ _ Hw i pv Hi) as [[Hok _] _]. apply it_at_elem in E as [He Hk]; [|done].
  destruct (pv_single _ _ _ _ _ Hw Hi He) as [(_ & Hc & _) Hhi]. apply contains_iff in Hk.
  replace (k - i_lo e) with 0 by lia. by rewrite padj_0.
Qed.

Lemma rview_single h rs r p pn : wf h rs -> r ∈ rs -> r_backing r = Single p ->
  r_start r <= pn < r_end r -> rview h r pn = Some p.
Proof.
  intros Hw Hr Hb Hpn. destruct (wf_range _ _ Hw r Hr) as [_ Hro]. unfold rview, r_end in *. rewrite Hb in *.
  destruct Hro as [-> ?]. replace (0 + (pn - r_start r)) with 0 by lia. apply padj_0.
  apply (wf_used _ _ Hw p). left. by exists r.
Qed.

Lemma rview_used h rs r p pn : wf h rs -> r ∈ rs -> r_start r <= pn < r_end r -> rview h r pn = Some p -> used h rs p.
Proof.
  intros Hw Hr Hpn Hv. destruct (r_backing r) as [|q|i] eqn:Hb.
  - unfold rview in Hv. by rewrite Hb in Hv.
  - rewrite (rview_single _ _ _ q) in Hv by done. injection Hv as <-. left. by exists r.
  - unfold rview in Hv. rewrite Hb in Hv. destruct (pvs h !! i) as [pv|] eqn:Hi; [|done].
    rewrite (pv_view_at _ _ i) in Hv by done. apply fmap_Some in Hv as (e & He & ->).
    apply ifind_elem in He as [He _]. right. by exists i, pv, e.
Qed.

Lemma range_try_get_page_view h rs rs' pins r pn : wf h rs -> r ∈ rs -> r_start r <= pn < r_end r ->
  range_try_get_page h rs' pins r pn = Ret ((fun q => (q, is_shared h rs' pins r)) <$> rview h r pn).
Proof.
  intros Hw Hr Hpn. unfold range_try_get_page. destruct (wf_range _ _ Hw r Hr) as [_ Hro].
  unfold rassert at 1. zbool. simpl. unfold rview. unfold r_end in Hpn. destruct (r_backing r) as [|p|i] eqn:Hb.
  - done.
  - destruct Hro as [-> ?]. replace (pn - r_start r) with 0 by lia.
    destruct (wf_used _ _ Hw p) as [(_ & Hc & _) _]; [left; by exists r|].
    unfold adjust, rassert. rewrite padj_0 by done. rewrite Hc. simpl. destruct p; simpl in *. repeat f_equal; lia.
  - destruct Hro as [pv Hi]. rewrite Hi. simpl. destruct (wf_pv _ _ Hw i pv Hi) as [Hok _].
    by rewrite pv_try_get_page_view.
Qed.

Lemma tree_elem t others e : e ∈ it_list t -> i_val e ∈ ranges t others.
Proof. intros He. apply elem_of_app. left. apply list_elem_of_fmap. by exists e. Qed.

Lemma others_elem t others r : r ∈ others -> r ∈ ranges t others.
Proof. intros Hr. apply elem_of_app. by right. Qed.

Lemma tree_at t pn e : tree_ok t -> it_at t pn = Some e ->
  e ∈ it_list t /\ i_lo e = r_start (i_val e) /\ i_hi e = r_end (i_val e) /\
  r_start (i_val e) <= pn < r_end (i_val e).
Proof.
  intros [Hok Hl] [He Hk]%ifind_elem. rewrite Forall_forall in Hl. destruct (Hl e He) as [E1 E2].
  apply contains_iff in Hk. split_and!; [done..|lia|lia].
Qed.

Lemma try_do_get_page_view h t others pins pn : wf h (ranges t others) -> tree_ok t ->
  try_do_get_page others pins t h pn =
  Ret (match it_at t pn with
       | Some e => (fun q => (q, is_shared h (ranges t others) pins (i_val e), is_locked (i_val e))) <$>
                   rview h (i_val e) pn
       | None => None
       end).
Proof.
  intros Hw Ht. unfold try_do_get_page. rewrite it_get_at. destruct (it_at t pn) as [e|] eqn:E; [|done]. simpl.
  destruct (tree_at _ _ _ Ht E) as (He & _ & _ & Hpn).
  rewrite (range_try_get_page_view _ (ranges t others)); [|done|by apply tree_elem|done]. simpl.
  by destruct (rview h (i_val e) pn).
Qed.

Lemma count_pos_val (p : PageRange -> bool) e (l : list (ival PageRange)) :
  e ∈ l -> p (i_val e) = true -> 1 <= count p (i_val <$> l).
Proof. intros He. apply count_pos. apply list_elem_of_fmap. by exists e. Qed.

(** Two different entries that name the same vector or page are both counted. *)
Lemma count_two (p : PageRange -> bool) t others e e' :
  it_ok t -> e ∈ it_list t -> e' ∈ it_list t -> e <> e' -> p (i_val e) = true -> p (i_val e') = true ->
  2 <= count p (ranges t others).
Proof.
  intros Ht [l1 [l2 E]]%list_elem_of_split He' Hne Hp Hp'. unfold ranges. rewrite E in *.
  rewrite fmap_app, fmap_cons, !count_app, count_cons, Hp. simpl.
  pose proof (count_nonneg p others). pose proof (count_nonneg p (i_val <$> l1)). pose proof (count_nonneg p (i_val <$> l2)).
  apply elem_of_app in He' as [He'|He'].
  - pose proof (count_pos_val p e' (l1)). naive_solver lia.
  - apply elem_of_cons in He' as [->|He']; [done|].
    pose proof (count_pos_val p e' (l2)). naive_solver lia.
Qed.

Lemma count_other (p : PageRange -> bool) t others e r :
  e ∈ it_list t -> r ∈ others -> p (i_val e) = true -> p r = true -> 2 <= count p (ranges t others).
Proof.
  intros He Hr Hp Hp'. unfold ranges. rewrite count_app.
  pose proof (count_pos p r others Hr Hp').
  pose proof (count_pos_val p e (it_list t)). naive_solver lia.
Qed.

Lemma fold_nonneg h rs a l :
  0 <= foldr (fun '(i, pv) n => (if 0 <? pv_strong rs i
     then count (fun e => bool_decide (a = arc (pr_page (i_val e)))) (it_list pv) else 0) + n) 0
     (l : list (nat * T PageRef)).
Proof.
  induction l as [|[i pv] l IH]; simpl; [done|].
  pose proof (count_nonneg (fun e => bool_decide (a = arc (pr_page (i_val e)))) (it_list pv)).
  destruct (_ <? _); lia.
Qed.

Lemma single_le_ref_count h rs pins a : count (is_single a) rs <= ref_count h rs pins a.
Proof.
  unfold ref_count. pose proof (fold_nonneg h rs a (map_to_list (pvs h))).
  pose proof (count_nonneg (fun p => bool_decide (a = arc (pr_page p))) pins). lia.
Qed.

(** The page at a page number is used for nothing else: no other page number of the tree
    and no page number of another object resolves to its memory. *)
Definition exclusive h t (others : list PageRange) (pn : Z) (p : PageRef) : Prop :=
  (forall pn' q, pn' <> pn -> view h t pn' = Some q -> physical_address q <> physical_address p) /\
  (forall r k q, r ∈ others -> r_start r <= k < r_end r -> rview h r k = Some q -> physical_address q <> physical_address p).

(** The test that decides a range is shared with the range it is compared to. *)
Lemma same_page_same_backing h rs r r' pn pn' p :
  wf h rs -> r ∈ rs -> r' ∈ rs -> r_start r <= pn < r_end r -> r_start r' <= pn' < r_end r' ->
  rview h r pn = Some p -> rview h r' pn' = Some p ->
  (r_backing r = Single p /\ r_backing r' = Single p) \/
  (exists i, r_backing r = Many i /\ r_backing r' = Many i /\
             r_offset r + (pn - r_start r) = r_offset r' + (pn' - r_start r')).
Proof.
  intros Hw Hr Hr' Hpn Hpn' Hv Hv'.
  assert (forall s k, s ∈ rs -> r_start s <= k < r_end s -> rview h s k = Some p ->
    r_backing s = Single p \/ exists i pv e, r_backing s = Many i /\ pvs h !! i = Some pv /\ e ∈ it_list pv /\
      i_val e = p /\ i_lo e = r_offset s + (k - r_start s)) as Hcase.
  { clear -Hw. intros s k Hs Hk Hv. destruct (r_backing s) as [|q|i] eqn:Hb.
    - unfold rview in Hv. by rewrite Hb in Hv.
    - rewrite (rview_single _ _ _ q) in Hv by done. left. congruence.
    - right. unfold rview in Hv. rewrite Hb in Hv. destruct (pvs h !! i) as [pv|] eqn:Hi; [|done].
      rewrite (pv_view_at _ _ i) in Hv by done. apply fmap_Some in Hv as (e & He & ->).
      apply ifind_elem in He as [He Hc]. destruct (pv_single _ _ _ _ _ Hw Hi He) as [_ Hhi].
      apply contains_iff in Hc. exists i, pv, e. split_and!; [done..|lia]. }
  destruct (Hcase r pn Hr Hpn Hv) as [Hs|(i & pv & e & Hb & Hi & He & Hp & Hlo)],
    (Hcase r' pn' Hr' Hpn' Hv') as [Hs'|(i' & pv' & e' & Hb' & Hi' & He' & Hp' & Hlo')].
  - by left.
  - exfalso. apply (wf_excl _ _ Hw i' pv' e' r); [done..|]. by rewrite Hp'.
  - exfalso. apply (wf_excl _ _ Hw i pv e r'); [done..|]. by rewrite Hp.
  - right. destruct (wf_once _ _ Hw i pv e i' pv' e') as [-> ->]; [done..|congruence|]. exists i'. split_and!; [done..|lia].
Qed.

Lemma is_single_true r p : r_backing r = Single p -> is_single (arc (pr_page p)) r = true.
Proof. intros Hr. unfold is_single. rewrite Hr. by apply bool_decide_eq_true. Qed.

Lemma is_many_true r i : r_backing r = Many i -> is_many i r = true.
Proof. intros Hr. unfold is_many. rewrite Hr. by apply bool_decide_eq_true. Qed.

Lemma unshared_exclusive h t others pins pn e p :
  wf h (ranges t others) -> tree_ok t -> it_at t pn = Some e -> rview h (i_val e) pn = Some p ->
  is_shared h (ranges t others) pins (i_val e) = false -> exclusive h t others pn p.
Proof.
  intros Hw Ht He Hv Hs. destruct (tree_at _ _ _ Ht He) as (Hin & _ & _ & Hpn).
  apply Z.ltb_ge in Hs. unfold pv_ref_count in Hs.
  assert (forall r pn' q, r ∈ ranges t others -> r_start r <= pn' < r_end r -> rview h r pn' = Some q ->
    physical_address q = physical_address p ->
    exists P, P (i_val e) = true /\ P r = true /\ count P (ranges t others) <= 1 /\ (i_val e = r -> pn' = pn)) as Hsame.
  { intros r pn' q Hr Hpn' Hq Hpa.
    assert (q = p) as -> by (eapply (wf_pa _ _ Hw); eauto using rview_used, tree_elem).
    destruct (same_page_same_backing h _ (i_val e) r pn pn' p Hw) as [[Hb Hb']|(i & Hb & Hb' & Hk)]; eauto using tree_elem.
    - exists (is_single (arc (pr_page p))). rewrite Hb in Hs.
      pose proof (single_le_ref_count h (ranges t others) pins (arc (pr_page p))).
      split_and!; [by apply is_single_true|by apply is_single_true|lia|].
      intros <-. destruct (wf_range _ _ Hw (i_val e)) as [_ Hro]; [by apply tree_elem|]. rewrite Hb in Hro.
      unfold r_end in *. lia.
    - exists (is_many i). rewrite Hb in Hs.
      split_and!; [by apply is_many_true|by apply is_many_true|done|]. intros <-. lia. }
  split.
  - intros pn' q Hne Hq Hpa. unfold view in Hq. destruct (it_at t pn') as [e'|] eqn:E'; [|done].
    destruct (tree_at _ _ _ Ht E') as (Hin' & _ & _ & Hpn').
    destruct (Hsame (i_val e') pn' q) as (P & HP & HP' & Hc & Heq); [by apply tree_elem|done..|].
    assert (e <> e') as Hee by (intros ->; by apply Hne, Heq).
    pose proof (count_two P t others e e' (proj1 Ht) Hin Hin' Hee HP HP'). lia.
  - intros r k q Hr Hk Hq Hpa.
    destruct (Hsame r k q) as (P & HP & HP' & Hc & Heq); [by apply others_elem|done..|].
    pose proof (count_other P t others e r Hin Hr HP HP'). lia.
Qed.

(** ** Splitting a range *)
Lemma insert_fresh_spec t r : tree_ok t -> 0 < r_length r ->
  (forall e, e ∈ it_list t -> overlaps (r_start r) (r_end r) e = false) ->
  exists t', insert_fresh t r = Ret t' /\ tree_ok t' /\
    it_list t' = iinsert (Ival (r_start r) (r_end r) r) (it_list t).
Proof.
  intros [Hok Hl] Hr Ho. unfold insert_fresh, insert_replace, rassert, r_end in *. zbool. simpl.
  destruct (it_insert_replace_spec t (r_start r) (r_start r + r_length r) r) as [E1 E2].
  pose proof (it_insert_replace_ok t (r_start r) (r_start r + r_length r) r Hok ltac:(lia)) as Hok'.
  destruct (it_insert_replace t _ _ r) as [kicked t']. simpl in *. subst kicked.
  rewrite (proj2 (ikeep_nil _ _)) by (apply Forall_forall; apply Ho). simpl. exists t'.
  assert (it_list t' = iinsert (Ival (r_start r) (r_start r + r_length r) r) (it_list t)) as E.
  { rewrite E2. f_equal. rewrite (ikeep_ext _ (fun _ => true)) by (intros e He; by rewrite Ho).
    clear. induction (it_list t) as [|e l IH]; simpl; [done|]. by rewrite IH. }
  split_and!; [done| |done]. split; [done|]. rewrite E. apply Forall_forall. intros e [->|He]%elem_iinsert; [done|].
  rewrite Forall_forall in Hl. by apply Hl.
Qed.

Definition opt_list {A} (o : option A) : list A := match o with Some x => [x] | None => [] end.

Definition as_ival (r : PageRange) : ival PageRange := Ival (r_start r) (r_end r) r.

Lemma insert_opt_spec t o : tree_ok t ->
  (forall r, o = Some r -> 0 < r_length r /\ forall e, e ∈ it_list t -> overlaps (r_start r) (r_end r) e = false) ->
  exists t', insert_opt t o = Ret t' /\ tree_ok t' /\ it_list t' ≡ₚ (as_ival <$> opt_list o) ++ it_list t.
Proof.
  intros Ht Ho. destruct o as [r|]; simpl; [|by exists t].
  destruct (Ho r eq_refl) as [Hlen Hov]. destruct (insert_fresh_spec t r Ht Hlen Hov) as (t' & -> & Ht' & E).
  exists t'. split_and!; [done..|]. rewrite E. apply iinsert_perm.
Qed.

(** The pieces of a split: the middle one is the page asked for, and each shows the pages
    the whole range shows. *)
Lemma split_at_spec r pn : 0 < r_length r -> r_start r <= pn < r_end r ->
  exists r1 r3, split_at r pn = Ret (r1, new_from r pn (r_offset r + (pn - r_start r)) 1, r3) /\
    (forall x, r1 = Some x -> x = new_from r (r_start r) (r_offset r) (pn - r_start r) /\ r_start r < pn) /\
    (r1 = None -> pn = r_start r) /\
    (forall x, r3 = Some x -> x = new_from r (pn + 1) (r_offset r + (pn + 1 - r_start r)) (r_end r - 1 - pn) /\ pn + 1 < r_end r) /\
    (r3 = None -> pn + 1 = r_end r).
Proof.
  intros Hlen Hpn. unfold split_at, rassert, r_end in *. zbool. simpl.
  do 2 eexists. split; [reflexivity|]. split_and!.
  - destruct (Z.ltb_spec (r_start r) pn); [|done]. intros x [= <-]. done.
  - destruct (Z.ltb_spec (r_start r) pn); [done|]. lia.
  - destruct (Z.ltb_spec pn (r_start r + (r_length r - 1))); [|done]. intros x [= <-]. split; [f_equal; lia|lia].
  - destruct (Z.ltb_spec pn (r_start r + (r_length r - 1))); [done|]. lia.
Qed.

(** ** The private copy of a page *)
Definition new_page h (f : Z) : PageRef := mkPageRef (mkPage (arcs h) (Frame f PAGE_SIZE 1)) 0 1.

Lemma copy_from_ok m a f p : page_ok p ->
  copy_from m (mkPageRef (mkPage a (Frame f PAGE_SIZE 1)) 0 1) p = Ret (mem_copy m f (physical_address p) PAGE_SIZE).
Proof.
  intros (Hpn & Hc & Hf). unfold copy_from, physical_address, page_physical_address, page_copy_from.
  rewrite Hpn, Hc. destruct p as [[a' fr] pn c]. simpl in *. destruct fr as [pa s c'|pa s].
  - destruct Hf as [-> ->]. simpl. by rewrite !Z.add_0_r.
  - by rewrite !Z.add_0_r.
Qed.

Lemma try_allocate_page_some h f fs : pool h = f :: fs ->
  try_allocate_page h = (Some (pr_page (new_page h f)), mkHeap (pvs h) (mem h) (S (arcs h)) fs).
Proof. intros E. unfold try_allocate_page. by rewrite E. Qed.

Lemma clone_pages_limited_one h rs i pv k p f fs :
  wf h rs -> pvs h !! i = Some pv -> pv_view pv k = Some p -> pool h = f :: fs ->
  exists pv', clone_pages_limited h pv k 1 =
    Ret (Some pv', mkHeap (pvs h) (mem_copy (mem h) f (physical_address p) PAGE_SIZE) (S (arcs h)) fs) /\
    it_list pv' = [Ival k (k + 1) (new_page h f)].
Proof.
  intros Hw Hi Hv Hf. rewrite (pv_view_at _ _ i) in Hv by done. apply fmap_Some in Hv as (e & He & ->).
  destruct (wf_pv _ _ Hw i pv Hi) as [[Hok _] _]. destruct (ifind_elem _ _ _ He) as [Hin Hk].
  destruct (pv_single _ _ _ _ _ Hw Hi Hin) as [Hp Hhi]. apply contains_iff in Hk.
  unfold clone_pages_limited. rewrite it_range_spec, (ikeep_point _ _ e) by done. unfold clone_entries.
  rewrite (proj1 (proj2 Hp)). change (Z.to_nat 1) with 1%nat. unfold clone_entry.
  rewrite (try_allocate_page_some h f fs Hf). rewrite adjust_padj, padj_0 by (done || apply Hp). simpl.
  unfold new_page at 1. simpl. rewrite copy_from_ok by done. simpl.
  exists (it_insert it_new (i_lo e + 0) (i_lo e + 0 + 1) (new_page h f)). split; [done|].
  rewrite it_insert_spec by by rewrite it_new_spec. rewrite it_new_spec. simpl.
  replace (i_lo e + 0) with k by lia. done.
Qed.

(** What cloning the backing of a one-page range yields. *)
Lemma clone_backing_spec h rs r pn p f fs :
  wf h rs -> r ∈ rs -> r_start r <= pn < r_end r -> rview h r pn = Some p -> pool h = f :: fs ->
  exists b h', clone_backing h (new_from r pn (r_offset r + (pn - r_start r)) 1) = Ret (Some b, h') /\
    mem h' = mem_copy (mem h) f (physical_address p) PAGE_SIZE /\ pool h' = fs /\
    ((r_backing r = Single p /\ b = Single (new_page h f) /\ pvs h' = pvs h /\ arcs h' = S (arcs h)) \/
     (exists pv', b = Many (S (arcs h)) /\ pvs h' = <[S (arcs h) := pv']> (pvs h) /\
        it_list pv' = [Ival (r_offset r + (pn - r_start r)) (r_offset r + (pn - r_start r) + 1) (new_page h f)] /\
        arcs h' = S (S (arcs h)))).
Proof.
  intros Hw Hr Hpn Hv Hf. unfold clone_backing. simpl. destruct (r_backing r) as [|q|i] eqn:Hb.
  - unfold rview in Hv. by rewrite Hb in Hv.
  - rewrite (rview_single _ _ _ q) in Hv by done. injection Hv as ->.
    assert (page_ok p) as Hp by (apply (wf_used _ _ Hw); left; by exists r).
    rewrite (try_allocate_page_some h f fs Hf). rewrite (proj1 (proj2 Hp)). simpl.
    rewrite copy_from_ok by done. simpl. do 2 eexists. split_and!; [done..|]. by left.
  - unfold rview in Hv. rewrite Hb in Hv. destruct (pvs h !! i) as [pv|] eqn:Hi; [|done]. simpl.
    destruct (clone_pages_limited_one h rs i pv _ p f fs Hw Hi Hv Hf) as (pv' & -> & E). simpl.
    do 2 eexists. split_and!; [done..|]. right. by exists pv'.
Qed.

(** ** Heaps that only grow *)
Definition extends h h' : Prop := forall i pv, pvs h !! i = Some pv -> pvs h' !! i = Some pv.

Lemma rview_extends h h' r k : extends h h' -> range_ok h r -> rview h' r k = rview h r k.
Proof.
  intros He [_ Hr]. unfold rview. destruct (r_backing r) as [| |i]; [done..|]. destruct Hr as [pv Hi].
  by rewrite Hi, (He i pv Hi).
Qed.

Lemma range_ok_extends h h' r : extends h h' -> range_ok h r -> range_ok h' r.
Proof.
  intros He [? Hr]. split; [done|]. destruct (r_backing r) as [| |i]; [done..|]. destruct Hr as [pv Hi]. exists pv. by apply He.
Qed.

(** The heap after a copy into the frame [f]: the new page is in [Single] or in a vector
    of its own. *)
Definition copied h h' (f : Z) (fs : list Z) (k : Z) (b : BackingPages) : Prop :=
  pool h = f :: fs /\ pool h' = fs /\
  ((b = Single (new_page h f) /\ pvs h' = pvs h /\ arcs h' = S (arcs h)) \/
   (exists pv', b = Many (S (arcs h)) /\ pvs h' = <[S (arcs h) := pv']> (pvs h) /\
      it_list pv' = [Ival k (k + 1) (new_page h f)] /\ arcs h' = S (S (arcs h)))).

Lemma pvs_fresh h rs i : wf h rs -> (arcs h <= i)%nat -> pvs h !! i = None.
Proof. intros Hw Hi. destruct (pvs h !! i) as [pv|] eqn:E; [|done]. destruct (wf_pv _ _ Hw i pv E). lia. Qed.

Lemma copied_extends h h' rs f fs k b : wf h rs -> copied h h' f fs k b -> extends h h'.
Proof.
  intros Hw (_ & _ & [(_ & E & _)|(pv' & _ & E & _)]) i pv Hi; rewrite E; [done|].
  rewrite lookup_insert_ne; [done|]. intros <-. rewrite (pvs_fresh h rs) in Hi; [done..|lia].
Qed.

(** The page vectors of the new heap. *)
Lemma copied_pvs h h' f fs k b i pv : copied h h' f fs k b -> pvs h' !! i = Some pv ->
  pvs h !! i = Some pv \/
  (i = S (arcs h) /\ b = Many i /\ it_list pv = [Ival k (k + 1) (new_page h f)] /\ arcs h' = S (S (arcs h))).
Proof.
  intros (_ & _ & [(_ & E & _)|(pv' & Hb & E & Hl & Ha)]); rewrite E; [by left|].
  intros [[<- <-]|[_ ?]]%lookup_insert_Some; [right|by left]. done.
Qed.

Section copied.
Context (h h' : Heap (T := T)) (rs rs' : list PageRange) (f : Z) (fs : list Z) (k : Z) (b : BackingPages) (r2 : PageRange).
Context (Hw : wf h rs) (Hc : copied h h' f fs k b) (Hb : r_backing r2 = b).
Context (Hr2 : range_ok h' r2).
(** The ranges of the new state: old ones, pieces of old ones, and the new one. *)
Context (Hrs : forall r, r ∈ rs' -> r ∈ rs \/ r = r2 \/ (0 < r_length r /\ exists i, r_backing r = Many i /\ is_Some (pvs h !! i))).

Lemma new_page_unused : ~ used h rs (new_page h f).
Proof using Hw. intros (_ & Ha & _)%(wf_used _ _ Hw). simpl in Ha. lia. Qed.

Lemma copied_range r p : r ∈ rs' -> r_backing r = Single p ->
  (r ∈ rs /\ used h rs p) \/ (r = r2 /\ b = Single (new_page h f) /\ p = new_page h f).
Proof using Hrs Hc Hb.
  intros Hr Hp. destruct (Hrs r Hr) as [Hr'|[->|(_ & i & Hi & _)]]; [| |congruence].
  - left. split; [done|]. left. by exists r.
  - right. split; [done|]. destruct Hc as (_ & _ & [(Hs & _)|(pv' & Hm & _)]); [|congruence].
    rewrite Hs in Hb. rewrite Hp in Hb. injection Hb as ->. done.
Qed.

Lemma copied_used p : used h' rs' p -> used h rs p \/ p = new_page h f.
Proof using Hrs Hc Hb.
  intros [(r & Hr & Hp)|(i & pv & e & Hi & He & <-)].
  - destruct (copied_range r p Hr Hp) as [[_ ?]|(_ & _ & ?)]; auto.
  - destruct (copied_pvs _ _ _ _ _ _ _ _ Hc Hi) as [Hi'|(_ & _ & Hl & _)].
    + left. right. by exists i, pv, e.
    + right. rewrite Hl in He. by apply list_elem_of_singleton in He as ->.
Qed.

Lemma copied_entry i pv e : pvs h' !! i = Some pv -> e ∈ it_list pv ->
  (pvs h !! i = Some pv /\ used h rs (i_val e)) \/
  (i = S (arcs h) /\ b = Many i /\ e = Ival k (k + 1) (new_page h f)).
Proof using Hc.
  intros Hi He. destruct (copied_pvs _ _ _ _ _ _ _ _ Hc Hi) as [Hi'|(-> & Hbm & Hl & _)].
  - left. split; [done|]. right. by exists i, pv, e.
  - right. rewrite Hl in He. apply list_elem_of_singleton in He as ->. done.
Qed.

Lemma new_page_pa : physical_address (new_page h f) = f.
Proof using. unfold physical_address, page_physical_address. simpl. lia. Qed.

Lemma copied_wf : wf h' rs'.
Proof using Hw Hc Hb Hr2 Hrs.
  pose proof (copied_extends _ _ _ _ _ _ _ Hw Hc) as Hext. pose proof new_page_unused as Hnew.
  destruct (wf_pool _ _ Hw) as [Hnd Hal]. destruct Hc as (Hp & Hp' & Hcase). rewrite Hp in Hnd, Hal.
  apply NoDup_cons in Hnd as [Hf Hnd]. apply Forall_cons in Hal as [Haf Hal].
  assert (arcs h < arcs h')%nat as Harcs by (destruct Hcase as [(_ & _ & ->)|(? & _ & _ & _ & ->)]; lia).
  assert (forall p, used h rs p -> physical_address p <> f /\ arc (pr_page p) <> arcs h) as Hold.
  { intros p (_ & Ha & Hpa & _)%(wf_used _ _ Hw). rewrite Hp in Hpa. split; [set_solver|lia]. }
  split.
  - intros r [Hr|[->|(Hl & i & Hi & Hs)]]%Hrs; [|done|].
    + eapply range_ok_extends; [done|]. by apply (wf_range _ _ Hw).
    + split; [done|]. rewrite Hi. destruct Hs as [pv Hpv]. exists pv. by apply Hext.
  - intros i pv [Hi|(-> & _ & Hl & ->)]%(copied_pvs _ _ _ _ _ _ _ _ Hc).
    + destruct (wf_pv _ _ Hw i pv Hi). split; [done|lia].
    + split; [|lia]. unfold pv_ok, it_ok. rewrite Hl. split; [|by repeat constructor].
      apply iok_cons. split_and!; [constructor|simpl; lia|apply iok_nil].
  - intros p [Hu| ->]%copied_used.
    + destruct (wf_used _ _ Hw p Hu) as (? & ? & Hpa & ?). rewrite Hp in Hpa. split_and!; [done|lia|set_solver|done].
    + rewrite new_page_pa, Hp'. split_and!; [by repeat split|simpl; lia|done|done].
  - intros p q [Hu| ->]%copied_used [Hu'| ->]%copied_used Heq; [by apply (wf_pa _ _ Hw)| | |done];
      rewrite new_page_pa in Heq; [destruct (Hold p Hu)|destruct (Hold q Hu')]; congruence.
  - intros p q [Hu| ->]%copied_used [Hu'| ->]%copied_used Heq; [by apply (wf_arc _ _ Hw)| | |done];
      simpl in Heq; [destruct (Hold p Hu)|destruct (Hold q Hu')]; congruence.
  - intros i pv e r Hi He Hr Hsg. destruct (copied_entry i pv e Hi He) as [[Hi' Hu]|(_ & Hm & ->)],
      (copied_range r _ Hr Hsg) as [[Hr' Hu']|(_ & Hs & Heq)].
    + by apply (wf_excl _ _ Hw i pv e r).
    + rewrite Heq in Hu. done.
    + done.
    + congruence.
  - intros i pv e j pv' e' Hi He Hj He' Heq.
    destruct (copied_entry i pv e Hi He) as [[Hi' Hu]|(-> & _ & ->)], (copied_entry j pv' e' Hj He') as [[Hj' Hu']|(-> & _ & ->)].
    + by apply (wf_once _ _ Hw i pv e j pv' e').
    + simpl in Heq. by rewrite Heq in Hu.
    + simpl in Heq. by rewrite <- Heq in Hu'.
    + done.
  - by rewrite Hp'.
Qed.
End copied.

(** ** The tree after a split *)
Definition pieces (r1 : option PageRange) (r2 : PageRange) (r3 : option PageRange) : list PageRange :=
  opt_list r1 ++ r2 :: opt_list r3.

Lemma tree_remove t pn e : tree_ok t -> it_at t pn = Some e ->
  (it_remove t pn).1 = Some (i_val e) /\ tree_ok (it_remove t pn).2 /\ it_list t ≡ₚ e :: it_list (it_remove t pn).2 /\
  forall x, x ∈ it_list (it_remove t pn).2 -> i_hi x <= i_lo e \/ i_hi e <= i_lo x.
Proof.
  intros [Hok Hl] He. destruct (it_remove_spec t pn) as [E1 E2]. unfold it_at in He. rewrite He in E1.
  split_and!; [done| | |].
  - split; [by apply it_remove_ok|]. rewrite E2. apply Forall_forall. intros x [Hx _]%elem_ikeep.
    rewrite Forall_forall in Hl. by apply Hl.
  - rewrite E2. by apply ikeep_perm.
  - intros x. rewrite E2. intros [Hx Hn]%elem_ikeep. destruct (ifind_elem _ _ _ He) as [Hin Hk].
    destruct (iok_disjoint _ x e Hok Hx Hin) as [->|?]; [by rewrite Hk in Hn|lia].
Qed.

Lemma insert_pieces t1 r r1 r2 r3 pn : tree_ok t1 ->
  (forall x, x ∈ it_list t1 -> i_hi x <= r_start r \/ r_end r <= i_lo x) ->
  r_start r <= pn < r_end r -> r_start r2 = pn -> r_length r2 = 1 ->
  (forall x, r1 = Some x -> r_start x = r_start r /\ r_end x = pn /\ r_start r < pn) ->
  (forall x, r3 = Some x -> r_start x = pn + 1 /\ r_end x = r_end r /\ pn + 1 < r_end r) ->
  exists t2 t3 t4, insert_opt t1 r1 = Ret t2 /\ insert_fresh t2 r2 = Ret t3 /\ insert_opt t3 r3 = Ret t4 /\
    tree_ok t4 /\ it_list t4 ≡ₚ (as_ival <$> pieces r1 r2 r3) ++ it_list t1.
Proof.
  intros Ht1 Hd Hpn Hs2 Hl2 H1 H3.
  destruct (insert_opt_spec t1 r1 Ht1) as (t2 & E2 & Ht2 & P2).
  { intros x Hx. destruct (H1 x Hx) as (Hs & He & ?). unfold r_end in He. split; [lia|].
    intros e [?|?]%Hd; apply overlaps_false; unfold r_end in *; lia. }
  assert (r_end r2 = pn + 1) as He2 by (unfold r_end; lia).
  destruct (insert_fresh_spec t2 r2 Ht2) as (t3 & E3 & Ht3 & P3); [lia| |].
  { intros e He. rewrite P2, elem_of_app in He. apply overlaps_false. rewrite Hs2, He2.
    destruct He as [He|[?|?]%Hd]; [|lia..]. destruct r1 as [x|]; simpl in He; [|set_solver].
    apply list_elem_of_singleton in He as ->. destruct (H1 x eq_refl) as (? & ? & ?). simpl. lia. }
  assert (it_list t3 ≡ₚ as_ival r2 :: it_list t2) as P3' by (rewrite P3; apply iinsert_perm).
  clear P3. rename P3' into P3.
  destruct (insert_opt_spec t3 r3 Ht3) as (t4 & E4 & Ht4 & P4).
  { intros x Hx. destruct (H3 x Hx) as (Hs & He & ?). pose proof He as He'. unfold r_end in He at 1. split; [lia|].
    intros e Hin. rewrite P3, elem_of_cons, P2, elem_of_app in Hin. apply overlaps_false. rewrite Hs, He'.
    destruct Hin as [->|[Hin|[?|?]%Hd]]; [simpl; lia| |lia..]. destruct r1 as [y|]; simpl in Hin; [|set_solver].
    apply list_elem_of_singleton in Hin as ->. destruct (H1 y eq_refl) as (? & ? & ?). simpl. lia. }
  exists t2, t3, t4. split_and!; [done..|]. rewrite P4, P3, P2. unfold pieces. rewrite fmap_app. simpl.
  rewrite <- app_assoc. simpl. rewrite <- !Permutation_middle. constructor.
  apply Permutation_app_swap_app.
Qed.

(** The pieces of a range, by what they show. *)
Lemma split_lookup t t' e pn r1 r3 b k :
  tree_ok t -> tree_ok t' -> it_at t pn = Some e -> k <> pn ->
  it_list t' ≡ₚ (as_ival <$> pieces r1 (set_backing (new_from (i_val e) pn (r_offset (i_val e) + (pn - r_start (i_val e))) 1) b) r3)
               ++ it_list (it_remove t pn).2 ->
  (forall x, r1 = Some x -> x = new_from (i_val e) (r_start (i_val e)) (r_offset (i_val e)) (pn - r_start (i_val e)) /\ r_start (i_val e) < pn) ->
  (r1 = None -> pn = r_start (i_val e)) ->
  (forall x, r3 = Some x -> x = new_from (i_val e) (pn + 1) (r_offset (i_val e) + (pn + 1 - r_start (i_val e))) (r_end (i_val e) - 1 - pn) /\ pn + 1 < r_end (i_val e)) ->
  (r3 = None -> pn + 1 = r_end (i_val e)) ->
  match it_at t k with
  | Some e' => exists e'', it_at t' k = Some e'' /\ r_backing (i_val e'') = r_backing (i_val e') /\
      r_offset (i_val e'') - r_start (i_val e'') = r_offset (i_val e') - r_start (i_val e')
  | None => it_at t' k = None
  end.
Proof.
  intros Ht Ht' He Hk P H1 N1 H3 N3. destruct (tree_at _ _ _ Ht He) as (Hin & Hlo & Hhi & Hpn).
  destruct (tree_remove _ _ _ Ht He) as (_ & _ & Prem & _).
  assert (forall x, x ∈ it_list t' -> contains k x = true -> it_at t' k = Some x) as Hat.
  { intros x Hx Hc. apply iok_ifind; [apply Ht'|done..]. }
  destruct (it_at t k) as [e'|] eqn:Ek.
  - destruct (tree_at _ _ _ Ht Ek) as (Hin' & Hlo' & Hhi' & Hk').
    rewrite Prem, elem_of_cons in Hin'. destruct Hin' as [->|Hin'].
    + destruct (decide (k < pn)).
      * destruct r1 as [x|]; [|specialize (N1 eq_refl); lia]. destruct (H1 x eq_refl) as [Hx ?].
        exists (as_ival x). split; [apply Hat; [rewrite P; by left|]|by rewrite Hx].
        rewrite Hx. apply contains_iff. unfold as_ival, r_end in *; simpl in *; lia.
      * destruct r3 as [x|]; [|specialize (N3 eq_refl); lia]. destruct (H3 x eq_refl) as [Hx ?].
        exists (as_ival x). split; [apply Hat|rewrite Hx; simpl; split; [done|lia]].
        { rewrite P. unfold pieces. rewrite fmap_app. simpl. set_solver. }
        rewrite Hx. apply contains_iff. unfold as_ival, r_end in *; simpl in *; lia.
    + exists e'. split; [|done]. apply Hat; [rewrite P; set_solver|]. apply contains_iff. lia.
  - apply ifind_None, Forall_forall. intros x Hx. unfold it_at in Ek. rewrite ifind_None, Forall_forall in Ek.
    rewrite P, elem_of_app in Hx. destruct Hx as [Hx|Hx].
    + pose proof (Ek e Hin) as Hke. apply contains_false in Hke. apply contains_false.
      apply list_elem_of_fmap in Hx as (y & -> & Hy). unfold pieces in Hy. rewrite elem_of_app, elem_of_cons in Hy.
      unfold r_end in *. destruct Hy as [Hy|[->|Hy]]; [| |].
      * destruct r1 as [z|]; simpl in Hy; [|set_solver]. apply list_elem_of_singleton in Hy as ->.
        destruct (H1 z eq_refl) as [-> ?]. unfold as_ival, r_end in *; simpl in *; lia.
      * unfold as_ival, r_end in *; simpl in *; lia.
      * destruct r3 as [z|]; simpl in Hy; [|set_solver]. apply list_elem_of_singleton in Hy as ->.
        destruct (H3 z eq_refl) as [-> ?]. unfold as_ival, r_end in *; simpl in *; lia.
    + apply Ek. rewrite Prem. by right.
Qed.

Lemma vals_as_ival (l : list PageRange) : i_val <$> (as_ival <$> l) = l.
Proof. induction l as [|r l IH]; [done|]. rewrite !fmap_cons, IH. done. Qed.

Lemma ranges_pieces t t' others pn e r1 r2 r3 : tree_ok t -> it_at t pn = Some e ->
  it_list t' ≡ₚ (as_ival <$> pieces r1 r2 r3) ++ it_list (it_remove t pn).2 ->
  exists rest, ranges t' others ≡ₚ r2 :: rest /\
    forall x, x ∈ rest -> x ∈ ranges t others \/ r1 = Some x \/ r3 = Some x.
Proof.
  intros Ht He P. destruct (tree_remove _ _ _ Ht He) as (_ & _ & Prem & _).
  exists (opt_list r1 ++ opt_list r3 ++ (i_val <$> it_list (it_remove t pn).2) ++ others). split.
  - unfold ranges. rewrite P, fmap_app, vals_as_ival.
    unfold pieces. rewrite <- !app_assoc. simpl. by rewrite <- Permutation_middle.
  - intros x. rewrite !elem_of_app. intros [Hx|[Hx|[Hx|Hx]]].
    + right. left. destruct r1; simpl in Hx; [|set_solver]. f_equal. symmetry. by apply list_elem_of_singleton.
    + right. right. destruct r3; simpl in Hx; [|set_solver]. f_equal. symmetry. by apply list_elem_of_singleton.
    + left. apply list_elem_of_fmap in Hx as (y & -> & Hy). apply tree_elem. rewrite Prem. by right.
    + left. by apply others_elem.
Qed.

(** The state a copying split leads to. *)
Record split_post h t others pn e f fs p h' t' b : Prop := {
  sp_tree : tree_ok t';
  sp_wf : wf h' (ranges t' others);
  sp_mem : mem h' = mem_copy (mem h) f (physical_address p) PAGE_SIZE;
  sp_copied : copied h h' f fs (r_offset (i_val e) + (pn - r_start (i_val e))) b;
  sp_at : it_at t' pn = Some (as_ival (set_backing (new_from (i_val e) pn (r_offset (i_val e) + (pn - r_start (i_val e))) 1) b));
  sp_others k : k <> pn ->
    match it_at t k with
    | Some e' => exists e'', it_at t' k = Some e'' /\ r_backing (i_val e'') = r_backing (i_val e') /\
        r_offset (i_val e'') - r_start (i_val e'') = r_offset (i_val e') - r_start (i_val e')
    | None => it_at t' k = None
    end;
  sp_rest : exists rest,
    ranges t' others ≡ₚ set_backing (new_from (i_val e) pn (r_offset (i_val e) + (pn - r_start (i_val e))) 1) b :: rest /\
    forall x, x ∈ rest -> x ∈ ranges t others \/ exists i, r_backing x = Many i /\ is_Some (pvs h !! i) }.

Lemma split_into_three_copy h t others pn e p f fs :
  wf h (ranges t others) -> tree_ok t -> it_at t pn = Some e -> rview h (i_val e) pn = Some p -> pool h = f :: fs ->
  exists h' t' b, split_into_three t h pn false = Ret (true, t', h') /\ split_post h t others pn e f fs p h' t' b.
Proof.
  intros Hw Ht He Hv Hf. destruct (tree_at _ _ _ Ht He) as (Hin & Hlo & Hhi & Hpn).
  pose proof (tree_elem t others e Hin) as Hr. set (r := i_val e) in *.
  destruct (wf_range _ _ Hw r Hr) as [Hlen Hro].
  destruct (tree_remove _ _ _ Ht He) as (Er & Ht1 & Prem & Hd). rewrite Hlo, Hhi in Hd.
  destruct (split_at_spec r pn Hlen Hpn) as (r1 & r3 & Es & H1 & N1 & H3 & N3).
  destruct (clone_backing_spec h _ r pn p f fs Hw Hr Hpn Hv Hf) as (b & h' & Ec & Hm & Hpool & Hcase).
  set (r2 := set_backing (new_from r pn (r_offset r + (pn - r_start r)) 1) b).
  destruct (insert_pieces (it_remove t pn).2 r r1 r2 r3 pn Ht1 Hd Hpn) as (t2 & t3 & t4 & E2 & E3 & E4 & Ht4 & P); [done|done| | |].
  { intros x Hx. destruct (H1 x Hx) as [-> ?]. unfold r_end. simpl. split_and!; lia. }
  { intros x Hx. destruct (H3 x Hx) as [-> ?]. unfold r_end in *. simpl. split_and!; lia. }
  exists h', t4, b. split.
  { unfold split_into_three. destruct (it_remove t pn) as [o t1]. simpl in Er, E2. subst o. fold r. rewrite Es. simpl.
    rewrite Ec. simpl. rewrite E2. simpl. fold r2. rewrite E3. simpl. by rewrite E4. }
  assert (copied h h' f fs (r_offset r + (pn - r_start r)) b) as Hcop.
  { split_and!; [done..|]. destruct Hcase as [(_ & ? & ? & ?)|?]; auto. }
  assert (forall x, r1 = Some x \/ r3 = Some x ->
    r_backing x = r_backing r /\ 0 < r_length x /\ 1 < r_length r) as Hpiece.
  { intros x [Hx|Hx]; [destruct (H1 x Hx) as [-> ?]|destruct (H3 x Hx) as [-> ?]]; unfold r_end in *; simpl; split_and!; (done || lia). }
  assert (forall x, r1 = Some x \/ r3 = Some x -> exists i, r_backing x = Many i /\ is_Some (pvs h !! i)) as Hmany.
  { intros x (Hbx & _ & ?)%Hpiece. unfold rview in Hv. destruct (r_backing r) as [| |i]; [done|lia|by exists i]. }
  destruct (ranges_pieces t t4 others pn e r1 r2 r3 Ht He P) as (rest & Prs & Hrest).
  split; [done| |done|done| | |].
  - apply (copied_wf h h' (ranges t others) (ranges t4 others) f fs (r_offset r + (pn - r_start r)) b r2); [done..| |].
    + split; [simpl; lia|]. unfold r2. simpl. destruct Hcase as [(Hbr & -> & _)|(pv' & -> & -> & _)].
      * rewrite Hbr in Hro. split; [|done]. unfold r_end in Hpn. lia.
      * rewrite lookup_insert_eq. by eexists.
    + intros x Hx. rewrite Prs, elem_of_cons in Hx. destruct Hx as [->|Hx]; [by right; left|].
      destruct (Hrest x Hx) as [?|Hx']; [by left|]. right. right. destruct (Hpiece x Hx') as (_ & ? & _). split; [done|by apply Hmany].
  - apply iok_ifind; [apply Ht4|rewrite P; unfold pieces; rewrite fmap_app; set_solver|].
    apply contains_iff. unfold as_ival, r_end. simpl. lia.
  - intros k Hk. by apply (split_lookup t t4 e pn r1 r3 b k).
  - exists rest. split; [done|]. intros x Hx. destruct (Hrest x Hx) as [?|?]; [by left|right; by apply Hmany].
Qed.

Lemma count_one {A} (P : A -> bool) l x rest :
  l ≡ₚ x :: rest -> P x = true -> (forall y, y ∈ rest -> P y = false) -> count P l = 1.
Proof. intros Hl Hx Hr. rewrite (count_perm _ _ _ Hl), count_cons, Hx, count_zero by done. done. Qed.

Lemma fold_zero h rs a : (forall i pv e, pvs h !! i = Some pv -> e ∈ it_list pv -> arc (pr_page (i_val e)) <> a) ->
  foldr (fun '(i, pv) n => (if 0 <? pv_strong rs i
     then count (fun e => bool_decide (a = arc (pr_page (i_val e)))) (it_list pv) else 0) + n) 0
     (map_to_list (pvs h)) = 0.
Proof.
  intros Ha. assert (forall i pv, (i, pv) ∈ map_to_list (pvs h) -> pvs h !! i = Some pv) as Hl.
  { intros i pv. apply elem_of_map_to_list. }
  induction (map_to_list (pvs h)) as [|[i pv] l IH]; simpl; [done|].
  rewrite IH by (intros j pv' Hj; apply Hl; by right).
  destruct (0 <? _); [|done]. rewrite count_zero; [done|]. intros e He. apply bool_decide_eq_false.
  intros E. eapply Ha; [apply Hl; by left|exact He|done].
Qed.

(** The page a copying split installs is not shared. *)
Lemma split_unshared h t others pins pn e f fs p h' t' b :
  wf h (ranges t others) -> pins_ok h pins -> split_post h t others pn e f fs p h' t' b ->
  is_shared h' (ranges t' others) pins
    (set_backing (new_from (i_val e) pn (r_offset (i_val e) + (pn - r_start (i_val e))) 1) b) = false.
Proof.
  intros Hw Hpins Hsp. destruct (sp_rest _ _ _ _ _ _ _ _ _ _ _ Hsp) as (rest & Prs & Hrest).
  assert (forall x i, x ∈ rest -> r_backing x = Many i -> (i < arcs h)%nat) as Hmany.
  { intros x i Hx Hb. assert (is_Some (pvs h !! i)) as [pv Hi].
    { destruct (Hrest x Hx) as [Hx'|(j & Hj & Hs)]; [|congruence].
      destruct (wf_range _ _ Hw x Hx') as [_ Hro]. by rewrite Hb in Hro. }
    by destruct (wf_pv _ _ Hw i pv Hi). }
  assert (forall x q, x ∈ rest -> r_backing x = Single q -> (arc (pr_page q) < arcs h)%nat) as Hsingle.
  { intros x q Hx Hb. destruct (Hrest x Hx) as [Hx'|(j & Hj & Hs)]; [|congruence].
    apply (wf_used _ _ Hw q). left. by exists x. }
  apply Z.ltb_ge. unfold pv_ref_count. simpl.
  destruct (sp_copied _ _ _ _ _ _ _ _ _ _ _ Hsp) as (_ & _ & [(-> & Epv & _)|(pv' & -> & _)]).
  - simpl. unfold ref_count. rewrite (count_one _ _ _ _ Prs).
    + rewrite count_zero, fold_zero; [done| |].
      * rewrite Epv. intros i pv x Hi Hx E. destruct (wf_used _ _ Hw (i_val x)) as (_ & ? & _); [right; by exists i, pv, x|]. lia.
      * intros x Hx. apply bool_decide_eq_false. unfold pins_ok in Hpins. rewrite Forall_forall in Hpins. specialize (Hpins x Hx). lia.
    + by apply bool_decide_eq_true.
    + intros y Hy. unfold is_single. destruct (r_backing y) as [|q|] eqn:Hb; [done| |done].
      apply bool_decide_eq_false. specialize (Hsingle y q Hy Hb). lia.
  - unfold pv_strong. rewrite (count_one _ _ _ _ Prs); [done|by apply bool_decide_eq_true|].
    intros y Hy. unfold is_many. destruct (r_backing y) as [| |i] eqn:Hb; [done..|].
    apply bool_decide_eq_false. specialize (Hmany y i Hy Hb). lia.
Qed.

Lemma split_view h t others pn e f fs p h' t' b : wf h (ranges t others) -> split_post h t others pn e f fs p h' t' b ->
  tree_ok t -> view h' t' pn = Some (new_page h f) /\ forall k, k <> pn -> view h' t' k = view h t k.
Proof.
  intros Hw Hsp Ht. pose proof (sp_wf _ _ _ _ _ _ _ _ _ _ _ Hsp) as Hw'.
  pose proof (sp_at _ _ _ _ _ _ _ _ _ _ _ Hsp) as Hat.
  pose proof (copied_extends _ _ _ _ _ _ _ Hw (sp_copied _ _ _ _ _ _ _ _ _ _ _ Hsp)) as Hext. split.
  - unfold view. rewrite Hat.
    destruct (sp_copied _ _ _ _ _ _ _ _ _ _ _ Hsp) as (_ & _ & [(-> & _)|(pv' & -> & Epv & Hl & _)]).
    + apply (rview_single _ _ _ _ _ Hw'); [apply (tree_elem _ _ _ (proj1 (ifind_elem _ _ _ Hat)))|done|].
      unfold r_end. simpl. lia.
    + unfold rview. simpl. rewrite Epv, lookup_insert_eq. unfold pv_view, it_at. rewrite Hl.
      rewrite Z.sub_diag, Z.add_0_r. simpl. unfold contains. simpl. zbool. simpl. by rewrite Z.sub_diag.
  - intros k Hk. pose proof (sp_others _ _ _ _ _ _ _ _ _ _ _ Hsp k Hk) as Hko. unfold view.
    destruct (it_at t k) as [e'|] eqn:Ek; [|by rewrite Hko]. destruct Hko as (e'' & -> & Hb & Ho).
    destruct (tree_at _ _ _ Ht Ek) as (Hin & _).
    rewrite <- (rview_extends h h' (i_val e') k Hext) by (apply (wf_range _ _ Hw); by apply tree_elem).
    unfold rview. rewrite Hb. by replace (r_offset (i_val e'') + (k - r_start (i_val e''))) with (r_offset (i_val e') + (k - r_start (i_val e'))) by lia.
Qed.

(** A copy into a free frame changes no page in use and reproduces the page copied. *)
Lemma mem_copy_other h rs f fs p q off : wf h rs -> pool h = f :: fs -> used h rs q -> 0 <= off < PAGE_SIZE ->
  mem_copy (mem h) f p PAGE_SIZE (physical_address q + off) = mem h (physical_address q + off).
Proof.
  intros Hw Hf Hq Hoff. destruct (wf_used _ _ Hw q Hq) as (_ & _ & Hn & [a Ha]).
  destruct (wf_pool _ _ Hw) as [_ Hal]. rewrite Hf in Hn, Hal. apply Forall_cons in Hal as [[c Hc] _].
  unfold mem_copy. assert (physical_address q <> f) by set_solver.
  assert (a <> c) by (intros ->; congruence). assert (0 < PAGE_SIZE) by done.
  destruct (Z.leb_spec f (physical_address q + off)), (Z.ltb_spec (physical_address q + off) (f + PAGE_SIZE)); simpl; try done.
  exfalso. nia.
Qed.

Lemma mem_copy_same m f p off : 0 <= off < PAGE_SIZE -> mem_copy m f p PAGE_SIZE (f + off) = m (p + off).
Proof. intros. unfold mem_copy. zbool. simpl. f_equal. lia. Qed.

(** What a request for a page to write, which resolved to [p], leads to. *)
Record cow_post h t (others : list PageRange) (pn : Z) (p : PageRef) h' t' (p' : PageRef) : Prop := {
  cow_tree : tree_ok t';
  cow_wf : wf h' (ranges t' others);
  cow_view : view h' t' pn = Some p';
  cow_excl : exclusive h' t' others pn p';
  cow_same k : k <> pn -> view h' t' k = view h t k;
  cow_others r k : r ∈ others -> rview h' r k = rview h r k;
  cow_bytes off : 0 <= off < PAGE_SIZE -> mem h' (physical_address p' + off) = mem h (physical_address p + off);
  cow_mem q off : used h (ranges t others) q -> 0 <= off < PAGE_SIZE ->
    mem h' (physical_address q + off) = mem h (physical_address q + off) }.

Lemma get_page_cow h t others pins pn flags p :
  wf h (ranges t others) -> tree_ok t -> pins_ok h pins -> view h t pn = Some p ->
  has flags WRITE = true -> has flags STABLE = false -> pool h <> [] ->
  exists p' t' h', get_page others pins t h pn flags true = Ret (Ready p' false, t', h') /\ cow_post h t others pn p h' t' p'.
Proof.
  intros Hw Ht Hpins Hv Hwr Hst Hpool. pose proof Hv as Hview. unfold view in Hv.
  destruct (it_at t pn) as [e|] eqn:He; [|done]. unfold get_page.
  rewrite try_do_get_page_view by done. rewrite He, Hv. simpl. rewrite Hst, Hwr, andb_false_r. simpl.
  destruct (is_shared h (ranges t others) pins (i_val e)) eqn:Hsh; simpl.
  2:{ exists p, t, h. split; [done|]. split; try done. by eapply unshared_exclusive. }
  destruct (pool h) as [|f fs] eqn:Hf; [done|].
  destruct (split_into_three_copy h t others pn e p f fs Hw Ht He Hv Hf) as (h' & t' & b & -> & Hsp).
  pose proof (split_unshared _ _ _ pins _ _ _ _ _ _ _ _ Hw Hpins Hsp) as Hun.
  pose proof (sp_wf _ _ _ _ _ _ _ _ _ _ _ Hsp) as Hw'. pose proof (sp_tree _ _ _ _ _ _ _ _ _ _ _ Hsp) as Ht'.
  pose proof (sp_at _ _ _ _ _ _ _ _ _ _ _ Hsp) as Hat. destruct (split_view _ _ _ _ _ _ _ _ _ _ _ Hw Hsp Ht) as [Hv' Hvo].
  pose proof Hv' as Hr. unfold view in Hr. rewrite Hat in Hr. simpl.
  rewrite try_do_get_page_view by done. rewrite Hat, Hr. simpl. rewrite Hun. simpl.
  exists (new_page h f), t', h'. split; [done|]. split; try done.
  - by eapply unshared_exclusive.
  - intros r k Hr'. apply rview_extends; [|by apply (wf_range _ _ Hw), others_elem].
    by eapply copied_extends; [exact Hw|apply Hsp].
  - intros off Hoff. rewrite (sp_mem _ _ _ _ _ _ _ _ _ _ _ Hsp), new_page_pa. by apply mem_copy_same.
  - intros q off Hq Hoff. rewrite (sp_mem _ _ _ _ _ _ _ _ _ _ _ Hsp). by eapply mem_copy_other.
Qed.

(** C8: copy on write isolates.  Asking a page tree for a page to write succeeds while a frame
    is left.  The page it returns is what that page number now resolves to and what no
    other page number of this or any other object resolves to; it holds the bytes the
    page held before; every other page number of the object and every range of the other
    objects resolves to the page it did, and no byte of a page in use has changed. *)
Theorem get_page_write h t others pins pn flags p :
  wf h (ranges t others) -> tree_ok t -> pins_ok h pins -> view h t pn = Some p ->
  has flags WRITE = true -> has flags STABLE = false -> pool h <> [] ->
  exists p' t' h', get_page others pins t h pn flags true = Ret (Ready p' false, t', h') /\
    tree_ok t' /\ wf h' (ranges t' others) /\ view h' t' pn = Some p' /\ exclusive h' t' others pn p' /\
    (forall k, k <> pn -> view h' t' k = view h t k) /\
    (forall r k, r ∈ others -> rview h' r k = rview h r k) /\
    (forall off, 0 <= off < PAGE_SIZE -> mem h' (physical_address p' + off) = mem h (physical_address p + off)) /\
    (forall q off, used h (ranges t others) q -> 0 <= off < PAGE_SIZE ->
       mem h' (physical_address q + off) = mem h (physical_address q + off)).
Proof.
  intros Hw Ht Hpins Hv Hwr Hst Hpool.
  destruct (get_page_cow h t others pins pn flags p Hw Ht Hpins Hv Hwr Hst Hpool) as (p' & t' & h' & E & []).
  by exists p', t', h'.
Qed.

Lemma clone_backing_fail h rs r pn p : wf h rs -> r ∈ rs -> rview h r pn = Some p -> pool h = [] ->
  clone_backing h (new_from r pn (r_offset r + (pn - r_start r)) 1) = Ret (None, h).
Proof.
  intros Hw Hr Hv Hpool. unfold clone_backing. simpl. unfold rview in Hv.
  destruct (r_backing r) as [|q|i] eqn:Hb; [done| |].
  - unfold try_allocate_page. by rewrite Hpool.
  - destruct (pvs h !! i) as [pv|] eqn:Hi; [|done]. simpl. rewrite (pv_view_at _ _ i) in Hv by done.
    apply fmap_Some in Hv as (x & Hx & ->). destruct (wf_pv _ _ Hw i pv Hi) as [[Hok _] _].
    destruct (pv_single _ _ _ _ _ Hw Hi (proj1 (ifind_elem _ _ _ Hx))) as [(_ & Hc & _) _].
    unfold clone_pages_limited. rewrite it_range_spec, (ikeep_point _ _ x) by done. simpl. rewrite Hc.
    change (Z.to_nat 1) with 1%nat. simpl. unfold try_allocate_page. by rewrite Hpool.
Qed.

(** Putting back the range that was removed restores the tree. *)
Lemma reinsert t pn e : tree_ok t -> it_at t pn = Some e ->
  let t' := it_insert (it_remove t pn).2 (r_start (i_val e)) (r_end (i_val e)) (i_val e) in
  tree_ok t' /\ forall k, it_at t' k = it_at t k.
Proof.
  intros Ht He t'. destruct (tree_at _ _ _ Ht He) as (Hin & Hlo & Hhi & Hpn).
  destruct (tree_remove _ _ _ Ht He) as (_ & Ht1 & Prem & Hd). rewrite Hlo, Hhi in Hd.
  assert (forall x, x ∈ it_list (it_remove t pn).2 -> overlaps (r_start (i_val e)) (r_end (i_val e)) x = false) as Hov.
  { intros x Hx%Hd. apply overlaps_false. lia. }
  assert (it_list t' = iinsert e (it_list (it_remove t pn).2)) as El.
  { unfold t'. rewrite it_insert_spec by (apply ikeep_nil, Forall_forall; apply Hov). f_equal. destruct e; simpl in *. by rewrite Hlo, Hhi. }
  assert (tree_ok t') as Ht'.
  { split.
    - unfold it_ok. rewrite El. apply iok_iinsert; [apply Ht1|lia|]. apply Forall_forall. rewrite Hlo, Hhi. apply Hov.
    - rewrite El. apply Forall_forall. intros x [->|Hx]%elem_iinsert; [done|].
      destruct Ht1 as [_ Hl1]. rewrite Forall_forall in Hl1. by apply Hl1. }
  split; [done|]. intros k. destruct (it_at t k) as [x|] eqn:Ek.
  - apply it_at_elem; [apply Ht'|]. destruct (ifind_elem _ _ _ Ek) as [Hx ?]. split; [|done].
    rewrite El. apply elem_iinsert. rewrite Prem in Hx. by apply elem_of_cons in Hx.
  - apply ifind_None, Forall_forall. unfold it_at in Ek. rewrite ifind_None, Forall_forall in Ek.
    intros x Hx. apply Ek. rewrite Prem, elem_of_cons. rewrite El in Hx. by apply elem_iinsert in Hx.
Qed.

(** When a shared page is to be written and no frame is left, [get_page] reports the failure
    and the tree resolves every page number as before. *)
Theorem get_page_alloc_fail h t others pins pn flags e p :
  wf h (ranges t others) -> tree_ok t -> it_at t pn = Some e -> rview h (i_val e) pn = Some p ->
  is_shared h (ranges t others) pins (i_val e) = true ->
  has flags WRITE = true -> has flags STABLE = false -> pool h = [] ->
  exists t', get_page others pins t h pn flags true = Ret (AllocFail, t', h) /\
    tree_ok t' /\ forall k, view h t' k = view h t k.
Proof.
  intros Hw Ht He Hv Hsh Hwr Hst Hpool. unfold get_page.
  rewrite try_do_get_page_view by done. rewrite He, Hv. simpl. rewrite Hst, Hwr, Hsh, andb_false_r. simpl.
  destruct (tree_at _ _ _ Ht He) as (Hin & Hlo & Hhi & Hpn). pose proof (tree_elem t others e Hin) as Hr.
  destruct (wf_range _ _ Hw (i_val e) Hr) as [Hlen Hro]. destruct (reinsert t pn e Ht He) as [Ht' Hat].
  destruct (tree_remove _ _ _ Ht He) as (Er & _). destruct (split_at_spec (i_val e) pn Hlen Hpn) as (r1 & r3 & Es & _).
  unfold split_into_three. destruct (it_remove t pn) as [o t1]. simpl in *. subst o. rewrite Es. simpl.
  rewrite (clone_backing_fail _ _ _ _ _ Hw Hr Hv Hpool). simpl.
  eexists. split_and!; [done..|]. intros k. unfold view. by rewrite Hat.
Qed.

(** A write request without an allocator to a shared page panics: no copy is made, and the
    assertion that the page is not shared fails.  [zero_single] and
    [try_write_val_and_signal] make such requests. *)
Theorem get_page_write_no_alloc_panics h t others pins pn flags e p :
  wf h (ranges t others) -> tree_ok t -> it_at t pn = Some e -> rview h (i_val e) pn = Some p ->
  is_shared h (ranges t others) pins (i_val e) = true ->
  has flags WRITE = true -> has flags STABLE = false ->
  get_page others pins t h pn flags false = Panic.
Proof.
  intros Hw Ht He Hv Hsh Hwr Hst. unfold get_page.
  rewrite !try_do_get_page_view by done. rewrite He, Hv. simpl. rewrite Hst, Hwr, Hsh, andb_false_r. simpl.
  rewrite try_do_get_page_view by done. rewrite He, Hv. simpl. by rewrite Hsh.
Qed.

End views.

(** ** Two objects that share a vector of two pages *)
Definition ex_page (a : nat) (pa : Z) : PageRef := mkPageRef (mkPage a (Frame pa PAGE_SIZE 1)) 0 1.
Definition ex_pv : ivals PageRef := [Ival 0 1 (ex_page 1 0x10000); Ival 1 2 (ex_page 2 0x11000)].
Definition ex_heap (fs : list Z) : Heap (T := ivals) := mkHeap {[0%nat := ex_pv]} (fun a => a / PAGE_SIZE) 10 fs.
Definition ex_range (start : Z) : PageRange := mkRange start 2 0 (Many 0) None.
Definition ex_tree : ivals PageRange := [Ival 1 3 (ex_range 1)].
Definition ex_others : list PageRange := [ex_range 5].

Lemma ex_pvs i pv fs : pvs (ex_heap fs) !! i = Some pv -> i = 0%nat /\ pv = ex_pv.
Proof. simpl. intros [-> <-]%lookup_singleton_Some. done. Qed.

Lemma ex_entries e : e ∈ it_list ex_pv -> e = Ival 0 1 (ex_page 1 0x10000) \/ e = Ival 1 2 (ex_page 2 0x11000).
Proof. unfold ex_pv. simpl. rewrite elem_of_cons, list_elem_of_singleton. done. Qed.

(** Trees whose ranges are all backed by the vector. *)
Lemma ex_wf rs fs : (forall r, r ∈ rs -> 0 < r_length r /\ r_backing r = Many 0) ->
  NoDup fs -> Forall (fun f => (PAGE_SIZE | f) /\ 0x20000 <= f) fs -> wf (ex_heap fs) rs.
Proof.
  intros Hrs Hnd Hfs.
  assert (forall p, used (ex_heap fs) rs p -> p = ex_page 1 0x10000 \/ p = ex_page 2 0x11000) as Hused.
  { intros p [(r & Hr & Hp)|(i & pv & e & Hi & He & <-)]; [destruct (Hrs r Hr); congruence|].
    apply ex_pvs in Hi as [-> ->]. apply ex_entries in He as [->| ->]; auto. }
  assert (forall a, a < 0x20000 -> a ∉ fs) as Hlow.
  { intros a Ha Hin. rewrite Forall_forall in Hfs. destruct (Hfs a Hin). lia. }
  split.
  - intros r Hr. destruct (Hrs r Hr) as [? Hb]. split; [done|]. rewrite Hb. by exists ex_pv.
  - intros i pv [-> ->]%ex_pvs. split; [|simpl; lia].
    split; [|by repeat constructor]. split; repeat constructor; unfold before; simpl; lia.
  - intros p [->| ->]%Hused; split_and!; try (by repeat split); try (simpl; lia); try (by apply Hlow);
      apply Z.mod_divide; done.
  - intros p q [->| ->]%Hused [->| ->]%Hused Hpa; done.
  - intros p q [->| ->]%Hused [->| ->]%Hused Hpa; done.
  - intros i pv e r _ _ Hr. destruct (Hrs r Hr) as [_ ->]. done.
  - intros i pv e j pv' e' [-> ->]%ex_pvs [->| ->]%ex_entries [-> ->]%ex_pvs [->| ->]%ex_entries Heq; done.
  - split; [done|]. eapply Forall_impl; [exact Hfs|]. by intros f [? _].
Qed.

Lemma ex_tree_ok s : tree_ok ([Ival s (s + 2) (ex_range s)] : ivals PageRange).
Proof.
  split; [|by repeat constructor]. split; repeat constructor; simpl; lia.
Qed.

Lemma ex_shared_wf fs : NoDup fs -> Forall (fun f => (PAGE_SIZE | f) /\ 0x20000 <= f) fs ->
  wf (ex_heap fs) (ranges ex_tree ex_others).
Proof. apply ex_wf. intros r. unfold ranges, ex_tree, ex_others. simpl. rewrite elem_of_cons, list_elem_of_singleton. by intros [->| ->]. Qed.

Lemma pv_add_page_view_witness :
  pv_try_get_page (pv_add_page ex_pv 1 (ex_page 7 0x30000)).2 1 = Ret (Some (ex_page 7 0x30000)).
Proof.
  apply (pv_add_page_view (T := ivals) ex_pv 1 (ex_page 7 0x30000) 1); [|done].
  split; [|by repeat constructor]. split; repeat constructor; unfold before; simpl; lia.
Defined.

Lemma get_page_write_witness : exists p' t' h',
  get_page ex_others [] ex_tree (ex_heap [0x20000]) 2 WRITE true = Ret (Ready p' false, t', h') /\
  mem h' (physical_address p') = 0x11.
Proof.
  destruct (get_page_write (ex_heap [0x20000]) ex_tree ex_others [] 2 WRITE (ex_page 2 0x11000))
    as (p' & t' & h' & E & _ & _ & _ & _ & _ & _ & Hm & _).
  - apply ex_shared_wf; [by apply NoDup_singleton|]. repeat constructor; [by apply Z.mod_divide|lia].
  - apply (ex_tree_ok 1).
  - constructor.
  - reflexivity.
  - reflexivity.
  - reflexivity.
  - done.
  - exists p', t', h'. split; [exact E|]. rewrite <- (Z.add_0_r (physical_address p')). rewrite Hm by done. reflexivity.
Defined.

Lemma get_page_alloc_fail_witness : exists t',
  get_page ex_others [] ex_tree (ex_heap []) 2 WRITE true = Ret (AllocFail, t', ex_heap []).
Proof.
  destruct (get_page_alloc_fail (ex_heap []) ex_tree ex_others [] 2 WRITE (Ival 1 3 (ex_range 1)) (ex_page 2 0x11000))
    as (t' & E & _); [apply ex_shared_wf; constructor|apply (ex_tree_ok 1)|reflexivity..|]. by exists t'.
Defined.

Lemma get_page_write_no_alloc_panics_witness : get_page ex_others [] ex_tree (ex_heap []) 2 WRITE false = Panic.
Proof.
  apply (get_page_write_no_alloc_panics (ex_heap []) ex_tree ex_others [] 2 WRITE (Ival 1 3 (ex_range 1)) (ex_page 2 0x11000));
    [apply ex_shared_wf; constructor|apply (ex_tree_ok 1)|reflexivity..].
Defined.
End PageTreeInv.
