(* ===== verification/ObjCopy.v ===== *)
(** * Copying and zeroing ranges of objects

    [src/src/kernel/src/obj/copy.rs]: [copy_ranges] shares whole pages between the page trees of
    two objects and copies the partial pages at both ends by hand, [copy_bytes] is the
    fallback for differently aligned ranges, [copy_range_to_shadow] fills a shadow tree, and
    [zero_ranges] drops whole pages and clears partial ones.  The page trees are locked for
    the whole operation, so each is one state transformer.  Invalidating the mappings of the
    two objects and fetching source pages from the pager are effects outside of the trees
    and are left out. *)
From S2P Require Import Prelude FrameAlloc IntervalTree PageTree.

#[local] Open Scope Z_scope.

Module ObjCopy.
Import PageTree.

Section copy.
Context `{IntervalTree T}.

(** [split_range]: what is left of [range] before and after [lo .. hi]. *)
Definition split_range (range : PageRange) (lo hi : Z) : option PageRange * option PageRange :=
  let r1 := if r_start range <? lo
            then Some (new_from range (r_start range) (r_offset range) (lo - r_start range)) else None in
  let end_ := r_end range in
  let r2 := if hi <? end_
            then Some (new_from range hi (r_offset range + (hi - r_start range)) (end_ - hi)) else None in
  (r1, r2).

(** The loop over the ranges that [copy_range_to_object_tree] displaced; [gc_pagevec] only logs. *)
Fixpoint reinsert_kicked (t : T PageRange) (kicked : list (ival PageRange)) (lo hi : Z) : outcome (T PageRange) :=
  match kicked with
  | [] => Ret t
  | k :: kicked =>
      let (r1, r2) := split_range (i_val k) lo hi in
      let! t := insert_opt t r1 in
      let! t := insert_opt t r2 in
      reinsert_kicked t kicked lo hi
  end.

(** [copy_range_to_object_tree] *)
Definition copy_range_to_object_tree (dest_tree : T PageRange) (dest_point : Z) (range : PageRange) (offset length : Z)
  : outcome (T PageRange) :=
  let new_range := new_from range dest_point (r_offset range + offset) length in
  let lo := r_start new_range in
  let hi := r_end new_range in
  let! (kicked, t) := insert_replace dest_tree lo hi new_range in
  reinsert_kicked t kicked lo hi.

(** The pages, the remaining count and the destination while full pages are shared. *)
Record Cursor := mkCursor { c_tree : T PageRange; dest_pt : Z; src_pt : Z; remaining : Z }.

(** The loop over the ranges of the source tree, of [copy_ranges]. *)
Fixpoint share_loop (c : Cursor) (es : list (ival PageRange)) : outcome Cursor :=
  match es with
  | [] => Ret c
  | e :: es =>
      let diff := i_lo e - src_pt c in
      if (src_pt c <? i_lo e) && (remaining c <=? diff) then
        Ret (mkCursor (c_tree c) (dest_pt c + remaining c) (src_pt c) 0)
      else
        let c := if src_pt c <? i_lo e
                 then mkCursor (c_tree c) (dest_pt c + diff) (src_pt c + diff) (remaining c - diff) else c in
        let offset := saturating_sub (src_pt c) (i_lo e) in
        let len := Z.min (r_length (i_val e) - offset) (remaining c) in
        let! t := copy_range_to_object_tree (c_tree c) (dest_pt c) (i_val e) offset len in
        share_loop (mkCursor t (dest_pt c + len) (src_pt c + len) (remaining c - len)) es
  end.

(** The loop of [copy_range_to_shadow], which stops at a hole bigger than the region. *)
Fixpoint shadow_loop (c : Cursor) (es : list (ival PageRange)) : outcome Cursor :=
  match es with
  | [] => Ret c
  | e :: es =>
      let diff := i_lo e - src_pt c in
      if (src_pt c <? i_lo e) && (remaining c <=? diff) then Ret c
      else
        let c := if src_pt c <? i_lo e
                 then mkCursor (c_tree c) (dest_pt c + diff) (src_pt c + diff) (remaining c - diff) else c in
        let offset := saturating_sub (src_pt c) (i_lo e) in
        let len := Z.min (r_length (i_val e) - offset) (remaining c) in
        let! t := copy_range_to_object_tree (c_tree c) (dest_pt c) (i_val e) offset len in
        shadow_loop (mkCursor t (dest_pt c + len) (src_pt c + len) (remaining c - len)) es
  end.

(** [copy_range_to_shadow] *)
Definition copy_range_to_shadow (src_tree : T PageRange) (src_off : Z) (dest_tree : T PageRange) (dest_off byte_length : Z)
  : outcome (T PageRange) :=
  let src_start := src_off / PAGE_SIZE in
  let dest_start := dest_off / PAGE_SIZE in
  let! _ := rassert (src_off mod PAGE_SIZE =? 0) in
  let! _ := rassert ((src_off + byte_length) mod PAGE_SIZE =? 0) in
  let nr_pages := byte_length / PAGE_SIZE in
  if 0 <? nr_pages then
    let! c := shadow_loop (mkCursor dest_tree dest_start src_start nr_pages)
                (it_range src_tree src_start (src_start + nr_pages)) in
    Ret (c_tree c)
  else Ret dest_tree.

(** The bytes [lo .. hi] of [as_mut_slice()]: the range must lie within the reference. *)
Definition slice_ok (p : PageRef) (lo hi : Z) : bool := (lo <=? hi) && (hi <=? pr_count p * PAGE_SIZE).

Section alloc.
Context `{Build} (max_pages : Z) (others : list PageRange) (pins : list PageRef).

(** [PageNumber]s, the trees and memory while two objects are locked. *)
Record St := mkSt { src : T PageRange; dst : T PageRange; heap : Heap (T := T) }.

(** The page of the destination to write: the one there, or a new one; [None] when there is
    no frame for it. *)
Definition dest_page (s : St) (dest_point : Z) : outcome (option PageRef * St) :=
  let! (st, td, h) := get_page (ranges (src s) others) pins (dst s) (heap s) dest_point WRITE true in
  match st with
  | Ready page _ => Ret (Some page, mkSt (src s) td h)
  | NoPage =>
      match try_allocate_page h with
      | (None, h) => Ret (None, mkSt (src s) td h)
      | (Some pg, h) =>
          let! (p, td, h) := add_page (ranges (src s) others) pins max_pages td h dest_point (mkPageRef pg 0 1) true in
          Ret (p, mkSt (src s) td h)
      end
  | _ => Ret (None, mkSt (src s) td h)
  end.

(** The page of the source to read. *)
Definition src_page (s : St) (src_point : Z) : outcome (option PageRef) :=
  let! (st, _, _) := get_page (ranges (dst s) others) pins (src s) (heap s) src_point 0 false in
  Ret (match st with Ready page _ => Some page | _ => None end).

(** Copying or clearing [len] bytes of a page. *)
Definition write_page (s : St) (dp : PageRef) (doff : Z) (sp : option PageRef) (soff len : Z) : outcome St :=
  let! _ := rassert (slice_ok dp doff (doff + len)) in
  match sp with
  | Some sp =>
      let! _ := rassert (slice_ok sp soff (soff + len)) in
      Ret (mkSt (src s) (dst s) (set_mem (heap s)
        (mem_copy (mem (heap s)) (physical_address dp + doff) (physical_address sp + soff) len)))
  | None => Ret (mkSt (src s) (dst s) (set_mem (heap s) (mem_fill (mem (heap s)) (physical_address dp + doff) len 0)))
  end.

(** [copy_single]; the caller ignores the result, so only the state is kept. *)
Definition copy_single (s : St) (dest_point src_point offset max : Z) : outcome St :=
  let! sp := src_page s src_point in
  let! (dp, s) := dest_page s dest_point in
  match dp with
  | None => Ret s
  | Some dp => write_page s dp offset sp offset (max - offset)
  end.

(** [copy_bytes]; [None] of the source ends the loop early, which its caller ignores. *)
Fixpoint copy_bytes_loop (fuel : nat) (s : St) (src_off dest_off byte_length src_point dest_point rem : Z) : outcome St :=
  match fuel with
  | O => NoFuel
  | S fuel =>
      if rem <=? 0 then Ret s
      else
        let! sp := src_page s src_point in
        let! (dp, s) := dest_page s dest_point in
        match dp with
        | None => Ret s
        | Some dp =>
            let count_sofar := byte_length - rem in
            let this_src_offset := (src_off + count_sofar) mod PAGE_SIZE in
            let this_dest_offset := (dest_off + count_sofar) mod PAGE_SIZE in
            let this_length :=
              match sp with
              | Some _ => Z.min (Z.min (PAGE_SIZE - this_src_offset) (PAGE_SIZE - this_dest_offset)) rem
              | None => Z.min (PAGE_SIZE - this_dest_offset) rem
              end in
            let! s := write_page s dp this_dest_offset sp this_src_offset this_length in
            let src_point := if PAGE_SIZE <=? this_src_offset + this_length then src_point + 1 else src_point in
            let dest_point := if PAGE_SIZE <=? this_dest_offset + this_length then dest_point + 1 else dest_point in
            copy_bytes_loop fuel s src_off dest_off byte_length src_point dest_point (rem - this_length)
        end
  end.

Definition copy_bytes (s : St) (src_off dest_off byte_length : Z) : outcome St :=
  copy_bytes_loop (S (Z.to_nat byte_length)) s src_off dest_off byte_length
    (src_off / PAGE_SIZE) (dest_off / PAGE_SIZE) byte_length.

(** The number of pages [copy_ranges] and [zero_ranges] touch. *)
Definition touched_pages (start_offset end_offset byte_length : Z) : Z :=
  let start_page_partial_len := if 0 <? start_offset then PAGE_SIZE - start_offset else 0 in
  saturating_sub byte_length (start_page_partial_len + end_offset) / PAGE_SIZE +
  match start_offset, end_offset with
  | 0, 0 => 0
  | 0, _ | _, 0 => 1
  | _, _ => 2
  end.

(** [copy_ranges], once both trees are locked. *)
Definition copy_ranges (s : St) (src_off dest_off byte_length : Z) : outcome St :=
  let src_start := src_off / PAGE_SIZE in
  let dest_start := dest_off / PAGE_SIZE in
  let start_offset := src_off mod PAGE_SIZE in
  let end_offset := (src_off + byte_length) mod PAGE_SIZE in
  let nr_pages := touched_pages start_offset end_offset byte_length in
  if negb (src_off mod PAGE_SIZE =? dest_off mod PAGE_SIZE) then copy_bytes s src_off dest_off byte_length
  else
    let! (s, dest_point, src_point, remaining_pages) :=
      if negb (start_offset =? 0) then
        let! s := copy_single s dest_start src_start start_offset PAGE_SIZE in
        let! n := chk 64 (nr_pages - 1) in
        Ret (s, dest_start + 1, src_start + 1, n)
      else Ret (s, dest_start, src_start, nr_pages) in
    let! vec_pages := chk 64 (remaining_pages - if 0 <? end_offset then 1 else 0) in
    let! c :=
      if 0 <? vec_pages then
        share_loop (mkCursor (dst s) dest_point src_point vec_pages)
          (it_range (src s) src_point (src_point + vec_pages))
      else Ret (mkCursor (dst s) dest_point src_point vec_pages) in
    let s := mkSt (src s) (c_tree c) (heap s) in
    let remaining_pages := remaining_pages - vec_pages in
    let! _ := rassert (Bool.eqb (remaining_pages =? 1) (0 <? end_offset)) in
    let! _ := rassert ((remaining_pages =? 1) || (remaining_pages =? 0)) in
    let! _ := rassert (remaining c =? 0) in
    if 0 <? end_offset then copy_single s (dest_pt c) (src_pt c) 0 end_offset else Ret s.
End alloc.

Section zero.
Context `{Build} (others : list PageRange) (pins : list PageRef).

(** [zero_single] *)
Definition zero_single (t : T PageRange) (h : Heap (T := T)) (dest_point offset max : Z) : outcome (T PageRange * Heap) :=
  let! (st, t, h) := get_page others pins t h dest_point WRITE false in
  match st with
  | Ready p _ =>
      let! _ := rassert (slice_ok p offset max) in
      Ret (t, set_mem h (mem_fill (mem h) (physical_address p + offset) (max - offset) 0))
  | _ => Ret (t, h)
  end.

(** The last range that meets the region: what is after the region is put back. *)
Definition zero_last (t : T PageRange) (last dest_point vec_pages : Z) : outcome (T PageRange) :=
  match it_remove t last with
  | (None, t) => Ret t
  | (Some last_range, t) =>
      let last_point := dest_point + (vec_pages - 1) in
      if (last_point <? r_end last_range) && (r_start last_range <=? last_point) then
        let start_diff := last_point + 1 - r_start last_range in
        if start_diff <? r_length last_range then
          let last_range := mkRange (r_start last_range + start_diff) (r_length last_range - start_diff)
                              (r_offset last_range + start_diff) (r_backing last_range) (r_sleep last_range) in
          let! _ := rassert (r_start last_range =? last_point + 1) in
          insert_fresh t last_range
        else Ret t
      else Ret t
  end.

(** The first range that meets the region: what is before the region is put back. *)
Definition zero_first (t : T PageRange) (first first_point : Z) : outcome (T PageRange) :=
  match it_remove t first with
  | (None, t) => Ret t
  | (Some first_range, t) =>
      if (first_point <? r_end first_range) && (r_start first_range <=? first_point) then
        let len_diff := r_end first_range - first_point in
        if len_diff <? r_length first_range then
          insert_fresh t (set_length first_range (r_length first_range - len_diff))
        else Ret t
      else Ret t
  end.

(** The part of [zero_ranges] that evicts the ranges of a region of whole pages. *)
Definition zero_pages (t : T PageRange) (dest_point vec_pages : Z) : outcome (T PageRange) :=
  let points := i_lo <$> it_range t dest_point (dest_point + vec_pages) in
  match last points with
  | None => Ret t
  | Some last =>
      let! t := zero_last t last dest_point vec_pages in
      let points := removelast points in
      match points with
      | [] => Ret t
      | first :: points =>
          let! t := zero_first t first dest_point in
          Ret (foldl (fun t point => (it_remove t point).2) t points)
      end
  end.

(** [zero_ranges], once the tree is locked. *)
Definition zero_ranges (t : T PageRange) (h : Heap (T := T)) (dest_off byte_length : Z) : outcome (T PageRange * Heap) :=
  let dest_start := dest_off / PAGE_SIZE in
  let start_offset := dest_off mod PAGE_SIZE in
  let end_offset := (dest_off + byte_length) mod PAGE_SIZE in
  let nr_pages := touched_pages start_offset end_offset byte_length in
  let! (t, h, dest_point, remaining_pages) :=
    if negb (start_offset =? 0) then
      let! (t, h) := zero_single t h dest_start start_offset PAGE_SIZE in
      let! n := chk 64 (nr_pages - 1) in
      Ret (t, h, dest_start + 1, n)
    else Ret (t, h, dest_start, nr_pages) in
  let! vec_pages := chk 64 (remaining_pages - if 0 <? end_offset then 1 else 0) in
  let! (t, dest_point) :=
    if 0 <? vec_pages then
      let! t := zero_pages t dest_point vec_pages in Ret (t, dest_point + vec_pages)
    else Ret (t, dest_point) in
  let remaining_pages := remaining_pages - vec_pages in
  let! _ := rassert (Bool.eqb (remaining_pages =? 1) (0 <? end_offset)) in
  let! _ := rassert ((remaining_pages =? 1) || (remaining_pages =? 0)) in
  if 0 <? end_offset then zero_single t h dest_point 0 end_offset else Ret (t, h).
End zero.
End copy.
End ObjCopy.
