(* ===== verification/ObjCopyInv.v ===== *)
(** * What copying and zeroing do to the pages objects see

    Sharing whole pages makes the destination see exactly the source's pages in the region
    and its own pages elsewhere; zeroing whole pages empties the region and keeps the rest,
    when the region does not lie inside one range. *)
From stdpp Require Import sorting.
From S2P Require Import Prelude FrameAlloc IntervalTree PageTree PageTreeInv ObjCopy.

#[local] Open Scope Z_scope.

Module ObjCopyInv.
Import PageTree PageTreeInv ObjCopy.

Section inv.
Context `{IntervalTree T}.
Implicit Types (h : Heap (T := T)) (t : T PageRange).

(** Page [k] of [r] and page [k'] of [r'] are the same page of the same backing. *)
Definition shows (r : PageRange) (k : Z) (r' : PageRange) (k' : Z) : Prop :=
  r_backing r = r_backing r' /\ r_offset r + (k - r_start r) = r_offset r' + (k' - r_start r').

Lemma shows_view h r k r' k' : shows r k r' k' -> rview h r k = rview h r' k'.
Proof. intros [Hb Hk]. unfold rview. by rewrite Hb, Hk. Qed.

(** Page [k] of tree [t] is page [k'] of tree [t']. *)
Definition same_at t k t' k' : Prop :=
  match it_at t k with
  | Some e => exists e', it_at t' k' = Some e' /\ shows (i_val e) k (i_val e') k'
  | None => it_at t' k' = None
  end.

Lemma same_at_view h t k t' k' : same_at t k t' k' -> view h t' k' = view h t k.
Proof.
  unfold same_at, view. destruct (it_at t k) as [e|]; [|by intros ->].
  intros (e' & -> & Hs). symmetry. by apply shows_view.
Qed.

Lemma same_at_refl t k : same_at t k t k.
Proof. unfold same_at. destruct (it_at t k) as [e|] eqn:E; [|done]. exists e. done. Qed.

Lemma same_at_trans t k t' k' t'' k'' : same_at t k t' k' -> same_at t' k' t'' k'' -> same_at t k t'' k''.
Proof.
  unfold same_at. destruct (it_at t k) as [e|].
  - intros (e' & -> & [Hb Ho]) (e'' & Hx & [Hb' Ho']). exists e''. split; [done|]. split; congruence.
  - by intros ->.
Qed.

(** [r'] shows part of what [r] shows. *)
Definition sub (r r' : PageRange) : Prop :=
  r_backing r = r_backing r' /\ 0 < r_length r' /\ r_offset r <= r_offset r' /\
  r_offset r' + r_length r' <= r_offset r + r_length r.

Lemma sub_trans r r' r'' : sub r r' -> sub r' r'' -> sub r r''.
Proof. intros (? & ? & ? & ?) (? & ? & ? & ?). split_and!; try lia. congruence. Qed.

Definition from t (rs : list PageRange) : Prop := forall e, e ∈ it_list t -> exists r, r ∈ rs /\ sub r (i_val e).

(** Dropping ranges and sharing parts of them keeps the invariant. *)
Lemma wf_from h t rs others : wf h rs -> from t rs -> (forall r, r ∈ others -> r ∈ rs) -> wf h (ranges t others).
Proof.
  intros Hw Ht Ho.
  assert (forall r, r ∈ ranges t others -> exists r0, r0 ∈ rs /\ r_backing r0 = r_backing r) as Hback.
  { intros r [Hr|Hr]%elem_of_app; [|by exists r; auto].
    apply list_elem_of_fmap in Hr as (e & -> & He). destruct (Ht e He) as (r0 & ? & ? & _). by exists r0. }
  assert (forall p, used h (ranges t others) p -> used h rs p) as Hused.
  { intros p [(r & Hr & Hp)|?]; [|by right]. destruct (Hback r Hr) as (r0 & ? & ?). left. exists r0. split; congruence. }
  destruct Hw as [Hrange Hpv Hu Hpa Harc Hexcl Honce Hpool]. split; [|done| | | | |done|done].
  - intros r [Hr|Hr]%elem_of_app; [|by auto]. apply list_elem_of_fmap in Hr as (e & -> & He).
    destruct (Ht e He) as (r0 & Hr0 & Hb & Hl & Ho1 & Ho2). destruct (Hrange r0 Hr0) as [? Hro]. split; [done|].
    rewrite <- Hb. destruct (r_backing r0); [done|lia|done].
  - intros p Hp. by apply Hu, Hused.
  - intros p q Hp Hq. by apply Hpa; apply Hused.
  - intros p q Hp Hq. by apply Harc; apply Hused.
  - intros i pv e r Hi He Hr. destruct (Hback r Hr) as (r0 & Hr0 & <-). by eapply Hexcl.
Qed.

(** ** Sharing one range *)
Lemma split_range_spec r lo hi : r_start r < hi -> lo < r_end r -> lo < hi ->
  (forall x, (split_range r lo hi).1 = Some x ->
     sub r x /\ (forall k, shows r k x k) /\ r_start x = r_start r /\ r_end x = lo) /\
  ((split_range r lo hi).1 = None -> lo <= r_start r) /\
  (forall x, (split_range r lo hi).2 = Some x ->
     sub r x /\ (forall k, shows r k x k) /\ r_start x = hi /\ r_end x = r_end r) /\
  ((split_range r lo hi).2 = None -> r_end r <= hi).
Proof.
  intros Hs He Hlh. unfold split_range, sub, shows, r_end in *. simpl. split_and!.
  - destruct (Z.ltb_spec (r_start r) lo); [|done]. intros x [= <-]. simpl. split_and!; try lia; done.
  - by destruct (Z.ltb_spec (r_start r) lo).
  - destruct (Z.ltb_spec hi (r_start r + r_length r)); [|done]. intros x [= <-]. simpl. split_and!; try lia; [done|].
    intros k. split; [done|lia].
  - by destruct (Z.ltb_spec hi (r_start r + r_length r)).
Qed.

(** The pieces of a displaced range that are put back. *)
Definition left_over (lo hi : Z) (e : ival PageRange) : list (ival PageRange) :=
  as_ival <$> opt_list (split_range (i_val e) lo hi).1 ++ opt_list (split_range (i_val e) lo hi).2.

Lemma elem_opt_list {A} (x : A) o : x ∈ opt_list o <-> o = Some x.
Proof. destruct o; simpl; [rewrite list_elem_of_singleton|]; [split; congruence|]. split; [set_solver|done]. Qed.

Lemma elem_left_over lo hi e x : x ∈ left_over lo hi e ->
  r_start (i_val e) < hi -> lo < r_end (i_val e) -> lo < hi ->
  sub (i_val e) (i_val x) /\ (forall k, shows (i_val e) k (i_val x) k) /\
  i_lo x = r_start (i_val x) /\ i_hi x = r_end (i_val x) /\
  r_start (i_val e) <= i_lo x /\ i_hi x <= r_end (i_val e) /\ (i_hi x <= lo \/ hi <= i_lo x).
Proof.
  intros Hx Hs He Hlh. destruct (split_range_spec _ _ _ Hs He Hlh) as (H1 & _ & H2 & _).
  apply list_elem_of_fmap in Hx as (r & -> & Hr). rewrite elem_of_app, !elem_opt_list in Hr. simpl.
  destruct Hr as [Hr|Hr]; [destruct (H1 r Hr) as (? & ? & ? & ?)|destruct (H2 r Hr) as (? & ? & ? & ?)]; split_and!; (done || lia).
Qed.

Lemma left_over_cover lo hi e k : r_start (i_val e) < hi -> lo < r_end (i_val e) -> lo < hi ->
  r_start (i_val e) <= k < r_end (i_val e) -> k < lo \/ hi <= k ->
  exists x, x ∈ left_over lo hi e /\ contains k x = true.
Proof.
  intros Hs He Hlh Hk Hout. destruct (split_range_spec _ _ _ Hs He Hlh) as (H1 & N1 & H2 & N2). unfold left_over.
  destruct Hout.
  - destruct (split_range (i_val e) lo hi).1 as [x|] eqn:E; [|specialize (N1 eq_refl); lia].
    destruct (H1 x eq_refl) as (_ & _ & ? & ?). exists (as_ival x). split; [by left|]. apply contains_iff. simpl. lia.
  - destruct (split_range (i_val e) lo hi).2 as [x|] eqn:E; [|specialize (N2 eq_refl); lia].
    destruct (H2 x eq_refl) as (_ & _ & ? & ?). exists (as_ival x). split; [|apply contains_iff; simpl; lia].
    rewrite fmap_app, elem_of_app. right. by left.
Qed.

(** What [reinsert_kicked] needs of the tree it adds to: nothing meets what it puts back. *)
Definition room t (lo hi : Z) (es : list (ival PageRange)) : Prop :=
  forall x e, x ∈ it_list t -> e ∈ es ->
    (i_hi x <= i_lo e \/ i_hi e <= i_lo x) \/ (lo <= i_lo x /\ i_hi x <= hi).

Definition keyed (e : ival PageRange) : Prop := i_lo e = r_start (i_val e) /\ i_hi e = r_end (i_val e).

Lemma reinsert_one t lo hi e es : tree_ok t -> lo < hi -> keyed e -> overlaps lo hi e = true -> room t lo hi (e :: es) ->
  exists t1 t2, insert_opt t (split_range (i_val e) lo hi).1 = Ret t1 /\
    insert_opt t1 (split_range (i_val e) lo hi).2 = Ret t2 /\ tree_ok t2 /\
    forall x, x ∈ it_list t2 <-> x ∈ it_list t \/ x ∈ left_over lo hi e.
Proof.
  intros Ht Hlh [Hlo Hhi] Hov Hroom. apply overlaps_spec in Hov as [Ho1 Ho2]. rewrite Hlo in Ho1. rewrite Hhi in Ho2.
  destruct (split_range_spec (i_val e) lo hi Ho1 Ho2 Hlh) as (H1 & _ & H2 & _).
  destruct (insert_opt_spec t (split_range (i_val e) lo hi).1 Ht) as (t1 & E1 & Ht1 & P1).
  { intros r Hr. destruct (H1 r Hr) as ((_ & ? & _) & _ & -> & ->). split; [done|]. intros x Hx.
    apply overlaps_false. destruct (Hroom x e Hx ltac:(by left)); lia. }
  destruct (insert_opt_spec t1 (split_range (i_val e) lo hi).2 Ht1) as (t2 & E2 & Ht2 & P2).
  { intros r Hr. destruct (H2 r Hr) as ((_ & ? & _) & _ & -> & ->). split; [done|]. intros x Hx.
    apply overlaps_false. rewrite P1, elem_of_app in Hx. destruct Hx as [Hx|Hx].
    - apply list_elem_of_fmap in Hx as (y & -> & Hy). apply elem_opt_list in Hy. destruct (H1 y Hy) as (_ & _ & _ & ?). simpl. lia.
    - destruct (Hroom x e Hx ltac:(by left)); lia. }
  exists t1, t2. split_and!; [done..|]. intros x. rewrite P2, elem_of_app, P1, elem_of_app.
  unfold left_over. rewrite fmap_app, elem_of_app. tauto.
Qed.

Lemma reinsert_kicked_cons t e es lo hi : reinsert_kicked t (e :: es) lo hi =
  let! t1 := insert_opt t (split_range (i_val e) lo hi).1 in
  let! t2 := insert_opt t1 (split_range (i_val e) lo hi).2 in reinsert_kicked t2 es lo hi.
Proof. cbn [reinsert_kicked]. by destruct (split_range (i_val e) lo hi). Qed.

Lemma reinsert_kicked_spec lo hi : lo < hi -> forall es t, tree_ok t -> iok es ->
  Forall (fun e => keyed e /\ overlaps lo hi e = true) es -> room t lo hi es ->
  exists t', reinsert_kicked t es lo hi = Ret t' /\ tree_ok t' /\
    forall x, x ∈ it_list t' <-> x ∈ it_list t \/ exists e, e ∈ es /\ x ∈ left_over lo hi e.
Proof.
  intros Hlh. induction es as [|e es IH]; intros t Ht Hes Hk Hroom.
  { exists t. split_and!; [done..|]. intros x. split; [by left|]. intros [?|(e & ? & _)]; [done|set_solver]. }
  apply iok_cons in Hes as (Hb & He & Hes). apply Forall_cons in Hk as [[Hke Hov] Hk].
  destruct (reinsert_one t lo hi e es Ht Hlh Hke Hov Hroom) as (t1 & t2 & E1 & E2 & Ht2 & P2).
  destruct (IH t2 Ht2 Hes Hk) as (t' & E' & Ht' & P').
  { intros x f Hx Hf. apply P2 in Hx as [Hx|Hx]; [apply Hroom; [done|by right]|].
    apply overlaps_spec in Hov as [Ho1 Ho2]. destruct Hke as [Hlo Hhi]. rewrite Hlo in Ho1. rewrite Hhi in Ho2.
    destruct (elem_left_over _ _ _ _ Hx Ho1 Ho2 Hlh) as (_ & _ & _ & _ & ? & ? & _).
    rewrite Forall_forall in Hb. specialize (Hb f Hf). unfold before in Hb. lia. }
  exists t'. rewrite reinsert_kicked_cons, E1. cbn [obind]. rewrite E2. cbn [obind].
  split_and!; [done..|]. intros x. rewrite P', P2. split.
  - intros [[?|?]|(f & ? & ?)]; [by left|right; exists e; by split; [left|]|right; exists f; by split; [right|]].
  - intros [?|(f & [->|?]%elem_of_cons & ?)]; [by left; left|by left; right|right; by exists f].
Qed.

(** Sharing a range: the region shows the pages of the range, the rest of the tree is as it was. *)
Lemma copy_range_spec t r dest off len : tree_ok t -> 0 <= off -> 0 < len -> off + len <= r_length r ->
  exists t', copy_range_to_object_tree t dest r off len = Ret t' /\ tree_ok t' /\
    (forall k, dest <= k < dest + len -> exists e, it_at t' k = Some e /\ shows r (r_start r + off + (k - dest)) (i_val e) k) /\
    (forall k, k < dest \/ dest + len <= k -> same_at t k t' k) /\
    (forall rs, r ∈ rs -> from t rs -> from t' rs).
Proof.
  intros Ht Hoff Hlen Hle. unfold copy_range_to_object_tree, insert_replace, rassert. simpl.
  set (new := new_from r dest (r_offset r + off) len). change (r_end new) with (dest + len).
  zbool. simpl. destruct (it_insert_replace_spec t dest (dest + len) new) as [E1 E2].
  pose proof (it_insert_replace_ok t dest (dest + len) new (proj1 Ht) ltac:(lia)) as Hok0.
  destruct (it_insert_replace t dest (dest + len) new) as [kicked t0]. simpl in *. subst kicked.
  destruct Ht as [Hok Hkeyed]. rewrite Forall_forall in Hkeyed.
  destruct (reinsert_kicked_spec dest (dest + len) ltac:(lia) (ikeep (overlaps dest (dest + len)) (it_list t)) t0) as (t' & E' & Ht' & P').
  { split; [done|]. rewrite E2. apply Forall_forall. intros x [->|[Hx _]%elem_ikeep]%elem_iinsert; [done|by apply Hkeyed]. }
  { by apply iok_ikeep. }
  { apply Forall_forall. intros e [He Ho]%elem_ikeep. split; [by apply Hkeyed|done]. }
  { intros x e Hx [He Ho]%elem_ikeep. rewrite E2 in Hx. apply elem_iinsert in Hx as [->|[Hx Hno]%elem_ikeep]; [right; simpl; lia|].
    left. destruct (iok_disjoint _ x e Hok Hx He) as [->|?]; [by rewrite Ho in Hno|done]. }
  assert (forall x, x ∈ it_list t' <-> x = Ival dest (dest + len) new \/ (x ∈ it_list t /\ overlaps dest (dest + len) x = false) \/
    exists e, e ∈ it_list t /\ overlaps dest (dest + len) e = true /\ x ∈ left_over dest (dest + len) e) as Hmem.
  { intros x. rewrite P', E2, elem_iinsert, elem_ikeep, negb_true_iff. setoid_rewrite elem_ikeep. naive_solver. }
  clear P' E2 Hok0. rewrite E'. exists t'. split_and!; [done..| | |].
  - intros k Hk. exists (Ival dest (dest + len) new). split; [|split; simpl; [done|lia]].
    apply it_at_elem; [apply Ht'|]. split; [apply Hmem; by left|]. apply contains_iff. simpl. lia.
  - intros k Hk. unfold same_at. destruct (it_at t k) as [e|] eqn:Ek.
    + apply it_at_elem in Ek as [He Hc]; [|done]. destruct (Hkeyed e He) as [Hlo Hhi]. pose proof Hc as Hc'. apply contains_iff in Hc'.
      destruct (overlaps dest (dest + len) e) eqn:Ho.
      * pose proof Ho as Ho'. apply overlaps_spec in Ho'. destruct (left_over_cover dest (dest + len) e k) as (x & Hx & Hxc); try lia.
        exists x. split; [|by apply (elem_left_over dest (dest + len)); try lia].
        apply it_at_elem; [apply Ht'|]. split; [|done]. apply Hmem. right. right. by exists e.
      * exists e. split; [|done]. apply it_at_elem; [apply Ht'|]. split; [apply Hmem; auto|done].
    + apply ifind_None, Forall_forall. unfold it_at in Ek. rewrite ifind_None, Forall_forall in Ek.
      intros x [->|[[Hx _]|(e & He & Ho & Hx)]]%Hmem; [apply contains_false; simpl; lia|by apply Ek|].
      apply overlaps_spec in Ho. destruct (Hkeyed e He) as [Hlo Hhi]. pose proof (Ek e He) as Hke. apply contains_false in Hke.
      destruct (elem_left_over _ _ _ _ Hx) as (_ & _ & _ & _ & ? & ? & _); try lia. apply contains_false. lia.
  - intros rs Hr Hrs x [->|[[Hx _]|(e & He & Ho & Hx)]]%Hmem.
    + exists r. split; [done|]. unfold sub. simpl. split_and!; (done || lia).
    + by apply Hrs.
    + apply overlaps_spec in Ho. destruct (Hkeyed e He). destruct (Hrs e He) as (r0 & Hr0 & Hsub).
      exists r0. split; [done|]. eapply sub_trans; [exact Hsub|]. apply (elem_left_over dest (dest + len)); (done || lia).
Qed.

(** The loop over a gapless part of the source. *)
Lemma share_loop_spec rs : forall es c, tree_ok (c_tree c) -> iok es -> Forall keyed es ->
  Forall (fun e => i_lo e < src_pt c + remaining c /\ src_pt c < i_hi e) es -> (es <> [] -> 0 < remaining c) ->
  0 <= remaining c -> (forall i, src_pt c <= i < src_pt c + remaining c -> is_Some (ifind i es)) ->
  from (c_tree c) rs -> (forall e, e ∈ es -> i_val e ∈ rs) ->
  exists t', share_loop c es = Ret (mkCursor t' (dest_pt c + remaining c) (src_pt c + remaining c) 0) /\ tree_ok t' /\
    (forall i, 0 <= i < remaining c -> exists e e', ifind (src_pt c + i) es = Some e /\
       it_at t' (dest_pt c + i) = Some e' /\ shows (i_val e) (src_pt c + i) (i_val e') (dest_pt c + i)) /\
    (forall k, k < dest_pt c \/ dest_pt c + remaining c <= k -> same_at (c_tree c) k t' k) /\ from t' rs.
Proof.
  induction es as [|e es IH]; intros [t dp sp n] Ht Hes Hkeyed Hov Hpos Hn Hcov Hfrom Hrs; simpl in *.
  { assert (n = 0) as ->. { destruct (decide (n = 0)); [done|]. destruct (Hcov sp) as [x Hx]; [lia|done]. }
    exists t. rewrite !Z.add_0_r. split_and!; [done..|intros; lia|intros; apply same_at_refl|done]. }
  specialize (Hpos ltac:(done)). apply Forall_cons in Hkeyed as [[Hlo Hhi] Hkeyed]. apply Forall_cons in Hov as [[Ho1 Ho2] Hov].
  pose proof Hes as Hes0. apply iok_cons in Hes as (Hb & He & Hes). rewrite Forall_forall in Hb. unfold before in Hb.
  assert (i_lo e <= sp) as Hsp.
  { destruct (Hcov sp) as [x Hx]; [lia|]. destruct (contains sp e) eqn:Ec; [apply contains_iff in Ec; lia|].
    apply ifind_elem in Hx as [Hx Hc]. apply contains_iff in Hc. specialize (Hb x Hx). lia. }
  zbool. simpl. unfold saturating_sub. rewrite Z.max_r by lia.
  assert (r_length (i_val e) = i_hi e - i_lo e) as Hl by (unfold r_end in Hhi; lia). rewrite Hl.
  set (len := Z.min (i_hi e - i_lo e - (sp - i_lo e)) n).
  destruct (copy_range_spec t (i_val e) dp (sp - i_lo e) len Ht) as (t1 & -> & Ht1 & Hin & Hout & Hfr); [lia..|]. simpl.
  specialize (Hfr rs (Hrs e ltac:(by left)) Hfrom).
  destruct (IH (mkCursor t1 (dp + len) (sp + len) (n - len)) Ht1 Hes Hkeyed) as (t' & -> & Ht' & Hin' & Hout' & Hfr'); simpl; [..|done| |].
  - apply Forall_forall. intros x Hx. rewrite Forall_forall in Hov. specialize (Hov x Hx). specialize (Hb x Hx).
    assert (i_lo x < i_hi x) by (eapply (proj1 (Forall_forall _ _) (proj2 Hes)); done). simpl in *. lia.
  - intros Hne. destruct es as [|x es]; [done|]. apply Forall_cons in Hov as [[Hx _] _]. specialize (Hb x ltac:(by left)). lia.
  - lia.
  - intros i Hi. destruct (Hcov i) as [x Hx]; [lia|]. destruct (contains i e) eqn:Ec; [|by exists x].
    apply contains_iff in Ec. lia.
  - intros x Hx. apply Hrs. by right.
  - replace (dp + len + (n - len)) with (dp + n) in * by lia. replace (sp + len + (n - len)) with (sp + n) in * by lia.
    simpl in *. exists t'. split_and!; [done..| | |done].
    + intros i Hi. destruct (decide (i < len)).
      * exists e. destruct (Hin (dp + i)) as (e1 & E1 & Hs1); [lia|]. pose proof (Hout' (dp + i) ltac:(lia)) as Hsame.
        unfold same_at in Hsame. rewrite E1 in Hsame. destruct Hsame as (e' & E' & Hs'). exists e'.
        assert (contains (sp + i) e = true) as -> by (apply contains_iff; lia). split_and!; [done..|].
        destruct Hs1 as [Hb1 Hk1], Hs' as [Hb2 Hk2]. split; [congruence|]. rewrite Hlo in *. lia.
      * destruct (Hin' (i - len)) as (e1 & e' & E1 & E' & Hs); [lia|]. exists e1, e'.
        replace (sp + len + (i - len)) with (sp + i) in * by lia. replace (dp + len + (i - len)) with (dp + i) in * by lia.
        assert (contains (sp + i) e = false) as -> by (apply contains_false; lia). done.
    + intros k Hk. eapply same_at_trans; [apply Hout; lia|apply Hout'; lia].
Qed.

Lemma from_self h t others : wf h (ranges t others) -> from t (ranges t others).
Proof.
  intros Hw e He. exists (i_val e). pose proof (tree_elem t others e He) as Hr. split; [done|].
  destruct (wf_range _ _ Hw _ Hr) as [? _]. unfold sub. split_and!; (done || lia).
Qed.

(** The arithmetic of an aligned region. *)
Lemma touched_pages_aligned n : 0 <= n -> touched_pages 0 0 (n * PAGE_SIZE) = n.
Proof.
  intros Hn. unfold touched_pages, saturating_sub. simpl. assert (0 < PAGE_SIZE) by done.
  rewrite Z.sub_0_r, Z.max_r by nia. rewrite Z.div_mul by done. lia.
Qed.

Lemma aligned_mod a n : (a * PAGE_SIZE + n * PAGE_SIZE) mod PAGE_SIZE = 0.
Proof. rewrite <- Z.mul_add_distr_r. by apply Z_mod_mult. Qed.

(** Copying whole pages shares them.  When every page of the source region is in a range,
    [copy_ranges] succeeds, the destination sees in the region exactly the pages the
    source sees, everything else of the destination is unchanged, no memory is written,
    and the invariant that makes later writes copy first is kept. *)
Lemma copy_ranges_aligned `{Build} max_pages others pins (s : St) sp dp n :
  wf (heap s) (ranges (dst s) (ranges (src s) others)) -> tree_ok (src s) -> tree_ok (dst s) ->
  0 < n < 2 ^ 64 -> (forall i, sp <= i < sp + n -> is_Some (it_at (src s) i)) ->
  exists t', copy_ranges max_pages others pins s (sp * PAGE_SIZE) (dp * PAGE_SIZE) (n * PAGE_SIZE) =
      Ret (mkSt (src s) t' (heap s)) /\ tree_ok t' /\
    wf (heap s) (ranges t' (ranges (src s) others)) /\
    (forall i, 0 <= i < n -> view (heap s) t' (dp + i) = view (heap s) (src s) (sp + i)) /\
    (forall k, k < dp \/ dp + n <= k -> view (heap s) t' k = view (heap s) (dst s) k).
Proof.
  intros Hw Hs Hd Hn Hcov. unfold copy_ranges. rewrite !Z_mod_mult, aligned_mod, !Z_div_mult by done.
  rewrite touched_pages_aligned by lia. simpl. rewrite Z.sub_0_r, chk_in by lia. simpl. zbool.
  destruct (share_loop_spec (ranges (dst s) (ranges (src s) others)) (it_range (src s) sp (sp + n))
    (mkCursor (dst s) dp sp n)) as (t' & -> & Ht' & Hin & Hout & Hfr); simpl; rewrite ?it_range_spec.
  - done.
  - apply iok_ikeep, Hs.
  - apply Forall_forall. intros e [He _]%elem_ikeep. destruct Hs as [_ Hk]. rewrite Forall_forall in Hk. by apply Hk.
  - apply Forall_forall. intros e [_ Ho]%elem_ikeep. by apply overlaps_spec in Ho.
  - lia.
  - lia.
  - intros i Hi. rewrite ifind_ikeep by apply Hs. destruct (Hcov i Hi) as [e He]. unfold it_at in He. rewrite He.
    apply ifind_elem in He as [_ Hc]. apply contains_iff in Hc.
    assert (overlaps sp (sp + n) e = true) as -> by (apply overlaps_spec; lia). by eexists.
  - by eapply from_self.
  - intros e [He _]%elem_ikeep. by apply others_elem, tree_elem.
  - simpl in *. exists t'. split_and!; [done..| | |].
    + eapply wf_from; [exact Hw|done|]. intros r. by apply others_elem.
    + intros i Hi. destruct (Hin i Hi) as (e & e' & He & He' & Hsh). unfold view. rewrite He'.
      rewrite it_range_spec, ifind_ikeep in He by apply Hs. unfold it_at. destruct (ifind (sp + i) _) as [x|]; [|done].
      destruct (overlaps _ _ x); [|done]. injection He as ->. symmetry. by apply shows_view.
    + intros k Hk. by apply same_at_view, Hout.
Qed.

(** C11: copying whole pages between objects.  When every page of the source region is in a
    range, [copy_ranges] succeeds; the destination then sees in the region the pages of the
    source and elsewhere its own, without any memory written.  A later request to write
    one of the copied pages gives the destination a page of its own with the bytes of the
    source's page, and the source keeps its pages, their bytes, and shares none with it. *)
Theorem copy_then_write `{Build} max_pages others pins (s : St) sp dp n i p :
  wf (heap s) (ranges (dst s) (ranges (src s) others)) -> tree_ok (src s) -> tree_ok (dst s) -> pins_ok (heap s) pins ->
  0 < n < 2 ^ 64 -> (forall i, sp <= i < sp + n -> is_Some (it_at (src s) i)) ->
  0 <= i < n -> view (heap s) (src s) (sp + i) = Some p -> pool (heap s) <> [] ->
  exists t' p' t'' h',
    copy_ranges max_pages others pins s (sp * PAGE_SIZE) (dp * PAGE_SIZE) (n * PAGE_SIZE) = Ret (mkSt (src s) t' (heap s)) /\
    (forall j, 0 <= j < n -> view (heap s) t' (dp + j) = view (heap s) (src s) (sp + j)) /\
    (forall k, k < dp \/ dp + n <= k -> view (heap s) t' k = view (heap s) (dst s) k) /\
    get_page (ranges (src s) others) pins t' (heap s) (dp + i) WRITE true = Ret (Ready p' false, t'', h') /\
    (forall off, 0 <= off < PAGE_SIZE -> mem h' (physical_address p' + off) = mem (heap s) (physical_address p + off)) /\
    (forall k q, view (heap s) (src s) k = Some q ->
       view h' (src s) k = Some q /\ physical_address q <> physical_address p' /\
       forall off, 0 <= off < PAGE_SIZE -> mem h' (physical_address q + off) = mem (heap s) (physical_address q + off)).
Proof.
  intros Hw Hs Hd Hpins Hn Hcov Hi Hp Hpool.
  destruct (copy_ranges_aligned max_pages others pins s sp dp n Hw Hs Hd Hn Hcov) as (t' & E & Ht' & Hw' & Hin & Hout).
  destruct (get_page_cow (heap s) t' (ranges (src s) others) pins (dp + i) WRITE p) as (p' & t'' & h' & Eg & Hc); [done..| |done|done|done|].
  { by rewrite Hin. }
  exists t', p', t'', h'. split_and!; [done..|apply Hc|]. intros k q Hq. unfold view in *.
  destruct (it_at (src s) k) as [e|] eqn:Ek; [|done]. destruct (tree_at _ _ _ Hs Ek) as (He & _ & _ & Hk).
  pose proof (tree_elem (src s) others e He) as Hr. rewrite (cow_others _ _ _ _ _ _ _ _ Hc) by done.
  split_and!; [done| |].
  - eapply (proj2 (cow_excl _ _ _ _ _ _ _ _ Hc)); [exact Hr|exact Hk|]. by rewrite (cow_others _ _ _ _ _ _ _ _ Hc).
  - intros off Hoff. apply (cow_mem _ _ _ _ _ _ _ _ Hc); [|done]. eapply rview_used; [exact Hw'|by apply others_elem|exact Hk|done].
Qed.

(** ** Zeroing whole pages *)

(** Removing the ranges found at given keys. *)
Lemma remove_all_spec ks : forall t, tree_ok t ->
  tree_ok (foldl (fun t k => (it_remove t k).2) t ks) /\
  forall x, x ∈ it_list (foldl (fun t k => (it_remove t k).2) t ks) <-> x ∈ it_list t /\ Forall (fun k => contains k x = false) ks.
Proof.
  induction ks as [|k ks IH]; intros t Ht; simpl.
  { split; [done|]. intros x. split; [by split|]. by intros [? _]. }
  assert (tree_ok (it_remove t k).2) as Ht1.
  { destruct Ht as [Hok Hk]. split; [by apply it_remove_ok|]. rewrite (proj2 (it_remove_spec t k)).
    apply Forall_forall. intros x [Hx _]%elem_ikeep. rewrite Forall_forall in Hk. by apply Hk. }
  destruct (IH _ Ht1) as [Hok Hmem]. split; [done|]. intros x. rewrite Hmem, (proj2 (it_remove_spec t k)), elem_ikeep.
  rewrite Forall_cons, negb_true_iff. tauto.
Qed.

Lemma contains_lo t x y : tree_ok t -> x ∈ it_list t -> y ∈ it_list t -> contains (i_lo y) x = true -> x = y.
Proof.
  intros [Hok _] Hx Hy Hc. apply contains_iff in Hc. pose proof (it_ok_lt t y Hok Hy).
  destruct (iok_disjoint _ x y Hok Hx Hy) as [?|?]; [done|lia].
Qed.

Lemma at_lo t x : tree_ok t -> x ∈ it_list t -> it_at t (i_lo x) = Some x.
Proof.
  intros [Hok _] Hx. apply it_at_elem; [done|]. split; [done|]. apply contains_iff. pose proof (it_ok_lt t x Hok Hx). lia.
Qed.

(** What is left of a range after, or before, a point. *)
Definition tail_of (z : ival PageRange) (hi : Z) : ival PageRange :=
  as_ival (mkRange hi (i_hi z - hi) (r_offset (i_val z) + (hi - i_lo z)) (r_backing (i_val z)) (r_sleep (i_val z))).
Definition init_of (e : ival PageRange) (lo : Z) : ival PageRange := as_ival (set_length (i_val e) (lo - i_lo e)).

Lemma insert_elem t r : tree_ok t -> 0 < r_length r -> (forall e, e ∈ it_list t -> overlaps (r_start r) (r_end r) e = false) ->
  exists t', insert_fresh t r = Ret t' /\ tree_ok t' /\ forall x, x ∈ it_list t' <-> x ∈ it_list t \/ x = as_ival r.
Proof.
  intros Ht Hl Ho. destruct (insert_fresh_spec t r Ht Hl Ho) as (t' & E & Ht' & El). exists t'. split_and!; [done..|].
  intros x. rewrite El, elem_iinsert. unfold as_ival. tauto.
Qed.

Lemma zero_last_spec t z dp n : tree_ok t -> z ∈ it_list t -> i_lo z < dp + n -> 0 < n ->
  exists t', zero_last t (i_lo z) dp n = Ret t' /\ tree_ok t' /\
    forall x, x ∈ it_list t' <-> (x ∈ it_list t /\ contains (i_lo z) x = false) \/ (dp + n < i_hi z /\ x = tail_of z (dp + n)).
Proof.
  intros Ht Hz Hlo Hn. pose proof (at_lo t z Ht Hz) as Hat. destruct (tree_at _ _ _ Ht Hat) as (_ & Hs & He & Hin).
  destruct (tree_remove _ _ _ Ht Hat) as (Er & Ht1 & _ & Hd). pose proof (proj2 (it_remove_spec t (i_lo z))) as El.
  unfold zero_last. destruct (it_remove t (i_lo z)) as [o t1]. simpl in Er, Ht1, Hd, El. subst o.
  assert (forall x, x ∈ it_list t1 <-> x ∈ it_list t /\ contains (i_lo z) x = false) as Hmem.
  { intros x. by rewrite El, elem_ikeep, negb_true_iff. }
  destruct (Z.ltb_spec (dp + (n - 1)) (r_end (i_val z))); simpl.
  2:{ exists t1. split_and!; [done..|]. intros x. rewrite Hmem. split; [by left|]. intros [?|[? _]]; [done|lia]. }
  zbool. destruct (Z.ltb_spec (dp + (n - 1) + 1 - r_start (i_val z)) (r_length (i_val z))).
  2:{ exists t1. split_and!; [done..|]. intros x. rewrite Hmem. unfold r_end in *. split; [by left|]. intros [?|[? _]]; [done|lia]. }
  simpl. unfold rassert. zbool. simpl. unfold r_end in *.
  match goal with |- context [insert_fresh t1 ?r] => destruct (insert_elem t1 r Ht1) as (t' & -> & Ht' & Hm'); simpl end; [lia| |].
  { intros x Hx. apply overlaps_false. unfold r_end. simpl. specialize (Hd x Hx). lia. }
  exists t'. split_and!; [done..|]. intros x. rewrite Hm', Hmem.
  replace (as_ival _) with (tail_of z (dp + n)) by (unfold tail_of; do 2 f_equal; lia). split; [naive_solver lia|naive_solver].
Qed.

Lemma zero_first_spec t e dp : tree_ok t -> e ∈ it_list t -> dp < i_hi e ->
  exists t', zero_first t (i_lo e) dp = Ret t' /\ tree_ok t' /\
    forall x, x ∈ it_list t' <-> (x ∈ it_list t /\ contains (i_lo e) x = false) \/ (i_lo e < dp /\ x = init_of e dp).
Proof.
  intros Ht Hz Hhi. pose proof (at_lo t e Ht Hz) as Hat. destruct (tree_at _ _ _ Ht Hat) as (_ & Hs & He & Hin).
  destruct (tree_remove _ _ _ Ht Hat) as (Er & Ht1 & _ & Hd). pose proof (proj2 (it_remove_spec t (i_lo e))) as El.
  unfold zero_first. destruct (it_remove t (i_lo e)) as [o t1]. simpl in Er, Ht1, Hd, El. subst o.
  assert (forall x, x ∈ it_list t1 <-> x ∈ it_list t /\ contains (i_lo e) x = false) as Hmem.
  { intros x. by rewrite El, elem_ikeep, negb_true_iff. }
  zbool. simpl. destruct (Z.leb_spec (r_start (i_val e)) dp).
  2:{ exists t1. split_and!; [done..|]. intros x. rewrite Hmem. split; [by left|]. intros [?|[? _]]; [done|lia]. }
  destruct (Z.ltb_spec (r_end (i_val e) - dp) (r_length (i_val e))).
  2:{ exists t1. split_and!; [done..|]. intros x. rewrite Hmem. unfold r_end in *. split; [by left|]. intros [?|[? _]]; [done|lia]. }
  unfold r_end in *.
  match goal with |- context [insert_fresh t1 ?r] => destruct (insert_elem t1 r Ht1) as (t' & -> & Ht' & Hm'); simpl end; [lia| |].
  { intros x Hx. apply overlaps_false. unfold r_end. simpl. specialize (Hd x Hx). lia. }
  exists t'. split_and!; [done..|]. intros x. rewrite Hm', Hmem.
  replace (as_ival _) with (init_of e dp) by (unfold init_of; do 2 f_equal; lia). split; [naive_solver lia|naive_solver].
Qed.

(** The ranges of the tree after a region has been zeroed: those that do not meet it, what
    the last one has after it, and, if there are two or more, what the first has before it. *)
Definition zeroed_elem t dp n (l0 : list (ival PageRange)) (z x : ival PageRange) : Prop :=
  (x ∈ it_list t /\ overlaps dp (dp + n) x = false) \/
  (dp + n < i_hi z /\ x = tail_of z (dp + n)) \/
  (exists e l1, l0 = e :: l1 /\ i_lo e < dp /\ x = init_of e dp).

Lemma zero_pages_elem t dp n l0 z : tree_ok t -> 0 < n -> it_range t dp (dp + n) = l0 ++ [z] ->
  exists t', zero_pages t dp n = Ret t' /\ tree_ok t' /\ forall x, x ∈ it_list t' <-> zeroed_elem t dp n l0 z x.
Proof.
  intros Ht Hn El. unfold zero_pages. rewrite El, fmap_app. simpl. rewrite last_snoc, removelast_last.
  rewrite it_range_spec in El.
  assert (forall x, x ∈ l0 ++ [z] <-> x ∈ it_list t /\ overlaps dp (dp + n) x = true) as Hl by (intros x; by rewrite <- El, elem_ikeep).
  assert (iok (l0 ++ [z])) as Hok by (rewrite <- El; apply iok_ikeep, Ht).
  assert (z ∈ it_list t /\ i_lo z < dp + n /\ dp < i_hi z) as (Hz & Hz1 & Hz2).
  { destruct (proj1 (Hl z)) as [? Ho]; [set_solver|]. by apply overlaps_spec in Ho. }
  destruct (zero_last_spec t z dp n Ht Hz Hz1 Hn) as (t2 & -> & Ht2 & H2). simpl.
  destruct l0 as [|e l1]; simpl.
  { exists t2. split_and!; [done..|]. intros x. rewrite H2. unfold zeroed_elem. split.
    - intros [[Hx Hc]|?]; [|tauto]. left. split; [done|]. destruct (overlaps dp (dp + n) x) eqn:Ho; [|done]. exfalso.
      assert (x = z) as -> by (apply list_elem_of_singleton; by apply Hl).
      apply contains_false in Hc. pose proof (it_ok_lt t z (proj1 Ht) Hz). lia.
    - intros [[Hx Ho]|[?|(e & l1 & ? & _)]]; [|tauto|done]. left. split; [done|].
      destruct (contains (i_lo z) x) eqn:Hc; [|done]. rewrite (contains_lo t x z) in Ho by done. apply overlaps_false in Ho. lia. }
  apply iok_cons in Hok as (Hb & He0 & Hok). rewrite Forall_forall in Hb. unfold before in Hb.
  assert (e ∈ it_list t /\ i_lo e < dp + n /\ dp < i_hi e) as (He & He1 & He2).
  { destruct (proj1 (Hl e)) as [? Ho]; [set_solver|]. by apply overlaps_spec in Ho. }
  assert (contains (i_lo z) e = false) as Hze by (apply contains_false; specialize (Hb z ltac:(set_solver)); lia).
  destruct (zero_first_spec t2 e dp Ht2) as (t3 & -> & Ht3 & H3); [apply H2; by left|done|]. simpl.
  destruct (remove_all_spec (i_lo <$> l1) t3 Ht3) as [Ht4 H4]. eexists. split_and!; [done..|]. clear Ht4.
  intros x. rewrite H4, H3, H2. unfold zeroed_elem.
  assert (forall y, y ∈ l1 -> y ∈ it_list t /\ dp < i_lo y < dp + n) as Hmid.
  { intros y Hy. destruct (proj1 (Hl y)) as [? Ho]; [set_solver|]. apply overlaps_spec in Ho. specialize (Hb y ltac:(set_solver)). split; [done|lia]. }
  rewrite Forall_fmap, Forall_forall. simpl. split.
  - intros [[[[[Hx Hcz]|[? ->]] Hce]|[? ->]] Hc].
    + left. split; [done|]. destruct (overlaps dp (dp + n) x) eqn:Ho; [|done]. exfalso.
      assert (x ∈ (e :: l1) ++ [z]) as [[->|Hx1]%elem_of_cons|Hx1]%elem_of_app by by apply Hl.
      * apply contains_false in Hce. lia.
      * specialize (Hc x Hx1). simpl in Hc. apply contains_false in Hc. pose proof (it_ok_lt t x (proj1 Ht) Hx). lia.
      * apply list_elem_of_singleton in Hx1 as ->. apply contains_false in Hcz. pose proof (it_ok_lt t z (proj1 Ht) Hz). lia.
    + right. by left.
    + right. right. by exists e, l1.
  - intros [[Hx Ho]|[[? ->]|(e' & l1' & [= <- <-] & ? & ->)]].
    + assert (forall y, y ∈ it_list t -> overlaps dp (dp + n) y = true -> contains (i_lo y) x = false) as Hno.
      { intros y Hy Hoy. destruct (contains (i_lo y) x) eqn:Hc; [|done]. rewrite (contains_lo t x y) in Ho by done. congruence. }
      split; [left; split; [left; split; [done|]|]|]; [apply Hno; [done|apply overlaps_spec; lia]..|].
      intros y Hy. simpl. apply Hno; [by apply Hmid|]. by apply Hl; set_solver.
    + split; [left; split; [by right|]|]; [apply contains_false; simpl; lia|].
      intros y Hy. apply contains_false. simpl. destruct (Hmid y Hy). lia.
    + split; [by right|]. intros y Hy. apply contains_false. unfold init_of, as_ival, r_end. simpl. destruct (Hmid y Hy).
      destruct Ht as [_ Hk]. rewrite Forall_forall in Hk. destruct (Hk e He). lia.
Qed.

(** A range that meets the region and contains a point outside of it is cut there. *)
Lemma zeroed_found t dp n l0 z e k : tree_ok t -> it_range t dp (dp + n) = l0 ++ [z] ->
  (l0 = [] -> dp <= i_lo z) -> e ∈ it_list t -> overlaps dp (dp + n) e = true -> contains k e = true ->
  k < dp \/ dp + n <= k ->
  exists x, zeroed_elem t dp n l0 z x /\ contains k x = true /\ shows (i_val e) k (i_val x) k.
Proof.
  intros [Hok Hkeyed] El Hsafe He Hoe Hc Hk. rewrite it_range_spec in El. rewrite Forall_forall in Hkeyed.
  assert (forall x, x ∈ l0 ++ [z] <-> x ∈ it_list t /\ overlaps dp (dp + n) x = true) as Hl by (intros x; by rewrite <- El, elem_ikeep).
  assert (iok (l0 ++ [z])) as Hio by (rewrite <- El; by apply iok_ikeep).
  assert (e ∈ l0 ++ [z]) as Hel by by apply Hl. apply overlaps_spec in Hoe. apply contains_iff in Hc.
  destruct (Hkeyed e He) as [Hes Hee].
  assert (z ∈ it_list t /\ overlaps dp (dp + n) z = true) as [Hz Hoz%overlaps_spec] by (apply Hl; set_solver).
  destruct Hk as [Hk|Hk].
  - destruct l0 as [|e1 l1].
    { apply list_elem_of_singleton in Hel as ->. specialize (Hsafe eq_refl). lia. }
    assert (e = e1) as <-.
    { apply iok_cons in Hio as (Hb & _). apply elem_of_cons in Hel as [?|Hel]; [done|].
      rewrite Forall_forall in Hb. specialize (Hb e Hel). unfold before in Hb.
      destruct (proj1 (Hl e1)) as [_ Ho1]; [set_solver|]. apply overlaps_spec in Ho1. lia. }
    exists (init_of e dp). split_and!; [right; right; exists e, l1; split_and!; (done || lia)| |split; [done|simpl; lia]].
    apply contains_iff. unfold init_of, as_ival, r_end. simpl. lia.
  - assert (e = z) as ->.
    { apply elem_of_app in Hel as [Hel|Hel]; [|by apply list_elem_of_singleton].
      pose proof (iok_snoc _ _ _ Hio Hel). lia. }
    exists (tail_of z (dp + n)). split_and!; [right; left; split; (done || lia)| |split; [done|simpl; lia]].
    apply contains_iff. unfold tail_of, as_ival, r_end. simpl. lia.
Qed.

(** Nothing of the tree after zeroing lies in the region or outside of the old ranges. *)
Lemma zeroed_elem_sub t dp n l0 z x : tree_ok t -> it_range t dp (dp + n) = l0 ++ [z] -> zeroed_elem t dp n l0 z x ->
  overlaps dp (dp + n) x = false /\ exists e, e ∈ it_list t /\ i_lo e <= i_lo x /\ i_hi x <= i_hi e.
Proof.
  intros [Hok Hkeyed] El Hx. rewrite it_range_spec in El. rewrite Forall_forall in Hkeyed.
  assert (forall y, y ∈ l0 ++ [z] -> y ∈ it_list t /\ overlaps dp (dp + n) y = true) as Hl by (intros y; by rewrite <- El, elem_ikeep).
  destruct Hx as [[Hx Ho]|[[? ->]|(e & l1 & -> & ? & ->)]].
  - split; [done|]. exists x. split_and!; (done || lia).
  - destruct (Hl z) as [Hz Ho%overlaps_spec]; [set_solver|]. split.
    + apply overlaps_false. unfold tail_of, as_ival, r_end. simpl. lia.
    + exists z. unfold tail_of, as_ival, r_end. simpl. split_and!; (done || lia).
  - destruct (Hl e) as [He Ho%overlaps_spec]; [set_solver|]. destruct (Hkeyed e He). split.
    + apply overlaps_false. unfold init_of, as_ival, r_end. simpl. lia.
    + exists e. unfold init_of, as_ival, r_end. simpl. split_and!; (done || lia).
Qed.

(** Zeroing whole pages.  If the region meets no range, or its first range starts in it, or it
    meets more than one range, [zero_pages] succeeds, the region has no pages afterwards
    (and so reads as zero), and every other page number resolves as before. *)
Theorem zero_pages_spec t dp n : tree_ok t -> 0 < n ->
  (forall e, it_range t dp (dp + n) = [e] -> dp <= i_lo e) ->
  exists t', zero_pages t dp n = Ret t' /\ tree_ok t' /\
    (forall k, dp <= k < dp + n -> it_at t' k = None) /\
    (forall k, k < dp \/ dp + n <= k -> same_at t k t' k).
Proof.
  intros Ht Hn Hsafe. destruct (it_range t dp (dp + n)) as [|e0 l] eqn:El.
  { exists t. unfold zero_pages. rewrite El. rewrite it_range_spec in El. rewrite ikeep_nil, Forall_forall in El.
    split_and!; [done..| |intros; apply same_at_refl].
    intros k Hk. apply ifind_None, Forall_forall. intros x Hx. specialize (El x Hx). apply overlaps_false in El. apply contains_false. lia. }
  destruct (exists_last (l := e0 :: l)) as (l0 & z & Hlz); [done|]. rewrite Hlz in El, Hsafe. clear Hlz e0 l.
  destruct (zero_pages_elem t dp n l0 z Ht Hn El) as (t' & -> & Ht' & Hmem). exists t'. split_and!; [done..| |].
  - intros k Hk. apply ifind_None, Forall_forall. intros x Hx%Hmem.
    destruct (zeroed_elem_sub _ _ _ _ _ _ Ht El Hx) as [Ho _]. apply overlaps_false in Ho. apply contains_false. lia.
  - intros k Hk. unfold same_at. destruct (it_at t k) as [e|] eqn:Ek.
    + apply it_at_elem in Ek as [He Hc]; [|apply Ht]. destruct (overlaps dp (dp + n) e) eqn:Ho.
      * assert (l0 = [] -> dp <= i_lo z) as Hs' by (intros ->; by apply Hsafe).
        destruct (zeroed_found t dp n l0 z e k Ht El Hs' He Ho Hc Hk) as (x & Hx & Hxc & Hsh).
        exists x. split; [|done]. apply it_at_elem; [apply Ht'|]. split; [by apply Hmem|done].
      * exists e. split; [|done]. apply it_at_elem; [apply Ht'|]. split; [apply Hmem; by left|done].
    + apply ifind_None, Forall_forall. unfold it_at in Ek. rewrite ifind_None, Forall_forall in Ek.
      intros x Hx%Hmem. destruct (zeroed_elem_sub _ _ _ _ _ _ Ht El Hx) as (_ & e & He & ? & ?).
      pose proof (Ek e He) as Hke. apply contains_false in Hke. apply contains_false. lia.
Qed.

End inv.

(** ** Runs *)
#[local] Instance checked : Build := true.

(** The physical address each of the pages 1 to 6 resolves to; 0 for none, -1 for a panic. *)
Definition addresses (t : ivals PageRange) (h : Heap (T := ivals)) : list Z :=
  (fun k => match get_page [] [] t h k 0 false with
            | Ret (Ready p _, _, _) => physical_address p
            | Ret _ => 0
            | _ => -1
            end) <$> [1; 2; 3; 4; 5; 6].

(** Four pages, 1 to 4, in one range. *)
Definition run_pv : ivals PageRef :=
  [Ival 0 1 (ex_page 1 0x10000); Ival 1 2 (ex_page 2 0x11000); Ival 2 3 (ex_page 3 0x12000); Ival 3 4 (ex_page 4 0x13000)].
Definition run_heap : Heap (T := ivals) := mkHeap {[0%nat := run_pv]} (fun a => a / PAGE_SIZE) 10 [0x20000; 0x21000].
Definition run_tree : ivals PageRange := [Ival 1 5 (mkRange 1 4 0 (Many 0) None)].

Lemma copy_then_write_witness : exists t' p' t'' h',
  copy_ranges 0x40000 [] [] (mkSt ex_tree it_new (ex_heap [0x20000])) (1 * PAGE_SIZE) (4 * PAGE_SIZE) (2 * PAGE_SIZE) =
    Ret (mkSt ex_tree t' (ex_heap [0x20000])) /\
  get_page (ranges ex_tree []) [] t' (ex_heap [0x20000]) (4 + 1) WRITE true = Ret (Ready p' false, t'', h') /\
  mem h' (physical_address p') = 0x11.
Proof.
  destruct (copy_then_write 0x40000 [] [] (mkSt ex_tree it_new (ex_heap [0x20000])) 1 4 2 1 (ex_page 2 0x11000))
    as (t' & p' & t'' & h' & E & _ & _ & Eg & Hm & _).
  - apply ex_wf; [|by apply NoDup_singleton|repeat constructor; [by apply Z.mod_divide|lia]].
    intros r. unfold ranges, ex_tree. simpl. rewrite list_elem_of_singleton. by intros ->.
  - apply (ex_tree_ok 1).
  - split; [apply it_new_ok|constructor].
  - constructor.
  - done.
  - intros i Hi. exists (Ival 1 3 (ex_range 1)). apply it_at_elem; [apply (ex_tree_ok 1)|]. split; [by left|]. apply contains_iff. simpl. lia.
  - lia.
  - reflexivity.
  - done.
  - exists t', p', t'', h'. split_and!; [exact E|exact Eg|].
    rewrite <- (Z.add_0_r (physical_address p')). rewrite Hm by done. reflexivity.
Defined.

Lemma zero_pages_spec_witness : exists t', zero_pages ex_tree 1 1 = Ret t' /\ it_at t' 1 = None.
Proof.
  destruct (zero_pages_spec ex_tree 1 1) as (t' & E & _ & Hn & _); [apply (ex_tree_ok 1)|lia|by intros e [= <-]|].
  exists t'. split; [exact E|apply Hn; lia].
Defined.

(** Zeroing part of one range loses the pages before it: clearing page 2 of an object whose
    pages 1 to 4 are one range leaves page 1 without its memory. *)
Theorem zero_ranges_loses_prefix :
  addresses run_tree run_heap = [0x10000; 0x11000; 0x12000; 0x13000; 0; 0] /\
  match zero_ranges [] [] run_tree run_heap (2 * PAGE_SIZE) PAGE_SIZE with
  | Ret (t, h) => addresses t h = [0; 0; 0x12000; 0x13000; 0; 0]
  | _ => False
  end.
Proof. split; vm_compute; reflexivity. Qed.

(** Zeroing bytes inside one page zeroes bytes outside of the request: clearing 8 bytes at
    offset 8 of page 2 also clears the rest of page 2 and the start of page 3. *)
Theorem zero_ranges_overreach :
  match zero_ranges [] [] run_tree run_heap (2 * PAGE_SIZE + 8) 8 with
  | Ret (t, h) => mem h 0x11000 = 0x11 /\ mem h 0x11100 = 0 /\ mem h 0x12000 = 0 /\ mem h 0x12010 = 0x12
  | _ => False
  end.
Proof. vm_compute. done. Qed.

(** Pages that were zeroed come back.  Zeroing pages 2 to 7 of an object with ranges 1 to 3 and
    7 only shortens the first range, whose vector keeps the old pages; adding a page at 4
    extends that range again over pages 2 and 3, which show their old memory. *)
Theorem zeroed_pages_come_back :
  match zero_ranges [] [] [Ival 1 4 (mkRange 1 3 0 (Many 0) None); Ival 7 8 (mkRange 7 1 0 (Single (ex_page 9 0x50000)) None)]
          run_heap (2 * PAGE_SIZE) (6 * PAGE_SIZE) with
  | Ret (t, h) =>
      addresses t h = [0x10000; 0; 0; 0; 0; 0] /\
      match add_page [] [] 0x40000 t h 4 (ex_page 11 0x60000) true with
      | Ret (_, t, h) => addresses t h = [0x10000; 0x11000; 0x12000; 0x60000; 0; 0]
      | _ => False
      end
  | _ => False
  end.
Proof. vm_compute. done. Qed.

(** A page added in a hole of a shared range cannot be used: the split leaves the new range with
    the offset it had in the shared vector, and the next access asserts that this offset is
    within the one new page. *)
Theorem add_page_shared_hole_panics :
  match add_page ex_others [] 0x40000 [Ival 1 5 (mkRange 1 4 0 (Many 0) None)] (ex_heap []) 4 (ex_page 11 0x60000) true with
  | Ret (Some p, t, h) => p = ex_page 11 0x60000 /\ get_page ex_others [] t h 4 0 true = Panic
  | _ => False
  end.
Proof. vm_compute. done. Qed.

(** Copying whole pages from a region that ends in a hole panics: the source has the pages 1 to
    4, six are copied, and the assertion that none remain fails. *)
Theorem copy_ranges_hole_panics :
  copy_ranges 0x40000 [] [] (mkSt run_tree it_new run_heap) PAGE_SIZE PAGE_SIZE (6 * PAGE_SIZE) = Panic.
Proof. vm_compute. reflexivity. Qed.

(** Copying on write a range backed by one reference of several pages writes past the new
    frame: the copy of two pages into one frame overwrites the frame that follows it. *)
Theorem cow_overruns_frame :
  match get_page [mkRange 9 2 0 (Single (mkPageRef (mkPage 1 (Frame 0x10000 PAGE_SIZE 2)) 0 2)) None] []
          [Ival 1 3 (mkRange 1 2 0 (Single (mkPageRef (mkPage 1 (Frame 0x10000 PAGE_SIZE 2)) 0 2)) None)]
          run_heap 1 WRITE true with
  | Ret (Ready _ _, _, h) => mem run_heap 0x21000 = 0x21 /\ mem h 0x21000 = 0x11
  | _ => False
  end.
Proof. vm_compute. done. Qed.
End ObjCopyInv.
