(* ===== verification/Tlb.v ===== *)
(** * TLB invalidation on amd64

    [src/src/kernel/src/arch/amd64/memory/pagetables/consistency.rs]: the commands a page table
    update queues ([InvInstruction], [TlbInvData]), their distribution to other processors
    through a few slots that merge when they run out ([TlbShootdownInfo]), and the batching
    of cache line flushes ([ArchCacheLineMgr]).  The slots are guarded by a lock, so each
    operation is one step; an insertion that gives up on the lock asks for a full
    invalidation instead. *)
From S2P Require Import Prelude Address.

#[local] Open Scope Z_scope.

Module Tlb.
Import Address.

(** ** Invalidation commands *)
Definition ADDR_MASK : Z := 2 ^ 64 - 1 - 0xfff.

(** [InvInstruction::new] *)
Definition inst_new (addr : Z) (is_global is_terminal : bool) (level : Z) : Z :=
  Z.lor (Z.lor (Z.lor (Z.land addr ADDR_MASK) (if is_global then 1 else 0)) (if is_terminal then 2 else 0))
    (Z.shiftl level 2).

(** [InvInstruction::addr] *)
Definition inst_addr (i : Z) : outcome VirtAddr :=
  match VirtAddr_new (Z.land i ADDR_MASK) with Ok a => Ret a | Err _ => Panic end.
(** [InvInstruction::is_global] *)
Definition inst_is_global (i : Z) : bool := negb (Z.land i 1 =? 0).
(** [InvInstruction::is_terminal] *)
Definition inst_is_terminal (i : Z) : bool := negb (Z.land i 2 =? 0).
(** [InvInstruction::level] *)
Definition inst_level (i : Z) : Z := Z.land (Z.shiftr i 2) 0xff.

(** ** Batches of commands *)
Definition MAX_INVALIDATION_INSTRUCTIONS : nat := 16.

(** [TlbInvData]; [instructions] is the whole array, of which [len] are in use. *)
Record TlbInvData := mkInv { target_cr3 : Z; instructions : list Z; len : nat; d_flags : Z }.

Definition GLOBAL : Z := 1.
Definition FULL : Z := 2.

(** [TlbInvData::new] *)
Definition inv_new (target : Z) : TlbInvData :=
  mkInv target (replicate MAX_INVALIDATION_INSTRUCTIONS (inst_new 0 false false 0)) 0 0.

Definition set_flag (d : TlbInvData) (f : Z) : TlbInvData :=
  mkInv (target_cr3 d) (instructions d) (len d) (Z.lor (d_flags d) f).
(** [set_global] and [set_full] *)
Definition set_global (d : TlbInvData) : TlbInvData := set_flag d GLOBAL.
Definition set_full (d : TlbInvData) : TlbInvData := set_flag d FULL.
(** [full] and [global] *)
Definition full (d : TlbInvData) : bool := negb (Z.land (d_flags d) FULL =? 0).
Definition global (d : TlbInvData) : bool := negb (Z.land (d_flags d) GLOBAL =? 0).
(** [TlbInvData::instructions] *)
Definition insts (d : TlbInvData) : list Z := take (len d) (instructions d).

(** [TlbInvData::enqueue] *)
Definition enqueue (d : TlbInvData) (inst : Z) : TlbInvData :=
  let d := if inst_is_global inst then set_global d else d in
  if bool_decide (len d = MAX_INVALIDATION_INSTRUCTIONS) then set_full d
  else mkInv (target_cr3 d) (<[len d := inst]> (instructions d)) (S (len d)) (d_flags d).

(** [TlbInvData::merge] *)
Definition merge (self other : TlbInvData) : TlbInvData :=
  if negb (target_cr3 other =? target_cr3 self) then set_full (set_global self)
  else
    let self := if full other then set_full self else self in
    let self := if global other then set_global self else self in
    if (MAX_INVALIDATION_INSTRUCTIONS <? len self + len other)%nat then set_full self
    else foldl enqueue self (insts other).

(** [TlbInvData::has_invalidations] *)
Definition has_invalidations (d : TlbInvData) : bool := (0 <? len d)%nat || full d.

(** The operations of the processor. *)
Inductive HwOp :=
| GlobalInv
| NonGlobalInv
| Invlpg (inst : Z).

(** [TlbInvData::do_invalidation] on a processor that runs with [our_cr3] *)
Definition do_invalidation (d : TlbInvData) (our_cr3 : Z) : list HwOp :=
  if negb (has_invalidations d) then []
  else if negb (our_cr3 =? target_cr3 d) && negb (global d) then []
  else if full d then (if global d then [GlobalInv] else [NonGlobalInv])
  else Invlpg <$> insts d.

(** ** The slots of a processor *)
Definition NUM_TLB_SHOOTDOWN_ENTRIES : nat := 4.

(** [TlbShootdownInfo] *)
Record TlbShootdownInfo := mkInfo { data : list (option TlbInvData); full_invl : bool }.

(** [TlbShootdownInfo::new] *)
Definition info_new : TlbShootdownInfo := mkInfo [None; None; None; None] false.

(** The first empty slot takes the new data. *)
Fixpoint fill_slot (slots : list (option TlbInvData)) (d : TlbInvData) : option (list (option TlbInvData)) :=
  match slots with
  | [] => None
  | None :: slots => Some (Some d :: slots)
  | Some x :: slots => (fun r => Some x :: r) <$> fill_slot slots d
  end.

(** Otherwise the first slot with the same target merges it. *)
Fixpoint merge_slot (slots : list (option TlbInvData)) (d : TlbInvData) : option (list (option TlbInvData)) :=
  match slots with
  | [] => None
  | Some x :: slots =>
      if target_cr3 x =? target_cr3 d then Some (Some (merge x d) :: slots)
      else (fun r => Some x :: r) <$> merge_slot slots d
  | None :: slots => (fun r => None :: r) <$> merge_slot slots d
  end.

(** [TlbShootdownInfo::insert]; [got_lock] tells whether the lock was obtained in time. *)
Definition info_insert (s : TlbShootdownInfo) (d : TlbInvData) (got_lock : bool) : TlbShootdownInfo :=
  if negb got_lock then mkInfo (data s) true
  else match fill_slot (data s) d with
  | Some slots => mkInfo slots (full_invl s)
  | None =>
      match merge_slot (data s) d with
      | Some slots => mkInfo slots (full_invl s)
      | None =>
          match data s with
          | Some x :: slots => mkInfo (Some (merge x d) :: slots) (full_invl s)
          | _ => s
          end
      end
  end.

(** [TlbShootdownInfo::is_finished], when it gets the lock *)
Definition is_finished (s : TlbShootdownInfo) : bool :=
  negb (full_invl s) && forallb (fun o => match o with None => true | Some _ => false end) (data s).

(** The loop of [complete] over the slots: the operations done and the slots left. *)
Fixpoint complete_loop (slots : list (option TlbInvData)) (our_cr3 : Z) : list HwOp * bool :=
  match slots with
  | [] => ([], false)
  | None :: slots => complete_loop slots our_cr3
  | Some d :: slots =>
      if full d && global d then (do_invalidation d our_cr3, true)
      else let (ops, r) := complete_loop slots our_cr3 in (do_invalidation d our_cr3 ++ ops, r)
  end.

(** [TlbShootdownInfo::complete]; every way out leaves the slots empty. *)
Definition complete (s : TlbShootdownInfo) (our_cr3 : Z) : list HwOp * TlbShootdownInfo :=
  if full_invl s then (do_invalidation (set_full (set_global (inv_new 0))) our_cr3, info_new)
  else ((complete_loop (data s) our_cr3).1, info_new).

(** ** Cache lines *)
Definition CACHE_LINE_SIZE : Z := 64.

(** [ArchCacheLineMgr]: the line waiting, and the lines flushed so far. *)
Record CacheLines := mkCL { dirty : option Z; flushed : list Z }.

Definition line_of (addr : Z) : Z := Z.land addr (not64 (CACHE_LINE_SIZE - 1)).

(** [ArchCacheLineMgr::do_flush] *)
Definition do_flush (c : CacheLines) : CacheLines :=
  match dirty c with Some a => mkCL None (flushed c ++ [a]) | None => c end.

(** [ArchCacheLineMgr::flush] *)
Definition cl_flush (c : CacheLines) (line : Z) : CacheLines :=
  let addr := line_of line in
  match dirty c with
  | Some d => if negb (d =? addr) then mkCL (Some addr) (flushed (do_flush c)) else c
  | None => mkCL (Some addr) (flushed c)
  end.

(** ** What the processor forgets *)

(** A cached translation: the addresses it covers and whether it is global. *)
Record TlbEntry := mkTlb { t_lo : Z; t_size : Z; t_global : bool }.

Definition in_entry (a : Z) (e : TlbEntry) : bool := (t_lo e <=? a) && (a <? t_lo e + t_size e).

(** What each operation removes, as the architecture documents it. *)
Definition removes (op : HwOp) (e : TlbEntry) : bool :=
  match op with
  | GlobalInv => true
  | NonGlobalInv => negb (t_global e)
  | Invlpg i => in_entry (Z.land i ADDR_MASK) e
  end.

Definition removed (ops : list HwOp) (e : TlbEntry) : Prop := exists op, op ∈ ops /\ removes op e = true.

(** What a command asks of a processor: to forget the translations of its address, global
    ones if it says so; only global commands matter to one with other page tables. *)
Definition inst_asks (i : Z) (target our : Z) (e : TlbEntry) : Prop :=
  in_entry (Z.land i ADDR_MASK) e = true /\ (t_global e = true -> inst_is_global i = true) /\
  (our = target \/ inst_is_global i = true).

Definition asks (d : TlbInvData) (our : Z) (e : TlbEntry) : Prop :=
  (full d = true /\ (global d = true \/ (our = target_cr3 d /\ t_global e = false))) \/
  (exists i, i ∈ insts d /\ inst_asks i (target_cr3 d) our e).

(** Commands in use fit in the array, and a global one marks the batch. *)
Definition inv_ok (d : TlbInvData) : Prop :=
  length (instructions d) = MAX_INVALIDATION_INSTRUCTIONS /\ (len d <= MAX_INVALIDATION_INSTRUCTIONS)%nat /\
  forall i, i ∈ insts d -> inst_is_global i = true -> global d = true.

Lemma full_set_full d : full (set_full d) = true.
Proof. unfold full, set_full, set_flag. simpl. change FULL with (2 ^ 1). rewrite land_bit, testbit_lor_bit by done. by rewrite orb_true_r. Qed.
Lemma full_set_global d : full (set_global d) = full d.
Proof. unfold full, set_global, set_flag. simpl. change FULL with (2 ^ 1). change GLOBAL with (2 ^ 0). rewrite !land_bit, testbit_lor_bit by done. by rewrite orb_false_r. Qed.
Lemma global_set_global d : global (set_global d) = true.
Proof. unfold global, set_global, set_flag. simpl. change GLOBAL with (2 ^ 0). rewrite land_bit, testbit_lor_bit by done. by rewrite orb_true_r. Qed.
Lemma global_set_full d : global (set_full d) = global d.
Proof. unfold global, set_full, set_flag. simpl. change FULL with (2 ^ 1). change GLOBAL with (2 ^ 0). rewrite !land_bit, testbit_lor_bit by done. by rewrite orb_false_r. Qed.

#[export] Hint Rewrite full_set_full full_set_global global_set_global global_set_full : twz.

Lemma insts_flag d f : insts (set_flag d f) = insts d.
Proof. done. Qed.

Lemma inv_new_ok target : inv_ok (inv_new target).
Proof. split_and!; [done|simpl; lia|]. intros i Hi. by apply elem_of_nil in Hi. Qed.

Lemma set_global_ok d : inv_ok d -> inv_ok (set_global d).
Proof. intros (? & ? & ?). split_and!; [done..|]. intros. apply global_set_global. Qed.

Lemma set_full_ok d : inv_ok d -> inv_ok (set_full d).
Proof. intros (? & ? & Hg). split_and!; [done..|]. intros i Hi Hb. rewrite global_set_full. by apply (Hg i). Qed.

(** Raising flags only adds to what a batch asks for. *)
Lemma set_global_asks d our e : asks d our e -> asks (set_global d) our e.
Proof.
  intros [[Hf Hc]|Hi]; [left|by right]. rewrite full_set_global, global_set_global. auto.
Qed.

Lemma set_full_asks d our e : inv_ok d -> asks d our e -> asks (set_full d) our e.
Proof.
  intros (_ & _ & Hg) [[Hf Hc]|(i & Hi & _ & Hge & Ho)]; left; rewrite full_set_full, global_set_full; [done|]. split; [done|].
  destruct (t_global e) eqn:E; [left; apply (Hg i Hi); by apply Hge|].
  destruct Ho as [->|Hig]; [by right|left; by apply (Hg i Hi)].
Qed.

Lemma everything_asked d our e : asks (set_full (set_global d)) our e.
Proof. left. rewrite full_set_full, global_set_full, global_set_global. auto. Qed.

Lemma insts_enqueue d i : inv_ok d -> len d <> MAX_INVALIDATION_INSTRUCTIONS ->
  insts (mkInv (target_cr3 d) (<[len d := i]> (instructions d)) (S (len d)) (d_flags d)) = insts d ++ [i].
Proof.
  intros (Hl & Hn & _) Hne. unfold insts. simpl.
  rewrite (take_S_r _ _ i) by (apply list_lookup_insert_eq; lia). f_equal. by apply take_insert_ge.
Qed.

(** A queued command is asked for, and so is everything that was. *)
Lemma enqueue_spec d i : inv_ok d ->
  inv_ok (enqueue d i) /\ target_cr3 (enqueue d i) = target_cr3 d /\
  (forall our e, asks d our e -> asks (enqueue d i) our e) /\
  (forall our e, inst_asks i (target_cr3 d) our e -> asks (enqueue d i) our e).
Proof.
  intros Hd. unfold enqueue. set (d1 := if inst_is_global i then set_global d else d).
  assert (inv_ok d1 /\ target_cr3 d1 = target_cr3 d /\ (forall our e, asks d our e -> asks d1 our e) /\
    (inst_is_global i = true -> global d1 = true)) as (Hd1 & Ht & Hmono & Hgl).
  { unfold d1. destruct (inst_is_global i) eqn:E; [|done].
    split_and!; [by apply set_global_ok|done|intros; by apply set_global_asks|intros; apply global_set_global]. }
  clearbody d1. case_bool_decide as Hlen.
  - split_and!; [by apply set_full_ok|done|intros; apply set_full_asks; auto|].
    intros our e (_ & Hge & Ho). left. rewrite full_set_full, global_set_full. split; [done|]. simpl. rewrite Ht.
    destruct (t_global e) eqn:E; [left; auto|]. destruct Ho; auto.
  - set (d2 := mkInv _ _ _ _). assert (insts d2 = insts d1 ++ [i]) as Hi by by apply insts_enqueue.
    destruct Hd1 as (Hl & Hn & Hg). split_and!; [|done| |].
    + split_and!; [unfold d2; simpl; by rewrite length_insert|unfold d2; simpl; lia|].
      intros x. rewrite Hi, elem_of_app, list_elem_of_singleton. intros [Hx| ->] Hxg; [by apply (Hg x)|by apply Hgl].
    + intros our e [[Hf Hc]|(x & Hx & Ha)]%Hmono; [by left|right]. exists x. split; [rewrite Hi; set_solver|done].
    + intros our e Ha. right. exists i. split; [rewrite Hi; set_solver|]. unfold d2. simpl. by rewrite Ht.
Qed.

Lemma foldl_enqueue_spec l : forall d, inv_ok d ->
  inv_ok (foldl enqueue d l) /\
  (forall our e, asks d our e -> asks (foldl enqueue d l) our e) /\
  (forall i our e, i ∈ l -> inst_asks i (target_cr3 d) our e -> asks (foldl enqueue d l) our e).
Proof.
  induction l as [|x l IH]; intros d Hd; simpl.
  { split_and!; [done..|]. set_solver. }
  destruct (enqueue_spec d x Hd) as (Hok & Ht & Hm & Hx). destruct (IH _ Hok) as (Hok' & Hm' & Hx').
  split_and!; [done|auto|]. intros i our e [->|Hi]%elem_of_cons Ha; [by apply Hm', Hx|]. apply (Hx' i); [done|by rewrite Ht].
Qed.

(** Merging two batches loses nothing: whatever either asks a processor to forget, the merged
    one asks too, and it is again well formed. *)
Lemma merge_keeps x y : inv_ok x -> inv_ok y ->
  inv_ok (merge x y) /\ forall our e, asks x our e \/ asks y our e -> asks (merge x y) our e.
Proof.
  intros Hx Hy. unfold merge. destruct (Z.eqb_spec (target_cr3 y) (target_cr3 x)) as [Ht|Ht]; simpl.
  2:{ split; [by apply set_full_ok, set_global_ok|]. intros. apply everything_asked. }
  set (x1 := if full y then set_full x else x). set (x2 := if global y then set_global x1 else x1).
  assert (inv_ok x1 /\ target_cr3 x1 = target_cr3 x /\ (forall our e, asks x our e -> asks x1 our e) /\ (full y = true -> full x1 = true)) as (H1 & T1 & M1 & F1).
  { unfold x1. destruct (full y); [|done]. split_and!; [by apply set_full_ok|done|intros; by apply set_full_asks|intros; apply full_set_full]. }
  assert (inv_ok x2 /\ target_cr3 x2 = target_cr3 x /\ (forall our e, asks x our e -> asks x2 our e) /\
    (full y = true -> full x2 = true) /\ (global y = true -> global x2 = true)) as (H2 & T2 & M2 & F2 & G2).
  { unfold x2. destruct (global y); [|done]. rewrite full_set_global.
    split_and!; [by apply set_global_ok|done|intros; by apply set_global_asks, M1|done|intros; apply global_set_global]. }
  clearbody x2. clear x1 H1 T1 M1 F1.
  assert (forall z, (full x2 = true -> full z = true) -> (global x2 = true -> global z = true) -> target_cr3 z = target_cr3 x ->
    forall our e, full y = true -> (global y = true \/ (our = target_cr3 y /\ t_global e = false)) -> asks z our e) as Hfull.
  { intros z Hf Hg Hz our e Hy1 Hy2. left. split; [auto|]. rewrite Hz. destruct Hy2 as [?|[-> ?]]; auto. }
  destruct (_ <? _)%nat.
  - split; [by apply set_full_ok|]. intros our e [Ha|[[Hf Hc]|(i & Hi & Hin & Hge & Ho)]].
    + by apply set_full_asks; auto.
    + eapply Hfull; eauto; intros; [apply full_set_full|by rewrite global_set_full].
    + left. rewrite full_set_full, global_set_full. split; [done|]. destruct Hy as (_ & _ & Hyg). simpl. rewrite T2.
      destruct (t_global e) eqn:E; [left; apply G2, (Hyg i Hi); auto|]. destruct Ho as [->|?]; [right; by rewrite Ht|left; apply G2, (Hyg i Hi); auto].
  - destruct (foldl_enqueue_spec (insts y) x2 H2) as (Hok & Hm & Hi). split; [done|].
    intros our e [Ha|[[Hf Hc]|(i & Hin & Ha)]]; [auto| |].
    + apply Hm. eapply Hfull; eauto.
    + apply (Hi i); [done|]. rewrite T2, <- Ht. done.
Qed.

(** A batch does what it asks. *)
Lemma do_invalidation_removes d our e : inv_ok d -> asks d our e -> removed (do_invalidation d our) e.
Proof.
  intros (Hl & Hn & Hg) Ha. unfold do_invalidation.
  assert (has_invalidations d = true) as ->.
  { unfold has_invalidations. destruct Ha as [[-> _]|(i & Hi & _)]; [apply orb_true_r|].
    unfold insts in Hi. destruct (len d); [by apply elem_of_nil in Hi|done]. }
  assert (negb (our =? target_cr3 d) && negb (global d) = false) as ->.
  { destruct Ha as [[_ [->|[-> _]]]|(i & Hi & _ & _ & [->|Hig])]; rewrite ?Z.eqb_refl, ?andb_false_r; try done.
    by rewrite (Hg i Hi Hig), andb_false_r. }
  simpl. destruct (full d) eqn:Ef.
  - destruct (global d) eqn:Eg; [exists GlobalInv; split; [by left|done]|]. exists NonGlobalInv. split; [by left|]. simpl.
    destruct Ha as [[_ [?|[_ ->]]]|(i & Hi & _ & Hge & _)]; [congruence|done|]. destruct (t_global e); [|done].
    specialize (Hg i Hi (Hge eq_refl)). congruence.
  - destruct Ha as [[? _]|(i & Hi & Hin & _)]; [congruence|]. exists (Invlpg i). split; [|done].
    apply list_elem_of_fmap. by exists i.
Qed.

(** ** Distribution through the slots *)

(** What a processor can see happen to its slots; [outstanding] is what was inserted since
    its last completion. *)
Record World := mkW { info : TlbShootdownInfo; outstanding : list TlbInvData }.

Inductive step : World -> World -> Prop :=
| step_insert s out d got_lock : inv_ok d ->
    step (mkW s out) (mkW (info_insert s d got_lock) (d :: out))
| step_complete s out our : step (mkW s out) (mkW (complete s our).2 []).

Definition slot_ok (o : option TlbInvData) : Prop := match o with Some d => inv_ok d | None => True end.

Definition slots_ask (slots : list (option TlbInvData)) our e : Prop := exists d, Some d ∈ slots /\ asks d our e.

Definition world_ok (w : World) : Prop :=
  length (data (info w)) = NUM_TLB_SHOOTDOWN_ENTRIES /\ Forall slot_ok (data (info w)) /\
  (full_invl (info w) = true \/ forall d our e, d ∈ outstanding w -> asks d our e -> slots_ask (data (info w)) our e).

Lemma slots_ask_cons o slots our e :
  slots_ask (o :: slots) our e <-> (exists d, o = Some d /\ asks d our e) \/ slots_ask slots our e.
Proof.
  unfold slots_ask. setoid_rewrite elem_of_cons. split.
  - intros (d & [Hd|Hd] & Ha); [left|right]; by exists d.
  - intros [(d & -> & Ha)|(d & Hd & Ha)]; exists d; auto.
Qed.

Lemma fill_slot_spec slots d slots' : fill_slot slots d = Some slots' -> inv_ok d -> Forall slot_ok slots ->
  length slots' = length slots /\ Forall slot_ok slots' /\
  forall our e, slots_ask slots our e \/ asks d our e -> slots_ask slots' our e.
Proof.
  revert slots'. induction slots as [|[x|] slots IH]; intros slots' E Hd Hs; simpl in E; [done| |].
  - apply fmap_Some in E as (r & Er & ->). apply Forall_cons in Hs as [Hx Hs]. destruct (IH r Er Hd Hs) as (Hl & Hok & Ha).
    split_and!; [simpl; by rewrite Hl|by constructor|]. intros our e. rewrite !slots_ask_cons. intros [[?|?]|?]; auto.
  - injection E as <-. apply Forall_cons in Hs as [_ Hs]. split_and!; [done|by constructor|].
    intros our e. rewrite !slots_ask_cons. intros [[(y & ? & _)|?]|?]; [done|auto|]. left. by exists d.
Qed.

Lemma merge_slot_spec slots d slots' : merge_slot slots d = Some slots' -> inv_ok d -> Forall slot_ok slots ->
  length slots' = length slots /\ Forall slot_ok slots' /\
  forall our e, slots_ask slots our e \/ asks d our e -> slots_ask slots' our e.
Proof.
  revert slots'. induction slots as [|[x|] slots IH]; intros slots' E Hd Hs; simpl in E; [done| |].
  - apply Forall_cons in Hs as [Hx Hs]. destruct (target_cr3 x =? target_cr3 d).
    + injection E as <-. destruct (merge_keeps x d Hx Hd) as [Hok Ha]. split_and!; [done|by constructor|].
      intros our e. rewrite !slots_ask_cons. intros [[(y & [= <-] & ?)|?]|?]; [|auto|]; left; eexists; split; [done|auto|done|auto].
    + apply fmap_Some in E as (r & Er & ->). destruct (IH r Er Hd Hs) as (Hl & Hok & Ha).
      split_and!; [simpl; by rewrite Hl|by constructor|]. intros our e. rewrite !slots_ask_cons. intros [[?|?]|?]; auto.
  - apply fmap_Some in E as (r & Er & ->). apply Forall_cons in Hs as [Hx Hs]. destruct (IH r Er Hd Hs) as (Hl & Hok & Ha).
    split_and!; [simpl; by rewrite Hl|by constructor|]. intros our e. rewrite !slots_ask_cons. intros [[?|?]|?]; auto.
Qed.

(** Slots without a free one are all in use. *)
Lemma fill_slot_None slots d : fill_slot slots d = None -> Forall (fun o => is_Some o) slots.
Proof.
  induction slots as [|[x|] slots IH]; simpl; [constructor| |done]. intros E%fmap_None. constructor; [done|auto].
Qed.

Lemma info_insert_spec s d got_lock : inv_ok d -> length (data s) = NUM_TLB_SHOOTDOWN_ENTRIES -> Forall slot_ok (data s) ->
  let s' := info_insert s d got_lock in
  length (data s') = NUM_TLB_SHOOTDOWN_ENTRIES /\ Forall slot_ok (data s') /\ (full_invl s = true -> full_invl s' = true) /\
  (full_invl s' = true \/ forall our e, slots_ask (data s) our e \/ asks d our e -> slots_ask (data s') our e).
Proof.
  intros Hd Hl Hs. unfold info_insert. destruct got_lock; simpl; [|by auto].
  destruct (fill_slot (data s) d) as [r|] eqn:E1.
  { destruct (fill_slot_spec _ _ _ E1 Hd Hs) as (? & ? & ?). simpl. split_and!; [congruence|done|done|auto]. }
  destruct (merge_slot (data s) d) as [r|] eqn:E2.
  { destruct (merge_slot_spec _ _ _ E2 Hd Hs) as (? & ? & ?). simpl. split_and!; [congruence|done|done|auto]. }
  apply fill_slot_None in E1. destruct (data s) as [|[x|] slots]; [done| |by apply Forall_cons in E1 as [[? ?] _]].
  apply Forall_cons in Hs as [Hx Hs]. destruct (merge_keeps x d Hx Hd) as [Hok Ha]. simpl.
  split_and!; [done|by constructor|done|]. right. intros our e. rewrite !slots_ask_cons.
  intros [[(y & [= <-] & ?)|?]|?]; [left; eexists; split; [done|auto]|auto|left; eexists; split; [done|auto]].
Qed.

Lemma complete_loop_removes slots our e : Forall slot_ok slots -> slots_ask slots our e ->
  removed (complete_loop slots our).1 e.
Proof.
  induction slots as [|[x|] slots IH]; intros Hs Ha; simpl.
  - destruct Ha as (d & Hd & _). by apply elem_of_nil in Hd.
  - apply Forall_cons in Hs as [Hx Hs]. destruct (full x && global x) eqn:Efg.
    + apply do_invalidation_removes; [done|]. apply andb_true_iff in Efg as [? ?]. left. auto.
    + destruct (complete_loop slots our) as [ops r] eqn:El. simpl in *. apply slots_ask_cons in Ha as [(d & [= <-] & Ha)|Ha].
      * destruct (do_invalidation_removes x our e Hx Ha) as (op & ? & ?). exists op. split; [set_solver|done].
      * destruct (IH Hs Ha) as (op & ? & ?). exists op. split; [set_solver|done].
  - apply Forall_cons in Hs as [_ Hs]. apply slots_ask_cons in Ha as [(d & ? & _)|Ha]; [done|by apply IH].
Qed.

Lemma world_ok_step w w' : world_ok w -> step w w' -> world_ok w'.
Proof.
  intros (Hl & Hs & Hc) Hst. destruct Hst as [s out d got_lock Hd|s out our]; simpl in *.
  - destruct (info_insert_spec s d got_lock Hd Hl Hs) as (Hl' & Hs' & Hf & Ha). split_and!; [done..|].
    destruct Ha as [?|Ha]; [by left|]. destruct Hc as [?|Hc]; [left; auto|right].
    intros x our e [->|Hx]%elem_of_cons Hax; apply Ha; [by right|left; by apply (Hc x)].
  - assert ((complete s our).2 = info_new) as -> by (unfold complete; by destruct (full_invl s)).
    split_and!; [done|by repeat constructor|right; set_solver].
Qed.

(** C28: TLB shootdown loses no invalidation.  However insertions from other processors (with or
    without the lock) and completions interleave, the next completion makes the processor
    forget every translation that a batch inserted since the last one asks it to forget;
    and [is_finished] reports true only when no such translation is left to forget. *)
Theorem shootdown_complete w our e d :
  rtc step (mkW info_new []) w -> d ∈ outstanding w -> asks d our e ->
  removed (complete (info w) our).1 e /\ is_finished (info w) = false.
Proof.
  intros Hr Hd Ha. assert (world_ok w) as (Hl & Hs & Hc).
  { eapply rtc_invariant; [| |exact Hr]; [|apply world_ok_step].
    split_and!; [done|by repeat constructor|right; set_solver]. }
  unfold complete, is_finished. destruct (full_invl (info w)) eqn:Ef.
  - split; [|done]. apply do_invalidation_removes; [apply set_full_ok, set_global_ok, inv_new_ok|apply everything_asked].
  - destruct Hc as [?|Hc]; [done|]. specialize (Hc d our e Hd Ha). split; [by apply complete_loop_removes|]. simpl.
    destruct Hc as (x & Hx & _). apply not_true_is_false. intros Hall. rewrite forallb_forall in Hall.
    specialize (Hall (Some x)). rewrite <- list_elem_of_In in Hall. by apply Hall in Hx.
Qed.

Lemma shootdown_complete_witness : exists w,
  rtc step (mkW info_new []) w /\ removed (complete (info w) 0x1000).1 (mkTlb 0x400000 0x1000 false) /\ is_finished (info w) = false.
Proof.
  set (d := enqueue (inv_new 0x1000) (inst_new 0x400000 false true 0)).
  assert (rtc step (mkW info_new []) (mkW (info_insert info_new d true) [d])) as Hr.
  { apply rtc_once. constructor. apply enqueue_spec, inv_new_ok. }
  exists (mkW (info_insert info_new d true) [d]). split; [exact Hr|].
  apply (shootdown_complete _ 0x1000 (mkTlb 0x400000 0x1000 false) d Hr); [by left|].
  right. exists (inst_new 0x400000 false true 0). split; [by left|]. split_and!; [reflexivity|done|by left].
Defined.

(** ** The packing of a command *)
Lemma addr_mask_bit m : 0 <= m -> Z.testbit ADDR_MASK m = (12 <=? m) && (m <? 64).
Proof.
  intros Hm. change ADDR_MASK with (Z.shiftl (Z.ones 52) 12). rewrite Z.shiftl_spec by done.
  destruct (Z.leb_spec 12 m); simpl.
  - rewrite Z.testbit_ones by lia. zbool. simpl. destruct (Z.ltb_spec (m - 12) 52), (Z.ltb_spec m 64); done || lia.
  - by rewrite Z.testbit_neg_r by lia.
Qed.

Lemma small_bit x n m : 0 <= x < 2 ^ n -> n <= m -> 0 <= n -> Z.testbit x m = false.
Proof. intros Hx Hm Hn. rewrite <- (Z.mod_small x (2 ^ n)) by done. by apply Z.mod_pow2_bits_high. Qed.

Lemma inst_bit a g t l m : 0 <= m -> 0 <= l < 256 ->
  Z.testbit (inst_new a g t l) m =
  (Z.testbit a m && (12 <=? m) && (m <? 64)) || (g && (m =? 0)) || (t && (m =? 1)) || ((2 <=? m) && Z.testbit l (m - 2)).
Proof.
  intros Hm Hl. unfold inst_new. rewrite !Z.lor_spec, Z.land_spec, addr_mask_bit, Z.shiftl_spec by done.
  rewrite andb_assoc. f_equal; [f_equal; [f_equal|]|].
  - destruct g; simpl; [|apply Z.bits_0]. change 1 with (2 ^ 0). rewrite Z.pow2_bits_eqb by done. by rewrite Z.eqb_sym.
  - destruct t; simpl; [|apply Z.bits_0]. change 2 with (2 ^ 1). rewrite Z.pow2_bits_eqb by done. by rewrite Z.eqb_sym.
  - destruct (Z.leb_spec 2 m); simpl; [done|]. by rewrite Z.testbit_neg_r by lia.
Qed.

(** A command unpacks to what was packed: the page of the address, both flags and the level. *)
Theorem inst_roundtrip a g t l : 0 <= a < 2 ^ 64 -> 0 <= l < 256 -> canonical (Z.land a ADDR_MASK) = true ->
  inst_addr (inst_new a g t l) = Ret (mkVirt (Z.land a ADDR_MASK)) /\
  inst_is_global (inst_new a g t l) = g /\ inst_is_terminal (inst_new a g t l) = t /\ inst_level (inst_new a g t l) = l.
Proof.
  intros Ha Hl Hc. split_and!.
  - unfold inst_addr. replace (Z.land (inst_new a g t l) ADDR_MASK) with (Z.land a ADDR_MASK).
    + unfold VirtAddr_new. by rewrite Hc.
    + apply Z.bits_inj'. intros m Hm. rewrite !Z.land_spec, inst_bit, addr_mask_bit by done.
      destruct (Z.leb_spec 12 m); simpl; rewrite ?andb_false_r; [|done]. destruct (Z.ltb_spec m 64); rewrite ?andb_false_r; [|done].
      zbool. rewrite !andb_false_r, !orb_false_r, !andb_true_r. rewrite (small_bit l 8) by lia. by rewrite orb_false_r.
  - unfold inst_is_global. change 1 with (2 ^ 0). rewrite land_bit, inst_bit by done.
    by destruct g, t, (Z.testbit a 0).
  - unfold inst_is_terminal. change 2 with (2 ^ 1). rewrite land_bit, inst_bit by done.
    by destruct g, t, (Z.testbit a 1).
  - unfold inst_level. rewrite (land_mask _ 8) by done. apply Z.bits_inj'. intros m Hm.
    destruct (decide (m < 8)).
    + rewrite Z.mod_pow2_bits_low by done. rewrite Z.shiftr_spec, inst_bit by lia. zbool.
      rewrite !andb_false_r, !andb_false_l, !orb_false_l, andb_true_l. f_equal. lia.
    + rewrite Z.mod_pow2_bits_high by lia. symmetry. apply (small_bit l 8); lia.
Qed.

Lemma inst_roundtrip_witness :
  inst_addr (inst_new 0x7fff12345678 true false 3) = Ret (mkVirt 0x7fff12345000) /\
  inst_is_global (inst_new 0x7fff12345678 true false 3) = true /\
  inst_is_terminal (inst_new 0x7fff12345678 true false 3) = false /\ inst_level (inst_new 0x7fff12345678 true false 3) = 3.
Proof. apply (inst_roundtrip 0x7fff12345678 true false 3); [lia|lia|reflexivity]. Defined.

(** ** Cache lines *)
Definition all_lines (c : CacheLines) : list Z := flushed (do_flush c).

(** Every line asked for has been flushed once the manager is dropped, and no other. *)
Lemma cl_flush_lines ls : forall c x, x ∈ all_lines (foldl cl_flush c ls) <-> x ∈ all_lines c \/ x ∈ line_of <$> ls.
Proof.
  induction ls as [|l ls IH]; intros c x; simpl; [set_solver|]. rewrite IH, elem_of_cons.
  assert (x ∈ all_lines (cl_flush c l) <-> x ∈ all_lines c \/ x = line_of l) as ->; [|tauto].
  unfold all_lines, cl_flush, do_flush. destruct c as [[d|] fl]; simpl; [|set_solver].
  destruct (Z.eqb_spec d (line_of l)) as [->|]; simpl; set_solver.
Qed.
End Tlb.
