(* ===== verification/PageTable.v ===== *)
(** * Page tables

    The entries of [src/src/kernel/src/arch/amd64/memory/pagetables/entry.rs] and tables of
    [.../table.rs], and the recursive operations of
    [src/src/kernel/src/memory/pagetables/{table,cursor,mapper,phys_provider}.rs] on them.
    Tables live in physical memory, a map from the address of a table to its 512 words;
    an operation receives the address of its table, as the code does.  The effects on
    caches and the TLB, and the frames to free, are recorded in order. *)
From S2P Require Import Prelude Address.

#[local] Open Scope Z_scope.

Module PageTable.
Import Address.

(** ** Settings (memory/pagetables/settings.rs) *)

(** [Protections] of the runtime ABI. *)
Record Protections := mkProt { p_read : bool; p_write : bool; p_exec : bool }.

Inductive CacheType := WriteBack | WriteCombining | WriteThrough | Uncacheable | MemoryMappedIO.

(** [MappingFlags] *)
Record MappingFlags := mkMF { mf_global : bool; mf_user : bool }.

Record MappingSettings := mkSettings { perms : Protections; cache : CacheType; mflags : MappingFlags }.

#[global] Instance Protections_eq_dec : EqDecision Protections.
Proof. solve_decision. Defined.
#[global] Instance CacheType_eq_dec : EqDecision CacheType.
Proof. solve_decision. Defined.
#[global] Instance MappingFlags_eq_dec : EqDecision MappingFlags.
Proof. solve_decision. Defined.
#[global] Instance MappingSettings_eq_dec : EqDecision MappingSettings.
Proof. solve_decision. Defined.

(** ** Entries (arch/amd64/memory/pagetables/entry.rs) *)
Definition PRESENT : Z := 2 ^ 0.
Definition WRITE : Z := 2 ^ 1.
Definition USER : Z := 2 ^ 2.
Definition WRITE_THROUGH : Z := 2 ^ 3.
Definition CACHE_DISABLE : Z := 2 ^ 4.
Definition ACCESSED : Z := 2 ^ 5.
Definition DIRTY : Z := 2 ^ 6.
Definition HUGE_PAGE : Z := 2 ^ 7.
Definition GLOBAL : Z := 2 ^ 8.
Definition AVAIL_1 : Z := 2 ^ 9.
Definition SHARED_PAGE_TABLE : Z := 2 ^ 10.
Definition NO_EXECUTE : Z := 2 ^ 63.

(** Every bit [EntryFlags] names. *)
Definition ALL_FLAGS : Z := (2 ^ 11 - 1) + 2 ^ 63.

Definition ADDR_MASK : Z := 0x000ffffffffff000.

(** [EntryFlags::contains] of one flag *)
Definition contains (flags f : Z) : bool := negb (Z.land flags f =? 0).

(** [Entry::flags] ([from_bits_truncate]) *)
Definition entry_flags (e : Z) : Z := Z.land e ALL_FLAGS.
(** [Entry::addr] and [table_addr].  The code unwraps [PhysAddr::new] of it: the addresses of
    entries are written from values of [PhysAddr], so that this cannot fail. *)
Definition entry_addr (e : Z) : Z := Z.land e ADDR_MASK.
(** [Entry::new_internal] *)
Definition new_internal (addr flags : Z) : Z := Z.lor addr flags.
(** [Entry::new] *)
Definition entry_new (addr flags : Z) : Z := new_internal addr (Z.lor flags PRESENT).
(** [Entry::new_unused] *)
Definition new_unused : Z := 0.
(** [Entry::set_flags] *)
Definition set_flags (e flags : Z) : Z := new_internal (entry_addr e) flags.
(** [Entry::get_avail_bit] *)
Definition get_avail_bit (e : Z) : bool := contains (entry_flags e) AVAIL_1.
(** [Entry::set_avail_bit] *)
Definition set_avail_bit (e : Z) (value : bool) : Z :=
  set_flags e (if value then Z.lor (entry_flags e) AVAIL_1 else Z.ldiff (entry_flags e) AVAIL_1).
(** [Entry::is_huge] and [is_present] *)
Definition is_huge (e : Z) : bool := contains (entry_flags e) HUGE_PAGE.
Definition is_present (e : Z) : bool := contains (entry_flags e) PRESENT.
Definition is_shared (e : Z) : bool := contains (entry_flags e) SHARED_PAGE_TABLE.

(** [EntryFlags::flags], [perms], [cache_type] and [settings] *)
Definition flags_flags (f : Z) : MappingFlags := mkMF (contains f GLOBAL) (contains f USER).
Definition flags_perms (f : Z) : Protections := mkProt true (contains f WRITE) (negb (contains f NO_EXECUTE)).
Definition flags_cache (f : Z) : CacheType :=
  if contains f CACHE_DISABLE then Uncacheable else if contains f WRITE_THROUGH then WriteThrough else WriteBack.
Definition flags_settings (f : Z) : MappingSettings := mkSettings (flags_perms f) (flags_cache f) (flags_flags f).

(** [EntryFlags::intermediate], [huge] and [leaf] *)
Definition intermediate : Z := Z.lor (Z.lor USER WRITE) PRESENT.
Definition huge : Z := HUGE_PAGE.
Definition leaf : Z := 0.

(** [From<&MappingSettings> for EntryFlags] *)
Definition flags_from (s : MappingSettings) : outcome Z :=
  let! c := match cache s with
            | WriteBack => Ret 0
            | WriteThrough => Ret WRITE_THROUGH
            | WriteCombining => Ret 0
            | Uncacheable => Ret CACHE_DISABLE
            | MemoryMappedIO => Panic
            end in
  let p := Z.lor (if p_write (perms s) then WRITE else 0) (if p_exec (perms s) then 0 else NO_EXECUTE) in
  let f := if mf_global (mflags s) then GLOBAL else 0 in
  let u := if mf_user (mflags s) then USER else 0 in
  Ret (Z.lor (Z.lor (Z.lor p c) f) u).

(** ** Tables (arch/amd64/memory/pagetables/table.rs) *)
Abbreviation Table := (list Z) (only parsing).

Definition PAGE_TABLE_ENTRIES : nat := 512.
Definition TOP_LEVEL : nat := 3.

(** [Table::can_map_at_level] *)
Definition can_map_at_level (level : nat) : bool := (level <=? 2)%nat.

(** [self[i]] *)
Definition entry_at (t : Table) (i : nat) : Z := t !!! i.

(** The loop of [Table::set_count] over the bits [b], ..., [15]. *)
Fixpoint set_count_loop (n : nat) (b : nat) (t : Table) (count : Z) : Table :=
  match n with
  | O => t
  | S n => set_count_loop n (S b) (<[b := set_avail_bit (entry_at t b) (Z.testbit count (Z.of_nat b))]> t) count
  end.

(** [Table::set_count] *)
Definition set_count (t : Table) (count : Z) : Table := set_count_loop 16 0 t count.

(** [Table::read_count] *)
Fixpoint read_count_loop (n : nat) (b : nat) (t : Table) (count : Z) : Z :=
  match n with
  | O => count
  | S n => read_count_loop n (S b) t (Z.lor count (Z.shiftl (Z.b2z (get_avail_bit (entry_at t b))) (Z.of_nat b)))
  end.

Definition read_count (t : Table) : Z := read_count_loop 16 0 t 0.

(** [Table::level_to_page_size] *)
Definition level_to_page_size (level : nat) : Z := Z.shiftl 1 (12 + 9 * Z.of_nat level).

(** [Table::get_index] *)
Definition get_index (addr : Z) (level : nat) : nat :=
  Z.to_nat (Z.land (Z.shiftr addr (12 + 9 * Z.of_nat level)) 0x1ff).

(** ** Cursors (memory/pagetables/cursor.rs) *)
Record MappingCursor := mkCursor { c_start : Z; c_len : Z }.

(** [MappingCursor::advance] *)
Definition advance `{Build} (c : MappingCursor) (len : Z) : outcome (option MappingCursor) :=
  if c_len c <=? len then Ret None
  else
    let! r := VirtAddr_offset (mkVirt (c_start c)) (Usize len) in
    match r with
    | Ok v => Ret (Some (mkCursor (vraw v) (c_len c - len)))
    | Err _ => Ret None
    end.

(** [MappingCursor::align_advance] *)
Definition align_advance `{Build} (c : MappingCursor) (len : Z) : outcome (option MappingCursor) :=
  let! r := VirtAddr_align_up (mkVirt (c_start c)) len in
  match r with
  | Err _ => Ret None
  | Ok v =>
      if vraw v =? c_start c then
        if c_len c <=? len then Ret None
        else
          let! r := VirtAddr_offset (mkVirt (c_start c)) (Usize len) in
          match r with
          | Ok v => Ret (Some (mkCursor (vraw v) (c_len c - len)))
          | Err _ => Ret None
          end
      else
        let! thislen := VirtAddr_sub v (mkVirt (c_start c)) in
        if c_len c <=? thislen then Ret None
        else Ret (Some (mkCursor (vraw v) (c_len c - thislen)))
  end.

(** ** Physical memory to map (memory/pagetables/phys_provider.rs) *)
Record PhysMapInfo := mkPhysInfo { pm_addr : Z; pm_len : Z; pm_settings : MappingSettings }.

(** The trait [PhysAddrProvider] *)
Class PhysAddrProvider (P : Type) := { peek : P -> option PhysMapInfo * P; consume : P -> Z -> P }.

(** [ContiguousProvider]; [bits] is the width of physical addresses. *)
Record ContiguousProvider := mkContig { next : option Z; rem : Z; cp_settings : MappingSettings }.

#[global] Instance contiguous_provider (bits : Z) : PhysAddrProvider ContiguousProvider := {
  peek p := ((fun a => mkPhysInfo a (rem p) (cp_settings p)) <$> next p, p);
  consume p len :=
    match next p with
    | Some n =>
        match checked_add 64 n len with
        | Some m =>
            match PhysAddr_new bits m with
            | Ok m => mkContig (Some (praw m)) (saturating_sub (rem p) len) (cp_settings p)
            | Err _ => p
            end
        | None => p
        end
    | None => p
    end }.

(** ** The state an operation works on *)

(** [Consistency]: the entries whose cache line is to be flushed, the TLB invalidations and
    the frames to free, in the order they were recorded. *)
Record Consistency := mkConsist {
  lines : list (Z * nat); invalidations : list (Z * bool * bool * nat); freed : list Z }.

(** Physical memory, the record of effects, and the zeroed frames the allocator has left. *)
Record PtState := mkPt { tables : gmap Z Table; consist : Consistency; frames : list Z }.

Definition put (s : PtState) (a : Z) (t : Table) : PtState := mkPt (<[a := t]> (tables s)) (consist s) (frames s).
Definition with_consist (s : PtState) (c : Consistency) : PtState := mkPt (tables s) c (frames s).

(** [Consistency::flush], [enqueue] and [free_frame] *)
Definition flush (c : Consistency) (a : Z) (i : nat) : Consistency := mkConsist (lines c ++ [(a, i)]) (invalidations c) (freed c).
Definition enqueue (c : Consistency) (vaddr : Z) (g term : bool) (level : nat) : Consistency :=
  mkConsist (lines c) (invalidations c ++ [(vaddr, g, term, level)]) (freed c).
Definition free_frame (c : Consistency) (f : Z) : Consistency := mkConsist (lines c) (invalidations c) (freed c ++ [f]).

(** The table at an address; dereferencing anything else is not possible. *)
Definition table_of (s : PtState) (a : Z) : outcome Table := unwrap (tables s !! a).

(** [Table::next_table], as the address of the next table *)
Definition next_table (t : Table) (index : nat) : option Z :=
  let e := entry_at t index in
  if negb (is_present e) || is_huge e then None else Some (entry_addr e).

(** ** The recursive operations (memory/pagetables/table.rs) *)
Section ops.
Context `{Build}.

(** [Table::can_map_at] *)
Definition can_map_at (vaddr paddr remain phys_len : Z) (level : nat) : bool :=
  let page_size := level_to_page_size level in
  (vaddr mod page_size =? 0) && (page_size <=? remain) && (paddr mod page_size =? 0) &&
  can_map_at_level level && (page_size <=? phys_len).

(** [Table::populate] *)
Definition populate (s : PtState) (a : Z) (index : nat) (flags : Z) : outcome (option unit * PtState) :=
  let! t := table_of s a in
  let count := read_count t in
  if negb (is_present (entry_at t index)) then
    match frames s with
    | [] => Ret (None, s)
    | f :: fs =>
        let t := set_count (<[index := entry_new f flags]> t) (count + 1) in
        Ret (Some tt, mkPt (<[f := replicate PAGE_TABLE_ENTRIES 0]> (<[a := t]> (tables s))) (consist s) fs)
    end
  else Ret (Some tt, s).

(** [Table::update_entry] *)
Definition update_entry (s : PtState) (a : Z) (index : nat) (new_entry : Z) (vaddr : Z) (was_terminal : bool) (level : nat)
  : outcome PtState :=
  let! t := table_of s a in
  let count := read_count t in
  let entry := entry_at t index in
  if entry =? new_entry then Ret s
  else
    let was_present := is_present entry in
    let was_global := mf_global (mflags (flags_settings (entry_flags entry))) in
    let t := <[index := new_entry]> t in
    let c := flush (consist s) a index in
    let c := if was_present then enqueue c vaddr was_global was_terminal level else c in
    let! count :=
      if was_present && negb (is_present new_entry) then chk 64 (count - 1)
      else if negb was_present && is_present new_entry then chk 64 (count + 1)
      else Ret count in
    Ret (put (with_consist s c) a (set_count t count)).

(** The body of the loop of [Table::unmap]; [rec] is the operation on the next level. *)
Definition unmap_entry (rec : PtState -> Z -> MappingCursor -> outcome PtState) (level : nat) (idx : nat)
  (s : PtState) (a : Z) (cursor : MappingCursor) : outcome PtState :=
  let! t := table_of s a in
  let entry := entry_at t idx in
  let leaf_here := (is_huge entry && can_map_at_level level) || (level =? 0)%nat in
  if is_present entry && leaf_here then update_entry s a idx new_unused (c_start cursor) true level
  else if is_present entry && negb (level =? 0)%nat then
    if negb (is_shared entry) then
      let! next := unwrap (next_table t idx) in
      let! s := rec s next cursor in
      let! nt := table_of s next in
      if (read_count nt =? 0) && negb (level =? TOP_LEVEL)%nat then
        update_entry (with_consist s (free_frame (consist s) next)) a idx new_unused (c_start cursor) false level
      else Ret s
    else Ret s
  else Ret s.

Fixpoint unmap_loop (rec : PtState -> Z -> MappingCursor -> outcome PtState) (level : nat) (n : nat) (idx : nat)
  (s : PtState) (a : Z) (cursor : MappingCursor) : outcome PtState :=
  match n with
  | O => Ret s
  | S n =>
      let! s := unmap_entry rec level idx s a cursor in
      let! c := align_advance cursor (level_to_page_size level) in
      match c with
      | Some cursor => unmap_loop rec level n (S idx) s a cursor
      | None => Ret s
      end
  end.

(** [Table::unmap] *)
Fixpoint unmap (level : nat) (s : PtState) (a : Z) (cursor : MappingCursor) : outcome PtState :=
  let start_index := get_index (c_start cursor) level in
  unmap_loop (match level with O => fun _ _ _ => Panic | S l => unmap l end) level
    (PAGE_TABLE_ENTRIES - start_index) start_index s a cursor.

(** The loop of [Table::change] *)
Fixpoint change_loop (rec : PtState -> Z -> MappingCursor -> outcome PtState) (settings : MappingSettings) (level : nat)
  (n : nat) (idx : nat) (s : PtState) (a : Z) (cursor : MappingCursor) : outcome PtState :=
  match n with
  | O => Ret s
  | S n =>
      let! t := table_of s a in
      let entry := entry_at t idx in
      let leaf_here := (is_huge entry && can_map_at_level level) || (level =? 0)%nat in
      let! s :=
        if is_present entry && leaf_here then
          let! f := flags_from settings in
          update_entry s a idx (entry_new (entry_addr entry) (Z.lor f (if (level =? 0)%nat then leaf else huge)))
            (c_start cursor) true level
        else if is_present entry && negb (level =? 0)%nat then
          let! next := unwrap (next_table t idx) in rec s next cursor
        else Ret s in
      let! c := align_advance cursor (level_to_page_size level) in
      match c with
      | Some cursor => change_loop rec settings level n (S idx) s a cursor
      | None => Ret s
      end
  end.

(** [Table::change] *)
Fixpoint change (settings : MappingSettings) (level : nat) (s : PtState) (a : Z) (cursor : MappingCursor) : outcome PtState :=
  let start_index := get_index (c_start cursor) level in
  change_loop (match level with O => fun _ _ _ => Panic | S l => change settings l end) settings level
    (PAGE_TABLE_ENTRIES - start_index) start_index s a cursor.

(** [MapInfo] *)
Record MapInfo := mkMapInfo { mi_vaddr : Z; mi_paddr : Z; mi_settings : MappingSettings; psize : Z; is_shared_pt : bool }.

(** [Table::readmap] *)
Fixpoint readmap (level : nat) (s : PtState) (a : Z) (cursor : MappingCursor) : outcome (result MapInfo Z) :=
  let! t := table_of s a in
  let index := get_index (c_start cursor) level in
  let entry := entry_at t index in
  let leaf_here := (is_huge entry && can_map_at_level level) || (level =? 0)%nat in
  if is_present entry && leaf_here then
    Ret (Ok (mkMapInfo (c_start cursor) (entry_addr entry) (flags_settings (entry_flags entry)) (level_to_page_size level) (is_shared entry)))
  else if is_present entry then
    match level with
    | O => Ret (Err (level_to_page_size level))
    | S l => let! next := unwrap (next_table t index) in readmap l s next cursor
    end
  else Ret (Err (level_to_page_size level)).

Section map.
Context `{PhysAddrProvider P}.

(** The loop of [Table::map]; what the next level returns is not looked at. *)
Fixpoint map_loop (rec : PtState -> P -> Z -> MappingCursor -> outcome (option unit * PtState * P)) (level : nat) (n : nat) (idx : nat)
  (s : PtState) (phys : P) (a : Z) (cursor : MappingCursor) : outcome (option unit * PtState * P) :=
  match n with
  | O => Ret (Some tt, s, phys)
  | S n =>
      let! t := table_of s a in
      let entry := entry_at t idx in
      let leaf_here := (is_huge entry && can_map_at_level level) || (level =? 0)%nat in
      let (info, phys) := peek phys in
      match info with
      | None => Ret (None, s, phys)
      | Some paddr =>
          let! (ok, s, phys) :=
            if is_present entry && leaf_here then Ret (Some tt, s, consume phys (level_to_page_size level))
            else if can_map_at (c_start cursor) (pm_addr paddr) (c_len cursor) (pm_len paddr) level then
              let! f := flags_from (pm_settings paddr) in
              let! s := update_entry s a idx (entry_new (pm_addr paddr) (Z.lor f (if (level =? 0)%nat then leaf else huge)))
                          (c_start cursor) true level in
              Ret (Some tt, s, consume phys (level_to_page_size level))
            else
              let! _ := rassert (negb (level =? 0)%nat) in
              let! (p, s) := populate s a idx intermediate in
              match p with
              | None => Ret (None, s, phys)
              | Some _ =>
                  let! t := table_of s a in
                  let! next := unwrap (next_table t idx) in
                  let! (_, s, phys) := rec s phys next cursor in
                  Ret (Some tt, s, phys)
              end in
          match ok with
          | None => Ret (None, s, phys)
          | Some _ =>
              let! c := align_advance cursor (level_to_page_size level) in
              match c with
              | Some cursor => map_loop rec level n (S idx) s phys a cursor
              | None => Ret (Some tt, s, phys)
              end
          end
      end
  end.

(** [Table::map] *)
Fixpoint map (level : nat) (s : PtState) (phys : P) (a : Z) (cursor : MappingCursor) : outcome (option unit * PtState * P) :=
  let start_index := get_index (c_start cursor) level in
  map_loop (match level with O => fun _ _ _ _ => Panic | S l => map l end) level
    (PAGE_TABLE_ENTRIES - start_index) start_index s phys a cursor.
End map.

(** [SharedPageTable], as far as mapping it goes: its root and its level. *)
Record SharedPageTable := mkSpt { spt_root : Z; spt_level : nat }.

(** [Table::shared_map] *)
Fixpoint shared_map (level : nat) (s : PtState) (a : Z) (cursor : MappingCursor) (spt : SharedPageTable)
  : outcome (option unit * PtState) :=
  let index := get_index (c_start cursor) level in
  if (level =? spt_level spt + 1)%nat then
    let! s := update_entry s a index (entry_new (spt_root spt) (Z.lor intermediate SHARED_PAGE_TABLE)) (c_start cursor) false level in
    Ret (Some tt, s)
  else if (spt_level spt + 1 <? level)%nat then
    match level with
    | O => Panic
    | S l =>
        let! (p, s) := populate s a index intermediate in
        match p with
        | None => Ret (None, s)
        | Some _ =>
            let! t := table_of s a in
            let! next := unwrap (next_table t index) in
            let! (_, s) := shared_map l s next cursor spt in
            Ret (Some tt, s)
        end
    end
  else Panic.

(** ** The mapper (memory/pagetables/mapper.rs) *)
Record Mapper := mkMapper { root : Z; start_level : nat }.

(** [Mapper::new] *)
Definition Mapper_new (root : Z) : Mapper := mkMapper root TOP_LEVEL.

(** [Consistency::new] *)
Definition consist_new : Consistency := mkConsist [] [] [].

(** [Mapper::set_top_level_table] *)
Definition set_top_level_table (m : Mapper) (s : PtState) (index : nat) (entry : Z) : outcome PtState :=
  let! t := table_of s (root m) in
  let was_present := is_present (entry_at t index) in
  let count := read_count t in
  let t := <[index := entry]> t in
  let! count :=
    if was_present && negb (is_present entry) then chk 64 (count - 1)
    else if negb was_present && is_present entry then chk 64 (count + 1)
    else Ret count in
  Ret (put s (root m) (set_count t count)).

(** [Mapper::get_top_level_table] *)
Definition get_top_level_table (m : Mapper) (s : PtState) (index : nat) : outcome Z :=
  let! t := table_of s (root m) in Ret (entry_at t index).

(** [Mapper::map], with the [Consistency] of the caller in the state *)
Definition mapper_map `{PhysAddrProvider P} (m : Mapper) (s : PtState) (phys : P) (cursor : MappingCursor)
  : outcome (result unit (list Z) * PtState * P) :=
  let! (ok, s, phys) := map (start_level m) s phys (root m) cursor in
  Ret (match ok with None => Err (freed (consist s)) | Some _ => Ok tt end, s, phys).

(** [Mapper::unmap]: the frames to free are returned. *)
Definition mapper_unmap (m : Mapper) (s : PtState) (cursor : MappingCursor) : outcome (list Z * PtState) :=
  let! s := unmap (start_level m) (with_consist s consist_new) (root m) cursor in
  Ret (freed (consist s), s).

(** [Mapper::change] *)
Definition mapper_change (m : Mapper) (s : PtState) (cursor : MappingCursor) (settings : MappingSettings) : outcome PtState :=
  change settings (start_level m) (with_consist s consist_new) (root m) cursor.

(** [Mapper::shared_map] *)
Definition mapper_shared_map (m : Mapper) (s : PtState) (cursor : MappingCursor) (spt : SharedPageTable) : outcome (list Z * PtState) :=
  let! (_, s) := shared_map (start_level m) (with_consist s consist_new) (root m) cursor spt in
  Ret (freed (consist s), s).

(** [Mapper::do_read_map] *)
Definition do_read_map (m : Mapper) (s : PtState) (cursor : MappingCursor) : outcome (result MapInfo Z) :=
  readmap (start_level m) s (root m) cursor.

(** ** Reading maps (memory/pagetables/reader.rs) *)

(** [MapReader::next]; the cursor left is returned with the mapping found. *)
Fixpoint reader_next (fuel : nat) (m : Mapper) (s : PtState) (cursor : option MappingCursor)
  : outcome (option MapInfo * option MappingCursor) :=
  match fuel with
  | O => NoFuel
  | S fuel =>
      match cursor with
      | None => Ret (None, None)
      | Some c =>
          if c_len c =? 0 then Ret (None, cursor)
          else
            let! info := do_read_map m s c in
            match info with
            | Ok info => let! c := advance c (psize info) in Ret (Some info, c)
            | Err skip => let! c := advance c skip in reader_next fuel m s c
            end
      end
  end.

(** The condition under which [MapCoalescer::next] joins two mappings; [bits] is the width of
    physical addresses. *)
Definition adjoins (bits : Z) (last next : MapInfo) : outcome bool :=
  let! v := VirtAddr_offset (mkVirt (mi_vaddr last)) (Usize (psize last)) in
  let! p := PhysAddr_offset bits (mkPhys (mi_paddr last)) (Usize (psize last)) in
  Ret match v, p with
      | Ok v, Ok p => (vraw v =? mi_vaddr next) && bool_decide (mi_settings last = mi_settings next) && (praw p =? mi_paddr next)
      | _, _ => false
      end.

(** [MapCoalescer::next]; the reader's cursor and the mapping held back are returned with the
    mapping found. *)
Fixpoint coalesce_next (bits : Z) (fuel : nat) (m : Mapper) (s : PtState) (cursor : option MappingCursor) (last : option MapInfo)
  : outcome (option MapInfo * option MappingCursor * option MapInfo) :=
  match fuel with
  | O => NoFuel
  | S fuel' =>
      let! (next, cursor) := reader_next fuel m s cursor in
      match next with
      | Some next =>
          match last with
          | Some last =>
              let! adj := adjoins bits last next in
              if adj : bool then
                let! sz := chk 64 (psize last + psize next) in
                coalesce_next bits fuel' m s cursor
                  (Some (mkMapInfo (mi_vaddr last) (mi_paddr last) (mi_settings last) sz (is_shared_pt last)))
              else Ret (Some last, cursor, Some next)
          | None => coalesce_next bits fuel' m s cursor (Some next)
          end
      | None => Ret (last, cursor, None)
      end
  end.
End ops.
End PageTable.
