(* ===== verification/PageTableInv.v ===== *)
(** * Page tables: well-formed trees, translation, and unmapping

    The own tables below a root form a tree; entries may link shared tables, which belong to
    nobody's tree.  [walk] follows the own tables and ends at a link, [translate] is what
    the processor sees.  Unmapping a region removes exactly the translations of the own tables
    that meet it and leaves those through a linked table; it queues a TLB invalidation for
    each, and hands back exactly the own tables that are no longer reachable. *)
From S2P Require Import Prelude Address PageTable.

#[local] Open Scope Z_scope.

Module PageTableInv.
Import Address PageTable.

(** ** Entries up to the bit that stores the count *)
Definition NORM : Z := ALL_FLAGS + ADDR_MASK - AVAIL_1.
Definition norm (e : Z) : Z := Z.land e NORM.

(** The bits [NORM] keeps. *)
Definition kept (k : Z) : bool := (k <? 9) || (k =? 10) || ((12 <=? k) && (k <? 52)) || (k =? 63).

Lemma bit_of_mask (m : Z) (p : Z -> bool) : 0 <= m < 2 ^ 64 ->
  forallb (fun k => Bool.eqb (Z.testbit m (Z.of_nat k)) (p (Z.of_nat k))) (seq 0 64) = true ->
  (forall k, 64 <= k -> p k = false) -> forall k, 0 <= k -> Z.testbit m k = p k.
Proof.
  intros Hm Hall Hp k Hk. destruct (decide (k < 64)).
  - rewrite forallb_forall in Hall. specialize (Hall (Z.to_nat k)).
    rewrite Z2Nat.id in Hall by done. apply eqb_prop, Hall, in_seq. lia.
  - rewrite Hp by lia. rewrite <- (Z.mod_small m (2 ^ 64)) by done. by apply Z.mod_pow2_bits_high; lia.
Qed.

Lemma norm_bit e k : 0 <= k -> Z.testbit (norm e) k = Z.testbit e k && kept k.
Proof.
  intros Hk. unfold norm. rewrite Z.land_spec. f_equal. revert k Hk. apply bit_of_mask; [by split; vm_compute|reflexivity|].
  intros k Hk. unfold kept. zbool. by rewrite andb_false_r.
Qed.

Definition flag_bit (k : Z) : bool := (k <? 11) || (k =? 63).
Definition addr_bit (k : Z) : bool := (12 <=? k) && (k <? 52).

Lemma flags_bit e k : 0 <= k -> Z.testbit (entry_flags e) k = Z.testbit e k && flag_bit k.
Proof.
  intros Hk. unfold entry_flags. rewrite Z.land_spec. f_equal. revert k Hk. apply bit_of_mask; [by split; vm_compute|reflexivity|].
  intros k Hk. unfold flag_bit. by zbool.
Qed.

Lemma addr_bits e k : 0 <= k -> Z.testbit (entry_addr e) k = Z.testbit e k && addr_bit k.
Proof.
  intros Hk. unfold entry_addr. rewrite Z.land_spec. f_equal. revert k Hk. apply bit_of_mask; [by split; vm_compute|reflexivity|].
  intros k Hk. unfold addr_bit. zbool. by rewrite andb_false_r.
Qed.

Lemma contains_bit f k : 0 <= k -> contains f (2 ^ k) = Z.testbit f k.
Proof. intros Hk. unfold contains. rewrite land_bit by done. apply negb_involutive. Qed.

(** A flag other than the count's is read from the normalised entry. *)
Lemma flag_norm e k : 0 <= k -> flag_bit k = true -> k <> 9 -> contains (entry_flags e) (2 ^ k) = Z.testbit (norm e) k.
Proof.
  intros Hk Hf Hne. rewrite contains_bit, flags_bit, norm_bit by done. rewrite Hf. f_equal. unfold flag_bit in Hf. unfold kept.
  destruct (Z.ltb_spec k 9), (Z.ltb_spec k 11), (Z.eqb_spec k 10), (Z.eqb_spec k 63), (Z.leb_spec 12 k), (Z.ltb_spec k 52); try done; lia.
Qed.

Lemma addr_norm e : entry_addr (norm e) = entry_addr e.
Proof.
  apply Z.bits_inj'. intros k Hk. rewrite !addr_bits, norm_bit by done. unfold addr_bit, kept.
  destruct (Z.leb_spec 12 k), (Z.ltb_spec k 52); simpl; rewrite ?andb_false_r; try done. zbool. simpl. by rewrite andb_true_r.
Qed.

Definition npresent (n : Z) : bool := Z.testbit n 0.
Definition nhuge (n : Z) : bool := Z.testbit n 7.
Definition nshared (n : Z) : bool := Z.testbit n 10.
Definition nglobal (n : Z) : bool := Z.testbit n 8.

Lemma present_norm e : is_present e = npresent (norm e).
Proof. apply (flag_norm e 0); done. Qed.
Lemma huge_norm e : is_huge e = nhuge (norm e).
Proof. apply (flag_norm e 7); done. Qed.
Lemma shared_norm e : is_shared e = nshared (norm e).
Proof. apply (flag_norm e 10); done. Qed.
Lemma global_norm e : mf_global (mflags (flags_settings (entry_flags e))) = nglobal (norm e).
Proof. apply (flag_norm e 8); done. Qed.

Lemma set_avail_bits e v k : 0 <= k ->
  Z.testbit (set_avail_bit e v) k = if k =? 9 then v else Z.testbit e k && (flag_bit k || addr_bit k).
Proof.
  intros Hk. unfold set_avail_bit, set_flags, new_internal. rewrite Z.lor_spec, addr_bits by done.
  assert (Z.testbit (if v then Z.lor (entry_flags e) AVAIL_1 else Z.ldiff (entry_flags e) AVAIL_1) k =
    if k =? 9 then v else Z.testbit e k && flag_bit k) as ->.
  { unfold AVAIL_1. destruct v; rewrite ?testbit_lor_bit, ?testbit_ldiff_bit, flags_bit by done;
      destruct (Z.eqb_spec k 9) as [->|].
    - by rewrite orb_true_r.
    - rewrite bool_decide_eq_false_2 by lia. apply orb_false_r.
    - by rewrite andb_false_r.
    - rewrite bool_decide_eq_true_2 by lia. apply andb_true_r. }
  destruct (Z.eqb_spec k 9) as [->|]; [by rewrite andb_false_r|]. rewrite orb_comm. by destruct (Z.testbit e k).
Qed.

Lemma set_avail_norm e v : norm (set_avail_bit e v) = norm e.
Proof.
  apply Z.bits_inj'. intros k Hk. rewrite !norm_bit, set_avail_bits by done. destruct (Z.eqb_spec k 9) as [->|]; [by rewrite !andb_false_r|].
  rewrite <- andb_assoc. f_equal. unfold flag_bit, addr_bit, kept.
  destruct (Z.ltb_spec k 9), (Z.ltb_spec k 11), (Z.eqb_spec k 10), (Z.eqb_spec k 63), (Z.leb_spec 12 k), (Z.ltb_spec k 52); try done; lia.
Qed.

Lemma get_set_avail e v : get_avail_bit (set_avail_bit e v) = v.
Proof. unfold get_avail_bit, AVAIL_1. rewrite contains_bit, flags_bit, set_avail_bits by done. simpl. by rewrite andb_true_r. Qed.

(** ** The count of a table *)
Lemma set_count_loop_spec n : forall b t c, (b + n <= length t)%nat ->
  length (set_count_loop n b t c) = length t /\
  norm <$> set_count_loop n b t c = norm <$> t /\
  forall i, (i < length t)%nat -> get_avail_bit (entry_at (set_count_loop n b t c) i) =
    if (b <=? i)%nat && (i <? b + n)%nat then Z.testbit c (Z.of_nat i) else get_avail_bit (entry_at t i).
Proof.
  induction n as [|n IH]; intros b t c Hl; simpl.
  { split_and!; [done..|]. intros i Hi. destruct (Nat.leb_spec b i), (Nat.ltb_spec i (b + 0)); simpl; try done; lia. }
  set (t1 := <[b := set_avail_bit (entry_at t b) (Z.testbit c (Z.of_nat b))]> t). assert (length t1 = length t) as Hl1 by apply length_insert.
  destruct (IH (S b) t1 c) as (E1 & E2 & E3); [rewrite Hl1; lia|]. rewrite Hl1 in *. split_and!; [done| |].
  - rewrite E2. unfold t1. rewrite list_fmap_insert, set_avail_norm. apply list_insert_id.
    rewrite list_lookup_fmap. unfold entry_at. destruct (lookup_lt_is_Some_2 t b) as [e He]; [lia|].
    rewrite (list_lookup_total_correct _ _ _ He), He. done.
  - intros i Hi. rewrite E3 by done. unfold t1, entry_at. destruct (decide (i = b)) as [->|Hne].
    + rewrite list_lookup_total_insert_eq by lia. rewrite get_set_avail.
      destruct (Nat.leb_spec (S b) b), (Nat.leb_spec b b), (Nat.ltb_spec b (b + S n)); simpl; try done; lia.
    + rewrite list_lookup_total_insert_ne by done.
      destruct (Nat.leb_spec (S b) i), (Nat.leb_spec b i), (Nat.ltb_spec i (S b + n)), (Nat.ltb_spec i (b + S n)); simpl; try done; lia.
Qed.

Lemma read_count_loop_bit n : forall b t acc k, 0 <= k ->
  Z.testbit (read_count_loop n b t acc) k =
  Z.testbit acc k || ((Z.of_nat b <=? k) && (k <? Z.of_nat (b + n)) && get_avail_bit (entry_at t (Z.to_nat k))).
Proof.
  induction n as [|n IH]; intros b t acc k Hk; simpl.
  { destruct (Z.leb_spec (Z.of_nat b) k), (Z.ltb_spec k (Z.of_nat (b + 0))); simpl; try lia; by rewrite orb_false_r. }
  rewrite IH by done. rewrite Z.lor_spec, Z.shiftl_spec by done. rewrite <- orb_assoc. f_equal.
  destruct (decide (k = Z.of_nat b)) as [->|Hne].
  - rewrite Z.sub_diag, Nat2Z.id. zbool. simpl. rewrite orb_false_r. by destruct (get_avail_bit _).
  - assert (Z.testbit (Z.b2z (get_avail_bit (entry_at t b))) (k - Z.of_nat b) = false) as ->.
    { destruct (get_avail_bit _); simpl; [|apply Z.bits_0]. change 1 with (2 ^ 0). rewrite Z.pow2_bits_eqb by done. zbool. done. }
    simpl. destruct (Z.leb_spec (Z.of_nat (S b)) k), (Z.leb_spec (Z.of_nat b) k), (Z.ltb_spec k (Z.of_nat (S (b + n)))), (Z.ltb_spec k (Z.of_nat (b + S n)));
      simpl; try done; lia.
Qed.

(** Storing a count and reading it back; nothing else of the table changes. *)
Lemma set_count_spec t c : length t = PAGE_TABLE_ENTRIES -> 0 <= c < 2 ^ 16 ->
  length (set_count t c) = PAGE_TABLE_ENTRIES /\ norm <$> set_count t c = norm <$> t /\ read_count (set_count t c) = c.
Proof.
  intros Hl Hc. unfold set_count. destruct (set_count_loop_spec 16 0 t c) as (E1 & E2 & E3); [rewrite Hl; unfold PAGE_TABLE_ENTRIES; lia|].
  split_and!; [congruence|done|]. apply Z.bits_inj'. intros k Hk. unfold read_count. rewrite read_count_loop_bit, Z.bits_0 by done.
  change (Z.of_nat (0 + 16)) with 16. change (Z.of_nat 0) with 0. rewrite (proj2 (Z.leb_le 0 k)) by done.
  rewrite orb_false_l, andb_true_l. destruct (Z.ltb_spec k 16).
  - rewrite E3 by (rewrite Hl; unfold PAGE_TABLE_ENTRIES; lia). rewrite andb_true_l.
    destruct (Nat.leb_spec 0 (Z.to_nat k)), (Nat.ltb_spec (Z.to_nat k) (0 + 16)); try lia. by rewrite Z2Nat.id.
  - symmetry. rewrite <- (Z.mod_small c (2 ^ 16)) by done. apply Z.mod_pow2_bits_high. lia.
Qed.

(** ** Trees of tables *)
Abbreviation Tables := (gmap Z (list Z)).
Implicit Types (H : Tables).

(** An entry that holds a translation at a level, one that points to a table of the tree, and
    one that links a shared table. *)
Definition nleaf (level : nat) (n : Z) : bool := npresent n && ((nhuge n && can_map_at_level level) || (level =? 0)%nat).
Definition ntable (level : nat) (n : Z) : bool := npresent n && negb (nleaf level n) && negb (nshared n).
Definition nlink (level : nat) (n : Z) : bool := npresent n && negb (nleaf level n) && nshared n.

Lemma ntable_spec l n : ntable l n = true <-> npresent n = true /\ nleaf l n = false /\ nshared n = false.
Proof. unfold ntable. destruct (npresent n), (nleaf l n), (nshared n); naive_solver. Qed.

Lemma nlink_spec l n : nlink l n = true <-> npresent n = true /\ nleaf l n = false /\ nshared n = true.
Proof. unfold nlink. destruct (npresent n), (nleaf l n), (nshared n); naive_solver. Qed.

Lemma nleaf_present l n : nleaf l n = true -> npresent n = true.
Proof. unfold nleaf. by intros [? _]%andb_true_iff. Qed.

(** What is no translation, at the last level, is not there. *)
Lemma nleaf_0 n : nleaf 0 n = npresent n.
Proof. unfold nleaf. by rewrite orb_true_r, andb_true_r. Qed.

(** The number of entries in use. *)
Fixpoint used (t : list Z) : Z := match t with [] => 0 | e :: t => Z.b2z (npresent (norm e)) + used t end.

(** The addresses of the tables of the tree below a table, itself included.  Shared tables and
    what is below them are not part of it. *)
Fixpoint tabs H (level : nat) (a : Z) : list Z :=
  a :: match level with
       | O => []
       | S l =>
           match H !! a with
           | Some t => concat ((fun e => if ntable level (norm e) then tabs H l (entry_addr e) else []) <$> t)
           | None => []
           end
       end.

(** A well-formed table: every table below it exists and knows how many entries it uses, and
    there is no huge page where the processor has none.  Whether shared tables can be linked
    is [sh]. *)
Fixpoint wfs (sh : bool) H (level : nat) (a : Z) : Prop :=
  exists t, H !! a = Some t /\ length t = PAGE_TABLE_ENTRIES /\ read_count t = used t /\
    forall e, e ∈ t -> npresent (norm e) = true ->
      (sh = false -> nshared (norm e) = false) /\
      match level with
      | O => True
      | S l => (can_map_at_level level = false -> nhuge (norm e) = false) /\
               (ntable level (norm e) = true -> wfs sh H l (entry_addr e))
      end.

(** Without shared tables *)
Abbreviation wf := (wfs false).

(** The translation of an address by the tables of the tree: the entry and the level it was
    found at.  Where a shared table is linked, the entry that links it. *)
Fixpoint walk H (level : nat) (a : Z) (va : Z) : option (Z * nat) :=
  match H !! a with
  | None => None
  | Some t =>
      let n := norm (entry_at t (get_index va level)) in
      if nleaf level n then Some (n, level)
      else if npresent n then
        match level with O => None | S l => if nshared n then Some (n, level) else walk H l (entry_addr n) va end
      else None
  end.

Lemma tabs_self H l a : a ∈ tabs H l a.
Proof. destruct l; by left. Qed.

(** What is below a table depends only on its tables. *)
Lemma frame_tabs H H' l : forall a, (forall b, b ∈ tabs H l a -> H' !! b = H !! b) -> tabs H' l a = tabs H l a.
Proof.
  induction l as [|l IH]; intros a Hb; [done|]. simpl in *. rewrite (Hb a) by by left. f_equal.
  destruct (H !! a) as [t|]; [|done]. f_equal. apply list_fmap_ext. intros i e He.
  destruct (ntable (S l) (norm e)) eqn:E; [|done]. apply IH. intros b Hb'. apply Hb. right.
  apply list_elem_of_In, in_concat. eexists. rewrite <- !list_elem_of_In. split; [|exact Hb'].
  apply list_elem_of_fmap. exists e. rewrite E. split; [done|]. by apply list_elem_of_lookup_2 in He.
Qed.

Lemma elem_tabs_child H l a t e b : H !! a = Some t -> e ∈ t -> ntable (S l) (norm e) = true ->
  b ∈ tabs H l (entry_addr e) -> b ∈ tabs H (S l) a.
Proof.
  intros Ha He Hn Hb. simpl. rewrite Ha. right. apply list_elem_of_In, in_concat. eexists. rewrite <- !list_elem_of_In.
  split; [|exact Hb]. apply list_elem_of_fmap. exists e. by rewrite Hn.
Qed.

Lemma frame_wf sh H H' l : forall a, (forall b, b ∈ tabs H l a -> H' !! b = H !! b) -> wfs sh H l a -> wfs sh H' l a.
Proof.
  induction l as [|l IH]; intros a Hb (t & Ha & Hl & Hc & He); exists t; rewrite (Hb a) by apply tabs_self; [done|].
  split_and!; [done..|]. intros e Hin Hp. destruct (He e Hin Hp) as (Hs & Hh & Hw). split_and!; [done..|].
  intros Hn. apply IH; [|by apply Hw]. intros b Hb'. apply Hb. by eapply elem_tabs_child.
Qed.

Lemma norm_idem e : norm (norm e) = norm e.
Proof.
  apply Z.bits_inj'. intros k Hk. rewrite !norm_bit by done. by destruct (Z.testbit e k), (kept k).
Qed.

Lemma get_index_lt va l : (get_index va l < PAGE_TABLE_ENTRIES)%nat.
Proof.
  unfold get_index, PAGE_TABLE_ENTRIES. rewrite (land_mask _ 9) by done.
  pose proof (Z.mod_pos_bound (Z.shiftr va (12 + 9 * Z.of_nat l)) (2 ^ 9) ltac:(done)). change (2 ^ 9) with 512 in *. lia.
Qed.

Lemma entry_at_elem (t : list Z) i : length t = PAGE_TABLE_ENTRIES -> (i < PAGE_TABLE_ENTRIES)%nat -> entry_at t i ∈ t.
Proof. intros Hl Hi. apply list_elem_of_lookup_total_2. lia. Qed.

Lemma walk_unfold H l a va t : H !! a = Some t ->
  walk H l a va =
  (let n := norm (entry_at t (get_index va l)) in
   if nleaf l n then Some (n, l)
   else if npresent n then match l with O => None | S l' => if nshared n then Some (n, l) else walk H l' (entry_addr n) va end else None).
Proof. intros Ha. destruct l; simpl; by rewrite Ha. Qed.

(** The walk goes on in the table an entry points to. *)
Lemma walk_table H l a va t : H !! a = Some t -> ntable (S l) (norm (entry_at t (get_index va (S l)))) = true ->
  walk H (S l) a va = walk H l (entry_addr (entry_at t (get_index va (S l)))) va.
Proof. intros Ha (Hp & Hl & Hs)%ntable_spec. rewrite (walk_unfold H _ a va t Ha). cbv zeta. by rewrite Hl, Hp, Hs, addr_norm. Qed.

(** An entry that is neither a translation nor a link points to a table, or is not there. *)
Lemma entry_case l n : nleaf l n = true \/ nlink l n = true \/ ntable l n = true \/ npresent n = false.
Proof. unfold nlink, ntable. destruct (npresent n), (nleaf l n), (nshared n); naive_solver. Qed.

Lemma frame_walk sh H H' l va : forall a, wfs sh H l a -> (forall b, b ∈ tabs H l a -> H' !! b = H !! b) -> walk H' l a va = walk H l a va.
Proof.
  induction l as [|l IH]; intros a Hw Hb; pose proof Hw as (t & Ha & Hl & _ & He);
    assert (Ha' : H' !! a = Some t) by (rewrite Hb by apply tabs_self; done); [by rewrite !(walk_unfold _ _ a va t)|].
  assert (entry_at t (get_index va (S l)) ∈ t) as Hin by (apply entry_at_elem; [done|apply get_index_lt]).
  destruct (ntable (S l) (norm (entry_at t (get_index va (S l))))) eqn:Hn.
  - rewrite !(walk_table _ l a va t) by done. apply IH; [|intros b Hb'; apply Hb; by eapply elem_tabs_child].
    apply (He _ Hin); [by apply ntable_spec in Hn as (? & _)|done].
  - rewrite !(walk_unfold _ _ a va t) by done. cbv zeta. unfold ntable in Hn.
    destruct (nleaf (S l) _), (npresent _), (nshared _); done.
Qed.

(** ** Chunks of the address space *)
Definition ps (l : nat) : Z := 2 ^ (12 + 9 * Z.of_nat l).

Lemma page_size_ps l : level_to_page_size l = ps l.
Proof. unfold level_to_page_size, ps. by rewrite Z.shiftl_1_l. Qed.

Lemma ps_pos l : 0 < ps l.
Proof. apply Z.pow_pos_nonneg; lia. Qed.

Lemma ps_S l : ps (S l) = 512 * ps l.
Proof. unfold ps. replace (12 + 9 * Z.of_nat (S l)) with (9 + (12 + 9 * Z.of_nat l)) by lia. by rewrite Z.pow_add_r by lia. Qed.

Lemma index_div va l : get_index va l = Z.to_nat ((va / ps l) mod 512).
Proof. unfold get_index, ps. rewrite (land_mask _ 9) by done. by rewrite Z.shiftr_div_pow2 by lia. Qed.

Lemma chunk_S va l : va / ps (S l) = va / ps l / 512.
Proof. pose proof (ps_pos l). rewrite ps_S, Z.mul_comm, Z.div_div by lia. done. Qed.

Lemma chunk_index va l : va / ps l = 512 * (va / ps (S l)) + Z.of_nat (get_index va l).
Proof. rewrite chunk_S, index_div, Z2Nat.id by by apply Z.mod_pos_bound. by apply Z.div_mod. Qed.

(** The next chunk. *)
Lemma next_chunk s l : (get_index s l < 511)%nat -> (s / ps l + 1) * ps l / ps (S l) = s / ps (S l).
Proof.
  intros Hi. pose proof (ps_pos l). rewrite !chunk_S, Z.div_mul by lia. pose proof (chunk_index s l) as E. rewrite chunk_S in E.
  symmetry. apply (Z.div_unique _ _ _ (Z.of_nat (get_index s l) + 1)); lia.
Qed.

Lemma next_index s l : (get_index s l < 511)%nat -> get_index ((s / ps l + 1) * ps l) l = S (get_index s l).
Proof.
  intros Hi. pose proof (ps_pos l). rewrite (index_div (_ * _)), Z.div_mul by lia.
  rewrite (chunk_index s l), <- Z.add_assoc, Z.add_comm, Z.mul_comm, Z_mod_plus_full, Z.mod_small by lia. lia.
Qed.

(** A region that stays in one half of the address space. *)
Definition region_ok (s e : Z) : Prop := 0 <= s < e /\ (e <= 2 ^ 47 \/ (2 ^ 64 - 2 ^ 47 <= s /\ e <= 2 ^ 64)).

(** The cursor moves to the next chunk, or stops when the region ends before it. *)
Lemma align_advance_spec `{Build} s e l : region_ok s e ->
  align_advance (mkCursor s (e - s)) (level_to_page_size l) =
  Ret (if (s / ps l + 1) * ps l <? e then Some (mkCursor ((s / ps l + 1) * ps l) (e - (s / ps l + 1) * ps l)) else None).
Proof.
  intros [Hs Hr]. rewrite page_size_ps. unfold align_advance, VirtAddr_align_up. simpl. pose proof (ps_pos l) as Hp.
  unfold ps at 1. rewrite is_power_of_two_pow by lia. simpl. rewrite (land_mask _ (12 + 9 * Z.of_nat l)) by (done || lia).
  fold (ps l). pose proof (Z.div_mod s (ps l) ltac:(lia)) as Hd. pose proof (Z.mod_pos_bound s (ps l) Hp) as Hm.
  set (q := s / ps l) in *. destruct (Z.eqb_spec (s mod ps l) 0) as [E0|E0]; simpl.
  - rewrite Z.eqb_refl. assert (s = q * ps l) as Hq by lia. replace ((q + 1) * ps l) with (s + ps l) by lia.
    destruct (Z.leb_spec (e - s) (ps l)); [by zbool|]. zbool. simpl.
    unfold checked_add. rewrite (proj2 (in_u_spec 64 (s + ps l))) by lia. simpl.
    unfold VirtAddr_new. replace (canonical (s + ps l)) with true; [simpl; do 3 f_equal; lia|].
    symmetry. unfold canonical. apply orb_true_iff. rewrite !Z.leb_le. lia.
  - unfold ps at 1. rewrite lor_mask by lia. fold (ps l).
    replace (round_down s (ps l) + (ps l - 1)) with ((q + 1) * ps l - 1) by (unfold round_down; lia).
    set (ce := (q + 1) * ps l) in *. assert (s < ce < s + ps l) as Hce by (unfold ce; lia).
    unfold checked_add. rewrite Z.sub_add. destruct (in_u 64 ce) eqn:Eu.
    2:{ apply in_u_false in Eu. simpl. zbool. done. }
    simpl. unfold VirtAddr_new. apply in_u_spec in Eu. destruct (canonical ce) eqn:Ec; simpl.
    + zbool. unfold VirtAddr_sub, checked_sub. simpl. rewrite (proj2 (in_u_spec 64 (ce - s))) by lia. simpl.
      destruct (Z.leb_spec (e - s) (ce - s)); zbool; [done|]. do 3 f_equal. lia.
    + unfold canonical in Ec. apply orb_false_iff in Ec. rewrite !Z.leb_gt in Ec. zbool. done.
Qed.

(** The translations of a level that a region meets. *)
Definition hit (s e : Z) (l : nat) (va : Z) : bool := (va / ps l * ps l <? e) && (s <? (va / ps l + 1) * ps l).

(** Starting later in an earlier chunk makes no difference to what lies after it. *)
Lemma chunk_mono l k va : (l <= k)%nat -> va / ps k * ps k <= va / ps l * ps l /\ (va / ps l + 1) * ps l <= (va / ps k + 1) * ps k.
Proof.
  induction 1 as [|k Hk IH]; [lia|]. rewrite chunk_S, ps_S. pose proof (ps_pos k).
  pose proof (Z.div_mod (va / ps k) 512 ltac:(done)). pose proof (Z.mod_pos_bound (va / ps k) 512 ltac:(done)). nia.
Qed.

Lemma hit_later s s' e l k va : (l <= k)%nat -> s <= s' -> s' <= va / ps k * ps k -> hit s e l va = hit s' e l va.
Proof.
  intros Hl Hs Hva. pose proof (chunk_mono l k va Hl). pose proof (ps_pos l). unfold hit. f_equal.
  destruct (Z.ltb_spec s ((va / ps l + 1) * ps l)), (Z.ltb_spec s' ((va / ps l + 1) * ps l)); try done; lia.
Qed.

Lemma hit_after s e l k va : (l <= k)%nat -> e <= va / ps k * ps k -> hit s e l va = false.
Proof. intros Hl Hva. pose proof (chunk_mono l k va Hl). unfold hit. zbool. done. Qed.

(** ** Replacing one entry of a table *)
Definition below H (l : nat) (n : Z) : list Z := if ntable (S l) n then tabs H l (entry_addr n) else [].

Lemma tabs_unfold H l a t : H !! a = Some t -> tabs H (S l) a = a :: concat (below H l <$> (norm <$> t)).
Proof.
  intros Ha. simpl. rewrite Ha. do 2 f_equal. rewrite <- list_fmap_compose. apply list_fmap_ext. intros i e _. simpl.
  unfold below. by rewrite addr_norm.
Qed.

Lemma concat_insert_perm {A} (L : list (list A)) i x : L !! i = Some x -> concat L ≡ₚ x ++ concat (<[i := []]> L).
Proof.
  revert i. induction L as [|y L IH]; intros [|i] Hi; simpl in *; [done|done|by injection Hi as ->|].
  rewrite (IH i Hi) at 1. apply Permutation_app_swap_app.
Qed.

Lemma concat_replace_perm {A} (L : list (list A)) i x y z w : L !! i = Some x -> y ++ z ≡ₚ x ++ w -> concat (<[i := y]> L) ++ z ≡ₚ concat L ++ w.
Proof.
  revert i. induction L as [|v L IH]; intros [|i] Hi Hp; simpl in *; [done|done| |].
  - injection Hi as ->. rewrite <- !app_assoc, (Permutation_app_comm _ z), (Permutation_app_comm _ w), !app_assoc. by f_equiv.
  - rewrite <- !app_assoc. f_equiv. by apply IH.
Qed.

Lemma used_norm t t' : norm <$> t = norm <$> t' -> used t = used t'.
Proof.
  revert t'. induction t as [|e t IH]; intros [|e' t'] E; simpl in *; try done. injection E as E1 E2. by rewrite E1, (IH t').
Qed.

Lemma used_insert t i e : (i < length t)%nat -> used (<[i := e]> t) = used t - Z.b2z (npresent (norm (entry_at t i))) + Z.b2z (npresent (norm e)).
Proof.
  revert i. induction t as [|x t IH]; intros [|i] Hi; [simpl in Hi; lia|simpl in Hi; lia| |].
  - change (entry_at (x :: t) 0) with x. cbn [used]. change (<[0%nat := e]> (x :: t)) with (e :: t). cbn [used]. lia.
  - change (entry_at (x :: t) (S i)) with (entry_at t i). change (<[S i := e]> (x :: t)) with (x :: <[i := e]> t).
    simpl in Hi. cbn [used]. rewrite IH by lia. lia.
Qed.

Lemma used_bounds t : 0 <= used t <= Z.of_nat (length t).
Proof. induction t as [|e t IH]; cbn [used length]; [lia|]. destruct (npresent (norm e)); cbn [Z.b2z]; lia. Qed.

Lemma used_pos t i : (i < length t)%nat -> npresent (norm (entry_at t i)) = true -> 1 <= used t.
Proof.
  intros Hi Hp. pose proof (used_insert t i 0 Hi) as E. rewrite Hp in E. pose proof (used_bounds (<[i := 0]> t)). simpl in E. lia.
Qed.

Section replace.
Context (sh : bool) (H : Tables) (l : nat) (a : Z) (t t' : list Z) (idx : nat) (n' : Z).
Context (Hw : wfs sh H l a) (Hnd : NoDup (tabs H l a)) (Ha : H !! a = Some t) (Hi : (idx < PAGE_TABLE_ENTRIES)%nat).
Context (Ht' : norm <$> t' = <[idx := n']> (norm <$> t)) (Hc : read_count t' = used t') (Hn' : norm n' = n').
(** The new entry is unused, or holds a translation the level allows, or points to a table
    that is not the one it is put in. *)
Context (Hok : npresent n' = true -> nshared n' = false /\
  (nleaf l n' = true \/ exists k, l = S k /\ nhuge n' = false /\ wfs sh H k (entry_addr n') /\ a ∉ tabs H k (entry_addr n'))).

#[local] Lemma replace_length : length t = PAGE_TABLE_ENTRIES /\ length t' = PAGE_TABLE_ENTRIES.
Proof using All.
  assert (length t = PAGE_TABLE_ENTRIES) as Hl.
  { destruct l; destruct Hw as (t0 & Ha' & Hl & _); congruence. }
  split; [done|]. rewrite <- (length_fmap norm t'), Ht', length_insert, length_fmap. done.
Qed.

#[local] Lemma replace_entry i : (i < PAGE_TABLE_ENTRIES)%nat ->
  norm (entry_at t' i) = if decide (i = idx) then n' else norm (entry_at t i).
Proof using All.
  intros Hi'. destruct replace_length as [Hl Hl']. unfold entry_at.
  assert (forall x : list Z, length x = PAGE_TABLE_ENTRIES -> norm (x !!! i) = (norm <$> x) !!! i) as Hx.
  { intros x Hx. symmetry. apply list_lookup_total_fmap. lia. }
  rewrite !Hx, Ht' by done. destruct (decide (i = idx)) as [->|Hne].
  - rewrite list_lookup_total_insert_eq by (rewrite length_fmap; lia). done.
  - by rewrite list_lookup_total_insert_ne by done.
Qed.

(** Tables below an entry do not contain the table itself. *)
#[local] Lemma child_frame e b : e ∈ t -> ntable l (norm e) = true -> forall k, l = S k -> b ∈ tabs H k (entry_addr e) -> <[a := t']> H !! b = H !! b.
Proof using All.
  intros He Hn k -> Hb. apply lookup_insert_ne. intros <-. rewrite (tabs_unfold H k a t Ha) in Hnd. apply NoDup_cons in Hnd as [Hnot _]. apply Hnot.
  pose proof (elem_tabs_child H k a t e a Ha He Hn Hb) as Hin. rewrite (tabs_unfold H k a t Ha) in Hin.
  apply list_elem_of_In, in_concat. exists (below H k (norm e)). rewrite <- !list_elem_of_In.
  split; [apply list_elem_of_fmap; exists (norm e); split; [done|]; apply list_elem_of_fmap; by exists e|].
  unfold below. by rewrite Hn, addr_norm.
Qed.

Lemma replace_wf : wfs sh (<[a := t']> H) l a.
Proof using All.
  pose proof replace_length as [Hl Hl']. pose proof child_frame as Hcf.
  assert (forall e', e' ∈ t' -> npresent (norm e') = true -> norm e' = n' \/ exists e, e ∈ t /\ norm e = norm e') as Hcase.
  { intros e' [i Hi']%list_elem_of_lookup_1 Hp. pose proof (lookup_lt_Some _ _ _ Hi') as Hlt. rewrite Hl' in Hlt.
    pose proof (replace_entry i Hlt) as E. unfold entry_at in E. rewrite (list_lookup_total_correct _ _ _ Hi') in E.
    destruct (decide (i = idx)); [by left|right]. exists (t !!! i). split; [apply list_elem_of_lookup_total_2; lia|done]. }
  destruct l as [|k] eqn:El.
  - exists t'. rewrite lookup_insert_eq. split_and!; [done..|]. intros e' He' Hp. split; [|done].
    destruct (Hcase e' He' Hp) as [E|(e & He & E)]; [rewrite E in *; intros _; by apply Hok|].
    destruct Hw as (t0 & Ha' & _ & _ & Hall). assert (t0 = t) as -> by congruence. rewrite <- E in *. by apply (Hall e He).
  - exists t'. rewrite lookup_insert_eq. split_and!; [done..|]. intros e' He' Hp.
    destruct Hw as (t0 & Ha' & _ & _ & Hall). assert (t0 = t) as -> by congruence.
    destruct (Hcase e' He' Hp) as [E|(e & He & E)].
    + rewrite E in *. destruct (Hok Hp) as (Hsh & [Hlf|(k' & [= <-] & Hh & Hwn & Hna)]).
      * split_and!; [done| |intros Hn; apply ntable_spec in Hn as (_ & ? & _); congruence].
        intros Hcm. unfold nleaf in Hlf. rewrite Hcm, andb_false_r in Hlf. by rewrite andb_false_r in Hlf.
      * split_and!; [done|done|]. intros _. rewrite <- (addr_norm e'), E. apply (frame_wf sh H); [|done].
        intros b Hb. apply lookup_insert_ne. by intros <-.
    + rewrite <- E in *. destruct (Hall e He Hp) as (Hsh & Hhu & Hch). split_and!; [done..|]. intros Hn.
      replace (entry_addr e') with (entry_addr e) by (rewrite <- (addr_norm e'), <- E, addr_norm; done).
      apply (frame_wf sh H); [|by apply Hch]. intros b Hb. by apply (Hcf e b He Hn k eq_refl).
Qed.

(** The tables below the old entry leave the tree, those below the new one enter it. *)
Lemma replace_tabs : tabs (<[a := t']> H) l a ++ match l with O => [] | S k => below H k (norm (entry_at t idx)) end ≡ₚ
  tabs H l a ++ match l with O => [] | S k => below H k n' end.
Proof using All.
  pose proof replace_length as [Hl Hl']. pose proof child_frame as Hcf. pose proof replace_entry as Hre.
  destruct l as [|k]; [done|].
  rewrite (tabs_unfold H k a t Ha), (tabs_unfold (<[a := t']> H) k a t') by apply lookup_insert_eq. simpl. constructor.
  assert (below (<[a := t']> H) k <$> (norm <$> t') = <[idx := below H k n']> (below H k <$> (norm <$> t))) as ->.
  { rewrite Ht', list_fmap_insert. f_equal.
    - unfold below. destruct (ntable (S k) n') eqn:En; [|done]. apply frame_tabs. intros b Hb. apply lookup_insert_ne. intros <-.
      apply ntable_spec in En as (Hp & Hn & _). destruct (Hok Hp) as (_ & [Hlf|(k' & [= <-] & _ & _ & Hna)]); [congruence|done].
    - rewrite <- !list_fmap_compose. apply list_fmap_ext. intros i e He. simpl. unfold below.
      destruct (ntable (S k) (norm e)) eqn:E; [|done]. apply frame_tabs. intros b Hb. rewrite addr_norm in Hb.
      apply (Hcf e b) with (k := k); [by apply list_elem_of_lookup_2 in He|done|done|done]. }
  eapply concat_replace_perm; [|apply Permutation_app_comm].
  rewrite !list_lookup_fmap. unfold entry_at. rewrite (list_lookup_lookup_total_lt t idx) by lia. done.
Qed.

Lemma replace_tabs_leaf : ntable l n' = false ->
  tabs (<[a := t']> H) l a ++ match l with O => [] | S k => below H k (norm (entry_at t idx)) end ≡ₚ tabs H l a.
Proof using All. intros Hn. rewrite replace_tabs. destruct l; [by rewrite app_nil_r|]. unfold below at 1. by rewrite Hn, app_nil_r. Qed.

Lemma replace_walk va : walk (<[a := t']> H) l a va =
  if decide (get_index va l = idx) then
    (if nleaf l n' then Some (n', l)
     else if npresent n' then match l with O => None | S k => walk H k (entry_addr n') va end else None)
  else walk H l a va.
Proof using All.
  pose proof replace_length as [Hl Hl']. pose proof child_frame as Hcf. pose proof replace_entry as Hre.
  pose proof (walk_unfold _ l a va t' (lookup_insert_eq H a t')) as Hu. cbv zeta in Hu. rewrite Hre in Hu by apply get_index_lt.
  destruct (decide (get_index va l = idx)) as [E|E]; [rewrite Hu|].
  - destruct (nleaf l n') eqn:El; [done|]. destruct (npresent n') eqn:Ep; [|done].
    destruct (Hok eq_refl) as (-> & [?|(k & -> & Hh & Hwn & Hna)]); [congruence|]. apply (frame_walk sh); [done|].
    intros b Hb. apply lookup_insert_ne. by intros <-.
  - set (e := entry_at t (get_index va l)) in *. assert (e ∈ t) as He by (apply entry_at_elem; [done|apply get_index_lt]).
    destruct (ntable l (norm e)) eqn:Hn.
    + destruct l as [|k]; [apply ntable_spec in Hn as (? & ? & _); rewrite nleaf_0 in *; congruence|].
      rewrite (walk_table H k a va t Ha Hn). fold e. apply ntable_spec in Hn as (Hp & Hlf & Hs). rewrite Hu, Hlf, Hp, Hs, addr_norm.
      destruct Hw as (t0 & Ha' & _ & _ & Hall). assert (t0 = t) as -> by congruence.
      assert (Hn : ntable (S k) (norm e) = true) by by apply ntable_spec.
      apply (frame_walk sh); [by apply (Hall e He Hp)|]. intros b Hb. by apply (Hcf e b He Hn k eq_refl).
    + rewrite Hu, (walk_unfold H l a va t Ha). cbv zeta. fold e. unfold ntable in Hn.
      destruct (nleaf l (norm e)), (npresent (norm e)), (nshared (norm e)), l; done.
Qed.
End replace.

(** ** Removing an entry *)
Lemma norm_0 : norm 0 = 0.
Proof. done. Qed.

Lemma wf_table sh H l a : wfs sh H l a -> exists t, H !! a = Some t /\ length t = PAGE_TABLE_ENTRIES /\ read_count t = used t.
Proof. destruct l; intros (t & ? & ? & ? & _); by exists t. Qed.

Lemma clear_entry `{Build} s a t idx v term l : tables s !! a = Some t -> length t = PAGE_TABLE_ENTRIES -> read_count t = used t ->
  (idx < PAGE_TABLE_ENTRIES)%nat -> npresent (norm (entry_at t idx)) = true ->
  exists t', update_entry s a idx new_unused v term l =
      Ret (mkPt (<[a := t']> (tables s))
        (mkConsist (lines (consist s) ++ [(a, idx)]) (invalidations (consist s) ++ [(v, nglobal (norm (entry_at t idx)), term, l)]) (freed (consist s)))
        (frames s)) /\
    norm <$> t' = <[idx := 0]> (norm <$> t) /\ read_count t' = used t'.
Proof.
  intros Ha Hl Hc Hi Hp. unfold update_entry, table_of. rewrite Ha. cbn [unwrap obind]. unfold new_unused.
  assert (entry_at t idx <> 0) as Hne by (intros E; by rewrite E in Hp).
  rewrite (proj2 (Z.eqb_neq _ _) Hne), global_norm, !present_norm, Hp. change (npresent (norm 0)) with false. cbn [andb negb].
  pose proof (used_pos t idx ltac:(lia) Hp). pose proof (used_bounds t) as Hb. rewrite Hl in Hb. change (Z.of_nat PAGE_TABLE_ENTRIES) with 512 in Hb.
  rewrite Hc, chk_in by lia. cbn [obind].
  destruct (set_count_spec (<[idx := 0]> t) (used t - 1)) as (E1 & E2 & E3); [by rewrite length_insert|lia|].
  eexists. split_and!; [done|by rewrite E2, list_fmap_insert, norm_0|].
  rewrite E3, (used_norm _ _ E2), used_insert by lia. rewrite Hp. change (npresent (norm 0)) with false. simpl. lia.
Qed.

(** ** Unmapping *)

(** What is gone: a translation of the tree that meets the region. *)
Definition gone (s e : Z) (n : Z) (k : nat) (va : Z) : bool := nleaf k n && hit s e k va.

(** What unmapping [s, e) below a table does to the tables; [inv] and [fr] are the
    invalidations queued and the frames to free. *)
Record unmap_post sh H l a s e H' (inv : list (Z * bool * bool * nat)) (fr : list Z) : Prop := {
  up_frame b : b ∉ tabs H l a -> H' !! b = H !! b;
  up_wf : wfs sh H' l a;
  up_tabs : tabs H' l a ++ fr ≡ₚ tabs H l a;
  up_walk va : 0 <= va -> va / ps (S l) = s / ps (S l) ->
    walk H' l a va = match walk H l a va with
                     | Some (n, k) => if gone s e n k va then None else Some (n, k)
                     | None => None
                     end;
  up_inv va n k : 0 <= va -> va / ps (S l) = s / ps (S l) -> walk H l a va = Some (n, k) -> gone s e n k va = true ->
    exists v, (v, nglobal n, true, k) ∈ inv /\ v / ps k = va / ps k }.

(** The same of the one chunk of the table that holds [s]. *)
Record step_post sh H l a s e H' (inv : list (Z * bool * bool * nat)) (fr : list Z) : Prop := {
  sp_frame b : b ∉ tabs H l a -> H' !! b = H !! b;
  sp_wf : wfs sh H' l a;
  sp_tabs : tabs H' l a ++ fr ≡ₚ tabs H l a;
  sp_walk va : 0 <= va -> va / ps (S l) = s / ps (S l) ->
    walk H' l a va = match walk H l a va with
                     | Some (n, k) => if decide (get_index va l = get_index s l) then (if gone s e n k va then None else Some (n, k)) else Some (n, k)
                     | None => None
                     end;
  sp_inv va n k : 0 <= va -> va / ps l = s / ps l -> walk H l a va = Some (n, k) -> gone s e n k va = true ->
    exists v, (v, nglobal n, true, k) ∈ inv /\ v / ps k = va / ps k }.

Lemma walk_level H l : forall a va n k, walk H l a va = Some (n, k) -> (k <= l)%nat.
Proof.
  induction l as [|l IH]; intros a va n k; simpl; destruct (H !! a) as [t|]; try done.
  - destruct (nleaf 0 _); [intros [= <- <-]; lia|]. by destruct (npresent _).
  - destruct (nleaf (S l) _); [intros [= <- <-]; lia|]. destruct (npresent _); [|done]. destruct (nshared _); [intros [= <- <-]; lia|]. intros Hx%IH. lia.
Qed.

Lemma same_chunk va s l : 0 <= va -> 0 <= s -> va / ps (S l) = s / ps (S l) -> (va / ps l = s / ps l <-> get_index va l = get_index s l).
Proof. intros Hva Hs Hc. rewrite (chunk_index va l), (chunk_index s l), Hc. split; [intros; lia|intros ->; done]. Qed.

(** The chunks of a table, put together. *)
Lemma unmap_last sh H l a s e H' inv fr : 0 <= s < e -> step_post sh H l a s e H' inv fr ->
  e <= (s / ps l + 1) * ps l \/ get_index s l = 511%nat -> unmap_post sh H l a s e H' inv fr.
Proof.
  intros Hs Hst Hend. assert (forall va n k, 0 <= va -> va / ps (S l) = s / ps (S l) -> walk H l a va = Some (n, k) ->
    get_index va l <> get_index s l -> gone s e n k va = false) as Hno.
  { unfold gone. intros va n k Hva Hc Hwk Hne. apply walk_level in Hwk. pose proof (chunk_index va l). pose proof (chunk_index s l). rewrite Hc in *.
    pose proof (chunk_mono k l va Hwk). pose proof (ps_pos l). pose proof (get_index_lt va l). unfold PAGE_TABLE_ENTRIES in *.
    assert (va / ps l < s / ps l \/ (s / ps l < va / ps l /\ e <= (s / ps l + 1) * ps l)) as [Hlt|[Hlt He]] by lia.
    - pose proof (Z.mul_div_le s (ps l)). unfold hit. rewrite (proj2 (Z.ltb_ge s ((va / ps k + 1) * ps k))) by nia. by rewrite !andb_false_r.
    - rewrite (hit_after _ _ _ l) by (done || nia). apply andb_false_r. }
  destruct Hst as [Hfr Hwf Htb Hwk Hin]. split; [done..| |].
  - intros va Hva Hc. rewrite Hwk by done. destruct (walk H l a va) as [[n k]|] eqn:E; [|done].
    destruct (decide (get_index va l = get_index s l)); [done|]. by rewrite (Hno va n k).
  - intros va n k Hva Hc E Hh. apply Hin; [done| |done|done]. apply same_chunk; [lia|lia|done|].
    destruct (decide (get_index va l = get_index s l)); [done|]. by rewrite (Hno va n k) in Hh.
Qed.

Lemma unmap_more sh H l a s e H1 inv1 fr1 H2 inv2 fr2 : 0 <= s < e -> (get_index s l < 511)%nat -> (s / ps l + 1) * ps l < e ->
  step_post sh H l a s e H1 inv1 fr1 -> unmap_post sh H1 l a ((s / ps l + 1) * ps l) e H2 inv2 fr2 ->
  unmap_post sh H l a s e H2 (inv1 ++ inv2) (fr1 ++ fr2).
Proof.
  intros Hs Hidx Hce Hst Hun. set (ce := (s / ps l + 1) * ps l) in *. pose proof (ps_pos l) as Hp.
  assert (ce / ps l = s / ps l + 1) as Hcq by (unfold ce; apply Z.div_mul; lia).
  assert (ce / ps (S l) = s / ps (S l)) as Hcc by by apply next_chunk.
  assert (s < ce) as Hsc by (unfold ce; pose proof (Z.mul_succ_div_gt s (ps l) Hp); lia).
  (* a translation before [ce], at it, and after it *)
  assert (forall va n k, 0 <= va -> va / ps (S l) = s / ps (S l) -> walk H l a va = Some (n, k) ->
    (get_index va l = get_index s l -> gone ce e n k va = false) /\
    (get_index va l <> get_index s l -> gone ce e n k va = gone s e n k va)) as Hhit.
  { unfold gone. intros va n k Hva Hc Hwk. apply walk_level in Hwk. pose proof (chunk_mono k l va Hwk) as [Hm1 Hm2].
    pose proof (chunk_index va l) as Hiv. pose proof (chunk_index s l) as His. rewrite Hc in *. split; intros Hi.
    - unfold hit. rewrite (proj2 (Z.ltb_ge ce _)); [by rewrite !andb_false_r|]. unfold ce. rewrite His, <- Hi, <- Hiv. done.
    - destruct (decide (va / ps l < s / ps l)).
      + pose proof (Z.mul_div_le s (ps l) Hp). unfold hit.
        rewrite !(proj2 (Z.ltb_ge _ ((va / ps k + 1) * ps k))) by (unfold ce; nia). by rewrite !andb_false_r.
      + f_equal. symmetry. apply (hit_later _ _ _ _ l); [done|lia|unfold ce; nia]. }
  destruct Hst as [Hf1 Hw1 Ht1 Hk1 Hi1], Hun as [Hf2 Hw2 Ht2 Hk2 Hi2]. split.
  - intros b Hb. rewrite Hf2, Hf1; [done|done|]. intros Hb'. apply Hb. rewrite <- Ht1. set_solver.
  - done.
  - rewrite <- Ht1, <- Ht2. rewrite <- app_assoc. f_equiv. apply Permutation_app_comm.
  - intros va Hva Hc. rewrite Hk2 by congruence. rewrite Hk1 by done.
    destruct (walk H l a va) as [[n k]|] eqn:E; [|done]. destruct (Hhit va n k Hva Hc E) as [Hsame Hdiff].
    destruct (decide (get_index va l = get_index s l)) as [Hi|Hi].
    + destruct (gone s e n k va); [done|]. by rewrite Hsame.
    + by rewrite Hdiff.
  - intros va n k Hva Hc E Hh. destruct (Hhit va n k Hva Hc E) as [Hsame Hdiff].
    destruct (decide (get_index va l = get_index s l)) as [Hi|Hi].
    + destruct (Hi1 va n k Hva) as (v & ? & ?); [by apply same_chunk; try lia|done|done|]. exists v. split; [set_solver|done].
    + destruct (Hi2 va n k Hva) as (v & ? & ?); [congruence| |by rewrite Hdiff|exists v; split; [set_solver|done]].
      rewrite Hk1, E by done. by rewrite decide_False.
Qed.

(** ** Working below one entry *)
Lemma concat_disjoint {A} (L : list (list A)) i j x y b : NoDup (concat L) ->
  L !! i = Some x -> L !! j = Some y -> b ∈ x -> b ∈ y -> i = j.
Proof.
  revert i j. induction L as [|z L IH]; intros [|i] [|j] Hnd Hi Hj Hx Hy; simpl in *; try done.
  - injection Hi as ->. apply NoDup_app in Hnd as (_ & Hno & _). destruct (Hno b Hx).
    apply list_elem_of_In, in_concat. exists y. rewrite <- !list_elem_of_In. split; [by apply list_elem_of_lookup_2 in Hj|done].
  - injection Hj as ->. apply NoDup_app in Hnd as (_ & Hno & _). destruct (Hno b Hy).
    apply list_elem_of_In, in_concat. exists x. rewrite <- !list_elem_of_In. split; [by apply list_elem_of_lookup_2 in Hi|done].
  - f_equal. apply NoDup_app in Hnd as (_ & _ & Hnd). by eapply IH.
Qed.

Section child.
Context (sh : bool) (H : Tables) (k : nat) (a : Z) (t : list Z) (idx : nat).
Let e := entry_at t idx.
Let next := entry_addr e.
Context (Hw : wfs sh H (S k) a) (Hnd : NoDup (tabs H (S k) a)) (Ha : H !! a = Some t) (Hi : (idx < PAGE_TABLE_ENTRIES)%nat).
Context (Hn : ntable (S k) (norm e) = true).

#[local] Lemma child_length : length t = PAGE_TABLE_ENTRIES.
Proof using All. pose proof Hw as (t0 & Ha' & Hl & _). congruence. Qed.

#[local] Lemma child_slot i : (i < PAGE_TABLE_ENTRIES)%nat -> (below H k <$> (norm <$> t)) !! i = Some (below H k (norm (entry_at t i))).
Proof using All.
  intros Hi'. pose proof child_length as Hl. rewrite !list_lookup_fmap. unfold entry_at. rewrite (list_lookup_lookup_total_lt t i) by lia. done.
Qed.

#[local] Lemma child_below : below H k (norm e) = tabs H k next.
Proof using All. unfold below. by rewrite Hn, addr_norm. Qed.

Lemma child_nodup : NoDup (tabs H k next) /\ a ∉ tabs H k next.
Proof using All.
  pose proof Hnd as Hnd0. rewrite (tabs_unfold H k a t Ha) in Hnd0. apply NoDup_cons in Hnd0 as [Hno Hnd'].
  pose proof (concat_insert_perm _ idx _ (child_slot idx Hi)) as Hp. fold e in Hp. rewrite child_below in Hp. rewrite Hp in Hnd', Hno.
  apply NoDup_app in Hnd' as (? & _ & _). split; [done|set_solver].
Qed.

Lemma child_wf : wfs sh H k next.
Proof using All.
  pose proof Hw as (t0 & Ha' & Hl & _ & Hall). assert (t0 = t) as -> by congruence.
  apply (Hall e); [by apply entry_at_elem| |done]. by apply ntable_spec in Hn as (? & _).
Qed.

Lemma child_subset b : b ∈ tabs H k next -> b ∈ tabs H (S k) a.
Proof using All. apply elem_tabs_child with (t := t); [done|by apply entry_at_elem; [apply child_length|]|done]. Qed.

(** From here on only tables below the entry have changed. *)
Context (H1 : Tables) (fr ad : list Z) (Had : forall b, b ∈ ad -> b ∉ tabs H (S k) a).
Context (Hframe : forall b, b ∉ tabs H k next -> b ∉ ad -> H1 !! b = H !! b) (Hw1 : wfs sh H1 k next).
Context (Hp1 : tabs H1 k next ++ fr ≡ₚ tabs H k next ++ ad).

Lemma child_table : H1 !! a = Some t.
Proof using All. rewrite Hframe; [done|apply child_nodup|]. intros Hin. apply (Had a Hin), tabs_self. Qed.

#[local] Lemma sibling_frame i b : (i < PAGE_TABLE_ENTRIES)%nat -> i <> idx -> b ∈ below H k (norm (entry_at t i)) -> H1 !! b = H !! b.
Proof using All.
  intros Hi' Hne Hb. apply Hframe.
  2:{ intros Hin. apply (Had b Hin). rewrite (tabs_unfold H k a t Ha). right. apply list_elem_of_In, in_concat. eexists. rewrite <- !list_elem_of_In.
      split; [|exact Hb]. eapply list_elem_of_lookup_2. by apply child_slot. }
  intros Hb'. apply Hne. pose proof Hnd as Hnd0. rewrite (tabs_unfold H k a t Ha) in Hnd0. apply NoDup_cons in Hnd0 as [_ Hnd'].
  rewrite <- child_below in Hb'. by eapply (concat_disjoint _ i idx); [exact Hnd'|by apply child_slot|by apply child_slot|exact Hb|].
Qed.

Lemma child_keeps_wf : wfs sh H1 (S k) a.
Proof using All.
  pose proof child_table as Ha1. pose proof Hw as (t0 & Ha' & Hl & Hc & Hall). assert (t0 = t) as -> by congruence.
  exists t. split_and!; [done..|]. intros x Hx Hp. destruct (Hall x Hx Hp) as (? & ? & Hch). split_and!; [done..|]. intros Hnx.
  apply list_elem_of_lookup_1 in Hx as [i Hx]. pose proof (lookup_lt_Some _ _ _ Hx) as Hlt. rewrite Hl in Hlt.
  assert (entry_at t i = x) as Ex by by apply list_lookup_total_correct. destruct (decide (i = idx)) as [->|Hne].
  - by subst x.
  - apply (frame_wf sh H); [|by apply Hch]. intros b Hb. apply (sibling_frame i); [done|done|]. rewrite Ex. unfold below. by rewrite Hnx, addr_norm.
Qed.

Lemma child_keeps_tabs : tabs H1 (S k) a ++ fr ≡ₚ tabs H (S k) a ++ ad.
Proof using All.
  rewrite (tabs_unfold H k a t Ha), (tabs_unfold H1 k a t child_table). simpl. constructor.
  replace (below H1 k <$> (norm <$> t)) with (<[idx := tabs H1 k next]> (below H k <$> (norm <$> t))).
  - apply (concat_replace_perm _ _ (tabs H k next) _ _ ad); [rewrite child_slot by done; f_equal; apply child_below|done].
  - apply list_eq_same_length with (n := length t); [by rewrite !length_fmap|by rewrite length_insert, !length_fmap|].
    intros i x y Hlt Hx Hy. rewrite !list_lookup_fmap in Hy.
    destruct (decide (i = idx)) as [->|Hne].
    + rewrite list_lookup_insert_eq in Hx by (rewrite !length_fmap; lia). injection Hx as <-.
      rewrite (list_lookup_lookup_total_lt t idx) in Hy by lia. simpl in Hy. injection Hy as <-.
      unfold below. fold (entry_at t idx). fold e. by rewrite Hn, addr_norm.
    + rewrite list_lookup_insert_ne in Hx by done. rewrite child_length in Hlt. rewrite child_slot in Hx by done. injection Hx as <-.
      rewrite (list_lookup_lookup_total_lt t i) in Hy by (rewrite child_length; lia). simpl in Hy. injection Hy as <-.
      fold (entry_at t i). pose proof (sibling_frame i) as Hsf. unfold below in *.
      destruct (ntable (S k) (norm (entry_at t i))); [|done]. symmetry. apply frame_tabs. intros b Hb. by apply Hsf.
Qed.

Lemma child_walk va : walk H1 (S k) a va = if decide (get_index va (S k) = idx) then walk H1 k next va else walk H (S k) a va.
Proof using All.
  destruct (decide (get_index va (S k) = idx)) as [E|E].
  - rewrite (walk_table H1 k a va t child_table); rewrite E; done.
  - set (x := entry_at t (get_index va (S k))). pose proof Hw as (t0 & Ha' & Hl & _ & Hall). assert (t0 = t) as -> by congruence.
    assert (x ∈ t) as Hx by (apply entry_at_elem; [done|apply get_index_lt]). destruct (ntable (S k) (norm x)) eqn:Hnx.
    + rewrite (walk_table H1 k a va t child_table Hnx), (walk_table H k a va t Ha Hnx). fold x.
      apply (frame_walk sh); [apply (Hall x Hx); [by apply ntable_spec in Hnx as (? & _)|done]|].
      intros b Hb. apply (sibling_frame (get_index va (S k))); [apply get_index_lt|done|]. fold x. unfold below. by rewrite Hnx, addr_norm.
    + rewrite (walk_unfold H1 _ a va t child_table), (walk_unfold H _ a va t Ha). cbv zeta. fold x. unfold ntable in Hnx.
      destruct (nleaf (S k) (norm x)), (npresent (norm x)), (nshared (norm x)); done.
Qed.
End child.

(** An empty table. *)
Lemma used_zero t : used t = 0 -> forall e, e ∈ t -> npresent (norm e) = false.
Proof.
  induction t as [|x t IH]; cbn [used]; [set_solver|]. pose proof (used_bounds t). intros Hu e [->|He]%elem_of_cons.
  - destruct (npresent (norm x)); [simpl in Hu; lia|done].
  - apply IH; [|done]. destruct (npresent (norm x)); simpl in Hu; lia.
Qed.

Lemma empty_tabs H l a t : H !! a = Some t -> used t = 0 -> tabs H l a = [a].
Proof.
  intros Ha Hu. destruct l as [|l]; [done|]. rewrite (tabs_unfold H l a t Ha). f_equal.
  pose proof (used_zero t Hu) as Hz. clear -Hz. induction t as [|e t IH]; [done|]. rewrite !fmap_cons. simpl.
  unfold below at 1, ntable, nleaf. rewrite (Hz e) by by left. simpl. apply IH. intros x Hx. apply Hz. by right.
Qed.

Lemma empty_walk H l a t va : H !! a = Some t -> length t = PAGE_TABLE_ENTRIES -> used t = 0 -> walk H l a va = None.
Proof.
  intros Ha Hl Hu. rewrite (walk_unfold H l a va t Ha). cbv zeta. unfold nleaf.
  rewrite (used_zero t Hu); [done|]. apply entry_at_elem; [done|apply get_index_lt].
Qed.

(** [st'] is [st] with the region unmapped below a table. *)
Definition unmapped_by (post : Tables -> nat -> Z -> Z -> Z -> Tables -> list (Z * bool * bool * nat) -> list Z -> Prop) l a s e (st st' : PtState) : Prop :=
  exists ln inv fr, consist st' = mkConsist (lines (consist st) ++ ln) (invalidations (consist st) ++ inv) (freed (consist st) ++ fr) /\
    frames st' = frames st /\ post (tables st) l a s e (tables st') inv fr.

Definition unmapped sh := unmapped_by (unmap_post sh).

Lemma hit_self s e l va : 0 <= s < e -> va / ps l = s / ps l -> hit s e l va = true.
Proof.
  intros Hs Hc. unfold hit. rewrite Hc. pose proof (Z.mul_div_le s (ps l) (ps_pos l)). pose proof (Z.mul_succ_div_gt s (ps l) (ps_pos l)).
  rewrite (proj2 (Z.ltb_lt _ e)), (proj2 (Z.ltb_lt s _)) by lia. done.
Qed.

Section step.
Context `{Build} (sh : bool) (rec : PtState -> Z -> MappingCursor -> outcome PtState) (l : nat) (s e : Z) (Hr : region_ok s e).
Context (Hrec : forall k st a, l = S k -> wfs sh (tables st) k a -> NoDup (tabs (tables st) k a) ->
  exists st', rec st a (mkCursor s (e - s)) = Ret st' /\ unmapped sh k a s e st st').
Context (st : PtState) (a : Z) (Hw : wfs sh (tables st) l a) (Hnd : NoDup (tabs (tables st) l a)).
Let idx := get_index s l.

(** The entry holds a translation. *)
Lemma unmap_leaf t : tables st !! a = Some t -> length t = PAGE_TABLE_ENTRIES -> read_count t = used t ->
  nleaf l (norm (entry_at t idx)) = true ->
  exists st', update_entry st a idx new_unused s true l = Ret st' /\ unmapped_by (step_post sh) l a s e st st'.
Proof using All.
  intros Ha Hl Hc Hlf. assert (npresent (norm (entry_at t idx)) = true) as Hp by by eapply nleaf_present.
  assert (idx < PAGE_TABLE_ENTRIES)%nat as Hi by apply get_index_lt. destruct Hr as [Hse _].
  destruct (clear_entry st a t idx s true l Ha Hl Hc Hi Hp) as (t' & -> & Ht' & Hc'). eexists. split; [done|].
  exists [(a, idx)], [(s, nglobal (norm (entry_at t idx)), true, l)], []. split_and!; [simpl; by rewrite app_nil_r|done|].
    assert (forall va, get_index va l = idx -> walk (tables st) l a va = Some (norm (entry_at t idx), l)) as Hwk.
  { intros va E. rewrite (walk_unfold _ _ _ va t Ha). cbv zeta. by rewrite E, Hlf. }
  simpl. split.
  - intros b Hb. apply lookup_insert_ne. intros <-. apply Hb, tabs_self.
  - by apply (replace_wf sh _ l a t t' idx 0).
  - rewrite <- (replace_tabs_leaf sh (tables st) l a t t' idx 0) by done. destruct l as [|k]; [done|]. unfold below, ntable. by rewrite Hlf, andb_false_r.
  - intros va Hva Hcov. rewrite (replace_walk sh (tables st) l a t t' idx 0) by done. fold idx.
    destruct (decide (get_index va l = idx)) as [E|E]; [|by destruct (walk _ l a va) as [[n k]|]].
    rewrite (Hwk va E). unfold gone. rewrite Hlf, hit_self; [done|lia|]. apply same_chunk; (lia || done).
  - intros va n k Hva Hch Hk Hh. assert (get_index va l = idx) as E by (unfold idx; by rewrite !index_div, Hch).
    rewrite (Hwk va E) in Hk. injection Hk as <- <-. exists s. split; [by left|done].
Qed.

(** The entry points to a table. *)
Lemma unmap_child k t : l = S k -> tables st !! a = Some t -> ntable l (norm (entry_at t idx)) = true ->
  exists st1 nt, rec st (entry_addr (entry_at t idx)) (mkCursor s (e - s)) = Ret st1 /\
    tables st1 !! entry_addr (entry_at t idx) = Some nt /\ read_count nt = used nt /\ length nt = PAGE_TABLE_ENTRIES /\
    tables st1 !! a = Some t /\ tabs (tables st1) k (entry_addr (entry_at t idx)) ≠ [] /\
    (forall va, walk (tables st1) l a va = if decide (get_index va l = idx) then walk (tables st1) k (entry_addr (entry_at t idx)) va else walk (tables st) l a va) /\
    unmapped_by (step_post sh) l a s e st st1.
Proof using All.
  intros -> Ha Hn. assert (idx < PAGE_TABLE_ENTRIES)%nat as Hi by apply get_index_lt.
  pose proof (child_wf sh _ k a t idx Hw Hnd Ha Hi Hn) as Hcw. pose proof (child_nodup sh _ k a t idx Hw Hnd Ha Hi Hn) as [Hcn _].
  destruct (Hrec k st _ eq_refl Hcw Hcn) as (st1 & -> & ln & inv & fr & Ec & Ef & Hpost).
  pose proof (up_wf _ _ _ _ _ _ _ _ _ Hpost) as Hw1. destruct (wf_table _ _ _ _ Hw1) as (nt & Hnt & Hnl & Hnc).
  pose proof (up_frame _ _ _ _ _ _ _ _ _ Hpost) as Hfr. pose proof (up_tabs _ _ _ _ _ _ _ _ _ Hpost) as Htb.
  assert (forall b, b ∈ [] -> b ∉ tabs (tables st) (S k) a) as Had by set_solver.
  assert (forall b, b ∉ tabs (tables st) k (entry_addr (entry_at t idx)) -> b ∉ [] -> tables st1 !! b = tables st !! b) as Hfr' by auto.
  rewrite <- (app_nil_r (tabs (tables st) k _)) in Htb.
  pose proof (child_walk sh _ k a t idx Hw Hnd Ha Hi Hn _ fr [] Had Hfr' Hw1 Htb) as Hwk. destruct Hr as [Hse _].
  exists st1, nt. split_and!; [done..|by apply (child_table sh (tables st) k a t idx) with (fr := fr) (ad := [])|by destruct k|done|].
  exists ln, inv, fr. split_and!; [done..|]. split.
  - intros b Hb. apply Hfr. intros Hb'. by apply Hb, (child_subset sh _ k a t idx).
  - by apply (child_keeps_wf sh (tables st) k a t idx) with (fr := fr) (ad := []).
  - rewrite <- (app_nil_r (tabs (tables st) _ a)). by apply (child_keeps_tabs sh (tables st) k a t idx).
  - intros va Hva Hcov. rewrite Hwk. fold idx. destruct (decide (get_index va (S k) = idx)) as [E|E].
    + assert (va / ps (S k) = s / ps (S k)) as Hch by (apply same_chunk; (lia || done)).
      rewrite (up_walk _ _ _ _ _ _ _ _ _ Hpost va Hva Hch), (walk_table _ k a va t Ha); by rewrite E.
    + by destruct (walk _ (S k) a va) as [[n j]|].
  - intros va n j Hva Hch Hk Hh. assert (get_index va (S k) = idx) as E by (unfold idx; by rewrite !index_div, Hch).
    apply (up_inv _ _ _ _ _ _ _ _ _ Hpost va n j Hva Hch); [|done]. rewrite <- Hk, (walk_table _ k a va t Ha); by rewrite E.
Qed.

(** The table below the entry has become empty and is taken out. *)
Lemma unmap_free k t st1 nt : l = S k -> tables st1 !! a = Some t -> ntable l (norm (entry_at t idx)) = true ->
  tables st !! a = Some t -> tables st1 !! entry_addr (entry_at t idx) = Some nt -> read_count nt = 0 -> read_count nt = used nt ->
  length nt = PAGE_TABLE_ENTRIES ->
  (forall va, walk (tables st1) l a va = if decide (get_index va l = idx) then walk (tables st1) k (entry_addr (entry_at t idx)) va else walk (tables st) l a va) ->
  unmapped_by (step_post sh) l a s e st st1 ->
  exists st', update_entry (with_consist st1 (free_frame (consist st1) (entry_addr (entry_at t idx)))) a idx new_unused s false l = Ret st' /\
    unmapped_by (step_post sh) l a s e st st'.
Proof using All.
  intros -> Ha1 Hn Ha Hnt Hz Hc Hnl Hwk (ln & inv & fr & Ec & Ef & Hpost).
  pose proof (sp_wf _ _ _ _ _ _ _ _ _ Hpost) as Hw1. pose proof (sp_tabs _ _ _ _ _ _ _ _ _ Hpost) as Htb.
  assert (NoDup (tabs (tables st1) (S k) a)) as Hnd1 by (rewrite <- Htb in Hnd; by apply NoDup_app in Hnd as [? _]).
  destruct (wf_table _ _ _ _ Hw1) as (t0 & Ha1' & Hl & Hct). assert (t0 = t) as -> by congruence.
  assert (idx < PAGE_TABLE_ENTRIES)%nat as Hi by apply get_index_lt.
  assert (npresent (norm (entry_at t idx)) = true) as Hp by by apply ntable_spec in Hn as (? & _).
  set (st1' := with_consist st1 (free_frame (consist st1) (entry_addr (entry_at t idx)))).
  destruct (clear_entry st1' a t idx s false (S k)) as (t' & -> & Ht' & Hc'); [done..|]. eexists. split; [done|].
    exists (ln ++ [(a, idx)]), (inv ++ [(s, nglobal (norm (entry_at t idx)), false, S k)]), (fr ++ [entry_addr (entry_at t idx)]).
  split_and!; [simpl; rewrite Ec; simpl; by rewrite !app_assoc|done|]. simpl. split.
  - intros b Hb. rewrite lookup_insert_ne; [by apply (sp_frame _ _ _ _ _ _ _ _ _ Hpost)|]. intros <-. apply Hb. by left.
  - by apply (replace_wf sh _ (S k) a t t' idx 0).
  - rewrite <- Htb. rewrite <- (replace_tabs_leaf sh (tables st1) (S k) a t t' idx 0) by done. unfold below. rewrite Hn, addr_norm.
    rewrite (empty_tabs _ k _ nt) by (done || lia). rewrite <- !app_assoc. f_equiv. apply Permutation_app_comm.
  - intros va Hva Hcov. rewrite (replace_walk sh (tables st1) (S k) a t t' idx 0) by done. fold idx.
    pose proof (sp_walk _ _ _ _ _ _ _ _ _ Hpost va Hva Hcov) as Hsw. fold idx in Hsw. rewrite Hwk in Hsw.
    destruct (decide (get_index va (S k) = idx)) as [E|E].
    + rewrite (empty_walk _ _ _ nt) in Hsw by (done || lia). by rewrite <- Hsw.
    + rewrite Hwk, decide_False by done. by destruct (walk (tables st) (S k) a va) as [[n j]|].
  - intros va n j Hva Hch Hk Hh. destruct (sp_inv _ _ _ _ _ _ _ _ _ Hpost va n j Hva Hch Hk Hh) as (v & ? & ?). exists v. split; [set_solver|done].
Qed.

(** Nothing is done: the entry is not there, or links a shared table. *)
Lemma unmap_nothing t : tables st !! a = Some t -> npresent (norm (entry_at t idx)) = false \/ nlink l (norm (entry_at t idx)) = true ->
  unmapped_by (step_post sh) l a s e st st.
Proof using All.
  intros Ha Hc. exists [], [], []. rewrite !app_nil_r. split_and!; [by destruct (consist st)|done|].
  assert (forall va n k, get_index va l = idx -> walk (tables st) l a va = Some (n, k) -> gone s e n k va = false) as Hwk.
  { intros va n k E. rewrite (walk_unfold _ _ _ va t Ha). cbv zeta. rewrite E. destruct Hc as [Hp|(Hp & Hlf & Hs)%nlink_spec].
    - unfold nleaf. by rewrite Hp.
    - rewrite Hlf, Hp, Hs. destruct l; [done|]. intros [= <- <-]. unfold gone. by rewrite Hlf. }
  split; [done|done|by rewrite app_nil_r| |].
  - intros va Hva Hcov. fold idx. destruct (walk _ l a va) as [[n j]|] eqn:Ew; [|done]. destruct (decide (get_index va l = idx)) as [E|E]; [|done].
    by rewrite (Hwk va n j E Ew).
  - intros va n j Hva Hch Hk. rewrite (Hwk va n j) by (done || (unfold idx; by rewrite !index_div, Hch)). done.
Qed.

Lemma unmap_entry_spec : exists st', unmap_entry rec l idx st a (mkCursor s (e - s)) = Ret st' /\ unmapped_by (step_post sh) l a s e st st'.
Proof using All.
  destruct (wf_table _ _ _ _ Hw) as (t & Ha & Hl & Hc). unfold unmap_entry, table_of. rewrite Ha. cbn [unwrap obind c_start].
  assert (idx < PAGE_TABLE_ENTRIES)%nat as Hi by apply get_index_lt.
  rewrite present_norm, huge_norm, shared_norm. fold (nleaf l (norm (entry_at t idx))).
  destruct (nleaf l (norm (entry_at t idx))) eqn:El; [by apply (unmap_leaf t)|].
  destruct (npresent (norm (entry_at t idx))) eqn:Ep; cbn [andb].
  2:{ exists st. split; [done|]. apply (unmap_nothing t Ha). by left. }
  assert (exists k, l = S k) as [k Hk] by (destruct l as [|k]; [rewrite nleaf_0 in El; congruence|by exists k]).
  rewrite (proj2 (Nat.eqb_neq l 0)) by lia. cbn [negb]. destruct (nshared (norm (entry_at t idx))) eqn:Hs; cbn [negb].
  { exists st. split; [done|]. apply (unmap_nothing t Ha). right. by apply nlink_spec. }
  assert (ntable l (norm (entry_at t idx)) = true) as Hn by by apply ntable_spec.
  assert (nhuge (norm (entry_at t idx)) = false) as Hh.
  { subst l. destruct Hw as (t0 & Ha' & _ & _ & Hall). assert (t0 = t) as -> by congruence.
    destruct (Hall (entry_at t idx)) as (_ & Hh & _); [by apply entry_at_elem|done|].
    destruct (can_map_at_level (S k)) eqn:Ecm; [|by apply Hh]. unfold nleaf in El. rewrite Ep, Ecm in El. by destruct (nhuge _). }
  unfold next_table. rewrite present_norm, huge_norm, Ep, Hh. cbn [negb orb unwrap obind].
  destruct (unmap_child k t Hk Ha Hn) as (st1 & nt & -> & Hnt & Hnc & Hnl & Ha1 & _ & Hwk & Hpost). cbn [obind]. rewrite Hnt. cbn [unwrap obind].
  destruct (read_count nt =? 0) eqn:Ez; cbn [andb]; [|by exists st1]. apply Z.eqb_eq in Ez.
  destruct (l =? TOP_LEVEL)%nat; cbn [negb]; [by exists st1|]. by apply (unmap_free k t st1 nt).
Qed.
End step.

(** ** The loop and the recursion *)
Lemma unmap_loop_spec `{Build} sh rec l a e n : forall s st, region_ok s e ->
  (forall s' k st a, region_ok s' e -> l = S k -> wfs sh (tables st) k a -> NoDup (tabs (tables st) k a) ->
     exists st', rec st a (mkCursor s' (e - s')) = Ret st' /\ unmapped sh k a s' e st st') ->
  wfs sh (tables st) l a -> NoDup (tabs (tables st) l a) -> (get_index s l + S n = PAGE_TABLE_ENTRIES)%nat ->
  exists st', unmap_loop rec l (S n) (get_index s l) st a (mkCursor s (e - s)) = Ret st' /\ unmapped sh l a s e st st'.
Proof.
  induction n as [|n IH]; intros s st Hr Hrec Hw Hnd Hn; cbn [unmap_loop];
    destruct (unmap_entry_spec sh rec l s e Hr (fun k st a => Hrec s k st a Hr) st a Hw Hnd) as (st1 & -> & ln & inv & fr & Ec & Ef & Hst);
    cbn [obind]; rewrite align_advance_spec by done; cbn [obind]; pose proof Hr as [Hse Hcan].
  - assert (get_index s l = 511%nat) as Hi by (unfold PAGE_TABLE_ENTRIES in Hn; lia).
    exists st1. split; [by destruct (_ <? e)|]. exists ln, inv, fr. split_and!; [done..|]. apply unmap_last; auto.
  - destruct (Z.ltb_spec ((s / ps l + 1) * ps l) e) as [Hlt|Hge].
    2:{ exists st1. split; [done|]. exists ln, inv, fr. split_and!; [done..|]. apply unmap_last; auto. }
    set (ce := (s / ps l + 1) * ps l) in *. pose proof (ps_pos l) as Hp.
    assert (s < ce) as Hsc by (unfold ce; pose proof (Z.mul_succ_div_gt s (ps l) Hp); lia).
    assert (get_index ce l = S (get_index s l)) as Hi by (apply next_index; unfold PAGE_TABLE_ENTRIES in Hn; lia).
    pose proof (sp_wf _ _ _ _ _ _ _ _ _ Hst) as Hw1.
    assert (NoDup (tabs (tables st1) l a)) as Hnd1 by (pose proof Hnd as Hx; rewrite <- (sp_tabs _ _ _ _ _ _ _ _ _ Hst) in Hx; by apply NoDup_app in Hx as [? _]).
    destruct (IH ce st1) as (st2 & E2 & ln2 & inv2 & fr2 & Ec2 & Ef2 & Hun); [split; [lia|lia]|done|done|done|lia|].
    rewrite Hi in E2. exists st2. split; [done|]. exists (ln ++ ln2), (inv ++ inv2), (fr ++ fr2).
    split_and!; [rewrite Ec2, Ec; simpl; by rewrite !app_assoc|congruence|].
    apply (unmap_more _ _ _ _ _ _ (tables st1)); [lia|unfold PAGE_TABLE_ENTRIES in Hn; lia|done|done|done].
Qed.

Lemma unmap_spec `{Build} sh l : forall s e st a, region_ok s e -> wfs sh (tables st) l a -> NoDup (tabs (tables st) l a) ->
  exists st', unmap l st a (mkCursor s (e - s)) = Ret st' /\ unmapped sh l a s e st st'.
Proof.
  induction l as [|l IH]; intros s e st a Hr Hw Hnd; cbn [unmap c_start]; pose proof (get_index_lt s) as Hlt.
  - replace (PAGE_TABLE_ENTRIES - get_index s 0)%nat with (S (PAGE_TABLE_ENTRIES - get_index s 0 - 1)) by (specialize (Hlt 0%nat); lia).
    apply unmap_loop_spec; [done| |done|done|specialize (Hlt 0%nat); lia]. done.
  - replace (PAGE_TABLE_ENTRIES - get_index s (S l))%nat with (S (PAGE_TABLE_ENTRIES - get_index s (S l) - 1)) by (specialize (Hlt (S l)); lia).
    apply unmap_loop_spec; [done| |done|done|specialize (Hlt (S l)); lia].
    intros s' k st' a' Hr' [= ->] Hw' Hnd'. by apply IH.
Qed.

(** ** The translation of the processor

    It goes on in the shared tables that are linked. *)
Fixpoint translate H (level : nat) (a : Z) (va : Z) : option (Z * nat) :=
  match H !! a with
  | None => None
  | Some t =>
      let n := norm (default 0 (t !! get_index va level)) in
      if nleaf level n then Some (n, level)
      else if npresent n then match level with O => None | S l => translate H l (entry_addr n) va end
      else None
  end.

(** All tables the processor can reach from a table, and those it reaches by way of a link. *)
Fixpoint reach H (level : nat) (a : Z) : list Z :=
  a :: match level, H !! a with
       | S l, Some t => concat ((fun e => if npresent (norm e) && negb (nleaf level (norm e)) then reach H l (entry_addr e) else []) <$> t)
       | _, _ => []
       end.

Fixpoint linked H (level : nat) (a : Z) : list Z :=
  match level, H !! a with
  | S l, Some t =>
      concat ((fun e => if nlink level (norm e) then reach H l (entry_addr e)
                        else if ntable level (norm e) then linked H l (entry_addr e) else []) <$> t)
  | _, _ => []
  end.

(** The address is translated by way of a link. *)
Definition via_link H (level : nat) (a : Z) (va : Z) : bool :=
  match walk H level a va with Some (n, k) => negb (nleaf k n) | None => false end.

Lemma elem_concat_fmap {A B} (f : A -> list B) (l : list A) x b : x ∈ l -> b ∈ f x -> b ∈ concat (f <$> l).
Proof.
  intros Hx Hb. apply list_elem_of_In, in_concat. exists (f x). rewrite <- !list_elem_of_In. split; [|done]. apply list_elem_of_fmap. eauto.
Qed.

Lemma default_in (t : list Z) i : npresent (norm (default 0 (t !! i))) = true -> default 0 (t !! i) ∈ t.
Proof. destruct (t !! i) as [x|] eqn:E; [|done]. intros _. by eapply list_elem_of_lookup_2. Qed.

Lemma default_entry (t : list Z) va l : length t = PAGE_TABLE_ENTRIES -> default 0 (t !! get_index va l) = entry_at t (get_index va l).
Proof. intros Hl. pose proof (get_index_lt va l). unfold entry_at. by rewrite (list_lookup_lookup_total_lt t) by lia. Qed.

Lemma translate_frame H H' l va : forall a, (forall b, b ∈ reach H l a -> H' !! b = H !! b) -> translate H' l a va = translate H l a va.
Proof.
  induction l as [|l IH]; intros a Hb; cbn [translate]; (rewrite (Hb a); [|by left]); [done|]. destruct (H !! a) as [t|] eqn:Ha; [|done].
  cbv zeta. destruct (nleaf (S l) _) eqn:El; [done|]. destruct (npresent _) eqn:Ep; [|done]. apply IH. intros b Hr. apply Hb.
  simpl. rewrite Ha. right. apply (elem_concat_fmap _ _ _ _ (default_in _ _ Ep)). rewrite Ep, El. by rewrite addr_norm in Hr.
Qed.

(** What the tree translates, and where it goes on in a shared table *)
Lemma translate_walk sh H l va : forall a, wfs sh H l a -> translate H l a va =
  match walk H l a va with
  | Some (n, k) => if nleaf k n then Some (n, k) else match k with O => None | S k => translate H k (entry_addr n) va end
  | None => None
  end.
Proof.
  induction l as [|l IH]; intros a Hw; pose proof Hw as (t & Ha & Hl & _ & Hall); rewrite (walk_unfold H _ a va t Ha); cbn [translate]; rewrite Ha;
    cbv zeta; rewrite (default_entry t va) by done; set (e := entry_at t _).
  - destruct (nleaf 0 _) eqn:El; [by rewrite El|]. by destruct (npresent _).
  - destruct (nleaf (S l) (norm e)) eqn:El; [by rewrite El|]. destruct (npresent (norm e)) eqn:Ep; [|done].
    destruct (nshared (norm e)) eqn:Es; [by rewrite El|]. rewrite addr_norm.
    apply IH, (Hall e); [apply entry_at_elem; [done|apply get_index_lt]|done|]. by apply ntable_spec.
Qed.

Lemma linked_below sh H l va : forall a n k, wfs sh H l a -> walk H l a va = Some (n, S k) -> nleaf (S k) n = false ->
  forall b, b ∈ reach H k (entry_addr n) -> b ∈ linked H l a.
Proof.
  induction l as [|l IH]; intros a n k Hw; pose proof Hw as (t & Ha & Hl & _ & Hall); rewrite (walk_unfold H _ a va t Ha); cbv zeta.
  - destruct (nleaf 0 _); [done|]. by destruct (npresent _).
  - assert (entry_at t (get_index va (S l)) ∈ t) as Hin by (apply entry_at_elem; [done|apply get_index_lt]). set (e := entry_at t _) in *.
    destruct (nleaf (S l) (norm e)) eqn:El; [intros [= <- <-]; congruence|].
    destruct (npresent (norm e)) eqn:Ep; [|done]. intros Hwk Hn b Hb. cbn [linked]. rewrite Ha.
    apply (elem_concat_fmap _ _ e); [done|]. destruct (nshared (norm e)) eqn:Es.
    + injection Hwk as <- <-. rewrite (proj2 (nlink_spec _ _)) by done. by rewrite addr_norm in Hb.
    + assert (Hnt : ntable (S l) (norm e) = true) by by apply ntable_spec. unfold nlink. rewrite Es, andb_false_r, Hnt.
      rewrite addr_norm in Hwk. eapply IH; [by apply (Hall e)|done..].
Qed.

(** The translation after unmapping, where the shared tables are no tables of the tree *)
Lemma unmap_translate sh H l a s e H' inv fr va : unmap_post sh H l a s e H' inv fr -> wfs sh H l a ->
  (forall b, b ∈ linked H l a -> b ∉ tabs H l a) -> 0 <= va -> va / ps (S l) = s / ps (S l) ->
  translate H' l a va = match translate H l a va with
                        | Some (n, k) => if negb (via_link H l a va) && hit s e k va then None else Some (n, k)
                        | None => None
                        end.
Proof.
  intros Hu Hw Hd Hva Hc. pose proof (up_wf _ _ _ _ _ _ _ _ _ Hu) as Hw'.
  rewrite (translate_walk sh H' l va a Hw'), (translate_walk sh H l va a Hw), (up_walk _ _ _ _ _ _ _ _ _ Hu va Hva Hc). unfold via_link, gone.
  destruct (walk H l a va) as [[n k]|] eqn:Ew; [|done]. destruct (nleaf k n) eqn:El; cbn [negb andb].
  - destruct (hit s e k va); [done|]. by rewrite El.
  - rewrite El. destruct k as [|k]; [done|]. rewrite (translate_frame H H').
    + by destruct (translate H k (entry_addr n) va) as [[? ?]|].
    + intros b Hb. apply (up_frame _ _ _ _ _ _ _ _ _ Hu), Hd. by eapply linked_below.
Qed.

(** Without shared tables the tree is all there is. *)
Lemma walk_leaf H l va : forall a n k, wf H l a -> walk H l a va = Some (n, k) -> nleaf k n = true.
Proof.
  induction l as [|l IH]; intros a n k Hw; pose proof Hw as (t & Ha & Hl & _ & Hall);
    rewrite (walk_unfold H _ a va t Ha); cbv zeta; set (e := entry_at t _);
    (assert (e ∈ t) as Hin by (apply entry_at_elem; [done|apply get_index_lt])).
  - destruct (nleaf 0 (norm e)) eqn:El; [by intros [= <- <-]|]. by destruct (npresent _).
  - destruct (nleaf (S l) (norm e)) eqn:El; [by intros [= <- <-]|]. destruct (npresent (norm e)) eqn:Ep; [|done].
    destruct (Hall e Hin Ep) as (Hs & _ & Hch). rewrite (Hs eq_refl), addr_norm. apply IH, Hch, ntable_spec. auto.
Qed.

Lemma translate_tree H l va a : wf H l a -> translate H l a va = walk H l a va.
Proof.
  intros Hw. rewrite (translate_walk false) by done. destruct (walk H l a va) as [[n k]|] eqn:Ew; [|done]. by rewrite (walk_leaf _ _ _ _ _ _ Hw Ew).
Qed.

(** ** A decision procedure for [wfs], and examples *)
Fixpoint wfb (sh : bool) H (level : nat) (a : Z) : bool :=
  match H !! a with
  | None => false
  | Some t =>
      (length t =? PAGE_TABLE_ENTRIES)%nat && (read_count t =? used t) &&
      forallb (fun e => negb (npresent (norm e)) ||
        ((sh || negb (nshared (norm e))) &&
         match level with
         | O => true
         | S l => (can_map_at_level level || negb (nhuge (norm e))) && (negb (ntable level (norm e)) || wfb sh H l (entry_addr e))
         end)) t
  end.

Lemma wfb_sound sh H l : forall a, wfb sh H l a = true -> wfs sh H l a.
Proof.
  induction l as [|l IH]; intros a; cbn [wfb wfs]; destruct (H !! a) as [t|]; try done;
    intros [[Hl%Nat.eqb_eq Hc%Z.eqb_eq]%andb_true_iff Hall]%andb_true_iff; exists t; split_and!; try done;
    intros e He Hp; rewrite forallb_forall in Hall; specialize (Hall e); rewrite Hp in Hall; simpl in Hall;
    specialize (Hall ltac:(by apply list_elem_of_In)); apply andb_true_iff in Hall as [Hs Hr];
    (split; [intros ->; by apply negb_true_iff in Hs|]); try done.
  apply andb_true_iff in Hr as [Hh Ht]. split.
  - intros Hm. rewrite Hm in Hh. by apply negb_true_iff.
  - intros Hn. rewrite Hn in Ht. by apply IH.
Qed.

Definition rw_user : MappingSettings := mkSettings (mkProt true true false) WriteBack (mkMF false true).

(** A root at [0x1000] and frames from [0x2000] on; three pages from [0x1ff000] are mapped to
    physical memory at [0x800000], the first below one last-level table, the others below
    the next one. *)
Definition ex_mapper : Mapper := Mapper_new 0x1000.
Definition ex_empty : PtState :=
  mkPt {[ 0x1000 := replicate PAGE_TABLE_ENTRIES 0 ]} consist_new [0x2000; 0x3000; 0x4000; 0x5000; 0x6000].
Definition ex_mapped : PtState :=
  match mapper_map (H0 := contiguous_provider 46) (H := true) ex_mapper ex_empty (mkContig (Some 0x800000) 0x3000 rw_user) (mkCursor 0x1ff000 0x3000) with
  | Ret (_, s, _) => s
  | _ => ex_empty
  end.

Lemma ex_mapped_wf : wf (tables ex_mapped) 3 0x1000 /\ NoDup (tabs (tables ex_mapped) 3 0x1000).
Proof. split; [apply wfb_sound; vm_compute; reflexivity|]. apply (bool_decide_unpack _). vm_compute. reflexivity. Qed.

(** The same with a shared table at [0x7000], which maps one page, linked at [0x400000]. *)
Definition ex_shared : PtState :=
  let page := entry_new 0x900000 (match flags_from rw_user with Ret f => Z.lor f leaf | _ => 0 end) in
  let s := put ex_mapped 0x7000 (set_count (<[3%nat := page]> (replicate PAGE_TABLE_ENTRIES 0)) 1) in
  match mapper_shared_map (H := true) ex_mapper s (mkCursor 0x400000 0x200000) (mkSpt 0x7000 0) with
  | Ret (_, s) => s
  | _ => ex_empty
  end.

Lemma ex_linked_wf : wfs true (tables ex_shared) 3 0x1000 /\ NoDup (tabs (tables ex_shared) 3 0x1000) /\
  (forall b, b ∈ linked (tables ex_shared) 3 0x1000 -> b ∉ tabs (tables ex_shared) 3 0x1000).
Proof.
  split; [apply wfb_sound; vm_compute; reflexivity|]. split; [apply (bool_decide_unpack _); vm_compute; reflexivity|].
  intros b Hb. assert (Hl : linked (tables ex_shared) 3 0x1000 = [0x7000]) by (vm_compute; reflexivity). rewrite Hl in Hb.
  apply list_elem_of_singleton in Hb as ->. apply (bool_decide_unpack _). vm_compute. reflexivity.
Qed.

(** C5: unmapping.  The tables below a root form a tree, in which shared tables can be linked
    that are none of its own.  [Mapper::unmap] of a region in one half of the address space
    terminates without a panic.  Afterwards the processor translates an address as before,
    except that exactly the translations by tables of the tree that meet the region are
    gone, each with a TLB invalidation of its page queued: what is translated by way of a
    shared table stays, also in the region.  The tables still form a tree, the frames to free
    are exactly the tables that left it, and no other table, in particular no shared one, is
    changed. *)
Theorem unmap_correct `{Build} sh m s e st : let H := tables st in let l := start_level m in let a := root m in
  wfs sh H l a -> NoDup (tabs H l a) -> (forall b, b ∈ linked H l a -> b ∉ tabs H l a) -> region_ok s e ->
  exists fr st', mapper_unmap m st (mkCursor s (e - s)) = Ret (fr, st') /\
    wfs sh (tables st') l a /\ tabs (tables st') l a ++ fr ≡ₚ tabs H l a /\
    (forall b, b ∉ tabs H l a -> tables st' !! b = H !! b) /\
    forall va, 0 <= va -> va / ps (S l) = s / ps (S l) ->
      match translate H l a va with
      | None => translate (tables st') l a va = None
      | Some (n, k) =>
          if negb (via_link H l a va) && hit s e k va
          then translate (tables st') l a va = None /\
               exists v, (v, nglobal n, true, k) ∈ invalidations (consist st') /\ v / ps k = va / ps k
          else translate (tables st') l a va = Some (n, k)
      end.
Proof.
  intros H0 l a Hw Hnd Hd Hr. unfold mapper_unmap.
  destruct (unmap_spec sh l s e (with_consist st consist_new) a Hr Hw Hnd) as (st' & Eu & ln & inv & fr & Ec & _ & Hu). fold l a. rewrite Eu.
  simpl. exists (freed (consist st')), st'. rewrite Ec. simpl in *. split; [done|].
  split_and!; [apply Hu..|]. intros va Hva Hc. rewrite (unmap_translate _ _ _ _ _ _ _ _ _ va Hu Hw Hd Hva Hc).
  fold H0. destruct (translate H0 l a va) as [[n k]|] eqn:E; [|done]. destruct (negb _ && _) eqn:Eh; [|done]. split; [done|].
  apply andb_true_iff in Eh as [Hv Hh]. rewrite (translate_walk sh) in E by done. unfold via_link in Hv.
  destruct (walk H0 l a va) as [[n' k']|] eqn:Ew; [|done]. destruct (nleaf k' n') eqn:El; [|done]. injection E as -> ->.
  apply (up_inv _ _ _ _ _ _ _ _ _ Hu va n k Hva Hc Ew). unfold gone. by rewrite El.
Qed.

(** Unmapping three pages and the two megabytes after them: the pages of the tree go, the page
    in the shared table stays. *)
Lemma unmap_correct_witness :
  translate (tables ex_shared) 3 0x1000 0x201000 <> None /\ via_link (tables ex_shared) 3 0x1000 0x403000 = true /\
  exists fr st', mapper_unmap (H := true) ex_mapper ex_shared (mkCursor 0x200000 (0x500000 - 0x200000)) = Ret (fr, st') /\
    tabs (tables st') 3 0x1000 ++ fr ≡ₚ tabs (tables ex_shared) 3 0x1000 /\
    translate (tables st') 3 0x1000 0x201000 = None /\ translate (tables st') 3 0x1000 0x403000 <> None.
Proof.
  split; [vm_compute; discriminate|]. split; [vm_compute; reflexivity|].
  destruct (unmap_correct (H := true) true ex_mapper 0x200000 0x500000 ex_shared) as (fr & st' & E & _ & Ht & _ & Hw);
    [exact (proj1 ex_linked_wf)|exact (proj1 (proj2 ex_linked_wf))|exact (proj2 (proj2 ex_linked_wf))|unfold region_ok; lia|].
  exists fr, st'. split; [exact E|]. split; [exact Ht|]. split.
  - pose proof (Hw 0x201000 ltac:(lia) eq_refl) as Hx.
    assert (X : exists n, translate (tables ex_shared) 3 0x1000 0x201000 = Some (n, 0%nat)) by (eexists; vm_compute; reflexivity).
    assert (Y : via_link (tables ex_shared) 3 0x1000 0x201000 = false) by (vm_compute; reflexivity).
    destruct X as [n X]. change (start_level ex_mapper) with 3%nat in Hx. change (root ex_mapper) with 0x1000 in Hx. rewrite X, Y in Hx. exact (proj1 Hx).
  - pose proof (Hw 0x403000 ltac:(lia) eq_refl) as Hx.
    assert (X : exists n, translate (tables ex_shared) 3 0x1000 0x403000 = Some (n, 0%nat)) by (eexists; vm_compute; reflexivity).
    assert (Y : via_link (tables ex_shared) 3 0x1000 0x403000 = true) by (vm_compute; reflexivity).
    destruct X as [n X]. change (start_level ex_mapper) with 3%nat in Hx. change (root ex_mapper) with 0x1000 in Hx. rewrite X, Y in Hx.
    cbn [negb andb] in Hx. rewrite Hx. discriminate.
Defined.
End PageTableInv.
