(* ===== verification/PageTableRead.v ===== *)
(** * Page tables: reading mappings back

    What [Table::readmap] and [MapReader] report, against the translation [walk]; the settings of a
    mapping as they are stored in an entry and read again; and two behaviours of the
    code on concrete tables that its callers do not expect. *)
From S2P Require Import Prelude Address PageTable PageTableInv.

#[local] Open Scope Z_scope.

Module PageTableRead.
Import Address PageTable PageTableInv.

(** ** Reading one mapping *)

(** What a reading reports for an entry found at a level. *)
Definition info_of (va : Z) (n : Z) (k : nat) : MapInfo :=
  mkMapInfo va (entry_addr n) (flags_settings (entry_flags n)) (ps k) false.

Lemma contains_flag_norm e k : 0 <= k -> flag_bit k = true -> k <> 9 ->
  contains (entry_flags e) (2 ^ k) = contains (entry_flags (norm e)) (2 ^ k).
Proof. intros. by rewrite !flag_norm, norm_idem. Qed.

Lemma settings_norm e : flags_settings (entry_flags (norm e)) = flags_settings (entry_flags e).
Proof.
  unfold flags_settings, flags_perms, flags_cache, flags_flags, GLOBAL, USER, WRITE, NO_EXECUTE, CACHE_DISABLE, WRITE_THROUGH.
  by rewrite <- !(contains_flag_norm e) by done.
Qed.

(** A translation is shared by the whole page it lies in. *)
Lemma walk_same H l : forall a va va', (forall k, (k <= l)%nat -> get_index va k = get_index va' k) -> walk H l a va = walk H l a va'.
Proof.
  induction l as [|l IH]; intros a va va' Hi; simpl; destruct (H !! a) as [t|]; try done; rewrite (Hi _ (le_n _)); [done|].
  destruct (nleaf _ _); [done|]. destruct (npresent _); [|done]. destruct (nshared _); [done|]. apply IH. intros k Hk. apply Hi. lia.
Qed.

Lemma div_down va va' k j : (k <= j)%nat -> va / ps k = va' / ps k -> va / ps j = va' / ps j.
Proof. induction 1 as [|j Hj IH]; [done|]. intros E. rewrite !chunk_S. by rewrite IH. Qed.

Lemma index_same va va' k j : (k <= j)%nat -> va / ps k = va' / ps k -> get_index va j = get_index va' j.
Proof. intros Hj E. rewrite !index_div. by rewrite (div_down va va' k j). Qed.

(** A page translates as a whole. *)
Lemma walk_page H l : forall a va va' n k, walk H l a va = Some (n, k) -> va' / ps k = va / ps k -> walk H l a va' = Some (n, k).
Proof.
  induction l as [|l IH]; intros a va va' n k; cbn [walk]; destruct (H !! a) as [t|]; try done; intros Hk Hq.
  - destruct (nleaf 0 _) eqn:El; [|by destruct (npresent _)]. injection Hk as <- <-. by rewrite (index_same va' va 0 0), El.
  - destruct (nleaf (S l) _) eqn:El.
    + injection Hk as <- <-. by rewrite (index_same va' va (S l) (S l)), El.
    + destruct (npresent _) eqn:Ep; [|done]. destruct (nshared _) eqn:Es.
      { injection Hk as <- <-. by rewrite (index_same va' va (S l) (S l)), El, Ep, Es. }
      pose proof (walk_level _ _ _ _ _ _ Hk). rewrite (index_same va' va k (S l)) by (done || lia).
      rewrite El, Ep, Es. by apply (IH _ va).
Qed.

Lemma readmap_spec l : forall st a va len, wf (tables st) l a ->
  match walk (tables st) l a va with
  | Some (n, k) => readmap l st a (mkCursor va len) = Ret (Ok (info_of va n k))
  | None => exists k, (k <= l)%nat /\ readmap l st a (mkCursor va len) = Ret (Err (ps k)) /\
      forall va', va' / ps k = va / ps k -> walk (tables st) l a va' = None
  end.
Proof.
  induction l as [|l IH]; intros st a va len Hw; pose proof Hw as (t & Ha & Hl & _ & Hall); rewrite (walk_unfold _ _ _ va t Ha); cbv zeta;
    cbn [readmap]; unfold table_of; rewrite Ha; cbn [unwrap obind c_start];
    set (e := entry_at t (get_index va _)) in *; rewrite present_norm, huge_norm, shared_norm;
    assert (e ∈ t) as He by (apply entry_at_elem; [done|apply get_index_lt]); specialize (Hall e He);
    [fold (nleaf 0 (norm e))|fold (nleaf (S l) (norm e))].
  - destruct (nleaf 0 (norm e)) eqn:El.
    + unfold nleaf in El. apply andb_true_iff in El as [Hp _]. destruct (Hall Hp) as [Hs _]. rewrite (Hs eq_refl). unfold info_of. by rewrite addr_norm, settings_norm, page_size_ps.
    + assert (npresent (norm e) = false) as -> by (unfold nleaf in El; rewrite orb_true_r, andb_true_r in El; done).
      exists 0%nat. split_and!; [done|by rewrite page_size_ps|]. intros va' Hc. rewrite (walk_unfold _ _ _ va' t Ha). cbv zeta.
      rewrite (index_same va' va 0 0) by done. fold e. rewrite El. by destruct (npresent (norm e)).
  - destruct (nleaf (S l) (norm e)) eqn:El.
    + unfold nleaf in El. apply andb_true_iff in El as [Hp _]. destruct (Hall Hp) as [Hs _]. rewrite (Hs eq_refl). unfold info_of. by rewrite addr_norm, settings_norm, page_size_ps.
    + destruct (npresent (norm e)) eqn:Ep.
      * destruct (Hall eq_refl) as (Hs & Hh & Hch). specialize (Hs eq_refl). rewrite Hs.
        assert (ntable (S l) (norm e) = true) as Hn by by apply ntable_spec. assert (nhuge (norm e) = false) as Hh0.
        { destruct (can_map_at_level (S l)) eqn:Ecm; [|by apply Hh]. unfold nleaf in El. rewrite Ep, Ecm in El. by destruct (nhuge _). }
        unfold next_table. fold e. rewrite present_norm, huge_norm, Ep, Hh0. cbn [negb orb unwrap obind]. rewrite addr_norm.
        specialize (IH st (entry_addr e) va len (Hch Hn)). destruct (walk _ l _ va) as [[n k]|]; [done|].
        destruct IH as (k & Hk & -> & Hno). exists k. split_and!; [lia|done|]. intros va' Hc. rewrite (walk_unfold _ _ _ va' t Ha). cbv zeta.
        rewrite (index_same va' va k (S l)) by (done || lia). fold e. rewrite El, Ep, Hs, addr_norm. by apply Hno.
      * exists (S l). split_and!; [done|by rewrite page_size_ps|]. intros va' Hc. rewrite (walk_unfold _ _ _ va' t Ha). cbv zeta.
        rewrite (index_same va' va (S l) (S l)) by done. fold e. by rewrite El, Ep.
Qed.
(** ** Reading all mappings *)
Lemma advance_total `{Build} c len : exists c', advance c len = Ret c' /\
  forall d, c' = Some d -> c_len d = c_len c - len /\ c_start d = c_start c + len /\ len < c_len c.
Proof.
  unfold advance. destruct (Z.leb_spec (c_len c) len); [by exists None|]. unfold VirtAddr_offset, or_noncanonical. cbn [obind].
  unfold checked_add. cbn [vraw]. destruct (in_u 64 _); [|by exists None]. unfold VirtAddr_new.
  destruct (canonical _); [|by exists None]. eexists. split; [done|]. intros d [= <-]. done.
Qed.

Lemma ps_page k : 4096 <= ps k.
Proof. induction k as [|k IH]; [done|]. rewrite ps_S. lia. Qed.

(** What the reader leaves of a region after an address of it. *)
Definition rest_after (c : MappingCursor) (va : Z) (c' : option MappingCursor) : Prop :=
  forall d, c' = Some d -> c_start d + c_len d = c_start c + c_len c /\ va + 4096 <= c_start d /\ 0 < c_len d /\ (c_start d - va) mod 4096 = 0.

Lemma reader_next_spec `{Build} m st : wf (tables st) (start_level m) (root m) -> forall fuel c, 0 <= c_len c < 4096 * Z.of_nat fuel ->
  exists r, reader_next (S fuel) m st (Some c) = Ret r /\
    forall i, fst r = Some i -> exists va n k, i = info_of va n k /\ c_start c <= va < c_start c + c_len c /\
      walk (tables st) (start_level m) (root m) va = Some (n, k) /\ (va - c_start c) mod 4096 = 0 /\ rest_after c va (snd r).
Proof.
  intros Hw. induction fuel as [|fuel IH]; intros c Hc; [lia|]. remember (S fuel) as f eqn:Ef. cbn [reader_next].
  destruct (Z.eqb_spec (c_len c) 0) as [E|E]; [by eexists|]. unfold do_read_map. destruct c as [va len]. cbn [c_start c_len] in *.
  pose proof (readmap_spec (start_level m) st (root m) va len Hw) as Hread.
  assert (forall k, 4096 <= ps k /\ ps k mod 4096 = 0) as Hps.
  { intros k. split; [apply ps_page|]. induction k as [|k IHk]; [done|]. rewrite ps_S, Z.mul_mod, IHk, Z.mul_0_r by done. done. }
  destruct (walk (tables st) (start_level m) (root m) va) as [[n k]|] eqn:Ewk.
  - rewrite Hread. cbn [obind]. destruct (advance_total (mkCursor va len) (psize (info_of va n k))) as (c' & -> & Hd). eexists. split; [done|].
    intros i [= <-]. exists va, n, k. split_and!; [done|lia|lia|done|by rewrite Z.sub_diag|].
    intros d Ed. destruct (Hd d Ed) as (Hl & Hs & Hlt). simpl in *. destruct (Hps k). split_and!; [lia|lia|lia|]. by replace (c_start d - va) with (ps k) by lia.
  - destruct Hread as (k & _ & -> & _). cbn [obind]. destruct (advance_total (mkCursor va len) (ps k)) as (c' & -> & Hd). cbn [obind].
    destruct c' as [d|]; [|subst f; by eexists]. destruct (Hd d eq_refl) as (Hl & Hs & Hlt). cbn [c_len c_start] in *. destruct (Hps k) as [Hk1 Hk2].
    subst f. destruct (IH d) as (r & -> & Hr); [lia|]. exists r. split; [done|]. intros i Hi. destruct (Hr i Hi) as (va' & n & k' & ? & ? & ? & Hm & Hra).
    exists va', n, k'. split_and!; [done|lia|lia|done| |].
    + replace (va' - va) with ((va' - c_start d) + ps k) by lia. by rewrite Z.add_mod, Hm, Hk2 by done.
    + intros d' Ed'. destruct (Hra d' Ed') as (? & ? & ? & ?). cbn [c_len c_start] in *. split_and!; [lia|lia|lia|done].
Qed.

(** The reader of a cursor that is used up. *)
Lemma reader_next_none `{Build} m st fuel : reader_next (S fuel) m st None = Ret (None, None).
Proof. done. Qed.

(** ** Joining mappings *)

(** What a reported mapping says is true of every address of it. *)
Definition covers (m : Mapper) (st : PtState) (i : MapInfo) : Prop :=
  forall x, mi_vaddr i <= x < mi_vaddr i + psize i -> exists n k, walk (tables st) (start_level m) (root m) x = Some (n, k) /\
    entry_addr n + x mod ps k = mi_paddr i + (x - mi_vaddr i) /\ flags_settings (entry_flags n) = mi_settings i.

Lemma adjoins_spec `{Build} bits i j : exists b, adjoins bits i j = Ret b /\
  (b = true -> mi_vaddr j = mi_vaddr i + psize i /\ mi_paddr j = mi_paddr i + psize i /\ mi_settings i = mi_settings j).
Proof.
  unfold adjoins, VirtAddr_offset, PhysAddr_offset, checked_add, or_noncanonical, VirtAddr_new, PhysAddr_new. cbn [obind vraw praw].
  destruct (in_u 64 (mi_vaddr i + psize i)); [|by eexists]. destruct (canonical _); [|by eexists].
  destruct (in_u 64 (mi_paddr i + psize i)); [|by eexists]. destruct (_ || _); [|by eexists].
  eexists. split; [done|]. cbn [vraw praw]. intros [[->%Z.eqb_eq ->%bool_decide_eq_true]%andb_true_iff ->%Z.eqb_eq]%andb_true_iff. done.
Qed.

(** All pages of a region are of the smallest size. *)
Definition small_pages (m : Mapper) (st : PtState) (s e : Z) : Prop :=
  forall va n k, s <= va < e -> walk (tables st) (start_level m) (root m) va = Some (n, k) -> k = 0%nat.

Lemma covers_page m st va n : va mod 4096 = 0 -> walk (tables st) (start_level m) (root m) va = Some (n, 0%nat) -> covers m st (info_of va n 0).
Proof.
  intros Hm Hw x Hx. simpl in Hx. change (ps 0) with 4096 in Hx. assert (x / 4096 = va / 4096) as Hq.
  { apply Z.mod_divide in Hm as [q ->]; [|done]. rewrite Z.div_mul by done. symmetry. apply (Z.div_unique _ _ _ (x - 4096 * q)); lia. }
  exists n, 0%nat. split_and!; [by apply (walk_page _ _ _ va)| |done]. simpl. change (ps 0) with 4096. rewrite Z.mod_eq, Hq by done. rewrite Z.mod_eq in Hm by done. lia.
Qed.

Lemma covers_join m st i j sz : covers m st i -> covers m st j -> mi_vaddr j = mi_vaddr i + psize i -> mi_paddr j = mi_paddr i + psize i ->
  mi_settings i = mi_settings j -> sz = psize i + psize j -> covers m st (mkMapInfo (mi_vaddr i) (mi_paddr i) (mi_settings i) sz (is_shared_pt i)).
Proof.
  intros Hi Hj Ev Ep Es -> x Hx. simpl in *. destruct (decide (x < mi_vaddr i + psize i)) as [Hlt|Hge]; [apply Hi; lia|].
  destruct (Hj x) as (n & k & ? & Ha & ?); [lia|]. exists n, k. split_and!; [done|lia|congruence].
Qed.

Section coalesce.
Context `{Build} (bits : Z) (m : Mapper) (st : PtState) (s e : Z).
Context (Hw : wf (tables st) (start_level m) (root m)) (Hsmall : small_pages m st s e).

(** What is left to read, and a mapping held back that is true. *)
Definition left_of (oc : option MappingCursor) : Z := match oc with Some c => c_len c | None => 0 end.
Definition part_of (oc : option MappingCursor) : Prop :=
  forall c, oc = Some c -> s <= c_start c /\ c_start c + c_len c = e /\ c_start c mod 4096 = 0 /\ c_len c mod 4096 = 0.

Lemma coalesce_next_spec fuel : forall oc last, part_of oc -> 0 <= left_of oc < 4096 * Z.of_nat fuel -> left_of oc < 2 ^ 64 ->
  (forall i, last = Some i -> covers m st i /\ 0 <= psize i /\ psize i + left_of oc < 2 ^ 64) ->
  exists r c' l', coalesce_next bits (S fuel) m st oc last = Ret (r, c', l') /\
    (forall i, r = Some i -> covers m st i) /\ (forall i, l' = Some i -> covers m st i).
Proof using All.
  induction fuel as [|fuel IH]; intros oc last Hp Hl H64 Hlast; [lia|]. remember (S fuel) as f eqn:Ef. cbn [coalesce_next].
  destruct oc as [c|].
  2:{ rewrite reader_next_none. cbn [obind]. exists last, None, None. split_and!; [done| |done]. intros i Hi. by apply Hlast. }
  destruct (Hp c eq_refl) as (Hs & He & Hm1 & Hm2). cbn [left_of] in *. pose proof (reader_next_spec m st Hw f c Hl) as (r & Er & Hr).
  destruct r as [next c']. rewrite Er. cbn [obind fst snd] in *. destruct next as [i|].
  2:{ exists last, c', None. split_and!; [done| |done]. intros i Hi. by apply Hlast. }
  destruct (Hr i eq_refl) as (va & n & k & -> & Hva & Hwk & Hm & Hra).
  assert (k = 0%nat) as -> by (apply (Hsmall va n k); [lia|done]).
  assert (va mod 4096 = 0) as Hva0 by (replace va with ((va - c_start c) + c_start c) by lia; by rewrite Z.add_mod, Hm, Hm1 by done).
  pose proof (covers_page m st va n Hva0 Hwk) as Hcov.
  assert (4096 + left_of c' <= c_len c /\ 0 <= left_of c') as Hleft.
  { destruct c' as [d|]; simpl; [destruct (Hra d eq_refl) as (? & ? & ? & ?); lia|]. apply Z.mod_divide in Hm2 as [q Hq]; [|done]. lia. }
  assert (part_of c') as Hp'.
  { intros d ->. destruct (Hra d eq_refl) as (H1 & H2 & H3 & H4). assert (c_start d mod 4096 = 0) as Hd.
    { replace (c_start d) with ((c_start d - va) + va) by lia. by rewrite Z.add_mod, H4, Hva0 by done. }
    split_and!; [lia|lia|done|]. replace (c_len d) with (c_start c + c_len c - c_start d) by lia.
    rewrite Zminus_mod, Z.add_mod, Hm1, Hm2, Hd by done. done. }
  destruct last as [i|].
  - destruct (Hlast i eq_refl) as (Hci & Hpi & Hbi). destruct (adjoins_spec bits i (info_of va n 0)) as (b & -> & Hb). cbn [obind]. destruct b.
    + destruct (Hb eq_refl) as (E1 & E2 & E3). change (psize (info_of va n 0)) with 4096. rewrite chk_in by lia. cbn [obind]. subst f.
      apply IH; [done|lia|lia|]. intros x [= <-]. split_and!; [|simpl; lia|simpl; lia]. by apply (covers_join m st i (info_of va n 0)).
    + exists (Some i), c', (Some (info_of va n 0)). split_and!; [done| |]; by intros x [= <-].
  - subst f. apply IH; [done|lia|lia|]. intros x [= <-]. change (psize (info_of va n 0)) with 4096. split_and!; [done|lia|lia].
Qed.
End coalesce.

(** Reading a mapping.  [Mapper::do_read_map] never panics on a tree of tables: it reports
    the frame, the settings and the page size of the translation of the address, and where
    there is none, the size of an aligned chunk around the address without translations. *)
Theorem do_read_map_correct m st va len : wf (tables st) (start_level m) (root m) ->
  match walk (tables st) (start_level m) (root m) va with
  | Some (n, k) => do_read_map m st (mkCursor va len) = Ret (Ok (info_of va n k))
  | None => exists k, (k <= start_level m)%nat /\ do_read_map m st (mkCursor va len) = Ret (Err (ps k)) /\
      forall va', va' / ps k = va / ps k -> walk (tables st) (start_level m) (root m) va' = None
  end.
Proof. apply readmap_spec. Qed.

Lemma do_read_map_correct_witness :
  do_read_map ex_mapper ex_mapped (mkCursor 0x201000 0x1000) = Ret (Ok (mkMapInfo 0x201000 0x802000 rw_user 0x1000 false)) /\
  exists k, (k <= 3)%nat /\ do_read_map ex_mapper ex_mapped (mkCursor 0x40000000 0x1000) = Ret (Err (ps k)).
Proof.
  assert (walk (tables ex_mapped) (start_level ex_mapper) (root ex_mapper) 0x201000 = Some (0x8000000000802007, 0%nat)) as E1 by (vm_compute; reflexivity).
  assert (walk (tables ex_mapped) (start_level ex_mapper) (root ex_mapper) 0x40000000 = None) as E2 by (vm_compute; reflexivity).
  pose proof (do_read_map_correct ex_mapper ex_mapped 0x201000 0x1000 (proj1 ex_mapped_wf)) as T1. rewrite E1 in T1.
  pose proof (do_read_map_correct ex_mapper ex_mapped 0x40000000 0x1000 (proj1 ex_mapped_wf)) as T2. rewrite E2 in T2.
  split; [rewrite T1; vm_compute; reflexivity|]. destruct T2 as (k & Hk & T2 & _). exact (ex_intro _ k (conj Hk T2)).
Defined.

(** The map reader terminates.  On a tree of tables, [MapReader::next] returns after at most one reading
    per page of the region that is left, and what it returns is the translation of an
    address of the region. *)
Theorem reader_next_terminates `{Build} m st c : wf (tables st) (start_level m) (root m) -> 0 <= c_len c ->
  exists fuel r, Z.of_nat fuel <= c_len c / 4096 + 2 /\ reader_next fuel m st (Some c) = Ret r /\
    forall i, fst r = Some i -> exists va n k, i = info_of va n k /\ c_start c <= va < c_start c + c_len c /\
      walk (tables st) (start_level m) (root m) va = Some (n, k).
Proof.
  intros Hw Hl. destruct (reader_next_spec m st Hw (Z.to_nat (c_len c / 4096 + 1)) c) as (r & E & Hr).
  - pose proof (Z.mul_succ_div_gt (c_len c) 4096). lia.
  - exists (S (Z.to_nat (c_len c / 4096 + 1))), r. split_and!; [pose proof (Z.div_pos (c_len c) 4096); lia|done|].
    intros i Hi. destruct (Hr i Hi) as (va & n & k & ? & ? & ? & _). by exists va, n, k.
Qed.

Lemma reader_next_terminates_witness :
  exists fuel r, Z.of_nat fuel <= 0x3000 / 4096 + 2 /\ reader_next (H := true) fuel ex_mapper ex_mapped (Some (mkCursor 0x1fe000 0x3000)) = Ret r.
Proof.
  destruct (reader_next_terminates (H := true) ex_mapper ex_mapped (mkCursor 0x1fe000 0x3000) (proj1 ex_mapped_wf)) as (f & r & Hf & E & _);
    [simpl; lia|]. by exists f, r.
Defined.

(** Joining mappings.  In a region of small pages, [MapCoalescer::next] returns after at most one reading per page, and
    both the mapping it returns and the one it holds back say the truth about every
    address they span: its physical address and its settings. *)
Theorem coalesce_next_covers `{Build} bits m st c : wf (tables st) (start_level m) (root m) ->
  small_pages m st (c_start c) (c_start c + c_len c) -> 0 <= c_len c < 2 ^ 64 -> c_start c mod 4096 = 0 -> c_len c mod 4096 = 0 ->
  exists fuel r c' l', Z.of_nat fuel <= c_len c / 4096 + 2 /\ coalesce_next bits fuel m st (Some c) None = Ret (r, c', l') /\
    (forall i, r = Some i -> covers m st i) /\ (forall i, l' = Some i -> covers m st i).
Proof.
  intros Hw Hsm Hl Hs He. destruct (coalesce_next_spec bits m st (c_start c) (c_start c + c_len c) Hw Hsm (Z.to_nat (c_len c / 4096 + 1)) (Some c) None)
    as (r & c' & l' & E & Hr & Hl'); [by intros d [= <-]|simpl; pose proof (Z.mul_succ_div_gt (c_len c) 4096); lia|simpl; lia|done|].
  exists (S (Z.to_nat (c_len c / 4096 + 1))), r, c', l'. split_and!; [pose proof (Z.div_pos (c_len c) 4096); lia|done..].
Qed.

Lemma ex_small : small_pages ex_mapper ex_mapped 0x1ff000 0x202000.
Proof.
  intros va n k Hva Hk. assert (va / 4096 = 0x1ff \/ va / 4096 = 0x200 \/ va / 4096 = 0x201) as Hq.
  { pose proof (Z.div_le_mono 0x1ff000 va 4096 ltac:(lia) ltac:(lia)) as H1. pose proof (Z.div_lt_upper_bound va 4096 0x202 ltac:(lia) ltac:(lia)).
    change (0x1ff000 / 4096) with 0x1ff in H1. lia. }
  assert (forall p, p / 4096 = va / 4096 -> snd <$> walk (tables ex_mapped) (start_level ex_mapper) (root ex_mapper) p = Some k) as Hp.
  { intros p Hp. rewrite (walk_same _ _ _ p va), Hk; [done|]. intros j Hj. by apply (index_same p va 0 j); [lia|]. }
  destruct Hq as [E|[E|E]]; [specialize (Hp 0x1ff000)|specialize (Hp 0x200000)|specialize (Hp 0x201000)]; rewrite E in Hp; specialize (Hp eq_refl);
    vm_compute in Hp; by injection Hp.
Qed.

Lemma coalesce_next_covers_witness :
  coalesce_next (H := true) 46 5 ex_mapper ex_mapped (Some (mkCursor 0x1ff000 0x3000)) None = Ret (Some (mkMapInfo 0x1ff000 0x800000 rw_user 0x3000 false), None, None) /\
  exists fuel r c' l', Z.of_nat fuel <= 0x3000 / 4096 + 2 /\ coalesce_next (H := true) 46 fuel ex_mapper ex_mapped (Some (mkCursor 0x1ff000 0x3000)) None = Ret (r, c', l').
Proof.
  split; [vm_compute; reflexivity|].
  destruct (coalesce_next_covers (H := true) 46 ex_mapper ex_mapped (mkCursor 0x1ff000 0x3000)) as (fuel & r & c' & l' & Hf & E & _).
  1: exact (proj1 ex_mapped_wf). 1: exact ex_small. 1: simpl; lia. 1-2: reflexivity.
  exists fuel, r, c', l'. exact (conj Hf E).
Defined.

(** ** Settings in an entry *)

(** The settings a mapping has once it is stored: it is readable, and write-combining memory
    is mapped write-back. *)
Definition stored (s : MappingSettings) : MappingSettings :=
  mkSettings (mkProt true (p_write (perms s)) (p_exec (perms s)))
    (match cache s with WriteCombining => WriteBack | c => c end) (mflags s).

Lemma addr_no_flags p : Z.land (entry_addr p) ALL_FLAGS = 0.
Proof. unfold entry_addr. rewrite <- Z.land_assoc. change (Z.land ADDR_MASK ALL_FLAGS) with 0. apply Z.land_0_r. Qed.

Lemma entry_parts p f : Z.land f ALL_FLAGS = f -> Z.land f ADDR_MASK = 0 -> entry_addr p = p ->
  entry_addr (entry_new p f) = p /\ entry_flags (entry_new p f) = Z.lor f PRESENT.
Proof.
  intros Hf Ha Hp. unfold entry_new, new_internal. split.
  - unfold entry_addr in *. by rewrite !Z.land_lor_distr_l, Hp, Ha, !Z.lor_0_r.
  - unfold entry_flags. rewrite !Z.land_lor_distr_l, Hf. rewrite <- Hp, addr_no_flags. done.
Qed.

Lemma entry_new_spec s f p (big : bool) : flags_from s = Ret f -> entry_addr p = p ->
  let e := entry_new p (Z.lor f (if big then huge else leaf)) in
  entry_addr e = p /\ is_present e = true /\ is_huge e = big /\ is_shared e = false /\ flags_settings (entry_flags e) = stored s.
Proof.
  intros Hf Hp e. unfold is_present, is_huge, is_shared, e. destruct s as [[r w x] c [g u]].
  assert (Z.land (Z.lor f (if big then huge else leaf)) ALL_FLAGS = Z.lor f (if big then huge else leaf) /\
          Z.land (Z.lor f (if big then huge else leaf)) ADDR_MASK = 0) as [H1 H2].
  { destruct w, x, c, g, u, big; vm_compute in Hf; try discriminate; injection Hf as <-; done. }
  destruct (entry_parts p _ H1 H2 Hp) as [-> ->]. split; [done|]. clear H1 H2 e.
  destruct w, x, c, g, u, big; vm_compute in Hf; try discriminate; injection Hf as <-; done.
Qed.

(** Settings round trip.  An entry made of a frame and of the flags of mapping settings, for
    a page or a huge page, gives back the frame and the settings (readable, and
    write-back for write-combining), is present, huge exactly if asked and never shared;
    storing the count of the table in it changes none of this. *)
Theorem entry_settings_roundtrip s f p (big count : bool) : flags_from s = Ret f -> entry_addr p = p ->
  let e := set_avail_bit (entry_new p (Z.lor f (if big then huge else leaf))) count in
  entry_addr e = p /\ is_present e = true /\ is_huge e = big /\ is_shared e = false /\
  flags_settings (entry_flags e) = stored s /\ get_avail_bit e = count.
Proof.
  intros Hf Hp e. destruct (entry_new_spec s f p big Hf Hp) as (Ha & Hpr & Hh & Hs & Hst).
  rewrite present_norm, huge_norm, shared_norm, <- settings_norm, <- addr_norm. unfold e. rewrite get_set_avail, set_avail_norm.
  by rewrite addr_norm, settings_norm, <- present_norm, <- huge_norm, <- shared_norm.
Qed.

Lemma entry_settings_roundtrip_witness :
  let s := mkSettings (mkProt true true false) WriteCombining (mkMF false true) in
  exists f, flags_from s = Ret f /\
    flags_settings (entry_flags (set_avail_bit (entry_new 0x1234000 (Z.lor f huge)) true)) = mkSettings (mkProt true true false) WriteBack (mkMF false true).
Proof.
  intros s. destruct (flags_from s) as [f| |] eqn:E; [|by vm_compute in E..]. exists f. split; [done|].
  destruct (entry_settings_roundtrip s f 0x1234000 true true E eq_refl) as (_ & _ & _ & _ & Hs & _). exact Hs.
Defined.

(** ** Two surprises *)

(** A page is mapped at [0x200000] and nothing before it. *)
Definition ex_one : PtState :=
  match mapper_map (H0 := contiguous_provider 46) (H := true) ex_mapper ex_empty (mkContig (Some 0x800000) 0x1000 rw_user) (mkCursor 0x200000 0x1000) with
  | Ret (_, s, _) => s
  | _ => ex_empty
  end.

(** The map reader skips mapped pages.  Reading the region [0x1ff000, 0x202000), the reader advances by the
    2 MiB of the hole from the unaligned start instead of to its end, and reports no
    mapping although the page at 0x200000 is mapped. *)
Theorem reader_skips_mapped :
  reader_next (H := true) 5 ex_mapper ex_one (Some (mkCursor 0x1ff000 0x3000)) = Ret (None, None) /\
  do_read_map ex_mapper ex_one (mkCursor 0x200000 0x1000) = Ret (Ok (mkMapInfo 0x200000 0x800000 rw_user 0x1000 false)).
Proof. split; vm_compute; reflexivity. Qed.

(** Pages mapped at [0] and at [0x40001000]; the allocator is empty afterwards. *)
Definition ex_two : PtState :=
  match mapper_map (H0 := contiguous_provider 46) (H := true) ex_mapper ex_empty (mkContig (Some 0x900000) 0x1000 rw_user) (mkCursor 0 0x1000) with
  | Ret (_, s, _) =>
      match mapper_map (H0 := contiguous_provider 46) (H := true) ex_mapper s (mkContig (Some 0x901000) 0x1000 rw_user) (mkCursor 0x40001000 0x1000) with
      | Ret (_, s, _) => s
      | _ => ex_empty
      end
  | _ => ex_empty
  end.

(** A failure below is lost.  With no frame left, mapping the two pages around 1 GiB to 0x800000 and 0x801000
    reports success; the first page is not mapped, and the second is mapped to the frame
    meant for the first. *)
Theorem map_loses_failure :
  frames ex_two = [] /\
  exists st ph, mapper_map (H0 := contiguous_provider 46) (H := true) ex_mapper ex_two (mkContig (Some 0x800000) 0x2000 rw_user) (mkCursor 0x3ffff000 0x2000) = Ret (Ok tt, st, ph) /\
    (exists skip, do_read_map ex_mapper st (mkCursor 0x3ffff000 0x1000) = Ret (Err skip)) /\
    do_read_map ex_mapper st (mkCursor 0x40000000 0x1000) = Ret (Ok (mkMapInfo 0x40000000 0x800000 rw_user 0x1000 false)).
Proof.
  split; [vm_compute; reflexivity|].
  destruct (mapper_map (H0 := contiguous_provider 46) (H := true) ex_mapper ex_two (mkContig (Some 0x800000) 0x2000 rw_user) (mkCursor 0x3ffff000 0x2000))
    as [[[r st] ph]| |] eqn:E; [|by vm_compute in E..].
  vm_compute in E. injection E as <- <- <-. do 2 eexists. split; [done|]. split; [eexists|]; vm_compute; reflexivity.
Qed.
End PageTableRead.
