(* ===== verification/PageTableMap.v ===== *)
(** * Page tables: mapping

    What a provider of physical memory promises to [Table::map], the promise kept by
    [ContiguousProvider], and the correctness of mapping an unmapped region: with enough
    frames for the tables, every address of the region translates to the memory the
    provider gave for it, nothing else changes, and the tables stay a tree. *)
From S2P Require Import Prelude Address PageTable PageTableInv PageTableRead.

#[local] Open Scope Z_scope.

Module PageTableMap.
Import Address PageTable PageTableInv PageTableRead.

(** ** Providers *)

(** [gives ph f cfg s e]: the provider in state [ph] has, for every address of [s, e), the
    physical address [f] of it, to be mapped with the settings [cfg]. *)
Class Provider (P : Type) `{PhysAddrProvider P} := {
  gives : P -> (Z -> Z) -> MappingSettings -> Z -> Z -> Prop;
  gives_peek ph f cfg s e : gives ph f cfg s e -> s < e -> s mod 4096 = 0 -> e mod 4096 = 0 ->
    exists len ph', peek ph = (Some (mkPhysInfo (f s) len cfg), ph') /\
      gives ph' f cfg s e /\ 4096 <= len /\ f s mod 4096 = 0 /\ 0 <= f s < 2 ^ 52 /\
      (forall d, 0 <= d < len -> s + d < e -> f (s + d) = f s + d) /\
      forall sz, 0 < sz <= len -> sz <= e - s -> sz mod 4096 = 0 -> gives (consume ph' sz) f cfg (s + sz) e }.

(** The contiguous provider keeps the promise for the memory it has left. *)
Definition contig_gives (bits : Z) (ph : ContiguousProvider) (f : Z -> Z) (cfg : MappingSettings) (s e : Z) : Prop :=
  0 <= bits <= 52 /\ cp_settings ph = cfg /\ e - s <= rem ph /\ rem ph mod 4096 = 0 /\
  exists p, next ph = Some p /\ 0 <= p /\ p + rem ph < 2 ^ bits /\ p mod 4096 = 0 /\ forall va, f va = p + (va - s).

Lemma contig_peek bits ph f cfg s e : contig_gives bits ph f cfg s e -> s < e -> s mod 4096 = 0 -> e mod 4096 = 0 ->
  exists len ph', peek (PhysAddrProvider := contiguous_provider bits) ph = (Some (mkPhysInfo (f s) len cfg), ph') /\
    contig_gives bits ph' f cfg s e /\ 4096 <= len /\ f s mod 4096 = 0 /\ 0 <= f s < 2 ^ 52 /\
    (forall d, 0 <= d < len -> s + d < e -> f (s + d) = f s + d) /\
    forall sz, 0 < sz <= len -> sz <= e - s -> sz mod 4096 = 0 ->
      contig_gives bits (consume (PhysAddrProvider := contiguous_provider bits) ph' sz) f cfg (s + sz) e.
Proof.
  destruct ph as [nx r c]. intros Hg. pose proof Hg as (Hb & <- & Hr & Hm & p & Hnx & Hp & Hlim & Hpm & Hf). intros Hlt Hs He. simpl in *. subst nx.
  assert (2 ^ bits <= 2 ^ 52) by (apply Z.pow_le_mono_r; lia).
  assert (4096 <= r) as Hr4 by (apply Z.mod_divide in Hs, He, Hm; [|lia..]; destruct Hs, He, Hm; lia).
  exists r, (mkContig (Some p) r c). rewrite Hf. rewrite Z.sub_diag, Z.add_0_r. split_and!; [done|done|lia|done|lia|lia| |].
  - intros d Hd Hde. rewrite Hf. lia.
  - intros sz Hsz Hse Hsm. simpl. unfold checked_add. rewrite (proj2 (in_u_spec 64 _)) by lia. unfold PhysAddr_new.
    rewrite Z.shiftl_1_l, (proj2 (Z.ltb_lt _ _)), orb_true_r by lia. simpl. split_and!; simpl; [lia|lia|done|unfold saturating_sub; lia| |].
    + unfold saturating_sub. rewrite Z.max_r by lia. apply Z.mod_divide; [lia|]. apply Z.divide_sub_r; by apply Z.mod_divide.
    + exists (p + sz). unfold saturating_sub. split_and!; [done|lia|lia| |intros va; rewrite Hf; lia].
      apply Z.mod_divide; [lia|]. apply Z.divide_add_r; by apply Z.mod_divide.
Qed.

#[global] Instance contiguous_Provider (bits : Z) : @Provider ContiguousProvider (contiguous_provider bits) :=
  { gives := contig_gives bits; gives_peek := contig_peek bits }.

(** ** The tables a region needs *)

(** The number of chunks of a level that [s, e) touches. *)
Definition touched (l : nat) (s e : Z) : Z := if s <? e then (e - 1) / ps l - s / ps l + 1 else 0.

(** The tables below a table of a level that [s, e) can need. *)
Fixpoint need (l : nat) (s e : Z) : Z := match l with O => 0 | S k => touched (S k) s e + need k s e end.

Lemma ps_mul k l : (k <= l)%nat -> exists c, ps l = c * ps k /\ 0 < c.
Proof. induction 1 as [|l Hl (c & IH & Hc)]; [exists 1; lia|]. exists (512 * c). rewrite ps_S, IH. lia. Qed.

Lemma touched_pos l s e : 0 <= touched l s e.
Proof.
  unfold touched. destruct (Z.ltb_spec s e); [|lia]. pose proof (Z.div_le_mono s (e - 1) (ps l) (ps_pos l)). lia.
Qed.

Lemma need_pos l s e : 0 <= need l s e.
Proof. induction l; simpl; [lia|]. pose proof (touched_pos (S l) s e). lia. Qed.

Lemma touched_split k l s m e : (k <= l)%nat -> s < m <= e -> m mod ps l = 0 -> touched k s m + touched k m e = touched k s e.
Proof.
  intros Hk Hm Hd. destruct (ps_mul k l Hk) as (c & Ec & Hc). pose proof (ps_pos k) as Hp. unfold touched.
  apply Z.mod_divide in Hd; [|pose proof (ps_pos l); lia]. destruct Hd as [q ->]. rewrite Ec.
  rewrite (proj2 (Z.ltb_lt s _)) by lia. rewrite (proj2 (Z.ltb_lt s e)) by lia. rewrite Z.mul_assoc.
  assert ((q * c * ps k - 1) / ps k = q * c - 1) as ->.
  { symmetry. apply (Z.div_unique _ _ _ (ps k - 1)); lia. }
  destruct (Z.ltb_spec (q * c * ps k) e); [rewrite Z.div_mul by lia; lia|].
  assert (e = q * c * ps k) as -> by lia. assert ((q * c * ps k - 1) / ps k = q * c - 1) as ->; [|lia].
  symmetry. apply (Z.div_unique _ _ _ (ps k - 1)); lia.
Qed.

Lemma need_split k l s m e : (k <= l)%nat -> s < m <= e -> m mod ps l = 0 -> need k s m + need k m e = need k s e.
Proof.
  intros Hk Hm Hd. induction k as [|k IH]; simpl; [done|]. rewrite <- IH by lia. rewrite <- (touched_split (S k) l s m e) by done. lia.
Qed.

(** ** What mapping does *)
Section post.
Context (f : Z -> Z) (cfg : MappingSettings).

(** The translation of an address the provider has memory for. *)
Definition translates H l a va : Prop :=
  exists n k, walk H l a va = Some (n, k) /\ entry_addr n + va mod ps k = f va /\ flags_settings (entry_flags n) = stored cfg.

(** [s, e) has been mapped below a table: [ad] are the tables that were added and [fr] empty
    tables that a larger page has replaced. *)
Record map_post H l a s e H' (ad fr : list Z) : Prop := {
  mp_frame b : b ∉ tabs H l a -> b ∉ ad -> H' !! b = H !! b;
  mp_wf : wf H' l a;
  mp_tabs : tabs H' l a ++ fr ≡ₚ tabs H l a ++ ad;
  mp_in va : s <= va < e -> translates H' l a va;
  mp_out va : 0 <= va -> va / ps (S l) = s / ps (S l) -> ~ s <= va < e -> walk H' l a va = walk H l a va }.

Lemma map_post_compose H l a s m e H1 ad1 fr1 H2 ad2 fr2 : 0 <= s -> s <= m <= e -> m / ps (S l) = s / ps (S l) -> (e - 1) / ps (S l) = s / ps (S l) ->
  map_post H l a s m H1 ad1 fr1 -> map_post H1 l a m e H2 ad2 fr2 ->
  map_post H l a s e H2 (ad1 ++ ad2) (fr1 ++ fr2).
Proof.
  intros Hs Hm Hc He P1 P2. pose proof (ps_pos (S l)) as Hp. split.
  - intros b Hb Had. rewrite (mp_frame _ _ _ _ _ _ _ _ P2), (mp_frame _ _ _ _ _ _ _ _ P1); [done|done|set_solver| |set_solver].
    intros Hb1. assert (b ∈ tabs H1 l a ++ fr1) as Hin by (apply elem_of_app; by left). rewrite (mp_tabs _ _ _ _ _ _ _ _ P1) in Hin. set_solver.
  - apply P2.
  - rewrite (Permutation_app_comm fr1), app_assoc, (mp_tabs _ _ _ _ _ _ _ _ P2), <- app_assoc, (Permutation_app_comm ad2), app_assoc.
    rewrite (mp_tabs _ _ _ _ _ _ _ _ P1). by rewrite app_assoc.
  - intros va Hva. destruct (decide (va < m)) as [Hlt|Hge]; [|apply (mp_in _ _ _ _ _ _ _ _ P2); lia].
    assert (s / ps (S l) <= va / ps (S l) <= (e - 1) / ps (S l)) by (split; apply Z.div_le_mono; lia).
    destruct (mp_in _ _ _ _ _ _ _ _ P1 va) as (n & k & Hw & Hr); [lia|]. exists n, k. split; [|done].
    rewrite (mp_out _ _ _ _ _ _ _ _ P2 va); [done|lia|lia|lia].
  - intros va Hva Hch Hno. rewrite (mp_out _ _ _ _ _ _ _ _ P2 va) by lia. apply (mp_out _ _ _ _ _ _ _ _ P1); [done|done|lia].
Qed.
End post.

(** ** One entry *)

(** A translation is stored in an entry. *)
Lemma set_entry `{Build} st a t idx new v term l : tables st !! a = Some t -> length t = PAGE_TABLE_ENTRIES -> read_count t = used t ->
  (idx < PAGE_TABLE_ENTRIES)%nat -> npresent (norm new) = true -> entry_at t idx <> new ->
  exists t' c, update_entry st a idx new v term l = Ret (mkPt (<[a := t']> (tables st)) c (frames st)) /\
    norm <$> t' = <[idx := norm new]> (norm <$> t) /\ read_count t' = used t'.
Proof.
  intros Ha Hl Hc Hi Hp Hne. unfold update_entry, table_of. rewrite Ha. cbn [unwrap obind].
  rewrite (proj2 (Z.eqb_neq _ _) Hne), !present_norm, Hp. cbn [andb negb].
  pose proof (used_insert t idx new ltac:(lia)) as Hu. rewrite Hp in Hu. pose proof (used_bounds (<[idx := new]> t)) as Hb.
  rewrite length_insert, Hl in Hb. change (Z.of_nat PAGE_TABLE_ENTRIES) with 512 in Hb. rewrite Hc, andb_false_r. cbv iota. rewrite andb_true_r.
  assert ((if negb (npresent (norm (entry_at t idx))) then chk 64 (used t + 1) else Ret (used t)) = Ret (used (<[idx := new]> t))) as ->.
  { destruct (npresent (norm (entry_at t idx))); simpl in *; [f_equal; lia|]. rewrite chk_in by lia. f_equal. lia. }
  cbn [obind]. destruct (set_count_spec (<[idx := new]> t) (used (<[idx := new]> t))) as (E1 & E2 & E3); [by rewrite length_insert|lia|].
  do 2 eexists. split_and!; [reflexivity|by rewrite E2, list_fmap_insert|]. by rewrite E3, (used_norm _ _ E2).
Qed.

Definition zeros : list Z := replicate PAGE_TABLE_ENTRIES 0.

Lemma zeros_empty : length zeros = PAGE_TABLE_ENTRIES /\ read_count zeros = 0 /\ used zeros = 0.
Proof. split_and!; vm_compute; reflexivity. Qed.

Lemma wf_zeros H k a : H !! a = Some zeros -> wf H k a.
Proof.
  intros Ha. destruct zeros_empty as (Hl & Hr & Hu). destruct k; exists zeros; split_and!; (done || (by rewrite Hr, Hu) || idtac);
    intros e He Hp; rewrite (used_zero zeros Hu e He) in Hp; done.
Qed.

Lemma intermediate_spec ff : entry_addr ff = ff -> let n := norm (entry_new ff intermediate) in
  entry_addr n = ff /\ npresent n = true /\ nhuge n = false /\ nshared n = false.
Proof.
  intros Hf n. destruct (entry_parts ff intermediate) as [E1 E2]; [done..|]. unfold n.
  rewrite addr_norm, <- present_norm, <- huge_norm, <- shared_norm. unfold is_present, is_huge, is_shared. by rewrite E1, E2.
Qed.

(** A new table below an unused entry. *)
Lemma populate_new st a k idx t ff fs : wf (tables st) (S k) a -> NoDup (tabs (tables st) (S k) a) -> tables st !! a = Some t ->
  (idx < PAGE_TABLE_ENTRIES)%nat -> npresent (norm (entry_at t idx)) = false -> frames st = ff :: fs -> entry_addr ff = ff ->
  ff ∉ tabs (tables st) (S k) a ->
  exists t' H', populate st a idx intermediate = Ret (Some tt, mkPt H' (consist st) fs) /\
    (forall b, b <> a -> b <> ff -> H' !! b = tables st !! b) /\
    wf H' (S k) a /\ tabs H' (S k) a ≡ₚ tabs (tables st) (S k) a ++ [ff] /\ (forall va, walk H' (S k) a va = walk (tables st) (S k) a va) /\
    H' !! a = Some t' /\ npresent (norm (entry_at t' idx)) = true /\ nhuge (norm (entry_at t' idx)) = false /\ nshared (norm (entry_at t' idx)) = false.
Proof.
  intros Hw Hnd Ha Hi Hp Hf Hff Hno. destruct (wf_table _ _ _ _ Hw) as (t0 & Ha' & Hl & Hc). assert (t0 = t) as -> by congruence.
  unfold populate, table_of. rewrite Ha. cbn [unwrap obind]. rewrite present_norm, Hp, Hf. cbn [negb].
  destruct (intermediate_spec ff Hff) as (En & Hpn & Hh & Hsh). set (new := entry_new ff intermediate) in *.
  pose proof (used_insert t idx new ltac:(lia)) as Hu. rewrite Hp, Hpn in Hu. simpl in Hu.
  pose proof (used_bounds (<[idx := new]> t)) as Hb. rewrite length_insert, Hl in Hb. change (Z.of_nat PAGE_TABLE_ENTRIES) with 512 in Hb.
  destruct (set_count_spec (<[idx := new]> t) (read_count t + 1)) as (E1 & E2 & E3); [by rewrite length_insert|lia|].
  set (t' := set_count (<[idx := new]> t) (read_count t + 1)) in *. fold zeros.
  assert (ff <> a) as Hfa by (intros ->; apply Hno, tabs_self). set (H0 := <[ff := zeros]> (tables st)).
  assert (forall b, b ∈ tabs (tables st) (S k) a -> H0 !! b = tables st !! b) as Hfr by (intros b Hb'; apply lookup_insert_ne; by intros <-).
  assert (wf H0 (S k) a) as Hw0 by by apply (frame_wf false (tables st)).
  assert (tabs H0 (S k) a = tabs (tables st) (S k) a) as Ht0 by by apply frame_tabs.
  assert (NoDup (tabs H0 (S k) a)) as Hnd0 by by rewrite Ht0.
  assert (H0 !! a = Some t) as Ha0 by (unfold H0; by rewrite lookup_insert_ne).
  assert (H0 !! ff = Some zeros) as Hz by apply lookup_insert_eq.
  assert (norm <$> t' = <[idx := norm new]> (norm <$> t)) as Ht' by by rewrite E2, list_fmap_insert.
  assert (read_count t' = used t') as Hc' by (rewrite E3, (used_norm _ _ E2), Hu; lia).
  assert (tabs H0 k ff = [ff]) as Htf by (apply (empty_tabs _ _ _ zeros); [done|apply zeros_empty]).
  assert (npresent (norm new) = true -> nshared (norm new) = false /\ (nleaf (S k) (norm new) = true \/
    exists k', S k = S k' /\ nhuge (norm new) = false /\ wf H0 k' (entry_addr (norm new)) /\ a ∉ tabs H0 k' (entry_addr (norm new)))) as Hok.
  { intros _. split; [done|]. right. exists k. rewrite En. split_and!; [done|done|by apply wf_zeros|]. rewrite Htf. intros E%list_elem_of_singleton. congruence. }
  assert (norm (entry_at t' idx) = norm new) as Een.
  { unfold entry_at. rewrite <- (list_lookup_total_fmap norm t' idx) by lia. rewrite Ht'.
    apply list_lookup_total_insert_eq. rewrite length_fmap. lia. }
  exists t', (<[a := t']> H0). rewrite Een. split_and!; [|intros b Hba Hbf; unfold H0; by rewrite !lookup_insert_ne| | | |apply lookup_insert_eq|done|done|done].
  - unfold H0. by rewrite insert_insert_ne.
  - by apply (replace_wf false H0 (S k) a t t' idx (norm new)); rewrite ?norm_idem.
  - pose proof (replace_tabs false H0 (S k) a t t' idx (norm new) Hw0 Hnd0 Ha0 Hi Ht' Hc' (norm_idem _) Hok) as Hpm.
    cbv beta iota in Hpm. assert (below H0 k (norm (entry_at t idx)) = []) as B1 by (unfold below, ntable; by rewrite Hp).
    assert (below H0 k (norm new) = [ff]) as B2 by (unfold below, ntable, nleaf; by rewrite Hpn, Hh, Hsh, En).
    by rewrite B1, B2, app_nil_r, Ht0 in Hpm.
  - intros va. rewrite (replace_walk false H0 (S k) a t t' idx (norm new)) by (done || apply norm_idem).
    rewrite <- (frame_walk false (tables st) H0) by done. destruct (decide _) as [E|E]; [|done].
    rewrite (walk_unfold _ _ _ va t Ha0). cbv zeta. rewrite E. unfold nleaf. rewrite Hp, Hpn, Hh, En. cbn [andb orb Nat.eqb].
    apply (empty_walk _ _ _ zeros); [done|apply zeros_empty..].
Qed.

(** ** Mapping below a table *)
Lemma entry_addr_aligned p : p mod 4096 = 0 -> 0 <= p < 2 ^ 52 -> entry_addr p = p.
Proof.
  intros Hm Hp. apply Z.bits_inj'. intros k Hk. rewrite addr_bits by done. unfold addr_bit.
  destruct (Z.leb_spec 12 k) as [H1|H1]; simpl.
  - destruct (Z.ltb_spec k 52) as [H2|H2]; [apply andb_true_r|]. rewrite andb_false_r. symmetry.
    rewrite <- (Z.mod_small p (2 ^ 52)) by done. apply Z.mod_pow2_bits_high. lia.
  - rewrite andb_false_r. symmetry. rewrite <- (Z.mod_pow2_bits_low p 12) by lia. change (2 ^ 12) with 4096. rewrite Hm. apply Z.bits_0.
Qed.

(** The end of the part of [s, e) that lies in the chunk of [s]. *)
Definition lim (l : nat) (s e : Z) : Z := Z.min e ((s / ps l + 1) * ps l).

Lemma lim_bounds l s e : s < e -> s < lim l s e <= e.
Proof. intros He. unfold lim. pose proof (Z.mul_succ_div_gt s (ps l) (ps_pos l)). lia. Qed.

Lemma lim_chunk l s e va : s <= va < lim l s e -> va / ps l = s / ps l.
Proof.
  unfold lim. intros Hva. pose proof (ps_pos l) as Hp. pose proof (Z.div_le_mono s va (ps l) Hp ltac:(lia)).
  assert (va / ps l < s / ps l + 1); [|lia]. apply Z.div_lt_upper_bound; lia.
Qed.

(** The frames of the allocator are page frames outside the tree. *)
Definition fresh (st : PtState) (l : nat) (a : Z) : Prop :=
  NoDup (frames st) /\ forall b, b ∈ frames st -> entry_addr b = b /\ b ∉ tabs (tables st) l a.

Section mapping.
Context `{Build} `{Provider P} (f : Z -> Z) (cfg : MappingSettings).

(** [st'] is [st] with [s, e) mapped below a table. *)
Definition mapped (l : nat) (a s e : Z) (st st' : PtState) : Prop :=
  exists ad fr, frames st = ad ++ frames st' /\ Z.of_nat (length ad) <= need l s e /\
    map_post f cfg (tables st) l a s e (tables st') ad fr.

Lemma post_nodup l a s e st st' ad fr : fresh st l a -> NoDup (tabs (tables st) l a) -> frames st = ad ++ frames st' ->
  tabs (tables st') l a ++ fr ≡ₚ tabs (tables st) l a ++ ad -> map_post f cfg (tables st) l a s e (tables st') ad fr ->
  fresh st' l a /\ NoDup (tabs (tables st') l a).
Proof using All.
  intros [Hnf Hf] Hnd Efr Htb Hpost. rewrite Efr in Hnf. apply NoDup_app in Hnf as (Hna & Hdis & Hnf').
  assert (NoDup (tabs (tables st) l a ++ ad)) as Hall.
  { apply NoDup_app. split_and!; [done| |done]. intros b Hb Hb'. apply (Hf b); [rewrite Efr; apply elem_of_app; by left|done]. }
  rewrite <- Htb in Hall. apply NoDup_app in Hall as (? & _ & _). split; [|done]. split; [done|]. intros b Hb. split.
  - apply (Hf b). rewrite Efr. apply elem_of_app. by right.
  - intros Hin. assert (b ∈ tabs (tables st) l a ++ ad) as Hx by (rewrite <- Htb; apply elem_of_app; by left).
    apply elem_of_app in Hx as [Hx|Hx]; [|by apply (Hdis b)]. apply (Hf b); [rewrite Efr; apply elem_of_app; by right|done].
Qed.

(** The entry receives a translation. *)
Lemma map_leaf l a s e len fl st t : wf (tables st) l a -> NoDup (tabs (tables st) l a) -> tables st !! a = Some t ->
  nleaf l (norm (entry_at t (get_index s l))) = false -> can_map_at s (f s) (e - s) len l = true -> 0 <= s -> 0 <= f s < 2 ^ 52 -> f s mod 4096 = 0 ->
  (forall d, 0 <= d < len -> s + d < e -> f (s + d) = f s + d) -> flags_from cfg = Ret fl ->
  exists st', update_entry st a (get_index s l) (entry_new (f s) (Z.lor fl (if (l =? 0)%nat then leaf else huge))) s true l = Ret st' /\
    lim l s e = s + ps l /\ ps l <= len /\ mapped l a s (lim l s e) st st'.
Proof using All.
  intros Hw Hnd Ha Hnl Hcan Hs Hfs Hfm Hf Hfl. destruct (wf_table _ _ _ _ Hw) as (t0 & Ha' & Hl & Hc). assert (t0 = t) as -> by congruence.
  unfold can_map_at in Hcan. rewrite page_size_ps in Hcan. repeat (apply andb_true_iff in Hcan as [Hcan ?]).
  apply Z.eqb_eq in Hcan. repeat match goal with X : (_ <=? _) = true |- _ => apply Z.leb_le in X end.
  pose proof (ps_pos l) as Hp. pose proof (get_index_lt s l) as Hi. set (idx := get_index s l) in *.
  destruct (entry_new_spec cfg fl (f s) (negb (l =? 0)%nat) Hfl (entry_addr_aligned _ Hfm Hfs)) as (E1 & E2 & E3 & E4 & E5).
  replace (if negb (l =? 0)%nat then huge else leaf) with (if (l =? 0)%nat then leaf else huge) in * by by destruct (l =? 0)%nat.
  set (new := entry_new _ _) in *. rewrite present_norm in E2. rewrite huge_norm in E3. rewrite shared_norm in E4.
  assert (nleaf l (norm new) = true) as Hlf by (unfold nleaf; rewrite E2, E3; destruct (l =? 0)%nat; simpl; by rewrite ?orb_true_r, ?orb_false_r).
  destruct (set_entry st a t idx new s true l) as (t' & c & -> & Ht' & Hc'); [done..|by intros <-; congruence|].
  assert (lim l s e = s + ps l) as Hlim.
  { unfold lim. apply Z.mod_divide in Hcan as [q ->]; [|lia]. rewrite Z.div_mul by lia. lia. }
  eexists. split_and!; [done|done|done|]. rewrite Hlim. exists [], (match l with O => [] | S k => below (tables st) k (norm (entry_at t idx)) end).
  split_and!; [done|apply need_pos|]. cbn [tables].
  assert (npresent (norm new) = true -> nshared (norm new) = false /\ (nleaf l (norm new) = true \/
    exists k, l = S k /\ nhuge (norm new) = false /\ wf (tables st) k (entry_addr (norm new)) /\ a ∉ tabs (tables st) k (entry_addr (norm new)))) as Hok by auto.
  pose proof (norm_idem new) as Hnn. split.
  - intros b Hb _. apply lookup_insert_ne. intros <-. apply Hb, tabs_self.
  - by apply (replace_wf false (tables st) l a t t' idx (norm new)).
  - rewrite app_nil_r. apply (replace_tabs_leaf false (tables st) l a t t' idx (norm new)); try done.
    unfold ntable. by rewrite Hlf, andb_false_r.
  - intros va Hva. assert (va / ps l = s / ps l) as Hq by (apply (lim_chunk l s e); lia). exists (norm new), l. split_and!.
    + rewrite (replace_walk false (tables st) l a t t' idx (norm new)) by done. rewrite decide_True by (unfold idx; by rewrite !index_div, Hq). by rewrite Hlf.
    + rewrite addr_norm, E1. replace (va mod ps l) with (va - s); [rewrite <- Hf by lia; f_equal; lia|].
      rewrite (Z.mod_eq va), Hq by lia. rewrite (Z.mod_eq s) in Hcan by lia. lia.
    + by rewrite settings_norm.
  - intros va Hva Hch Hno. rewrite (replace_walk false (tables st) l a t t' idx (norm new)) by done. rewrite decide_False; [done|]. intros E.
    apply same_chunk in E; [|lia..|done]. apply Hno. rewrite (Z.mod_eq s) in Hcan by lia. pose proof (Z.mul_div_le va (ps l) Hp).
    pose proof (Z.mul_succ_div_gt va (ps l) Hp). rewrite E in *. lia.
Qed.

(** After [Table::populate] the entry points to a table, and the translations are the same. *)
Lemma populate_any k a idx st t : wf (tables st) (S k) a -> NoDup (tabs (tables st) (S k) a) -> fresh st (S k) a -> frames st <> [] ->
  tables st !! a = Some t -> (idx < PAGE_TABLE_ENTRIES)%nat -> nleaf (S k) (norm (entry_at t idx)) = false ->
  exists st1 t1 ad, populate st a idx intermediate = Ret (Some tt, st1) /\ frames st = ad ++ frames st1 /\ (length ad <= 1)%nat /\
    (forall b, b ∉ tabs (tables st) (S k) a -> b ∉ ad -> tables st1 !! b = tables st !! b) /\
    wf (tables st1) (S k) a /\ tabs (tables st1) (S k) a ≡ₚ tabs (tables st) (S k) a ++ ad /\
    (forall va, walk (tables st1) (S k) a va = walk (tables st) (S k) a va) /\
    tables st1 !! a = Some t1 /\ ntable (S k) (norm (entry_at t1 idx)) = true /\ nhuge (norm (entry_at t1 idx)) = false.
Proof using All.
  intros Hw Hnd [Hnf Hfr] Hne Ha Hi Hnl. destruct (npresent (norm (entry_at t idx))) eqn:Hp.
  - exists st, t, []. unfold populate, table_of. rewrite Ha. cbn [unwrap obind]. rewrite present_norm, Hp. cbn [negb].
    pose proof Hw as (t0 & Ha' & Hl & _ & Hall). assert (t0 = t) as -> by congruence.
    destruct (Hall (entry_at t idx)) as (Hs & Hh & _); [by apply entry_at_elem|done|].
    split_and!; [done|done|simpl; lia|done|done|by rewrite app_nil_r|done|done|apply ntable_spec; auto|].
    destruct (can_map_at_level (S k)) eqn:Ecm; [|by apply Hh]. unfold nleaf in Hnl. rewrite Hp, Ecm in Hnl. by destruct (nhuge _).
  - destruct (frames st) as [|ff fs] eqn:Ef; [done|]. destruct (Hfr ff) as [Hff Hno]; [by left|].
    destruct (populate_new st a k idx t ff fs) as (t' & H' & E & Hfm & Hw' & Ht' & Hwk & Ha' & Hp' & Hh' & Hs'); [done..|].
    exists (mkPt H' (consist st) fs), t', [ff]. split_and!; [done|done|simpl; lia| |done|done|done|done| |done].
    + intros b Hb Hb'. apply Hfm; [intros ->; apply Hb, tabs_self|]. intros ->. apply Hb'. by left.
    + apply ntable_spec. unfold nleaf. by rewrite Hp', Hh', Hs'.
Qed.

(** The region is mapped below the table the entry points to. *)
Lemma child_post k a s e st1 st2 t1 ad fr : wf (tables st1) (S k) a -> NoDup (tabs (tables st1) (S k) a) -> tables st1 !! a = Some t1 -> 0 <= s < e ->
  let next := entry_addr (entry_at t1 (get_index s (S k))) in
  ntable (S k) (norm (entry_at t1 (get_index s (S k)))) = true -> (forall b, b ∈ ad -> b ∉ tabs (tables st1) (S k) a) ->
  map_post f cfg (tables st1) k next s (lim (S k) s e) (tables st2) ad fr ->
  map_post f cfg (tables st1) (S k) a s (lim (S k) s e) (tables st2) ad fr.
Proof using All.
  intros Hw Hnd Ha Hse next Hn Had Hpost. pose proof (get_index_lt s (S k)) as Hi. set (idx := get_index s (S k)) in *.
  destruct Hpost as [Hfr Hw2 Htb Hin Hout].
  pose proof (child_walk false _ k a t1 idx Hw Hnd Ha Hi Hn _ fr ad Had Hfr Hw2 Htb) as Hwk. split.
  - intros b Hb Hb'. apply Hfr; [|done]. intros Hx. by apply Hb, (child_subset false _ k a t1 idx).
  - by apply (child_keeps_wf false (tables st1) k a t1 idx) with (fr := fr) (ad := ad).
  - by apply (child_keeps_tabs false (tables st1) k a t1 idx).
  - intros va Hva. destruct (Hin va Hva) as (n & j & Hx & Hr). exists n, j. split; [|done]. rewrite Hwk, decide_True; [done|].
    unfold idx. by rewrite !index_div, (lim_chunk _ _ _ _ Hva).
  - intros va Hva Hch Hno. rewrite Hwk. destruct (decide (get_index va (S k) = idx)) as [E|E]; [|done].
    fold next. rewrite Hout; [|done|apply same_chunk; (lia || done)|done]. by rewrite (walk_table _ k a va t1 Ha); rewrite E.
Qed.

(** What the operation on the next level is known to do. *)
Definition maps_below (k : nat) (rec : PtState -> P -> Z -> MappingCursor -> outcome (option unit * PtState * P)) (e : Z) : Prop :=
  forall s st ph a, region_ok s e -> s mod 4096 = 0 -> gives ph f cfg s e -> wf (tables st) k a -> NoDup (tabs (tables st) k a) -> fresh st k a ->
    need k s (lim (S k) s e) <= Z.of_nat (length (frames st)) ->
    (forall va, s <= va < lim (S k) s e -> walk (tables st) k a va = None) ->
    exists st' ph', rec st ph a (mkCursor s (e - s)) = Ret (Some tt, st', ph') /\ gives ph' f cfg (lim (S k) s e) e /\
      mapped k a s (lim (S k) s e) st st'.

Lemma map_child k a s e rec st ph t : maps_below k rec e -> region_ok s e -> s mod 4096 = 0 -> gives ph f cfg s e ->
  wf (tables st) (S k) a -> NoDup (tabs (tables st) (S k) a) -> fresh st (S k) a -> tables st !! a = Some t ->
  nleaf (S k) (norm (entry_at t (get_index s (S k)))) = false ->
  need (S k) s (lim (S k) s e) <= Z.of_nat (length (frames st)) ->
  (forall va, s <= va < lim (S k) s e -> walk (tables st) (S k) a va = None) ->
  exists st1 t1 st2 ph2, populate st a (get_index s (S k)) intermediate = Ret (Some tt, st1) /\ tables st1 !! a = Some t1 /\
    next_table t1 (get_index s (S k)) = Some (entry_addr (entry_at t1 (get_index s (S k)))) /\
    rec st1 ph (entry_addr (entry_at t1 (get_index s (S k)))) (mkCursor s (e - s)) = Ret (Some tt, st2, ph2) /\
    gives ph2 f cfg (lim (S k) s e) e /\ mapped (S k) a s (lim (S k) s e) st st2.
Proof using All.
  intros Hrec Hr Hs Hg Hw Hnd Hfs Ha Hnl Hneed Hun. pose proof (get_index_lt s (S k)) as Hi. set (idx := get_index s (S k)) in *.
  pose proof Hr as [Hse _]. pose proof (lim_bounds (S k) s e ltac:(lia)) as Hlb. cbn [need] in Hneed.
  assert (1 <= touched (S k) s (lim (S k) s e)) as Ht1.
  { unfold touched. rewrite (proj2 (Z.ltb_lt _ _)) by lia. pose proof (Z.div_le_mono s (lim (S k) s e - 1) (ps (S k)) (ps_pos _) ltac:(lia)). lia. }
  pose proof (need_pos k s (lim (S k) s e)). assert (frames st <> []) as Hne by (intros E; rewrite E in Hneed; simpl in Hneed; lia).
  destruct (populate_any k a idx st t) as (st1 & t1 & ad0 & E1 & Ef1 & Hl1 & Hfr1 & Hw1 & Htb1 & Hwk1 & Ha1 & Hn1 & Hh1); [done..|].
  assert (map_post f cfg (tables st) (S k) a s s (tables st1) ad0 []) as P0.
  { split; [done|done|by rewrite app_nil_r|lia|]. intros va _ _ _. apply Hwk1. }
  destruct (post_nodup (S k) a s s st st1 ad0 []) as [Hfs1 Hnd1]; [done..|by rewrite app_nil_r|done|].
  pose proof (child_wf false _ k a t1 idx Hw1 Hnd1 Ha1 Hi Hn1) as Hcw. pose proof (child_nodup false _ k a t1 idx Hw1 Hnd1 Ha1 Hi Hn1) as [Hcn _].
  set (next := entry_addr (entry_at t1 idx)) in *.
  assert (fresh st1 k next) as Hfs2.
  { destruct Hfs1 as [? Hf1]. split; [done|]. intros b Hb. destruct (Hf1 b Hb) as [? Hno]. split; [done|].
    intros Hx. by apply Hno, (child_subset false _ k a t1 idx). }
  assert (length (frames st) = length ad0 + length (frames st1))%nat as Hlen by by rewrite Ef1, length_app.
  assert (forall va, s <= va < lim (S k) s e -> walk (tables st1) k next va = None) as Hun1.
  { intros va Hva. assert (get_index va (S k) = idx) as Ei by (unfold idx; by rewrite !index_div, (lim_chunk _ _ _ _ Hva)).
    rewrite <- (Hun va Hva), <- Hwk1. by rewrite (walk_table _ k a va t1 Ha1); rewrite Ei. }
  destruct (Hrec s st1 ph next) as (st2 & ph2 & E2 & Hg2 & ad & fr & Ef2 & Hl2 & Hpost); [done..|lia|done|].
  exists st1, t1, st2, ph2. split_and!; [done|done| |done|done|].
  { unfold next_table. rewrite present_norm, huge_norm, Hh1. apply ntable_spec in Hn1 as (-> & _). done. }
  exists (ad0 ++ ad), ([] ++ fr). split_and!; [by rewrite Ef1, Ef2, app_assoc|rewrite length_app; cbn [need]; lia|].
  apply (map_post_compose f cfg _ _ _ _ s _ (tables st1)); [lia|lia|done| |done|].
  - by rewrite !(chunk_S _ (S k)), (lim_chunk (S k) s e) by lia.
  - apply (child_post k a s e st1 st2 t1); try done. intros b Hb. destruct Hfs1 as [_ Hf1]. apply Hf1. rewrite Ef2. apply elem_of_app. by left.
Qed.

Section loop.
Context (rec : PtState -> P -> Z -> MappingCursor -> outcome (option unit * PtState * P)) (l : nat) (a e : Z).
Context (He : e mod 4096 = 0) (fl : Z) (Hfl : flags_from cfg = Ret fl) (Hrec : forall k, l = S k -> maps_below k rec e).

(** Everything one turn of the loop needs. *)
Definition ready (s m : Z) (st : PtState) (ph : P) : Prop :=
  region_ok s e /\ s mod 4096 = 0 /\ gives ph f cfg s e /\ wf (tables st) l a /\ NoDup (tabs (tables st) l a) /\ fresh st l a /\
  need l s m <= Z.of_nat (length (frames st)) /\ forall va, s <= va < m -> walk (tables st) l a va = None.

(** One turn of the loop: the entry of [s]. *)
Lemma map_turn n s st ph : ready s (lim l s e) st ph ->
  exists st1 ph1, gives ph1 f cfg (lim l s e) e /\ mapped l a s (lim l s e) st st1 /\
    map_loop rec l (S n) (get_index s l) st ph a (mkCursor s (e - s)) =
      if (s / ps l + 1) * ps l <? e then map_loop rec l n (S (get_index s l)) st1 ph1 a (mkCursor ((s / ps l + 1) * ps l) (e - (s / ps l + 1) * ps l))
      else Ret (Some tt, st1, ph1).
Proof using All.
  intros (Hr & Hs & Hg & Hw & Hnd & Hfs & Hneed & Hun). pose proof Hr as [Hse _]. pose proof (lim_bounds l s e ltac:(lia)) as Hlb.
  destruct (wf_table _ _ _ _ Hw) as (t & Ha & Hl & Hc). destruct (gives_peek ph f cfg s e) as (len & ph' & Epk & Hg' & Hlen & Hfm & Hfb & Hfd & Hcons); [done|lia|done|done|].
  assert (nleaf l (norm (entry_at t (get_index s l))) = false) as Hnl.
  { pose proof (Hun s ltac:(lia)) as Hx. rewrite (walk_unfold _ _ _ s t Ha) in Hx. cbv zeta in Hx. by destruct (nleaf l _). }
  cbn [map_loop]. unfold table_of at 1. rewrite Ha. cbn [unwrap obind]. rewrite present_norm, huge_norm.
  fold (nleaf l (norm (entry_at t (get_index s l)))). rewrite Hnl, Epk. cbn [pm_addr pm_len pm_settings c_start c_len].
  destruct (can_map_at s (f s) (e - s) len l) eqn:Ecan.
  - destruct (map_leaf l a s e len fl st t) as (st1 & Eu & Hlim & Hpl & Hm); [done..|lia|done|done|done|done|].
    exists st1, (consume ph' (level_to_page_size l)). rewrite Hlim in *. split_and!; [|done|].
    + rewrite page_size_ps. apply Hcons; [pose proof (ps_pos l); lia|lia|]. destruct (ps_mul 0 l ltac:(lia)) as (c & -> & _). by apply Z.mod_mul.
    + rewrite Hfl. cbn [obind]. rewrite Eu. cbn [obind]. rewrite align_advance_spec by done. cbn [obind]. by destruct (_ <? e).
  - destruct l as [|k] eqn:El.
    { exfalso. unfold can_map_at in Ecan. rewrite page_size_ps in Ecan. change (ps 0) with 4096 in Ecan. rewrite Hs, Hfm in Ecan. simpl in Ecan.
      rewrite (proj2 (Z.leb_le 4096 len)), (proj2 (Z.leb_le 4096 (e - s))) in Ecan; [done| |done]. apply Z.mod_divide in Hs, He; [|lia..]. destruct Hs, He. lia. }
    destruct (map_child k a s e rec st ph' t) as (st1 & t1 & st2 & ph2 & E1 & Ha1 & En & E2 & Hg2 & Hm); [by apply Hrec|done..|].
    exists st2, ph2. split_and!; [done|done|]. cbn [Nat.eqb negb rassert obind]. rewrite E1. cbn [obind]. unfold table_of. rewrite Ha1. cbn [unwrap obind].
    rewrite En. cbn [unwrap obind]. rewrite E2. cbn [obind]. rewrite align_advance_spec by done. cbn [obind]. by destruct (_ <? e).
Qed.

Lemma lim_last s : (e <= (s / ps l + 1) * ps l \/ get_index s l = 511%nat) -> lim (S l) s e = lim l s e.
Proof using All.
  intros Hc. unfold lim. pose proof (chunk_mono l (S l) s ltac:(lia)) as [_ Hm]. destruct Hc as [Hc|Hc]; [lia|].
  pose proof (chunk_index s l) as E. rewrite Hc in E. rewrite E, ps_S. lia.
Qed.

Lemma lim_next s : (s / ps l + 1) * ps l < e -> (get_index s l < 511)%nat -> lim l s e = (s / ps l + 1) * ps l /\
  lim (S l) ((s / ps l + 1) * ps l) e = lim (S l) s e.
Proof using All. intros Hc Hi. unfold lim. rewrite next_chunk by done. lia. Qed.

Lemma map_loop_spec n : forall s st ph, ready s (lim (S l) s e) st ph -> (get_index s l + S n = PAGE_TABLE_ENTRIES)%nat ->
  exists st' ph', map_loop rec l (S n) (get_index s l) st ph a (mkCursor s (e - s)) = Ret (Some tt, st', ph') /\
    gives ph' f cfg (lim (S l) s e) e /\ mapped l a s (lim (S l) s e) st st'.
Proof using All.
  induction n as [|n IH]; intros s st ph Hready Hn; unfold PAGE_TABLE_ENTRIES in Hn.
  - rewrite (lim_last s) in * by lia. destruct (map_turn 0 s st ph Hready) as (st1 & ph1 & Hg1 & Hm1 & ->). exists st1, ph1. by destruct (_ <? e).
  - set (c := (s / ps l + 1) * ps l) in *. destruct (Z.ltb_spec c e) as [Hlt|Hge].
    2:{ rewrite (lim_last s) in * by lia. destruct (map_turn (S n) s st ph Hready) as (st1 & ph1 & Hg1 & Hm1 & ->).
        exists st1, ph1. by rewrite (proj2 (Z.ltb_ge _ e)). }
    destruct (lim_next s) as [Hl1 Hl2]; [done|lia|]. fold c in Hl1, Hl2. pose proof Hready as (Hr & Hs & Hg & Hw & Hnd & Hfs & Hneed & Hun).
    pose proof Hr as [Hse Hcan]. pose proof (lim_bounds l s e ltac:(lia)) as Hb1. pose proof (lim_bounds (S l) c e Hlt) as Hb2. rewrite Hl1 in Hb1. rewrite Hl2 in Hb2.
    assert (c mod ps l = 0) as Hcm by (apply Z.mod_mul; pose proof (ps_pos l); lia).
    pose proof (need_split l l s c (lim (S l) s e) ltac:(lia) ltac:(lia) Hcm) as Hns. pose proof (need_pos l s c). pose proof (need_pos l c (lim (S l) s e)).
    destruct (map_turn (S n) s st ph) as (st1 & ph1 & Hg1 & Hm1 & ->).
    { rewrite Hl1. split_and!; [done..|lia|]. intros va Hva. apply Hun. lia. }
    fold c. rewrite (proj2 (Z.ltb_lt c e)), <- (next_index s l) by lia. fold c. rewrite Hl1 in *.
    destruct Hm1 as (ad1 & fr1 & Ef1 & Hl & P1). destruct (post_nodup l a s c st st1 ad1 fr1) as [Hfs1 Hnd1]; [done..|apply P1|done|].
    assert (c / ps (S l) = s / ps (S l)) as Hcc by (apply next_chunk; lia).
    assert ((lim (S l) s e - 1) / ps (S l) = s / ps (S l)) as Hle by (apply (lim_chunk (S l) s e); lia).
    destruct (IH c st1 ph1) as (st2 & ph2 & E2 & Hg2 & ad2 & fr2 & Ef2 & Hl' & P2).
    + rewrite Hl2. split_and!; [split; lia| |done|apply P1|done|done| |].
      * destruct (ps_mul 0 l ltac:(lia)) as (q & E & _). unfold c. rewrite E, Z.mul_assoc. by apply Z.mod_mul.
      * rewrite Ef1, length_app in Hneed. lia.
      * intros va Hva. rewrite (mp_out _ _ _ _ _ _ _ _ _ _ P1 va) by (lia || (apply (lim_chunk (S l) s e); lia)). apply Hun. lia.
    + unfold c. rewrite next_index by lia. unfold PAGE_TABLE_ENTRIES. lia.
    + rewrite Hl2 in *. exists st2, ph2. split_and!; [done|done|]. exists (ad1 ++ ad2), (fr1 ++ fr2).
      split_and!; [by rewrite Ef1, Ef2, app_assoc|rewrite length_app; lia|]. apply (map_post_compose f cfg _ _ _ _ c _ (tables st1)); (done || lia).
Qed.
End loop.

Lemma map_spec e fl l : e mod 4096 = 0 -> flags_from cfg = Ret fl -> maps_below l (map l) e.
Proof using All.
  intros He Hfl. induction l as [|l IH]; intros s st ph a Hr Hs Hg Hw Hnd Hfs Hneed Hun; cbn [map c_start]; pose proof (get_index_lt s) as Hlt.
  - replace (PAGE_TABLE_ENTRIES - get_index s 0)%nat with (S (PAGE_TABLE_ENTRIES - get_index s 0 - 1)) by (specialize (Hlt 0%nat); lia).
    apply (map_loop_spec _ 0 a e He fl Hfl); [done|done|specialize (Hlt 0%nat); lia].
  - replace (PAGE_TABLE_ENTRIES - get_index s (S l))%nat with (S (PAGE_TABLE_ENTRIES - get_index s (S l) - 1)) by (specialize (Hlt (S l)); lia).
    apply (map_loop_spec _ (S l) a e He fl Hfl); [by intros k [= ->]|done|specialize (Hlt (S l)); lia].
Qed.
End mapping.

(** ** Mapping from the root *)

Section root.
Context `{Build} `{Provider P} (r s e : Z) (st : PtState) (ph : P) (f : Z -> Z) (cfg : MappingSettings).
Context (Hw : wf (tables st) 3 r) (Hnd : NoDup (tabs (tables st) 3 r)) (Hfr : fresh st 3 r).
Context (Hr : region_ok s e) (Hs : s mod 4096 = 0) (He : e mod 4096 = 0) (Hg : gives ph f cfg s e) (Hcfg : cache cfg <> MemoryMappedIO).
Context (Hneed : need 3 s e <= zlen (frames st)) (Hun : forall va, s <= va < e -> walk (tables st) 3 r va = None).

Lemma lim_top : lim 4 s e = e.
Proof using Hr.
  destruct Hr as [Hse Hc]. unfold lim. change (ps 4) with (2 ^ 48). destruct Hc as [Hc|Hc].
  - rewrite Z.div_small by lia. lia.
  - assert (s / 2 ^ 48 = 65535) as -> by (symmetry; apply (Z.div_unique _ _ _ (s - 65535 * 2 ^ 48)); lia). lia.
Qed.

Lemma mapper_map_spec : exists st' ph', mapper_map (Mapper_new r) st ph (mkCursor s (e - s)) = Ret (Ok tt, st', ph') /\ gives ph' f cfg e e /\ mapped f cfg 3 r s e st st'.
Proof using All.
  assert (exists fl, flags_from cfg = Ret fl) as [fl Hfl] by (unfold flags_from; destruct (cache cfg); try done; by eexists).
  destruct (map_spec f cfg e fl 3 He Hfl s st ph r) as (st' & ph' & E & Hg' & Hm); rewrite ?lim_top in *; try done.
  exists st', ph'. unfold mapper_map, Mapper_new. cbn [start_level PageTable.root]. unfold TOP_LEVEL. by rewrite E.
Qed.
End root.

Lemma hit_meets s e k va : hit s e k va = true -> s < e -> exists va', s <= va' < e /\ va' / ps k = va / ps k.
Proof.
  unfold hit. intros [H1%Z.ltb_lt H2%Z.ltb_lt]%andb_true_iff Hse. pose proof (ps_pos k) as Hp. exists (Z.max s (va / ps k * ps k)). split; [lia|].
  symmetry. apply (Z.div_unique _ _ _ (Z.max s (va / ps k * ps k) - ps k * (va / ps k))); lia.
Qed.

Lemma hit_in s e k va : s <= va < e -> hit s e k va = true.
Proof.
  intros Hva. unfold hit. pose proof (ps_pos k) as Hp. pose proof (Z.mul_div_le va (ps k) Hp). pose proof (Z.mul_succ_div_gt va (ps k) Hp).
  rewrite (proj2 (Z.ltb_lt _ e)), (proj2 (Z.ltb_lt s _)) by lia. done.
Qed.

(** C4: mapping.  Below a root whose tables form a tree, with a provider that has memory for every page of an
    unmapped region and an allocator with enough frames for the tables, [Mapper::map]
    succeeds without a panic: every address of the region then translates to the memory the
    provider has for it, with the settings asked for; every other address translates as
    before; and the tables are still a tree, made of old tables and frames of the allocator. *)
Theorem map_correct `{Build} `{Provider P} (r s e : Z) (st : PtState) (ph : P) (f : Z -> Z) (cfg : MappingSettings) :
  wf (tables st) 3 r -> NoDup (tabs (tables st) 3 r) -> fresh st 3 r ->
  region_ok s e -> s mod 4096 = 0 -> e mod 4096 = 0 -> gives ph f cfg s e -> cache cfg <> MemoryMappedIO ->
  need 3 s e <= zlen (frames st) -> (forall va, s <= va < e -> walk (tables st) 3 r va = None) ->
  exists st' ph' ad, mapper_map (Mapper_new r) st ph (mkCursor s (e - s)) = Ret (Ok tt, st', ph') /\
    wf (tables st') 3 r /\ NoDup (tabs (tables st') 3 r) /\
    frames st = ad ++ frames st' /\ (forall b, b ∈ tabs (tables st') 3 r -> b ∈ tabs (tables st) 3 r \/ b ∈ ad) /\
    (forall va, s <= va < e -> exists n k, walk (tables st') 3 r va = Some (n, k) /\
       entry_addr n + va mod ps k = f va /\ flags_settings (entry_flags n) = stored cfg) /\
    forall va, 0 <= va -> va / 2 ^ 48 = s / 2 ^ 48 -> ~ s <= va < e -> walk (tables st') 3 r va = walk (tables st) 3 r va.
Proof.
  intros Hw Hnd Hfr Hr Hs He Hg Hcfg Hneed Hun.
  destruct (mapper_map_spec r s e st ph f cfg) as (st' & ph' & E & _ & ad & fr & Ef & _ & P1); [done..|].
  exists st', ph', ad. split; [done|]. destruct (post_nodup f cfg 3 r s e st st' ad fr) as [_ Hnd']; [done..|apply P1|done|].
  destruct P1 as [_ Hw' Htb Hin Hout]. split_and!; [done..| |done|done].
  intros b Hb. apply elem_of_app. rewrite <- Htb. apply elem_of_app. by left.
Qed.

(** The provider of the witnesses: three pages at [0x800000] for the region from [0x1ff000] on. *)
Definition ex_phys : ContiguousProvider := mkContig (Some 0x800000) 0x3000 rw_user.

Lemma ex_fresh : fresh ex_empty 3 0x1000.
Proof.
  split; [apply (bool_decide_unpack _); vm_compute; reflexivity|]. intros b Hb.
  assert (Forall (fun b => entry_addr b = b /\ b ∉ tabs (tables ex_empty) 3 0x1000) (frames ex_empty)) as Hall.
  { apply (bool_decide_unpack _). vm_compute. reflexivity. }
  rewrite Forall_forall in Hall. by apply Hall.
Qed.

Lemma ex_empty_wf : wf (tables ex_empty) 3 0x1000 /\ NoDup (tabs (tables ex_empty) 3 0x1000) /\ forall va, walk (tables ex_empty) 3 0x1000 va = None.
Proof.
  split_and!; [apply wfb_sound; vm_compute; reflexivity|apply (bool_decide_unpack _); vm_compute; reflexivity|].
  intros va. apply (empty_walk _ _ _ zeros); [vm_compute; reflexivity|apply zeros_empty..].
Qed.

Lemma ex_gives : gives (H := contiguous_provider 46) ex_phys (fun va => 0x800000 + (va - 0x1ff000)) rw_user 0x1ff000 0x202000.
Proof. split_and!; [lia|lia|done|vm_compute; discriminate|done|]. exists 0x800000. split_and!; [done|lia|vm_compute; reflexivity|done|done]. Qed.

Lemma map_correct_witness :
  exists st' ph' ad, mapper_map (H := true) (H0 := contiguous_provider 46) (Mapper_new 0x1000) ex_empty ex_phys (mkCursor 0x1ff000 (0x202000 - 0x1ff000)) = Ret (Ok tt, st', ph') /\
    frames ex_empty = ad ++ frames st' /\
    exists n k, walk (tables st') 3 0x1000 0x201004 = Some (n, k) /\ entry_addr n + 0x201004 mod ps k = 0x802004.
Proof.
  destruct (map_correct (H := true) (H1 := contiguous_Provider 46) 0x1000 0x1ff000 0x202000 ex_empty ex_phys (fun va => 0x800000 + (va - 0x1ff000)) rw_user) as (st' & ph' & ad & E & _ & _ & Ef & _ & Hin & _).
  1: exact (proj1 ex_empty_wf). 1: exact (proj1 (proj2 ex_empty_wf)). 1: exact ex_fresh. 1: unfold region_ok; lia. 1-2: reflexivity.
  1: exact ex_gives. 1: discriminate. 1: vm_compute; discriminate. 1: intros va _; exact (proj2 (proj2 ex_empty_wf) va).
  exists st', ph', ad. split; [exact E|]. split; [exact Ef|]. destruct (Hin 0x201004) as (n & k & Hn & Ha & _); [lia|]. exists n, k. split; [exact Hn|rewrite Ha; reflexivity].
Defined.

(** C38: Mapping and reading back.  After [ContiguousProvider] memory has been mapped at an unmapped region,
    [Mapper::do_read_map] reports, at every address of the region, a frame and a page size
    that give the physical address of it, and the settings asked for. *)
Theorem map_then_read `{Build} (bits p r s e : Z) (st : PtState) (cfg : MappingSettings) :
  wf (tables st) 3 r -> NoDup (tabs (tables st) 3 r) -> fresh st 3 r ->
  region_ok s e -> s mod 4096 = 0 -> e mod 4096 = 0 -> cache cfg <> MemoryMappedIO ->
  0 <= p -> p mod 4096 = 0 -> p + (e - s) < 2 ^ bits -> 0 <= bits <= 52 ->
  need 3 s e <= zlen (frames st) -> (forall va, s <= va < e -> walk (tables st) 3 r va = None) ->
  exists st' ph', mapper_map (H0 := contiguous_provider bits) (Mapper_new r) st (mkContig (Some p) (e - s) cfg) (mkCursor s (e - s)) = Ret (Ok tt, st', ph') /\
    forall va len, s <= va < e -> exists i, do_read_map (Mapper_new r) st' (mkCursor va len) = Ret (Ok i) /\
      mi_paddr i + va mod psize i = p + (va - s) /\ mi_settings i = stored cfg.
Proof.
  intros Hw Hnd Hfr Hr Hs He Hcfg Hp Hpm Hlim Hb Hneed Hun. pose proof Hr as [Hse _].
  assert (gives (H := contiguous_provider bits) (mkContig (Some p) (e - s) cfg) (fun va => p + (va - s)) cfg s e) as Hg.
  { split_and!; simpl; [lia|lia|done|lia| |by exists p]. apply Z.mod_divide; [lia|]. apply Z.divide_sub_r; by apply Z.mod_divide. }
  destruct (mapper_map_spec r s e st _ _ cfg Hw Hnd Hfr Hr Hs He Hg) as (st' & ph' & E & _ & ad & fr & Ef & _ & [_ Hw' _ Hin _]); [done..|].
  exists st', ph'. split; [done|]. intros va len Hva. destruct (Hin va Hva) as (n & k & Hk & Ha & Hst).
  pose proof (readmap_spec 3 st' r va len Hw') as Hread. rewrite Hk in Hread. by exists (info_of va n k).
Qed.

Lemma map_then_read_witness :
  exists st' ph', mapper_map (H := true) (H0 := contiguous_provider 46) (Mapper_new 0x1000) ex_empty (mkContig (Some 0x800000) (0x202000 - 0x1ff000) rw_user) (mkCursor 0x1ff000 (0x202000 - 0x1ff000)) = Ret (Ok tt, st', ph') /\
    forall va len, 0x1ff000 <= va < 0x202000 -> exists i, do_read_map (Mapper_new 0x1000) st' (mkCursor va len) = Ret (Ok i) /\
      mi_paddr i + va mod psize i = 0x800000 + (va - 0x1ff000) /\ mi_settings i = stored rw_user.
Proof.
  refine (map_then_read (H := true) 46 0x800000 0x1000 0x1ff000 0x202000 ex_empty rw_user
    (proj1 ex_empty_wf) (proj1 (proj2 ex_empty_wf)) ex_fresh _ eq_refl eq_refl _ _ eq_refl _ _ _ (fun va _ => proj2 (proj2 ex_empty_wf) va)).
  1: unfold region_ok; lia. 1: discriminate. 1: lia. 1: vm_compute; reflexivity. 1: lia. 1: vm_compute; discriminate.
Defined.

(** Mapping and unmapping.  Unmapping a region that was unmapped before it was mapped gives back the
    translation of every address of the half of the address space it lies in. *)
Theorem map_then_unmap `{Build} `{Provider P} (r s e : Z) (st : PtState) (ph : P) (f : Z -> Z) (cfg : MappingSettings) :
  wf (tables st) 3 r -> NoDup (tabs (tables st) 3 r) -> fresh st 3 r ->
  region_ok s e -> s mod 4096 = 0 -> e mod 4096 = 0 -> gives ph f cfg s e -> cache cfg <> MemoryMappedIO ->
  need 3 s e <= zlen (frames st) -> (forall va, s <= va < e -> walk (tables st) 3 r va = None) ->
  exists st1 ph1 fr st2, mapper_map (Mapper_new r) st ph (mkCursor s (e - s)) = Ret (Ok tt, st1, ph1) /\
    mapper_unmap (Mapper_new r) st1 (mkCursor s (e - s)) = Ret (fr, st2) /\
    forall va, 0 <= va -> va / 2 ^ 48 = s / 2 ^ 48 -> walk (tables st2) 3 r va = walk (tables st) 3 r va.
Proof.
  intros Hw Hnd Hfr Hr Hs He Hg Hcfg Hneed Hun. pose proof Hr as [Hse _].
  destruct (mapper_map_spec r s e st ph f cfg) as (st1 & ph1 & E1 & _ & ad & fr & Ef & _ & P1); [done..|].
  destruct (post_nodup f cfg 3 r s e st st1 ad fr) as [_ Hnd1]; [done..|apply P1|done|]. destruct P1 as [_ Hw1 _ Hin Hout].
  destruct (unmap_spec false 3 s e (with_consist st1 consist_new) r Hr Hw1 Hnd1) as (st2 & E2 & ln & inv & fr2 & _ & _ & [_ _ _ Hwk _]).
  exists st1, ph1, (freed (consist st2)), st2. unfold mapper_unmap, Mapper_new. cbn [start_level root]. unfold TOP_LEVEL. rewrite E2. split_and!; [done..|].
  intros va Hva Hch. rewrite (Hwk va Hva Hch). cbn [tables with_consist]. destruct (decide (s <= va < e)) as [Hi|Hno].
  - destruct (Hin va Hi) as (n & k & Ek & _). rewrite Ek. unfold gone. by rewrite (walk_leaf _ _ _ _ _ _ Hw1 Ek), hit_in, Hun.
  - rewrite (Hout va Hva Hch Hno). destruct (walk (tables st) 3 r va) as [[n k]|] eqn:Ew; [|done]. destruct (gone s e n k va) eqn:Eh; [|done]. apply andb_true_iff in Eh as [_ Eh].
    destruct (hit_meets _ _ _ _ Eh) as (va' & Hi & Hq); [lia|]. pose proof (walk_page _ _ _ va va' _ _ Ew Hq) as Hx. by rewrite (Hun va' Hi) in Hx.
Qed.

Lemma map_then_unmap_witness :
  exists st1 ph1 fr st2, mapper_map (H := true) (H0 := contiguous_provider 46) (Mapper_new 0x1000) ex_empty ex_phys (mkCursor 0x1ff000 (0x202000 - 0x1ff000)) = Ret (Ok tt, st1, ph1) /\
    mapper_unmap (H := true) (Mapper_new 0x1000) st1 (mkCursor 0x1ff000 (0x202000 - 0x1ff000)) = Ret (fr, st2) /\ walk (tables st2) 3 0x1000 0x1ff000 = None.
Proof.
  destruct (map_then_unmap (H := true) (H1 := contiguous_Provider 46) 0x1000 0x1ff000 0x202000 ex_empty ex_phys (fun va => 0x800000 + (va - 0x1ff000)) rw_user)
    as (st1 & ph1 & fr & st2 & E1 & E2 & Hw).
  1: exact (proj1 ex_empty_wf). 1: exact (proj1 (proj2 ex_empty_wf)). 1: exact ex_fresh. 1: unfold region_ok; lia. 1-2: reflexivity.
  1: exact ex_gives. 1: discriminate. 1: vm_compute; discriminate. 1: intros va _; exact (proj2 (proj2 ex_empty_wf) va).
  exists st1, ph1, fr, st2. split; [exact E1|]. split; [exact E2|]. rewrite Hw by (lia || reflexivity). apply ex_empty_wf.
Defined.
End PageTableMap.
