(* ===== verification/Hachage.v ===== *)
(** * The persistent hash table ([src/src/lib/twizzler/src/collections/hachage])

    [RawTable] of [raw/mod.rs] is a hash table with linear probing in one object: one byte
    of control information per bucket ([Tag] of [control/tag.rs]), the buckets themselves
    laid out downwards from the first tag.  A slot here is a tag with the contents of its
    bucket, [None] while the bucket has never been written; reading such a bucket is not
    possible.  [PersistentHashMap] of [map.rs] stores pairs in it.

    Probing loops until it meets an empty slot.  It does not change the table, so when it
    has seen every bucket without stopping it never stops: that is [NoFuel] here.  The
    hash function, the size and the alignment of the elements, and the sizes of an object
    and of its first page come from outside and are parameters. *)
From S2P Require Import Prelude Address.

#[local] Open Scope Z_scope.

Module Hachage.

(** ** Tags (control/tag.rs) *)
Definition EMPTY : Z := 0xff.
Definition DELETED : Z := 0x80.
Definition is_full (tag : Z) : bool := Z.land tag 0x80 =? 0.
Definition is_special (tag : Z) : bool := negb (Z.land tag 0x80 =? 0).

(** [debug_assert!] in the two build profiles *)
Definition debug_assert `{Build} (b : bool) : outcome unit := if overflow_checks then rassert b else Ret tt.

(** [Tag::special_is_empty] *)
Definition special_is_empty `{Build} (tag : Z) : outcome bool :=
  let! _ := debug_assert (is_special tag) in Ret (negb (Z.land tag 0x01 =? 0)).

(** [Tag::full]: the top seven bits of the hash *)
Definition full (hash : Z) : Z := Z.land (Z.shiftr hash 57) 0x7f.

(** ** The table (raw/mod.rs) *)
Definition MAX_ALIGNMENT : Z := 4096.
Definition INVARIANT_GROUP_WIDTH : Z := 64.

(** [u64::next_power_of_two] *)
Definition next_power_of_two `{Build} (x : Z) : outcome Z := chk 64 (if x <=? 1 then 1 else 2 ^ Z.log2_up x).

(** [bucket_mask_to_capacity] *)
Definition bucket_mask_to_capacity (bucket_mask : Z) : Z :=
  if bucket_mask <? 8 then bucket_mask else (bucket_mask + 1) / 8 * 7.

(** [TableLayout] *)
Record TableLayout := mkLayout { l_size : Z; ctrl_align : Z }.

(** [TableLayout::new] for elements of a size and an alignment *)
Definition TableLayout_new (size align : Z) : TableLayout :=
  mkLayout size (if INVARIANT_GROUP_WIDTH <? align then align else INVARIANT_GROUP_WIDTH).

(** [TableLayout::calculate_ctrl_offset] *)
Definition calculate_ctrl_offset `{Build} (l : TableLayout) (buckets : Z) : outcome Z :=
  let! n := chk 64 (l_size l * buckets) in
  let! n := chk 64 (n + (ctrl_align l - 1)) in
  Ret (Z.land n (2 ^ 64 - 1 - (ctrl_align l - 1))).

(** [TableLayout::calculate_layout_for]: the size of the allocation and the offset of the tags *)
Definition calculate_layout_for `{Build} (l : TableLayout) (buckets : Z) : outcome (Z * Z) :=
  let! _ := debug_assert (Address.is_power_of_two buckets) in
  let! ctrl_offset := calculate_ctrl_offset l buckets in
  let! n := chk 64 (ctrl_offset + buckets) in
  let! len := chk 64 (n + INVARIANT_GROUP_WIDTH) in
  Ret (len, ctrl_offset).

Inductive AllocError := mkAllocError.

(** A tag and the contents of its bucket. *)
Record Slot (T : Type) := mkSlot { tag : Z; cell : option T }.
Arguments mkSlot {T} _ _.
Arguments tag {T} _.
Arguments cell {T} _.

(** [RawTableInner]; [base] is where the tags start. *)
Record RawTable (T : Type) := mkTable { base : option Z; bucket_mask : Z; growth_left : Z; items : Z; slots : list (Slot T) }.
Arguments mkTable {T} _ _ _ _ _.
Arguments base {T} _.
Arguments bucket_mask {T} _.
Arguments growth_left {T} _.
Arguments items {T} _.
Arguments slots {T} _.

Section object.
Context `{Build} (MAX_SIZE NULLPAGE_SIZE : Z).

Definition MAX_SPACE : Z := MAX_SIZE - NULLPAGE_SIZE * 4 - MAX_ALIGNMENT.

(** [HashTableAlloc::allocate]: the offset in the object of the first tag *)
Definition allocate (l : TableLayout) (buckets : Z) : outcome (result Z AllocError) :=
  let! _ := rassert (Address.is_power_of_two buckets) in
  let! (size, _) := calculate_layout_for l buckets in
  if MAX_ALIGNMENT <? ctrl_align l then Ret (Err mkAllocError)
  else if MAX_SPACE <? size then Ret (Err mkAllocError)
  else
    let! offset := chk 64 (MAX_SPACE / (l_size l + 1) * l_size l) in
    let! corrected_offset := chk 64 (offset + (MAX_ALIGNMENT - offset mod MAX_ALIGNMENT)) in
    let! ptr := chk 64 (NULLPAGE_SIZE * 2 + corrected_offset) in
    Ret (Ok ptr).

Section table.
Context {T : Type} (hasher : T -> Z) (layout : TableLayout).
Implicit Types (t : RawTable T).

(** [RawTableInner::new], [buckets], [is_empty] and [is_empty_singleton] *)
Definition table_new : RawTable T := mkTable None 0 0 0 [].
Definition buckets t : Z := bucket_mask t + 1.
Definition is_empty t : bool := items t =? 0.
Definition is_empty_singleton t : bool := bucket_mask t =? 0.

(** [ctrl[i]], with its bounds check, and the contents of a bucket *)
Definition ctrl t (i : Z) : outcome Z := let! s := unwrap (slots t !! Z.to_nat i) in Ret (tag s).
Definition bucket t (i : Z) : outcome T := let! s := unwrap (slots t !! Z.to_nat i) in unwrap (cell s).

Definition with_slots t (l : list (Slot T)) : RawTable T := mkTable (base t) (bucket_mask t) (growth_left t) (items t) l.
Definition set_ctrl t (i : Z) (c : Z) : RawTable T := with_slots t (alter (fun s => mkSlot c (cell s)) (Z.to_nat i) (slots t)).
Definition set_bucket t (i : Z) (x : T) : RawTable T := with_slots t (alter (fun s => mkSlot (tag s) (Some x)) (Z.to_nat i) (slots t)).

(** [RawTableInner::probe_seq] and [ProbeSeq::move_next] *)
Definition probe_seq t (hash : Z) : Z := Z.land hash (bucket_mask t).
Definition move_next (pos bucket_mask : Z) : Z := Z.land (pos + 1) bucket_mask.

(** [tag.is_special() && tag.special_is_empty()] *)
Definition is_empty_tag (c : Z) : outcome bool := if is_special c then special_is_empty c else Ret false.

(** [tag.eq(&tag_hash) && eq(pos)] *)
Definition matches t (c tag_hash : Z) (eq : T -> bool) (pos : Z) : outcome bool :=
  if c =? tag_hash then let! x := bucket t pos in Ret (eq x) else Ret false.

(** The loop of [find_or_find_insert_slot_inner] *)
Fixpoint find_or_insert_loop (fuel : nat) t (tag_hash : Z) (eq : T -> bool) (pos : Z) : outcome (result Z Z) :=
  match fuel with
  | O => NoFuel
  | S fuel =>
      let! c := ctrl t pos in
      let! m := matches t c tag_hash eq pos in
      if m : bool then Ret (Ok pos)
      else
        let! e := is_empty_tag c in
        if e : bool then Ret (Err pos)
        else find_or_insert_loop fuel t tag_hash eq (move_next pos (bucket_mask t))
  end.

(** [RawTableInner::find_or_find_insert_slot_inner] *)
Definition find_or_find_insert_slot_inner t (hash : Z) (eq : T -> bool) : outcome (result Z Z) :=
  find_or_insert_loop (Z.to_nat (buckets t)) t (full hash) eq (probe_seq t hash).

(** [RawTableInner::find_insert_slot] *)
Fixpoint find_insert_loop (fuel : nat) t (pos : Z) : outcome Z :=
  match fuel with
  | O => NoFuel
  | S fuel =>
      let! c := ctrl t pos in
      if is_special c then Ret pos else find_insert_loop fuel t (move_next pos (bucket_mask t))
  end.
Definition find_insert_slot t (hash : Z) : outcome Z := find_insert_loop (Z.to_nat (buckets t)) t (probe_seq t hash).

(** The loop of [find_inner] *)
Fixpoint find_loop (fuel : nat) t (tag_hash : Z) (eq : T -> bool) (pos : Z) : outcome (option Z) :=
  match fuel with
  | O => NoFuel
  | S fuel =>
      let! c := ctrl t pos in
      let! m := matches t c tag_hash eq pos in
      if m : bool then Ret (Some pos)
      else
        let! e := is_empty_tag c in
        if e : bool then Ret None
        else find_loop fuel t tag_hash eq (move_next pos (bucket_mask t))
  end.

(** [RawTableInner::find_inner] *)
Definition find_inner t (hash : Z) (eq : T -> bool) : outcome (option Z) :=
  let! _ := debug_assert (negb (is_empty t)) in
  find_loop (Z.to_nat (buckets t)) t (full hash) eq (probe_seq t hash).

(** [RawTableInner::replace_ctrl_hash] *)
Definition replace_ctrl_hash t (index hash : Z) : outcome (Z * RawTable T) :=
  let! prev_ctrl := ctrl t index in
  Ret (prev_ctrl, set_ctrl t index (full hash)).

(** [RawTableInner::prepare_rehash_in_place] *)
Definition prepare_rehash_in_place t : RawTable T :=
  if is_empty t then t
  else with_slots t ((fun s => mkSlot (if is_full (tag s) then DELETED else EMPTY) (cell s)) <$> slots t).

(** The loop ['inner] of [rehash_in_place_inner] for one bucket *)
Fixpoint rehash_bucket (fuel : nat) t (i : Z) : outcome (RawTable T) :=
  match fuel with
  | O => NoFuel
  | S fuel =>
      let! x := bucket t i in
      let hash := hasher x in
      let! new_i := find_insert_slot t hash in
      if i =? new_i then
        let! (_, t) := replace_ctrl_hash t new_i hash in Ret t
      else
        let! (prev_ctrl, t) := replace_ctrl_hash t new_i hash in
        if prev_ctrl =? EMPTY then
          Ret (set_bucket (set_ctrl t i EMPTY) new_i x)
        else
          let! _ := debug_assert (prev_ctrl =? DELETED) in
          let! y := bucket t new_i in
          rehash_bucket fuel (set_bucket (set_bucket t new_i x) i y) i
  end.

(** The loop ['outer] over the buckets [i], [i + 1], ... *)
Fixpoint rehash_loop (n : nat) t (i : Z) : outcome (RawTable T) :=
  match n with
  | O => Ret t
  | S n =>
      let! c := ctrl t i in
      if negb (c =? DELETED) then rehash_loop n t (i + 1)
      else
        let! t := rehash_bucket (Z.to_nat (buckets t)) t i in
        rehash_loop n t (i + 1)
  end.

(** [RawTableInner::rehash_in_place_inner] *)
Definition rehash_in_place_inner t (workable_buckets : Z) : outcome (RawTable T) :=
  let! t := rehash_loop (Z.to_nat workable_buckets) t 0 in
  let! g := chk 64 (bucket_mask_to_capacity (bucket_mask t) - items t) in
  Ret (mkTable (base t) (bucket_mask t) g (items t) (slots t)).

(** [RawTableInner::rehash_in_place] *)
Definition rehash_in_place t : outcome (RawTable T) :=
  let t := prepare_rehash_in_place t in rehash_in_place_inner t (buckets t).

(** A table of empty buckets *)
Definition empty_slots (n : Z) : list (Slot T) := replicate (Z.to_nat n) (mkSlot EMPTY None).

(** The number of buckets for a capacity *)
Definition buckets_for (capacity : Z) : outcome Z :=
  let! n := chk 64 (capacity * 8) in
  let! p := next_power_of_two (n / 7) in
  Ret (Z.max p 8).

(** [RawTableInner::bootstrap] *)
Definition bootstrap t (capacity : Z) : outcome (result (RawTable T) AllocError) :=
  let! b := buckets_for capacity in
  let! global := allocate layout b in
  match global with
  | Err e => Ret (Err e)
  | Ok p => Ret (Ok (mkTable (Some p) (b - 1) (bucket_mask_to_capacity (b - 1)) 0 (empty_slots b)))
  end.

(** [RawTableInner::resize_inner] *)
Definition resize_inner t (capacity : Z) : outcome (result (RawTable T) AllocError) :=
  let! _ := debug_assert (items t <=? capacity) in
  let old_buckets := buckets t in
  let! b := buckets_for capacity in
  let! global := allocate layout b in
  match global with
  | Err e => Ret (Err e)
  | Ok p =>
      if negb (is_empty_singleton t) then
        let t := prepare_rehash_in_place t in
        let! n := chk 64 (b - buckets t) in
        let! g := chk 64 (bucket_mask_to_capacity (b - 1) - items t) in
        let t := mkTable (base t) (b - 1) g (items t) (slots t ++ empty_slots n) in
        let! t := rehash_in_place_inner t old_buckets in
        Ret (Ok t)
      else Ret (Ok (mkTable (Some p) (b - 1) (bucket_mask_to_capacity (b - 1)) 0 (empty_slots b)))
  end.

(** [RawTableInner::reserve_rehash_inner] *)
Definition reserve_rehash_inner t (additional : Z) : outcome (result (RawTable T) AllocError) :=
  let! new_items := chk 64 (items t + additional) in
  let full_capacity := bucket_mask_to_capacity (bucket_mask t) in
  if new_items <=? full_capacity / 2 then
    let! t := rehash_in_place t in Ret (Ok t)
  else resize_inner t (Z.max new_items (full_capacity + 1)).

(** [RawTable::reserve]; a failed allocation panics. *)
Definition reserve t (additional : Z) : outcome (RawTable T) :=
  if growth_left t <? additional then
    let! r := reserve_rehash_inner t additional in
    match r with Ok t => Ret t | Err _ => Panic end
  else Ret t.

(** [RawTable::find_or_find_insert_slot] *)
Definition find_or_find_insert_slot t (hash : Z) (eq : T -> bool) : outcome (result Z Z * RawTable T) :=
  let! t := reserve t 1 in
  let! r := find_or_find_insert_slot_inner t hash eq in
  Ret (r, t).

(** [RawTable::insert_in_slot] *)
Definition insert_in_slot t (hash slot : Z) (value : T) : outcome (RawTable T) :=
  let! old_ctrl := ctrl t slot in
  let! e := special_is_empty old_ctrl in
  let! g := chk 64 (growth_left t - Z.b2z e) in
  let! n := chk 64 (items t + 1) in
  let t := set_ctrl t slot (full hash) in
  Ret (set_bucket (mkTable (base t) (bucket_mask t) g n (slots t)) slot value).

(** [RawTableInner::erase] *)
Definition erase t (index : Z) : outcome (RawTable T) :=
  let! _ := ctrl t index in
  let t := set_ctrl t index DELETED in
  let! n := chk 64 (items t - 1) in
  Ret (mkTable (base t) (bucket_mask t) (growth_left t) n (slots t)).

(** [RawTable::remove] *)
Definition table_remove t (hash : Z) (eq : T -> bool) : outcome (option T * RawTable T) :=
  let! r := find_inner t hash eq in
  match r with
  | Some i =>
      let! item := bucket t i in
      let! t := erase t i in
      Ret (Some item, t)
  | None => Ret (None, t)
  end.

(** [RawTable::get] *)
Definition table_get t (hash : Z) (eq : T -> bool) : outcome (option T) :=
  let! r := find_inner t hash eq in
  match r with
  | Some i => let! x := bucket t i in Ret (Some x)
  | None => Ret None
  end.

(** [RawTable::clear] *)
Definition table_clear t : RawTable T :=
  if is_empty_singleton t then t
  else mkTable (base t) (bucket_mask t) (growth_left t) 0 ((fun s => mkSlot EMPTY (cell s)) <$> slots t).

(** [RawIter], run to its end: the contents of the full buckets in order *)
Fixpoint iter_slots (l : list (Slot T)) : list T :=
  match l with
  | [] => []
  | s :: l => match is_full (tag s), cell s with true, Some x => x :: iter_slots l | _, _ => iter_slots l end
  end.
Definition table_iter t : list T := iter_slots (slots t).
End table.

(** ** The map (map.rs) *)
Section map.
Context {K V : Type} `{EqDecision K} (hash : K -> Z) (layout : TableLayout).

(** [make_hasher] and [equivalent_key] *)
Definition make_hasher (x : K * V) : Z := hash x.1.
Definition equivalent_key (k : K) (x : K * V) : bool := bool_decide (k = x.1).

(** [PersistentHashMap::with_builder] *)
Definition map_new : outcome (result (RawTable (K * V)) AllocError) := bootstrap layout table_new 1.

(** [PersistentHashMap::get] *)
Definition map_get (t : RawTable (K * V)) (k : K) : outcome (option V) :=
  let! r := table_get t (hash k) (equivalent_key k) in Ret (snd <$> r).

(** [PersistentHashMap::remove] *)
Definition map_remove (t : RawTable (K * V)) (k : K) : outcome (option V * RawTable (K * V)) :=
  let! (r, t) := table_remove t (hash k) (equivalent_key k) in Ret (snd <$> r, t).

(** [PersistentHashMap::insert] *)
Definition map_insert (t : RawTable (K * V)) (k : K) (v : V) : outcome (option V * RawTable (K * V)) :=
  let! (r, t) := find_or_find_insert_slot make_hasher layout t (hash k) (equivalent_key k) in
  match r with
  | Ok i =>
      let! x := bucket t i in
      Ret (Some x.2, set_bucket t i (x.1, v))
  | Err slot => let! t := insert_in_slot t (hash k) slot (k, v) in Ret (None, t)
  end.

(** [PersistentHashMap::len], [iter] and [clear] *)
Definition map_len (t : RawTable (K * V)) : Z := items t.
Definition map_iter (t : RawTable (K * V)) : list (K * V) := table_iter t.
Definition map_clear (t : RawTable (K * V)) : RawTable (K * V) := table_clear t.
End map.
End object.
End Hachage.
