(* ===== verification/HachageInv.v ===== *)
(** * The persistent hash table implements a finite map

    The invariant of the table (every stored element is reachable from its home bucket
    without crossing an empty slot, and some slot is empty) and the theorems that [get],
    [insert] and [remove] act on it as lookup, insertion and deletion act on a finite map,
    through rehashing in place and growth.  The exception is a table from which
    everything was removed: rehashing it brings the removed elements back. *)
From S2P Require Import Prelude Address Hachage.

#[local] Open Scope Z_scope.

Module HachageInv.
Import Hachage.

(** ** Tags *)
Definition tag_ok (c : Z) : Prop := 0 <= c < 128 \/ c = EMPTY \/ c = DELETED.

Lemma full_range h : 0 <= full h < 128.
Proof. unfold full. change 0x7f with (2 ^ 7 - 1). rewrite (land_mask _ 7) by done. apply Z.mod_pos_bound. done. Qed.

Lemma is_full_lt c : 0 <= c < 128 -> is_full c = true.
Proof.
  intros Hc. unfold is_full. change 0x80 with (2 ^ 7). rewrite land_bit by done. apply negb_true_iff.
  rewrite <- (Z.mod_small c (2 ^ 7)) by done. by apply Z.mod_pow2_bits_high.
Qed.

Lemma tag_cases c : tag_ok c ->
  (is_full c = true /\ is_special c = false /\ c <> EMPTY /\ c <> DELETED /\ 0 <= c < 128) \/
  (is_full c = false /\ is_special c = true /\ c = EMPTY) \/ (is_full c = false /\ is_special c = true /\ c = DELETED).
Proof.
  intros [Hc|[->| ->]]; [left|by right; left|by right; right]. pose proof (is_full_lt c Hc) as Hf.
  assert (c <> EMPTY /\ c <> DELETED) as [? ?] by (unfold EMPTY, DELETED; lia). split_and!; try done; try lia. unfold is_special, is_full in *. by rewrite Hf.
Qed.

Lemma is_empty_tag_spec `{Build} c : tag_ok c -> is_empty_tag c = Ret (c =? EMPTY).
Proof.
  intros Hc. unfold is_empty_tag. destruct (tag_cases c Hc) as [(_ & -> & Hne & _)|[(_ & -> & ->)|(_ & -> & ->)]].
  - by rewrite (proj2 (Z.eqb_neq _ _) Hne).
  - unfold special_is_empty, debug_assert. by destruct overflow_checks.
  - unfold special_is_empty, debug_assert. by destruct overflow_checks.
Qed.

(** ** Positions *)
Section pos.
Context (n : Z) (Hn : 0 <= n).
#[local] Abbreviation B := (2 ^ n) (only parsing).

Lemma B_pos : 0 < B.
Proof using Hn. lia. Qed.

Lemma probe_mod h : Z.land h (B - 1) = h mod B.
Proof using Hn. by apply land_mask. Qed.

Lemma move_mod h d : move_next ((h + d) mod B) (B - 1) = (h + (d + 1)) mod B.
Proof using Hn. pose proof B_pos. unfold move_next. rewrite probe_mod. rewrite Zplus_mod_idemp_l. f_equal. lia. Qed.

(** The distance from a home bucket. *)
Definition dist (h i : Z) : Z := (i - h) mod 2 ^ n.

Lemma dist_bounds h i : 0 <= dist h i < B.
Proof using Hn. apply Z.mod_pos_bound, B_pos. Qed.

Lemma dist_pos h i : 0 <= i < B -> (h + dist h i) mod B = i.
Proof using Hn. intros Hi. unfold dist. pose proof B_pos. rewrite Zplus_mod_idemp_r. replace (h + (i - h)) with i by lia. by apply Z.mod_small. Qed.

Lemma pos_dist h d : 0 <= d < B -> dist h ((h + d) mod B) = d.
Proof using Hn.
  intros Hd. unfold dist. pose proof B_pos. rewrite Zminus_mod_idemp_l. replace (h + d - h) with d by lia. by apply Z.mod_small.
Qed.
End pos.

(** The first distance at which a test holds. *)
Lemma first_from (p : Z -> bool) (k : nat) : forall s, p (s + Z.of_nat k) = true ->
  exists d, s <= d <= s + Z.of_nat k /\ p d = true /\ forall d', s <= d' < d -> p d' = false.
Proof.
  induction k as [|k IH]; intros s Hp; destruct (p s) eqn:Es; try (exists s; split_and!; [lia|lia|done|lia]).
  - rewrite Z.add_0_r in Hp. congruence.
  - destruct (IH (s + 1)) as (d & Hd & Hpd & Hno); [by replace (s + 1 + Z.of_nat k) with (s + Z.of_nat (S k)) by lia|].
    exists d. split_and!; [lia|lia|done|]. intros d' Hd'. destruct (decide (d' = s)) as [->|]; [done|]. apply Hno. lia.
Qed.

Lemma first_true (p : Z -> bool) m : 0 <= m -> p m = true -> exists d, 0 <= d <= m /\ p d = true /\ forall d', 0 <= d' < d -> p d' = false.
Proof. intros Hm Hp. destruct (first_from p (Z.to_nat m) 0) as (d & ? & ? & ?); [by rewrite Z2Nat.id|]. exists d. split_and!; (done || lia). Qed.

(** ** Probing *)
Section probe.
Context `{Build} {T : Type}.
Implicit Types (t : RawTable T).

#[global] Instance Slot_inhabited : Inhabited (Slot T) := populate (mkSlot EMPTY None).

Definition tag_of t (i : Z) : Z := tag (slots t !!! Z.to_nat i).
Definition cell_of t (i : Z) : option T := cell (slots t !!! Z.to_nat i).

(** The dimensions of a table: [2 ^ n] buckets with well-formed tags. *)
Record shape t (n : Z) : Prop := {
  sh_n : 3 <= n <= 60;
  sh_mask : bucket_mask t = 2 ^ n - 1;
  sh_len : zlen (slots t) = 2 ^ n;
  sh_tags : forall s, s ∈ slots t -> tag_ok (tag s) }.

Section shaped.
Context (t : RawTable T) (n : Z) (Hsh : shape t n).
#[local] Abbreviation B := (2 ^ n) (only parsing).

Lemma sh_lookup i : 0 <= i < B -> slots t !! Z.to_nat i = Some (slots t !!! Z.to_nat i).
Proof using Hsh. intros Hi. apply list_lookup_lookup_total_lt. pose proof (sh_len _ _ Hsh). unfold zlen in *. lia. Qed.

Lemma sh_tag_ok i : 0 <= i < B -> tag_ok (tag_of t i).
Proof using Hsh. intros Hi. apply (sh_tags _ _ Hsh). eapply list_elem_of_lookup_2, sh_lookup, Hi. Qed.

Lemma ctrl_spec i : 0 <= i < B -> ctrl t i = Ret (tag_of t i).
Proof using Hsh. intros Hi. unfold ctrl. by rewrite sh_lookup. Qed.

Lemma bucket_spec i x : 0 <= i < B -> cell_of t i = Some x -> bucket t i = Ret x.
Proof using Hsh. intros Hi Hx. unfold bucket. rewrite sh_lookup by done. cbn [unwrap obind]. unfold cell_of in Hx. by rewrite Hx. Qed.

Lemma n_nonneg : 0 <= n.
Proof using Hsh. pose proof (sh_n _ _ Hsh). lia. Qed.

Lemma probe_seq_mod h : probe_seq t h = h mod B.
Proof using Hsh. unfold probe_seq. rewrite (sh_mask _ _ Hsh). apply probe_mod, n_nonneg. Qed.

(** A probing loop does [f] at each position until it gives a result. *)
Fixpoint ploop {R} (f : Z -> outcome (option R)) (fuel : nat) (pos : Z) : outcome R :=
  match fuel with
  | O => NoFuel
  | S fuel =>
      let! r := f pos in
      match r with Some r => Ret r | None => ploop f fuel (move_next pos (bucket_mask t)) end
  end.

Lemma ploop_spec {R} (f : Z -> outcome (option R)) (r : R) h (k : nat) : forall d fuel, (k < fuel)%nat ->
  (forall d', d <= d' < d + Z.of_nat k -> f ((h + d') mod B) = Ret None) -> f ((h + (d + Z.of_nat k)) mod B) = Ret (Some r) ->
  ploop f fuel ((h + d) mod B) = Ret r.
Proof using Hsh.
  induction k as [|k IH]; intros d fuel Hf Hno Hr; (destruct fuel as [|fuel]; [lia|]); cbn [ploop].
  - rewrite Z.add_0_r in Hr. by rewrite Hr.
  - rewrite Hno by lia. cbn [obind]. rewrite (sh_mask _ _ Hsh). rewrite (move_mod n n_nonneg). apply IH; [lia| |].
    + intros d' Hd'. apply Hno. lia.
    + by replace (d + 1 + Z.of_nat k) with (d + Z.of_nat (S k)) by lia.
Qed.

(** The first position from a hash on that passes a test. *)
Lemma ploop_first {R} (f : Z -> outcome (option R)) (g : Z -> R) (p : Z -> bool) h j : 0 <= j < B -> p j = true ->
  (forall i, 0 <= i < B -> f i = Ret (if p i then Some (g i) else None)) ->
  exists i, 0 <= i < B /\ p i = true /\ (forall d, 0 <= d < dist n h i -> p ((h + d) mod B) = false) /\
    ploop f (Z.to_nat (buckets t)) (probe_seq t h) = Ret (g i).
Proof using Hsh.
  intros Hj Hp Hf. pose proof (B_pos n n_nonneg) as HB. pose proof (dist_bounds n n_nonneg h j) as Hd.
  destruct (first_true (fun d => p ((h + d) mod B)) (dist n h j)) as (d & Hd1 & Hpd & Hno); [lia|by rewrite (dist_pos n n_nonneg)|].
  assert (0 <= (h + d) mod B < B) as Hb by (apply Z.mod_pos_bound; lia).
  exists ((h + d) mod B). split_and!; [lia|lia|done| |].
  - rewrite (pos_dist n n_nonneg) by lia. done.
  - rewrite probe_seq_mod. rewrite <- (Z.add_0_r h) at 1. unfold buckets. rewrite (sh_mask _ _ Hsh).
    apply (ploop_spec f _ h (Z.to_nat d)); [lia| |].
    + intros d' Hd'. rewrite Hf by (apply Z.mod_pos_bound; lia). by rewrite Hno by lia.
    + rewrite Z.add_0_l, Z2Nat.id by lia. rewrite Hf by done. by rewrite Hpd.
Qed.

(** Every element in a full bucket has its own tag. *)
Definition tagged (hasher : T -> Z) : Prop :=
  forall i, 0 <= i < B -> is_full (tag_of t i) = true -> exists x, cell_of t i = Some x /\ tag_of t i = full (hasher x).

(** A full bucket with a wanted element. *)
Definition holds (eq : T -> bool) (i : Z) : bool :=
  is_full (tag_of t i) && match cell_of t i with Some x => eq x | None => false end.

Definition hit (eq : T -> bool) (h i : Z) : bool := (tag_of t i =? full h) && match cell_of t i with Some x => eq x | None => false end.

Lemma matches_spec hasher eq h i : tagged hasher -> 0 <= i < B -> matches t (tag_of t i) (full h) eq i = Ret (hit eq h i).
Proof using Hsh.
  intros Ht Hi. unfold matches, hit. destruct (Z.eqb_spec (tag_of t i) (full h)) as [E|E]; [|done].
  destruct (Ht i Hi) as (x & Hx & _); [rewrite E; apply is_full_lt, full_range|]. rewrite (bucket_spec i x Hi Hx), Hx. done.
Qed.

Lemma find_loop_ploop hasher eq h fuel pos : tagged hasher -> 0 <= pos < B ->
  find_loop fuel t (full h) eq pos =
  ploop (fun i => Ret (if hit eq h i || (tag_of t i =? EMPTY) then Some (if hit eq h i then Some i else None) else None)) fuel pos.
Proof using Hsh.
  intros Ht. revert pos. induction fuel as [|fuel IH]; intros pos Hpos; [done|]. cbn [find_loop ploop]. rewrite ctrl_spec by done. cbn [obind].
  rewrite (matches_spec hasher) by done. cbn [obind]. destruct (hit eq h pos); [done|]. rewrite is_empty_tag_spec by by apply sh_tag_ok. cbn [obind orb].
  destruct (tag_of t pos =? EMPTY); [done|]. apply IH. unfold move_next. rewrite (sh_mask _ _ Hsh), (probe_mod n n_nonneg).
  apply Z.mod_pos_bound, B_pos, n_nonneg.
Qed.

Lemma find_or_insert_loop_ploop hasher eq h fuel pos : tagged hasher -> 0 <= pos < B ->
  find_or_insert_loop fuel t (full h) eq pos =
  ploop (fun i => Ret (if hit eq h i || (tag_of t i =? EMPTY) then Some (if hit eq h i then Ok i else Err i) else None)) fuel pos.
Proof using Hsh.
  intros Ht. revert pos. induction fuel as [|fuel IH]; intros pos Hpos; [done|]. cbn [find_or_insert_loop ploop]. rewrite ctrl_spec by done. cbn [obind].
  rewrite (matches_spec hasher) by done. cbn [obind]. destruct (hit eq h pos); [done|]. rewrite is_empty_tag_spec by by apply sh_tag_ok. cbn [obind orb].
  destruct (tag_of t pos =? EMPTY); [done|]. apply IH. unfold move_next. rewrite (sh_mask _ _ Hsh), (probe_mod n n_nonneg).
  apply Z.mod_pos_bound, B_pos, n_nonneg.
Qed.

Lemma find_insert_loop_ploop fuel pos : 0 <= pos < B ->
  find_insert_loop fuel t pos = ploop (fun i => Ret (if is_special (tag_of t i) then Some i else None)) fuel pos.
Proof using Hsh.
  revert pos. induction fuel as [|fuel IH]; intros pos Hpos; [done|]. cbn [find_insert_loop ploop]. rewrite ctrl_spec by done. cbn [obind].
  destruct (is_special (tag_of t pos)); [done|]. apply IH. unfold move_next. rewrite (sh_mask _ _ Hsh), (probe_mod n n_nonneg).
  apply Z.mod_pos_bound, B_pos, n_nonneg.
Qed.

Lemma home_bounds h : 0 <= probe_seq t h < B.
Proof using Hsh. rewrite probe_seq_mod. apply Z.mod_pos_bound, B_pos, n_nonneg. Qed.

(** [find_insert_slot] stops at the first bucket that is not full. *)
Lemma find_insert_slot_spec h j : 0 <= j < B -> is_special (tag_of t j) = true ->
  exists i, find_insert_slot t h = Ret i /\ 0 <= i < B /\ is_special (tag_of t i) = true /\
    forall d, 0 <= d < dist n h i -> is_special (tag_of t ((h + d) mod B)) = false.
Proof using Hsh.
  intros Hj Hs. destruct (ploop_first (fun i => Ret (if is_special (tag_of t i) then Some i else None)) (fun i => i) (fun i => is_special (tag_of t i)) h j)
    as (i & Hi & Hp & Hno & E); [done..|]. exists i. unfold find_insert_slot. rewrite find_insert_loop_ploop by apply home_bounds. done.
Qed.

(** Elements are reachable from their home bucket. *)
Definition reachable (hasher : T -> Z) : Prop :=
  forall i x, 0 <= i < B -> is_full (tag_of t i) = true -> cell_of t i = Some x ->
    forall d, 0 <= d < dist n (hasher x) i -> tag_of t ((hasher x + d) mod B) <> EMPTY.

Section find.
Context (hasher : T -> Z) (Ht : tagged hasher) (Hre : reachable hasher) (j : Z) (Hj : 0 <= j < B) (Hje : tag_of t j = EMPTY).
Context (eq : T -> bool) (h : Z) (Heq : forall x, eq x = true -> hasher x = h).

(** Where the search stops: at the wanted element, or at an empty bucket when it is not there. *)
Lemma search_stops : exists i, 0 <= i < B /\ (hit eq h i || (tag_of t i =? EMPTY)) = true /\
  (forall d, 0 <= d < dist n h i -> (hit eq h ((h + d) mod B) || (tag_of t ((h + d) mod B) =? EMPTY)) = false) /\
  find_loop (Z.to_nat (buckets t)) t (full h) eq (probe_seq t h) = Ret (if hit eq h i then Some i else None) /\
  find_or_insert_loop (Z.to_nat (buckets t)) t (full h) eq (probe_seq t h) = Ret (if hit eq h i then Ok i else Err i).
Proof using All.
  set (p := fun i => hit eq h i || (tag_of t i =? EMPTY)). assert (p j = true) as Hp by (unfold p; by rewrite Hje, orb_true_r).
  pose proof (ploop_first (fun i => Ret (if p i then Some (if hit eq h i then Some i else None) else None)) (fun i => if hit eq h i then Some i else None) p h j Hj Hp) as H1.
  pose proof (ploop_first (fun i => Ret (if p i then Some (if hit eq h i then Ok i else Err i) else None)) (fun i => if hit eq h i then Ok i else Err i) p h j Hj Hp) as H2.
  destruct H1 as (i & Hi & Hpi & Hno & E1); [done|]. destruct H2 as (i2 & Hi2 & Hpi2 & Hno2 & E2); [done|].
  assert (i2 = i) as ->.
  { rewrite <- (dist_pos n n_nonneg h i), <- (dist_pos n n_nonneg h i2) by done. do 2 f_equal.
    pose proof (dist_bounds n n_nonneg h i). pose proof (dist_bounds n n_nonneg h i2). destruct (Z.lt_trichotomy (dist n h i) (dist n h i2)) as [Hlt|[E|Hlt]]; [|done|].
    - specialize (Hno2 (dist n h i) ltac:(lia)). rewrite (dist_pos n n_nonneg) in Hno2 by done. congruence.
    - specialize (Hno (dist n h i2) ltac:(lia)). rewrite (dist_pos n n_nonneg) in Hno by done. congruence. }
  exists i. split_and!; [lia|lia|done|done| |].
  - rewrite (find_loop_ploop hasher) by (done || apply home_bounds). done.
  - rewrite (find_or_insert_loop_ploop hasher) by (done || apply home_bounds). done.
Qed.

Lemma hit_holds i : 0 <= i < B -> hit eq h i = holds eq i.
Proof using All.
  intros Hi. unfold hit, holds. destruct (is_full (tag_of t i)) eqn:Ef; simpl.
  - destruct (Ht i Hi Ef) as (x & -> & ->). destruct (eq x) eqn:Ex; [|by rewrite andb_false_r]. by rewrite (Heq x Ex), Z.eqb_refl.
  - destruct (Z.eqb_spec (tag_of t i) (full h)) as [E|E]; [|done]. rewrite E, is_full_lt in Ef by apply full_range. done.
Qed.

Lemma find_spec :
  (exists i x, 0 <= i < B /\ is_full (tag_of t i) = true /\ cell_of t i = Some x /\ eq x = true /\
     find_loop (Z.to_nat (buckets t)) t (full h) eq (probe_seq t h) = Ret (Some i) /\ find_or_find_insert_slot_inner t h eq = Ret (Ok i)) \/
  (exists i, 0 <= i < B /\ tag_of t i = EMPTY /\ (forall i, 0 <= i < B -> holds eq i = false) /\
     (forall d, 0 <= d < dist n h i -> tag_of t ((h + d) mod B) <> EMPTY) /\
     find_loop (Z.to_nat (buckets t)) t (full h) eq (probe_seq t h) = Ret None /\ find_or_find_insert_slot_inner t h eq = Ret (Err i)).
Proof using All.
  destruct search_stops as (i & Hi & Hs & Hno & E1 & E2). unfold find_or_find_insert_slot_inner. rewrite E1, E2. destruct (hit eq h i) eqn:Eh; simpl in Hs.
  - left. rewrite hit_holds in Eh by done. unfold holds in Eh. apply andb_true_iff in Eh as [Hf Hc]. destruct (cell_of t i) as [x|] eqn:Ex; [|done]. exists i, x. done.
  - right. apply Z.eqb_eq in Hs. exists i. split_and!; try done; try lia.
    + intros k Hk. apply not_true_is_false. intros Hh. rewrite <- hit_holds in Hh by done. pose proof Hh as Hh'. rewrite hit_holds in Hh' by done.
      unfold holds in Hh'. apply andb_true_iff in Hh' as [Hf Hc]. destruct (cell_of t k) as [x|] eqn:Ex; [|done].
      pose proof (Hre k x Hk Hf Ex) as Hr. rewrite (Heq x Hc) in Hr.
      pose proof (dist_bounds n n_nonneg h k). pose proof (dist_bounds n n_nonneg h i).
      destruct (Z.lt_trichotomy (dist n h i) (dist n h k)) as [Hlt|[E|Hlt]].
      * apply (Hr (dist n h i)); [lia|]. by rewrite (dist_pos n n_nonneg).
      * assert (k = i) as -> by (rewrite <- (dist_pos n n_nonneg h k), <- E, (dist_pos n n_nonneg h i) by done; done). congruence.
      * specialize (Hno (dist n h k) ltac:(lia)). rewrite (dist_pos n n_nonneg) in Hno by done. by rewrite Hh in Hno.
    + intros d Hd. specialize (Hno d Hd). apply orb_false_iff in Hno as [_ Hx]. by apply Z.eqb_neq.
Qed.
End find.
End shaped.
End probe.

(** ** Contents *)
Section contents.
Context {T : Type}.
Implicit Types (l : list (Slot T)) (s : Slot T).

Definition full_item s : option T := if is_full (tag s) then cell s else None.
Definition live_item s : option T := if tag s =? EMPTY then None else cell s.

Lemma iter_omap l : iter_slots l = omap full_item l.
Proof.
  induction l as [|[c [x|]] l IH]; [done|..]; unfold full_item in *; cbn [iter_slots omap list_omap tag cell]; rewrite IH; by destruct (is_full c).
Qed.

Lemma omap_cons_app (f : Slot T -> option T) s l : omap f (s :: l) = option_list (f s) ++ omap f l.
Proof. cbn. by destruct (f s). Qed.

Lemma insert_cons (y s' : Slot T) i l : <[S i := s']> (y :: l) = y :: <[i := s']> l.
Proof. done. Qed.

(** Replacing a slot, as a permutation. *)
Lemma omap_insert (f : Slot T -> option T) l i s s' : l !! i = Some s ->
  option_list (f s) ++ omap f (<[i := s']> l) ≡ₚ option_list (f s') ++ omap f l.
Proof.
  revert i. induction l as [|y l IH]; intros [|i] Hi; [done|done| |]; simpl in Hi.
  - injection Hi as ->. change (<[0%nat := s']> (s :: l)) with (s' :: l). rewrite !omap_cons_app. rewrite !app_assoc. f_equiv. apply Permutation_app_comm.
  - specialize (IH i Hi). rewrite insert_cons, !omap_cons_app. rewrite !app_assoc, (Permutation_app_comm _ (option_list (f y))), (Permutation_app_comm _ (option_list (f y))).
    rewrite <- !app_assoc. by f_equiv.
Qed.

Lemma omap_insert_same (f : Slot T -> option T) l i s s' : l !! i = Some s -> f s' = f s -> omap f (<[i := s']> l) = omap f l.
Proof.
  revert i. induction l as [|y l IH]; intros [|i] Hi E; [done|done| |]; simpl in Hi.
  - injection Hi as ->. change (<[0%nat := s']> (s :: l)) with (s' :: l). by rewrite !omap_cons_app, E.
  - rewrite insert_cons, !omap_cons_app. by rewrite (IH i).
Qed.

(** The number of slots whose tag passes a test. *)
Fixpoint tags (p : Z -> bool) l : Z := match l with [] => 0 | s :: l => Z.b2z (p (tag s)) + tags p l end.

Lemma tags_bounds p l : 0 <= tags p l <= zlen l.
Proof. induction l as [|s l IH]; unfold zlen in *; cbn [tags length]; [lia|]. destruct (p (tag s)); simpl; lia. Qed.

Lemma tags_insert p l i s s' : l !! i = Some s -> tags p (<[i := s']> l) = tags p l - Z.b2z (p (tag s)) + Z.b2z (p (tag s')).
Proof.
  revert i. induction l as [|y l IH]; intros [|i] Hi; [done|done| |]; simpl in Hi.
  - injection Hi as ->. change (<[0%nat := s']> (s :: l)) with (s' :: l). cbn [tags]. lia.
  - change (<[S i := s']> (y :: l)) with (y :: <[i := s']> l). cbn [tags]. rewrite (IH i Hi). lia.
Qed.

Lemma tags_app p l l' : tags p (l ++ l') = tags p l + tags p l'.
Proof. induction l as [|s l IH]; cbn [tags app]; [lia|]. rewrite IH. lia. Qed.

Lemma tags_length (p : Z -> bool) (f : Slot T -> option T) l : (forall s, s ∈ l -> f s = if p (tag s) then f s else None) ->
  (forall s, s ∈ l -> p (tag s) = true -> f s <> None) -> tags p l = zlen (omap f l).
Proof.
  unfold zlen. induction l as [|s l IH]; intros H1 H2; [done|]. cbn [tags]. rewrite IH by (intros; (apply H1 || apply H2); by try right).
  specialize (H1 s (list_elem_of_here _ _)). specialize (H2 s (list_elem_of_here _ _)). rewrite omap_cons_app, length_app. destruct (p (tag s)); simpl.
  - destruct (f s); [simpl; lia|]. by destruct H2.
  - rewrite H1. simpl. lia.
Qed.

(** Not every slot passes the test. *)
Lemma tags_some p l : tags p l < zlen l -> exists i s, l !! i = Some s /\ p (tag s) = false.
Proof.
  unfold zlen. induction l as [|s l IH]; cbn [tags length]; [lia|]. destruct (p (tag s)) eqn:E; simpl.
  - intros Hlt. destruct IH as (i & s' & Hi & Hs); [lia|]. by exists (S i), s'.
  - intros _. by exists 0%nat, s.
Qed.

Lemma tags_zero p l : tags p l = 0 -> forall s, s ∈ l -> p (tag s) = false.
Proof.
  induction l as [|y l IH]; cbn [tags]; [set_solver|]. pose proof (tags_bounds p l). intros E s [->|Hs]%elem_of_cons.
  - destruct (p (tag y)); [simpl in E; lia|done].
  - apply IH; [|done]. destruct (p (tag y)); simpl in E; lia.
Qed.

Lemma alter_insert (f : Slot T -> Slot T) l i s : l !! i = Some s -> alter f i l = <[i := f s]> l.
Proof.
  intros Hi. apply list_eq. intros j. destruct (decide (j = i)) as [->|Hne].
  - rewrite list_lookup_alter_eq, Hi, list_lookup_insert_eq; [done|]. by apply lookup_lt_Some in Hi.
  - by rewrite list_lookup_alter_ne, list_lookup_insert_ne.
Qed.
End contents.

(** ** The invariant *)
Definition is_live (c : Z) : bool := negb (c =? EMPTY).
Definition is_deleted (c : Z) : bool := c =? DELETED.

Section inv.
Context `{Build} {T : Type} (hasher : T -> Z).
Implicit Types (t : RawTable T).

Record table_inv t (n : Z) : Prop := {
  ti_shape : shape t n;
  ti_tagged : tagged t n hasher;
  ti_reach : reachable t n hasher;
  ti_items : items t = tags is_full (slots t);
  ti_growth : 0 <= growth_left t;
  ti_room : growth_left t + tags is_live (slots t) <= bucket_mask_to_capacity (bucket_mask t) }.

Definition capacity_of (n : Z) : Z := bucket_mask_to_capacity (2 ^ n - 1).

Lemma capacity_bounds n : 3 <= n -> 7 <= capacity_of n < 2 ^ n /\ capacity_of n = 7 * 2 ^ (n - 3).
Proof.
  intros Hn. unfold capacity_of, bucket_mask_to_capacity. assert (2 ^ n = 8 * 2 ^ (n - 3)) as E by (change 8 with (2 ^ 3); rewrite <- Z.pow_add_r by lia; f_equal; lia).
  assert (1 <= 2 ^ (n - 3)) by (pose proof (Z.pow_pos_nonneg 2 (n - 3)); lia). destruct (Z.ltb_spec (2 ^ n - 1) 8) as [Hlt|Hge].
  - assert (2 ^ (n - 3) = 1) by lia. lia.
  - replace (2 ^ n - 1 + 1) with (2 ^ (n - 3) * 8) by lia. rewrite Z.div_mul by done. lia.
Qed.

Lemma full_le_live (l : list (Slot T)) : (forall s, s ∈ l -> tag_ok (tag s)) -> tags is_full l <= tags is_live l.
Proof.
  induction l as [|s l IH]; intros Htg; [done|]. cbn [tags]. specialize (IH (fun s Hs => Htg s (list_elem_of_further _ _ _ Hs))).
  assert (Z.b2z (is_full (tag s)) <= Z.b2z (is_live (tag s))); [|lia]. unfold is_live.
  destruct (tag_cases _ (Htg s (list_elem_of_here _ _))) as [(-> & _ & He & _)|[(-> & _ & ->)|(-> & _ & ->)]]; [|done..]. by rewrite (proj2 (Z.eqb_neq _ _) He).
Qed.

(** Some bucket is empty. *)
Lemma has_empty t n : shape t n -> tags is_live (slots t) < 2 ^ n -> exists j, 0 <= j < 2 ^ n /\ tag_of t j = EMPTY.
Proof.
  intros Hsh Hlt. rewrite <- (sh_len _ _ Hsh) in Hlt. destruct (tags_some _ _ Hlt) as (i & s & Hi & Hs).
  exists (Z.of_nat i). unfold tag_of. rewrite Nat2Z.id, (list_lookup_total_correct _ _ _ Hi). unfold is_live in Hs. apply negb_false_iff, Z.eqb_eq in Hs.
  pose proof (sh_len _ _ Hsh) as Hl. unfold zlen in Hl. apply lookup_lt_Some in Hi. split; [lia|done].
Qed.

Lemma inv_empty t n : table_inv t n -> exists j, 0 <= j < 2 ^ n /\ tag_of t j = EMPTY.
Proof.
  intros Hi. pose proof (ti_shape _ _ Hi) as Hsh. apply (has_empty t n Hsh). pose proof (ti_room _ _ Hi) as Hr. pose proof (ti_growth _ _ Hi).
  rewrite (sh_mask _ _ Hsh) in Hr. fold (capacity_of n) in Hr. pose proof (capacity_bounds n ltac:(destruct (sh_n _ _ Hsh); lia)). lia.
Qed.

(** Elements in full buckets and their places. *)
Lemma elem_full t n x : shape t n -> x ∈ table_iter t <-> exists i, 0 <= i < 2 ^ n /\ is_full (tag_of t i) = true /\ cell_of t i = Some x.
Proof.
  intros Hsh. unfold table_iter. rewrite iter_omap, list_elem_of_omap. unfold full_item. split.
  - intros (s & Hs & Hx). apply list_elem_of_lookup_1 in Hs as [i Hi]. exists (Z.of_nat i). unfold tag_of, cell_of.
    rewrite Nat2Z.id, (list_lookup_total_correct _ _ _ Hi). pose proof (sh_len _ _ Hsh) as Hl. unfold zlen in Hl. pose proof (lookup_lt_Some _ _ _ Hi).
    destruct (is_full (tag s)); [|done]. split_and!; (done || lia).
  - intros (i & Hi & Hf & Hx). exists (slots t !!! Z.to_nat i). split; [eapply list_elem_of_lookup_2, sh_lookup; done|]. unfold tag_of, cell_of in *. by rewrite Hf.
Qed.

(** ** Rehashing *)

(** While the table is rehashed, a deleted tag marks an element that is still to be placed: all
    of those lie in [i, w).  [L] is what the table holds. *)
Record rehash_inv t (n i w : Z) (L : list T) : Prop := {
  ri_shape : shape t n;
  ri_full j : 0 <= j < 2 ^ n -> is_full (tag_of t j) = true -> exists x, cell_of t j = Some x /\ tag_of t j = full (hasher x) /\
    forall d, 0 <= d < dist n (hasher x) j -> is_special (tag_of t ((hasher x + d) mod 2 ^ n)) = false;
  ri_del j : 0 <= j < 2 ^ n -> tag_of t j = DELETED -> i <= j < w /\ cell_of t j <> None;
  ri_items : omap live_item (slots t) ≡ₚ L;
  ri_room : tags is_live (slots t) < 2 ^ n }.

Lemma slot_insert (l : list (Slot T)) p s j : 0 <= p < zlen l -> 0 <= j ->
  <[Z.to_nat p := s]> l !!! Z.to_nat j = if decide (j = p) then s else l !!! Z.to_nat j.
Proof.
  unfold zlen. intros Hp Hj. destruct (decide (j = p)) as [->|Hne].
  - apply list_lookup_total_insert_eq. lia.
  - apply list_lookup_total_insert_ne. lia.
Qed.

Section place.
Context (t : RawTable T) (n i w : Z) (L : list T) (Hri : rehash_inv t n i w L) (Hi : 0 <= i < 2 ^ n) (Hdel : tag_of t i = DELETED).
Context (x : T) (Hx : cell_of t i = Some x) (p : Z) (Hp : 0 <= p < 2 ^ n) (Hsp : is_special (tag_of t p) = true).
Context (Hpath : forall d, 0 <= d < dist n (hasher x) p -> is_special (tag_of t ((hasher x + d) mod 2 ^ n)) = false).
(** What is left at [i]: nothing when the place was free, else the element that was there. *)
Context (si : Slot T) (Hsi : p <> i -> (tag_of t p = EMPTY /\ tag si = EMPTY) \/ (tag_of t p = DELETED /\ tag si = DELETED /\ cell si = cell_of t p)).

Let l' := <[Z.to_nat p := mkSlot (full (hasher x)) (Some x)]> (<[Z.to_nat i := si]> (slots t)).
Let t' := with_slots t l'.

#[local] Lemma place_len : zlen (slots t) = 2 ^ n /\ zlen l' = 2 ^ n.
Proof using All. pose proof (sh_len _ _ (ri_shape _ _ _ _ _ Hri)). unfold l', zlen in *. rewrite !length_insert. done. Qed.

#[local] Lemma place_slot j : 0 <= j < 2 ^ n ->
  l' !!! Z.to_nat j = if decide (j = p) then mkSlot (full (hasher x)) (Some x) else if decide (j = i) then si else slots t !!! Z.to_nat j.
Proof using All.
  intros Hj. destruct place_len as [E _]. unfold l'. rewrite slot_insert by (unfold zlen in *; rewrite ?length_insert; lia). destruct (decide (j = p)); [done|].
  by rewrite slot_insert by lia.
Qed.

#[local] Lemma place_tag j : 0 <= j < 2 ^ n -> tag_of t' j = if decide (j = p) then full (hasher x) else if decide (j = i) then tag si else tag_of t j.
Proof using All. intros Hj. unfold tag_of. cbn [t' slots with_slots]. rewrite place_slot by done. by repeat destruct (decide _). Qed.

#[local] Lemma place_cell j : 0 <= j < 2 ^ n -> cell_of t' j = if decide (j = p) then Some x else if decide (j = i) then cell si else cell_of t j.
Proof using All. intros Hj. unfold cell_of. cbn [t' slots with_slots]. rewrite place_slot by done. by repeat destruct (decide _). Qed.

#[local] Lemma place_lookups : slots t !! Z.to_nat i = Some (slots t !!! Z.to_nat i) /\ (p <> i -> <[Z.to_nat i := si]> (slots t) !! Z.to_nat p = Some (slots t !!! Z.to_nat p)) /\
  (p = i -> <[Z.to_nat i := si]> (slots t) !! Z.to_nat p = Some si).
Proof using All.
  pose proof (ri_shape _ _ _ _ _ Hri) as Hsh. pose proof (sh_len _ _ Hsh) as Hl. unfold zlen in Hl. split_and!; [by apply (sh_lookup t n Hsh)| |].
  - intros Hne. rewrite list_lookup_insert_ne by lia. by apply (sh_lookup t n Hsh).
  - intros ->. apply list_lookup_insert_eq. lia.
Qed.

Lemma place_items : omap live_item l' ≡ₚ L.
Proof using All.
  destruct place_lookups as (H1 & H2 & H3). rewrite <- (ri_items _ _ _ _ _ Hri).
  pose proof (omap_insert live_item _ _ _ si H1) as P1. pose proof (full_range (hasher x)) as Hfr. unfold live_item at 1 in P1. fold (tag_of t i) (cell_of t i) in P1. rewrite Hdel, Hx in P1. simpl in P1.
  assert (live_item (mkSlot (full (hasher x)) (Some x)) = Some x) as Ex.
  { unfold live_item. cbn [tag cell]. rewrite (proj2 (Z.eqb_neq _ _)); [done|]. unfold EMPTY. lia. }
  destruct (decide (p = i)) as [E|E].
  - pose proof (omap_insert live_item _ _ _ (mkSlot (full (hasher x)) (Some x)) (H3 E)) as P2. fold l' in P2. rewrite Ex in P2. simpl in P2.
    apply (Permutation_app_inv_l (option_list (live_item si))). by rewrite P2, P1.
  - pose proof (omap_insert live_item _ _ _ (mkSlot (full (hasher x)) (Some x)) (H2 E)) as P2. fold l' in P2. rewrite Ex in P2. simpl in P2.
    assert (live_item si = live_item (slots t !!! Z.to_nat p)) as E2.
    { unfold live_item. fold (tag_of t p) (cell_of t p). destruct (Hsi E) as [(-> & ->)|(-> & -> & ->)]; done. }
    rewrite <- E2 in P2. apply (Permutation_app_inv_l (option_list (live_item si))). by rewrite P2, P1.
Qed.

Lemma place_live : tags is_live l' = tags is_live (slots t) /\ tags is_deleted l' = tags is_deleted (slots t) - 1.
Proof using All.
  destruct place_lookups as (H1 & H2 & H3). pose proof (full_range (hasher x)) as Hfr.
  assert (is_live (full (hasher x)) = true /\ is_deleted (full (hasher x)) = false) as [Ef1 Ef2].
  { unfold is_live, is_deleted, EMPTY, DELETED. rewrite !(proj2 (Z.eqb_neq _ _)) by lia. done. }
  unfold l'. destruct (decide (p = i)) as [E|E].
  - rewrite !(tags_insert _ _ _ _ _ (H3 E)), !(tags_insert _ _ _ _ _ H1). fold (tag_of t i). rewrite Hdel. cbn [tag]. rewrite Ef1, Ef2. simpl. lia.
  - rewrite !(tags_insert _ _ _ _ _ (H2 E)), !(tags_insert _ _ _ _ _ H1). fold (tag_of t i) (tag_of t p). rewrite Hdel. cbn [tag]. rewrite Ef1, Ef2.
    destruct (Hsi E) as [(-> & ->)|(-> & -> & _)]; simpl; lia.
Qed.

Lemma place_inv i' : (i' = i \/ (i' = i + 1 /\ (p = i \/ tag_of t p = EMPTY))) -> rehash_inv t' n i' w L.
Proof using All.
  intros Hi'. pose proof (ri_shape _ _ _ _ _ Hri) as Hsh. pose proof (full_range (hasher x)) as Hfr. pose proof place_len as [Hl Hl'].
  assert (forall j, 0 <= j < 2 ^ n -> is_special (tag_of t j) = false -> is_special (tag_of t' j) = false) as Hkeep.
  { intros j Hj Hs. rewrite place_tag by done. destruct (decide (j = p)) as [->|]; [congruence|]. destruct (decide (j = i)) as [->|]; [by rewrite Hdel in Hs|done]. }
  assert (forall h d, 0 <= (h + d) mod 2 ^ n < 2 ^ n) as Hmod by (intros; apply Z.mod_pos_bound, B_pos; destruct (sh_n _ _ Hsh); lia).
  split.
  - destruct Hsh as [? ? ? Htags]. split; [done|done|done|]. intros s Hs. apply list_elem_of_lookup_1 in Hs as [k Hk]. cbn [t' slots with_slots] in Hk.
    pose proof (lookup_lt_Some _ _ _ Hk) as Hlt. unfold zlen in *. pose proof (place_slot (Z.of_nat k) ltac:(lia)) as E. rewrite Nat2Z.id, (list_lookup_total_correct _ _ _ Hk) in E. subst s.
    destruct (decide _); [left; cbn [tag]; lia|]. destruct (decide _) as [Hki|].
    + destruct (decide (p = i)) as [Epi|Epi]; [congruence|]. destruct (Hsi Epi) as [(_ & ->)|(_ & -> & _)]; [by right; left|by right; right].
    + apply Htags. apply list_elem_of_lookup_total_2. lia.
  - intros j Hj Hf. rewrite place_tag in Hf by done. rewrite place_tag, place_cell by done. destruct (decide (j = p)) as [->|Hjp].
    + exists x. split_and!; [done|done|]. intros d Hd. apply Hkeep; auto.
    + destruct (decide (j = i)) as [->|Hji]; [destruct (Hsi ltac:(congruence)) as [(_ & E)|(_ & E & _)]; by rewrite E in Hf|].
      destruct (ri_full _ _ _ _ _ Hri j Hj Hf) as (y & Hy & Hty & Hpy). exists y. split_and!; [done|done|]. intros d Hd. apply Hkeep; auto.
  - intros j Hj Hd. rewrite place_tag in Hd by done. rewrite place_cell by done. destruct (decide (j = p)) as [->|Hjp]; [unfold DELETED in Hd; lia|].
    destruct (decide (j = i)) as [->|Hji].
    + destruct (Hsi ltac:(congruence)) as [(_ & E)|(E1 & E2 & ->)]; [by rewrite E in Hd|]. destruct (ri_del _ _ _ _ _ Hri p Hp E1) as [_ ?].
      destruct (ri_del _ _ _ _ _ Hri i Hi Hdel) as [? _]. split; [|done]. destruct Hi' as [->|(_ & [?|E])]; [lia|congruence|]. by rewrite E1 in E.
    + destruct (ri_del _ _ _ _ _ Hri j Hj Hd) as [? ?]. split; [lia|done].
  - apply place_items.
  - cbn [t' slots with_slots]. rewrite (proj1 place_live). apply Hri.
Qed.
End place.

(** The slots after the assignments of the code. *)
Lemma set_ctrl_slots t i c s : slots t !! Z.to_nat i = Some s -> slots (set_ctrl t i c) = <[Z.to_nat i := mkSlot c (cell s)]> (slots t).
Proof. intros Hs. unfold set_ctrl. cbn [slots with_slots]. by rewrite (alter_insert _ _ _ s). Qed.

Lemma set_bucket_slots t i x s : slots t !! Z.to_nat i = Some s -> slots (set_bucket t i x) = <[Z.to_nat i := mkSlot (tag s) (Some x)]> (slots t).
Proof. intros Hs. unfold set_bucket. cbn [slots with_slots]. by rewrite (alter_insert _ _ _ s). Qed.

Lemma table_eq t t' : base t = base t' -> bucket_mask t = bucket_mask t' -> growth_left t = growth_left t' -> items t = items t' -> slots t = slots t' -> t = t'.
Proof. destruct t, t'. simpl. congruence. Qed.

Lemma rehash_bucket_spec n w L fuel : forall t i, rehash_inv t n i w L -> 0 <= i < 2 ^ n -> tag_of t i = DELETED ->
  tags is_deleted (slots t) <= Z.of_nat fuel ->
  exists l', rehash_bucket hasher fuel t i = Ret (with_slots t l') /\ rehash_inv (with_slots t l') n (i + 1) w L.
Proof.
  induction fuel as [|fuel IH]; intros t i Hri Hi Hdel Hfuel.
  { pose proof (ri_shape _ _ _ _ _ Hri) as Hsh. pose proof (tags_bounds is_deleted (slots t)). assert (is_deleted (tag_of t i) = false) as Hx; [|by rewrite Hdel in Hx].
    apply (tags_zero is_deleted (slots t) ltac:(lia)). eapply list_elem_of_lookup_2, (sh_lookup t n Hsh); done. }
  cbn [rehash_bucket]. pose proof (ri_shape _ _ _ _ _ Hri) as Hsh. destruct (ri_del _ _ _ _ _ Hri i Hi Hdel) as [_ Hc].
  destruct (cell_of t i) as [x|] eqn:Hx; [|done]. rewrite (bucket_spec t n Hsh i x Hi Hx). cbn [obind].
  destruct (find_insert_slot_spec t n Hsh (hasher x) i Hi) as (p & -> & Hp & Hsp & Hpath); [by rewrite Hdel|]. cbn [obind].
  pose proof (sh_lookup t n Hsh i Hi) as Li. pose proof (sh_lookup t n Hsh p Hp) as Lp. unfold replace_ctrl_hash. rewrite (ctrl_spec t n Hsh p Hp). cbn [obind].
  destruct (Z.eqb_spec i p) as [<-|Hne].
  - pose (si := slots t !!! Z.to_nat i). assert (forall q : i <> i, (tag_of t i = EMPTY /\ tag si = EMPTY) \/ (tag_of t i = DELETED /\ tag si = DELETED /\ cell si = cell_of t i)) as Hsi by done.
    eexists. split; [|apply (place_inv t n i w L Hri Hi Hdel x Hx i Hp Hsp Hpath si Hsi); right; split; [done|by left]].
    f_equal. apply table_eq; try done. rewrite (set_ctrl_slots _ _ _ _ Li). cbn [slots with_slots]. unfold si. rewrite (list_insert_id (slots t) (Z.to_nat i) (slots t !!! Z.to_nat i)) by done. fold (cell_of t i). by rewrite Hx.
  - set (t1 := set_ctrl t p (full (hasher x))). assert (slots t1 = <[Z.to_nat p := mkSlot (full (hasher x)) (cell_of t p)]> (slots t)) as E1 by by apply set_ctrl_slots.
    assert (Z.to_nat i <> Z.to_nat p) as Hnn by lia. pose proof (lookup_lt_Some _ _ _ Lp) as Hlp.
    assert (slots t1 !! Z.to_nat i = Some (slots t !!! Z.to_nat i)) as Li1 by (rewrite E1, list_lookup_insert_ne by done; done).
    assert (slots t1 !! Z.to_nat p = Some (mkSlot (full (hasher x)) (cell_of t p))) as Lp1 by (rewrite E1; by apply list_lookup_insert_eq).
    destruct (Z.eqb_spec (tag_of t p) EMPTY) as [Ee|Ee].
    + pose (si := mkSlot (T := T) EMPTY (cell_of t i)).
      assert (forall q : p <> i, (tag_of t p = EMPTY /\ tag si = EMPTY) \/ (tag_of t p = DELETED /\ tag si = DELETED /\ cell si = cell_of t p)) as Hsi by by left.
      eexists. split; [|apply (place_inv t n i w L Hri Hi Hdel x Hx p Hp Hsp Hpath si Hsi); right; split; [done|by right]].
      f_equal. apply table_eq; try done. cbn [slots with_slots].
      rewrite (set_bucket_slots _ _ _ (mkSlot (full (hasher x)) (cell_of t p))); rewrite (set_ctrl_slots _ _ _ _ Li1); [|by rewrite list_lookup_insert_ne by done].
      cbn [tag]. fold (cell_of t i) si. rewrite E1. rewrite (list_insert_insert_ne _ (Z.to_nat i)) by done. by rewrite list_insert_insert_eq.
    + assert (tag_of t p = DELETED) as Hdp by (destruct (tag_cases _ (sh_tag_ok t n Hsh p Hp)) as [(_ & Hs & _)|[(_ & _ & ?)|(_ & _ & ?)]]; congruence).
      destruct (ri_del _ _ _ _ _ Hri p Hp Hdp) as [_ Hcp]. destruct (cell_of t p) as [y|] eqn:Hy; [|done].
      assert (bucket t1 p = Ret y) as -> by (unfold bucket; by rewrite Lp1).
      assert (debug_assert (tag_of t p =? DELETED) = Ret tt) as -> by (rewrite Hdp; unfold debug_assert; by destruct overflow_checks). cbn [obind].
      pose (si := mkSlot (T := T) DELETED (Some y)).
      assert (forall q : p <> i, (tag_of t p = EMPTY /\ tag si = EMPTY) \/ (tag_of t p = DELETED /\ tag si = DELETED /\ cell si = cell_of t p)) as Hsi by (right; by rewrite Hy).
      pose proof (place_inv t n i w L Hri Hi Hdel x Hx p Hp Hsp Hpath si Hsi i (or_introl eq_refl)) as Hri2.
      pose proof (place_live t n i w L Hri Hi Hdel x Hx p Hp Hsp Hpath si Hsi) as [_ Hdl].
      set (l2 := <[Z.to_nat p := mkSlot (full (hasher x)) (Some x)]> (<[Z.to_nat i := si]> (slots t))) in *.
      assert (set_bucket (set_bucket t1 p x) i y = with_slots t l2) as ->.
      { apply table_eq; try done. cbn [slots with_slots].
        rewrite (set_bucket_slots _ _ _ (slots t !!! Z.to_nat i)); rewrite (set_bucket_slots _ _ _ _ Lp1); [|by rewrite list_lookup_insert_ne by done].
        fold (tag_of t i). rewrite Hdel. cbn [tag]. fold si. rewrite E1, list_insert_insert_eq. by rewrite list_insert_insert_ne by done. }
      destruct (IH (with_slots t l2) i Hri2 Hi) as (l3 & E3 & Hri3).
      * rewrite (place_tag t n i w L Hri Hi Hdel x Hx p Hp Hsp Hpath si Hsi) by done. rewrite decide_False, decide_True by done. done.
      * cbn [slots with_slots]. lia.
      * exists l3. done.
Qed.

Lemma rehash_loop_spec n w L (k : nat) : forall t i, rehash_inv t n i w L -> 0 <= i -> i + Z.of_nat k = w -> w <= 2 ^ n ->
  exists l', rehash_loop hasher k t i = Ret (with_slots t l') /\ rehash_inv (with_slots t l') n w w L.
Proof.
  induction k as [|k IH]; intros t i Hri Hi Hk Hw; cbn [rehash_loop].
  { exists (slots t). assert (i = w) as -> by lia. by destruct t. }
  pose proof (ri_shape _ _ _ _ _ Hri) as Hsh. rewrite (ctrl_spec t n Hsh) by lia. cbn [obind]. destruct (Z.eqb_spec (tag_of t i) DELETED) as [Hd|Hd]; cbn [negb].
  - destruct (rehash_bucket_spec n w L (Z.to_nat (buckets t)) t i Hri) as (l1 & -> & Hri1); [lia|done| |].
    { pose proof (tags_bounds is_deleted (slots t)). unfold buckets. rewrite (sh_mask _ _ Hsh). pose proof (sh_len _ _ Hsh). lia. }
    cbn [obind]. destruct (IH (with_slots t l1) (i + 1) Hri1) as (l2 & -> & Hri2); [lia..|]. by exists l2.
  - apply IH; [|lia..]. destruct Hri as [H1 H2 H3 H4 H5]. split; [done|done| |done|done]. intros j Hj Hdj. destruct (H3 j Hj Hdj) as [Hx ?]. split; [|done].
    destruct (decide (j = i)) as [->|]; [done|lia].
Qed.

(** Rehashing is over when no deleted tag is left. *)
Lemma rehash_done t n w L : rehash_inv t n w w L ->
  tagged t n hasher /\ reachable t n hasher /\ table_iter t ≡ₚ L /\ tags is_full (slots t) = zlen L /\ tags is_live (slots t) = zlen L.
Proof.
  intros Hri. pose proof (ri_shape _ _ _ _ _ Hri) as Hsh.
  assert (forall s, s ∈ slots t -> exists j, 0 <= j < 2 ^ n /\ s = slots t !!! Z.to_nat j) as Hin.
  { intros s Hs. apply list_elem_of_lookup_1 in Hs as [j Hj]. exists (Z.of_nat j). rewrite Nat2Z.id, (list_lookup_total_correct _ _ _ Hj).
    pose proof (sh_len _ _ Hsh) as Hl. unfold zlen in Hl. pose proof (lookup_lt_Some _ _ _ Hj). split; [lia|done]. }
  assert (forall s, s ∈ slots t -> is_live (tag s) = is_full (tag s) /\ live_item s = full_item s /\ (is_full (tag s) = true -> full_item s <> None)) as Hsame.
  { intros s Hs. destruct (Hin s Hs) as (j & Hj & ->). fold (tag_of t j). unfold live_item, full_item, is_live. fold (tag_of t j) (cell_of t j).
    destruct (tag_cases _ (sh_tag_ok t n Hsh j Hj)) as [(Hf & _ & He & _)|[(Hf & _ & ->)|(_ & _ & Hd)]].
    - rewrite Hf, (proj2 (Z.eqb_neq _ _) He). split_and!; [done..|]. intros _. by destruct (ri_full _ _ _ _ _ Hri j Hj Hf) as (x & -> & _).
    - done.
    - destruct (ri_del _ _ _ _ _ Hri j Hj Hd); lia. }
  assert (omap live_item (slots t) = omap full_item (slots t)) as Eo.
  { clear -Hsame. induction (slots t) as [|s l IH]; [done|]. rewrite !omap_cons_app. rewrite (proj1 (proj2 (Hsame s (list_elem_of_here _ _)))).
    rewrite IH; [done|]. intros s' Hs'. apply Hsame. by right. }
  assert (tags is_live (slots t) = tags is_full (slots t)) as Et.
  { clear -Hsame. induction (slots t) as [|s l IH]; [done|]. cbn [tags]. rewrite (proj1 (Hsame s (list_elem_of_here _ _))).
    rewrite IH; [done|]. intros s' Hs'. apply Hsame. by right. }
  assert (tags is_full (slots t) = zlen L) as Ef.
  { rewrite (tags_length is_full full_item); [|by intros s _; unfold full_item; destruct (is_full (tag s))|intros s Hs; apply Hsame, Hs].
    rewrite <- Eo. unfold zlen. by rewrite (ri_items _ _ _ _ _ Hri). }
  split_and!; [| | |done|by rewrite Et].
  - intros j Hj Hf. destruct (ri_full _ _ _ _ _ Hri j Hj Hf) as (x & ? & ? & _). by exists x.
  - intros j x Hj Hf Hx d Hd E. destruct (ri_full _ _ _ _ _ Hri j Hj Hf) as (y & Hy & _ & Hp). assert (y = x) as -> by congruence.
    specialize (Hp d Hd). by rewrite E in Hp.
  - unfold table_iter. rewrite iter_omap, <- Eo. apply Hri.
Qed.

(** What the operations need to know of a table that holds [L]. *)
Definition holding t (n : Z) (L : list T) : Prop := table_inv t n /\ table_iter t ≡ₚ L.

Lemma rehash_in_place_inner_spec t n w L : rehash_inv t n 0 w L -> 0 <= w <= 2 ^ n -> items t = zlen L -> items t <= capacity_of n ->
  exists t', rehash_in_place_inner hasher t w = Ret t' /\ holding t' n L /\ growth_left t' = capacity_of n - items t.
Proof.
  intros Hri Hw Hit Hcap. unfold rehash_in_place_inner. destruct (rehash_loop_spec n w L (Z.to_nat w) t 0 Hri) as (l' & -> & Hri'); [lia..|]. cbn [obind].
  pose proof (ri_shape _ _ _ _ _ Hri') as Hsh. pose proof (sh_mask _ _ Hsh) as Hm. destruct (sh_n _ _ Hsh) as [Hn1 Hn2].
  pose proof (capacity_bounds n Hn1) as [Hcb _]. assert (2 ^ n <= 2 ^ 60) by (apply Z.pow_le_mono_r; lia).
  cbn [bucket_mask items base slots with_slots] in *. rewrite Hm. fold (capacity_of n). assert (0 <= zlen L) by (unfold zlen; lia).
  rewrite chk_in by lia. cbn [obind]. destruct (rehash_done _ _ _ _ Hri') as (D1 & D2 & D3 & D4 & D5). eexists. split; [done|]. split; [|done]. split; [|done].
  cbn [slots with_slots] in *. split; [|exact D1|exact D2| | |]; cbn [growth_left items slots bucket_mask].
  - destruct Hsh as [? ? ? ?]. split; done.
  - congruence.
  - lia.
  - rewrite D5. fold (capacity_of n). lia.
Qed.

(** ** Starting to rehash *)

(** A table without elements has no deleted buckets either. *)
Definition no_ghosts t : Prop := items t = 0 -> tags is_deleted (slots t) = 0.

Definition prepared (s : Slot T) : Slot T := mkSlot (if is_full (tag s) then DELETED else EMPTY) (cell s).

Lemma prepare_slots t n : table_inv t n -> no_ghosts t -> slots (prepare_rehash_in_place t) = prepared <$> slots t.
Proof.
  intros Hi Hg. unfold prepare_rehash_in_place, is_empty. destruct (Z.eqb_spec (items t) 0) as [E|E]; [|done].
  pose proof (tags_zero _ _ (Hg E)) as Hd. rewrite (ti_items _ _ Hi) in E. pose proof (tags_zero _ _ E) as Hf.
  pose proof (sh_tags _ _ (ti_shape _ _ Hi)) as Htg. clear -Hd Hf Htg. induction (slots t) as [|[c x] l IH]; [done|]. cbn [fmap list_fmap].
  rewrite <- IH; [|intros; apply Hd; by right|intros; apply Hf; by right|intros; apply Htg; by right]. f_equal.
  specialize (Hd _ (list_elem_of_here _ _)). specialize (Hf _ (list_elem_of_here _ _)). specialize (Htg _ (list_elem_of_here _ _)). unfold prepared. cbn [tag cell] in *.
  rewrite Hf. f_equal. destruct (tag_cases c Htg) as [(? & _)|[(_ & _ & ?)|(_ & _ & ->)]]; [congruence|done|done].
Qed.

Lemma prepared_facts (l : list (Slot T)) : omap live_item (prepared <$> l) = omap full_item l /\ tags is_live (prepared <$> l) = tags is_full l.
Proof.
  induction l as [|s l [IH1 IH2]]; [done|]. cbn [fmap list_fmap]. rewrite !omap_cons_app. cbn [tags]. fold (fmap (M := list) prepared l). rewrite IH1, IH2.
  unfold live_item, full_item, prepared, is_live. cbn [tag cell]. by destruct (is_full (tag s)).
Qed.

Lemma empty_facts k : omap live_item (replicate k (mkSlot (T := T) EMPTY None)) = [] /\ tags is_live (replicate k (mkSlot (T := T) EMPTY None)) = 0.
Proof. induction k as [|k [IH1 IH2]]; [done|]. cbn [replicate]. rewrite omap_cons_app. cbn [tags]. by rewrite IH1, IH2. Qed.

(** Marked for rehashing, and extended to [2 ^ m] buckets. *)
Lemma start_rehash t n m b g it : table_inv t n -> no_ghosts t -> n <= m <= 60 ->
  rehash_inv (mkTable b (2 ^ m - 1) g it (slots (prepare_rehash_in_place t) ++ empty_slots (2 ^ m - 2 ^ n))) m 0 (2 ^ n) (table_iter t).
Proof.
  intros Hi Hg Hm. pose proof (ti_shape _ _ Hi) as Hsh. destruct (sh_n _ _ Hsh) as [Hn1 Hn2]. pose proof (sh_len _ _ Hsh) as Hl. unfold zlen in Hl.
  assert (2 ^ n <= 2 ^ m) as Hnm by (apply Z.pow_le_mono_r; lia). assert (0 < 2 ^ n) by (apply Z.pow_pos_nonneg; lia).
  rewrite (prepare_slots t n Hi Hg). unfold empty_slots. set (l1 := prepared <$> slots t). set (l2 := replicate _ _). destruct (prepared_facts (slots t)) as [P1 P2].
  destruct (empty_facts (Z.to_nat (2 ^ m - 2 ^ n))) as [E1 E2]. fold l2 in E1, E2. fold l1 in P1, P2.
  set (t1 := mkTable _ _ _ _ _). assert (forall j, 0 <= j < 2 ^ m -> tag_of t1 j = EMPTY \/ (j < 2 ^ n /\ is_full (tag_of t j) = true /\ tag_of t1 j = DELETED /\ cell_of t1 j = cell_of t j)) as Hall.
  { intros j Hj. unfold tag_of, cell_of, t1. cbn [slots]. destruct (decide (j < 2 ^ n)) as [Hlt|Hge].
    - rewrite lookup_total_app_l by (unfold l1; rewrite length_fmap; lia). unfold l1. rewrite (list_lookup_total_fmap prepared (slots t)) by lia. unfold prepared. cbn [tag cell].
      destruct (is_full _) eqn:Ef; [right|by left]. done.
    - left. rewrite lookup_total_app_r by (unfold l1; rewrite length_fmap; lia). unfold l2. rewrite list_lookup_total_alt, lookup_replicate_2; [done|].
      unfold l1. rewrite length_fmap. lia. }
  split.
  - split; [lia|done| |].
    + unfold zlen, t1. cbn [slots]. unfold l1, l2. rewrite length_app, length_fmap, length_replicate. lia.
    + intros s Hs. unfold t1 in Hs. cbn [slots] in Hs. apply elem_of_app in Hs as [Hs|Hs].
      * apply list_elem_of_fmap in Hs as (y & -> & _). unfold prepared. cbn [tag]. right. destruct (is_full (tag y)); [by right|by left].
      * unfold l2 in Hs. apply elem_of_replicate in Hs as [-> _]. right. by left.
  - intros j Hj Hf. destruct (Hall j Hj) as [E|(_ & _ & E & _)]; by rewrite E in Hf.
  - intros j Hj Hd. destruct (Hall j Hj) as [E|(Hlt & Hf & _ & Ec)]; [by rewrite E in Hd|]. split; [lia|]. rewrite Ec.
    destruct (ti_tagged _ _ Hi j ltac:(lia) Hf) as (x & -> & _). done.
  - unfold t1. cbn [slots]. rewrite omap_app, P1, E1, app_nil_r. unfold table_iter. by rewrite iter_omap.
  - unfold t1. cbn [slots]. rewrite tags_app, P2, E2. rewrite <- (ti_items _ _ Hi). pose proof (ti_room _ _ Hi) as Hr. pose proof (ti_growth _ _ Hi).
    rewrite (sh_mask _ _ Hsh) in Hr. fold (capacity_of n) in Hr. pose proof (capacity_bounds n Hn1) as [Hc _].
    pose proof (full_le_live (slots t) (sh_tags _ _ Hsh)). rewrite (ti_items _ _ Hi). lia.
Qed.

Lemma items_length t n : table_inv t n -> items t = zlen (table_iter t).
Proof.
  intros Hi. pose proof (ti_shape _ _ Hi) as Hsh.
  rewrite (ti_items _ _ Hi). unfold table_iter. rewrite iter_omap. apply tags_length; [by intros s _; unfold full_item; destruct (is_full (tag s))|].
  intros s Hs Hf. unfold full_item. rewrite Hf. apply list_elem_of_lookup_1 in Hs as [j Hj].
  pose proof (sh_len _ _ Hsh) as Hl. unfold zlen in Hl. pose proof (lookup_lt_Some _ _ _ Hj).
  destruct (ti_tagged _ _ Hi (Z.of_nat j)) as (x & Hx & _); [lia|by unfold tag_of; rewrite Nat2Z.id, (list_lookup_total_correct _ _ _ Hj)|].
  unfold cell_of in Hx. rewrite Nat2Z.id, (list_lookup_total_correct _ _ _ Hj) in Hx. by rewrite Hx.
Qed.

Lemma rehash_in_place_spec t n : table_inv t n -> no_ghosts t ->
  exists t', rehash_in_place hasher t = Ret t' /\ holding t' n (table_iter t) /\ growth_left t' = capacity_of n - items t.
Proof.
  intros Hi Hg. pose proof (ti_shape _ _ Hi) as Hsh. destruct (sh_n _ _ Hsh) as [Hn1 Hn2]. unfold rehash_in_place.
  pose proof (start_rehash t n n (base t) (growth_left t) (items t) Hi Hg ltac:(lia)) as Hri. rewrite Z.sub_diag in Hri. cbn in Hri. rewrite app_nil_r in Hri.
  assert (mkTable (base t) (2 ^ n - 1) (growth_left t) (items t) (slots (prepare_rehash_in_place t)) = prepare_rehash_in_place t) as E.
  { rewrite <- (sh_mask _ _ Hsh). unfold prepare_rehash_in_place. destruct (is_empty t); [by destruct t|done]. }
  rewrite E in Hri. assert (buckets (prepare_rehash_in_place t) = 2 ^ n /\ items (prepare_rehash_in_place t) = items t) as [-> Eit].
  { rewrite <- E. unfold buckets. simpl. lia. }
  assert (0 < 2 ^ n) by (apply Z.pow_pos_nonneg; lia). pose proof (ti_room _ _ Hi) as Hr. pose proof (ti_growth _ _ Hi). rewrite (sh_mask _ _ Hsh) in Hr. fold (capacity_of n) in Hr.
  pose proof (full_le_live (slots t) (sh_tags _ _ Hsh)). rewrite <- Eit.
  apply (rehash_in_place_inner_spec _ n (2 ^ n)); [done|lia| |rewrite Eit, (ti_items _ _ Hi); lia].
  rewrite Eit. by apply (items_length t n).
Qed.

(** ** Growing *)
Lemma buckets_for_next n : 3 <= n < 60 -> buckets_for (capacity_of n + 1) = Ret (2 ^ (n + 1)).
Proof.
  intros Hn. destruct (capacity_bounds n) as [_ Hc]; [lia|]. assert (2 ^ n = 8 * 2 ^ (n - 3)) as E by (change 8 with (2 ^ 3); rewrite <- Z.pow_add_r by lia; f_equal; lia).
  assert (2 ^ n <= 2 ^ 60 /\ 8 <= 2 ^ n) by (split; [apply Z.pow_le_mono_r; lia|change 8 with (2 ^ 3); apply Z.pow_le_mono_r; lia]).
  assert (2 ^ (n + 1) = 2 * 2 ^ n) as E1 by (rewrite Z.pow_add_r by lia; lia). unfold buckets_for. rewrite chk_in by lia. cbn [obind].
  assert ((capacity_of n + 1) * 8 / 7 = Z.succ (2 ^ n)) as -> by (symmetry; apply (Z.div_unique _ _ _ 1); lia).
  unfold next_power_of_two. rewrite (proj2 (Z.leb_gt _ _)) by lia. rewrite Z.log2_up_succ_pow2 by lia. rewrite <- Z.add_1_r. rewrite chk_in by lia. cbn [obind]. f_equal. lia.
Qed.

Context (MAX_SIZE NULLPAGE_SIZE : Z) (layout : TableLayout).

(** There is room for a table of twice the size. *)
Definition can_grow (n : Z) : Prop := n < 60 /\ exists p, allocate MAX_SIZE NULLPAGE_SIZE layout (2 ^ (n + 1)) = Ret (Ok p).

Lemma inv_items t n : table_inv t n -> 0 <= items t <= capacity_of n /\ bucket_mask t = 2 ^ n - 1 /\ 3 <= n <= 60.
Proof.
  intros Hi. pose proof (ti_shape _ _ Hi) as Hsh. pose proof (ti_room _ _ Hi) as Hr. pose proof (ti_growth _ _ Hi). rewrite (sh_mask _ _ Hsh) in Hr.
  fold (capacity_of n) in Hr. pose proof (full_le_live (slots t) (sh_tags _ _ Hsh)). pose proof (tags_bounds is_full (slots t)). rewrite (ti_items _ _ Hi).
  destruct (sh_n _ _ Hsh). split_and!; (lia || apply Hsh).
Qed.

Lemma resize_spec t n : table_inv t n -> no_ghosts t -> can_grow n ->
  exists t', resize_inner MAX_SIZE NULLPAGE_SIZE hasher layout t (capacity_of n + 1) = Ret (Ok t') /\ holding t' (n + 1) (table_iter t) /\
    growth_left t' = capacity_of (n + 1) - items t.
Proof.
  intros Hi Hg (Hn & p & Hp). destruct (inv_items t n Hi) as (Hit & Hm & Hn3). pose proof (capacity_bounds n ltac:(lia)) as [Hc1 Hc2].
  pose proof (capacity_bounds (n + 1) ltac:(lia)) as [Hc3 Hc4]. assert (2 ^ (n + 1) = 2 * 2 ^ n) as E1 by (rewrite Z.pow_add_r by lia; lia).
  assert (2 ^ (n + 1 - 3) = 2 * 2 ^ (n - 3)) as E2 by (replace (n + 1 - 3) with (n - 3 + 1) by lia; rewrite Z.pow_add_r by lia; lia).
  assert (2 ^ n <= 2 ^ 60) by (apply Z.pow_le_mono_r; lia). unfold resize_inner. rewrite (proj2 (Z.leb_le _ _)) by lia.
  assert (debug_assert true = Ret tt) as -> by (unfold debug_assert; by destruct overflow_checks). cbn [obind].
  rewrite buckets_for_next by lia. cbn [obind]. rewrite Hp. cbn [obind]. unfold is_empty_singleton. rewrite (proj2 (Z.eqb_neq _ _)) by lia. cbn [negb].
  assert (items (prepare_rehash_in_place t) = items t /\ base (prepare_rehash_in_place t) = base t /\ buckets (prepare_rehash_in_place t) = 2 ^ n) as (-> & -> & ->).
  { unfold prepare_rehash_in_place, buckets. destruct (is_empty t); cbn [items base bucket_mask with_slots]; split_and!; (done || lia). }
  rewrite chk_in by lia. cbn [obind]. fold (capacity_of (n + 1)). rewrite chk_in by lia. cbn [obind].
  pose proof (start_rehash t n (n + 1) (base t) (capacity_of (n + 1) - items t) (items t) Hi Hg ltac:(lia)) as Hri.
  destruct (rehash_in_place_inner_spec _ (n + 1) (2 ^ n) (table_iter t) Hri) as (t' & E & Hh & Hgl); [lia|by apply (items_length t n)|simpl; lia|].
  exists t'. unfold buckets. rewrite Hm. replace (2 ^ n - 1 + 1) with (2 ^ n) by lia. by rewrite E.
Qed.

(** Room for one more element is made, without changing what the table holds. *)
Lemma reserve_spec t n : table_inv t n -> (1 <= growth_left t \/ no_ghosts t) -> can_grow n ->
  exists t' n', reserve MAX_SIZE NULLPAGE_SIZE hasher layout t 1 = Ret t' /\ holding t' n' (table_iter t) /\ 1 <= growth_left t'.
Proof.
  intros Hi Hg Hgr. destruct (inv_items t n Hi) as (Hit & Hm & Hn3). unfold reserve. destruct (Z.ltb_spec (growth_left t) 1) as [Hlt|Hge].
  2:{ exists t, n. by split_and!. }
  assert (no_ghosts t) as Hng by (destruct Hg; [lia|done]). unfold reserve_rehash_inner. pose proof (capacity_bounds n ltac:(lia)) as [Hc1 Hc2].
  assert (2 ^ n <= 2 ^ 60) by (apply Z.pow_le_mono_r; lia). rewrite chk_in by lia. cbn [obind]. rewrite Hm. fold (capacity_of n).
  destruct (Z.leb_spec (items t + 1) (capacity_of n / 2)) as [Hle|Hgt].
  - destruct (rehash_in_place_spec t n Hi Hng) as (t' & -> & Hh & Hgl). exists t', n. split_and!; [done|apply Hh..|].
    pose proof (Z.mul_div_le (capacity_of n) 2). lia.
  - rewrite Z.max_r by lia. destruct (resize_spec t n Hi Hng Hgr) as (t' & -> & Hh & Hgl). exists t', (n + 1). split_and!; [done|apply Hh..|].
    pose proof (capacity_bounds (n + 1) ltac:(lia)) as [_ Hc4]. assert (2 ^ (n + 1 - 3) = 2 * 2 ^ (n - 3)) by (replace (n + 1 - 3) with (n - 3 + 1) by lia; rewrite Z.pow_add_r by lia; lia).
    lia.
Qed.

(** ** Changing one bucket *)
Lemma update_inv t n i s' b g it : table_inv t n -> 0 <= i < 2 ^ n -> tag_ok (tag s') -> tag s' <> EMPTY ->
  (is_full (tag s') = true -> exists x, cell s' = Some x /\ tag s' = full (hasher x) /\
     forall d, 0 <= d < dist n (hasher x) i -> tag_of t ((hasher x + d) mod 2 ^ n) <> EMPTY) ->
  it = items t - Z.b2z (is_full (tag_of t i)) + Z.b2z (is_full (tag s')) ->
  0 <= g -> g + Z.b2z (tag_of t i =? EMPTY) <= growth_left t ->
  table_inv (mkTable b (bucket_mask t) g it (<[Z.to_nat i := s']> (slots t))) n.
Proof.
  intros Hinv Hi Hok Hne Hnew Hit Hg Hroom. pose proof (ti_shape _ _ Hinv) as Hsh. pose proof (sh_lookup t n Hsh i Hi) as Li. pose proof (sh_len _ _ Hsh) as Hl.
  set (t' := mkTable _ _ _ _ _). assert (forall j, 0 <= j < 2 ^ n -> slots t' !!! Z.to_nat j = if decide (j = i) then s' else slots t !!! Z.to_nat j) as Hsl.
  { intros j Hj. unfold t'. cbn [slots]. apply slot_insert; lia. }
  assert (forall j, 0 <= j < 2 ^ n -> tag_of t' j = if decide (j = i) then tag s' else tag_of t j) as Htag by (intros j Hj; unfold tag_of; rewrite Hsl by done; by destruct (decide _)).
  assert (forall j, 0 <= j < 2 ^ n -> cell_of t' j = if decide (j = i) then cell s' else cell_of t j) as Hcell by (intros j Hj; unfold cell_of; rewrite Hsl by done; by destruct (decide _)).
  assert (forall h d, 0 <= (h + d) mod 2 ^ n < 2 ^ n) as Hmod by (intros; apply Z.mod_pos_bound, B_pos; destruct (sh_n _ _ Hsh); lia).
  assert (forall j, 0 <= j < 2 ^ n -> tag_of t j <> EMPTY -> tag_of t' j <> EMPTY) as Hkeep by (intros j Hj Hx; rewrite Htag by done; by destruct (decide _)).
  split.
  - destruct Hsh as [? ? ? Htags]. split; [done|done|unfold t', zlen in *; cbn [slots]; by rewrite length_insert|].
    intros s [k Hk]%list_elem_of_lookup_1. unfold t' in Hk. cbn [slots] in Hk. apply list_lookup_insert_Some in Hk as [(_ & -> & _)|(_ & Hk)]; [done|].
    by eapply Htags, list_elem_of_lookup_2.
  - intros j Hj Hf. rewrite Htag in Hf by done. rewrite Htag, Hcell by done. destruct (decide (j = i)) as [->|]; [|by apply Hinv].
    destruct (Hnew Hf) as (x & ? & ? & _). by exists x.
  - intros j x Hj Hf Hx d Hd. rewrite Htag in Hf by done. rewrite Hcell in Hx by done. apply Hkeep; [done|]. destruct (decide (j = i)) as [->|].
    + destruct (Hnew Hf) as (y & Hy & _ & Hp). assert (y = x) as -> by congruence. by apply Hp.
    + by apply (ti_reach _ _ Hinv j x).
  - unfold t'. cbn [items slots]. rewrite (tags_insert _ _ _ _ _ Li). fold (tag_of t i). rewrite <- (ti_items _ _ Hinv). done.
  - done.
  - unfold t'. cbn [growth_left slots bucket_mask]. rewrite (tags_insert _ _ _ _ _ Li). fold (tag_of t i). pose proof (ti_room _ _ Hinv).
    assert (Z.b2z (is_live (tag s')) = 1) as -> by (unfold is_live; by rewrite (proj2 (Z.eqb_neq _ _) Hne)).
    assert (Z.b2z (is_live (tag_of t i)) = 1 - Z.b2z (tag_of t i =? EMPTY)) as -> by (unfold is_live; by destruct (tag_of t i =? EMPTY)). lia.
Qed.
End inv.

(** ** The map *)
Section map.
Context `{Build} {K V : Type} `{Countable K} (hash : K -> Z) (MAX_SIZE NULLPAGE_SIZE : Z) (layout : TableLayout).
Implicit Types (t : RawTable (K * V)) (m : gmap K V).

(** The table holds the pairs of a finite map. *)
Definition represents t (n : Z) m : Prop := holding (make_hasher hash) t n (map_to_list m).

Lemma eq_hash k (x : K * V) : equivalent_key k x = true -> make_hasher hash x = hash k.
Proof. unfold equivalent_key, make_hasher. intros ->%bool_decide_eq_true. done. Qed.

Lemma represents_elem t n m k v : represents t n m ->
  m !! k = Some v <-> exists i, 0 <= i < 2 ^ n /\ is_full (tag_of t i) = true /\ cell_of t i = Some (k, v).
Proof.
  intros [Hi Hp]. rewrite <- elem_of_map_to_list, <- Hp. apply elem_full, Hi.
Qed.

(** The search for a key. *)
Lemma search t n m k : represents t n m ->
  (exists i v, 0 <= i < 2 ^ n /\ is_full (tag_of t i) = true /\ cell_of t i = Some (k, v) /\ m !! k = Some v /\
     find_loop (Z.to_nat (buckets t)) t (full (hash k)) (equivalent_key k) (probe_seq t (hash k)) = Ret (Some i) /\
     find_or_find_insert_slot_inner t (hash k) (equivalent_key k) = Ret (Ok i)) \/
  (exists i, 0 <= i < 2 ^ n /\ tag_of t i = EMPTY /\ m !! k = None /\
     (forall d, 0 <= d < dist n (hash k) i -> tag_of t ((hash k + d) mod 2 ^ n) <> EMPTY) /\
     find_loop (Z.to_nat (buckets t)) t (full (hash k)) (equivalent_key k) (probe_seq t (hash k)) = Ret None /\
     find_or_find_insert_slot_inner t (hash k) (equivalent_key k) = Ret (Err i)).
Proof.
  intros Hrep. pose proof Hrep as [Hi _]. destruct (inv_empty _ t n Hi) as (j & Hj & Hje).
  destruct (find_spec t n (ti_shape _ _ _ Hi) _ (ti_tagged _ _ _ Hi) (ti_reach _ _ _ Hi) j Hj Hje (equivalent_key k) (hash k) (eq_hash k))
    as [(i & [k' v] & Hib & Hf & Hc & He & E1 & E2)|(i & Hib & He & Hno & Hp & E1 & E2)].
  - left. unfold equivalent_key in He. apply bool_decide_eq_true in He. cbn [fst] in He. subst k'. exists i, v. split_and!; try done; try lia. apply (represents_elem t n m); [done|]. by exists i.
  - right. exists i. split_and!; try done; try lia. destruct (m !! k) as [v|] eqn:Em; [|done]. apply (represents_elem t n m) in Em as (i' & Hi' & Hf & Hc); [|done].
    specialize (Hno i' Hi'). unfold holds, equivalent_key in Hno. rewrite Hf, Hc in Hno. cbn [fst] in Hno. by rewrite bool_decide_eq_true_2 in Hno.
Qed.

Lemma represents_size t n m : represents t n m -> items t = Z.of_nat (size m).
Proof. intros [Hi Hp]. rewrite (items_length _ t n Hi). unfold zlen. rewrite Hp. by rewrite length_map_to_list. Qed.

(** The pairs after one bucket has changed. *)
Lemma iter_update t n i s' b g it : shape t n -> 0 <= i < 2 ^ n ->
  option_list (full_item (slots t !!! Z.to_nat i)) ++ table_iter (mkTable b (bucket_mask t) g it (<[Z.to_nat i := s']> (slots t))) ≡ₚ
  option_list (full_item s') ++ table_iter t.
Proof. intros Hsh Hi. unfold table_iter. rewrite !iter_omap. cbn [slots]. by apply omap_insert, (sh_lookup t n Hsh). Qed.

Lemma insert_in_slot_spec t n m i k v : represents t n m -> 0 <= i < 2 ^ n -> tag_of t i = EMPTY -> m !! k = None -> 1 <= growth_left t ->
  (forall d, 0 <= d < dist n (hash k) i -> tag_of t ((hash k + d) mod 2 ^ n) <> EMPTY) ->
  exists t', insert_in_slot t (hash k) i (k, v) = Ret t' /\ represents t' n (<[k := v]> m).
Proof.
  intros [Hi Hp] Hib He Hm Hg Hpath. pose proof (ti_shape _ _ _ Hi) as Hsh. destruct (inv_items _ t n Hi) as (Hit & Hmask & Hn). pose proof (capacity_bounds n ltac:(lia)) as [Hc _].
  assert (2 ^ n <= 2 ^ 60) by (apply Z.pow_le_mono_r; lia). pose proof (ti_room _ _ _ Hi) as Hr. rewrite Hmask in Hr. fold (capacity_of n) in Hr.
  pose proof (tags_bounds is_live (slots t)). unfold insert_in_slot. rewrite (ctrl_spec t n Hsh i Hib). cbn [obind]. rewrite He.
  assert (special_is_empty EMPTY = Ret true) as -> by (unfold special_is_empty, debug_assert; by destruct overflow_checks). cbn [obind Z.b2z].
  rewrite !chk_in by lia. cbn [obind]. set (s' := mkSlot (full (hash k)) (Some (k, v))).
  assert (set_bucket (mkTable (base (set_ctrl t i (full (hash k)))) (bucket_mask (set_ctrl t i (full (hash k)))) (growth_left t - 1) (items t + 1) (slots (set_ctrl t i (full (hash k))))) i (k, v) =
    mkTable (base t) (bucket_mask t) (growth_left t - 1) (items t + 1) (<[Z.to_nat i := s']> (slots t))) as ->.
  { apply table_eq; try done. pose proof (sh_lookup t n Hsh i Hib) as Li. rewrite (set_bucket_slots _ _ _ (mkSlot (full (hash k)) (cell_of t i))); cbn [slots]; rewrite (set_ctrl_slots _ _ _ _ Li).
    - by rewrite list_insert_insert_eq.
    - apply list_lookup_insert_eq. by apply lookup_lt_Some in Li. }
  eexists. split; [done|]. pose proof (full_range (hash k)) as Hfr. split.
  - apply (update_inv _ t n i s'); try done; cbn [s' tag cell].
    + by left.
    + unfold EMPTY. lia.
    + intros _. exists (k, v). split_and!; [done|done|]. exact Hpath.
    + rewrite He, (is_full_lt _ Hfr). change (is_full EMPTY) with false. simpl. lia.
    + lia.
    + rewrite He. simpl. lia.
  - pose proof (iter_update t n i s' (base t) (growth_left t - 1) (items t + 1) Hsh Hib) as P1. unfold full_item at 1 in P1. fold (tag_of t i) in P1. rewrite He in P1.
    change (is_full EMPTY) with false in P1. cbn [option_list app] in P1. rewrite P1. unfold full_item. cbn [s' tag cell]. rewrite (is_full_lt _ Hfr). cbn [option_list app].
    rewrite map_to_list_insert by done. by rewrite Hp.
Qed.

Lemma replace_spec t n m i k v v0 : represents t n m -> 0 <= i < 2 ^ n -> is_full (tag_of t i) = true -> cell_of t i = Some (k, v0) -> m !! k = Some v0 ->
  represents (set_bucket t i (k, v)) n (<[k := v]> m).
Proof.
  intros [Hi Hp] Hib Hf Hc Hm. pose proof (ti_shape _ _ _ Hi) as Hsh. pose proof (sh_lookup t n Hsh i Hib) as Li. destruct (ti_tagged _ _ _ Hi i Hib Hf) as (x & Hx & Htg).
  assert (x = (k, v0)) as -> by congruence. set (s' := mkSlot (tag_of t i) (Some (k, v))).
  assert (set_bucket t i (k, v) = mkTable (base t) (bucket_mask t) (growth_left t) (items t) (<[Z.to_nat i := s']> (slots t))) as ->.
  { apply table_eq; try done. by rewrite (set_bucket_slots _ _ _ _ Li). }
  assert (tag_of t i <> EMPTY) as Hne by (intros E; by rewrite E in Hf). split.
  - apply (update_inv _ t n i s'); try done; cbn [s' tag cell].
    + by apply (sh_tag_ok t n Hsh).
    + intros _. exists (k, v). split_and!; [done|done|]. exact (ti_reach _ _ _ Hi i (k, v0) Hib Hf Hc).
    + rewrite Hf. simpl. lia.
    + apply Hi.
    + rewrite (proj2 (Z.eqb_neq _ _) Hne). simpl. lia.
  - pose proof (iter_update t n i s' (base t) (growth_left t) (items t) Hsh Hib) as P1. unfold full_item at 1 in P1. fold (tag_of t i) (cell_of t i) in P1. rewrite Hf, Hc in P1.
    unfold full_item in P1. cbn [s' tag cell] in P1. rewrite Hf in P1. cbn [option_list app] in P1. apply (Permutation_cons_inv (a := (k, v0))). rewrite P1, Hp.
    rewrite <- (map_to_list_delete m k v0) by done. rewrite <- insert_delete_eq, map_to_list_insert by apply lookup_delete_eq. apply perm_swap.
Qed.

Lemma erase_spec t n m i k v : represents t n m -> 0 <= i < 2 ^ n -> is_full (tag_of t i) = true -> cell_of t i = Some (k, v) -> m !! k = Some v ->
  exists t', erase t i = Ret t' /\ represents t' n (delete k m).
Proof.
  intros [Hi Hp] Hib Hf Hc Hm. pose proof (ti_shape _ _ _ Hi) as Hsh. pose proof (sh_lookup t n Hsh i Hib) as Li. destruct (inv_items _ t n Hi) as (Hit & Hmask & Hn).
  pose proof (capacity_bounds n ltac:(lia)) as [Hcb _]. assert (2 ^ n <= 2 ^ 60) by (apply Z.pow_le_mono_r; lia).
  assert (1 <= items t) as Hpos by (rewrite (items_length _ t n Hi); unfold zlen; rewrite Hp; destruct (map_to_list m) eqn:E; [apply map_to_list_empty_iff in E; subst m; done|simpl; lia]).
  unfold erase. rewrite (ctrl_spec t n Hsh i Hib). cbn [obind]. rewrite chk_in by (cbn [items set_ctrl with_slots]; lia). cbn [obind]. eexists. split; [done|].
  set (s' := mkSlot DELETED (cell_of t i)).
  assert (mkTable (base (set_ctrl t i DELETED)) (bucket_mask (set_ctrl t i DELETED)) (growth_left (set_ctrl t i DELETED)) (items (set_ctrl t i DELETED) - 1) (slots (set_ctrl t i DELETED)) =
    mkTable (base t) (bucket_mask t) (growth_left t) (items t - 1) (<[Z.to_nat i := s']> (slots t))) as ->.
  { apply table_eq; try done. cbn [slots]. by rewrite (set_ctrl_slots _ _ _ _ Li). }
  assert (tag_of t i <> EMPTY) as Hne by (intros E; by rewrite E in Hf). split.
  - apply (update_inv _ t n i s'); try done; cbn [s' tag cell].
    + by right; right.
    + rewrite Hf. change (is_full DELETED) with false. simpl. lia.
    + apply Hi.
    + rewrite (proj2 (Z.eqb_neq _ _) Hne). simpl. lia.
  - pose proof (iter_update t n i s' (base t) (growth_left t) (items t - 1) Hsh Hib) as P1. unfold full_item at 1 in P1. fold (tag_of t i) (cell_of t i) in P1. rewrite Hf, Hc in P1.
    change (full_item s') with (@None (K * V)) in P1. cbn [option_list app] in P1. apply (Permutation_cons_inv (a := (k, v))). rewrite P1, Hp. by rewrite (map_to_list_delete m k v).
Qed.

(** C24: Lookup.  [PersistentHashMap::get] on a table that holds a finite map is its lookup, except that a build with
    debug assertions panics when the map is empty. *)
Theorem map_get_correct t n m k : represents t n m ->
  map_get hash t k = if overflow_checks && (map_len t =? 0) then Panic else Ret (m !! k).
Proof.
  intros Hrep. unfold map_get, table_get, find_inner, debug_assert, is_empty, map_len.
  destruct overflow_checks, (items t =? 0); cbn [negb rassert obind andb]; try done;
    (destruct (search t n m k Hrep) as [(i & v & Hib & Hf & Hc & -> & -> & _)|(i & _ & _ & -> & _ & -> & _)]; cbn [obind]; [|done];
     by rewrite (bucket_spec t n (ti_shape _ _ _ (proj1 Hrep)) i (k, v) Hib Hc)).
Qed.

Lemma map_insert_spec t n m k v : represents t n m -> can_grow MAX_SIZE NULLPAGE_SIZE layout n -> (1 <= growth_left t \/ no_ghosts t) ->
  exists t' n', map_insert MAX_SIZE NULLPAGE_SIZE hash layout t k v = Ret (m !! k, t') /\ represents t' n' (<[k := v]> m) /\
    map_len t' = Z.of_nat (size (<[k := v]> m)).
Proof.
  intros [Hi Hp] Hgr Hg. unfold map_insert, find_or_find_insert_slot.
  destruct (reserve_spec _ MAX_SIZE NULLPAGE_SIZE layout t n Hi Hg Hgr) as (t1 & n1 & -> & [Hi1 Hp1] & Hg1). cbn [obind].
  assert (represents t1 n1 m) as Hrep by (split; [done|by rewrite Hp1]).
  destruct (search t1 n1 m k Hrep) as [(i & v0 & Hib & Hf & Hc & Hm & _ & ->)|(i & Hib & He & Hm & Hpath & _ & ->)]; cbn [obind].
  - rewrite (bucket_spec t1 n1 (ti_shape _ _ _ Hi1) i (k, v0) Hib Hc). cbn [obind fst snd]. pose proof (replace_spec t1 n1 m i k v v0 Hrep Hib Hf Hc Hm) as Hr.
    exists (set_bucket t1 i (k, v)), n1. split_and!; [by rewrite Hm|done|by apply (represents_size _ n1)].
  - destruct (insert_in_slot_spec t1 n1 m i k v Hrep Hib He Hm Hg1 Hpath) as (t2 & -> & Hr). exists t2, n1. cbn [obind]. split_and!; [by rewrite Hm|done|by apply (represents_size _ n1)].
Qed.

(** C22: insertion.  Let a table hold a finite map, let the object have room for a table of
    twice the size, and let the table not be at once empty, without growth left and with deleted
    buckets.  Then [PersistentHashMap::insert] returns the old value of the key, and the table
    holds the map with the new one; growing, and rehashing in place while there are elements,
    lose nothing and bring nothing back.  (In the case that is left out the deleted elements
    come back: [removed_elements_return].) *)
Theorem map_insert_correct t n m k v : represents t n m -> can_grow MAX_SIZE NULLPAGE_SIZE layout n -> (1 <= growth_left t \/ no_ghosts t) ->
  exists t' n', map_insert MAX_SIZE NULLPAGE_SIZE hash layout t k v = Ret (m !! k, t') /\ represents t' n' (<[k := v]> m) /\
    map_len t' = Z.of_nat (size (<[k := v]> m)).
Proof. apply map_insert_spec. Qed.

(** C23: removal.  [PersistentHashMap::remove] returns the value of the key, and the table then holds the map without
    it; a build with debug assertions panics when the map is empty. *)
Theorem map_remove_correct t n m k : represents t n m ->
  if overflow_checks && (map_len t =? 0) then map_remove hash t k = Panic
  else exists t', map_remove hash t k = Ret (m !! k, t') /\ represents t' n (delete k m) /\ map_len t' = Z.of_nat (size (delete k m)).
Proof.
  intros Hrep. assert (map_remove hash t k = let! _ := debug_assert (negb (is_empty t)) in
    match m !! k with Some v => let! (r, t) := (let! r := find_loop (Z.to_nat (buckets t)) t (full (hash k)) (equivalent_key k) (probe_seq t (hash k)) in
      match r with Some i => let! x := bucket t i in let! t := erase t i in Ret (Some x, t) | None => Ret (None, t) end) in Ret (snd <$> r, t) | None => Ret (None, t) end) as ->.
  { unfold map_remove, table_remove, find_inner, debug_assert, is_empty. destruct overflow_checks, (items t =? 0); cbn [negb rassert obind]; try done;
      (destruct (search t n m k Hrep) as [(i & v & _ & _ & _ & -> & -> & _)|(i & _ & _ & -> & _ & -> & _)]; done). }
  unfold debug_assert, is_empty, map_len. destruct (overflow_checks && (items t =? 0)) eqn:Eb.
  { apply andb_true_iff in Eb as [Eb1 Eb2]. rewrite Eb1, Eb2. done. }
  assert ((if overflow_checks then rassert (negb (items t =? 0)) else Ret tt) = Ret tt) as -> by (by destruct overflow_checks, (items t =? 0)). cbn [obind].
  destruct (search t n m k Hrep) as [(i & v & Hib & Hf & Hc & Hm & -> & _)|(i & _ & _ & Hm & _ & _ & _)]; rewrite Hm; cbn [obind].
  - rewrite (bucket_spec t n (ti_shape _ _ _ (proj1 Hrep)) i (k, v) Hib Hc). cbn [obind]. destruct (erase_spec t n m i k v Hrep Hib Hf Hc Hm) as (t' & -> & Hr).
    cbn [obind]. exists t'. split_and!; [done|done|by apply (represents_size _ n)].
  - exists t. rewrite delete_id by done. split_and!; [done|done|by apply (represents_size _ n)].
Qed.
End map.

(** ** New and cleared tables *)
Section fresh.
Context `{Build} {K V : Type} `{Countable K} (hash : K -> Z).

Lemma tags_all_false {T} (p : Z -> bool) (l : list (Slot T)) : (forall s, s ∈ l -> p (tag s) = false) -> tags p l = 0.
Proof. induction l as [|s l IH]; intros Hp; [done|]. cbn [tags]. rewrite (Hp s) by by left. rewrite IH; [done|]. intros s' Hs'. apply Hp. by right. Qed.

(** A table of empty buckets holds the empty map. *)
Lemma all_empty_represents (t : RawTable (K * V)) n : 3 <= n <= 60 -> bucket_mask t = 2 ^ n - 1 -> zlen (slots t) = 2 ^ n ->
  (forall s, s ∈ slots t -> tag s = EMPTY) -> items t = 0 -> 0 <= growth_left t <= capacity_of n -> represents hash t n ∅.
Proof.
  intros Hn Hm Hl Hall Hit Hg. assert (forall j, 0 <= j < 2 ^ n -> tag_of t j = EMPTY) as Htag.
  { intros j Hj. apply Hall. apply list_elem_of_lookup_total_2. unfold zlen in Hl. lia. }
  assert (tags is_full (slots t) = 0 /\ tags is_live (slots t) = 0) as [Ef El] by (split; apply tags_all_false; intros s Hs; by rewrite (Hall s Hs)).
  split.
  - split.
    + split; [done|done|done|]. intros s Hs. right; left. by apply Hall.
    + intros j Hj Hf. by rewrite (Htag j Hj) in Hf.
    + intros j x Hj Hf. by rewrite (Htag j Hj) in Hf.
    + by rewrite Ef.
    + lia.
    + rewrite El, Hm. fold (capacity_of n). lia.
  - rewrite map_to_list_empty. unfold table_iter. clear -Hall. induction (slots t) as [|[c x] l IH]; [done|]. cbn [iter_slots tag cell].
    pose proof (Hall _ (list_elem_of_here _ _)) as E. cbn [tag] in E. rewrite E. change (is_full EMPTY) with false. cbv iota. apply IH. intros s Hs. apply Hall. by right.
Qed.

Lemma map_new_spec MAX_SIZE NULLPAGE_SIZE layout p : allocate MAX_SIZE NULLPAGE_SIZE layout 8 = Ret (Ok p) ->
  exists t : RawTable (K * V), map_new MAX_SIZE NULLPAGE_SIZE layout = Ret (Ok t) /\ represents hash t 3 ∅ /\ no_ghosts t.
Proof.
  intros Ha. unfold map_new, bootstrap. assert (buckets_for 1 = Ret 8) as -> by (unfold buckets_for, next_power_of_two; by rewrite !chk_in by (vm_compute; split; congruence)).
  cbn [obind]. rewrite Ha. cbn [obind]. eexists. split; [done|]. split.
  - apply all_empty_represents; [lia|done|done| |done|done]. intros s Hs. apply elem_of_replicate in Hs as [-> _]. done.
  - intros _. done.
Qed.

Lemma map_clear_spec (t : RawTable (K * V)) n m : represents hash t n m -> represents hash (map_clear t) n ∅ /\ no_ghosts (map_clear t).
Proof.
  intros [Hi _]. pose proof (ti_shape _ _ _ Hi) as Hsh. destruct (inv_items _ t n Hi) as (_ & Hm & Hn). pose proof (capacity_bounds n ltac:(lia)) as [Hc _].
  assert (8 <= 2 ^ n) by (change 8 with (2 ^ 3); apply Z.pow_le_mono_r; lia). unfold map_clear, table_clear, is_empty_singleton. rewrite (proj2 (Z.eqb_neq _ _)) by lia.
  assert (forall s, s ∈ (fun s : Slot (K * V) => mkSlot EMPTY (cell s)) <$> slots t -> tag s = EMPTY) as Hall by (intros s (y & -> & _)%list_elem_of_fmap; done).
  split.
  - apply all_empty_represents; [done|done| |done|done|].
    + cbn [slots]. unfold zlen. rewrite length_fmap. apply Hsh.
    + cbn [growth_left]. pose proof (ti_room _ _ _ Hi) as Hr. rewrite Hm in Hr. fold (capacity_of n) in Hr. pose proof (tags_bounds is_live (slots t)). pose proof (ti_growth _ _ _ Hi). lia.
  - intros _. cbn [slots]. apply tags_all_false. intros s Hs. by rewrite (Hall s Hs).
Qed.
End fresh.

(** The layout of a table, when its size does not overflow. *)
Lemma layout_for_spec `{Build} (j size b : Z) : 0 <= j <= 12 -> 0 <= size -> 0 < b -> size * b + 2 ^ 12 + b + 64 < 2 ^ 64 -> Address.is_power_of_two b = true ->
  exists k off, TableLayout_new size (2 ^ j) = mkLayout size (2 ^ k) /\ 0 <= k <= 12 /\
    calculate_layout_for (mkLayout size (2 ^ k)) b = Ret (off + b + INVARIANT_GROUP_WIDTH, off) /\ size * b <= off.
Proof.
  intros Hj Hsz Hb Hov Epw. assert (exists k, 0 <= k <= 12 /\ TableLayout_new size (2 ^ j) = mkLayout size (2 ^ k)) as (k & Hk & ->).
  { unfold TableLayout_new, INVARIANT_GROUP_WIDTH. destruct (64 <? 2 ^ j); [by exists j|]. exists 6. split; [lia|done]. }
  assert (0 < 2 ^ k <= 2 ^ 12) as Hk2 by (split; [apply Z.pow_pos_nonneg; lia|apply Z.pow_le_mono_r; lia]). assert (0 <= size * b) by nia.
  set (off := Z.land (size * b + (2 ^ k - 1)) (2 ^ 64 - 1 - (2 ^ k - 1))).
  assert (size * b <= off <= size * b + (2 ^ k - 1)) as Hoff.
  { unfold off. replace (2 ^ 64 - 1 - (2 ^ k - 1)) with (Address.not64 (2 ^ k - 1)) by (unfold Address.not64; lia). rewrite Address.land_not_mask by lia.
    unfold Address.round_down. pose proof (Z.mod_pos_bound (size * b + (2 ^ k - 1)) (2 ^ k)). lia. }
  exists k, off. split_and!; [done|lia|lia| |lia]. unfold calculate_layout_for, calculate_ctrl_offset. cbn [l_size ctrl_align]. rewrite Epw.
  assert (debug_assert true = Ret tt) as -> by (unfold debug_assert; by destruct overflow_checks). cbn [obind].
  do 2 (rewrite chk_in by lia; cbn [obind]). fold off. unfold INVARIANT_GROUP_WIDTH. do 2 (rewrite chk_in by lia; cbn [obind]). done.
Qed.

(** C37: The table fits in its object.  When [HashTableAlloc::allocate] succeeds, the buckets end above the first two
    pages of the object and the tags before its last two, for elements of any size and
    any alignment up to a page. *)
Theorem allocate_in_object `{Build} MAX_SIZE NULLPAGE_SIZE (j size b p : Z) :
  0 <= j <= 12 -> 0 <= size -> 0 < b -> size * b + 2 ^ 12 + b + 64 < 2 ^ 64 -> 0 <= NULLPAGE_SIZE -> 0 <= MAX_SPACE MAX_SIZE NULLPAGE_SIZE -> MAX_SIZE < 2 ^ 62 ->
  allocate MAX_SIZE NULLPAGE_SIZE (TableLayout_new size (2 ^ j)) b = Ret (Ok p) ->
  2 * NULLPAGE_SIZE <= p - size * b /\ p + b <= MAX_SIZE - 2 * NULLPAGE_SIZE.
Proof.
  intros Hj Hsz Hb Hov Hnp Hsp Hmax. unfold allocate. destruct (Address.is_power_of_two b) eqn:Epw; [|done]. cbn [rassert obind].
  destruct (layout_for_spec j size b) as (k & off & -> & Hk & -> & Hoff); [done..|]. cbn [obind l_size ctrl_align]. destruct (MAX_ALIGNMENT <? 2 ^ k); [done|].
  set (S := MAX_SPACE MAX_SIZE NULLPAGE_SIZE) in *. destruct (Z.ltb_spec S (off + b + INVARIANT_GROUP_WIDTH)) as [?|Hfit]; [done|]. unfold INVARIANT_GROUP_WIDTH in Hfit.
  assert (b <= S / (size + 1)) as HQ by (apply Z.div_le_lower_bound; lia). pose proof (Z.mul_div_le S (size + 1) ltac:(lia)) as HQ2. set (Q := S / (size + 1)) in *.
  assert (S = MAX_SIZE - NULLPAGE_SIZE * 4 - 4096) as ES by done. assert (0 <= Q * size <= S) as Hqs by nia.
  rewrite chk_in by lia. cbn [obind]. unfold MAX_ALIGNMENT. pose proof (Z.mod_pos_bound (Q * size) 4096 ltac:(lia)). rewrite chk_in by lia. cbn [obind]. rewrite chk_in by lia. cbn [obind].
  intros [= <-]. split; nia.
Qed.

Lemma allocate_in_object_witness :
  exists p, allocate (H := true) (2 ^ 30) 4096 (TableLayout_new 16 (2 ^ 3)) 1024 = Ret (Ok p) /\ 2 * 4096 <= p - 16 * 1024 /\ p + 1024 <= 2 ^ 30 - 2 * 4096.
Proof.
  destruct (allocate (H := true) (2 ^ 30) 4096 (TableLayout_new 16 (2 ^ 3)) 1024) as [[p|]| |] eqn:E; [|by vm_compute in E..]. exists p. split; [reflexivity|].
  refine (allocate_in_object (H := true) (2 ^ 30) 4096 3 16 1024 p _ _ _ _ _ _ _ E); (lia || vm_compute; congruence).
Defined.

(** ** Examples *)
Section examples.
Context `{B : Build}.

Definition ex_hash (k : Z) : Z := k.
Definition ex_layout : TableLayout := TableLayout_new 16 8.
Definition ex_insert (t : outcome (RawTable (Z * Z))) (k : Z) : outcome (RawTable (Z * Z)) :=
  let! t := t in let! (_, t) := map_insert (2 ^ 30) 4096 ex_hash ex_layout t k (10 * k) in Ret t.
Definition ex_remove (t : outcome (RawTable (Z * Z))) (k : Z) : outcome (RawTable (Z * Z)) :=
  let! t := t in let! (_, t) := map_remove ex_hash t k in Ret t.
Definition ex_new : outcome (RawTable (Z * Z)) :=
  let! r := map_new (2 ^ 30) 4096 ex_layout in match r with Ok t => Ret t | Err _ => Panic end.
End examples.

Lemma ex_alloc `{Build} : exists p, allocate (2 ^ 30) 4096 ex_layout 8 = Ret (Ok p).
Proof. destruct H as []; eexists; vm_compute; reflexivity. Qed.

Lemma ex_can_grow `{Build} : can_grow (2 ^ 30) 4096 ex_layout 3.
Proof. split; [lia|]. destruct H as []; eexists; vm_compute; reflexivity. Qed.

(** A table with the one pair [(5, 50)]. *)
Lemma ex_one `{Build} : exists t n, ex_insert ex_new 5 = Ret t /\ represents ex_hash t n {[ 5 := 50 ]}.
Proof.
  destruct ex_alloc as [p Hp]. destruct (map_new_spec (K := Z) (V := Z) ex_hash _ _ _ _ Hp) as (t & E & Hr & Hg). unfold ex_insert, ex_new. rewrite E. cbn [obind].
  destruct (map_insert_spec ex_hash (2 ^ 30) 4096 ex_layout t 3 ∅ 5 (10 * 5) Hr ex_can_grow (or_intror Hg)) as (t' & n & -> & Hr' & _). by exists t', n.
Qed.

Lemma map_insert_correct_witness :
  exists t t' n', ex_new (B := true) = Ret t /\ map_insert (H := true) (2 ^ 30) 4096 ex_hash ex_layout t 5 50 = Ret (None, t') /\ represents ex_hash t' n' (<[5 := 50]> ∅).
Proof.
  destruct (ex_alloc (H := true)) as [p Hp]. destruct (map_new_spec (H := true) (K := Z) (V := Z) ex_hash _ _ _ _ Hp) as (t & E & Hr & Hg).
  destruct (map_insert_correct (H := true) ex_hash (2 ^ 30) 4096 ex_layout t 3 ∅ 5 50 Hr (ex_can_grow (H := true)) (or_intror Hg)) as (t' & n' & Ei & Hr' & _).
  exists t, t', n'. split; [unfold ex_new; rewrite E; reflexivity|]. split; [exact Ei|exact Hr'].
Defined.

Lemma map_get_correct_witness :
  exists t, ex_insert (B := true) (ex_new (B := true)) 5 = Ret t /\ map_get (H := true) ex_hash t 5 = if map_len t =? 0 then Panic else Ret (Some 50).
Proof. destruct (ex_one (H := true)) as (t & n & E & Hr). exists t. split; [exact E|]. exact (map_get_correct (H := true) ex_hash t n {[ 5 := 50 ]} 5 Hr). Defined.

Lemma map_remove_correct_witness :
  exists t t', ex_insert (B := false) (ex_new (B := false)) 5 = Ret t /\ map_remove (H := false) ex_hash t 5 = Ret (Some 50, t') /\ map_len t' = 0.
Proof.
  destruct (ex_one (H := false)) as (t & n & E & Hr). destruct (map_remove_correct (H := false) ex_hash t n {[ 5 := 50 ]} 5 Hr) as (t' & Er & _ & Hl).
  exists t, t'. split; [exact E|]. split; [exact Er|exact Hl].
Defined.

(** Removed elements come back.  Seven pairs are inserted in a new map and removed again.  The next insertion
    rehashes the table, whose deleted buckets are not cleared when it has no elements: the
    removed pairs are found again, the length disagrees with them, and looking up a
    key that is not there does not terminate. *)
Theorem removed_elements_return :
  exists t t', foldl (ex_remove (B := false)) (foldl (ex_insert (B := false)) (ex_new (B := false)) [1; 2; 3; 4; 5; 6; 7]) [1; 2; 3; 4; 5; 6; 7] = Ret t /\
    map_len t = 0 /\ map_get (H := false) ex_hash t 3 = Ret None /\
    map_insert (H := false) (2 ^ 30) 4096 ex_hash ex_layout t 9 90 = Ret (None, t') /\
    map_len t' = 1 /\ map_get (H := false) ex_hash t' 3 = Ret (Some 30) /\ map_get (H := false) ex_hash t' 17 = NoFuel.
Proof. do 2 eexists. do 6 (split; [vm_compute; reflexivity|]). vm_compute. reflexivity. Qed.
End HachageInv.
