(* ===== verification/SlotAlloc.v ===== *)
(** * The slot allocator of the reference runtime ([src/rt/reference/src/runtime/slot.rs])

    An address space is divided into slots of one object each, grouped in pairs
    [(2p, 2p+1)].  Before the runtime is ready slots come from a counter
    ([early_slot_alloc]); [init_slots] then marks the pairs the counter passed.  Afterwards
    a pair is found in a bitmap ([alloc_pair]); single slots come from a stack that is
    refilled by splitting a pair ([alloc_single]), and when released singles pile up
    [maybe_gc_singles] sorts them to give whole pairs back.

    The allocator is under a [std::sync::Mutex]: an operation that panics poisons it and
    every later one panics too ([locked]).  The size of an object is not in this
    repository, so the number of slots is computed from a parameter; what is used of it
    is that the bitmap has no partial byte.

    [slots_exclusive]: no slot or pair is handed out while somebody owns it, and the
    stacks never outgrow the memory reserved for them.  [release_panics_exactly]: a
    collection never gives a pair back: as soon as it finds one it panics, and the
    allocator is unusable from then on. *)
From stdpp Require Import sorting.
From S2P Require Import Prelude.

#[local] Open Scope Z_scope.
#[local] Ltac Zify.zify_post_hook ::= Z.to_euclidean_division_equations.

Module SlotAlloc.

(** ** What the allocator promises

    [ss_good r held pairs]: the state [r] works, with the slots [held] and the pairs
    [pairs] (named by half their first slot) given out.  Slots given out are below
    [ss_limit] and nobody's; a release of what is held either returns or panics. *)
Class SlotService (R : Type) := {
  ss_limit : Z;
  ss_alloc : R -> outcome (option Z) * R;
  ss_release : R -> Z -> outcome unit * R;
  ss_alloc_pair : R -> outcome (option (Z * Z)) * R;
  ss_release_pair : R -> Z * Z -> outcome unit * R;
  ss_good : R -> gset Z -> gset Z -> Prop;
  ss_alloc_law r h hp : ss_good r h hp ->
    (exists x r', ss_alloc r = (Ret (Some x), r') /\ 0 <= x < ss_limit /\ (x ∉ h) /\ ss_good r' ({[x]} ∪ h) hp) \/
    (exists r', ss_alloc r = (Ret None, r') /\ ss_good r' h hp);
  ss_alloc_pair_law r h hp : ss_good r h hp ->
    (exists q r', ss_alloc_pair r = (Ret (Some (q * 2, q * 2 + 1)), r') /\ 0 <= q * 2 /\ q * 2 + 1 < ss_limit /\
       (q * 2 ∉ h) /\ (q * 2 + 1 ∉ h) /\ (q ∉ hp) /\ ss_good r' h ({[q]} ∪ hp)) \/
    (exists r', ss_alloc_pair r = (Ret None, r') /\ ss_good r' h hp);
  ss_release_law r h hp x : ss_good r h hp -> x ∈ h ->
    (exists r', ss_release r x = (Ret tt, r') /\ ss_good r' (h ∖ {[x]}) hp) \/
    (exists r', ss_release r x = (Panic, r'));
  ss_release_pair_law r h hp q : ss_good r h hp -> q ∈ hp ->
    exists r', ss_release_pair r (q * 2, q * 2 + 1) = (Ret tt, r') /\ ss_good r' h (hp ∖ {[q]});
  ss_split_law r h hp q : ss_good r h hp -> q ∈ hp -> ss_good r ({[q * 2; q * 2 + 1]} ∪ h) (hp ∖ {[q]})
}.

Section slots.
Context `{Build} (MAX_SIZE : Z).

Definition SLOTS : Z := 2 ^ 47 / MAX_SIZE.

Record SlotAllocatorInner := Inner { pairs : list Z; singles : list Z; singles_aux : list Z }.

Definition new : SlotAllocatorInner := Inner (replicate (Z.to_nat (SLOTS / 2 / 8)) 0) [] [].

Definition mask (pair : Z) : Z := Z.shiftl 1 (pair mod 8).

(** [self.pairs[pair / 8] = f(self.pairs[pair / 8])] *)
Definition update_byte (f : Z -> Z) (s : SlotAllocatorInner) (pair : Z) : outcome SlotAllocatorInner :=
  let! b := unwrap (pairs s !! Z.to_nat (pair / 8)) in
  Ret (Inner (<[Z.to_nat (pair / 8) := f b]> (pairs s)) (singles s) (singles_aux s)).

Definition test (s : SlotAllocatorInner) (pair : Z) : outcome bool :=
  let! b := unwrap (pairs s !! Z.to_nat (pair / 8)) in
  Ret (negb (Z.land b (mask pair) =? 0)).

Definition set (s : SlotAllocatorInner) (pair : Z) : outcome SlotAllocatorInner :=
  update_byte (fun b => Z.lor b (mask pair)) s pair.

(** [self.pairs[pair / 8] &= !(1 << (pair % 8))], the complement being of a [u8]. *)
Definition clear (s : SlotAllocatorInner) (pair : Z) : outcome SlotAllocatorInner :=
  update_byte (fun b => Z.land b (Z.lxor (mask pair) 255)) s pair.

Definition release_pair (s : SlotAllocatorInner) (first_slot : Z) : outcome SlotAllocatorInner :=
  let! _ := rassert (first_slot mod 2 =? 0) in
  clear s (first_slot / 2).

(** The loop of [alloc_pair] from pair [p], [n] pairs before the end. *)
Fixpoint alloc_pair_loop (n : nat) (p : Z) (s : SlotAllocatorInner) : outcome (option (Z * Z) * SlotAllocatorInner) :=
  match n with
  | O => Ret (None, s)
  | S n =>
      let! t := test s p in
      if negb t then let! s' := set s p in Ret (Some (p * 2, p * 2 + 1), s')
      else alloc_pair_loop n (p + 1) s
  end.

Definition alloc_pair (s : SlotAllocatorInner) : outcome (option (Z * Z) * SlotAllocatorInner) :=
  alloc_pair_loop (Z.to_nat (SLOTS / 2)) 0 s.

(** [Vec::pop] and [Vec::push] work at the end. *)
Definition alloc_single (s : SlotAllocatorInner) : outcome (option Z * SlotAllocatorInner) :=
  match last (singles s) with
  | Some idx => Ret (Some idx, Inner (pairs s) (removelast (singles s)) (singles_aux s))
  | None =>
      let! (o, s1) := alloc_pair s in
      match o with
      | None => Ret (None, s1)
      | Some (a, b) => Ret (Some b, Inner (pairs s1) (singles s1 ++ [a]) (singles_aux s1))
      end
  end.

Definition HIGH_WATERMARK : Z := SLOTS / 4.
Definition SINGLES_CAPACITY : Z := SLOTS.

(** [Vec::remove] *)
Definition vec_remove (l : list Z) (i : nat) : outcome (Z * list Z) :=
  let! x := unwrap (l !! i) in Ret (x, delete i l).

(** [binary_search], on a sorted vector: the position of the element. *)
Definition binary_search (l : list Z) (x : Z) : option nat := fst <$> list_find (fun y => y = x) l.

(** Step 2: the first slots of the windows of two that are a pair.  The first slot being
    even, adding one to it cannot overflow. *)
Fixpoint pair_firsts (l : list Z) : list Z :=
  match l with
  | a :: ((b :: _) as r) =>
      if (a mod 2 =? 0) && (b =? a + 1) then a :: pair_firsts r else pair_firsts r
  | _ => []
  end.

(** Step 3: remove the pairs from the singles and free them. *)
Fixpoint free_pairs (aux : list Z) (s : SlotAllocatorInner) : outcome SlotAllocatorInner :=
  match aux with
  | [] => Ret s
  | pf :: aux =>
      let! index := unwrap (binary_search (singles s) pf) in
      let! (old_a, l1) := vec_remove (singles s) index in
      let! (old_b, l2) := vec_remove l1 (index + 1) in
      let! _ := rassert (old_a + 1 =? old_b) in
      let! _ := rassert (old_a =? pf) in
      let! _ := rassert (old_a mod 2 =? 0) in
      let! s' := clear (Inner (pairs s) l2 (singles_aux s)) (pf / 2) in
      free_pairs aux s'
  end.

(** [sort_unstable] on integers has one result. *)
Definition maybe_gc_singles (s : SlotAllocatorInner) : outcome SlotAllocatorInner :=
  if zlen (singles s) <? HIGH_WATERMARK then Ret s
  else
    let l := merge_sort Z.le (singles s) in
    let aux := pair_firsts l in
    free_pairs aux (Inner (pairs s) l aux).

Definition release_single (s : SlotAllocatorInner) (slot : Z) : outcome SlotAllocatorInner :=
  maybe_gc_singles (Inner (pairs s) (singles s ++ [slot]) (singles_aux s)).

(** The runtime: whether it is ready, the counter of the early allocator, and the
    allocator with the poison flag of its mutex. *)
Record Runtime := mkRt { ready : bool; next : Z; inner : SlotAllocatorInner; poisoned : bool }.

Definition boot (next : Z) : Runtime := mkRt false next new false.

(** [SLOT_ALLOCATOR.inner.lock().unwrap()] around an operation.  After a panic the
    contents can no longer be reached. *)
Definition locked {A} (op : SlotAllocatorInner -> outcome (A * SlotAllocatorInner)) (r : Runtime) : outcome A * Runtime :=
  if poisoned r then (Panic, r)
  else match op (inner r) with
       | Ret (a, s) => (Ret a, mkRt (ready r) (next r) s false)
       | Panic => (Panic, mkRt (ready r) (next r) (inner r) true)
       | NoFuel => (NoFuel, r)
       end.

(** An operation that returns nothing. *)
Definition unit_op (op : SlotAllocatorInner -> outcome SlotAllocatorInner) (s : SlotAllocatorInner) :
    outcome (unit * SlotAllocatorInner) :=
  let! s' := op s in Ret (tt, s').

Definition early_slot_alloc (r : Runtime) : option Z * Runtime :=
  (Some (next r), mkRt (ready r) (wrap 64 (next r + 1)) (inner r) (poisoned r)).

Definition mark_slot_reserved (r : Runtime) (slot : Z) : outcome Runtime :=
  if next r <=? slot then
    let! n := chk 64 (slot + 1) in Ret (mkRt (ready r) n (inner r) (poisoned r))
  else Ret r.

Fixpoint set_range (n : nat) (i : Z) (s : SlotAllocatorInner) : outcome SlotAllocatorInner :=
  match n with
  | O => Ret s
  | S n => let! s' := set s i in set_range n (i + 1) s'
  end.

Definition init_slots (r : Runtime) : outcome unit * Runtime :=
  locked (unit_op (fun s => set_range (Z.to_nat (next r / 2 + 1)) 0 (Inner (pairs s) [] []))) r.

Definition set_runtime_ready (r : Runtime) : Runtime := mkRt true (next r) (inner r) (poisoned r).

Definition allocate_slot (r : Runtime) : outcome (option Z) * Runtime :=
  if ready r then locked alloc_single r
  else let (o, r') := early_slot_alloc r in (Ret o, r').

Definition release_slot (r : Runtime) (slot : Z) : outcome unit * Runtime :=
  if ready r then locked (unit_op (fun s => release_single s slot)) r else (Ret tt, r).

(** Before the runtime is ready, [allocate_pair] aborts. *)
Definition allocate_pair (r : Runtime) : outcome (option (Z * Z)) * Runtime :=
  if ready r then locked alloc_pair r else (Panic, r).

(** The assertion comes before the lock is taken. *)
Definition release_slot_pair (r : Runtime) (pair : Z * Z) : outcome unit * Runtime :=
  if ready r then
    match (let! b := chk 64 (pair.1 + 1) in rassert (b =? pair.2)) with
    | Ret _ => locked (unit_op (fun s => release_pair s pair.1)) r
    | Panic => (Panic, r)
    | NoFuel => (NoFuel, r)
    end
  else (Ret tt, r).

(** ** The bitmap *)
Hypothesis whole_bytes : 0 <= SLOTS <= 2 ^ 47 /\ SLOTS mod 16 = 0.

Definition taken (s : SlotAllocatorInner) (p : Z) : bool :=
  match pairs s !! Z.to_nat (p / 8) with Some b => Z.testbit b (p mod 8) | None => false end.

Definition pairs_ok (s : SlotAllocatorInner) : Prop :=
  length (pairs s) = Z.to_nat (SLOTS / 2 / 8) /\ Forall (fun b => 0 <= b < 256) (pairs s).

Definition in_pairs (p : Z) : Prop := 0 <= p < SLOTS / 2.

Lemma mask_pow p : mask p = 2 ^ (p mod 8).
Proof. unfold mask. rewrite Z.shiftl_mul_pow2 by (apply Z.mod_pos_bound; lia). lia. Qed.

Lemma byte_of_pair s p : pairs_ok s -> in_pairs p -> exists b, pairs s !! Z.to_nat (p / 8) = Some b /\ 0 <= b < 256.
Proof.
  intros [Hl Hb] Hp. unfold in_pairs in Hp.
  destruct (lookup_lt_is_Some_2 (pairs s) (Z.to_nat (p / 8))) as [b Eb]; [rewrite Hl; lia|].
  exists b. split; [done|]. by eapply Forall_lookup_1 in Hb.
Qed.

Lemma test_spec s p : pairs_ok s -> in_pairs p -> test s p = Ret (taken s p).
Proof.
  intros Hs Hp. destruct (byte_of_pair s p Hs Hp) as (b & Eb & _). unfold test, taken. rewrite Eb. cbn.
  rewrite mask_pow, land_bit by (apply Z.mod_pos_bound; lia). by rewrite negb_involutive.
Qed.

(** Changing the bit of one pair leaves those of the others. *)
Lemma update_byte_spec f s p v : pairs_ok s -> in_pairs p ->
  (forall b, 0 <= b < 256 -> 0 <= f b < 256 /\
     forall j, 0 <= j < 8 -> Z.testbit (f b) j = if bool_decide (j = p mod 8) then v else Z.testbit b j) ->
  exists s', update_byte f s p = Ret s' /\ pairs_ok s' /\ singles s' = singles s /\ singles_aux s' = singles_aux s /\
    forall q, in_pairs q -> taken s' q = if bool_decide (q = p) then v else taken s q.
Proof.
  intros Hs Hp Hf. destruct (byte_of_pair s p Hs Hp) as (b & Eb & Hb). destruct (Hf b Hb) as [Hr Hbits].
  unfold update_byte. rewrite Eb. cbn [unwrap obind]. eexists. split; [done|]. cbn. split_and!; try done.
  - destruct Hs as [Hl Hb']. split; cbn; [by rewrite length_insert|]. by apply Forall_insert.
  - intros q Hq. unfold taken. cbn [pairs]. unfold in_pairs in *.
    pose proof (Z.mod_pos_bound q 8 eq_refl). pose proof (Z.mod_pos_bound p 8 eq_refl).
    destruct (decide (q / 8 = p / 8)) as [E|E].
    + rewrite E, list_lookup_insert_eq by (by eapply lookup_lt_Some). rewrite Eb, Hbits by done.
      pose proof (Z.div_mod q 8 ltac:(done)). pose proof (Z.div_mod p 8 ltac:(done)).
      case_bool_decide; case_bool_decide; try done; lia.
    + rewrite list_lookup_insert_ne by lia. rewrite bool_decide_eq_false_2 by (intros ->; done). done.
Qed.

Lemma byte_range b : (forall j, 8 <= j -> Z.testbit b j = false) -> 0 <= b -> 0 <= b < 256.
Proof.
  intros Hj Hb. split; [done|]. destruct (decide (b = 0)) as [->|]; [done|].
  apply Z.log2_lt_cancel. replace (Z.log2 256) with 8 by done.
  destruct (Z.lt_ge_cases (Z.log2 b) 8) as [|Hge]; [done|].
  specialize (Hj _ Hge). by rewrite Z.bit_log2 in Hj by lia.
Qed.

Lemma byte_high b j : 0 <= b < 256 -> 8 <= j -> Z.testbit b j = false.
Proof. intros Hb Hj. rewrite <- (Z.mod_small b (2 ^ 8)) by lia. by apply Z.mod_pow2_bits_high. Qed.

Lemma set_spec s p : pairs_ok s -> in_pairs p ->
  exists s', set s p = Ret s' /\ pairs_ok s' /\ singles s' = singles s /\ singles_aux s' = singles_aux s /\
    forall q, in_pairs q -> taken s' q = if bool_decide (q = p) then true else taken s q.
Proof.
  intros Hs Hp. apply update_byte_spec; [done..|]. intros b Hb. pose proof (Z.mod_pos_bound p 8 eq_refl).
  rewrite mask_pow. assert (forall j, Z.testbit (Z.lor b (2 ^ (p mod 8))) j = Z.testbit b j || bool_decide (p mod 8 = j)) as E
    by (intros j; apply testbit_lor_bit; lia).
  split.
  - apply byte_range; [|apply Z.lor_nonneg; lia]. intros j Hj.
    rewrite E, byte_high, bool_decide_eq_false_2 by lia. done.
  - intros j Hj. rewrite E. do 2 case_bool_decide; subst; try done; [apply orb_true_r|apply orb_false_r].
Qed.

Lemma clear_spec s p : pairs_ok s -> in_pairs p ->
  exists s', clear s p = Ret s' /\ pairs_ok s' /\ singles s' = singles s /\ singles_aux s' = singles_aux s /\
    forall q, in_pairs q -> taken s' q = if bool_decide (q = p) then false else taken s q.
Proof.
  intros Hs Hp. apply update_byte_spec; [done..|]. intros b Hb. pose proof (Z.mod_pos_bound p 8 eq_refl).
  rewrite mask_pow.
  assert (forall j, 0 <= j -> Z.testbit (Z.land b (Z.lxor (2 ^ (p mod 8)) 255)) j = Z.testbit b j && xorb (bool_decide (p mod 8 = j)) (Z.testbit 255 j)) as E.
  { intros j Hj. rewrite Z.land_spec, Z.lxor_spec, Z.pow2_bits_eqb by lia. do 2 f_equal.
    by destruct (Z.eqb_spec (p mod 8) j), (bool_decide_reflect (p mod 8 = j)). }
  assert (forall j, 0 <= j < 8 -> Z.testbit 255 j = true) as E8.
  { intros j Hj. change 255 with (Z.ones 8). apply Z.ones_spec_low. lia. }
  split.
  - apply byte_range; [|apply Z.land_nonneg; lia]. intros j Hj. by rewrite E, byte_high by lia.
  - intros j Hj. rewrite E, E8 by lia. do 2 case_bool_decide; subst; try done; [apply andb_false_r|apply andb_true_r].
Qed.

(** ** Allocation *)
Definition no_free_pair (s : SlotAllocatorInner) : Prop := forall k, in_pairs k -> taken s k = true.

(** [s'] is [s] with pair [q], free before, taken. *)
Definition took (s s' : SlotAllocatorInner) (q : Z) : Prop :=
  in_pairs q /\ taken s q = false /\ pairs_ok s' /\ singles s' = singles s /\ singles_aux s' = singles_aux s /\
  forall k, in_pairs k -> taken s' k = if bool_decide (k = q) then true else taken s k.

Lemma alloc_pair_loop_spec n p s : pairs_ok s -> 0 <= p -> p + Z.of_nat n = SLOTS / 2 ->
  (forall k, 0 <= k < p -> taken s k = true) ->
  (exists q s', alloc_pair_loop n p s = Ret (Some (q * 2, q * 2 + 1), s') /\ took s s' q) \/
  (alloc_pair_loop n p s = Ret (None, s) /\ no_free_pair s).
Proof.
  intros Hs. revert p. induction n as [|n IH]; intros p Hp Hn Hk; cbn.
  { right. split; [done|]. intros k Hin. apply Hk. unfold in_pairs in Hin. lia. }
  assert (in_pairs p) as Hin by (unfold in_pairs; lia). rewrite test_spec by done. cbn.
  destruct (taken s p) eqn:Et; cbn.
  - apply IH; [lia..|]. intros k Hk'. destruct (decide (k = p)) as [->|]; [done|apply Hk; lia].
  - left. destruct (set_spec s p Hs Hin) as (s' & -> & Hs' & Hsi & Ha & Ht). exists p, s'. done.
Qed.

Lemma alloc_pair_spec s : pairs_ok s ->
  (exists q s', alloc_pair s = Ret (Some (q * 2, q * 2 + 1), s') /\ took s s' q) \/
  (alloc_pair s = Ret (None, s) /\ no_free_pair s).
Proof. intros Hs. apply alloc_pair_loop_spec; [done|lia..]. Qed.

Lemma last_removelast (l : list Z) x : last l = Some x -> l = removelast l ++ [x].
Proof.
  intros Hl. apply last_Some in Hl as [l' ->]. by rewrite removelast_last.
Qed.

(** ** Collecting pairs *)
Definition has_pair (l : list Z) : Prop := exists x, x mod 2 = 0 /\ x ∈ l /\ x + 1 ∈ l.

Lemma pair_firsts_split l pf r : pair_firsts l = pf :: r -> exists pre post, l = pre ++ pf :: (pf + 1) :: post /\ pf mod 2 = 0.
Proof.
  induction l as [|a [|b l] IH]; cbn -[Z.modulo Z.eqb]; [done..|].
  destruct ((a mod 2 =? 0) && (b =? a + 1)) eqn:E.
  - intros [= -> _]. apply andb_true_iff in E as [E1%Z.eqb_eq E2%Z.eqb_eq]. exists [], l. by subst.
  - intros Hr. destruct (IH Hr) as (pre & post & -> & He). by exists (a :: pre), post.
Qed.

Lemma pair_firsts_nil l : StronglySorted Z.le l -> NoDup l -> pair_firsts l = [] -> ~ has_pair l.
Proof.
  intros Hs Hn. induction l as [|a [|b l] IH].
  - intros _ (x & _ & Hx & _). by apply not_elem_of_nil in Hx.
  - intros _ (x & _ & Hx%list_elem_of_singleton & Hy%list_elem_of_singleton). lia.
  - cbn -[Z.modulo Z.eqb]. inversion Hs as [|? ? Hs' Ha]; subst. inversion Hn as [|? ? Hna Hn']; subst.
    destruct ((a mod 2 =? 0) && (b =? a + 1)) eqn:E; [done|]. intros Hp (x & Hx2 & Hx & Hy).
    rewrite Forall_forall in Ha. apply elem_of_cons in Hy as [Hy|Hy].
    { apply elem_of_cons in Hx as [->|Hx]; [lia|]. apply Ha in Hx. lia. }
    apply elem_of_cons in Hx as [->|Hx]; [|by apply IH; try done; exists x].
    assert (b <> a) by (intros ->; apply Hna; left).
    assert (a <= b) by (apply Ha; left).
    assert (b <= a + 1) as Hb.
    { inversion Hs' as [|? ? _ Hb]; subst. rewrite Forall_forall in Hb. apply elem_of_cons in Hy as [->|Hy]; [done|by apply Hb]. }
    rewrite (proj2 (Z.eqb_eq _ _) Hx2), (proj2 (Z.eqb_eq b (a + 1))) in E by lia. done.
Qed.

Lemma binary_search_spec pre x post : NoDup (pre ++ x :: post) -> binary_search (pre ++ x :: post) x = Some (length pre).
Proof.
  intros Hn. unfold binary_search.
  assert (list_find (fun y => y = x) (pre ++ x :: post) = Some (length pre, x)) as ->; [|done].
  apply list_find_Some. split; [by rewrite list_lookup_middle|]. split; [done|].
  intros j y Hy Hj ->. rewrite lookup_app_l in Hy by done. apply NoDup_app in Hn as (_ & Hd & _).
  apply (Hd x); [by eapply list_elem_of_lookup_2|left].
Qed.

(** The second [remove] of a pair takes the element after it: the collection fails at the
    first pair. *)
Lemma free_pairs_panics aux s pf pre post : singles s = pre ++ pf :: (pf + 1) :: post -> NoDup (singles s) ->
  free_pairs (pf :: aux) s = Panic.
Proof.
  intros Hs Hn. cbn [free_pairs]. rewrite Hs in *. rewrite binary_search_spec by done. cbn [unwrap obind].
  unfold vec_remove. rewrite list_lookup_middle by done. cbn [unwrap obind].
  rewrite delete_middle, lookup_app_r by lia.
  replace (length pre + 1 - length pre)%nat with 1%nat by lia. destruct post as [|c post]; [done|]. cbn.
  replace (pf + 1 =? c) with false; [done|]. symmetry. apply Z.eqb_neq. intros <-.
  apply NoDup_app in Hn as (_ & _ & Hn). inversion Hn as [|? ? _ Hn2]; subst. inversion Hn2 as [|? ? Hx _]; subst.
  apply Hx. left.
Qed.

(** A collection leaves the bitmap alone or panics, and it panics exactly when there is a
    pair to give back. *)
Lemma maybe_gc_spec s : NoDup (singles s) ->
  (HIGH_WATERMARK <= zlen (singles s) /\ has_pair (singles s) /\ maybe_gc_singles s = Panic) \/
  (~ (HIGH_WATERMARK <= zlen (singles s) /\ has_pair (singles s)) /\
   exists s', maybe_gc_singles s = Ret s' /\ pairs s' = pairs s /\ singles s' ≡ₚ singles s /\
     (s' = s \/ singles_aux s' = [])).
Proof.
  intros Hn. unfold maybe_gc_singles. destruct (Z.ltb_spec (zlen (singles s)) HIGH_WATERMARK) as [Hlt|Hge].
  { right. split; [lia|]. exists s. by repeat split; [..|left]. }
  set (l := merge_sort Z.le (singles s)).
  assert (l ≡ₚ singles s) as Hp by apply merge_sort_Permutation.
  assert (NoDup l) as Hnl by (by rewrite Hp).
  assert (StronglySorted Z.le l) as Hsl by (apply (StronglySorted_merge_sort Z.le); unfold Total; lia).
  destruct (pair_firsts l) as [|pf r] eqn:Ef; [right|left].
  - split; [|eexists; split; [done|]; cbn; eauto]. intros [_ (x & Hx & H1 & H2)].
    apply (pair_firsts_nil l); [done..|]. exists x. by rewrite !Hp.
  - destruct (pair_firsts_split _ _ _ Ef) as (pre & post & El & He). split; [done|]. split.
    + exists pf. rewrite <- !Hp, El. split; [done|]. split; apply elem_of_app; right; [left|right; left].
    + by apply free_pairs_panics with pre post.
Qed.

(** ** Ownership

    [held] are the slots and [held_pairs] the pairs given out and not released. *)
Record slot_inv (s : SlotAllocatorInner) (held held_pairs : gset Z) : Prop := {
  si_pairs : pairs_ok s;
  si_nodup : NoDup (singles s);
  si_free : forall x, x ∈ singles s -> x ∉ held;
  si_slot : forall x, x ∈ singles s \/ x ∈ held -> 0 <= x < SLOTS /\ taken s (x / 2) = true /\ x / 2 ∉ held_pairs;
  si_pair : forall p, p ∈ held_pairs -> in_pairs p /\ taken s p = true;
  si_aux : zlen (singles_aux s) = 0
}.

Definition unowned (x : Z) (held held_pairs : gset Z) : Prop := 0 <= x < SLOTS /\ (x ∉ held) /\ (x / 2 ∉ held_pairs).

Lemma slot_in_pairs x : 0 <= x < SLOTS -> in_pairs (x / 2).
Proof. unfold in_pairs. lia. Qed.

(** A pair just taken is nobody's. *)
Lemma took_unowned s s' q h hp x : slot_inv s h hp -> took s s' q -> x / 2 = q -> unowned x h hp /\ x ∉ singles s.
Proof.
  intros Hi (Hq & Hf & _) Hx. subst q. assert (forall y, y / 2 = x / 2 -> ~ (y ∈ singles s \/ y ∈ h)) as Hno.
  { intros y Ey Hy. apply (si_slot _ _ _ Hi) in Hy as (_ & Ht & _). rewrite Ey in Ht. congruence. }
  pose proof (Hno x eq_refl). unfold in_pairs in Hq. split; [split_and!; [lia..|tauto|]|tauto].
  intros Hp%(si_pair _ _ _ Hi). destruct Hp. congruence.
Qed.

Lemma took_slot s s' q h hp x : slot_inv s h hp -> took s s' q -> x ∈ singles s \/ x ∈ h ->
  0 <= x < SLOTS /\ taken s' (x / 2) = true /\ (x / 2 ∉ hp) /\ x / 2 <> q.
Proof.
  intros Hi (Hq & Hf & _ & _ & _ & Ht) Hx. destruct (si_slot _ _ _ Hi x Hx) as (Hr & Htx & Hn).
  split; [done|]. split; [|split; [done|congruence]]. rewrite Ht by (by apply slot_in_pairs). by case_bool_decide.
Qed.

Lemma alloc_pair_inv s h hp : slot_inv s h hp ->
  (exists q s', alloc_pair s = Ret (Some (q * 2, q * 2 + 1), s') /\
     unowned (q * 2) h hp /\ unowned (q * 2 + 1) h hp /\ slot_inv s' h ({[q]} ∪ hp)) \/
  (alloc_pair s = Ret (None, s) /\ no_free_pair s).
Proof.
  intros Hi. destruct (alloc_pair_spec s (si_pairs _ _ _ Hi)) as [(q & s' & -> & Ht)|]; [left|by right].
  exists q, s'. split; [done|]. destruct (took_unowned s s' q h hp (q * 2) Hi Ht ltac:(lia)) as [H1 _].
  destruct (took_unowned s s' q h hp (q * 2 + 1) Hi Ht ltac:(lia)) as [H2 _]. split; [done|]. split; [done|].
  pose proof Ht as (Hq & Hf & Hok & Hs & Ha & Hb). split; rewrite ?Hs, ?Ha; try apply Hi; [done|..].
  - intros x Hx. destruct (took_slot s s' q h hp x Hi Ht Hx) as (? & ? & ? & ?). set_solver.
  - intros p [->%elem_of_singleton|Hp]%elem_of_union; [split; [done|by rewrite Hb, bool_decide_eq_true_2]|].
    apply (si_pair _ _ _ Hi) in Hp as [Hp Htp]. split; [done|]. rewrite Hb by done. by case_bool_decide.
Qed.

Lemma alloc_single_inv s h hp : slot_inv s h hp ->
  (exists x s', alloc_single s = Ret (Some x, s') /\ unowned x h hp /\ slot_inv s' ({[x]} ∪ h) hp) \/
  (alloc_single s = Ret (None, s) /\ no_free_pair s /\ singles s = []).
Proof.
  intros Hi. unfold alloc_single. destruct (last (singles s)) as [x|] eqn:El; [left|].
  - pose proof (last_removelast _ _ El) as Es. set (l := removelast (singles s)) in *.
    pose proof (si_nodup _ _ _ Hi) as Hn. rewrite Es in Hn. apply NoDup_app in Hn as (Hn & Hd & _).
    assert (x ∉ l) as Hx by (intros Hx; apply (Hd x Hx); left).
    assert (x ∈ singles s) as Hin by (rewrite Es; apply elem_of_app; right; left).
    assert (forall y, y ∈ l -> y ∈ singles s) as Hl by (intros y Hy; rewrite Es; apply elem_of_app; by left).
    destruct (si_slot _ _ _ Hi x (or_introl Hin)) as (Hr & Ht & Hp). exists x. eexists. split; [done|].
    split; [split; [done|split; [by apply (si_free _ _ _ Hi)|done]]|]. split; cbn; try apply Hi; [done|..].
    + intros y Hy. pose proof (si_free _ _ _ Hi y (Hl y Hy)). assert (y <> x) by congruence. set_solver.
    + intros y Hy. apply (si_slot _ _ _ Hi). destruct Hy as [Hy|[->%elem_of_singleton|Hy]%elem_of_union]; auto.
  - apply last_None in El. destruct (alloc_pair_spec s (si_pairs _ _ _ Hi)) as [(q & s' & -> & Ht)|[-> Hf]]; [left|by right].
    exists (q * 2 + 1). eexists. split; [done|]. pose proof Ht as (Hq & Hf & Hok & Hs & Ha & Hb).
    destruct (took_unowned s s' q h hp (q * 2) Hi Ht ltac:(lia)) as [(H1 & H1h & H1p) _].
    destruct (took_unowned s s' q h hp (q * 2 + 1) Hi Ht ltac:(lia)) as [(H2 & H2h & H2p) _].
    split; [done|]. rewrite El in Hs. split; cbn; rewrite ?Hs, ?Ha; cbn; try apply Hi; [done|..].
    + apply NoDup_singleton.
    + intros x ->%list_elem_of_singleton. assert (q * 2 <> q * 2 + 1) by lia. set_solver.
    + assert (taken s' q = true) as Htq by (by rewrite Hb, bool_decide_eq_true_2).
      intros x [->%list_elem_of_singleton|[->%elem_of_singleton|Hx]%elem_of_union].
      * split_and!; try done; [lia..|]. change (taken s' (q * 2 / 2) = true). by replace (q * 2 / 2) with q by lia.
      * split_and!; try done; [lia..|]. change (taken s' ((q * 2 + 1) / 2) = true). by replace ((q * 2 + 1) / 2) with q by lia.
      * by destruct (took_slot s s' q h hp x Hi Ht (or_intror Hx)) as (? & ? & ? & ?).
    + intros p Hp. pose proof Hp as [Hpi Htp]%(si_pair _ _ _ Hi). split; [done|]. change (taken s' p = true). rewrite Hb by done. by case_bool_decide.
Qed.

(** Releasing a slot, then collecting. *)
Definition collects_pair (s : SlotAllocatorInner) (x : Z) : Prop :=
  HIGH_WATERMARK <= zlen (singles s) + 1 /\ has_pair (singles s ++ [x]).

Lemma release_single_inv s h hp x : slot_inv s h hp -> x ∈ h ->
  (collects_pair s x /\ release_single s x = Panic) \/
  (~ collects_pair s x /\ exists s', release_single s x = Ret s' /\ slot_inv s' (h ∖ {[x]}) hp).
Proof.
  intros Hi Hx. assert (NoDup (singles s ++ [x])) as Hn.
  { apply NoDup_app. split; [apply Hi|]. split; [|apply NoDup_singleton].
    intros y Hy ->%list_elem_of_singleton. by apply (si_free _ _ _ Hi x Hy). }
  destruct (maybe_gc_spec (Inner (pairs s) (singles s ++ [x]) (singles_aux s)) Hn) as [(H1 & H2 & E)|(Hno & s' & E & Ep & Hp & Ha)];
    unfold release_single, collects_pair; cbn in *; rewrite zlen_app in *; [by left|right].
  split; [done|]. exists s'. split; [done|].
  assert (forall p, taken s' p = taken s p) as Ht by (intros p; unfold taken; by rewrite Ep).
  split; [unfold pairs_ok; rewrite Ep; apply Hi|by rewrite Hp|..].
  - intros y. rewrite Hp, elem_of_app. intros [Hy| ->%list_elem_of_singleton]; [|set_solver].
    apply (si_free _ _ _ Hi) in Hy. set_solver.
  - intros y Hy. rewrite Ht. apply (si_slot _ _ _ Hi). rewrite Hp, elem_of_app in Hy.
    destruct Hy as [[Hy| ->%list_elem_of_singleton]|Hy]; [by left|by right|right; set_solver].
  - intros p. rewrite Ht. apply Hi.
  - destruct Ha as [-> | ->]; [apply Hi|done].
Qed.

Lemma release_pair_inv s h hp p : slot_inv s h hp -> p ∈ hp ->
  exists s', release_pair s (p * 2) = Ret s' /\ slot_inv s' h (hp ∖ {[p]}).
Proof.
  intros Hi Hp. destruct (si_pair _ _ _ Hi p Hp) as [Hin _]. unfold release_pair.
  replace (p * 2 mod 2 =? 0) with true by lia. cbn [rassert obind]. replace (p * 2 / 2) with p by lia.
  destruct (clear_spec s p (si_pairs _ _ _ Hi) Hin) as (s' & -> & Hok & Es & Ea & Ht). exists s'. split; [done|].
  split; rewrite ?Es, ?Ea; try apply Hi; [done|..].
  - intros x Hx. destruct (si_slot _ _ _ Hi x Hx) as (Hr & Htx & Hnx). split; [done|]. split; [|set_solver].
    rewrite Ht by (by apply slot_in_pairs). rewrite bool_decide_eq_false_2 by (intros <-; done). done.
  - intros q [Hq Hne]%elem_of_difference. destruct (si_pair _ _ _ Hi q Hq) as [Hqi Hqt]. split; [done|].
    rewrite Ht, bool_decide_eq_false_2 by set_solver. done.
Qed.

(** The owner of a pair may release its slots one by one. *)
Lemma split_pair_inv s h hp p : slot_inv s h hp -> p ∈ hp -> slot_inv s ({[p * 2; p * 2 + 1]} ∪ h) (hp ∖ {[p]}).
Proof.
  intros Hi Hp. destruct (si_pair _ _ _ Hi p Hp) as [Hin Htp]. unfold in_pairs in Hin.
  split; try apply Hi.
  - intros x Hx. pose proof (si_free _ _ _ Hi x Hx). destruct (si_slot _ _ _ Hi x (or_introl Hx)) as (_ & _ & Hnx).
    assert (x / 2 <> p) by (intros <-; done). assert (x <> p * 2) by lia. assert (x <> p * 2 + 1) by lia. set_solver.
  - intros x Hx. destruct (decide (x / 2 = p)) as [<-|Hne]; [split; [lia|split; [done|set_solver]]|].
    assert (x <> p * 2) by lia. assert (x <> p * 2 + 1) by lia.
    destruct (si_slot _ _ _ Hi x) as (Hr & Ht & Hn); [set_solver|]. split; [done|split; [done|set_solver]].
  - intros q [Hq _]%elem_of_difference. by apply (si_pair _ _ _ Hi).
Qed.

(** ** The runtime *)
Lemma set_range_spec n i s s' : pairs_ok s -> 0 <= i -> singles_aux s = [] -> singles s = [] -> set_range n i s = Ret s' ->
  pairs_ok s' /\ singles s' = [] /\ singles_aux s' = [] /\
  (n = 0%nat \/ i + Z.of_nat n <= SLOTS / 2) /\
  forall q, in_pairs q -> taken s' q = taken s q || ((i <=? q) && (q <? i + Z.of_nat n)).
Proof.
  revert i s. induction n as [|n IH]; intros i s Hs Hi Ha Hsi; cbn [set_range].
  { intros [= <-]. split; [done|]. split; [done|]. split; [done|]. split; [by left|]. intros q _.
    destruct (Z.leb_spec i q), (Z.ltb_spec q (i + Z.of_nat 0)); try lia; by rewrite orb_false_r. }
  destruct (decide (i < SLOTS / 2)) as [Hlt|Hge].
  - destruct (set_spec s i Hs) as (s1 & -> & Hs1 & Es & Ea & Ht); [done|]. cbn [obind]. intros E.
    apply IH in E as (H1 & H2 & H3 & H4 & H5); [|done|lia|congruence..]. split_and!; try done; [right; lia|].
    intros q Hq. rewrite H5, Ht by done. case_bool_decide as Eq.
    + destruct (Z.leb_spec i q), (Z.ltb_spec q (i + Z.of_nat (S n))); try lia.
    + f_equal. destruct (Z.leb_spec i q), (Z.leb_spec (i + 1) q), (Z.ltb_spec q (i + 1 + Z.of_nat n)), (Z.ltb_spec q (i + Z.of_nat (S n))); try done; lia.
  - unfold set, update_byte. rewrite lookup_ge_None_2; [done|]. rewrite (proj1 Hs). lia.
Qed.

Lemma new_ok : pairs_ok (Inner (pairs new) [] []).
Proof. split; cbn; [by rewrite length_replicate|]. apply Forall_replicate. lia. Qed.

(** The slots of the early allocator stay with their owners. *)
Lemma init_slots_inv n r0 (h : gset Z) : 0 <= n -> init_slots (boot n) = (Ret tt, r0) ->
  (forall x, x ∈ h -> 0 <= x < n) -> poisoned r0 = false /\ slot_inv (inner r0) h ∅.
Proof.
  intros Hn E Hh. unfold init_slots, locked, unit_op in E. cbn [poisoned boot inner next] in E.
  destruct (set_range _ _ _) as [s| |] eqn:Es; cbn [obind] in E; [|done..]. injection E as <-. cbn.
  apply set_range_spec in Es as (Hok & H1 & H2 & H3 & H4); [|apply new_ok|lia|done..]. split; [done|].
  assert (0 <= n / 2) as Hn2 by (apply Z.div_pos; lia). rewrite Z2Nat.id in H3, H4 by lia.
  assert (n / 2 + 1 <= SLOTS / 2) as Hfit by (destruct H3 as [H3|H3]; lia). clear H3.
  split; rewrite ?H1, ?H2; [done|apply NoDup_nil_2|by intros x ?%not_elem_of_nil| |by intros p ?%not_elem_of_empty|done].
  intros x [Hx|Hx]; [by apply not_elem_of_nil in Hx|]. apply Hh in Hx.  split; [lia|]. split; [|apply not_elem_of_empty].
  rewrite H4 by (unfold in_pairs; lia). apply orb_true_iff. right. lia.
Qed.

(** Owners use the runtime: a state is the runtime with the slots and pairs given out. *)
Inductive use : relation (Runtime * gset Z * gset Z) :=
| use_slot r h hp x r' : allocate_slot r = (Ret (Some x), r') -> use (r, h, hp) (r', {[x]} ∪ h, hp)
| use_no_slot r h hp r' : allocate_slot r = (Ret None, r') -> use (r, h, hp) (r', h, hp)
| use_pair r h hp a b r' : allocate_pair r = (Ret (Some (a, b)), r') -> use (r, h, hp) (r', h, {[a / 2]} ∪ hp)
| use_no_pair r h hp r' : allocate_pair r = (Ret None, r') -> use (r, h, hp) (r', h, hp)
| use_release r h hp x o r' : x ∈ h -> release_slot r x = (o, r') -> use (r, h, hp) (r', h ∖ {[x]}, hp)
| use_release_pair r h hp p o r' : p ∈ hp -> release_slot_pair r (p * 2, p * 2 + 1) = (o, r') -> use (r, h, hp) (r', h, hp ∖ {[p]})
| use_split r h hp p : p ∈ hp -> use (r, h, hp) (r, {[p * 2; p * 2 + 1]} ∪ h, hp ∖ {[p]}).

Definition rt_inv (st : Runtime * gset Z * gset Z) : Prop :=
  let '(r, h, hp) := st in ready r = true /\ (poisoned r = false -> slot_inv (inner r) h hp).

Lemma locked_poisoned {A} op r : poisoned r = true -> @locked A op r = (Panic, r).
Proof. intros Hp. unfold locked. by rewrite Hp. Qed.

Lemma locked_ret {A} op r a r' : @locked A op r = (Ret a, r') ->
  exists s, poisoned r = false /\ op (inner r) = Ret (a, s) /\ r' = mkRt (ready r) (next r) s false.
Proof.
  unfold locked. destruct (poisoned r); [done|]. destruct (op (inner r)) as [[a' s]| |] eqn:E; [|done..].
  intros [= <- <-]. by exists s.
Qed.

Lemma locked_ready {A} op r o r' : @locked A op r = (o, r') -> ready r' = ready r.
Proof. unfold locked. destruct (poisoned r); [by intros [= _ <-]|]. by destruct (op (inner r)) as [[? ?]| |]; intros [= _ <-]. Qed.

Lemma locked_alive {A} op r o r' : @locked A op r = (o, r') -> poisoned r' = false ->
  poisoned r = false /\ ((exists a s, op (inner r) = Ret (a, s) /\ inner r' = s) \/ (op (inner r) = NoFuel /\ r' = r)).
Proof.
  unfold locked. destruct (poisoned r) eqn:Ep; [by intros [= _ <-]; congruence|].
  destruct (op (inner r)) as [[a s]| |] eqn:E; intros [= _ <-]; cbn; [|done|]; intros _; (split; [done|]); [left|right]; eauto.
Qed.

Lemma use_inv st st' : rt_inv st -> use st st' -> rt_inv st'.
Proof.
  intros Hi Hu. destruct Hu as [r h hp x r' E|r h hp r' E|r h hp a b r' E|r h hp r' E|r h hp x o r' Hx E|r h hp p o r' Hp E|r h hp p Hp];
    destruct Hi as [Hr Hi].
  - unfold allocate_slot in E. rewrite Hr in E. apply locked_ret in E as (s & Hp & E & ->). split; [done|]. intros _. cbn.
    destruct (alloc_single_inv _ _ _ (Hi Hp)) as [(y & s' & E' & _ & Hs)|[E' _]]; congruence.
  - unfold allocate_slot in E. rewrite Hr in E. apply locked_ret in E as (s & Hp & E & ->). split; [done|]. intros _. cbn.
    destruct (alloc_single_inv _ _ _ (Hi Hp)) as [(y & s' & E' & _ & Hs)|[E' _]]; [congruence|].
    rewrite E' in E. injection E as <-. by apply Hi.
  - unfold allocate_pair in E. rewrite Hr in E. apply locked_ret in E as (s & Hp & E & ->). split; [done|]. intros _. cbn.
    destruct (alloc_pair_inv _ _ _ (Hi Hp)) as [(q & s' & E' & _ & _ & Hs)|[E' _]]; [|congruence].
    rewrite E' in E. injection E as <- <- <-. by replace (q * 2 / 2) with q by lia.
  - unfold allocate_pair in E. rewrite Hr in E. apply locked_ret in E as (s & Hp & E & ->). split; [done|]. intros _. cbn.
    destruct (alloc_pair_inv _ _ _ (Hi Hp)) as [(q & s' & E' & _)|[E' _]]; [congruence|].
    rewrite E' in E. injection E as <-. by apply Hi.
  - unfold release_slot in E. rewrite Hr in E. split; [by erewrite locked_ready|]. intros Ha.
    destruct (locked_alive _ _ _ _ E Ha) as [Hp Hc]. unfold unit_op in Hc.
    destruct (release_single_inv _ _ _ _ (Hi Hp) Hx) as [[_ E']|[_ (s' & E' & Hs)]]; rewrite E' in Hc; cbn in Hc.
    + destruct Hc as [(? & ? & ? & ?)|[? ?]]; done.
    + destruct Hc as [(a & s & [= <- <-] & ->)|[? ?]]; done.
  - unfold release_slot_pair in E. rewrite Hr in E. cbn [fst snd] in E.
    destruct (decide (poisoned r' = true)) as [Hd|Ha%not_true_is_false].
    { split; [|congruence]. destruct (obind _ _) in E; [by erewrite locked_ready|by injection E as _ <-..]. }
    destruct (poisoned r) eqn:Hp0.
    { destruct (obind _ _) in E; [rewrite locked_poisoned in E by done|..]; injection E as _ <-; congruence. }
    destruct (si_pair _ _ _ (Hi eq_refl) p Hp) as [Hin _]. unfold in_pairs in Hin.
    rewrite chk_in in E by lia. cbn [obind] in E. rewrite Z.eqb_refl in E. cbn [rassert] in E.
    split; [by erewrite locked_ready|]. intros _. destruct (locked_alive _ _ _ _ E Ha) as [_ Hc]. unfold unit_op in Hc.
    destruct (release_pair_inv _ _ _ _ (Hi eq_refl) Hp) as (s' & E' & Hs). rewrite E' in Hc. cbn in Hc.
    destruct Hc as [(a & s & [= <- <-] & ->)|[? ?]]; done.
  - split; [done|]. intros Ha. apply split_pair_inv; auto.
Qed.

Lemma singles_capacity s h hp : slot_inv s h hp -> zlen (singles s) <= SINGLES_CAPACITY.
Proof.
  intros Hi. unfold zlen, SINGLES_CAPACITY. enough (length (singles s) <= length (seqZ 0 SLOTS))%nat as Hle.
  { rewrite length_seqZ in Hle. lia. }
  apply submseteq_length, NoDup_submseteq; [apply Hi|]. intros x Hx. apply elem_of_seqZ.
  destruct (si_slot _ _ _ Hi x (or_introl Hx)) as [? _]. lia.
Qed.

Lemma slots_reachable n r0 h0 st : 0 <= n -> init_slots (boot n) = (Ret tt, r0) -> (forall x, x ∈ h0 -> 0 <= x < n) ->
  rtc use (set_runtime_ready r0, h0, ∅) st -> rt_inv st.
Proof.
  intros Hn E Hh. apply rtc_invariant; [|exact use_inv]. split; [done|]. intros _. by destruct (init_slots_inv n r0 h0 Hn E Hh).
Qed.

(** Whatever its users do with the slots they own after the early phase gave out
    slots below [n], an allocation by the runtime neither panics nor gives out a slot or
    a half of a pair that somebody owns, it fails only when every pair is taken and no
    single slot is left, pairs are adjacent and aligned, and the vectors stay within the
    memory reserved for them; only a panic in a release ends this. *)
Theorem slots_exclusive n r0 h0 r h hp : 0 <= n -> init_slots (boot n) = (Ret tt, r0) ->
  (forall x, x ∈ h0 -> 0 <= x < n) -> rtc use (set_runtime_ready r0, h0, ∅) (r, h, hp) -> poisoned r = false ->
  ((exists x r', allocate_slot r = (Ret (Some x), r') /\ unowned x h hp) \/
   (exists r', allocate_slot r = (Ret None, r') /\ no_free_pair (inner r) /\ singles (inner r) = [])) /\
  ((exists a b r', allocate_pair r = (Ret (Some (a, b)), r') /\ a mod 2 = 0 /\ b = a + 1 /\ unowned a h hp /\ unowned b h hp) \/
   (exists r', allocate_pair r = (Ret None, r') /\ no_free_pair (inner r))) /\
  zlen (singles (inner r)) <= SINGLES_CAPACITY /\ zlen (singles_aux (inner r)) <= SINGLES_CAPACITY.
Proof.
  intros Hn E Hh Hu Hp. destruct (slots_reachable _ _ _ _ Hn E Hh Hu) as [Hr Hi]. specialize (Hi Hp).
  unfold allocate_slot, allocate_pair, locked. rewrite Hr, Hp. split; [|split].
  - destruct (alloc_single_inv _ _ _ Hi) as [(x & s' & -> & Hx & _)|(-> & Hf & Hs)]; [left|right]; eauto.
  - destruct (alloc_pair_inv _ _ _ Hi) as [(q & s' & -> & H1 & H2 & _)|(-> & Hf)]; [left|right]; [|eauto].
    exists (q * 2), (q * 2 + 1). eexists. split; [done|]. split; [lia|done].
  - split; [by eapply singles_capacity|]. rewrite (si_aux _ _ _ Hi). unfold SINGLES_CAPACITY. lia.
Qed.

(** Releasing an owned slot panics exactly when a collection is due and the single
    slots then include both halves of a pair, which is what the collection is for; the
    mutex is then poisoned and every later operation panics. *)
Theorem release_panics_exactly n r0 h0 r h hp x : 0 <= n -> init_slots (boot n) = (Ret tt, r0) ->
  (forall x, x ∈ h0 -> 0 <= x < n) -> rtc use (set_runtime_ready r0, h0, ∅) (r, h, hp) -> poisoned r = false -> x ∈ h ->
  ((release_slot r x).1 = Panic <-> collects_pair (inner r) x) /\
  forall r', release_slot r x = (Panic, r') ->
    allocate_slot r' = (Panic, r') /\ allocate_pair r' = (Panic, r') /\ forall y, release_slot r' y = (Panic, r').
Proof.
  intros Hn E Hh Hu Hp Hx. destruct (slots_reachable _ _ _ _ Hn E Hh Hu) as [Hr Hi]. specialize (Hi Hp).
  unfold release_slot. rewrite Hr. split.
  - unfold locked, unit_op. rewrite Hp.
    by destruct (release_single_inv _ _ _ _ Hi Hx) as [[Hc ->]|[Hc (s' & -> & _)]]; split.
  - intros r' E'. assert (ready r' = true /\ poisoned r' = true) as [Hr' Hp'].
    { split; [by erewrite locked_ready|]. unfold locked in E'. rewrite Hp in E'.
      destruct (unit_op _ _) as [[? ?]| |] in E'; [done| |done]. by injection E' as <-. }
    unfold allocate_slot, allocate_pair. rewrite Hr'. split; [by apply locked_poisoned|]. split; [by apply locked_poisoned|].
    intros y. by apply locked_poisoned.
Qed.

(** ** The interface is met *)
Definition rt_good (r : Runtime) (h hp : gset Z) : Prop :=
  ready r = true /\ poisoned r = false /\ slot_inv (inner r) h hp.

#[export] Program Instance runtime_SlotService : SlotService Runtime := {
  ss_limit := SLOTS;
  ss_alloc := allocate_slot;
  ss_release := release_slot;
  ss_alloc_pair := allocate_pair;
  ss_release_pair := release_slot_pair;
  ss_good := rt_good
}.
Next Obligation.
  intros r h hp (Hr & Hp & Hi). unfold allocate_slot, locked. rewrite Hr, Hp.
  destruct (alloc_single_inv _ _ _ Hi) as [(x & s' & -> & (Hx & Hh & _) & Hs)|(-> & _)]; [left|right].
  - exists x. eexists. split; [done|]. split; [done|]. split; [done|]. done.
  - eexists. done.
Qed.
Next Obligation.
  intros r h hp (Hr & Hp & Hi). unfold allocate_pair, locked. rewrite Hr, Hp.
  destruct (alloc_pair_inv _ _ _ Hi) as [(q & s' & -> & ([Hx _] & Hh & Hq) & ([_ Hy] & Hh' & _) & Hs)|(-> & _)]; [left|right].
  - exists q. eexists. split; [done|]. replace (q * 2 / 2) with q in Hq by lia. done.
  - eexists. done.
Qed.
Next Obligation.
  intros r h hp x (Hr & Hp & Hi) Hx. unfold release_slot, locked. rewrite Hr, Hp.
  destruct (release_single_inv _ _ _ _ Hi Hx) as [[_ E]|[_ (s' & E & Hs)]]; unfold unit_op; rewrite E; [right|left]; by eexists.
Qed.
Next Obligation.
  intros r h hp q (Hr & Hp & Hi) Hq. destruct (si_pair _ _ _ Hi q Hq) as [Hin _]. unfold in_pairs in Hin.
  unfold release_slot_pair. rewrite Hr. cbn [fst snd]. rewrite chk_in by lia. cbn [obind]. rewrite Z.eqb_refl. cbn [rassert].
  unfold locked. rewrite Hp. destruct (release_pair_inv _ _ _ _ Hi Hq) as (s' & E & Hs).
  unfold unit_op. rewrite E. by eexists.
Qed.
Next Obligation.
  intros r h hp q (Hr & Hp & Hi) Hq. split; [done|]. split; [done|]. by apply split_pair_inv.
Qed.
End slots.

(** ** Examples

    A space of sixteen slots, collected from four free singles on: six slots of three
    pairs are taken, the odd ones released, then an even one. *)
Definition ex_size : Z := 2 ^ 43.

Definition ex_ready : Runtime := set_runtime_ready (init_slots (boot ex_size 1)).2.

Definition ex_take (r : Runtime) : Runtime := (allocate_slot ex_size r).2.

Definition ex_used : Runtime := Nat.iter 6 ex_take ex_ready.

Definition ex_released : Runtime :=
  (release_slot ex_size (release_slot ex_size (release_slot ex_size ex_used 3).2 5).2 7).2.

#[local] Instance ex_build : Build := true.

(** The slots of a GiB each of the real address space. *)
Lemma whole_bytes_gib : 0 <= SLOTS (2 ^ 30) <= 2 ^ 47 /\ SLOTS (2 ^ 30) mod 16 = 0.
Proof. by vm_compute. Qed.

Lemma ex_whole_bytes : 0 <= SLOTS ex_size <= 2 ^ 47 /\ SLOTS ex_size mod 16 = 0.
Proof. by vm_compute. Qed.

Lemma ex_take_step i x (h hp : gset Z) :
  allocate_slot ex_size (Nat.iter i ex_take ex_ready) = (Ret (Some x), Nat.iter (S i) ex_take ex_ready) ->
  use ex_size (Nat.iter i ex_take ex_ready, h, hp) (Nat.iter (S i) ex_take ex_ready, {[x]} ∪ h, hp).
Proof. apply use_slot. Qed.

Definition ex_held : gset Z := (({[6]} ∪ ({[7]} ∪ ({[4]} ∪ ({[5]} ∪ ({[2]} ∪ ({[3]} ∪ ∅)))))) ∖ {[3]} ∖ {[5]} ∖ {[7]}).

Lemma ex_reach : rtc (use ex_size) (ex_ready, ∅, ∅) (ex_released, ex_held, ∅).
Proof.
  eapply rtc_l; [apply (ex_take_step 0 3); by vm_compute|].
  eapply rtc_l; [apply (ex_take_step 1 2); by vm_compute|].
  eapply rtc_l; [apply (ex_take_step 2 5); by vm_compute|].
  eapply rtc_l; [apply (ex_take_step 3 4); by vm_compute|].
  eapply rtc_l; [apply (ex_take_step 4 7); by vm_compute|].
  eapply rtc_l; [apply (ex_take_step 5 6); by vm_compute|].
  eapply rtc_l; [eapply (use_release _ _ _ _ 3); [set_solver|apply surjective_pairing]|].
  eapply rtc_l; [eapply (use_release _ _ _ _ 5); [set_solver|apply surjective_pairing]|].
  eapply rtc_l; [eapply (use_release _ _ _ _ 7); [set_solver|apply surjective_pairing]|].
  apply rtc_refl.
Qed.

Lemma slots_exclusive_witness :
  (exists x r', allocate_slot ex_size ex_released = (Ret (Some x), r') /\ unowned ex_size x ex_held ∅) /\
  zlen (singles (inner ex_released)) <= SINGLES_CAPACITY ex_size.
Proof.
  destruct (slots_exclusive ex_size ex_whole_bytes 1 (init_slots (boot ex_size 1)).2 ∅ ex_released ex_held ∅) as ([Hs|Hs] & _ & Hc & _).
  - done.
  - by vm_compute.
  - by intros x ?%not_elem_of_empty.
  - apply ex_reach.
  - by vm_compute.
  - by split.
  - destruct Hs as (r' & E & _). by vm_compute in E.
Defined.

Lemma release_panics_exactly_witness :
  (release_slot ex_size ex_released 2).1 = Panic /\
  forall r', release_slot ex_size ex_released 2 = (Panic, r') -> allocate_slot ex_size r' = (Panic, r').
Proof.
  destruct (release_panics_exactly ex_size ex_whole_bytes 1 (init_slots (boot ex_size 1)).2 ∅ ex_released ex_held ∅ 2) as [Hp Ha].
  - done.
  - by vm_compute.
  - by intros x ?%not_elem_of_empty.
  - apply ex_reach.
  - by vm_compute.
  - apply (bool_decide_unpack _). by vm_compute.
  - split; [|intros r' E; by apply (Ha r' E)]. apply Hp. split; [by vm_compute|]. exists 2.
    split; [done|]. split; apply (bool_decide_unpack _); by vm_compute.
Defined.
End SlotAlloc.
