(* ===== verification/Space.v ===== *)
(** * The monitor's address space ([src/rt/monitor/src/mon/space.rs], [space/handle.rs],
    [space/unmapper.rs])

    The monitor maps objects into slots of the address space and counts the handles of
    each mapping.  Mapping an object already mapped shares its slot; dropping a handle
    sends a message to the unmapper thread, which takes one off the count and unmaps the
    slot when it reaches zero.

    A world holds the slot allocator, the table of mappings, what the kernel has mapped in
    each slot, the live handles and the messages to the unmapper; operations are state
    transformers that may panic.  A panic under the lock of the space poisons it ([dead]).
    The slot allocator is any [SlotService]; the results of the system calls are chosen by
    the environment.  [Space::map] releases the lock around the system call, so it is the
    step [map_begin], the system call and the step [map_finish], with steps of other threads
    between them ([run]).

    [handles_stay_mapped]: as long as no two threads map the same object with the same flags
    at once, and pairs are mapped of objects not mapped yet, every live handle names a slot
    in which the kernel has its object with its protections.  [mapped_twice_unmaps_live]:
    without that proviso a live handle's slot is unmapped. *)
From S2P Require Import Prelude SlotAlloc.
Import SlotAlloc.

#[local] Open Scope Z_scope.

Module Space.

(** The map flags the monitor tests, and the others. *)
Record MapFlags := mkMF { mf_read : bool; mf_write : bool; mf_exec : bool; mf_rest : Z }.
Record Protections := mkProt { p_read : bool; p_write : bool; p_exec : bool }.

Definition mapflags_into_prot (f : MapFlags) : Protections :=
  let prot := mkProt false false false in
  let prot := if mf_read f then mkProt true (p_write prot) (p_exec prot) else prot in
  let prot := if mf_write f then mkProt (p_read prot) true (p_exec prot) else prot in
  if mf_exec f then mkProt (p_read prot) (p_write prot) true else prot.

Record MapInfo := mkInfo { id : Z; flags : MapFlags }.

#[global] Instance MapFlags_eq : EqDecision MapFlags.
Proof. solve_decision. Defined.
#[global] Instance MapInfo_eq : EqDecision MapInfo.
Proof. solve_decision. Defined.
#[global] Program Instance MapInfo_countable : Countable MapInfo :=
  inj_countable' (fun i => (id i, (mf_read (flags i), mf_write (flags i), mf_exec (flags i), mf_rest (flags i))))
    (fun x => mkInfo x.1 (mkMF x.2.1.1.1 x.2.1.1.2 x.2.1.2 x.2.2)) _.
Next Obligation. by intros [? []]. Qed.

Record MappedObjectAddrs := mkAddrs { slot : Z; start : Z; meta : Z }.
Record MappedObject := mkMO { addrs : MappedObjectAddrs; handle_count : Z }.
Record MapHandle := mkMH { mh_info : MapInfo; mh_map : MappedObjectAddrs }.

Inductive TwzError := OutOfResources | SysError (code : Z).

Record World {R : Type} := mkW {
  rt : R;
  maps : gmap MapInfo MappedObject;
  kern : gmap Z (Z * Protections);
  live : list MapHandle;
  unmaps : list MapInfo;
  dead : bool
}.
Arguments World : clear implicits.

Section space.
Context `{Build} {R : Type} `{SlotService R} (MAX_SIZE NULLPAGE_SIZE : Z).

(** ** State transformers that may panic *)
Definition M (A : Type) : Type := World R -> outcome A * World R.

Definition mret {A} (a : A) : M A := fun w => (Ret a, w).

Definition mbind {A B} (m : M A) (k : A -> M B) : M B := fun w =>
  match m w with (Ret a, w') => k a w' | (Panic, w') => (Panic, w') | (NoFuel, w') => (NoFuel, w') end.

#[local] Notation "'do!' x ':=' m 'in' k" := (mbind m (fun x => k))
  (at level 10, x pattern, m at level 100, k at level 200).

Definition lift {A} (o : outcome A) : M A := fun w => (o, w).

Definition with_rt {A} (op : R -> outcome A * R) : M A := fun w =>
  let (o, r) := op (rt w) in (o, mkW _ r (maps w) (kern w) (live w) (unmaps w) (dead w)).

Definition get_maps : M (gmap MapInfo MappedObject) := fun w => (Ret (maps w), w).

Definition put_maps (m : gmap MapInfo MappedObject) : M unit := fun w =>
  (Ret tt, mkW _ (rt w) m (kern w) (live w) (unmaps w) (dead w)).

(** [this.lock().unwrap()] held over an operation. *)
Definition guarded {A} (m : M A) : M A := fun w =>
  if dead w then (Panic, w)
  else match m w with
       | (Panic, w') => (Panic, mkW _ (rt w') (maps w') (kern w') (live w') (unmaps w') true)
       | r => r
       end.

(** ** The kernel *)
Definition sys_object_map (info : MapInfo) (sl : Z) (res : result unit Z) : M unit := fun w =>
  (Ret tt, match res with
           | Ok _ => mkW _ (rt w) (maps w) (<[sl := (id info, mapflags_into_prot (flags info))]> (kern w)) (live w) (unmaps w) (dead w)
           | Err _ => w
           end).

Definition sys_object_unmap (sl : Z) (res : result unit Z) : M unit := fun w =>
  (Ret tt, match res with
           | Ok _ => mkW _ (rt w) (maps w) (delete sl (kern w)) (live w) (unmaps w) (dead w)
           | Err _ => w
           end).

(** ** Operations *)
Definition addrs_new (sl : Z) : outcome MappedObjectAddrs :=
  let! st := chk 64 (sl * MAX_SIZE) in
  let! n := chk 64 (sl + 1) in
  let! e := chk 64 (n * MAX_SIZE) in
  let! m := chk 64 (e - NULLPAGE_SIZE) in
  Ret (mkAddrs sl st m).

(** [__monitor_get_slot] returns an [isize], negative when there is no slot. *)
Definition monitor_get_slot : M Z :=
  do! o := with_rt ss_alloc in
  mret (match o with Some s => if s <? 2 ^ 63 then s else -1 | None => -1 end).

(** Count one more handle of a mapping and make it. *)
Definition take_handle (info : MapInfo) : M MapHandle :=
  do! ms := get_maps in
  do! item := lift (unwrap (ms !! info)) in
  do! n := lift (chk 64 (handle_count item + 1)) in
  do! _ := put_maps (<[info := mkMO (addrs item) n]> ms) in
  fun w => (Ret (mkMH info (addrs item)),
            mkW _ (rt w) (maps w) (kern w) (mkMH info (addrs item) :: live w) (unmaps w) (dead w)).

Definition insert_map (info : MapInfo) (a : MappedObjectAddrs) : M unit :=
  do! ms := get_maps in put_maps (<[info := mkMO a 0]> ms).

Inductive begun := Shared (h : MapHandle) | Missing (sl : Z) | Full.

(** [Space::map] up to the system call. *)
Definition map_begin (info : MapInfo) : M begun :=
  guarded (
    do! ms := get_maps in
    match ms !! info with
    | Some _ => do! h := take_handle info in mret (Shared h)
    | None => do! s := monitor_get_slot in mret (if 0 <=? s then Missing s else Full)
    end).

(** [Space::map] once the system call, made without the lock, has returned. *)
Definition map_finish (info : MapInfo) (sl : Z) (res : result unit Z) : M (result MapHandle TwzError) :=
  guarded (
    match res with
    | Err e => do! _ := with_rt (fun r => ss_release r sl) in mret (Err (SysError e))
    | Ok _ =>
        do! a := lift (addrs_new sl) in
        do! _ := insert_map info a in
        do! h := take_handle info in
        mret (Ok h)
    end).

Definition map (info : MapInfo) (res : result unit Z) : M (result MapHandle TwzError) :=
  do! b := map_begin info in
  match b with
  | Shared h => mret (Ok h)
  | Full => mret (Err OutOfResources)
  | Missing sl => do! _ := sys_object_map info sl res in map_finish info sl res
  end.

Definition map_pair (info info2 : MapInfo) (res res2 resu : result unit Z) : M (result (MapHandle * MapHandle) TwzError) :=
  guarded (
    do! o := with_rt ss_alloc_pair in
    match o with
    | None => mret (Err OutOfResources)
    | Some (one, two) =>
        do! _ := sys_object_map info one res in
        match res with
        | Err e => do! _ := with_rt (fun r => ss_release_pair r (one, two)) in mret (Err (SysError e))
        | Ok _ =>
            do! _ := sys_object_map info2 two res2 in
            match res2 with
            | Err e =>
                do! _ := sys_object_unmap one resu in
                do! _ := with_rt (fun r => ss_release_pair r (one, two)) in
                mret (Err (SysError e))
            | Ok _ =>
                do! a := lift (addrs_new one) in
                do! a2 := lift (addrs_new two) in
                do! _ := insert_map info a in
                do! _ := insert_map info2 a2 in
                do! h := take_handle info in
                do! h2 := take_handle info2 in
                mret (Ok (h, h2))
            end
        end
    end).

(** The slot to unmap, if the last handle went. *)
Definition handle_drop (info : MapInfo) : M (option Z) :=
  do! ms := get_maps in
  match ms !! info with
  | None => mret None
  | Some item =>
      if handle_count item =? 0 then mret None
      else
        let n := handle_count item - 1 in
        if n =? 0 then do! _ := put_maps (delete info ms) in mret (Some (slot (addrs item)))
        else do! _ := put_maps (<[info := mkMO (addrs item) n]> ms) in mret None
  end.

(** [UnmapOnDrop::drop] *)
Definition unmap_on_drop (sl : Z) (res : result unit Z) : M unit :=
  do! _ := sys_object_unmap sl res in
  match res with
  | Ok _ => with_rt (fun r => ss_release r sl)
  | Err _ => mret tt
  end.

(** One turn of the unmapper thread; the value [handle_drop] returns is dropped while the
    space is locked. *)
Definition unmapper_turn (res : result unit Z) : M unit := fun w =>
  match unmaps w with
  | [] => (Ret tt, w)
  | info :: q =>
      guarded (
        do! o := handle_drop info in
        match o with Some sl => unmap_on_drop sl res | None => mret tt end)
        (mkW _ (rt w) (maps w) (kern w) (live w) q (dead w))
  end.

(** Dropping the [i]th live handle. *)
Definition handle_dropped (i : nat) : M unit := fun w =>
  match live w !! i with
  | Some h => (Ret tt, mkW _ (rt w) (maps w) (kern w) (delete i (live w)) (unmaps w ++ [mh_info h]) (dead w))
  | None => (Ret tt, w)
  end.

(** ** Counting handles *)
Definition tracked (w : World R) : list MapInfo := (mh_info <$> live w) ++ unmaps w.

Definition count (k : MapInfo) (l : list MapInfo) : Z := zlen (filter (fun i => i = k) l).

Lemma uses_cons k x l : count k (x :: l) = Z.b2z (bool_decide (x = k)) + count k l.
Proof. unfold count. rewrite filter_cons. unfold zlen. case_decide; case_bool_decide; try done; cbn [length Z.b2z]; lia. Qed.

Lemma uses_perm k l l' : l ≡ₚ l' -> count k l = count k l'.
Proof. intros Hp. unfold count, zlen. by rewrite Hp. Qed.

Lemma count_le k l : 0 <= count k l <= zlen l.
Proof. unfold count, zlen. pose proof (length_filter (fun i => i = k) l). lia. Qed.

Lemma count_in k l : k ∈ l -> 0 < count k l.
Proof.
  intros Hk. apply list_elem_of_split in Hk as (l1 & l2 & ->). rewrite (uses_perm k _ (k :: l1 ++ l2)) by solve_Permutation.
  rewrite uses_cons, bool_decide_eq_true_2 by done. pose proof (count_le k (l1 ++ l2)). cbn. lia.
Qed.

(** ** The invariant

    A thread inside [Space::map] that found its object missing has a slot, in which it is
    about to map the object, or has called the kernel and is about to take the lock again. *)
Inductive pending := Asked (s : Z) | Called (s : Z) (res : result unit Z).

Definition pslot (p : pending) : Z := match p with Asked s | Called s _ => s end.

(** The threads inside [Space::map], by what they map. *)
#[local] Abbreviation Calls := (gmap MapInfo pending).

(** The slot of an object mapped or being mapped. *)
Definition slot_of (P : Calls) (w : World R) (info : MapInfo) : option Z :=
  match maps w !! info with Some it => Some (slot (addrs it)) | None => pslot <$> P !! info end.

Definition unused (P : Calls) (w : World R) (s : Z) : Prop := forall info, slot_of P w info <> Some s.

Definition in_slot (w : World R) (info : MapInfo) (a : MappedObjectAddrs) : Prop :=
  kern w !! slot a = Some (id info, mapflags_into_prot (flags info)) /\ addrs_new (slot a) = Ret a.

Record good (P : Calls) (w : World R) (h : gset Z) : Prop := {
  g_rt : ss_good (rt w) h ∅;
  g_count : forall info it, maps w !! info = Some it -> handle_count it = count info (tracked w);
  g_none : forall info, maps w !! info = None -> count info (tracked w) = 0;
  g_slot : forall info it, maps w !! info = Some it -> in_slot w info (addrs it);
  g_held : forall info s, slot_of P w info = Some s -> s ∈ h;
  g_inj : forall i j s, slot_of P w i = Some s -> slot_of P w j = Some s -> i = j;
  g_live : forall m it, m ∈ live w -> maps w !! mh_info m = Some it -> mh_map m = addrs it;
  g_apart : forall info p, P !! info = Some p -> maps w !! info = None /\ 0 <= pslot p < ss_limit;
  g_called : forall info s u, P !! info = Some (Called s (Ok u)) -> kern w !! s = Some (id info, mapflags_into_prot (flags info))
}.

(** What outlives a panic: the live handles are mapped, and no thread will map over them. *)
Definition mapped (P : Calls) (w : World R) : Prop :=
  forall m, m ∈ live w -> in_slot w (mh_info m) (mh_map m) /\ forall info s, P !! info = Some (Asked s) -> slot (mh_map m) <> s.

Lemma slot_of_map P (w : World R) info it : maps w !! info = Some it -> slot_of P w info = Some (slot (addrs it)).
Proof. unfold slot_of. by intros ->. Qed.

Lemma slot_of_pending P w h info p : good P w h -> P !! info = Some p -> slot_of P w info = Some (pslot p).
Proof. intros Hg Hp. unfold slot_of. rewrite (proj1 (g_apart _ _ _ Hg _ _ Hp)), Hp. done. Qed.

Lemma good_mapped P w h : good P w h -> mapped P w.
Proof.
  intros Hg m Hm. destruct (maps w !! mh_info m) as [it|] eqn:E.
  - rewrite (g_live _ _ _ Hg m it Hm E). split; [by apply (g_slot _ _ _ Hg)|]. intros info s Hp <-.
    destruct (g_apart _ _ _ Hg _ _ Hp) as [Hn _]. pose proof (slot_of_pending _ _ _ _ _ Hg Hp) as Hs.
    rewrite (g_inj _ _ _ Hg _ _ _ Hs (slot_of_map P _ _ _ E)) in Hn. congruence.
  - apply (g_none _ _ _ Hg) in E. enough (0 < count (mh_info m) (tracked w)) by lia. apply count_in.
    apply elem_of_app. left. by apply list_elem_of_fmap_2.
Qed.

Lemma good_unused P w h s : good P w h -> s ∉ h -> unused P w s.
Proof. intros Hg Hs info Hi. by apply Hs, (g_held _ _ _ Hg info). Qed.

Lemma good_rt P w h r' h' : good P w h -> ss_good r' h' ∅ -> (forall info s, slot_of P w info = Some s -> s ∈ h') ->
  good P (mkW _ r' (maps w) (kern w) (live w) (unmaps w) (dead w)) h'.
Proof. intros Hg Hr Hh. by split; cbn; try apply Hg. Qed.

(** More slots held. *)
Lemma good_rt_more P w h r' h' : good P w h -> ss_good r' h' ∅ -> h ⊆ h' ->
  good P (mkW _ r' (maps w) (kern w) (live w) (unmaps w) (dead w)) h'.
Proof. intros Hg Hr Hh. apply good_rt with h; [done..|]. intros info s Hs%(g_held _ _ _ Hg). set_solver. Qed.

(** What happens in a slot that is not used does not matter. *)
Lemma good_kern P w h k' : good P w h -> (forall info s, slot_of P w info = Some s -> k' !! s = kern w !! s) ->
  good P (mkW _ (rt w) (maps w) k' (live w) (unmaps w) (dead w)) h.
Proof.
  intros Hg Hk. split; cbn; try apply Hg.
  - intros info it Hi. unfold in_slot. cbn. rewrite (Hk info) by (by apply slot_of_map). by apply (g_slot _ _ _ Hg).
  - intros info s u Hp. rewrite (Hk info) by (exact (slot_of_pending _ _ _ _ _ Hg Hp)). by eapply (g_called _ _ _ Hg).
Qed.

Lemma good_kern_insert P w h s v : good P w h -> unused P w s ->
  good P (mkW _ (rt w) (maps w) (<[s := v]> (kern w)) (live w) (unmaps w) (dead w)) h.
Proof. intros Hg Hs. apply good_kern; [done|]. intros info s' Hi. apply lookup_insert_ne. intros ->. by apply (Hs info). Qed.

Lemma good_kern_delete P w h s : good P w h -> unused P w s ->
  good P (mkW _ (rt w) (maps w) (delete s (kern w)) (live w) (unmaps w) (dead w)) h.
Proof. intros Hg Hs. apply good_kern; [done|]. intros info s' Hi. apply lookup_delete_ne. intros ->. by apply (Hs info). Qed.

(** ** The stages of a mapping *)
Lemma slot_of_set P (w : World R) info p i : maps w !! info = None ->
  slot_of (<[info := p]> P) w i = if decide (i = info) then Some (pslot p) else slot_of P w i.
Proof.
  intros Hn. unfold slot_of. case_decide as E; [subst i; by rewrite Hn, lookup_insert_eq|]. by rewrite lookup_insert_ne by done.
Qed.

(** A slot is found for an object. *)
Lemma good_ask P w h info s : good P w h -> maps w !! info = None -> unused P w s -> s ∈ h -> 0 <= s < ss_limit ->
  good (<[info := Asked s]> P) w h.
Proof.
  intros Hg Hn Hu Hs Hl. split; try apply Hg.
  - intros i s'. rewrite slot_of_set by done. case_decide; [intros [= <-]; done|by apply (g_held _ _ _ Hg)].
  - intros i j s'. rewrite !slot_of_set by done. repeat case_decide; subst; cbn; try done; [..|by apply (g_inj _ _ _ Hg)];
      [intros [= <-] Hj; by destruct (Hu j)|intros Hj [= <-]; by destruct (Hu i)].
  - intros i p [[<- <-]|[_ Hp]]%lookup_insert_Some; [done|by apply (g_apart _ _ _ Hg)].
  - intros i s' u [[_ [=]]|[_ Hp]]%lookup_insert_Some. by eapply (g_called _ _ _ Hg).
Qed.

Definition call_world (w : World R) (info : MapInfo) (s : Z) (res : result unit Z) : World R := (sys_object_map info s res w).2.

(** The kernel is called. *)
Lemma good_call P w h info s res : good P w h -> P !! info = Some (Asked s) ->
  good (<[info := Called s res]> P) (call_world w info s res) h.
Proof.
  intros Hg Hp. destruct (g_apart _ _ _ Hg _ _ Hp) as [Hn Hl]. pose proof (slot_of_pending _ _ _ _ _ Hg Hp) as Hsl. cbn in Hsl, Hl.
  assert (forall i, slot_of (<[info := Called s res]> P) (call_world w info s res) i = slot_of P w i) as Hso.
  { intros i. transitivity (slot_of (<[info := Called s res]> P) w i); [by destruct res|]. rewrite slot_of_set by done.
    case_decide; [by subst i|done]. }
  assert (forall i s', i <> info -> slot_of P w i = Some s' -> kern (call_world w info s res) !! s' = kern w !! s') as Hk.
  { intros i s' Hne Hi. destruct res; cbn; [|done]. apply lookup_insert_ne. intros ->. by apply Hne, (g_inj _ _ _ Hg _ _ s'). }
  split; try (destruct res; apply Hg).
  - intros i it Hi. assert (maps w !! i = Some it) as Hi' by (by destruct res). unfold in_slot.
    rewrite (Hk i); [by apply (g_slot _ _ _ Hg)|congruence|by apply slot_of_map].
  - intros i s'. rewrite Hso. by apply (g_held _ _ _ Hg).
  - intros i j s'. rewrite !Hso. by apply (g_inj _ _ _ Hg).
  - intros i p [[<- <-]|[_ Hp']]%lookup_insert_Some; [by destruct res|]. destruct res; by apply (g_apart _ _ _ Hg).
  - intros i s' u [[<- [= <- ->]]|[Hne Hp']]%lookup_insert_Some; [cbn; apply lookup_insert_eq|].
    rewrite (Hk i) by (done || exact (slot_of_pending _ _ _ _ _ Hg Hp')). by eapply (g_called _ _ _ Hg).
Qed.

(** The mapping is entered in the table. *)
Lemma good_land P w h info a u : good P w h -> P !! info = Some (Called (slot a) (Ok u)) -> addrs_new (slot a) = Ret a ->
  good (delete info P) (mkW _ (rt w) (<[info := mkMO a 0]> (maps w)) (kern w) (live w) (unmaps w) (dead w)) h.
Proof.
  intros Hg Hp Ha. destruct (g_apart _ _ _ Hg _ _ Hp) as [Hn _]. assert (count info (tracked w) = 0) as Hz by (by apply (g_none _ _ _ Hg)).
  set (w' := mkW _ _ _ _ _ _ _). assert (forall i, slot_of (delete info P) w' i = slot_of P w i) as Hso.
  { intros i. unfold slot_of. cbn. destruct (decide (i = info)) as [->|Hne]; [by rewrite lookup_insert_eq, Hn, Hp|].
    by rewrite lookup_insert_ne, lookup_delete_ne by done. }
  subst w'. split; cbn [rt maps kern live unmaps dead]; try apply Hg.
  - intros i it [[<- <-]|[Hne Hi]]%lookup_insert_Some; [done|by apply (g_count _ _ _ Hg)].
  - intros i [Hi _]%lookup_insert_None. by apply (g_none _ _ _ Hg).
  - intros i it [[<- <-]|[Hne Hi]]%lookup_insert_Some; [split; [by eapply (g_called _ _ _ Hg)|done]|by apply (g_slot _ _ _ Hg)].
  - intros i s. rewrite Hso. by apply (g_held _ _ _ Hg).
  - intros i j s. rewrite !Hso. by apply (g_inj _ _ _ Hg).
  - intros m it Hm [[-> <-]|[Hne Hi]]%lookup_insert_Some; [|by apply (g_live _ _ _ Hg)].
    exfalso. enough (0 < count (mh_info m) (tracked w)) by lia. apply count_in, elem_of_app. left. by apply list_elem_of_fmap_2.
  - intros i p [Hne Hi]%lookup_delete_Some. cbn. rewrite lookup_insert_ne by done. by apply (g_apart _ _ _ Hg).
  - intros i s u' [Hne Hi]%lookup_delete_Some. by eapply (g_called _ _ _ Hg).
Qed.

(** The mapping failed. *)
Lemma good_abandon P w h info p : good P w h -> P !! info = Some p -> good (delete info P) w h /\ unused (delete info P) w (pslot p).
Proof.
  intros Hg Hp. destruct (g_apart _ _ _ Hg _ _ Hp) as [Hn _].
  assert (forall i s, slot_of (delete info P) w i = Some s -> i <> info /\ slot_of P w i = Some s) as Hso.
  { intros i s. unfold slot_of. destruct (decide (i = info)) as [->|Hne]; [by rewrite Hn, lookup_delete_eq|]. by rewrite lookup_delete_ne by done. }
  split; [split; try apply Hg|].
  - intros i s [_ Hs]%Hso. by apply (g_held _ _ _ Hg i).
  - intros i j s [_ Hi]%Hso [_ Hj]%Hso. by apply (g_inj _ _ _ Hg i j s).
  - intros i q [_ Hi]%lookup_delete_Some. by apply (g_apart _ _ _ Hg).
  - intros i s u [_ Hi]%lookup_delete_Some. by eapply (g_called _ _ _ Hg).
  - intros i [Hne Hi]%Hso. by apply Hne, (g_inj _ _ _ Hg _ _ (pslot p)), (slot_of_pending _ _ _ _ _ Hg).
Qed.

Definition taken_world (w : World R) (info : MapInfo) (it : MappedObject) : World R :=
  mkW _ (rt w) (<[info := mkMO (addrs it) (handle_count it + 1)]> (maps w)) (kern w) (mkMH info (addrs it) :: live w) (unmaps w) (dead w).

Lemma take_handle_spec w info it : maps w !! info = Some it -> 0 <= handle_count it -> handle_count it + 1 < 2 ^ 64 ->
  take_handle info w = (Ret (mkMH info (addrs it)), taken_world w info it).
Proof.
  intros Hi Hc Hb. unfold take_handle, mbind, get_maps, lift. rewrite Hi. cbn [unwrap]. rewrite chk_in by lia. done.
Qed.

Lemma tracked_taken w info it : tracked (taken_world w info it) = info :: tracked w.
Proof. done. Qed.

Lemma slot_of_taken P w info it i : maps w !! info = Some it -> slot_of P (taken_world w info it) i = slot_of P w i.
Proof.
  intros Hi. unfold slot_of, taken_world. cbn [maps]. destruct (decide (i = info)) as [->|Hne]; [by rewrite lookup_insert_eq, Hi|].
  by rewrite lookup_insert_ne by done.
Qed.

(** Changing the count of one mapping together with the handles tracked. *)
Lemma good_take P w h info it : good P w h -> maps w !! info = Some it -> good P (taken_world w info it) h.
Proof.
  intros Hg Hi. split; rewrite ?tracked_taken; cbn [taken_world rt maps kern live]; try apply Hg.
  - intros i jt Hj. rewrite uses_cons. apply lookup_insert_Some in Hj as [[<- <-]|[Hne Ej]]; cbn.
    + rewrite bool_decide_eq_true_2, (g_count _ _ _ Hg _ _ Hi) by done. cbn. lia.
    + rewrite bool_decide_eq_false_2 by done. by apply (g_count _ _ _ Hg).
  - intros i [Ei Hne]%lookup_insert_None. rewrite uses_cons, bool_decide_eq_false_2 by done. by apply (g_none _ _ _ Hg).
  - intros i jt [[<- <-]|[Hne Ej]]%lookup_insert_Some; [exact (g_slot _ _ _ Hg _ _ Hi)|exact (g_slot _ _ _ Hg _ _ Ej)].
  - intros i s. rewrite slot_of_taken by done. by apply (g_held _ _ _ Hg).
  - intros i j s. rewrite !slot_of_taken by done. by apply (g_inj _ _ _ Hg).
  - intros m jt [->|Hm]%elem_of_cons [[E <-]|[Hne Ej]]%lookup_insert_Some; cbn in *; try done.
    + apply (g_live _ _ _ Hg); [done|]. by rewrite <- E.
    + by apply (g_live _ _ _ Hg).
  - intros i p Hp. destruct (g_apart _ _ _ Hg _ _ Hp). rewrite lookup_insert_ne by congruence. done.
Qed.

(** ** Every operation keeps the invariant *)
Hypothesis sizes : 0 <= NULLPAGE_SIZE <= MAX_SIZE /\ ss_limit <= 2 ^ 63 /\ ss_limit * MAX_SIZE < 2 ^ 64.

Definition room (w : World R) : Prop := zlen (tracked w) + 2 < 2 ^ 64.

(** An operation returns and keeps the invariant, or panics with the live handles mapped. *)
Definition op_ok (P : Calls) {A} (x : outcome A * World R) : Prop :=
  (exists a, x.1 = Ret a /\ dead x.2 = false /\ exists h, good P x.2 h) \/ (x.1 = Panic /\ mapped P x.2).

Definition set_rt (w : World R) (r : R) : World R := mkW _ r (maps w) (kern w) (live w) (unmaps w) (dead w).

Lemma addrs_new_spec s : 0 <= s < ss_limit -> addrs_new s = Ret (mkAddrs s (s * MAX_SIZE) ((s + 1) * MAX_SIZE - NULLPAGE_SIZE)).
Proof.
  intros Hs. unfold addrs_new. rewrite chk_in by nia. cbn [obind]. rewrite chk_in by nia. cbn [obind].
  rewrite chk_in by nia. cbn [obind]. rewrite chk_in by nia. done.
Qed.

Lemma good_room P w h info it : good P w h -> room w -> maps w !! info = Some it -> 0 <= handle_count it /\ handle_count it + 2 < 2 ^ 64.
Proof. intros Hg Hr Hi. rewrite (g_count _ _ _ Hg _ _ Hi). pose proof (count_le info (tracked w)). unfold room in Hr. lia. Qed.

Lemma op_ok_ret P {A} (a : A) w h : dead w = false -> good P w h -> op_ok P (Ret a, w).
Proof. intros Hd Hg. left. exists a. split; [done|]. split; [done|]. by exists h. Qed.

Lemma guarded_ok P {A} (m : M A) w : dead w = false -> op_ok P (m w) -> op_ok P (guarded m w).
Proof.
  intros Hd Hm. unfold guarded. rewrite Hd. destruct (m w) as [[a| |] w'] eqn:E; try done.
  right. split; [done|]. destruct Hm as [(a & ? & _)|[_ Hm]]; [done|]. exact Hm.
Qed.

Lemma mbind_ok P {A B} (m : M A) (k : A -> M B) w : op_ok P (m w) ->
  (forall a w' h, m w = (Ret a, w') -> dead w' = false -> good P w' h -> op_ok P (k a w')) -> op_ok P (mbind m k w).
Proof.
  intros Hm Hk. unfold mbind. destruct (m w) as [o w'] eqn:E.
  destruct Hm as [(a & Ea & Hd & h & Hg)|[Ea Hm]]; cbn in *; subst o; [by eapply Hk|by right].
Qed.

(** Releasing a slot no mapping uses. *)
Lemma release_held_ok P w h s : good P w h -> dead w = false -> s ∈ h -> unused P w s -> op_ok P (with_rt (fun r => ss_release r s) w).
Proof.
  intros Hg Hd Hs Hu. unfold with_rt. destruct (ss_release_law _ _ _ s (g_rt _ _ _ Hg) Hs) as [(r' & -> & Hr)|(r' & ->)].
  - apply op_ok_ret with (h ∖ {[s]}); [done|]. apply good_rt with h; [done..|]. intros info s' Hi.
    pose proof (g_held _ _ _ Hg _ _ Hi) as Ha. assert (s' <> s) by (intros ->; by apply (Hu info)). set_solver.
  - right. split; [done|]. exact (good_mapped _ _ _ Hg).
Qed.

Lemma take_ok P w h info it : good P w h -> dead w = false -> maps w !! info = Some it -> handle_count it + 1 < 2 ^ 64 ->
  op_ok P (take_handle info w).
Proof.
  intros Hg Hd Hi Hb. rewrite (take_handle_spec w info it Hi); [|rewrite (g_count _ _ _ Hg _ _ Hi); apply count_le|done].
  apply op_ok_ret with h; [done|]. by apply good_take.
Qed.

(** A thread that found its object missing goes on with the slot it got. *)
Definition begun_calls (info : MapInfo) (o : outcome begun) (P : Calls) : Calls :=
  match o with Ret (Missing s) => <[info := Asked s]> P | _ => P end.

Lemma map_begin_ok P w h info : good P w h -> dead w = false -> room w ->
  op_ok (begun_calls info (map_begin info w).1 P) (map_begin info w).
Proof.
  intros Hg Hd Hr. destruct (map_begin info w) as [o w'] eqn:E. revert E. unfold map_begin, guarded. rewrite Hd. unfold mbind, get_maps.
  destruct (maps w !! info) as [it|] eqn:Ei.
  - destruct (good_room _ _ _ _ _ Hg Hr Ei). rewrite (take_handle_spec w info it Ei) by lia. intros [= <- <-].
    apply op_ok_ret with h; [done|]. by apply good_take.
  - unfold monitor_get_slot, mbind, with_rt. destruct (ss_alloc_law _ _ _ (g_rt _ _ _ Hg)) as [(s & r' & -> & Hl & Hs & Hr')|(r' & -> & Hr')];
      unfold mret; [destruct (Z.ltb_spec s (2 ^ 63)); [|lia]; destruct (Z.leb_spec 0 s); [|lia]|]; intros [= <- <-].
    + apply op_ok_ret with ({[s]} ∪ h); [done|]. apply good_ask; [|done|by apply (good_unused P w h)|set_solver|done].
      apply good_rt_more with h; [done..|set_solver].
    + apply op_ok_ret with h; [done|]. by apply good_rt_more with h.
Qed.

(** Entering a mapping made in a slot and taking a handle of it. *)
Definition new_addrs (s : Z) : MappedObjectAddrs := mkAddrs s (s * MAX_SIZE) ((s + 1) * MAX_SIZE - NULLPAGE_SIZE).

Lemma map_finish_ok P w h info s res : good P w h -> dead w = false -> P !! info = Some (Called s res) ->
  op_ok (delete info P) (map_finish info s res w).
Proof.
  intros Hg Hd Hp. destruct (g_apart _ _ _ Hg _ _ Hp) as [Hn Hl]. cbn in Hl. apply guarded_ok; [done|]. destruct res as [u|e].
  - unfold mbind at 1, lift. rewrite addrs_new_spec by done. unfold mbind at 1. cbn [insert_map get_maps put_maps mbind].
    pose proof (good_land P w h info (new_addrs s) u Hg Hp (addrs_new_spec s Hl)) as Hg'.
    apply mbind_ok; [eapply take_ok; [exact Hg'|done|apply lookup_insert_eq|done]|]. intros. by eapply op_ok_ret.
  - destruct (good_abandon _ _ _ _ _ Hg Hp) as [Hg' Hu]. apply mbind_ok; [|intros; by eapply op_ok_ret].
    apply release_held_ok with h; [done..| |done]. exact (g_held _ _ _ Hg _ _ (slot_of_pending _ _ _ _ _ Hg Hp)).
Qed.

(** A mapping made in a slot that nothing used. *)
Lemma good_new P w h info s : good P w h -> maps w !! info = None -> P !! info = None -> unused P w s -> s ∈ h -> 0 <= s < ss_limit ->
  good P (mkW _ (rt w) (<[info := mkMO (new_addrs s) 0]> (maps w)) (<[s := (id info, mapflags_into_prot (flags info))]> (kern w)) (live w) (unmaps w) (dead w)) h.
Proof.
  intros Hg Hn Hp Hu Hs Hl. pose proof (good_ask P w h info s Hg Hn Hu Hs Hl) as Hg1.
  pose proof (good_call _ _ _ info s (Ok tt) Hg1 (lookup_insert_eq _ _ _)) as Hg2.
  pose proof (good_land _ _ _ info (new_addrs s) tt Hg2 (lookup_insert_eq _ _ _) (addrs_new_spec s Hl)) as Hg3.
  by rewrite insert_insert_eq, delete_insert_id in Hg3 by done.
Qed.


Lemma pair_gone q : ({[q]} ∪ ∅) ∖ {[q]} = (∅ : gset Z).
Proof. set_solver. Qed.

Lemma take_pair_ok P w h info info2 it it2 : good P w h -> dead w = false -> maps w !! info = Some it -> maps w !! info2 = Some it2 ->
  info <> info2 -> handle_count it + 1 < 2 ^ 64 -> handle_count it2 + 1 < 2 ^ 64 ->
  op_ok P (mbind (take_handle info) (fun h => mbind (take_handle info2) (fun h2 => mret (@Ok _ TwzError (h, h2)))) w).
Proof.
  intros Hg Hd Hi Hi2 Hne Hb Hb2. unfold mbind at 1.
  rewrite (take_handle_spec w info it Hi); [|rewrite (g_count _ _ _ Hg _ _ Hi); apply count_le|done].
  apply mbind_ok; [|intros; by eapply op_ok_ret].
  apply (take_ok P _ h info2 it2); [by apply good_take|done| |done]. cbn. by rewrite lookup_insert_ne.
Qed.

(** Two objects that are not mapped, mapped in a pair of slots. *)
Lemma good_new_pair P w h info info2 s s2 : good P w h -> maps w !! info = None -> maps w !! info2 = None -> P !! info = None -> P !! info2 = None ->
  info <> info2 -> unused P w s -> unused P w s2 -> s <> s2 -> s ∈ h -> s2 ∈ h -> 0 <= s < ss_limit -> 0 <= s2 < ss_limit ->
  good P (mkW _ (rt w) (<[info2 := mkMO (new_addrs s2) 0]> (<[info := mkMO (new_addrs s) 0]> (maps w)))
    (<[s2 := (id info2, mapflags_into_prot (flags info2))]> (<[s := (id info, mapflags_into_prot (flags info))]> (kern w)))
    (live w) (unmaps w) (dead w)) h.
Proof.
  intros Hg Hn Hn2 Hp Hp2 Hne Hu Hu2 Hss Hs Hs2 Hl Hl2. pose proof (good_new P w h info s Hg Hn Hp Hu Hs Hl) as Hg1.
  apply (good_new P _ h info2 s2 Hg1); [|done| |done..].
  - cbn. by rewrite lookup_insert_ne.
  - intros i. unfold slot_of. cbn. destruct (decide (i = info)) as [->|Hi]; [rewrite lookup_insert_eq; cbn; congruence|].
    rewrite lookup_insert_ne by done. apply (Hu2 i).
Qed.

Lemma map_pair_ok P w h info info2 res res2 resu : good P w h -> dead w = false -> maps w !! info = None -> maps w !! info2 = None ->
  P !! info = None -> P !! info2 = None -> info <> info2 -> op_ok P (map_pair info info2 res res2 resu w).
Proof.
  intros Hg Hd Hn Hn2 Hp Hp2 Hne. apply guarded_ok; [done|]. unfold mbind at 1, with_rt at 1.
  destruct (ss_alloc_pair_law _ _ _ (g_rt _ _ _ Hg)) as [(q & r' & -> & Hl & Hl2 & Hq & Hq2 & _ & Hr')|(r' & -> & Hr')].
  2:{ apply op_ok_ret with h; [done|]. by apply good_rt_more with h. }
  pose proof (good_unused _ _ _ _ Hg Hq) as Hu. pose proof (good_unused _ _ _ _ Hg Hq2) as Hu2.
  destruct (ss_release_pair_law _ _ _ q Hr') as (r2 & Er & Hr2); [set_solver|]. rewrite pair_gone in Hr2.
  destruct res as [u|e].
  2:{ cbn. unfold mbind at 1, sys_object_map, mbind, with_rt. cbn. rewrite Er. apply op_ok_ret with h; [done|].
      exact (good_rt_more P w h r2 h Hg Hr2 (reflexivity h)). }
  pose proof (good_kern_insert _ _ _ _ (id info, mapflags_into_prot (flags info)) Hg Hu) as Hg1.
  unfold mbind at 1. cbn [sys_object_map]. destruct res2 as [u2|e2].
  2:{ unfold mbind at 1. cbn [sys_object_map]. unfold mbind at 1. destruct resu as [uu|eu]; cbn [sys_object_unmap];
      unfold mbind, with_rt; cbn; rewrite Er; apply op_ok_ret with h; [done| |done|].
      - exact (good_rt_more _ _ h r2 h (good_kern_delete _ _ _ _ Hg1 Hu) Hr2 (reflexivity h)).
      - exact (good_rt_more _ _ h r2 h Hg1 Hr2 (reflexivity h)). }
  unfold mbind at 1. cbn [sys_object_map]. unfold mbind at 1, lift at 1. rewrite addrs_new_spec by lia.
  unfold mbind at 1, lift at 1. rewrite addrs_new_spec by lia. unfold mbind at 1. cbn [insert_map mbind get_maps put_maps].
  unfold mbind at 1. cbn [insert_map mbind get_maps put_maps maps kern rt live unmaps dead].
  pose proof (ss_split_law _ _ _ q Hr' ltac:(set_solver)) as Hs. rewrite pair_gone in Hs. set (h' := {[q * 2; q * 2 + 1]} ∪ h) in *.
  assert (good P (set_rt w r') h') as Hg0 by (apply good_rt_more with h; [done..|set_solver]).
  pose proof (good_new_pair P _ h' info info2 (q * 2) (q * 2 + 1) Hg0 Hn Hn2 Hp Hp2 Hne Hu Hu2 ltac:(lia) ltac:(set_solver)
    ltac:(set_solver) ltac:(lia) ltac:(lia)) as Hg2.
  eapply take_pair_ok; [exact Hg2|done|cbn; by rewrite lookup_insert_ne, lookup_insert_eq|apply lookup_insert_eq|done..].
Qed.

(** A dropped handle is still tracked, by its message. *)
Lemma tracked_dropped (w : World R) i m : live w !! i = Some m ->
  (mh_info <$> delete i (live w)) ++ unmaps w ++ [mh_info m] ≡ₚ tracked w.
Proof.
  intros Hi. unfold tracked. rewrite <- (take_drop_middle (live w) i m Hi) at 2.
  rewrite delete_take_drop, !fmap_app, fmap_cons. solve_Permutation.
Qed.

Lemma handle_dropped_ok P w h i : good P w h -> good P (handle_dropped i w).2 h.
Proof.
  intros Hg. unfold handle_dropped. destruct (live w !! i) as [m|] eqn:Ei; [|done]. pose proof (tracked_dropped w i m Ei) as Hp. cbn.
  split; try apply Hg.
  - intros info it Hi. unfold tracked. cbn. rewrite (uses_perm _ _ _ Hp). by apply (g_count _ _ _ Hg).
  - intros info Hi. unfold tracked. cbn. rewrite (uses_perm _ _ _ Hp). by apply (g_none _ _ _ Hg).
  - intros m' it Hm. cbn in *. apply (g_live _ _ _ Hg). by eapply list_elem_of_delete_inv.
Qed.

(** The counts once a message has been taken off the queue. *)
Lemma tracked_unmap w info q : unmaps w = info :: q -> tracked w ≡ₚ info :: (mh_info <$> live w) ++ q.
Proof. intros Hu. unfold tracked. rewrite Hu. solve_Permutation. Qed.

Definition popped (w : World R) (q : list MapInfo) (m : gmap MapInfo MappedObject) : World R :=
  mkW _ (rt w) m (kern w) (live w) q (dead w).

(** Taking a message off together with its count: the entry goes with the last one. *)
Lemma good_unmap P w h info q it m' : good P w h -> unmaps w = info :: q -> maps w !! info = Some it ->
  m' = (if handle_count it =? 1 then delete info (maps w) else <[info := mkMO (addrs it) (handle_count it - 1)]> (maps w)) ->
  good P (popped w q m') h.
Proof.
  intros Hg Hu Hi Hm.
  assert (P !! info = None) as Hpi by (destruct (P !! info) as [p|] eqn:Ep; [by destruct (g_apart _ _ _ Hg _ _ Ep); congruence|done]).
  assert (forall i, i <> info -> m' !! i = maps w !! i) as Hne.
  { intros i Hne. subst m'. destruct (_ =? 1); [by apply lookup_delete_ne|by apply lookup_insert_ne]. }
  assert (forall jt, m' !! info = Some jt -> handle_count jt = handle_count it - 1 /\ addrs jt = addrs it) as Hsame.
  { intros jt. subst m'. destruct (_ =? 1); [by rewrite lookup_delete_eq|]. rewrite lookup_insert_eq. by intros [= <-]. }
  assert (forall i jt, m' !! i = Some jt -> exists jt', maps w !! i = Some jt' /\ addrs jt = addrs jt') as Hsub.
  { intros i jt Hj. destruct (decide (i = info)) as [->|Hni]; [exists it; split; [done|by apply Hsame]|]. exists jt. by rewrite <- Hne. }
  assert (forall i s, slot_of P (popped w q m') i = Some s -> slot_of P w i = Some s) as Hso.
  { intros i s. unfold slot_of. cbn. destruct (m' !! i) as [jt|] eqn:Ej; [by destruct (Hsub i jt Ej) as (jt' & -> & ->)|].
    destruct (decide (i = info)) as [->|Hni]; [by rewrite Hpi|]. by rewrite <- Hne, Ej. }
  assert (forall i, count i (tracked w) = Z.b2z (bool_decide (info = i)) + count i (tracked (popped w q m'))) as Hc.
  { intros i. rewrite (uses_perm _ _ _ (tracked_unmap w info q Hu)), uses_cons. done. }
  split; cbn [popped rt maps kern live]; try apply Hg.
  - intros i jt Hj. specialize (Hc i). case_bool_decide as E; cbn [Z.b2z] in Hc.
    + subst i. destruct (Hsame jt Hj) as [-> _]. rewrite (g_count _ _ _ Hg _ _ Hi). lia.
    + rewrite Hne in Hj by done. rewrite (g_count _ _ _ Hg _ _ Hj). lia.
  - intros i Hj. specialize (Hc i). case_bool_decide as E; cbn [Z.b2z] in Hc.
    + subst i m'. destruct (Z.eqb_spec (handle_count it) 1) as [E1|]; [|by rewrite lookup_insert_eq in Hj].
      rewrite (g_count _ _ _ Hg _ _ Hi) in E1. lia.
    + rewrite Hne in Hj by done. rewrite (g_none _ _ _ Hg _ Hj) in Hc. lia.
  - intros i jt Hj. destruct (Hsub i jt Hj) as (jt' & Hj' & ->). exact (g_slot _ _ _ Hg _ _ Hj').
  - intros i s Hs%Hso. by apply (g_held _ _ _ Hg i).
  - intros i j s Hi'%Hso Hj'%Hso. by apply (g_inj _ _ _ Hg i j s).
  - intros m jt Hmm Hj. destruct (Hsub _ jt Hj) as (jt' & Hj' & ->). by apply (g_live _ _ _ Hg).
  - intros i p Hp. rewrite Hne by congruence. by apply (g_apart _ _ _ Hg).
Qed.

Lemma unmapper_turn_ok P w h res : good P w h -> dead w = false -> op_ok P (unmapper_turn res w).
Proof.
  intros Hg Hd. unfold unmapper_turn. destruct (unmaps w) as [|info q] eqn:Eu; [by apply op_ok_ret with h|].
  apply guarded_ok; [done|]. assert (0 < count info (tracked w)) as Hpos by (apply count_in, elem_of_app; right; rewrite Eu; left).
  destruct (maps w !! info) as [it|] eqn:Ei; [|by rewrite (g_none _ _ _ Hg _ Ei) in Hpos].
  pose proof (g_count _ _ _ Hg _ _ Ei) as Ec. pose proof (good_unmap P w h info q it _ Hg Eu Ei eq_refl) as Hg'.
  unfold mbind at 1, handle_drop, mbind at 1, get_maps. cbn [maps]. rewrite Ei.
  destruct (Z.eqb_spec (handle_count it) 0) as [|_]; [lia|].
  destruct (Z.eqb_spec (handle_count it) 1) as [E1|E1].
  2:{ destruct (Z.eqb_spec (handle_count it - 1) 0); [lia|]. by apply op_ok_ret with h. }
  destruct (Z.eqb_spec (handle_count it - 1) 0) as [_|]; [|lia]. cbn [mbind put_maps mret rt kern live unmaps dead].
  pose proof (slot_of_map P w info it Ei) as Hsl.
  assert (unused P (popped w q (delete info (maps w))) (slot (addrs it))) as Hun.
  { intros j Hj. destruct (decide (j = info)) as [->|Hji].
    - unfold slot_of in Hj. cbn in Hj. rewrite lookup_delete_eq in Hj. destruct (P !! info) as [p|] eqn:Ep; [|done].
      destruct (g_apart _ _ _ Hg _ _ Ep). congruence.
    - apply Hji, (g_inj _ _ _ Hg _ _ (slot (addrs it))); [|done]. unfold slot_of in *. cbn in Hj. by rewrite lookup_delete_ne in Hj. }
  unfold unmap_on_drop, mbind. destruct res as [u|e]; cbn [sys_object_unmap]; [|by apply op_ok_ret with h].
  apply release_held_ok with h; [by apply (good_kern_delete _ _ _ _ Hg')|done|by apply (g_held _ _ _ Hg info)|done].
Qed.

(** ** Runs

    The steps of a monitor whose threads interleave: each call of [Space::map] is the three
    steps of its two critical sections and the system call between them, and the others
    run under the lock.  A call of [map] starts when no other is in the middle of mapping
    the same object with the same flags.  A handle is allocated on the heap, so there are
    fewer than [2^64] of them. *)
Inductive run : relation (World R * Calls) :=
| run_begin w P info o w' : P !! info = None -> room w -> map_begin info w = (o, w') -> run (w, P) (w', begun_calls info o P)
| run_call w P info s res o w' : P !! info = Some (Asked s) -> sys_object_map info s res w = (o, w') -> run (w, P) (w', <[info := Called s res]> P)
| run_finish w P info s res o w' : P !! info = Some (Called s res) -> map_finish info s res w = (o, w') -> run (w, P) (w', delete info P)
| run_map_pair w P info info2 res res2 resu o w' : maps w !! info = None -> maps w !! info2 = None ->
    P !! info = None -> P !! info2 = None -> info <> info2 -> map_pair info info2 res res2 resu w = (o, w') -> run (w, P) (w', P)
| run_drop w P i o w' : handle_dropped i w = (o, w') -> run (w, P) (w', P)
| run_unmap w P res o w' : unmapper_turn res w = (o, w') -> run (w, P) (w', P).

Definition space_inv (x : World R * Calls) : Prop := mapped x.2 x.1 /\ (dead x.1 = false -> exists h, good x.2 x.1 h).

Lemma good_inv P w h : good P w h -> space_inv (w, P).
Proof. intros Hg. split; [by eapply good_mapped|]. intros _. by exists h. Qed.

Lemma op_ok_inv P {A} (x : outcome A * World R) : (x.1 = Panic -> dead x.2 = true) -> op_ok P x -> space_inv (x.2, P).
Proof.
  intros Hp [(a & _ & _ & h & Hg)|[Ep Hm]]; [by eapply good_inv|]. split; [done|]. cbn. by rewrite Hp.
Qed.

Lemma guarded_panic {A} (m : M A) w : (guarded m w).1 = Panic -> dead (guarded m w).2 = true.
Proof. unfold guarded. destruct (dead w) eqn:E; [done|]. by destruct (m w) as [[]]. Qed.

Lemma guarded_dead {A} (m : M A) w : dead w = true -> guarded m w = (Panic, w).
Proof. intros E. unfold guarded. by rewrite E. Qed.

Lemma unmapper_panic res w : (unmapper_turn res w).1 = Panic -> dead (unmapper_turn res w).2 = true.
Proof. unfold unmapper_turn. destruct (unmaps w); [done|]. apply guarded_panic. Qed.

(** Of the steps of a poisoned space only the system call of a thread inside [map] changes
    what is mapped. *)
Lemma mapped_less P P' w w' : mapped P w -> kern w' = kern w -> (forall m, m ∈ live w' -> m ∈ live w) ->
  (forall info s, P' !! info = Some (Asked s) -> P !! info = Some (Asked s)) -> mapped P' w'.
Proof.
  intros Hm Hk Hl Hp m Hin. destruct (Hm m (Hl m Hin)) as [Hi Ha]. split; [by destruct Hi; split; rewrite ?Hk|]. intros info s Hs. exact (Ha info s (Hp _ _ Hs)).
Qed.

Lemma asked_delete (P : Calls) j info s : delete j P !! info = Some (Asked s) -> P !! info = Some (Asked s).
Proof. by intros [_ ?]%lookup_delete_Some. Qed.

Lemma mapped_call P w info s res : mapped P w -> P !! info = Some (Asked s) -> mapped (<[info := Called s res]> P) (call_world w info s res).
Proof.
  intros Hm Hp m Hin. destruct (Hm m) as [Hi Ha]; [by destruct res|]. pose proof (Ha _ _ Hp) as Hne. split.
  - unfold in_slot. destruct res; cbn; [|done]. by rewrite lookup_insert_ne.
  - intros i s' [[_ [=]]|[_ Hs]]%lookup_insert_Some. exact (Ha i s' Hs).
Qed.

Lemma run_dead P w P' w' : dead w = true -> mapped P w -> run (w, P) (w', P') -> dead w' = true /\ mapped P' w'.
Proof.
  intros Hd Hm Hs. inversion Hs as [? ? ? ? ? _ _ E|? ? ? ? ? ? ? Hp E|? ? ? ? ? ? ? Hp E|? ? ? ? ? ? ? ? ? _ _ _ _ _ E|? ? i ? ? E|? ? ? ? ? E]; subst.
  - unfold map_begin in E. rewrite guarded_dead in E by done. by injection E as <- <-.
  - split; [destruct res; by injection E as _ <-|]. change w' with (o, w').2. rewrite <- E. by apply mapped_call.
  - unfold map_finish in E. rewrite guarded_dead in E by done. injection E as <- <-. split; [done|].
    apply mapped_less with P w; [done..|]. apply asked_delete.
  - unfold map_pair in E. rewrite guarded_dead in E by done. by injection E as _ <-.
  - unfold handle_dropped in E. destruct (live w !! i); injection E as _ <-; [|done]. split; [done|].
    apply mapped_less with P' w; [done..| |done]. intros ?. apply list_elem_of_delete_inv.
  - unfold unmapper_turn in E. destruct (unmaps w); [by injection E as _ <-|]. rewrite guarded_dead in E by done. by injection E as _ <-.
Qed.

Lemma run_inv x x' : space_inv x -> run x x' -> space_inv x'.
Proof.
  destruct x as [w P], x' as [w' P']. intros [Hm Hi] Hs. cbn in Hm, Hi. destruct (dead w) eqn:Hd.
  { destruct (run_dead _ _ _ _ Hd Hm Hs). split; [done|]. cbn. congruence. }
  destruct (Hi eq_refl) as [h Hg].
  inversion Hs as [? ? info o ? Hp Hr E|? ? info s res o ? Hp E|? ? info s res o ? Hp E|? ? info info2 res res2 resu o ? H1 H2 H3 H4 H5 E|? ? i o ? E|? ? res o ? E]; subst.
  - pose proof (map_begin_ok P w h info Hg Hd Hr) as Hok. apply op_ok_inv in Hok; [by rewrite E in Hok|apply guarded_panic].
  - change w' with (o, w').2. rewrite <- E. by eapply good_inv, good_call.
  - change w' with (o, w').2. rewrite <- E. apply op_ok_inv; [apply guarded_panic|by eapply map_finish_ok].
  - change w' with (o, w').2. rewrite <- E. apply op_ok_inv; [apply guarded_panic|by eapply map_pair_ok].
  - change w' with (o, w').2. rewrite <- E. by eapply good_inv, handle_dropped_ok.
  - change w' with (o, w').2. rewrite <- E. apply op_ok_inv; [apply unmapper_panic|by eapply unmapper_turn_ok].
Qed.

(** A call of [Space::map] that nothing interrupts. *)
Lemma map_runs w P info res : P !! info = None -> room w -> rtc run (w, P) ((map info res w).2, P).
Proof.
  intros Hp Hr. unfold map, mbind. destruct (map_begin info w) as [b w1] eqn:E1.
  pose proof (run_begin w P info b w1 Hp Hr E1) as H1. destruct b as [[h|s|]| |]; try by apply rtc_once.
  cbn in H1. eapply rtc_l; [exact H1|]. destruct (sys_object_map info s res w1) as [o2 w2] eqn:E2.
  eapply rtc_l; [eapply run_call; [apply lookup_insert_eq|exact E2]|]. assert (o2 = Ret tt) as -> by (by injection E2 as <- _).
  destruct (map_finish info s res w2) as [o3 w3] eqn:E3.
  eapply rtc_l; [eapply run_finish; [apply lookup_insert_eq|exact E3]|]. rewrite insert_insert_eq, delete_insert_id by done. apply rtc_refl.
Qed.

Definition space_new (r : R) : World R := mkW _ r ∅ ∅ [] [] false.

Lemma space_new_inv r h : ss_good r h ∅ -> space_inv (space_new r, ∅).
Proof.
  intros Hr. apply good_inv with h. split; cbn; [done|..]; try by intros *; unfold slot_of; cbn; rewrite ?lookup_empty.
Qed.

(** C26: however the calls of [map], [map_pair], the drops of handles and the turns of the
    unmapper interleave, with the system call of [map] made outside the lock, and whatever
    the system calls answer: as long as no call of [map] starts while another is mapping
    the same object with the same flags, and pairs are mapped of objects neither mapped nor
    being mapped, every live handle names a slot in which the kernel has the object of the
    handle with its protections, and the addresses of that slot; this stays true when a
    panic has poisoned the space. *)
Theorem handles_stay_mapped r h w P m : ss_good r h ∅ -> rtc run (space_new r, ∅) (w, P) -> m ∈ live w ->
  kern w !! slot (mh_map m) = Some (id (mh_info m), mapflags_into_prot (flags (mh_info m))) /\
  addrs_new (slot (mh_map m)) = Ret (mh_map m).
Proof.
  intros Hr Hs Hm. pose proof (rtc_invariant run space_inv _ _ (space_new_inv r h Hr) run_inv Hs) as [Hmp _]. by apply Hmp.
Qed.

(** Two threads map the same object at once; the handle of the first is then dropped. *)
Definition race (info : MapInfo) : M unit :=
  do! b1 := map_begin info in
  do! b2 := map_begin info in
  match b1, b2 with
  | Missing s1, Missing s2 =>
      do! _ := sys_object_map info s1 (Ok tt) in
      do! _ := sys_object_map info s2 (Ok tt) in
      do! _ := map_finish info s1 (Ok tt) in
      do! _ := map_finish info s2 (Ok tt) in
      do! _ := handle_dropped 1 in
      unmapper_turn (Ok tt)
  | _, _ => mret tt
  end.

(** An object is mapped, then mapped again as the first of a pair; the first handle is
    then dropped. *)
Definition paired (info info2 : MapInfo) : M unit :=
  do! _ := map info (Ok tt) in
  do! _ := map_pair info info2 (Ok tt) (Ok tt) (Ok tt) in
  do! _ := handle_dropped 2 in
  unmapper_turn (Ok tt).
End space.

(** ** Examples, in a space of sixteen slots *)
#[local] Instance space_ex_build : Build := true.
#[local] Instance space_ex_slots : SlotService Runtime := runtime_SlotService ex_size ex_whole_bytes.

Definition ex_info (i : Z) : MapInfo := mkInfo i (mkMF true false true 0).

Definition ex_space : World Runtime := space_new ex_ready.

Lemma ex_ready_good : ss_good ex_ready ∅ ∅.
Proof.
  split; [by vm_compute|]. split; [by vm_compute|].
  by apply (init_slots_inv ex_size ex_whole_bytes 1 (init_slots (boot ex_size 1)).2 ∅ ltac:(done) ltac:(by vm_compute)); intros x ?%not_elem_of_empty.
Qed.

Lemma ex_sizes : 0 <= 4096 <= ex_size /\ SLOTS ex_size <= 2 ^ 63 /\ SLOTS ex_size * ex_size < 2 ^ 64.
Proof. replace (SLOTS ex_size) with 16 by (by vm_compute). unfold ex_size. lia. Qed.

(** Two threads map objects 5 and 6; the kernel is called for 6 first, whose handle is dropped
    and unmapped while object 5 is being mapped. *)
Definition ex_both : World Runtime :=
  (map_begin (ex_info 6) (map_begin (ex_info 5) ex_space).2).2.
Definition ex_called : World Runtime := (sys_object_map (ex_info 5) 3 (Ok tt) (sys_object_map (ex_info 6) 2 (Ok tt) ex_both).2).2.
Definition ex_gone : World Runtime := (unmapper_turn (Ok tt) (handle_dropped 0 (map_finish ex_size 4096 (ex_info 6) 2 (Ok tt) ex_called).2).2).2.
Definition ex_run : World Runtime := (map_finish ex_size 4096 (ex_info 5) 3 (Ok tt) ex_gone).2.

Lemma ex_run_runs : exists P, rtc (run ex_size 4096) (ex_space, ∅) (ex_run, P).
Proof.
  eexists. eapply rtc_l; [eapply (run_begin _ _ ex_space ∅ (ex_info 5)); [done|by vm_compute|apply surjective_pairing]|].
  eapply rtc_l; [eapply (run_begin _ _ _ _ (ex_info 6)); [by vm_compute..|apply surjective_pairing]|].
  eapply rtc_l; [eapply (run_call _ _ _ _ (ex_info 6) 2 (Ok tt)); [by vm_compute|apply surjective_pairing]|].
  eapply rtc_l; [eapply (run_call _ _ _ _ (ex_info 5) 3 (Ok tt)); [by vm_compute|apply surjective_pairing]|].
  eapply rtc_l; [eapply (run_finish _ _ _ _ (ex_info 6) 2 (Ok tt)); [by vm_compute|apply surjective_pairing]|].
  eapply rtc_l; [eapply (run_drop _ _ _ _ 0); apply surjective_pairing|].
  eapply rtc_l; [eapply (run_unmap _ _ _ _ (Ok tt)); apply surjective_pairing|].
  eapply rtc_l; [eapply (run_finish _ _ _ _ (ex_info 5) 3 (Ok tt)); [by vm_compute|apply surjective_pairing]|].
  apply rtc_refl.
Qed.

Lemma handles_stay_mapped_witness : exists m, live ex_run = [m] /\ mh_info m = ex_info 5 /\
  kern ex_run !! slot (mh_map m) = Some (5, mkProt true false true) /\ kern ex_run !! 2 = None.
Proof.
  exists (mkMH (ex_info 5) (mkAddrs 3 (3 * 2 ^ 43) (4 * 2 ^ 43 - 4096))). destruct ex_run_runs as [P HP].
  destruct (@handles_stay_mapped space_ex_build Runtime space_ex_slots ex_size 4096 ex_sizes ex_ready ∅ ex_run P
    (mkMH (ex_info 5) (mkAddrs 3 (3 * 2 ^ 43) (4 * 2 ^ 43 - 4096))) ex_ready_good HP) as [Hk _].
  - vm_compute. by left.
  - split; [by vm_compute|]. split; [reflexivity|]. split; [exact Hk|by vm_compute].
Defined.

(** When two threads map the same object at once, or a pair is mapped of an object
    already mapped, the table keeps one entry for two slots: dropping one handle unmaps
    the slot of the other, which is still live. *)
Theorem mapped_twice_unmaps_live :
  (let w := (race ex_size 4096 (ex_info 5) ex_space).2 in
   (exists m, live w = [m] /\ mh_info m = ex_info 5 /\ kern w !! slot (mh_map m) = None)) /\
  (let w := (paired ex_size 4096 (ex_info 5) (ex_info 6) ex_space).2 in
   (exists m m2, live w = [m2; m] /\ mh_info m = ex_info 5 /\ kern w !! slot (mh_map m) = None)).
Proof.
  split; cbv zeta.
  - exists (mkMH (ex_info 5) (mkAddrs 2 (2 * 2 ^ 43) (3 * 2 ^ 43 - 4096))). split; [by vm_compute|]. split; [done|]. by vm_compute.
  - exists (mkMH (ex_info 5) (mkAddrs 4 (4 * 2 ^ 43) (5 * 2 ^ 43 - 4096))), (mkMH (ex_info 6) (mkAddrs 5 (5 * 2 ^ 43) (6 * 2 ^ 43 - 4096))).
    split; [by vm_compute|]. split; [done|]. by vm_compute.
Qed.
End Space.
