(* ===== verification/Pty.v ===== *)
(** * Pseudo-terminals ([src/lib/twizzler-io/src/pty.rs])

    The line discipline: [input_map] translates carriage returns and newlines of the
    input in place, [OutputConverter] those of the output, [InputConverter] assembles
    lines with erasing and end of file, and [InputPoster] hands input to the client, posts
    signals and echoes.

    Buffers are lists of bytes; a mutable slice that the code narrows as it goes is the
    part still to be worked on, next to the parts before and after it.  The searches of
    the [memchr] crate and the constants of [libc] are not in this repository: they are
    the classes [Memchr] and [Libc].  Readers and writers are the classes [Read] and
    [Write]; the promise of a bounded buffer at the other end is [Source] and [Sink].
    The readers and writers of this file never return [ErrorKind::Interrupted], so the
    kind is left out.

    Loops whose progress depends on the writer take fuel: [NoFuel] for every fuel means
    that the code does not return. *)
From S2P Require Import Prelude.

#[local] Open Scope Z_scope.

Module Pty.

(** ** Outside the repository *)

(** The first and the last position at which a byte passes a test. *)
Fixpoint find_first (p : Z -> bool) (l : list Z) : option nat :=
  match l with
  | [] => None
  | x :: l => if p x then Some 0%nat else S <$> find_first p l
  end.

Fixpoint find_last (p : Z -> bool) (l : list Z) : option nat :=
  match l with
  | [] => None
  | x :: l => match find_last p l with
              | Some i => Some (S i)
              | None => if p x then Some 0%nat else None
              end
  end.

Definition is1 (a x : Z) : bool := x =? a.
Definition is2 (a b x : Z) : bool := (x =? a) || (x =? b).
Definition is3 (a b c x : Z) : bool := (x =? a) || (x =? b) || (x =? c).

Class Memchr := {
  memchr : Z -> list Z -> option nat;
  memchr2 : Z -> Z -> list Z -> option nat;
  memchr3 : Z -> Z -> Z -> list Z -> option nat;
  memrchr : Z -> list Z -> option nat;
  memrchr3 : Z -> Z -> Z -> list Z -> option nat;
  memchr_law a l : memchr a l = find_first (is1 a) l;
  memchr2_law a b l : memchr2 a b l = find_first (is2 a b) l;
  memchr3_law a b c l : memchr3 a b c l = find_first (is3 a b c) l;
  memrchr_law a l : memrchr a l = find_last (is1 a) l;
  memrchr3_law a b c l : memrchr3 a b c l = find_last (is3 a b c) l
}.

(** The size of the array of control characters, and the constants used. *)
Definition NCCS : nat := 32.

Class Libc := {
  INLCR : Z; IGNCR : Z; ICRNL : Z;
  OPOST : Z; OCRNL : Z; ONLCR : Z;
  ICANON : Z; ECHO : Z; ECHOE : Z; ECHOK : Z; ECHONL : Z;
  VINTR : nat; VQUIT : nat; VSTATUS : nat; VEOF : nat; VERASE : nat; VWERASE : nat; VKILL : nat;
  cc_index_law : Forall (fun i => (i < NCCS)%nat) [VINTR; VQUIT; VSTATUS; VEOF; VERASE; VWERASE; VKILL]
}.

Record termios := mkTermios { c_iflag : Z; c_oflag : Z; c_lflag : Z; c_cc : list Z }.

Inductive ErrorKind := WouldBlock | WriteZero | OtherKind.

(** [Read::read] into a buffer of [n] bytes gives the bytes; [Write::write] gives the
    number of bytes taken. *)
Class Read (R : Type) := read : R -> nat -> outcome (result (list Z) ErrorKind * R).
Class Write (W : Type) := write : W -> list Z -> outcome (result nat ErrorKind * W).

(** The [?] operator on a state that may fail. *)
Definition rbind {A B S} (m : outcome (result A ErrorKind * S)) (k : A -> S -> outcome (result B ErrorKind * S)) :
    outcome (result B ErrorKind * S) :=
  let! (r, s) := m in
  match r with Ok a => k a s | Err e => Ret (Err e, s) end.

Notation "'let?' ( x , s ) ':=' m 'in' k" := (rbind m (fun x s => k))
  (at level 10, x name, s name, m at level 100, k at level 200) : outcome_scope.

(** [Write::write_all]: a write that takes nothing is an error. *)
Fixpoint write_all_loop `{Write W} (fuel : nat) (w : W) (buf : list Z) : outcome (result unit ErrorKind * W) :=
  match buf with
  | [] => Ret (Ok tt, w)
  | _ =>
      match fuel with
      | O => NoFuel
      | S f =>
          let? (n, w) := write w buf in
          if Nat.eqb n 0 then Ret (Err WriteZero, w) else write_all_loop f w (drop n buf)
      end
  end.

(** Every turn takes at least a byte. *)
Definition write_all `{Write W} (w : W) (buf : list Z) : outcome (result unit ErrorKind * W) :=
  write_all_loop (length buf) w buf.

(** ** Slices *)

(** [slice.copy_within(src.., dest)] *)
Definition copy_within (l : list Z) (src dest : nat) : outcome (list Z) :=
  let! _ := rassert ((src <=? length l)%nat && (dest <=? src)%nat) in
  Ret (take dest l ++ drop src l ++ drop (dest + (length l - src)) l).

(** [slice[at..at + src.len()].copy_from_slice(src)] *)
Definition copy_in (l : list Z) (at_ : nat) (src : list Z) : outcome (list Z) :=
  let! _ := rassert (at_ + length src <=? length l)%nat in
  Ret (take at_ l ++ src ++ drop (at_ + length src) l).

Definition CR : Z := 13.
Definition NL : Z := 10.
Definition TAB : Z := 9.
Definition SPACE : Z := 32.
Definition BS : Z := 8.

Definition BUF_SZ : nat := Z.to_nat 8192.
#[global] Opaque BUF_SZ.

(** [x & 0o37] *)
Definition ctrl (x : Z) : Z := Z.land x 31.

Definition CERASE : Z := 127.
Definition CKILL : Z := ctrl 117.
Definition CWERASE : Z := ctrl 119.

Section pty.
Context `{Libc, Memchr}.

Definition flag (f bit : Z) : bool := negb (Z.land f bit =? 0).

(** [termios.c_cc[i]] *)
Definition cc (t : termios) (i : nat) : outcome Z := unwrap (c_cc t !! i).

(** ** Mapping the input

    The bytes done with, the slice still to be mapped, and what was cut off its end. *)
Fixpoint input_map_loop (fuel : nat) (nl_to_cr ignore_cr cr_to_nl : bool) (pre buf post : list Z) (total : nat) :
    outcome (list Z * nat) :=
  match buf with
  | [] => Ret (pre ++ post, total)
  | _ =>
      match fuel with
      | O => NoFuel
      | S f =>
          let search_ln := nl_to_cr in
          let search_cr := ignore_cr || cr_to_nl in
          let! idx := (if search_ln && search_cr then Ret (memchr2 CR NL buf)
                       else if search_cr then Ret (memchr CR buf)
                       else if search_ln then Ret (memchr NL buf)
                       else Panic) in
          let squash idx :=
            let! buf' := copy_within buf (S idx) idx in
            let newend := (length buf - 1)%nat in
            input_map_loop f nl_to_cr ignore_cr cr_to_nl (pre ++ take idx buf')
              (drop idx (take newend buf')) (drop newend buf' ++ post) (total + idx) in
          let replace idx c :=
            let buf' := <[idx := c]> buf in
            input_map_loop f nl_to_cr ignore_cr cr_to_nl (pre ++ take (S idx) buf')
              (drop (S idx) buf') post (total + S idx) in
          match idx with
          | Some idx =>
              let! c := unwrap (buf !! idx) in
              if (c =? CR) && ignore_cr then squash idx
              else if (c =? CR) && cr_to_nl then replace idx NL
              else if (c =? NL) && nl_to_cr && ignore_cr then squash idx
              else if (c =? NL) && nl_to_cr then replace idx CR
              else Panic
          | None => Ret (pre ++ buf ++ post, (total + length buf)%nat)
          end
      end
  end.

(** The whole buffer afterwards, and the number of bytes of it that are input. *)
Definition input_map (t : termios) (buf : list Z) : outcome (list Z * nat) :=
  let nl_to_cr := flag (c_iflag t) INLCR in
  let ignore_cr := flag (c_iflag t) IGNCR in
  let cr_to_nl := flag (c_iflag t) ICRNL in
  let search_ln := nl_to_cr in
  let search_cr := ignore_cr || cr_to_nl in
  if negb search_cr && negb search_ln then Ret (buf, length buf)
  else input_map_loop (length buf) nl_to_cr ignore_cr cr_to_nl [] buf [] 0.

(** ** Output *)
Record OutputConverter (W : Type) := mkOC { oc_termios : termios; oc_writer : W }.
Arguments mkOC {W}.
Arguments oc_termios {W}.
Arguments oc_writer {W}.

Section output.
Context `{Write W}.

(** What to write of the slice, and what to write for the byte after it. *)
Definition split_output (cr_to_nl nl_to_crnl : bool) (buf : list Z) : outcome (nat * option (list Z)) :=
  match memchr2 CR NL buf with
  | Some idx =>
      let! c := unwrap (buf !! idx) in
      Ret (if (c =? CR) && cr_to_nl then if nl_to_crnl then (idx, Some [CR; NL]) else (idx, Some [NL])
           else if (c =? NL) && nl_to_crnl then (idx, Some [CR; NL])
           else (S idx, None))
  | None => Ret (length buf, None)
  end.

Fixpoint processed_loop (fuel : nat) (cr_to_nl nl_to_crnl : bool) (w : W) (buf : list Z) (total : nat) :
    outcome (result nat ErrorKind * W) :=
  match buf with
  | [] => Ret (Ok total, w)
  | _ =>
      match fuel with
      | O => NoFuel
      | S f =>
          let! (count, extra) := split_output cr_to_nl nl_to_crnl buf in
          let? (thiswrite, w) := write w (take count buf) in
          let total := (total + thiswrite)%nat in
          let buf := drop thiswrite buf in
          match extra with
          | Some extra =>
              let? (u, w) := write_all w extra in
              let! _ := rassert (1 <=? length buf)%nat in
              processed_loop f cr_to_nl nl_to_crnl w (drop 1 buf) (total + 1)
          | None => processed_loop f cr_to_nl nl_to_crnl w buf total
          end
      end
  end.

Definition write_bytes_simple (w : W) (buf : list Z) : outcome (result nat ErrorKind * W) := write w buf.

Definition write_bytes_processed (fuel : nat) (t : termios) (w : W) (buf : list Z) : outcome (result nat ErrorKind * W) :=
  let cr_to_nl := flag (c_oflag t) OCRNL in
  let nl_to_crnl := flag (c_oflag t) ONLCR in
  if negb cr_to_nl && negb nl_to_crnl then write_bytes_simple w buf
  else processed_loop fuel cr_to_nl nl_to_crnl w buf 0.

Definition oc_write (fuel : nat) (oc : OutputConverter W) (buf : list Z) :
    outcome (result nat ErrorKind * OutputConverter W) :=
  let t := oc_termios oc in
  let! (r, w) := (if flag (c_oflag t) OPOST then write_bytes_processed fuel t (oc_writer oc) buf
                  else write_bytes_simple (oc_writer oc) buf) in
  Ret (r, mkOC t w).
End output.

(** ** Lines *)
Record InputConverter (R : Type) := mkIC {
  ic_termios : termios; linebuf : list Z; linebuf_count : nat; ic_reader : R }.
Arguments mkIC {R}.
Arguments ic_termios {R}.
Arguments linebuf {R}.
Arguments linebuf_count {R}.
Arguments ic_reader {R}.

Section input.
Context `{Read R}.

Definition ic_new (t : termios) (r : R) : InputConverter R := mkIC t (replicate BUF_SZ 0) 0 r.

(** Where the bytes before the erasing character at [idx] stay. *)
Definition erase_to (verase vwerase vkill : Z) (lb : list Z) (idx : nat) : outcome nat :=
  let! c := unwrap (lb !! idx) in
  if c =? verase then
    if (0 <? idx)%nat then
      let! b := unwrap (lb !! (idx - 1)%nat) in
      Ret (if negb (b =? NL) then (idx - 1)%nat else idx)
    else Ret 0%nat
  else if c =? vwerase then
    Ret (match memrchr3 NL SPACE TAB (take idx lb) with Some i => S i | None => 0%nat end)
  else if c =? vkill then
    Ret (match memrchr NL (take idx lb) with Some i => S i | None => 0%nat end)
  else Panic.

Definition refill_linebuf (ic : InputConverter R) : outcome (result unit ErrorKind * InputConverter R) :=
  let t := ic_termios ic in
  let slice := drop (linebuf_count ic) (linebuf ic) in
  let! (r, rd) := read (ic_reader ic) (length slice) in
  match r with
  | Err e => Ret (Err e, mkIC t (linebuf ic) (linebuf_count ic) rd)
  | Ok bytes =>
      let! (mapped, count) := input_map t bytes in
      let slice := mapped ++ drop (length bytes) slice in
      let lb := take (linebuf_count ic) (linebuf ic) ++ slice in
      let! verase := cc t VERASE in
      let! vwerase := cc t VWERASE in
      let! vkill := cc t VKILL in
      match memchr3 verase vwerase vkill (take count slice) with
      | Some i =>
          let idx := (i + linebuf_count ic)%nat in
          let! rev_idx := erase_to verase vwerase vkill lb idx in
          let! lb' := copy_within lb (S idx) rev_idx in
          let gone := Nat.max (idx - rev_idx) 1 in
          Ret (Ok tt, mkIC t lb' ((linebuf_count ic - gone) + (count - gone))%nat rd)
      | None => Ret (Ok tt, mkIC t lb (linebuf_count ic + count)%nat rd)
      end
  end.

(** The bytes handed out, into a buffer of [n], and whether a line ended. *)
Definition drain_linebuf (ic : InputConverter R) (n : nat) : outcome (list Z * bool * InputConverter R) :=
  let t := ic_termios ic in
  let count := Nat.min n (linebuf_count ic) in
  let lb := take count (linebuf ic) in
  let end_ := Nat.eqb (linebuf_count ic) BUF_SZ in
  let! veof := cc t VEOF in
  let! (ic, count, end_) :=
    match memchr2 NL veof lb with
    | Some idx =>
        let! c := unwrap (lb !! idx) in
        if c =? NL then Ret (ic, S idx, true)
        else if c =? veof then
          let! lb' := copy_within (linebuf ic) (S idx) idx in
          Ret (mkIC t lb' (linebuf_count ic - 1)%nat (ic_reader ic), idx, true)
        else Ret (ic, count, true)
    | None => Ret (ic, count, end_)
    end in
  if end_ : bool then
    let! lb' := copy_within (linebuf ic) count 0 in
    Ret (take count (linebuf ic), true, mkIC t lb' (linebuf_count ic - count)%nat (ic_reader ic))
  else Ret ([], false, ic).

(** [got] is what the caller's buffer holds so far, [n] the room left in it. *)
Fixpoint read_canon_loop (fuel : nat) (ic : InputConverter R) (n : nat) (got : list Z) :
    outcome (result (list Z) ErrorKind * InputConverter R) :=
  match n with
  | O => Ret (Ok got, ic)
  | _ =>
      match fuel with
      | O => NoFuel
      | S f =>
          let? (u, ic) := refill_linebuf ic in
          if Nat.eqb (linebuf_count ic) 0 then
            if Nat.eqb (length got) 0 then Ret (Err WouldBlock, ic) else Ret (Ok got, ic)
          else
            let! (bytes, end_, ic) := drain_linebuf ic n in
            if end_ : bool then Ret (Ok (got ++ bytes), ic)
            else read_canon_loop f ic (n - length bytes)%nat (got ++ bytes)
      end
  end.

Definition read_canon (fuel : nat) (ic : InputConverter R) (n : nat) : outcome (result (list Z) ErrorKind * InputConverter R) :=
  read_canon_loop fuel ic n [].

Fixpoint read_raw_loop (fuel : nat) (ic : InputConverter R) (n : nat) (got : list Z) :
    outcome (result (list Z) ErrorKind * InputConverter R) :=
  match n with
  | O => Ret (Ok got, ic)
  | _ =>
      match fuel with
      | O => NoFuel
      | S f =>
          let! (r, rd) := read (ic_reader ic) n in
          let ic := mkIC (ic_termios ic) (linebuf ic) (linebuf_count ic) rd in
          match r with
          | Err WouldBlock => if (0 <? length got)%nat then Ret (Ok got, ic) else Ret (Err WouldBlock, ic)
          | Err e => Ret (Err e, ic)
          | Ok bytes =>
              if Nat.eqb (length bytes) 0 then Ret (Ok got, ic)
              else
                let! (mapped, thisread) := input_map (ic_termios ic) bytes in
                read_raw_loop f ic (n - thisread)%nat (got ++ take thisread mapped)
          end
      end
  end.

Definition read_raw (fuel : nat) (ic : InputConverter R) (n : nat) : outcome (result (list Z) ErrorKind * InputConverter R) :=
  read_raw_loop fuel ic n [].

Definition ic_read (fuel : nat) (ic : InputConverter R) (n : nat) : outcome (result (list Z) ErrorKind * InputConverter R) :=
  if flag (c_lflag (ic_termios ic)) ICANON then read_canon fuel ic n else read_raw fuel ic n.
End input.

(** ** Posting input *)
Record InputPoster (W E : Type) := mkIP {
  ip_termios : termios; ip_writer : W; echoer : E; echobuf : list Z; echobuf_len : nat }.
Arguments mkIP {W E}.
Arguments ip_termios {W E}.
Arguments ip_writer {W E}.
Arguments echoer {W E}.
Arguments echobuf {W E}.
Arguments echobuf_len {W E}.

Inductive PtySignal := Interrupt | Quit | Status | Winch.

Record WriteReport := mkReport { consumed : nat; posted_signal : option PtySignal }.

Section poster.
Context `{Write W, Write E}.

Definition ip_new (t : termios) (w : W) (e : E) : InputPoster W E := mkIP t w e (replicate BUF_SZ 0) 0.

Definition set_echo (p : InputPoster W E) (buf : list Z) (len : nat) : InputPoster W E :=
  mkIP (ip_termios p) (ip_writer p) (echoer p) buf len.

(** [self.echoer.write_all(bytes)?] *)
Definition echo (p : InputPoster W E) (bytes : list Z) : outcome (result unit ErrorKind * InputPoster W E) :=
  let! (r, e) := write_all (echoer p) bytes in
  Ret (r, mkIP (ip_termios p) (ip_writer p) e (echobuf p) (echobuf_len p)).

Fixpoint echo_times (n : nat) (p : InputPoster W E) (bytes : list Z) : outcome (result unit ErrorKind * InputPoster W E) :=
  match n with
  | O => Ret (Ok tt, p)
  | S n => let? (u, p) := echo p bytes in echo_times n p bytes
  end.

Definition erase_chars (p : InputPoster W E) (erase_start erase_char : nat) : outcome (InputPoster W E) :=
  let! b := copy_within (echobuf p) (S erase_char) erase_start in
  Ret (set_echo p b (echobuf_len p - (S erase_char - erase_start))%nat).

(** Echo the erasing of a word or line up to [idx], whose characters start after
    [space]. *)
Definition echo_erase_from (p : InputPoster W E) (space idx : nat) : outcome (result unit ErrorKind * InputPoster W E) :=
  let? (u, p) := echo_times (Nat.max (idx - S space) 1) p [BS; SPACE; BS] in
  let! p := (if Nat.eqb (S space) idx then erase_chars p space idx else erase_chars p (S space) idx) in
  Ret (Ok tt, p).

(** One turn of the inner loop from [cur]: the number of bytes dealt with. *)
Definition echo_turn (echoe echok : bool) (p : InputPoster W E) (cur : nat) :
    outcome (result nat ErrorKind * InputPoster W E) :=
  let eb := take (echobuf_len p - cur) (drop cur (echobuf p)) in
  let erase_idx := memchr3 CERASE CKILL CWERASE eb in
  let nl_idx := memchr NL eb in
  let min_idx := match erase_idx, nl_idx with
                 | Some e, Some n => Some (Nat.min e n)
                 | Some e, None => Some e
                 | None, n => n
                 end in
  match min_idx with
  | Some idx =>
      let? (u, p) := (if (0 <? idx)%nat then echo p (take idx eb) else Ret (Ok tt, p)) in
      let! c := unwrap (eb !! idx) in
      let? (u, p) :=
        (if (c =? CERASE) && echoe then
           let? (u, p) := echo p [BS; SPACE; BS] in
           let! p := erase_chars p (cur + idx - 1) (cur + idx) in
           Ret (Ok tt, p)
         else if (c =? CKILL) && echok then
           echo_erase_from p (default 0%nat (memrchr NL (take (idx + cur) (echobuf p)))) (idx + cur)
         else if (c =? CWERASE) && echoe then
           echo_erase_from p (default 0%nat (memrchr3 NL TAB SPACE (take (idx + cur) (echobuf p)))) (idx + cur)
         else if c =? NL then
           let? (u, p) := echo p [c] in
           Ret (Ok tt, set_echo p (echobuf p) 0)
         else echo p [c]) in
      Ret (Ok (S idx), p)
  | None =>
      let? (u, p) := echo p eb in
      Ret (Ok (length eb), p)
  end.

Fixpoint echo_inner (fuel : nat) (echoe echok : bool) (p : InputPoster W E) (cur : nat) :
    outcome (result unit ErrorKind * InputPoster W E) :=
  if (cur <? echobuf_len p)%nat then
    match fuel with
    | O => NoFuel
    | S f => let? (n, p) := echo_turn echoe echok p cur in echo_inner f echoe echok p (cur + n)
    end
  else Ret (Ok tt, p).

Fixpoint echo_outer (fuel : nat) (echoe echok : bool) (p : InputPoster W E) (buf : list Z) :
    outcome (result unit ErrorKind * InputPoster W E) :=
  match buf with
  | [] => Ret (Ok tt, p)
  | _ =>
      match fuel with
      | O => NoFuel
      | S f =>
          let p := if Nat.eqb (echobuf_len p) BUF_SZ then set_echo p (echobuf p) 0 else p in
          let thislen := Nat.min (BUF_SZ - echobuf_len p) (length buf) in
          let! b := copy_in (echobuf p) (echobuf_len p) (take thislen buf) in
          let cur := echobuf_len p in
          let p := set_echo p b (echobuf_len p + thislen)%nat in
          let? (u, p) := echo_inner BUF_SZ echoe echok p cur in
          echo_outer f echoe echok p (drop thislen buf)
      end
  end.

Definition maybe_echo (p : InputPoster W E) (buf : list Z) : outcome (result unit ErrorKind * InputPoster W E) :=
  let l := c_lflag (ip_termios p) in
  let echo_ := flag l ECHO in
  let echoe := flag l ECHOE && flag l ICANON in
  let echok := flag l ECHOK && flag l ICANON in
  let echonl := flag l ECHONL && flag l ICANON in
  if negb echo_ && negb echonl then Ret (Ok tt, p)
  else if negb echo_ then
    echo_times (length (filter (fun c => c = NL) buf)) (set_echo p (echobuf p) 0) [NL]
  else echo_outer (length buf) echoe echok p buf.

(** Echo the bytes written, in chunks; a chunk counts for what is left of it after
    mapping. *)
Fixpoint echo_written (fuel : nat) (p : InputPoster W E) (written : list Z) (ecount : nat) :
    outcome (result unit ErrorKind * InputPoster W E) :=
  if (ecount <? length written)%nat then
    match fuel with
    | O => NoFuel
    | S f =>
        let rest := drop ecount written in
        let! _ := rassert (length rest <=? BUF_SZ)%nat in
        let! (mapped, c) := input_map (ip_termios p) rest in
        let? (u, p) := maybe_echo p (take c mapped) in
        echo_written f p written (ecount + c)
    end
  else Ret (Ok tt, p).

(** The bytes to write, and the signal of the character after them. *)
Definition split_input (vintr vquit vstatus : Z) (buf : list Z) : outcome (nat * option PtySignal) :=
  match memchr3 vstatus vintr vquit buf with
  | Some idx =>
      let! c := unwrap (buf !! idx) in
      if c =? vintr then Ret (idx, Some Interrupt)
      else if c =? vquit then Ret (idx, Some Quit)
      else if c =? vstatus then Ret (idx, Some Status)
      else Panic
  | None => Ret (length buf, None)
  end.

Fixpoint write_input_loop (fuel : nat) (vintr vquit vstatus : Z) (p : InputPoster W E) (buf : list Z)
    (total : nat) (sig : option PtySignal) : outcome (result WriteReport ErrorKind * InputPoster W E) :=
  match buf, sig with
  | _ :: _, None =>
      match fuel with
      | O => NoFuel
      | S f =>
          let! (count, sig) := split_input vintr vquit vstatus buf in
          let skip := match sig with Some _ => true | None => false end in
          let! (r, w) := write (ip_writer p) (take count buf) in
          let p := mkIP (ip_termios p) w (echoer p) (echobuf p) (echobuf_len p) in
          match r with
          | Err e => Ret (Err e, p)
          | Ok wcount =>
              let? (u, p) := echo_written f p (take wcount buf) 0 in
              let total := (total + wcount)%nat in
              let buf := drop wcount buf in
              if skip && Nat.eqb wcount count
              then write_input_loop f vintr vquit vstatus p (drop 1 buf) (total + 1) sig
              else write_input_loop f vintr vquit vstatus p buf total sig
          end
      end
  | _, _ => Ret (Ok (mkReport total sig), p)
  end.

Definition write_input (fuel : nat) (p : InputPoster W E) (buf : list Z) : outcome (result WriteReport ErrorKind * InputPoster W E) :=
  let! vintr := cc (ip_termios p) VINTR in
  let! vquit := cc (ip_termios p) VQUIT in
  let! vstatus := cc (ip_termios p) VSTATUS in
  write_input_loop fuel vintr vquit vstatus p buf 0 None.
End poster.
End pty.
Arguments mkOC {W}.
Arguments oc_termios {W}.
Arguments oc_writer {W}.
Arguments mkIC {R}.
Arguments ic_termios {R}.
Arguments linebuf {R}.
Arguments linebuf_count {R}.
Arguments ic_reader {R}.
Arguments mkIP {W E}.
Arguments ip_termios {W E}.
Arguments ip_writer {W E}.
Arguments echoer {W E}.
Arguments echobuf {W E}.
Arguments echobuf_len {W E}.
End Pty.
