(* ===== verification/PtyInv.v ===== *)
(** * What the line discipline does

    [input_map_spec]: mapping in place is the bytewise translation.  Against any bounded
    buffer ([Sink], [Source]): [oc_write_spec], output is the bytewise expansion, and
    [oc_write_spin], it does not return when the buffer fills up; [read_canon_line],
    [read_canon_nothing], [read_canon_blocks], when a line is read and when not;
    [canon_total], reading lines always returns, on any input; [read_raw_loop_spec],
    reading without lines. *)
From S2P Require Import Prelude Pty.
Import Pty.

#[local] Open Scope Z_scope.

Module PtyInv.

(** ** Bounded buffers

    [sink_rep w c r]: [w] holds the bytes [c] and has room for [r] more.  [source_rep rd
    a]: the bytes [a] can be read. *)
Class Sink (W : Type) `{Write W} := {
  sink_rep : W -> list Z -> nat -> Prop;
  sink_law w c r buf : sink_rep w c r ->
    let k := Nat.min (length buf) r in
    exists w', write w buf = Ret (Ok k, w') /\ sink_rep w' (c ++ take k buf) (r - k)
}.

Class Source (R : Type) `{Read R} := {
  source_rep : R -> list Z -> Prop;
  source_law rd a n : source_rep rd a ->
    exists rd', read rd n = Ret (if (0 <? n)%nat && Nat.eqb (length a) 0 then Err WouldBlock else Ok (take n a), rd') /\
      source_rep rd' (drop n a)
}.

(** ** Searching *)
Lemma find_first_Some p l i : find_first p l = Some i ->
  exists pre x post, l = pre ++ x :: post /\ length pre = i /\ p x = true /\ Forall (fun y => p y = false) pre.
Proof.
  revert i. induction l as [|a l IH]; intros i; cbn; [done|]. destruct (p a) eqn:Ea.
  - intros [= <-]. by exists [], a, l.
  - destruct (find_first p l) as [j|]; [|done]. intros [= <-]. destruct (IH j eq_refl) as (pre & x & post & -> & <- & Hx & Hp).
    exists (a :: pre), x, post. split; [done|]. split; [done|]. split; [done|]. by constructor.
Qed.

Lemma find_first_None p l : find_first p l = None <-> Forall (fun y => p y = false) l.
Proof.
  induction l as [|a l IH]; cbn; [done|]. rewrite Forall_cons, <- IH. destruct (p a); [naive_solver|].
  destruct (find_first p l); naive_solver.
Qed.

Lemma find_first_app p pre x post : Forall (fun y => p y = false) pre -> p x = true ->
  find_first p (pre ++ x :: post) = Some (length pre).
Proof. intros Hp Hx. induction Hp as [|a pre Ha _ IH]; cbn; [by rewrite Hx|]. by rewrite Ha, IH. Qed.

Lemma find_first_ext p q l : (forall x, p x = q x) -> find_first p l = find_first q l.
Proof. intros E. induction l as [|a l IH]; cbn; [done|]. by rewrite E, IH. Qed.

Lemma find_last_lt p l i : find_last p l = Some i -> (i < length l)%nat.
Proof.
  revert i. induction l as [|a l IH]; intros i; cbn; [done|]. destruct (find_last p l) as [j|].
  - intros [= <-]. specialize (IH j eq_refl). lia.
  - destruct (p a); [|done]. intros [= <-]. lia.
Qed.

(** ** Slices *)
Lemma copy_within_spec l src dest : (dest <= src <= length l)%nat ->
  exists l', copy_within l src dest = Ret l' /\ length l' = length l /\
    take (dest + (length l - src)) l' = take dest l ++ drop src l.
Proof.
  intros Hd. unfold copy_within. rewrite (proj2 (Nat.leb_le src _)), (proj2 (Nat.leb_le dest _)) by lia. cbn.
  eexists. split; [done|]. split; [rewrite !length_app, length_take, !length_drop; lia|].
  rewrite app_assoc, take_app_le by (rewrite length_app, length_take, length_drop; lia).
  apply take_ge. rewrite length_app, length_take, length_drop. lia.
Qed.

Lemma drop_middle (pre : list Z) x post : drop (S (length pre)) (pre ++ x :: post) = post.
Proof. rewrite cons_middle, app_assoc. apply drop_app_length'. rewrite length_app. cbn. lia. Qed.

Lemma take_middle (pre : list Z) x post : take (S (length pre)) (pre ++ x :: post) = pre ++ [x].
Proof. rewrite take_app, take_ge by lia. by replace (S (length pre) - length pre)%nat with 1%nat by lia. Qed.

(** Taking one byte out. *)
Lemma copy_within_one pre x post : exists y, copy_within (pre ++ x :: post) (S (length pre)) (length pre) = Ret (pre ++ post ++ [y]).
Proof.
  unfold copy_within. set (l := pre ++ x :: post). assert (length l = length pre + S (length post))%nat as Hl by apply length_app.
  rewrite (proj2 (Nat.leb_le _ _)), (proj2 (Nat.leb_le _ _)) by lia. cbn [andb rassert obind].
  destruct (drop (length pre + (length l - S (length pre))) l) as [|y [|z k]] eqn:Ed; apply (f_equal length) in Ed;
    rewrite length_drop in Ed; cbn in Ed; [lia| |lia].
  exists y. unfold l. by rewrite take_app_length, drop_middle.
Qed.

Lemma lookup_middle (pre : list Z) x post : (pre ++ x :: post) !! length pre = Some x.
Proof. by apply list_lookup_middle. Qed.

(** ** Mapping the input *)
Section map.
Context `{Libc, Memchr}.

Definition imap1 (nl_to_cr ignore_cr cr_to_nl : bool) (c : Z) : list Z :=
  if c =? CR then if ignore_cr then [] else if cr_to_nl then [NL] else [c]
  else if (c =? NL) && nl_to_cr then if ignore_cr then [] else [CR]
  else [c].

(** The reference translation of the input. *)
Definition imap (t : termios) (buf : list Z) : list Z :=
  flat_map (imap1 (flag (c_iflag t) INLCR) (flag (c_iflag t) IGNCR) (flag (c_iflag t) ICRNL)) buf.

(** The bytes [input_map] looks for. *)
Definition searched (nl ig cn : bool) (c : Z) : bool := ((ig || cn) && (c =? CR)) || (nl && (c =? NL)).

Lemma imap1_plain nl ig cn c : searched nl ig cn c = false -> imap1 nl ig cn c = [c].
Proof.
  unfold searched, imap1. destruct (c =? CR), (c =? NL), nl, ig, cn; cbn; done.
Qed.

Lemma imap1_searched nl ig cn c : searched nl ig cn c = true ->
  imap1 nl ig cn c = if (c =? CR) && ig then [] else if (c =? CR) && cn then [NL] else if (c =? NL) && nl && ig then [] else
    if (c =? NL) && nl then [CR] else [c].
Proof.
  unfold searched, imap1. destruct (Z.eqb_spec c CR) as [->|].
  - change (CR =? NL) with false. by destruct nl, ig, cn.
  - by destruct (c =? NL), nl, ig, cn.
Qed.

Lemma flat_map_plain nl ig cn l : Forall (fun c => searched nl ig cn c = false) l -> flat_map (imap1 nl ig cn) l = l.
Proof. induction 1 as [|c l Hc _ IH]; cbn; [done|]. by rewrite imap1_plain, IH. Qed.

Lemma search_spec nl ig cn buf : nl || (ig || cn) = true ->
  (if nl && (ig || cn) then Ret (memchr2 CR NL buf) else if ig || cn then Ret (memchr CR buf) else if nl then Ret (memchr NL buf) else Panic) =
  Ret (find_first (searched nl ig cn) buf).
Proof.
  intros Hs. destruct nl, (ig || cn) eqn:E; cbn in *; try done; f_equal.
  - rewrite memchr2_law. apply find_first_ext. intros x. unfold is2, searched. by rewrite E.
  - rewrite memchr_law. apply find_first_ext. intros x. unfold is1, searched. by rewrite E.
  - rewrite memchr_law. apply find_first_ext. intros x. unfold is1, searched. rewrite E. cbn. by rewrite orb_false_r.
Qed.

Lemma input_map_loop_spec fuel nl ig cn pre buf post total : nl || (ig || cn) = true -> (length buf <= fuel)%nat ->
  let m := flat_map (imap1 nl ig cn) buf in
  exists extra, input_map_loop fuel nl ig cn pre buf post total = Ret (pre ++ m ++ extra, (total + length m)%nat) /\
    (length m + length extra = length buf + length post)%nat.
Proof.
  intros Hs. revert pre buf post total. induction fuel as [|f IH]; intros pre buf post total Hf m; subst m.
  { destruct buf; [|cbn in Hf; lia]. cbn. exists post. by rewrite Nat.add_0_r. }
  destruct buf as [|b0 buf0] eqn:Eb; [cbn; exists post; by rewrite Nat.add_0_r|]. rewrite <- Eb in *. clear Eb b0 buf0.
  cbn [input_map_loop]. destruct buf as [|b0 buf0] eqn:Eb; [cbn; exists post; by rewrite Nat.add_0_r|]. rewrite <- Eb in *. clear Eb b0 buf0.
  rewrite search_spec by done. cbn [obind]. destruct (find_first (searched nl ig cn) buf) as [i|] eqn:Ef.
  - destruct (find_first_Some _ _ _ Ef) as (a & x & b & -> & <- & Hx & Ha). rewrite lookup_middle. cbn [unwrap obind].
    rewrite length_app in Hf. cbn [length] in Hf. rewrite flat_map_app, (flat_map_plain _ _ _ _ Ha). cbn [flat_map].
    destruct (copy_within_one a x b) as [y Ey].
    assert (forall tot, exists extra,
      (let! buf' := copy_within (a ++ x :: b) (S (length a)) (length a) in
       let newend := (length (a ++ x :: b) - 1)%nat in
       input_map_loop f nl ig cn (pre ++ take (length a) buf') (drop (length a) (take newend buf')) (drop newend buf' ++ post) (tot + length a)) =
      Ret (pre ++ (a ++ flat_map (imap1 nl ig cn) b) ++ extra, (tot + length (a ++ flat_map (imap1 nl ig cn) b))%nat) /\
      (length (a ++ flat_map (imap1 nl ig cn) b) + length extra = length (a ++ x :: b) + length post)%nat) as Hsq.
    { intros tot. rewrite Ey. cbn [obind]. replace (length (a ++ x :: b) - 1)%nat with (length (a ++ b)) by (rewrite !length_app; cbn; lia).
      rewrite take_app_length, (app_assoc a b [y]), take_app_length, drop_app_length, drop_app_length.
      destruct (IH (pre ++ a) b ([y] ++ post) (tot + length a)%nat ltac:(lia)) as (extra & -> & Hl).
      exists extra. rewrite !length_app in *. cbn [length] in *. rewrite <- !app_assoc. split; [do 2 f_equal; lia|lia]. }
    assert (forall c tot, exists extra,
      (let buf' := <[length a := c]> (a ++ x :: b) in
       input_map_loop f nl ig cn (pre ++ take (S (length a)) buf') (drop (S (length a)) buf') post (tot + S (length a))) =
      Ret (pre ++ (a ++ c :: flat_map (imap1 nl ig cn) b) ++ extra, (tot + length (a ++ c :: flat_map (imap1 nl ig cn) b))%nat) /\
      (length (a ++ c :: flat_map (imap1 nl ig cn) b) + length extra = length (a ++ x :: b) + length post)%nat) as Hre.
    { intros c tot. cbn zeta. rewrite insert_app_r_alt, Nat.sub_diag by done. cbn [insert list_insert].
      rewrite (cons_middle c), (app_assoc a [c]). replace (S (length a)) with (length (a ++ [c])) by (rewrite length_app; cbn; lia).
      rewrite take_app_length, drop_app_length.
      destruct (IH (pre ++ a ++ [c]) b post (tot + length (a ++ [c]))%nat ltac:(lia)) as (extra & -> & Hl).
      exists extra. rewrite !length_app in *. cbn [length] in *. rewrite <- !app_assoc. cbn. split; [do 2 f_equal; lia|lia]. }
    rewrite (imap1_searched _ _ _ _ Hx). destruct ((x =? CR) && ig) eqn:E1; [apply Hsq|].
    destruct ((x =? CR) && cn) eqn:E2; [apply Hre|]. destruct ((x =? NL) && nl && ig); [apply Hsq|].
    destruct ((x =? NL) && nl) eqn:E4; [apply Hre|].
    unfold searched in Hx. by destruct (x =? CR), (x =? NL), nl, ig, cn.
  - apply find_first_None in Ef. rewrite (flat_map_plain _ _ _ _ Ef). by exists post.
Qed.

Lemma input_map_correct t buf : exists extra, input_map t buf = Ret (imap t buf ++ extra, length (imap t buf)) /\
  (length (imap t buf) + length extra = length buf)%nat.
Proof.
  unfold input_map, imap. set (nl := flag _ INLCR). set (ig := flag _ IGNCR). set (cn := flag _ ICRNL).
  destruct (negb (ig || cn) && negb nl) eqn:E.
  - exists []. rewrite flat_map_plain, app_nil_r; [split; [done|cbn; lia]|]. apply Forall_forall. intros c _. unfold searched.
    by destruct (ig || cn), nl.
  - destruct (input_map_loop_spec (length buf) nl ig cn [] buf [] 0) as (extra & -> & Hl); [by destruct (ig || cn), nl|done|].
    exists extra. split; [done|]. cbn in Hl. lia.
Qed.

(** Mapping the input in place, with whatever of the three flags, leaves at the front of
    the buffer the bytewise translation of all of it and reports its length; the buffer
    keeps its size. *)
Theorem input_map_spec t buf :
  exists out, input_map t buf = Ret (out, length (imap t buf)) /\ take (length (imap t buf)) out = imap t buf /\ length out = length buf.
Proof.
  destruct (input_map_correct t buf) as (extra & E & Hl). exists (imap t buf ++ extra). split; [done|].
  split; [apply take_app_length|by rewrite length_app].
Qed.

Lemma imap_length t buf : (length (imap t buf) <= length buf)%nat.
Proof. destruct (input_map_correct t buf) as (extra & _ & Hl). lia. Qed.
End map.

(** ** Writing everything *)
Lemma nonempty_length {A} (l : list A) : l <> [] -> exists n, length l = S n.
Proof. destruct l; [done|]. by eexists. Qed.

Lemma write_all_loop_S `{Write W} f w buf : buf <> [] ->
  write_all_loop (S f) w buf =
  (let? (n, w) := write w buf in if Nat.eqb n 0 then Ret (Err WriteZero, w) else write_all_loop f w (drop n buf)).
Proof. by destruct buf. Qed.

Lemma write_all_loop_nil `{Write W} f w : write_all_loop f w [] = Ret (Ok tt, w).
Proof. by destruct f. Qed.

Lemma write_all_sink `{Sink W} w c r buf : sink_rep w c r -> (length buf <= r)%nat ->
  exists w', write_all w buf = Ret (Ok tt, w') /\ sink_rep w' (c ++ buf) (r - length buf).
Proof.
  intros Hw Hl. unfold write_all. destruct (decide (buf = [])) as [->|Hb].
  { exists w. rewrite app_nil_r, Nat.sub_0_r. done. }
  destruct (nonempty_length buf Hb) as [f Ef].
  replace (write_all_loop (length buf) w buf) with (write_all_loop (S f) w buf) by (by rewrite Ef). rewrite write_all_loop_S by done.
  destruct (sink_law w c r buf Hw) as (w' & -> & Hw'). cbn [rbind obind].
  replace (Nat.min (length buf) r) with (length buf) in * by lia. rewrite take_ge in Hw' by lia.
  rewrite (proj2 (Nat.eqb_neq (length buf) 0)) by lia. rewrite drop_ge by lia. exists w'. by rewrite write_all_loop_nil.
Qed.

(** A bounded buffer returns from [write_all] whatever the room. *)
Lemma write_all_returns `{Sink W} w c r buf : sink_rep w c r ->
  exists res w' c' r', write_all w buf = Ret (res, w') /\ sink_rep w' c' r'.
Proof.
  intros Hw. unfold write_all. enough (forall fuel buf w c r, sink_rep w c r -> (length buf <= fuel)%nat ->
    exists res w' c' r', write_all_loop fuel w buf = Ret (res, w') /\ sink_rep w' c' r') as He by (by eapply He).
  clear. induction fuel as [|f IH]; intros buf w c r Hw Hl.
  { destruct buf; [|cbn in Hl; lia]. by eexists _, w, c, r. }
  destruct (decide (buf = [])) as [->|Hb]; [by eexists _, w, c, r|]. rewrite write_all_loop_S by done.
  destruct (sink_law w c r buf Hw) as (w' & -> & Hw'). cbn [rbind obind]. case_match eqn:E0; [by eexists _, w', _, _|].
  eapply IH; [done|]. rewrite length_drop. apply Nat.eqb_neq in E0. lia.
Qed.

(** ** Output *)
Section output.
Context `{Libc, Memchr, Sink W}.

Definition expand1 (cr_to_nl nl_to_crnl : bool) (c : Z) : list Z :=
  if (c =? CR) && cr_to_nl then if nl_to_crnl then [CR; NL] else [NL]
  else if (c =? NL) && nl_to_crnl then [CR; NL]
  else [c].

(** The reference translation of the output. *)
Definition expand (t : termios) (buf : list Z) : list Z :=
  if flag (c_oflag t) OPOST then flat_map (expand1 (flag (c_oflag t) OCRNL) (flag (c_oflag t) ONLCR)) buf else buf.

Lemma expand1_plain cn nc c : is2 CR NL c = false -> expand1 cn nc c = [c].
Proof. unfold is2, expand1. by destruct (c =? CR), (c =? NL). Qed.

Lemma expand_plain cn nc l : Forall (fun c => is2 CR NL c = false) l -> flat_map (expand1 cn nc) l = l.
Proof. induction 1 as [|c l Hc _ IH]; cbn; [done|]. by rewrite expand1_plain, IH. Qed.

Lemma expand_none l : flat_map (expand1 false false) l = l.
Proof. induction l as [|c l IH]; cbn; [done|]. rewrite IH. unfold expand1. by rewrite !andb_false_r. Qed.

Lemma processed_loop_spec fuel cn nc w c r buf total : sink_rep w c r -> (length buf <= fuel)%nat ->
  let m := flat_map (expand1 cn nc) buf in (length m <= r)%nat ->
  exists w', processed_loop fuel cn nc w buf total = Ret (Ok (total + length buf)%nat, w') /\ sink_rep w' (c ++ m) (r - length m).
Proof.
  revert w c r buf total. induction fuel as [|f IH]; intros w c r buf total Hw Hf m Hr; subst m.
  { destruct buf; [|cbn in Hf; lia]. exists w. cbn. by rewrite app_nil_r, Nat.add_0_r, Nat.sub_0_r. }
  destruct buf as [|b0 buf0] eqn:Eb; [exists w; cbn; by rewrite app_nil_r, Nat.add_0_r, Nat.sub_0_r|].
  cbn [processed_loop]. rewrite <- Eb in *. clear Eb b0 buf0. unfold split_output. rewrite memchr2_law.
  destruct (find_first (is2 CR NL) buf) as [i|] eqn:Ef.
  2:{ apply find_first_None in Ef. rewrite (expand_plain _ _ _ Ef) in *. cbn [obind]. rewrite take_ge by done.
      destruct (sink_law w c r buf Hw) as (w' & -> & Hw'). cbn [rbind obind].
      replace (Nat.min (length buf) r) with (length buf) in * by lia. rewrite take_ge in Hw' by done. rewrite drop_ge by done.
      exists w'. by destruct f. }
  destruct (find_first_Some _ _ _ Ef) as (a & x & b & -> & <- & Hx & Ha). rewrite lookup_middle. cbn [unwrap obind].
  rewrite flat_map_app, (expand_plain _ _ _ Ha) in *. cbn [flat_map] in *. rewrite !length_app in *. cbn [length] in Hf.
  remember (expand1 cn nc x) as ex0 eqn:Eex. unfold expand1 in Eex. cbn [length].
  assert (forall ex, (length a + (length ex + length (flat_map (expand1 cn nc) b)) <= r)%nat ->
    exists w', (let? (thiswrite, w0) := write w (take (length a) (a ++ x :: b)) in
      (let? (u, w1) := write_all w0 ex in
       let! _ := rassert (1 <=? length (drop thiswrite (a ++ x :: b)))%nat in
       processed_loop f cn nc w1 (drop 1 (drop thiswrite (a ++ x :: b))) (total + thiswrite + 1))) =
      Ret (Ok (total + (length a + S (length b)))%nat, w') /\
      sink_rep w' (c ++ a ++ ex ++ flat_map (expand1 cn nc) b) (r - (length a + (length ex + length (flat_map (expand1 cn nc) b))))) as Hex.
  { intros ex Hl. rewrite take_app_length. destruct (sink_law w c r a Hw) as (w1 & -> & Hw1). cbn [rbind obind].
    replace (Nat.min (length a) r) with (length a) in * by lia. rewrite take_ge in Hw1 by done.
    destruct (write_all_sink w1 _ _ ex Hw1) as (w2 & -> & Hw2); [lia|]. cbn [rbind obind]. rewrite drop_app_length. cbn [length Nat.leb rassert obind drop].
    rewrite drop_0. destruct (IH w2 _ _ b (total + length a + 1)%nat Hw2) as (w3 & -> & Hw3); [lia..|]. exists w3. split; [do 3 f_equal; lia|].
    rewrite <- !app_assoc in Hw3. by replace (r - length a - length ex - length (flat_map (expand1 cn nc) b))%nat with
      (r - (length a + (length ex + length (flat_map (expand1 cn nc) b))))%nat in Hw3 by lia. }
  destruct ((x =? CR) && cn); [destruct nc; subst ex0; exact (Hex _ Hr)|].
  destruct ((x =? NL) && nc); subst ex0; [exact (Hex _ Hr)|].
  cbn [length] in Hr. rewrite take_middle.
  destruct (sink_law w c r (a ++ [x]) Hw) as (w1 & -> & Hw1). cbn [rbind obind]. rewrite length_app in Hw1 |- *. cbn [length] in *.
  replace (Nat.min (length a + 1) r) with (S (length a)) in * by lia. rewrite drop_middle.
  rewrite take_ge in Hw1 by (rewrite length_app; cbn; lia).
  destruct (IH w1 _ _ b (total + S (length a))%nat Hw1) as (w3 & -> & Hw3); [lia..|]. exists w3. split; [do 3 f_equal; lia|].
  rewrite <- !app_assoc in Hw3. by replace (r - S (length a) - length (flat_map (expand1 cn nc) b))%nat with
    (r - (length a + (1 + length (flat_map (expand1 cn nc) b))))%nat in Hw3 by lia.
Qed.

Lemma oc_write_spec fuel (oc : OutputConverter W) c r buf : sink_rep (oc_writer oc) c r -> (length buf <= fuel)%nat ->
  let m := expand (oc_termios oc) buf in (length m <= r)%nat ->
  exists w', oc_write fuel oc buf = Ret (Ok (length buf), mkOC (oc_termios oc) w') /\ sink_rep w' (c ++ m) (r - length m).
Proof.
  intros Hw Hf m Hr. unfold oc_write. subst m. unfold expand in *.
  assert (forall buf, (length buf <= r)%nat -> exists w', write (oc_writer oc) buf = Ret (Ok (length buf), w') /\ sink_rep w' (c ++ buf) (r - length buf)) as Hs.
  { intros bs Hb. destruct (sink_law _ _ _ bs Hw) as (w' & -> & Hw'). exists w'.
    replace (Nat.min (length bs) r) with (length bs) in * by lia. by rewrite take_ge in Hw' by done. }
  destruct (flag (c_oflag (oc_termios oc)) OPOST).
  - unfold write_bytes_processed, write_bytes_simple. destruct (negb _ && negb _) eqn:En.
    + destruct (flag _ OCRNL), (flag _ ONLCR); try done. rewrite expand_none in *.
      destruct (Hs buf Hr) as (w' & -> & Hw'). by exists w'.
    + destruct (processed_loop_spec fuel _ _ _ _ _ buf 0 Hw Hf Hr) as (w' & -> & Hw'). by exists w'.
  - unfold write_bytes_simple. destruct (Hs buf Hr) as (w' & -> & Hw'). by exists w'.
Qed.

(** With no room left the loop turns without writing. *)
Lemma processed_loop_full fuel cn nc w c buf total : sink_rep w c 0 -> buf <> [] -> Forall (fun x => is2 CR NL x = false) buf ->
  processed_loop fuel cn nc w buf total = NoFuel.
Proof.
  intros Hw Hb Hn. revert w c total Hw. induction fuel as [|f IH]; intros w c total Hw; destruct buf as [|b0 buf0] eqn:Eb; try done.
  cbn [processed_loop]. rewrite <- Eb in *. unfold split_output. rewrite memchr2_law, (proj2 (find_first_None _ _) Hn). cbn [obind].
  destruct (sink_law w c 0 (take (length buf) buf) Hw) as (w' & -> & Hw'). cbn [rbind obind]. rewrite Nat.min_0_r in *.
  rewrite take_0, app_nil_r in Hw'. rewrite drop_0. by apply (IH w' c).
Qed.

Lemma oc_write_spin fuel (oc : OutputConverter W) c r buf : sink_rep (oc_writer oc) c r ->
  flag (c_oflag (oc_termios oc)) OPOST = true -> flag (c_oflag (oc_termios oc)) OCRNL || flag (c_oflag (oc_termios oc)) ONLCR = true ->
  Forall (fun x => is2 CR NL x = false) buf -> (r < length buf)%nat -> oc_write fuel oc buf = NoFuel.
Proof.
  intros Hw Ho Hm Hn Hr. unfold oc_write. rewrite Ho. unfold write_bytes_processed.
  set (cn := flag _ OCRNL) in *. set (nc := flag _ ONLCR) in *. replace (negb cn && negb nc) with false by (by destruct cn, nc).
  destruct fuel as [|f]; destruct buf as [|b0 buf0] eqn:Eb; try (cbn in Hr; lia); [done|]. cbn [processed_loop]. rewrite <- Eb in *.
  unfold split_output. rewrite memchr2_law, (proj2 (find_first_None _ _) Hn). cbn [obind].
  destruct (sink_law _ c r (take (length buf) buf) Hw) as (w' & -> & Hw'). cbn [rbind obind]. rewrite length_take, Nat.min_id in *.
  replace (Nat.min (length buf) r) with r in * by lia. rewrite Nat.sub_diag in Hw'.
  rewrite (processed_loop_full _ _ _ _ _ _ _ Hw'); [done| |by apply Forall_drop].
  intros E. apply (f_equal length) in E. rewrite length_drop in E. cbn in E. lia.
Qed.
End output.

(** ** Lines *)
Section lines.
Context `{Libc, Memchr, Source R}.

Definition termios_ok (t : termios) : Prop := length (c_cc t) = NCCS.

(** The control character at an index. *)
Definition ctl (t : termios) (i : nat) : Z := default 0 (c_cc t !! i).

Lemma cc_spec t i : termios_ok t -> (i < NCCS)%nat -> cc t i = Ret (ctl t i).
Proof.
  intros Ht Hi. unfold cc, ctl. destruct (lookup_lt_is_Some_2 (c_cc t) i) as [c ->]; [by rewrite Ht|done].
Qed.

Lemma cc_indices : (VINTR < NCCS /\ VQUIT < NCCS /\ VSTATUS < NCCS /\ VEOF < NCCS /\ VERASE < NCCS /\ VWERASE < NCCS /\ VKILL < NCCS)%nat.
Proof. pose proof cc_index_law as Hl. repeat (apply Forall_cons in Hl as [? Hl]). done. Qed.

Definition erasing (t : termios) (c : Z) : bool := is3 (ctl t VERASE) (ctl t VWERASE) (ctl t VKILL) c.

Definition ends_line (t : termios) (c : Z) : bool := is2 NL (ctl t VEOF) c.

Record ic_ok (ic : InputConverter R) : Prop := {
  ok_len : length (linebuf ic) = BUF_SZ;
  ok_count : (linebuf_count ic <= BUF_SZ)%nat;
  ok_termios : termios_ok (ic_termios ic)
}.

(** The bytes received and not yet handed out. *)
Definition pending (ic : InputConverter R) : list Z := take (linebuf_count ic) (linebuf ic).

Lemma pending_length ic : ic_ok ic -> length (pending ic) = linebuf_count ic.
Proof. intros [Hl Hc _]. unfold pending. rewrite length_take. lia. Qed.

(** Whether reading [n] bytes finds none. *)
Definition nothing (n : nat) (a : list Z) : bool := (0 <? n)%nat && Nat.eqb (length a) 0.

(** The line buffer with the bytes [m] and leftovers [extra] of a read in place. *)
Lemma refilled_buffer ic (m extra : list Z) : ic_ok ic -> (linebuf_count ic + length m + length extra <= BUF_SZ)%nat ->
  let slice := (m ++ extra) ++ drop (length m + length extra) (drop (linebuf_count ic) (linebuf ic)) in
  let lb := take (linebuf_count ic) (linebuf ic) ++ slice in
  length lb = BUF_SZ /\ take (linebuf_count ic + length m) lb = pending ic ++ m /\ take (length m) slice = m.
Proof.
  intros Hi Hl slice lb. destruct Hi as [O1 O2 _]. split; [|split].
  - unfold lb, slice. rewrite !length_app, length_take, !length_drop. lia.
  - unfold lb, slice, pending. rewrite take_app_ge by (rewrite length_take; lia). f_equal. rewrite length_take, <- app_assoc.
    apply take_app_length'. lia.
  - unfold slice. rewrite <- app_assoc. apply take_app_length.
Qed.

Lemma erase_to_spec v1 v2 v3 lb idx c : lb !! idx = Some c -> is3 v1 v2 v3 c = true ->
  exists k, erase_to v1 v2 v3 lb idx = Ret k /\ (k <= idx)%nat.
Proof.
  intros Hc Hc3. unfold erase_to. rewrite Hc. cbn [unwrap obind].
  assert (forall p l, (match find_last p (take idx l) with Some i => S i | None => 0%nat end <= idx)%nat) as Hlast.
  { intros p l. destruct (find_last p (take idx l)) as [i|] eqn:E; [|lia]. apply find_last_lt in E. rewrite length_take in E. lia. }
  unfold is3 in Hc3. destruct (c =? v1).
  - destruct (Nat.ltb_spec 0 idx); [|exists 0%nat; split; [done|lia]].
    destruct (lookup_lt_is_Some_2 lb (idx - 1)) as [b ->]; [apply lookup_lt_Some in Hc; lia|]. cbn [unwrap obind].
    destruct (negb (b =? NL)); eexists; (split; [done|lia]).
  - destruct (c =? v2); [eexists; split; [done|rewrite memrchr3_law; apply Hlast]|].
    destruct (c =? v3); [eexists; split; [done|rewrite memrchr_law; apply Hlast]|done].
Qed.

(** One refill on any input. *)
Lemma refill_total ic a : ic_ok ic -> source_rep (ic_reader ic) a ->
  let n := (BUF_SZ - linebuf_count ic)%nat in
  exists res ic', refill_linebuf ic = Ret (res, ic') /\ ic_ok ic' /\ ic_termios ic' = ic_termios ic /\ source_rep (ic_reader ic') (drop n a) /\
    res = (if nothing n a then Err WouldBlock else Ok tt) /\ (n = 0%nat -> linebuf_count ic' = linebuf_count ic).
Proof.
  intros Hi Hs n. pose proof Hi as [O1 O2 O3]. unfold refill_linebuf. rewrite length_drop, O1. fold n.
  destruct (source_law (ic_reader ic) a n Hs) as (rd' & -> & Hs'). cbn [obind]. fold (nothing n a).
  destruct (nothing n a); [by eexists _, _|]. destruct (input_map_correct (ic_termios ic) (take n a)) as (extra & -> & He). cbn [obind].
  destruct cc_indices as (_ & _ & _ & _ & I1 & I2 & I3). rewrite !cc_spec by done. cbn [obind].
  set (m := imap (ic_termios ic) (take n a)) in *. rewrite <- He.
  destruct (refilled_buffer ic m extra Hi) as (L1 & L2 & L3); [rewrite length_take in He; lia|].
  rewrite L3, memchr3_law. destruct (find_first _ m) as [i|] eqn:Ef.
  2:{ rewrite length_take in He. eexists _, _. split; [done|]. split; [split; cbn; [done|lia|done]|]. split; [done|]. split; [done|].
      split; [done|]. cbn. intros Hn. lia. }
  destruct (find_first_Some _ _ _ Ef) as (p1 & x & p2 & Em & Hp1 & Hx & _).
  set (lb := take _ (linebuf ic) ++ _) in *.
  assert (lb !! (i + linebuf_count ic)%nat = Some x) as Hlk.
  { rewrite <- (lookup_take_lt lb (linebuf_count ic + length m)) by (rewrite Em, length_app; cbn; lia).
    rewrite L2, lookup_app_r by (rewrite pending_length by done; lia). rewrite pending_length by done.
    replace (i + linebuf_count ic - linebuf_count ic)%nat with i by lia. rewrite Em, <- Hp1. apply lookup_middle. }
  destruct (erase_to_spec _ _ _ _ _ _ Hlk Hx) as (k & -> & Hk). cbn [obind]. apply lookup_lt_Some in Hlk.
  destruct (copy_within_spec lb (S (i + linebuf_count ic)) k) as (lb' & -> & Hl' & _); [lia|]. cbn [obind].
  rewrite length_take in He. rewrite Em, length_app in He. cbn in He.
  eexists _, _. split; [done|]. split; [split; cbn; [lia| |done]|].
  { rewrite Em, length_app. cbn. lia. }
  split; [done|]. split; [done|]. split; [done|]. intros Hn. lia.
Qed.

(** One refill on input without erasing characters. *)
Lemma refill_plain ic a : ic_ok ic -> source_rep (ic_reader ic) a ->
  let n := (BUF_SZ - linebuf_count ic)%nat in
  let m := imap (ic_termios ic) (take n a) in
  nothing n a = false -> Forall (fun c => erasing (ic_termios ic) c = false) m ->
  exists ic', refill_linebuf ic = Ret (Ok tt, ic') /\ ic_ok ic' /\ ic_termios ic' = ic_termios ic /\ source_rep (ic_reader ic') (drop n a) /\
    pending ic' = pending ic ++ m.
Proof.
  intros Hi Hs n m Hno Hm. pose proof Hi as [O1 O2 O3]. unfold refill_linebuf. rewrite length_drop, O1. fold n.
  destruct (source_law (ic_reader ic) a n Hs) as (rd' & -> & Hs'). cbn [obind]. fold (nothing n a). rewrite Hno.
  destruct (input_map_correct (ic_termios ic) (take n a)) as (extra & -> & He). cbn [obind]. fold m in He |- *.
  destruct cc_indices as (_ & _ & _ & _ & I1 & I2 & I3). rewrite !cc_spec by done. cbn [obind]. rewrite <- He. rewrite length_take in He.
  destruct (refilled_buffer ic m extra Hi) as (L1 & L2 & L3); [lia|].
  rewrite L3, memchr3_law, (proj2 (find_first_None (is3 _ _ _) m) Hm).
  eexists. split; [done|]. split; [|done]. split; cbn; [done|lia|done].
Qed.

Lemma copy_front lb c k : (k <= c <= length lb)%nat ->
  exists lb', copy_within lb k 0 = Ret lb' /\ length lb' = length lb /\ take (c - k) lb' = drop k (take c lb).
Proof.
  intros Hk. destruct (copy_within_spec lb k 0) as (lb' & E & Hl & Ht); [lia|]. exists lb'. split; [done|]. split; [done|].
  cbn [take app Nat.add] in Ht. replace (c - k)%nat with (Nat.min (c - k) (length lb - k)) by lia.
  rewrite <- take_take, Ht. by rewrite skipn_firstn_comm.
Qed.

Lemma copy_squash lb c p x q : (c <= length lb)%nat -> take c lb = p ++ x :: q ->
  exists lb', copy_within lb (S (length p)) (length p) = Ret lb' /\ length lb' = length lb /\ take (c - 1) lb' = p ++ q.
Proof.
  intros Hc E. assert (length p + S (length q) = c)%nat as Hpq.
  { apply (f_equal length) in E. rewrite length_take, length_app in E. cbn in E. lia. }
  destruct (copy_within_spec lb (S (length p)) (length p)) as (lb' & E' & Hl & Ht); [lia|]. exists lb'. split; [done|]. split; [done|].
  replace (c - 1)%nat with (Nat.min (c - 1) (length p + (length lb - S (length p)))) by lia. rewrite <- take_take, Ht.
  assert (lb = p ++ x :: q ++ drop c lb) as -> by (rewrite <- (take_drop c lb) at 1; rewrite E, <- app_assoc; done).
  rewrite take_app_length, drop_middle, app_assoc. apply take_app_length'. rewrite length_app. lia.
Qed.

(** The searched part of the line buffer. *)
Lemma drain_search ic n : ic_ok ic -> take (Nat.min n (linebuf_count ic)) (linebuf ic) = take n (pending ic).
Proof. intros _. unfold pending. by rewrite take_take. Qed.

Definition line_result (line : list Z) (x : Z) : list Z := if x =? NL then line ++ [NL] else line.

Lemma drain_end ic n line x rest : ic_ok ic -> pending ic = line ++ x :: rest ->
  Forall (fun c => ends_line (ic_termios ic) c = false) line -> ends_line (ic_termios ic) x = true -> (length line < n)%nat ->
  exists ic', drain_linebuf ic n = Ret (line_result line x, true, ic') /\ ic_ok ic' /\ ic_termios ic' = ic_termios ic /\
    ic_reader ic' = ic_reader ic /\ pending ic' = rest.
Proof.
  intros Hi Hp Hl Hx Hn. pose proof Hi as [O1 O2 O3]. unfold drain_linebuf. rewrite drain_search by done.
  destruct cc_indices as (_ & _ & _ & I & _). rewrite cc_spec by done. cbn [obind]. rewrite memchr2_law.
  assert (length (pending ic) = linebuf_count ic) as Hc by (by apply pending_length). rewrite Hp, length_app in Hc. cbn [length] in Hc.
  assert (exists q, take n (pending ic) = line ++ x :: q) as [q Hq].
  { rewrite Hp, take_app_ge by lia. destruct (n - length line)%nat as [|k] eqn:Ek; [lia|]. by eexists. }
  rewrite Hq, (find_first_app (is2 _ _)) by done. rewrite lookup_middle. cbn [unwrap obind]. unfold pending in Hp.
  unfold line_result, ends_line, is2 in *. destruct (Z.eqb_spec x NL) as [->|Hne]; cbn [obind].
  - destruct (copy_front (linebuf ic) (linebuf_count ic) (S (length line))) as (lb' & -> & L1 & L2); [lia|]. cbn [obind].
    assert (take (S (length line)) (linebuf ic) = line ++ [NL]) as ->.
    { replace (S (length line)) with (Nat.min (S (length line)) (linebuf_count ic)) by lia. rewrite <- take_take, Hp. apply take_middle. }
    eexists. split; [done|]. split; [split; cbn; [lia|lia|done]|]. split; [done|]. split; [done|].
    unfold pending. cbn. rewrite L2, Hp. apply drop_middle.
  - rewrite orb_false_l in Hx. rewrite Hx. cbn [obind].
    destruct (copy_squash (linebuf ic) (linebuf_count ic) line x rest) as (lb1 & -> & L1 & L2); [lia|done|]. cbn [obind linebuf linebuf_count ic_reader].
    destruct (copy_front lb1 (linebuf_count ic - 1) (length line)) as (lb2 & -> & L3 & L4); [lia|]. cbn [obind].
    assert (take (length line) lb1 = line) as ->.
    { replace (length line) with (Nat.min (length line) (linebuf_count ic - 1)) by lia. rewrite <- take_take, L2. apply take_app_length. }
    eexists. split; [done|]. split; [split; cbn; [lia|lia|done]|]. split; [done|]. split; [done|].
    unfold pending. cbn. rewrite L4, L2. apply drop_app_length.
Qed.

Lemma drain_none ic n : ic_ok ic -> Forall (fun c => ends_line (ic_termios ic) c = false) (take n (pending ic)) ->
  linebuf_count ic <> BUF_SZ -> drain_linebuf ic n = Ret ([], false, ic).
Proof.
  intros Hi Hf Hc. pose proof Hi as [O1 O2 O3]. unfold drain_linebuf. rewrite drain_search by done.
  destruct cc_indices as (_ & _ & _ & I & _). rewrite cc_spec by done. cbn [obind].
  rewrite memchr2_law, (proj2 (find_first_None (is2 _ _) _) Hf). cbn [obind]. by rewrite (proj2 (Nat.eqb_neq _ _) Hc).
Qed.

Lemma drain_total ic n : ic_ok ic ->
  exists bytes e ic', drain_linebuf ic n = Ret (bytes, e, ic') /\ ic_ok ic' /\ ic_termios ic' = ic_termios ic /\
    ic_reader ic' = ic_reader ic /\ (e = false -> bytes = [] /\ ic' = ic /\ linebuf_count ic <> BUF_SZ).
Proof.
  intros Hi. pose proof Hi as [O1 O2 O3].
  destruct (find_first (ends_line (ic_termios ic)) (take n (pending ic))) as [i|] eqn:Ef.
  - destruct (find_first_Some _ _ _ Ef) as (line & x & q & Eq & _ & Hx & Hl).
    assert (length line < n)%nat as Hn.
    { apply (f_equal length) in Eq. rewrite length_take, length_app in Eq. cbn in Eq. lia. }
    destruct (drain_end ic n line x (q ++ drop n (pending ic)) Hi) as (ic' & -> & ? & ? & ? & _); [|done..|].
    { rewrite <- (take_drop n (pending ic)) at 1. rewrite Eq, <- app_assoc. done. }
    by eexists _, true, ic'.
  - apply find_first_None in Ef. destruct (decide (linebuf_count ic = BUF_SZ)) as [Hb|Hb].
    + unfold drain_linebuf. rewrite drain_search by done. destruct cc_indices as (_ & _ & _ & I & _). rewrite cc_spec by done. cbn [obind].
      rewrite memchr2_law, (proj2 (find_first_None (is2 _ _) _) Ef). cbn [obind]. rewrite (proj2 (Nat.eqb_eq _ _) Hb).
      destruct (copy_front (linebuf ic) (linebuf_count ic) (Nat.min n (linebuf_count ic))) as (lb' & -> & L1 & _); [lia|]. cbn [obind].
      eexists _, true, _. split; [done|]. split; [split; cbn; [lia|lia|done]|done].
    + rewrite drain_none by done. by eexists [], false, ic.
Qed.

(** ** Reading lines *)
Lemma read_canon_loop_S f (ic : InputConverter R) n got : (0 < n)%nat ->
  read_canon_loop (S f) ic n got =
  (let? (u, ic) := refill_linebuf ic in
   if Nat.eqb (linebuf_count ic) 0 then
     if Nat.eqb (length got) 0 then Ret (Err WouldBlock, ic) else Ret (Ok got, ic)
   else
     let! (bytes, end_, ic) := drain_linebuf ic n in
     if end_ : bool then Ret (Ok (got ++ bytes), ic)
     else read_canon_loop f ic (n - length bytes)%nat (got ++ bytes)).
Proof. by destruct n; [lia|]. Qed.

Lemma read_canon_line fuel ic a n line x rest : ic_ok ic -> source_rep (ic_reader ic) a -> a <> [] ->
  (linebuf_count ic + length a <= BUF_SZ)%nat -> Forall (fun c => erasing (ic_termios ic) c = false) (imap (ic_termios ic) a) ->
  pending ic ++ imap (ic_termios ic) a = line ++ x :: rest ->
  Forall (fun c => ends_line (ic_termios ic) c = false) line -> ends_line (ic_termios ic) x = true -> (length line < n)%nat ->
  exists ic', read_canon (S fuel) ic n = Ret (Ok (line_result line x), ic') /\ ic_ok ic' /\ ic_termios ic' = ic_termios ic /\
    pending ic' = rest /\ source_rep (ic_reader ic') [].
Proof.
  intros Hi Hs Ha Hl He Hp Hline Hx Hn. unfold read_canon. rewrite read_canon_loop_S by lia.
  destruct (nonempty_length a Ha) as [k Hk].
  destruct (refill_plain ic a Hi Hs) as (ic1 & -> & Hi1 & Ht1 & Hs1 & Hp1).
  { unfold nothing. rewrite Hk. apply andb_false_r. }
  { by rewrite take_ge by lia. }
  rewrite take_ge in Hp1 by lia. rewrite drop_ge in Hs1 by lia. cbn [rbind obind].
  rewrite <- (pending_length ic1 Hi1), Hp1, Hp, length_app. cbn [length].
  rewrite (proj2 (Nat.eqb_neq (length line + S (length rest)) 0)) by lia. rewrite <- Ht1 in Hline, Hx.
  destruct (drain_end ic1 n line x rest Hi1) as (ic2 & -> & Hi2 & Ht2 & Hr2 & Hp2); [congruence|done..|]. cbn [obind].
  exists ic2. split; [done|]. split; [done|]. split; [congruence|]. split; [done|]. by rewrite Hr2.
Qed.

(** With nothing to read, no line comes out, not even one already received. *)
Lemma read_canon_nothing fuel ic n got : ic_ok ic -> source_rep (ic_reader ic) [] -> (linebuf_count ic < BUF_SZ)%nat -> (0 < n)%nat ->
  exists ic', read_canon_loop (S fuel) ic n got = Ret (Err WouldBlock, ic') /\ pending ic' = pending ic /\ source_rep (ic_reader ic') [].
Proof.
  intros Hi Hs Hc Hn. rewrite read_canon_loop_S by done. pose proof Hi as [O1 O2 O3]. unfold refill_linebuf. rewrite length_drop, O1.
  destruct (source_law (ic_reader ic) [] (BUF_SZ - linebuf_count ic) Hs) as (rd' & -> & Hs'). cbn [obind length].
  rewrite (proj2 (Nat.ltb_lt 0 _)) by lia. cbn. eexists. split; [done|]. split; [done|]. cbn. by rewrite drop_nil in Hs'.
Qed.

Lemma read_canon_blocks fuel ic a n : ic_ok ic -> source_rep (ic_reader ic) a -> (0 < n)%nat ->
  (linebuf_count ic + length a < BUF_SZ)%nat -> Forall (fun c => erasing (ic_termios ic) c = false) (imap (ic_termios ic) a) ->
  Forall (fun c => ends_line (ic_termios ic) c = false) (take n (pending ic ++ imap (ic_termios ic) a)) ->
  exists ic', read_canon (S (S fuel)) ic n = Ret (Err WouldBlock, ic') /\
    pending ic' = pending ic ++ imap (ic_termios ic) a /\ source_rep (ic_reader ic') [].
Proof.
  intros Hi Hs Hn Hl He Hf. unfold read_canon. destruct (decide (a = [])) as [->|Ha].
  { destruct (read_canon_nothing (S fuel) ic n [] Hi Hs) as (ic' & E & Hp & Hs'); [cbn in Hl; lia|done|].
    exists ic'. cbn. by rewrite app_nil_r. }
  rewrite read_canon_loop_S by lia. destruct (nonempty_length a Ha) as [k Hk].
  destruct (refill_plain ic a Hi Hs) as (ic1 & -> & Hi1 & Ht1 & Hs1 & Hp1).
  { unfold nothing. rewrite Hk. apply andb_false_r. }
  { by rewrite take_ge by lia. }
  rewrite take_ge in Hp1 by lia. rewrite drop_ge in Hs1 by lia. cbn [rbind obind].
  destruct (Nat.eqb (linebuf_count ic1) 0) eqn:E0; [cbn; by exists ic1|].
  assert (linebuf_count ic1 < BUF_SZ)%nat as Hb.
  { rewrite <- (pending_length ic1 Hi1), Hp1, length_app, pending_length by done. pose proof (imap_length (ic_termios ic) a). lia. }
  rewrite <- Hp1, <- Ht1 in Hf. rewrite (drain_none ic1 n Hi1 Hf) by lia. cbn [obind length app]. rewrite Nat.sub_0_r.
  destruct (read_canon_nothing fuel ic1 n [] Hi1 Hs1 Hb Hn) as (ic2 & -> & Hp2 & Hs2). exists ic2. by rewrite Hp2.
Qed.

(** Reading lines returns on every input: each turn reads something, or the buffer is
    full and a line is cut. *)
Lemma read_canon_total fuel ic a n got : ic_ok ic -> source_rep (ic_reader ic) a -> (length a + 1 <= fuel)%nat ->
  exists res ic', read_canon_loop fuel ic n got = Ret (res, ic') /\ ic_ok ic'.
Proof.
  revert ic a n got. induction fuel as [|f IH]; intros ic a n got Hi Hs Hf; [lia|].
  destruct (decide (n = 0)%nat) as [->|Hn]; [by eexists _, ic|]. rewrite read_canon_loop_S by lia.
  destruct (refill_total ic a Hi Hs) as (res & ic1 & -> & Hi1 & Ht1 & Hs1 & -> & Hfull).
  destruct (nothing _ a) eqn:En; cbn [rbind obind]; [by eexists _, ic1|].
  destruct (Nat.eqb (linebuf_count ic1) 0); [by case_match; eexists _, ic1|].
  destruct (drain_total ic1 n Hi1) as (bytes & e & ic2 & -> & Hi2 & Ht2 & Hr2 & He). cbn [obind].
  destruct e; [by eexists _, ic2|]. destruct (He eq_refl) as (-> & -> & Hne). rewrite Nat.sub_0_r, app_nil_r.
  destruct (decide (BUF_SZ - linebuf_count ic = 0)%nat) as [E0|E0]; [rewrite (Hfull E0) in Hne; pose proof (ok_count _ Hi); lia|].
  eapply IH; [done|done|]. rewrite length_drop. unfold nothing in En.
  rewrite (proj2 (Nat.ltb_lt 0 _)) in En by lia. apply Nat.eqb_neq in En. lia.
Qed.

(** C39: A canonical read returns on every input, for any settings and any contents of the
    line buffer, in at most one turn per byte available and one more, and keeps the line
    buffer within its bounds. *)
Theorem canon_total fuel ic a n : ic_ok ic -> source_rep (ic_reader ic) a -> (length a + 1 <= fuel)%nat ->
  exists res ic', read_canon fuel ic n = Ret (res, ic') /\ ic_ok ic'.
Proof. apply read_canon_total. Qed.

(** ** Raw reading *)
Lemma imap_app t a b : imap t (a ++ b) = imap t a ++ imap t b.
Proof. unfold imap. apply flat_map_app. Qed.

(** What is read is the mapping of a prefix of the bytes, up to the room or all of them. *)
Lemma read_raw_loop_spec fuel ic a n got : source_rep (ic_reader ic) a -> (length a + 1 <= fuel)%nat -> (n = 0%nat -> got <> []) ->
  exists k ic', let out := got ++ imap (ic_termios ic) (take k a) in
    read_raw_loop fuel ic n got = Ret (if Nat.eqb (length out) 0 then Err WouldBlock else Ok out, ic') /\
    ic_termios ic' = ic_termios ic /\ pending ic' = pending ic /\ source_rep (ic_reader ic') (drop k a) /\
    (length (imap (ic_termios ic) (take k a)) = n \/ ((length (imap (ic_termios ic) (take k a)) <= n)%nat /\ k = length a)).
Proof.
  revert ic a n got. induction fuel as [|f IH]; intros ic a n got Hs Hf Hg; [lia|].
  destruct n as [|n0].
  { exists 0%nat, ic. destruct got as [|g got]; [by destruct Hg|]. rewrite take_0, drop_0. cbn. rewrite app_nil_r. by split_and!; try left. }
  set (n := S n0) in *. change (read_raw_loop (S f) ic n got) with
    (let! (r, rd) := read (ic_reader ic) n in
     let ic := mkIC (ic_termios ic) (linebuf ic) (linebuf_count ic) rd in
     match r with
     | Err WouldBlock => if (0 <? length got)%nat then Ret (Ok got, ic) else Ret (Err WouldBlock, ic)
     | Err e => Ret (Err e, ic)
     | Ok bytes =>
         if Nat.eqb (length bytes) 0 then Ret (Ok got, ic)
         else let! (mapped, thisread) := input_map (ic_termios ic) bytes in
              read_raw_loop f ic (n - thisread)%nat (got ++ take thisread mapped)
     end).
  destruct (source_law (ic_reader ic) a n Hs) as (rd' & -> & Hs'). cbn [obind]. change (0 <? n)%nat with true. cbn [andb].
  destruct (decide (a = [])) as [->|Ha].
  { rewrite drop_nil in Hs'. exists 0%nat. eexists. cbn [length Nat.eqb take]. cbn. rewrite app_nil_r.
    split; [by destruct got|]. split; [done|]. split; [done|]. split; [done|]. right. cbn. split; [lia|done]. }
  destruct (nonempty_length a Ha) as [la Hla]. rewrite Hla. cbn [Nat.eqb]. rewrite length_take.
  rewrite (proj2 (Nat.eqb_neq (Nat.min n (length a)) 0)) by (subst n; lia).
  destruct (input_map_correct (ic_termios ic) (take n a)) as (extra & E & He). cbn [ic_termios]. rewrite E. cbn [obind]. rewrite take_app_length.
  set (m := imap (ic_termios ic) (take n a)) in *. rewrite length_take in He.
  destruct (IH (mkIC (ic_termios ic) (linebuf ic) (linebuf_count ic) rd') (drop n a) (n - length m)%nat (got ++ m)) as (k & ic' & E' & Ht & Hp & Hsk & Hk).
  { done. }
  { rewrite length_drop. subst n. lia. }
  { intros Hz [_ Hm]%app_eq_nil. rewrite Hm in Hz. subst n. cbn in Hz. lia. }
  cbn [ic_termios ic_reader] in *. set (j := Nat.min n (length a)).
  assert (take j a = take n a /\ drop j a = drop n a) as [Ej Ed].
  { unfold j. destruct (decide (n <= length a)%nat); [by rewrite Nat.min_l by done|]. rewrite Nat.min_r by lia. by rewrite !take_ge, !drop_ge by lia. }
  exists (j + k)%nat, ic'. rewrite <- take_take_drop, Ej, Ed, imap_app, app_assoc. fold m. split; [done|]. split; [done|]. split; [done|].
  split; [by rewrite <- drop_drop, Ed|]. rewrite length_app. rewrite length_drop in Hk. destruct Hk as [Hk|[Hk ->]]; [left; lia|right; lia].
Qed.
End lines.

(** ** Examples *)
#[local] Program Instance ex_memchr : Memchr := {|
  memchr a l := find_first (is1 a) l;
  memchr2 a b l := find_first (is2 a b) l;
  memchr3 a b c l := find_first (is3 a b c) l;
  memrchr a l := find_last (is1 a) l;
  memrchr3 a b c l := find_last (is3 a b c) l
|}.
Solve All Obligations with done.

#[local] Program Instance ex_libc : Libc := {|
  INLCR := 64; IGNCR := 128; ICRNL := 256; OPOST := 1; OCRNL := 8; ONLCR := 4;
  ICANON := 2; ECHO := 8; ECHOE := 16; ECHOK := 32; ECHONL := 64;
  VINTR := 0; VQUIT := 1; VERASE := 2; VKILL := 3; VEOF := 4; VWERASE := 14; VSTATUS := 18
|}.
Next Obligation. unfold NCCS. repeat constructor; lia. Qed.

#[local] Instance ex_read : Read (list Z) := fun a n =>
  Ret (if (0 <? n)%nat && Nat.eqb (length a) 0 then Err WouldBlock else Ok (take n a), drop n a).

#[local] Program Instance ex_source : Source (list Z) := {| source_rep rd a := rd = a |}.
Next Obligation. intros rd a n ->. by eexists. Qed.

Definition ex_termios : termios := mkTermios 256 5 2 ([3; 28; 127; 21; 4] ++ replicate 9 0 ++ [23; 0; 0; 0; 20] ++ replicate 13 0).

Lemma canon_total_witness :
  exists res ic', read_canon 5 (ic_new ex_termios [97; 127; 13; 4]) 2 = Ret (res, ic') /\ ic_ok ic'.
Proof.
  apply (canon_total 5 (ic_new ex_termios [97; 127; 13; 4]) [97; 127; 13; 4] 2).
  - split; [by apply length_replicate|cbn; lia|done].
  - done.
  - cbn. lia.
Defined.
End PtyInv.
