(* ===== verification/PtyPost.v ===== *)
(** * Posting input and echoing

    [write_input_posts]: with room for the input, [InputPoster::write_input] hands
    everything up to the first signal character to the client and reports the signal.
    [maybe_echo_line]: a line is echoed as it is; [maybe_echo_returns]: echoing returns on
    every input.  [write_input_full], [write_input_stuck]: the cases in which posting does
    not return. *)
From S2P Require Import Prelude Pty PtyInv.
Import Pty PtyInv.

#[local] Open Scope Z_scope.

Module PtyPost.
Section poster.
Context `{Libc, Memchr} {W E : Type} `{Sink W, Sink E}.
Implicit Types p : InputPoster W E.

Lemma BUF_SZ_pos : (0 < BUF_SZ)%nat.
Proof. apply Nat.ltb_lt. by vm_compute. Qed.

Definition plain (c : Z) : bool := negb (is3 CERASE CKILL CWERASE c) && negb (c =? NL).

Record ip_ok p : Prop := {
  ip_len : length (echobuf p) = BUF_SZ;
  ip_count : (echobuf_len p <= BUF_SZ)%nat
}.

(** [p'] is [p] up to its echo. *)
Definition same_but_echo p p' : Prop := ip_termios p' = ip_termios p /\ ip_writer p' = ip_writer p.

Lemma echo_sink p c r bytes : sink_rep (echoer p) c r -> (length bytes <= r)%nat ->
  exists e', echo p bytes = Ret (Ok tt, mkIP (ip_termios p) (ip_writer p) e' (echobuf p) (echobuf_len p)) /\
    sink_rep e' (c ++ bytes) (r - length bytes).
Proof. intros He Hl. unfold echo. destruct (write_all_sink _ _ _ bytes He Hl) as (e' & -> & He'). by exists e'. Qed.

(** ** Echoing a line *)
Lemma plain_search l : Forall (fun c => plain c = true) l ->
  memchr3 CERASE CKILL CWERASE l = None /\ memchr NL l = None.
Proof.
  intros Hl. rewrite memchr3_law, memchr_law, !find_first_None.
  split; eapply Forall_impl; [exact Hl| |exact Hl|]; unfold plain, is1; intros c [Ha Hb]%andb_true_iff; by apply negb_true_iff.
Qed.

(** The chunk of the echo buffer from [cur]. *)
Definition chunk p (cur : nat) : list Z := take (echobuf_len p - cur) (drop cur (echobuf p)).

Lemma echo_inner_done f ee ek p cur : (echobuf_len p <= cur)%nat -> echo_inner f ee ek p cur = Ret (Ok tt, p).
Proof. intros Hc. destruct f; cbn [echo_inner]; by rewrite (proj2 (Nat.ltb_ge _ _) Hc). Qed.

Lemma echo_inner_plain f ee ek p cur c r : (0 < f)%nat -> (cur < echobuf_len p)%nat -> Forall (fun x => plain x = true) (chunk p cur) ->
  sink_rep (echoer p) c r -> (length (chunk p cur) <= r)%nat -> (echobuf_len p <= length (echobuf p))%nat ->
  exists e', echo_inner f ee ek p cur = Ret (Ok tt, mkIP (ip_termios p) (ip_writer p) e' (echobuf p) (echobuf_len p)) /\
    sink_rep e' (c ++ chunk p cur) (r - length (chunk p cur)).
Proof.
  intros Hf Hc Hp He Hr Hl. destruct f as [|f]; [lia|]. cbn [echo_inner]. rewrite (proj2 (Nat.ltb_lt _ _) Hc). unfold echo_turn. fold (chunk p cur).
  destruct (plain_search _ Hp) as [-> ->]. destruct (echo_sink p c r (chunk p cur) He Hr) as (e' & -> & He'). cbn [rbind obind].
  exists e'. split; [|done]. apply echo_inner_done. cbn. unfold chunk. rewrite length_take, length_drop. lia.
Qed.

Lemma echo_inner_line f ee ek p cur l c r : (0 < f)%nat -> (cur < echobuf_len p)%nat -> chunk p cur = l ++ [NL] -> Forall (fun x => plain x = true) l ->
  sink_rep (echoer p) c r -> (length l + 1 <= r)%nat ->
  exists e', echo_inner f ee ek p cur = Ret (Ok tt, mkIP (ip_termios p) (ip_writer p) e' (echobuf p) 0) /\
    sink_rep e' (c ++ l ++ [NL]) (r - length (l ++ [NL])).
Proof.
  intros Hf Hc Hch Hp He Hr. destruct f as [|f]; [lia|]. cbn [echo_inner]. rewrite (proj2 (Nat.ltb_lt _ _) Hc). unfold echo_turn. fold (chunk p cur). rewrite Hch.
  assert (memchr3 CERASE CKILL CWERASE (l ++ [NL]) = None) as ->.
  { rewrite memchr3_law. apply find_first_None, Forall_app. split; [|by repeat constructor].
    eapply Forall_impl; [exact Hp|]. unfold plain. intros x [Hx _]%andb_true_iff. by apply negb_true_iff. }
  assert (memchr NL (l ++ [NL]) = Some (length l)) as ->.
  { rewrite memchr_law. apply find_first_app; [|done]. eapply Forall_impl; [exact Hp|]. unfold plain, is1. intros x [_ Hx]%andb_true_iff. by apply negb_true_iff. }
  assert (exists e1, (if (0 <? length l)%nat then echo p (take (length l) (l ++ [NL])) else Ret (Ok tt, p)) =
    Ret (Ok tt, mkIP (ip_termios p) (ip_writer p) e1 (echobuf p) (echobuf_len p)) /\ sink_rep e1 (c ++ l) (r - length l)) as (e1 & -> & He1).
  { destruct (Nat.ltb_spec 0 (length l)); [rewrite take_app_length; apply echo_sink; [done|lia]|].
    destruct l; [|cbn in *; lia]. exists (echoer p). rewrite app_nil_r, Nat.sub_0_r. by destruct p. }
  cbn [rbind obind]. rewrite lookup_middle. cbn [unwrap obind].
  change (NL =? CERASE) with false. change (NL =? CKILL) with false. change (NL =? CWERASE) with false. change (NL =? NL) with true. cbn [andb].
  destruct (echo_sink (mkIP (ip_termios p) (ip_writer p) e1 (echobuf p) (echobuf_len p)) _ _ [NL] He1) as (e2 & -> & He2); [cbn; lia|]. cbn [rbind obind].
  exists e2. split; [apply echo_inner_done; cbn; lia|]. rewrite <- app_assoc in He2. rewrite length_app.
  by replace (r - (length l + length [NL]))%nat with (r - length l - length [NL])%nat by lia.
Qed.

Lemma copy_in_chunk (l : list Z) at_ src : (at_ + length src <= length l)%nat ->
  exists l', copy_in l at_ src = Ret l' /\ length l' = length l /\ take (length src) (drop at_ l') = src.
Proof.
  intros Hl. unfold copy_in. rewrite (proj2 (Nat.leb_le _ _) Hl). cbn. eexists. split; [done|].
  split; [rewrite !length_app, length_take, length_drop; lia|].
  rewrite drop_app_length' by (rewrite length_take; lia). apply take_app_length.
Qed.

(** A line that fits in the echo buffer, with or without its end, is echoed as it is. *)
Lemma maybe_echo_line p l nl c r : ip_ok p -> flag (c_lflag (ip_termios p)) ECHO = true ->
  Forall (fun x => plain x = true) l -> let buf := l ++ (if nl : bool then [NL] else []) in
  sink_rep (echoer p) c r -> (length buf <= r)%nat -> (echobuf_len p + length buf < BUF_SZ)%nat ->
  exists p', maybe_echo p buf = Ret (Ok tt, p') /\ ip_ok p' /\ same_but_echo p p' /\ sink_rep (echoer p') (c ++ buf) (r - length buf) /\
    echobuf_len p' = (if nl then 0 else echobuf_len p + length buf)%nat.
Proof.
  intros Hok He Hp buf Hs Hr Hl. unfold maybe_echo. rewrite He. cbn [negb andb]. destruct (decide (buf = [])) as [E0|Hb].
  { exists p. rewrite E0. cbn. rewrite app_nil_r, Nat.sub_0_r. destruct nl; [by apply app_eq_nil in E0 as [_ ?]|]. split_and!; done || lia. }
  destruct (nonempty_length buf Hb) as [f Ef]. rewrite Ef. destruct buf as [|b0 buf0] eqn:Eb; [done|]. cbn [echo_outer]. rewrite <- Eb in *.
  rewrite (proj2 (Nat.eqb_neq (echobuf_len p) BUF_SZ)) by lia. replace (Nat.min (BUF_SZ - echobuf_len p) (length buf)) with (length buf) by lia.
  rewrite take_ge, drop_ge by done. destruct Hok as [O1 O2].
  destruct (copy_in_chunk (echobuf p) (echobuf_len p) buf) as (b' & -> & L1 & L2); [lia|]. cbn [obind].
  set (p1 := set_echo p b' (echobuf_len p + length buf)).
  assert (chunk p1 (echobuf_len p) = buf) as Hch.
  { unfold chunk, p1. cbn. by replace (echobuf_len p + length buf - echobuf_len p)%nat with (length buf) by lia. }
  assert (length buf = length l + if nl then 1 else 0)%nat as Hlen by (unfold buf; rewrite length_app; by destruct nl).
  destruct nl.
  - destruct (echo_inner_line BUF_SZ (flag (c_lflag (ip_termios p)) ECHOE && flag (c_lflag (ip_termios p)) ICANON)
      (flag (c_lflag (ip_termios p)) ECHOK && flag (c_lflag (ip_termios p)) ICANON) p1 (echobuf_len p) l c r) as (e' & -> & He');
      [lia|cbn; lia|done|done|done|lia|]. cbn [rbind obind]. eexists. split; [by destruct f|]. split; [by split; cbn; lia|]. split; [done|]. split; [rewrite <- Ef; exact He'|done].
  - destruct (echo_inner_plain BUF_SZ (flag (c_lflag (ip_termios p)) ECHOE && flag (c_lflag (ip_termios p)) ICANON)
      (flag (c_lflag (ip_termios p)) ECHOK && flag (c_lflag (ip_termios p)) ICANON) p1 (echobuf_len p) c r) as (e' & -> & He');
      [lia|cbn; rewrite Ef; lia|rewrite Hch; unfold buf; by rewrite app_nil_r|done|by rewrite Hch|cbn; lia|]. rewrite Hch in He'.
    cbn [rbind obind]. eexists. split; [by destruct f|]. split; [by split; cbn; lia|]. split; [done|]. split; [rewrite <- Ef; exact He'|by rewrite <- Ef].
Qed.

(** ** Echoing returns *)
Record ip_live p : Prop := {
  live_ok : ip_ok p;
  live_sink : exists c r, sink_rep (echoer p) c r
}.

(** A step of echoing returns, keeps the poster live and does not lengthen the echo
    buffer. *)
Definition echoes {A} p (m : outcome (result A ErrorKind * InputPoster W E)) : Prop :=
  exists res p', m = Ret (res, p') /\ ip_live p' /\ same_but_echo p p' /\ (echobuf_len p' <= echobuf_len p)%nat.

Lemma echoes_ret {A} p (res : result A ErrorKind) : ip_live p -> echoes p (Ret (res, p)).
Proof. intros Hl. exists res, p. split; [done|]. split; [done|]. split; [done|lia]. Qed.

Lemma echoes_bind {A B} p (m : outcome (result A ErrorKind * InputPoster W E)) (k : A -> InputPoster W E -> outcome (result B ErrorKind * InputPoster W E)) :
  echoes p m -> (forall a p', m = Ret (Ok a, p') -> ip_live p' -> (echobuf_len p' <= echobuf_len p)%nat -> echoes p' (k a p')) -> echoes p (rbind m k).
Proof.
  intros (res & p' & -> & Hl & [S1 S2] & Hlen) Hk. cbn [rbind obind]. destruct res as [a|e].
  - destruct (Hk a p' eq_refl Hl Hlen) as (res & p2 & -> & Hl2 & [S3 S4] & Hlen2). exists res, p2. split; [done|]. split; [done|].
    split; [split; congruence|lia].
  - exists (Err e), p'. done.
Qed.

Lemma echo_echoes p bytes : ip_live p -> echoes p (echo p bytes).
Proof.
  intros [[O1 O2] (c & r & Hs)]. unfold echo. destruct (write_all_returns _ c r bytes Hs) as (res & e' & c' & r' & -> & Hs'). cbn [obind].
  eexists _, _. split; [done|]. split; [split; [by split|by exists c', r']|]. done.
Qed.

(** Echoing bytes leaves the echo buffer alone. *)
Lemma echo_same p bytes res p' : echo p bytes = Ret (res, p') -> echobuf p' = echobuf p /\ echobuf_len p' = echobuf_len p.
Proof. unfold echo. destruct (write_all _ _) as [[r e]| |]; cbn; [|done..]. by intros [= <- <-]. Qed.

Lemma echo_times_echoes n p bytes : ip_live p -> echoes p (echo_times n p bytes).
Proof.
  revert p. induction n as [|n IH]; intros p Hl; cbn [echo_times]; [by apply echoes_ret|].
  apply echoes_bind; [by apply echo_echoes|]. intros _ p' _ Hl' _. by apply IH.
Qed.

Lemma erase_chars_spec p s e : ip_live p -> (s <= S e)%nat -> (e < BUF_SZ)%nat ->
  exists p', erase_chars p s e = Ret p' /\ ip_live p' /\ same_but_echo p p' /\ (echobuf_len p' <= echobuf_len p)%nat.
Proof.
  intros [[O1 O2] Hs] Hse He. unfold erase_chars.
  destruct (copy_within_spec (echobuf p) (S e) s) as (b & -> & L & _); [lia|]. cbn [obind].
  eexists. split; [done|]. split; [split; [split; cbn; lia|done]|]. split; [done|]. cbn. lia.
Qed.

Lemma echoes_then_erase p s e (m : outcome (InputPoster W E)) : ip_live p -> m = erase_chars p s e -> (s <= S e)%nat -> (e < BUF_SZ)%nat ->
  echoes p (let! p := m in Ret (Ok tt, p)).
Proof.
  intros Hl -> Hse He. destruct (erase_chars_spec p s e Hl Hse He) as (p' & -> & ? & ? & ?). cbn [obind]. by exists (Ok tt), p'.
Qed.

Lemma echo_erase_from_echoes p space idx : ip_live p -> (space <= idx)%nat -> (idx < BUF_SZ)%nat -> echoes p (echo_erase_from p space idx).
Proof.
  intros Hl Hs Hi. unfold echo_erase_from. apply echoes_bind; [by apply echo_times_echoes|]. intros _ p' _ Hl' _.
  case_match; (eapply echoes_then_erase; [done|done|lia|done]).
Qed.

Lemma find_last_default q (l : list Z) i : (default 0%nat (find_last q (take i l)) <= i)%nat.
Proof. destruct (find_last q (take i l)) as [j|] eqn:Ej; cbn; [|lia]. apply find_last_lt in Ej. rewrite length_take in Ej. lia. Qed.

Lemma echo_turn_echoes ee ek p cur : ip_live p -> (cur < echobuf_len p)%nat ->
  echoes p (echo_turn ee ek p cur) /\ forall n p', echo_turn ee ek p cur = Ret (Ok n, p') -> (1 <= n)%nat.
Proof.
  intros Hl Hc. pose proof Hl as [[O1 O2] _]. unfold echo_turn. set (eb := take _ (drop cur _)).
  assert (length eb = echobuf_len p - cur)%nat as Hleb by (unfold eb; rewrite length_take, length_drop; lia).
  set (mi := match memchr3 CERASE CKILL CWERASE eb with Some e => _ | None => _ end).
  assert (match mi with Some i => (i < length eb)%nat | None => True end) as Hmi.
  { unfold mi. rewrite memchr3_law, memchr_law.
    assert (forall q i, find_first q eb = Some i -> (i < length eb)%nat) as Hff.
    { intros q i (a & x & b & Eq & <- & _)%find_first_Some. rewrite Eq, length_app. cbn. lia. }
    destruct (find_first _ eb) as [i|] eqn:E1, (find_first (is1 NL) eb) as [j|] eqn:E2; eauto.
    pose proof (Hff _ _ E1). pose proof (Hff _ _ E2). lia. }
  destruct mi as [i|].
  2:{ split; [apply echoes_bind; [by apply echo_echoes|intros; by apply echoes_ret]|].
      intros n p'. destruct (echo p eb) as [[[u|e] p1]| |]; cbn; [|done..]. intros [= <- _]. lia. }
  destruct (lookup_lt_is_Some_2 eb i Hmi) as [c Ec]. split.
  - apply echoes_bind; [case_match; [by apply echo_echoes|by apply echoes_ret]|]. intros u p1 _ Hl1 Hlen1. rewrite Ec. cbn [unwrap obind].
    assert (i + cur < BUF_SZ)%nat as Hib by lia.
    apply echoes_bind; [|intros; by apply echoes_ret]. repeat case_match.
    + apply echoes_bind; [by apply echo_echoes|]. intros _ p2 _ Hl2 _. eapply echoes_then_erase; [done|done|lia|lia].
    + apply echo_erase_from_echoes; [done| |done]. rewrite memrchr_law. apply find_last_default.
    + apply echo_erase_from_echoes; [done| |done]. rewrite memrchr3_law. apply find_last_default.
    + apply echoes_bind; [by apply echo_echoes|]. intros _ p2 _ [[O3 O4] Hs2] _. eexists (Ok tt), _. split; [done|].
      split; [split; [split; cbn; [done|lia]|done]|]. split; [done|]. cbn. lia.
    + by apply echo_echoes.
  - intros n p'. set (m1 := if (0 <? i)%nat then _ else _). destruct m1 as [[[u|e] p1]| |]; cbn [rbind obind]; [|done..].
    rewrite Ec. cbn [unwrap obind]. set (m2 := if (c =? CERASE) && ee then _ else _).
    destruct m2 as [[[u2|e2] p2]| |]; cbn [rbind obind]; [|done..]. intros [= <- _]. lia.
Qed.

Lemma echo_inner_echoes fuel ee ek p cur : ip_live p -> (echobuf_len p - cur <= fuel)%nat -> echoes p (echo_inner fuel ee ek p cur).
Proof.
  revert p cur. induction fuel as [|f IH]; intros p cur Hl Hf.
  { rewrite echo_inner_done by lia. by apply echoes_ret. }
  destruct (decide (echobuf_len p <= cur)%nat); [rewrite echo_inner_done by done; by apply echoes_ret|].
  cbn [echo_inner]. rewrite (proj2 (Nat.ltb_lt _ _)) by lia.
  destruct (echo_turn_echoes ee ek p cur Hl ltac:(lia)) as [He Hn]. apply echoes_bind; [done|].
  intros k p' E' Hl' Hlen. specialize (Hn _ _ E'). apply IH; [done|lia].
Qed.

Lemma echo_outer_returns fuel ee ek p buf : ip_live p -> (length buf <= fuel)%nat ->
  exists res p', echo_outer fuel ee ek p buf = Ret (res, p') /\ ip_live p' /\ same_but_echo p p'.
Proof.
  revert p buf. induction fuel as [|f IH]; intros p buf Hl Hf.
  { destruct buf; [|cbn in Hf; lia]. by eexists _, p. }
  destruct (decide (buf = [])) as [->|Hb]; [by eexists _, p|]. destruct (nonempty_length buf Hb) as [k Hk].
  destruct buf as [|b0 buf0] eqn:Eb; [done|]. cbn [echo_outer]. rewrite <- Eb in *. clear Eb b0 buf0.
  set (p0 := if Nat.eqb (echobuf_len p) BUF_SZ then set_echo p (echobuf p) 0 else p).
  assert (ip_live p0 /\ same_but_echo p p0 /\ (echobuf_len p0 < BUF_SZ)%nat) as (Hl0 & [S1 S2] & Hlt).
  { destruct Hl as [[O1 O2] Hs]. unfold p0. destruct (Nat.eqb_spec (echobuf_len p) BUF_SZ) as [E0|E0].
    - split; [split; [split; cbn; [done|lia]|done]|]. split; [done|]. cbn. pose proof (BUF_SZ_pos). lia.
    - split; [by split|]. split; [done|lia]. }
  pose proof Hl0 as [[O1 O2] Hs]. set (n := Nat.min (BUF_SZ - echobuf_len p0) (length buf)).
  destruct (copy_in_chunk (echobuf p0) (echobuf_len p0) (take n buf)) as (b & -> & L & _); [rewrite length_take; lia|]. cbn [obind].
  set (p1 := set_echo p0 b (echobuf_len p0 + n)).
  assert (ip_live p1) as Hl1 by (split; [split; cbn; lia|done]).
  destruct (echo_inner_echoes BUF_SZ ee ek p1 (echobuf_len p0) Hl1) as (res & p2 & -> & Hl2 & [S3 S4] & _); [cbn; lia|]. cbn [rbind obind].
  destruct res as [u|e]; [|eexists _, p2; split; [done|]; split; [done|]; split; cbn in *; congruence].
  destruct (IH p2 (drop n buf) Hl2) as (res & p3 & -> & Hl3 & [S5 S6]); [rewrite length_drop; lia|].
  exists res, p3. split; [done|]. split; [done|]. split; cbn in *; congruence.
Qed.

Lemma maybe_echo_returns p buf : ip_live p ->
  exists res p', maybe_echo p buf = Ret (res, p') /\ ip_live p' /\ same_but_echo p p'.
Proof.
  intros Hl. unfold maybe_echo. case_match; [by eexists _, p|]. case_match; [|by apply echo_outer_returns].
  destruct (echo_times_echoes (length (filter (fun c => c = NL) buf)) (set_echo p (echobuf p) 0) [NL]) as (res & p' & -> & Hl' & Hs & _).
  - destruct Hl as [[O1 O2] Hs]. split; [split; cbn; [done|lia]|done].
  - by exists res, p'.
Qed.

(** ** Posting *)
Lemma imap_length_eq t l : flag (c_iflag t) IGNCR = false -> length (imap t l) = length l.
Proof.
  intros Hi. unfold imap. rewrite Hi. induction l as [|x l IH]; cbn; [done|]. rewrite length_app, IH. unfold imap1.
  by repeat case_match.
Qed.

(** Nothing is echoed. *)
Definition quiet (t : termios) : bool :=
  negb (flag (c_lflag t) ECHO) && negb (flag (c_lflag t) ECHONL && flag (c_lflag t) ICANON).

Lemma maybe_echo_quiet p buf : quiet (ip_termios p) = true -> maybe_echo p buf = Ret (Ok tt, p).
Proof. unfold quiet, maybe_echo. by intros ->. Qed.

Lemma maybe_echo_nil p : exists p', maybe_echo p [] = Ret (Ok tt, p') /\ ip_termios p' = ip_termios p.
Proof. unfold maybe_echo. repeat case_match; cbn; by eexists. Qed.

(** [p'] is [p] after the bytes [a] written were echoed in one piece, mapped. *)
Definition echoed p (a : list Z) p' : Prop :=
  if decide (a = []) then p' = p else maybe_echo p (imap (ip_termios p) a) = Ret (Ok tt, p').

Lemma echo_written_once f p a p' : flag (c_iflag (ip_termios p)) IGNCR = false -> (length a <= BUF_SZ)%nat ->
  echoed p a p' -> echo_written (S f) p a 0 = Ret (Ok tt, p').
Proof.
  intros Hi Hl Hm. unfold echoed in Hm. destruct (decide (a = [])) as [->|Ha]; [by subst|].
  destruct (nonempty_length a Ha) as [k Hk]. cbn [echo_written]. rewrite (proj2 (Nat.ltb_lt 0 _)) by lia.
  rewrite drop_0, (proj2 (Nat.leb_le _ _) Hl). cbn [rassert obind].
  destruct (input_map_correct (ip_termios p) a) as (extra & -> & _). cbn [obind]. rewrite take_app_length, Hm. cbn [rbind obind].
  rewrite imap_length_eq by done. destruct f; cbn [echo_written Nat.add]; by rewrite Nat.ltb_irrefl.
Qed.

(** The signal of a control character, in the order the code tests them. *)
Definition sig_of (t : termios) (c : Z) : option PtySignal :=
  if c =? ctl t VINTR then Some Interrupt
  else if c =? ctl t VQUIT then Some Quit
  else if c =? ctl t VSTATUS then Some Status
  else None.

Lemma is_sig t c : is3 (ctl t VSTATUS) (ctl t VINTR) (ctl t VQUIT) c = bool_decide (is_Some (sig_of t c)).
Proof.
  unfold is3, sig_of. destruct (c =? ctl t VINTR), (c =? ctl t VQUIT), (c =? ctl t VSTATUS); cbn; try done;
    symmetry; try (apply bool_decide_eq_true_2; by eexists); apply bool_decide_eq_false_2; by intros [? ?].
Qed.

Definition no_signal (t : termios) (l : list Z) : Prop := Forall (fun c => sig_of t c = None) l.

Lemma no_signal_search t l : no_signal t l -> Forall (fun c => is3 (ctl t VSTATUS) (ctl t VINTR) (ctl t VQUIT) c = false) l.
Proof. intros Hl. eapply Forall_impl; [exact Hl|]. cbn. intros c Hc. rewrite is_sig, Hc. apply bool_decide_eq_false_2. by intros [? ?]. Qed.

Lemma split_input_none t l : no_signal t l -> split_input (ctl t VINTR) (ctl t VQUIT) (ctl t VSTATUS) l = Ret (length l, None).
Proof. intros Hl. unfold split_input. by rewrite memchr3_law, (proj2 (find_first_None _ _) (no_signal_search _ _ Hl)). Qed.

Lemma split_input_signal t a s b g : no_signal t a -> sig_of t s = Some g ->
  split_input (ctl t VINTR) (ctl t VQUIT) (ctl t VSTATUS) (a ++ s :: b) = Ret (length a, Some g).
Proof.
  intros Ha Hs. unfold split_input. rewrite memchr3_law, find_first_app; [|by apply no_signal_search|rewrite is_sig, Hs; by apply bool_decide_eq_true_2].
  rewrite lookup_middle. cbn [unwrap obind]. unfold sig_of in Hs. destruct (s =? ctl t VINTR); [by injection Hs as <-|].
  destruct (s =? ctl t VQUIT); [by injection Hs as <-|]. destruct (s =? ctl t VSTATUS); [by injection Hs as <-|done].
Qed.

Definition with_writer p (w : W) : InputPoster W E := mkIP (ip_termios p) w (echoer p) (echobuf p) (echobuf_len p).

(** The input [a] is followed by a signal character and more, or by nothing. *)
Definition rest_signal (t : termios) (rest : list Z) (o : option PtySignal) : Prop :=
  match rest, o with
  | [], None => True
  | s :: _, Some g => sig_of t s = Some g
  | _, _ => False
  end.

(** What [write_input] reports. *)
Definition report (a : list Z) (o : option PtySignal) : WriteReport :=
  mkReport (length a + (match o with Some _ => 1 | None => 0 end)) o.

(** [write_input] with room for what it posts. *)
Lemma write_input_spec f p c r a rest o : termios_ok (ip_termios p) -> flag (c_iflag (ip_termios p)) IGNCR = false ->
  sink_rep (ip_writer p) c r -> (length a <= r)%nat -> (length a <= BUF_SZ)%nat ->
  no_signal (ip_termios p) a -> rest_signal (ip_termios p) rest o -> a ++ rest <> [] ->
  exists w', sink_rep w' (c ++ a) (r - length a) /\
    forall p', echoed (with_writer p w') a p' -> write_input (S (S f)) p (a ++ rest) = Ret (Ok (report a o), p').
Proof.
  intros Ht Hig Hs Hr Hb Hna Hrest Hne. unfold write_input.
  destruct cc_indices as (I1 & I2 & I3 & _). rewrite !cc_spec by done. cbn [obind].
  destruct (a ++ rest) as [|x0 l0] eqn:El; [done|]. cbn [write_input_loop]. rewrite <- El.
  assert (split_input (ctl (ip_termios p) VINTR) (ctl (ip_termios p) VQUIT) (ctl (ip_termios p) VSTATUS) (a ++ rest) = Ret (length a, o)) as ->.
  { destruct rest as [|s b], o as [g|]; try done; [rewrite app_nil_r; by apply split_input_none|by apply split_input_signal]. }
  cbn [obind]. rewrite take_app_length. destruct (sink_law (ip_writer p) c r a Hs) as (w' & -> & Hs'). cbn [obind].
  replace (Nat.min (length a) r) with (length a) in * by lia. rewrite take_ge in Hs' by done. rewrite take_app_length.
  exists w'. split; [done|]. intros p' Hm. fold (with_writer p w'). rewrite (echo_written_once f (with_writer p w') a p' Hig Hb Hm).
  cbn [rbind obind]. rewrite drop_app_length, Nat.eqb_refl. unfold report.
  destruct rest as [|s b], o as [g|]; try done; cbn [andb drop]; [by rewrite Nat.add_0_r|]. destruct b; cbn [write_input_loop]; done.
Qed.

(** With room for it and echo off, input up to the first signal character is handed to
    the client byte for byte; the signal character is consumed and reported, in the order
    interrupt, quit, status, and what follows it is left to the caller. *)
Theorem write_input_posts f p c r a rest o : termios_ok (ip_termios p) -> flag (c_iflag (ip_termios p)) IGNCR = false ->
  quiet (ip_termios p) = true -> sink_rep (ip_writer p) c r -> (length a <= r)%nat -> (length a <= BUF_SZ)%nat ->
  no_signal (ip_termios p) a -> rest_signal (ip_termios p) rest o -> a ++ rest <> [] ->
  exists w', write_input (S (S f)) p (a ++ rest) = Ret (Ok (report a o), with_writer p w') /\ sink_rep w' (c ++ a) (r - length a).
Proof.
  intros Ht Hig Hq Hs Hr Hb Hn Hrs Hne. destruct (write_input_spec f p c r a rest o) as (w' & Hw & Hp); try done.
  exists w'. split; [|done]. apply Hp. unfold echoed. case_decide; [done|]. by apply maybe_echo_quiet.
Qed.

(** With no room the loop turns without posting anything. *)
Lemma write_input_full fuel p c buf : termios_ok (ip_termios p) -> sink_rep (ip_writer p) c 0 -> buf <> [] -> no_signal (ip_termios p) buf ->
  write_input fuel p buf = NoFuel.
Proof.
  intros Ht Hs Hb Hn. unfold write_input. destruct cc_indices as (I1 & I2 & I3 & _). rewrite !cc_spec by done. cbn [obind].
  remember (ip_termios p) as t eqn:Et. clear Ht. generalize 0%nat as total. revert p Et Hs. induction fuel as [|f IH]; intros p -> Hs total.
  { by destruct buf. }
  destruct buf as [|b0 buf0] eqn:Eb; [done|]. cbn [write_input_loop]. rewrite <- Eb in *. rewrite split_input_none by done. cbn [obind].
  rewrite take_ge by done. destruct (sink_law (ip_writer p) c 0 buf Hs) as (w' & -> & Hs'). cbn [obind]. rewrite Nat.min_0_r in *.
  rewrite take_0, app_nil_r in Hs'. rewrite take_0, drop_0. assert (forall q, echo_written f q [] 0 = Ret (Ok tt, q)) as -> by (by destruct f).
  cbn [rbind obind]. cbn [andb]. by apply (IH (with_writer p w')).
Qed.

(** A carriage return that is ignored is never done being echoed. *)
Lemma write_input_stuck fuel p c r : termios_ok (ip_termios p) -> flag (c_iflag (ip_termios p)) IGNCR = true ->
  sink_rep (ip_writer p) c (S r) -> sig_of (ip_termios p) CR = None -> write_input fuel p [CR] = NoFuel.
Proof.
  intros Ht Hig Hs Hn. unfold write_input. destruct cc_indices as (I1 & I2 & I3 & _). rewrite !cc_spec by done. cbn [obind].
  destruct fuel as [|f]; [done|]. cbn [write_input_loop].
  rewrite split_input_none by (by constructor). cbn [obind length take].
  destruct (sink_law (ip_writer p) c (S r) [CR] Hs) as (w' & -> & _). cbn [obind length Nat.min take].
  assert (forall f (q : InputPoster W E), ip_termios q = ip_termios p -> echo_written f q [CR] 0 = NoFuel) as Hstuck; [|by rewrite (Hstuck f)].
  clear f. induction f as [|f IH]; intros q Eq; [done|]. cbn [echo_written]. change (0 <? length [CR])%nat with true. cbn [drop length].
  rewrite (proj2 (Nat.leb_le 1 BUF_SZ)) by apply BUF_SZ_pos. cbn [rassert obind].
  destruct (input_map_correct (ip_termios q) [CR]) as (extra & -> & _). cbn [obind]. rewrite take_app_length.
  assert (imap (ip_termios q) [CR] = []) as -> by (unfold imap; rewrite Eq, Hig; done).
  destruct (maybe_echo_nil q) as (q' & -> & Eq'). cbn [rbind obind length Nat.add]. apply IH. congruence.
Qed.
End poster.

(** ** Examples *)
#[local] Existing Instance ex_memchr.
#[local] Existing Instance ex_libc.

(** A list that holds at most 80 bytes. *)
#[local] Instance ex_write : Write (list Z) := fun w buf =>
  let k := Nat.min (length buf) (80 - length w) in Ret (Ok k, w ++ take k buf).

#[local] Program Instance ex_sink : Sink (list Z) := {| sink_rep w c r := w = c /\ r = (80 - length c)%nat |}.
Next Obligation.
  intros w c r buf [-> ->]. cbv zeta. eexists. split; [done|]. split; [done|]. rewrite length_app, length_take. lia.
Qed.

Definition ex_poster : InputPoster (list Z) (list Z) := ip_new ex_termios [97] [].

(** The bytes bc, the interrupt character and d. *)
Lemma write_input_posts_witness : exists w',
  write_input 2 ex_poster ([98; 99] ++ [3; 100]) = Ret (Ok (mkReport 3 (Some Interrupt)), with_writer ex_poster w') /\ sink_rep w' [97; 98; 99] 77.
Proof.
  apply (write_input_posts 0 ex_poster [97] 79 [98; 99] [3; 100] (Some Interrupt)).
  - done.
  - done.
  - done.
  - done.
  - cbn. lia.
  - apply Nat.leb_le. by vm_compute.
  - by repeat constructor.
  - done.
  - done.
Defined.
End PtyPost.
