(* ===== verification/SeqCell.v ===== *)
(** * The settings of a terminal ([PtyBase] in [src/lib/twizzler-io/src/pty.rs])

    The [termios] and the window size of a terminal are each a structure and a generation
    counter.  An update waits for an even generation, makes it odd with a
    compare-exchange, reads, changes and writes the structure, and makes it even again; a
    reader copies the structure and accepts the copy if the generation was even and has not
    changed.  The structure is copied word by word, so that a reader overlapping an update
    sees parts of both.

    Every access of the generation and every word copied is one step ([read_step],
    [update_step]); [step] interleaves any number of readers and updaters.  [history] holds
    the values the cell has had at even generations.

    [settings_atomic]: what a reader accepts is a value the cell had, never a mixture, and
    every update is applied to the value of the update before it.  The theorem assumes
    fewer than [2^63] updates, the width of the counter.  [reader_oversleeps]: a reader
    overtaken by an update waits for the next one. *)
From S2P Require Import Prelude.

#[local] Open Scope Z_scope.

Module SeqCell.

Record cell := mkCell { gen : Z; data : list Z }.

(** ** [read_termios] and [try_read_termios]

    A call with [mode] [Some g] is [try_read_termios(g)]: it gives up when there is
    nothing new or an update is on the way. *)
Inductive rd_pc :=
| RdLoad
| RdCopy (g : Z) (acc : list Z)
| RdCheck (g : Z) (val : list Z)
| RdSleep (g : Z)
| RdDone (r : option (list Z * Z)).

Definition read_step (mode : option Z) (c : cell) (pc : rd_pc) : rd_pc :=
  match pc with
  | RdLoad => if bool_decide (mode = Some (gen c)) then RdDone None else RdCopy (gen c) []
  | RdCopy g acc =>
      match data c !! length acc with
      | Some w => RdCopy g (acc ++ [w])
      | None => RdCheck g acc
      end
  | RdCheck g val =>
      if (g =? gen c) && (Z.land g 1 =? 0) then RdDone (Some (val, g))
      else match mode with None => RdSleep (gen c) | Some _ => RdDone None end
  | RdSleep g => if gen c =? g then RdSleep g else RdLoad
  | RdDone r => RdDone r
  end.

(** ** [update_termios] *)
Inductive up_pc :=
| UpLoad
| UpSleep (g : Z)
| UpCas (g : Z)
| UpRead (acc : list Z)
| UpWrite (new : list Z) (k : nat)
| UpAdd (new : list Z)
| UpDone (new : list Z).

Definition update_step (f : list Z -> list Z) (c : cell) (pc : up_pc) : cell * up_pc :=
  match pc with
  | UpLoad => (c, if negb (Z.land (gen c) 1 =? 0) then UpSleep (gen c) else UpCas (gen c))
  | UpSleep g => (c, if gen c =? g then UpSleep g else UpLoad)
  | UpCas g => if gen c =? g then (mkCell (g + 1) (data c), UpRead []) else (c, UpLoad)
  | UpRead acc =>
      match data c !! length acc with
      | Some w => (c, UpRead (acc ++ [w]))
      | None => (c, UpWrite (f acc) 0)
      end
  | UpWrite new k =>
      match new !! k with
      | Some w => (mkCell (gen c) (<[k := w]> (data c)), UpWrite new (S k))
      | None => (c, UpAdd new)
      end
  | UpAdd new => (mkCell (wrap 64 (gen c + 1)) (data c), UpDone new)
  | UpDone new => (c, UpDone new)
  end.

(** ** Any number of readers and updaters *)
Record updater := mkUp { up_fun : list Z -> list Z; up_at : up_pc }.
Record reader := mkRd { rd_mode : option Z; rd_at : rd_pc }.

Record sys := mkSys {
  the_cell : cell;
  readers : gmap nat reader;
  updaters : gmap nat updater;
  history : list (list Z) }.

(** The value committed by a step, if it is the last of an update. *)
Definition commits (pc : up_pc) : list (list Z) := match pc with UpAdd new => [new] | _ => [] end.

(** A function on the structure keeps its size. *)
Definition sized (n : nat) (f : list Z -> list Z) : Prop := forall v, length v = n -> length (f v) = n.

Inductive step (n : nat) : relation sys :=
| step_read_call s i mode : step n s (mkSys (the_cell s) (<[i := mkRd mode RdLoad]> (readers s)) (updaters s) (history s))
| step_read s i r : readers s !! i = Some r ->
    step n s (mkSys (the_cell s) (<[i := mkRd (rd_mode r) (read_step (rd_mode r) (the_cell s) (rd_at r))]> (readers s)) (updaters s) (history s))
| step_update_call s i f : sized n f -> updaters s !! i = None ->
    step n s (mkSys (the_cell s) (readers s) (<[i := mkUp f UpLoad]> (updaters s)) (history s))
| step_update s i u : updaters s !! i = Some u ->
    step n s (mkSys (update_step (up_fun u) (the_cell s) (up_at u)).1 (readers s)
                (<[i := mkUp (up_fun u) (update_step (up_fun u) (the_cell s) (up_at u)).2]> (updaters s))
                (history s ++ commits (up_at u))).

(** [PtyBase::new] *)
Definition init (v : list Z) : sys := mkSys (mkCell 0 v) ∅ ∅ [v].

(** ** The invariant *)
Definition holds_lock (pc : up_pc) : bool :=
  match pc with UpRead _ | UpWrite _ _ | UpAdd _ => true | _ => false end.

(** The generation after [h] values, [l] being whether an update is on the way. *)
Definition gen_of (h : list (list Z)) (l : bool) : Z := 2 * (zlen h - 1) + Z.b2z l.

(** What the holder of the lock knows; [old] is the last value committed. *)
Definition holder_ok (n : nat) (f : list Z -> list Z) (pc : up_pc) (d old : list Z) : Prop :=
  match pc with
  | UpRead acc => d = old /\ acc = take (length acc) old
  | UpWrite new k => new = f old /\ (k <= n)%nat /\ take k d = take k new
  | UpAdd new => new = f old /\ d = new
  | _ => True
  end.

(** An update applied to value [k] of the history gave value [k + 1]. *)
Definition applied (h : list (list Z)) (f : list Z -> list Z) (new : list Z) : Prop :=
  exists k old, h !! k = Some old /\ h !! S k = Some new /\ new = f old.

Definition updater_ok (n : nat) (s : sys) (u : updater) : Prop :=
  sized n (up_fun u) /\
  match up_at u with
  | UpCas g => Z.land g 1 = 0
  | UpDone new => applied (history s) (up_fun u) new
  | _ => True
  end.

Definition reader_ok (s : sys) (pc : rd_pc) : Prop :=
  match pc with
  | RdCopy g acc => g <= gen (the_cell s) /\ (gen (the_cell s) = g -> Z.land g 1 = 0 -> acc = take (length acc) (data (the_cell s)))
  | RdCheck g val => g <= gen (the_cell s) /\ (gen (the_cell s) = g -> Z.land g 1 = 0 -> val = data (the_cell s))
  | RdDone (Some (val, g)) => 0 <= g /\ Z.land g 1 = 0 /\ history s !! Z.to_nat (g / 2) = Some val
  | _ => True
  end.

Record inv (n : nat) (s : sys) : Prop := {
  i_data : length (data (the_cell s)) = n;
  i_hist : exists old, last (history s) = Some old /\ length old = n /\
    ((gen (the_cell s) = gen_of (history s) false /\ data (the_cell s) = old /\
      forall i u, updaters s !! i = Some u -> holds_lock (up_at u) = false) \/
     (gen (the_cell s) = gen_of (history s) true /\
      exists i u, updaters s !! i = Some u /\ holds_lock (up_at u) = true /\ holder_ok n (up_fun u) (up_at u) (data (the_cell s)) old /\
        forall j u', updaters s !! j = Some u' -> holds_lock (up_at u') = true -> j = i));
  i_up : forall i u, updaters s !! i = Some u -> updater_ok n s u;
  i_rd : forall i r, readers s !! i = Some r -> reader_ok s (rd_at r)
}.

Lemma gen_odd h l : 1 <= zlen h -> Z.land (gen_of h l) 1 = Z.b2z l.
Proof.
  intros Hh. unfold gen_of. change 1 with (Z.ones 1) at 2. rewrite Z.land_ones by lia. destruct l; cbn [Z.b2z].
  - rewrite Z.add_comm, Z.mul_comm, Z_mod_plus_full. done.
  - rewrite Z.add_0_r, Z.mul_comm. apply Z_mod_mult.
Qed.

Lemma last_zlen {A} (h : list A) x : last h = Some x -> 1 <= zlen h.
Proof. destruct h; [done|]. unfold zlen. cbn. lia. Qed.

Lemma last_is_lookup {A} (h : list A) x : last h = Some x -> h !! Z.to_nat (zlen h - 1) = Some x.
Proof. intros Hl. rewrite last_lookup in Hl. rewrite <- Hl. f_equal. unfold zlen. lia. Qed.

(** ** Readers *)
Lemma cell_reader_mono s s' pc : gen (the_cell s) <= gen (the_cell s') ->
  (gen (the_cell s') = gen (the_cell s) -> Z.land (gen (the_cell s)) 1 = 0 -> data (the_cell s') = data (the_cell s)) ->
  history s `prefix_of` history s' -> reader_ok s pc -> reader_ok s' pc.
Proof.
  intros Hg Hd Hh. destruct pc as [|g acc|g val|g|[[val g]|]]; cbn; try done.
  - intros [Hle Ha]. split; [lia|]. intros E H1. rewrite Hd by (congruence || lia || by replace (gen (the_cell s)) with g by lia).
    apply Ha; [lia|done].
  - intros [Hle Ha]. split; [lia|]. intros E H1. rewrite Hd by (congruence || lia || by replace (gen (the_cell s)) with g by lia).
    apply Ha; [lia|done].
  - intros (H0 & H1 & H2). split; [done|]. split; [done|]. by eapply prefix_lookup_Some.
Qed.

Lemma inv_even n s : inv n s -> Z.land (gen (the_cell s)) 1 = 0 ->
  gen (the_cell s) = gen_of (history s) false /\ last (history s) = Some (data (the_cell s)) /\
  forall i u, updaters s !! i = Some u -> holds_lock (up_at u) = false.
Proof.
  intros [_ (old & Hl & _ & [(Hg & Hd & Hn)|(Hg & _)]) _ _] He.
  - split; [done|]. split; [by rewrite Hd|done].
  - rewrite Hg, gen_odd in He by (by eapply last_zlen). done.
Qed.

Lemma read_step_ok n s mode pc : inv n s -> reader_ok s pc -> reader_ok s (read_step mode (the_cell s) pc).
Proof.
  intros Hi Hr. destruct pc as [|g acc|g val|g|r]; cbn in *.
  - case_bool_decide; cbn; [done|]. split; [lia|done].
  - destruct Hr as [Hle Ha]. destruct (data (the_cell s) !! length acc) as [w|] eqn:Ew; cbn; (split; [done|]); intros E H1; specialize (Ha E H1).
    + rewrite length_app, Nat.add_comm. cbn. rewrite (take_S_r _ _ w Ew). by rewrite <- Ha.
    + rewrite Ha. apply take_ge. by apply lookup_ge_None_1.
  - destruct ((g =? gen (the_cell s)) && (Z.land g 1 =? 0)) eqn:E.
    + apply andb_true_iff in E as [->%Z.eqb_eq He%Z.eqb_eq]. destruct Hr as [_ Hv]. rewrite (Hv eq_refl He). cbn.
      destruct (inv_even n s Hi He) as (Hg & Hl & _). pose proof (last_zlen _ _ Hl).
      rewrite Hg at 1 3. unfold gen_of. cbn [Z.b2z]. split; [lia|]. split; [done|].
      replace ((2 * (zlen (history s) - 1) + 0) / 2) with (zlen (history s) - 1) by (rewrite Z.add_0_r, Z.mul_comm, Z.div_mul; lia).
      by apply last_is_lookup.
    + by destruct mode.
  - by destruct (_ =? _).
  - done.
Qed.

Lemma updater_ok_mono n s s' u : history s `prefix_of` history s' -> updater_ok n s u -> updater_ok n s' u.
Proof.
  intros Hh [Hf Hu]. split; [done|]. destruct (up_at u); try done. destruct Hu as (k & old & E1 & E2 & E3).
  exists k, old. split; [by eapply prefix_lookup_Some|]. split; [by eapply prefix_lookup_Some|done].
Qed.

(** ** Updaters *)

(** A step that neither takes nor holds the lock. *)
Lemma inv_unlocked n s i u : inv n s -> (forall u0, updaters s !! i = Some u0 -> holds_lock (up_at u0) = false) ->
  holds_lock (up_at u) = false -> updater_ok n s u -> inv n (mkSys (the_cell s) (readers s) (<[i := u]> (updaters s)) (history s)).
Proof.
  intros Hi Hu0 Hu Hok. destruct Hi as [Hd (old & Hl & Ho & Hc) Hup Hrd]. split; cbn; [done| | |done].
  - exists old. split; [done|]. split; [done|]. destruct Hc as [(Hg & Hdo & Hn)|(Hg & j & v & Ej & Hv & Hh & Hun)]; [left|right].
    + split; [done|]. split; [done|]. intros k w [[<- <-]|[_ Ek]]%lookup_insert_Some; [done|by eapply Hn].
    + split; [done|]. assert (i <> j) as Hij by (intros <-; rewrite (Hu0 _ Ej) in Hv; done). exists j, v.
      split; [by rewrite lookup_insert_ne|]. split; [done|]. split; [done|].
      intros k w [[<- <-]|[_ Ek]]%lookup_insert_Some Hw; [congruence|by eapply Hun].
  - intros k w [[<- <-]|[_ Ek]]%lookup_insert_Some; [done|]. by apply (Hup k).
Qed.

Lemma inv_holder n s i u : inv n s -> updaters s !! i = Some u -> holds_lock (up_at u) = true ->
  exists old, last (history s) = Some old /\ length old = n /\ gen (the_cell s) = gen_of (history s) true /\
    holder_ok n (up_fun u) (up_at u) (data (the_cell s)) old /\
    forall j u', updaters s !! j = Some u' -> holds_lock (up_at u') = true -> j = i.
Proof.
  intros [_ (old & Hl & Ho & [(_ & _ & Hn)|(Hg & j & v & Ej & Hv & Hh & Hun)]) _ _] Ei Hu.
  - by rewrite (Hn i u Ei) in Hu.
  - exists old. assert (i = j) as <- by (by eapply Hun). assert (u = v) as <- by congruence. done.
Qed.

(** A step of the holder that keeps the lock. *)
Lemma inv_locked n s i u d' u' : inv n s -> updaters s !! i = Some u -> holds_lock (up_at u) = true -> holds_lock (up_at u') = true ->
  updater_ok n s u' -> length d' = n ->
  (forall old, length old = n -> holder_ok n (up_fun u) (up_at u) (data (the_cell s)) old -> holder_ok n (up_fun u') (up_at u') d' old) ->
  inv n (mkSys (mkCell (gen (the_cell s)) d') (readers s) (<[i := u']> (updaters s)) (history s)).
Proof.
  intros Hi Ei Hu Hu' Hok Hd Hh. destruct (inv_holder n s i u Hi Ei Hu) as (old & Hl & Ho & Hg & Hhold & Hun).
  split; cbn; [done| | |].
  - exists old. split; [done|]. split; [done|]. right. split; [done|]. exists i, u'. split; [apply lookup_insert_eq|]. split; [done|]. split; [by apply Hh|].
    intros k w [[<- <-]|[_ Ek]]%lookup_insert_Some Hw; [done|by eapply Hun].
  - intros k w [[<- <-]|[_ Ek]]%lookup_insert_Some; [exact Hok|]. by apply (i_up n s Hi k).
  - intros k r Ek. eapply (cell_reader_mono s); [cbn; lia| |done|by apply (i_rd n s Hi k)]. cbn. intros _ He.
    rewrite Hg, gen_odd in He by (by eapply last_zlen). done.
Qed.

Lemma inv_cas n s i u : inv n s -> updaters s !! i = Some u -> up_at u = UpCas (gen (the_cell s)) ->
  inv n (mkSys (mkCell (gen (the_cell s) + 1) (data (the_cell s))) (readers s) (<[i := mkUp (up_fun u) (UpRead [])]> (updaters s)) (history s)).
Proof.
  intros Hi Ei Eu. destruct (i_up n s Hi i u Ei) as [Hf He]. rewrite Eu in He. destruct (inv_even n s Hi He) as (Hg & Hl & Hn).
  split; cbn; [apply Hi| | |].
  - exists (data (the_cell s)). split; [done|]. split; [apply Hi|]. right. split; [rewrite Hg; unfold gen_of; cbn; lia|].
    exists i, (mkUp (up_fun u) (UpRead [])). split; [apply lookup_insert_eq|]. split; [done|]. split; [done|].
    intros k w [[<- <-]|[_ Ek]]%lookup_insert_Some Hw; [done|]. by rewrite (Hn k w Ek) in Hw.
  - intros k w [[<- <-]|[_ Ek]]%lookup_insert_Some; [done|]. by apply (i_up n s Hi k).
  - intros k r Ek. eapply (cell_reader_mono s); [cbn; lia|cbn; lia|done|by apply (i_rd n s Hi k)].
Qed.

Lemma inv_commit n s i u new : inv n s -> updaters s !! i = Some u -> up_at u = UpAdd new -> 2 * zlen (history s) < 2 ^ 64 ->
  inv n (mkSys (mkCell (wrap 64 (gen (the_cell s) + 1)) (data (the_cell s))) (readers s) (<[i := mkUp (up_fun u) (UpDone new)]> (updaters s)) (history s ++ [new])).
Proof.
  intros Hi Ei Eu Hb. destruct (inv_holder n s i u Hi Ei) as (old & Hl & Ho & Hg & Hh & Hun); [by rewrite Eu|]. rewrite Eu in Hh.
  destruct Hh as [Hnew Hdn]. pose proof (last_zlen _ _ Hl) as Hz. destruct (i_up n s Hi i u Ei) as [Hf _].
  assert (wrap 64 (gen (the_cell s) + 1) = gen (the_cell s) + 1) as -> by (apply wrap_small; rewrite Hg; unfold gen_of; cbn [Z.b2z]; lia).
  assert (history s `prefix_of` history s ++ [new]) as Hpre by (by apply prefix_app_r).
  split; cbn; [apply Hi| | |].
  - exists new. split; [apply last_snoc|]. split; [rewrite Hnew; by apply Hf|]. left.
    split; [rewrite Hg; unfold gen_of; rewrite zlen_app; unfold zlen at 3; cbn; lia|]. split; [done|].
    intros k w [[<- <-]|[Hne Ek]]%lookup_insert_Some; [done|]. destruct (holds_lock (up_at w)) eqn:Ew; [|done]. by destruct Hne, (Hun k w Ek Ew).
  - intros k w [[<- <-]|[_ Ek]]%lookup_insert_Some; [|by eapply updater_ok_mono, (i_up n s Hi k)].
    split; [done|]. cbn. exists (Z.to_nat (zlen (history s) - 1)), old. split; [eapply prefix_lookup_Some; [by apply last_is_lookup|done]|]. split; [|done].
    replace (S (Z.to_nat (zlen (history s) - 1))) with (length (history s)) by (unfold zlen in *; lia). by apply list_lookup_middle.
  - intros k r Ek. eapply (cell_reader_mono s); [cbn; lia|cbn; lia|done|by apply (i_rd n s Hi k)].
Qed.

Lemma take_insert_next (d new : list Z) k w : take k d = take k new -> new !! k = Some w -> (k < length d)%nat -> take (S k) (<[k := w]> d) = take (S k) new.
Proof.
  intros E Ew Hk. rewrite (take_S_r _ _ w (list_lookup_insert_eq d k w Hk)), (take_S_r _ _ w Ew), take_insert_ge, E by done. done.
Qed.

Lemma update_step_inv n s i u : inv n s -> updaters s !! i = Some u -> 2 * zlen (history s) < 2 ^ 64 ->
  inv n (mkSys (update_step (up_fun u) (the_cell s) (up_at u)).1 (readers s)
                (<[i := mkUp (up_fun u) (update_step (up_fun u) (the_cell s) (up_at u)).2]> (updaters s))
                (history s ++ commits (up_at u))).
Proof.
  intros Hi Ei Hb. pose proof (i_up n s Hi i u Ei) as Hok. pose proof Hok as [Hf Hpc]. pose proof (i_data n s Hi) as Hd.
  assert (holds_lock (up_at u) = false -> forall u0, updaters s !! i = Some u0 -> holds_lock (up_at u0) = false) as Hlk by (intros; congruence).
  destruct (up_at u) as [|g|g|acc|new k|new|new] eqn:Eu; cbn [update_step commits fst snd]; rewrite ?app_nil_r.
  - case_match eqn:E; apply inv_unlocked; auto; [by split|]. split; [done|]. by apply negb_false_iff, Z.eqb_eq in E.
  - case_match; by apply inv_unlocked; auto; split.
  - destruct (Z.eqb_spec (gen (the_cell s)) g) as [<-|]; cbn [fst snd]; [by apply inv_cas|]. apply inv_unlocked; auto. by split.
  - destruct (data (the_cell s) !! length acc) as [w|] eqn:Ew; cbn [fst snd]; destruct (the_cell s) as [g d] eqn:Ec;
      replace g with (gen (the_cell s)) by (by rewrite Ec); (eapply inv_locked; [done|done|by rewrite Eu|done|by split|done|]).
    + rewrite Eu, Ec. cbn in Ew |- *. intros old Ho [-> Ha]. split; [done|]. rewrite length_app, Nat.add_comm. cbn.
      rewrite (take_S_r _ _ w Ew). by rewrite <- Ha.
    + rewrite Eu, Ec. cbn in Ew |- *. intros old Ho [-> Ha]. split; [|split; [lia|done]]. rewrite Ha. f_equal. apply take_ge. by apply lookup_ge_None_1.
  - destruct (new !! k) as [w|] eqn:Ew; cbn [fst snd].
    + eapply inv_locked; [done|done|by rewrite Eu|done|by split|by rewrite length_insert|]. rewrite Eu. cbn. intros old Ho (-> & Hk & Ht).
      assert (k < n)%nat by (apply lookup_lt_Some in Ew; rewrite Hf in Ew by done; lia). split; [done|]. split; [lia|]. apply take_insert_next; [done..|lia].
    + destruct (the_cell s) as [g d] eqn:Ec. replace g with (gen (the_cell s)) by (by rewrite Ec).
      eapply inv_locked; [done|done|by rewrite Eu|done|by split|done|]. rewrite Eu, Ec. cbn in *. intros old Ho (-> & Hk & Ht). split; [done|].
      apply lookup_ge_None_1 in Ew. rewrite Hf in Ew by done. rewrite !take_ge in Ht by (rewrite ?Hf by done; lia). done.
  - by apply inv_commit.
  - apply inv_unlocked; auto. by split.
Qed.

Lemma step_history n s s' : step n s s' -> history s `prefix_of` history s'.
Proof. destruct 1; cbn; try done. by apply prefix_app_r. Qed.

Lemma step_inv n s s' : inv n s -> step n s s' -> 2 * zlen (history s') < 2 ^ 64 -> inv n s'.
Proof.
  intros Hi Hs Hb. pose proof (step_history n s s' Hs) as Hpre. destruct Hs as [s i mode|s i r Er|s i f Hf En|s i u Eu].
  - destruct Hi as [H1 H2 H3 H4]. split; cbn; [done..|]. intros j r [[<- <-]|[_ Ej]]%lookup_insert_Some; [done|by eapply H4].
  - pose proof (read_step_ok n s (rd_mode r) (rd_at r) Hi (i_rd n s Hi i r Er)) as Hr. destruct Hi as [H1 H2 H3 H4].
    split; cbn; [done..|]. intros j r' [[<- <-]|[_ Ej]]%lookup_insert_Some; [exact Hr|by eapply H4].
  - apply inv_unlocked; [done|by intros u0 E0; rewrite En in E0|done|by split].
  - apply update_step_inv; [done|done|]. apply prefix_length in Hpre. unfold zlen in *. lia.
Qed.

Lemma cell_init_inv v : inv (length v) (init v).
Proof.
  split; cbn; [done| |by intros i u ?%lookup_empty_Some|by intros i r ?%lookup_empty_Some].
  exists v. split; [done|]. split; [done|]. left. split; [done|]. split; [done|]. by intros i u ?%lookup_empty_Some.
Qed.

Lemma reachable_settings v s : rtc (step (length v)) (init v) s -> 2 * zlen (history s) < 2 ^ 64 -> inv (length v) s.
Proof.
  intros Hr. revert s Hr. apply (rtc_ind_r (fun s => 2 * zlen (history s) < 2 ^ 64 -> inv (length v) s)); [intros _; apply cell_init_inv|].
  intros s s' _ Hs IH Hb. eapply step_inv; [|done|done]. apply IH.
  pose proof (prefix_length _ _ (step_history _ _ _ Hs)). unfold zlen in *. lia.
Qed.

(** C33: for every interleaving of readers and updaters, what a reader accepts at
    generation [g] is the value the cell had after [g / 2] updates, and an update that has
    returned [new] was applied to the value just before it: no reader sees a mixture and
    no update is lost. *)
Theorem settings_atomic v s : rtc (step (length v)) (init v) s -> 2 * zlen (history s) < 2 ^ 64 ->
  (forall i mode val g, readers s !! i = Some (mkRd mode (RdDone (Some (val, g)))) -> history s !! Z.to_nat (g / 2) = Some val) /\
  (forall i f new, updaters s !! i = Some (mkUp f (UpDone new)) ->
     exists k old, history s !! k = Some old /\ history s !! S k = Some new /\ new = f old).
Proof.
  intros Hr Hb. pose proof (reachable_settings v s Hr Hb) as Hi. split.
  - intros i mode val g Ei. by destruct (i_rd _ _ Hi i _ Ei) as (_ & _ & Hv).
  - intros i f new Ei. by destruct (i_up _ _ Hi i _ Ei) as [_ Hv].
Qed.

(** ** An example: an update and a read of a cell of two words *)
Definition ex_upd (v : list Z) : list Z := (fun x => x + 10) <$> v.

Definition ex_final : sys :=
  mkSys (mkCell 2 [11; 12]) {[1%nat := mkRd None (RdDone (Some ([11; 12], 2)))]} {[0%nat := mkUp ex_upd (UpDone [11; 12])]} [[1; 2]; [11; 12]].

Lemma ex_run : rtc (step 2) (init [1; 2]) ex_final.
Proof.
  eapply rtc_l; [apply (step_update_call _ _ 0 ex_upd); [by intros u Hu; unfold ex_upd; rewrite length_fmap|done]|].
  do 9 (eapply rtc_l; [eapply (step_update _ _ 0); by vm_compute|cbn]).
  eapply rtc_l; [apply (step_read_call _ _ 1 None)|].
  do 5 (eapply rtc_l; [eapply (step_read _ _ 1); by vm_compute|cbn]).
  apply rtc_refl.
Qed.

Lemma settings_atomic_witness : history ex_final !! Z.to_nat (2 / 2) = Some [11; 12] /\
  exists k old, history ex_final !! k = Some old /\ history ex_final !! S k = Some [11; 12] /\ [11; 12] = ex_upd old.
Proof.
  destruct (settings_atomic [1; 2] ex_final ex_run ltac:(by vm_compute)) as [Hr Hu]. split.
  - by apply (Hr 1%nat None [11; 12] 2).
  - by apply (Hu 0%nat ex_upd [11; 12]).
Defined.

(** The reader loads generation 0 and copies; the update runs from start to end; the reader
    checks. *)
Definition ex_asleep : sys :=
  mkSys (mkCell 2 [11; 12]) {[1%nat := mkRd None (RdSleep 2)]} {[0%nat := mkUp ex_upd (UpDone [11; 12])]} [[1; 2]; [11; 12]].

Lemma ex_asleep_run : rtc (step 2) (init [1; 2]) ex_asleep.
Proof.
  eapply rtc_l; [apply (step_read_call _ _ 1 None)|].
  do 4 (eapply rtc_l; [eapply (step_read _ _ 1); by vm_compute|cbn]).
  eapply rtc_l; [apply (step_update_call _ _ 0 ex_upd); [by intros u Hu; unfold ex_upd; rewrite length_fmap|done]|].
  do 9 (eapply rtc_l; [eapply (step_update _ _ 0); by vm_compute|cbn]).
  eapply rtc_l; [eapply (step_read _ _ 1); by vm_compute|cbn].
  apply rtc_refl.
Qed.

(** A reader that overlaps an update which then ends goes to sleep on the generation the
    update left, although the settings can be read: without a further update it sleeps for
    ever. *)
Theorem reader_oversleeps : exists s, rtc (step 2) (init [1; 2]) s /\
  Z.land (gen (the_cell s)) 1 = 0 /\ (forall i u, updaters s !! i = Some u -> holds_lock (up_at u) = false) /\
  readers s !! 1%nat = Some (mkRd None (RdSleep 2)) /\
  forall k, Nat.iter k (read_step None (the_cell s)) (RdSleep 2) = RdSleep 2.
Proof.
  exists ex_asleep. split; [apply ex_asleep_run|]. split; [done|].
  split; [intros i u E; unfold ex_asleep in E; cbn [updaters] in E; by apply lookup_singleton_Some in E as [<- <-]|]. split; [done|].
  intros k. induction k as [|k IH]; [done|]. rewrite Nat.iter_succ, IH. done.
Qed.
End SeqCell.
