(* ===== verification/PtyEnd.v ===== *)
(** * The two ends of a pseudo-terminal ([PtyServerHandle], [PtyClientHandle])

    A terminal object holds the settings and two byte buffers; the server end posts input
    and reads what the client and the echo write, the client end reads lines and writes
    output.  The converters of an end are kept in its process without their buffers; each
    call puts the shared buffers in and takes them out again.  The calls are those that do
    not block, run one at a time; the settings are read in one piece ([SeqCell] is the
    protocol that makes them so).

    [typed_line]: a line typed at the server is echoed to it and read by the client, with
    its carriage returns mapped.  [printed_bytes]: what the client writes is read by the
    server with its newlines expanded. *)
From S2P Require Import Prelude VolatileBuffer VolatileBufferSeq Pty PtyInv PtyPost.
Import VolatileBuffer VolatileBufferSeq Pty PtyInv PtyPost.

#[local] Open Scope Z_scope.

Module PtyEnd.

(** [BUF_SZ] *)
Definition PTY_BUF : Z := 8192.

(** ** Default settings

    The flags of [libc] that only the defaults name. *)
Class LibcDefaults := {
  BRKINT : Z; ISTRIP : Z; IMAXBEL : Z; IXON : Z; IXANY : Z; XTABS : Z;
  ISIG : Z; IEXTEN : Z; ECHOKE : Z; ECHOCTL : Z; _POSIX_VDISABLE : Z
}.

Section defaults.
Context `{Libc, LibcDefaults}.

Definition CEOF : Z := ctrl 100.
Definition CEOL : Z := _POSIX_VDISABLE.
Definition CINTR : Z := ctrl 99.
Definition CSTATUS : Z := ctrl 116.
Definition CMIN : Z := 1.
Definition CQUIT : Z := 28.
Definition CSUSP : Z := ctrl 122.
Definition CTIME : Z := 0.
Definition CSTART : Z := ctrl 113.
Definition CSTOP : Z := ctrl 115.
Definition CLNEXT : Z := ctrl 118.
Definition CDISCARD : Z := ctrl 111.
Definition CREPRINT : Z := ctrl 114.

Definition lors (l : list Z) : Z := foldr Z.lor 0 l.

(** The control characters both defaults have. *)
Definition default_cc : list Z :=
  [CINTR; CQUIT; CERASE; CKILL; CEOF; CTIME; CMIN; _POSIX_VDISABLE; CSTART; CSTOP; CSUSP; CEOL; CREPRINT; CDISCARD;
   CWERASE; CLNEXT; _POSIX_VDISABLE; _POSIX_VDISABLE; CSTATUS] ++ replicate 13 _POSIX_VDISABLE.

Definition DEFAULT_TERMIOS : termios :=
  mkTermios (lors [BRKINT; ISTRIP; ICRNL; IMAXBEL; IXON; IXANY]) (lors [OPOST; ONLCR; XTABS])
    (lors [ECHO; ICANON; ISIG; IEXTEN; ECHOE; ECHOKE; ECHOCTL]) default_cc.

Definition DEFAULT_TERMIOS_RAW : termios := mkTermios 0 0 0 default_cc.
End defaults.

Section ends.
Context `{Build, Libc, Memchr}.

(** ** Buffers as readers and writers *)

(** [PtyInputPoster::write] and [PtyOutputWriter::write] *)
#[export] Instance vb_write : Write VB := fun b buf =>
  let! (b', n) := write_bytes PTY_BUF b buf in Ret (Ok n, b').

(** [PtyInputReader::read] *)
#[export] Instance vb_read : Read VB := fun b n =>
  let! (b', bytes) := read_bytes PTY_BUF b n in
  Ret (if Nat.eqb (length bytes) 0 && (0 <? n)%nat then Err WouldBlock else Ok bytes, b').

(** ** The object and its ends *)
Record PtyBase := mkPty { base_gen : Z; base_termios : termios; client_input : VB; client_output : VB }.

Definition PtyBase_new (t : termios) : PtyBase := mkPty 0 t (VB_new PTY_BUF) (VB_new PTY_BUF).

Definition set_input (b : PtyBase) (v : VB) : PtyBase := mkPty (base_gen b) (base_termios b) v (client_output b).
Definition set_output (b : PtyBase) (v : VB) : PtyBase := mkPty (base_gen b) (base_termios b) (client_input b) v.

(** [update_termios] of the object, run alone. *)
Definition base_update_termios (b : PtyBase) (f : termios -> termios) : PtyBase :=
  mkPty (wrap 64 (base_gen b + 1 + 1)) (f (base_termios b)) (client_input b) (client_output b).

Definition try_read_termios (b : PtyBase) (current : Z) : option (termios * Z) :=
  if current =? base_gen b then None
  else if Z.land (base_gen b) 1 =? 0 then Some (base_termios b, base_gen b) else None.

Record Client := mkClient { cl_input : InputConverter unit; cl_output : termios; cl_gen : Z }.
Record Server := mkServer { sv_input : InputPoster unit unit; sv_gen : Z }.

Definition PtyClientHandle_new (b : PtyBase) : Client :=
  mkClient (mkIC (base_termios b) (replicate BUF_SZ 0) 0 tt) (base_termios b) (base_gen b).
Definition PtyServerHandle_new (b : PtyBase) : Server :=
  mkServer (mkIP (base_termios b) tt tt (replicate BUF_SZ 0) 0) (base_gen b).

Definition client_update_termios (b : PtyBase) (c : Client) : Client :=
  match try_read_termios b (cl_gen c) with
  | Some (t, g) => mkClient (mkIC t (linebuf (cl_input c)) (linebuf_count (cl_input c)) tt) t g
  | None => c
  end.

Definition server_update_termios (b : PtyBase) (s : Server) : Server :=
  match try_read_termios b (sv_gen s) with
  | Some (t, g) => mkServer (mkIP t tt tt (echobuf (sv_input s)) (echobuf_len (sv_input s))) g
  | None => s
  end.

(** ** Calls of the server

    The signal of [write_nb] is the one handed to the handler. *)
Definition server_write_nb (fuel : nat) (b : PtyBase) (s : Server) (buf : list Z) :
    outcome (result nat ErrorKind * option PtySignal * (PtyBase * Server)) :=
  let s := server_update_termios b s in
  let ip := sv_input s in
  let! (r, ip') := write_input fuel (mkIP (ip_termios ip) (client_input b) (client_output b) (echobuf ip) (echobuf_len ip)) buf in
  let b := set_output (set_input b (ip_writer ip')) (echoer ip') in
  let s := mkServer (mkIP (ip_termios ip') tt tt (echobuf ip') (echobuf_len ip')) (sv_gen s) in
  Ret (match r with
       | Err e => (Err e, None)
       | Ok report => (if Nat.eqb (consumed report) 0 && (0 <? length buf)%nat then Err WouldBlock
                       else Ok (consumed report), posted_signal report)
       end, (b, s)).

Definition server_read_nb (b : PtyBase) (s : Server) (n : nat) : outcome (result (list Z) ErrorKind * (PtyBase * Server)) :=
  let s := server_update_termios b s in
  let! (v, bytes) := read_bytes PTY_BUF (client_output b) n in
  Ret (if Nat.eqb (length bytes) 0 && (0 <? n)%nat then Err WouldBlock else Ok bytes, (set_output b v, s)).

(** ** Calls of the client *)
Definition client_write_nb (fuel : nat) (b : PtyBase) (c : Client) (buf : list Z) : outcome (result nat ErrorKind * (PtyBase * Client)) :=
  let c := client_update_termios b c in
  let! (r, oc) := oc_write fuel (mkOC (cl_output c) (client_output b)) buf in
  let b := set_output b (oc_writer oc) in
  Ret (match r with
       | Err e => Err e
       | Ok count => if Nat.eqb count 0 && (0 <? length buf)%nat then Err WouldBlock else Ok count
       end, (b, c)).

Definition client_read_nb (fuel : nat) (b : PtyBase) (c : Client) (n : nat) : outcome (result (list Z) ErrorKind * (PtyBase * Client)) :=
  let c := client_update_termios b c in
  let ic := cl_input c in
  let! (r, ic') := ic_read fuel (mkIC (ic_termios ic) (linebuf ic) (linebuf_count ic) (client_input b)) n in
  let b := set_input b (ic_reader ic') in
  let c := mkClient (mkIC (ic_termios ic') (linebuf ic') (linebuf_count ic') tt) (cl_output c) (cl_gen c) in
  Ret (match r with
       | Ok bytes => Ok bytes
       | Err WouldBlock => if Nat.eqb n 0 then Ok [] else Err WouldBlock
       | Err e => Err e
       end, (b, c)).

(** ** The buffers keep the promises *)
Definition vb_room (c : list Z) : nat := Z.to_nat (PTY_BUF - 1 - zlen c).

(** The bytes taken out of the buffer so far are at most [k]. *)
#[program] Definition vb_sink (k : Z) : Sink VB := {|
  sink_rep b c r := vb_rep PTY_BUF b c /\ r = vb_room c /\ tail b <= k
|}.
Next Obligation.
  intros k w c r buf (Hv & -> & Ht). cbv zeta. unfold write, vb_write.
  destruct (write_bytes_alone PTY_BUF w c buf Hv) as (b' & E & Hv' & Ht'). cbv zeta in E. rewrite E. cbn [obind]. unfold vb_room.
  exists b'. split; [done|]. split; [done|]. split; [|lia]. pose proof (vr_cap _ _ _ Hv). unfold zlen in *. rewrite length_app, length_take. lia.
Qed.

(** At most [h] bytes have gone into the buffer. *)
#[program] Definition vb_source (h : Z) (Hh : h + PTY_BUF < 2 ^ 64) : Source VB := {|
  source_rep b a := vb_rep PTY_BUF b a /\ head b <= h
|}.
Next Obligation.
  intros h Hh b a n [Hv Hb]. unfold read, vb_read. pose proof (vr_head _ _ _ Hv).
  destruct (read_bytes_alone PTY_BUF b a n Hv) as (b' & -> & Hv' & Hh' & _); [lia|]. cbn [obind]. exists b'. split; [|by rewrite Hh'].
  rewrite length_take. destruct (Nat.ltb_spec 0 n), (Nat.eqb_spec (length a) 0) as [E|E]; cbn [andb]; rewrite ?andb_true_r, ?andb_false_r; try done.
  - by rewrite E, Nat.min_0_r.
  - by rewrite (proj2 (Nat.eqb_neq _ _)) by lia.
Qed.

(** ** Sessions

    Both ends have the settings [t]; the input holds [inp], the client's line buffer
    [pend], the output [out]; at most [k] bytes have been taken out of either buffer. *)
Definition cl_ic (b : PtyBase) (c : Client) : InputConverter VB :=
  mkIC (ic_termios (cl_input c)) (linebuf (cl_input c)) (linebuf_count (cl_input c)) (client_input b).

Definition sv_ip (b : PtyBase) (s : Server) : InputPoster VB VB :=
  mkIP (ip_termios (sv_input s)) (client_input b) (client_output b) (echobuf (sv_input s)) (echobuf_len (sv_input s)).

Record session (t : termios) (k : Z) (b : PtyBase) (c : Client) (s : Server) (inp pend out : list Z) : Prop := {
  se_gens : cl_gen c = base_gen b /\ sv_gen s = base_gen b;
  se_client : ic_termios (cl_input c) = t /\ cl_output c = t;
  se_server : ip_termios (sv_input s) = t;
  se_inp : vb_rep PTY_BUF (client_input b) inp;
  se_out : vb_rep PTY_BUF (client_output b) out;
  se_total : tail (client_input b) <= k /\ tail (client_output b) <= k;
  se_ic : ic_ok (cl_ic b c);
  se_pend : pending (cl_ic b c) = pend;
  se_ip : ip_ok (sv_ip b s)
}.

Lemma update_client b c : cl_gen c = base_gen b -> client_update_termios b c = c.
Proof. intros E. unfold client_update_termios, try_read_termios. by rewrite E, Z.eqb_refl. Qed.

Lemma update_server b s : sv_gen s = base_gen b -> server_update_termios b s = s.
Proof. intros E. unfold server_update_termios, try_read_termios. by rewrite E, Z.eqb_refl. Qed.

Lemma fresh_session t : termios_ok t -> let b := PtyBase_new t in
  session t 0 b (PtyClientHandle_new b) (PtyServerHandle_new b) [] [] [].
Proof.
  intros Ht b. split; cbn; try done.
  - apply vb_rep_new. unfold PTY_BUF. lia.
  - apply vb_rep_new. unfold PTY_BUF. lia.
  - split; cbn; [apply length_replicate|lia|done].
  - split; cbn; [apply length_replicate|lia].
Qed.


(** The server types a line, or part of one. *)
Lemma server_types fuel t k b c s inp pend out buf l nl : session t k b c s inp pend out ->
  termios_ok t -> flag (c_iflag t) IGNCR = false -> flag (c_lflag t) ECHO = true -> no_signal t buf -> buf <> [] ->
  imap t buf = l ++ (if nl : bool then [NL] else []) -> Forall (fun x => plain x = true) l ->
  (length buf <= vb_room inp)%nat -> (length buf <= vb_room out)%nat -> (echobuf_len (sv_input s) + length buf < BUF_SZ)%nat ->
  exists b' s', server_write_nb (S (S fuel)) b s buf = Ret (Ok (length buf), None, (b', s')) /\
    session t k b' c s' (inp ++ buf) pend (out ++ imap t buf) /\
    echobuf_len (sv_input s') = (if nl then 0 else echobuf_len (sv_input s) + length buf)%nat.
Proof.
  intros [[G1 G2] [C1 C2] S1 Vi Vo [K1 K2] Oi Op Os] Ht Hig Hec Hns Hne Hm Hp Ri Ro Re.
  pose proof (imap_length_eq t buf Hig) as Hlm. pose (sk := vb_sink k).
  unfold server_write_nb. rewrite update_server by done. fold (sv_ip b s).
  assert (ip_termios (sv_ip b s) = t) as Et by done. rewrite <- Et in Ht, Hig, Hec, Hns.
  destruct (@write_input_spec _ _ VB VB _ sk _ fuel (sv_ip b s) inp (vb_room inp) buf [] None) as (w' & (Vw & _ & Tw) & Hw);
    [done|done|done|done|lia|done|done|by rewrite app_nil_r|].
  rewrite app_nil_r in Hw.
  destruct (@maybe_echo_line _ _ VB VB _ sk (with_writer (sv_ip b s) w') l nl out (vb_room out)) as (p' & E' & [O1 O2] & [S3 S4] & (Ve & _ & Te) & Hel);
    [by destruct Os|done|done|done|cbn [echoer with_writer sv_ip]; rewrite <- Hm; lia|cbn; rewrite <- Hm; lia|].
  rewrite <- Hm in E', Ve, Hel. rewrite (Hw p').
  2:{ unfold echoed. rewrite decide_False by done. cbn [with_writer ip_termios]. by rewrite Et. }
  cbn [obind]. destruct (nonempty_length buf Hne) as [n Hn]. cbn [report consumed posted_signal].
  rewrite Nat.add_0_r, (proj2 (Nat.eqb_neq (length buf) 0)) by lia. cbn [andb].
  eexists _, _. split; [done|]. cbn in S3, S4, Hel, Vw, Tw, Ve, Te. split; [|cbn; by rewrite Hel, Hlm].
  split; cbn; rewrite ?S3, ?S4; done || by destruct Oi.
Qed.

Lemma session_head t k b c s inp pend out : session t k b c s inp pend out -> head (client_input b) <= k + PTY_BUF /\ head (client_output b) <= k + PTY_BUF.
Proof.
  intros [_ _ _ Vi Vo [K1 K2] _ _ _]. pose proof (vr_head _ _ _ Vi). pose proof (vr_head _ _ _ Vo).
  pose proof (vr_cap _ _ _ Vi). pose proof (vr_cap _ _ _ Vo). lia.
Qed.

Lemma rep_tail b c h : vb_rep PTY_BUF b c -> head b <= h -> tail b <= h.
Proof. intros Hv Hh. pose proof (vr_head _ _ _ Hv). pose proof (zlen_nonneg c). lia. Qed.

(** The client reads a line. *)
Lemma client_reads fuel t k b c s inp pend out n line x rest : session t k b c s inp pend out ->
  flag (c_lflag t) ICANON = true -> k + 2 * PTY_BUF < 2 ^ 64 -> inp <> [] -> (length pend + length inp <= BUF_SZ)%nat ->
  Forall (fun c => erasing t c = false) (imap t inp) -> pend ++ imap t inp = line ++ x :: rest ->
  Forall (fun c => ends_line t c = false) line -> ends_line t x = true -> (length line < n)%nat ->
  exists b' c', client_read_nb (S fuel) b c n = Ret (Ok (line_result line x), (b', c')) /\
    session t (k + PTY_BUF) b' c' s [] rest out.
Proof.
  intros Hse Hic Hk Hne Hl He Hp Hline Hx Hn. destruct (session_head _ _ _ _ _ _ _ _ Hse) as [Hh1 Hh2].
  pose proof Hse as [[G1 G2] [C1 C2] S1 Vi Vo [K1 K2] Oi Op Os].
  unfold client_read_nb. rewrite update_client by done. fold (cl_ic b c). unfold ic_read.
  assert (ic_termios (cl_ic b c) = t) as Et by done. rewrite Et, Hic.
  assert (k + PTY_BUF + PTY_BUF < 2 ^ 64) as Hb by lia.
  destruct (@read_canon_line _ _ VB _ (vb_source (k + PTY_BUF) Hb) fuel (cl_ic b c) inp n line x rest) as (ic' & -> & Oi' & Et' & Op' & (Vi' & Hh'));
    rewrite ?Et; try done.
  { rewrite <- (pending_length (cl_ic b c) Oi), Op. done. }
  { by rewrite Op. }
  cbn [obind]. eexists _, _. split; [done|]. split; cbn; try done.
  - split; [congruence|done].
  - split; [by eapply rep_tail|unfold PTY_BUF; lia].
  - by destruct Oi'.
  - by destruct Os.
Qed.

(** The client prints. *)
Lemma client_prints fuel t k b c s inp pend out buf : session t k b c s inp pend out -> (length buf <= fuel)%nat -> buf <> [] ->
  (length (expand t buf) <= vb_room out)%nat ->
  exists b', client_write_nb fuel b c buf = Ret (Ok (length buf), (b', c)) /\ session t k b' c s inp pend (out ++ expand t buf).
Proof.
  intros [[G1 G2] [C1 C2] S1 Vi Vo [K1 K2] Oi Op Os] Hf Hne Hr. unfold client_write_nb. rewrite update_client by done.
  destruct (@oc_write_spec _ _ VB _ (vb_sink k) fuel (mkOC (cl_output c) (client_output b)) out (vb_room out) buf) as (w' & -> & (Vw & _ & Tw));
    [done|done|cbn; by rewrite C2|]. cbn [obind oc_writer oc_termios]. destruct (nonempty_length buf Hne) as [n Hn].
  rewrite (proj2 (Nat.eqb_neq (length buf) 0)) by lia. cbn in Vw. rewrite C2 in Vw.
  eexists. split; [done|]. split; cbn; done || (by destruct Oi) || by destruct Os.
Qed.

(** The server reads what was printed and echoed. *)
Lemma server_reads t k b c s inp pend out n : session t k b c s inp pend out -> k + 2 * PTY_BUF < 2 ^ 64 ->
  exists b', server_read_nb b s n = Ret (if nothing n out then Err WouldBlock else Ok (take n out), (b', s)) /\
    session t (k + PTY_BUF) b' c s inp pend (drop n out).
Proof.
  intros Hse Hk. destruct (session_head _ _ _ _ _ _ _ _ Hse) as [Hh1 Hh2].
  pose proof Hse as [[G1 G2] [C1 C2] S1 Vi Vo [K1 K2] Oi Op Os]. unfold server_read_nb. rewrite update_server by done.
  pose proof (vr_head _ _ _ Vo). destruct (read_bytes_alone PTY_BUF (client_output b) out n Vo) as (b' & -> & Vb & Hb & _); [lia|].
  cbn [obind]. eexists. split.
  - do 2 f_equal. unfold nothing. rewrite length_take, andb_comm. destruct (Nat.ltb_spec 0 n), (Nat.eqb_spec (length out) 0) as [E|E]; cbn [andb]; try done.
    + by rewrite E, Nat.min_0_r.
    + by rewrite (proj2 (Nat.eqb_neq _ _)) by lia.
  - split; cbn; done || (by destruct Oi) || (by destruct Os) || idtac. split; [unfold PTY_BUF; lia|eapply rep_tail; [done|lia]].
Qed.

(** ** What a terminal is for *)

(** Lines are edited and echoed, and carriage returns are not dropped. *)
Record line_mode (t : termios) : Prop := {
  lm_ok : termios_ok t;
  lm_canon : flag (c_lflag t) ICANON = true;
  lm_echo : flag (c_lflag t) ECHO = true;
  lm_cr : flag (c_iflag t) IGNCR = false
}.

(** The characters of a line that stand for themselves. *)
Definition line_char (t : termios) (x : Z) : Prop := plain x = true /\ erasing t x = false /\ ends_line t x = false.

(** C30: let a terminal have line editing and echo on and not drop carriage returns, let the
    client have read all earlier lines, and let an unfinished line perhaps have been typed.
    Characters that raise no signal, none of which (after the input mapping) erases or
    ends a line but the last, which is a newline, and for which the buffers have room, are
    taken whole when the server end writes them; a client read with a buffer longer than the
    line then gives the part of the line typed before and this one, with carriage returns
    mapped, and the server reads the line back after the earlier output.  Afterwards the
    terminal is empty. *)
Theorem typed_line fuel t k b c s pend out buf l n :
  session t k b c s [] pend out -> line_mode t -> k + 3 * PTY_BUF < 2 ^ 64 ->
  no_signal t buf -> imap t buf = l ++ [NL] -> Forall (line_char t) l -> erasing t NL = false ->
  Forall (fun x => ends_line t x = false) pend ->
  (length buf <= vb_room [])%nat -> (length buf <= vb_room out)%nat ->
  (length pend + length buf <= BUF_SZ)%nat -> (echobuf_len (sv_input s) + length buf < BUF_SZ)%nat -> (length pend + length l < n)%nat ->
  exists b1 s1 b2 c2 b3,
    server_write_nb (S (S fuel)) b s buf = Ret (Ok (length buf), None, (b1, s1)) /\
    client_read_nb (S fuel) b1 c n = Ret (Ok (pend ++ l ++ [NL]), (b2, c2)) /\
    server_read_nb b2 s1 (length (out ++ l ++ [NL])) = Ret (Ok (out ++ l ++ [NL]), (b3, s1)) /\
    session t (k + 2 * PTY_BUF) b3 c2 s1 [] [] [].
Proof.
  intros Hse [M1 M2 M3 M4] Hk Hns Hm Hl Hnl Hpe R1 R2 R3 R4 Hn.
  assert (buf <> []) as Hne by (intros ->; by destruct l).
  destruct (server_types fuel t k b c s [] pend out buf l true Hse) as (b1 & s1 & E1 & Se1 & _); try done.
  { eapply Forall_impl; [exact Hl|]. by intros x [? _]. }
  exists b1, s1. rewrite Hm in Se1.
  destruct (client_reads fuel t k b1 c s1 buf pend (out ++ l ++ [NL]) n (pend ++ l) NL [] Se1) as (b2 & c2 & E2 & Se2); try done.
  { unfold PTY_BUF in *. lia. }
  { rewrite Hm. apply Forall_app. split; [|by repeat constructor]. eapply Forall_impl; [exact Hl|]. by intros x (_ & ? & _). }
  { by rewrite Hm, app_assoc. }
  { apply Forall_app. split; [done|]. eapply Forall_impl; [exact Hl|]. by intros x (_ & _ & ?). }
  { by rewrite length_app. }
  destruct (server_reads t _ b2 c2 s1 [] [] (out ++ l ++ [NL]) (length (out ++ l ++ [NL])) Se2) as (b3 & E3 & Se3); [lia|].
  exists b2, c2, b3. split; [done|]. split; [rewrite E2; unfold line_result; by rewrite Z.eqb_refl, app_assoc|].
  rewrite firstn_all in E3. rewrite drop_ge in Se3 by done. rewrite E3.
  assert (nothing (length (out ++ l ++ [NL])) (out ++ l ++ [NL]) = false) as ->.
  { unfold nothing. rewrite !length_app. cbn [length]. rewrite (proj2 (Nat.eqb_neq _ 0)) by lia. apply andb_false_r. }
  split; [done|]. by replace (k + 2 * PTY_BUF) with (k + PTY_BUF + PTY_BUF) by lia.
Qed.

(** What the client prints is taken whole and read by the server after the earlier
    output, with its newlines and carriage returns expanded as the settings say; the
    input is left alone. *)
Theorem printed_bytes fuel t k b c s inp pend out buf :
  session t k b c s inp pend out -> (length buf <= fuel)%nat -> buf <> [] -> k + 2 * PTY_BUF < 2 ^ 64 ->
  (length (expand t buf) <= vb_room out)%nat ->
  exists b1 b2, client_write_nb fuel b c buf = Ret (Ok (length buf), (b1, c)) /\
    server_read_nb b1 s (length (out ++ expand t buf)) = Ret (Ok (out ++ expand t buf), (b2, s)) /\
    session t (k + PTY_BUF) b2 c s inp pend [].
Proof.
  intros Hse Hf Hne Hk Hr. destruct (client_prints fuel t k b c s inp pend out buf Hse Hf Hne Hr) as (b1 & E1 & Se1).
  destruct (server_reads t k b1 c s inp pend _ (length (out ++ expand t buf)) Se1 Hk) as (b2 & E2 & Se2).
  rewrite drop_ge in Se2 by done. rewrite firstn_all in E2. exists b1, b2. split; [done|]. split; [|done]. rewrite E2.
  unfold nothing. destruct (out ++ expand t buf); done.
Qed.
End ends.

(** ** Examples *)
#[local] Instance ex_build : Build := true.

#[local] Existing Instance ex_memchr.
#[local] Existing Instance ex_libc.

#[local] Instance ex_defaults : LibcDefaults := {|
  BRKINT := 2; ISTRIP := 32; IMAXBEL := 8192; IXON := 1024; IXANY := 2048; XTABS := 6144;
  ISIG := 1; IEXTEN := 32768; ECHOKE := 2048; ECHOCTL := 512; _POSIX_VDISABLE := 0
|}.

Definition ex_base : PtyBase := PtyBase_new DEFAULT_TERMIOS.
Definition ex_client : Client := PtyClientHandle_new ex_base.
Definition ex_server : Server := PtyServerHandle_new ex_base.

Lemma ex_session : session DEFAULT_TERMIOS 0 ex_base ex_client ex_server [] [] [].
Proof. by apply fresh_session. Qed.

Lemma ex_line_mode : line_mode DEFAULT_TERMIOS.
Proof. by split. Qed.

(** The bytes ls and a carriage return. *)
Lemma typed_line_witness : exists b1 s1 b2 c2 b3,
  server_write_nb 2 ex_base ex_server [108; 115; CR] = Ret (Ok 3%nat, None, (b1, s1)) /\
  client_read_nb 1 b1 ex_client 80 = Ret (Ok [108; 115; NL], (b2, c2)) /\
  server_read_nb b2 s1 3 = Ret (Ok [108; 115; NL], (b3, s1)) /\
  session DEFAULT_TERMIOS (0 + 2 * PTY_BUF) b3 c2 s1 [] [] [].
Proof.
  apply (typed_line 0 DEFAULT_TERMIOS 0 ex_base ex_client ex_server [] [] [108; 115; CR] [108; 115] 80 ex_session ex_line_mode).
  - by unfold PTY_BUF.
  - by repeat constructor.
  - by vm_compute.
  - by repeat constructor.
  - by vm_compute.
  - by constructor.
  - apply Nat.leb_le. by vm_compute.
  - apply Nat.leb_le. by vm_compute.
  - apply Nat.leb_le. by vm_compute.
  - apply Nat.ltb_lt. by vm_compute.
  - apply Nat.ltb_lt. by vm_compute.
Defined.

Lemma printed_bytes_witness : exists b1 b2,
  client_write_nb 3 ex_base ex_client [104; 105; NL] = Ret (Ok 3%nat, (b1, ex_client)) /\
  server_read_nb b1 ex_server 4 = Ret (Ok [104; 105; CR; NL], (b2, ex_server)) /\
  session DEFAULT_TERMIOS (0 + PTY_BUF) b2 ex_client ex_server [] [] [].
Proof.
  change [104; 105; CR; NL] with ([] ++ expand DEFAULT_TERMIOS [104; 105; NL]).
  change 4%nat with (length ([] ++ expand DEFAULT_TERMIOS [104; 105; NL])).
  apply (printed_bytes 3 DEFAULT_TERMIOS 0 ex_base ex_client ex_server [] [] [] [104; 105; NL] ex_session).
  - by cbn.
  - done.
  - by unfold PTY_BUF.
  - apply Nat.leb_le. by vm_compute.
Defined.
End PtyEnd.
