(* ===== verification/PtySafe.v ===== *)
(** * Any sequence of calls on a terminal

    The calls of both ends and changes of the settings, in any order and with any bytes:
    [terminal_safe], none of the slice accesses and assertions of the line discipline
    panics, whatever the settings, and the buffers stay within their bounds.
    [terminal_defects]: sessions with the default settings in which the ends do not do
    what they mean to. *)
From S2P Require Import Prelude VolatileBuffer VolatileBufferSeq Pty PtyInv PtyPost PtyEnd.
Import VolatileBuffer VolatileBufferSeq Pty PtyInv PtyPost PtyEnd.

#[local] Open Scope Z_scope.

Module PtySafe.

(** ** Runs that do not panic

    A run that does not return is allowed. *)
Definition safe {A} (Q : A -> Prop) (m : outcome A) : Prop :=
  match m with Ret a => Q a | Panic => False | NoFuel => True end.

Lemma safe_bind {A B} (P : A -> Prop) (Q : B -> Prop) (m : outcome A) (k : A -> outcome B) :
  safe P m -> (forall a, P a -> safe Q (k a)) -> safe Q (obind m k).
Proof. destruct m as [a| |]; cbn; [|done..]. auto. Qed.

Lemma safe_rbind {A B S} (I : S -> Prop) (Q : result B ErrorKind * S -> Prop) (m : outcome (result A ErrorKind * S)) k :
  safe (fun x => I x.2) m -> (forall e s, I s -> Q (Err e, s)) -> (forall a s, I s -> safe Q (k a s)) -> safe Q (rbind m k).
Proof. intros Hm He Hk. unfold rbind. eapply safe_bind; [exact Hm|]. intros [[a|e] s] Hs; cbn in *; [by apply Hk|by apply He]. Qed.

(** ** The line discipline *)
Section discipline.
Context `{Libc, Memchr}.

Section output.
Context `{Sink W}.

(** A buffer that never takes more than a line buffer holds. *)
Definition bounded (w : W) : Prop := exists c r, sink_rep w c r /\ (r <= BUF_SZ)%nat.

Lemma write_bounded w buf : bounded w ->
  exists n w', write w buf = Ret (Ok n, w') /\ bounded w' /\ (n <= length buf)%nat /\ (n <= BUF_SZ)%nat.
Proof.
  intros (c & r & Hs & Hr). destruct (sink_law w c r buf Hs) as (w' & E & Hs'). exists (Nat.min (length buf) r), w'.
  split; [done|]. split; [|lia]. eexists _, _. split; [done|lia].
Qed.

Lemma write_all_bounded w buf : bounded w -> safe (fun x => bounded x.2) (write_all w buf).
Proof.
  unfold write_all. generalize (length buf) as fuel. intros fuel. revert w buf. induction fuel as [|f IH]; intros w buf Hw.
  { by destruct buf. }
  destruct (decide (buf = [])) as [->|Hb]; [done|]. rewrite write_all_loop_S by done.
  destruct (write_bounded w buf Hw) as (n & w' & -> & Hw' & _). cbn [rbind obind]. case_match; [done|]. by apply IH.
Qed.

Lemma split_output_safe cn nc buf : exists count extra, split_output cn nc buf = Ret (count, extra) /\
  (count <= length buf)%nat /\ (extra <> None -> (count < length buf)%nat).
Proof.
  unfold split_output. rewrite memchr2_law. destruct (find_first _ buf) as [i|] eqn:Ef; [|by eexists _, None].
  destruct (find_first_Some _ _ _ Ef) as (a & x & b & -> & <- & _). rewrite lookup_middle, length_app. cbn [unwrap obind length].
  repeat case_match; eexists _, _; (split; [done|]); (split; [lia|]); done || lia.
Qed.

Lemma processed_loop_safe fuel cn nc w buf total : bounded w -> safe (fun x => bounded x.2) (processed_loop fuel cn nc w buf total).
Proof.
  revert w buf total. induction fuel as [|f IH]; intros w buf total Hw; destruct buf as [|b0 buf0] eqn:Eb; try done.
  cbn [processed_loop]. rewrite <- Eb. clear Eb b0 buf0. destruct (split_output_safe cn nc buf) as (count & extra & -> & Hc & He). cbn [obind].
  destruct (write_bounded w (take count buf) Hw) as (n & w' & -> & Hw' & Hn & _). cbn [rbind obind].
  destruct extra as [extra|]; [|by apply IH]. rewrite length_take in Hn. specialize (He ltac:(done)).
  apply (safe_rbind bounded); [by apply write_all_bounded|done|]. intros _ w2 Hw2.
  rewrite (proj2 (Nat.leb_le 1 _)) by (rewrite length_drop; lia). cbn [rassert obind]. by apply IH.
Qed.

Lemma oc_write_safe fuel (oc : OutputConverter W) buf : bounded (oc_writer oc) ->
  safe (fun x => bounded (oc_writer x.2)) (oc_write fuel oc buf).
Proof.
  intros Hw. unfold oc_write. assert (safe (fun x => bounded x.2) (write (oc_writer oc) buf)) as Hs.
  { by destruct (write_bounded _ buf Hw) as (n & w' & -> & Hw' & _). }
  eapply (safe_bind (fun x => bounded x.2)); [|by intros [r w]].
  case_match; [unfold write_bytes_processed; case_match|]; [exact Hs|by apply processed_loop_safe|exact Hs].
Qed.
End output.

Section input.
Context `{Source R}.

(** A reader in order, with the settings [t]. *)
Definition reading (t : termios) (ic : InputConverter R) : Prop :=
  ic_ok ic /\ ic_termios ic = t /\ exists a, source_rep (ic_reader ic) a.

Lemma refill_safe t ic : reading t ic -> safe (fun x => reading t x.2) (refill_linebuf ic).
Proof.
  intros (Hi & <- & a & Hs). destruct (refill_total ic a Hi Hs) as (res & ic' & -> & Hi' & Ht & Hs' & _). cbn. split; [done|]. eauto.
Qed.

Lemma read_canon_safe fuel t ic n got : reading t ic -> safe (fun x => reading t x.2) (read_canon_loop fuel ic n got).
Proof.
  revert ic n got. induction fuel as [|f IH]; intros ic n got Hr; destruct (decide (n = 0)%nat) as [->|Hn]; try done.
  { by destruct n. }
  rewrite read_canon_loop_S by lia. apply (safe_rbind (reading t)); [by apply refill_safe|done|]. intros _ ic1 Hr1.
  case_match; [by case_match|]. destruct Hr1 as (Hi1 & Ht1 & a1 & Hs1).
  destruct (drain_total ic1 n Hi1) as (bytes & e & ic2 & -> & Hi2 & Ht2 & Hr2 & _). cbn [obind].
  assert (reading t ic2) by (split; [done|]; split; [congruence|]; exists a1; by rewrite Hr2).
  destruct e; [done|]. by apply IH.
Qed.

Lemma read_raw_safe fuel t ic n got : reading t ic -> safe (fun x => reading t x.2) (read_raw_loop fuel ic n got).
Proof.
  revert ic n got. induction fuel as [|f IH]; intros ic n got Hr; destruct n as [|n]; try done. cbn [read_raw_loop].
  destruct Hr as ([O1 O2 O3] & <- & a & Hs). destruct (source_law (ic_reader ic) a (S n) Hs) as (rd & -> & Hs'). cbn [obind].
  assert (reading (ic_termios ic) (mkIC (ic_termios ic) (linebuf ic) (linebuf_count ic) rd)) as Hr by (split; [done|]; split; [done|]; eauto).
  destruct ((0 <? S n)%nat && Nat.eqb (length a) 0); cbv iota; [by case_match|]. case_match; [done|].
  destruct (input_map_correct (ic_termios ic) (take (S n) a)) as (extra & E & _). cbn [ic_termios]. rewrite E. cbn [obind]. by apply IH.
Qed.

Lemma ic_read_safe fuel t ic n : reading t ic -> safe (fun x => reading t x.2) (ic_read fuel ic n).
Proof. intros Hr. unfold ic_read. case_match; [by apply read_canon_safe|by apply read_raw_safe]. Qed.
End input.

Section poster.
Context `{Sink W, Sink E}.
Implicit Types p : InputPoster W E.

(** A poster in order, with the settings [t]. *)
Definition posting (t : termios) p : Prop := ip_live p /\ bounded (ip_writer p) /\ ip_termios p = t /\ termios_ok t.

Lemma maybe_echo_safe t p buf : posting t p -> safe (fun x => posting t x.2) (maybe_echo p buf).
Proof.
  intros (Hl & Hb & Et & Ht). destruct (maybe_echo_returns p buf Hl) as (res & p' & -> & Hl' & [S1 S2]). cbn.
  split; [done|]. split; [by rewrite S2|]. split; [congruence|done].
Qed.

Lemma echo_written_safe fuel t p written ecount : posting t p -> (length written <= BUF_SZ)%nat ->
  safe (fun x => posting t x.2) (echo_written fuel p written ecount).
Proof.
  revert p ecount. induction fuel as [|f IH]; intros p ecount Hp Hl; cbn [echo_written]; (case_match; [|done]); [done|].
  rewrite (proj2 (Nat.leb_le _ BUF_SZ)) by (rewrite length_drop; lia). cbn [rassert obind].
  destruct (input_map_correct (ip_termios p) (drop ecount written)) as (extra & -> & _). cbn [obind].
  apply (safe_rbind (posting t)); [by apply maybe_echo_safe|done|]. intros _ p' Hp'. by apply IH.
Qed.

Lemma split_input_safe t buf : exists count o, split_input (ctl t VINTR) (ctl t VQUIT) (ctl t VSTATUS) buf = Ret (count, o).
Proof.
  unfold split_input. rewrite memchr3_law. destruct (find_first _ buf) as [i|] eqn:Ef; [|by eexists _, _].
  destruct (find_first_Some _ _ _ Ef) as (a & x & b & -> & <- & Hx & _). rewrite lookup_middle. cbn [unwrap obind]. unfold is3 in Hx.
  repeat (case_match; [by eexists _, _|]). done.
Qed.

Lemma write_input_loop_safe fuel t p buf total sig : posting t p ->
  safe (fun x => posting t x.2) (write_input_loop fuel (ctl t VINTR) (ctl t VQUIT) (ctl t VSTATUS) p buf total sig).
Proof.
  revert p buf total sig. induction fuel as [|f IH]; intros p buf total sig Hp; destruct buf as [|b0 buf0] eqn:Eb, sig; try done.
  cbn [write_input_loop]. rewrite <- Eb. clear Eb b0 buf0. destruct (split_input_safe t buf) as (count & o & ->). cbn [obind].
  destruct Hp as ([[O1 O2] Hs] & Hb & Et & Ht). destruct (write_bounded _ (take count buf) Hb) as (n & w' & -> & Hw' & _ & Hn). cbn [obind].
  apply (safe_rbind (posting t)); [|done|intros _ p2 Hp2; case_match; by apply IH].
  apply echo_written_safe; [|rewrite length_take; lia]. split; [by split|]. done.
Qed.

Lemma write_input_safe fuel t p buf : posting t p -> safe (fun x => posting t x.2) (write_input fuel p buf).
Proof.
  intros Hp. pose proof Hp as (_ & _ & Et & Ht). unfold write_input. rewrite Et. destruct cc_indices as (I1 & I2 & I3 & _).
  rewrite !cc_spec by done. cbn [obind]. by apply write_input_loop_safe.
Qed.
End poster.
End discipline.

(** ** Calls *)
Section calls.
Context `{Build, Libc, Memchr}.

Inductive call :=
  | ServerWrite (buf : list Z)
  | ServerRead (n : nat)
  | ClientWrite (buf : list Z)
  | ClientRead (n : nat)
  | SetTermios (t : termios).

Inductive reply :=
  | Wrote (r : result nat ErrorKind) (sig : option PtySignal)
  | Got (r : result (list Z) ErrorKind)
  | Updated.

Definition terminal : Type := PtyBase * Client * Server.

Definition dispatch (fuel : nat) (x : terminal) (a : call) : outcome (reply * terminal) :=
  let '(b, c, s) := x in
  match a with
  | ServerWrite buf => let! (r, o, bs) := server_write_nb fuel b s buf in Ret (Wrote r o, (bs.1, c, bs.2))
  | ServerRead n => let! (r, bs) := server_read_nb b s n in Ret (Got r, (bs.1, c, bs.2))
  | ClientWrite buf => let! (r, bc) := client_write_nb fuel b c buf in Ret (Wrote r None, (bc.1, bc.2, s))
  | ClientRead n => let! (r, bc) := client_read_nb fuel b c n in Ret (Got r, (bc.1, bc.2, s))
  | SetTermios t => Ret (Updated, (base_update_termios b (fun _ => t), c, s))
  end.

Fixpoint run_calls (fuel : nat) (x : terminal) (l : list call) : outcome (list reply * terminal) :=
  match l with
  | [] => Ret ([], x)
  | a :: l =>
      let! (r, x) := dispatch fuel x a in
      let! (rs, x) := run_calls fuel x l in
      Ret (r :: rs, x)
  end.

Definition new_terminal (t : termios) : terminal :=
  let b := PtyBase_new t in (b, PtyClientHandle_new b, PtyServerHandle_new b).

Record term_ok (k : Z) (x : terminal) : Prop := {
  to_base : termios_ok (base_termios x.1.1);
  to_server : termios_ok (ip_termios (sv_input x.2));
  to_ic : ic_ok (cl_ic x.1.1 x.1.2);
  to_ip : ip_ok (sv_ip x.1.1 x.2);
  to_inp : exists inp, vb_rep PTY_BUF (client_input x.1.1) inp;
  to_out : exists out, vb_rep PTY_BUF (client_output x.1.1) out;
  to_total : tail (client_input x.1.1) <= k /\ tail (client_output x.1.1) <= k
}.

Lemma term_ok_new t : termios_ok t -> term_ok 0 (new_terminal t).
Proof.
  intros Ht. destruct (fresh_session t Ht) as [_ _ _ Vi Vo Hk Oi _ Os]. split; cbn; eauto.
Qed.

Lemma term_ok_mono k k' x : term_ok k x -> k <= k' -> term_ok k' x.
Proof. intros [T1 T2 T3 T4 T5 T6 [T7 T8]] Hk. split; try done. lia. Qed.

(** The ends take up the settings of the object. *)
Lemma term_ok_update k b c s : term_ok k (b, c, s) -> term_ok k (b, client_update_termios b c, server_update_termios b s).
Proof.
  intros [T1 T2 [O1 O2 O3] [P1 P2] T5 T6 T7]. cbn in *. split; cbn; try done.
  - unfold server_update_termios, try_read_termios. by repeat case_match; simplify_eq/=.
  - unfold client_update_termios, try_read_termios. repeat case_match; simplify_eq/=; by split.
  - unfold server_update_termios, try_read_termios. repeat case_match; simplify_eq/=; by split.
Qed.

Lemma vb_bounded k b c : vb_rep PTY_BUF b c -> tail b <= k -> @bounded VB _ (vb_sink k) b.
Proof.
  intros Hv Ht. exists c, (vb_room c). split; [done|]. unfold vb_room. transitivity (Z.to_nat PTY_BUF); [pose proof (zlen_nonneg c); lia|].
  apply Nat.leb_le. by vm_compute.
Qed.

Lemma bounded_vb k b : @bounded VB _ (vb_sink k) b -> (exists c, vb_rep PTY_BUF b c) /\ tail b <= k.
Proof. intros (c & r & (Hv & _ & Ht) & _). eauto. Qed.

Lemma server_write_safe fuel k b c s buf : term_ok k (b, c, s) ->
  safe (fun y => term_ok k (y.2.1, c, y.2.2)) (server_write_nb fuel b s buf).
Proof.
  intros Hok. pose proof (to_ic _ _ Hok) as Hic. apply term_ok_update in Hok. unfold server_write_nb. set (s1 := server_update_termios b s) in *. fold (sv_ip b s1).
  destruct Hok as [T1 T2 T3 T4 [inp T5] [out T6] [T7 T8]]. cbn in *. pose (sk := vb_sink k).
  eapply safe_bind; [apply (@write_input_safe _ _ VB _ sk VB _ sk fuel (ip_termios (sv_input s1)))|].
  { split; [split; [by destruct T4|by exists out, (vb_room out)]|]. split; [by eapply vb_bounded|]. done. }
  intros [r p'] ([[O1 O2] (c' & r' & (Ve & _ & Te))] & Hb & Et & _). cbn [safe obind fst snd] in *.
  apply bounded_vb in Hb as [[inp' Vi] Ti].
  split; cbn; [done|by rewrite Et|by destruct Hic|by split|by exists inp'|by exists c'|done].
Qed.

Lemma client_write_safe fuel k b c s buf : term_ok k (b, c, s) ->
  safe (fun y => term_ok k (y.2.1, y.2.2, s)) (client_write_nb fuel b c buf).
Proof.
  intros Hok. pose proof (to_ip _ _ Hok) as Hip. pose proof (to_server _ _ Hok) as Hsv. apply term_ok_update in Hok.
  unfold client_write_nb. set (c1 := client_update_termios b c) in *. destruct Hok as [T1 T2 T3 T4 [inp T5] [out T6] [T7 T8]]. cbn in *.
  eapply safe_bind; [apply (@oc_write_safe _ _ VB _ (vb_sink k)); by eapply vb_bounded|].
  intros [r oc] Hb. cbn [safe obind fst snd] in *. apply bounded_vb in Hb as [[out' Vo] To].
  split; cbn; [done|done|by destruct T3|by destruct Hip|by exists inp|by exists out'|done].
Qed.

Lemma client_read_safe fuel k b c s n : term_ok k (b, c, s) -> k + 2 * PTY_BUF < 2 ^ 64 ->
  safe (fun y => term_ok (k + PTY_BUF) (y.2.1, y.2.2, s)) (client_read_nb fuel b c n).
Proof.
  intros Hok Hk. pose proof (to_ip _ _ Hok) as Hip. pose proof (to_server _ _ Hok) as Hsv. apply term_ok_update in Hok.
  unfold client_read_nb. set (c1 := client_update_termios b c) in *. fold (cl_ic b c1).
  destruct Hok as [T1 T2 T3 T4 [inp T5] [out T6] [T7 T8]]. cbn in *. assert (k + PTY_BUF + PTY_BUF < 2 ^ 64) as Hb by lia.
  pose proof (vr_head _ _ _ T5). pose proof (vr_cap _ _ _ T5). assert (0 <= PTY_BUF) by done.
  eapply safe_bind; [apply (@ic_read_safe _ _ VB _ (vb_source (k + PTY_BUF) Hb) fuel (ic_termios (cl_input c1)))|].
  { split; [done|]. split; [done|]. exists inp. split; [done|]. cbn. lia. }
  intros [r ic] (Oi & Et & a & (Vi & Hh)). cbn [safe obind fst snd] in *.
  split; cbn; [done|done|by destruct Oi|by destruct Hip|by exists a|by exists out|].
  split; [by eapply rep_tail|lia].
Qed.

Lemma server_read_safe k b c s n : term_ok k (b, c, s) -> k + 2 * PTY_BUF < 2 ^ 64 ->
  safe (fun y => term_ok (k + PTY_BUF) (y.2.1, c, y.2.2)) (server_read_nb b s n).
Proof.
  intros Hok Hk. pose proof (to_ic _ _ Hok) as Hic. apply term_ok_update in Hok.
  unfold server_read_nb. set (s1 := server_update_termios b s) in *. destruct Hok as [T1 T2 T3 T4 [inp T5] [out T6] [T7 T8]]. cbn in T1, T2, T5, T6, T7, T8.
  pose proof (vr_head _ _ _ T6). pose proof (vr_cap _ _ _ T6). assert (0 <= PTY_BUF) by done.
  destruct (read_bytes_alone PTY_BUF (client_output b) out n T6) as (v & -> & Vo & Hh & _); [lia|]. cbn [safe obind fst snd].
  split; cbn; [done|done|by destruct Hic|by destruct T4|by exists inp|by eexists|].
  split; [lia|]. eapply rep_tail; [done|lia].
Qed.

(** The settings have room for every control character. *)
Definition call_ok (a : call) : Prop := match a with SetTermios t => termios_ok t | _ => True end.

Lemma dispatch_safe fuel k x a : term_ok k x -> call_ok a -> k + 2 * PTY_BUF < 2 ^ 64 ->
  safe (fun y => term_ok (k + PTY_BUF) y.2) (dispatch fuel x a).
Proof.
  destruct x as [[b c] s]. intros Hok Ha Hk. assert (0 <= PTY_BUF) by done.
  destruct a as [buf|n|buf|n|t]; cbn [dispatch].
  - eapply safe_bind; [by eapply server_write_safe|]. intros [[r o] bs] Hy. cbn in *. eapply term_ok_mono; [exact Hy|lia].
  - eapply safe_bind; [by eapply server_read_safe|]. by intros [r bs] Hy.
  - eapply safe_bind; [by eapply client_write_safe|]. intros [r bc] Hy. cbn in *. eapply term_ok_mono; [exact Hy|lia].
  - eapply safe_bind; [by eapply client_read_safe|]. by intros [r bc] Hy.
  - eapply term_ok_mono; [|instantiate (1 := k); lia]. by destruct Hok as [T1 T2 [O1 O2 O3] [P1 P2] T5 T6 T7].
Qed.

Lemma run_calls_safe fuel k x l : term_ok k x -> Forall call_ok l -> k + (zlen l + 1) * PTY_BUF < 2 ^ 64 ->
  safe (fun y => term_ok (k + zlen l * PTY_BUF) y.2) (run_calls fuel x l).
Proof.
  intros Hok Hl. revert k x Hok. induction Hl as [|a l Ha Hl IH]; intros k x Hok Hk; cbn [run_calls].
  { eapply term_ok_mono; [exact Hok|]. unfold zlen. cbn. lia. }
  replace (zlen (a :: l)) with (zlen l + 1) in * by (unfold zlen; cbn [length]; lia). pose proof (zlen_nonneg l).
  unfold PTY_BUF in Hk. eapply safe_bind; [eapply dispatch_safe; [done..|unfold PTY_BUF; lia]|]. intros [r y] Hy.
  eapply safe_bind; [apply (IH (k + PTY_BUF) y Hy); unfold PTY_BUF; lia|]. intros [rs z] Hz. cbn in *.
  eapply term_ok_mono; [exact Hz|unfold PTY_BUF; lia].
Qed.

(** C31: No sequence of reads and writes at the two ends of a terminal, with changes of the
    settings in between, panics: every slice access and assertion of the line discipline
    is in bounds for all bytes and all settings, and the buffers keep their invariants
    (as long as fewer than 2^64 bytes can have gone through them). *)
Theorem terminal_safe fuel t l : termios_ok t -> Forall call_ok l -> (zlen l + 1) * PTY_BUF < 2 ^ 64 ->
  match run_calls fuel (new_terminal t) l with
  | Ret (_, x) => term_ok (zlen l * PTY_BUF) x
  | Panic => False
  | NoFuel => True
  end.
Proof.
  intros Ht Hl Hk. pose proof (run_calls_safe fuel 0 (new_terminal t) l (term_ok_new t Ht) Hl ltac:(lia)) as Hs.
  by destruct (run_calls _ _ _) as [[rs x]| |].
Qed.

(** The calls that are not to block never return when they cannot make progress: typing
    at a terminal whose input buffer is full, and printing more than fits in the output
    buffer when newlines are expanded, turn in a loop for ever instead of reporting
    [WouldBlock] or a short count. *)
Theorem full_terminal_spins t k b c s inp pend out buf : session t k b c s inp pend out -> termios_ok t -> buf <> [] ->
  (vb_room inp = 0%nat -> no_signal t buf -> forall fuel, server_write_nb fuel b s buf = NoFuel) /\
  (flag (c_oflag t) OPOST = true -> flag (c_oflag t) ONLCR = true -> Forall (fun x => is2 CR NL x = false) buf -> (vb_room out < length buf)%nat ->
   forall fuel, client_write_nb fuel b c buf = NoFuel).
Proof.
  intros [[G1 G2] [C1 C2] S1 Vi Vo [K1 K2] Oi Op Os] Ht Hb. split.
  - intros Hr Hn fuel. unfold server_write_nb. rewrite update_server by done. fold (sv_ip b s).
    rewrite (@write_input_full _ _ VB VB _ (vb_sink k) _ fuel (sv_ip b s) inp buf); cbn [sv_ip ip_termios ip_writer]; rewrite ?S1; done.
  - intros Ho Hc Hn Hr fuel. unfold client_write_nb. rewrite update_client by done.
    rewrite (@oc_write_spin _ _ VB _ (vb_sink k) fuel (mkOC (cl_output c) (client_output b)) out (vb_room out) buf); cbn [oc_termios oc_writer];
      rewrite ?C2; try done. by rewrite Hc, orb_true_r.
Qed.
End calls.

(** ** Examples *)
#[local] Existing Instance ex_memchr.
#[local] Existing Instance ex_libc.
#[local] Existing Instance ex_defaults.
#[local] Existing Instance ex_build.

(** The replies of a terminal with the default settings. *)
Definition replies (l : list call) : option (list reply) :=
  match run_calls 100 (new_terminal DEFAULT_TERMIOS) l with Ret (rs, _) => Some rs | _ => None end.

Lemma terminal_safe_witness :
  match run_calls 100 (new_terminal DEFAULT_TERMIOS)
    [ServerWrite [97; 127; 127; 23; 10; 4; 3]; SetTermios DEFAULT_TERMIOS_RAW; ClientRead 7; ClientWrite [10; 13]; ServerRead 80] with
  | Ret (_, x) => term_ok (5 * PTY_BUF) x
  | Panic => False
  | NoFuel => True
  end.
Proof.
  apply (terminal_safe 100 DEFAULT_TERMIOS
    [ServerWrite [97; 127; 127; 23; 10; 4; 3]; SetTermios DEFAULT_TERMIOS_RAW; ClientRead 7; ClientWrite [10; 13]; ServerRead 80]).
  - by vm_compute.
  - by repeat constructor.
  - by vm_compute.
Defined.

Lemma full_terminal_spins_witness : client_write_nb 100 ex_base ex_client (replicate (Z.to_nat 8192) 98) = NoFuel.
Proof.
  apply (full_terminal_spins DEFAULT_TERMIOS 0 ex_base ex_client ex_server [] [] [] (replicate (Z.to_nat 8192) 98) ex_session).
  - by vm_compute.
  - by vm_compute.
  - by vm_compute.
  - by vm_compute.
  - by apply Forall_replicate.
  - apply Nat.ltb_lt. by vm_compute.
Defined.

(** With the default settings: (1) of two lines typed together the client reads the
    first and is then told there is nothing; (2) a line longer than the buffer it is read
    into does not come out; (3) erasing a character leaves a NUL byte in front of the next
    line; (4) of two erasing characters typed together the second stays in the line; (5)
    what is typed after a newline is not echoed; (6) the interrupt character posts a
    signal, and is swallowed, although signals are off; (7) a full output buffer makes
    typing fail although the byte was posted. *)
Theorem terminal_defects :
  replies [ServerWrite [97; 10; 98; 10]; ClientRead 80; ClientRead 80] =
    Some [Wrote (Ok 4%nat) None; Got (Ok [97; 10]); Got (Err WouldBlock)] /\
  replies [ServerWrite [97; 98; 99; 10]; ClientRead 2; ClientRead 2] =
    Some [Wrote (Ok 4%nat) None; Got (Err WouldBlock); Got (Err WouldBlock)] /\
  replies [ServerWrite [97; 98; 127; 99; 10]; ClientRead 80; ServerWrite [100; 10]; ClientRead 80] =
    Some [Wrote (Ok 5%nat) None; Got (Ok [97; 99; 10]); Wrote (Ok 2%nat) None; Got (Ok [0; 100; 10])] /\
  replies [ServerWrite [97; 98; 127; 127; 99; 10]; ClientRead 80] = Some [Wrote (Ok 6%nat) None; Got (Ok [97; 127; 99; 10])] /\
  replies [ServerWrite [97; 10; 98]; ServerRead 80] = Some [Wrote (Ok 3%nat) None; Got (Ok [97; 10])] /\
  replies [SetTermios DEFAULT_TERMIOS_RAW; ServerWrite [97; 3]; ClientRead 80] =
    Some [Updated; Wrote (Ok 2%nat) (Some Interrupt); Got (Ok [97])] /\
  replies [ClientWrite (replicate (Z.to_nat 8191) 98); ServerWrite [97]; ServerRead 1; ServerWrite [10]; ClientRead 80] =
    Some [Wrote (Ok (Z.to_nat 8191)) None; Wrote (Err WriteZero) None; Got (Ok [98]); Wrote (Ok 1%nat) None; Got (Ok [97; 10])].
Proof. repeat split; by vm_compute. Qed.
End PtySafe.
