(* ===== verification/ThreadSync.v ===== *)
(** * Waiting on words ([src/kernel/src/syscall/sync.rs], [src/kernel/src/obj/thread_sync.rs])

    A thread sleeps while a word of an object has some value and is woken by another
    thread that names the word.  Every object has a table of the threads asleep on its
    words ([SleepInfo]).  A thread that goes to sleep sets a flag, enters itself in the
    table, enters a critical section, sets a second flag and leaves the processor; whoever
    clears the first flag is the one to wake it, and hands it to [add_to_requeue], which
    schedules it at once if it is already off its processor and otherwise puts it on the
    requeue list for later.

    Code under the lock of an object is one step; the threads it wakes are handed on
    ([hands]) and their way through [add_to_requeue] is one step per access.  The code
    takes that way before it unlocks the object, so the model has all of its interleavings
    and some more.  The arguments of a call are resolved by [get_obj] over the mappings [vm]; the contents of
    memory are a parameter that may change at any time.  [ready] of a thread is its link
    in a run queue; a thread taken off its processor while it is already linked runs
    again.  The maps of the [heapless] crate are the class [IndexMap].  Words of device
    interrupts, which wait elsewhere, are left out, and so are the return values of the
    calls. *)
From S2P Require Import Prelude Address.
Import Address.

#[local] Open Scope Z_scope.

Module ThreadSync.

(** ** [heapless::FnvIndexMap]

    [im_entries] lists the entries by index; removal puts the last entry in the place of
    the one removed. *)
Definition last_first {A} (l : list A) : list A :=
  match last l with
  | Some x => x :: removelast l
  | None => []
  end.

Class IndexMap (Map : Type -> Type -> nat -> Type) := {
  im_new {K V n} : Map K V n;
  im_entries {K V n} : Map K V n -> list (K * V);
  im_insert {K V n} `{EqDecision K} : Map K V n -> K -> V -> option (Map K V n);
  im_remove {K V n} `{EqDecision K} : Map K V n -> K -> Map K V n;
  im_new_law K V n : im_entries (im_new (K := K) (V := V) (n := n)) = [];
  im_insert_old {K V n} `{EqDecision K} (m : Map K V n) a b k v0 v : im_entries m = a ++ (k, v0) :: b -> k ∉ a.*1 ->
    exists m', im_insert m k v = Some m' /\ im_entries m' = a ++ (k, v) :: b;
  im_insert_new {K V n} `{EqDecision K} (m : Map K V n) k v : k ∉ (im_entries m).*1 -> (length (im_entries m) < n)%nat ->
    exists m', im_insert m k v = Some m' /\ im_entries m' = im_entries m ++ [(k, v)];
  im_insert_full {K V n} `{EqDecision K} (m : Map K V n) k v : k ∉ (im_entries m).*1 -> (n <= length (im_entries m))%nat ->
    im_insert m k v = None;
  im_remove_in {K V n} `{EqDecision K} (m : Map K V n) a b k v : im_entries m = a ++ (k, v) :: b -> k ∉ a.*1 ->
    im_entries (im_remove m k) = a ++ last_first b;
  im_remove_out {K V n} `{EqDecision K} (m : Map K V n) k : k ∉ (im_entries m).*1 -> im_entries (im_remove m k) = im_entries m
}.

Section sync.
Context `{IndexMap Map}.

(** [get] *)
Definition im_get {K V n} `{EqDecision K} (m : Map K V n) (k : K) : option V :=
  snd <$> List.find (fun kv => bool_decide (kv.1 = k)) (im_entries m).

(** ** Threads *)
Record Thread := mkThread { sync_sleep : bool; sync_sleep_done : bool; critical : nat; ready : bool }.

Abbreviation threads := (gmap nat Thread).

Definition set_sync_sleep (ths : threads) (t : nat) : threads :=
  alter (fun th => mkThread true (sync_sleep_done th) (critical th) (ready th)) t ths.

Definition sleep_off (th : Thread) : Thread := mkThread false (sync_sleep_done th) (critical th) (ready th).

Definition reset_sync_sleep (ths : threads) (t : nat) : bool * threads :=
  (match ths !! t with Some th => sync_sleep th | None => false end, alter sleep_off t ths).

Definition set_sync_sleep_done (ths : threads) (t : nat) : threads :=
  alter (fun th => mkThread (sync_sleep th) true (critical th) (ready th)) t ths.

Definition done_off (th : Thread) : Thread := mkThread (sync_sleep th) false (critical th) (ready th).

Definition reset_sync_sleep_done (ths : threads) (t : nat) : bool * threads :=
  (match ths !! t with Some th => sync_sleep_done th | None => false end, alter done_off t ths).

Definition enter_critical (ths : threads) (t : nat) : threads :=
  alter (fun th => mkThread (sync_sleep th) (sync_sleep_done th) (S (critical th)) (ready th)) t ths.

Definition exit_critical (ths : threads) (t : nat) : outcome threads :=
  let! th := unwrap (ths !! t) in
  let! _ := rassert (0 <? critical th)%nat in
  Ret (<[t := mkThread (sync_sleep th) (sync_sleep_done th) (critical th - 1) (ready th)]> ths).

Definition is_critical (ths : threads) (t : nat) : bool :=
  match ths !! t with Some th => (0 <? critical th)%nat | None => false end.

(** Linking a thread that is linked panics. *)
Definition schedule_thread (ths : threads) (t : nat) : outcome threads :=
  let! th := unwrap (ths !! t) in
  let! _ := rassert (negb (ready th)) in
  Ret (<[t := mkThread (sync_sleep th) (sync_sleep_done th) (critical th) true]> ths).

(** ** The threads asleep on one word

    The threads to be handed to [add_to_requeue] are part of the result. *)
Definition SLEEPERS : nat := 16.

(** The thread of an entry is the one its key names. *)
Record SleepEntry := mkEntry { threads_of : Map nat unit SLEEPERS }.

Fixpoint wake_n_loop (fuel : nat) (e : SleepEntry) (ths : threads) (max_count : Z) (count idx : nat) (woken : list nat) :
    outcome (SleepEntry * threads * list nat) :=
  match fuel with
  | O => NoFuel
  | S f =>
      if (idx <? SLEEPERS)%nat then
        if max_count <=? Z.of_nat count then Ret (e, ths, woken)
        else
          match im_entries (threads_of e) !! idx with
          | Some (id, _) =>
              let '(b, ths) := reset_sync_sleep ths id in
              if b : bool then wake_n_loop f (mkEntry (im_remove (threads_of e) id)) ths max_count (S count) idx (woken ++ [id])
              else wake_n_loop f e ths max_count count (S idx) woken
          | None => wake_n_loop f e ths max_count count (S idx) woken
          end
      else Ret (e, ths, woken)
  end.

(** Every turn advances or removes an entry. *)
Definition wake_n (e : SleepEntry) (ths : threads) (max_count : Z) : outcome (SleepEntry * threads * list nat) :=
  wake_n_loop (S (SLEEPERS + length (im_entries (threads_of e)))) e ths max_count 0 0 [].

Fixpoint add_thread (fuel : nat) (e : SleepEntry) (ths : threads) (t : nat) : outcome (SleepEntry * threads * list nat) :=
  match im_insert (threads_of e) t tt with
  | Some m => Ret (mkEntry m, ths, [])
  | None =>
      match fuel with
      | O => NoFuel
      | S f =>
          let! (e, ths, w) := wake_n e ths 2 in
          let! (e, ths, w') := add_thread f e ths t in
          Ret (e, ths, w ++ w')
      end
  end.

Definition SleepEntry_new (t : nat) : SleepEntry := mkEntry (default im_new (im_insert im_new t tt)).

(** [Drop] *)
Definition entry_drop (e : SleepEntry) (ths : threads) : threads * list nat :=
  foldl (fun '(ths, w) '(id, _) =>
    let '(b, ths) := reset_sync_sleep ths id in (ths, if b : bool then w ++ [id] else w)) (ths, []) (im_entries (threads_of e)).

(** ** The threads asleep on an object *)
Definition WORDS : nat := 32.

Record SleepInfo := mkInfo { some_words : Map Z SleepEntry WORDS; more_words : option (gmap Z SleepEntry) }.

Definition SleepInfo_new : SleepInfo := mkInfo im_new None.

Definition word (si : SleepInfo) (offset : Z) : option SleepEntry :=
  match more_words si with
  | Some words => words !! offset
  | None => im_get (some_words si) offset
  end.

(** Writing through the reference that [word] gives. *)
Definition put_word (si : SleepInfo) (offset : Z) (e : SleepEntry) : SleepInfo :=
  match more_words si with
  | Some words => mkInfo (some_words si) (Some (<[offset := e]> words))
  | None => mkInfo (default (some_words si) (im_insert (some_words si) offset e)) None
  end.

(** Dropping every entry of the small map, in order. *)
Definition clear_words (ws : list (Z * SleepEntry)) (ths : threads) : threads * list nat :=
  foldl (fun '(ths, w) '(_, e) => let '(ths, w') := entry_drop e ths in (ths, w ++ w')) (ths, []) ws.

Definition si_insert (fuel : nat) (si : SleepInfo) (ths : threads) (offset : Z) (t : nat) : outcome (SleepInfo * threads * list nat) :=
  match word si offset with
  | Some se =>
      let! (se, ths, w) := add_thread fuel se ths t in
      Ret (put_word si offset se, ths, w)
  | None =>
      match more_words si with
      | Some words => Ret (mkInfo (some_words si) (Some (<[offset := SleepEntry_new t]> words)), ths, [])
      | None =>
          match im_insert (some_words si) offset (SleepEntry_new t) with
          | Some ws => Ret (mkInfo ws None, ths, [])
          | None =>
              let '(ths, w) := clear_words (im_entries (some_words si)) ths in
              Ret (mkInfo im_new (Some {[offset := SleepEntry_new t]}), ths, w)
          end
      end
  end.

Definition si_remove (si : SleepInfo) (offset : Z) (t : nat) : SleepInfo :=
  match word si offset with
  | Some se => put_word si offset (mkEntry (im_remove (threads_of se) t))
  | None => si
  end.

Definition si_wake_n (si : SleepInfo) (ths : threads) (offset max_count : Z) : outcome (SleepInfo * threads * list nat) :=
  match word si offset with
  | Some se =>
      let! (se, ths, w) := wake_n se ths max_count in
      Ret (put_word si offset se, ths, w)
  | None => Ret (si, ths, [])
  end.

(** ** Operations *)
Inductive ThreadSyncOp := Equal.

Inductive ThreadSyncReference :=
  | ObjectRef (id : nat) (offset : Z)
  | Virtual (addr : Z)
  | Virtual32 (addr : Z).

Record ThreadSyncSleep := mkSleep { sl_reference : ThreadSyncReference; sl_value : Z; sl_op : ThreadSyncOp; sl_flags : Z }.
Record ThreadSyncWake := mkWake { wk_reference : ThreadSyncReference; wk_count : Z }.
Inductive ThreadSync := Sleep (sl : ThreadSyncSleep) | Wake (wk : ThreadSyncWake).

Definition INVERT : Z := 1.

Definition check (op : ThreadSyncOp) (a b flags : Z) : bool :=
  let res := match op with Equal => a =? b end in
  if Z.land flags INVERT =? INVERT then negb res else res.

(** Memory, the loads of a word of an object (32 bits or 64), the objects there are and
    the mapping of a thread. *)
Context {mem : Type} (load : mem -> bool -> nat -> Z -> Z) (exists_obj : nat -> bool) (vm : nat -> Z -> option nat).

Definition get_obj_and_offset (t : nat) (a : VirtAddr) : option (nat * Z * bool) :=
  if is_kernel a && negb (is_kernel_object_memory a) then None
  else match vm t (vraw a) with
       | Some obj => Some (obj, vraw a mod (1024 * 1024 * 1024), true)
       | None => None
       end.

(** [None] is an error of the call; the flag tells whether there is an address. *)
Definition get_obj (t : nat) (r : ThreadSyncReference) : outcome (option (nat * Z * bool)) :=
  match r with
  | ObjectRef id offset => Ret (if exists_obj id then Some (id, offset, false) else None)
  | Virtual addr | Virtual32 addr =>
      let! a := (match VirtAddr_new addr with Ok a => Ret a | Err _ => Panic end) in
      Ret (get_obj_and_offset t a)
  end.

Definition is_32 (r : ThreadSyncReference) : bool := match r with Virtual32 _ => true | _ => false end.

(** The test of [setup_sleep_word] and [setup_sleep_word32]. *)
Definition must_sleep (m : mem) (sl : ThreadSyncSleep) (obj : nat) (offset : Z) : bool :=
  let value := if is_32 (sl_reference sl) then sl_value sl mod 2 ^ 32 else sl_value sl in
  check (sl_op sl) (load m (is_32 (sl_reference sl)) obj offset) value (sl_flags sl).

(** ** Threads in the middle of a call *)

(** [optimized_single_sleep], [simple_timed_sleep] and the general case. *)
Inductive kind := Single | Timed | General.

Inductive stage :=
  | Requeue1 | Enter | SetDone | SelfWake | Requeue2 | Unguard | Park | Asleep
  | Undo | ResetDone | ResetSleep | Unqueue.

(** [flagged]: this call has set [sync_sleep]. *)
Record call := mkCall { c_kind : kind; unsleeps : list (nat * Z); num_sleepers : nat; flagged : bool }.

Inductive pc :=
  | Out
  | Loop (todo : list ThreadSync) (c : call)
  | Locked (sl : ThreadSyncSleep) (obj : nat) (offset : Z) (todo : list ThreadSync) (c : call)
  | WakeRequeue
  | At (st : stage) (c : call).

(** Threads on their way through [add_to_requeue]: at its start; found not critical; to be
    put on the list; scheduled, and to be taken off the list. *)
Inductive hand := HAdd (t : nat) | HDone (t : nat) | HList (t : nat) | HLate (t : nat).

Record sys := mkSys {
  objs : gmap nat SleepInfo;
  ths : threads;
  requeue : gset nat;
  hands : list hand;
  pcs : gmap nat pc;
  memory : mem }.

Definition info (s : sys) (o : nat) : SleepInfo := default SleepInfo_new (objs s !! o).

Definition set_pc (s : sys) (t : nat) (p : pc) : sys := mkSys (objs s) (ths s) (requeue s) (hands s) (<[t := p]> (pcs s)) (memory s).
Definition set_ths (s : sys) (x : threads) : sys := mkSys (objs s) x (requeue s) (hands s) (pcs s) (memory s).
Definition set_requeue (s : sys) (q : gset nat) : sys := mkSys (objs s) (ths s) q (hands s) (pcs s) (memory s).
Definition set_hands (s : sys) (h : list hand) : sys := mkSys (objs s) (ths s) (requeue s) h (pcs s) (memory s).

(** The result of code under the lock of object [o]. *)
Definition locked (s : sys) (o : nat) (si : SleepInfo) (x : threads) (woken : list nat) : sys :=
  mkSys (<[o := si]> (objs s)) x (requeue s) (hands s ++ (HAdd <$> woken)) (pcs s) (memory s).

Definition requeue_one (acc : outcome (gset nat * threads)) (t : nat) : outcome (gset nat * threads) :=
  let! (q, x) := acc in
  if negb (is_critical x t) then
    let '(b, x) := reset_sync_sleep_done x t in
    if b : bool then let! x := schedule_thread x t in Ret (q ∖ {[t]}, x) else Ret (q, x)
  else Ret (q, x).

Definition requeue_all (s : sys) : outcome sys :=
  let! (q, x) := foldl requeue_one (Ret (requeue s, ths s)) (elements (requeue s)) in
  Ret (set_requeue (set_ths s x) q).

(** One access of [add_to_requeue]; a link that is on no list would be a panic. *)
Definition hand_step (s : sys) (k : nat) : outcome sys :=
  match hands s !! k with
  | Some (HAdd t) => Ret (set_hands s (<[k := if is_critical (ths s) t then HList t else HDone t]> (hands s)))
  | Some (HDone t) =>
      let '(b, x) := reset_sync_sleep_done (ths s) t in
      if b : bool then let! x := schedule_thread x t in Ret (set_hands (set_ths s x) (<[k := HLate t]> (hands s)))
      else Ret (set_hands (set_ths s x) (<[k := HList t]> (hands s)))
  | Some (HList t) => Ret (set_hands (set_requeue s ({[t]} ∪ requeue s)) (delete k (hands s)))
  | Some (HLate t) => Ret (set_hands (set_requeue s (requeue s ∖ {[t]})) (delete k (hands s)))
  | None => Ret s
  end.

(** [prep_sleep] up to the lock: a word with an address is tested without it first. *)
Definition slept (c : call) (w : nat * Z) : call :=
  if (length (unsleeps c) <? 1024)%nat then mkCall (c_kind c) (unsleeps c ++ [w]) (S (num_sleepers c)) true
  else mkCall (c_kind c) (unsleeps c) (S (num_sleepers c)) (flagged c).

Definition not_slept (c : call) : call := mkCall (c_kind c) (unsleeps c) (S (num_sleepers c)) (flagged c).

(** After an operation: [optimized_single_sleep] goes on only if it sleeps. *)
Definition next_op (todo : list ThreadSync) (c : call) (did_sleep : bool) : pc :=
  match c_kind c with
  | Single => if did_sleep then At Enter c else Out
  | _ => Loop todo c
  end.

Definition loop_step (s : sys) (t : nat) (todo : list ThreadSync) (c : call) : outcome sys :=
  match todo with
  | [] => Ret (set_pc s t (At Requeue1 c))
  | Sleep sl :: todo =>
      let! r := get_obj t (sl_reference sl) in
      match r with
      | None => Ret (set_pc s t (next_op todo c false))
      | Some (o, offset, va) =>
          if (va : bool) && negb (must_sleep (memory s) sl o offset) then Ret (set_pc s t (next_op todo (not_slept c) false))
          else Ret (set_pc s t (Locked sl o offset todo c))
      end
  | Wake wk :: todo =>
      let! r := get_obj t (wk_reference wk) in
      match r with
      | None => Ret (set_pc s t (next_op todo c false))
      | Some (o, offset, _) =>
          let next := match c_kind c with Single => WakeRequeue | _ => Loop todo c end in
          let! (si, x, woken) := si_wake_n (info s o) (ths s) offset (wk_count wk) in
          Ret (set_pc (locked s o si x woken) t next)
      end
  end.

(** [prep_sleep] under the lock of the object. *)
Definition locked_step (fuel : nat) (s : sys) (t : nat) (sl : ThreadSyncSleep) (o : nat) (offset : Z) (todo : list ThreadSync) (c : call) :
    outcome sys :=
  if must_sleep (memory s) sl o offset then
    let first_sleep := Nat.eqb (length (unsleeps c)) 0 in
    let x := if first_sleep then set_sync_sleep (ths s) t else ths s in
    let! (si, x, woken) := si_insert fuel (info s o) x offset t in
    let c := slept c (o, offset) in
    Ret (set_pc (locked s o si x woken) t (next_op todo c true))
  else Ret (set_pc s t (next_op todo (not_slept c) false)).

Definition should_sleep (c : call) : bool :=
  match c_kind c with
  | General => Nat.eqb (length (unsleeps c)) (num_sleepers c) && (0 <? num_sleepers c)%nat
  | _ => true
  end.

(** The rest of the calls, one access at a time.  A thread that has left its processor does
    nothing until it is dispatched. *)
Definition stage_step (s : sys) (t : nat) (st : stage) (c : call) : outcome sys :=
  let go s st := Ret (set_pc s t (At st c)) in
  match st with
  | Requeue1 => let! s := requeue_all s in go s Enter
  | Enter => go (set_ths s (enter_critical (ths s) t)) SetDone
  | SetDone =>
      go (set_ths s (set_sync_sleep_done (ths s) t))
        (match c_kind c with
         | Single => Requeue2
         | Timed => Park
         | General => if should_sleep c then Park else SelfWake
         end)
  | SelfWake =>
      let '(b, x) := reset_sync_sleep (ths s) t in
      go (set_hands (set_ths s x) (hands s ++ if b : bool then [HAdd t] else [])) Requeue2
  | Requeue2 =>
      let! s := requeue_all s in
      go s (match c_kind c with General => if (0 <? length (unsleeps c))%nat then Park else Unguard | _ => Park end)
  | Unguard => let! x := exit_critical (ths s) t in go (set_ths s x) Undo
  | Park => let! x := exit_critical (ths s) t in go (set_ths s x) Asleep
  | Asleep => Ret s
  | Undo =>
      match unsleeps c with
      | [] => go s ResetDone
      | (o, offset) :: us =>
          Ret (set_pc (locked s o (si_remove (info s o) offset t) (ths s) []) t (At Undo (mkCall (c_kind c) us (num_sleepers c) (flagged c))))
      end
  | ResetDone =>
      let s := set_ths s (reset_sync_sleep_done (ths s) t).2 in
      match c_kind c with Timed => Ret (set_pc s t Out) | _ => go s ResetSleep end
  | ResetSleep => go (set_ths s (reset_sync_sleep (ths s) t).2) (match c_kind c with Timed => ResetDone | _ => Unqueue end)
  | Unqueue =>
      let s := set_requeue s (requeue s ∖ {[t]}) in
      match c_kind c with Timed => go s ResetSleep | _ => Ret (set_pc s t Out) end
  end.

(** The start of [sys_thread_sync]. *)
Definition sys_thread_sync (s : sys) (t : nat) (ops : list ThreadSync) (timeout : bool) : outcome sys :=
  match ops with
  | [] =>
      if timeout then Ret (set_pc (set_ths s (set_sync_sleep (ths s) t)) t (At Requeue1 (mkCall Timed [] 0 true)))
      else Panic
  | [op] => Ret (set_pc s t (Loop ops (mkCall (if timeout then General else Single) [] 0 false)))
  | _ => if (1024 <? length ops)%nat then Ret s else Ret (set_pc s t (Loop ops (mkCall General [] 0 false)))
  end.

(** A thread in a run queue is given a processor. *)
Definition dispatch (s : sys) (t : nat) (c : call) : sys :=
  set_pc (set_ths s (alter (fun th => mkThread (sync_sleep th) (sync_sleep_done th) (critical th) false) t (ths s))) t
    (At (match c_kind c with Single => ResetDone | Timed => Unqueue | General => Undo end) c).

(** ** Everything that happens *)
Inductive event :=
  | ECall (t : nat) (ops : list ThreadSync) (timeout : bool)
  | EStep (t : nat)
  | EHand (k : nat)
  | EDispatch (t : nat)
  (** A timeout or a message for thread [t]. *)
  | EKick (t : nat)
  | ERequeue
  | EStore (m : mem).

Definition exec (fuel : nat) (s : sys) (e : event) : outcome sys :=
  match e with
  | ECall t ops timeout => match pcs s !! t with Some Out => sys_thread_sync s t ops timeout | _ => Ret s end
  | EStep t =>
      match pcs s !! t with
      | Some (Loop todo c) => loop_step s t todo c
      | Some (Locked sl o offset todo c) => locked_step fuel s t sl o offset todo c
      | Some WakeRequeue => let! s := requeue_all s in Ret (set_pc s t Out)
      | Some (At st c) => stage_step s t st c
      | Some Out | None => Ret s
      end
  | EHand k => hand_step s k
  | EDispatch t =>
      match pcs s !! t, ths s !! t with
      | Some (At Asleep c), Some th => Ret (if ready th then dispatch s t c else s)
      | _, _ => Ret s
      end
  | EKick t =>
      let '(b, x) := reset_sync_sleep (ths s) t in
      Ret (set_hands (set_ths s x) (hands s ++ if b : bool then [HAdd t] else []))
  | ERequeue => requeue_all s
  | EStore m => Ret (mkSys (objs s) (ths s) (requeue s) (hands s) (pcs s) m)
  end.

Fixpoint run (fuel : nat) (s : sys) (es : list event) : outcome sys :=
  match es with
  | [] => Ret s
  | e :: es => let! s := exec fuel s e in run fuel s es
  end.

(** [n] threads, none of them in a call. *)
Definition init (n : nat) (m : mem) : sys :=
  mkSys ∅ (gset_to_gmap (mkThread false false 0 false) (set_seq 0 n)) ∅ [] (gset_to_gmap Out (set_seq 0 n)) m.
End sync.
End ThreadSync.
