(* ===== verification/ThreadSyncInv.v ===== *)
(** * Sleeping threads are woken

    [wake_n_spec], [si_insert_spec]: what the tables of sleeping threads do.  [Inv]: the
    state of a thread in a call is held in exactly one place, its flag, somebody's hands,
    the requeue list or a run queue.  [sleepers_not_lost]: so a thread off its processor
    is either entered at all its words with its flag set, or on its way back.
    [wake_reaches]: waking a word reaches every thread asleep on it; [woken_runs]: a thread
    that is reached gets to a run queue.

    The theorems are about runs in which the last access of [add_to_requeue], which takes
    a thread it has scheduled off the requeue list, finds nothing to take off.
    [ThreadSyncLost] has a run in which it does, and further cases in which the code does not
    do what it means to. *)
From S2P Require Import Prelude Address ThreadSync.
Import Address ThreadSync.

#[local] Open Scope Z_scope.

Module ThreadSyncInv.

(** ** Index maps *)
Lemma last_first_perm {A} (l : list A) : last_first l ≡ₚ l.
Proof.
  unfold last_first. destruct (last l) as [x|] eqn:El.
  - apply last_Some in El as [k ->]. rewrite removelast_last. by rewrite Permutation_app_comm.
  - by apply last_None in El as ->.
Qed.

Section maps.
Context `{IndexMap Map}.

Definition keys {K V n} (m : Map K V n) : list K := (im_entries m).*1.

Definition map_ok {K V n} (m : Map K V n) : Prop := NoDup (keys m) /\ (length (im_entries m) <= n)%nat.

Lemma keys_split {K V n} (m : Map K V n) k : k ∈ keys m -> exists a v b, im_entries m = a ++ (k, v) :: b.
Proof. intros ([k' v] & -> & Hin)%list_elem_of_fmap. apply list_elem_of_split in Hin as (a & b & E). by exists a, v, b. Qed.

Lemma split_fresh {K V n} (m : Map K V n) a k v b : NoDup (keys m) -> im_entries m = a ++ (k, v) :: b -> (k ∉ a.*1) /\ (k ∉ b.*1).
Proof.
  unfold keys. intros Hn E. rewrite E, fmap_app, fmap_cons in Hn. apply NoDup_app in Hn as (_ & Hd & Hc). cbn in Hc.
  apply NoDup_cons in Hc as [Hk _]. split; [|done]. intros Ha. apply (Hd k Ha). by left.
Qed.

Lemma im_new_ok K V n : map_ok (im_new (K := K) (V := V) (n := n)).
Proof. split; unfold keys; rewrite im_new_law; [constructor|cbn; lia]. Qed.

Lemma im_remove_ok {K V n} `{EqDecision K} (m : Map K V n) k : map_ok m ->
  map_ok (im_remove m k) /\ forall j, j ∈ keys (im_remove m k) <-> j ∈ keys m /\ j <> k.
Proof.
  intros [Hn Hl]. destruct (decide (k ∈ keys m)) as [Hk|Hk].
  - destruct (keys_split m k Hk) as (a & v & b & E). destruct (split_fresh m a k v b Hn E) as [Ha Hb].
    assert (im_entries (im_remove m k) ≡ₚ a ++ b) as Ep by (rewrite (im_remove_in m a b k v E Ha); by rewrite last_first_perm).
    unfold map_ok, keys in *. rewrite E in *. split.
    + rewrite Ep. rewrite !length_app in *. cbn in Hl. split; [|lia]. rewrite fmap_app, fmap_cons in *.
      apply NoDup_app in Hn as (H1 & H2 & H3). apply NoDup_cons in H3 as [H3 H4]. apply NoDup_app. split; [done|]. split; [|done].
      intros x Hx Hx'. apply (H2 x Hx). by right.
    + intros j. rewrite Ep, !fmap_app, fmap_cons, !elem_of_app, elem_of_cons. cbn. split; [|naive_solver].
      intros [Hj|Hj]; (split; [naive_solver|]); intros ->; done.
  - unfold map_ok, keys in *. rewrite im_remove_out by done. split; [done|]. intros j. split; [|naive_solver]. intros Hj. split; [done|]. by intros ->.
Qed.

Lemma im_get_in {K V n} `{EqDecision K} (m : Map K V n) k v : NoDup (keys m) -> im_get m k = Some v <-> (k, v) ∈ im_entries m.
Proof.
  unfold keys, im_get. generalize (im_entries m) as l. induction l as [|[k' v'] l IH]; cbn; intros Hn; [set_solver|].
  apply NoDup_cons in Hn as [Hk Hn]. case_bool_decide as E; cbn in *; rewrite elem_of_cons.
  - subst k'. split; [intros [= ->]; by left|]. intros [[= ->]|Hin]; [done|]. destruct Hk. apply list_elem_of_fmap. by exists (k, v).
  - rewrite IH by done. naive_solver.
Qed.

Lemma im_get_None {K V n} `{EqDecision K} (m : Map K V n) k : im_get m k = None <-> k ∉ keys m.
Proof.
  unfold keys, im_get. generalize (im_entries m) as l. induction l as [|[k' v'] l IH]; cbn; [set_solver|].
  case_bool_decide as E; cbn in *; rewrite elem_of_cons; [naive_solver|]. rewrite IH. naive_solver.
Qed.

Lemma im_get_ext {K V n} `{EqDecision K} (m m' : Map K V n) j : NoDup (keys m) -> NoDup (keys m') ->
  (forall v, (j, v) ∈ im_entries m <-> (j, v) ∈ im_entries m') -> im_get m j = im_get m' j.
Proof. intros Hn Hn' E. apply option_eq. intros v. rewrite !im_get_in by done. apply E. Qed.

Lemma im_insert_spec {K V n} `{EqDecision K} (m : Map K V n) k v : map_ok m ->
  match im_insert m k v with
  | Some m' => map_ok m' /\ (forall j, j ∈ keys m' <-> j ∈ keys m \/ j = k) /\ im_get m' k = Some v /\ forall j, j <> k -> im_get m' j = im_get m j
  | None => (k ∉ keys m) /\ length (im_entries m) = n
  end.
Proof.
  intros [Hn Hl]. destruct (decide (k ∈ keys m)) as [Hk|Hk].
  - destruct (keys_split m k Hk) as (a & v0 & b & E). destruct (split_fresh m a k v0 b Hn E) as [Ha Hb].
    destruct (im_insert_old m a b k v0 v E Ha) as (m' & -> & E').
    assert (keys m' = keys m) as Ek by (unfold keys; by rewrite E, E', !fmap_app).
    assert (map_ok m') as Hm by (unfold map_ok; rewrite Ek, E'; rewrite E in Hl; rewrite !length_app in *; done).
    split; [done|]. rewrite Ek. split; [naive_solver|]. destruct Hm as [Hn' _]. split; [apply im_get_in; [done|]; rewrite E'; set_solver|].
    intros j Hj. apply im_get_ext; [done..|]. intros u. rewrite E, E', !elem_of_app, !elem_of_cons. naive_solver.
  - destruct (decide (length (im_entries m) < n)%nat) as [Hlt|Hge]; [|rewrite im_insert_full by (done || lia); split; [done|lia]].
    destruct (im_insert_new m k v Hk Hlt) as (m' & -> & E').
    assert (keys m' = keys m ++ [k]) as Ek by (unfold keys; by rewrite E', fmap_app).
    assert (map_ok m') as Hm.
    { unfold map_ok. rewrite Ek, E', length_app. cbn. split; [|lia]. apply NoDup_app. split; [done|]. split; [set_solver|]. apply NoDup_singleton. }
    split; [done|]. rewrite Ek. split; [set_solver|]. destruct Hm as [Hn' _]. split; [apply im_get_in; [done|]; rewrite E'; set_solver|].
    intros j Hj. apply im_get_ext; [done..|]. intros u. rewrite E', elem_of_app, list_elem_of_singleton. naive_solver.
Qed.

(** ** Waking *)
Abbreviation threads := (gmap nat Thread).

Definition off (x : threads) (t : nat) : Prop := match x !! t with Some th => sync_sleep th = false | None => True end.

(** [x'] is [x] with the flags of [w] cleared, which were set. *)
Definition woke (w : list nat) (x x' : threads) : Prop :=
  NoDup w /\ (forall t, t ∈ w -> exists th, x !! t = Some th /\ sync_sleep th = true) /\
  forall t, x' !! t = if decide (t ∈ w) then sleep_off <$> x !! t else x !! t.

Lemma woke_nil x : woke [] x x.
Proof. split; [constructor|]. split; [set_solver|]. intros t. by rewrite decide_False by set_solver. Qed.

Lemma woke_app w1 w2 x x1 x2 : woke w1 x x1 -> woke w2 x1 x2 -> woke (w1 ++ w2) x x2.
Proof.
  intros (N1 & F1 & E1) (N2 & F2 & E2).
  assert (forall t, t ∈ w1 -> t ∈ w2 -> False) as Hd.
  { intros t H1 H2. destruct (F2 t H2) as (th & Et & Hs). rewrite E1, decide_True in Et by done.
    destruct (x !! t); [|done]. cbn in Et. by injection Et as <-. }
  split; [apply NoDup_app; split_and!; [done| |done]; intros t H1 H2; by apply (Hd t)|]. split.
  - intros t [Ht|Ht]%elem_of_app; [by apply F1|]. destruct (F2 t Ht) as (th & Et & Hs). rewrite E1, decide_False in Et by (intros ?; by apply (Hd t)).
    by exists th.
  - intros t. rewrite E2, E1. destruct (decide (t ∈ w1)), (decide (t ∈ w2)), (decide (t ∈ w1 ++ w2)); try done; exfalso; first [by apply (Hd t)|set_solver].
Qed.

Lemma woke_off w x x' t : woke w x x' -> off x t -> off x' t.
Proof. intros (_ & _ & E) Ho. unfold off. rewrite E. case_decide; [|done]. by destruct (x !! t). Qed.

Lemma woke_in w x x' t : woke w x x' -> t ∈ w -> off x' t.
Proof. intros (_ & _ & E) Ht. unfold off. rewrite E, decide_True by done. by destruct (x !! t). Qed.

(** Clearing one flag. *)
Lemma reset_woke x t b x' : reset_sync_sleep x t = (b, x') -> woke (if b then [t] else []) x x' /\ (b = false -> off x t) /\ off x' t.
Proof.
  unfold reset_sync_sleep. intros [= Eb <-]. assert (off (alter sleep_off t x) t) as Ho.
  { unfold off. rewrite lookup_alter_eq. by destruct (x !! t). }
  destruct b.
  - destruct (x !! t) as [th|] eqn:Et; [|done]. split; [|done]. split; [apply NoDup_singleton|]. split.
    + intros j ->%list_elem_of_singleton. by exists th.
    + intros j. rewrite lookup_alter. case_decide; subst; [by rewrite decide_True by set_solver|]. by rewrite decide_False by set_solver.
  - split; [|split; [|done]].
    + assert (alter sleep_off t x = x) as ->; [|apply woke_nil]. apply alter_id. intros th Et. rewrite Et in Eb. destruct th; cbn in *. by subst.
    + intros _. unfold off. by destruct (x !! t).
Qed.

(** ** Entries *)
Definition ekeys (e : SleepEntry) : list nat := keys (threads_of e).
Definition entry_ok (e : SleepEntry) : Prop := map_ok (threads_of e).

(** What code under a lock does to one entry: [w] are woken and leave it. *)
Record woke_entry (e : SleepEntry) x (e' : SleepEntry) x' (w : list nat) : Prop := {
  we_ok : entry_ok e';
  we_woke : woke w x x';
  we_keys : forall t, t ∈ ekeys e' <-> t ∈ ekeys e /\ t ∉ w;
  we_in : forall t, t ∈ w -> t ∈ ekeys e
}.

Lemma woke_entry_nil e x : entry_ok e -> woke_entry e x e x [].
Proof. intros Hok. split; [done|apply woke_nil| |by intros t ?%not_elem_of_nil]. intros t. split; [|naive_solver]. intros Ht. split; [done|]. apply not_elem_of_nil. Qed.

Lemma woke_entry_app e x e1 x1 w1 e2 x2 w2 : woke_entry e x e1 x1 w1 -> woke_entry e1 x1 e2 x2 w2 -> woke_entry e x e2 x2 (w1 ++ w2).
Proof.
  intros [O1 W1 K1 I1] [O2 W2 K2 I2]. split; [done|by eapply woke_app| |].
  - intros t. rewrite K2, K1, elem_of_app. naive_solver.
  - intros t [Ht|Ht]%elem_of_app; [by apply I1|]. apply I2, K1 in Ht. naive_solver.
Qed.

Lemma woke_entry_one e x id x1 a c : entry_ok e -> im_entries (threads_of e) = a ++ (id, tt) :: c -> reset_sync_sleep x id = (true, x1) ->
  woke_entry e x (mkEntry (im_remove (threads_of e) id)) x1 [id].
Proof.
  intros Hok Ea Er. destruct (im_remove_ok (threads_of e) id Hok) as [Hok1 Hk1]. destruct (reset_woke _ _ _ _ Er) as (Hw & _ & _). split; [done|done| |].
  - intros t. by rewrite Hk1, list_elem_of_singleton.
  - intros t ->%list_elem_of_singleton. unfold ekeys, keys. rewrite Ea, fmap_app, fmap_cons. apply elem_of_app. right. by left.
Qed.

Lemma woke_entry_length e x e' x' w : entry_ok e -> woke_entry e x e' x' w -> (length w <= SLEEPERS)%nat.
Proof.
  intros [Hn Hl] [_ (Hw & _) _ Hin]. transitivity (length (ekeys e)); [|by unfold ekeys, keys; rewrite length_fmap].
  apply submseteq_length, NoDup_submseteq; done.
Qed.

(** The entries before [idx] have their flags off. *)
Definition scanned (e : SleepEntry) x (idx : nat) : Prop := forall j t, (j < idx)%nat -> ekeys e !! j = Some t -> off x t.

Lemma wake_n_loop_spec fuel (e : SleepEntry) x max count idx woken : entry_ok e -> scanned e x idx ->
  (SLEEPERS - idx + length (im_entries (threads_of e)) < fuel)%nat ->
  exists e' x' w, wake_n_loop fuel e x max count idx woken = Ret (e', x', woken ++ w) /\ woke_entry e x e' x' w /\
    (Z.of_nat (count + length w) < max -> forall t, t ∈ ekeys e' -> off x' t).
Proof.
  revert e x count idx woken. induction fuel as [|f IH]; intros e x count idx woken Hok Hsc Hf; [lia|]. cbn [wake_n_loop].
  destruct (Nat.ltb_spec idx SLEEPERS) as [Hi|Hi].
  2:{ exists e, x, []. rewrite app_nil_r. split; [done|]. split; [by apply woke_entry_nil|].
      intros _ t [j Hk]%list_elem_of_lookup. apply (Hsc j t); [|done]. apply lookup_lt_Some in Hk. unfold ekeys, keys in Hk. rewrite length_fmap in Hk. destruct Hok. lia. }
  destruct (Z.leb_spec max (Z.of_nat count)) as [Hm|Hm].
  { exists e, x, []. rewrite app_nil_r. split; [done|]. split; [by apply woke_entry_nil|]. cbn. lia. }
  destruct (im_entries (threads_of e) !! idx) as [[id []]|] eqn:El.
  - destruct (reset_sync_sleep x id) as [b x1] eqn:Er. destruct (reset_woke _ _ _ _ Er) as (Hw & Hf0 & Hoff). destruct b.
    + apply list_elem_of_split_length in El as (a & c & Ea & Hla). pose proof (woke_entry_one e x id x1 a c Hok Ea Er) as Hwe.
      destruct (split_fresh (threads_of e) a id tt c (proj1 Hok) Ea) as [Ha Hc]. pose proof (im_remove_in (threads_of e) a c id tt Ea Ha) as Erm.
      destruct (IH (mkEntry (im_remove (threads_of e) id)) x1 (S count) idx (woken ++ [id])) as (e' & x' & w & -> & Hwe' & Hall).
      * apply Hwe.
      * intros j t Hj Hk. eapply woke_off; [exact Hw|]. apply (Hsc j t Hj). unfold ekeys, keys in *. cbn [threads_of] in Hk. rewrite Erm in Hk. rewrite Ea.
        rewrite fmap_app in *. rewrite lookup_app_l in Hk by (rewrite length_fmap; lia). by rewrite lookup_app_l by (rewrite length_fmap; lia).
      * cbn [threads_of]. rewrite Erm, length_app, last_first_perm. rewrite Ea, length_app in Hf. cbn [length] in Hf. lia.
      * exists e', x', (id :: w). rewrite <- app_assoc. split; [done|]. split; [by apply (woke_entry_app e x (mkEntry (im_remove (threads_of e) id)) x1 [id])|].
        cbn [length]. intros Hlt. apply Hall. lia.
    + assert (x1 = x) as ->.
      { apply map_eq. intros t. destruct Hw as (_ & _ & E). rewrite E. by rewrite decide_False by apply not_elem_of_nil. }
      destruct (IH e x count (S idx) woken Hok) as (e' & x' & w & E' & Hwe & Hall); [|lia|by exists e', x', w].
      intros j t Hj Hk. destruct (decide (j = idx)) as [->|]; [|apply (Hsc j t); [lia|done]].
      unfold ekeys, keys in Hk. rewrite list_lookup_fmap, El in Hk. by injection Hk as <-.
  - destruct (IH e x count (S idx) woken Hok) as (e' & x' & w & E' & Hwe & Hall); [|lia|by exists e', x', w].
    intros j t Hj Hk. destruct (decide (j = idx)) as [->|]; [|apply (Hsc j t); [lia|done]].
    unfold ekeys, keys in Hk. by rewrite list_lookup_fmap, El in Hk.
Qed.

Lemma wake_n_spec (e : SleepEntry) x max : entry_ok e -> exists e' x' w, wake_n e x max = Ret (e', x', w) /\ woke_entry e x e' x' w /\
  (Z.of_nat (length w) < max -> forall t, t ∈ ekeys e' -> off x' t).
Proof. intros Hok. apply (wake_n_loop_spec _ e x max 0 0 []); [done| |lia]. intros j t Hj. lia. Qed.

(** ** Entering a thread *)
Lemma add_thread_spec fuel (e : SleepEntry) x t : entry_ok e ->
  match add_thread fuel e x t with
  | Ret (e', x', w) => entry_ok e' /\ woke w x x' /\ t ∈ ekeys e' /\ forall j, j ∈ ekeys e -> j ∈ ekeys e' \/ off x' j
  | Panic => False
  | NoFuel => True
  end.
Proof.
  revert e x. induction fuel as [|f IH]; intros e x Hok; cbn [add_thread]; pose proof (im_insert_spec (threads_of e) t tt Hok) as Hi;
    (destruct (im_insert (threads_of e) t tt) as [e1|]; [destruct Hi as (Hok1 & Hk & _); split; [done|]; split; [apply woke_nil|]; split; [apply Hk; by right|];
       intros j Hj; left; apply Hk; by left|]); [done|].
  destruct (wake_n_spec e x 2 Hok) as (e1 & x1 & w & -> & [O1 W1 K1 I1] & _). cbn [obind]. specialize (IH e1 x1 O1).
  destruct (add_thread f e1 x1 t) as [[[e2 x2] w2]| |]; cbn [obind]; [|done..]. destruct IH as (O2 & W2 & Ht & Hj). split; [done|].
  split; [by eapply woke_app|]. split; [done|]. intros j Hin. destruct (decide (j ∈ w)) as [Hw|Hw].
  - right. eapply woke_off; [done|]. by eapply woke_in.
  - apply Hj, K1. done.
Qed.

Lemma entry_new_ok t : entry_ok (SleepEntry_new t) /\ t ∈ ekeys (SleepEntry_new t).
Proof.
  unfold SleepEntry_new. pose proof (im_insert_spec (im_new : Map nat unit SLEEPERS) t tt (im_new_ok _ _ _)) as Hi.
  destruct (im_insert _ t tt) as [e|]; cbn.
  - destruct Hi as (Hok & Hk & _). split; [done|]. apply Hk. by right.
  - destruct Hi as [_ Hl]. by rewrite im_new_law in Hl.
Qed.

(** Dropping entries clears the flag of every thread in them. *)
Lemma drop_loop_spec (l : list (nat * unit)) x w0 : exists x' w,
  foldl (fun '(ths, w) '(id, _) => let '(b, ths) := reset_sync_sleep ths id in (ths, if b : bool then w ++ [id] else w)) (x, w0) l = (x', w0 ++ w) /\
  woke w x x' /\ forall t, t ∈ l.*1 -> off x' t.
Proof.
  revert x w0. induction l as [|[id []] l IH]; intros x w0; cbn [foldl].
  { exists x, []. rewrite app_nil_r. split; [done|]. split; [apply woke_nil|]. by intros t ?%not_elem_of_nil. }
  destruct (reset_sync_sleep x id) as [b x1] eqn:Er. destruct (reset_woke _ _ _ _ Er) as (Hw & _ & Hoff).
  destruct (IH x1 (if b then w0 ++ [id] else w0)) as (x' & w & E & Hw' & Hall).
  exists x', ((if b then [id] else []) ++ w). split; [|split; [by eapply woke_app|]].
  - rewrite E. f_equal. destruct b; [by rewrite <- app_assoc|done].
  - intros t [->|Ht]%elem_of_cons; [by eapply woke_off|by apply Hall].
Qed.

Lemma entry_drop_spec (e : SleepEntry) x : exists x' w, entry_drop e x = (x', w) /\ woke w x x' /\ forall t, t ∈ ekeys e -> off x' t.
Proof. apply (drop_loop_spec (im_entries (threads_of e)) x []). Qed.

Lemma clear_words_spec (l : list (Z * SleepEntry)) x w0 : exists x' w,
  foldl (fun '(ths, w) '(_, e) => let '(ths, w') := entry_drop e ths in (ths, w ++ w')) (x, w0) l = (x', w0 ++ w) /\
  woke w x x' /\ forall a e t, (a, e) ∈ l -> t ∈ ekeys e -> off x' t.
Proof.
  revert x w0. induction l as [|[a e] l IH]; intros x w0; cbn [foldl].
  { exists x, []. rewrite app_nil_r. split; [done|]. split; [apply woke_nil|]. by intros a e t ?%not_elem_of_nil. }
  destruct (entry_drop_spec e x) as (x1 & w1 & -> & Hw & Hoff). destruct (IH x1 (w0 ++ w1)) as (x' & w & E & Hw' & Hall).
  exists x', (w1 ++ w). split; [by rewrite E, app_assoc|]. split; [by eapply woke_app|].
  intros b e' t [[= -> ->]|Hin]%elem_of_cons Ht; [by eapply woke_off, Hoff|by eapply Hall].
Qed.

(** ** The table of an object *)
Definition info_ok (si : SleepInfo) : Prop :=
  match more_words si with
  | Some ws => forall a e, ws !! a = Some e -> entry_ok e
  | None => map_ok (some_words si) /\ forall a e, im_get (some_words si) a = Some e -> entry_ok e
  end.

Definition in_entry (si : SleepInfo) (a : Z) (t : nat) : Prop := exists e, word si a = Some e /\ t ∈ ekeys e.

Lemma info_new_ok : info_ok SleepInfo_new.
Proof.
  split; [apply im_new_ok|]. intros a e He. assert (im_get (some_words SleepInfo_new) a = None) as Hn; [|by rewrite He in Hn].
  apply im_get_None. cbn. unfold ekeys, keys. rewrite im_new_law. apply not_elem_of_nil.
Qed.

Lemma word_ok si a (e : SleepEntry) : info_ok si -> word si a = Some e -> entry_ok e.
Proof. unfold info_ok, word. destruct (more_words si); [eauto|]. intros [_ Hi]. apply Hi. Qed.

Lemma put_word_spec si a (e0 e : SleepEntry) : info_ok si -> word si a = Some e0 -> entry_ok e ->
  info_ok (put_word si a e) /\ word (put_word si a e) a = Some e /\ forall b, b <> a -> word (put_word si a e) b = word si b.
Proof.
  unfold info_ok, word, put_word. destruct (more_words si) as [ws|]; cbn [more_words some_words].
  - intros Hi _ He. split; [intros b e' [[<- <-]|[_ Hb]]%lookup_insert_Some; [done|by eapply Hi]|].
    split; [by rewrite lookup_insert_eq|]. intros b Hb. by rewrite lookup_insert_ne by done.
  - intros [Hm Hi] Ha He. destruct (im_insert (some_words si) a e) as [ws|] eqn:Ews; pose proof (im_insert_spec (some_words si) a e Hm) as Hs; rewrite Ews in Hs; cbn.
    2:{ destruct Hs as [Hs _]. apply im_get_None in Hs. by rewrite Ha in Hs. }
    destruct Hs as (Hm' & _ & Hget & Hoth).
    split; [|done]. split; [done|]. intros b e' Hb. destruct (decide (b = a)) as [->|Hne]; [rewrite Hget in Hb; by injection Hb as <-|].
    rewrite Hoth in Hb by done. by eapply Hi.
Qed.

(** Code under the lock: the flags of [w] are cleared, and a thread leaves an entry only
    with its flag off. *)
Record section_ok (si : SleepInfo) x (si' : SleepInfo) x' (w : list nat) : Prop := {
  so_ok : info_ok si';
  so_woke : woke w x x';
  so_stay : forall a t, in_entry si a t -> in_entry si' a t \/ off x' t
}.

(** A change of the entry of one word. *)
Lemma section_word si x a (e0 e : SleepEntry) x' w : info_ok si -> word si a = Some e0 -> entry_ok e -> woke w x x' ->
  (forall t, t ∈ ekeys e0 -> t ∈ ekeys e \/ off x' t) -> section_ok si x (put_word si a e) x' w.
Proof.
  intros Hi Ha He Hw Hk. destruct (put_word_spec si a e0 e Hi Ha He) as (Hi' & Hp & Ho). split; [done..|].
  intros b t (e1 & Hb & Ht). destruct (decide (b = a)) as [->|Hne].
  - rewrite Ha in Hb. injection Hb as <-. destruct (Hk t Ht) as [Hin|]; [left; by exists e|by right].
  - left. exists e1. by rewrite Ho.
Qed.

Lemma si_wake_n_spec si x a max : info_ok si -> exists si' x' w, si_wake_n si x a max = Ret (si', x', w) /\ section_ok si x si' x' w /\
  (Z.of_nat SLEEPERS < max -> forall t, in_entry si a t -> off x' t).
Proof.
  intros Hi. unfold si_wake_n. destruct (word si a) as [e|] eqn:Ea.
  - destruct (wake_n_spec e x max (word_ok _ _ _ Hi Ea)) as (e' & x' & w & -> & [O W K I] & Hall). cbn [obind].
    eexists _, x', w. split; [done|]. split.
    + eapply section_word; [done..|]. intros t Ht. destruct (decide (t ∈ w)); [right; by eapply woke_in|]. left. by apply K.
    + intros Hlt t (e1 & He1 & Ht). rewrite Ea in He1. injection He1 as <-.
      assert (length w <= SLEEPERS)%nat by (by eapply (woke_entry_length e x e' x' w); [eapply word_ok|]).
      destruct (decide (t ∈ w)); [by eapply woke_in|]. apply Hall; [lia|]. by apply K.
  - exists si, x, []. split; [done|]. split; [split; [done|apply woke_nil|auto]|]. intros _ t (e1 & He1 & _). by rewrite Ea in He1.
Qed.

Lemma section_more si x a t x' w : info_ok si -> more_words si = None -> woke w x x' ->
  (forall b e j, (b, e) ∈ im_entries (some_words si) -> j ∈ ekeys e -> off x' j) ->
  section_ok si x (mkInfo im_new (Some {[a := SleepEntry_new t]})) x' w.
Proof.
  intros Hi Hm Hw Hall. destruct (entry_new_ok t) as [Hn _]. unfold info_ok in Hi. rewrite Hm in Hi. split; [|done|].
  - intros b e [<- <-]%lookup_singleton_Some. done.
  - intros b j (e & He & Hj). right. unfold word in He. rewrite Hm in He. eapply Hall; [|done]. apply im_get_in; [apply Hi|exact He].
Qed.

Lemma si_insert_spec fuel si x a t : info_ok si ->
  match si_insert fuel si x a t with
  | Ret (si', x', w) => section_ok si x si' x' w /\ in_entry si' a t
  | Panic => False
  | NoFuel => True
  end.
Proof.
  intros Hi. destruct (entry_new_ok t) as [Hn Htn]. unfold si_insert. destruct (word si a) as [e|] eqn:Ea.
  - pose proof (add_thread_spec fuel e x t (word_ok _ _ _ Hi Ea)) as Ha. destruct (add_thread fuel e x t) as [[[e' x'] w]| |]; cbn [obind]; [|done..].
    destruct Ha as (O & W & Ht & Hk). split; [by eapply section_word|]. exists e'. split; [|done]. by eapply put_word_spec.
  - unfold info_ok, word in Hi, Ea. destruct (more_words si) as [ws|] eqn:Em.
    + split; [|exists (SleepEntry_new t); split; [apply lookup_insert_eq|done]]. split; cbn; [|apply woke_nil|].
      * intros b e [[<- <-]|[_ Hb]]%lookup_insert_Some; [done|by eapply Hi].
      * intros b j (e & He & Hj). unfold word in He. rewrite Em in He. left. exists e. unfold word. cbn. rewrite lookup_insert_ne by congruence. done.
    + destruct Hi as [Hm Hi]. pose proof (im_insert_spec (some_words si) a (SleepEntry_new t) Hm) as Hs.
      destruct (im_insert (some_words si) a (SleepEntry_new t)) as [ws|].
      * destruct Hs as (Hm' & _ & Hget & Hoth). split; [|exists (SleepEntry_new t); done]. split; cbn; [|apply woke_nil|].
        -- split; [done|]. intros b e Hb. destruct (decide (b = a)) as [->|Hne]; [rewrite Hget in Hb; by injection Hb as <-|]. rewrite Hoth in Hb by done. by eapply Hi.
        -- intros b j (e & He & Hj). unfold word in He. rewrite Em in He. left. exists e. unfold word. cbn. rewrite Hoth; [done|congruence].
      * unfold clear_words. destruct (clear_words_spec (im_entries (some_words si)) x []) as (x' & w & -> & Hw & Hall). cbn [app].
        split; [|exists (SleepEntry_new t); unfold word; cbn; by rewrite lookup_singleton_eq].
        apply section_more; [unfold info_ok; by rewrite Em|done|done|done].
Qed.

Lemma si_remove_spec si a t : info_ok si -> info_ok (si_remove si a t) /\ forall b j, j <> t -> in_entry si b j -> in_entry (si_remove si a t) b j.
Proof.
  intros Hi. unfold si_remove. destruct (word si a) as [e|] eqn:Ea; [|done].
  destruct (im_remove_ok (threads_of e) t (word_ok _ _ _ Hi Ea)) as [Hok Hk]. destruct (put_word_spec si a e (mkEntry (im_remove (threads_of e) t)) Hi Ea Hok) as (Hi' & Hp & Ho). split; [done|].
  intros b j Hj (e1 & He1 & Hin). destruct (decide (b = a)) as [->|Hne]; [|exists e1; by rewrite Ho].
  rewrite Ea in He1. injection He1 as <-. exists (mkEntry (im_remove (threads_of e) t)). split; [done|]. by apply Hk.
Qed.
End maps.

(** ** The state of a thread in a call *)
Section system.
Context `{IndexMap Map} {mem : Type} (load : mem -> bool -> nat -> Z -> Z) (exists_obj : nat -> bool) (vm : nat -> Z -> option nat).

(** Not yet dispatched after leaving the processor. *)
Definition before (st : stage) : bool :=
  match st with Undo | ResetDone | ResetSleep | Unqueue => false | _ => true end.

Definition crit_of (p : pc) : nat :=
  match p with At (SetDone | SelfWake | Requeue2 | Unguard | Park) _ => 1 | _ => 0 end.

(** Whether the thread has set its flag in this call and is not back from it. *)
Definition flag_of (p : pc) : bool :=
  match p with
  | Loop _ c | Locked _ _ _ _ c => flagged c
  | At st c => before st && flagged c
  | Out | WakeRequeue => false
  end.

(** The words it is to be entered at. *)
Definition words_of (p : pc) : list (nat * Z) :=
  match p with
  | Loop _ c | Locked _ _ _ _ c => unsleeps c
  | At st c => if before st then unsleeps c else []
  | Out | WakeRequeue => []
  end.

Definition call_ok (c : call) : Prop :=
  match c_kind c with
  | Timed => flagged c = true /\ unsleeps c = []
  | _ => flagged c = bool_decide (unsleeps c <> [])
  end.

(** Addresses that can be made a [VirtAddr]. *)
Definition ref_ok (r : ThreadSyncReference) : bool :=
  match r with ObjectRef _ _ => true | Virtual a | Virtual32 a => canonical a end.

Definition op_ok (op : ThreadSync) : bool :=
  ref_ok (match op with Sleep sl => sl_reference sl | Wake wk => wk_reference wk end).

Definition pc_ok (p : pc) : Prop :=
  match p with
  | Loop todo c =>
      call_ok c /\ Forall (fun op => op_ok op = true) todo /\ (c_kind c <> Timed) /\ (c_kind c = Single -> unsleeps c = [] /\ todo <> [])
  | Locked _ _ _ todo c =>
      call_ok c /\ Forall (fun op => op_ok op = true) todo /\ (c_kind c <> Timed) /\ (c_kind c = Single -> unsleeps c = [])
  | At Unguard c => call_ok c /\ c_kind c = General /\ unsleeps c = []
  | At (Park | Asleep) c => call_ok c /\ flagged c = true
  | At st c => before st = true -> call_ok c /\ (c_kind c = Single -> flagged c = true)
  | Out | WakeRequeue => True
  end.

(** The threads on their way through [add_to_requeue], and not yet scheduled. *)
Definition names (t : nat) (h : hand) : bool :=
  match h with HAdd j | HDone j | HList j => bool_decide (j = t) | HLate _ => false end.

Definition in_hands (hs : list hand) (t : nat) : nat := length (List.filter (names t) hs).

Record thread_ok (th : Thread) (p : pc) (n : nat) (r : bool) : Prop := {
  t_critical : critical th = crit_of p;
  t_place : (Nat.b2n (sync_sleep th) + n + Nat.b2n r + Nat.b2n (ready th))%nat = Nat.b2n (flag_of p);
  t_done : match p with
           | At (SelfWake | Requeue2 | Unguard | Park | Asleep) _ => sync_sleep_done th = negb (ready th)
           | At (Undo | ResetDone) _ => True
           | _ => sync_sleep_done th = false /\ ready th = false
           end;
  t_pc : pc_ok p
}.

Abbreviation threads := (gmap nat Thread).
Abbreviation sys := (sys (Map := Map) (mem := mem)).

Definition entered (os : gmap nat SleepInfo) (t : nat) (w : nat * Z) : Prop := in_entry (default SleepInfo_new (os !! w.1)) w.2 t.

(** What holds of thread [t]. *)
Definition holds_for (os : gmap nat SleepInfo) (x : threads) (q : gset nat) (hs : list hand) (ps : gmap nat pc) (t : nat) : Prop :=
  match x !! t, ps !! t with
  | Some th, Some p =>
      thread_ok th p (in_hands hs t) (bool_decide (t ∈ q)) /\
      (sync_sleep th = true -> Forall (entered os t) (words_of p))
  | None, None => in_hands hs t = 0%nat /\ t ∉ q
  | _, _ => False
  end.

Record Inv (s : sys) : Prop := {
  inv_info : forall o, info_ok (info s o);
  inv_threads : forall t, holds_for (objs s) (ths s) (requeue s) (hands s) (pcs s) t
}.

Lemma in_hands_app hs hs' t : in_hands (hs ++ hs') t = (in_hands hs t + in_hands hs' t)%nat.
Proof. unfold in_hands. by rewrite List.filter_app, length_app. Qed.

Lemma in_hands_woken w t : NoDup w -> in_hands (HAdd <$> w) t = Nat.b2n (bool_decide (t ∈ w)).
Proof.
  unfold in_hands. induction 1 as [|j w Hj _ IH]; [done|]. rewrite fmap_cons. cbn [List.filter].
  change (names t (HAdd j)) with (bool_decide (j = t)). destruct (decide (j = t)) as [->|Hne].
  - rewrite bool_decide_true by done. cbn [length]. rewrite IH, (bool_decide_false (t ∈ w)), bool_decide_true; [done|by left|done].
  - rewrite bool_decide_false by done. rewrite IH. f_equal. apply bool_decide_ext. rewrite elem_of_cons. naive_solver.
Qed.

(** Replacing or removing one hand. *)
Lemma in_hands_split hs k h t : hs !! k = Some h -> in_hands hs t = (in_hands (delete k hs) t + Nat.b2n (names t h))%nat.
Proof.
  intros Hk. rewrite <- (take_drop_middle hs k h Hk) at 1. rewrite delete_take_drop, !in_hands_app. unfold in_hands at 2 4. cbn.
  destruct (names t h); cbn; lia.
Qed.

Lemma in_hands_insert hs k h h' t : hs !! k = Some h -> in_hands (<[k := h']> hs) t = (in_hands (delete k hs) t + Nat.b2n (names t h'))%nat.
Proof.
  intros Hk. pose proof (lookup_lt_Some _ _ _ Hk) as Hl. rewrite (in_hands_split (<[k := h']> hs) k h' t) by (by apply list_lookup_insert_eq).
  f_equal. f_equal. rewrite !delete_take_drop, take_insert_ge by lia. f_equal. apply list_eq. intros i.
  rewrite !lookup_drop. by rewrite list_lookup_insert_ne by lia.
Qed.

(** ** Parts of the state that a step leaves alone *)

(** Threads other than those whose flag, place or program counter changes. *)
Lemma holds_same os x q hs ps os' x' q' hs' ps' t :
  holds_for os x q hs ps t -> x' !! t = x !! t -> ps' !! t = ps !! t -> in_hands hs' t = in_hands hs t -> (t ∈ q' <-> t ∈ q) ->
  (forall th, x !! t = Some th -> sync_sleep th = true -> forall w, entered os t w -> entered os' t w) -> holds_for os' x' q' hs' ps' t.
Proof.
  unfold holds_for. intros Hh -> -> -> Hq He. rewrite (bool_decide_ext _ _ Hq).
  destruct (x !! t) as [th|], (ps !! t) as [p|]; [|done..|rewrite Hq; done]. destruct Hh as [Hok Hw]. split; [done|].
  intros Hs. eapply Forall_impl; [by apply Hw|]. intros w Hin. by eapply He.
Qed.

(** Clearing the flags of [w] and taking them in hand keeps the invariant of every thread,
    if a thread leaves an entry only with its flag off. *)
Lemma holds_woke os x q hs ps os' x' w t : holds_for os x q hs ps t -> woke w x x' ->
  (forall v, entered os t v -> entered os' t v \/ off x' t) -> holds_for os' x' q (hs ++ (HAdd <$> w)) ps t.
Proof.
  unfold holds_for. intros Hh (Hn & Hfl & Ex) Hst.
  rewrite in_hands_app, in_hands_woken by done. pose proof (Ex t) as Et. destruct (decide (t ∈ w)) as [Hw|Hw].
  - rewrite bool_decide_true by done. destruct (Hfl t Hw) as (th & Ext & Hs). rewrite Et, Ext in *. cbn. destruct (ps !! t) as [p|]; [|done].
    destruct Hh as [[T1 T2 T3 T4] _]. split; [|done]. split; cbn; [done| |done|done]. rewrite Hs in T2. cbn in T2. lia.
  - rewrite bool_decide_false by done. rewrite Nat.add_0_r. unfold off in Hst. rewrite Et in *. destruct (x !! t) as [th|] eqn:Ext, (ps !! t) as [p|]; [|done..].
    destruct Hh as [Hok Hwd]. split; [done|]. intros Hs. eapply Forall_impl; [by apply Hwd|]. intros v Hin.
    destruct (Hst v Hin) as [|Ho]; [done|]. congruence.
Qed.

Lemma holds_locked os x q hs ps o si' x' w t : holds_for os x q hs ps t -> section_ok (default SleepInfo_new (os !! o)) x si' x' w ->
  holds_for (<[o := si']> os) x' q (hs ++ (HAdd <$> w)) ps t.
Proof.
  intros Hh [_ Hw Hst]. eapply holds_woke; [done..|]. intros [o' a] Hin. unfold entered in *. cbn in *.
  destruct (decide (o' = o)) as [->|Hne]; [|left; by rewrite lookup_insert_ne by done]. rewrite lookup_insert_eq. by apply Hst.
Qed.

Lemma inv_woke s x' w : Inv s -> woke w (ths s) x' -> Inv (mkSys (objs s) x' (requeue s) (hands s ++ (HAdd <$> w)) (pcs s) (memory s)).
Proof. intros [H1 H2] Hw. split; [done|]. intros t. cbn. eapply holds_woke; [done..|]. by left. Qed.

Lemma sync_inv_locked s o si' x' w : Inv s -> section_ok (info s o) (ths s) si' x' w -> Inv (locked s o si' x' w).
Proof.
  intros [H1 H2] Hs. split.
  - intros o'. unfold info. cbn. destruct (decide (o' = o)) as [->|Hne]; [rewrite lookup_insert_eq; apply Hs|rewrite lookup_insert_ne by done; apply H1].
  - intros t. cbn. by apply (holds_locked (objs s) (ths s)).
Qed.

(** A step of thread [t] alone. *)
Lemma inv_thread s t th p x' p' q' hs' :
  Inv s -> ths s !! t = Some th -> pcs s !! t = Some p ->
  (forall j, j <> t -> x' !! j = ths s !! j /\ in_hands hs' j = in_hands (hands s) j /\ (j ∈ q' <-> j ∈ requeue s)) ->
  (exists th', x' !! t = Some th' /\ thread_ok th' p' (in_hands hs' t) (bool_decide (t ∈ q')) /\
     forall w, w ∈ words_of p' -> sync_sleep th' = true -> sync_sleep th = true /\ w ∈ words_of p) ->
  Inv (mkSys (objs s) x' q' hs' (<[t := p']> (pcs s)) (memory s)).
Proof.
  intros [H1 H2] Ht Hp Hoth (th' & Et & Hok & Hw). split; [done|]. intros j. cbn. destruct (decide (j = t)) as [->|Hne].
  - specialize (H2 t). unfold holds_for in *. rewrite Et, lookup_insert_eq. rewrite Ht, Hp in H2. destruct H2 as [_ Hen]. split; [done|].
    intros Hs. apply Forall_forall. intros w Hin. destruct (Hw w Hin Hs) as [Hs0 Hin0]. specialize (Hen Hs0). rewrite Forall_forall in Hen. auto.
  - destruct (Hoth j Hne) as (Ex & Eh & Eq). eapply holds_same; [apply H2|done|by rewrite lookup_insert_ne by done|done|done|auto].
Qed.

(** ** The requeue list *)
Lemma requeue_one_ok os x q hs ps t : (forall j, holds_for os x q hs ps j) -> t ∈ q ->
  exists q' x', requeue_one (Ret (q, x)) t = Ret (q', x') /\ (forall j, holds_for os x' q' hs ps j) /\
    (forall j, j <> t -> x' !! j = x !! j /\ (j ∈ q' <-> j ∈ q)) /\
    (forall c, ps !! t = Some (At Asleep c) -> exists th, x' !! t = Some th /\ ready th = true).
Proof.
  intros Hall Hq. pose proof (Hall t) as Ht. unfold holds_for in Ht. destruct (x !! t) as [th|] eqn:Et, (ps !! t) as [p|] eqn:Ep; [|done..|naive_solver].
  destruct Ht as [[T1 T2 T3 T4] Hen]. rewrite bool_decide_true in T2 by done. cbn [requeue_one obind]. unfold is_critical. rewrite Et, T1.
  assert (ready th = false /\ sync_sleep th = false /\ in_hands hs t = 0%nat /\ flag_of p = true) as (Hr & Hs & Hh & Hf).
  { destruct (ready th), (sync_sleep th), (flag_of p); cbn in T2; lia. }
  destruct (Nat.ltb_spec 0 (crit_of p)) as [Hc|Hc]; cbn [negb].
  { exists q, x. split; [done|]. split; [done|]. split; [done|]. intros c [= ->]. cbn in Hc. lia. }
  unfold reset_sync_sleep_done. rewrite Et. destruct (sync_sleep_done th) eqn:Ed.
  - unfold schedule_thread. rewrite lookup_alter_eq, Et. cbn. rewrite Hr. cbn. eexists _, _. split; [done|]. split; [|split].
    + intros j. destruct (decide (j = t)) as [->|Hne].
      * unfold holds_for. rewrite lookup_insert_eq, Ep, bool_decide_false by set_solver. split; [|cbn; by rewrite Hs].
        split; cbn; [done|rewrite Hs, Hh, Hf; done| |done].
        destruct p as [| | | |[] c]; cbn in *; destruct T3; try done; congruence.
      * eapply holds_same; [apply Hall|by rewrite lookup_insert_ne, lookup_alter_ne by done|done|done|set_solver|auto].
    + intros j Hne. split; [by rewrite lookup_insert_ne, lookup_alter_ne by done|set_solver].
    + intros c _. rewrite lookup_insert_eq. by eexists.
  - assert (alter done_off t x = x) as ->. { apply alter_id. intros th' E'. rewrite Et in E'. injection E' as <-. destruct th; cbn in *. by subst. }
    eexists _, _. split; [done|]. split; [done|]. split; [done|]. intros c [= ->]. cbn in T3. by rewrite Hr in T3.
Qed.

Lemma requeue_loop_ok os hs ps l : forall x q, (forall j, holds_for os x q hs ps j) -> NoDup l -> (forall t, t ∈ l -> t ∈ q) ->
  exists q' x', foldl requeue_one (Ret (q, x)) l = Ret (q', x') /\ (forall j, holds_for os x' q' hs ps j) /\
    (forall j, j ∉ l -> x' !! j = x !! j) /\
    (forall t c, t ∈ l -> ps !! t = Some (At Asleep c) -> exists th, x' !! t = Some th /\ ready th = true).
Proof.
  induction l as [|t l IH]; intros x q Hall Hn Hin.
  { exists q, x. split; [done|]. split; [done|]. split; [done|]. by intros t c ?%not_elem_of_nil. }
  apply NoDup_cons in Hn as [Ht Hn]. destruct (requeue_one_ok os x q hs ps t Hall) as (q1 & x1 & E1 & Hall1 & Hoth & Hr); [apply Hin; by left|].
  change (foldl requeue_one (Ret (q, x)) (t :: l)) with (foldl requeue_one (requeue_one (Ret (q, x)) t) l). rewrite E1.
  destruct (IH x1 q1 Hall1 Hn) as (q' & x' & E & Hall' & Hsame & Hrun).
  { intros j Hj. apply Hoth; [by intros ->|]. apply Hin. by right. }
  exists q', x'. split; [done|]. split; [done|]. split.
  - intros j Hj. apply not_elem_of_cons in Hj as [Hne Hj]. rewrite Hsame by done. by apply Hoth.
  - intros j c [->|Hj]%elem_of_cons Hp; [|by eapply Hrun]. rewrite Hsame by done. by eapply Hr.
Qed.

Lemma requeue_all_ok s : Inv s -> exists s', requeue_all s = Ret s' /\ Inv s' /\ objs s' = objs s /\ hands s' = hands s /\ pcs s' = pcs s /\ memory s' = memory s /\
  (forall t c, t ∈ requeue s -> pcs s !! t = Some (At Asleep c) -> exists th, ths s' !! t = Some th /\ ready th = true) /\
  (forall t, t ∉ requeue s -> ths s' !! t = ths s !! t).
Proof.
  intros [H1 H2]. unfold requeue_all.
  destruct (requeue_loop_ok (objs s) (hands s) (pcs s) (elements (requeue s)) (ths s) (requeue s)) as (q' & x' & -> & Hall & Hsame & Hr).
  { done. } { apply NoDup_elements. } { intros t. by rewrite elem_of_elements. }
  cbn [obind]. eexists. split; [done|]. split; [by split|]. do 4 (split; [done|]). split.
  - intros t c Ht Hp. eapply Hr; [by apply elem_of_elements|done].
  - intros t Ht. apply Hsame. by rewrite elem_of_elements.
Qed.

(** A change that concerns only the place of thread [t]. *)
Lemma inv_place s t th p x' q' hs' : Inv s -> ths s !! t = Some th -> pcs s !! t = Some p ->
  (forall j, j <> t -> x' !! j = ths s !! j /\ in_hands hs' j = in_hands (hands s) j /\ (j ∈ q' <-> j ∈ requeue s)) ->
  (exists th', x' !! t = Some th' /\ thread_ok th' p (in_hands hs' t) (bool_decide (t ∈ q')) /\ (sync_sleep th' = true -> sync_sleep th = true)) ->
  Inv (mkSys (objs s) x' q' hs' (pcs s) (memory s)).
Proof.
  intros Hi Ht Hp Hoth (th' & Et & Hok & Hs). rewrite <- (insert_id (pcs s) t p Hp). eapply (inv_thread s t th p); [done..|].
  exists th'. split; [done|]. split; [done|]. intros w Hin Hs'. split; [by apply Hs|done].
Qed.

Definition hand_of (h : hand) : nat := match h with HAdd t | HDone t | HList t | HLate t => t end.

Lemma names_ne h j : j <> hand_of h -> names j h = false.
Proof. destruct h as [t|t|t|t]; cbn; intros Hj; try done; apply bool_decide_false; congruence. Qed.

(** A thread in somebody's hands. *)
Lemma in_hands_thread s t k h : Inv s -> hands s !! k = Some h -> names t h = true ->
  exists th p, ths s !! t = Some th /\ pcs s !! t = Some p /\ sync_sleep th = false /\ ready th = false /\ (t ∉ requeue s) /\ flag_of p = true /\
    in_hands (delete k (hands s)) t = 0%nat /\ thread_ok th p (in_hands (hands s) t) (bool_decide (t ∈ requeue s)).
Proof.
  intros [_ H2] Hk Hn. specialize (H2 t). unfold holds_for in H2. rewrite (in_hands_split _ k h t Hk), Hn in *. cbn in H2.
  destruct (ths s !! t) as [th|], (pcs s !! t) as [p|]; [|done..|destruct H2; lia]. destruct H2 as [Hok _]. exists th, p.
  pose proof (t_place _ _ _ _ Hok) as Hp. case_bool_decide as Hq; destruct (sync_sleep th), (ready th), (flag_of p); cbn in *; try lia.
  split_and!; done || lia.
Qed.

Lemma hand_others (s : sys) k h h' j : hands s !! k = Some h -> hand_of h' = hand_of h -> j <> hand_of h ->
  in_hands (<[k := h']> (hands s)) j = in_hands (hands s) j /\ in_hands (delete k (hands s)) j = in_hands (hands s) j.
Proof.
  intros Hk He Hj. rewrite (in_hands_insert _ k h h' j Hk), (in_hands_split (hands s) k h j Hk).
  rewrite (names_ne h), (names_ne h') by congruence. cbn. lia.
Qed.

(** The fields of an updated state. *)
#[local] Ltac fields := unfold set_hands, set_ths, set_requeue, set_pc; cbn [objs ths requeue hands pcs memory].

Definition late_hit (s : sys) (k : nat) : bool :=
  match hands s !! k with Some (HLate t) => bool_decide (t ∈ requeue s) | _ => false end.

Lemma hand_step_ok s k : Inv s -> late_hit s k = false -> exists s', hand_step s k = Ret s' /\ Inv s'.
Proof.
  intros Hi Hl. unfold hand_step, late_hit in *. destruct (hands s !! k) as [h|] eqn:Hk; [|by exists s].
  assert (forall h' j, hand_of h' = hand_of h -> j <> hand_of h -> in_hands (<[k := h']> (hands s)) j = in_hands (hands s) j /\ in_hands (delete k (hands s)) j = in_hands (hands s) j)
    as Hoth by (intros h' j; by apply hand_others).
  destruct h as [t|t|t|t]; cbn [hand_of] in Hoth.
  - destruct (in_hands_thread s t k (HAdd t) Hi Hk) as (th & p & Et & Ep & Hs & Hr & Hq & Hf & Hh & Hok); [by apply bool_decide_true|].
    eexists. split; [done|]. fields. eapply (inv_place s t th p); [done..| |].
    + intros j Hj. split; [done|]. split; [|done]. apply Hoth; [by case_match|done].
    + exists th. split; [done|]. split; [|done]. rewrite (in_hands_insert _ _ (HAdd t) _ _ Hk), Hh.
      rewrite (in_hands_split _ k (HAdd t) t Hk), Hh in Hok. case_match; exact Hok.
  - destruct (in_hands_thread s t k (HDone t) Hi Hk) as (th & p & Et & Ep & Hs & Hr & Hq & Hf & Hh & Hok); [by apply bool_decide_true|].
    unfold reset_sync_sleep_done. rewrite Et. destruct (sync_sleep_done th) eqn:Ed.
    + unfold schedule_thread. rewrite lookup_alter_eq, Et. cbn. rewrite Hr. cbn. eexists. split; [done|]. fields. eapply (inv_place s t th p); [done..| |].
      * intros j Hj. split; [by rewrite lookup_insert_ne, lookup_alter_ne by done|]. split; [by apply Hoth|done].
      * rewrite lookup_insert_eq. eexists. split; [done|]. rewrite (in_hands_insert _ _ (HDone t) _ _ Hk), Hh. cbn. split; [|by rewrite Hs].
        rewrite bool_decide_false by done. destruct Hok as [T1 T2 T3 T4]. split; cbn; [done|by rewrite Hs, Hf| |done].
        destruct p as [| | | |[] c]; cbn in *; destruct T3; try done; congruence.
    + assert (alter done_off t (ths s) = ths s) as ->. { apply alter_id. intros th' E'. rewrite Et in E'. injection E' as <-. destruct th; cbn in *. by subst. }
      eexists. split; [done|]. fields. eapply (inv_place s t th p); [done..| |].
      * intros j Hj. split; [done|]. split; [by apply Hoth|done].
      * exists th. split; [done|]. split; [|done]. rewrite (in_hands_insert _ _ (HDone t) _ _ Hk), Hh.
        by rewrite (in_hands_split _ k (HDone t) t Hk), Hh in Hok.
  - destruct (in_hands_thread s t k (HList t) Hi Hk) as (th & p & Et & Ep & Hs & Hr & Hq & Hf & Hh & Hok); [by apply bool_decide_true|].
    eexists. split; [done|]. fields. eapply (inv_place s t th p); [done..| |].
    + intros j Hj. split; [done|]. split; [by apply (Hoth (HList t))|set_solver].
    + exists th. split; [done|]. split; [|done]. rewrite Hh, bool_decide_true by set_solver. destruct Hok as [T1 T2 T3 T4].
      split; [done| |done|done]. by rewrite Hs, Hr, Hf.
  - apply bool_decide_eq_false in Hl. eexists. split; [done|]. destruct Hi as [H1 H2]. split; [done|]. intros j. cbn.
    eapply holds_same; [apply H2|done|done| |set_solver|auto]. rewrite (in_hands_split (hands s) k (HLate t) j Hk). cbn. lia.
Qed.

Lemma kick_ok s t : Inv s -> let '(b, x) := reset_sync_sleep (ths s) t in Inv (set_hands (set_ths s x) (hands s ++ if b : bool then [HAdd t] else [])).
Proof.
  intros Hi. destruct (reset_sync_sleep (ths s) t) as [b x] eqn:Er. destruct (reset_woke _ _ _ _ Er) as (Hw & _ & _). fields.
  replace (if b then [HAdd t] else []) with (HAdd <$> (if b then [t] else [])) by (by destruct b). by apply inv_woke.
Qed.

(** ** A thread's own steps *)
Lemma thread_of s t p : Inv s -> pcs s !! t = Some p -> exists th, ths s !! t = Some th /\
  thread_ok th p (in_hands (hands s) t) (bool_decide (t ∈ requeue s)) /\ (sync_sleep th = true -> Forall (entered (objs s) t) (words_of p)).
Proof. intros [_ H2] Hp. specialize (H2 t). unfold holds_for in H2. rewrite Hp in H2. destruct (ths s !! t) as [th|]; [|done]. by exists th. Qed.

(** A step that changes the flags of [t] and its program counter. *)
Lemma inv_flags s t th p p' f : Inv s -> ths s !! t = Some th -> pcs s !! t = Some p ->
  (sync_sleep (f th) = true -> sync_sleep th = true) -> (forall w, w ∈ words_of p' -> w ∈ words_of p) ->
  (thread_ok th p (in_hands (hands s) t) (bool_decide (t ∈ requeue s)) -> thread_ok (f th) p' (in_hands (hands s) t) (bool_decide (t ∈ requeue s))) ->
  Inv (set_pc (set_ths s (alter f t (ths s))) t p').
Proof.
  intros Hi Ht Hp Hs Hw Hok. fields. eapply (inv_thread s t th p); [done..| |].
  - intros j Hj. by rewrite lookup_alter_ne by done.
  - exists (f th). rewrite lookup_alter_eq, Ht. split; [done|]. split; [|auto]. apply Hok.
    destruct (thread_of s t p Hi Hp) as (th1 & E1 & Hok1 & _). rewrite Ht in E1. by injection E1 as <-.
Qed.

(** A step of the program counter alone. *)
Lemma inv_pc s t p p' : Inv s -> pcs s !! t = Some p -> (forall w, w ∈ words_of p' -> w ∈ words_of p) ->
  (forall th n r, thread_ok th p n r -> thread_ok th p' n r) -> Inv (set_pc s t p').
Proof.
  intros Hi Hp Hw Hok. destruct (thread_of s t p Hi Hp) as (th & Et & Hok1 & _). fields. eapply (inv_thread s t th p); [done..|].
  exists th. split; [done|]. split; [by apply Hok|auto].
Qed.

Lemma dispatch_ok s t th c : Inv s -> ths s !! t = Some th -> pcs s !! t = Some (At Asleep c) -> ready th = true -> Inv (dispatch s t c).
Proof.
  intros Hi Ht Hp Hr. unfold dispatch. eapply inv_flags; [done..| |]; cbn.
  - by destruct (c_kind c); intros w Hw%not_elem_of_nil.
  - intros [T1 T2 T3 T4]. cbn in *. rewrite Hr in *. split; cbn.
    + rewrite T1. by destruct (c_kind c).
    + destruct (flagged c); destruct (sync_sleep th), (c_kind c); cbn in *; lia.
    + by destruct (c_kind c).
    + by destruct (c_kind c).
Qed.

Lemma exit_critical_eq x t th n : x !! t = Some th -> critical th = S n ->
  exit_critical x t = Ret (alter (fun th => mkThread (sync_sleep th) (sync_sleep_done th) (critical th - 1) (ready th)) t x).
Proof.
  intros Et Hc. unfold exit_critical. rewrite Et. cbn. rewrite Hc. cbn. f_equal. apply map_eq. intros j.
  destruct (decide (j = t)) as [->|Hne]; [by rewrite lookup_insert_eq, lookup_alter_eq, Et; cbn; rewrite Hc|].
  by rewrite lookup_insert_ne, lookup_alter_ne by done.
Qed.

(** After the thread is back its flag is off and it is nowhere. *)
Lemma back_off th p n r : thread_ok th p n r -> flag_of p = false -> sync_sleep th = false /\ n = 0%nat /\ r = false /\ ready th = false.
Proof. intros [_ T2 _ _] Hf. rewrite Hf in T2. destruct (sync_sleep th), r, (ready th); cbn in T2; split_and!; done || lia. Qed.

Lemma requeue_stage_ok s t st st' c : Inv s -> pcs s !! t = Some (At st c) ->
  (forall th n r, thread_ok th (At st c) n r -> thread_ok th (At st' c) n r) -> (forall w, w ∈ words_of (At st' c) -> w ∈ words_of (At st c)) ->
  exists s', (let! s := requeue_all s in Ret (set_pc s t (At st' c))) = Ret s' /\ Inv s'.
Proof.
  intros Hi Hp Hok Hw. destruct (requeue_all_ok s Hi) as (s1 & -> & Hi1 & _ & _ & Ep & _). cbn [obind]. eexists. split; [done|].
  rewrite <- Ep in Hp. by eapply inv_pc.
Qed.

Lemma undo_ok s t o a us c : Inv s -> pcs s !! t = Some (At Undo c) ->
  Inv (set_pc (locked s o (si_remove (info s o) a t) (ths s) []) t (At Undo (mkCall (c_kind c) us (num_sleepers c) (flagged c)))).
Proof.
  intros Hi Hp. destruct (thread_of s t _ Hi Hp) as (th & Et & Hok & _). destruct Hi as [H1 H2].
  destruct (si_remove_spec (info s o) a t (H1 o)) as [Ho Hin]. unfold locked. fields. rewrite fmap_nil, app_nil_r. split.
  - intros o'. unfold info. cbn. destruct (decide (o' = o)) as [->|Hne]; [by rewrite lookup_insert_eq|rewrite lookup_insert_ne by done; apply H1].
  - intros j. cbn. destruct (decide (j = t)) as [->|Hne].
    + unfold holds_for. rewrite Et, lookup_insert_eq. split; [|constructor]. destruct Hok as [T1 T2 T3 T4]. by split.
    + eapply holds_same; [apply H2|done|by rewrite lookup_insert_ne by done|done|done|]. intros _ _ _ [o' b] He. unfold entered in *. cbn in *.
      destruct (decide (o' = o)) as [->|Hne']; [|by rewrite lookup_insert_ne by done]. rewrite lookup_insert_eq. by apply Hin.
Qed.

(** Only a thread that has set its flag leaves its processor. *)
Lemma park_flagged c : call_ok c -> c_kind c <> Single -> should_sleep c = true -> flagged c = true.
Proof.
  unfold call_ok, should_sleep. destruct (c_kind c); [done|naive_solver|]. intros -> _ [Hl Hn]%andb_true_iff. apply bool_decide_true.
  apply Nat.eqb_eq in Hl. apply Nat.ltb_lt in Hn. intros E. rewrite E in Hl. cbn in Hl. lia.
Qed.

Lemma stage_step_ok s t st c : Inv s -> pcs s !! t = Some (At st c) -> exists s', stage_step s t st c = Ret s' /\ Inv s'.
Proof.
  intros Hi Hp. destruct (thread_of s t _ Hi Hp) as (th & Et & Hok & Hen). destruct st; cbn [stage_step].
  - apply (requeue_stage_ok s t Requeue1); [done..| |done]. intros th' n r [T1 T2 T3 T4]. by split.
  - eexists. split; [done|]. eapply inv_flags; [done..|]. intros [T1 T2 T3 T4]. split; cbn in *; [lia|done|done|done].
  - eexists. split; [done|]. eapply inv_flags; [done..| |].
    + destruct (c_kind c); [|done|]; [done|]. by destruct (should_sleep c).
    + intros [T1 T2 [T3 T3'] T4]. destruct (T4 eq_refl) as [Hc Hsg]. pose proof (park_flagged c Hc) as Hpf. unfold should_sleep in *.
      destruct (c_kind c) eqn:Ek; [| |case_match eqn:Esh]; split; cbn in *; try done; try (by rewrite T3'); rewrite ?Ek in *; auto.
  - pose proof (kick_ok s t Hi) as Hk. destruct (reset_sync_sleep (ths s) t) as [b x]. eexists. split; [done|].
    eapply inv_pc; [done|exact Hp|done|]. intros th' n r [T1 T2 T3 T4]. by split.
  - apply (requeue_stage_ok s t Requeue2); [done..| |].
    + intros th' n r [T1 T2 T3 T4]. destruct (T4 eq_refl) as [Hc Hsg]. pose proof Hc as Hc'. unfold call_ok in Hc'.
      destruct (c_kind c) eqn:Ek; [split; [done..|split; auto]|split; [done..|split; [done|apply Hc']]|].
      destruct (unsleeps c) as [|w us] eqn:Eu; split; try done; by split.
    + destruct (c_kind c); [done..|]. by destruct (unsleeps c).
  - rewrite (exit_critical_eq _ _ th 0 Et) by apply Hok. cbn [obind]. eexists. split; [done|].
    eapply inv_flags; [done..| |]; cbn; [by intros w ?%not_elem_of_nil|]. intros [T1 T2 T3 (Hc & Hk & Hu)]. unfold call_ok in Hc. rewrite Hk, Hu in Hc.
    cbn in *. rewrite Hc in T2. split; cbn; [by rewrite T1|done|done|done].
  - rewrite (exit_critical_eq _ _ th 0 Et) by apply Hok. cbn [obind]. eexists. split; [done|].
    eapply inv_flags; [done..|]. intros [T1 T2 T3 T4]. split; cbn in *; [by rewrite T1|done|done|done].
  - by exists s.
  - destruct (unsleeps c) as [|[o a] us]; [|eexists; split; [done|]; by apply undo_ok].
    eexists. split; [done|]. eapply inv_pc; [done|exact Hp|done|]. intros th' n r [T1 T2 T3 T4]. by split.
  - destruct (back_off _ _ _ _ Hok eq_refl) as (B1 & B2 & B3 & B4).
    assert (forall p', (p' = Out \/ p' = At ResetSleep c) -> Inv (set_pc (set_ths s (alter done_off t (ths s))) t p')) as Hgo.
    { intros p' Hp'. eapply inv_flags; [done..| |].
      - by destruct Hp' as [->| ->].
      - intros [T1 T2 T3 T4]. destruct Hp' as [->| ->]; split; cbn; done. }
    destruct (c_kind c); eexists; (split; [done|]); apply Hgo; auto.
  - destruct (back_off _ _ _ _ Hok eq_refl) as (B1 & B2 & B3 & B4). eexists. split; [done|]. eapply inv_flags; [done..| |].
    + by destruct (c_kind c).
    + intros [T1 T2 T3 T4]. destruct (c_kind c); split; cbn in *; rewrite ?B1 in *; done.
  - destruct (back_off _ _ _ _ Hok eq_refl) as (B1 & B2 & B3 & B4). apply bool_decide_eq_false in B3.
    replace (requeue s ∖ {[t]}) with (requeue s) by set_solver.
    assert (set_requeue s (requeue s) = s) as -> by (by destruct s).
    destruct (c_kind c); eexists; (split; [done|]); (eapply inv_pc; [done|exact Hp|done|]); intros th' n r [T1 T2 T3 T4]; by split.
Qed.

Lemma get_obj_ok t r : ref_ok r = true -> exists o, get_obj exists_obj vm t r = Ret o.
Proof. destruct r as [id a|a|a]; cbn; intros Hr; [by eexists|..]; unfold VirtAddr_new; rewrite Hr; cbn; by eexists. Qed.

(** Going on after an operation that did not sleep. *)
Lemma next_pc_ok th todo todo' c c' n r p : thread_ok th p n r -> (p = Loop todo' c \/ exists sl o a, p = Locked sl o a todo' c) ->
  Forall (fun op => op_ok op = true) todo -> c' = c \/ c' = not_slept c -> thread_ok th (next_op todo c' false) n r.
Proof.
  intros [T1 T2 T3 T4] Hp Ht Hc.
  assert (critical th = 0%nat /\ (Nat.b2n (sync_sleep th) + n + Nat.b2n r + Nat.b2n (ready th))%nat = Nat.b2n (flagged c) /\
    (sync_sleep_done th = false /\ ready th = false) /\ call_ok c /\ c_kind c <> Timed /\ (c_kind c = Single -> unsleeps c = [])) as (A1 & A2 & A3 & A4 & A5 & A6).
  { destruct Hp as [->|(sl & o & a & ->)]; cbn in *; naive_solver. }
  assert (flagged c' = flagged c /\ c_kind c' = c_kind c /\ unsleeps c' = unsleeps c) as (B1 & B2 & B3) by (by destruct Hc as [->| ->]).
  unfold next_op. rewrite B2. destruct (c_kind c) eqn:Ek; [|done|].
  - split; cbn; [done| |done|done]. unfold call_ok in A4. rewrite Ek, (A6 eq_refl) in A4. cbn in A4. by rewrite A4 in A2.
  - split; cbn; [done|by rewrite B1|done|]. unfold call_ok in *. rewrite B2, B1, B3, Ek in *. done.
Qed.

Lemma next_words todo c c' did : c' = c \/ c' = not_slept c -> forall w, w ∈ words_of (next_op todo c' did) -> w ∈ unsleeps c.
Proof.
  intros Hc w. unfold next_op. assert (unsleeps c' = unsleeps c) as E by (by destruct Hc as [->| ->]).
  destruct (c_kind c'), did; cbn; rewrite ?E; try done; by intros ?%not_elem_of_nil.
Qed.

Lemma loop_step_ok s t todo c : Inv s -> pcs s !! t = Some (Loop todo c) -> exists s', loop_step load exists_obj vm s t todo c = Ret s' /\ Inv s'.
Proof.
  intros Hi Hp. destruct (thread_of s t _ Hi Hp) as (th & Et & Hok & Hen). pose proof (t_pc _ _ _ _ Hok) as (Hc & Hops & Hk & Hsg).
  assert (forall todo' c', Forall (fun op => op_ok op = true) todo' -> c' = c \/ c' = not_slept c -> Inv (set_pc s t (next_op todo' c' false))) as Hnext.
  { intros todo' c' Ht' Hc'. eapply inv_pc; [done|exact Hp|by apply next_words|]. intros th' n r Hok'. eapply next_pc_ok; [done|by left|done|done]. }
  destruct todo as [|[sl|wk] todo]; cbn [loop_step].
  - eexists. split; [done|]. eapply inv_pc; [done|exact Hp|done|]. intros th' n r [T1 T2 T3 T4]. split; [done..|]. split; [done|]. naive_solver.
  - apply Forall_cons in Hops as [Hop Hops]. destruct (get_obj_ok t (sl_reference sl) Hop) as [[[[o a] va]|] ->]; cbn [obind].
    + destruct (va && negb _); eexists; (split; [done|]); [apply Hnext; auto|].
      eapply inv_pc; [done|exact Hp|done|]. intros th' n r [T1 T2 T3 T4]. split; [done..|]. split_and!; try done. intros Ek. by apply Hsg.
    + eexists. split; [done|]. apply Hnext; auto.
  - apply Forall_cons in Hops as [Hop Hops]. destruct (get_obj_ok t (wk_reference wk) Hop) as [[[[o a] va]|] ->]; cbn [obind].
    + destruct (si_wake_n_spec (info s o) (ths s) a (wk_count wk)) as (si & x & w & -> & Hs & _); [apply Hi|]. cbn [obind]. eexists. split; [done|].
      pose proof (sync_inv_locked s o si x w Hi Hs) as Hi'. eapply inv_pc; [done|exact Hp| |].
      * destruct (c_kind c); cbn; [by intros v ?%not_elem_of_nil|done..].
      * intros th' n r [T1 T2 T3 T4]. destruct (c_kind c) eqn:Ek; [|done|split; [done..|]; split; [done|]; by rewrite Ek]. split; cbn in *; [done| |done|done].
        unfold call_ok in Hc. rewrite Ek, (proj1 (Hsg eq_refl)) in Hc. cbn in Hc. by rewrite Hc in T2.
    + eexists. split; [done|]. apply Hnext; auto.
Qed.

(** A thread that has set its flag, as it is seen from outside. *)
Definition sleeping : pc := At Requeue1 (mkCall Timed [] 0 true).

Lemma sleeping_ok th sl o a todo c n r : thread_ok th (Locked sl o a todo c) n r ->
  let first := Nat.eqb (length (unsleeps c)) 0 in
  thread_ok (if first then mkThread true (sync_sleep_done th) (critical th) (ready th) else th) sleeping n r /\
  (first = true -> flagged c = false /\ sync_sleep th = false).
Proof.
  intros [T1 T2 [T3 T3'] (Hc & _ & Hk & _)]. cbn in *.
  assert (flagged c = negb (Nat.eqb (length (unsleeps c)) 0)) as Hf.
  { unfold call_ok in Hc. destruct (c_kind c); [|done|]; rewrite Hc; by destruct (unsleeps c). }
  rewrite Hf in T2. destruct (Nat.eqb _ 0) eqn:E0; cbn in *.
  - destruct (sync_sleep th), (ready th), r; cbn in T2; try lia. split; [|done]. split; cbn; [done|lia|done|done].
  - split; [|done]. by split.
Qed.

Lemma slept_ok th todo c w n r : thread_ok th sleeping n r -> call_ok c -> c_kind c <> Timed ->
  (c_kind c = Single -> unsleeps c = []) -> Forall (fun op => op_ok op = true) todo -> thread_ok th (next_op todo (slept c w) true) n r.
Proof.
  intros [T1 T2 T3 T4] Hc Hk Hsg Hops. cbn in *.
  assert (flagged (slept c w) = true /\ c_kind (slept c w) = c_kind c /\ unsleeps (slept c w) <> []) as (B1 & B2 & B3).
  { unfold slept. destruct (Nat.ltb_spec (length (unsleeps c)) 1024) as [Hl|Hl]; cbn; [split_and!; [done|done|by destruct (unsleeps c)]|].
    assert (unsleeps c <> []) as Hne by (intros E; rewrite E in Hl; cbn in Hl; lia).
    unfold call_ok in Hc. destruct (c_kind c); [|done|]; rewrite Hc; split_and!; try done; by apply bool_decide_true. }
  assert (call_ok (slept c w)) as Hc'.
  { unfold call_ok. rewrite B1, B2. destruct (c_kind c); [|done|]; symmetry; by apply bool_decide_true. }
  unfold next_op. rewrite B2. destruct (c_kind c) eqn:Ek; [|done|]; split; cbn; rewrite ?B1; done || (split; [done|]; split; [done|]; by rewrite B2).
Qed.

Lemma slept_words todo c w v : v ∈ words_of (next_op todo (slept c w) true) -> v ∈ unsleeps c \/ v = w.
Proof.
  assert (v ∈ unsleeps (slept c w) -> v ∈ unsleeps c \/ v = w) as Hs.
  { unfold slept. case_match; cbn; [|by left]. rewrite elem_of_app, list_elem_of_singleton. done. }
  unfold next_op. by destruct (c_kind (slept c w)); cbn.
Qed.

Lemma locked_step_ok fuel s t sl o a todo c : Inv s -> pcs s !! t = Some (Locked sl o a todo c) ->
  match locked_step load fuel s t sl o a todo c with Ret s' => Inv s' | Panic => False | NoFuel => True end.
Proof.
  intros Hi Hp. destruct (thread_of s t _ Hi Hp) as (th & Et & Hok & Hen). pose proof (t_pc _ _ _ _ Hok) as (Hc & Hops & Hk & Hsg).
  unfold locked_step. destruct (must_sleep _ _ _ _ _).
  2:{ eapply inv_pc; [done|exact Hp|by apply next_words; right|]. intros th' n r Hok'. eapply next_pc_ok; [done|by right; eauto|done|by right]. }
  destruct (sleeping_ok _ _ _ _ _ _ _ _ Hok) as [Hsl Hfirst]. cbv zeta in *. set (first := Nat.eqb (length (unsleeps c)) 0) in *.
  set (x := if first then set_sync_sleep (ths s) t else ths s).
  assert (forall j, holds_for (objs s) x (requeue s) (hands s) (<[t := sleeping]> (pcs s)) j) as Hx.
  { intros j. destruct (decide (j = t)) as [->|Hne].
    - unfold holds_for. rewrite lookup_insert_eq. subst x. destruct first; [unfold set_sync_sleep; rewrite lookup_alter_eq|]; rewrite Et; cbn; (split; [done|constructor]).
    - eapply holds_same; [apply Hi|subst x; destruct first; [unfold set_sync_sleep; by rewrite lookup_alter_ne by done|done]|by rewrite lookup_insert_ne by done|done|done|auto]. }
  pose proof (si_insert_spec fuel (info s o) x a t (inv_info _ Hi o)) as Hins.
  destruct (si_insert fuel (info s o) x a t) as [[[si x'] w]| |]; cbn [obind]; [|done..]. destruct Hins as [Hsec Hent].
  unfold locked. fields. split.
  - intros o'. unfold info. cbn. destruct (decide (o' = o)) as [->|Hne]; [rewrite lookup_insert_eq; apply Hsec|rewrite lookup_insert_ne by done; apply Hi].
  - intros j. cbn. pose proof (holds_locked _ _ _ _ _ o si x' w j (Hx j) Hsec) as Hj. destruct (decide (j = t)) as [->|Hne].
    2:{ unfold holds_for in *. by rewrite lookup_insert_ne in * by done. }
    unfold holds_for in *. rewrite lookup_insert_eq in *. destruct (x' !! t) as [th'|] eqn:Et'; [|done]. destruct Hj as [Hj _].
    split; [by apply slept_ok|]. intros Hs'. apply Forall_forall. intros v Hv. unfold entered.
    assert (v = (o, a) \/ sync_sleep th = true /\ v ∈ unsleeps c) as [->|[Hs Hin]].
    { destruct (slept_words _ _ _ _ Hv) as [Hin| ->]; [right|by left]. split; [|done].
      assert (first = false) as Hf by (unfold first; destruct (unsleeps c); [by apply not_elem_of_nil in Hin|done]).
      destruct (so_woke _ _ _ _ _ Hsec) as (_ & _ & Ex). specialize (Ex t). subst x. rewrite Hf, Et', Et in Ex. case_decide; by injection Ex as ->. }
    + cbn. by rewrite lookup_insert_eq.
    + specialize (Hen Hs). rewrite Forall_forall in Hen. specialize (Hen v Hin). destruct v as [o' b]. unfold entered in Hen. cbn in *.
      destruct (decide (o' = o)) as [->|Hne]; [|by rewrite lookup_insert_ne by done]. rewrite lookup_insert_eq. cbn.
      destruct (so_stay _ _ _ _ _ Hsec b t Hen) as [|Ho]; [done|]. unfold off in Ho. rewrite Et' in Ho. congruence.
Qed.

(** ** Runs *)
Definition event_ok (e : event (mem := mem)) : Prop :=
  match e with
  | ECall t ops timeout => (ops <> [] \/ timeout = true) /\ Forall (fun op => op_ok op = true) ops
  | _ => True
  end.

Definition late (s : sys) (e : event (mem := mem)) : bool := match e with EHand k => late_hit s k | _ => false end.

Lemma sys_thread_sync_ok s t ops timeout : Inv s -> pcs s !! t = Some Out -> (ops <> [] \/ timeout = true) -> Forall (fun op => op_ok op = true) ops ->
  exists s', sys_thread_sync s t ops timeout = Ret s' /\ Inv s'.
Proof.
  intros Hi Hp Hne Hops. destruct (thread_of s t _ Hi Hp) as (th & Et & Hok & _).
  assert (forall k, k <> Timed -> ops <> [] -> Inv (set_pc s t (Loop ops (mkCall k [] 0 false)))) as Hloop.
  { intros k Hk Hne'. eapply inv_pc; [done|exact Hp|done|]. intros th' n r [T1 T2 T3 T4]. split; [done..|]. split; [by destruct k|]. done. }
  destruct ops as [|op [|op' ops]]; cbn [sys_thread_sync].
  - destruct timeout; [|naive_solver]. eexists. split; [done|]. destruct (back_off _ _ _ _ Hok eq_refl) as (B1 & B2 & B3 & B4).
    fields. eapply (inv_thread s t th Out); [done..| |].
    + intros j Hj. unfold set_sync_sleep. by rewrite lookup_alter_ne by done.
    + unfold set_sync_sleep. rewrite lookup_alter_eq, Et. eexists. split; [done|]. destruct Hok as [T1 T2 T3 T4]. split.
      * split; cbn; [done|rewrite B2, B3, B4; done|done|done].
      * by intros w Hin%not_elem_of_nil.
  - eexists. split; [done|]. apply Hloop; [by destruct timeout|done].
  - destruct (1024 <? _)%nat; eexists; (split; [done|]); [done|]. by apply Hloop.
Qed.

Lemma exec_ok fuel s e : Inv s -> event_ok e -> late s e = false ->
  match exec load exists_obj vm fuel s e with Ret s' => Inv s' | Panic => False | NoFuel => True end.
Proof.
  intros Hi He Hl.
  assert (forall m, (exists s', m = Ret s' /\ Inv s') -> match m with Ret s' => Inv s' | Panic => False | NoFuel => True end) as Hret by (by intros m (s' & -> & ?)).
  destruct e as [t ops timeout|t|k|t|t| |m]; cbn [exec].
  - destruct (pcs s !! t) as [[| | | |]|] eqn:Hp; try exact Hi. apply Hret. destruct He. by apply sys_thread_sync_ok.
  - destruct (pcs s !! t) as [[|todo c|sl o a todo c| |st c]|] eqn:Hp; try exact Hi.
    + apply Hret. by apply loop_step_ok.
    + by apply locked_step_ok.
    + apply Hret. destruct (requeue_all_ok s Hi) as (s1 & -> & Hi1 & _ & _ & Ep & _). cbn [obind]. eexists. split; [done|].
      rewrite <- Ep in Hp. eapply inv_pc; [done|exact Hp|done|]. intros th n r [T1 T2 T3 T4]. by split.
    + apply Hret. by apply stage_step_ok.
  - apply Hret. by apply hand_step_ok.
  - destruct (pcs s !! t) as [[| | | |st c]|] eqn:Hp; try exact Hi. destruct st; try exact Hi.
    destruct (ths s !! t) as [th|] eqn:Et; [|exact Hi]. destruct (ready th) eqn:Hr; [by eapply dispatch_ok|exact Hi].
  - pose proof (kick_ok s t Hi) as Hk. by destruct (reset_sync_sleep (ths s) t).
  - apply Hret. destruct (requeue_all_ok s Hi) as (s1 & -> & Hi1 & _). by exists s1.
  - destruct Hi as [H1 H2]. by split.
Qed.

Definition step (fuel : nat) (s s' : sys) : Prop :=
  exists e, event_ok e /\ late s e = false /\ exec load exists_obj vm fuel s e = Ret s'.

Lemma init_lookup n (m : mem) t : match ths (init (Map := Map) n m) !! t, pcs (init (Map := Map) n m) !! t with
  | Some th, Some p => th = mkThread false false 0 false /\ p = Out
  | None, None => True
  | _, _ => False
  end.
Proof.
  cbn. rewrite !lookup_gset_to_gmap. destruct (decide (t ∈ (set_seq 0 n : gset nat))) as [Hin|Hin].
  - by rewrite !option_guard_True by done.
  - by rewrite !option_guard_False by done.
Qed.

Lemma init_ok n m : Inv (init n m).
Proof.
  split; [intros o; apply info_new_ok|]. intros t. pose proof (init_lookup n m t) as Hl. unfold holds_for.
  destruct (ths (init n m) !! t), (pcs (init n m) !! t); try done. destruct Hl as [-> ->]. split; [|done]. by split.
Qed.

Lemma reachable_sync n m fuel s : rtc (step fuel) (init n m) s -> Inv s.
Proof.
  apply (rtc_invariant (step fuel) Inv); [apply init_ok|]. intros s1 s2 Hi (e & He & Hl & Ex). pose proof (exec_ok fuel s1 e Hi He Hl) as Ho.
  by rewrite Ex in Ho.
Qed.

(** ** What sleeping threads can rely on *)

(** A thread off its processor: entered at its words with its flag set; taken by a waker;
    on the requeue list, with nothing in the way of scheduling it; or in a run queue. *)
Definition accounted (s : sys) (t : nat) (c : call) (th : Thread) : Prop :=
  (sync_sleep th = true /\ Forall (entered (objs s) t) (unsleeps c)) \/
  (sync_sleep th = false /\ exists k h, hands s !! k = Some h /\ names t h = true) \/
  (sync_sleep th = false /\ t ∈ requeue s /\ sync_sleep_done th = true /\ critical th = 0%nat) \/
  (sync_sleep th = false /\ ready th = true).

Lemma in_hands_pos hs t : (0 < in_hands hs t)%nat -> exists k h, hs !! k = Some h /\ names t h = true.
Proof.
  unfold in_hands. intros Hl. destruct (List.filter (names t) hs) as [|h l] eqn:E; [cbn in Hl; lia|].
  assert (In h (List.filter (names t) hs)) as [Hin Hn]%List.filter_In by (rewrite E; by left).
  apply list_elem_of_In, list_elem_of_lookup in Hin as [k Hk]. by exists k, h.
Qed.

Lemma asleep_accounted s t c : Inv s -> pcs s !! t = Some (At Asleep c) -> exists th, ths s !! t = Some th /\ accounted s t c th.
Proof.
  intros Hi Hp. destruct (thread_of s t _ Hi Hp) as (th & Et & [T1 T2 T3 [_ Hf]] & Hen). exists th. split; [done|]. unfold accounted. cbn in *.
  destruct (sync_sleep th) eqn:Es; [left; by split; [|apply Hen]|]. right.
  destruct (ready th) eqn:Er; [by right; right|]. case_bool_decide as Hq; [right; left; by rewrite T3|]. left. split; [done|].
  apply in_hands_pos. rewrite Hf in T2. cbn in T2. lia.
Qed.


(** A woken thread gets to a run queue. *)
Definition runs (fuel : nat) (s : sys) (t : nat) (es : list event) : Prop :=
  exists s' th, run load exists_obj vm fuel s es = Ret s' /\ ths s' !! t = Some th /\ ready th = true.

Lemma requeue_runs fuel s t c : Inv s -> pcs s !! t = Some (At Asleep c) -> t ∈ requeue s -> runs fuel s t [ERequeue].
Proof.
  intros Hi Hp Hq. destruct (requeue_all_ok s Hi) as (s1 & E & _ & _ & _ & _ & _ & Hr & _). destruct (Hr t c Hq Hp) as (th & Et & Hrd).
  exists s1, th. cbn. by rewrite E.
Qed.

Lemma hand_done_runs fuel s t c k : Inv s -> pcs s !! t = Some (At Asleep c) -> hands s !! k = Some (HDone t) -> runs fuel s t [EHand k].
Proof.
  intros Hi Hp Hk. destruct (in_hands_thread s t k _ Hi Hk) as (th & p & Et & Ep & Hs & Hr & Hq & Hf & Hh & Hok); [by apply bool_decide_true|].
  rewrite Hp in Ep. injection Ep as <-. pose proof (t_done _ _ _ _ Hok) as Hd. cbn in Hd. rewrite Hr in Hd.
  unfold runs. cbn [run exec]. unfold hand_step. rewrite Hk. unfold reset_sync_sleep_done. rewrite Et, Hd. unfold schedule_thread.
  rewrite lookup_alter_eq, Et. cbn. rewrite Hr. cbn. eexists _, _. split; [done|]. cbn. by rewrite lookup_insert_eq.
Qed.

Lemma runs_cons fuel s s1 t e es : exec load exists_obj vm fuel s e = Ret s1 -> runs fuel s1 t es -> runs fuel s t (e :: es).
Proof. intros E (s' & th & Er & Et & Hr). exists s', th. cbn [run]. by rewrite E. Qed.

Lemma woken_runs_spec fuel s t c th : Inv s -> pcs s !! t = Some (At Asleep c) -> ths s !! t = Some th -> sync_sleep th = false ->
  exists es, (length es <= 2)%nat /\ (forall e, e ∈ es -> e = ERequeue \/ exists k, e = EHand k) /\ runs fuel s t es.
Proof.
  intros Hi Hp Et Hs. destruct (asleep_accounted s t c Hi Hp) as (th' & Et' & Ha). rewrite Et in Et'. injection Et' as <-.
  destruct Ha as [[Hs' _]|[(_ & k & h & Hk & Hn)|[(_ & Hq & _ & _)|(_ & Hr)]]]; [congruence|..].
  - assert (late_hit s k = false -> forall s1, exec load exists_obj vm fuel s (EHand k) = Ret s1 -> Inv s1) as Hnext.
    { intros Hl s1 E. pose proof (exec_ok fuel s (EHand k) Hi I Hl) as Ho. by rewrite E in Ho. }
    unfold late_hit in Hnext. rewrite Hk in Hnext. destruct h as [j|j|j|j]; cbn in Hn; try done; apply bool_decide_eq_true in Hn as ->.
    + exists [EHand k; EHand k]. split; [cbn; lia|]. split; [set_solver|]. eapply runs_cons; [cbn; unfold hand_step; by rewrite Hk|].
      eapply hand_done_runs; [apply Hnext; [done|cbn; unfold hand_step; by rewrite Hk]|done|]. cbn.
      destruct (thread_of s t _ Hi Hp) as (th1 & E1 & [T1 _ _ _] & _). unfold is_critical. rewrite E1, T1. cbn.
      apply list_lookup_insert_eq. by eapply lookup_lt_Some.
    + exists [EHand k]. split; [cbn; lia|]. split; [set_solver|]. by eapply hand_done_runs.
    + exists [EHand k; ERequeue]. split; [cbn; lia|]. split; [set_solver|]. eapply runs_cons; [cbn; unfold hand_step; by rewrite Hk|].
      eapply requeue_runs; [apply Hnext; [done|cbn; unfold hand_step; by rewrite Hk]|done|]. cbn. set_solver.
  - exists [ERequeue]. split; [cbn; lia|]. split; [set_solver|]. by eapply requeue_runs.
  - exists []. split; [cbn; lia|]. split; [set_solver|]. by exists s, th.
Qed.

(** Whenever the flag of a thread off its processor has been cleared, by a wake, a
    timeout or a message, two steps at most of whoever cleared it and of any call of
    [requeue_all] put the thread in a run queue: no further wake is needed. *)
Theorem woken_runs n m fuel s t c th : rtc (step fuel) (init n m) s -> pcs s !! t = Some (At Asleep c) -> ths s !! t = Some th -> sync_sleep th = false ->
  exists es, (length es <= 2)%nat /\ (forall e, e ∈ es -> e = ERequeue \/ exists k, e = EHand k) /\ runs fuel s t es.
Proof. intros Hr. apply woken_runs_spec. by eapply reachable_sync. Qed.

(** Waking a word with a large enough count clears the flag of every thread asleep on
    it. *)
Theorem wake_reaches n m fuel s w todo c0 wk o a va : rtc (step fuel) (init n m) s -> pcs s !! w = Some (Loop (Wake wk :: todo) c0) ->
  get_obj exists_obj vm w (wk_reference wk) = Ret (Some (o, a, va)) -> Z.of_nat SLEEPERS < wk_count wk ->
  exists s', exec load exists_obj vm fuel s (EStep w) = Ret s' /\
    forall t c, pcs s !! t = Some (At Asleep c) -> (o, a) ∈ unsleeps c -> exists th, ths s' !! t = Some th /\ sync_sleep th = false.
Proof.
  intros Hr Hp Hg Hc. pose proof (reachable_sync n m fuel s Hr) as Hi. cbn [exec]. rewrite Hp. cbn [loop_step]. rewrite Hg. cbn [obind].
  destruct (si_wake_n_spec (info s o) (ths s) a (wk_count wk) (inv_info _ Hi o)) as (si & x & woken & E & Hs & Hall). rewrite E. cbn [obind].
  eexists. split; [done|]. intros t c Ht Hin. cbn. destruct (thread_of s t _ Hi Ht) as (th & Et & _ & Hen).
  destruct (so_woke _ _ _ _ _ Hs) as (Hnd & Hfl & Ex). pose proof (Ex t) as Ext. rewrite Et in Ext. unfold off in Hall.
  destruct (decide (t ∈ woken)); [by eexists|]. destruct (sync_sleep th) eqn:Es; [|by exists th].
  specialize (Hen eq_refl). rewrite Forall_forall in Hen. specialize (Hen _ Hin). specialize (Hall Hc t Hen). rewrite Ext in Hall. by exists th.
Qed.

(** ** Runs of events *)
Fixpoint late_run (fuel : nat) (s : sys) (es : list event) : bool :=
  match es with
  | [] => false
  | e :: es => late s e || match exec load exists_obj vm fuel s e with Ret s => late_run fuel s es | _ => false end
  end.

Lemma run_steps fuel es s s' : Forall event_ok es -> late_run fuel s es = false -> run load exists_obj vm fuel s es = Ret s' -> rtc (step fuel) s s'.
Proof.
  revert s. induction es as [|e es IH]; intros s; cbn [late_run run]; [intros _ _ [= <-]; apply rtc_refl|].
  intros [He Hes]%Forall_cons [Hl Hls]%orb_false_iff. destruct (exec load exists_obj vm fuel s e) as [s1| |] eqn:E; [|done|done].
  cbn [obind]. intros Hr. eapply rtc_l; [by exists e|]. by apply IH.
Qed.
End system.

(** ** Examples *)
Fixpoint assoc_put {K V} `{EqDecision K} (k : K) (v : V) (l : list (K * V)) : list (K * V) :=
  match l with
  | [] => []
  | kv :: l => if decide (kv.1 = k) then (k, v) :: l else kv :: assoc_put k v l
  end.

Fixpoint assoc_remove {K V} `{EqDecision K} (k : K) (l : list (K * V)) : list (K * V) :=
  match l with
  | [] => []
  | kv :: l => if decide (kv.1 = k) then last_first l else kv :: assoc_remove k l
  end.

Lemma assoc_put_split {K V} `{EqDecision K} (k : K) (v v0 : V) a b : k ∉ a.*1 -> assoc_put k v (a ++ (k, v0) :: b) = a ++ (k, v) :: b.
Proof.
  induction a as [|[k' v'] a IH]; cbn; [by rewrite decide_True by done|]. intros Hk. apply not_elem_of_cons in Hk as [Hne Hk].
  rewrite decide_False by congruence. by rewrite IH.
Qed.

Lemma assoc_remove_split {K V} `{EqDecision K} (k : K) (v : V) a b : k ∉ a.*1 -> assoc_remove k (a ++ (k, v) :: b) = a ++ last_first b.
Proof.
  induction a as [|[k' v'] a IH]; cbn; [by rewrite decide_True by done|]. intros Hk. apply not_elem_of_cons in Hk as [Hne Hk].
  rewrite decide_False by congruence. by rewrite IH.
Qed.

Lemma assoc_remove_out {K V} `{EqDecision K} (k : K) (l : list (K * V)) : k ∉ l.*1 -> assoc_remove k l = l.
Proof.
  induction l as [|[k' v'] l IH]; cbn; [done|]. intros Hk. apply not_elem_of_cons in Hk as [Hne Hk]. rewrite decide_False by congruence. by rewrite IH.
Qed.

Definition assoc_insert {K V} `{EqDecision K} (n : nat) (m : list (K * V)) (k : K) (v : V) : option (list (K * V)) :=
  if decide (k ∈ m.*1) then Some (assoc_put k v m) else if decide (length m < n)%nat then Some (m ++ [(k, v)]) else None.

#[local] Program Instance list_IndexMap : IndexMap (fun K V _ => list (K * V)) := {|
  im_new _ _ _ := [];
  im_entries _ _ _ m := m;
  im_insert _ _ n _ m k v := assoc_insert n m k v;
  im_remove _ _ _ _ m k := assoc_remove k m
|}.
Next Obligation. done. Qed.
Next Obligation.
  intros K V n ? m a b k v0 v -> Hk. unfold assoc_insert. rewrite decide_True by (rewrite fmap_app, fmap_cons, elem_of_app; right; by left).
  eexists. split; [done|]. by apply assoc_put_split.
Qed.
Next Obligation. intros K V n ? m k v Hk Hl. unfold assoc_insert. rewrite decide_False, decide_True by done. by eexists. Qed.
Next Obligation. intros K V n ? m k v Hk Hl. unfold assoc_insert. rewrite decide_False, decide_False by (done || lia). done. Qed.
Next Obligation. intros K V n ? m a b k v -> Hk. by apply assoc_remove_split. Qed.
Next Obligation. intros K V n ? m k Hk. by apply assoc_remove_out. Qed.

(** Memory is one number, the value of every word; threads have no mappings. *)
Definition ex_load (m : Z) (_ : bool) (_ : nat) (_ : Z) : Z := m.
Definition ex_exists (_ : nat) : bool := true.
Definition ex_vm (_ : nat) (_ : Z) : option nat := None.

Abbreviation ex_sys := (sys (Map := fun K V n => list (K * V)) (mem := Z)).

Definition ex_run (es : list (event (mem := Z))) : outcome ex_sys := run ex_load ex_exists ex_vm 5 (init 4 0) es.

Definition sleep_on (o : nat) (a : Z) : ThreadSync := Sleep (mkSleep (ObjectRef o a) 0 Equal 0).
Definition wake_on (o : nat) (a n : Z) : ThreadSync := Wake (mkWake (ObjectRef o a) n).

(** Thread [t] sleeps on word [a] of object [o]. *)
Definition go_sleep (t o : nat) (a : Z) : list (event (mem := Z)) := ECall t [sleep_on o a] false :: replicate 6 (EStep t).

(** Thread [t] wakes up to [n] threads, up to the requeueing. *)
Definition go_wake (t o : nat) (a n : Z) : list (event (mem := Z)) := [ECall t [wake_on o a n] false; EStep t].

Definition place (s : ex_sys) (t : nat) : option (pc * Thread) :=
  match pcs s !! t, ths s !! t with Some p, Some th => Some (p, th) | _, _ => None end.

Lemma ex_steps es s : Forall (event_ok (mem := Z)) es -> late_run ex_load ex_exists ex_vm 5 (init 4 0) es = false -> ex_run es = Ret s ->
  rtc (step ex_load ex_exists ex_vm 5) (init 4 0) s.
Proof. apply run_steps. Qed.

Ltac ex_events := repeat first [exact I | reflexivity | apply Forall_nil | apply Forall_cons; split | split; [by left|]].

(** Two threads sleep on a word, one of them is taken by a waker and not yet requeued. *)
Definition ex_events_1 : list (event (mem := Z)) := go_sleep 1 0 8 ++ go_sleep 2 0 8 ++ go_wake 0 0 8 1.


Lemma woken_runs_witness : exists s, ex_run ex_events_1 = Ret s /\
  exists es, (length es <= 2)%nat /\ (forall e, e ∈ es -> e = ERequeue \/ exists k, e = EHand k) /\ runs ex_load ex_exists ex_vm 5 s 1 es.
Proof.
  eexists. split; [vm_compute; reflexivity|].
  eapply (woken_runs ex_load ex_exists ex_vm 4 0 5); [|vm_compute; reflexivity|vm_compute; reflexivity|reflexivity].
  apply (ex_steps ex_events_1); [ex_events|vm_compute; reflexivity..].
Defined.

Definition ex_events_2 : list (event (mem := Z)) := go_sleep 1 0 8 ++ go_sleep 2 0 8 ++ [ECall 0 [wake_on 0 8 100] false].

Lemma wake_reaches_witness : exists s, ex_run ex_events_2 = Ret s /\
  exists s', exec ex_load ex_exists ex_vm 5 s (EStep 0) = Ret s' /\
    forall t c, pcs s !! t = Some (At Asleep c) -> (0%nat, 8) ∈ unsleeps c -> exists th, ths s' !! t = Some th /\ sync_sleep th = false.
Proof.
  eexists. split; [vm_compute; reflexivity|].
  eapply (wake_reaches ex_load ex_exists ex_vm 4 0 5); [|vm_compute; reflexivity|reflexivity|vm_compute; reflexivity].
  apply (ex_steps ex_events_2); [ex_events|vm_compute; reflexivity..].
Defined.
End ThreadSyncInv.
