(* ===== verification/ThreadSyncLost.v ===== *)
(** * Word waits that go wrong

    [lost_forever]: a thread off its processor whose flag is off and which is in nobody's
    hands, on no list and in no run queue stays so whatever happens next.
    [late_removal_loses] is a run of [sys_thread_sync] that leaves a thread like that.
    [stale_entry_steals]: an entry left behind takes a wake from the thread it was meant
    for.  [add_thread_recurs]: entering a word that sixteen such entries fill does not
    return.  [bad_arguments_panic]: two calls that panic. *)
From S2P Require Import Prelude Address ThreadSync ThreadSyncInv.
Import Address ThreadSync ThreadSyncInv.

#[local] Open Scope Z_scope.

Module ThreadSyncLost.

Abbreviation threads := (gmap nat Thread).

Section lost.
Context `{IndexMap Map} {mem : Type} (load : mem -> bool -> nat -> Z -> Z) (exists_obj : nat -> bool) (vm : nat -> Z -> option nat).

Abbreviation sys := (ThreadSync.sys (Map := Map) (mem := mem)).

(** Thread [t], whose flag is off, is as it was and has not been taken. *)
Definition passed (t : nat) (th : Thread) (x : threads) (w : list nat) : Prop := x !! t = Some th /\ t ∉ w.

Section passed.
Context (t : nat) (th : Thread) (Hoff : sync_sleep th = false).

Lemma reset_passed x j : x !! t = Some th -> let '(b, x') := reset_sync_sleep x j in x' !! t = Some th /\ (b = true -> j <> t).
Proof.
  intros Et. unfold reset_sync_sleep. destruct (decide (j = t)) as [->|Hne].
  - rewrite Et, Hoff. split; [|done]. rewrite lookup_alter_eq, Et. cbn. f_equal. by destruct th; cbn in *; subst.
  - split; [|done]. by rewrite lookup_alter_ne.
Qed.

Lemma wake_n_loop_passed fuel e x max count idx w e' x' w' : passed t th x w -> wake_n_loop fuel e x max count idx w = Ret (e', x', w') -> passed t th x' w'.
Proof.
  revert e x count idx w. induction fuel as [|f IH]; intros e x count idx w [Et Hw]; cbn [wake_n_loop]; [done|].
  destruct (idx <? SLEEPERS)%nat; [|by intros [= <- <- <-]]. destruct (max <=? Z.of_nat count); [by intros [= <- <- <-]|].
  destruct (im_entries (threads_of e) !! idx) as [[id u]|]; [|by apply IH].
  pose proof (reset_passed x id Et) as Hr. destruct (reset_sync_sleep x id) as [b x1]. destruct Hr as [Et1 Hne].
  destruct b; apply IH; split; try done. rewrite not_elem_of_app, list_elem_of_singleton. split; [done|]. intros ->. by apply Hne.
Qed.

Lemma add_thread_passed fuel e x j e' x' w' : x !! t = Some th -> add_thread fuel e x j = Ret (e', x', w') -> passed t th x' w'.
Proof.
  revert e x w'. induction fuel as [|f IH]; intros e x w' Et; cbn [add_thread];
    (destruct (im_insert (threads_of e) j ()) as [m|]; [intros [= <- <- <-]; split; [done|set_solver]|]); [done|].
  unfold wake_n. destruct (wake_n_loop _ e x 2 0 0 []) as [[[e1 x1] w1]| |] eqn:Ew; [|done|done]. cbn [obind].
  destruct (wake_n_loop_passed _ _ _ _ _ _ _ _ _ _ (conj Et (not_elem_of_nil _)) Ew) as [Et1 Hw1].
  destruct (add_thread f e1 x1 j) as [[[e2 x2] w2]| |] eqn:Ea; [|done|done]. cbn [obind]. intros [= <- <- <-].
  destruct (IH _ _ _ Et1 Ea) as [Et2 Hw2]. split; [done|]. by rewrite not_elem_of_app.
Qed.

Lemma foldl_passed {A} (f : threads * list nat -> A -> threads * list nat) l acc :
  (forall x w a, passed t th x w -> let '(x', w') := f (x, w) a in passed t th x' w') ->
  passed t th acc.1 acc.2 -> let '(x', w') := foldl f acc l in passed t th x' w'.
Proof.
  intros Hf. revert acc. induction l as [|a l IH]; intros [x w] Hp; cbn; [done|]. apply IH. specialize (Hf x w a Hp). by destruct (f (x, w) a).
Qed.

Lemma entry_drop_passed e x : x !! t = Some th -> let '(x', w') := entry_drop e x in passed t th x' w'.
Proof.
  intros Et. apply foldl_passed; [|split; [done|apply not_elem_of_nil]]. intros x1 w [id u] [E1 Hw].
  pose proof (reset_passed x1 id E1) as Hr. destruct (reset_sync_sleep x1 id) as [b x2]. destruct Hr as [E2 Hne]. split; [done|].
  destruct b; [|done]. rewrite not_elem_of_app, list_elem_of_singleton. split; [done|]. intros ->. by apply Hne.
Qed.

Lemma clear_words_passed ws x : x !! t = Some th -> let '(x', w') := clear_words ws x in passed t th x' w'.
Proof.
  intros Et. apply foldl_passed; [|split; [done|apply not_elem_of_nil]]. intros x1 w [a e] [E1 Hw].
  pose proof (entry_drop_passed e x1 E1) as Hd. destruct (entry_drop e x1) as [x2 w2]. destruct Hd as [E2 Hw2]. split; [done|].
  by rewrite not_elem_of_app.
Qed.

Lemma si_insert_passed fuel si x a j si' x' w' : x !! t = Some th -> si_insert fuel si x a j = Ret (si', x', w') -> passed t th x' w'.
Proof.
  intros Et. unfold si_insert. destruct (word si a) as [se|].
  - destruct (add_thread fuel se x j) as [[[e1 x1] w1]| |] eqn:Ea; [|done|done]. cbn [obind]. intros [= <- <- <-]. by eapply add_thread_passed.
  - destruct (more_words si); [intros [= <- <- <-]; split; [done|apply not_elem_of_nil]|].
    destruct (im_insert (some_words si) a (SleepEntry_new j)); [intros [= <- <- <-]; split; [done|apply not_elem_of_nil]|].
    pose proof (clear_words_passed (im_entries (some_words si)) x Et) as Hc. destruct (clear_words _ x) as [x1 w1]. by intros [= <- <- <-].
Qed.

Lemma si_wake_n_passed si x a n si' x' w' : x !! t = Some th -> si_wake_n si x a n = Ret (si', x', w') -> passed t th x' w'.
Proof.
  intros Et. unfold si_wake_n. destruct (word si a) as [se|]; [|intros [= <- <- <-]; split; [done|apply not_elem_of_nil]].
  unfold wake_n. destruct (wake_n_loop _ se x n 0 0 []) as [[[e1 x1] w1]| |] eqn:Ew; [|done|done]. cbn [obind]. intros [= <- <- <-].
  eapply wake_n_loop_passed; [|done]. split; [done|apply not_elem_of_nil].
Qed.
End passed.

(** ** Nothing finds the thread *)
Record lost (s : sys) (t : nat) : Prop := {
  l_pc : exists c, pcs s !! t = Some (At Asleep c);
  l_th : exists th, ths s !! t = Some th /\ sync_sleep th = false /\ ready th = false;
  l_requeue : t ∉ requeue s;
  l_hands : Forall (fun h => hand_of h <> t) (hands s) }.

(** What a step of another thread does to [t]. *)
Lemma lost_by s s' t : lost s t -> pcs s' !! t = pcs s !! t -> ths s' !! t = ths s !! t -> (t ∉ requeue s') -> Forall (fun h => hand_of h <> t) (hands s') -> lost s' t.
Proof. intros [Hp Ht _ _] Ep Et Hq Hh. split; [by rewrite Ep|by rewrite Et|done..]. Qed.

Lemma lost_locked s t j p o si x w th : lost s t -> j <> t -> ths s !! t = Some th -> passed t th x w -> lost (set_pc (locked s o si x w) j p) t.
Proof.
  intros Hl Hj Et [Ex Hw]. eapply lost_by; [done|cbn; by rewrite lookup_insert_ne|cbn; congruence|exact (l_requeue _ _ Hl)|]. cbn.
  apply Forall_app. split; [exact (l_hands _ _ Hl)|]. apply Forall_fmap, Forall_forall. cbn. by intros i Hi <-.
Qed.

Lemma lost_own s t j p x : lost s t -> j <> t -> x !! t = ths s !! t -> lost (set_pc (set_ths s x) j p) t.
Proof. intros Hl Hj Ex. eapply lost_by; [done|cbn; by rewrite lookup_insert_ne|done|exact (l_requeue _ _ Hl)|exact (l_hands _ _ Hl)]. Qed.

Lemma requeue_one_other l t acc q x : (t ∉ l) -> foldl requeue_one acc l = Ret (q, x) ->
  exists q0 x0, acc = Ret (q0, x0) /\ x !! t = x0 !! t /\ ((t ∉ q0) -> t ∉ q).
Proof.
  revert acc. induction l as [|j l IH]; intros acc Hl; cbn [foldl]; [intros ->; by exists q, x|]. apply not_elem_of_cons in Hl as [Hj Hl].
  intros E. destruct (IH _ Hl E) as (q1 & x1 & E1 & Ex & Hq). destruct acc as [[q0 x0]| |]; [|done|done]. exists q0, x0. split; [done|].
  cbn in E1. destruct (negb (is_critical x0 j)); [|by injection E1 as <- <-]. destruct (match x0 !! j with Some th => _ | None => _ end).
  - unfold schedule_thread in E1. destruct (alter done_off j x0 !! j) as [th|]; [|done]. cbn in E1. destruct (negb (ready th)); [|done]. cbn in E1.
    injection E1 as <- <-. rewrite Ex, lookup_insert_ne, lookup_alter_ne by done. split; [done|set_solver].
  - injection E1 as <- <-. by rewrite Ex, lookup_alter_ne.
Qed.

Lemma requeue_all_lost s s' t : lost s t -> requeue_all s = Ret s' -> lost s' t.
Proof.
  intros Hl. unfold requeue_all. destruct (foldl _ _ _) as [[q x]| |] eqn:E; [|done|done]. cbn [obind]. intros [= <-].
  eapply (requeue_one_other _ t) in E as (q0 & x0 & [= <- <-] & Ex & Hq); [|rewrite elem_of_elements; exact (l_requeue _ _ Hl)].
  eapply lost_by; [done|done|done|exact (Hq (l_requeue _ _ Hl))|exact (l_hands _ _ Hl)].
Qed.

Lemma lost_pc s t j p : lost s t -> j <> t -> lost (set_pc s j p) t.
Proof. intros Hl Hj. eapply lost_by; [done|cbn; by rewrite lookup_insert_ne|done|exact (l_requeue _ _ Hl)|exact (l_hands _ _ Hl)]. Qed.

Lemma loop_step_lost s s' t j todo c : lost s t -> j <> t -> loop_step load exists_obj vm s j todo c = Ret s' -> lost s' t.
Proof.
  intros Hl Hj. pose proof (l_th _ _ Hl) as (th & Et & Hoff & _). destruct todo as [|[sl|wk] todo]; cbn [loop_step].
  - intros [= <-]. by apply lost_pc.
  - destruct (get_obj _ _ _ _) as [[[[o a] va]|]| |]; [..|done|done]; cbn [obind]; [destruct (_ && _)|]; intros [= <-]; by apply lost_pc.
  - destruct (get_obj _ _ _ _) as [[[[o a] va]|]| |]; [..|done|done]; cbn [obind]; [|intros [= <-]; by apply lost_pc].
    destruct (si_wake_n _ _ _ _) as [[[si x] w]| |] eqn:E; [|done|done]. cbn [obind]. intros [= <-].
    eapply lost_locked; [done..|]. by eapply si_wake_n_passed.
Qed.

Lemma locked_step_lost fuel s s' t j sl o a todo c : lost s t -> j <> t -> locked_step load fuel s j sl o a todo c = Ret s' -> lost s' t.
Proof.
  intros Hl Hj. pose proof (l_th _ _ Hl) as (th & Et & Hoff & _). unfold locked_step.
  destruct (must_sleep _ _ _ _ _); [|intros [= <-]; by apply lost_pc].
  destruct (si_insert _ _ _ _ _) as [[[si x] w]| |] eqn:E; [|done|done]. cbn [obind]. intros [= <-].
  eapply lost_locked; [done..|]. eapply si_insert_passed; [done| |done].
  destruct (Nat.eqb _ _); [|done]. unfold set_sync_sleep. by rewrite lookup_alter_ne.
Qed.

Lemma hand_step_lost s s' t k : lost s t -> hand_step s k = Ret s' -> lost s' t.
Proof.
  intros Hl. pose proof (l_hands _ _ Hl) as Hh. unfold hand_step. destruct (hands s !! k) as [h|] eqn:Ek; [|by intros [= <-]].
  assert (hand_of h <> t) as Hne by (by eapply Forall_lookup_1 in Hh).
  assert (forall h', hand_of h' = hand_of h -> Forall (fun h => hand_of h <> t) (<[k := h']> (hands s))) as Hi
    by (intros h' E'; apply Forall_insert; [done|by rewrite E']).
  pose proof (Forall_delete _ _ k Hh) as Hd. pose proof (l_requeue _ _ Hl) as Hq.
  destruct h as [j|j|j|j]; cbn in Hne.
  - intros [= <-]. eapply lost_by; [done|done|done|done|]. apply Hi. by destruct (is_critical _ _).
  - destruct (reset_sync_sleep_done (ths s) j) as [b x] eqn:E. unfold reset_sync_sleep_done in E. injection E as Eb <-. destruct b.
    + unfold schedule_thread. destruct (alter done_off j (ths s) !! j) as [th|]; [|done]. cbn. destruct (negb (ready th)); [|done]. cbn.
      intros [= <-]. eapply lost_by; [done|done|cbn; by rewrite lookup_insert_ne, lookup_alter_ne|done|by apply Hi].
    + intros [= <-]. eapply lost_by; [done|done|cbn; by rewrite lookup_alter_ne|done|by apply Hi].
  - intros [= <-]. eapply lost_by; [done|done|done|cbn; set_solver|done].
  - intros [= <-]. eapply lost_by; [done|done|done|cbn; set_solver|done].
Qed.

Lemma reset_lost s t j b x : lost s t -> reset_sync_sleep (ths s) j = (b, x) -> lost (set_hands (set_ths s x) (hands s ++ if b : bool then [HAdd j] else [])) t.
Proof.
  intros Hl E. pose proof (l_th _ _ Hl) as (th & Et & Hoff & _). pose proof (reset_passed t th Hoff (ths s) j Et) as Hr. rewrite E in Hr.
  destruct Hr as [Ex Hne]. eapply lost_by; [done|done|cbn; congruence|exact (l_requeue _ _ Hl)|]. cbn. apply Forall_app.
  split; [exact (l_hands _ _ Hl)|]. destruct b; [|done]. repeat constructor. by apply Hne.
Qed.

Lemma exit_lost s t j x p : lost s t -> j <> t -> exit_critical (ths s) j = Ret x -> lost (set_pc (set_ths s x) j p) t.
Proof.
  intros Hl Hj. unfold exit_critical. destruct (ths s !! j) as [th|]; [|done]. cbn [unwrap obind].
  destruct (0 <? critical th)%nat; [|done]. cbn [rassert obind]. intros E. injection E as <-.
  apply lost_own; [done|done|by rewrite lookup_insert_ne].
Qed.

Lemma stage_step_lost s s' t j st c : lost s t -> j <> t -> stage_step s j st c = Ret s' -> lost s' t.
Proof.
  intros Hl Hj. pose proof (l_requeue _ _ Hl) as Hq.
  assert (forall x p, x !! t = ths s !! t -> lost (set_pc (set_ths s x) j p) t) as Hown by (intros x p Ex; by apply lost_own).
  assert (forall f, alter f j (ths s) !! t = ths s !! t) as Ha by (intros f; by rewrite lookup_alter_ne).
  pose proof (l_th _ _ Hl) as (th & Et & Hoff & _).
  destruct st; cbn [stage_step].
  - destruct (requeue_all s) as [s1| |] eqn:E; [|done|done]. intros [= <-]. apply lost_pc; [by eapply requeue_all_lost|done].
  - intros [= <-]. apply Hown, Ha.
  - intros [= <-]. apply Hown, Ha.
  - destruct (reset_sync_sleep (ths s) j) as [b x] eqn:E. intros [= <-]. apply lost_pc; [by apply reset_lost|done].
  - destruct (requeue_all s) as [s1| |] eqn:E; [|done|done]. intros [= <-]. apply lost_pc; [by eapply requeue_all_lost|done].
  - destruct (exit_critical (ths s) j) as [x| |] eqn:E; [|done|done]. intros [= <-]. by apply exit_lost.
  - destruct (exit_critical (ths s) j) as [x| |] eqn:E; [|done|done]. intros [= <-]. by apply exit_lost.
  - by intros [= <-].
  - destruct (unsleeps c) as [|[o a] us]; intros [= <-]; [by apply lost_pc|]. eapply lost_locked; [done..|]. split; [done|apply not_elem_of_nil].
  - destruct (c_kind c); intros [= <-]; apply Hown, Ha.
  - intros [= <-]; apply Hown, Ha.
  - destruct (c_kind c); intros [= <-]; (apply lost_pc; [|done]); (eapply lost_by; [done|done|done|cbn; set_solver|exact (l_hands _ _ Hl)]).
Qed.

Lemma sys_thread_sync_lost s s' t j ops timeout : lost s t -> j <> t -> sys_thread_sync s j ops timeout = Ret s' -> lost s' t.
Proof.
  intros Hl Hj. unfold sys_thread_sync. destruct ops as [|op [|op' ops]].
  - destruct timeout; [|done]. intros [= <-]. apply lost_own; [done|done|].
    unfold set_sync_sleep. by rewrite lookup_alter_ne.
  - intros [= <-]. by apply lost_pc.
  - destruct (_ <? _)%nat; intros [= <-]; [done|by apply lost_pc].
Qed.

Lemma exec_lost fuel s s' t e : lost s t -> exec load exists_obj vm fuel s e = Ret s' -> lost s' t.
Proof.
  intros Hl. pose proof (l_pc _ _ Hl) as [c0 Hp]. pose proof (l_th _ _ Hl) as (th & Et & Hoff & Hr). destruct e as [j ops timeout|j|k|j|j| |m]; cbn [exec].
  - destruct (decide (j = t)) as [->|Hj]; [rewrite Hp; by intros [= <-]|].
    destruct (pcs s !! j) as [[| | | |]|]; try (by intros [= <-]). by apply sys_thread_sync_lost.
  - destruct (decide (j = t)) as [->|Hj]; [rewrite Hp; by intros [= <-]|].
    destruct (pcs s !! j) as [[|todo c|sl o a todo c| |st c]|]; try (by intros [= <-]).
    + by apply loop_step_lost.
    + by apply locked_step_lost.
    + destruct (requeue_all s) as [s1| |] eqn:E; [|done|done]. intros [= <-]. apply lost_pc; [by eapply requeue_all_lost|done].
    + by apply stage_step_lost.
  - by apply hand_step_lost.
  - destruct (decide (j = t)) as [->|Hj]; [rewrite Hp, Et, Hr; by intros [= <-]|].
    destruct (pcs s !! j) as [[| | | |[] c]|], (ths s !! j) as [th'|]; intros [= <-]; try done. destruct (ready th'); [|done].
    apply lost_own; [done|done|by rewrite lookup_alter_ne].
  - destruct (reset_sync_sleep (ths s) j) as [b x] eqn:E. intros [= <-]. by apply reset_lost.
  - by apply requeue_all_lost.
  - intros [= <-]. eapply lost_by; [done|done|done|exact (l_requeue _ _ Hl)|exact (l_hands _ _ Hl)].
Qed.

Lemma run_lost fuel es s s' t : lost s t -> run load exists_obj vm fuel s es = Ret s' -> lost s' t.
Proof.
  revert s. induction es as [|e es IH]; intros s Hl; cbn [run]; [by intros [= <-]|].
  destruct (exec load exists_obj vm fuel s e) as [s1| |] eqn:E; [|done|done]. apply IH. by eapply exec_lost.
Qed.

(** ** Full words *)
Lemma reset_off (x : threads) j : off x j -> reset_sync_sleep x j = (false, x).
Proof.
  unfold off, reset_sync_sleep. destruct (x !! j) as [th|] eqn:E; intros Ho.
  - rewrite Ho. f_equal. apply map_eq. intros i. destruct (decide (i = j)) as [->|Hne]; [|by rewrite lookup_alter_ne].
    rewrite lookup_alter_eq, E. cbn. f_equal. by destruct th; cbn in *; subst.
  - f_equal. apply map_eq. intros i. destruct (decide (i = j)) as [->|Hne]; [by rewrite lookup_alter_eq, E|by rewrite lookup_alter_ne].
Qed.

Lemma wake_n_loop_off fuel (e : SleepEntry (Map := Map)) x max count idx w : Forall (off x) (ekeys e) -> (idx <= SLEEPERS < idx + fuel)%nat ->
  wake_n_loop fuel e x max count idx w = Ret (e, x, w).
Proof.
  intros Hoff. revert idx. induction fuel as [|f IH]; intros idx Hf; cbn [wake_n_loop].
  - lia.
  - destruct (Nat.ltb_spec idx SLEEPERS) as [Hi|Hi]; [|done]. destruct (max <=? Z.of_nat count); [done|].
    destruct (im_entries (threads_of e) !! idx) as [[id u]|] eqn:E; [|apply IH; lia].
    rewrite reset_off; [apply IH; lia|]. rewrite Forall_forall in Hoff. apply Hoff. apply list_elem_of_fmap. exists (id, u). split; [done|].
    by eapply list_elem_of_lookup_2.
Qed.

Lemma add_thread_full fuel (e : SleepEntry (Map := Map)) x t : Forall (off x) (ekeys e) -> (SLEEPERS <= length (im_entries (threads_of e)))%nat -> (t ∉ ekeys e) ->
  add_thread fuel e x t = NoFuel.
Proof.
  intros Hoff Hl Ht. induction fuel as [|f IH]; cbn [add_thread]; rewrite (im_insert_full _ _ _ Ht Hl); [done|].
  unfold wake_n. rewrite wake_n_loop_off by (done || (unfold SLEEPERS; lia)). cbn [obind]. by rewrite IH.
Qed.
End lost.

#[local] Existing Instance list_IndexMap.

Abbreviation lost_sys := (ThreadSync.sys (Map := fun K V _ => list (K * V)) (mem := Z)).

(** Thread 1 sleeps on object 0 and thread 0 wakes it, but is delayed before its last access
    of the requeue list.  Thread 1 runs, and is going to sleep on object 1 when thread 2
    wakes it: it is still critical, and is put on the requeue list, from which thread 0
    takes it. *)
Definition late_events : list (event (mem := Z)) :=
  go_sleep 1 0 0 ++ go_wake 0 0 0 1 ++ [EHand 0; EHand 0; EDispatch 1; EStep 1; EStep 1; EStep 1] ++
  [ECall 1 [sleep_on 1 0] false; EStep 1; EStep 1; EStep 1] ++
  go_wake 2 1 0 1 ++ [EHand 1; EHand 1; EStep 2; EHand 0; EStep 1; EStep 1; EStep 1].

Lemma late_summary : match ex_run late_events with
  | Ret s => Some (place s 1, bool_decide (1%nat ∈ requeue s), hands s)
  | _ => None
  end = Some (Some (At Asleep (mkCall Single [(1%nat, 0)] 1 true), mkThread false true 0 false), false, []).
Proof. vm_compute. reflexivity. Qed.

(** There is a run of four threads, each call of which respects the interface, after which
    a thread is asleep though the word it sleeps on has been woken after it was entered,
    and it stays asleep whatever calls, wakes, messages and requeueing follow: the last
    access of [add_to_requeue] takes the thread off the requeue list, where a later wake
    has put it. *)
Theorem late_removal_loses : exists s : lost_sys, ex_run late_events = Ret s /\ place s 1 = Some (At Asleep (mkCall Single [(1%nat, 0)] 1 true), mkThread false true 0 false) /\
  forall fuel es s', run ex_load ex_exists ex_vm fuel s es = Ret s' -> exists c th, place s' 1 = Some (At Asleep c, th) /\ ready th = false.
Proof.
  pose proof late_summary as E. destruct (ex_run late_events) as [s| |]; [|done|done]. injection E as Ep Eq Eh.
  exists s. split; [done|]. split; [done|]. intros fuel es s' Hr. unfold place in Ep.
  destruct (pcs s !! 1%nat) as [p|] eqn:Epc; [|done]. destruct (ths s !! 1%nat) as [th|] eqn:Et; [|done]. injection Ep as -> ->.
  apply (run_lost _ _ _ _ _ _ _ 1) in Hr as [[c Hc] (th & Eth & _ & Hn) _ _]; [exists c, th; unfold place; by rewrite Hc, Eth|].
  split; [by eexists|by eexists|by apply bool_decide_eq_false in Eq|by rewrite Eh].
Qed.

(** Thread 1 sleeps on word 0 and gets a message; it then sleeps on word 8, and thread 2 on
    word 0.  Thread 0 wakes one thread on word 0. *)
Definition stale_events : list (event (mem := Z)) :=
  go_sleep 1 0 0 ++ [EKick 1; EHand 0; EHand 0; EHand 0; EDispatch 1; EStep 1; EStep 1; EStep 1] ++
  go_sleep 1 0 8 ++ go_sleep 2 0 0 ++ go_wake 0 0 0 1 ++ [EHand 0; EHand 0; EHand 0; EStep 0].

(** [optimized_single_sleep] leaves its entry in the table of the word when a message wakes
    it.  In a run, a wake for one thread on that word is then spent on a thread that sleeps
    on another word, and the thread that sleeps on the word sleeps on. *)
Theorem stale_entry_steals : exists s : lost_sys, ex_run stale_events = Ret s /\ pcs s !! 0%nat = Some Out /\ hands s = [] /\ requeue s = ∅ /\
  place s 1 = Some (At Asleep (mkCall Single [(0%nat, 8)] 1 true), mkThread false false 0 true) /\
  place s 2 = Some (At Asleep (mkCall Single [(0%nat, 0)] 1 true), mkThread true true 0 false).
Proof. eexists. split; [vm_compute; reflexivity|]. by vm_compute. Qed.

(** Sixteen threads sleep on a word and get a message each; another one is about to sleep on
    it. *)
Definition full_events : list (event (mem := Z)) :=
  flat_map (fun t => go_sleep t 0 0 ++ [EKick t; EHand 0; EHand 0; EHand 0; EDispatch t; EStep t; EStep t; EStep t]) (seq 1 16) ++
  [ECall 0 [sleep_on 0 0] false; EStep 0].

Definition full_run : outcome lost_sys := run ex_load ex_exists ex_vm 5 (init 17 0) full_events.

Lemma full_summary : match full_run with
  | Ret s => pcs s !! 0%nat = Some (Locked (mkSleep (ObjectRef 0 0) 0 Equal 0) 0 0 [] (mkCall Single [] 0 false)) /\ memory s = 0 /\
      ekeys <$> word (info s 0) 0 = Some (seq 1 16) /\ forallb (fun t => bool_decide (sync_sleep <$> ths s !! t = Some false)) (seq 1 16) = true
  | _ => False
  end.
Proof. vm_compute. done. Qed.

(** A call of [sys_thread_sync] that sleeps on a word at which sixteen threads are entered
    that do not sleep any more never returns, however long it runs: [add_thread] wakes
    nobody, finds the table as full as before and calls itself.  A run of seventeen
    threads that use words and messages gets there. *)
Theorem add_thread_recurs : exists s : lost_sys, full_run = Ret s /\
  pcs s !! 0%nat = Some (Locked (mkSleep (ObjectRef 0 0) 0 Equal 0) 0 0 [] (mkCall Single [] 0 false)) /\
  forall fuel, exec ex_load ex_exists ex_vm fuel s (EStep 0) = NoFuel.
Proof.
  pose proof full_summary as E. destruct full_run as [s| |]; [|done|done]. destruct E as (Ep & Em & Ew & Ex).
  exists s. split; [done|]. split; [done|]. intros fuel. cbn [exec]. rewrite Ep. unfold locked_step, must_sleep. rewrite Em. cbn -[si_insert].
  destruct (word (info s 0) 0) as [e|] eqn:Ee; [|done]. assert (ekeys e = seq 1 16) as Ek by (by injection Ew). unfold si_insert. rewrite Ee, add_thread_full; [done|..]; rewrite ?Ek.
  - apply Forall_forall. intros t Ht. rewrite forallb_forall in Ex.
    specialize (Ex t (proj1 (list_elem_of_In _ _) Ht)). apply bool_decide_eq_true in Ex. unfold off, set_sync_sleep.
    rewrite lookup_alter_ne by (apply elem_of_seq in Ht; lia). destruct (ths s !! t); [by injection Ex|done].
  - apply (f_equal length) in Ek. unfold ekeys, keys in Ek. rewrite length_fmap in Ek. by rewrite Ek.
  - intros Ht. apply elem_of_seq in Ht. lia.
Qed.

(** A call with no operations and no timeout panics in the kernel, and so does one that
    names an address that is not canonical, whatever state the machine is in. *)
Theorem bad_arguments_panic `{IndexMap Map} {mem : Type} (load : mem -> bool -> nat -> Z -> Z) exists_obj vm fuel (s : ThreadSync.sys (Map := Map) (mem := mem)) t :
  pcs s !! t = Some Out ->
  exec load exists_obj vm fuel s (ECall t [] false) = Panic /\
  (forall addr sl, canonical addr = false -> sl_reference sl = Virtual addr ->
     run load exists_obj vm fuel s [ECall t [Sleep sl] false; EStep t] = Panic).
Proof.
  intros Hp. split; [cbn; by rewrite Hp|]. intros addr sl Ha Hs. cbn [run exec]. rewrite Hp. cbn -[get_obj]. rewrite lookup_insert_eq.
  cbn -[get_obj]. unfold get_obj, VirtAddr_new. by rewrite Hs, Ha.
Qed.

Lemma bad_arguments_panic_witness : exec ex_load ex_exists ex_vm 5 (init 4 0 : lost_sys) (ECall 1 [] false) = Panic /\
  run ex_load ex_exists ex_vm 5 (init 4 0 : lost_sys) [ECall 1 [Sleep (mkSleep (Virtual (2 ^ 50)) 0 Equal 0)] false; EStep 1] = Panic.
Proof.
  destruct (bad_arguments_panic ex_load ex_exists ex_vm 5 (init 4 0 : lost_sys) 1 eq_refl) as [E1 E2]. split; [exact E1|].
  by apply (E2 (2 ^ 50)).
Defined.
End ThreadSyncLost.
