(* ===== verification/Timeout.v ===== *)
(** * Timeouts ([src/kernel/src/clock.rs])

    The kernel keeps the callbacks that are to run at some tick in a ring of 1024 windows;
    a timeout that expires at tick [t] is in window [t mod 1024].  The clock interrupt
    advances [current] and wakes a thread that follows with [soft_current], window by
    window, and calls what has expired.  Registering gives a key with which the timeout
    can be taken back.

    A callback is named by the number of its registration.  Everything is done under the
    lock of the queue, so a step is one critical section ([event]); the condition variable
    is the state of the thread that waits on it. *)
From S2P Require Import Prelude.

#[local] Open Scope Z_scope.

Module Timeout.

Section timeout.
Context `{Build}.

Definition NR_WINDOWS : Z := 1024.
Definition NR_WINDOW_ENTRIES : Z := 32.

Record TimeoutEntry := mkTE { timeout : nat; expire_ticks : Z; te_key : Z }.

Definition is_ready (e : TimeoutEntry) (cur : Z) : bool := expire_ticks e <=? cur.

(** [f_next_key] is the field [next_key]; the stack [keys] has its top first. *)
Record TimeoutQueue := mkTQ {
  queues : list (list TimeoutEntry);
  current : Z;
  next_wake : Z;
  soft_current : Z;
  keys : list Z;
  f_next_key : Z }.

Record TimeoutKey := mkKey { key : Z; window : nat }.

Definition TimeoutQueue_new : TimeoutQueue := mkTQ (replicate (Z.to_nat NR_WINDOWS) []) 0 0 0 [] 0.

Definition next_key (q : TimeoutQueue) : outcome (Z * TimeoutQueue) :=
  match keys q with
  | k :: ks => Ret (k, mkTQ (queues q) (current q) (next_wake q) (soft_current q) ks (f_next_key q))
  | [] =>
      let! k := chk 64 (f_next_key q + 1) in
      Ret (k, mkTQ (queues q) (current q) (next_wake q) (soft_current q) [] k)
  end.

(** A key that does not fit the stack is leaked. *)
Definition release_key (q : TimeoutQueue) (k : Z) : outcome TimeoutQueue :=
  if k =? f_next_key q then
    let! n := chk 64 (f_next_key q - 1) in
    Ret (mkTQ (queues q) (current q) (next_wake q) (soft_current q) (keys q) n)
  else if zlen (keys q) <? NR_WINDOW_ENTRIES * NR_WINDOWS then
    Ret (mkTQ (queues q) (current q) (next_wake q) (soft_current q) (k :: keys q) (f_next_key q))
  else Ret q.

(** [self.queues[i]] *)
Definition window_at (q : TimeoutQueue) (w : nat) : outcome (list TimeoutEntry) := unwrap (queues q !! w).

Definition put_window (q : TimeoutQueue) (w : nat) (l : list TimeoutEntry) : TimeoutQueue :=
  mkTQ (<[w := l]> (queues q)) (current q) (next_wake q) (soft_current q) (keys q) (f_next_key q).

Definition window_of (ticks : Z) : nat := Z.to_nat (ticks mod NR_WINDOWS).

(** The loop of [hard_advance] over [n] windows from [i] on. *)
Fixpoint any_window (q : TimeoutQueue) (i : Z) (n : nat) : outcome bool :=
  match n with
  | O => Ret false
  | S n =>
      let! sum := chk 64 (current q + i) in
      let! l := window_at q (window_of sum) in
      match l with [] => any_window q (i + 1) n | _ => Ret true end
  end.

(** The flag tells whether the condition variable is signalled. *)
Definition hard_advance (q : TimeoutQueue) (ticks : Z) : outcome (bool * TimeoutQueue) :=
  let! top := chk 64 (ticks + 1) in
  let! wakeup := any_window q 0 (Z.to_nat top) in
  let! cur := chk 64 (current q + ticks) in
  Ret (wakeup, mkTQ (queues q) cur (next_wake q) (soft_current q) (keys q) (f_next_key q)).

Fixpoint next_ticks_loop (q : TimeoutQueue) (i : Z) (n : nat) : outcome Z :=
  match n with
  | O => Ret NR_WINDOWS
  | S n =>
      let! sum := chk 64 (i + current q) in
      let! l := window_at q (window_of sum) in
      match l with [] => next_ticks_loop q (i + 1) n | _ => Ret i end
  end.

Definition get_next_ticks (q : TimeoutQueue) : outcome Z := next_ticks_loop q 1 (Z.to_nat (NR_WINDOWS - 2)).

Definition nano_to_ticks (time : Z) : Z := time / 1000000.

(** The last result is the callback that is called because its window is full. *)
Definition insert (q : TimeoutQueue) (time : Z) (cb : nat) : outcome (TimeoutKey * TimeoutQueue * option nat) :=
  let ticks := nano_to_ticks time in
  let! expire := chk 64 (current q + ticks) in
  let w := window_of expire in
  let! (k, q) := next_key q in
  let! l := window_at q w in
  if zlen l <? NR_WINDOW_ENTRIES then Ret (mkKey k w, put_window q w (l ++ [mkTE cb expire k]), None)
  else Ret (mkKey k w, q, Some cb).

Fixpoint remove_loop (fuel : nat) (l : list TimeoutEntry) (k : Z) : outcome (list TimeoutEntry) :=
  match fuel with
  | O => NoFuel
  | S f =>
      match position (fun e => te_key e =? k) l with
      | Some pos => let! (_, l) := swap_remove l pos in remove_loop f l k
      | None => Ret l
      end
  end.

(** Every turn removes an entry. *)
Definition remove (q : TimeoutQueue) (k : TimeoutKey) : outcome (bool * TimeoutQueue) :=
  let! l := window_at q (window k) in
  let! l' := remove_loop (S (length l)) l (key k) in
  let! q := release_key (put_window q (window k) l') (key k) in
  Ret (negb (length l =? length l')%nat, q).

Definition check_window (q : TimeoutQueue) (w : nat) : outcome (option TimeoutEntry * TimeoutQueue) :=
  let! l := window_at q w in
  match position (fun x => is_ready x (current q)) l with
  | Some index => let! (e, l) := swap_remove l index in Ret (Some e, put_window q w l)
  | None => Ret (None, q)
  end.

Definition inc_soft (q : TimeoutQueue) : outcome TimeoutQueue :=
  let! c := chk 64 (soft_current q + 1) in
  Ret (mkTQ (queues q) (current q) (next_wake q) c (keys q) (f_next_key q)).

Fixpoint soft_advance_loop (fuel : nat) (q : TimeoutQueue) : outcome (option TimeoutEntry * TimeoutQueue) :=
  match fuel with
  | O => NoFuel
  | S f =>
      if soft_current q <? current q then
        let! (t, q) := check_window q (window_of (soft_current q)) in
        match t with
        | Some t => Ret (Some t, q)
        | None => let! q := inc_soft q in soft_advance_loop f q
        end
      else check_window q (window_of (soft_current q))
  end.

(** Every turn is a tick. *)
Definition soft_advance (q : TimeoutQueue) : outcome (option TimeoutEntry * TimeoutQueue) :=
  soft_advance_loop (S (Z.to_nat (current q - soft_current q))) q.

(** ** The clock interrupt *)
Definition ticks_to_nano (ticks : Z) : option Z := if in_u 64 (ticks * 1000000) then Some (ticks * 1000000) else None.

(** The counters of a processor: [NR_CPU_TICKS] and [NEXT_TICK]. *)
Record cpu := mkCpu { nr_cpu_ticks : Z; next_tick : Z }.

(** Programming the timer has no further effect. *)
Definition schedule_oneshot_tick (c : cpu) (next : Z) : outcome cpu :=
  let! _ := unwrap (ticks_to_nano next) in
  Ret (mkCpu (nr_cpu_ticks c) next).

Definition set_next_wake (q : TimeoutQueue) (next : Z) : TimeoutQueue :=
  mkTQ (queues q) (current q) next (soft_current q) (keys q) (f_next_key q).

Definition check_reschedule_oneshot (is_bsp : bool) (q : TimeoutQueue) (c : cpu) : outcome (TimeoutQueue * cpu) :=
  if negb is_bsp then Ret (q, c)
  else
    let! next := get_next_ticks q in
    if next <? next_tick c then
      let! c := schedule_oneshot_tick c next in
      Ret (set_next_wake q next, c)
    else Ret (q, c).

Definition U64_MAX : Z := 2 ^ 64 - 1.

(** [sched] is the result of [schedule_hardtick]. *)
Definition oneshot_clock_hardtick (is_bsp : bool) (sched : option Z) (q : TimeoutQueue) (c : cpu) (bsp_tick : Z) :
    outcome (bool * TimeoutQueue * cpu * Z) :=
  let ticks := next_tick c in
  let c := mkCpu (wrap 64 (nr_cpu_ticks c + ticks)) (next_tick c) in
  let! (signal, q, bsp_tick, to_next_tick) :=
    (if is_bsp then
       let! (signal, q) := hard_advance q ticks in
       let! next := get_next_ticks q in
       Ret (signal, set_next_wake q next, wrap 64 (bsp_tick + ticks), Some next)
     else Ret (false, q, bsp_tick, None)) in
  let sched_next_tick := if is_bsp then Some 1 else sched in
  let next := Z.min (default U64_MAX to_next_tick) (default U64_MAX sched_next_tick) in
  if next =? U64_MAX then Ret (signal, q, c, bsp_tick)
  else
    let! c := schedule_oneshot_tick c next in
    Ret (signal, q, c, bsp_tick).

(** ** The whole

    [waiting]: the timeout thread waits.  [live]: the keys that have not been released, with
    their callbacks.  The last fields record what happened: the callbacks called by the
    thread with the tick at which they were, those called at registration, and the
    results of [release]. *)
Record sys := mkSys {
  tq : TimeoutQueue;
  cpus : gmap nat cpu;
  bsp_tick : Z;
  waiting : bool;
  registered : nat;
  live : list (nat * TimeoutKey);
  fired : list (TimeoutEntry * Z);
  rushed : list nat;
  released : list (nat * bool) }.

Inductive event :=
  | ERegister (time : Z)
  | ERelease (i : nat)
  | EHardtick (c : nat) (sched : option Z)
  | EReschedule (c : nat)
  | ESoft.

(** [register_timeout_callback] *)
Definition register_timeout_callback (s : sys) (time : Z) : outcome sys :=
  let cb := registered s in
  let! (k, q, now) := insert (tq s) time cb in
  Ret (mkSys q (cpus s) (bsp_tick s) (waiting s) (S cb) ((cb, k) :: live s) (fired s)
         (match now with Some cb => cb :: rushed s | None => rushed s end) (released s)).

(** [TimeoutKey::release] *)
Definition release (s : sys) (i : nat) (cb : nat) (k : TimeoutKey) : outcome sys :=
  let! (did_remove, q) := remove (tq s) k in
  Ret (mkSys q (cpus s) (bsp_tick s) (waiting s) (registered s) (delete i (live s)) (fired s) (rushed s) ((cb, did_remove) :: released s)).

(** One turn of [soft_timeout_clock]. *)
Definition soft_timeout_clock (s : sys) : outcome sys :=
  let! (t, q) := soft_advance (tq s) in
  match t with
  | Some t => Ret (mkSys q (cpus s) (bsp_tick s) (waiting s) (registered s) (live s) ((t, current q) :: fired s) (rushed s) (released s))
  | None => Ret (mkSys q (cpus s) (bsp_tick s) true (registered s) (live s) (fired s) (rushed s) (released s))
  end.

Definition exec (s : sys) (e : event) : outcome sys :=
  match e with
  | ERegister time => register_timeout_callback s time
  | ERelease i => match live s !! i with Some (cb, k) => release s i cb k | None => Ret s end
  | EHardtick c sched =>
      match cpus s !! c with
      | Some p =>
          let! (signal, q, p, bt) := oneshot_clock_hardtick (c =? 0)%nat sched (tq s) p (bsp_tick s) in
          Ret (mkSys q (<[c := p]> (cpus s)) bt (waiting s && negb signal) (registered s) (live s) (fired s) (rushed s) (released s))
      | None => Ret s
      end
  | EReschedule c =>
      match cpus s !! c with
      | Some p =>
          let! (q, p) := check_reschedule_oneshot (c =? 0)%nat (tq s) p in
          Ret (mkSys q (<[c := p]> (cpus s)) (bsp_tick s) (waiting s) (registered s) (live s) (fired s) (rushed s) (released s))
      | None => Ret s
      end
  | ESoft => if waiting s then Ret s else soft_timeout_clock s
  end.

Fixpoint run (s : sys) (es : list event) : outcome sys :=
  match es with
  | [] => Ret s
  | e :: es => let! s := exec s e in run s es
  end.

(** [n] processors, the first of which keeps the time. *)
Definition init (n : nat) : sys :=
  mkSys TimeoutQueue_new (gset_to_gmap (mkCpu 0 0) (set_seq 0 n)) 0 false 0 [] [] [] [].
End timeout.
End Timeout.
