(* ===== verification/TimeoutInv.v ===== *)
(** * Timeouts are called once and in time

    [WQ]: every entry is in the window of its tick, no earlier than [soft_current].
    [timeouts_exact]: each registration is pending, called, or taken back, and only one of
    these; no call panics.  [idle_clock]: while the timeout thread waits nothing is overdue.
    [overdue_called]: when it runs, everything that is due is called.
    [full_window_rushes]: a timeout that finds its window full is called at once. *)
From S2P Require Import Prelude Timeout.
Import Timeout.

#[local] Open Scope Z_scope.

Module TimeoutInv.

Lemma timeout_concat_insert {A} (qs : list (list A)) w l l' : qs !! w = Some l ->
  exists r, concat qs ≡ₚ l ++ r /\ concat (<[w := l']> qs) ≡ₚ l' ++ r.
Proof.
  intros Hw. exists (concat (take w qs) ++ concat (drop (S w) qs)). split.
  - rewrite <- (take_drop_middle qs w l) at 1 by done. rewrite concat_app. cbn. rewrite !app_assoc. by rewrite (Permutation_app_comm _ l).
  - rewrite insert_take_drop by (by eapply lookup_lt_Some). rewrite concat_app. cbn. rewrite !app_assoc. by rewrite (Permutation_app_comm _ l').
Qed.

Lemma elem_of_concat {A} (qs : list (list A)) x : x ∈ concat qs <-> exists w l, qs !! w = Some l /\ x ∈ l.
Proof.
  split.
  - intros (l & Hl & Hx)%list_elem_of_In%in_concat. apply list_elem_of_In, list_elem_of_lookup in Hl as [w Hw].
    exists w, l. by rewrite list_elem_of_In.
  - intros (w & l & Hw & Hx). apply list_elem_of_In, in_concat. exists l. split; [|by apply list_elem_of_In].
    apply list_elem_of_In. by eapply list_elem_of_lookup_2.
Qed.

Lemma NoDup_fmap_by {A B C} (f : A -> B) (g : A -> C) l : NoDup (f <$> l) -> (forall x y, x ∈ l -> y ∈ l -> g x = g y -> f x = f y) -> NoDup (g <$> l).
Proof.
  induction l as [|x l IH]; cbn; [constructor|]. intros [Hx Hn]%NoDup_cons Hg. apply NoDup_cons. split.
  - intros (y & E & Hy)%list_elem_of_fmap. apply Hx. rewrite (Hg x y); [by apply list_elem_of_fmap_2|by left|by right|done].
  - apply IH; [done|]. intros a b Ha Hb. apply Hg; by right.
Qed.

Section queue.
Context `{Build}.

Definition pending (q : TimeoutQueue) : list TimeoutEntry := concat (queues q).

Record WQ (q : TimeoutQueue) : Prop := {
  q_len : length (queues q) = 1024%nat;
  q_full : Forall (fun l => zlen l <= NR_WINDOW_ENTRIES) (queues q);
  q_window w l e : queues q !! w = Some l -> e ∈ l -> w = window_of (expire_ticks e) /\ soft_current q <= expire_ticks e;
  q_soft : 0 <= soft_current q <= current q /\ current q < 2 ^ 63 }.

Lemma window_lt q t : WQ q -> exists l, queues q !! window_of t = Some l.
Proof.
  intros Hq. apply lookup_lt_is_Some. rewrite (q_len _ Hq). unfold window_of, NR_WINDOWS. pose proof (Z.mod_pos_bound t 1024). lia.
Qed.

Lemma pending_window q e : WQ q -> e ∈ pending q -> exists l, queues q !! window_of (expire_ticks e) = Some l /\ e ∈ l.
Proof.
  intros Hq (w & l & Hw & He)%elem_of_concat. destruct (q_window _ Hq w l e Hw He) as [-> _]. by exists l.
Qed.

(** Replacing a window by some of its entries. *)
Lemma wq_put q w l l' : WQ q -> queues q !! w = Some l -> (forall e, e ∈ l' -> e ∈ l) -> zlen l' <= zlen l -> WQ (put_window q w l').
Proof.
  intros Hq Hw Hsub Hlen. split; cbn.
  - rewrite length_insert. apply Hq.
  - apply Forall_insert; [apply Hq|]. pose proof (q_full _ Hq) as Hf. eapply Forall_lookup_1 in Hf; [|done]. cbn in Hf. lia.
  - intros w' l0 e Hl0 He. destruct (decide (w' = w)) as [->|Hne].
    + rewrite list_lookup_insert_eq in Hl0 by (by eapply lookup_lt_Some). injection Hl0 as <-. eapply q_window; eauto.
    + rewrite list_lookup_insert_ne in Hl0 by done. by eapply q_window.
  - apply Hq.
Qed.

Lemma check_window_ok q t : WQ q -> exists r q', check_window q (window_of t) = Ret (r, q') /\
  match r with
  | Some e => WQ q' /\ pending q ≡ₚ e :: pending q' /\ expire_ticks e <= current q /\
      current q' = current q /\ soft_current q' = soft_current q /\ keys q' = keys q /\ f_next_key q' = f_next_key q
  | None => q' = q /\ forall e, e ∈ pending q -> window_of (expire_ticks e) = window_of t -> current q < expire_ticks e
  end.
Proof.
  intros Hq. unfold check_window, window_at. destruct (window_lt q t Hq) as [l Hl]. rewrite Hl. cbn [unwrap obind].
  destruct (position _ l) as [i|] eqn:Ep.
  - apply position_Some in Ep as (e & He & Hr). destruct (swap_remove_ok l i e He) as (l' & -> & Hp). cbn [obind]. eexists _, _. split; [done|].
    apply Z.leb_le in Hr. split; [|split; [|done]].
    + eapply wq_put; [done|done| |]; [intros x Hx; rewrite Hp; by right|apply Permutation_length in Hp; unfold zlen; rewrite Hp; cbn; lia].
    + unfold pending. cbn. destruct (timeout_concat_insert (queues q) (window_of t) l l' Hl) as (r & -> & ->). by rewrite Hp.
  - apply position_None in Ep. eexists _, _. split; [done|]. split; [done|]. intros e He Hw.
    destruct (pending_window q e Hq He) as (l0 & Hl0 & Hin). rewrite Hw, Hl in Hl0. injection Hl0 as <-.
    rewrite Forall_forall in Ep. specialize (Ep e Hin). cbn in Ep. by apply Z.leb_gt in Ep.
Qed.

Definition advanced (q q' : TimeoutQueue) : Prop := WQ q' /\ current q' = current q /\ keys q' = keys q /\ f_next_key q' = f_next_key q.

Lemma soft_advance_loop_ok fuel q : WQ q -> current q - soft_current q < Z.of_nat fuel ->
  exists r q', soft_advance_loop fuel q = Ret (r, q') /\ advanced q q' /\
  match r with
  | Some e => pending q ≡ₚ e :: pending q' /\ expire_ticks e <= current q
  | None => pending q' = pending q /\ forall e, e ∈ pending q -> current q < expire_ticks e
  end.
Proof.
  revert q. induction fuel as [|f IH]; intros q Hq Hf; [pose proof (q_soft _ Hq); lia|]. cbn [soft_advance_loop].
  destruct (check_window_ok q (soft_current q) Hq) as (r & q1 & E & Hr). rewrite E. cbn [obind]. pose proof (q_soft _ Hq) as Hs.
  destruct (Z.ltb_spec (soft_current q) (current q)) as [Hlt|Hge].
  - destruct r as [e|].
    + destruct Hr as (Hq1 & Hp & He & Hc & _ & Hk & Hn). eexists _, _. split; [done|]. done.
    + destruct Hr as [-> Hnone]. unfold inc_soft. rewrite chk_in by lia. cbn [obind].
      destruct (IH (mkTQ (queues q) (current q) (next_wake q) (soft_current q + 1) (keys q) (f_next_key q))) as (r & q2 & E2 & Hadv & H2).
      { split; cbn; [apply Hq|apply Hq| |lia]. intros w l e Hw He. destruct (q_window _ Hq w l e Hw He) as [-> Hle]. split; [done|].
        destruct (decide (expire_ticks e = soft_current q)) as [Heq|]; [|lia].
        specialize (Hnone e (proj2 (elem_of_concat _ _) (ex_intro _ _ (ex_intro _ _ (conj Hw He))))). rewrite Heq in Hnone. specialize (Hnone eq_refl). lia. }
      { cbn. lia. }
      eexists _, _. split; [exact E2|]. split; [done|]. done.
  - eexists _, _. split; [done|]. destruct r as [e|].
    + destruct Hr as (Hq1 & Hp & He & Hc & _ & Hk & Hn). done.
    + destruct Hr as [-> Hnone]. split; [done|]. split; [done|]. intros e He.
      destruct (pending_window q e Hq He) as (l & Hl & Hin). destruct (q_window _ Hq _ l e Hl Hin) as [_ Hle].
      destruct (decide (expire_ticks e = soft_current q)) as [Heq|]; [|lia]. apply Hnone; [done|by rewrite Heq].
Qed.

Lemma soft_advance_ok q : WQ q -> exists r q', soft_advance q = Ret (r, q') /\ advanced q q' /\
  match r with
  | Some e => pending q ≡ₚ e :: pending q' /\ expire_ticks e <= current q
  | None => pending q' = pending q /\ forall e, e ∈ pending q -> current q < expire_ticks e
  end.
Proof. intros Hq. apply soft_advance_loop_ok; [done|]. lia. Qed.

(** ** The interrupt *)
Lemma any_window_ok q i n : WQ q -> 0 <= i -> current q + i + Z.of_nat n < 2 ^ 64 -> exists b, any_window q i n = Ret b /\
  (b = false -> forall e, e ∈ pending q -> ~ (current q + i <= expire_ticks e < current q + i + Z.of_nat n)).
Proof.
  intros Hq. pose proof (q_soft _ Hq) as Hs. revert i. induction n as [|n IH]; intros i Hi Hn; cbn [any_window].
  - eexists. split; [done|]. intros _ e _. lia.
  - rewrite chk_in by lia. cbn [obind]. unfold window_at. destruct (window_lt q (current q + i) Hq) as [l Hl]. rewrite Hl. cbn [unwrap obind].
    destruct l as [|x l]; [|by exists true]. destruct (IH (i + 1)) as (b & E & Hb); [lia..|]. exists b. split; [done|]. intros -> e He Hin.
    destruct (decide (expire_ticks e = current q + i)) as [Heq|Hne]; [|apply (Hb eq_refl e He); lia].
    destruct (pending_window q e Hq He) as (l & Hl' & Hin'). rewrite Heq, Hl in Hl'. injection Hl' as <-. by apply not_elem_of_nil in Hin'.
Qed.

Definition set_current (q : TimeoutQueue) (c : Z) : TimeoutQueue := mkTQ (queues q) c (next_wake q) (soft_current q) (keys q) (f_next_key q).

Lemma hard_advance_ok q ticks : WQ q -> 0 <= ticks -> current q + ticks < 2 ^ 63 -> exists b, hard_advance q ticks = Ret (b, set_current q (current q + ticks)) /\
  WQ (set_current q (current q + ticks)) /\
  (b = false -> forall e, e ∈ pending q -> current q <= expire_ticks e -> current q + ticks < expire_ticks e).
Proof.
  intros Hq Ht Hc. pose proof (q_soft _ Hq) as Hs. unfold hard_advance. rewrite chk_in by lia. cbn [obind].
  destruct (any_window_ok q 0 (Z.to_nat (ticks + 1)) Hq) as (b & -> & Hb); [lia..|]. cbn [obind]. rewrite chk_in by lia. cbn [obind].
  exists b. split; [done|]. split; [split; cbn; try apply Hq; lia|]. intros Ef e He Hle. specialize (Hb Ef e He). lia.
Qed.

Lemma next_ticks_ok q i n : WQ q -> 1 <= i -> i + Z.of_nat n <= 1024 -> exists r, next_ticks_loop q i n = Ret r /\ 1 <= r <= 1024 /\
  forall e, e ∈ pending q -> current q + i <= expire_ticks e < current q + i + Z.of_nat n -> current q + r <= expire_ticks e.
Proof.
  intros Hq. pose proof (q_soft _ Hq) as Hs. revert i. induction n as [|n IH]; intros i Hi Hn; cbn [next_ticks_loop].
  - eexists. split; [done|]. unfold NR_WINDOWS. split; [lia|]. lia.
  - rewrite chk_in by lia. cbn [obind]. unfold window_at. destruct (window_lt q (i + current q) Hq) as [l Hl]. rewrite Hl. cbn [unwrap obind].
    destruct l as [|x l]; [|exists i; split; [done|]; split; [lia|]; intros; lia].
    destruct (IH (i + 1)) as (r & E & Hr & Hb); [lia..|]. exists r. split; [done|]. split; [done|]. intros e He Hin.
    destruct (decide (expire_ticks e = i + current q)) as [Heq|Hne]; [|apply Hb; [done|lia]].
    destruct (pending_window q e Hq He) as (l & Hl' & Hin'). rewrite Heq, Hl in Hl'. injection Hl' as <-. by apply not_elem_of_nil in Hin'.
Qed.

Lemma get_next_ticks_ok q : WQ q -> exists r, get_next_ticks q = Ret r /\ 1 <= r <= 1024 /\
  forall e, e ∈ pending q -> current q < expire_ticks e < current q + 1023 -> current q + r <= expire_ticks e.
Proof.
  intros Hq. destruct (next_ticks_ok q 1 1022 Hq) as (r & E & Hr & Hb); [lia..|]. exists r. split; [exact E|]. split; [done|].
  intros e He Hin. apply Hb; [done|lia].
Qed.

(** ** Keys

    The keys given out and not released, and those on the stack, are all different. *)
Definition keys_ok (q : TimeoutQueue) (out : list Z) (bound : Z) : Prop :=
  NoDup (keys q ++ out) /\ Forall (fun k => 1 <= k <= f_next_key q) (keys q ++ out) /\ 0 <= f_next_key q <= bound.

Lemma next_key_ok q out n : keys_ok q out n -> n < 2 ^ 63 -> exists k q', next_key q = Ret (k, q') /\ keys_ok q' (k :: out) (n + 1) /\
  queues q' = queues q /\ current q' = current q /\ soft_current q' = soft_current q.
Proof.
  intros (Hn & Hf & Hb) Hlt. unfold next_key. destruct (keys q) as [|k ks] eqn:Ek.
  - rewrite chk_in by lia. cbn [obind]. eexists _, _. split; [done|]. split; [|done]. unfold keys_ok. cbn in *. split; [|split; [|lia]].
    + constructor; [|done]. intros Hin. rewrite Forall_forall in Hf. specialize (Hf _ Hin). cbn in Hf. lia.
    + constructor; [lia|]. eapply Forall_impl; [done|]. cbn. lia.
  - eexists _, _. split; [done|]. split; [|done]. unfold keys_ok. cbn in *. rewrite <- Permutation_middle. split; [done|]. split; [done|lia].
Qed.

Lemma release_key_ok q k out n : keys_ok q (k :: out) n -> n <= 2 ^ 63 -> exists q', release_key q k = Ret q' /\ keys_ok q' out n /\
  queues q' = queues q /\ current q' = current q /\ soft_current q' = soft_current q.
Proof.
  intros (Hn & Hf & Hb) Hlt. unfold release_key. rewrite <- Permutation_middle in Hn, Hf. apply NoDup_cons in Hn as [Hk Hn].
  apply Forall_cons in Hf as [Hk1 Hf]. destruct (Z.eqb_spec k (f_next_key q)) as [->|Hne].
  - rewrite chk_in by lia. cbn [obind]. eexists. split; [done|]. split; [|done]. unfold keys_ok. cbn. split; [done|]. split; [|lia].
    rewrite Forall_forall in Hf |- *. intros j Hj. specialize (Hf j Hj). cbn in Hf. assert (j <> f_next_key q) by (by intros ->). lia.
  - destruct (_ <? _); eexists; (split; [done|]); (split; [|done]); unfold keys_ok; cbn; [|done].
    split; [by constructor|]. split; [by constructor|done].
Qed.

(** ** Registering and taking back *)
Lemma wq_same q q' : WQ q -> queues q' = queues q -> current q' = current q -> soft_current q' = soft_current q -> WQ q'.
Proof. intros [L F W S] Eq Ec Es. split; rewrite ?Eq, ?Ec, ?Es; done. Qed.

Lemma insert_ok q time cb out n : WQ q -> keys_ok q out n -> n < 2 ^ 63 -> 0 <= time < 2 ^ 64 ->
  let expire := current q + time / 1000000 in
  exists k q' now, insert q time cb = Ret (mkKey k (window_of expire), q', now) /\ WQ q' /\ keys_ok q' (k :: out) (n + 1) /\
    current q' = current q /\
    ((now = None /\ pending q' ≡ₚ mkTE cb expire k :: pending q) \/
     (now = Some cb /\ pending q' = pending q /\ exists l, queues q !! window_of expire = Some l /\ zlen l = NR_WINDOW_ENTRIES)).
Proof.
  intros Hq Hk Hn Ht expire. pose proof (q_soft _ Hq) as Hs. unfold insert, nano_to_ticks. fold expire.
  assert (0 <= time / 1000000 < 2 ^ 63) as Hd by (split; [apply Z.div_pos; lia|apply Z.div_lt_upper_bound; lia]).
  rewrite chk_in by lia. cbn [obind]. destruct (next_key_ok q out n Hk Hn) as (k & q1 & -> & Hk1 & Eq & Ec & Es). cbn [obind].
  pose proof (wq_same q q1 Hq Eq Ec Es) as Hq1. unfold window_at. destruct (window_lt q1 expire Hq1) as [l Hl]. rewrite Hl. cbn [unwrap obind].
  exists k. destruct (Z.ltb_spec (zlen l) NR_WINDOW_ENTRIES) as [Hlt|Hge]; eexists _, _; (split; [done|]).
  - split; [|split; [done|split; [done|]]].
    + split; cbn; [rewrite length_insert; apply Hq1| | |apply Hq1].
      * apply Forall_insert; [apply Hq1|]. rewrite zlen_app. unfold zlen at 2. cbn. lia.
      * intros w l0 e Hl0 He. destruct (decide (w = window_of expire)) as [->|Hne].
        -- rewrite list_lookup_insert_eq in Hl0 by (by eapply lookup_lt_Some). injection Hl0 as <-.
           apply elem_of_app in He as [He|He%list_elem_of_singleton]; [by eapply q_window|]. subst e. cbn. split; [done|lia].
        -- rewrite list_lookup_insert_ne in Hl0 by done. by eapply q_window.
    + left. split; [done|]. unfold pending. cbn. rewrite <- Eq.
      destruct (timeout_concat_insert (queues q1) _ l (l ++ [mkTE cb expire k]) Hl) as (r & -> & ->). by rewrite <- Permutation_middle, app_nil_r.
  - split; [done|]. split; [done|]. split; [done|]. right. split; [done|]. split; [unfold pending; by rewrite Eq|]. exists l. rewrite <- Eq. split; [done|].
    pose proof (q_full _ Hq1) as Hf. eapply Forall_lookup_1 in Hf; [|done]. cbn in Hf. lia.
Qed.

Lemma remove_loop_ok fuel l k : (length l < fuel)%nat -> exists l' gone, remove_loop fuel l k = Ret l' /\ l ≡ₚ gone ++ l' /\
  Forall (fun e => te_key e = k) gone /\ Forall (fun e => te_key e <> k) l'.
Proof.
  revert l. induction fuel as [|f IH]; intros l Hl; [lia|]. cbn [remove_loop]. destruct (position _ l) as [i|] eqn:Ep.
  - apply position_Some in Ep as (e & He & Hk). apply Z.eqb_eq in Hk. destruct (swap_remove_ok l i e He) as (l1 & -> & Hp). cbn [obind].
    destruct (IH l1) as (l' & gone & -> & Hp1 & Hg & Hn); [apply Permutation_length in Hp; cbn in Hp; lia|].
    exists l', (e :: gone). split; [done|]. split; [by rewrite Hp, Hp1|]. split; [by constructor|done].
  - apply position_None in Ep. exists l, []. split; [done|]. split; [done|]. split; [done|]. eapply Forall_impl; [done|].
    intros e He%Z.eqb_neq. done.
Qed.

(** At most the one entry with this key is taken out. *)
Lemma remove_ok q k w out n : WQ q -> keys_ok q (k :: out) n -> n <= 2 ^ 63 -> (exists t, w = window_of t) ->
  NoDup (te_key <$> pending q) -> (forall e, e ∈ pending q -> te_key e = k -> window_of (expire_ticks e) = w) ->
  exists b q', remove q (mkKey k w) = Ret (b, q') /\ WQ q' /\ keys_ok q' out n /\ current q' = current q /\
    if b : bool then exists e, te_key e = k /\ pending q ≡ₚ e :: pending q'
    else pending q ≡ₚ pending q' /\ forall e, e ∈ pending q -> te_key e <> k.
Proof.
  intros Hq Hk Hn [t ->] Hnd Hw. unfold remove, window_at. cbn [window key]. destruct (window_lt q t Hq) as [l Hl]. rewrite Hl. cbn [unwrap obind].
  destruct (remove_loop_ok (S (length l)) l k) as (l' & gone & -> & Hp & Hg & Hl'); [lia|]. cbn [obind].
  destruct (release_key_ok (put_window q (window_of t) l') k out n) as (q' & -> & Hk' & Eq & Ec & Es); [done|done|]. cbn [obind].
  assert (WQ (put_window q (window_of t) l')) as Hq1.
  { eapply wq_put; [done|done| |]; [intros e He; rewrite Hp; apply elem_of_app; by right|]. apply Permutation_length in Hp. rewrite length_app in Hp. unfold zlen. lia. }
  eexists _, q'. split; [done|]. split; [by eapply wq_same|]. split; [done|]. split; [done|].
  destruct (timeout_concat_insert (queues q) (window_of t) l l' Hl) as (r & Hr & Hr'). fold (pending q) in Hr.
  assert (pending q' ≡ₚ l' ++ r) as Hp' by (unfold pending; by rewrite Eq). pose proof (Permutation_length Hp) as Hlen. rewrite length_app in Hlen.
  destruct gone as [|e gone].
  - cbn in Hlen. rewrite (proj2 (Nat.eqb_eq _ _) Hlen). cbn. split; [by rewrite Hp', Hr, Hp|]. intros e He Hek.
    destruct (pending_window q e Hq He) as (l0 & Hl0 & Hin). rewrite (Hw e He Hek), Hl in Hl0.
    injection Hl0 as <-. rewrite Forall_forall in Hl'. apply (Hl' e); [by rewrite Hp in Hin|done].
  - rewrite (proj2 (Nat.eqb_neq _ _)) by (cbn in Hlen; lia). cbn. exists e. apply Forall_cons in Hg as [He Hg]. split; [done|].
    destruct gone as [|e' gone]; [by rewrite Hr, Hp', Hp|]. apply Forall_cons in Hg as [He' _]. exfalso.
    rewrite Hr, Hp in Hnd. cbn in Hnd. rewrite He, He' in Hnd. apply NoDup_cons in Hnd as [Hnd _]. apply Hnd. by left.
Qed.

(** ** The whole *)
Definition cancelled (s : sys) : list nat := (List.filter snd (released s)).*1.
Definition called (s : sys) : list nat := ((fun f => timeout f.1) <$> fired s) ++ rushed s.

Record Inv (s : sys) : Prop := {
  i_wq : WQ (tq s);
  i_keys : keys_ok (tq s) ((fun h => key h.2) <$> live s) (Z.of_nat (registered s));
  i_handles e : e ∈ pending (tq s) -> (timeout e, mkKey (te_key e) (window_of (expire_ticks e))) ∈ live s;
  i_windows : Forall (fun h => exists t, window h.2 = window_of t) (live s);
  i_perm : (timeout <$> pending (tq s)) ++ called s ++ cancelled s ≡ₚ seq 0 (registered s);
  i_live : (live s).*1 ++ (released s).*1 ≡ₚ seq 0 (registered s);
  i_fired : Forall (fun f => expire_ticks f.1 <= f.2 <= current (tq s)) (fired s);
  i_wait : waiting s = true -> forall e, e ∈ pending (tq s) -> current (tq s) <= expire_ticks e;
  i_late : Forall (fun r => r.2 = false -> r.1 ∈ called s) (released s);
  i_cpu p : cpus s !! 0%nat = Some p -> 0 <= next_tick p <= 1024;
  i_reg : Z.of_nat (registered s) <= 2 ^ 63 }.

(** The counters stay below [2^63]; times are of 64 bits and the scheduler names a tick that
    can be counted in nanoseconds. *)
Definition in_bounds (s : sys) (e : event) : Prop :=
  match e with
  | ERegister time => 0 <= time < 2 ^ 64 /\ Z.of_nat (registered s) < 2 ^ 63
  | EHardtick _ sched => current (tq s) + 1024 < 2 ^ 63 /\ match sched with Some n => 0 <= n /\ n * 1000000 < 2 ^ 64 | None => True end
  | _ => True
  end.

Lemma timeout_init_inv n : Inv (init n).
Proof.
  assert (forall m, concat (replicate m ([] : list TimeoutEntry)) = []) as Hc by (intros m; induction m; done).
  assert (pending (tq (init n)) = []) as Hp by apply Hc.
  split; rewrite ?Hp.
  - split; cbn; [done| | |lia].
    + apply Forall_replicate. unfold zlen, NR_WINDOW_ENTRIES. cbn. lia.
    + intros w l e Hw He. apply lookup_replicate in Hw as [-> _]. by apply not_elem_of_nil in He.
  - split; [constructor|]. split; [constructor|]. cbn. lia.
  - intros e He. by apply not_elem_of_nil in He.
  - constructor.
  - constructor.
  - constructor.
  - constructor.
  - intros _ e He. by apply not_elem_of_nil in He.
  - constructor.
  - intros p Hp0. cbn in Hp0. apply lookup_gset_to_gmap_Some in Hp0 as [_ <-]. cbn. lia.
  - cbn. lia.
Qed.

Lemma register_ok s time : Inv s -> in_bounds s (ERegister time) -> exists s', register_timeout_callback s time = Ret s' /\ Inv s'.
Proof.
  intros Hi [Ht Hr]. unfold register_timeout_callback.
  destruct (insert_ok (tq s) time (registered s) _ _ (i_wq _ Hi) (i_keys _ Hi) Hr Ht) as (k & q & now & -> & Hq & Hk & Ec & Hnow). cbn [obind].
  eexists. split; [done|].
  assert (0 <= time / 1000000) as Hd by (apply Z.div_pos; lia).
  assert (seq 0 (S (registered s)) = seq 0 (registered s) ++ [registered s]) as Hseq by (by rewrite seq_S).
  assert (forall e, e ∈ pending q -> e ∈ pending (tq s) \/ e = mkTE (registered s) (current (tq s) + time / 1000000) k /\ now = None) as Hin.
  { intros e He. destruct Hnow as [[-> Hp]|(-> & Hp & _)]; [|left; by rewrite Hp in He]. rewrite Hp in He.
    apply elem_of_cons in He as [->|He]; [by right|by left]. }
  split; cbn -[seq]; rewrite ?Ec.
  - done.
  - by rewrite Nat2Z.inj_succ.
  - intros e He. destruct (Hin e He) as [Ho|[-> _]]; [right; by apply Hi|by left].
  - constructor; [by eexists|apply Hi].
  - rewrite Hseq, <- (i_perm _ Hi). unfold called, cancelled. cbn. 
    destruct Hnow as [[-> Hp]|(-> & Hp & _)]; rewrite Hp; cbn;
      rewrite (Permutation_app_comm _ [registered s]); cbn; by repeat (rewrite <- Permutation_middle; cbn).
  - rewrite Hseq, <- (i_live _ Hi), (Permutation_app_comm _ [registered s]). done.
  - apply Hi.
  - intros Hw e He. destruct (Hin e He) as [Ho|[-> _]]; [by apply (i_wait _ Hi Hw)|cbn; lia].
  - eapply Forall_impl; [apply (i_late _ Hi)|]. intros r Hl Hf. specialize (Hl Hf). unfold called in *. cbn. rewrite elem_of_app in *.
    destruct Hl as [Hl|Hl]; [by left|right]. destruct now; [by right|done].
  - apply Hi.
  - lia.
Qed.

Lemma keys_ok_perm q out out' n : out ≡ₚ out' -> keys_ok q out n -> keys_ok q out' n.
Proof. unfold keys_ok. by intros ->. Qed.

Lemma fmap_same {A B} (f : A -> B) l x y : NoDup (f <$> l) -> x ∈ l -> y ∈ l -> f x = f y -> x = y.
Proof.
  intros Hn [i Hi]%list_elem_of_lookup [j Hj]%list_elem_of_lookup E.
  assert (i = j) as -> by (eapply (NoDup_lookup (f <$> l)); [done|by rewrite list_lookup_fmap, Hi|rewrite list_lookup_fmap, Hj; cbn; by f_equal]). congruence.
Qed.

Lemma live_keys s : Inv s -> NoDup ((fun h => key h.2) <$> live s).
Proof. intros Hi. destruct (i_keys _ Hi) as [Hn _]. by apply NoDup_app in Hn as (_ & _ & Hn). Qed.

Lemma live_callbacks s : Inv s -> NoDup ((live s).*1 ++ (released s).*1).
Proof. intros Hi. rewrite (i_live _ Hi). apply NoDup_seq. Qed.

Lemma pending_keys s : Inv s -> NoDup (te_key <$> pending (tq s)).
Proof.
  intros Hi. apply (NoDup_fmap_by timeout).
  - assert (NoDup (seq 0 (registered s))) as Hn by apply NoDup_seq. rewrite <- (i_perm _ Hi) in Hn. by apply NoDup_app in Hn as (Hn & _).
  - intros x y Hx Hy E. pose proof (fmap_same _ _ _ _ (live_keys _ Hi) (i_handles _ Hi x Hx) (i_handles _ Hi y Hy) E) as Eh. by injection Eh.
Qed.

(** A callback whose key is released without an entry to remove has been called. *)
Lemma not_pending_called s cb k : Inv s -> (cb, k) ∈ live s -> (forall e, e ∈ pending (tq s) -> te_key e <> key k) -> cb ∈ called s.
Proof.
  intros Hi Hl Hno. pose proof (live_callbacks s Hi) as Hn. pose proof (list_elem_of_fmap_2 fst _ _ Hl) as Hcb. cbn in Hcb.
  assert (cb ∈ seq 0 (registered s)) as Hs by (rewrite <- (i_live _ Hi), elem_of_app; by left). apply NoDup_app in Hn as (Hn & Hd & _).
  rewrite <- (i_perm _ Hi), !elem_of_app in Hs. destruct Hs as [(e & Ee & He)%list_elem_of_fmap|[Hc|Hc]]; [|done|].
  - exfalso. apply (Hno e He). assert ((timeout e, mkKey (te_key e) (window_of (expire_ticks e))) = (cb, k)) as [= _ <-]; [|done].
    eapply (fmap_same fst (live s)); [done|by apply Hi|done|by cbn].
  - exfalso. apply (Hd cb Hcb). unfold cancelled in Hc. apply list_elem_of_fmap in Hc as (r & -> & Hr). apply list_elem_of_fmap_2.
    apply list_elem_of_In in Hr. apply List.filter_In in Hr as [Hr _]. by apply list_elem_of_In.
Qed.

Lemma timeout_release_ok s i cb k : Inv s -> live s !! i = Some (cb, k) -> exists s', release s i cb k = Ret s' /\ Inv s'.
Proof.
  intros Hi Hk. pose proof (delete_Permutation _ _ _ Hk) as Hp. pose proof (list_elem_of_lookup_2 _ _ _ Hk) as Hin.
  pose proof (live_keys s Hi) as Hlk. pose proof (pending_keys s Hi) as Hpk.
  assert (forall e, e ∈ pending (tq s) -> te_key e = key k -> timeout e = cb /\ window_of (expire_ticks e) = window k) as Hsame.
  { intros e He E. pose proof (fmap_same _ _ _ _ Hlk (i_handles _ Hi e He) Hin E) as Eh. by injection Eh as -> <-. }
  assert (exists t, window k = window_of t) as Hw by (pose proof (i_windows _ Hi) as Hf; rewrite Forall_forall in Hf; apply (Hf _ Hin)).
  assert (keys_ok (tq s) (key k :: ((fun h => key h.2) <$> delete i (live s))) (Z.of_nat (registered s))) as Hko.
  { eapply keys_ok_perm; [|apply (i_keys _ Hi)]. by rewrite Hp at 1. }
  unfold release. destruct k as [k w]. cbn in *.
  destruct (remove_ok (tq s) k w _ _ (i_wq _ Hi) Hko (i_reg _ Hi) Hw Hpk) as (b & q & -> & Hq & Hkq & Ec & Hb).
  { intros e He E. by apply Hsame. }
  cbn [obind]. eexists. split; [done|].
  assert (forall e, e ∈ pending q -> e ∈ pending (tq s) /\ te_key e <> k) as Hsub.
  { destruct b; [destruct Hb as (e & Ee & He)|destruct Hb as [He Hno]]; intros x Hx.
    - rewrite He in Hpk. cbn in Hpk. apply NoDup_cons in Hpk as [Hpk _]. split; [rewrite He; by right|]. intros E. apply Hpk. rewrite Ee, <- E. by apply list_elem_of_fmap_2.
    - rewrite <- He in Hx. split; [done|by apply Hno]. }
  split; cbn -[seq]; rewrite ?Ec.
  - done.
  - done.
  - intros e He. destruct (Hsub e He) as [He' Hne]. pose proof (i_handles _ Hi e He') as Hl. rewrite Hp in Hl.
    apply elem_of_cons in Hl as [[= _ E _]|Hl]; [done|done].
  - pose proof (i_windows _ Hi) as Hf. rewrite Hp in Hf. by apply Forall_cons in Hf as [_ Hf].
  - rewrite <- (i_perm _ Hi). unfold called, cancelled. cbn. destruct b; cbn.
    + destruct Hb as (e & Ee & He). rewrite He. cbn. destruct (Hsame e) as [-> _]; [rewrite He; by left|done|]. by repeat (rewrite <- Permutation_middle; cbn).
    + destruct Hb as [-> _]. done.
  - rewrite <- (i_live _ Hi), <- Permutation_middle. pose proof (fmap_Permutation fst _ _ Hp) as Hp1. cbn in Hp1. by rewrite Hp1.
  - apply Hi.
  - intros Hwt e He. apply (i_wait _ Hi Hwt). by apply Hsub.
  - constructor; [|apply (i_late _ Hi)]. cbn. intros ->. destruct Hb as [_ Hno]. by apply (not_pending_called s cb (mkKey k w)).
  - apply Hi.
  - apply Hi.
Qed.

(** Time passes. *)
Lemma inv_clock s q cp bt wt : Inv s -> WQ q -> pending q = pending (tq s) -> keys q = keys (tq s) -> f_next_key q = f_next_key (tq s) ->
  current (tq s) <= current q -> (wt = true -> forall e, e ∈ pending q -> current q <= expire_ticks e) ->
  (forall p, cp !! 0%nat = Some p -> 0 <= next_tick p <= 1024) ->
  Inv (mkSys q cp bt wt (registered s) (live s) (fired s) (rushed s) (released s)).
Proof.
  intros Hi Hq Ep Ek En Hc Hwt Hcp. split; cbn -[seq]; try done; rewrite ?Ep; try apply Hi.
  - unfold keys_ok. rewrite Ek, En. apply Hi.
  - eapply Forall_impl; [apply Hi|]. cbn. intros; lia.
Qed.

Lemma soft_ok s : Inv s -> waiting s = false -> exists s', soft_timeout_clock s = Ret s' /\ Inv s' /\ current (tq s') = current (tq s) /\ registered s' = registered s /\
  if waiting s' then pending (tq s') = pending (tq s) /\ called s' = called s /\ forall e, e ∈ pending (tq s') -> current (tq s') < expire_ticks e
  else exists e, pending (tq s) ≡ₚ e :: pending (tq s') /\ called s' = timeout e :: called s.
Proof.
  intros Hi Hwt. unfold soft_timeout_clock. destruct (soft_advance_ok (tq s) (i_wq _ Hi)) as (r & q & -> & (Hq & Ec & Ek & En) & Hr). cbn [obind].
  destruct r as [e|]; eexists; (split; [done|]).
  - destruct Hr as [Hp He]. split; [|split; [done|split; [done|cbn; rewrite Hwt; by exists e]]].
    split; cbn -[seq]; rewrite ?Ec; try apply Hi; try done.
    + unfold keys_ok. rewrite Ek, En. apply Hi.
    + intros x Hx. apply Hi. rewrite Hp. by right.
    + rewrite <- (i_perm _ Hi), Hp. unfold called. cbn. by rewrite <- Permutation_middle.
    + constructor; [cbn; lia|apply Hi].
    + intros Hw. congruence.
    + eapply Forall_impl; [apply (i_late _ Hi)|]. intros x Hx Hf. right. by apply Hx.
  - destruct Hr as [Ep Hdue]. split; [|cbn; split; [done|]; split; [done|]; split; [done|split; [done|]]; rewrite Ep, Ec; exact Hdue].
    apply inv_clock; try done; [lia| |apply Hi]. intros _ e He. rewrite Ep in He. specialize (Hdue e He). lia.
Qed.

Lemma schedule_ok c next : 0 <= next -> next * 1000000 < 2 ^ 64 -> schedule_oneshot_tick c next = Ret (mkCpu (nr_cpu_ticks c) next).
Proof. intros H0 H1. unfold schedule_oneshot_tick, ticks_to_nano. by rewrite (proj2 (in_u_spec 64 _)) by lia. Qed.

Lemma hardtick_ok s c sched p : Inv s -> in_bounds s (EHardtick c sched) -> cpus s !! c = Some p ->
  exists s', exec s (EHardtick c sched) = Ret s' /\ Inv s'.
Proof.
  intros Hi [Hb Hs] Hp. cbn [exec]. rewrite Hp. unfold oneshot_clock_hardtick. pose proof (q_soft _ (i_wq _ Hi)) as Hsoft.
  assert (forall p1, 0 <= next_tick p1 <= 1024 -> forall p', <[c := p1]> (cpus s) !! 0%nat = Some p' -> 0 <= next_tick p' <= 1024) as Hcp.
  { intros p1 H1 p' Hp'. destruct (decide (c = 0%nat)) as [->|Hne]; [rewrite lookup_insert_eq in Hp'; by injection Hp' as <-|].
    rewrite lookup_insert_ne in Hp' by done. by eapply i_cpu. }
  destruct (Nat.eqb_spec c 0) as [->|Hc].
  - pose proof (i_cpu _ Hi p Hp) as Hnt. destruct (hard_advance_ok (tq s) (next_tick p) (i_wq _ Hi)) as (b & -> & Hq & Hb2); [lia..|]. cbn [obind].
    destruct (get_next_ticks_ok _ Hq) as (r & -> & Hr & _). cbn [obind default id]. unfold U64_MAX.
    replace (Z.min r 1) with 1 by lia. rewrite (proj2 (Z.eqb_neq 1 _)) by lia. rewrite schedule_ok by lia. cbn [obind]. eexists. split; [done|].
    apply inv_clock; cbn; try done; [by eapply wq_same|lia| |apply Hcp; cbn; lia].
    intros [Hw ->%negb_true_iff]%andb_true_iff e He. specialize (Hb2 eq_refl e He (i_wait _ Hi Hw e He)). lia.
  - cbn [obind default id]. unfold U64_MAX.
    assert (forall p1, cpus s !! 0%nat = <[c := p1]> (cpus s) !! 0%nat) as Hcp0 by (intros p1; by rewrite lookup_insert_ne).
    destruct (Z.eqb_spec (Z.min (2 ^ 64 - 1) (default (2 ^ 64 - 1) sched)) (2 ^ 64 - 1)) as [E|E].
    + cbn [obind]. eexists. split; [done|]. apply inv_clock; try done; [apply Hi|intros [Hw _]%andb_true_iff; by apply i_wait|].
      intros p' Hp'. rewrite <- Hcp0 in Hp'. by eapply i_cpu.
    + destruct sched as [n|]; [|cbn in E; lia]. cbn in E |- *. replace (Z.min (2 ^ 64 - 1) n) with n in * by lia. rewrite schedule_ok by lia.
      cbn [obind]. eexists. split; [done|]. apply inv_clock; try done; [apply Hi|intros [Hw _]%andb_true_iff; by apply i_wait|].
      intros p' Hp'. rewrite <- Hcp0 in Hp'. by eapply i_cpu.
Qed.

Lemma reschedule_ok s c p : Inv s -> cpus s !! c = Some p -> exists s', exec s (EReschedule c) = Ret s' /\ Inv s'.
Proof.
  intros Hi Hp. cbn [exec]. rewrite Hp. unfold check_reschedule_oneshot. destruct (Nat.eqb_spec c 0) as [->|Hc]; cbn [negb].
  - destruct (get_next_ticks_ok _ (i_wq _ Hi)) as (r & -> & Hr & _). cbn [obind]. destruct (_ <? _).
    + rewrite schedule_ok by lia. cbn [obind]. eexists. split; [done|]. apply inv_clock; cbn; try done; [by eapply wq_same; [apply Hi|..]|by apply i_wait|].
      intros p'. rewrite lookup_insert_eq. intros [= <-]. cbn. lia.
    + cbn [obind]. eexists. split; [done|]. apply inv_clock; try done; [apply Hi|by apply i_wait|]. rewrite lookup_insert_eq. intros p' [= <-]. by eapply i_cpu.
  - cbn [obind]. eexists. split; [done|]. apply inv_clock; try done; [apply Hi|by apply i_wait|]. rewrite lookup_insert_ne by done. apply Hi.
Qed.

Lemma timeout_exec_ok s e : Inv s -> in_bounds s e -> exists s', exec s e = Ret s' /\ Inv s'.
Proof.
  intros Hi Hb. destruct e as [time|i|c sched|c|].
  - by apply register_ok.
  - cbn [exec]. destruct (live s !! i) as [[cb k]|] eqn:E; [by apply timeout_release_ok|by exists s].
  - destruct (cpus s !! c) as [p|] eqn:E; [by eapply hardtick_ok|]. cbn [exec]. rewrite E. by exists s.
  - destruct (cpus s !! c) as [p|] eqn:E; [by eapply reschedule_ok|]. cbn [exec]. rewrite E. by exists s.
  - cbn [exec]. destruct (waiting s) eqn:Ew; [by exists s|]. destruct (soft_ok s Hi Ew) as (s' & E & Hi' & _). by exists s'.
Qed.

Definition step (s s' : sys) : Prop := exists e, in_bounds s e /\ exec s e = Ret s'.

Lemma timeout_reachable n s : rtc step (init n) s -> Inv s.
Proof.
  apply rtc_invariant; [apply timeout_init_inv|]. intros a b Ha (e & Hb & E). destruct (timeout_exec_ok a e Ha Hb) as (b' & E' & Hb'). congruence.
Qed.

(** C20: Whatever threads register and release and however the clock ticks, each timeout that
    was registered is either pending, or has been called, or has been taken back, and only
    one of these and once; the timeout thread calls none before its tick; [release] says
    that it removed the timeout exactly if the callback has not been and will not be
    called; and no operation panics. *)
Theorem timeouts_exact n s : rtc step (init n) s ->
  (timeout <$> pending (tq s)) ++ called s ++ cancelled s ≡ₚ seq 0 (registered s) /\
  (forall f, f ∈ fired s -> expire_ticks f.1 <= f.2) /\
  (forall cb b, (cb, b) ∈ released s -> if b : bool then cb ∈ cancelled s /\ (cb ∉ called s) else cb ∈ called s) /\
  (forall e, in_bounds s e -> exists s', exec s e = Ret s').
Proof.
  intros Hr. pose proof (timeout_reachable n s Hr) as Hi. split; [apply Hi|]. split; [|split].
  - intros f Hf. pose proof (i_fired _ Hi) as Hall. rewrite Forall_forall in Hall. by apply Hall.
  - intros cb b Hin. destruct b; [|pose proof (i_late _ Hi) as Hl; rewrite Forall_forall in Hl; by apply (Hl _ Hin)].
    assert (cb ∈ cancelled s) as Hc.
    { unfold cancelled. apply list_elem_of_fmap. exists (cb, true). split; [done|]. apply list_elem_of_In, List.filter_In. split; [by apply list_elem_of_In|done]. }
    split; [done|]. intros Hca. assert (NoDup (seq 0 (registered s))) as Hn by apply NoDup_seq. rewrite <- (i_perm _ Hi) in Hn.
    apply NoDup_app in Hn as (_ & _ & Hn). apply NoDup_app in Hn as (_ & Hn & _). by apply (Hn cb).
  - intros e He. destruct (timeout_exec_ok s e Hi He) as (s' & E & _). by exists s'.
Qed.

Lemma overdue_called_spec m : forall s, Inv s -> waiting s = false -> (length (pending (tq s)) <= m)%nat ->
  exists k s', (k <= S m)%nat /\ run s (replicate k ESoft) = Ret s' /\ waiting s' = true /\ Inv s' /\ (forall cb, cb ∈ called s -> cb ∈ called s') /\
    current (tq s') = current (tq s) /\ forall e, e ∈ pending (tq s) -> expire_ticks e <= current (tq s) -> timeout e ∈ called s'.
Proof.
  induction m as [|m IH]; intros s Hi Hw Hl; destruct (soft_ok s Hi Hw) as (s1 & E & Hi1 & Ec & _ & Hs1);
    (destruct (waiting s1) eqn:Ew; [exists 1%nat, s1; destruct Hs1 as (Ep & Eca & Hdue)|destruct Hs1 as (e1 & Hp & Eca)]).
  1,3: split; [lia|]; split; [cbn [replicate run exec]; by rewrite Hw, E|]; split; [done|]; split; [done|]; split; [by rewrite Eca|]; split; [done|];
    intros e He Hle; rewrite <- Ep in He; specialize (Hdue e He); lia.
  - apply Permutation_length in Hp. cbn in Hp. lia.
  - destruct (IH s1 Hi1 Ew) as (k & s' & Hk & Er & Hw' & Hi' & Hmono & Ec' & Hdue); [apply Permutation_length in Hp; cbn in Hp; lia|].
    exists (S k), s'. split; [lia|]. split; [cbn [replicate run exec]; rewrite Hw, E; exact Er|]. split; [done|]. split; [done|]. rewrite Eca in Hmono.
    split; [intros cb Hcb; apply Hmono; by right|]. split; [congruence|]. intros e He Hle. rewrite Hp in He.
    apply elem_of_cons in He as [->|He]; [apply Hmono; by left|]. apply Hdue; [done|]. by rewrite Ec.
Qed.

(** Nothing is overdue while the timeout thread waits, and when it runs it waits again
    after at most one turn for each pending timeout and one more, having called every
    timeout that has expired. *)
Theorem overdue_called n s : rtc step (init n) s ->
  if waiting s then forall e, e ∈ pending (tq s) -> current (tq s) <= expire_ticks e
  else exists k s', (k <= S (length (pending (tq s))))%nat /\ run s (replicate k ESoft) = Ret s' /\ waiting s' = true /\
    forall e, e ∈ pending (tq s) -> expire_ticks e <= current (tq s) -> timeout e ∈ called s'.
Proof.
  intros Hr. pose proof (timeout_reachable n s Hr) as Hi. destruct (waiting s) eqn:Ew; [by apply i_wait|].
  destruct (overdue_called_spec _ s Hi Ew (le_n _)) as (k & s' & Hk & Er & Hw & _ & _ & _ & Hdue). by exists k, s'.
Qed.

(** A timeout registered for some nanoseconds expires that many milliseconds, rounded
    down, after the current tick; if its window has 32 entries already, which may be of
    quite different ticks, it is called at once instead. *)
Theorem register_spec n s time : rtc step (init n) s -> in_bounds s (ERegister time) ->
  let expire := current (tq s) + time / 1000000 in
  exists s', exec s (ERegister time) = Ret s' /\ current (tq s') = current (tq s) /\
    ((exists k, pending (tq s') ≡ₚ mkTE (registered s) expire k :: pending (tq s)) \/
     (rushed s' = registered s :: rushed s /\ exists l, queues (tq s) !! window_of expire = Some l /\ zlen l = NR_WINDOW_ENTRIES)).
Proof.
  intros Hr [Ht Hb] expire. pose proof (timeout_reachable n s Hr) as Hi. cbn [exec]. unfold register_timeout_callback.
  destruct (insert_ok (tq s) time (registered s) _ _ (i_wq _ Hi) (i_keys _ Hi) Hb Ht) as (k & q & now & -> & Hq & Hk & Ec & Hnow). cbn [obind].
  eexists. split; [done|]. split; [done|]. destruct Hnow as [[-> Hp]|(-> & Hp & Hl)]; [left; by exists k|by right].
Qed.

(** A timeout of more than a second is called at once, in tick 0, when 32 timeouts of 5
    milliseconds are pending: they are in the same window. *)
Theorem full_window_rushes : exists s, run (init 1) (replicate 32 (ERegister 5000000) ++ [ERegister 1029000000]) = Ret s /\
  current (tq s) = 0 /\ rushed s = [32%nat] /\ registered s = 33%nat /\ length (pending (tq s)) = 32%nat.
Proof. eexists. split; [vm_compute; reflexivity|]. by vm_compute. Qed.

(** ** Runs *)
Fixpoint bounded (s : sys) (es : list event) : Prop :=
  match es with
  | [] => True
  | e :: es => in_bounds s e /\ match exec s e with Ret s => bounded s es | _ => True end
  end.

Lemma timeout_run_steps es s s' : bounded s es -> run s es = Ret s' -> rtc step s s'.
Proof.
  revert s. induction es as [|e es IH]; intros s; cbn [bounded run]; [intros _ [= <-]; apply rtc_refl|]. intros [Hb Hbs].
  destruct (exec s e) as [s1| |] eqn:E; [|done|done]. cbn [obind]. intros Hr. eapply rtc_l; [by exists e|]. by apply IH.
Qed.
End queue.

(** ** Examples *)
#[local] Instance ex_build : Build := true.

(** Three timeouts, of which one is taken back; four ticks pass and the thread runs. *)
Definition ex_events : list event :=
  [ESoft; ERegister 2000000; ERegister 3999999; ERegister 70000000; ERelease 1] ++ replicate 5 (EHardtick 0 None) ++ [ESoft].

Definition ex_sys : sys := ret_or (init 1) (run (init 1) ex_events).

Lemma ex_reachable : rtc step (init 1) ex_sys.
Proof.
  apply (timeout_run_steps ex_events); [|vm_compute; reflexivity]. vm_compute. repeat (split || intros ? || discriminate).
Qed.

Lemma timeouts_exact_witness : (timeout <$> pending (tq ex_sys)) ++ called ex_sys ++ cancelled ex_sys ≡ₚ seq 0 3 /\ 0%nat ∈ called ex_sys /\ 1%nat ∈ cancelled ex_sys.
Proof.
  destruct (timeouts_exact 1 ex_sys ex_reachable) as (Hp & _ & Hrel & _). split; [exact Hp|]. split; [vm_compute; by left|].
  apply (Hrel 1%nat true). vm_compute. by left.
Defined.

Lemma overdue_called_witness : exists k s', (k <= 2)%nat /\ run ex_sys (replicate k ESoft) = Ret s' /\ waiting s' = true.
Proof.
  pose proof (overdue_called 1 ex_sys ex_reachable) as Hd. change (waiting ex_sys) with false in Hd. destruct Hd as (k & s' & Hk & Hr & Hw & _).
  by exists k, s'.
Defined.

Lemma register_spec_witness : exists s', exec ex_sys (ERegister 1500000) = Ret s' /\ current (tq s') = 4.
Proof.
  destruct (register_spec 1 ex_sys 1500000 ex_reachable) as (s' & E & Ec & _); [vm_compute; repeat (split || intros ? || discriminate)|].
  exists s'. split; [exact E|]. rewrite Ec. vm_compute. reflexivity.
Defined.
End TimeoutInv.
