(* ===== verification/SpinOnce.v ===== *)
(** * Ticket locks and one-time initialisation ([src/kernel/src/spinlock.rs], [src/kernel/src/once.rs])

    A spinlock hands out tickets and serves them in order; every access of its two counters
    is a step, the load and the store of [release] included.  A [Once] runs the closure of
    one caller and makes the others wait for it.

    [spin_exclusive]: one thread at most holds the lock, tickets are served in order and,
    whenever nobody holds the lock, a thread that waits gets it with its next step.
    [once_agree]: one closure runs, and every caller gets its result and only once there is
    one. *)
From S2P Require Import Prelude.

#[local] Open Scope Z_scope.

Module SpinOnce.

(** ** [GenericSpinlock] *)
Section spin.
Context `{Build}.

Record lock := mkLock { next_ticket : Z; current : Z }.

Definition lock_new : lock := mkLock 0 0.

(** Not locking; waiting for its turn; holding the lock; releasing it, with the next value
    of [current] computed. *)
Inductive spin_pc := Idle | Spin (ticket : Z) | Held | Rel (next : Z).

(** The next access of a thread: of [lock] when it is idle or waiting, of [release] when it
    holds the lock. *)
Definition spin_step (l : lock) (p : spin_pc) : outcome (lock * spin_pc) :=
  match p with
  | Idle => Ret (mkLock (wrap 64 (next_ticket l + 1)) (current l), Spin (next_ticket l))
  | Spin ticket => Ret (l, if current l =? ticket then Held else Spin ticket)
  | Held => let! next := chk 64 (current l + 1) in Ret (l, Rel next)
  | Rel next => Ret (mkLock (next_ticket l) next, Idle)
  end.

Record spins := mkSpins { lk : lock; sps : gmap nat spin_pc }.

(** Fewer than [2^64 - 1] calls of [lock]. *)
Definition spin (s s' : spins) : Prop :=
  exists t p l p', sps s !! t = Some p /\ (p = Idle -> next_ticket (lk s) < 2 ^ 64 - 1) /\
    spin_step (lk s) p = Ret (l, p') /\ s' = mkSpins l (<[t := p']> (sps s)).

Definition spins_init (n : nat) : spins := mkSpins lock_new (gset_to_gmap Idle (set_seq 0 n)).

(** The ticket of a thread; one that holds the lock has the current one. *)
Definition ticket_of (l : lock) (p : spin_pc) : option Z :=
  match p with Idle => None | Spin k => Some k | Held => Some (current l) | Rel _ => Some (current l) end.

Definition holds (p : spin_pc) : bool := match p with Held | Rel _ => true | _ => false end.

Record SInv (s : spins) : Prop := {
  s_range : 0 <= current (lk s) <= next_ticket (lk s) /\ next_ticket (lk s) < 2 ^ 64;
  s_tickets t p k : sps s !! t = Some p -> ticket_of (lk s) p = Some k -> current (lk s) <= k < next_ticket (lk s);
  s_distinct t1 t2 p1 p2 k : sps s !! t1 = Some p1 -> sps s !! t2 = Some p2 -> ticket_of (lk s) p1 = Some k -> ticket_of (lk s) p2 = Some k -> t1 = t2;
  s_all k : current (lk s) <= k < next_ticket (lk s) -> exists t p, sps s !! t = Some p /\ ticket_of (lk s) p = Some k;
  s_next t n : sps s !! t = Some (Rel n) -> n = current (lk s) + 1 }.

Lemma spins_init_inv n : SInv (spins_init n).
Proof.
  split; cbn; try lia; intros t p.
  - intros k [_ <-]%lookup_gset_to_gmap_Some. done.
  - intros p1 p2 k [_ <-]%lookup_gset_to_gmap_Some. done.
  - intros Hp%lookup_gset_to_gmap_Some. naive_solver.
Qed.

(** A step that keeps the tickets. *)
Lemma sinv_keep s t p p' : SInv s -> sps s !! t = Some p -> ticket_of (lk s) p' = ticket_of (lk s) p ->
  (forall n, p' = Rel n -> n = current (lk s) + 1) -> SInv (mkSpins (lk s) (<[t := p']> (sps s))).
Proof.
  intros Hi Hp Ht Hn.
  assert (forall j q, <[t := p']> (sps s) !! j = Some q -> exists q0, sps s !! j = Some q0 /\ ticket_of (lk s) q = ticket_of (lk s) q0) as Hback.
  { intros j q. destruct (decide (j = t)) as [->|Hne]; [rewrite lookup_insert_eq; intros [= <-]; by exists p|]. rewrite lookup_insert_ne by done. by exists q. }
  split; cbn.
  - apply Hi.
  - intros j q k (q0 & Hq & ->)%Hback. by eapply s_tickets.
  - intros j1 j2 q1 q2 k (q1' & H1 & ->)%Hback (q2' & H2 & ->)%Hback. by eapply s_distinct.
  - intros k Hk. destruct (s_all _ Hi k Hk) as (j & q & Hq & Hk'). destruct (decide (j = t)) as [->|Hne].
    + exists t, p'. rewrite lookup_insert_eq. split; [done|]. congruence.
    + exists j, q. by rewrite lookup_insert_ne.
  - intros j n. destruct (decide (j = t)) as [->|Hne]; [rewrite lookup_insert_eq; intros [= ->]; by apply Hn|]. rewrite lookup_insert_ne by done. by eapply s_next.
Qed.

Lemma sinv_take s t : SInv s -> sps s !! t = Some Idle -> next_ticket (lk s) < 2 ^ 64 - 1 ->
  SInv (mkSpins (mkLock (next_ticket (lk s) + 1) (current (lk s))) (<[t := Spin (next_ticket (lk s))]> (sps s))).
Proof.
  intros Hi Hp Hb. pose proof (s_range _ Hi) as Hr.
  assert (forall j q k, <[t := Spin (next_ticket (lk s))]> (sps s) !! j = Some q -> ticket_of (mkLock (next_ticket (lk s) + 1) (current (lk s))) q = Some k ->
    (j = t /\ k = next_ticket (lk s)) \/ (j <> t /\ sps s !! j = Some q /\ ticket_of (lk s) q = Some k)) as Hback.
  { intros j q k. destruct (decide (j = t)) as [->|Hne]; [rewrite lookup_insert_eq; intros [= <-] [= <-]; by left|]. rewrite lookup_insert_ne by done.
    intros Hq Hk. right. by destruct q. }
  split; cbn.
  - lia.
  - intros j q k Hq Hk. destruct (Hback j q k Hq Hk) as [[-> ->]|(_ & Hq' & Hk')]; [lia|]. pose proof (s_tickets _ Hi _ _ _ Hq' Hk'). lia.
  - intros j1 j2 q1 q2 k H1 H2 K1 K2. destruct (Hback _ _ _ H1 K1) as [[-> ->]|(_ & H1' & K1')], (Hback _ _ _ H2 K2) as [[-> E]|(_ & H2' & K2')]; try done.
    + pose proof (s_tickets _ Hi _ _ _ H2' K2'). lia.
    + subst k. pose proof (s_tickets _ Hi _ _ _ H1' K1'). lia.
    + by eapply s_distinct.
  - intros k Hk. destruct (decide (k = next_ticket (lk s))) as [->|Hne]; [exists t, (Spin (next_ticket (lk s))); by rewrite lookup_insert_eq|].
    destruct (s_all _ Hi k) as (j & q & Hq & Hk'); [lia|]. exists j, q. rewrite lookup_insert_ne by (intros ->; rewrite Hp in Hq; by injection Hq as <-). split; [done|by destruct q].
  - intros j n. destruct (decide (j = t)) as [->|Hne]; [by rewrite lookup_insert_eq|]. rewrite lookup_insert_ne by done. by eapply s_next.
Qed.

Lemma sinv_release s t n : SInv s -> sps s !! t = Some (Rel n) -> SInv (mkSpins (mkLock (next_ticket (lk s)) n) (<[t := Idle]> (sps s))).
Proof.
  intros Hi Hp. pose proof (s_next _ Hi t n Hp) as ->. pose proof (s_range _ Hi) as Hr. pose proof (s_tickets _ Hi t _ _ Hp eq_refl) as Ht. cbn in Ht.
  (* nobody else holds the lock *)
  assert (forall j q, j <> t -> sps s !! j = Some q -> holds q = false) as Hno.
  { intros j q Hj Hq. destruct q; try done; exfalso; apply Hj; eapply (s_distinct _ Hi j t _ _ (current (lk s))); done. }
  assert (forall j q k, <[t := Idle]> (sps s) !! j = Some q -> ticket_of (mkLock (next_ticket (lk s)) (current (lk s) + 1)) q = Some k ->
    j <> t /\ sps s !! j = Some q /\ ticket_of (lk s) q = Some k) as Hback.
  { intros j q k. destruct (decide (j = t)) as [->|Hne]; [rewrite lookup_insert_eq; by intros [= <-]|]. rewrite lookup_insert_ne by done. intros Hq Hk.
    split; [done|]. split; [done|]. pose proof (Hno j q Hne Hq). by destruct q. }
  split; cbn.
  - lia.
  - intros j q k Hq Hk. destruct (Hback j q k Hq Hk) as (Hne & Hq' & Hk'). pose proof (s_tickets _ Hi _ _ _ Hq' Hk').
    assert (k <> current (lk s)) by (intros ->; apply Hne; by eapply (s_distinct _ Hi j t)). lia.
  - intros j1 j2 q1 q2 k H1 H2 K1 K2. destruct (Hback _ _ _ H1 K1) as (_ & H1' & K1'), (Hback _ _ _ H2 K2) as (_ & H2' & K2'). by eapply s_distinct.
  - intros k Hk. destruct (s_all _ Hi k) as (j & q & Hq & Hk'); [lia|]. exists j, q.
    assert (j <> t) as Hne by (intros ->; rewrite Hp in Hq; injection Hq as <-; cbn in Hk'; injection Hk'; lia).
    rewrite lookup_insert_ne by done. split; [done|]. pose proof (Hno j q Hne Hq). by destruct q.
  - intros j n. destruct (decide (j = t)) as [->|Hne]; [by rewrite lookup_insert_eq|]. rewrite lookup_insert_ne by done. intros Hq. by pose proof (Hno j _ Hne Hq).
Qed.

Lemma spin_inv s s' : SInv s -> spin s s' -> SInv s'.
Proof.
  intros Hi (t & p & l & p' & Hp & Hb & E & ->). pose proof (s_range _ Hi) as Hr. destruct p as [|k| |n]; cbn in E.
  - injection E as <- <-. rewrite wrap_small by (specialize (Hb eq_refl); lia). by apply sinv_take; [..|apply Hb].
  - injection E as <- <-. destruct (Z.eqb_spec (current (lk s)) k) as [Hc|Hc]; (eapply sinv_keep; [done|done|cbn; congruence|done]).
  - pose proof (s_tickets _ Hi t _ _ Hp eq_refl) as Ht. rewrite chk_in in E by lia. cbn in E. injection E as <- <-.
    eapply sinv_keep; [done|done|done|]. by intros n [= <-].
  - injection E as <- <-. by apply sinv_release.
Qed.

(** For any number of threads, at most one holds the lock.  When nobody holds it and
    some thread waits, one of them, the one with the lowest ticket, has it after its next
    step.  A thread that gets the lock has the current ticket, which [release] raises by
    one: the lock is given in the order in which it was asked for.  No step panics. *)
Theorem spin_exclusive n s : rtc spin (spins_init n) s ->
  (forall t1 t2 p1 p2, sps s !! t1 = Some p1 -> sps s !! t2 = Some p2 -> holds p1 = true -> holds p2 = true -> t1 = t2) /\
  (map_Forall (fun _ p => holds p = false) (sps s) -> (exists t k, sps s !! t = Some (Spin k)) ->
     exists t k, sps s !! t = Some (Spin k) /\ spin_step (lk s) (Spin k) = Ret (lk s, Held) /\
       forall t' k', sps s !! t' = Some (Spin k') -> k <= k') /\
  (forall t k, sps s !! t = Some (Spin k) -> spin_step (lk s) (Spin k) = Ret (lk s, Held) -> k = current (lk s)) /\
  (forall t m, sps s !! t = Some (Rel m) -> m = current (lk s) + 1) /\
  (forall t p, sps s !! t = Some p -> spin_step (lk s) p <> Panic).
Proof.
  intros Hr. assert (SInv s) as Hi by (eapply rtc_invariant; [apply spins_init_inv|apply spin_inv|done]). split; [|split; [|split; [|split]]].
  - intros t1 t2 p1 p2 H1 H2 h1 h2. eapply (s_distinct _ Hi t1 t2 p1 p2 (current (lk s))); [done|done|by destruct p1|by destruct p2].
  - intros Hno (t & k & Ht). pose proof (s_tickets _ Hi _ _ _ Ht eq_refl) as Hk. destruct (s_all _ Hi (current (lk s))) as (j & q & Hq & Hc); [lia|].
    pose proof (Hno j q Hq) as Hh. cbn in Hh. destruct q as [|k0| |]; try done. cbn in Hc. injection Hc as ->. exists j, (current (lk s)).
    split; [done|]. split; [cbn; by rewrite Z.eqb_refl|]. intros t' k' Ht'. pose proof (s_tickets _ Hi _ _ _ Ht' eq_refl). lia.
  - intros t k Ht E. cbn in E. destruct (Z.eqb_spec (current (lk s)) k); [done|by injection E].
  - intros t m. apply (s_next _ Hi).
  - intros t p Ht. destruct p; cbn; try done. pose proof (s_tickets _ Hi _ _ _ Ht eq_refl) as Hk. pose proof (s_range _ Hi). by rewrite chk_in by lia.
Qed.
End spin.

(** ** [Once] *)
Section once.
Context {T : Type} (f : nat -> T).

Definition INCOMPLETE : Z := 0.
Definition RUNNING : Z := 1.
Definition COMPLETE : Z := 2.

(** The data is [None] while it is not initialised. *)
Record Once := mkOnce { status : Z; data : option T }.

Definition Once_new : Once := mkOnce INCOMPLETE None.

(** A thread may be in [call_once] (load of the status, compare-exchange, closure, store), in
    [wait], in [poll], about to read the data, or have returned. *)
Inductive once_pc := Call | Cas | Run | Store | Wait | Poll | Get | Got (r : option T).

(** [call_once] of thread [t], whose closure returns [f t], [wait] and [poll].  Reading data
    that is not initialised is undefined. *)
Definition once_step (o : Once) (t : nat) (p : once_pc) : outcome (Once * once_pc) :=
  match p with
  | Call => Ret (o, if status o =? INCOMPLETE then Cas else if status o =? RUNNING then Wait else Get)
  | Cas => if status o =? INCOMPLETE then Ret (mkOnce RUNNING (data o), Run) else Ret (o, Wait)
  | Run => Ret (mkOnce (status o) (Some (f t)), Store)
  | Store => Ret (mkOnce COMPLETE (data o), Get)
  | Wait => Ret (o, if status o =? COMPLETE then Get else Wait)
  | Poll => Ret (o, if status o =? COMPLETE then Get else if status o =? INCOMPLETE then Got None else Poll)
  | Get => let! v := unwrap (data o) in Ret (o, Got (Some v))
  | Got r => Ret (o, Got r)
  end.

Record onces := mkOnces { oc : Once; ops : gmap nat once_pc }.

Definition once_run (s s' : onces) : Prop :=
  exists t p o p', ops s !! t = Some p /\ once_step (oc s) t p = Ret (o, p') /\ s' = mkOnces o (<[t := p']> (ops s)).

(** Every thread is in a call of one of the three. *)
Definition onces_init (s : onces) : Prop :=
  oc s = Once_new /\ map_Forall (fun _ p => p = Call \/ p = Wait \/ p = Poll) (ops s).

Definition busy (p : once_pc) : bool := match p with Run | Store => true | _ => false end.

Definition once_pc_ok (o : Once) (t : nat) (p : once_pc) : Prop :=
  match p with
  | Run => status o = RUNNING /\ data o = None
  | Store => status o = RUNNING /\ data o = Some (f t)
  | Get => status o = COMPLETE
  | Got (Some v) => status o = COMPLETE /\ data o = Some v
  | _ => True
  end.

Record OInv (s : onces) : Prop := {
  o_status : status (oc s) = INCOMPLETE /\ data (oc s) = None \/ status (oc s) = RUNNING /\ (exists t p, ops s !! t = Some p /\ busy p = true) \/
    status (oc s) = COMPLETE /\ exists t, data (oc s) = Some (f t);
  o_pcs t p : ops s !! t = Some p -> once_pc_ok (oc s) t p;
  o_one t1 t2 p1 p2 : ops s !! t1 = Some p1 -> ops s !! t2 = Some p2 -> busy p1 = true -> busy p2 = true -> t1 = t2 }.

Lemma onces_init_inv s : onces_init s -> OInv s.
Proof.
  intros [Eo Hp]. split; rewrite ?Eo.
  - by left.
  - intros t p Ht. destruct (Hp t p Ht) as [->|[->| ->]]; done.
  - intros t1 t2 p1 p2 H1 H2. destruct (Hp t1 p1 H1) as [->|[->| ->]]; done.
Qed.

(** A step of a thread that neither runs the closure nor takes it on. *)
Lemma oinv_move s t p p' : OInv s -> ops s !! t = Some p -> busy p = false -> busy p' = false -> once_pc_ok (oc s) t p' ->
  OInv (mkOnces (oc s) (<[t := p']> (ops s))).
Proof.
  intros [Hs Hp H1] Ht Hb Hb' Hok. split; cbn.
  - destruct Hs as [Hs|[[Hs (j & q & Hj & Hq)]|Hs]]; [by left|right; left|by right; right]. split; [done|]. exists j, q.
    rewrite lookup_insert_ne by (intros ->; congruence). done.
  - intros j q. destruct (decide (j = t)) as [->|Hne]; [rewrite lookup_insert_eq; by intros [= <-]|]. rewrite lookup_insert_ne by done. apply Hp.
  - intros j1 j2 q1 q2. destruct (decide (j1 = t)) as [->|]; [rewrite lookup_insert_eq; intros [= <-]; congruence|].
    destruct (decide (j2 = t)) as [->|]; [rewrite (lookup_insert_eq _ t); intros _ [= <-]; congruence|]. rewrite !lookup_insert_ne by done. apply H1.
Qed.

(** A step of the thread that initialises. *)
Lemma oinv_own s t p p' o : OInv s -> ops s !! t = Some p -> (busy p = true \/ status (oc s) = INCOMPLETE) -> status o <> INCOMPLETE ->
  once_pc_ok o t p' -> (status o = RUNNING /\ busy p' = true \/ status o = COMPLETE /\ busy p' = false /\ exists t', data o = Some (f t')) ->
  OInv (mkOnces o (<[t := p']> (ops s))).
Proof.
  intros [Hs Hp H1] Ht Hb Hn Hok Ho.
  assert (forall j q, j <> t -> ops s !! j = Some q -> busy q = false) as Hidle.
  { intros j q Hj Hq. destruct (busy q) eqn:Eq; [|done]. exfalso. destruct Hb as [Hb|Hb]; [by apply Hj; eapply H1|].
    pose proof (Hp j q Hq) as Hq'. destruct q; try done; cbn in Hq'; rewrite Hb in Hq'; by destruct Hq'. }
  assert (status (oc s) <> COMPLETE) as Hc.
  { destruct Hb as [Hb|Hb]; [|by rewrite Hb]. pose proof (Hp t p Ht) as Hq. destruct p; try done; cbn in Hq; destruct Hq as [-> _]; done. }
  split; cbn.
  - right. destruct Ho as [[E Eb]|(E & Eb & Hd)]; [left; split; [done|]; exists t, p'; by rewrite lookup_insert_eq|by right].
  - intros j q. destruct (decide (j = t)) as [->|Hne]; [rewrite lookup_insert_eq; by intros [= <-]|]. rewrite lookup_insert_ne by done. intros Hj.
    pose proof (Hidle j q Hne Hj) as Hi. pose proof (Hp j q Hj) as Hq. destruct q as [| | | | | | |[v|]]; try done; cbn in Hq; by destruct Hq.
  - intros j1 j2 q1 q2. destruct (decide (j1 = t)) as [->|], (decide (j2 = t)) as [->|]; try done.
    + rewrite (lookup_insert_ne _ t j2) by done. intros _ Hj _ Hb2. pose proof (Hidle _ _ n Hj). congruence.
    + rewrite (lookup_insert_ne _ t j1) by done. intros Hj _ Hb2. pose proof (Hidle _ _ n Hj). congruence.
    + rewrite !lookup_insert_ne by done. intros Hj _ Hb2. pose proof (Hidle _ _ n Hj). congruence.
Qed.

Lemma once_inv s s' : OInv s -> once_run s s' -> OInv s'.
Proof.
  intros Hi (t & p & o & p' & Ht & E & ->). pose proof (o_pcs _ Hi t p Ht) as Hok. pose proof (o_status _ Hi) as Hs.
  destruct p as [| | | | | | |r]; cbn in E.
  - injection E as <- <-. eapply oinv_move; [done..| |]; destruct (Z.eqb_spec (status (oc s)) INCOMPLETE); try done;
      destruct (Z.eqb_spec (status (oc s)) RUNNING); try done. cbn. naive_solver.
  - destruct (Z.eqb_spec (status (oc s)) INCOMPLETE) as [Es|Es]; injection E as <- <-; [|by eapply oinv_move].
    eapply oinv_own; [done|done|by right|done| |by left]. split; [done|]. cbn. destruct Hs as [[_ Hd]|[[Hs _]|[Hs _]]]; [done|by rewrite Es in Hs..].
  - injection E as <- <-. destruct Hok as [Es _]. eapply oinv_own; [done|done|by left|cbn; by rewrite Es|done|by left].
  - injection E as <- <-. destruct Hok as [Es Hd]. eapply oinv_own; [done|done|by left|done|done|]. right. split; [done|]. split; [done|]. by exists t.
  - injection E as <- <-. eapply oinv_move; [done|done|done|by destruct (_ =? _)|]. by destruct (Z.eqb_spec (status (oc s)) COMPLETE).
  - injection E as <- <-. eapply oinv_move; [done|done|done|by repeat destruct (_ =? _)|].
    destruct (Z.eqb_spec (status (oc s)) COMPLETE); [done|]. by destruct (_ =? _).
  - destruct (data (oc s)) as [v|] eqn:Ed; [|done]. cbn in E. injection E as <- <-. eapply oinv_move; [done|done|done|done|]. by split.
  - injection E as <- <-. by eapply oinv_move.
Qed.

(** Whatever the interleaving of threads that initialise, wait for and poll a [Once], at
    most one closure runs; a thread that returns data returns the result of one and the
    same closure; no thread reads the data before it is there. *)
Theorem once_agree s0 s : onces_init s0 -> rtc once_run s0 s ->
  (forall t1 t2 p1 p2, ops s !! t1 = Some p1 -> ops s !! t2 = Some p2 -> busy p1 = true -> busy p2 = true -> t1 = t2) /\
  (forall t1 t2 v1 v2, ops s !! t1 = Some (Got (Some v1)) -> ops s !! t2 = Some (Got (Some v2)) -> v1 = v2 /\ exists t, v1 = f t) /\
  (forall t p, ops s !! t = Some p -> once_step (oc s) t p <> Panic).
Proof.
  intros H0 Hr. assert (OInv s) as Hi by (eapply rtc_invariant; [by apply onces_init_inv|apply once_inv|done]). split; [apply Hi|]. split.
  - intros t1 t2 v1 v2 H1 H2. destruct (o_pcs _ Hi _ _ H1) as [Es E1], (o_pcs _ Hi _ _ H2) as [_ E2].
    destruct (o_status _ Hi) as [[E _]|[[E _]|[_ [t Et]]]]; [by rewrite Es in E..|]. split; [congruence|]. exists t. congruence.
  - intros t p Ht. pose proof (o_pcs _ Hi t p Ht) as Hok. destruct p; cbn; try done; [by destruct (_ =? _)|]. cbn in Hok.
    destruct (o_status _ Hi) as [[E _]|[[E _]|[_ [t' ->]]]]; [by rewrite Hok in E..|done].
Qed.
End once.

(** ** Examples *)
#[local] Instance ex_build : Build := true.

(** The threads of a list take a turn each. *)
Fixpoint spin_turns (s : spins) (ts : list nat) : outcome spins :=
  match ts with
  | [] => Ret s
  | t :: ts =>
      let! p := unwrap (sps s !! t) in
      let! (l, p') := spin_step (lk s) p in
      spin_turns (mkSpins l (<[t := p']> (sps s))) ts
  end.

Lemma spin_turns_rtc ts s s' : 0 <= next_ticket (lk s) -> next_ticket (lk s) + zlen ts < 2 ^ 64 - 1 -> spin_turns s ts = Ret s' -> rtc spin s s'.
Proof.
  revert s. induction ts as [|t ts IH]; intros s H0 Hb; cbn [spin_turns]; [intros [= <-]; apply rtc_refl|]. unfold zlen in *. cbn [length] in Hb.
  destruct (sps s !! t) as [p|] eqn:Ep; [|done]. cbn [unwrap obind]. destruct (spin_step (lk s) p) as [[l p']| |] eqn:E; [|done|done]. cbn [obind]. intros Hr.
  assert (next_ticket l = next_ticket (lk s) \/ next_ticket l = next_ticket (lk s) + 1) as Hl.
  { destruct p; cbn in E; [injection E as <- _; right; cbn; apply wrap_small; lia|injection E as <- _; by left| |injection E as <- _; by left].
    destruct (chk 64 _); [|done|done]. injection E as <- _. by left. }
  eapply rtc_l; [exists t, p, l, p'; split; [done|]; split; [intros _; lia|]; by split|]. apply IH; cbn; [lia..|done].
Qed.

Fixpoint once_turns {T} (f : nat -> T) (s : onces) (ts : list nat) : outcome onces :=
  match ts with
  | [] => Ret s
  | t :: ts =>
      let! p := unwrap (ops s !! t) in
      let! (o, p') := once_step f (oc s) t p in
      once_turns f (mkOnces o (<[t := p']> (ops s))) ts
  end.

Lemma once_turns_rtc {T} (f : nat -> T) ts s s' : once_turns f s ts = Ret s' -> rtc (once_run f) s s'.
Proof.
  revert s. induction ts as [|t ts IH]; intros s; cbn [once_turns]; [intros [= <-]; apply rtc_refl|].
  destruct (ops s !! t) as [p|] eqn:Ep; [|done]. cbn [unwrap obind]. destruct (once_step f (oc s) t p) as [[o p']| |] eqn:E; [|done|done]. cbn [obind].
  intros Hr. eapply rtc_l; [by exists t, p, o, p'|]. by apply IH.
Qed.

(** Thread 0 gives the lock back, 1 and 2 wait. *)
Definition ex_spins : spins := ret_or (spins_init 3) (spin_turns (spins_init 3) [0; 1; 2; 0; 0]%nat).

Lemma spin_exclusive_witness : sps ex_spins !! 0%nat = Some (Rel 1) /\ (forall t p, sps ex_spins !! t = Some p -> holds p = true -> t = 0%nat) /\
  spin_step (lk ex_spins) (Rel 1) <> Panic.
Proof.
  assert (rtc spin (spins_init 3) ex_spins) as Hr by (apply (spin_turns_rtc [0; 1; 2; 0; 0]%nat); vm_compute; done).
  destruct (spin_exclusive 3 _ Hr) as (Hex & _ & _ & _ & Hp). split; [vm_compute; reflexivity|]. split.
  - intros t p Ht Hh. eapply (Hex t 0%nat); [done|vm_compute; reflexivity|done|done].
  - apply (Hp 0%nat). vm_compute. reflexivity.
Defined.

(** Three threads initialise at once, another polls. *)
Definition ex_onces : onces (T := nat) := mkOnces Once_new (<[0%nat := Call]> (<[1%nat := Call]> (<[2%nat := Wait]> {[3%nat := Poll]}))).
Definition ex_onces' : onces (T := nat) := ret_or ex_onces (once_turns (fun t => t * 10)%nat ex_onces [0; 1; 1; 0; 2; 1; 3; 1; 3; 3; 1; 0; 0; 2; 2]%nat).

Lemma once_agree_witness : ops ex_onces' !! 0%nat = Some (Got (Some 10%nat)) /\ ops ex_onces' !! 3%nat = Some (Got (Some 10%nat)) /\
  (forall t v, ops ex_onces' !! t = Some (Got (Some v)) -> v = 10%nat).
Proof.
  assert (onces_init ex_onces) as H0 by (split; [done|apply map_Forall_to_list; vm_compute; repeat constructor; auto]).
  assert (rtc (once_run (fun t => t * 10)%nat) ex_onces ex_onces') as Hr by (apply (once_turns_rtc _ [0; 1; 1; 0; 2; 1; 3; 1; 3; 3; 1; 0; 0; 2; 2]%nat); vm_compute; reflexivity).
  destruct (once_agree _ _ _ H0 Hr) as (_ & Hsame & _). split; [vm_compute; reflexivity|]. split; [vm_compute; reflexivity|].
  intros t v Ht. apply (Hsame t 0%nat v 10%nat Ht). vm_compute. reflexivity.
Defined.
End SpinOnce.
