(* ===== verification/SimpleMutex.v ===== *)
(** * The mutex of the ABI library ([src/lib/twizzler-abi/src/simple_mutex.rs])

    The mutex is one word: 0 when free, 1 when taken, 2 when taken and somebody may sleep
    on it.  A thread that does not get it by spinning sets the word to 2 and sleeps while it
    is 2.  A thread that gives back a word of 2 first waits a while for another to take it
    and leaves the waking to that one; otherwise it wakes one thread.

    Every access of the word is a step.  Sleeping and waking are as [sys_thread_sync] means
    them: going to sleep compares the word and enters the thread in the table of the word in
    one step, and a wake takes one of the threads that sleep there; a thread may also wake up
    for another reason, and is then not in the table any more.  (The kernel of [ThreadSync]
    leaves the entry of such a thread behind, which can take a wake meant for another:
    [ThreadSyncLost.stale_entry_steals].)  [compare_exchange_weak] may fail for no reason. *)
From S2P Require Import Prelude.

#[local] Open Scope Z_scope.

Module SimpleMutex.

Inductive pc :=
| Out
| TryLock                  (* in [try_lock] *)
| Fast (more : nat)        (* in the first loop of [lock] *)
| Mark                     (* before the compare-exchange of 1 and 2 *)
| Swap                     (* at the top of the second loop *)
| Sleep                    (* before [sys_thread_sync] *)
| Asleep
| Crit                     (* holding the mutex; the next step is [unlock] *)
| Handoff (more : nat)     (* in the loop of [unlock] *)
| HandoffCas (more : nat)
| Waking.                  (* before the wake of [unlock] *)

(** [slept]: the threads entered at the word. *)
Record sys := mkSys { word : Z; slept : gset nat; pcs : gmap nat pc }.

Definition init (n : nat) : sys := mkSys 0 ∅ (gset_to_gmap Out (set_seq 0 n)).

Definition set_pc (s : sys) (t : nat) (p : pc) : sys := mkSys (word s) (slept s) (<[t := p]> (pcs s)).
Definition set_word (s : sys) (w : Z) : sys := mkSys w (slept s) (pcs s).

(** [compare_exchange(old, new)]: the value found, and the new state. *)
Definition cas (s : sys) (old new : Z) : Z * sys := (word s, if word s =? old then set_word s new else s).

(** [compare_exchange_weak] *)
Definition cas_weak (s : sys) (old new : Z) (fail : bool) : bool * sys :=
  if fail then (false, s) else let (v, s) := cas s old new in (v =? old, s).

Definition lock_step (s : sys) (t : nat) (fail : bool) (p : pc) : sys :=
  match p with
  | Fast more =>
      let (ok, s) := cas_weak s 0 1 fail in
      set_pc s t (if ok then Crit else match more with S (S n) => Fast (S n) | _ => Mark end)
  | Mark => let (_, s) := cas s 1 2 in set_pc s t Swap
  | Swap => let state := word s in set_pc (set_word s 2) t (if state =? 0 then Crit else Sleep)
  | Sleep => if word s =? 2 then mkSys (word s) ({[t]} ∪ slept s) (<[t := Asleep]> (pcs s)) else set_pc s t Swap
  | _ => s
  end.

Definition try_lock_step (s : sys) (t : nat) (fail : bool) : sys :=
  let (ok, s) := cas_weak s 0 1 fail in set_pc s t (if ok then Crit else Out).

(** The kernel takes one of the threads entered. *)
Definition wake_one (s : sys) (pick : nat) : sys :=
  if decide (pick ∈ slept s) then mkSys (word s) (slept s ∖ {[pick]}) (<[pick := Swap]> (pcs s)) else s.

Definition unlock_step (s : sys) (t : nat) (pick : nat) (p : pc) : sys :=
  match p with
  | Crit => let state := word s in set_pc (set_word s 0) t (if state =? 1 then Out else Handoff 200)
  | Handoff more =>
      if 0 <? word s then set_pc s t (HandoffCas more)
      else set_pc s t (match more with S (S n) => Handoff (S n) | _ => Waking end)
  | HandoffCas more =>
      let (v, s) := cas s 1 2 in
      set_pc s t (if negb (v =? 0) then Out else match more with S (S n) => Handoff (S n) | _ => Waking end)
  | Waking => set_pc (wake_one s pick) t Out
  | _ => s
  end.

Inductive event :=
| ELock (t : nat)
| ETryLock (t : nat)
| EStep (t : nat) (fail : bool) (pick : nat)
| EKick (t : nat).                            (* a wake-up for another reason *)

Definition exec (s : sys) (e : event) : sys :=
  match e with
  | ELock t => match pcs s !! t with Some Out => set_pc s t (Fast 100) | _ => s end
  | ETryLock t => match pcs s !! t with Some Out => set_pc s t TryLock | _ => s end
  | EStep t fail pick =>
      match pcs s !! t with
      | Some TryLock => try_lock_step s t fail
      | Some ((Fast _ | Mark | Swap | Sleep) as p) => lock_step s t fail p
      | Some ((Crit | Handoff _ | HandoffCas _ | Waking) as p) => unlock_step s t pick p
      | _ => s
      end
  | EKick t => wake_one s t
  end.

(** A wake takes a thread if there is any. *)
Definition event_ok (s : sys) (e : event) : Prop :=
  match e with
  | EStep t _ pick => pcs s !! t = Some Waking -> slept s <> ∅ -> pick ∈ slept s
  | _ => True
  end.

Definition step (s s' : sys) : Prop := exists e, event_ok s e /\ s' = exec s e.

(** ** The invariant *)

(** Threads that see to it that somebody gets on. *)
Definition active (p : pc) : bool := match p with Handoff _ | HandoffCas _ | Waking | Swap => true | _ => false end.

Record Inv (s : sys) : Prop := {
  m_word : word s = 0 /\ map_Forall (fun _ p => p <> Crit) (pcs s) \/
    (word s = 1 \/ word s = 2) /\ exists t, pcs s !! t = Some Crit /\ forall j, pcs s !! j = Some Crit -> j = t;
  m_slept t : t ∈ slept s <-> pcs s !! t = Some Asleep;
  m_woken : slept s <> ∅ -> word s = 2 \/ exists t p, pcs s !! t = Some p /\ active p = true }.

Lemma mutex_word_init n : Inv (init n).
Proof.
  split; cbn.
  - left. split; [done|]. intros t p [_ <-]%lookup_gset_to_gmap_Some. done.
  - intros t. split; [set_solver|]. by intros [_ E]%lookup_gset_to_gmap_Some.
  - done.
Qed.

Definition others (s : sys) (t : nat) : Prop := exists j q, j <> t /\ pcs s !! j = Some q /\ active q = true.

(** Thread [t] goes on from [p] to [p'] and the word becomes [w]. *)
Lemma inv_move s t p p' w : Inv s -> pcs s !! t = Some p -> p <> Asleep -> p' <> Asleep ->
  (p <> Crit /\ p' <> Crit /\ (w = 0 <-> word s = 0) \/ word s = 0 /\ w <> 0 /\ p' = Crit \/ p = Crit /\ w = 0 /\ p' <> Crit) ->
  (w = 0 \/ w = 1 \/ w = 2) ->
  (slept s <> ∅ -> word s = 2 \/ active p = true -> w = 2 \/ active p' = true \/ others s t) -> Inv (set_pc (set_word s w) t p').
Proof.
  intros [Hw Hs Hk] Hp Hna Hna' Hc Hr Ha. split; cbn.
  - destruct Hc as [(Hn & Hn' & Hz)|[(Hz & Hw1 & ->)|(-> & -> & Hn')]].
    + destruct Hw as [[Hw Hf]|[Hw (o & Ho & Hu)]].
      * left. split; [by apply Hz|]. by apply map_Forall_insert_2.
      * right. split; [destruct Hr as [Hr|Hr]; [apply Hz in Hr; lia|done]|]. exists o. rewrite lookup_insert_ne by congruence. split; [done|].
        intros j. destruct (decide (j = t)) as [->|]; [rewrite lookup_insert_eq; congruence|]. rewrite lookup_insert_ne by done. apply Hu.
    + destruct Hw as [[_ Hf]|[Hw _]]; [|lia]. right. split; [lia|]. exists t. rewrite lookup_insert_eq. split; [done|].
      intros j. destruct (decide (j = t)) as [->|]; [done|]. rewrite lookup_insert_ne by done. intros Hj. by apply Hf in Hj.
    + left. split; [done|]. destruct Hw as [[_ Hf]|[_ (o & Ho & Hu)]]; [by apply Hf in Hp|]. pose proof (Hu t Hp) as ->.
      intros j q. destruct (decide (j = o)) as [->|]; [rewrite lookup_insert_eq; congruence|]. rewrite lookup_insert_ne by done. intros Hj ->. by apply Hu in Hj.
  - intros j. destruct (decide (j = t)) as [->|]; [rewrite lookup_insert_eq, Hs; split; intros; congruence|]. by rewrite lookup_insert_ne.
  - intros Hne. assert (w = 2 \/ active p' = true \/ others s t) as [E|[E|(j & q & Hj & Hq & Hqa)]].
    { destruct (Hk Hne) as [E|(j & q & Hj & Hq)]; [auto|]. destruct (decide (j = t)) as [->|]; [|right; right; by exists j, q].
      apply Ha; [done|]. right. congruence. }
    + by left.
    + right. exists t, p'. by rewrite lookup_insert_eq.
    + right. exists j, q. by rewrite lookup_insert_ne.
Qed.

Lemma set_word_same s w : w = word s -> set_word s w = s.
Proof. intros ->. by destruct s. Qed.

(** The same without a change of the word. *)
Lemma inv_go s t p p' : Inv s -> pcs s !! t = Some p -> p <> Asleep -> p' <> Asleep -> p <> Crit -> p' <> Crit ->
  (slept s <> ∅ -> active p = true -> word s = 2 \/ active p' = true \/ others s t) -> Inv (set_pc s t p').
Proof.
  intros Hi Hp Hna Hna' Hc Hc' Ha. rewrite <- (set_word_same s (word s)) by done. eapply inv_move; [done|done|done|done|by left| |].
  - destruct (m_word _ Hi) as [[E _]|[E _]]; lia.
  - intros Hne [E|E]; [by left|auto].
Qed.

Lemma inv_sleep s t : Inv s -> pcs s !! t = Some Sleep -> word s = 2 -> Inv (mkSys (word s) ({[t]} ∪ slept s) (<[t := Asleep]> (pcs s))).
Proof.
  intros [Hw Hs Hk] Hp E. split; cbn.
  - right. destruct Hw as [[Hw _]|[Hw (o & Ho & Hu)]]; [lia|]. split; [done|]. exists o. rewrite lookup_insert_ne by congruence. split; [done|].
    intros j. destruct (decide (j = t)) as [->|]; [by rewrite lookup_insert_eq|]. rewrite lookup_insert_ne by done. apply Hu.
  - intros j. rewrite elem_of_union, elem_of_singleton. destruct (decide (j = t)) as [->|]; [rewrite lookup_insert_eq; tauto|].
    rewrite lookup_insert_ne by done. rewrite Hs. tauto.
  - by left.
Qed.

Lemma wake_one_inv s t : Inv s -> Inv (wake_one s t).
Proof.
  intros Hi. unfold wake_one. destruct (decide (t ∈ slept s)) as [Ht|]; [|done]. destruct Hi as [Hw Hs Hk]. pose proof (proj1 (Hs t) Ht) as Hp. split; cbn.
  - destruct Hw as [[Hw Hf]|[Hw (o & Ho & Hu)]]; [left; split; [done|]; by apply map_Forall_insert_2|right]. split; [done|]. exists o.
    rewrite lookup_insert_ne by congruence. split; [done|].
    intros j. destruct (decide (j = t)) as [->|]; [by rewrite lookup_insert_eq|]. rewrite lookup_insert_ne by done. apply Hu.
  - intros j. rewrite elem_of_difference, elem_of_singleton. destruct (decide (j = t)) as [->|]; [rewrite lookup_insert_eq; split; [tauto|done]|].
    rewrite lookup_insert_ne by done. rewrite Hs. tauto.
  - intros _. right. exists t, Swap. by rewrite lookup_insert_eq.
Qed.

Lemma fast_inv s t fail p ok s1 p' : Inv s -> pcs s !! t = Some p -> p <> Asleep -> p <> Crit -> active p = false -> cas_weak s 0 1 fail = (ok, s1) ->
  p' <> Asleep -> (ok = true -> p' = Crit) -> (ok = false -> p' <> Crit) -> Inv (set_pc s1 t p').
Proof.
  intros Hi Hp Hna Hnc Ha E Hp' Hok Hno. unfold cas_weak, cas in E. destruct fail; [injection E as <- <-; eapply inv_go; [done..|auto|congruence]|].
  destruct (Z.eqb_spec (word s) 0) as [Hz|Hz]; injection E as <- <-; [|eapply inv_go; [done..|auto|congruence]].
  rewrite Hok by done. eapply inv_move; [done|done|done|done|right; left; done|by right; left|]. intros _ [E|E]; [lia|congruence].
Qed.

Lemma lock_step_inv s t fail p : Inv s -> pcs s !! t = Some p -> match p with Fast _ | Mark | Swap | Sleep => True | _ => False end -> Inv (lock_step s t fail p).
Proof.
  intros Hi Hp Hk. pose proof (m_word _ Hi) as Hw. destruct p; try done; cbn [lock_step].
  - destruct (cas_weak s 0 1 fail) as [ok s1] eqn:E. eapply fast_inv; [done|done|done|done|done|done| | |]; destruct ok; try done; by destruct more as [|[|]].
  - unfold cas. destruct (Z.eqb_spec (word s) 1) as [E|E].
    + eapply inv_move; [done|done|done|done|left; split; [done|split; [done|lia]]|by right; right|by left].
    + by eapply inv_go.
  - destruct (Z.eqb_spec (word s) 0) as [E|E].
    + eapply inv_move; [done|done|done|done|by right; left|by right; right|by left].
    + eapply inv_move; [done|done|done|done|left; split; [done|split; [done|lia]]|by right; right|by left].
  - destruct (Z.eqb_spec (word s) 2) as [E|E]; [by apply inv_sleep|]. eapply inv_go; [done..|]. by right; left.
Qed.

Lemma unlock_step_inv s t pick p : Inv s -> pcs s !! t = Some p -> (p = Waking -> slept s <> ∅ -> pick ∈ slept s) ->
  match p with Crit | Handoff _ | HandoffCas _ | Waking => True | _ => False end -> Inv (unlock_step s t pick p).
Proof.
  intros Hi Hp Hpick Hk. pose proof (m_word _ Hi) as Hw. destruct p as [| | | | | | | |more|more|]; try done; cbn [unlock_step].
  - assert ((if word s =? 1 then Out else Handoff 200) <> Asleep /\ (if word s =? 1 then Out else Handoff 200) <> Crit) as [H1 H2] by (by destruct (_ =? _)).
    eapply inv_move; [done|done|done|done|by right; right|by left|]. intros _ [E|E]; [|done]. rewrite E. by right; left.
  - destruct (0 <? word s); [eapply inv_go; [done..|]; by right; left|]. eapply inv_go; [done|done|done|by destruct more as [|[|]]|done|by destruct more as [|[|]]|].
    right. left. by destruct more as [|[|]].
  - unfold cas. destruct (Z.eqb_spec (word s) 1) as [E|E].
    + rewrite E. cbn. eapply inv_move; [done|done|done|done|left; split; [done|split; [done|lia]]|by right; right|by left].
    + destruct (Z.eqb_spec (word s) 0) as [E0|E0]; cbn.
      * eapply inv_go; [done|done|done|by destruct more as [|[|]]|done|by destruct more as [|[|]]|]. right. left. by destruct more as [|[|]].
      * eapply inv_go; [done..|]. left. lia.
  - assert (pick <> t \/ pick ∉ slept s) as Hne.
    { destruct (decide (pick ∈ slept s)) as [Hin|]; [left|by right]. intros ->. apply (m_slept _ Hi) in Hin. congruence. }
    pose proof (wake_one_inv s pick Hi) as Hi1. unfold wake_one in *. destruct (decide (pick ∈ slept s)) as [Hin|Hnin].
    + destruct Hne as [Hne|]; [|done]. eapply (inv_go _ t Waking); [done|cbn; by rewrite lookup_insert_ne|done..|]. intros _ _. right. right.
      exists pick, Swap. cbn. by rewrite lookup_insert_eq.
    + eapply inv_go; [done..|]. intros Hs. exfalso. by apply Hnin, Hpick.
Qed.

Lemma mutex_word_exec s e : Inv s -> event_ok s e -> Inv (exec s e).
Proof.
  intros Hi He. destruct e as [t|t|t fail pick|t]; cbn [exec].
  - destruct (pcs s !! t) as [[]|] eqn:Hp; try done. by eapply inv_go.
  - destruct (pcs s !! t) as [[]|] eqn:Hp; try done. by eapply inv_go.
  - cbn in He. destruct (pcs s !! t) as [p|] eqn:Hp; [|done].
    destruct p; try done; try (by apply lock_step_inv); try (by apply unlock_step_inv).
    + unfold try_lock_step. destruct (cas_weak s 0 1 fail) as [ok s1] eqn:E. eapply fast_inv; [done..|by destruct ok|by intros ->|by intros ->].
    + apply unlock_step_inv; [done|done| |done]. intros _. by apply He.
  - by apply wake_one_inv.
Qed.

(** C27: However threads lock, try to lock and unlock the mutex, with calls that fail for no
    reason and threads that wake up for no reason, at most one holds it, and the word says
    whether one does.  No wake is lost: while a thread sleeps, the word is 2, so that
    whoever holds the mutex will wake one, or another thread is about to wake one or to
    try again; in particular never do all threads that want the mutex sleep. *)
Theorem simple_mutex_correct n s : rtc step (init n) s ->
  (forall t1 t2, pcs s !! t1 = Some Crit -> pcs s !! t2 = Some Crit -> t1 = t2) /\
  (word s = 0 <-> map_Forall (fun _ p => p <> Crit) (pcs s)) /\
  (forall t, pcs s !! t = Some Asleep -> t ∈ slept s /\ ((word s = 2 /\ exists o, pcs s !! o = Some Crit) \/ exists j p, pcs s !! j = Some p /\ active p = true)) /\
  (map_Forall (fun _ p => p = Out \/ p = Asleep) (pcs s) -> map_Forall (fun _ p => p = Out) (pcs s)).
Proof.
  intros Hr. assert (Inv s) as Hi.
  { eapply rtc_invariant; [apply mutex_word_init| |done]. intros a b Ha (e & He & ->). by apply mutex_word_exec. }
  assert (forall t, pcs s !! t = Some Asleep -> t ∈ slept s /\ ((word s = 2 /\ exists o, pcs s !! o = Some Crit) \/ exists j p, pcs s !! j = Some p /\ active p = true)) as Hslept.
  { intros t Ht. apply (m_slept _ Hi) in Ht. split; [done|]. destruct (m_woken _ Hi) as [E|Hact]; [set_solver| |by right].
    left. split; [done|]. destruct (m_word _ Hi) as [[E' _]|[_ (o & Ho & _)]]; [lia|by exists o]. }
  split; [|split; [|split; [done|]]].
  - intros t1 t2 H1 H2. destruct (m_word _ Hi) as [[_ Hf]|[_ (o & _ & Hu)]]; [by apply Hf in H1|]. by rewrite (Hu _ H1), (Hu _ H2).
  - destruct (m_word _ Hi) as [[E Hf]|[E (o & Ho & _)]]; [done|]. split; [lia|]. intros Hf. by apply Hf in Ho.
  - intros Hall t p Ht. destruct (Hall t p Ht) as [->|Hp]; [done|]. subst p. destruct (Hslept t Ht) as [_ [[_ (o & Ho)]|(j & q & Hj & Hq)]].
    + by destruct (Hall o _ Ho).
    + by destruct (Hall j _ Hj) as [->| ->].
Qed.

(** ** Example *)
Fixpoint run_ok (s : sys) (es : list event) : bool :=
  match es with
  | [] => true
  | e :: es =>
      match e with
      | EStep t _ pick => match pcs s !! t with Some Waking => bool_decide (pick ∈ slept s) | _ => true end
      | _ => true
      end && run_ok (exec s e) es
  end.

Lemma mutex_word_runs es s : run_ok s es = true -> rtc step s (foldl exec s es).
Proof.
  revert s. induction es as [|e es IH]; intros s; cbn [run_ok foldl]; [intros _; apply rtc_refl|]. intros [He Hes]%andb_true_iff.
  eapply rtc_l; [exists e; split; [|done]|by apply IH]. destruct e; cbn; try done. intros Hw _.
  rewrite Hw in He. by apply bool_decide_eq_true in He.
Qed.

(** Thread 0 takes the mutex and thread 1 goes to sleep on it. *)
Definition ex_events : list event := [ELock 0; EStep 0 false 0; ELock 1] ++ replicate 103 (EStep 1 false 0).

Definition ex_sys : sys := foldl exec (init 2) ex_events.

Lemma simple_mutex_correct_witness : pcs ex_sys !! 1%nat = Some Asleep /\ (forall t, pcs ex_sys !! t = Some Crit -> t = 0%nat) /\ word ex_sys <> 0.
Proof.
  assert (rtc step (init 2) ex_sys) as Hr.
  { apply (mutex_word_runs ex_events). vm_compute. reflexivity. }
  destruct (simple_mutex_correct 2 ex_sys Hr) as (Hex & Hw & _). split; [vm_compute; reflexivity|]. split.
  - intros t Ht. apply (Hex t 0%nat Ht). vm_compute. reflexivity.
  - rewrite Hw. intros Hf. apply (Hf 0%nat Crit); [vm_compute; reflexivity|reflexivity].
Defined.
End SimpleMutex.
