(* ===== verification/CondVar.v ===== *)
(** * Condition variables of the kernel ([src/kernel/src/condvar.rs])

    A thread that waits holds a spinlock; it enters itself in a tree of waiting threads, sets
    its sleep flag, gives the lock back and leaves its processor, and when it is back takes
    the lock again and leaves the tree.  [signal] takes threads out of the tree whose flag
    it clears, and repeats this until the tree is empty.

    The steps are the critical sections of the tree and the accesses of flags and lock.
    [add_to_requeue] is the list [given] of the threads handed to it, any of which may
    resume ([ThreadSync] has it in detail); a thread may also be woken by a message.

    [signal_wakes_all]: when [signal] is done, every thread that was asleep on the variable
    is on its way back.  [signal_deadlocks]: a thread that signals with the lock held never
    gets done if a message has woken a waiting thread, which then waits for the lock. *)
From stdpp Require Import sorting.
From S2P Require Import Prelude Address ThreadSync.
Import ThreadSync.

#[local] Open Scope Z_scope.

Module CondVar.

Abbreviation threads := (gmap nat Thread).

(** [held]: the thread that signals holds the lock. *)
Inductive cv_pc :=
| Out
| Holding
| WInsert | WFlag | WDone | WUnlock | WAsleep | WRelock | WRemove | WReset | WResetDone
| Sig (held : bool)
| SigGive (held : bool) (ts : list nat).

Record cvs := mkCvs { guard : option nat; queue : gset nat; cths : threads; given : list nat; cpcs : gmap nat cv_pc }.

Definition cv_init (n : nat) : cvs :=
  mkCvs None ∅ (gset_to_gmap (mkThread false false 0 false) (set_seq 0 n)) [] (gset_to_gmap Out (set_seq 0 n)).

Definition cset_pc (s : cvs) (t : nat) (p : cv_pc) : cvs := mkCvs (guard s) (queue s) (cths s) (given s) (<[t := p]> (cpcs s)).
Definition cset_guard (s : cvs) (g : option nat) : cvs := mkCvs g (queue s) (cths s) (given s) (cpcs s).
Definition cset_queue (s : cvs) (q : gset nat) : cvs := mkCvs (guard s) q (cths s) (given s) (cpcs s).
Definition cset_ths (s : cvs) (x : threads) : cvs := mkCvs (guard s) (queue s) x (given s) (cpcs s).
Definition cset_given (s : cvs) (g : list nat) : cvs := mkCvs (guard s) (queue s) (cths s) g (cpcs s).

(** [wait], one access at a time. *)
Definition wait_step (s : cvs) (t : nat) (p : cv_pc) : cvs :=
  match p with
  | WInsert => cset_pc (cset_queue s ({[t]} ∪ queue s)) t WFlag
  | WFlag => cset_pc (cset_ths s (set_sync_sleep (cths s) t)) t WDone
  | WDone => cset_pc (cset_ths s (set_sync_sleep_done (cths s) t)) t WUnlock
  | WUnlock => cset_pc (cset_guard s None) t WAsleep
  | WRelock => match guard s with None => cset_pc (cset_guard s (Some t)) t WRemove | Some _ => s end
  | WRemove => cset_pc (cset_queue s (queue s ∖ {[t]})) t WReset
  | WReset => cset_pc (cset_ths s (reset_sync_sleep (cths s) t).2) t WResetDone
  | WResetDone => cset_pc (cset_ths s (reset_sync_sleep_done (cths s) t).2) t Holding
  | _ => s
  end.

Definition MAX_PER_ITER : nat := 8.

(** The inner loop of [signal] over the tree: the threads taken out, in order. *)
Fixpoint collect (room : nat) (nodes : list nat) (x : threads) : list nat * threads :=
  match nodes with
  | [] => ([], x)
  | t :: nodes =>
      match room with
      | O => ([], x)
      | S r =>
          let (b, x) := reset_sync_sleep x t in
          if b then let (ts, x) := collect r nodes x in (t :: ts, x) else collect room nodes x
      end
  end.

Definition finished (held : bool) : cv_pc := if held then Holding else Out.

Definition signal_step (s : cvs) (t : nat) (p : cv_pc) : cvs :=
  match p with
  | Sig held =>
      if decide (queue s = ∅) then cset_pc s t (finished held)
      else
        let (ts, x) := collect MAX_PER_ITER (merge_sort Nat.le (elements (queue s))) (cths s) in
        cset_pc (cset_ths (cset_queue s (queue s ∖ list_to_set ts)) x) t (SigGive held ts)
  | SigGive held (w :: ts) => cset_pc (cset_given s (given s ++ [w])) t (SigGive held ts)
  | SigGive held [] => cset_pc s t (Sig held)
  | _ => s
  end.

Inductive cv_event :=
| CLock (t : nat) | CUnlock (t : nat) | CWait (t : nat) | CSignal (t : nat) | CStep (t : nat)
| CResume (t : nat)         (* a thread handed to [add_to_requeue] gets a processor *)
| CKick (t : nat).          (* a message *)

Definition cv_exec (s : cvs) (e : cv_event) : cvs :=
  match e with
  | CLock t => match cpcs s !! t, guard s with Some Out, None => cset_pc (cset_guard s (Some t)) t Holding | _, _ => s end
  | CUnlock t => match cpcs s !! t with Some Holding => cset_pc (cset_guard s None) t Out | _ => s end
  | CWait t => match cpcs s !! t with Some Holding => cset_pc s t WInsert | _ => s end
  | CSignal t => match cpcs s !! t with Some Holding => cset_pc s t (Sig true) | Some Out => cset_pc s t (Sig false) | _ => s end
  | CStep t =>
      match cpcs s !! t with
      | Some ((Sig _ | SigGive _ _) as p) => signal_step s t p
      | Some p => wait_step s t p
      | None => s
      end
  | CResume t =>
      match cpcs s !! t with
      | Some WAsleep => if decide (t ∈ given s) then cset_pc (cset_given s (List.filter (fun j => negb (j =? t)%nat) (given s))) t WRelock else s
      | _ => s
      end
  | CKick t =>
      let (b, x) := reset_sync_sleep (cths s) t in
      cset_given (cset_ths s x) (given s ++ if b then [t] else [])
  end.

(** ** The invariant *)

(** The thread has the lock. *)
Definition owns (p : cv_pc) : bool :=
  match p with
  | Holding | WInsert | WFlag | WDone | WUnlock | WRemove | WReset | WResetDone | Sig true | SigGive true _ => true
  | _ => false
  end.

(** The thread has set its flag and has not come back. *)
Definition dozing (p : cv_pc) : bool := match p with WDone | WUnlock | WAsleep => true | _ => false end.

Definition in_tree (p : cv_pc) : bool := match p with WFlag | WDone | WUnlock | WAsleep | WRelock | WRemove => true | _ => false end.

(** Threads taken out of the tree and not yet handed on. *)
Definition carried (p : cv_pc) : list nat := match p with SigGive _ ts => ts | _ => [] end.

Definition handed (s : cvs) (t : nat) : Prop := t ∈ given s \/ exists j p, cpcs s !! j = Some p /\ t ∈ carried p.

Definition flag (s : cvs) (t : nat) : bool := match cths s !! t with Some th => sync_sleep th | None => false end.

(** Nobody is handed on twice, and only threads whose flag was cleared. *)
Record hand_ok (s : cvs) : Prop := {
  u_flag t : handed s t -> flag s t = false /\ exists p, cpcs s !! t = Some p /\ dozing p = true;
  u_given : NoDup (given s);
  u_apart t j p : t ∈ given s -> cpcs s !! j = Some p -> t ∉ carried p;
  u_one t j1 j2 p1 p2 : cpcs s !! j1 = Some p1 -> cpcs s !! j2 = Some p2 -> t ∈ carried p1 -> t ∈ carried p2 -> j1 = j2;
  u_carried j p : cpcs s !! j = Some p -> NoDup (carried p) }.

Record CInv (s : cvs) : Prop := {
  v_owner t p : cpcs s !! t = Some p -> owns p = true -> guard s = Some t;
  v_queue t : t ∈ queue s -> exists p, cpcs s !! t = Some p /\ in_tree p = true;
  v_entered t : cpcs s !! t = Some WFlag -> t ∈ queue s;
  v_doze t p : cpcs s !! t = Some p -> dozing p = true -> flag s t = true /\ t ∈ queue s \/ flag s t = false /\ handed s t;
  v_flag t : flag s t = true -> exists p, cpcs s !! t = Some p /\ dozing p = true;
  v_known t p : cpcs s !! t = Some p -> is_Some (cths s !! t);
  v_hand : hand_ok s }.

Definition doze_ok (s : cvs) (t : nat) : Prop := flag s t = true /\ t ∈ queue s \/ flag s t = false /\ handed s t.

(** Thread [t] goes from [p] to [p']. *)
Lemma cinv_by s s' t p p' : CInv s -> cpcs s !! t = Some p -> cpcs s' = <[t := p']> (cpcs s) ->
  (guard s' = guard s /\ (owns p' = true -> owns p = true) \/ guard s = None /\ guard s' = Some t \/ owns p = true /\ owns p' = false) ->
  (forall j, j <> t -> j ∈ queue s' -> j ∈ queue s) -> (t ∈ queue s' -> in_tree p' = true) ->
  (forall j, j <> t -> cpcs s !! j = Some WFlag -> j ∈ queue s -> j ∈ queue s') -> (p' = WFlag -> t ∈ queue s') ->
  (forall j q, j <> t -> cpcs s !! j = Some q -> dozing q = true -> doze_ok s j -> doze_ok s' j) -> (dozing p' = true -> doze_ok s' t) ->
  (forall j, j <> t -> flag s' j = true -> flag s j = true) -> (flag s' t = true -> dozing p' = true) ->
  (forall j, is_Some (cths s !! j) -> is_Some (cths s' !! j)) -> hand_ok s' -> CInv s'.
Proof.
  intros [Vo Vq Ve Vd Vf Vk Vh] Hp Ep Hg Hq1 Hq2 He1 He2 Hd1 Hd2 Hf1 Hf2 Hk Hh.
  assert (forall j q, cpcs s' !! j = Some q -> j = t /\ q = p' \/ j <> t /\ cpcs s !! j = Some q) as Hback.
  { intros j q. rewrite Ep. destruct (decide (j = t)) as [->|Hne]; [rewrite lookup_insert_eq; intros [= <-]; by left|]. rewrite lookup_insert_ne by done. by right. }
  assert (cpcs s' !! t = Some p') as Ht by (by rewrite Ep, lookup_insert_eq).
  assert (forall j, j <> t -> cpcs s' !! j = cpcs s !! j) as Hother by (intros j Hj; by rewrite Ep, lookup_insert_ne).
  split.
  - intros j q [[-> ->]|[Hne Hj]]%Hback Ho.
    + destruct Hg as [[-> Hoo]|[[_ ->]|[_ E]]]; [by eapply Vo; [|apply Hoo]|done|congruence].
    + pose proof (Vo j q Hj Ho) as Hgj. destruct Hg as [[-> _]|[[E _]|[E _]]]; [done|congruence|]. pose proof (Vo t p Hp E). congruence.
  - intros j Hj. destruct (decide (j = t)) as [->|Hne]; [exists p'; split; [done|by apply Hq2]|]. rewrite Hother by done. by apply Vq, Hq1.
  - intros j [[-> Ew]|[Hne Hj]]%Hback; [by apply He2|]. apply He1; auto.
  - intros j q [[-> ->]|[Hne Hj]]%Hback Ho; [by apply Hd2|]. eapply Hd1; [done|done|done|by eapply Vd].
  - intros j Hj. destruct (decide (j = t)) as [->|Hne]; [exists p'; split; [done|by apply Hf2]|]. rewrite Hother by done. by apply Vf, Hf1.
  - intros j q [[-> _]|[Hne Hj]]%Hback; apply Hk; by eapply Vk.
  - done.
Qed.

(** A step that hands on nothing. *)
Lemma hand_quiet s s' t p p' : CInv s -> cpcs s !! t = Some p -> cpcs s' = <[t := p']> (cpcs s) -> given s' = given s -> carried p = [] -> carried p' = [] ->
  (forall j, j <> t -> flag s' j = flag s j) -> (dozing p = true -> dozing p' = true /\ flag s' t = flag s t) -> hand_ok s'.
Proof.
  intros Hi Hp Ep Eg Hc Hc' Hf Hd. destruct (v_hand _ Hi) as [Uf Ug Ua Uo Uc].
  assert (forall j q x, cpcs s' !! j = Some q -> x ∈ carried q -> cpcs s !! j = Some q) as Hback.
  { intros j q x. rewrite Ep. destruct (decide (j = t)) as [->|Hne]; [rewrite lookup_insert_eq; intros [= <-]; rewrite Hc'; set_solver|by rewrite lookup_insert_ne]. }
  split.
  - intros j Hj. assert (handed s j) as Ho.
    { destruct Hj as [Hj|(i & q & Hq & Hj)]; [left; by rewrite <- Eg|right; exists i, q; split; [by eapply Hback|done]]. }
    destruct (Uf j Ho) as (Ff & q & Hq & Hdq). rewrite Ep. destruct (decide (j = t)) as [->|Hne].
    + rewrite Hp in Hq. injection Hq as <-. destruct (Hd Hdq) as [Hd' ->]. split; [done|]. exists p'. by rewrite lookup_insert_eq.
    + rewrite Hf by done. split; [done|]. exists q. by rewrite lookup_insert_ne.
  - by rewrite Eg.
  - intros x j q Hx Hq Hxq. rewrite Eg in Hx. by eapply Ua; [|eapply Hback|].
  - intros x j1 j2 q1 q2 H1 H2 X1 X2. by eapply (Uo x); [eapply Hback|eapply Hback|..].
  - intros j q Hq. destruct (carried q) as [|x l] eqn:E; [constructor|]. rewrite <- E. eapply Uc, (Hback j q x); [done|]. rewrite E. by left.
Qed.

Lemma flag_set x t th : x !! t = Some th -> forall s, cths s = set_sync_sleep x t -> flag s t = true.
Proof. intros Ht s E. unfold flag. rewrite E. unfold set_sync_sleep. by rewrite lookup_alter_eq, Ht. Qed.

Lemma reset_flag (x : threads) t j : match (reset_sync_sleep x t).2 !! j with Some th => sync_sleep th | None => false end =
  (match x !! j with Some th => sync_sleep th | None => false end) && negb (j =? t)%nat.
Proof.
  unfold reset_sync_sleep. cbn. destruct (Nat.eqb_spec j t) as [->|Hne].
  - rewrite lookup_alter_eq. destruct (x !! t); cbn; by rewrite ?andb_false_r.
  - rewrite lookup_alter_ne by done. by rewrite andb_true_r.
Qed.

Lemma alter_some (x : threads) f t j : is_Some (x !! j) -> is_Some (alter f t x !! j).
Proof. intros [th Hj]. destruct (decide (j = t)) as [->|]; [rewrite lookup_alter_eq, Hj; by eexists|rewrite lookup_alter_ne by done; by eexists]. Qed.

Lemma handed_mono s s' j : (forall i, i ∈ given s -> i ∈ given s') ->
  (forall t q, cpcs s !! t = Some q -> j ∈ carried q -> j ∈ given s' \/ exists q', cpcs s' !! t = Some q' /\ j ∈ carried q') -> handed s j -> handed s' j.
Proof.
  intros Hg Hc [Hj|(t & q & Hq & Hj)]; [left; auto|]. destruct (Hc t q Hq Hj) as [|(q' & Hq' & Hj')]; [by left|right; by exists t, q'].
Qed.

Abbreviation flag_in := (fun (x : threads) (j : nat) => match x !! j with Some th => sync_sleep th | None => false end).

(** What [collect] takes out had its flag set and has it no more; nothing else changes. *)
Lemma collect_spec room nodes x ts x' : collect room nodes x = (ts, x') ->
  (forall t, t ∈ ts -> t ∈ nodes /\ flag_in x t = true) /\ NoDup ts /\
  (forall j, flag_in x' j = flag_in x j && negb (bool_decide (j ∈ ts))) /\
  (forall j, is_Some (x !! j) -> is_Some (x' !! j)).
Proof.
  assert (forall x : threads, forall j, flag_in x j = flag_in x j && negb (bool_decide (j ∈ []))) as Hnil.
  { intros x0 j. rewrite bool_decide_eq_false_2 by apply not_elem_of_nil. by rewrite andb_true_r. }
  revert room x ts x'. induction nodes as [|t nodes IH]; intros room x ts x'; cbn [collect].
  - intros [= <- <-]. split; [intros j Hj; by apply not_elem_of_nil in Hj|]. split; [constructor|done].
  - destruct room as [|r].
    { intros [= <- <-]. split; [intros j Hj; by apply not_elem_of_nil in Hj|]. split; [constructor|done]. }
    pose proof (reset_flag x t) as Hrf. destruct (reset_sync_sleep x t) as [b x1] eqn:Er. cbn in Hrf. unfold reset_sync_sleep in Er. injection Er as Eb Ex1.
    assert (forall j, is_Some (x !! j) -> is_Some (x1 !! j)) as Hs by (intros j; rewrite <- Ex1; apply alter_some).
    destruct b.
    + destruct (collect r nodes x1) as [ts1 x2] eqn:Ec. intros [= <- <-]. destruct (IH _ _ _ _ Ec) as (Hin & Hnd & Hfl & Hk).
      split; [|split; [|split; [|auto]]].
      * intros j [->|Hj]%elem_of_cons; [split; [by left|done]|]. destruct (Hin j Hj) as [Hjn Hjf]. rewrite Hrf in Hjf. apply andb_true_iff in Hjf as [Hjf _].
        split; [by right|done].
      * apply NoDup_cons. split; [|done]. intros Ht. destruct (Hin t Ht) as [_ Hf]. rewrite Hrf, Nat.eqb_refl, andb_false_r in Hf. done.
      * intros j. rewrite Hfl, Hrf. destruct (Nat.eqb_spec j t) as [->|Hne]; cbn.
        -- rewrite (bool_decide_eq_true_2 (t ∈ t :: ts1)) by (by left). cbn. by rewrite !andb_false_r.
        -- rewrite andb_true_r. do 2 f_equal. apply bool_decide_ext. rewrite elem_of_cons. tauto.
    + intros Ec. destruct (IH _ _ _ _ Ec) as (Hin & Hnd & Hfl & Hk). split; [|split; [done|split; [|auto]]].
      * intros j Hj. destruct (Hin j Hj) as [Hjn Hjf]. rewrite Hrf in Hjf. apply andb_true_iff in Hjf as [Hjf _]. split; [by right|done].
      * intros j. rewrite Hfl, Hrf. destruct (Nat.eqb_spec j t) as [->|Hne]; cbn; [|by rewrite andb_true_r]. rewrite Eb. done.
Qed.

Lemma doze_same s s' j : flag s' j = flag s j -> (j ∈ queue s -> j ∈ queue s') -> (handed s j -> handed s' j) -> doze_ok s j -> doze_ok s' j.
Proof. intros Ef Hq Hh [[F Q]|[F Hd]]; [left|right]; rewrite Ef; auto. Qed.

Lemma handed_keep s s' t p p' j : cpcs s !! t = Some p -> cpcs s' = <[t := p']> (cpcs s) -> carried p = [] -> (forall i, i ∈ given s -> i ∈ given s') ->
  handed s j -> handed s' j.
Proof.
  intros Hp Ep Hc Hg. apply handed_mono; [done|]. intros i q Hq Hj. right. destruct (decide (i = t)) as [->|Hne].
  - assert (q = p) as -> by congruence. rewrite Hc in Hj. by apply not_elem_of_nil in Hj.
  - exists q. by rewrite Ep, lookup_insert_ne.
Qed.

Lemma flag_off s t p : CInv s -> cpcs s !! t = Some p -> dozing p = false -> flag s t = false.
Proof. intros Hi Hp Hd. destruct (flag s t) eqn:E; [|done]. destruct (v_flag _ Hi t E) as (q & Hq & Hdq). congruence. Qed.

(** Steps that change neither the tree, the flags nor what is handed on. *)
Lemma cinv_move s g t p p' : CInv s -> cpcs s !! t = Some p ->
  (g = guard s /\ (owns p' = true -> owns p = true) \/ guard s = None /\ g = Some t \/ owns p = true /\ owns p' = false) ->
  carried p = [] -> carried p' = [] -> (in_tree p = true -> in_tree p' = true) -> dozing p' = dozing p -> p' <> WFlag -> CInv (cset_pc (cset_guard s g) t p').
Proof.
  intros Hi Hp Hg Hc Hc' Ht Hd Hw. assert (forall j, handed s j -> handed (cset_pc (cset_guard s g) t p') j) as Hh by (intros j; by apply (handed_keep s _ t p p')).
  eapply (cinv_by s _ t p p'); [done|done|done|done|done| |done|done| | |done| |done|].
  - intros Hq. destruct (v_queue _ Hi t Hq) as (q & Hq' & Hin). rewrite Hp in Hq'. injection Hq' as <-. auto.
  - intros j q Hj Hq Hdq. apply (doze_same s); [done|done|apply Hh].
  - intros Hdp. rewrite Hd in Hdp. apply (doze_same s); [done|done|apply Hh|by eapply v_doze].
  - intros Hf. change (flag s t = true) in Hf. destruct (v_flag _ Hi t Hf) as (q & Hq & Hdq). congruence.
  - apply (hand_quiet s _ t p p'); try done. by rewrite Hd.
Qed.

Lemma cinv_go s t p p' : CInv s -> cpcs s !! t = Some p -> (owns p' = true -> owns p = true) -> carried p = [] -> carried p' = [] -> (in_tree p = true -> in_tree p' = true) ->
  dozing p' = dozing p -> p' <> WFlag -> CInv (cset_pc s t p').
Proof.
  intros Hi Hp Ho. replace (cset_pc s t p') with (cset_pc (cset_guard s (guard s)) t p') by done. apply cinv_move; [done|done|]. by left.
Qed.

(** Steps that change a flag of the thread. *)
Lemma cinv_flags s f t p p' : CInv s -> cpcs s !! t = Some p -> owns p = true -> carried p = [] -> carried p' = [] -> (in_tree p = true -> in_tree p' = true) -> p' <> WFlag ->
  (dozing p = true -> dozing p' = true /\ flag (cset_ths s (alter f t (cths s))) t = flag s t) ->
  (match alter f t (cths s) !! t with Some th => sync_sleep th | None => false end = true -> dozing p' = true) ->
  (dozing p' = true -> doze_ok (cset_pc (cset_ths s (alter f t (cths s))) t p') t) -> CInv (cset_pc (cset_ths s (alter f t (cths s))) t p').
Proof.
  intros Hi Hp Ho Hc Hc' Ht Hw Hdz Hf Hd. assert (forall j, j <> t -> flag (cset_pc (cset_ths s (alter f t (cths s))) t p') j = flag s j) as Hfl.
  { intros j Hj. unfold flag. cbn. by rewrite lookup_alter_ne. }
  eapply (cinv_by s _ t p p'); [done|done|done|by left|done| |done|done| |done| |done| |].
  - intros Hq. destruct (v_queue _ Hi t Hq) as (q & Hq' & Hin). rewrite Hp in Hq'. injection Hq' as <-. auto.
  - intros j q Hj Hq Hdq. apply doze_same; [by apply Hfl|done|by apply (handed_keep s _ t p p')].
  - intros j Hj. by rewrite Hfl.
  - intros j. apply alter_some.
  - by apply (hand_quiet s _ t p p').
Qed.

Lemma wait_step_inv s t p : CInv s -> cpcs s !! t = Some p -> CInv (wait_step s t p).
Proof.
  intros Hi Hp. pose proof (v_known _ Hi t p Hp) as [th Hth]. destruct p; cbn [wait_step]; try done.
  - eapply (cinv_by s _ t WInsert WFlag); [done|done|done|by left| |done|cbn; set_solver|cbn; set_solver| |done|done| |done|by apply (hand_quiet s _ t WInsert WFlag)].
    + cbn. set_solver.
    + intros j q Hj Hq Hdq. apply (doze_same s); [done|cbn; set_solver|by apply (handed_keep s _ t WInsert WFlag)].
    + change (flag s t = true -> dozing WFlag = true). by rewrite (flag_off s t WInsert).
  - unfold set_sync_sleep. eapply (cinv_flags s _ t WFlag WDone); try done. intros _. left.
    split; [|by apply (v_entered _ Hi)]. unfold flag. cbn. by rewrite lookup_alter_eq, Hth.
  - unfold set_sync_sleep_done. eapply (cinv_flags s _ t WDone WUnlock); try done.
    { intros _. split; [done|]. unfold flag. cbn. by rewrite lookup_alter_eq, Hth. }
    intros _.
    pose proof (v_doze _ Hi t WDone Hp eq_refl) as Hd. apply (doze_same s); [|done|by apply (handed_keep s _ t WDone WUnlock)|exact Hd].
    unfold flag. cbn. by rewrite lookup_alter_eq, Hth.
  - eapply cinv_move; [done|done|by right; right|done..].
  - destruct (guard s) eqn:Eg; [done|]. eapply cinv_move; [done|done|by right; left|done..].
  - eapply (cinv_by s _ t WRemove WReset); [done|done|done|by left| |cbn; set_solver|cbn; set_solver|done| |done|done| |done|by apply (hand_quiet s _ t WRemove WReset)].
    + cbn. set_solver.
    + intros j q Hj Hq Hdq. apply (doze_same s); [done|cbn; set_solver|by apply (handed_keep s _ t WRemove WReset)].
    + change (flag s t = true -> dozing WReset = true). by rewrite (flag_off s t WRemove).
  - unfold reset_sync_sleep. cbn [snd]. eapply (cinv_flags s _ t WReset WResetDone); try done. by rewrite lookup_alter_eq, Hth.
  - unfold reset_sync_sleep_done. cbn [snd]. eapply (cinv_flags s _ t WResetDone Holding); try done. rewrite lookup_alter_eq, Hth. cbn.
    pose proof (flag_off s t WResetDone Hi Hp eq_refl) as Hf. unfold flag in Hf. rewrite Hth in Hf. by rewrite Hf.
Qed.

(** Taking threads out of the tree. *)
Lemma collect_inv s t held ts x : CInv s -> cpcs s !! t = Some (Sig held) ->
  collect MAX_PER_ITER (merge_sort Nat.le (elements (queue s))) (cths s) = (ts, x) ->
  CInv (cset_pc (cset_ths (cset_queue s (queue s ∖ list_to_set ts)) x) t (SigGive held ts)).
Proof.
  intros Hi Hp Ec. destruct (collect_spec _ _ _ _ _ Ec) as (Hin & Hnd & Hfl & Hk).
  set (s' := cset_pc _ _ _). assert (forall j, flag s' j = flag s j && negb (bool_decide (j ∈ ts))) as Hf by (intros j; apply Hfl).
  assert (flag s t = false) as Hft by (by eapply flag_off).
  assert (forall j, j <> t -> cpcs s' !! j = cpcs s !! j) as Hother by (intros j Hj; cbn; by rewrite lookup_insert_ne).
  assert (forall j, handed s j -> handed s' j) as Hh by (intros j; by apply (handed_keep s _ t (Sig held) (SigGive held ts))).
  assert (forall j, j ∈ ts -> handed s' j) as Hts by (intros j Hj; right; exists t, (SigGive held ts); cbn; by rewrite lookup_insert_eq).
  assert (forall j, j ∈ ts -> ~ handed s j) as Hnew.
  { intros j Hj Ho. destruct (u_flag _ (v_hand _ Hi) j Ho) as [E _]. destruct (Hin j Hj) as [_ E']. unfold flag in E. congruence. }
  eapply (cinv_by s s' t (Sig held)); [done|done|done|left; by destruct held| | | |done| |done| | |apply Hk|].
  - cbn. set_solver.
  - cbn. intros Hq. exfalso. assert (t ∈ queue s) as Hq' by set_solver. destruct (v_queue _ Hi t Hq') as (q & Hq0 & Hin'). rewrite Hp in Hq0. by injection Hq0 as <-.
  - cbn. intros j Hj Hjf Hjq. apply elem_of_difference. split; [done|]. rewrite elem_of_list_to_set. intros Hjt. destruct (Hin j Hjt) as [_ E].
    pose proof (flag_off s j WFlag Hi Hjf eq_refl) as E'. unfold flag in E'. congruence.
  - intros j q Hj Hq Hd Hok. destruct (decide (j ∈ ts)) as [Hjt|Hjt].
    + right. split; [|auto]. rewrite Hf, bool_decide_eq_true_2 by done. by rewrite andb_false_r.
    + apply (doze_same s); [by rewrite Hf, bool_decide_eq_false_2, andb_true_r|cbn; set_solver|auto|done].
  - intros j Hj. rewrite Hf. by intros [E _]%andb_true_iff.
  - rewrite Hf, Hft. done.
  - destruct (v_hand _ Hi) as [Uf Ug Ua Uo Uc].
    assert (forall j q, cpcs s' !! j = Some q -> j = t /\ q = SigGive held ts \/ j <> t /\ cpcs s !! j = Some q) as Hback.
    { intros j q. cbn. destruct (decide (j = t)) as [->|Hne]; [rewrite lookup_insert_eq; intros [= <-]; by left|]. rewrite lookup_insert_ne by done. by right. }
    split.
    + intros j Hj. assert (j ∈ ts \/ handed s j) as [Hjt|Ho].
      { destruct Hj as [Hj|(i & q & [[-> ->]|[Hne Hq]]%Hback & Hj)]; [right; by left|by left|right; right; by exists i, q]. }
      * rewrite Hf, bool_decide_eq_true_2, andb_false_r by done. split; [done|]. destruct (v_flag _ Hi j) as (q & Hq & Hd); [apply Hin, Hjt|].
        exists q. rewrite Hother by (intros ->; rewrite Hp in Hq; by injection Hq as <-). done.
      * destruct (Uf j Ho) as (E & q & Hq & Hd). rewrite Hf, E. split; [done|]. exists q. rewrite Hother by (intros ->; rewrite Hp in Hq; by injection Hq as <-). done.
    + done.
    + intros y j q Hy [[-> ->]|[Hne Hq]]%Hback; [|by eapply Ua]. intros Hyt. apply (Hnew y Hyt). by left.
    + intros y j1 j2 q1 q2 [[-> ->]|[N1 H1]]%Hback [[-> ->]|[N2 H2]]%Hback Y1 Y2; [done|..|by eapply Uo].
      * exfalso. apply (Hnew y Y1). right. by exists j2, q2.
      * exfalso. apply (Hnew y Y2). right. by exists j1, q1.
    + intros j q [[-> ->]|[Hne Hq]]%Hback; [done|by eapply Uc].
Qed.

(** Handing on one of them. *)
Lemma give_inv s t held w ts : CInv s -> cpcs s !! t = Some (SigGive held (w :: ts)) -> CInv (cset_pc (cset_given s (given s ++ [w])) t (SigGive held ts)).
Proof.
  intros Hi Hp. set (s' := cset_pc _ _ _). destruct (v_hand _ Hi) as [Uf Ug Ua Uo Uc].
  assert (forall j q, cpcs s' !! j = Some q -> j = t /\ q = SigGive held ts \/ j <> t /\ cpcs s !! j = Some q) as Hback.
  { intros j q. cbn. destruct (decide (j = t)) as [->|Hne]; [rewrite lookup_insert_eq; intros [= <-]; by left|]. rewrite lookup_insert_ne by done. by right. }
  assert (forall j, handed s' j <-> handed s j) as Hh.
  { intros j. split; intros [Hj|(i & q & Hq & Hj)].
    - cbn in Hj. apply elem_of_app in Hj as [Hj| ->%list_elem_of_singleton]; [by left|]. right. exists t, (SigGive held (w :: ts)). split; [done|]. by left.
    - right. destruct (Hback i q Hq) as [[-> ->]|[Hne Hq']]; [exists t, (SigGive held (w :: ts)); split; [done|]; by right|by exists i, q].
    - left. cbn. apply elem_of_app. by left.
    - destruct (decide (i = t)) as [->|Hne].
      + rewrite Hp in Hq. injection Hq as <-. cbn in Hj. apply elem_of_cons in Hj as [->|Hj]; [left; cbn; apply elem_of_app; right; by left|].
        right. exists t, (SigGive held ts). split; [cbn; by rewrite lookup_insert_eq|done].
      + right. exists i, q. split; [cbn; by rewrite lookup_insert_ne|done]. }
  assert (forall j, j <> t -> cpcs s' !! j = cpcs s !! j) as Hother by (intros j Hj; cbn; by rewrite lookup_insert_ne).
  pose proof (Uc t _ Hp) as Hnd. cbn in Hnd. apply NoDup_cons in Hnd as [Hw Hnd].
  assert (forall j, cpcs s !! j = Some (SigGive held (w :: ts)) -> j = t) as Honly by (intros j Hj; eapply (Uo w j t); [done|done|by left|by left]).
  assert (w ∉ given s) as Hwg by (intros Hg; eapply (Ua w t); [done|done|by left]).
  eapply (cinv_by s s' t (SigGive held (w :: ts))); [done|done|done|left; by destruct held|done| |done|done| |done|done| |done|].
  - intros Hq. exfalso. destruct (v_queue _ Hi t Hq) as (q & Hq0 & Hin'). rewrite Hp in Hq0. by injection Hq0 as <-.
  - intros j q Hj Hq Hd. apply (doze_same s); [done|done|apply Hh].
  - change (flag s t = true -> dozing (SigGive held ts) = true). by rewrite (flag_off s t _ Hi Hp).
  - split.
    + intros j Hj. apply Hh in Hj. destruct (Uf j Hj) as (E & q & Hq & Hd). split; [done|]. exists q.
      rewrite Hother by (intros ->; rewrite Hp in Hq; by injection Hq as <-). done.
    + apply NoDup_app. split; [done|]. split; [intros x Hx ->%list_elem_of_singleton; done|apply NoDup_singleton].
    + intros y j q [Hy| ->%list_elem_of_singleton]%elem_of_app [[-> ->]|[Hne Hq]]%Hback Hyq.
      * eapply (Ua y t); [done|done|by right].
      * by eapply Ua.
      * done.
      * apply Hne. eapply (Uo w j t); [done|done|done|by left].
    + intros y j1 j2 q1 q2 [[-> ->]|[N1 H1]]%Hback [[-> ->]|[N2 H2]]%Hback Y1 Y2; [done|..|by eapply Uo].
      * eapply (Uo y t j2); [done|done|by right|done].
      * eapply (Uo y j1 t); [done|done|done|by right].
    + intros j q [[-> ->]|[Hne Hq]]%Hback; [done|by eapply Uc].
Qed.

Lemma signal_step_inv s t p : CInv s -> cpcs s !! t = Some p -> CInv (signal_step s t p).
Proof.
  intros Hi Hp. destruct p as [| | | | | | | | | | |held|held [|w ts]]; cbn [signal_step]; try done.
  - destruct (decide (queue s = ∅)); [destruct held; by eapply cinv_go|].
    destruct (collect MAX_PER_ITER _ (cths s)) as [ts x] eqn:Ec. by apply collect_inv.
  - destruct held; by eapply cinv_go.
  - by apply give_inv.
Qed.

Lemma resume_inv s t : CInv s -> cpcs s !! t = Some WAsleep -> t ∈ given s ->
  CInv (cset_pc (cset_given s (List.filter (fun j => negb (j =? t)%nat) (given s))) t WRelock).
Proof.
  intros Hi Hp Hg. set (s' := cset_pc _ _ _). destruct (v_hand _ Hi) as [Uf Ug Ua Uo Uc]. destruct (Uf t (or_introl Hg)) as [Ft _].
  assert (forall j, j ∈ given s' <-> j ∈ given s /\ j <> t) as Hgiven.
  { intros j. cbn. rewrite !list_elem_of_In, List.filter_In, negb_true_iff, Nat.eqb_neq. done. }
  assert (forall j q, cpcs s' !! j = Some q -> j = t /\ q = WRelock \/ j <> t /\ cpcs s !! j = Some q) as Hback.
  { intros j q. cbn. destruct (decide (j = t)) as [->|Hne]; [rewrite lookup_insert_eq; intros [= <-]; by left|]. rewrite lookup_insert_ne by done. by right. }
  assert (forall j, j <> t -> cpcs s' !! j = cpcs s !! j) as Hother by (intros j Hj; cbn; by rewrite lookup_insert_ne).
  assert (forall j, handed s' j <-> handed s j /\ j <> t) as Hh.
  { intros j. split.
    - intros [[Hj Hne]%Hgiven|(i & q & [[-> ->]|[Hne Hq]]%Hback & Hj)]; [split; [by left|done]|by apply not_elem_of_nil in Hj|].
      split; [right; by exists i, q|]. intros ->. by eapply (Ua t i q).
    - intros [[Hj|(i & q & Hq & Hj)] Hne]; [left; by apply Hgiven|right]. exists i, q. rewrite Hother; [done|].
      intros ->. rewrite Hp in Hq. injection Hq as <-. by apply not_elem_of_nil in Hj. }
  eapply (cinv_by s s' t WAsleep); [done|done|done|by left|done|done|done|done| |done|done| |done|].
  - intros j q Hj Hq Hd. apply (doze_same s); [done|done|]. intros Ho. by apply Hh.
  - change (flag s t = true -> dozing WRelock = true). by rewrite Ft.
  - split.
    + intros j [Hj Hne]%Hh. destruct (Uf j Hj) as (E & q & Hq & Hd). split; [done|]. exists q. by rewrite Hother.
    + cbn. by apply NoDup_ListNoDup, List.NoDup_filter, NoDup_ListNoDup.
    + intros y j q [Hy _]%Hgiven [[-> ->]|[Hne Hq]]%Hback; [apply not_elem_of_nil|by eapply Ua].
    + intros y j1 j2 q1 q2 [[-> ->]|[N1 H1]]%Hback [[-> ->]|[N2 H2]]%Hback Y1 Y2; [done|by apply not_elem_of_nil in Y1|by apply not_elem_of_nil in Y2|by eapply Uo].
    + intros j q [[-> ->]|[Hne Hq]]%Hback; [constructor|by eapply Uc].
Qed.

(** A message that clears the flag of a thread. *)
Lemma kick_on s t : CInv s -> flag s t = true -> CInv (cset_given (cset_ths s (alter sleep_off t (cths s))) (given s ++ [t])).
Proof.
  intros Hi Hf. set (s' := cset_given _ _). destruct (v_hand _ Hi) as [Uf Ug Ua Uo Uc]. destruct (v_flag _ Hi t Hf) as (p & Hp & Hd).
  assert (~ handed s t) as Hnew by (intros Ho; destruct (Uf t Ho); congruence).
  assert (forall j, flag s' j = flag s j && negb (j =? t)%nat) as Hfl by (intros j; apply (reset_flag (cths s) t j)).
  assert (forall j, handed s' j <-> handed s j \/ j = t) as Hh.
  { intros j. unfold handed. cbn. rewrite elem_of_app, list_elem_of_singleton. tauto. }
  assert (handed s' t) as Ht by (apply Hh; by right).
  assert (forall j q, cpcs s !! j = Some q -> j <> t -> doze_ok s j -> doze_ok s' j) as Hdz.
  { intros j q Hq Hne. apply doze_same; [rewrite Hfl, (proj2 (Nat.eqb_neq _ _) Hne); apply andb_true_r|done|]. intros Ho. apply Hh. by left. }
  eapply (cinv_by s s' t p p); [done|done|cbn; by rewrite insert_id|by left|done| |done| | | | | | |].
  - intros Hq. destruct (v_queue _ Hi t Hq) as (q & Hq' & Hin). rewrite Hp in Hq'. by injection Hq' as <-.
  - intros ->. done.
  - intros j q Hj Hq Hdq. by eapply Hdz.
  - intros _. right. split; [|done]. by rewrite Hfl, Nat.eqb_refl, andb_false_r.
  - intros j Hj. rewrite Hfl. by intros [E _]%andb_true_iff.
  - intros _. done.
  - intros j. apply alter_some.
  - split.
    + intros j [Ho| ->]%Hh; [|split; [by rewrite Hfl, Nat.eqb_refl, andb_false_r|by exists p]]. destruct (Uf j Ho) as (E & Hq). split; [by rewrite Hfl, E|done].
    + apply NoDup_app. split; [done|]. split; [intros x Hx ->%list_elem_of_singleton; apply Hnew; by left|apply NoDup_singleton].
    + intros y j q [Hy| ->%list_elem_of_singleton]%elem_of_app Hq; [by eapply Ua|]. intros Hyq. apply Hnew. right. by exists j, q.
    + apply Uo.
    + apply Uc.
Qed.

(** One that does not. *)
Lemma kick_off s t : CInv s -> flag s t = false -> CInv (cset_given (cset_ths s (alter sleep_off t (cths s))) (given s ++ [])).
Proof.
  intros Hi Hf. assert (alter sleep_off t (cths s) = cths s) as ->; [|rewrite app_nil_r; by destruct s].
  apply map_eq. intros j. destruct (decide (j = t)) as [->|Hne]; [|by rewrite lookup_alter_ne]. rewrite lookup_alter_eq. unfold flag in Hf.
  destruct (cths s !! t) as [th|]; [|done]. cbn. f_equal. destruct th. cbn in *. by subst.
Qed.

Lemma cv_exec_inv s e : CInv s -> CInv (cv_exec s e).
Proof.
  intros Hi. destruct e as [t|t|t|t|t|t|t]; cbn [cv_exec].
  - destruct (cpcs s !! t) as [[]|] eqn:Hp; try done. destruct (guard s) eqn:Eg; [done|]. eapply cinv_move; [done|done|by right; left|done..].
  - destruct (cpcs s !! t) as [[]|] eqn:Hp; try done. eapply cinv_move; [done|done|by right; right|done..].
  - destruct (cpcs s !! t) as [[]|] eqn:Hp; try done. by eapply cinv_go.
  - destruct (cpcs s !! t) as [[]|] eqn:Hp; try done; by eapply cinv_go.
  - destruct (cpcs s !! t) as [p|] eqn:Hp; [|done]. destruct p; try (by apply wait_step_inv); by apply signal_step_inv.
  - destruct (cpcs s !! t) as [[]|] eqn:Hp; try done. destruct (decide (t ∈ given s)); [by apply resume_inv|done].
  - unfold reset_sync_sleep. change (match cths s !! t with Some th => sync_sleep th | None => false end) with (flag s t).
    destruct (flag s t) eqn:Ef; [by apply kick_on|by apply kick_off].
Qed.

Definition cv_step (s s' : cvs) : Prop := exists e, s' = cv_exec s e.

Lemma cv_init_inv n : CInv (cv_init n).
Proof.
  assert (forall t p, cpcs (cv_init n) !! t = Some p -> p = Out) as Hout by (by intros t p [_ <-]%lookup_gset_to_gmap_Some).
  assert (forall t, flag (cv_init n) t = false) as Hf.
  { intros t. unfold flag. destruct (cths (cv_init n) !! t) as [th|] eqn:E; [|done]. cbn in E. by apply lookup_gset_to_gmap_Some in E as [_ <-]. }
  split.
  - intros t p ->%Hout. done.
  - intros t Ht. by apply not_elem_of_empty in Ht.
  - intros t Ht%Hout. done.
  - intros t p ->%Hout. done.
  - intros t. by rewrite Hf.
  - cbn. intros t p [Ht _]%lookup_gset_to_gmap_Some. exists (mkThread false false 0 false). by apply lookup_gset_to_gmap_Some.
  - split.
    + intros t [Ht|(j & p & ->%Hout & Ht)]; by apply not_elem_of_nil in Ht.
    + constructor.
    + intros t j p Ht. by apply not_elem_of_nil in Ht.
    + intros t j1 j2 p1 p2 ->%Hout _ Ht. by apply not_elem_of_nil in Ht.
    + intros j p ->%Hout. constructor.
Qed.

Lemma cv_reachable n s : rtc cv_step (cv_init n) s -> CInv s.
Proof. apply rtc_invariant; [apply cv_init_inv|]. intros a b Ha [e ->]. by apply cv_exec_inv. Qed.

(** ** What a signal does *)

(** At most one thread has the lock.  A thread that is off its processor in [wait] is in
    the tree with its flag set, or its flag has been cleared and it has been handed to
    [add_to_requeue] or is about to be.  When [signal] returns, the latter holds of every
    thread that is waiting: no wake is lost. *)
Theorem signal_wakes_all n s : rtc cv_step (cv_init n) s ->
  (forall t1 t2 p1 p2, cpcs s !! t1 = Some p1 -> cpcs s !! t2 = Some p2 -> owns p1 = true -> owns p2 = true -> t1 = t2) /\
  (forall t, cpcs s !! t = Some WAsleep -> flag s t = true /\ t ∈ queue s \/ flag s t = false /\ handed s t) /\
  (forall g held t, cpcs s !! g = Some (Sig held) -> cpcs (cv_exec s (CStep g)) !! g = Some (finished held) ->
     cpcs s !! t = Some WAsleep -> flag s t = false /\ handed s t).
Proof.
  intros Hr. pose proof (cv_reachable n s Hr) as Hi. split; [|split].
  - intros t1 t2 p1 p2 H1 H2 O1 O2. pose proof (v_owner _ Hi _ _ H1 O1). pose proof (v_owner _ Hi _ _ H2 O2). congruence.
  - intros t Ht. by eapply v_doze.
  - intros g held t Hg Hd Ht. destruct (v_doze _ Hi t WAsleep Ht eq_refl) as [[_ Hq]|]; [|done]. exfalso.
    cbn [cv_exec] in Hd. rewrite Hg in Hd. cbn [signal_step] in Hd. rewrite decide_False in Hd by set_solver.
    destruct (collect _ _ _). cbn in Hd. rewrite lookup_insert_eq in Hd. by destruct held.
Qed.

Lemma collect_first t nodes x : flag_in x t = true -> exists ts, (collect MAX_PER_ITER (t :: nodes) x).1 = t :: ts.
Proof. intros Hf. cbn. rewrite Hf. destruct (collect _ _ _) as [ts x']. by exists ts. Qed.

Lemma give_all s g held ts : cpcs s !! g = Some (SigGive held ts) ->
  exists s', foldl cv_exec s (replicate (S (length ts)) (CStep g)) = s' /\ cpcs s' !! g = Some (Sig held) /\ queue s' = queue s /\ cths s' = cths s.
Proof.
  revert s. induction ts as [|w ts IH]; intros s Hg; cbn [length replicate foldl cv_exec]; rewrite Hg; cbn [signal_step].
  - eexists. split; [done|]. cbn. by rewrite lookup_insert_eq.
  - apply (IH (cset_pc (cset_given s (given s ++ [w])) g (SigGive held ts))). cbn. by rewrite lookup_insert_eq.
Qed.

(** [signal] returns if all threads in the tree have their flags set: it takes at most
    three steps for each of them and one more. *)
Theorem signal_terminates s g held : cpcs s !! g = Some (Sig held) -> (forall t, t ∈ queue s -> flag s t = true) ->
  exists k, (k <= 3 * size (queue s) + 1)%nat /\ cpcs (foldl cv_exec s (replicate k (CStep g))) !! g = Some (finished held).
Proof.
  remember (size (queue s)) as m eqn:Em. revert s Em. induction (lt_wf m) as [m _ IH]. intros s -> Hg Hf.
  destruct (decide (queue s = ∅)) as [He|He].
  { exists 1%nat. split; [lia|]. cbn. rewrite Hg. cbn. rewrite decide_True by done. cbn. by rewrite lookup_insert_eq. }
  assert (merge_sort Nat.le (elements (queue s)) ≡ₚ elements (queue s)) as Hperm by apply merge_sort_Permutation.
  destruct (collect MAX_PER_ITER (merge_sort Nat.le (elements (queue s))) (cths s)) as [ts x] eqn:Ec.
  destruct (collect_spec _ _ _ _ _ Ec) as (Hin & Hnd & Hfl & _).
  assert (ts <> []) as Hts.
  { destruct (merge_sort Nat.le (elements (queue s))) as [|t l] eqn:El.
    - exfalso. apply He. apply Permutation_nil in Hperm. by apply elements_empty_inv, leibniz_equiv in Hperm.
    - destruct (collect_first t l (cths s)) as [ts' E]; [apply Hf, elem_of_elements; rewrite <- Hperm; by left|]. rewrite Ec in E. cbn in E. by subst ts. }
  assert (list_to_set ts ⊆ queue s) as Hsub by (intros t Ht%elem_of_list_to_set; destruct (Hin t Ht) as [Hn _]; rewrite Hperm in Hn; by apply elem_of_elements).
  pose proof (size_difference (queue s) (list_to_set ts) Hsub) as Hsz. rewrite size_list_to_set in Hsz by done.
  assert (0 < length ts)%nat by (destruct ts; [done|cbn; lia]). pose proof (subseteq_size _ _ Hsub) as Hle. rewrite size_list_to_set in Hle by done.
  set (s1 := cset_pc (cset_ths (cset_queue s (queue s ∖ list_to_set ts)) x) g (SigGive held ts)).
  destruct (give_all s1 g held ts) as (s2 & E2 & Hg2 & Hq2 & Hx2); [cbn; by rewrite lookup_insert_eq|].
  destruct (IH (size (queue s2))) with (s := s2) as (k & Hk & Hd); [rewrite Hq2; cbn; lia|done|done| |].
  { intros t Ht. rewrite Hq2 in Ht. cbn in Ht. unfold flag. rewrite Hx2. cbn. rewrite Hfl. apply elem_of_difference in Ht as [Ht Hnt].
    rewrite elem_of_list_to_set in Hnt. rewrite bool_decide_eq_false_2 by done. rewrite andb_true_r. by apply Hf. }
  exists (S (S (length ts) + k)). rewrite Hq2 in Hk. cbn [queue s1 cset_pc cset_ths cset_queue] in Hk. split; [lia|].
  replace (replicate (S (S (length ts) + k)) (CStep g)) with (CStep g :: replicate (S (length ts)) (CStep g) ++ replicate k (CStep g)) by (by rewrite <- replicate_add).
  cbn [foldl]. rewrite foldl_app. replace (cv_exec s (CStep g)) with s1; [by rewrite E2|].
  cbn [cv_exec]. rewrite Hg. cbn [signal_step]. rewrite decide_False by done. by rewrite Ec.
Qed.

(** ** Signalling with the lock held *)
Definition signalling (p : cv_pc) : bool := match p with Sig true | SigGive true _ => true | _ => false end.

Record stuck (s : cvs) (g t : nat) : Prop := {
  k_guard : guard s = Some g;
  k_signal : exists p, cpcs s !! g = Some p /\ signalling p = true;
  k_waiter : cpcs s !! t = Some WRelock;
  k_queue : t ∈ queue s;
  k_flag : flag s t = false;
  k_owner j p : cpcs s !! j = Some p -> owns p = true -> j = g }.

(** A step of another thread, or of the one that signals. *)
Lemma stuck_by s s' g t j p p' : stuck s g t -> cpcs s !! j = Some p -> cpcs s' = <[j := p']> (cpcs s) -> j <> t -> guard s' = guard s ->
  (j = g -> signalling p' = true) -> (j <> g -> owns p' = false) -> t ∈ queue s' -> flag s' t = false -> stuck s' g t.
Proof.
  intros [Kg (q & Hq & Hs) Kw Kq Kf Ko] Hp Ep Hjt Hg Hjg Ho Hq' Hf'. split; [congruence| |by rewrite Ep, lookup_insert_ne|done|done|].
  - rewrite Ep. destruct (decide (j = g)) as [->|Hne]; [exists p'; split; [by rewrite lookup_insert_eq|auto]|exists q; by rewrite lookup_insert_ne].
  - intros i r. rewrite Ep. destruct (decide (i = j)) as [->|Hne].
    + rewrite lookup_insert_eq. intros [= <-] Ho'. destruct (decide (j = g)); [done|]. rewrite Ho in Ho' by done. done.
    + rewrite lookup_insert_ne by done. apply Ko.
Qed.

Lemma stuck_pc s g t j p : stuck s g t -> cpcs s !! j = Some p -> owns p = true -> signalling p = true.
Proof.
  intros Hk Hp Ho. assert (j = g) as -> by (by eapply k_owner). destruct (k_signal _ _ _ Hk) as (q & Hq & Hs). congruence.
Qed.

Lemma stuck_signal s g t j p : stuck s g t -> cpcs s !! j = Some p -> match p with Sig _ | SigGive _ _ => True | _ => False end -> stuck (signal_step s j p) g t.
Proof.
  intros Hk Hp Hsig. pose proof (k_queue _ _ _ Hk) as Hq. pose proof (k_flag _ _ _ Hk) as Hf.
  assert (j <> t) as Hjt by (intros ->; rewrite (k_waiter _ _ _ Hk) in Hp; by injection Hp as <-).
  assert (forall held, owns p = held -> (j = g -> held = true) /\ (j <> g -> held = false)) as Hheld.
  { intros held E. destruct (k_signal _ _ _ Hk) as (q & Hqg & Hs). split; [intros ->; assert (q = p) as -> by congruence; by destruct p as [| | | | | | | | | | |[]|[] ]|].
    intros Hne. destruct held; [|done]. exfalso. by apply Hne; eapply k_owner. }
  destruct p as [| | | | | | | | | | |held|held [|w ts]]; try done; cbn [signal_step]; (destruct (Hheld held) as [Hg1 Hg2]; [by destruct held|]).
  - rewrite decide_False by set_solver. destruct (collect _ _ _) as [ts x] eqn:Ec. destruct (collect_spec _ _ _ _ _ Ec) as (Hin & _ & Hfl & _).
    eapply (stuck_by s _ g t j); [done|done|done|done|done|cbn; intros E; by rewrite (Hg1 E)|cbn; intros E; by rewrite (Hg2 E)| |].
    + cbn. apply elem_of_difference. split; [done|]. rewrite elem_of_list_to_set. intros Ht. destruct (Hin t Ht) as [_ E]. unfold flag in Hf. congruence.
    + unfold flag in *. cbn. by rewrite Hfl, Hf.
  - eapply (stuck_by s _ g t j); [done|done|done|done|done|cbn; intros E; by rewrite (Hg1 E)|cbn; intros E; by rewrite (Hg2 E)|done|done].
  - eapply (stuck_by s _ g t j); [done|done|done|done|done|cbn; intros E; by rewrite (Hg1 E)|cbn; intros E; by rewrite (Hg2 E)|done|done].
Qed.

Lemma stuck_exec s g t e : stuck s g t -> stuck (cv_exec s e) g t.
Proof.
  intros Hk. pose proof (k_guard _ _ _ Hk) as Hg. pose proof (k_waiter _ _ _ Hk) as Hw. destruct e as [j|j|j|j|j|j|j]; cbn [cv_exec].
  - rewrite Hg. by destruct (cpcs s !! j) as [[]|].
  - destruct (cpcs s !! j) as [[]|] eqn:Hp; try done. by pose proof (stuck_pc s g t j _ Hk Hp eq_refl).
  - destruct (cpcs s !! j) as [[]|] eqn:Hp; try done. by pose proof (stuck_pc s g t j _ Hk Hp eq_refl).
  - destruct (cpcs s !! j) as [[]|] eqn:Hp; try done; [|by pose proof (stuck_pc s g t j _ Hk Hp eq_refl)].
    eapply (stuck_by s _ g t j Out); [done|done|done|congruence|done| |done|apply (k_queue _ _ _ Hk)|apply (k_flag _ _ _ Hk)].
    intros ->. destruct (k_signal _ _ _ Hk) as (q & Hq & Hs). rewrite Hp in Hq. by injection Hq as <-.
  - destruct (cpcs s !! j) as [p|] eqn:Hp; [|done]. destruct p; try (by apply stuck_signal); cbn [wait_step]; try done;
      try (by pose proof (stuck_pc s g t j _ Hk Hp eq_refl)). by rewrite Hg.
  - destruct (cpcs s !! j) as [[]|] eqn:Hp; try done. destruct (decide (j ∈ given s)); [|done].
    eapply (stuck_by s _ g t j WAsleep); [done|done|done|congruence|done| |done|apply (k_queue _ _ _ Hk)|apply (k_flag _ _ _ Hk)].
    intros ->. destruct (k_signal _ _ _ Hk) as (q & Hq & Hs). rewrite Hp in Hq. by injection Hq as <-.
  - destruct (reset_sync_sleep (cths s) j) as [b x] eqn:Er. destruct Hk as [Kg Ks Kw Kq Kf Ko]. split; try done.
    unfold flag in *. cbn. pose proof (reset_flag (cths s) j t) as Hrf. rewrite Er in Hrf. cbn in Hrf. by rewrite Hrf, Kf.
Qed.

(** Thread 1 waits and is woken by a message; thread 0 takes the lock before it and signals. *)
Definition deadlock_events : list cv_event :=
  [CLock 1; CWait 1] ++ replicate 4 (CStep 1) ++ [CKick 1; CResume 1; CLock 0; CSignal 0].

(** A run of two threads: one waits and is woken by a message, the other takes the lock and
    signals with the lock held.  It signals for ever: whatever follows, it does not return,
    since it waits for the first to leave the tree, which in turn waits for the lock. *)
Theorem signal_deadlocks es : exists p, cpcs (foldl cv_exec (cv_init 2) (deadlock_events ++ es)) !! 0%nat = Some p /\ signalling p = true.
Proof.
  rewrite foldl_app. assert (stuck (foldl cv_exec (cv_init 2) deadlock_events) 0 1) as Hk.
  { split; [done|by exists (Sig true)|done|apply (bool_decide_unpack _); vm_compute; exact I|done|]. intros j p Hj Ho.
    assert (map_Forall (fun j p => owns p = true -> j = 0%nat) (cpcs (foldl cv_exec (cv_init 2) deadlock_events))) as Hall.
    { apply map_Forall_to_list. vm_compute. repeat (constructor; try done). }
    by apply (Hall j p Hj). }
  revert Hk. generalize (foldl cv_exec (cv_init 2) deadlock_events). induction es as [|e es IH]; intros s Hk; cbn [foldl]; [apply Hk|].
  apply IH. by apply stuck_exec.
Qed.

(** ** Examples *)

(** Thread 1 sleeps and thread 0 signals. *)
Definition wake_events : list cv_event := [CLock 1; CWait 1] ++ replicate 4 (CStep 1) ++ [CSignal 0].

Lemma cv_run_reachable n es : rtc cv_step (cv_init n) (foldl cv_exec (cv_init n) es).
Proof.
  induction es as [|e es IH] using rev_ind; [apply rtc_refl|]. rewrite foldl_app. eapply rtc_r; [done|]. by exists e.
Qed.

Definition ex_cvs : cvs := foldl cv_exec (cv_init 2) wake_events.

Lemma signal_wakes_all_witness : flag ex_cvs 1 = true /\ 1%nat ∈ queue ex_cvs \/ flag ex_cvs 1 = false /\ handed ex_cvs 1.
Proof. destruct (signal_wakes_all 2 ex_cvs (cv_run_reachable 2 wake_events)) as (_ & Hs & _). apply Hs. vm_compute. reflexivity. Defined.

Lemma signal_terminates_witness : exists k, (k <= 4)%nat /\ cpcs (foldl cv_exec ex_cvs (replicate k (CStep 0))) !! 0%nat = Some Out.
Proof.
  apply (signal_terminates ex_cvs 0 false); [vm_compute; reflexivity|].
  intros t Ht. assert (t = 1%nat) as -> by (revert Ht; change (queue ex_cvs) with ({[1%nat]} ∪ ∅ : gset nat); set_solver). vm_compute. reflexivity.
Defined.
End CondVar.
