(* ===== verification/DirtySet.v ===== *)
(** * The dirty pages of a persistent object

    [src/kernel/src/obj/mod.rs] ([DirtySet]): a vector of bytes used as a set of page
    numbers.  The fault handler adds the pages it maps for writing, syncing takes all of
    them out as runs of consecutive pages.  The bits of the vector are those of the crate
    [bitset_core], which is the class [BitSet] here. *)
From S2P Require Import Prelude.
From stdpp Require Import sorting.

#[local] Open Scope Z_scope.

Module DirtySet.

(** A slice of bytes has eight bits for each byte. *)
Definition bit_len (s : list Z) : Z := 8 * zlen s.

Class BitSet := {
  bit_test : list Z -> Z -> bool;
  bit_set : list Z -> Z -> list Z;
  bit_reset : list Z -> Z -> list Z;
  bit_set_len s b : 0 <= b < bit_len s -> length (bit_set s b) = length s;
  bit_reset_len s b : 0 <= b < bit_len s -> length (bit_reset s b) = length s;
  bit_test_set s b c : 0 <= b < bit_len s -> 0 <= c < bit_len s -> bit_test (bit_set s b) c = (b =? c) || bit_test s c;
  bit_test_reset s b c : 0 <= b < bit_len s -> 0 <= c < bit_len s -> bit_test (bit_reset s b) c = negb (b =? c) && bit_test s c;
  bit_test_extend s n c : 0 <= c < bit_len (s ++ replicate n 0) ->
    bit_test (s ++ replicate n 0) c = if c <? bit_len s then bit_test s c else false }.

Section dirty.
Context `{Build} `{BitSet}.

Definition dirty_new : list Z := [].

(** The loop of [drain_all] over the bits [b], ... *)
Fixpoint drain_loop (n : nat) (s : list Z) (b : Z) (pages : list (Z * Z)) : outcome (list (Z * Z)) :=
  match n with
  | O => Ret pages
  | S n =>
      let! pages :=
        if bit_test s b then
          if (0 <? b) && bit_test s (b - 1) then
            match last pages with
            | None => Panic
            | Some (p, k) => let! k := chk 64 (k + 1) in Ret (removelast pages ++ [(p, k)])
            end
          else Ret (pages ++ [(b, 1)])
        else Ret pages in
      drain_loop n s (b + 1) pages
  end.

Definition drain_all (s : list Z) : outcome (list (Z * Z) * list Z) :=
  let! pages := drain_loop (Z.to_nat (bit_len s)) s 0 [] in
  Ret (pages, replicate (length s) 0).

Definition is_dirty (s : list Z) (pn : Z) : bool := if pn <? bit_len s then bit_test s pn else false.

Fixpoint set_loop (n : nat) (s : list Z) (b : Z) : list Z :=
  match n with O => s | S n => set_loop n (bit_set s b) (b + 1) end.

Definition add_dirty (s : list Z) (pn num : Z) : outcome (list Z) :=
  let! e := chk 64 (pn + num) in
  let s := if bit_len s <? e then s ++ replicate (Z.to_nat ((e - bit_len s) / 8 + 1)) 0 else s in
  Ret (set_loop (Z.to_nat num) s pn).

Definition reset_dirty (s : list Z) (pn : Z) : list Z := if pn <? bit_len s then bit_reset s pn else s.

(** ** Adding *)
Lemma is_dirty_range s pn : is_dirty s pn = true -> pn < bit_len s.
Proof. unfold is_dirty. destruct (Z.ltb_spec pn (bit_len s)); [done|discriminate]. Qed.

Lemma is_dirty_test s pn : 0 <= pn < bit_len s -> is_dirty s pn = bit_test s pn.
Proof. intros Hp. unfold is_dirty. by rewrite (proj2 (Z.ltb_lt _ _)) by lia. Qed.

Lemma is_dirty_extend s n pn : 0 <= pn -> is_dirty (s ++ replicate n 0) pn = is_dirty s pn.
Proof.
  intros Hp. unfold is_dirty. destruct (Z.ltb_spec pn (bit_len (s ++ replicate n 0))) as [Hl|Hl].
  - by rewrite bit_test_extend by lia.
  - assert (bit_len s <= bit_len (s ++ replicate n 0)) by (unfold bit_len, zlen; rewrite length_app; lia).
    by rewrite (proj2 (Z.ltb_ge _ _)) by lia.
Qed.

Lemma set_loop_spec n s b : 0 <= b -> b + Z.of_nat n <= bit_len s ->
  length (set_loop n s b) = length s /\
  forall pn, 0 <= pn -> is_dirty (set_loop n s b) pn = (b <=? pn) && (pn <? b + Z.of_nat n) || is_dirty s pn.
Proof.
  revert s b. induction n as [|n IH]; intros s b Hb Hl; cbn [set_loop].
  - split; [done|]. intros pn Hp. destruct (Z.leb_spec b pn), (Z.ltb_spec pn (b + Z.of_nat 0)); lia || done.
  - assert (length (bit_set s b) = length s) as El by (apply bit_set_len; lia).
    assert (bit_len (bit_set s b) = bit_len s) as Eb by (unfold bit_len, zlen; by rewrite El).
    destruct (IH (bit_set s b) (b + 1)) as [Hlen Hd]; [lia..|]. rewrite Hlen. split; [done|]. intros pn Hp. rewrite Hd by done.
    replace (is_dirty (bit_set s b) pn) with ((b =? pn) || is_dirty s pn).
    2:{ unfold is_dirty. rewrite Eb. destruct (Z.ltb_spec pn (bit_len s)); [by rewrite bit_test_set by lia|].
        by rewrite orb_false_r, (proj2 (Z.eqb_neq _ _)) by lia. }
    rewrite orb_assoc. f_equal. apply eq_bool_prop_intro. rewrite orb_True, !andb_True, !Is_true_true, !Z.leb_le, !Z.ltb_lt, Z.eqb_eq. lia.
Qed.

Lemma add_dirty_ok s pn num : 0 <= pn -> 0 <= num -> pn + num < 2 ^ 64 ->
  exists s', add_dirty s pn num = Ret s' /\ forall q, 0 <= q -> is_dirty s' q = (pn <=? q) && (q <? pn + num) || is_dirty s q.
Proof.
  intros Hp Hn Ho. unfold add_dirty. rewrite chk_in by lia. cbn [obind]. eexists. split; [done|]. intros q Hq.
  set (s1 := if bit_len s <? pn + num then _ else _). assert (pn + num <= bit_len s1 /\ forall q, 0 <= q -> is_dirty s1 q = is_dirty s q) as [H1 H2].
  { subst s1. destruct (Z.ltb_spec (bit_len s) (pn + num)) as [Hlt|]; [|done]. split; [|intros; by apply is_dirty_extend].
    unfold bit_len, zlen in *. rewrite length_app, length_replicate.
    pose proof (Z.mul_succ_div_gt (pn + num - 8 * Z.of_nat (length s)) 8). pose proof (Z.div_pos (pn + num - 8 * Z.of_nat (length s)) 8). lia. }
  destruct (set_loop_spec (Z.to_nat num) s1 pn) as [_ Hd]; [lia..|]. rewrite Hd, H2 by done. by rewrite Z2Nat.id.
Qed.

(** ** Taking the runs out *)
Definition covered (pages : list (Z * Z)) (q : Z) : Prop := exists x, x ∈ pages /\ x.1 <= q < x.1 + x.2.
Definition apart (x y : Z * Z) : Prop := x.1 + x.2 < y.1.

Record runs_ok (s : list Z) (b : Z) (pages : list (Z * Z)) : Prop := mkRuns {
  ru_pos x : x ∈ pages -> 0 <= x.1 /\ 1 <= x.2;
  ru_apart : StronglySorted apart pages;
  ru_covered q : covered pages q <-> 0 <= q < b /\ is_dirty s q = true }.

Lemma covered_app l k q : covered (l ++ k) q <-> covered l q \/ covered k q.
Proof.
  unfold covered. split.
  - intros (x & [Hx|Hx]%elem_of_app & Hq); eauto.
  - intros [(x & Hx & Hq)|(x & Hx & Hq)]; exists x; (split; [apply elem_of_app; tauto|done]).
Qed.

Lemma covered_one p k q : covered [(p, k)] q <-> p <= q < p + k.
Proof.
  unfold covered. split; [|exists (p, k); split; [by left|done]]. intros (x & Hx & Hq). apply list_elem_of_singleton in Hx as ->. done.
Qed.

Lemma StronglySorted_snoc {A} (R : A -> A -> Prop) l x : StronglySorted R l -> (forall y, y ∈ l -> R y x) -> StronglySorted R (l ++ [x]).
Proof.
  induction 1 as [|y l Hl IH Hy]; intros Hx; cbn; [repeat constructor|]. constructor.
  - apply IH. intros z Hz. apply Hx. by right.
  - apply Forall_app. split; [done|]. constructor; [|done]. apply Hx. left.
Qed.

Lemma StronglySorted_init {A} (R : A -> A -> Prop) l x : StronglySorted R (l ++ [x]) -> StronglySorted R l /\ forall y, y ∈ l -> R y x.
Proof.
  induction l as [|z l IH]; cbn; intros Hs.
  - split; [constructor|]. intros y Hy. inversion Hy.
  - apply StronglySorted_inv in Hs as [Hs Hz]. apply Forall_app in Hz as [Hz Hx]. destruct (IH Hs) as [Hl Hr].
    split; [by constructor|]. intros y [->|Hy]%elem_of_cons; [by inversion Hx|by apply Hr].
Qed.

(** The run that ends at [b] is the last one. *)
Lemma last_run s b pages : runs_ok s b pages -> 0 <= b - 1 -> is_dirty s (b - 1) = true ->
  exists front p k, pages = front ++ [(p, k)] /\ p + k = b.
Proof.
  intros [Hp Ha Hc] Hb Hd. destruct (proj2 (Hc (b - 1))) as (x & Hx & Hq); [split; [lia|done]|].
  destruct pages as [|[p k] front _] using rev_ind; [inversion Hx|]. exists front, p, k. split; [done|].
  assert (forall q, p <= q < p + k -> q < b) as Hlt.
  { intros q Hin. apply (Hc q). apply covered_app. right. by apply covered_one. }
  destruct (Hp (p, k)) as [_ Hk]; [apply elem_of_app; right; by left|]. cbn in Hk.
  pose proof (Hlt (p + k - 1)). apply StronglySorted_init in Ha as [_ Ha].
  apply elem_of_app in Hx as [Hx|Hx%list_elem_of_singleton]; [|subst x; cbn in Hq; lia].
  specialize (Ha x Hx). unfold apart in Ha. cbn in Ha. specialize (Hlt p). lia.
Qed.

Lemma runs_extend s b front p k : runs_ok s b (front ++ [(p, k)]) -> p + k = b -> is_dirty s b = true -> 0 <= b ->
  runs_ok s (b + 1) (front ++ [(p, k + 1)]).
Proof.
  intros [Hp Ha Hc] Hk Hd Hb. split.
  - intros x [Hx|Hx%list_elem_of_singleton]%elem_of_app; [apply Hp, elem_of_app; by left|]. subst x. cbn.
    destruct (Hp (p, k)) as [H1 H2]; [apply elem_of_app; right; by left|]. cbn in *. lia.
  - apply StronglySorted_init in Ha as [Hs Hr]. apply StronglySorted_snoc; [done|]. intros y Hy. apply (Hr y Hy).
  - intros q. specialize (Hc q). rewrite covered_app, covered_one in *. destruct (Hp (p, k)) as [H1 H2]; [apply elem_of_app; right; by left|]. cbn in *.
    destruct (decide (q = b)) as [->|Hne].
    + split; [intros _; split; [lia|done]|intros _; right; lia].
    + assert (p <= q < p + (k + 1) <-> p <= q < p + k) as -> by lia. rewrite Hc. split; intros [? ?]; (split; [lia|done]).
Qed.

Lemma runs_push s b pages : runs_ok s b pages -> is_dirty s b = true -> 0 <= b -> (0 < b -> is_dirty s (b - 1) = false) ->
  runs_ok s (b + 1) (pages ++ [(b, 1)]).
Proof.
  intros [Hp Ha Hc] Hd Hb Hprev. split.
  - intros x [Hx|Hx%list_elem_of_singleton]%elem_of_app; [by apply Hp|]. subst x. cbn. lia.
  - apply StronglySorted_snoc; [done|]. intros y Hy. unfold apart. cbn. destruct (Hp y Hy) as [H1 H2].
    destruct (proj1 (Hc (y.1 + y.2 - 1))) as [Hl Hq]; [exists y; split; [done|lia]|].
    destruct (decide (y.1 + y.2 = b)) as [E|]; [|lia]. rewrite E in Hq. rewrite Hprev in Hq; [done|lia].
  - intros q. specialize (Hc q). rewrite covered_app, covered_one, Hc. destruct (decide (q = b)) as [->|Hne].
    + split; [intros _; split; [lia|done]|intros _; right; lia].
    + split; [intros [[? ?]|?]; (split; [lia|done]) || lia|intros [? ?]; left; split; [lia|done]].
Qed.

Lemma runs_pass s b pages : runs_ok s b pages -> is_dirty s b = false -> runs_ok s (b + 1) pages.
Proof.
  intros [Hp Ha Hc] Hd. split; [done..|]. intros q. rewrite Hc. split; intros [Hl Hq]; (split; [|done]); [lia|].
  destruct (decide (q = b)) as [->|]; [by rewrite Hd in Hq|lia].
Qed.

Lemma drain_loop_ok n s b pages : bit_len s < 2 ^ 64 -> 0 <= b -> b + Z.of_nat n = bit_len s -> runs_ok s b pages ->
  exists pages', drain_loop n s b pages = Ret pages' /\ runs_ok s (bit_len s) pages'.
Proof.
  intros Hlim. revert b pages. induction n as [|n IH]; intros b pages Hb Hn Hr; cbn [drain_loop].
  { exists pages. replace (bit_len s) with b by lia. done. }
  rewrite <- (is_dirty_test s b) by lia. destruct (is_dirty s b) eqn:Hd; cbn [obind]; [|apply IH; [lia..|by apply runs_pass]].
  destruct (Z.ltb_spec 0 b) as [Hpos|Hz]; cbn [andb].
  - rewrite <- (is_dirty_test s (b - 1)) by lia. destruct (is_dirty s (b - 1)) eqn:Hp; cbn [obind].
    + destruct (last_run s b pages Hr) as (front & p & k & -> & Hk); [lia|done|]. rewrite last_snoc.
      destruct (ru_pos _ _ _ Hr (p, k)) as [Hp0 Hk1]; [apply elem_of_app; right; by left|]. cbn in Hp0, Hk1.
      rewrite chk_in by lia. cbn [obind]. rewrite removelast_last. apply IH; [lia..|]. by apply runs_extend.
    + apply IH; [lia..|]. by apply runs_push.
  - cbn [obind]. apply IH; [lia..|]. apply runs_push; [done..|lia].
Qed.

Lemma is_dirty_zeros n pn : is_dirty (replicate n 0) pn = true -> pn < 0.
Proof.
  intros Hd. destruct (Z.ltb_spec pn 0); [done|]. rewrite <- (app_nil_l (replicate n 0)) in Hd. rewrite is_dirty_extend in Hd by done.
  apply is_dirty_range in Hd. unfold bit_len, zlen in Hd. cbn in Hd. lia.
Qed.

Lemma drain_all_ok s : bit_len s < 2 ^ 64 -> exists pages, drain_all s = Ret (pages, replicate (length s) 0) /\ runs_ok s (bit_len s) pages.
Proof.
  intros Hl. destruct (drain_loop_ok (Z.to_nat (bit_len s)) s 0 []) as (pages & E & Hr).
  - done.
  - done.
  - unfold bit_len, zlen. lia.
  - split; [intros x Hx; inversion Hx|constructor|]. intros q. split; [intros (x & Hx & _); inversion Hx|intros [? _]; lia].
  - unfold drain_all. rewrite E. by exists pages.
Qed.

Definition add_all (s : list Z) (adds : list (Z * Z)) : outcome (list Z) :=
  foldl (fun o '(pn, num) => let! s := o in add_dirty s pn num) (Ret s) adds.

Lemma add_all_ok adds s : Forall (fun '(pn, num) => 0 <= pn /\ 0 <= num /\ pn + num < 2 ^ 64) adds ->
  exists s', add_all s adds = Ret s' /\ forall q, 0 <= q -> is_dirty s' q = true <-> covered adds q \/ is_dirty s q = true.
Proof.
  revert s. induction adds as [|[pn num] adds IH]; intros s Ha; unfold add_all in *; cbn [foldl].
  - exists s. split; [done|]. intros q _. split; [by right|]. intros [(x & Hx & _)|?]; [inversion Hx|done].
  - apply Forall_cons in Ha as [Hx Ha']. cbn in Hx. destruct Hx as (H1 & H2 & H3). cbn [obind]. destruct (add_dirty_ok s pn num) as (s1 & -> & Hs1); [done..|].
    destruct (IH s1 Ha') as (s' & E & Hs'). exists s'. split; [done|]. intros q Hq. rewrite Hs', Hs1 by done.
    change ((pn, num) :: adds) with ([(pn, num)] ++ adds). rewrite covered_app, covered_one, orb_true_iff, andb_true_iff, Z.leb_le, Z.ltb_lt. tauto.
Qed.

(** C40: Dirty pages.  Whatever pages have been added to a dirty set, [drain_all] returns exactly those pages, as
    runs in increasing order with a gap between any two; afterwards the set is empty, and
    draining it again gives nothing.  (The vector fits the address space.) *)
Theorem drain_exact adds s : Forall (fun '(pn, num) => 0 <= pn /\ 0 <= num /\ pn + num < 2 ^ 64) adds ->
  add_all dirty_new adds = Ret s -> bit_len s < 2 ^ 64 ->
  exists runs s', drain_all s = Ret (runs, s') /\ StronglySorted apart runs /\ (forall x, x ∈ runs -> 0 <= x.1 /\ 1 <= x.2) /\
    (forall q, 0 <= q -> covered runs q <-> covered adds q) /\
    (forall q, 0 <= q -> is_dirty s' q = false) /\ drain_all s' = Ret ([], s').
Proof.
  intros Ha Es Hl. destruct (add_all_ok adds dirty_new Ha) as (s1 & E & Hs). rewrite Es in E. injection E as <-.
  destruct (drain_all_ok s Hl) as (runs & E & [Hp Hap Hc]). exists runs, (replicate (length s) 0). split_and!; [done..| | |].
  - intros q Hq. rewrite Hc, Hs by done. split; [intros [_ [?|Hd]]; [done|]|].
    + apply is_dirty_range in Hd. unfold bit_len, zlen in Hd. cbn in Hd. lia.
    + intros Hcov. split; [|by left]. split; [done|]. apply is_dirty_range, Hs; [done|by left].
  - intros q Hq. destruct (is_dirty (replicate _ _) q) eqn:Hd; [|done]. apply is_dirty_zeros in Hd. lia.
  - assert (bit_len (replicate (length s) 0) = bit_len s) as Eb by (unfold bit_len, zlen; by rewrite length_replicate).
    destruct (drain_all_ok (replicate (length s) 0)) as (runs' & E' & [Hp' _ Hc']); [by rewrite Eb|]. rewrite length_replicate in E'.
    destruct runs' as [|x runs']; [done|]. destruct (Hp' x) as [H1 H2]; [left|]. destruct (proj1 (Hc' x.1)) as [_ Hd].
    + exists x. split; [left|lia].
    + apply is_dirty_zeros in Hd. lia.
Qed.
End dirty.

(** The bits of a byte, from the least significant on. *)
Definition byte_at (s : list Z) (b : Z) : Z := nth (Z.to_nat (b / 8)) s 0.

Lemma byte_in s b : 0 <= b < bit_len s -> (Z.to_nat (b / 8) < length s)%nat /\ 0 <= b mod 8.
Proof. unfold bit_len, zlen. intros Hb. pose proof (Z.mod_pos_bound b 8). split; [|lia]. apply Nat2Z.inj_lt. rewrite Z2Nat.id by (apply Z.div_pos; lia). apply Z.div_lt_upper_bound; lia. Qed.

Lemma byte_insert s b v c : 0 <= b < bit_len s -> 0 <= c ->
  byte_at (<[Z.to_nat (b / 8) := v]> s) c = if b / 8 =? c / 8 then v else byte_at s c.
Proof.
  intros Hb Hc. destruct (byte_in s b Hb) as [Hl _]. unfold byte_at. rewrite !nth_lookup. destruct (Z.eqb_spec (b / 8) (c / 8)) as [E|Hne].
  - rewrite E in *. by rewrite list_lookup_insert_eq.
  - rewrite list_lookup_insert_ne; [done|]. intros E. apply Hne. apply (f_equal Z.of_nat) in E. rewrite !Z2Nat.id in E by (apply Z.div_pos; lia). done.
Qed.

#[refine, global] Instance byte_bits : BitSet := {
  bit_test s b := Z.testbit (byte_at s b) (b mod 8);
  bit_set s b := <[Z.to_nat (b / 8) := Z.setbit (byte_at s b) (b mod 8)]> s;
  bit_reset s b := <[Z.to_nat (b / 8) := Z.clearbit (byte_at s b) (b mod 8)]> s }.
Proof.
  1-2: intros; apply length_insert.
  - intros s b c Hb Hc. rewrite byte_insert by lia. destruct (byte_in s b Hb) as [_ Hm]. pose proof (Z.div_mod b 8). pose proof (Z.div_mod c 8).
    pose proof (Z.mod_pos_bound c 8). destruct (Z.eqb_spec (b / 8) (c / 8)) as [E|Hne].
    + rewrite Z.setbit_eqb by lia. unfold byte_at. rewrite E. f_equal. apply eq_true_iff_eq. rewrite !Z.eqb_eq. lia.
    + by rewrite (proj2 (Z.eqb_neq b c)) by (intros ->; done).
  - intros s b c Hb Hc. rewrite byte_insert by lia. destruct (byte_in s b Hb) as [_ Hm]. pose proof (Z.div_mod b 8). pose proof (Z.div_mod c 8).
    pose proof (Z.mod_pos_bound c 8). destruct (Z.eqb_spec (b / 8) (c / 8)) as [E|Hne].
    + rewrite Z.clearbit_eqb, andb_comm. unfold byte_at. rewrite E. f_equal. f_equal. apply eq_true_iff_eq. rewrite !Z.eqb_eq. lia.
    + by rewrite (proj2 (Z.eqb_neq b c)) by (intros ->; done).
  - intros s n c Hc. unfold byte_at. pose proof (Z.div_pos c 8). destruct (Z.ltb_spec c (bit_len s)) as [Hl|Hl]; unfold bit_len, zlen in *.
    + rewrite app_nth1; [done|]. apply byte_in. unfold bit_len, zlen. lia.
    + rewrite app_nth2; [rewrite nth_lookup; destruct (replicate n 0 !! _) as [z|] eqn:E; [apply lookup_replicate_1 in E as [-> _]|]; apply Z.bits_0|]. apply Nat2Z.inj_ge. rewrite Z2Nat.id by lia. apply Z.le_ge, Z.div_le_lower_bound; lia.
Defined.

Lemma drain_exact_witness : exists s, add_all (H := true) dirty_new [(9, 2); (3, 1); (11, 4); (2, 1)] = Ret s /\
  exists runs s', drain_all (H := true) s = Ret (runs, s') /\ covered runs 14.
Proof.
  eexists. split; [vm_compute; reflexivity|].
  destruct (drain_exact (H := true) [(9, 2); (3, 1); (11, 4); (2, 1)] [12; 126]) as (runs & s' & E & _ & _ & Hc & _).
  - repeat constructor; lia.
  - vm_compute. reflexivity.
  - vm_compute. reflexivity.
  - exists runs, s'. split; [exact E|]. apply Hc; [lia|]. exists (11, 4). split; [set_solver|cbn; lia].
Defined.
End DirtySet.
