(* ===== verification/Region.v ===== *)
(** * The regions of an address space

    [src/kernel/src/memory/context/virtmem.rs] ([Slot]), [virtmem/region.rs]
    ([MapRegion], [RegionManager]) and [src/kernel/src/obj/mod.rs] ([PageNumber],
    [ContextInfo]).  An address space is cut into slots of [MAX_SIZE] bytes, the size of
    an object, which comes from the runtime's interface.  [RegionManager] holds the
    regions of a context in an interval tree and, for every object, the ranges it is
    mapped at; [rm_ok] is that the two agree. *)
From S2P Require Import Prelude Address IntervalTree PageTable.
Import Address.

#[local] Open Scope Z_scope.

Module Region.

Definition PAGE_SIZE : Z := 4096.

(** [MapFlags] and [Protections], as bits *)
Definition STABLE : Z := 1.
Definition NO_NULLPAGE : Z := 2.
Definition READ : Z := 1.
Definition WRITE : Z := 2.
Definition EXEC : Z := 4.
Definition has (x f : Z) : bool := Z.land x f =? f.

Section slots.
Context `{Build} (MAX_SIZE : Z).

(** ** Slots and page numbers *)

(** [Slot::start_vaddr] *)
Definition start_vaddr (slot : Z) : outcome Z :=
  let! a := chk 64 (slot * MAX_SIZE) in
  match VirtAddr_new a with Ok v => Ret (vraw v) | Err _ => Panic end.

(** [Slot::range] *)
Definition slot_range (slot : Z) : outcome (Z * Z) :=
  let! lo := start_vaddr slot in
  let! r := VirtAddr_offset (mkVirt lo) (Usize MAX_SIZE) in
  match r with Ok v => Ret (lo, vraw v) | Err _ => Panic end.

(** [TryFrom<VirtAddr> for Slot] *)
Definition slot_of_addr (v : VirtAddr) : option Z :=
  if is_kernel v && negb (is_kernel_object_memory v) then None else Some (vraw v / MAX_SIZE).

(** [TryFrom<usize> for Slot] *)
Definition slot_of_usize (value : Z) : outcome (option Z) :=
  let! a := chk 64 (value * MAX_SIZE) in
  match VirtAddr_new a with Ok v => Ret (slot_of_addr v) | Err _ => Ret None end.

(** [PageNumber::from_address], [as_byte_offset] and [is_meta] *)
Definition from_address (a : Z) : Z := a mod MAX_SIZE / PAGE_SIZE.
Definition as_byte_offset (pn : Z) : Z := pn * PAGE_SIZE.
Definition is_meta (pn : Z) : bool := as_byte_offset pn =? MAX_SIZE - PAGE_SIZE.
End slots.

(** ** Regions *)

(** The shadow and the shared page table of a region are known by the numbers they have
    in the state of the memory system. *)
Record MapRegion := mkRegion {
  r_obj : Z; r_shadow : option nat; r_cache : PageTable.CacheType; r_prot : Z; r_flags : Z;
  r_range : Z * Z; r_shared : option nat }.

(** [MapRegion::mapping_cursor] *)
Definition mapping_cursor `{Build} (r : MapRegion) (start len : Z) : outcome PageTable.MappingCursor :=
  let! v := VirtAddr_offset (mkVirt (r_range r).1) (Usize start) in
  match v with Ok v => Ret (PageTable.mkCursor (vraw v) len) | Err _ => Panic end.

(** [Protections], from its bits *)
Definition prot_of (x : Z) : PageTable.Protections := PageTable.mkProt (has x READ) (has x WRITE) (has x EXEC).

(** [MapRegion::mapping_settings], its protections as bits *)
Definition mapping_perms (r : MapRegion) (wp : bool) : Z :=
  let prot := Z.lor (r_prot r) READ in if wp then Z.ldiff prot WRITE else prot.

Definition mapping_settings (r : MapRegion) (wp is_kern_obj : bool) : PageTable.MappingSettings :=
  PageTable.mkSettings (prot_of (mapping_perms r wp)) (r_cache r)
    (if is_kern_obj then PageTable.mkMF true false else PageTable.mkMF false true).

(** ** The contexts an object is mapped in ([ContextInfo]) *)
Section contexts.
Context `{Build}.
Implicit Types m : gmap Z Z.

Definition contexts_insert m (ctx : Z) : outcome (gmap Z Z) :=
  let! n := chk 64 (default 0 (m !! ctx) + 1) in Ret (<[ctx := n]> m).

Definition contexts_remove m (ctx : Z) : outcome (gmap Z Z) :=
  match m !! ctx with
  | Some n => let! n := chk 64 (n - 1) in Ret (if n =? 0 then delete ctx m else <[ctx := n]> m)
  | None => Ret m
  end.
End contexts.

(** ** [RegionManager] *)
Section manager.
Context `{IntervalTree T}.

Record RegionManager := mkRM { tree : T MapRegion; objects : gmap Z (list (Z * Z)) }.

Definition rm_new : RegionManager := mkRM it_new ∅.

(** The ranges of an object; [entry(id).or_default()]. *)
Definition object_entry (m : RegionManager) (id : Z) : list (Z * Z) := default [] (objects m !! id).

Definition is_range (x y : Z * Z) : bool := bool_decide (x = y).

(** [position(..).expect(..)] and [swap_remove] *)
Definition drop_range (entry : list (Z * Z)) (x : Z * Z) : outcome (list (Z * Z)) :=
  let! pos := unwrap (position (is_range x) entry) in
  let! (_, entry) := swap_remove entry pos in
  Ret entry.

Fixpoint drop_old (entry : list (Z * Z)) (old : list (ival MapRegion)) : outcome (list (Z * Z)) :=
  match old with
  | [] => Ret entry
  | e :: old => let! entry := drop_range entry (i_lo e, i_hi e) in drop_old entry old
  end.

Definition insert_region (m : RegionManager) (region : MapRegion) : outcome RegionManager :=
  let entry := object_entry m (r_obj region) in
  let '(lo, hi) := r_range region in
  let '(old, t) := it_insert_replace (tree m) lo hi region in
  let! entry := drop_old entry old in
  Ret (mkRM t (<[r_obj region := entry ++ [(lo, hi)]]> (objects m))).

Definition remove_region (m : RegionManager) (addr : Z) : outcome (option MapRegion * RegionManager) :=
  match it_remove (tree m) addr with
  | (Some region, t) =>
      let! entry := drop_range (object_entry m (r_obj region)) (r_range region) in
      Ret (Some region, mkRM t (<[r_obj region := entry]> (objects m)))
  | (None, t) => Ret (None, mkRM t (objects m))
  end.

Definition lookup_region (m : RegionManager) (addr : Z) : option MapRegion := it_get (tree m) addr.

(** The regions at some ranges; [expect("failed to lookup mapping")]. *)
Fixpoint regions_at (t : T MapRegion) (ranges : list (Z * Z)) : outcome (list MapRegion) :=
  match ranges with
  | [] => Ret []
  | x :: ranges =>
      let! r := unwrap (it_get t x.1) in
      let! rs := regions_at t ranges in
      Ret (r :: rs)
  end.

Definition object_mappings (m : RegionManager) (id : Z) : outcome (list MapRegion * RegionManager) :=
  let entry := object_entry m id in
  let! rs := regions_at (tree m) entry in
  Ret (rs, mkRM (tree m) (<[id := entry]> (objects m))).

Definition mappings (m : RegionManager) : list MapRegion := i_val <$> it_list (tree m).
End manager.
#[global] Arguments RegionManager T : clear implicits.

(** ** The index of objects agrees with the tree *)
Section manager_ok.
Context `{IntervalTree T}.
Implicit Types m : RegionManager T.

Definition range_of (e : ival MapRegion) : Z * Z := (i_lo e, i_hi e).
Definition of_object (id : Z) (e : ival MapRegion) : bool := r_obj (i_val e) =? id.

Record rm_ok m : Prop := mkRmOk {
  ro_tree : it_ok (tree m);
  ro_range e : e ∈ it_list (tree m) -> r_range (i_val e) = range_of e;
  ro_index id : object_entry m id ≡ₚ range_of <$> ikeep (of_object id) (it_list (tree m)) }.

Lemma rm_new_ok : rm_ok rm_new.
Proof.
  split; unfold rm_new; cbn [tree]; [apply it_new_ok|..]; rewrite it_new_spec; [intros e He; inversion He|done].
Qed.

Lemma drop_range_ok entry x rest : entry ≡ₚ x :: rest -> exists e', drop_range entry x = Ret e' /\ e' ≡ₚ rest.
Proof.
  intros Hp. unfold drop_range. destruct (position (is_range x) entry) as [i|] eqn:Ep.
  - apply position_Some in Ep as (y & Hy & E). apply bool_decide_eq_true in E as <-. destruct (swap_remove_ok _ _ _ Hy) as (l & E & Hl).
    cbn [unwrap obind]. rewrite E. cbn [obind]. exists l. split; [done|]. rewrite Hp in Hl. symmetry. by eapply Permutation_cons_inv.
  - apply position_None in Ep. rewrite Forall_forall in Ep. specialize (Ep x). unfold is_range in Ep. rewrite bool_decide_true in Ep by done.
    discriminate Ep. rewrite Hp. by left.
Qed.

Lemma drop_range_sub entry x : (exists e', drop_range entry x = Ret e' /\ forall y, y ∈ e' -> y ∈ entry) \/ drop_range entry x = Panic.
Proof.
  unfold drop_range. destruct (position (is_range x) entry) as [i|] eqn:Ep; [|by right]. left.
  apply position_Some in Ep as (y & Hy & _). destruct (swap_remove_ok _ _ _ Hy) as (l & E & Hl).
  cbn [unwrap obind]. rewrite E. cbn [obind]. exists l. split; [done|]. intros z Hz. rewrite Hl. by right.
Qed.

Lemma drop_range_panic entry x : (x ∉ entry) -> drop_range entry x = Panic.
Proof.
  intros Hx. unfold drop_range. destruct (position (is_range x) entry) as [i|] eqn:Ep; [|done].
  apply position_Some in Ep as (y & Hy & E). apply bool_decide_eq_true in E as <-. destruct Hx. by eapply list_elem_of_lookup_2.
Qed.

Lemma drop_old_ok old entry rest : entry ≡ₚ (range_of <$> old) ++ rest -> exists e', drop_old entry old = Ret e' /\ e' ≡ₚ rest.
Proof.
  revert entry. induction old as [|e old IH]; intros entry Hp; cbn in *; [by exists entry|].
  destruct (drop_range_ok entry (i_lo e, i_hi e) _ Hp) as (e1 & -> & H1). cbn [obind]. by apply IH.
Qed.

Lemma drop_old_panic old entry e : e ∈ old -> (range_of e ∉ entry) -> drop_old entry old = Panic.
Proof.
  revert entry. induction old as [|f old IH]; intros entry He Hn; [inversion He|]. cbn [drop_old].
  destruct (drop_range_sub entry (i_lo f, i_hi f)) as [(e1 & E & Hs)| ->]; [|done]. rewrite E. cbn [obind].
  apply elem_of_cons in He as [->|He]; [by rewrite drop_range_panic in E|]. apply IH; [done|]. intros Hi. by apply Hn, Hs.
Qed.

Lemma ikeep_split {V} (p : ival V -> bool) l : l ≡ₚ ikeep p l ++ ikeep (fun e => negb (p e)) l.
Proof.
  induction l as [|e l IH]; cbn; [done|]. destruct (p e); cbn; [by rewrite <- IH|]. by rewrite <- Permutation_middle, <- IH.
Qed.

Lemma ikeep_Permutation {V} (p : ival V -> bool) l l' : l ≡ₚ l' -> ikeep p l ≡ₚ ikeep p l'.
Proof.
  induction 1 as [|x l l' Hp IH|x y l|l l' l'' H1 IH1 H2 IH2]; cbn.
  - done.
  - destruct (p x); by rewrite IH.
  - destruct (p x), (p y); done || apply perm_swap.
  - by rewrite IH1.
Qed.

Lemma ikeep_app {V} (p : ival V -> bool) l k : ikeep p (l ++ k) = ikeep p l ++ ikeep p k.
Proof. induction l as [|e l IH]; cbn; [done|]. rewrite IH. by destruct (p e). Qed.

Lemma ikeep_all {V} (p : ival V -> bool) l : (forall e, e ∈ l -> p e = true) -> ikeep p l = l.
Proof.
  induction l as [|e l IH]; intros Hl; cbn; [done|]. rewrite (Hl e) by left. f_equal. apply IH. intros x Hx. apply Hl. by right.
Qed.

Lemma ikeep_none {V} (p : ival V -> bool) l : (forall e, e ∈ l -> p e = false) -> ikeep p l = [].
Proof. intros Hl. apply ikeep_nil, Forall_forall, Hl. Qed.

Lemma insert_region_ok m r lo hi : rm_ok m -> r_range r = (lo, hi) -> lo < hi ->
  (forall e, e ∈ it_list (tree m) -> overlaps lo hi e = true -> r_obj (i_val e) = r_obj r) ->
  exists m', insert_region m r = Ret m' /\ rm_ok m' /\
    it_list (tree m') = iinsert (Ival lo hi r) (ikeep (fun e => negb (overlaps lo hi e)) (it_list (tree m))).
Proof.
  intros [Ht Hr Hi] Er Hlt Ho. unfold insert_region. rewrite Er.
  destruct (it_insert_replace_spec (tree m) lo hi r) as [E1 E2]. destruct (it_insert_replace (tree m) lo hi r) as [old t] eqn:Et.
  cbn [fst snd] in E1, E2. subst old. set (l := it_list (tree m)) in *.
  assert (forall p, ikeep p l ≡ₚ ikeep p (ikeep (overlaps lo hi) l) ++ ikeep p (ikeep (fun e => negb (overlaps lo hi e)) l)) as Hsp.
  { intros p. rewrite <- ikeep_app. apply ikeep_Permutation, ikeep_split. }
  destruct (drop_old_ok (ikeep (overlaps lo hi) l) (object_entry m (r_obj r))
    (range_of <$> ikeep (of_object (r_obj r)) (ikeep (fun e => negb (overlaps lo hi e)) l))) as (e' & -> & He').
  { rewrite Hi, (Hsp (of_object (r_obj r))), fmap_app, (ikeep_all (of_object (r_obj r)) (ikeep (overlaps lo hi) l)); [done|].
    intros e [He Hov]%elem_ikeep. by apply Z.eqb_eq, Ho. }
  cbn [obind]. eexists. split; [done|]. split; [|done]. split; cbn [tree].
  - replace t with (it_insert_replace (tree m) lo hi r).2 by (by rewrite Et). by apply it_insert_replace_ok.
  - intros e. rewrite E2, elem_iinsert. intros [->|[He _]%elem_ikeep]; [done|by apply Hr].
  - intros id. unfold object_entry. cbn [objects]. rewrite E2, (ikeep_Permutation _ _ _ (iinsert_perm _ _)). cbn [ikeep].
    destruct (decide (r_obj r = id)) as [<-|Hne].
    + rewrite lookup_insert_eq. cbn [default]. unfold of_object at 1. cbn [i_val]. rewrite Z.eqb_refl. cbn.
      by rewrite He', Permutation_app_comm.
    + rewrite lookup_insert_ne by done. unfold of_object at 1. cbn [i_val]. rewrite (proj2 (Z.eqb_neq _ _) Hne).
      change (default [] (objects m !! id)) with (object_entry m id). rewrite Hi, (Hsp (of_object id)), fmap_app.
      rewrite (ikeep_none (of_object id) (ikeep (overlaps lo hi) l)); [done|]. intros e [He Hov]%elem_ikeep.
      apply Z.eqb_neq. by rewrite (Ho e He Hov).
Qed.

Lemma insert_region_panic m r lo hi e : rm_ok m -> r_range r = (lo, hi) -> e ∈ it_list (tree m) -> overlaps lo hi e = true ->
  r_obj (i_val e) <> r_obj r -> insert_region m r = Panic.
Proof.
  intros [Ht Hr Hi] Er He Hov Hne. unfold insert_region. rewrite Er.
  destruct (it_insert_replace_spec (tree m) lo hi r) as [E1 _]. destruct (it_insert_replace (tree m) lo hi r) as [old t].
  cbn [fst] in E1. subst old. rewrite (drop_old_panic _ _ e); [done|by apply elem_ikeep|]. rewrite Hi.
  intros (f & Ef & [Hf Hid]%elem_ikeep)%list_elem_of_fmap. apply Z.eqb_eq in Hid. apply Hne. rewrite <- Hid. f_equal. f_equal.
  apply overlaps_spec in Hov. injection Ef as El Eh. pose proof (it_ok_lt _ _ Ht He).
  assert (ifind (i_lo e) (it_list (tree m)) = Some e) as F1 by (apply iok_ifind; [done..|apply contains_iff; lia]).
  assert (ifind (i_lo e) (it_list (tree m)) = Some f) as F2 by (apply iok_ifind; [done..|apply contains_iff; lia]).
  congruence.
Qed.

Lemma remove_region_ok m a : rm_ok m -> exists m', remove_region m a = Ret (lookup_region m a, m') /\ rm_ok m' /\
  it_list (tree m') = ikeep (fun e => negb (contains a e)) (it_list (tree m)).
Proof.
  intros [Ht Hr Hi]. unfold remove_region, lookup_region. rewrite it_get_spec.
  destruct (it_remove_spec (tree m) a) as [E1 E2]. pose proof (it_remove_ok (tree m) a Ht) as Ht'.
  destruct (it_remove (tree m) a) as [o t]. cbn [fst snd] in *. subst o.
  destruct (ifind a (it_list (tree m))) as [e|] eqn:Ef; cbn [fmap option_fmap option_map].
  - pose proof (ikeep_perm _ _ _ Ht Ef) as Hp. apply ifind_elem in Ef as [He Hc].
    destruct (drop_range_ok (object_entry m (r_obj (i_val e))) (r_range (i_val e))
      (range_of <$> ikeep (of_object (r_obj (i_val e))) (ikeep (fun e => negb (contains a e)) (it_list (tree m))))) as (k & -> & Hk).
    { rewrite Hi, (ikeep_Permutation _ _ _ Hp), Hr by done. cbn [ikeep]. unfold of_object at 1. by rewrite Z.eqb_refl. }
    cbn [obind]. eexists. split; [done|]. split; [|done]. split; cbn [tree]; [done| |].
    + intros f. rewrite E2. intros [Hf _]%elem_ikeep. by apply Hr.
    + intros id. unfold object_entry. cbn [objects]. rewrite E2. destruct (decide (r_obj (i_val e) = id)) as [<-|Hne].
      * rewrite lookup_insert_eq. done.
      * rewrite lookup_insert_ne by done. change (default [] (objects m !! id)) with (object_entry m id).
        rewrite Hi, (ikeep_Permutation _ _ _ Hp). cbn [ikeep]. unfold of_object at 1. by rewrite (proj2 (Z.eqb_neq _ _) Hne).
  - assert (ikeep (fun e => negb (contains a e)) (it_list (tree m)) = it_list (tree m)) as E.
    { apply ikeep_all. intros e He. apply ifind_None in Ef. rewrite Forall_forall in Ef. by rewrite Ef. }
    eexists. split; [done|]. split; [|done]. rewrite E in E2. split; cbn [tree]; [done|rewrite E2; done|]. intros id. rewrite E2. apply Hi.
Qed.

Lemma regions_at_ok (t : T MapRegion) es : it_ok t -> (forall e, e ∈ es -> e ∈ it_list t) -> regions_at t (range_of <$> es) = Ret (i_val <$> es).
Proof.
  intros Ht. induction es as [|e es IH]; intros Hes; cbn [fmap list_fmap regions_at]; [done|].
  assert (e ∈ it_list t) as He by (apply Hes; left). rewrite it_get_spec. cbn [range_of fst].
  rewrite (iok_ifind _ e) by (done || apply contains_iff; pose proof (it_ok_lt _ _ Ht He); lia). cbn [fmap option_fmap option_map unwrap obind].
  rewrite IH; [done|]. intros f Hf. apply Hes. by right.
Qed.

Lemma object_mappings_ok m id : rm_ok m -> exists rs m', object_mappings m id = Ret (rs, m') /\ rm_ok m' /\ tree m' = tree m /\
  rs ≡ₚ i_val <$> ikeep (of_object id) (it_list (tree m)).
Proof.
  intros [Ht Hr Hi]. unfold object_mappings. destruct (Permutation_map_inv _ _ (Hi id)) as (es & Ees & Hes).
  change (map range_of es) with (range_of <$> es) in Ees. rewrite Ees, regions_at_ok.
  2:{ done. } 2:{ intros e He. rewrite <- Hes in He. by apply elem_ikeep in He as [? _]. }
  cbn [obind]. eexists _, _. split; [done|]. split; [|split; [done|by rewrite Hes]]. split; cbn [tree]; [done..|].
  intros id'. unfold object_entry. cbn [objects]. destruct (decide (id = id')) as [<-|Hne].
  - rewrite lookup_insert_eq. cbn [default]. by rewrite Hes.
  - rewrite lookup_insert_ne by done. apply Hi.
Qed.

Lemma lookup_list m a : lookup_region m a = i_val <$> ifind a (it_list (tree m)).
Proof. apply it_get_spec. Qed.

Lemma lookup_elem m a r : rm_ok m -> lookup_region m a = Some r <-> r ∈ mappings m /\ (r_range r).1 <= a < (r_range r).2.
Proof.
  intros [Ht Hr Hi]. rewrite lookup_list. unfold mappings. rewrite list_elem_of_fmap. split.
  - intros (e & Ef & ->)%fmap_Some. apply ifind_elem in Ef as [He Hc]. rewrite Hr by done. apply contains_iff in Hc. split; [by exists e|done].
  - intros ((e & -> & He) & Ha). rewrite Hr in Ha by done. by rewrite (iok_ifind _ e) by (done || by apply contains_iff).
Qed.

(** C32: the regions of a context.  On a consistent manager of regions: inserting a region that meets only regions of the same object
    succeeds, and the addresses of the region then find it, those of the regions it met
    find nothing, all others what they did before; inserting over a region of another
    object panics; removal gives back the region at an address and forgets exactly it;
    and the mappings of an object are the regions of the tree with that object, each once.
    Every operation leaves the manager consistent. *)
Theorem regions_refine m : rm_ok m ->
  (forall r lo hi, r_range r = (lo, hi) -> lo < hi ->
    (if existsb (fun e => overlaps lo hi e && negb (r_obj (i_val e) =? r_obj r)) (it_list (tree m)) then insert_region m r = Panic
     else exists m', insert_region m r = Ret m' /\ rm_ok m' /\ forall a, lookup_region m' a =
       if (lo <=? a) && (a <? hi) then Some r
       else match lookup_region m a with
            | Some q => if ((r_range q).1 <? hi) && (lo <? (r_range q).2) then None else Some q
            | None => None
            end)) /\
  (forall a, exists m', remove_region m a = Ret (lookup_region m a, m') /\ rm_ok m' /\ forall b, lookup_region m' b =
     match lookup_region m b with
     | Some q => if ((r_range q).1 <=? a) && (a <? (r_range q).2) then None else Some q
     | None => None
     end) /\
  (forall id, exists rs m', object_mappings m id = Ret (rs, m') /\ rm_ok m' /\ mappings m' = mappings m /\
     rs ≡ₚ List.filter (fun r => r_obj r =? id) (mappings m)).
Proof.
  intros Hm. split_and!.
  - intros r lo hi Er Hlt. destruct (existsb _ _) eqn:Eb.
    + apply existsb_exists in Eb as (e & He & [Hov Hne]%andb_prop). apply negb_true_iff, Z.eqb_neq in Hne.
      eapply insert_region_panic; [done|done| |done|done]. by apply list_elem_of_In.
    + assert (forall e, e ∈ it_list (tree m) -> overlaps lo hi e = true -> r_obj (i_val e) = r_obj r) as Ho.
      { intros e He Hov. destruct (Z.eqb_spec (r_obj (i_val e)) (r_obj r)) as [E|Hne]; [done|]. enough (true = false) by done. rewrite <- Eb. symmetry.
        apply existsb_exists. exists e. split; [by apply list_elem_of_In|]. rewrite Hov. by rewrite (proj2 (Z.eqb_neq _ _) Hne). }
      destruct (insert_region_ok m r lo hi Hm Er Hlt Ho) as (m' & -> & Hm' & El). exists m'. split_and!; [done..|]. intros a.
      rewrite !lookup_list, El, ifind_iinsert. 2:{ apply Forall_forall. intros f [_ Hf]%elem_ikeep. by apply negb_true_iff. }
      unfold contains at 1. cbn [i_lo i_hi i_val]. destruct ((lo <=? a) && (a <? hi)); [done|].
      rewrite ifind_ikeep by apply Hm. destruct (ifind a (it_list (tree m))) as [e|] eqn:Ef; [|done]. apply ifind_elem in Ef as [He _].
      cbn [fmap option_fmap option_map]. rewrite (ro_range m Hm e He). unfold overlaps, range_of. cbn [fst snd].
      by destruct ((i_lo e <? hi) && (lo <? i_hi e)).
  - intros a. destruct (remove_region_ok m a Hm) as (m' & -> & Hm' & El). exists m'. split_and!; [done..|]. intros b.
    rewrite !lookup_list, El, ifind_ikeep by apply Hm. destruct (ifind b (it_list (tree m))) as [e|] eqn:Ef; [|done]. apply ifind_elem in Ef as [He _].
    cbn [fmap option_fmap option_map]. rewrite (ro_range m Hm e He). unfold contains, range_of. cbn [fst snd].
    by destruct ((i_lo e <=? a) && (a <? i_hi e)).
  - intros id. destruct (object_mappings_ok m id Hm) as (rs & m' & -> & Hm' & Et & Hp). exists rs, m'. unfold mappings. rewrite Et.
    split_and!; [done..|]. rewrite Hp. clear. induction (it_list (tree m)) as [|e l IH]; cbn; [done|]. unfold of_object. destruct (r_obj (i_val e) =? id); cbn; by rewrite IH.
Qed.
End manager_ok.

(** Two objects mapped in three slots. *)
Definition ex_region (obj lo : Z) : MapRegion := mkRegion obj None PageTable.WriteBack 3 0 (lo, lo + 0x1000000) None.
Definition ex_manager : RegionManager ivals :=
  ret_or rm_new (let! m := insert_region rm_new (ex_region 7 0x1000000) in
                 let! m := insert_region m (ex_region 8 0x2000000) in insert_region m (ex_region 7 0x5000000)).

Lemma ex_manager_ok : rm_ok ex_manager.
Proof.
  destruct (insert_region_ok (rm_new (T := ivals)) (ex_region 7 0x1000000) 0x1000000 0x2000000) as (m1 & E1 & H1 & L1); [apply rm_new_ok|done|lia|intros e He; inversion He|].
  destruct (insert_region_ok m1 (ex_region 8 0x2000000) 0x2000000 0x3000000) as (m2 & E2 & H2 & L2); [done|done|lia| |].
  { rewrite L1. intros e [->|He]%elem_iinsert; [done|inversion He]. }
  destruct (insert_region_ok m2 (ex_region 7 0x5000000) 0x5000000 0x6000000) as (m3 & E3 & H3 & _); [done|done|lia| |].
  { rewrite L2, L1. intros e [->|[[->|He]%elem_iinsert _]%elem_ikeep]%elem_iinsert; [done..|]. inversion He. }
  unfold ex_manager. rewrite E1. cbn [obind]. rewrite E2. cbn [obind]. by rewrite E3.
Qed.

Lemma regions_refine_witness : exists rs m', object_mappings ex_manager 7 = Ret (rs, m') /\ rs ≡ₚ [ex_region 7 0x1000000; ex_region 7 0x5000000].
Proof.
  destruct (regions_refine ex_manager ex_manager_ok) as (_ & _ & Hobj). destruct (Hobj 7) as (rs & m' & E & _ & _ & Hp).
  exists rs, m'. split; [exact E|exact Hp].
Defined.
End Region.
