(* ===== verification/ArchPages.v ===== *)
(** * The page tables of a context, as the translation they define

    [src/kernel/src/arch/amd64/context.rs] ([ArchContext]) and
    [src/kernel/src/memory/pagetables/shared.rs] ([SharedPageTable]).  A context has one set of
    page tables for each security context; the tables of kernel memory are common to all,
    and an entry of level 2 can point to a shared table.  Here tables are given by their
    leaves: for every page, the memory it is mapped to, the settings its entry gives back
    and the level of the entry; [PageTableMap] and [PageTableInv] show, of the tables
    themselves, that mapping and unmapping act on this translation as they do here.
    Mapping skips a page that is mapped already and maps at the highest level that fits;
    unmapping removes the leaves it meets but passes over shared tables, which mapping and
    changing enter.  Frames for tables are taken to be available. *)
From S2P Require Import Prelude Address PageTable PageTableInv PageTableRead.
Import Address.

#[local] Open Scope Z_scope.

Module ArchPages.
Import PageTable (MappingCursor, mkCursor, c_start, c_len, PhysAddrProvider, peek, consume, PhysMapInfo, pm_addr, pm_len, pm_settings,
  MappingSettings, level_to_page_size, can_map_at, align_advance, advance).

Record Leaf := mkLeaf { lf_pa : Z; lf_set : MappingSettings; lf_lvl : nat }.

#[global] Instance Leaf_eq_dec : EqDecision Leaf.
Proof. solve_decision. Defined.

(** Leaves by the number of their page. *)
Abbreviation leaves := (gmap Z Leaf).

(** The leaf at an address *)
Definition page_of (va : Z) : Z := va / 4096.

(** The pages of a leaf of some level *)
Fixpoint fill (n : nat) (p : leaves) (page pa : Z) (st : MappingSettings) (k : nat) : leaves :=
  match n with
  | O => p
  | S n => <[page + Z.of_nat n := mkLeaf (pa + 4096 * Z.of_nat n) st k]> (fill n p page pa st k)
  end.

Definition leaf_pages (k : nat) : nat := Z.to_nat (level_to_page_size k / 4096).

(** ** Mapping ([Mapper::map]) *)

(** What [Table::map] does at an address: pass over a leaf that is there, or enter one. *)
Inductive action := Skip (k : nat) | Put (k : nat).

Fixpoint choose (k : nat) (here : option Leaf) (c : MappingCursor) (i : PhysMapInfo) : outcome action :=
  if match here with Some l => (lf_lvl l =? k)%nat | None => false end then Ret (Skip k)
  else if can_map_at (c_start c) (pm_addr i) (c_len c) (pm_len i) k then Ret (Put k)
  else match k with O => Panic | S k => choose k here c i end.

Definition is_mmio (s : MappingSettings) : bool := match PageTable.cache s with PageTable.MemoryMappedIO => true | _ => false end.

Section map.
Context `{Build} {X : Type} (leaf_at : X -> Z -> option Leaf) (put_leaf : X -> Z -> nat -> Z -> MappingSettings -> X).
Context `{PhysAddrProvider P}.

Definition act (x : X) (va : Z) (i : PhysMapInfo) (a : action) : outcome (X * nat) :=
  match a with
  | Skip k => Ret (x, k)
  | Put k =>
      if is_mmio (pm_settings i) then Panic
      else Ret (put_leaf x va k (pm_addr i) (PageTableRead.stored (pm_settings i)), k)
  end.

(** A turn is a leaf. *)
Fixpoint map_loop (fuel : nat) (top : nat) (x : X) (ph : P) (c : MappingCursor) : outcome X :=
  match fuel with
  | O => NoFuel
  | S f =>
      match peek ph with
      | (None, _) => Ret x
      | (Some i, ph) =>
          let! a := choose top (leaf_at x (c_start c)) c i in
          let! (x, k) := act x (c_start c) i a in
          let ph := consume ph (level_to_page_size k) in
          let! n := align_advance c (level_to_page_size k) in
          match n with Some c => map_loop f top x ph c | None => Ret x end
      end
  end.

Definition map_leaves (top : nat) (x : X) (ph : P) (c : MappingCursor) : outcome X :=
  map_loop (S (Z.to_nat (c_len c / 4096))) top x ph c.
End map.

(** ** Shared tables *)

(** The tables below an entry of level 2: they cover one gigabyte. *)
Definition SPAN : Z := 2 ^ 30.
Definition in_span (va : Z) : Z := page_of (va mod SPAN).

Record SharedTable := mkSpt { st_settings : MappingSettings; st_leaves : leaves; st_refs : Z }.

Definition set_leaves (t : SharedTable) (p : leaves) : SharedTable := mkSpt (st_settings t) p (st_refs t).

(** [SharedPageTable::new] *)
Definition spt_new (s : MappingSettings) : SharedTable := mkSpt s ∅ 1.

(** [SharedPageTable::inc_refs] *)
Definition inc_refs (t : SharedTable) : SharedTable := mkSpt (st_settings t) (st_leaves t) (wrap 64 (st_refs t + 1)).

Definition spt_leaf_at (t : SharedTable) (va : Z) : option Leaf := st_leaves t !! in_span va.
Definition spt_put (t : SharedTable) (va : Z) (k : nat) (pa : Z) (st : MappingSettings) : SharedTable :=
  set_leaves t (fill (leaf_pages k) (st_leaves t) (in_span va) pa st k).

(** [SharedPageTable::map] *)
Definition spt_map `{Build} `{PhysAddrProvider P} (t : SharedTable) (ph : P) (c : MappingCursor) : outcome SharedTable :=
  map_leaves spt_leaf_at spt_put 1 t ph c.

(** ** The tables of a security context *)

(** Leaves of its own, and the shared tables by the gigabyte they are linked at. *)
Record Arch := mkArch { a_leaves : leaves; a_links : gmap Z nat }.

(** [ArchContext::new]: the page at 0 holds the trampoline, at the address [trap]. *)
Definition arch_new (trap : Z) : Arch :=
  mkArch {[0 := mkLeaf trap (PageTable.mkSettings (PageTable.mkProt true false true) PageTable.WriteBack (PageTable.mkMF false true)) 0]} ∅.

(** The tables of kernel memory, those of a security context and the shared ones *)
Record Tabs := mkTabs { t_kernel : leaves; t_arch : Arch; t_spts : gmap nat SharedTable }.

Definition set_arch (x : Tabs) (a : Arch) : Tabs := mkTabs (t_kernel x) a (t_spts x).

Definition link_at (a : Arch) (va : Z) : option nat := a_links a !! (va / SPAN).

(** The leaf at a user address *)
Definition user_leaf (x : Tabs) (va : Z) : option Leaf :=
  match link_at (t_arch x) va with
  | Some i => t_spts x !! i ≫= fun t => spt_leaf_at t va
  | None => a_leaves (t_arch x) !! page_of va
  end.

Definition user_put (x : Tabs) (va : Z) (k : nat) (pa : Z) (st : MappingSettings) : Tabs :=
  let own links := set_arch x (mkArch (fill (leaf_pages k) (a_leaves (t_arch x)) (page_of va) pa st k) links) in
  if (k =? 2)%nat then own (delete (va / SPAN) (a_links (t_arch x)))
  else
    match link_at (t_arch x) va with
    | Some i => mkTabs (t_kernel x) (t_arch x) (alter (fun t => spt_put t va k pa st) i (t_spts x))
    | None => own (a_links (t_arch x))
    end.

Definition kernel_leaf (x : Tabs) (va : Z) : option Leaf := t_kernel x !! page_of va.
Definition kernel_put (x : Tabs) (va : Z) (k : nat) (pa : Z) (st : MappingSettings) : Tabs :=
  mkTabs (fill (leaf_pages k) (t_kernel x) (page_of va) pa st k) (t_arch x) (t_spts x).

(** The leaf an address translates by *)
Definition leaf_at (x : Tabs) (va : Z) : option Leaf := if is_kernel (mkVirt va) then kernel_leaf x va else user_leaf x va.

(** [ArchContext::map] and [ArchContextInner::map]: the page at 0 keeps the trampoline. *)
Definition arch_map `{Build} `{PhysAddrProvider P} (x : Tabs) (ph : P) (c : MappingCursor) : outcome Tabs :=
  if is_kernel (mkVirt (c_start c)) then map_leaves kernel_leaf kernel_put 2 x ph c
  else if c_start c =? 0 then
    let! n := advance c 0x1000 in
    match n with
    | Some c => map_leaves user_leaf user_put 2 x (consume ph 0x1000) c
    | None => Ret x
    end
  else map_leaves user_leaf user_put 2 x ph c.

(** The end of what an operation on a cursor reaches: at least the page it starts in. *)
Definition c_end (c : MappingCursor) : Z := c_start c + Z.max 1 (c_len c).

(** A leaf that a cursor meets *)
Definition meets (c : MappingCursor) (page : Z) (l : Leaf) : bool := PageTableInv.hit (c_start c) (c_end c) (lf_lvl l) (page * 4096).

Definition drop_leaves (c : MappingCursor) (p : leaves) : leaves := filter (fun '(page, l) => meets c page l = false) p.
Definition change_leaves (c : MappingCursor) (st : MappingSettings) (p : leaves) : leaves :=
  map_imap (fun page l => Some (if meets c page l then mkLeaf (lf_pa l) st (lf_lvl l) else l)) p.

(** [ArchContext::unmap] and [ArchContextInner::unmap] *)
Definition arch_unmap `{Build} (x : Tabs) (c : MappingCursor) : outcome Tabs :=
  let user c := Ret (set_arch x (mkArch (drop_leaves c (a_leaves (t_arch x))) (a_links (t_arch x)))) in
  if is_kernel (mkVirt (c_start c)) then Ret (mkTabs (drop_leaves c (t_kernel x)) (t_arch x) (t_spts x))
  else if c_start c =? 0 then
    let! n := advance c 0x1000 in match n with Some c => user c | None => Ret x end
  else user c.

(** The pages of a shared table that a cursor meets, where the table is linked at a gigabyte *)
Definition change_span (c : MappingCursor) (st : MappingSettings) (g : Z) (p : leaves) : leaves :=
  map_imap (fun page l => Some (if meets c (g * (SPAN / 4096) + page) l then mkLeaf (lf_pa l) st (lf_lvl l) else l)) p.

Definition change_link (c : MappingCursor) (st : MappingSettings) (g : Z) (i : nat) (spts : gmap nat SharedTable) : gmap nat SharedTable :=
  alter (fun t => set_leaves t (change_span c st g (st_leaves t))) i spts.

(** Some leaf is met, among leaves whose pages are counted from [base]; only then are
    settings turned into the flags of an entry. *)
Definition met (c : MappingCursor) (base : Z) (p : leaves) : bool := existsb (fun '(page, l) => meets c (base + page) l) (map_to_list p).

Definition user_met (x : Tabs) (c : MappingCursor) : bool :=
  met c 0 (a_leaves (t_arch x)) ||
  existsb (fun '(g, i) => match t_spts x !! i with Some t => met c (g * (SPAN / 4096)) (st_leaves t) | None => false end)
    (map_to_list (a_links (t_arch x))).

(** [ArchContext::change] *)
Definition arch_change (x : Tabs) (c : MappingCursor) (settings : MappingSettings) : outcome Tabs :=
  if is_mmio settings && (if is_kernel (mkVirt (c_start c)) then met c 0 (t_kernel x) else user_met x c) then Panic
  else
    let st := PageTableRead.stored settings in
    if is_kernel (mkVirt (c_start c)) then Ret (mkTabs (change_leaves c st (t_kernel x)) (t_arch x) (t_spts x))
    else Ret (mkTabs (t_kernel x) (mkArch (change_leaves c st (a_leaves (t_arch x))) (a_links (t_arch x)))
                (map_fold (change_link c st) (t_spts x) (a_links (t_arch x)))).

(** [ArchContext::shared_map]: the entry of level 2 points to the shared table. *)
Definition arch_shared_map (x : Tabs) (c : MappingCursor) (i : nat) : outcome Tabs :=
  if is_kernel (mkVirt (c_start c)) then Panic
  else
    let g := c_start c / SPAN in
    Ret (set_arch x (mkArch (filter (fun '(page, _) => page / (SPAN / 4096) <> g) (a_leaves (t_arch x))) (<[g := i]> (a_links (t_arch x))))).

(** No leaf lies in the entry of level [k] that holds a page. *)
Definition no_leaf (p : leaves) (k : nat) (page : Z) : bool :=
  let n := level_to_page_size k / 4096 in bool_decide (map_Forall (fun q _ => q / n <> page / n) p).

(** The size of the entry at which [Table::readmap] finds nothing, where nothing is mapped.
    A table is taken out when it becomes empty, so the tables that are there are those that
    lead to a leaf or to a shared table; below the root those of kernel memory always are. *)
Definition own_skip (a : Arch) (va : Z) : Z :=
  let p := a_leaves a in
  if no_leaf p 3 (page_of va) && bool_decide (map_Forall (fun g _ => g / 512 <> va / SPAN / 512) (a_links a)) then level_to_page_size 3
  else if no_leaf p 2 (page_of va) then level_to_page_size 2
  else if no_leaf p 1 (page_of va) then level_to_page_size 1
  else level_to_page_size 0.

Definition below_skip (p : leaves) (page : Z) : Z := if no_leaf p 1 page then level_to_page_size 1 else level_to_page_size 0.

Definition skip_at (x : Tabs) (va : Z) : Z :=
  if is_kernel (mkVirt va) then if no_leaf (t_kernel x) 2 (page_of va) then level_to_page_size 2 else below_skip (t_kernel x) (page_of va)
  else
    match link_at (t_arch x) va with
    | Some i => match t_spts x !! i with Some t => below_skip (st_leaves t) (in_span va) | None => level_to_page_size 1 end
    | None => own_skip (t_arch x) va
    end.

(** [MapReader::next] finds a mapping.  Where nothing is mapped the reader goes on by the size
    of the empty entry, also from the middle of it (see [PageTableRead.reader_skips_mapped]). *)
Fixpoint reader_finds `{Build} (fuel : nat) (x : Tabs) (c : MappingCursor) : bool :=
  match fuel with
  | O => false
  | S f =>
      if c_len c =? 0 then false
      else if bool_decide (is_Some (leaf_at x (c_start c))) then true
      else match advance c (skip_at x (c_start c)) with Ret (Some c) => reader_finds f x c | _ => false end
  end.

(** [arch.readmap(cursor, |x| x.count()) > 0] *)
Definition arch_mapped `{Build} (x : Tabs) (c : MappingCursor) : bool := reader_finds (S (Z.to_nat (c_len c / 4096))) x c.

Lemma skip_at_size x va : exists k, skip_at x va = level_to_page_size k.
Proof.
  unfold skip_at, below_skip, own_skip.
  repeat match goal with |- exists k, ?t = _ => match t with context [if ?b then _ else _] => destruct b | context [match ?o with Some _ => _ | None => _ end] => destruct o end end; eauto.
Qed.

Lemma level_size k : 4096 <= level_to_page_size k.
Proof. unfold level_to_page_size. rewrite Z.shiftl_mul_pow2, Z.mul_1_l by lia. change 4096 with (2 ^ 12). apply Z.pow_le_mono_r; lia. Qed.

(** The turns allowed are enough: more change nothing. *)
Lemma reader_fuel `{Build} x fuel fuel' c : 0 <= c_len c -> c_len c / 4096 < Z.of_nat fuel -> (fuel <= fuel')%nat -> reader_finds fuel' x c = reader_finds fuel x c.
Proof.
  revert fuel' c. induction fuel as [|f IH]; intros fuel' c Hc Hf Hle; [assert (0 <= c_len c / 4096) by (apply Z.div_pos; lia); lia|].
  destruct fuel' as [|f']; [lia|]. cbn. destruct (_ =? 0); [done|]. case_bool_decide; [done|].
  destruct (advance c _) as [[c'|]| |] eqn:Ea; try done. unfold advance in Ea. destruct (Z.leb_spec (c_len c) (skip_at x (c_start c))); [discriminate|].
  apply obind_Ret in Ea as (r & _ & Ea). destruct r as [v|]; [|discriminate]. injection Ea as <-. destruct (skip_at_size x (c_start c)) as [k Ek]. pose proof (level_size k).
  apply IH; cbn [c_len]; [lia| |lia]. assert ((c_len c - skip_at x (c_start c)) / 4096 <= (c_len c + -1 * 4096) / 4096) by (apply Z.div_le_mono; lia).
  rewrite (Z.div_add (c_len c) (-1) 4096) in * by lia. lia.
Qed.

(** ** What mapping changes *)
Lemma fill_lookup n p page pa st k q : fill n p page pa st k !! q =
  if (page <=? q) && (q <? page + Z.of_nat n) then Some (mkLeaf (pa + 4096 * (q - page)) st k) else p !! q.
Proof.
  induction n as [|n IH]; cbn [fill].
  - destruct (Z.leb_spec page q), (Z.ltb_spec q (page + Z.of_nat 0)); lia || done.
  - destruct (decide (q = page + Z.of_nat n)) as [->|Hne].
    + rewrite lookup_insert_eq, (proj2 (Z.leb_le _ _)), (proj2 (Z.ltb_lt _ _)) by lia. cbn [andb]. do 3 f_equal. lia.
    + rewrite lookup_insert_ne, IH by done.
      destruct (Z.leb_spec page q), (Z.ltb_spec q (page + Z.of_nat n)), (Z.ltb_spec q (page + Z.of_nat (S n))); cbn [andb]; done || lia.
Qed.

Lemma leaf_pages_size k : 4096 * Z.of_nat (leaf_pages k) = level_to_page_size k.
Proof.
  unfold leaf_pages. rewrite PageTableInv.page_size_ps. unfold PageTableInv.ps. rewrite Z.pow_add_r by lia. change (2 ^ 12) with 4096.
  rewrite Z.mul_comm, Z.mul_comm with (n := 4096), Z.div_mul by lia. rewrite Z2Nat.id by (apply Z.pow_nonneg; lia). done.
Qed.

(** All of the memory of a leaf *)
Definition within (lo hi page : Z) (l : Leaf) : Prop :=
  let size := PageTableInv.ps (lf_lvl l) in lo <= page * 4096 / size * size /\ (page * 4096 / size + 1) * size <= hi.

(** Leaves have been added, with these settings and at these addresses. *)
Record grown (st : MappingSettings) (lo hi : Z) (x x' : Tabs) : Prop := mkGrown {
  g_links g i : a_links (t_arch x') !! g = Some i -> a_links (t_arch x) !! g = Some i;
  g_spts : dom (t_spts x') = dom (t_spts x);
  g_leaf page : a_leaves (t_arch x') !! page = a_leaves (t_arch x) !! page \/
    lo <= page * 4096 < hi /\ exists l, a_leaves (t_arch x') !! page = Some l /\ lf_set l = st /\ within lo hi page l }.

Lemma grown_refl st lo hi x : grown st lo hi x x.
Proof. split; auto. Qed.

Lemma within_weaken lo hi lo' hi' page l : lo' <= lo -> hi <= hi' -> within lo hi page l -> within lo' hi' page l.
Proof. unfold within. lia. Qed.

Lemma grown_weaken st lo hi lo' hi' x y : lo' <= lo -> hi <= hi' -> grown st lo hi x y -> grown st lo' hi' x y.
Proof.
  intros Hlo Hhi [L S F]. split; [done..|]. intros page. destruct (F page) as [?|(? & l & ? & ? & ?)]; [by left|].
  right. split; [lia|]. exists l. split_and!; [done..|]. by eapply within_weaken.
Qed.

Lemma grown_trans st lo lo' hi x y z : lo <= lo' -> grown st lo hi x y -> grown st lo' hi y z -> grown st lo hi x z.
Proof.
  intros Hlo [L1 S1 F1] Hg%(grown_weaken _ _ _ lo hi); [|lia..]. destruct Hg as [L2 S2 F2]. split; [auto|congruence|]. intros page.
  destruct (F2 page) as [->|(Hr & Hl)]; [apply F1|by right].
Qed.

Lemma mod_page va k : va mod level_to_page_size k = 0 -> va mod 4096 = 0.
Proof.
  rewrite PageTableInv.page_size_ps. unfold PageTableInv.ps. rewrite Z.pow_add_r by lia. change (2 ^ 12) with 4096. intros Hm.
  assert (0 < 2 ^ (9 * Z.of_nat k)) by (apply Z.pow_pos_nonneg; lia). apply Z.mod_divide in Hm; [|lia]. apply Z.mod_divide; [done|].
  eapply Z.divide_trans; [|exact Hm]. apply Z.divide_factor_l.
Qed.

Lemma user_put_grown x va k pa st hi : va mod level_to_page_size k = 0 -> va + level_to_page_size k <= hi -> grown st va hi x (user_put x va k pa st).
Proof.
  intros Ha Hh. assert (forall links, (forall g i, links !! g = Some i -> a_links (t_arch x) !! g = Some i) ->
    grown st va hi x (set_arch x (mkArch (fill (leaf_pages k) (a_leaves (t_arch x)) (page_of va) pa st k) links))) as Hown.
  { intros links Hl. split; [done|done|]. intros page. cbn [t_arch set_arch a_leaves]. rewrite fill_lookup.
    destruct ((page_of va <=? page) && _) eqn:E; [|by left]. right. apply andb_prop in E as [E1%Z.leb_le E2%Z.ltb_lt].
    pose proof (leaf_pages_size k) as Hsz. pose proof (mod_page _ _ Ha) as Hm. unfold page_of in *. pose proof (Z.div_exact va 4096).
    assert (va <= page * 4096 < va + level_to_page_size k) as Hin by lia. split; [lia|]. eexists. split_and!; [done..|]. unfold within. cbn [lf_lvl].
    rewrite PageTableInv.page_size_ps in *. pose proof (PageTableInv.ps_pos k) as Hp. pose proof (Z.div_exact va (PageTableInv.ps k)).
    assert (page * 4096 / PageTableInv.ps k = va / PageTableInv.ps k) as -> by (symmetry; apply Z.div_unique_pos with (page * 4096 - va); lia). lia. }
  unfold user_put. destruct (k =? 2)%nat.
  - apply Hown. intros g i. rewrite lookup_delete_Some. tauto.
  - destruct (link_at (t_arch x) va) as [i|]; [|by apply Hown]. split; [done| |by left]. cbn [t_spts]. apply dom_alter_L.
Qed.

Lemma can_map_at_bounds va pa len plen k : can_map_at va pa len plen k = true ->
  va mod level_to_page_size k = 0 /\ level_to_page_size k <= len /\ pa mod level_to_page_size k = 0 /\ level_to_page_size k <= plen.
Proof.
  unfold can_map_at. rewrite !andb_true_iff, !Z.eqb_eq, !Z.leb_le. tauto.
Qed.

Lemma choose_put k here c i n : choose k here c i = Ret (Put n) -> can_map_at (c_start c) (pm_addr i) (c_len c) (pm_len i) n = true.
Proof.
  induction k as [|k IH]; cbn [choose]; destruct (match here with Some l => _ | None => _ end); try discriminate.
  - destruct (can_map_at _ _ _ _ 0) eqn:E; [|discriminate]. by intros [= <-].
  - destruct (can_map_at _ _ _ _ (S k)) eqn:E; [|done]. by intros [= <-].
Qed.

Section grow.
Context `{Build} `{PhysAddrProvider P} (st : MappingSettings) (G : P -> Prop).
Hypothesis peek_settings : forall ph i ph', G ph -> peek ph = (Some i, ph') -> pm_settings i = st /\ G ph'.
Hypothesis consume_settings : forall ph len, G ph -> G (consume ph len).

Lemma map_loop_grown fuel top s e x ph : PageTableInv.region_ok s e -> G ph ->
  post (map_loop user_leaf user_put fuel top x ph (mkCursor s (e - s))) (grown (PageTableRead.stored st) s e x).
Proof.
  revert s x ph. induction fuel as [|f IH]; intros s x ph Hr Hg; cbn [map_loop]; [apply post_nofuel|].
  destruct (peek ph) as [[i|] ph'] eqn:Ep; [|apply post_ret, grown_refl]. destruct (peek_settings _ _ _ Hg Ep) as [Es Hg'].
  apply post_any. intros a Ea. apply (post_bind _ _ (fun y => grown (PageTableRead.stored st) s e x y.1)).
  - unfold act. destruct a as [k|k]; [apply post_ret, grown_refl|]. destruct (is_mmio _); [apply post_panic|]. apply post_ret. cbn [fst]. rewrite Es.
    apply choose_put, can_map_at_bounds in Ea as (Hm & Hlen & _). cbn [c_start c_len] in *. apply user_put_grown; [done|lia].
  - intros [y k] Hy. cbn [fst] in Hy. rewrite PageTableInv.align_advance_spec by done. cbn [obind].
    destruct (Z.ltb_spec ((s / PageTableInv.ps k + 1) * PageTableInv.ps k) e) as [Hlt|]; [|by apply post_ret].
    pose proof (PageTableInv.ps_pos k). pose proof (Z.mul_succ_div_gt s (PageTableInv.ps k)).
    eapply post_weaken; [apply IH; [|by apply consume_settings]|intros z Hz; eapply grown_trans; [|done|done]; lia].
    destruct Hr as [? ?]. unfold PageTableInv.region_ok. lia.
Qed.

(** The page at which mapping starts is mapped, if it was not. *)
Lemma map_loop_first f top s e x ph i ph' x' : PageTableInv.region_ok s e -> G ph -> peek ph = (Some i, ph') ->
  link_at (t_arch x) s = None -> a_leaves (t_arch x) !! page_of s = None ->
  map_loop user_leaf user_put (S f) top x ph (mkCursor s (e - s)) = Ret x' ->
  exists k, a_leaves (t_arch x') !! page_of s = Some (mkLeaf (pm_addr i) (PageTableRead.stored st) k).
Proof.
  intros Hr Hg Ep Hl Hn. cbn [map_loop]. rewrite Ep. destruct (peek_settings _ _ _ Hg Ep) as [Es Hg'].
  assert (user_leaf x s = None) as Hu by (unfold user_leaf; by rewrite Hl).
  destruct (choose top _ _ i) as [a| |] eqn:Ea; cbn [obind]; [|discriminate..]. cbn [c_start c_len] in *.
  destruct a as [k|k].
  { exfalso. revert Ea. rewrite Hu. clear. induction top as [|t IH]; cbn [choose]; destruct (can_map_at _ _ _ _ _); done. }
  apply choose_put, can_map_at_bounds in Ea as (Hm & Hlen & _). cbn [c_start c_len act] in *. destruct (is_mmio _); [discriminate|]. cbn [obind].
  rewrite PageTableInv.align_advance_spec by done. cbn [obind]. set (y := user_put x s k _ _).
  assert (a_leaves (t_arch y) !! page_of s = Some (mkLeaf (pm_addr i) (PageTableRead.stored st) k)) as Hy.
  { assert (0 < Z.of_nat (leaf_pages k)) as Hpos by (pose proof (leaf_pages_size k); rewrite PageTableInv.page_size_ps in *; pose proof (PageTableInv.ps_pos k); lia).
    subst y. unfold user_put. rewrite Hl, Es. destruct (k =? 2)%nat; cbn [t_arch set_arch a_leaves]; rewrite fill_lookup, (proj2 (Z.leb_le _ _)), (proj2 (Z.ltb_lt _ _)) by lia; cbn [andb]; do 2 f_equal; lia. }
  destruct (Z.ltb_spec ((s / PageTableInv.ps k + 1) * PageTableInv.ps k) e) as [Hlt|].
  2:{ intros [= <-]. by exists k. }
  pose proof (PageTableInv.ps_pos k). pose proof (Z.mul_succ_div_gt s (PageTableInv.ps k)). intros Ex.
  apply map_loop_grown in Ex as [_ _ Hf]; [|destruct Hr; unfold PageTableInv.region_ok; lia|by apply consume_settings].
  destruct (Hf (page_of s)) as [->|(Hin & _)]; [by exists k|]. exfalso. apply mod_page in Hm. unfold page_of in Hin. pose proof (Z.div_exact s 4096). lia.
Qed.
End grow.

Lemma map_loop_kernel `{Build} `{PhysAddrProvider P} fuel top x (ph : P) c :
  post (map_loop kernel_leaf kernel_put fuel top x ph c) (fun x' => t_arch x' = t_arch x /\ t_spts x' = t_spts x).
Proof.
  revert x ph c. induction fuel as [|f IH]; intros x ph c; cbn [map_loop]; [apply post_nofuel|].
  destruct (peek ph) as [[i|] ph']; [|by apply post_ret]. apply post_any. intros a _.
  apply (post_bind _ _ (fun y => t_arch y.1 = t_arch x /\ t_spts y.1 = t_spts x)).
  - unfold act. destruct a; [by apply post_ret|]. destruct (is_mmio _); [apply post_panic|by apply post_ret].
  - intros [y k] [E1 E2]. cbn [fst] in *. apply post_any. intros [c'|] _; [|by apply post_ret]. eapply post_weaken; [apply IH|]. cbn. intros z [-> ->]. done.
Qed.

Lemma advance_spec `{Build} e n : 0 < n -> 0 < e <= 2 ^ 47 -> n < 2 ^ 47 ->
  advance (mkCursor 0 (e - 0)) n = Ret (if n <? e then Some (mkCursor n (e - n)) else None).
Proof.
  intros Hn He Hlt. unfold advance. cbn [c_len c_start]. rewrite Z.sub_0_r. destruct (Z.leb_spec e n).
  - by rewrite (proj2 (Z.ltb_ge _ _)) by lia.
  - rewrite (proj2 (Z.ltb_lt _ _)) by lia. unfold VirtAddr_offset, or_noncanonical, checked_add. cbn [vraw]. rewrite (proj2 (in_u_spec 64 (0 + n))) by lia.
    unfold VirtAddr_new. replace (canonical (0 + n)) with true by (symmetry; unfold canonical; apply orb_true_iff; rewrite !Z.leb_le; lia).
    cbn [obind vraw]. done.
Qed.

Lemma is_kernel_iff va : is_kernel (mkVirt va) = true <-> 2 ^ 64 - 2 ^ 47 <= va.
Proof. unfold is_kernel. cbn [vraw]. rewrite Z.leb_le. lia. Qed.

Lemma user_region s e : PageTableInv.region_ok s e -> is_kernel (mkVirt s) = false -> e <= 2 ^ 47.
Proof. intros [Hs [He|[He _]]] Hk; [done|]. apply is_kernel_iff in He. congruence. Qed.

Section arch.
Context `{Build} `{PhysAddrProvider P} (st : MappingSettings) (G : P -> Prop).
Hypothesis peek_settings : forall ph i ph', G ph -> peek ph = (Some i, ph') -> pm_settings i = st /\ G ph'.
Hypothesis consume_settings : forall ph len, G ph -> G (consume ph len).

Lemma arch_map_grown s e x ph : PageTableInv.region_ok s e -> G ph -> post (arch_map x ph (mkCursor s (e - s))) (grown (PageTableRead.stored st) s e x).
Proof.
  intros Hr Hg. unfold arch_map. cbn [c_start]. destruct (is_kernel (mkVirt s)) eqn:Ek.
  { eapply post_weaken; [apply map_loop_kernel|]. cbn. intros y [E1 E2]. split; rewrite ?E1, ?E2; auto. }
  pose proof (user_region s e Hr Ek). destruct (Z.eqb_spec s 0) as [->|Hs].
  - destruct Hr as [Hr _]. rewrite advance_spec by lia. cbn [obind]. destruct (Z.ltb_spec 0x1000 e); [|apply post_ret, grown_refl].
    eapply post_weaken; [apply (map_loop_grown st G peek_settings consume_settings); [unfold PageTableInv.region_ok; lia|by apply consume_settings]|].
    intros y. apply grown_weaken; lia.
  - by apply (map_loop_grown st G peek_settings consume_settings).
Qed.

Lemma arch_map_first s e x ph i ph' x' : PageTableInv.region_ok s e -> is_kernel (mkVirt s) = false -> s <> 0 -> G ph -> peek ph = (Some i, ph') ->
  link_at (t_arch x) s = None -> a_leaves (t_arch x) !! page_of s = None -> arch_map x ph (mkCursor s (e - s)) = Ret x' ->
  exists k, a_leaves (t_arch x') !! page_of s = Some (mkLeaf (pm_addr i) (PageTableRead.stored st) k).
Proof.
  intros Hr Hk Hs Hg Ep Hl Hn. unfold arch_map. cbn [c_start]. rewrite Hk, (proj2 (Z.eqb_neq _ _) Hs). unfold map_leaves.
  by eapply (map_loop_first st G peek_settings consume_settings).
Qed.
End arch.

(** ** What unmapping and changing do *)
Record shrunk (x x' : Tabs) : Prop := mkShrunk {
  s_links : a_links (t_arch x') = a_links (t_arch x);
  s_spts : t_spts x' = t_spts x;
  s_leaf page l : a_leaves (t_arch x') !! page = Some l -> a_leaves (t_arch x) !! page = Some l }.

Lemma drop_sub c p page l : drop_leaves c p !! page = Some l -> p !! page = Some l /\ meets c page l = false.
Proof. unfold drop_leaves. intros [Hl Hm]%map_lookup_filter_Some. done. Qed.

Lemma arch_unmap_shrunk `{Build} x c : post (arch_unmap x c) (shrunk x).
Proof.
  unfold arch_unmap. destruct (is_kernel _); [apply post_ret; by split|].
  assert (forall c', shrunk x (set_arch x (mkArch (drop_leaves c' (a_leaves (t_arch x))) (a_links (t_arch x))))) as Hs.
  { intros c'. split; [done|done|]. cbn [t_arch set_arch a_leaves]. intros page l [Hl _]%drop_sub. exact Hl. }
  destruct (_ =? 0); [|by apply post_ret]. apply post_any. intros [c'|] _; apply post_ret; [done|by split].
Qed.

(** A leaf over a page that lies within a cursor is met by it. *)
Lemma meets_in c page l : c_start c <= page * 4096 < c_end c -> meets c page l = true.
Proof.
  intros Hp. unfold meets, PageTableInv.hit. set (k := lf_lvl l). pose proof (PageTableInv.ps_pos k) as Hps.
  pose proof (Z.mul_div_le (page * 4096) _ Hps). pose proof (Z.mul_succ_div_gt (page * 4096) _ Hps).
  apply andb_true_iff. rewrite !Z.ltb_lt. lia.
Qed.

Lemma arch_unmap_gone `{Build} s e x x' page : PageTableInv.region_ok s e -> is_kernel (mkVirt s) = false ->
  arch_unmap x (mkCursor s (e - s)) = Ret x' -> s <= page * 4096 < e -> page <> 0 -> a_leaves (t_arch x') !! page = None.
Proof.
  intros Hr Hk. unfold arch_unmap. cbn [c_start]. rewrite Hk. pose proof (user_region s e Hr Hk) as He. intros Ex Hp Hne.
  assert (forall s', s' <= page * 4096 < e -> drop_leaves (mkCursor s' (e - s')) (a_leaves (t_arch x)) !! page = None) as Hd.
  { intros s' Hs'. destruct (drop_leaves _ _ !! page) as [l|] eqn:El; [|done]. apply drop_sub in El as [_ El]. rewrite meets_in in El; [done|].
    unfold c_end. cbn [c_start c_len]. lia. }
  destruct (Z.eqb_spec s 0) as [->|Hs].
  - destruct Hr as [Hr _]. rewrite advance_spec in Ex by lia. cbn [obind] in Ex. destruct (Z.ltb_spec 0x1000 e); injection Ex as <-; [apply Hd; lia|lia].
  - injection Ex as <-. by apply Hd.
Qed.

(** Some leaves have got other settings. *)
Record changed (st : MappingSettings) (c : MappingCursor) (x x' : Tabs) : Prop := mkChanged {
  h_links : a_links (t_arch x') = a_links (t_arch x);
  h_leaf page l : a_leaves (t_arch x') !! page = Some l ->
    exists l0, a_leaves (t_arch x) !! page = Some l0 /\ lf_lvl l = lf_lvl l0 /\ (l = l0 \/ meets c page l0 = true /\ lf_set l = st) /\ (c_start c <= page * 4096 < c_end c -> is_kernel (mkVirt (c_start c)) = false -> lf_set l = st) }.

Lemma arch_change_changed x c settings : post (arch_change x c settings) (changed (PageTableRead.stored settings) c x).
Proof.
  unfold arch_change. destruct (_ && _); [apply post_panic|]. destruct (is_kernel (mkVirt (c_start c))) eqn:Ek; apply post_ret.
  - split; [done|]. intros page l Hl. exists l. split; [done|]. split; [done|]. split; [by left|]. congruence.
  - split; [done|]. cbn [t_arch a_leaves]. intros page l. unfold change_leaves. rewrite map_lookup_imap. destruct (a_leaves (t_arch x) !! page) as [l0|]; [|done].
    cbn. intros [= <-]. exists l0. split; [done|]. split; [by destruct (meets c page l0)|]. destruct (meets c page l0) eqn:Em; [split; [by right|done]|]. split; [by left|]. intros Hp. by rewrite meets_in in Em.
Qed.
End ArchPages.
