(* ===== verification/VirtMem.v ===== *)
(** * Virtual memory contexts and page faults

    [src/kernel/src/memory/context/virtmem.rs] ([VirtContext]), [virtmem/fault.rs] and
    [virtmem/region.rs] ([MapRegion::map], [MapRegion::ctrl]), the contexts of an object
    ([src/kernel/src/obj/mod.rs]) and [Object::ensure_in_core]
    ([src/kernel/src/obj/pages.rs]).  [Vm] is the state they share: the contexts with
    their regions and, for each security context, page tables ([ArchPages]); the objects
    with their page trees ([PageTree]); the security contexts of the threads ([SecCtx]).
    An operation is atomic here; [page_fault_to_region] is a definition of its own because
    the region it works on has been looked up earlier, without a lock held since.  What the
    pager brings in is the parameter [pager]; [trap] is the frame of the trampoline. *)
From S2P Require Import Prelude Address FrameAlloc IntervalTree PageTree ObjCopy PageTable PageTableRead Capability SecCtx DirtySet Region ArchPages.
Import Address Capability DirtySet Region ArchPages.
Import PageTable (MappingCursor, mkCursor, c_start, c_len, PhysAddrProvider, PhysMapInfo, mkPhysInfo, MappingSettings, mkSettings, perms, mflags, mf_user, p_read, p_write, p_exec).

#[local] Open Scope Z_scope.

Module VirtMem.

(** ** Faults *)
Inductive MemoryAccessKind := Read | Write | InstructionFetch.

#[global] Instance MemoryAccessKind_eq_dec : EqDecision MemoryAccessKind.
Proof. solve_decision. Defined.

Inductive ObjectMemoryError := NullPageAccess | OutOfBounds (off : Z) | BackingFailed.

Inductive UpcallInfo :=
| MemoryContextViolation (addr : Z) (kind : MemoryAccessKind)
| ObjectMemoryFault (id : Z) (e : ObjectMemoryError) (kind : MemoryAccessKind) (addr : Z)
| SecurityViolation (addr : Z) (kind : MemoryAccessKind).

(** [PageFaultFlags] *)
Definition USER : Z := 1.
Definition INVALID : Z := 2.
Definition PRESENT : Z := 4.

(** ** Pages to map ([ObjectPageProvider]) *)
Record ObjectPageProvider := mkOpp { opp_pages : list (PageTree.PageRef * MappingSettings); opp_inner : Z }.

(** [opp_pages] starts at [pos]. *)
Definition opp_new (pages : list (PageTree.PageRef * MappingSettings)) : ObjectPageProvider := mkOpp pages 0.

Definition nr_pages (p : PageTree.PageRef) : Z := PageTree.pr_count p.

Definition page_count (o : ObjectPageProvider) : Z :=
  foldl (fun acc x => acc + nr_pages x.1) 0 (opp_pages o) - opp_inner o / PAGE_SIZE.

Definition opp_peek (o : ObjectPageProvider) : option PhysMapInfo :=
  match opp_pages o with
  | [] => None
  | (p, st) :: _ => Some (mkPhysInfo (PageTree.physical_address p + opp_inner o) (PAGE_SIZE * nr_pages p - opp_inner o) st)
  end.

Fixpoint opp_consume (pages : list (PageTree.PageRef * MappingSettings)) (inner len : Z) : ObjectPageProvider :=
  match pages with
  | [] => mkOpp [] inner
  | (p, st) :: rest =>
      if 0 <? len then
        let rem_len := PAGE_SIZE * nr_pages p - inner in
        if len <? rem_len then mkOpp pages (inner + len) else opp_consume rest 0 (saturating_sub len rem_len)
      else mkOpp pages inner
  end.

#[global] Instance opp_provider : PhysAddrProvider ObjectPageProvider := {
  PageTable.peek o := (opp_peek o, o);
  PageTable.consume o len := opp_consume (opp_pages o) (opp_inner o) len }.

(** ** The state *)
Section vm.
Context `{Build} `{IntervalTree T} `{BS : BitSet} `{Ecdsa} `{Hashes} (sizeof_Cap MAX_SIZE : Z).
Context (lookup_object : Z -> option Z) (read_meta : Z -> option Z) (key_of : Z -> Capability.VerifyingKey) (trap : Z).

(** [verified_id] is taken to have been computed: [o_prot] is the default protection. *)
Record Obj := mkObj { o_ctxs : gmap Z Z; o_tree : T PageTree.PageRange; o_pager : bool; o_prot : Z; o_dirty : list Z }.

Record VirtContext := mkCtx { x_regions : RegionManager T; x_arches : gmap Z Arch }.

(** [KernelSlotCounter] *)
Record KernelSlots := mkSlots { cur_kernel_slot : Z; kernel_slots_nums : list Z }.

(** A thread's security contexts and its memory context *)
Record Thread := mkThread { t_mgr : SecCtx.SecCtxMgr; t_ctx : Z }.

Record Vm := mkVm {
  v_ctxs : gmap Z VirtContext; v_kid : Z; v_kernel : leaves; v_spts : gmap nat SharedTable;
  v_objs : gmap Z Obj; v_shadows : gmap nat (T PageTree.PageRange); v_heap : PageTree.Heap (T := T);
  v_sec : gmap nat SecCtx.SecurityContext; v_threads : gmap nat Thread; v_slots : KernelSlots }.

Definition set_ctxs (s : Vm) (c : gmap Z VirtContext) : Vm :=
  mkVm c (v_kid s) (v_kernel s) (v_spts s) (v_objs s) (v_shadows s) (v_heap s) (v_sec s) (v_threads s) (v_slots s).
Definition set_tables (s : Vm) (k : leaves) (p : gmap nat SharedTable) : Vm :=
  mkVm (v_ctxs s) (v_kid s) k p (v_objs s) (v_shadows s) (v_heap s) (v_sec s) (v_threads s) (v_slots s).
Definition set_objs (s : Vm) (o : gmap Z Obj) (h : PageTree.Heap (T := T)) : Vm :=
  mkVm (v_ctxs s) (v_kid s) (v_kernel s) (v_spts s) o (v_shadows s) h (v_sec s) (v_threads s) (v_slots s).
Definition set_shadows (s : Vm) (x : gmap nat (T PageTree.PageRange)) : Vm :=
  mkVm (v_ctxs s) (v_kid s) (v_kernel s) (v_spts s) (v_objs s) x (v_heap s) (v_sec s) (v_threads s) (v_slots s).
Definition set_sec (s : Vm) (x : gmap nat SecCtx.SecurityContext) (t : gmap nat Thread) : Vm :=
  mkVm (v_ctxs s) (v_kid s) (v_kernel s) (v_spts s) (v_objs s) (v_shadows s) (v_heap s) x t (v_slots s).
Definition set_slots (s : Vm) (k : KernelSlots) : Vm :=
  mkVm (v_ctxs s) (v_kid s) (v_kernel s) (v_spts s) (v_objs s) (v_shadows s) (v_heap s) (v_sec s) (v_threads s) k.

Definition get_ctx (s : Vm) (cid : Z) : outcome VirtContext := unwrap (v_ctxs s !! cid).
Definition get_obj (s : Vm) (id : Z) : outcome Obj := unwrap (v_objs s !! id).
Definition put_ctx (s : Vm) (cid : Z) (c : VirtContext) : Vm := set_ctxs s (<[cid := c]> (v_ctxs s)).
Definition put_obj (s : Vm) (id : Z) (o : Obj) : Vm := set_objs s (<[id := o]> (v_objs s)) (v_heap s).

Definition set_regions (c : VirtContext) (m : RegionManager T) : VirtContext := mkCtx m (x_arches c).

(** The tables of a security context of a context; [with_arch]. *)
Definition tabs_of (s : Vm) (a : Arch) : Tabs := mkTabs (v_kernel s) a (v_spts s).

Definition put_tabs (s : Vm) (cid sctx : Z) (c : VirtContext) (x : Tabs) : Vm :=
  set_tables (put_ctx s cid (mkCtx (x_regions c) (<[sctx := t_arch x]> (x_arches c)))) (t_kernel x) (t_spts x).

Definition with_arch (s : Vm) (cid sctx : Z) (f : Tabs -> outcome Tabs) : outcome Vm :=
  let! c := get_ctx s cid in
  let! a := unwrap (x_arches c !! sctx) in
  let! x := f (tabs_of s a) in
  Ret (put_tabs s cid sctx c x).

(** [for arch in arches.values()]: each is changed alone, so their order does not matter *)
Definition sctxs (c : VirtContext) : list Z := (map_to_list (x_arches c)).*1.

Fixpoint for_arches (s : Vm) (cid : Z) (ids : list Z) (f : Tabs -> outcome Tabs) : outcome Vm :=
  match ids with
  | [] => Ret s
  | i :: ids => let! s := with_arch s cid i f in for_arches s cid ids f
  end.

(** ** Contexts *)

(** [VirtContext::register_sctx] *)
Definition register_sctx (s : Vm) (cid sctx : Z) (a : Arch) : outcome Vm :=
  let! c := get_ctx s cid in
  if bool_decide (is_Some (x_arches c !! sctx)) then Ret s
  else Ret (put_ctx s cid (mkCtx (x_regions c) (<[sctx := a]> (x_arches c)))).

(** [VirtContext::new], with the identifier the counter gives *)
Definition ctx_new (s : Vm) (cid : Z) : outcome Vm :=
  register_sctx (put_ctx s cid (mkCtx rm_new ∅)) cid SecCtx.KERNEL_SCTX (arch_new trap).

(** [Object::add_context] and [remove_context] *)
Definition set_octxs (o : Obj) (m : gmap Z Z) : Obj := mkObj m (o_tree o) (o_pager o) (o_prot o) (o_dirty o).

Definition add_context (s : Vm) (id cid : Z) : outcome Vm :=
  let! o := get_obj s id in
  let! m := contexts_insert (o_ctxs o) cid in
  Ret (put_obj s id (set_octxs o m)).

Definition remove_context (s : Vm) (id cid : Z) : outcome Vm :=
  let! o := get_obj s id in
  let! m := contexts_remove (o_ctxs o) cid in
  Ret (put_obj s id (set_octxs o m)).

(** [ObjectContextInfo] *)
Record ObjectContextInfo := mkInfo { i_obj : Z; i_prot : Z; i_cache : PageTable.CacheType; i_flags : Z }.

(** [Shadow::new], entered as the next shadow *)
Definition shadow_copy (s : Vm) (id : Z) : outcome (T PageTree.PageRange) :=
  let! o := get_obj s id in ObjCopy.copy_range_to_shadow (o_tree o) 0 it_new 0 MAX_SIZE.

Definition fresh_shadow (s : Vm) : nat := fresh (dom (v_shadows s)).
Definition fresh_spt (s : Vm) : nat := fresh (dom (v_spts s)).

Inductive TwzError := Busy | InvalidArgument | InvalidAddress.

(** [UserContext::insert_object] *)
Definition insert_object (s : Vm) (cid slot : Z) (info : ObjectContextInfo) : outcome (Vm * result unit TwzError) :=
  let! (s, shadow) :=
    if has (i_flags info) STABLE then
      let! t := shadow_copy s (i_obj info) in
      let n := fresh_shadow s in Ret (set_shadows s (<[n := t]> (v_shadows s)), Some n)
    else Ret (s, None) in
  let! range := slot_range MAX_SIZE slot in
  let region := mkRegion (i_obj info) shadow (i_cache info) (i_prot info) (i_flags info) range None in
  let (s, region) :=
    if negb (has (i_flags info) STABLE) && negb (has (i_prot info) WRITE) then
      let n := fresh_spt s in
      (set_tables s (v_kernel s) (<[n := spt_new (mapping_settings region false false)]> (v_spts s)),
       mkRegion (i_obj info) shadow (i_cache info) (i_prot info) (i_flags info) range (Some n))
    else (s, region) in
  let! s := add_context s (i_obj info) cid in
  let! c := get_ctx s cid in
  let! start := start_vaddr MAX_SIZE slot in
  match lookup_region (x_regions c) start with
  | Some _ => Ret (s, Err Busy)
  | None =>
      let! m := insert_region (x_regions c) region in
      Ret (put_ctx s cid (set_regions c m), Ok tt)
  end.

(** [UserContext::lookup_object] *)
Definition region_info (r : MapRegion) : ObjectContextInfo := mkInfo (r_obj r) (r_prot r) (r_cache r) (r_flags r).

Definition lookup_mapping (s : Vm) (cid slot : Z) : outcome (option ObjectContextInfo) :=
  let! start := start_vaddr MAX_SIZE slot in
  let cid := if is_kernel_object_memory (mkVirt start) && negb (cid =? v_kid s) then v_kid s else cid in
  let! c := get_ctx s cid in
  Ret (region_info <$> lookup_region (x_regions c) start).

(** [UserContext::remove_object] *)
Definition remove_object (s : Vm) (cid slot : Z) : outcome Vm :=
  let! c := get_ctx s cid in
  let! start := start_vaddr MAX_SIZE slot in
  let! (o, m) := remove_region (x_regions c) start in
  let s := put_ctx s cid (set_regions c m) in
  match o with
  | None => Ret s
  | Some r =>
      let! cur := mapping_cursor r 0 MAX_SIZE in
      let! s := for_arches s cid (sctxs c) (fun x => arch_unmap x cur) in
      remove_context s (r_obj r) cid
  end.

(** [Drop for VirtContext] *)
Fixpoint remove_contexts (s : Vm) (cid : Z) (rs : list MapRegion) : outcome Vm :=
  match rs with
  | [] => Ret s
  | r :: rs => let! s := remove_context s (r_obj r) cid in remove_contexts s cid rs
  end.

Definition ctx_drop (s : Vm) (cid : Z) : outcome Vm :=
  let! c := get_ctx s cid in
  let! s := remove_contexts s cid (mappings (x_regions c)) in
  Ret (set_ctxs s (delete cid (v_ctxs s))).

(** ** Invalidation *)
Inductive InvalidateMode := Full | WriteProtect.

Definition invalidate_arch (s : Vm) (cid : Z) (r : MapRegion) (start len : Z) (mode : InvalidateMode) (x : Tabs) : outcome Tabs :=
  let! cur := mapping_cursor r start len in
  match mode with
  | Full => arch_unmap x cur
  | WriteProtect => arch_change x cur (mapping_settings r true (cid =? v_kid s))
  end.

Fixpoint invalidate_regions (s : Vm) (cid : Z) (rs : list MapRegion) (start len : Z) (mode : InvalidateMode) : outcome Vm :=
  match rs with
  | [] => Ret s
  | r :: rs =>
      let! c := get_ctx s cid in
      let! s := for_arches s cid (sctxs c) (invalidate_arch s cid r start len mode) in
      invalidate_regions s cid rs start len mode
  end.

(** [UserContext::invalidate_object], of the pages from [lo] to [hi] *)
Definition invalidate_object (s : Vm) (cid obj lo hi : Z) (mode : InvalidateMode) : outcome Vm :=
  let start := as_byte_offset lo in
  let! len := chk 64 (as_byte_offset hi - start) in
  let! c := get_ctx s cid in
  let! (rs, m) := object_mappings (x_regions c) obj in
  invalidate_regions (put_ctx s cid (set_regions c m)) cid rs start len mode.

(** [Object::invalidate]: the contexts that still exist, then the kernel's. *)
Fixpoint invalidate_contexts (s : Vm) (cids : list Z) (obj lo hi : Z) (mode : InvalidateMode) : outcome Vm :=
  match cids with
  | [] => Ret s
  | cid :: cids =>
      let! s := if bool_decide (is_Some (v_ctxs s !! cid)) then invalidate_object s cid obj lo hi mode else Ret s in
      invalidate_contexts s cids obj lo hi mode
  end.

Definition invalidate (s : Vm) (obj lo hi : Z) (mode : InvalidateMode) : outcome Vm :=
  let! o := get_obj s obj in
  let! s := invalidate_contexts s (map_to_list (o_ctxs o)).*1 obj lo hi mode in
  invalidate_object s (v_kid s) obj lo hi mode.

(** ** Objects mapped for the kernel *)

(** [kernel_slot_counter] *)
Definition kernel_slots_new : outcome KernelSlots :=
  let! n := unwrap (slot_of_addr MAX_SIZE start_kernel_object_memory) in Ret (mkSlots n []).

(** The slot [insert_kernel_object] takes: the last one given back, or the next one. *)
Definition take_kernel_slot (k : KernelSlots) : outcome (Z * KernelSlots) :=
  match last (kernel_slots_nums k) with
  | Some n => Ret (n, mkSlots (cur_kernel_slot k) (removelast (kernel_slots_nums k)))
  | None =>
      let cur := cur_kernel_slot k in
      let! next := chk 64 (cur + 1) in
      let! r := VirtAddr_offset end_kernel_object_memory (Isize (-1)) in
      let! v := match r with Ok v => Ret v | Err _ => Panic end in
      let! max := unwrap (slot_of_addr MAX_SIZE v) in
      let! _ := rassert (negb (max <? cur)) in
      Ret (cur, mkSlots next [])
  end.

(** [KernelMemoryContext::insert_kernel_object] *)
Definition insert_kernel_object (s : Vm) (info : ObjectContextInfo) : outcome (Vm * Z) :=
  let! (slot, k) := take_kernel_slot (v_slots s) in
  let! range := slot_range MAX_SIZE slot in
  let! c := get_ctx s (v_kid s) in
  let! m := insert_region (x_regions c) (mkRegion (i_obj info) None (i_cache info) (i_prot info) (i_flags info) range None) in
  Ret (put_ctx (set_slots s k) (v_kid s) (set_regions c m), slot).

(** [KernelObjectVirtHandle::start_addr] *)
Definition handle_start (slot : Z) : outcome Z :=
  let! off := chk 64 (slot * MAX_SIZE) in
  let! r := VirtAddr_offset (mkVirt 0) (Usize off) in
  match r with Ok v => Ret (vraw v) | Err _ => Panic end.

(** [Drop for KernelObjectVirtHandle] *)
Definition kernel_handle_drop (s : Vm) (slot : Z) : outcome Vm :=
  let! c := get_ctx s (v_kid s) in
  let! start := start_vaddr MAX_SIZE slot in
  let! (_, m) := remove_region (x_regions c) start in
  let s := put_ctx s (v_kid s) (set_regions c m) in
  let! a := handle_start slot in
  let! s := with_arch s (v_kid s) SecCtx.KERNEL_SCTX (fun x => arch_unmap x (mkCursor a MAX_SIZE)) in
  Ret (set_slots s (mkSlots (cur_kernel_slot (v_slots s)) (kernel_slots_nums (v_slots s) ++ [slot]))).

(** ** Control of a region ([MapRegion::ctrl]) *)

(** The tables of the current thread lose the pages of the region. *)
Definition unmap_current (s : Vm) (t : Thread) (r : MapRegion) : outcome Vm :=
  with_arch s (t_ctx t) (SecCtx.active_id (t_mgr t)) (fun x => let! cur := mapping_cursor r 0 MAX_SIZE in arch_unmap x cur).

(** [MapControlCmd::Invalidate] *)
Definition ctrl_invalidate (s : Vm) (t : Thread) (r : MapRegion) : outcome Vm := unmap_current s t r.

(** [MapControlCmd::Update], with [Shadow::update] *)
Definition ctrl_update (s : Vm) (t : Thread) (r : MapRegion) : outcome Vm :=
  let! s :=
    match r_shadow r with
    | Some n => let! tr := shadow_copy s (r_obj r) in Ret (set_shadows s (<[n := tr]> (v_shadows s)))
    | None => Ret s
    end in
  unmap_current s t r.

(** ** System calls on mappings (syscall/object.rs, operations.rs) *)

(** [map_object_into_context] *)
Definition map_object_into_context (s : Vm) (slot obj cid prot flags : Z) : outcome (Vm * result unit TwzError) :=
  let! o := slot_of_usize MAX_SIZE slot in
  match o with
  | None => Ret (s, Err InvalidArgument)
  | Some slot => insert_object s cid slot (mkInfo obj prot PageTable.WriteBack flags)
  end.

(** The end of [sys_object_map], which has found the object and the context *)
Definition sys_object_map (s : Vm) (slot obj cid prot flags : Z) : outcome (Vm * result Z TwzError) :=
  let! (s, _) := map_object_into_context s slot obj cid prot flags in
  Ret (s, Ok slot).

(** [sys_object_unmap] *)
Definition sys_object_unmap (s : Vm) (cid slot : Z) : outcome (Vm * result Z TwzError) :=
  let! o := slot_of_usize MAX_SIZE slot in
  match o with
  | None => Ret (s, Err InvalidArgument)
  | Some slot => let! s := remove_object s cid slot in Ret (s, Ok 0)
  end.

(** [VirtContext::lookup_slot] *)
Definition lookup_slot (s : Vm) (cid slot : Z) : outcome (option MapRegion) :=
  let! o := slot_of_usize MAX_SIZE slot in
  match o with
  | None => Ret None
  | Some slot =>
      let! c := get_ctx s cid in
      let! start := start_vaddr MAX_SIZE slot in
      Ret (lookup_region (x_regions c) start)
  end.

(** ** The pages of an object *)

Definition MAX_PAGES : Z := MAX_SIZE / PAGE_SIZE.

(** The page ranges of everything but the tree of an object *)
Definition other_ranges (s : Vm) (id : Z) : list PageTree.PageRange :=
  concat ((fun '(_, o) => i_val <$> it_list (o_tree o)) <$> map_to_list (delete id (v_objs s))) ++
  concat ((fun '(_, t) => i_val <$> it_list t) <$> map_to_list (v_shadows s)).

(** The page ranges of everything but a shadow *)
Definition ranges_without_shadow (s : Vm) (n : nat) : list PageTree.PageRange :=
  concat ((fun '(_, o) => i_val <$> it_list (o_tree o)) <$> map_to_list (v_objs s)) ++
  concat ((fun '(_, t) => i_val <$> it_list t) <$> map_to_list (delete n (v_shadows s))).

Definition set_tree (o : Obj) (t : T PageTree.PageRange) : Obj := mkObj (o_ctxs o) t (o_pager o) (o_prot o) (o_dirty o).

Definition put_tree (s : Vm) (id : Z) (o : Obj) (t : T PageTree.PageRange) (h : PageTree.Heap (T := T)) : Vm :=
  set_objs s (<[id := set_tree o t]> (v_objs s)) h.

Section pages.
(** The page references held elsewhere, and what the pager makes of an object's pages. *)
Context (pins : list PageTree.PageRef).
Context (pager : Z -> Z -> T PageTree.PageRange -> PageTree.Heap (T := T) -> T PageTree.PageRange * PageTree.Heap (T := T)).

(** [lock_page_tree().get_page(pn, flags, Some(&mut fa))] *)
Definition tree_get_page (s : Vm) (id pn flags : Z) : outcome (PageTree.PageStatus * Vm) :=
  let! o := get_obj s id in
  let! (st, t, h) := PageTree.get_page (other_ranges s id) pins (o_tree o) (v_heap s) pn flags true in
  Ret (st, put_tree s id o t h).

Definition tree_try_get_page (s : Vm) (id pn flags : Z) : outcome (PageTree.PageStatus * Vm) :=
  let! o := get_obj s id in
  let! (st, t) := PageTree.try_get_page (other_ranges s id) pins (o_tree o) (v_heap s) pn flags in
  Ret (st, put_tree s id o t (v_heap s)).

(** A new page from the allocator, added at [pn] if there is one *)
Definition tree_add_new_page (s : Vm) (id pn : Z) : outcome Vm :=
  let! o := get_obj s id in
  match PageTree.try_allocate_page (v_heap s) with
  | (None, h) => Ret (put_tree s id o (o_tree o) h)
  | (Some p, h) =>
      let! (_, t, h) := PageTree.add_page (other_ranges s id) pins MAX_PAGES (o_tree o) h pn (PageTree.mkPageRef p 0 1) true in
      Ret (put_tree s id o t h)
  end.

Definition is_ready (st : PageTree.PageStatus) : bool := match st with PageTree.Ready _ _ => true | _ => false end.
Definition is_no_page (st : PageTree.PageStatus) : bool := match st with PageTree.NoPage => true | _ => false end.

(** [Object::ensure_in_core_not_pager] *)
Definition ensure_in_core_not_pager (s : Vm) (id pn : Z) : outcome Vm :=
  let! (st, s) := tree_get_page s id pn 0 in
  if is_ready st then Ret s else tree_add_new_page s id pn.

(** [Object::ensure_in_core] *)
Definition ensure_in_core (s : Vm) (id pn : Z) : outcome Vm :=
  let! (res, s) := tree_try_get_page s id pn 0 in
  if is_no_page res then
    let! o := get_obj s id in
    if o_pager o then
      let (t, h) := pager id pn (o_tree o) (v_heap s) in
      let s := put_tree s id o t h in
      let! (res, s) := tree_try_get_page s id pn 0 in
      if is_no_page res then ensure_in_core_not_pager s id pn else Ret s
    else ensure_in_core_not_pager s id pn
  else Ret s.

(** [Shadow::get_page] *)
Definition shadow_get_page (s : Vm) (n : nat) (pn flags : Z) : outcome (option PageTree.PageRef * Vm) :=
  let! t := unwrap (v_shadows s !! n) in
  let! (st, t) := PageTree.try_get_page (ranges_without_shadow s n) pins t (v_heap s) pn flags in
  Ret (match st with PageTree.Ready p _ => Some p | _ => None end, set_shadows s (<[n := t]> (v_shadows s))).

(** ** Mapping the page of a fault ([MapRegion::map]) *)

(** [check_settings], for a thread whose active security context is [active] *)
Definition check_settings (active : Z) (addr : Z) (st : MappingSettings) (kind : MemoryAccessKind) : result unit UpcallInfo :=
  if negb (mf_user (mflags st)) then Ok tt
  else if active =? 0 then Ok tt
  else
    let ok := match kind with Read => p_read (perms st) | Write => p_write (perms st) | InstructionFetch => p_exec (perms st) end in
    if ok then Ok tt else Err (MemoryContextViolation addr kind).

(** The page of the object at an address of a region *)
Definition object_page (r : MapRegion) (addr : Z) : Z :=
  let pn := from_address MAX_SIZE addr in
  if has (r_flags r) NO_NULLPAGE && negb (is_meta MAX_SIZE pn) then pn + 1 else pn.

(** The protections of a new mapping: what security provides, restricted by the region. *)
Definition final_perms (r : MapRegion) (wp : bool) (p : SecCtx.PermsInfo) (default_prot : Z) : Z :=
  Z.land (Z.ldiff (Z.lor (SecCtx.provide p) default_prot) (SecCtx.restrict p)) (mapping_perms r wp).

Definition final_settings (r : MapRegion) (wp is_kern_obj : bool) (p : SecCtx.PermsInfo) (default_prot : Z) : MappingSettings :=
  mkSettings (prot_of (final_perms r wp p default_prot)) (r_cache r) (mflags (mapping_settings r wp is_kern_obj)).

(** The closure [shared_mapper] of the fault handler: the shared table is linked where
    nothing is mapped.  The flag that [is_shared] looks at is set in the entry that
    points to a shared table, never in a leaf. *)
Definition shared_mapper (s : Vm) (cid sctx addr : Z) (i : nat) : outcome Vm :=
  let size := PageTable.level_to_page_size 1 in
  let c := mkCursor (addr / size * size) size in
  with_arch s cid sctx (fun x =>
    if negb (arch_mapped x c) then
      let! x := if arch_mapped x c then arch_unmap x c else Ret x in
      arch_shared_map x c i
    else Ret x).

(** The closure [mapper] *)
Definition mapper (s : Vm) (cid sctx : Z) (r : MapRegion) (offset : Z) (provider : ObjectPageProvider) : outcome Vm :=
  let! cur := mapping_cursor r (as_byte_offset offset) (PAGE_SIZE * page_count provider) in
  match r_shared r with
  | Some i =>
      let! t := unwrap (v_spts s !! i) in
      let! t := spt_map t provider cur in
      Ret (set_tables s (v_kernel s) (<[i := t]> (v_spts s)))
  | None =>
      with_arch s cid sctx (fun x =>
        let! x :=
          if match opp_peek provider with Some p => p_write (perms (PageTable.pm_settings p)) | None => false end && arch_mapped x cur
          then arch_unmap x cur else Ret x in
        arch_map x provider cur)
  end.

(** The page of the object: in core, or added as a last resort *)
Definition fault_page (s : Vm) (id pn flags : Z) : outcome (PageTree.PageStatus * Vm) :=
  let! s := ensure_in_core s id pn in
  let! (st, s) := tree_get_page s id pn flags in
  let! o := get_obj s id in
  if is_no_page st && negb (o_pager o) then
    let! s := tree_add_new_page s id pn in
    tree_get_page s id pn flags
  else Ret (st, s).

Definition add_dirty_page (s : Vm) (id pn num : Z) : outcome Vm :=
  let! o := get_obj s id in
  let! d := add_dirty (o_dirty o) pn num in
  Ret (put_obj s id (mkObj (o_ctxs o) (o_tree o) (o_pager o) (o_prot o) d)).

(** The part of [MapRegion::map] that maps a page of the object; [Locked] is only answered
    to callers that ask for a stable page. *)
Definition map_object_page (s : Vm) (cid sctx active : Z) (r : MapRegion) (addr : Z) (cause : MemoryAccessKind)
  (p : SecCtx.PermsInfo) (default_prot : Z) : outcome (Vm * result unit UpcallInfo) :=
  let pn := object_page r addr in
  let kern := is_kernel_object_memory (mkVirt addr) in
  let! (st, s) := fault_page s (r_obj r) pn (if bool_decide (cause = Write) then PageTree.WRITE else 0) in
  let! o := get_obj s (r_obj r) in
  match st with
  | PageTree.Locked => NoFuel
  | PageTree.Ready page shared =>
      let settings := final_settings r shared kern p default_prot in
      match check_settings active addr settings cause with
      | Err e => Ret (s, Err e)
      | Ok _ =>
          let! s := if p_write (perms settings) && o_pager o then add_dirty_page s (r_obj r) pn (nr_pages page) else Ret s in
          let! s := mapper s cid sctx r (from_address MAX_SIZE addr) (opp_new [(page, settings)]) in
          Ret (s, Ok tt)
      end
  | PageTree.NoPage =>
      if o_pager o then Ret (s, Err (ObjectMemoryFault (r_obj r) BackingFailed cause addr)) else Ret (s, Ok tt)
  | _ => Ret (s, Err (ObjectMemoryFault (r_obj r) BackingFailed cause addr))
  end.

(** The shadow's page, when the region has a shadow with that page *)
Definition map_shadow_page (s : Vm) (cid sctx active : Z) (r : MapRegion) (addr : Z) (cause : MemoryAccessKind)
  (p : SecCtx.PermsInfo) (default_prot : Z) : outcome (Vm * option (result unit UpcallInfo)) :=
  match r_shadow r with
  | None => Ret (s, None)
  | Some n =>
      let! (o, s) := shadow_get_page s n (object_page r addr) (if bool_decide (cause = Write) then PageTree.WRITE else 0) in
      match o with
      | None => Ret (s, None)
      | Some page =>
          let settings := final_settings r true (is_kernel_object_memory (mkVirt addr)) p default_prot in
          match check_settings active addr settings cause with
          | Err e => Ret (s, Some (Err e))
          | Ok _ =>
              let! s := mapper s cid sctx r (from_address MAX_SIZE addr) (opp_new [(page, settings)]) in
              Ret (s, Some (Ok tt))
          end
      end
  end.

(** The shared table of the region, linked for the security context *)
Definition map_shared (s : Vm) (cid sctx active : Z) (r : MapRegion) (addr : Z) (cause : MemoryAccessKind) : outcome (Vm * result unit UpcallInfo) :=
  match r_shared r with
  | Some i =>
      if is_kernel_object_memory (mkVirt addr) then Ret (s, Ok tt)
      else
        let! t := unwrap (v_spts s !! i) in
        match check_settings active addr (st_settings t) cause with
        | Err e => Ret (s, Err e)
        | Ok _ =>
            let! s := shared_mapper s cid sctx addr i in
            Ret (set_tables s (v_kernel s) (alter inc_refs i (v_spts s)), Ok tt)
        end
  | None => Ret (s, Ok tt)
  end.

Definition region_map (s : Vm) (cid sctx active : Z) (r : MapRegion) (addr : Z) (cause : MemoryAccessKind)
  (p : SecCtx.PermsInfo) (default_prot : Z) : outcome (Vm * result unit UpcallInfo) :=
  let! (s, res) := map_shared s cid sctx active r addr cause in
  match res with
  | Err e => Ret (s, Err e)
  | Ok _ =>
      let! (s, o) := map_shadow_page s cid sctx active r addr cause p default_prot in
      match o with
      | Some res => Ret (s, res)
      | None => map_object_page s cid sctx active r addr cause p default_prot
      end
  end.
End pages.

(** ** The fault handler (virtmem/fault.rs) *)

(** [assert_valid] *)
Definition assert_valid (addr : Z) (cause : MemoryAccessKind) (flags : Z) : outcome unit :=
  let! _ := rassert (negb (has flags INVALID)) in
  let! _ := rassert (has flags USER || negb (bool_decide (cause = InstructionFetch))) in
  rassert (has flags USER || negb (is_kernel (mkVirt addr)) || is_kernel_object_memory (mkVirt addr)).

(** [check_violations] *)
Definition check_violations (addr : Z) (cause : MemoryAccessKind) (flags : Z) : result unit UpcallInfo :=
  if has flags USER && is_kernel (mkVirt addr) then Err (MemoryContextViolation addr cause) else Ok tt.

(** [get_context]: the memory context and the security context of a fault *)
Definition get_context (s : Vm) (t : Thread) (addr flags : Z) : outcome (Z * Z) :=
  if is_kernel_object_memory (mkVirt addr) then
    let! _ := rassert (negb (has flags USER)) in Ret (v_kid s, SecCtx.KERNEL_SCTX)
  else Ret (t_ctx t, SecCtx.active_id (t_mgr t)).

(** [check_object_addr] *)
Definition check_object_addr (pn id : Z) (cause : MemoryAccessKind) (addr : Z) : result unit UpcallInfo :=
  if pn =? 0 then Err (ObjectMemoryFault id NullPageAccess cause addr)
  else if MAX_SIZE <=? as_byte_offset pn then Err (ObjectMemoryFault id (OutOfBounds (as_byte_offset pn)) cause addr)
  else Ok tt.

(** [get_map_region] *)
Definition get_map_region (s : Vm) (addr cid : Z) (cause : MemoryAccessKind) : outcome (result MapRegion UpcallInfo) :=
  match slot_of_addr MAX_SIZE (mkVirt addr) with
  | None => Ret (Err (MemoryContextViolation addr cause))
  | Some slot =>
      let! start := start_vaddr MAX_SIZE slot in
      let! c := get_ctx s cid in
      match lookup_region (x_regions c) start with
      | Some r => Ret (Ok r)
      | None =>
          let! k := get_ctx s (v_kid s) in
          Ret (match lookup_region (x_regions k) start with Some r => Ok r | None => Err (MemoryContextViolation addr cause) end)
      end
  end.

Definition access_bits (cause : MemoryAccessKind) : Z :=
  match cause with Read => READ | Write => Z.lor WRITE READ | InstructionFetch => Z.lor EXEC READ end.

(** [Protections::all] *)
Definition PROT_ALL : Z := 7.

(** [perms.provide & !perms.restrict & access_kind == access_kind] *)
Definition grants (p : SecCtx.PermsInfo) (kind : Z) : bool :=
  Z.land (Z.ldiff (SecCtx.provide p) (SecCtx.restrict p)) kind =? kind.

(** [check_security] *)
Definition check_security (s : Vm) (t : Thread) (cid sctx id addr : Z) (cause : MemoryAccessKind) (ip default_prot : Z)
  : outcome (Vm * result SecCtx.PermsInfo UpcallInfo) :=
  if is_kernel (mkVirt ip) || (sctx =? 0) then Ret (s, Ok (SecCtx.mkPerms sctx PROT_ALL 0))
  else
    let! e := get_map_region s ip cid InstructionFetch in
    match e with
    | Err u => Ret (s, Err u)
    | Ok exec_info =>
        let! _ := VirtAddr_sub (mkVirt ip) (mkVirt (r_range exec_info).1) in
        let kind := access_bits cause in
        let! (h, p) := SecCtx.mgr_lookup sizeof_Cap MAX_SIZE lookup_object read_meta key_of (v_sec s) (t_mgr t) id default_prot in
        if grants p kind then Ret (set_sec s h (v_threads s), Ok p)
        else
          let! (h, p) := SecCtx.search_access sizeof_Cap MAX_SIZE lookup_object read_meta key_of h (t_mgr t) (SecCtx.mkAccess id kind) default_prot in
          let s := set_sec s h (v_threads s) in
          Ret (s, if grants p kind then Ok p else Err (SecurityViolation addr cause))
    end.

(** Switching to the context that grants the access *)
Definition switch_to (s : Vm) (tid : nat) (t : Thread) (sctx addr : Z) (p : SecCtx.PermsInfo) : outcome (Vm * Thread * Z) :=
  if negb (SecCtx.ctx p =? sctx) && negb (is_kernel (mkVirt addr)) then
    let! (m, _) := SecCtx.switch_context (v_sec s) (t_mgr t) (SecCtx.ctx p) in
    let t := mkThread m (t_ctx t) in
    Ret (set_sec s (v_sec s) (<[tid := t]> (v_threads s)), t, SecCtx.ctx p)
  else Ret (s, t, sctx).

Section faults.
Context (pins : list PageTree.PageRef).
Context (pager : Z -> Z -> T PageTree.PageRange -> PageTree.Heap (T := T) -> T PageTree.PageRange * PageTree.Heap (T := T)).

(** [page_fault_to_region] *)
Definition page_fault_to_region (s : Vm) (tid : nat) (t : Thread) (addr : Z) (cause : MemoryAccessKind) (ip cid sctx : Z) (info : MapRegion)
  : outcome (Vm * result unit UpcallInfo) :=
  match check_object_addr (object_page info addr) (r_obj info) cause addr with
  | Err e => Ret (s, Err e)
  | Ok _ =>
      let! o := get_obj s (r_obj info) in
      let! (s, r) := check_security s t cid sctx (r_obj info) addr cause ip (o_prot o) in
      match r with
      | Err e => Ret (s, Err e)
      | Ok p =>
          let! (s, t, sctx) := switch_to s tid t sctx addr p in
          region_map pins pager s cid sctx (SecCtx.active_id (t_mgr t)) info addr cause p (o_prot o)
      end
  end.

(** [do_page_fault] *)
Definition do_page_fault (s : Vm) (tid : nat) (addr : Z) (cause : MemoryAccessKind) (flags ip : Z) : outcome (Vm * result unit UpcallInfo) :=
  let! _ := assert_valid addr cause flags in
  match check_violations addr cause flags with
  | Err e => Ret (s, Err e)
  | Ok _ =>
      let! t := unwrap (v_threads s !! tid) in
      let! (cid, sctx) := get_context s t addr flags in
      let! i := get_map_region s addr cid cause in
      match i with
      | Err e => Ret (s, Err e)
      | Ok info => page_fault_to_region s tid t addr cause ip cid sctx info
      end
  end.
End faults.

(** ** What the hardware does with the tables *)

(** The leaf of an address in a security context of a context *)
Definition translate (s : Vm) (cid sctx va : Z) : option Leaf :=
  match v_ctxs s !! cid with
  | Some c => match x_arches c !! sctx with Some a => leaf_at (tabs_of s a) va | None => None end
  | None => None
  end.

(** An entry lets a user access through. *)
Definition permits (l : Leaf) (cause : MemoryAccessKind) : bool :=
  mf_user (mflags (lf_set l)) &&
  match cause with Read => true | Write => p_write (perms (lf_set l)) | InstructionFetch => p_exec (perms (lf_set l)) end.

(** A user access needs no fault. *)
Definition allowed (s : Vm) (cid sctx va : Z) (cause : MemoryAccessKind) : bool :=
  match translate s cid sctx va with Some l => permits l cause | None => false end.

(** ** Runs

    The operations in any order.  [EOther] stands for everything else the kernel does to
    the pages of objects, to security contexts and to threads. *)
Inductive event :=
| ECtx (cid : Z)
| ESctx (cid sctx : Z)
| EDrop (cid : Z)
| EMap (cid slot obj prot flags : Z)
| EUnmap (cid slot : Z)
| EKernelMap (obj prot flags : Z)
| EKernelUnmap (slot : Z)
| EInvalidate (obj lo hi : Z) (mode : InvalidateMode)
| EControl (tid : nat) (slot : Z) (update : bool)
| EFault (tid : nat) (addr : Z) (cause : MemoryAccessKind) (flags ip : Z) (pins : list PageTree.PageRef)
| EOther (objs : gmap Z (T PageTree.PageRange)) (h : PageTree.Heap (T := T)) (sec : gmap nat SecCtx.SecurityContext) (threads : gmap nat Thread).

Context (pager : Z -> Z -> T PageTree.PageRange -> PageTree.Heap (T := T) -> T PageTree.PageRange * PageTree.Heap (T := T)).

Definition exec (s : Vm) (e : event) : outcome Vm :=
  match e with
  | ECtx cid => if bool_decide (is_Some (v_ctxs s !! cid)) then Ret s else ctx_new s cid
  | ESctx cid sctx => register_sctx s cid sctx (arch_new trap)
  | EDrop cid => if cid =? v_kid s then Ret s else ctx_drop s cid
  | EMap cid slot obj prot flags => let! (s, _) := sys_object_map s slot obj cid prot flags in Ret s
  | EUnmap cid slot => let! (s, _) := sys_object_unmap s cid slot in Ret s
  | EKernelMap obj prot flags => let! (s, _) := insert_kernel_object s (mkInfo obj prot PageTable.WriteBack flags) in Ret s
  | EKernelUnmap slot => kernel_handle_drop s slot
  | EInvalidate obj lo hi mode => invalidate s obj lo hi mode
  | EControl tid slot update =>
      let! t := unwrap (v_threads s !! tid) in
      let! o := lookup_slot s (t_ctx t) slot in
      match o with
      | None => Ret s
      | Some r => if update then ctrl_update s t r else ctrl_invalidate s t r
      end
  | EFault tid addr cause flags ip pins => let! (s, _) := do_page_fault pins pager s tid addr cause flags ip in Ret s
  | EOther objs h sec threads =>
      Ret (set_sec (set_objs s (map_imap (fun id o => Some (set_tree o (default (o_tree o) (objs !! id)))) (v_objs s)) h) sec threads)
  end.

Fixpoint run (s : Vm) (es : list event) : outcome Vm :=
  match es with [] => Ret s | e :: es => let! s := exec s e in run s es end.
End vm.
End VirtMem.
