(* ===== verification/VirtMemInv.v ===== *)
(** * Virtual memory contexts: what their page tables hold

    Over all runs of the operations of [VirtMem].  [own_tables_sound]: what the tables of a
    security context map, outside of shared tables, is covered by a region of the context
    and no more than its protections allow.  [invalidate_reaches]: invalidating pages of an
    object reaches every context that maps it.  [fault_authorised] and [fault_resolves]:
    what a page fault adds to the tables, and that it lets the access through. *)
From S2P Require Import Prelude Address FrameAlloc IntervalTree PageTree ObjCopy PageTable PageTableInv PageTableRead Capability SecCtx DirtySet Region ArchPages VirtMem.
Import Address Capability DirtySet Region ArchPages VirtMem.
Import PageTable (MappingCursor, mkCursor, c_start, c_len, PhysAddrProvider, PhysMapInfo, mkPhysInfo, MappingSettings, mkSettings, perms, mflags, mf_user, p_read, p_write, p_exec, mkMF).

#[local] Open Scope Z_scope.

Module VirtMemInv.

(** ** Protections as bits *)
Lemma has_testbit x n : 0 <= n -> has x (2 ^ n) = Z.testbit x n.
Proof.
  intros Hn. unfold has. apply eq_true_iff_eq. rewrite Z.eqb_eq. split.
  - intros E. apply (f_equal (fun z => Z.testbit z n)) in E. rewrite Z.land_spec, Z.pow2_bits_true, andb_true_r in E by done. done.
  - intros Ht. apply Z.bits_inj'. intros k Hk. rewrite Z.land_spec. destruct (decide (k = n)) as [->|Hne].
    + by rewrite Ht, Z.pow2_bits_true.
    + by rewrite Z.pow2_bits_false, andb_false_r.
Qed.

Lemma has_read x : has x READ = Z.testbit x 0.
Proof. exact (has_testbit x 0 ltac:(lia)). Qed.
Lemma has_write x : has x WRITE = Z.testbit x 1.
Proof. exact (has_testbit x 1 ltac:(lia)). Qed.
Lemma has_exec x : has x EXEC = Z.testbit x 2.
Proof. exact (has_testbit x 2 ltac:(lia)). Qed.

Lemma mapping_perms_write r wp : Z.testbit (mapping_perms r wp) 1 = negb wp && has (r_prot r) WRITE.
Proof.
  unfold mapping_perms. rewrite has_write. destruct wp; rewrite ?Z.ldiff_spec, Z.lor_spec; cbn; by rewrite ?andb_false_r, ?orb_false_r.
Qed.

Lemma mapping_perms_exec r wp : Z.testbit (mapping_perms r wp) 2 = has (r_prot r) EXEC.
Proof.
  unfold mapping_perms. rewrite has_exec. destruct wp; rewrite ?Z.ldiff_spec, Z.lor_spec; cbn; by rewrite ?andb_true_r, ?orb_false_r.
Qed.

(** A leaf gives no more than a region. *)
Definition leaf_ok (r : MapRegion) (l : Leaf) : Prop :=
  (p_write (perms (lf_set l)) = true -> has (r_prot r) WRITE = true) /\
  (p_exec (perms (lf_set l)) = true -> has (r_prot r) EXEC = true) /\
  mflags (lf_set l) = mkMF false true.

Lemma mapping_settings_ok r wp pa k : leaf_ok r (mkLeaf pa (PageTableRead.stored (mapping_settings r wp false)) k).
Proof.
  unfold leaf_ok. cbn. rewrite has_write, has_exec, mapping_perms_write, mapping_perms_exec. split_and!; [by intros []%andb_prop|done|done].
Qed.

Lemma final_settings_ok r wp p d pa k : leaf_ok r (mkLeaf pa (PageTableRead.stored (final_settings r wp false p d)) k).
Proof.
  unfold leaf_ok. cbn. rewrite has_write, has_exec. unfold final_perms. rewrite !Z.land_spec, mapping_perms_write, mapping_perms_exec.
  split_and!; [by intros [_ []%andb_prop]%andb_prop|by intros []%andb_prop|done].
Qed.

Section inv.
Context `{Build} `{IntervalTree T} `{BS : BitSet} `{Ecdsa} `{Hashes} (sizeof_Cap MAX_SIZE max_bits : Z).
Context (lookup_object : Z -> option Z) (read_meta : Z -> option Z) (key_of : Z -> Capability.VerifyingKey) (trap : Z).
Context (pager : Z -> Z -> T PageTree.PageRange -> PageTree.Heap (T := T) -> T PageTree.PageRange * PageTree.Heap (T := T)).

(** The size of an object is a power of two, at least a page. *)
Hypothesis max_pow : MAX_SIZE = 2 ^ max_bits.
Hypothesis max_range : 12 <= max_bits <= 44.

Implicit Types (s : Vm (T := T)) (c : VirtContext (T := T)) (m : RegionManager T) (a : Arch).

(** ** Slots *)
Lemma max_pos : 4096 <= MAX_SIZE <= 2 ^ 44.
Proof. rewrite max_pow. change 4096 with (2 ^ 12). split; apply Z.pow_le_mono_r; lia. Qed.

Lemma max_pages : MAX_SIZE = 4096 * (MAX_SIZE / 4096).
Proof.
  apply Z.div_exact; [done|]. apply Z.mod_divide; [done|]. exists (2 ^ (max_bits - 12)). rewrite max_pow. change 4096 with (2 ^ 12).
  rewrite <- Z.pow_add_r by lia. f_equal. lia.
Qed.

Lemma wrap_slot z : wrap 64 (z * MAX_SIZE) mod MAX_SIZE = 0.
Proof.
  unfold wrap. rewrite max_pow. assert (2 ^ 64 = 2 ^ (64 - max_bits) * 2 ^ max_bits) as -> by (rewrite <- Z.pow_add_r by lia; f_equal; lia).
  assert (0 < 2 ^ max_bits) by (apply Z.pow_pos_nonneg; lia). assert (0 < 2 ^ (64 - max_bits)) by (apply Z.pow_pos_nonneg; lia).
  rewrite Z.mul_mod_distr_r by lia. apply Z.mod_mul. lia.
Qed.

Lemma chk_slot z : post (chk 64 (z * MAX_SIZE)) (fun v => 0 <= v < 2 ^ 64 /\ v mod MAX_SIZE = 0 /\ (0 <= z * MAX_SIZE < 2 ^ 64 -> v = z * MAX_SIZE)).
Proof.
  intros v Ev. pose proof (chk_range 64 _ _ ltac:(lia) Ev) as Hr. split; [done|]. unfold chk in Ev.
  destruct (in_u 64 (z * MAX_SIZE)) eqn:Ei.
  - injection Ev as <-. split; [apply Z.mod_mul; pose proof max_pos; lia|done].
  - destruct overflow_checks; [discriminate|]. injection Ev as <-. split; [apply wrap_slot|]. intros Hz. apply in_u_spec in Hz. congruence.
Qed.

Lemma canonical_spec z : canonical z = true <-> 2 ^ 64 - 2 ^ 47 <= z \/ z < 2 ^ 47.
Proof. unfold canonical. rewrite orb_true_iff, !Z.leb_le. lia. Qed.

(** A range that is a slot *)
Definition slot_wf (x : Z * Z) : Prop := x.2 = x.1 + MAX_SIZE /\ x.1 mod MAX_SIZE = 0 /\ PageTableInv.region_ok x.1 x.2.

Lemma start_vaddr_post slot : post (start_vaddr MAX_SIZE slot) (fun lo => 0 <= lo < 2 ^ 64 /\ lo mod MAX_SIZE = 0 /\ canonical lo = true /\
  (0 <= slot * MAX_SIZE < 2 ^ 64 -> lo = slot * MAX_SIZE)).
Proof.
  unfold start_vaddr. eapply post_bind; [apply chk_slot|]. cbn. intros v (Hr & Hm & Hv). unfold VirtAddr_new.
  destruct (canonical v) eqn:Ec; [by apply post_ret|apply post_panic].
Qed.

Lemma slot_range_post slot : post (slot_range MAX_SIZE slot) (fun x => start_vaddr MAX_SIZE slot = Ret x.1 /\ slot_wf x).
Proof.
  unfold slot_range. apply post_any. intros lo El. destruct (start_vaddr_post slot lo El) as (Hr & Hm & Hc & _).
  unfold VirtAddr_offset, or_noncanonical, checked_add. cbn [vraw obind]. destruct (in_u 64 (lo + MAX_SIZE)) eqn:Ei; [|apply post_panic].
  unfold VirtAddr_new. destruct (canonical (lo + MAX_SIZE)) eqn:Ec; [|apply post_panic]. apply post_ret. split; [done|]. split; [done|]. split; [done|].
  cbn [fst snd vraw]. apply canonical_spec in Hc, Ec. apply in_u_spec in Ei. pose proof max_pos. unfold PageTableInv.region_ok. lia.
Qed.

Lemma cursor_post r start len : 0 <= start -> post (mapping_cursor r start len) (fun cur => cur = mkCursor ((r_range r).1 + start) len).
Proof.
  intros Hs. unfold mapping_cursor, VirtAddr_offset, or_noncanonical, checked_add. cbn [vraw obind].
  destruct (in_u 64 _); [|apply post_panic]. unfold VirtAddr_new. destruct (canonical _); [by apply post_ret|apply post_panic].
Qed.

(** The slot of an address starts the region that holds it. *)
Lemma slot_start_eq x va : slot_wf x -> x.1 <= va < x.2 -> va / MAX_SIZE * MAX_SIZE = x.1.
Proof.
  intros (Hh & Hm & _) Hva. pose proof max_pos. pose proof (Z.div_exact x.1 MAX_SIZE). 
  assert (va / MAX_SIZE = x.1 / MAX_SIZE) as -> by (symmetry; apply Z.div_unique_pos with (va - x.1); lia). lia.
Qed.

Lemma slot_of_start x lo : slot_wf x -> lo mod MAX_SIZE = 0 -> x.1 <= lo < x.2 -> lo = x.1.
Proof. intros Hx Hm Hlo. rewrite <- (slot_start_eq x lo Hx Hlo). pose proof max_pos. pose proof (Z.div_exact lo MAX_SIZE). lia. Qed.

(** ** The invariant *)
Definition covers m (page : Z) (l : Leaf) : Prop :=
  page = 0 \/ is_kernel (mkVirt (page * 4096)) = false /\
    exists r, lookup_region m (page * 4096) = Some r /\ leaf_ok r l /\ within (r_range r).1 (r_range r).2 page l.

Definition arch_ok m a : Prop := forall page l, a_leaves a !! page = Some l -> covers m page l.

Record regions_ok m : Prop := mkRegionsOk { re_rm : rm_ok m; re_wf r : r ∈ mappings m -> slot_wf (r_range r) }.

Record ctx_ok c : Prop := mkCtxOk {
  co_regions : regions_ok (x_regions c);
  co_arch sctx a : x_arches c !! sctx = Some a -> arch_ok (x_regions c) a }.

(** How often an object is mapped in a context, and how often it thinks it is *)
Definition count_of m (id : Z) : Z := zlen (ikeep (of_object id) (it_list (tree m))).
Definition obj_ctxs s (id cid : Z) : Z := default 0 (v_objs s !! id ≫= fun o => o_ctxs o !! cid).

(** A slot of the memory for kernel objects *)
Definition kslot (n : Z) : Prop := 0xfffff00000000000 / MAX_SIZE <= n <= 0xffffff0000000000 / MAX_SIZE.

Record Inv s : Prop := mkInv {
  iv_ctx cid c : cid <> v_kid s -> v_ctxs s !! cid = Some c -> ctx_ok c;
  iv_count cid c id : cid <> v_kid s -> v_ctxs s !! cid = Some c -> count_of (x_regions c) id <= obj_ctxs s id cid;
  iv_bound id cid : 0 <= obj_ctxs s id cid < 2 ^ 64;
  iv_kernel c : v_ctxs s !! v_kid s = Some c -> regions_ok (x_regions c) /\
    forall r, r ∈ mappings (x_regions c) -> is_kernel (mkVirt (r_range r).1) = true;
  iv_cur : 0xfffff00000000000 / MAX_SIZE <= cur_kernel_slot (v_slots s);
  iv_nums n : n ∈ kernel_slots_nums (v_slots s) -> kslot n }.

(** States that agree on what the invariant is about *)
Record same s s' : Prop := mkSame {
  sm_ctxs : v_ctxs s' = v_ctxs s; sm_kid : v_kid s' = v_kid s; sm_slots : v_slots s' = v_slots s;
  sm_octxs id cid : obj_ctxs s' id cid = obj_ctxs s id cid }.

Lemma same_refl s : same s s.
Proof. by split. Qed.

Lemma same_trans s1 s2 s3 : same s1 s2 -> same s2 s3 -> same s1 s3.
Proof. intros [A1 A2 A3 A4] [B1 B2 B3 B4]. split; congruence. Qed.

Lemma Inv_same s s' : same s s' -> Inv s -> Inv s'.
Proof.
  intros [E1 E2 E3 E4] [I1 I2 I3 I4 I5 I6]. split; rewrite ?E1, ?E2, ?E3; [done| |intros; rewrite E4; apply I3|done..].
  intros cid c id. rewrite E4. apply I2.
Qed.

(** The tables of some security contexts of one context have changed. *)
Record arches_upd (cid : Z) (ids : list Z) (R : Arch -> Arch -> Prop) s s' : Prop := mkUpd {
  au_kid : v_kid s' = v_kid s; au_slots : v_slots s' = v_slots s; au_objs : v_objs s' = v_objs s;
  au_other cid' : cid' <> cid -> v_ctxs s' !! cid' = v_ctxs s !! cid';
  au_none : v_ctxs s !! cid = None -> v_ctxs s' !! cid = None;
  au_ctx c : v_ctxs s !! cid = Some c -> exists c', v_ctxs s' !! cid = Some c' /\ x_regions c' = x_regions c /\
    forall sctx, match x_arches c !! sctx, x_arches c' !! sctx with
                 | Some a, Some a' => (sctx ∈ ids -> R a a') /\ ((sctx ∉ ids) -> a' = a)
                 | None, None => True
                 | _, _ => False
                 end }.

Lemma with_arch_upd (R : Arch -> Arch -> Prop) s cid sctx f :
  (forall x, post (f x) (fun x' => R (t_arch x) (t_arch x'))) -> post (with_arch s cid sctx f) (arches_upd cid [sctx] R s).
Proof.
  intros Hf. unfold with_arch, get_ctx. destruct (v_ctxs s !! cid) as [c|] eqn:Ec; cbn [unwrap obind]; [|apply post_panic].
  destruct (x_arches c !! sctx) as [a|] eqn:Ea; cbn [unwrap obind]; [|apply post_panic].
  eapply post_bind; [apply Hf|]. cbn. intros x HR. apply post_ret. split; [done..| | |].
  - intros cid' Hne. cbn. by rewrite lookup_insert_ne.
  - congruence.
  - intros c0 [= <-]%(eq_trans (eq_sym Ec)). eexists. cbn. rewrite lookup_insert_eq. split; [done|]. split; [done|]. intros sctx'. cbn.
    destruct (decide (sctx' = sctx)) as [->|Hne].
    + rewrite Ea, lookup_insert_eq. split; [done|]. intros Hn. destruct Hn. by left.
    + rewrite lookup_insert_ne by done. destruct (x_arches c !! sctx'); [|done]. split; [|done]. intros Hi%list_elem_of_singleton. congruence.
Qed.

Lemma for_arches_upd (R : Arch -> Arch -> Prop) s cid ids f :
  (forall x, post (f x) (fun x' => R (t_arch x) (t_arch x'))) -> NoDup ids -> post (for_arches s cid ids f) (arches_upd cid ids R s).
Proof.
  intros Hf. revert s. induction ids as [|i ids IH]; intros s Hnd; cbn [for_arches].
  { apply post_ret. split; [done..|]. intros c Hc. exists c. split; [done|]. split; [done|]. intros sctx. destruct (x_arches c !! sctx); [|done].
    split; [intros Hi; inversion Hi|done]. }
  apply NoDup_cons in Hnd as [Hni Hnd]. eapply post_bind; [by apply with_arch_upd|]. cbn. intros s1 [K1 S1 O1 C1 N1 X1].
  eapply post_weaken; [by apply IH|]. intros s2 [K2 S2 O2 C2 N2 X2]. split; [congruence..| | |].
  - intros cid' Hne. rewrite C2, C1 by done. done.
  - auto.
  - intros c Hc. destruct (X1 c Hc) as (c1 & Hc1 & Er1 & A1), (X2 c1 Hc1) as (c2 & Hc2 & Er2 & A2). exists c2. split; [done|]. split; [congruence|].
    intros sctx. specialize (A1 sctx). specialize (A2 sctx).
    destruct (x_arches c !! sctx) as [a|], (x_arches c1 !! sctx) as [a1|], (x_arches c2 !! sctx) as [a2|]; try done.
    destruct A1 as [A1 A1'], A2 as [A2 A2']. destruct (decide (sctx = i)) as [->|Hne].
    + rewrite A2' by done. split; [intros _; apply A1; by left|]. intros Hn. destruct Hn. by left.
    + rewrite <- (A1') in * by (intros Hi%list_elem_of_singleton; congruence). split; [intros [->|Hi]%elem_of_cons; [done|by apply A2]|].
      intros Hn. apply A2'. intros Hi. apply Hn. by right.
Qed.

Lemma sctxs_nodup c : NoDup (sctxs c).
Proof. apply NoDup_fst_map_to_list. Qed.

Lemma sctxs_elem c sctx : sctx ∈ sctxs c <-> is_Some (x_arches c !! sctx).
Proof.
  unfold sctxs. split.
  - intros ([i a] & -> & Hx)%list_elem_of_fmap. apply elem_of_map_to_list in Hx. by exists a.
  - intros [a Ha]. apply list_elem_of_fmap. exists (sctx, a). split; [done|]. by apply elem_of_map_to_list.
Qed.

Lemma Inv_arches cid ids R s s' : Inv s -> arches_upd cid ids R s s' ->
  (forall c a a', cid <> v_kid s -> v_ctxs s !! cid = Some c -> arch_ok (x_regions c) a -> R a a' -> arch_ok (x_regions c) a') -> Inv s'.
Proof.
  intros [I1 I2 I3 I4 I5 I6] [K S O C N X] HR. assert (forall id cid, obj_ctxs s' id cid = obj_ctxs s id cid) as Eo by (intros; unfold obj_ctxs; by rewrite O).
  assert (forall cid' c', v_ctxs s' !! cid' = Some c' -> exists c, v_ctxs s !! cid' = Some c /\ x_regions c' = x_regions c) as Hreg.
  { intros cid' c' Hc'. destruct (decide (cid' = cid)) as [->|Hne]; [|exists c'; by rewrite <- C].
    destruct (v_ctxs s !! cid) as [c|] eqn:Ec; [|by rewrite N in Hc']. exists c. split; [done|].
    destruct (X c eq_refl) as (c'' & E'' & Er & _). rewrite Hc' in E''. by injection E'' as <-. }
  split; rewrite ?K, ?S; [| | |..].
  - intros cid' c' Hk Hc'. destruct (decide (cid' = cid)) as [->|Hne]; [|apply (I1 cid'); [done|by rewrite <- C]].
    destruct (v_ctxs s !! cid) as [c|] eqn:Ec; [|by rewrite N in Hc']. destruct (X c eq_refl) as (c'' & E'' & Er & HA). rewrite Hc' in E''. injection E'' as <-.
    destruct (I1 cid c Hk Ec) as [Hr Ha]. split; rewrite Er; [done|]. intros sctx a' Ha'. specialize (HA sctx). rewrite Ha' in HA.
    destruct (x_arches c !! sctx) as [a|] eqn:Ea; [|done]. destruct HA as [HA1 HA2]. destruct (decide (sctx ∈ ids)) as [Hi|Hn].
    + eapply HR; [done|done|by apply (Ha sctx)|by apply HA1].
    + rewrite HA2 by done. by apply (Ha sctx).
  - intros cid' c' id Hk Hc'. rewrite Eo. destruct (Hreg cid' c' Hc') as (c & Hc & ->). by apply I2.
  - intros id cid'. rewrite Eo. apply I3.
  - intros c' Hc'. destruct (Hreg _ c' Hc') as (c & Hc & ->). by apply I4.
  - done.
  - done.
Qed.

Lemma arch_ok_shrunk m x x' : shrunk x x' -> arch_ok m (t_arch x) -> arch_ok m (t_arch x').
Proof. intros [_ _ Hl] Ha page l El. by apply Ha, Hl. Qed.

Lemma Inv_shrink cid ids f s : Inv s -> NoDup ids -> (forall x, post (f x) (shrunk x)) -> post (for_arches s cid ids f) Inv.
Proof.
  intros Hi Hnd Hf. eapply post_weaken; [apply (for_arches_upd (fun a a' => forall page l, a_leaves a' !! page = Some l -> a_leaves a !! page = Some l))|]; [|done|].
  - intros x. eapply post_weaken; [apply Hf|]. by intros x' [_ _ Hl].
  - intros s' Hs'. eapply Inv_arches; [done|done|]. intros c a a' _ _ Ha HR page l Hl. by apply Ha, HR.
Qed.

(** ** Regions *)
Lemma slots_meet x y : slot_wf x -> slot_wf y -> x.1 < y.2 -> y.1 < x.2 -> x.1 = y.1.
Proof.
  intros (Hx & Mx & _) (Hy & My & _) Hlt1 Hlt2. pose proof max_pos. 
  assert (x.1 = MAX_SIZE * (x.1 / MAX_SIZE)) as Ex by (apply Z.div_exact; lia). assert (y.1 = MAX_SIZE * (y.1 / MAX_SIZE)) as Ey by (apply Z.div_exact; lia).
  rewrite Hx, Hy in *. set (p := x.1 / MAX_SIZE) in *. set (q := y.1 / MAX_SIZE) in *. rewrite Ex, Ey in *.
  destruct (Z.lt_trichotomy p q) as [Hl|[->|Hl]]; [|done|]; nia.
Qed.

Lemma elem_mappings m e : e ∈ it_list (tree m) -> i_val e ∈ mappings m.
Proof. intros He. unfold mappings. apply list_elem_of_fmap. by exists e. Qed.

Lemma count_of_perm m l : it_list (tree m) ≡ₚ l -> forall id, count_of m id = zlen (ikeep (of_object id) l).
Proof. intros Hp id. unfold count_of, zlen. by rewrite (ikeep_Permutation _ _ _ Hp). Qed.

Lemma slot_range_lo r : slot_wf (r_range r) -> (r_range r).1 < (r_range r).2.
Proof. intros (Hx & _). pose proof max_pos. lia. Qed.

Lemma insert_slot m r : regions_ok m -> slot_wf (r_range r) -> lookup_region m (r_range r).1 = None ->
  exists m', insert_region m r = Ret m' /\ regions_ok m' /\ mappings m' ≡ₚ r :: mappings m /\
    (forall b q, lookup_region m b = Some q -> lookup_region m' b = Some q) /\
    (forall id, count_of m' id = count_of m id + Z.b2z (r_obj r =? id)).
Proof.
  intros [Hm Hw] Hr Hn. assert (forall e, e ∈ it_list (tree m) -> overlaps (r_range r).1 (r_range r).2 e = false) as Hno.
  { intros e He. destruct (overlaps _ _ e) eqn:Eo; [|done]. apply overlaps_spec in Eo. pose proof (ro_range m Hm e He) as Er. pose proof (Hw _ (elem_mappings m e He)) as Hs.
    assert ((i_lo e) = (r_range r).1) as E by (rewrite Er in Hs; apply (slots_meet (range_of e) (r_range r)); [done|done|cbn; lia|cbn; lia]).
    assert (lookup_region m (r_range r).1 = Some (i_val e)) as Hl; [|congruence]. apply lookup_elem; [done|]. split; [by apply elem_mappings|].
    rewrite Er. cbn. lia. }
  destruct (insert_region_ok m r (r_range r).1 (r_range r).2) as (m' & E & Hm' & El); [done|by destruct (r_range r)|by apply slot_range_lo|..].
  { intros e He Ho. by rewrite Hno in Ho. }
  rewrite ikeep_all in El by (intros e He; by rewrite Hno). assert (mappings m' ≡ₚ r :: mappings m) as Hp.
  { unfold mappings. rewrite El, (iinsert_perm (Ival (r_range r).1 (r_range r).2 r) (it_list (tree m))). done. }
  exists m'. split; [done|]. split_and!; [split; [done|]|done| |].
  - intros q. rewrite Hp. intros [->|Hq]%elem_of_cons; [done|by apply Hw].
  - intros a q Hq. apply lookup_elem in Hq as [Hq Ha]; [|done]. apply lookup_elem; [done|]. split; [|done]. rewrite Hp. by right.
  - intros id. rewrite (count_of_perm m' (Ival (r_range r).1 (r_range r).2 r :: it_list (tree m))) by (rewrite El; apply iinsert_perm).
    cbn [ikeep]. unfold of_object at 1. cbn [i_val]. unfold count_of, zlen. destruct (r_obj r =? id); cbn [length Z.b2z]; lia.
Qed.

Lemma remove_slot m (a : Z) : regions_ok m -> exists m', remove_region m a = Ret (lookup_region m a, m') /\ regions_ok m' /\
  (forall b q, lookup_region m' b = Some q -> lookup_region m b = Some q) /\
  match lookup_region m a with
  | None => m' = mkRM (tree m') (objects m) /\ mappings m' = mappings m /\ forall id, count_of m' id = count_of m id
  | Some r => (forall b q, lookup_region m b = Some q -> lookup_region m' b = Some q \/ (r_range r).1 <= b < (r_range r).2) /\
      (forall b, (r_range r).1 <= b < (r_range r).2 -> lookup_region m' b = None) /\
      (forall id, count_of m' id = count_of m id - Z.b2z (r_obj r =? id))
  end.
Proof.
  intros [Hm Hw]. destruct (remove_region_ok m a Hm) as (m' & E & Hm' & El). exists m'. split; [done|].
  assert (forall q, q ∈ mappings m' -> q ∈ mappings m) as Hsub.
  { intros q. unfold mappings. rewrite El, !list_elem_of_fmap. intros (e & -> & [He _]%elem_ikeep). by exists e. }
  split_and!; [split; [done|intros q Hq; by apply Hw, Hsub]| |].
  { intros b q Hq. apply lookup_elem in Hq as [Hq Hb]; [|done]. apply lookup_elem; [done|]. split; [by apply Hsub|done]. }
  rewrite lookup_list in *. destruct (ifind a (it_list (tree m))) as [e|] eqn:Ef; cbn [fmap option_fmap option_map].
  - pose proof (ikeep_perm _ _ _ (ro_tree m Hm) Ef) as Hp. pose proof (ifind_elem _ _ _ Ef) as [He Hc]. apply contains_iff in Hc.
    rewrite (ro_range m Hm e He). cbn [range_of fst snd]. split_and!.
    + intros b q Hq. destruct (decide (i_lo e <= b < i_hi e)) as [Hin|Hout]; [by right|]. left. rewrite lookup_list in *. rewrite El, ifind_ikeep by apply Hm.
      destruct (ifind b (it_list (tree m))) as [f|] eqn:Eb; [|done]. destruct (contains a f) eqn:Ec; [|done]. exfalso. apply ifind_elem in Eb as [Hf Hb].
      assert (ifind a (it_list (tree m)) = Some f) as Ef' by (apply iok_ifind; [apply Hm|done|done]). rewrite Ef in Ef'. injection Ef' as <-.
      apply contains_iff in Hb. done.
    + intros b Hb. rewrite lookup_list, El, ifind_ikeep by apply Hm. rewrite (iok_ifind _ e b) by (apply Hm || done || by apply contains_iff).
      by rewrite (proj2 (contains_iff a e)) by done.
    + intros id. rewrite (count_of_perm m _ Hp). unfold count_of, zlen. rewrite El. cbn [ikeep]. unfold of_object at 2.
      destruct (r_obj (i_val e) =? id); cbn [length Z.b2z]; lia.
  - assert (ikeep (fun e => negb (contains a e)) (it_list (tree m)) = it_list (tree m)) as Ek.
    { apply ikeep_all. intros e He. apply ifind_None in Ef. rewrite Forall_forall in Ef. by rewrite Ef. }
    rewrite Ek in El. unfold remove_region in E. destruct (it_remove (tree m) a) as [[r|] t]; [by destruct (drop_range _ _)|].
    injection E as <-. cbn [tree] in El. split_and!; [done| |]; [unfold mappings|unfold count_of]; cbn [tree]; by rewrite El.
Qed.

Lemma arch_ok_mono m m' a : (forall b q, lookup_region m b = Some q -> lookup_region m' b = Some q) -> arch_ok m a -> arch_ok m' a.
Proof. intros Hl Ha page l El. destruct (Ha page l El) as [?|(Hu & r & Hr & Hok)]; [by left|]. right. split; [done|]. exists r. split; [by apply Hl|done]. Qed.

(** ** Contexts *)
Lemma obj_ctxs_put s id o id' cid : v_objs s !! id = Some o ->
  forall n, obj_ctxs (put_obj s id (set_octxs o n)) id' cid = if id' =? id then default 0 (n !! cid) else obj_ctxs s id' cid.
Proof.
  intros Ho n. unfold obj_ctxs, put_obj, set_objs. cbn [v_objs]. destruct (Z.eqb_spec id' id) as [->|Hne].
  - by rewrite lookup_insert_eq.
  - by rewrite lookup_insert_ne.
Qed.

(** One context of one object is counted differently. *)
Definition recount (id cid d : Z) s s' : Prop :=
  v_ctxs s' = v_ctxs s /\ v_kid s' = v_kid s /\ v_slots s' = v_slots s /\
  forall id' cid', obj_ctxs s' id' cid' = obj_ctxs s id' cid' + (if (id' =? id) && (cid' =? cid) then d else 0).

Lemma add_context_post s id cid : (forall id cid, 0 <= obj_ctxs s id cid < 2 ^ 64) -> obj_ctxs s id cid + 1 < 2 ^ 64 ->
  post (add_context s id cid) (recount id cid 1 s).
Proof.
  intros Hb Hlt. unfold add_context, get_obj. destruct (v_objs s !! id) as [o|] eqn:Eo; cbn [unwrap obind]; [|apply post_panic].
  unfold contexts_insert. assert (default 0 (o_ctxs o !! cid) = obj_ctxs s id cid) as Ed by (unfold obj_ctxs; by rewrite Eo).
  rewrite Ed, chk_in by (pose proof (Hb id cid); lia). cbn [obind]. apply post_ret. split_and!; [done..|]. intros id' cid'. rewrite (obj_ctxs_put s id o) by done.
  destruct (Z.eqb_spec id' id) as [->|Hne]; cbn [andb]; [|lia]. destruct (Z.eqb_spec cid' cid) as [->|Hnc].
  - by rewrite lookup_insert_eq.
  - rewrite lookup_insert_ne by done. unfold obj_ctxs. rewrite Eo. cbn. lia.
Qed.

Lemma remove_context_post s id cid : (forall id cid, 0 <= obj_ctxs s id cid < 2 ^ 64) -> 1 <= obj_ctxs s id cid ->
  post (remove_context s id cid) (recount id cid (-1) s).
Proof.
  intros Hb Hge. unfold remove_context, get_obj. destruct (v_objs s !! id) as [o|] eqn:Eo; cbn [unwrap obind]; [|apply post_panic].
  unfold contexts_remove. assert (default 0 (o_ctxs o !! cid) = obj_ctxs s id cid) as Ed by (unfold obj_ctxs; by rewrite Eo).
  destruct (o_ctxs o !! cid) as [n|] eqn:En; cbn in Ed; [|lia]. subst n. rewrite chk_in by (pose proof (Hb id cid); lia). cbn [obind].
  apply post_ret. split_and!; [done..|]. intros id' cid'. rewrite (obj_ctxs_put s id o) by done.
  destruct (Z.eqb_spec id' id) as [->|Hne]; cbn [andb]; [|lia]. destruct (Z.eqb_spec cid' cid) as [->|Hnc].
  - destruct (Z.eqb_spec (obj_ctxs s id cid - 1) 0); [rewrite lookup_delete_eq|rewrite lookup_insert_eq]; cbn; lia.
  - replace (default 0 _) with (obj_ctxs s id cid'); [lia|]. unfold obj_ctxs. rewrite Eo. cbn.
    by destruct (_ =? 0); rewrite ?lookup_delete_ne, ?lookup_insert_ne.
Qed.

Lemma Inv_recount id cid d s s' : Inv s -> recount id cid d s s' -> 0 <= obj_ctxs s id cid + d < 2 ^ 64 ->
  (forall c, cid <> v_kid s -> v_ctxs s !! cid = Some c -> count_of (x_regions c) id <= obj_ctxs s id cid + d) -> Inv s'.
Proof.
  intros [I1 I2 I3 I4 I5 I6] (Ec & Ek & Es & Eo) Hb Hc. split; rewrite ?Ec, ?Ek, ?Es; [done| | |done..].
  - intros cid' c id' Hk Hx. rewrite Eo. pose proof (I2 cid' c id' Hk Hx). destruct (Z.eqb_spec id' id) as [->|]; cbn [andb]; [|lia].
    destruct (Z.eqb_spec cid' cid) as [->|]; [|lia]. by apply Hc.
  - intros id' cid'. rewrite Eo. pose proof (I3 id' cid'). destruct (Z.eqb_spec id' id) as [->|]; cbn [andb]; [|lia].
    destruct (Z.eqb_spec cid' cid) as [->|]; [done|lia].
Qed.

Lemma Inv_put s cid c : Inv s ->
  (cid <> v_kid s -> ctx_ok c /\ forall id, count_of (x_regions c) id <= obj_ctxs s id cid) ->
  (cid = v_kid s -> regions_ok (x_regions c) /\ forall r, r ∈ mappings (x_regions c) -> is_kernel (mkVirt (r_range r).1) = true) -> Inv (put_ctx s cid c).
Proof.
  intros [I1 I2 I3 I4 I5 I6] Hu Hk. split; cbn [put_ctx set_ctxs v_kid v_ctxs v_slots]; [| |done| |done..].
  - intros cid' c' Hne. destruct (decide (cid' = cid)) as [->|Hn]; [|rewrite lookup_insert_ne by done; by apply I1].
    rewrite lookup_insert_eq. intros [= <-]. by apply Hu.
  - intros cid' c' id Hne Hc'. change (count_of (x_regions c') id <= obj_ctxs s id cid'). revert Hc'.
    destruct (decide (cid' = cid)) as [->|Hn]; [|rewrite lookup_insert_ne by done; by apply I2].
    rewrite lookup_insert_eq. intros [= <-]. by apply Hu.
  - intros c'. destruct (decide (v_kid s = cid)) as [<-|Hn]; [|rewrite lookup_insert_ne by done; by apply I4].
    rewrite lookup_insert_eq. intros [= <-]. by apply Hk.
Qed.

Lemma arch_new_ok m : arch_ok m (arch_new trap).
Proof. intros page l. cbn. rewrite lookup_singleton_Some. intros [<- _]. by left. Qed.

Lemma register_Inv s cid sctx : Inv s -> post (register_sctx s cid sctx (arch_new trap)) Inv.
Proof.
  intros Hi. unfold register_sctx, get_ctx. destruct (v_ctxs s !! cid) as [c|] eqn:Ec; cbn [unwrap obind]; [|apply post_panic].
  destruct (bool_decide _); [by apply post_ret|]. apply post_ret, Inv_put; [done| |].
  - intros Hk. pose proof (iv_ctx s Hi cid c Hk Ec) as [Hr Ha]. split; [split; [done|]|intros id; exact (iv_count s Hi cid c id Hk Ec)].
    cbn. intros sctx' a. destruct (decide (sctx' = sctx)) as [->|Hne]; [|rewrite lookup_insert_ne by done; apply Ha].
    rewrite lookup_insert_eq. intros [= <-]. apply arch_new_ok.
  - intros ->. exact (iv_kernel s Hi c Ec).
Qed.

Lemma rm_new_regions : regions_ok rm_new.
Proof. split; [apply rm_new_ok|]. intros r. unfold mappings, rm_new. cbn [tree]. rewrite it_new_spec. intros Hr. inversion Hr. Qed.

Lemma ctx_new_Inv s cid : Inv s -> v_ctxs s !! cid = None -> post (ctx_new trap s cid) Inv.
Proof.
  intros Hi Hn. unfold ctx_new. apply register_Inv, Inv_put; [done| |].
  - intros _. split; [split; [apply rm_new_regions|intros sctx a; cbn; by rewrite lookup_empty]|]. intros id. cbn [x_regions].
    unfold count_of, rm_new. cbn [tree]. rewrite it_new_spec. cbn. apply (iv_bound s Hi).
  - intros _. split; [apply rm_new_regions|]. intros r. unfold mappings, rm_new. cbn [x_regions tree]. rewrite it_new_spec. intros Hr. inversion Hr.
Qed.

(** ** Mapping and unmapping objects *)
Lemma shadow_same s x : same s (set_shadows s x).
Proof. by split. Qed.

Lemma tables_same s k p : same s (set_tables s k p).
Proof. by split. Qed.

Lemma insert_object_Inv s cid slot info : Inv s -> cid <> v_kid s -> obj_ctxs s (i_obj info) cid + 1 < 2 ^ 64 ->
  post (insert_object MAX_SIZE s cid slot info) (fun x => Inv x.1).
Proof.
  intros Hi Hk Hb. unfold insert_object.
  apply (post_bind _ _ (fun x => same s x.1)).
  { destruct (has _ STABLE); [|apply post_ret, same_refl]. apply post_any. intros t _. apply post_ret, shadow_same. }
  intros [s1 shadow] Hs1. cbn [fst] in Hs1. apply post_any. intros range Er. destruct (slot_range_post slot range Er) as [Est Hwf].
  destruct (if negb _ && _ then _ else _) as [s2 region] eqn:E2.
  assert (same s s2 /\ r_range region = range /\ r_obj region = i_obj info) as (Hs2 & Hrr & Hro).
  { destruct (negb _ && _); injection E2 as <- <-; split_and!; try done. eapply same_trans; [done|apply tables_same]. }
  clear E2. pose proof (Inv_same s s2 Hs2 Hi) as Hi2. destruct Hs2 as [E1 E2 E3 E4].
  eapply post_bind; [apply add_context_post; [apply (iv_bound s2 Hi2)|by rewrite E4]|]. cbn. intros s3 H3.
  assert (Inv s3) as Hi3.
  { eapply Inv_recount; [done|done|pose proof (iv_bound s2 Hi2 (i_obj info) cid); rewrite E4 in *; lia|].
    intros c Hk2 Hc. pose proof (iv_count s2 Hi2 cid c (i_obj info) Hk2 Hc). lia. }
  destruct H3 as (C3 & K3 & S3 & O3). unfold get_ctx. destruct (v_ctxs s3 !! cid) as [c|] eqn:Ec; cbn [unwrap obind]; [|apply post_panic].
  rewrite Est. cbn [obind]. destruct (lookup_region (x_regions c) range.1) as [q|] eqn:El; [by apply post_ret|].
  assert (cid <> v_kid s3) as Hk3 by congruence. pose proof (iv_ctx s3 Hi3 cid c Hk3 Ec) as [Hreg Harch].
  destruct (insert_slot (x_regions c) region) as (m' & -> & Hreg' & Hp & Hmono & Hcnt); [done|by rewrite Hrr|by rewrite Hrr|].
  cbn [obind]. apply post_ret. cbn [fst]. apply Inv_put; [done| |done]. intros _. split; [split; [done|]|].
  - cbn. intros sctx a Ha. eapply arch_ok_mono; [done|by apply (Harch sctx)].
  - cbn. intros id. rewrite Hcnt, Hro, O3, Z.eqb_refl, andb_true_r. pose proof (iv_count s2 Hi2 cid c id) as Hx. rewrite C3 in Ec. specialize (Hx ltac:(congruence) Ec).
    rewrite (Z.eqb_sym (i_obj info) id). destruct (id =? i_obj info); cbn [Z.b2z]; lia.
Qed.

Lemma sys_map_Inv s cid slot obj prot flags : Inv s -> cid <> v_kid s -> obj_ctxs s obj cid + 1 < 2 ^ 64 ->
  post (sys_object_map MAX_SIZE s slot obj cid prot flags) (fun x => Inv x.1).
Proof.
  intros Hi Hk Hb. unfold sys_object_map. eapply (post_bind _ _ (fun x => Inv x.1)); [|by intros [s' r] Hs'; apply post_ret].
  unfold map_object_into_context. apply post_any. intros [n|] _; [by apply insert_object_Inv|by apply post_ret].
Qed.

(** The leaves of a range are gone, and none are new. *)
Definition unmapped (lo hi : Z) a a' : Prop :=
  (forall page l, a_leaves a' !! page = Some l -> a_leaves a !! page = Some l) /\
  forall page, page <> 0 -> lo <= page * 4096 < hi -> a_leaves a' !! page = None.

Lemma arch_unmap_post lo hi x : PageTableInv.region_ok lo hi ->
  post (arch_unmap x (mkCursor lo (hi - lo))) (fun x' => is_kernel (mkVirt lo) = false -> unmapped lo hi (t_arch x) (t_arch x')).
Proof.
  intros Hr x' Ex Hk. split; [by apply arch_unmap_shrunk in Ex as [_ _ Hl]|]. intros page Hne Hp. by eapply arch_unmap_gone.
Qed.

(** Regions in kernel memory do not cover leaves of the user half. *)
Lemma arch_unmap_range r x : slot_wf (r_range r) ->
  post (let! cur := mapping_cursor r 0 MAX_SIZE in arch_unmap x cur) (fun x' => shrunk x x' /\ (is_kernel (mkVirt (r_range r).1) = false -> unmapped (r_range r).1 (r_range r).2 (t_arch x) (t_arch x'))).
Proof.
  intros (Hh & Hm & Hr). eapply post_bind; [by apply cursor_post|]. cbn. intros cur ->. rewrite Z.add_0_r. intros x' Ex.
  split; [by apply arch_unmap_shrunk in Ex|]. apply (arch_unmap_post _ _ x Hr). rewrite <- Ex. do 2 f_equal. lia.
Qed.

(** The regions and the tables of a context have changed together. *)
Lemma Inv_replace cid c m R s s' : Inv s -> cid <> v_kid s -> v_ctxs s !! cid = Some c ->
  arches_upd cid (sctxs c) R (put_ctx s cid (set_regions c m)) s' -> regions_ok m ->
  (forall id, count_of m id <= obj_ctxs s id cid) -> (forall a a', arch_ok (x_regions c) a -> R a a' -> arch_ok m a') -> Inv s'.
Proof.
  intros [I1 I2 I3 I4 I5 I6] Hk Hc [K S O C N X] Hm Hcnt HR. cbn [put_ctx set_ctxs v_kid v_slots v_objs v_ctxs] in *.
  assert (forall id cid, obj_ctxs s' id cid = obj_ctxs s id cid) as Eo by (intros; unfold obj_ctxs; by rewrite O).
  destruct (X (set_regions c m)) as (c' & Hc' & Er & HA); [by rewrite lookup_insert_eq|]. cbn in Er.
  assert (forall cid', cid' <> cid -> v_ctxs s' !! cid' = v_ctxs s !! cid') as Hother by (intros; rewrite C, lookup_insert_ne by done; done).
  split; rewrite ?K, ?S; [| | | |done..].
  - intros cid' c'' Hne Hc''. destruct (decide (cid' = cid)) as [->|Hn]; [|apply (I1 cid'); [done|by rewrite <- Hother]].
    rewrite Hc' in Hc''. injection Hc'' as <-. split; rewrite Er; [done|]. intros sctx a' Ha'. specialize (HA sctx). rewrite Ha' in HA.
    cbn in HA. destruct (x_arches c !! sctx) as [a|] eqn:Ea; [|done]. destruct HA as [HA _].
    eapply HR; [by apply (co_arch c (I1 cid c Hk Hc) sctx)|]. apply HA, sctxs_elem. by exists a.
  - intros cid' c'' id Hne Hc''. rewrite Eo. destruct (decide (cid' = cid)) as [->|Hn]; [|apply (I2 cid'); [done|by rewrite <- Hother]].
    rewrite Hc' in Hc''. injection Hc'' as <-. by rewrite Er.
  - intros id cid'. rewrite Eo. apply I3.
  - intros c''. rewrite Hother by done. apply I4.
Qed.

Lemma remove_object_Inv s cid slot : Inv s -> cid <> v_kid s -> post (remove_object MAX_SIZE s cid slot) Inv.
Proof.
  intros Hi Hk. unfold remove_object, get_ctx. destruct (v_ctxs s !! cid) as [c|] eqn:Ec; cbn [unwrap obind]; [|apply post_panic].
  apply post_any. intros start _. pose proof (iv_ctx s Hi cid c Hk Ec) as [Hreg Harch].
  destruct (remove_slot (x_regions c) start Hreg) as (m & -> & Hreg' & Hsub & Hcase). cbn [obind].
  destruct (lookup_region (x_regions c) start) as [r|] eqn:El.
  2:{ destruct Hcase as (_ & Hmap & Hcnt). apply post_ret, Inv_put; [done| |done]. intros _. split; [split; [done|]|].
      - cbn. intros sctx a Ha. eapply arch_ok_mono; [|by apply (Harch sctx)]. intros b q Hq. apply lookup_elem in Hq as [Hq Hb]; [|apply Hreg].
        apply lookup_elem; [apply Hreg'|]. by rewrite Hmap.
      - cbn. intros id. rewrite Hcnt. by apply (iv_count s Hi). }
  destruct Hcase as (Hkeep & Hgone & Hcnt). assert (r ∈ mappings (x_regions c)) as Hin by (apply lookup_elem in El as [? _]; [done|apply Hreg]).
  pose proof (re_wf _ Hreg r Hin) as Hwf. eapply post_bind; [by apply cursor_post|]. cbn. intros cur ->.
  eapply post_bind.
  { apply (for_arches_upd (fun a a' => (forall page l, a_leaves a' !! page = Some l -> a_leaves a !! page = Some l) /\
      (is_kernel (mkVirt (r_range r).1) = false -> unmapped (r_range r).1 (r_range r).2 a a'))); [|apply sctxs_nodup].
    intros x x' Ex. pose proof (arch_unmap_shrunk _ _ _ Ex) as [_ _ Hl]. split; [exact Hl|]. destruct Hwf as (Hh & _ & Hrok).
    apply (arch_unmap_post _ _ x Hrok). rewrite <- Ex. do 2 f_equal; lia. }
  cbn. intros s2 Hu. assert (1 <= count_of (x_regions c) (r_obj r)) as Hpos.
  { specialize (Hcnt (r_obj r)). rewrite Z.eqb_refl in Hcnt. cbn [Z.b2z] in Hcnt. assert (0 <= count_of m (r_obj r)) by (unfold count_of, zlen; lia). lia. }
  pose proof (iv_count s Hi cid c (r_obj r) Hk Ec) as Hge.
  assert (Inv s2) as Hi2.
  { eapply (Inv_replace cid c m _ s s2); [done|done|done|exact Hu|done| |].
    - intros id. rewrite Hcnt. pose proof (iv_count s Hi cid c id Hk Ec). destruct (r_obj r =? id); cbn [Z.b2z]; lia.
    - intros a a' Ha [Hsubl Hun] page l Hl. destruct (decide (page = 0)) as [->|Hne]; [by left|]. destruct (Ha page l (Hsubl page l Hl)) as [?|(Hus & q & Hq & Hok)]; [by left|]. right. split; [done|]. exists q. split; [|done].
      destruct (Hkeep _ _ Hq) as [?|Hrange]; [done|]. exfalso. destruct (is_kernel (mkVirt (r_range r).1)) eqn:Ekr.
      + apply is_kernel_iff in Ekr. assert (is_kernel (mkVirt (page * 4096)) = true) by (apply is_kernel_iff; lia). congruence.
      + by rewrite (proj2 (Hun eq_refl) page Hne Hrange) in Hl. }
  assert (v_ctxs s2 !! cid <> None /\ obj_ctxs s2 (r_obj r) cid = obj_ctxs s (r_obj r) cid) as [_ Eo].
  { destruct Hu as [K S O C N X]. split; [|unfold obj_ctxs; by rewrite O]. destruct (X (set_regions c m)) as (c' & Hc' & _); [by apply lookup_insert_eq|congruence]. }
  intros s3 E3. eapply (Inv_recount (r_obj r) cid (-1) s2); [done| |pose proof (iv_bound s Hi (r_obj r) cid); lia|].
  - eapply remove_context_post; [apply (iv_bound s2 Hi2)|lia|exact E3].
  - intros c' Hk' Hc'. destruct Hu as [K S O C N X]. destruct (X (set_regions c m)) as (c'' & Hc'' & Er & _); [by apply lookup_insert_eq|].
    rewrite Hc' in Hc''. injection Hc'' as <-. rewrite Er. cbn. rewrite Hcnt, Z.eqb_refl. cbn [Z.b2z]. lia.
Qed.

(** ** Dropping a context *)
Definition times (rs : list MapRegion) (id : Z) : Z := zlen (List.filter (fun r => r_obj r =? id) rs).

Lemma times_mappings m id : times (mappings m) id = count_of m id.
Proof.
  unfold times, count_of, mappings, of_object, zlen. induction (it_list (tree m)) as [|e l IH]; cbn; [done|].
  destruct (r_obj (i_val e) =? id); cbn [length]; lia.
Qed.

Lemma remove_contexts_post s cid rs : (forall id cid, 0 <= obj_ctxs s id cid < 2 ^ 64) -> (forall id, times rs id <= obj_ctxs s id cid) ->
  post (remove_contexts s cid rs) (fun s' => v_ctxs s' = v_ctxs s /\ v_kid s' = v_kid s /\ v_slots s' = v_slots s /\
    (forall id cid', cid' <> cid -> obj_ctxs s' id cid' = obj_ctxs s id cid') /\ forall id cid', 0 <= obj_ctxs s' id cid' < 2 ^ 64).
Proof.
  revert s. induction rs as [|r rs IH]; intros s Hb Ht; cbn [remove_contexts]; [by apply post_ret|].
  assert (forall id, times (r :: rs) id = times rs id + Z.b2z (r_obj r =? id)) as Et.
  { intros id. unfold times, zlen. cbn. destruct (r_obj r =? id); cbn [length Z.b2z]; lia. }
  assert (forall id, 0 <= times rs id) as Hnn by (intros; unfold times, zlen; lia).
  pose proof (Ht (r_obj r)) as Hr. rewrite Et, Z.eqb_refl in Hr. cbn [Z.b2z] in Hr. pose proof (Hnn (r_obj r)).
  eapply post_bind; [apply remove_context_post; [done|lia]|]. cbn. intros s1 (C1 & K1 & S1 & O1).
  assert (forall id cid, 0 <= obj_ctxs s1 id cid < 2 ^ 64) as Hb1.
  { intros id cid'. rewrite O1. pose proof (Hb id cid'). destruct (Z.eqb_spec id (r_obj r)) as [->|]; cbn [andb]; [|lia].
    destruct (Z.eqb_spec cid' cid) as [->|]; lia. }
  eapply post_weaken; [apply IH; [done|]|].
  - intros id. rewrite O1, Z.eqb_refl, andb_true_r. pose proof (Ht id) as Hid. rewrite Et, Z.eqb_sym in Hid. destruct (id =? r_obj r); cbn [Z.b2z] in Hid; lia.
  - cbn. intros s2 (C2 & K2 & S2 & O2 & B2). split_and!; [congruence..| |done]. intros id cid' Hne. rewrite O2, O1 by done.
    rewrite (proj2 (Z.eqb_neq cid' cid)), andb_false_r by done. lia.
Qed.

Lemma ctx_drop_Inv s cid : Inv s -> cid <> v_kid s -> post (ctx_drop s cid) Inv.
Proof.
  intros Hi Hk. unfold ctx_drop, get_ctx. destruct (v_ctxs s !! cid) as [c|] eqn:Ec; cbn [unwrap obind]; [|apply post_panic].
  eapply post_bind; [apply remove_contexts_post; [apply (iv_bound s Hi)|]|].
  { intros id. rewrite times_mappings. by apply (iv_count s Hi). }
  cbn. intros s1 (C1 & K1 & S1 & O1 & B1). apply post_ret. destruct Hi as [I1 I2 I3 I4 I5 I6].
  split; cbn [set_ctxs v_ctxs v_kid v_slots]; rewrite ?C1, ?K1, ?S1; [| | | |done..].
  - intros cid' c' Hne [Hn Hc']%lookup_delete_Some. by apply (I1 cid').
  - intros cid' c' id Hne [Hn Hc']%lookup_delete_Some. change (count_of (x_regions c') id <= obj_ctxs s1 id cid'). rewrite O1 by done. by apply I2.
  - exact B1.
  - intros c' [_ Hc']%lookup_delete_Some. by apply I4.
Qed.

(** ** Objects mapped for the kernel *)
Lemma take_kernel_slot_post s : Inv s -> post (take_kernel_slot MAX_SIZE (v_slots s)) (fun x => kslot x.1 /\
  0xfffff00000000000 / MAX_SIZE <= cur_kernel_slot x.2 /\ forall n, n ∈ kernel_slots_nums x.2 -> kslot n).
Proof.
  intros Hi. unfold take_kernel_slot. destruct (last (kernel_slots_nums (v_slots s))) as [n|] eqn:El.
  - apply post_ret. cbn [fst snd cur_kernel_slot kernel_slots_nums]. apply last_Some in El as [l El]. split_and!; [|apply (iv_cur s Hi)|].
    + apply (iv_nums s Hi). rewrite El. apply elem_of_app. right. by left.
    + intros k Hk. apply (iv_nums s Hi). rewrite El in *. rewrite removelast_last in Hk. apply elem_of_app. by left.
  - apply post_any. intros next En. replace (VirtAddr_offset end_kernel_object_memory (Isize (-1))) with (Ret (Ok (mkVirt 0xfffffeffffffffff)) : outcome (result VirtAddr NonCanonical)) by (by vm_compute; destruct overflow_checks).
    cbn [obind]. replace (slot_of_addr MAX_SIZE (mkVirt 0xfffffeffffffffff)) with (Some (0xfffffeffffffffff / MAX_SIZE)) by done. cbn [unwrap obind].
    apply post_any. intros u Eu. destruct (Z.ltb_spec (0xfffffeffffffffff / MAX_SIZE) (cur_kernel_slot (v_slots s))) as [|Hle]; [done|].
    pose proof (iv_cur s Hi) as Hc. pose proof max_pos as Hmax. assert (0 <= 0xfffff00000000000 / MAX_SIZE) by (apply Z.div_pos; lia).
    assert (0xfffffeffffffffff / MAX_SIZE <= 0xffffff0000000000 / MAX_SIZE) by (apply Z.div_le_mono; lia).
    assert (0xffffff0000000000 / MAX_SIZE <= 0xffffff0000000000) by (apply Z.div_le_upper_bound; nia).
    rewrite chk_in in En by lia. injection En as <-. apply post_ret. cbn [fst snd cur_kernel_slot kernel_slots_nums]. unfold kslot. split_and!; [lia..|].
    intros k Hk. inversion Hk.
Qed.

Lemma kslot_kernel n lo : kslot n -> start_vaddr MAX_SIZE n = Ret lo -> is_kernel (mkVirt lo) = true.
Proof.
  intros [H1' H2'] El. destruct (start_vaddr_post n lo El) as (_ & _ & _ & Hlo). pose proof max_pos. apply is_kernel_iff.
  pose proof (Z.mul_div_le 0xffffff0000000000 MAX_SIZE). pose proof (Z.mul_succ_div_gt 0xfffff00000000000 MAX_SIZE).
  assert (n * MAX_SIZE <= 0xffffff0000000000) by nia. assert (0xfffff00000000000 - MAX_SIZE < n * MAX_SIZE) by nia.
  rewrite Hlo by lia. lia.
Qed.

Lemma insert_any m r : regions_ok m -> slot_wf (r_range r) ->
  post (insert_region m r) (fun m' => regions_ok m' /\ forall q, q ∈ mappings m' -> q = r \/ q ∈ mappings m).
Proof.
  intros [Hm Hw] Hr. set (p := fun e => overlaps (r_range r).1 (r_range r).2 e && negb (r_obj (i_val e) =? r_obj r)).
  destruct (ikeep p (it_list (tree m))) as [|e l] eqn:Ek.
  - apply ikeep_nil in Ek. rewrite Forall_forall in Ek.
    destruct (insert_region_ok m r (r_range r).1 (r_range r).2) as (m' & -> & Hm' & El); [done|by destruct (r_range r)|by apply slot_range_lo| |].
    { intros e He Ho. specialize (Ek e He). unfold p in Ek. rewrite Ho in Ek. cbn in Ek. by apply negb_false_iff, Z.eqb_eq in Ek. }
    apply post_ret. assert (forall q, q ∈ mappings m' -> q = r \/ q ∈ mappings m) as Hq.
    { intros q (e & -> & He)%list_elem_of_fmap. rewrite El in He. apply elem_iinsert in He as [->|[He _]%elem_ikeep]; [by left|right; by apply elem_mappings]. }
    split; [|done]. split; [done|]. intros q Hin. destruct (Hq q Hin) as [->|?]; [done|by apply Hw].
  - assert (e ∈ ikeep p (it_list (tree m))) as He by (rewrite Ek; left). apply elem_ikeep in He as [He [Ho Hne]%andb_prop].
    apply negb_true_iff, Z.eqb_neq in Hne. rewrite (insert_region_panic m r (r_range r).1 (r_range r).2 e); [apply post_panic|done|by destruct (r_range r)|done..].
Qed.

Lemma Inv_slots s k : Inv s -> 0xfffff00000000000 / MAX_SIZE <= cur_kernel_slot k -> (forall n, n ∈ kernel_slots_nums k -> kslot n) -> Inv (set_slots s k).
Proof. intros [I1 I2 I3 I4 I5 I6] Hc Hn. by split. Qed.

Lemma insert_kernel_Inv s info : Inv s -> post (insert_kernel_object MAX_SIZE s info) (fun x => Inv x.1).
Proof.
  intros Hi. unfold insert_kernel_object. eapply post_bind; [by apply take_kernel_slot_post|]. intros [slot k] (Hks & Hcur & Hnums). cbn [fst snd] in *.
  apply post_any. intros range Er. destruct (slot_range_post slot range Er) as [Est Hwf]. unfold get_ctx.
  destruct (v_ctxs s !! v_kid s) as [c|] eqn:Ec; cbn [unwrap obind]; [|apply post_panic]. destruct (iv_kernel s Hi c Ec) as [Hreg Hker].
  eapply post_bind; [by apply insert_any|]. cbn. intros m' [Hreg' Hq]. apply post_ret. cbn [fst]. apply Inv_put; [by apply Inv_slots|done|].
  intros _. cbn. split; [done|]. intros r Hr. destruct (Hq r Hr) as [->|?]; [|by apply Hker]. cbn. by eapply kslot_kernel.
Qed.

Lemma kernel_drop_Inv s slot : Inv s -> kslot slot -> post (kernel_handle_drop MAX_SIZE s slot) Inv.
Proof.
  intros Hi Hks. unfold kernel_handle_drop, get_ctx. destruct (v_ctxs s !! v_kid s) as [c|] eqn:Ec; cbn [unwrap obind]; [|apply post_panic].
  destruct (iv_kernel s Hi c Ec) as [Hreg Hker]. apply post_any. intros start _.
  destruct (remove_slot (x_regions c) start Hreg) as (m & -> & Hreg' & Hsub & _). cbn [obind]. apply post_any. intros lo _.
  assert (Inv (put_ctx s (v_kid s) (set_regions c m))) as Hi1.
  { apply Inv_put; [done|done|]. intros _. cbn. split; [done|]. intros r Hr. apply Hker.
    assert (lookup_region m (r_range r).1 = Some r) as Hl.
    { apply lookup_elem; [apply Hreg'|]. split; [done|]. pose proof (slot_range_lo r (re_wf _ Hreg' r Hr)). lia. }
    apply Hsub, lookup_elem in Hl as [? _]; [done|apply Hreg]. }
  eapply post_bind; [apply (with_arch_upd (fun _ _ => True)); by intros x x' _|]. cbn. intros s2 Hu.
  assert (Inv s2) as Hi2 by (eapply Inv_arches; [done|exact Hu|by intros c' a a' Hk]).
  apply post_ret, Inv_slots; [done|apply (iv_cur s2 Hi2)|]. cbn. intros n [Hn|Hn%list_elem_of_singleton]%elem_of_app; [by apply (iv_nums s2 Hi2)|by subst n].
Qed.

(** ** Invalidation *)
Definition bad (mode : InvalidateMode) (l : Leaf) : Prop := match mode with Full => True | WriteProtect => p_write (perms (lf_set l)) = true end.

(** Tables change only towards what a mode asks for. *)
Definition toward (mode : InvalidateMode) a a' : Prop :=
  forall page l, a_leaves a' !! page = Some l -> exists l0, a_leaves a !! page = Some l0 /\ (bad mode l -> bad mode l0).

Record mono (mode : InvalidateMode) s s' : Prop := mkMono {
  mo_kid : v_kid s' = v_kid s; mo_objs : v_objs s' = v_objs s;
  mo_ctx cid c' : v_ctxs s' !! cid = Some c' -> exists c, v_ctxs s !! cid = Some c /\ tree (x_regions c') = tree (x_regions c) /\
    forall sctx a', x_arches c' !! sctx = Some a' -> exists a, x_arches c !! sctx = Some a /\ toward mode a a' }.

Lemma toward_refl mode a : toward mode a a.
Proof. intros page l Hl. by exists l. Qed.

Lemma mono_refl mode s : mono mode s s.
Proof. split; [done..|]. intros cid c Hc. exists c. split; [done|]. split; [done|]. intros sctx a Ha. exists a. split; [done|apply toward_refl]. Qed.

Lemma mono_trans mode s1 s2 s3 : mono mode s1 s2 -> mono mode s2 s3 -> mono mode s1 s3.
Proof.
  intros [K1 O1 C1] [K2 O2 C2]. split; [congruence..|]. intros cid c3 Hc3. destruct (C2 cid c3 Hc3) as (c2 & Hc2 & E2 & A2), (C1 cid c2 Hc2) as (c1 & Hc1 & E1 & A1).
  exists c1. split; [done|]. split; [congruence|]. intros sctx a3 Ha3. destruct (A2 sctx a3 Ha3) as (a2 & Ha2 & T2), (A1 sctx a2 Ha2) as (a1 & Ha1 & T1).
  exists a1. split; [done|]. intros page l Hl. destruct (T2 page l Hl) as (l2 & Hl2 & B2), (T1 page l2 Hl2) as (l1 & Hl1 & B1). exists l1. split; [done|auto].
Qed.

Lemma upd_mono mode cid ids (R : Arch -> Arch -> Prop) s s' : (forall a a', R a a' -> toward mode a a') -> arches_upd cid ids R s s' -> mono mode s s'.
Proof.
  intros HR [K S O C N X]. split; [done..|]. intros cid' c' Hc'. destruct (decide (cid' = cid)) as [->|Hne].
  - destruct (v_ctxs s !! cid) as [c|] eqn:Ec; [|by rewrite N in Hc']. destruct (X c eq_refl) as (c'' & Hc'' & Er & HA). rewrite Hc' in Hc''. injection Hc'' as <-.
    exists c. split; [done|]. split; [by rewrite Er|]. intros sctx a' Ha'. specialize (HA sctx). rewrite Ha' in HA. destruct (x_arches c !! sctx) as [a|]; [|done].
    exists a. split; [done|]. destruct HA as [H1' H2']. destruct (decide (sctx ∈ ids)); [by apply HR, H1'|]. rewrite H2' by done. apply toward_refl.
  - rewrite C in Hc' by done. exists c'. split; [done|]. split; [done|]. intros sctx a Ha. exists a. split; [done|apply toward_refl].
Qed.

(** No page of a range is mapped as the mode forbids. *)
Definition clean (mode : InvalidateMode) (cid lo hi : Z) s : Prop := forall c sctx a page l, v_ctxs s !! cid = Some c -> x_arches c !! sctx = Some a ->
  page <> 0 -> lo <= page * 4096 < hi -> a_leaves a !! page = Some l -> ~ bad mode l.

Lemma clean_mono mode cid lo hi s s' : mono mode s s' -> clean mode cid lo hi s -> clean mode cid lo hi s'.
Proof.
  intros [_ _ C] Hs c' sctx a' page l Hc' Ha' Hne Hr Hl Hb. destruct (C cid c' Hc') as (c & Hc & _ & A), (A sctx a' Ha') as (a & Ha & Ht), (Ht page l Hl) as (l0 & Hl0 & Hb0).
  by eapply (Hs c sctx a page l0); auto.
Qed.

Record inv_rel (mode : InvalidateMode) (r : MapRegion) (start len : Z) (kern : bool) a a' : Prop := mkInvRel {
  ir_toward : toward mode a a';
  ir_clean page l : is_kernel (mkVirt (r_range r).1) = false -> page <> 0 -> (r_range r).1 + start <= page * 4096 < (r_range r).1 + start + len ->
    a_leaves a' !! page = Some l -> ~ bad mode l;
  ir_ok m : kern = false -> regions_ok m -> r ∈ mappings m -> arch_ok m a -> arch_ok m a' }.

Lemma write_protected r kern : p_write (perms (PageTableRead.stored (mapping_settings r true kern))) = false.
Proof. change (has (mapping_perms r true) WRITE = false). by rewrite has_write, mapping_perms_write. Qed.

Lemma user_offset r start len : slot_wf (r_range r) -> 0 <= start -> start + len <= MAX_SIZE -> is_kernel (mkVirt (r_range r).1) = false ->
  0 < len -> PageTableInv.region_ok ((r_range r).1 + start) ((r_range r).1 + start + len) /\ is_kernel (mkVirt ((r_range r).1 + start)) = false.
Proof.
  intros (Hh & _ & Hr) Hs Hl Hk Hpos. pose proof (user_region _ _ Hr Hk). destruct Hr as [Hr _]. split; [unfold PageTableInv.region_ok; lia|].
  destruct (is_kernel (mkVirt ((r_range r).1 + start))) eqn:E; [|done]. apply is_kernel_iff in E. lia.
Qed.

(** A leaf that a cursor inside a region meets is a leaf of that region. *)
Lemma meets_region m r q (cur : MappingCursor) page l : regions_ok m -> r ∈ mappings m -> lookup_region m (page * 4096) = Some q ->
  within (r_range q).1 (r_range q).2 page l -> (r_range r).1 <= c_start cur -> c_end cur <= (r_range r).2 -> meets cur page l = true -> q = r.
Proof.
  intros Hm Hr Hq [Hw1 Hw2] Hlo Hhi Hmeet. unfold meets, PageTableInv.hit in Hmeet. apply andb_prop in Hmeet as [M1%Z.ltb_lt M2%Z.ltb_lt].
  pose proof (proj1 (lookup_elem m _ _ (re_rm m Hm)) Hq) as [Hqin Hqr]. pose proof (re_wf m Hm r Hr) as Wr. pose proof (re_wf m Hm q Hqin) as Wq.
  assert ((r_range q).1 = (r_range r).1) as E by (apply slots_meet; [done|done|lia|lia]). destruct Wr as (Er & _), Wq as (Eq & _).
  assert (lookup_region m (page * 4096) = Some r) as Hr2; [|congruence]. apply lookup_elem; [apply Hm|]. split; [done|lia].
Qed.

Lemma invalidate_arch_post s cid r start len mode x : slot_wf (r_range r) -> 0 <= start -> 0 <= len -> start + Z.max 1 len <= MAX_SIZE ->
  post (invalidate_arch s cid r start len mode x) (fun x' => inv_rel mode r start len (cid =? v_kid s) (t_arch x) (t_arch x')).
Proof.
  intros Hwf Hs Hl Hmax. unfold invalidate_arch. eapply post_bind; [by apply cursor_post|]. cbn. intros cur ->. destruct mode.
  - intros x' Ex. pose proof (arch_unmap_shrunk _ _ _ Ex) as Hsh. split.
    + intros page l Hl'. exists l. split; [by apply (s_leaf _ _ Hsh)|done].
    + intros page l Hk Hne Hr El _. destruct (user_offset r start len Hwf Hs) as [Hrok Hk2]; [lia|done|lia|].
      pose proof (arch_unmap_gone _ _ x x' page Hrok Hk2) as Hg. rewrite Hg in El; [done| |done|done]. rewrite <- Ex. do 2 f_equal. lia.
    + intros m _ _ _ Ha. by eapply arch_ok_shrunk.
  - eapply post_weaken; [apply arch_change_changed|]. intros x' [_ Hc]. split.
    + intros page l El. destruct (Hc page l El) as (l0 & El0 & _ & [->|[_ Est]] & _); exists l0; (split; [done|]); [done|]. cbn. by rewrite Est, write_protected.
    + intros page l Hk Hne Hr El. destruct (Hc page l El) as (l0 & _ & _ & _ & Hst). cbn. rewrite Hst, write_protected; [done|..].
      * unfold c_end. cbn [c_start c_len]. lia.
      * cbn [c_start]. by apply (user_offset r start (Z.max 1 len)); try lia.
    + intros m Ek Hm Hr Ha page l El. destruct (Hc page l El) as (l0 & El0 & Elv & Hcase & _). destruct (Ha page l0 El0) as [?|(Hu & q & Hq & Hok & Hw)]; [by left|].
      right. split; [done|]. exists q. split; [done|]. assert (within (r_range q).1 (r_range q).2 page l) as Hw' by (unfold within in *; by rewrite Elv).
      split; [|done]. destruct Hcase as [->|[Hmeet Est]]; [done|]. rewrite Ek in Est.
      assert (q = r) as ->.
      { eapply (meets_region m r q _ page l0); [done|done|done|done| | |exact Hmeet]; unfold c_end; cbn [c_start c_len]; [lia|]. destruct (re_wf m Hm r Hr) as (Er & _). lia. }
      destruct l as [pa st k]. cbn in Est. subst st. apply mapping_settings_ok.
Qed.

Lemma invalidate_regions_post cid rs start len mode s c : Inv s -> v_ctxs s !! cid = Some c -> (forall r, r ∈ rs -> r ∈ mappings (x_regions c)) ->
  regions_ok (x_regions c) -> 0 <= start -> 0 <= len -> start + Z.max 1 len <= MAX_SIZE ->
  post (invalidate_regions s cid rs start len mode) (fun s' => Inv s' /\ mono mode s s' /\
    forall r, r ∈ rs -> is_kernel (mkVirt (r_range r).1) = false -> clean mode cid ((r_range r).1 + start) ((r_range r).1 + start + len) s').
Proof.
  intros Hi Hc Hrs Hreg Hs Hl Hmax. revert s c Hi Hc Hrs Hreg. induction rs as [|r rs IH]; intros s c Hi Hc Hrs Hreg; cbn [invalidate_regions].
  { apply post_ret. split; [done|]. split; [apply mono_refl|]. intros r Hr. inversion Hr. }
  assert (r ∈ mappings (x_regions c)) as Hr by (apply Hrs; left). unfold get_ctx. rewrite Hc. cbn [unwrap obind].
  eapply post_bind; [apply (for_arches_upd (inv_rel mode r start len (cid =? v_kid s))); [|apply sctxs_nodup]|].
  { intros x. apply invalidate_arch_post; [by apply (re_wf _ Hreg)|done..]. }
  cbn. intros s1 Hu. assert (mono mode s s1) as Hm1 by (eapply upd_mono; [|exact Hu]; intros a a' HR; by apply (ir_toward _ _ _ _ _ _ _ HR)).
  assert (Inv s1) as Hi1.
  { eapply Inv_arches; [done|exact Hu|]. intros c0 a a' Hk Hc0 Ha HR. rewrite Hc in Hc0. injection Hc0 as <-.
    eapply (ir_ok _ _ _ _ _ _ _ HR); [by apply Z.eqb_neq|done..]. }
  assert (is_kernel (mkVirt (r_range r).1) = false -> clean mode cid ((r_range r).1 + start) ((r_range r).1 + start + len) s1) as Hclean.
  { intros Hk c1 sctx a' page l Hc1 Ha' Hne Hrg El. destruct (au_ctx _ _ _ _ _ Hu c Hc) as (c1' & Hc1' & _ & HA). rewrite Hc1 in Hc1'. injection Hc1' as <-.
    specialize (HA sctx). rewrite Ha' in HA. destruct (x_arches c !! sctx) as [a|] eqn:Ea; [|done].
    eapply (ir_clean _ _ _ _ _ _ _ (proj1 HA (proj2 (sctxs_elem c sctx) (mk_is_Some _ _ Ea)))); done. }
  destruct (au_ctx _ _ _ _ _ Hu c Hc) as (c1 & Hc1 & Er1 & _).
  eapply post_weaken; [apply (IH s1 c1 Hi1 Hc1); rewrite Er1; [|done]|].
  - intros q Hq. apply Hrs. by right.
  - cbn. intros s2 (Hi2 & Hm2 & Hcl). split; [done|]. split; [by eapply mono_trans|]. intros q [->|Hq]%elem_of_cons Hk; [|by apply Hcl]. eapply clean_mono; [done|by apply Hclean].
Qed.

(** The range of an invalidation lies in an object. *)
Definition range_in (lo hi : Z) : Prop := 0 <= lo <= hi /\ hi * 4096 <= MAX_SIZE /\ lo * 4096 < MAX_SIZE.

Lemma regions_ok_tree m m' : rm_ok m' -> tree m' = tree m -> regions_ok m -> regions_ok m'.
Proof. intros Hm' E [_ Hw]. split; [done|]. intros r. unfold mappings. rewrite E. apply Hw. Qed.

Lemma invalidate_object_post cid obj lo hi mode s : Inv s -> range_in lo hi ->
  post (invalidate_object s cid obj lo hi mode) (fun s' => Inv s' /\ mono mode s s' /\
    forall c r, v_ctxs s !! cid = Some c -> r ∈ mappings (x_regions c) -> r_obj r = obj -> is_kernel (mkVirt (r_range r).1) = false ->
      clean mode cid ((r_range r).1 + lo * 4096) ((r_range r).1 + hi * 4096) s').
Proof.
  intros Hi (Hlo & Hhi & Hlt). unfold invalidate_object, as_byte_offset, PAGE_SIZE. pose proof max_pos. rewrite chk_in by lia. cbn [obind].
  unfold get_ctx. destruct (v_ctxs s !! cid) as [c|] eqn:Ec; cbn [unwrap obind]; [|apply post_panic].
  assert (regions_ok (x_regions c)) as Hreg.
  { destruct (decide (cid = v_kid s)) as [->|Hk]; [by apply (iv_kernel s Hi)|by apply (iv_ctx s Hi cid)]. }
  destruct (object_mappings_ok (x_regions c) obj (re_rm _ Hreg)) as (rs & m & -> & Hm & Et & Hp). cbn [obind].
  set (s1 := put_ctx s cid (set_regions c m)). pose proof (regions_ok_tree _ _ Hm Et Hreg) as Hreg'.
  assert (mappings m = mappings (x_regions c)) as Emap by (unfold mappings; by rewrite Et).
  assert (forall b, lookup_region m b = lookup_region (x_regions c) b) as Elk by (intros b; unfold lookup_region; by rewrite Et).
  assert (Inv s1) as Hi1.
  { apply Inv_put; [done| |].
    - intros Hk. split; [split; [done|]|].
      + cbn. intros sctx a Ha. eapply arch_ok_mono; [|by apply (co_arch c (iv_ctx s Hi cid c Hk Ec) sctx)]. intros b q. by rewrite Elk.
      + cbn. intros id. unfold count_of. rewrite Et. by apply (iv_count s Hi).
    - intros ->. cbn. split; [done|]. rewrite Emap. by apply (iv_kernel s Hi). }
  assert (mono mode s s1) as Hm1.
  { split; [done..|]. intros cid' c' Hc'. cbn in Hc'. destruct (decide (cid' = cid)) as [->|Hne].
    - rewrite lookup_insert_eq in Hc'. injection Hc' as <-. exists c. split; [done|]. split; [done|]. intros sctx a Ha. exists a. split; [done|apply toward_refl].
    - rewrite lookup_insert_ne in Hc' by done. exists c'. split; [done|]. split; [done|]. intros sctx a Ha. exists a. split; [done|apply toward_refl]. }
  assert (forall r, r ∈ rs <-> r ∈ mappings (x_regions c) /\ r_obj r = obj) as Hrs.
  { intros r. rewrite Hp, list_elem_of_fmap. unfold mappings. rewrite list_elem_of_fmap. split.
    - intros (e & -> & [He Ho]%elem_ikeep). split; [by exists e|by apply Z.eqb_eq].
    - intros [(e & -> & He) Ho]. exists e. split; [done|]. apply elem_ikeep. split; [done|by apply Z.eqb_eq]. }
  eapply post_weaken; [apply (invalidate_regions_post cid rs (lo * 4096) (hi * 4096 - lo * 4096) mode s1 (set_regions c m)); [done|by apply lookup_insert_eq| |done|lia..]|].
  - intros r Hr. cbn. rewrite Emap. by apply Hrs.
  - cbn. intros s2 (Hi2 & Hm2 & Hcl). split; [done|]. split; [by eapply mono_trans|]. intros c0 r [= <-] Hr Ho Hk.
    replace (hi * 4096) with (lo * 4096 + (hi * 4096 - lo * 4096)) by lia. rewrite Z.add_assoc. apply Hcl; [by apply Hrs|done].
Qed.

Lemma mappings_tree m m' : tree m' = tree m -> mappings m' = mappings m.
Proof. intros E. unfold mappings. by rewrite E. Qed.

(** The pages of an object in a range are as the mode asks for, wherever a context maps it. *)
Definition cleaned (mode : InvalidateMode) (cid obj lo hi : Z) s s' : Prop :=
  forall c r, v_ctxs s !! cid = Some c -> r ∈ mappings (x_regions c) -> r_obj r = obj -> is_kernel (mkVirt (r_range r).1) = false ->
    clean mode cid ((r_range r).1 + lo * 4096) ((r_range r).1 + hi * 4096) s'.

Lemma cleaned_from mode cid obj lo hi s s1 s' : mono mode s s1 -> mono mode s1 s' -> cleaned mode cid obj lo hi s1 s' -> cleaned mode cid obj lo hi s s'.
Proof.
  intros M1 M2 Hc c r Hcid Hr Ho Hk. destruct (v_ctxs s1 !! cid) as [c1|] eqn:E1.
  - destruct (mo_ctx _ _ _ M1 cid c1 E1) as (c0 & Hc0 & Et & _). rewrite Hcid in Hc0. injection Hc0 as <-. apply (Hc c1 r E1); [|done..]. by rewrite (mappings_tree _ _ Et).
  - intros c' sctx a page l Hc' _. destruct (mo_ctx _ _ _ M2 cid c' Hc') as (c1 & Hc1 & _). congruence.
Qed.

Lemma cleaned_to mode cid obj lo hi s s1 s' : mono mode s1 s' -> cleaned mode cid obj lo hi s s1 -> cleaned mode cid obj lo hi s s'.
Proof. intros M Hc c r H1' H2' H3' H4'. eapply clean_mono; [done|by apply (Hc c r)]. Qed.

Lemma invalidate_contexts_post cids obj lo hi mode s : Inv s -> range_in lo hi ->
  post (invalidate_contexts s cids obj lo hi mode) (fun s' => Inv s' /\ mono mode s s' /\ forall cid, cid ∈ cids -> cleaned mode cid obj lo hi s s').
Proof.
  intros Hi Hr. revert s Hi. induction cids as [|cid cids IH]; intros s Hi; cbn [invalidate_contexts].
  { apply post_ret. split; [done|]. split; [apply mono_refl|]. intros cid Hc. inversion Hc. }
  apply (post_bind _ _ (fun s1 => Inv s1 /\ mono mode s s1 /\ cleaned mode cid obj lo hi s s1)).
  { destruct (v_ctxs s !! cid) as [c|] eqn:Ec.
    - rewrite bool_decide_true by eauto. eapply post_weaken; [by apply invalidate_object_post|]. cbn. intros s1 (Hi1 & Hm1 & Hc1). split_and!; [done..|]. exact Hc1.
    - rewrite bool_decide_false by (intros [x ?]; congruence). apply post_ret. split_and!; [done|apply mono_refl|]. intros c r Hc. congruence. }
  intros s1 (Hi1 & Hm1 & Hc1). eapply post_weaken; [by apply IH|]. cbn. intros s2 (Hi2 & Hm2 & Hc2). split; [done|]. split; [by eapply mono_trans|].
  intros cid' [->|Hin]%elem_of_cons; [by eapply cleaned_to|]. eapply cleaned_from; [done|done|by apply Hc2].
Qed.

Lemma invalidate_post obj lo hi mode s : Inv s -> range_in lo hi ->
  post (invalidate s obj lo hi mode) (fun s' => Inv s' /\ mono mode s s' /\ forall cid, cid <> v_kid s -> cleaned mode cid obj lo hi s s').
Proof.
  intros Hi Hr. unfold invalidate, get_obj. destruct (v_objs s !! obj) as [o|] eqn:Eo; cbn [unwrap obind]; [|apply post_panic].
  eapply post_bind; [by apply invalidate_contexts_post|]. cbn. intros s1 (Hi1 & Hm1 & Hc1). eapply post_weaken; [by apply invalidate_object_post|].
  cbn. intros s2 (Hi2 & Hm2 & _). split; [done|]. split; [by eapply mono_trans|]. intros cid Hk. eapply cleaned_to; [done|].
  intros c r Hc Hin Hobj Hu. refine (Hc1 cid _ c r Hc Hin Hobj Hu). pose proof (iv_count s Hi cid c obj Hk Hc) as Hcnt. rewrite <- times_mappings in Hcnt.
  assert (1 <= times (mappings (x_regions c)) obj) as Hge.
  { unfold times, zlen. assert (r ∈ List.filter (fun r => r_obj r =? obj) (mappings (x_regions c))) as Hf by (apply list_elem_of_In, filter_In; split; [by apply list_elem_of_In|by apply Z.eqb_eq]).
    destruct (List.filter _ _); [inversion Hf|cbn [length]; lia]. }
  unfold obj_ctxs in Hcnt. rewrite Eo in Hcnt. cbn in Hcnt. destruct (o_ctxs o !! cid) as [n|] eqn:En; [|cbn in Hcnt; lia].
  apply list_elem_of_fmap. exists (cid, n). split; [done|]. by apply elem_of_map_to_list.
Qed.

(** ** Control *)
Lemma unmap_current_Inv s t r : Inv s -> post (unmap_current MAX_SIZE s t r) Inv.
Proof.
  intros Hi. unfold unmap_current. eapply post_weaken; [apply (with_arch_upd (fun a a' => forall page l, a_leaves a' !! page = Some l -> a_leaves a !! page = Some l))|].
  - intros x. apply post_any. intros cur _. eapply post_weaken; [apply arch_unmap_shrunk|]. by intros x' [_ _ Hl].
  - intros s' Hu. eapply Inv_arches; [done|exact Hu|]. intros c a a' _ _ Ha HR page l Hl. by apply Ha, HR.
Qed.

Lemma control_Inv s t r u : Inv s -> post (if u : bool then ctrl_update MAX_SIZE s t r else ctrl_invalidate MAX_SIZE s t r) Inv.
Proof.
  intros Hi. destruct u; [|by apply unmap_current_Inv]. unfold ctrl_update. apply (post_bind _ _ Inv); [|intros s1 Hi1; by apply unmap_current_Inv].
  destruct (r_shadow r); [|by apply post_ret]. apply post_any. intros tr _. apply post_ret. eapply Inv_same; [apply shadow_same|done].
Qed.

(** ** Faults *)

(** Leaves have been added to the tables of one security context; nothing else that the
    invariant is about has changed. *)
Record added (cid sctx : Z) (P : Z -> Leaf -> Prop) s s' : Prop := mkAdded {
  ad_kid : v_kid s' = v_kid s; ad_slots : v_slots s' = v_slots s;
  ad_octxs id cid' : obj_ctxs s' id cid' = obj_ctxs s id cid';
  ad_ctx cid' : match v_ctxs s !! cid', v_ctxs s' !! cid' with
    | Some c, Some c' => x_regions c' = x_regions c /\ forall i, match x_arches c !! i, x_arches c' !! i with
        | Some a, Some a' => forall page l, a_leaves a' !! page = Some l -> a_leaves a !! page = Some l \/ (cid' = cid /\ i = sctx /\ P page l)
        | None, None => True
        | _, _ => False
        end
    | None, None => True
    | _, _ => False
    end }.

Lemma same_added cid sctx P s s' : same s s' -> added cid sctx P s s'.
Proof.
  intros [E1 E2 E3 E4]. split; [done..|]. intros cid'. rewrite E1. destruct (v_ctxs s !! cid') as [c|]; [|done]. split; [done|].
  intros i. destruct (x_arches c !! i); [|done]. by left.
Qed.

Lemma added_trans cid sctx P s1 s2 s3 : added cid sctx P s1 s2 -> added cid sctx P s2 s3 -> added cid sctx P s1 s3.
Proof.
  intros [K1 S1 O1 C1] [K2 S2 O2 C2]. split; [congruence..|]. intros cid'. specialize (C1 cid'). specialize (C2 cid').
  destruct (v_ctxs s1 !! cid') as [c1|], (v_ctxs s2 !! cid') as [c2|], (v_ctxs s3 !! cid') as [c3|]; try done.
  destruct C1 as [R1 A1], C2 as [R2 A2]. split; [congruence|]. intros i. specialize (A1 i). specialize (A2 i).
  destruct (x_arches c1 !! i) as [a1|], (x_arches c2 !! i) as [a2|], (x_arches c3 !! i) as [a3|]; try done.
  intros page l Hl. destruct (A2 page l Hl) as [Hl2|?]; [|by right]. by apply A1.
Qed.

Lemma upd_added cid sctx (R : Arch -> Arch -> Prop) P s s' :
  (forall a a', R a a' -> forall page l, a_leaves a' !! page = Some l -> a_leaves a !! page = Some l \/ P page l) ->
  arches_upd cid [sctx] R s s' -> added cid sctx P s s'.
Proof.
  intros HR [K S O C N X]. split; [done..|intros; unfold obj_ctxs; by rewrite O|]. intros cid'. destruct (decide (cid' = cid)) as [->|Hne].
  - destruct (v_ctxs s !! cid) as [c|] eqn:Ec; [|by rewrite N]. destruct (X c eq_refl) as (c' & -> & Er & HA). split; [done|]. intros i. specialize (HA i).
    destruct (x_arches c !! i) as [a|], (x_arches c' !! i) as [a'|]; try done. intros page l Hl. destruct HA as [Hin Hout].
    destruct (decide (i ∈ [sctx])) as [Hi|Hn]; [|rewrite Hout in Hl by done; by left]. destruct (HR a a' (Hin Hi) page l Hl) as [?|?]; [by left|].
    right. apply list_elem_of_singleton in Hi. done.
  - rewrite C by done. destruct (v_ctxs s !! cid') as [c|]; [|done]. split; [done|]. intros i. destruct (x_arches c !! i); [|done]. by left.
Qed.

Lemma Inv_added cid sctx P s s' : Inv s -> added cid sctx P s s' ->
  (forall c page l, cid <> v_kid s -> v_ctxs s !! cid = Some c -> P page l -> covers (x_regions c) page l) -> Inv s'.
Proof.
  intros [I1 I2 I3 I4 I5 I6] [K S O C] HP. split; rewrite ?K, ?S; [| | | |done..].
  - intros cid' c' Hk Hc'. specialize (C cid'). rewrite Hc' in C. destruct (v_ctxs s !! cid') as [c|] eqn:Ec; [|done]. destruct C as [Er HA].
    destruct (I1 cid' c Hk Ec) as [Hr Ha]. split; rewrite Er; [done|]. intros i a' Ha' page l Hl. specialize (HA i). rewrite Ha' in HA.
    destruct (x_arches c !! i) as [a|] eqn:Ea; [|done]. destruct (HA page l Hl) as [Hl0|(-> & _ & Hp)]; [by apply (Ha i a Ea)|by apply HP].
  - intros cid' c' id Hk Hc'. rewrite O. specialize (C cid'). rewrite Hc' in C. destruct (v_ctxs s !! cid') as [c|] eqn:Ec; [|done]. destruct C as [-> _]. by apply I2.
  - intros id cid'. rewrite O. apply I3.
  - intros c' Hc'. specialize (C (v_kid s)). rewrite Hc' in C. destruct (v_ctxs s !! v_kid s) as [c|] eqn:Ec; [|done]. destruct C as [-> _]. by apply I4.
Qed.

(** The pages of objects *)
Lemma put_obj_same s id o o' h : v_objs s !! id = Some o -> o_ctxs o' = o_ctxs o -> same s (set_objs s (<[id := o']> (v_objs s)) h).
Proof.
  intros Ho Ec. split; [done..|]. intros id' cid. unfold obj_ctxs. cbn. destruct (decide (id' = id)) as [->|Hne].
  - by rewrite lookup_insert_eq, Ho; cbn; rewrite Ec.
  - by rewrite lookup_insert_ne.
Qed.

Lemma get_obj_post s id : post (get_obj s id) (fun o => v_objs s !! id = Some o).
Proof. unfold get_obj. destruct (v_objs s !! id); cbn; [by apply post_ret|apply post_panic]. Qed.

Section faults.
Context (pins : list PageTree.PageRef).

Lemma tree_get_page_same s id pn fl : post (tree_get_page pins s id pn fl) (fun x => same s x.2).
Proof.
  unfold tree_get_page. eapply post_bind; [apply get_obj_post|]. cbn. intros o Ho. apply post_any. intros [[st t] h] _. apply post_ret. cbn [snd].
  unfold put_tree. by eapply put_obj_same.
Qed.

Lemma tree_try_get_page_same s id pn fl : post (tree_try_get_page pins s id pn fl) (fun x => same s x.2).
Proof.
  unfold tree_try_get_page. eapply post_bind; [apply get_obj_post|]. cbn. intros o Ho. apply post_any. intros [st t] _. apply post_ret. cbn [snd].
  unfold put_tree. by eapply put_obj_same.
Qed.

Lemma tree_add_new_page_same s id pn : post (tree_add_new_page MAX_SIZE pins s id pn) (same s).
Proof.
  unfold tree_add_new_page. eapply post_bind; [apply get_obj_post|]. cbn. intros o Ho. destruct (PageTree.try_allocate_page _) as [[p|] h].
  - apply post_any. intros [[q t] h'] _. apply post_ret. unfold put_tree. by eapply put_obj_same.
  - apply post_ret. unfold put_tree. by eapply put_obj_same.
Qed.

Lemma ensure_not_pager_same s id pn : post (ensure_in_core_not_pager MAX_SIZE pins s id pn) (same s).
Proof.
  unfold ensure_in_core_not_pager. eapply post_bind; [apply tree_get_page_same|]. intros [st s1] Hs1. cbn [snd] in Hs1.
  destruct (is_ready st); [by apply post_ret|]. eapply post_weaken; [apply tree_add_new_page_same|]. intros s2. by apply same_trans.
Qed.

Lemma ensure_in_core_same s id pn : post (ensure_in_core MAX_SIZE pins pager s id pn) (same s).
Proof.
  unfold ensure_in_core. eapply post_bind; [apply tree_try_get_page_same|]. intros [st s1] Hs1. cbn [snd] in Hs1.
  destruct (is_no_page st); [|by apply post_ret]. eapply post_bind; [apply get_obj_post|]. cbn. intros o Ho. destruct (o_pager o).
  - destruct (pager _ _ _ _) as [t h]. assert (same s1 (put_tree s1 id o t h)) as Hs2 by (by eapply put_obj_same).
    eapply post_bind; [apply tree_try_get_page_same|]. intros [st' s3] Hs3. cbn [snd] in Hs3. assert (same s s3) as Hs by (eapply same_trans; [done|by eapply same_trans]).
    destruct (is_no_page st'); [|by apply post_ret]. eapply post_weaken; [apply ensure_not_pager_same|]. intros s4. by apply same_trans.
  - eapply post_weaken; [apply ensure_not_pager_same|]. intros s2. by apply same_trans.
Qed.

Lemma fault_page_same s id pn fl : post (fault_page MAX_SIZE pins pager s id pn fl) (fun x => same s x.2).
Proof.
  unfold fault_page. eapply post_bind; [apply ensure_in_core_same|]. cbn. intros s1 Hs1. eapply post_bind; [apply tree_get_page_same|]. intros [st s2] Hs2.
  cbn [snd] in Hs2. assert (same s s2) as Hs by (by eapply same_trans). apply post_any. intros o _. destruct (is_no_page st && _); [|by apply post_ret].
  eapply post_bind; [apply tree_add_new_page_same|]. cbn. intros s3 Hs3. eapply post_weaken; [apply tree_get_page_same|]. intros [st' s4] Hs4. cbn [snd] in *.
  eapply same_trans; [done|by eapply same_trans].
Qed.

Lemma add_dirty_same s id pn num : post (add_dirty_page s id pn num) (same s).
Proof.
  unfold add_dirty_page. eapply post_bind; [apply get_obj_post|]. cbn. intros o Ho. apply post_any. intros d _. apply post_ret. by eapply put_obj_same.
Qed.

Lemma try_get_page_tree others t h pn fl : PageTree.has fl PageTree.STABLE = false ->
  post (PageTree.try_get_page (T := T) others pins t h pn fl) (fun x => x.2 = t).
Proof.
  intros Hf. unfold PageTree.try_get_page. apply post_any. intros [[[p sh] lk]|] _; [|by apply post_ret]. rewrite Hf, andb_false_r. by apply post_ret.
Qed.

Lemma shadow_get_page_id s n pn fl : PageTree.has fl PageTree.STABLE = false -> post (shadow_get_page pins s n pn fl) (fun x => x.2 = s).
Proof.
  intros Hf. unfold shadow_get_page. destruct (v_shadows s !! n) as [t|] eqn:Et; cbn [unwrap obind]; [|apply post_panic].
  eapply post_bind; [by apply try_get_page_tree|]. intros [st t'] E. cbn [snd] in E. subst t'. apply post_ret. cbn [snd].
  unfold set_shadows. rewrite insert_id by done. by destruct s.
Qed.

(** The pages of the objects end with them: a run of pages that is found at a page stays
    within the object. *)
Definition run_in (pn : Z) (page : PageTree.PageRef) : Prop := 1 <= nr_pages page /\ pn + nr_pages page <= MAX_PAGES MAX_SIZE.

Definition alike s s1 : Prop := v_objs s1 = v_objs s /\ v_heap s1 = v_heap s /\ v_shadows s1 = v_shadows s.

Definition pages_in s (addr : Z) : Prop := forall s1 pn (w : bool) page s2, alike s s1 ->
  from_address MAX_SIZE addr <= pn <= from_address MAX_SIZE addr + 1 -> pn < MAX_PAGES MAX_SIZE ->
  (forall id sh, fault_page MAX_SIZE pins pager s1 id pn (if w then PageTree.WRITE else 0) = Ret (PageTree.Ready page sh, s2) -> run_in pn page) /\
  (forall n, shadow_get_page pins s1 n pn (if w then PageTree.WRITE else 0) = Ret (Some page, s2) -> run_in pn page).

Lemma pages_in_alike s s1 addr : alike s s1 -> pages_in s addr -> pages_in s1 addr.
Proof. intros (E1 & E2 & E3) Hp s2 pn w page s3 (F1 & F2 & F3). apply Hp. unfold alike. split_and!; congruence. Qed.

Lemma object_page_next r addr : from_address MAX_SIZE addr <= object_page MAX_SIZE r addr <= from_address MAX_SIZE addr + 1.
Proof. unfold object_page. destruct (_ && _); lia. Qed.

(** What [mapper] is asked for adds leaves that satisfy [P]. *)
Definition mapper_ok (cid sctx : Z) (r : MapRegion) (addr : Z) (p : SecCtx.PermsInfo) (d : Z) (P : Z -> Leaf -> Prop) : Prop :=
  forall s page wp, run_in (object_page MAX_SIZE r addr) page ->
    post (mapper s cid sctx r (from_address MAX_SIZE addr) (opp_new [(page, final_settings r wp (is_kernel_object_memory (mkVirt addr)) p d)])) (added cid sctx P s).

Lemma flags_not_stable (b : bool) : PageTree.has (if b then PageTree.WRITE else 0) PageTree.STABLE = false.
Proof. by destruct b. Qed.

Lemma map_object_page_added cid sctx active r addr cause p d P s : mapper_ok cid sctx r addr p d P -> pages_in s addr ->
  object_page MAX_SIZE r addr < MAX_PAGES MAX_SIZE ->
  post (map_object_page MAX_SIZE pins pager s cid sctx active r addr cause p d) (fun x => added cid sctx P s x.1).
Proof.
  intros Hm Hp Hpn. unfold map_object_page. apply post_any. intros [st s1] E1. pose proof (fault_page_same _ _ _ _ _ E1) as Hs1. cbn [snd] in Hs1.
  apply (same_added cid sctx P) in Hs1. apply post_any. intros o _. destruct st as [page sh| | | |]; [|by destruct (o_pager o); apply post_ret|by apply post_ret|by apply post_ret|apply post_nofuel].
  assert (run_in (object_page MAX_SIZE r addr) page) as Hrun by (eapply (proj1 (Hp s _ _ _ _ (conj eq_refl (conj eq_refl eq_refl)) (object_page_next r addr) Hpn)); exact E1).
  destruct (check_settings _ _ _ _); [|by apply post_ret]. apply (post_bind _ _ (fun s2 => added cid sctx P s s2)).
  { destruct (_ && _); [|by apply post_ret]. eapply post_weaken; [apply add_dirty_same|]. intros s2 Hs2. eapply added_trans; [done|by apply same_added]. }
  intros s2 Hs2. eapply post_bind; [by apply Hm|]. cbn. intros s3 Hs3. apply post_ret. by eapply added_trans.
Qed.

Lemma map_shadow_page_added cid sctx active r addr cause p d P s : mapper_ok cid sctx r addr p d P -> pages_in s addr ->
  object_page MAX_SIZE r addr < MAX_PAGES MAX_SIZE ->
  post (map_shadow_page MAX_SIZE pins s cid sctx active r addr cause p d) (fun x => added cid sctx P s x.1 /\ (x.2 = None -> x.1 = s)).
Proof.
  intros Hm Hp Hpn. unfold map_shadow_page. destruct (r_shadow r) as [n|]; [|apply post_ret; split; [apply same_added, same_refl|done]].
  apply post_any. intros [o s1] E1. pose proof (shadow_get_page_id _ _ _ _ (flags_not_stable _) _ E1) as Hs1. cbn [snd] in Hs1. subst s1.
  destruct o as [page|]; [|apply post_ret; split; [apply same_added, same_refl|done]].
  assert (run_in (object_page MAX_SIZE r addr) page) as Hrun by (eapply (proj2 (Hp s _ _ _ _ (conj eq_refl (conj eq_refl eq_refl)) (object_page_next r addr) Hpn)); exact E1).
  destruct (check_settings _ _ _ _); [|apply post_ret; split; [apply same_added, same_refl|done]].
  eapply post_bind; [by apply Hm|]. cbn. intros s3 Hs3. by apply post_ret.
Qed.

Lemma shared_mapper_added cid sctx addr i P s : post (shared_mapper s cid sctx addr i) (fun s' => added cid sctx P s s' /\ alike s s').
Proof.
  unfold shared_mapper. set (cur := mkCursor _ _). intros s' E. split.
  - eapply upd_added; [|eapply (with_arch_upd (fun a a' => forall page l, a_leaves a' !! page = Some l -> a_leaves a !! page = Some l)); [|exact E]]; [by left; eauto|].
    intros x. cbn beta. destruct (arch_mapped x cur) eqn:Em; cbn [negb]; [by apply post_ret|]. cbn [obind]. unfold arch_shared_map. destruct (is_kernel _); [apply post_panic|].
    apply post_ret. cbn. by intros page l [? _]%map_lookup_filter_Some.
  - revert E. unfold with_arch. destruct (get_ctx s cid) as [c| |]; cbn [obind]; try discriminate. destruct (unwrap _) as [a| |]; cbn [obind]; try discriminate.
    destruct (if negb _ then _ else _) as [x| |]; cbn [obind]; try discriminate. by intros [= <-].
Qed.

Lemma map_shared_added cid sctx active r addr cause P s :
  post (map_shared s cid sctx active r addr cause) (fun x => added cid sctx P s x.1 /\ alike s x.1).
Proof.
  assert (added cid sctx P s s /\ alike s s) as Hrefl by (split; [apply same_added, same_refl|done]).
  unfold map_shared. destruct (r_shared r) as [i|]; [|by apply post_ret]. destruct (is_kernel_object_memory _); [by apply post_ret|].
  apply post_any. intros t _. destruct (check_settings _ _ _ _); [|by apply post_ret]. eapply post_bind; [apply shared_mapper_added|]. cbn.
  intros s1 [Ha Hl]. apply post_ret. cbn [fst]. split; [eapply added_trans; [done|apply same_added, tables_same]|done].
Qed.

Lemma region_map_added cid sctx active r addr cause p d P s : mapper_ok cid sctx r addr p d P -> pages_in s addr ->
  object_page MAX_SIZE r addr < MAX_PAGES MAX_SIZE ->
  post (region_map MAX_SIZE pins pager s cid sctx active r addr cause p d) (fun x => added cid sctx P s x.1).
Proof.
  intros Hm Hp Hpn. unfold region_map. eapply post_bind; [apply (map_shared_added _ _ _ _ _ _ P)|]. intros [s1 res] [Ha1 Hl1]. cbn [fst] in *.
  destruct res; [|by apply post_ret]. pose proof (pages_in_alike _ _ _ Hl1 Hp) as Hp1. eapply post_bind; [by apply map_shadow_page_added|].
  intros [s2 o] [Ha2 Hn]. cbn [fst snd] in *. destruct o as [res|]; [apply post_ret; by eapply added_trans|]. rewrite Hn by done.
  eapply post_weaken; [by apply map_object_page_added|]. cbn. intros x Hx. by eapply added_trans.
Qed.

(** ** What the mapper is given *)
Definition all_settings (st : MappingSettings) (o : ObjectPageProvider) : Prop := Forall (fun x => x.2 = st) (opp_pages o).

Lemma opp_peek_settings st (ph : ObjectPageProvider) i ph' : all_settings st ph -> PageTable.peek ph = (Some i, ph') -> PageTable.pm_settings i = st /\ all_settings st ph'.
Proof.
  intros Hg. cbn. unfold opp_peek. destruct (opp_pages ph) as [|[p st'] rest] eqn:E; [discriminate|]. intros [= <- <-]. split; [|done].
  unfold all_settings in Hg. rewrite E in Hg. by inversion Hg.
Qed.

Lemma opp_consume_settings st (ph : ObjectPageProvider) len : all_settings st ph -> all_settings st (PageTable.consume ph len).
Proof.
  unfold all_settings. cbn. generalize (opp_inner ph). intros inner Hg. revert inner len. induction (opp_pages ph) as [|[p st'] rest IH]; intros inner len; cbn [opp_consume]; [done|].
  destruct (0 <? len); [|done]. destruct (len <? _); [done|]. apply IH. by inversion Hg.
Qed.

Lemma page_count_one page st : page_count (opp_new [(page, st)]) = nr_pages page.
Proof. unfold page_count, opp_new, foldl. cbn [opp_pages opp_inner fst]. change (0 / PAGE_SIZE) with 0. lia. Qed.

(** The leaves a fault in a region can add *)
Definition fault_leaf (r : MapRegion) (addr : Z) (p : SecCtx.PermsInfo) (d : Z) (page : Z) (l : Leaf) : Prop :=
  (r_range r).1 <= page * 4096 < (r_range r).2 /\ within (r_range r).1 (r_range r).2 page l /\ is_kernel (mkVirt (page * 4096)) = false /\
  exists wp, lf_set l = PageTableRead.stored (final_settings r wp (is_kernel_object_memory (mkVirt addr)) p d).

Lemma from_address_range addr : 0 <= from_address MAX_SIZE addr < MAX_PAGES MAX_SIZE.
Proof.
  unfold from_address, MAX_PAGES, PAGE_SIZE. pose proof max_pos. pose proof max_pages. pose proof (Z.mod_pos_bound addr MAX_SIZE ltac:(lia)).
  split; [apply Z.div_pos; lia|]. apply Z.div_lt_upper_bound; lia.
Qed.

(** The memory a run is mapped at *)
Lemma run_region r addr page : slot_wf (r_range r) -> is_kernel (mkVirt (r_range r).1) = false -> run_in (object_page MAX_SIZE r addr) page ->
  let lo := (r_range r).1 + from_address MAX_SIZE addr * 4096 in
  let hi := lo + 4096 * nr_pages page in
  PageTableInv.region_ok lo hi /\ is_kernel (mkVirt lo) = false /\ (r_range r).1 <= lo /\ hi <= (r_range r).2.
Proof.
  intros Hwf Hk [Hn Hrun] lo hi. pose proof (object_page_next r addr). pose proof (from_address_range addr) as Hf. pose proof max_pages as Hm.
  unfold MAX_PAGES, PAGE_SIZE in *. destruct (user_offset r (from_address MAX_SIZE addr * 4096) (4096 * nr_pages page) Hwf) as [Hr Hk']; [lia|lia|done|lia|].
  destruct Hwf as (Hh & _). subst lo hi. split_and!; [done|done|lia|lia].
Qed.

Lemma mapper_user cid sctx r addr p d : slot_wf (r_range r) -> is_kernel (mkVirt (r_range r).1) = false ->
  mapper_ok cid sctx r addr p d (fault_leaf r addr p d).
Proof.
  intros Hwf Hk s page wp Hrun. destruct (run_region r addr page Hwf Hk Hrun) as (Hr & Hk' & Hlo & Hhi). unfold mapper.
  set (st := final_settings r wp _ p d). rewrite page_count_one. pose proof (from_address_range addr).
  eapply post_bind; [apply cursor_post; unfold as_byte_offset, PAGE_SIZE; lia|]. cbn beta. intros cur ->. unfold as_byte_offset, PAGE_SIZE.
  set (lo := (r_range r).1 + _) in *. set (hi := lo + _) in *. replace (4096 * nr_pages page) with (hi - lo) by lia.
  destruct (r_shared r) as [i|].
  { apply post_any. intros t _. apply post_any. intros t' _. apply post_ret, same_added, tables_same. }
  assert (all_settings st (opp_new [(page, st)])) as Hg by (by repeat constructor).
  eapply post_weaken; [apply (with_arch_upd (fun a a' => forall q l, a_leaves a' !! q = Some l -> a_leaves a !! q = Some l \/ fault_leaf r addr p d q l))|].
  2:{ intros s' Hu. eapply upd_added; [|exact Hu]. auto. }
  intros x. apply (post_bind _ _ (fun y => forall q l, a_leaves (t_arch y) !! q = Some l -> a_leaves (t_arch x) !! q = Some l)).
  { destruct (_ && _); [|by apply post_ret]. eapply post_weaken; [apply arch_unmap_shrunk|]. by intros y [_ _ Hl]. }
  intros y Hy. eapply post_weaken; [apply (arch_map_grown st (all_settings st)); [apply opp_peek_settings|apply opp_consume_settings|done|done]|].
  intros z [_ _ Hz] q l Hq. destruct (Hz q) as [E|(Hin & l' & Hl' & Est & Hw)]; [left; apply Hy; congruence|]. right. rewrite Hl' in Hq. injection Hq as ->.
  split; [lia|]. split; [by eapply within_weaken|]. split; [|by exists wp].
  destruct (is_kernel (mkVirt (q * 4096))) eqn:E; [|done]. apply is_kernel_iff in E. pose proof (user_region _ _ Hr Hk'). lia.
Qed.

Lemma mapper_any cid sctx r addr p d : mapper_ok cid sctx r addr p d (fun _ _ => True).
Proof.
  intros s page wp Hrun. unfold mapper. apply post_any. intros cur _. destruct (r_shared r) as [i|].
  - apply post_any. intros t _. apply post_any. intros t' _. apply post_ret, same_added, tables_same.
  - eapply post_weaken; [apply (with_arch_upd (fun _ _ => True)); by intros x x' _|]. intros s' Hu. eapply upd_added; [|exact Hu]. by right.
Qed.

(** ** The handler *)
Lemma sec_same s h t : same s (set_sec s h t) /\ alike s (set_sec s h t).
Proof. by split. Qed.

Lemma check_security_same s t cid sctx id addr cause ip d :
  post (check_security sizeof_Cap MAX_SIZE lookup_object read_meta key_of s t cid sctx id addr cause ip d) (fun x => same s x.1 /\ alike s x.1).
Proof.
  unfold check_security. destruct (_ || _); [by apply post_ret|]. apply post_any. intros [e|e] _; [|by apply post_ret]. apply post_any. intros u _.
  apply post_any. intros [h p] _. destruct (grants p _); [by apply post_ret|]. apply post_any. intros [h' p'] _. by apply post_ret.
Qed.

Definition used_sctx (sctx addr : Z) (p : SecCtx.PermsInfo) : Z :=
  if negb (SecCtx.ctx p =? sctx) && negb (is_kernel (mkVirt addr)) then SecCtx.ctx p else sctx.

Lemma switch_to_same s tid t sctx addr p : post (switch_to s tid t sctx addr p) (fun '(s', t', sctx') => same s s' /\ alike s s' /\ sctx' = used_sctx sctx addr p).
Proof.
  unfold switch_to, used_sctx. destruct (_ && _); [|by apply post_ret]. apply post_any. intros [m r] _. by apply post_ret.
Qed.

Lemma check_object_addr_ok r cause addr : check_object_addr MAX_SIZE (object_page MAX_SIZE r addr) (r_obj r) cause addr = Ok tt ->
  object_page MAX_SIZE r addr < MAX_PAGES MAX_SIZE.
Proof.
  unfold check_object_addr. destruct (Z.eqb_spec (object_page MAX_SIZE r addr) 0); [discriminate|].
  destruct (Z.leb_spec MAX_SIZE (as_byte_offset (object_page MAX_SIZE r addr))) as [|Hlt]; [discriminate|].
  intros _. pose proof max_pages. unfold as_byte_offset, MAX_PAGES, PAGE_SIZE in *. lia.
Qed.

Abbreviation security := (check_security sizeof_Cap MAX_SIZE lookup_object read_meta key_of).

Lemma page_fault_added s tid t addr cause ip cid sctx info (P : SecCtx.PermsInfo -> Z -> Z -> Leaf -> Prop) :
  pages_in s addr -> (forall sctx' p d, mapper_ok cid sctx' info addr p d (P p d)) ->
  post (page_fault_to_region sizeof_Cap MAX_SIZE lookup_object read_meta key_of pins pager s tid t addr cause ip cid sctx info)
    (fun x => same s x.1 \/ exists o s1 p, v_objs s !! r_obj info = Some o /\
       security s t cid sctx (r_obj info) addr cause ip (o_prot o) = Ret (s1, Ok p) /\ added cid (used_sctx sctx addr p) (P p (o_prot o)) s x.1).
Proof.
  intros Hp Hm. unfold page_fault_to_region. destruct (check_object_addr _ _ _ _ _) as [[]|e] eqn:Ec; [|apply post_ret; left; apply same_refl].
  apply check_object_addr_ok in Ec. eapply post_bind; [apply get_obj_post|]. cbn beta. intros o Ho. apply post_any. intros [s1 res] E1.
  destruct (check_security_same _ _ _ _ _ _ _ _ _ _ E1) as [Hs1 Hl1]. cbn [fst] in *. destruct res as [p|e]; [|apply post_ret; by left].
  eapply post_bind; [apply switch_to_same|]. intros [[s2 t2] sctx2] (Hs2 & Hl2 & ->).
  eapply post_weaken; [apply region_map_added; [apply Hm|by do 2 (eapply pages_in_alike; [done|])|done]|].
  cbn. intros x Hx. right. exists o, s1, p. split; [done|]. split; [done|]. eapply added_trans; [apply same_added, Hs1|]. eapply added_trans; [by apply same_added|done].
Qed.

(** A fault on a user address is in a region of the context. *)
Lemma fault_region s addr cid cause : Inv s -> cid <> v_kid s -> 0 <= addr -> is_kernel (mkVirt addr) = false ->
  post (get_map_region MAX_SIZE s addr cid cause) (fun x => forall r, x = Ok r -> exists c, v_ctxs s !! cid = Some c /\
    r ∈ mappings (x_regions c) /\ (r_range r).1 <= addr < (r_range r).2 /\ slot_wf (r_range r) /\ is_kernel (mkVirt (r_range r).1) = false).
Proof.
  intros Hi Hc Ha Hk. assert (addr < 2 ^ 64 - 2 ^ 47) as Hu by (destruct (Z.le_gt_cases (2 ^ 64 - 2 ^ 47) addr) as [?%is_kernel_iff|]; [congruence|done]).
  unfold get_map_region, slot_of_addr. rewrite Hk. cbn [andb vraw]. pose proof max_pos. pose proof (Z.mul_div_le addr MAX_SIZE ltac:(lia)). pose proof (Z.mod_pos_bound addr MAX_SIZE ltac:(lia)). pose proof (Z.div_mod addr MAX_SIZE ltac:(lia)).
  pose proof (Z.div_pos addr MAX_SIZE Ha ltac:(lia)) as Hdp. eapply post_bind; [apply start_vaddr_post|]. cbn beta. intros lo (_ & Hm & _ & Hlo). specialize (Hlo ltac:(lia)).
  assert (is_kernel (mkVirt lo) = false) as Hkl by (destruct (is_kernel (mkVirt lo)) eqn:E; [apply is_kernel_iff in E; lia|done]).
  unfold get_ctx. destruct (v_ctxs s !! cid) as [c|] eqn:Ec; cbn [unwrap obind]; [|apply post_panic]. destruct (iv_ctx s Hi cid c Hc Ec) as [[Hrm Hwf] _].
  destruct (lookup_region (x_regions c) lo) as [r|] eqn:El.
  { apply post_ret. intros r' [= <-]. apply (lookup_elem _ _ _ Hrm) in El as [Hr Hin]. exists c. pose proof (Hwf r Hr) as Hw. pose proof (slot_of_start _ _ Hw Hm Hin) as Elo.
    split_and!; [done|done|lia|destruct Hw as (-> & _); lia|done|by rewrite <- Elo]. }
  destruct (v_ctxs s !! v_kid s) as [k|] eqn:Ek; cbn [unwrap obind]; [|apply post_panic]. apply post_ret. destruct (iv_kernel s Hi k Ek) as [[Hkm Hkw] Hkk].
  destruct (lookup_region (x_regions k) lo) as [r|] eqn:El'; [|done]. apply (lookup_elem _ _ _ Hkm) in El' as [Hr Hin].
  specialize (Hkk r Hr). rewrite <- (slot_of_start _ _ (Hkw r Hr) Hm Hin) in Hkk. congruence.
Qed.

(** A fault in a user context is on a user address. *)
Lemma fault_user s t addr cause flags cid sctx : assert_valid addr cause flags = Ret tt -> check_violations addr cause flags = Ok tt ->
  get_context s t addr flags = Ret (cid, sctx) -> cid <> v_kid s ->
  is_kernel (mkVirt addr) = false /\ is_kernel_object_memory (mkVirt addr) = false /\ cid = t_ctx t /\ sctx = SecCtx.active_id (t_mgr t).
Proof.
  unfold assert_valid, check_violations, get_context. intros Ha Hv Hg Hne. destruct (is_kernel_object_memory (mkVirt addr)) eqn:Eo.
  { destruct (has flags USER); [discriminate|]. injection Hg as <- <-. done. }
  injection Hg as <- <-. split; [|done]. destruct (is_kernel (mkVirt addr)) eqn:Ek; [|done]. rewrite andb_true_r in Hv. destruct (has flags USER); [discriminate|].
  cbn [negb orb] in Ha. destruct (has flags INVALID), (bool_decide _); discriminate.
Qed.

(** What a fault was allowed to do *)
Definition authorised s (tid : nat) (addr : Z) (cause : MemoryAccessKind) (flags ip cid sctx' : Z) (info : MapRegion) (p : SecCtx.PermsInfo) (d : Z) : Prop :=
  exists t sctx s1 o, v_threads s !! tid = Some t /\ get_context s t addr flags = Ret (cid, sctx) /\
    get_map_region MAX_SIZE s addr cid cause = Ret (Ok info) /\ v_objs s !! r_obj info = Some o /\ d = o_prot o /\
    security s t cid sctx (r_obj info) addr cause ip d = Ret (s1, Ok p) /\ sctx' = used_sctx sctx addr p.

Abbreviation fault := (do_page_fault sizeof_Cap MAX_SIZE lookup_object read_meta key_of pins pager).

Lemma fault_added s tid addr cause flags ip : Inv s -> pages_in s addr -> 0 <= addr ->
  post (fault s tid addr cause flags ip) (fun x => same s x.1 \/ exists cid sctx info p d, authorised s tid addr cause flags ip cid sctx info p d /\
    added cid sctx (fun page l => cid <> v_kid s -> fault_leaf info addr p d page l) s x.1 /\
    (cid <> v_kid s -> is_kernel_object_memory (mkVirt addr) = false /\ exists c, v_ctxs s !! cid = Some c /\ info ∈ mappings (x_regions c))).
Proof.
  intros Hi Hp Ha. unfold do_page_fault. apply post_any. intros [] Ev. destruct (check_violations addr cause flags) as [[]|e] eqn:Ecv; [|by apply post_ret; left; apply same_refl].
  destruct (v_threads s !! tid) as [t|] eqn:Et; cbn [unwrap obind]; [|apply post_panic]. apply post_any. intros [cid sctx] Eg. apply post_any. intros [info|e] Ei; [|by apply post_ret; left; apply same_refl].
  assert (cid <> v_kid s -> is_kernel_object_memory (mkVirt addr) = false /\ exists c, v_ctxs s !! cid = Some c /\ info ∈ mappings (x_regions c) /\
    slot_wf (r_range info) /\ is_kernel (mkVirt (r_range info).1) = false) as Hu.
  { intros Hne. destruct (fault_user s t addr cause flags cid sctx Ev Ecv Eg Hne) as (Hk & Hko & _). split; [done|].
    destruct (fault_region s addr cid cause Hi Hne Ha Hk _ Ei info eq_refl) as (c & ? & ? & ? & ? & ?). eauto. }
  eapply post_weaken; [apply (page_fault_added _ _ _ _ _ _ _ _ _ (fun p d page l => cid <> v_kid s -> fault_leaf info addr p d page l)); [done|]|].
  - intros sctx' p d. destruct (decide (cid = v_kid s)) as [E|Hne].
    + intros s' page wp Hr. eapply post_weaken; [by apply mapper_any|]. intros s'' [K S O C]. split; [done..|]. intros cid'. specialize (C cid').
      destruct (v_ctxs s' !! cid') as [c|], (v_ctxs s'' !! cid') as [c'|]; try done. destruct C as [Er HA]. split; [done|]. intros i. specialize (HA i).
      destruct (x_arches c !! i), (x_arches c' !! i); try done. intros q l Hq. destruct (HA q l Hq) as [?|(? & ? & _)]; [by left|by right].
    + destruct (Hu Hne) as (_ & c & _ & _ & Hw & Hk). intros s' page wp Hr. eapply post_weaken; [by apply (mapper_user cid sctx' info addr p d Hw Hk)|].
      intros s'' [K S O C]. split; [done..|]. intros cid'. specialize (C cid').
      destruct (v_ctxs s' !! cid') as [c1|], (v_ctxs s'' !! cid') as [c'|]; try done. destruct C as [Er HA]. split; [done|]. intros i. specialize (HA i).
      destruct (x_arches c1 !! i), (x_arches c' !! i); try done. intros q l Hq. destruct (HA q l Hq) as [?|(? & ? & ?)]; [by left|by right].
  - intros x [?|(o & s1 & p & Ho & Es & Hadd)]; [by left|]. right. exists cid, (used_sctx sctx addr p), info, p, (o_prot o). split; [by exists t, sctx, s1, o|]. split; [done|].
    intros Hne. destruct (Hu Hne) as (? & c & ? & ? & _). eauto.
Qed.

Lemma fault_covers m info addr p d page l : rm_ok m -> info ∈ mappings m -> is_kernel_object_memory (mkVirt addr) = false -> fault_leaf info addr p d page l -> covers m page l.
Proof.
  intros Hrm Hi Hko (Hin & Hw & Hk & wp & Es). right. split; [done|]. exists info. split; [by apply lookup_elem|]. split; [|done].
  rewrite Hko in Es. destruct l as [pa st k]. cbn in Es. subst st. apply final_settings_ok.
Qed.

Lemma fault_Inv s tid addr cause flags ip : Inv s -> pages_in s addr -> 0 <= addr -> post (fault s tid addr cause flags ip) (fun x => Inv x.1).
Proof.
  intros Hi Hp Ha. eapply post_weaken; [by apply fault_added|]. intros x [Hs|(cid & sctx & info & p & d & _ & Hadd & Hu)]; [by eapply Inv_same|].
  eapply Inv_added; [done|done|]. cbn beta. intros c page l Hne Hc Hl. destruct (Hu Hne) as (Hko & c' & Hc' & Hin). rewrite Hc in Hc'. injection Hc' as <-.
  destruct (iv_ctx s Hi cid c Hne Hc) as [[Hrm _] _]. eapply fault_covers; eauto.
Qed.
End faults.

(** ** Runs *)

(** What is asked of the callers: operations on user contexts are given one, the number of
    mappings of an object fits its counter, a handle that is dropped holds a slot of the
    memory for kernel objects, a range of pages lies within an object, and so does the run of
    pages that a fault finds. *)
Definition event_ok s (e : event (T := T)) : Prop :=
  match e with
  | EMap cid _ obj _ _ => cid <> v_kid s /\ obj_ctxs s obj cid + 1 < 2 ^ 64
  | EUnmap cid _ => cid <> v_kid s
  | EKernelUnmap slot => kslot slot
  | EInvalidate _ lo hi _ => range_in lo hi
  | EFault _ addr _ _ _ pins => 0 <= addr /\ pages_in pins s addr
  | _ => True
  end.

Abbreviation exec := (exec sizeof_Cap MAX_SIZE lookup_object read_meta key_of trap pager).

Lemma other_same s (objs : gmap Z (T PageTree.PageRange)) h sec threads :
  same s (set_sec (set_objs s (map_imap (fun id o => Some (set_tree o (default (o_tree o) (objs !! id)))) (v_objs s)) h) sec threads).
Proof.
  split; [done..|]. intros id cid. unfold obj_ctxs. cbn. rewrite map_lookup_imap. by destruct (v_objs s !! id).
Qed.

Lemma exec_Inv s e : Inv s -> event_ok s e -> post (exec s e) Inv.
Proof.
  intros Hi. destruct e as [cid|cid sctx|cid|cid slot obj prot flags|cid slot|obj prot flags|slot|obj lo hi mode|tid slot u|tid addr cause flags ip pins|objs h sec threads]; cbn; intros He.
  - case_bool_decide as Hb; [by apply post_ret|]. apply ctx_new_Inv; [done|by apply eq_None_not_Some].
  - by apply register_Inv.
  - destruct (Z.eqb_spec cid (v_kid s)); [by apply post_ret|by apply ctx_drop_Inv].
  - destruct He. eapply post_bind; [by apply sys_map_Inv|]. intros [s' r] Hs'. by apply post_ret.
  - unfold sys_object_unmap. eapply (post_bind _ _ (fun x => Inv x.1)); [|intros [s' r] Hs'; by apply post_ret].
    apply post_any. intros [n|] _; [|by apply post_ret]. eapply post_bind; [by apply remove_object_Inv|]. intros s' Hs'. by apply post_ret.
  - eapply post_bind; [by apply insert_kernel_Inv|]. intros [s' r] Hs'. by apply post_ret.
  - by apply kernel_drop_Inv.
  - eapply post_weaken; [by apply invalidate_post|]. by intros s' [? _].
  - apply post_any. intros t _. apply post_any. intros [r|] _; [by apply control_Inv|by apply post_ret].
  - destruct He. eapply post_bind; [by apply fault_Inv|]. intros [s' r] Hs'. by apply post_ret.
  - apply post_ret. eapply Inv_same; [apply other_same|done].
Qed.

Definition step s s' : Prop := exists e, event_ok s e /\ exec s e = Ret s'.

(** The kernel's context has no regions yet and no other context exists. *)
Record boot s : Prop := mkBoot {
  bo_ctx : exists arches, v_ctxs s = {[v_kid s := mkCtx rm_new arches]};
  bo_objs id o : v_objs s !! id = Some o -> o_ctxs o = ∅;
  bo_slots : kernel_slots_new MAX_SIZE = Ret (v_slots s) }.

Lemma boot_Inv s : boot s -> Inv s.
Proof.
  intros [[arches Ec] Ho Es]. assert (forall id cid, obj_ctxs s id cid = 0) as E0.
  { intros id cid. unfold obj_ctxs. destruct (v_objs s !! id) as [o|] eqn:E; [|done]. cbn. by rewrite (Ho id o E), lookup_empty. }
  unfold kernel_slots_new, slot_of_addr in Es. destruct (_ && _); [discriminate|]. cbn [unwrap obind] in Es. injection Es as Es.
  split; rewrite ?Ec, <- ?Es; cbn [cur_kernel_slot kernel_slots_nums].
  - intros cid c Hk. by rewrite lookup_singleton_ne.
  - intros cid c id Hk. by rewrite lookup_singleton_ne.
  - intros. rewrite E0. lia.
  - intros c. rewrite lookup_singleton_eq. intros [= <-]. split; [apply rm_new_regions|]. cbn. intros r. unfold mappings, rm_new. cbn [tree]. rewrite it_new_spec. intros Hr. inversion Hr.
  - done.
  - intros n Hn. inversion Hn.
Qed.

Lemma reach_Inv s s' : boot s -> rtc step s s' -> Inv s'.
Proof. intros Hb%boot_Inv Hr. eapply (rtc_invariant step Inv); [done| |done]. intros s1 s2 H' (e & He & Ee). by eapply exec_Inv. Qed.

(** ** What the tables of user contexts hold *)

(** No shared table is linked at the address. *)
Definition unlinked s (cid sctx va : Z) : Prop :=
  forall c a, v_ctxs s !! cid = Some c -> x_arches c !! sctx = Some a -> link_at a va = None.

Lemma translate_own s cid sctx va l : unlinked s cid sctx va -> is_kernel (mkVirt va) = false -> translate s cid sctx va = Some l ->
  exists c a, v_ctxs s !! cid = Some c /\ x_arches c !! sctx = Some a /\ a_leaves a !! page_of va = Some l.
Proof.
  intros Hu Hk. unfold translate. destruct (v_ctxs s !! cid) as [c|] eqn:Ec; [|done]. destruct (x_arches c !! sctx) as [a|] eqn:Ea; [|done].
  unfold leaf_at. rewrite Hk. unfold user_leaf. cbn [tabs_of t_arch]. rewrite (Hu c a Ec Ea). eauto.
Qed.

(** A page lies in one region. *)
Lemma region_of_page m va r : regions_ok m -> lookup_region m (page_of va * 4096) = Some r -> lookup_region m va = Some r.
Proof.
  intros Hr El. apply lookup_elem in El as [Hin Hva]; [|apply Hr]. apply lookup_elem; [apply Hr|]. split; [done|].
  destruct (re_wf _ Hr r Hin) as (Hh & Hm & _). pose proof max_pos. pose proof max_pages as Hp. unfold page_of in *.
  assert ((r_range r).1 = 4096 * ((r_range r).1 / MAX_SIZE * (MAX_SIZE / 4096))) as E1 by (pose proof (Z.div_mod (r_range r).1 MAX_SIZE ltac:(lia)); nia).
  pose proof (Z.div_mod va 4096 ltac:(lia)). pose proof (Z.mod_pos_bound va 4096 ltac:(lia)). lia.
Qed.

Lemma mapping_counted s cid c r : Inv s -> cid <> v_kid s -> v_ctxs s !! cid = Some c -> r ∈ mappings (x_regions c) -> 0 < obj_ctxs s (r_obj r) cid.
Proof.
  intros Hi Hk Hc Hr. pose proof (iv_count s Hi cid c (r_obj r) Hk Hc) as Hn. rewrite <- times_mappings in Hn. enough (0 < times (mappings (x_regions c)) (r_obj r)) by lia.
  unfold times, zlen. apply list_elem_of_In in Hr. assert (In r (List.filter (fun q => r_obj q =? r_obj r) (mappings (x_regions c)))) as Hf by (apply filter_In; by rewrite Z.eqb_refl).
  destruct (List.filter _ _); [done|]. cbn. lia.
Qed.

Lemma own_covered s cid sctx va l : Inv s -> cid <> v_kid s -> unlinked s cid sctx va -> 4096 <= va -> is_kernel (mkVirt va) = false ->
  translate s cid sctx va = Some l -> exists c r, v_ctxs s !! cid = Some c /\ lookup_region (x_regions c) va = Some r /\ leaf_ok r l /\ 0 < obj_ctxs s (r_obj r) cid.
Proof.
  intros Hi Hne Hu Hva Hk Ht. destruct (translate_own s cid sctx va l Hu Hk Ht) as (c & a & Hc & Ha & Hl). destruct (iv_ctx s Hi cid c Hne Hc) as [Hr Har].
  destruct (Har sctx a Ha _ _ Hl) as [E|(_ & r & El & Hok & _)]; [unfold page_of in E; apply Z.div_small_iff in E; lia|].
  exists c, r. pose proof (region_of_page _ _ _ Hr El) as El'. split_and!; [done|done|done|]. apply lookup_elem in El' as [Hin _]; [|apply Hr]. by eapply mapping_counted.
Qed.

(** C6: after any sequence of operations from boot, what the page tables of a security
    context of a user context map at a user address, other than through a shared table, lies
    in a region that the context has there; it is writable or executable only if the region's
    protections are; it is a user, non-global mapping; and the region's object counts a
    mapping in the context, so that invalidations reach it. *)
Theorem own_tables_sound s0 s cid sctx va l : boot s0 -> rtc step s0 s -> cid <> v_kid s -> unlinked s cid sctx va ->
  4096 <= va -> is_kernel (mkVirt va) = false -> translate s cid sctx va = Some l ->
  exists c r, v_ctxs s !! cid = Some c /\ lookup_region (x_regions c) va = Some r /\
    (p_write (perms (lf_set l)) = true -> has (r_prot r) WRITE = true) /\
    (p_exec (perms (lf_set l)) = true -> has (r_prot r) EXEC = true) /\
    mflags (lf_set l) = mkMF false true /\ 0 < obj_ctxs s (r_obj r) cid.
Proof.
  intros Hb Hr Hne Hu Hva Hk Ht. destruct (own_covered s cid sctx va l) as (c & r & Hc & El & (Hw & He & Hf) & Hn); [by eapply reach_Inv|done..|].
  exists c, r. by split_and!.
Qed.

(** *** Unmapping *)
Lemma for_arches_regions s cid ids (f : Tabs -> outcome Tabs) : NoDup ids -> post (for_arches s cid ids f) (fun s' => v_kid s' = v_kid s /\
  forall c c', v_ctxs s !! cid = Some c -> v_ctxs s' !! cid = Some c' -> x_regions c' = x_regions c).
Proof.
  intros Hnd. eapply post_weaken; [by apply (for_arches_upd (fun _ _ => True))|]. intros s' [K _ _ _ _ X]. split; [done|]. intros c c' Hc Hc'. destruct (X c Hc) as (c'' & E & Er & _). congruence.
Qed.

Lemma remove_object_gone s cid slot : Inv s -> cid <> v_kid s -> post (remove_object MAX_SIZE s cid slot) (fun s' => v_kid s' = v_kid s /\
  forall lo c' va, start_vaddr MAX_SIZE slot = Ret lo ->
  v_ctxs s' !! cid = Some c' -> lo <= va < lo + MAX_SIZE -> lookup_region (x_regions c') va = None).
Proof.
  intros Hi Hk. unfold remove_object, get_ctx. destruct (v_ctxs s !! cid) as [c|] eqn:Ec; cbn [unwrap obind]; [|apply post_panic].
  apply post_any. intros start Es. destruct (start_vaddr_post slot start Es) as (_ & Hm & _). pose proof (iv_ctx s Hi cid c Hk Ec) as [Hreg _].
  destruct (remove_slot (x_regions c) start Hreg) as (m & -> & Hreg' & Hsub & Hcase). cbn [obind]. pose proof max_pos.
  assert (forall va, start <= va < start + MAX_SIZE -> lookup_region m va = None) as Hgone.
  { intros va Hva. destruct (lookup_region m va) as [q|] eqn:Eq; [|done]. pose proof (Hsub _ _ Eq) as Eq0. pose proof Eq0 as Hq. apply lookup_elem in Hq as [Hq Hin]; [|apply Hreg].
    pose proof (re_wf _ Hreg q Hq) as Hwf. pose proof (slot_start_eq _ _ Hwf Hin) as Elo.
    assert (va / MAX_SIZE * MAX_SIZE = start) as Est by (rewrite <- (Z.div_unique va MAX_SIZE (start / MAX_SIZE) (va - start)); pose proof (Z.div_mod start MAX_SIZE ltac:(lia)); lia).
    assert (lookup_region (x_regions c) start = Some q) as Ef by (apply lookup_elem; [apply Hreg|split; [done|destruct Hwf; lia]]). rewrite Ef in Hcase.
    destruct Hcase as (_ & Hg & _). rewrite Hg in Eq; [done|destruct Hwf; lia]. }
  destruct (lookup_region (x_regions c) start) as [r|].
  - apply post_any. intros cur _. eapply post_bind; [apply for_arches_regions, sctxs_nodup|]. cbn beta. intros s1 [K Hs1]. unfold remove_context. apply post_any. intros o _. apply post_any. intros m' _.
    apply post_ret. split; [done|]. intros lo c' va [= <-]%(eq_trans (eq_sym Es)). cbn. intros Hc' Hva. rewrite (Hs1 (set_regions c m) c'); [by apply Hgone|by apply lookup_insert_eq|done].
  - apply post_ret. split; [done|]. intros lo c' va [= <-]%(eq_trans (eq_sym Es)). cbn. rewrite lookup_insert_eq. intros [= <-]. apply Hgone.
Qed.

Lemma sys_unmap_slot s cid slot s' lo : sys_object_unmap MAX_SIZE s cid slot = Ret (s', Ok 0) -> start_vaddr MAX_SIZE slot = Ret lo ->
  remove_object MAX_SIZE s cid (lo / MAX_SIZE) = Ret s' /\ start_vaddr MAX_SIZE (lo / MAX_SIZE) = Ret lo.
Proof.
  intros Eu Elo. destruct (start_vaddr_post slot lo Elo) as (Hlo & Hm & Hc & _). pose proof max_pos. split.
  - unfold sys_object_unmap, slot_of_usize in Eu. unfold start_vaddr in Elo. destruct (chk 64 (slot * MAX_SIZE)) as [v| |]; try discriminate. cbn [obind] in Eu, Elo.
    unfold VirtAddr_new in *. destruct (canonical v); [|discriminate]. cbn [obind vraw] in *. injection Elo as ->. unfold slot_of_addr in Eu. destruct (_ && _); [discriminate|].
    cbn [obind vraw] in Eu. destruct (remove_object _ _ _ _) as [s1| |]; try discriminate. cbn [obind] in Eu. by injection Eu as ->.
  - unfold start_vaddr. pose proof (Z.div_mod lo MAX_SIZE ltac:(lia)) as Hd. rewrite chk_in by lia. cbn [obind].
    replace (lo / MAX_SIZE * MAX_SIZE) with lo by lia. unfold VirtAddr_new. by rewrite Hc.
Qed.

(** C14: when [sys_object_unmap] has unmapped a slot of a user context, in any state that the
    operations reach, no address of the slot translates any more in any security context of
    the context, other than through a shared table. *)
Theorem unmap_unmaps s0 s cid slot s' lo sctx va : boot s0 -> rtc step s0 s -> cid <> v_kid s -> sys_object_unmap MAX_SIZE s cid slot = Ret (s', Ok 0) ->
  start_vaddr MAX_SIZE slot = Ret lo -> lo <= va < lo + MAX_SIZE -> 4096 <= va -> is_kernel (mkVirt va) = false -> unlinked s' cid sctx va ->
  translate s' cid sctx va = None.
Proof.
  intros Hb Hr Hne Eu Elo Hva Hv4 Hk Hu. pose proof (reach_Inv s0 s Hb Hr) as Hi. destruct (sys_unmap_slot _ _ _ _ _ Eu Elo) as [Er Elo'].
  destruct (translate s' cid sctx va) as [l|] eqn:Et; [|done]. exfalso. destruct (remove_object_gone s cid _ Hi Hne _ Er) as [Ek Hg].
  destruct (own_covered s' cid sctx va l) as (c & r & Hc & El & _); [by eapply remove_object_Inv|congruence|done..|].
  rewrite (Hg lo c va) in El; done.
Qed.

(** *** Shared tables *)

(** An address is mapped by a shared table that the tables of a security context link to. *)
Definition via_shared s (cid sctx va : Z) (l : Leaf) : Prop := exists c a i t,
  v_ctxs s !! cid = Some c /\ x_arches c !! sctx = Some a /\ link_at a va = Some i /\ v_spts s !! i = Some t /\ spt_leaf_at t va = Some l.

Lemma via_translate s cid sctx va l : is_kernel (mkVirt va) = false -> via_shared s cid sctx va l -> translate s cid sctx va = Some l.
Proof.
  intros Hk (c & a & i & t & Hc & Ha & Hl & Ht & El). unfold translate, leaf_at, user_leaf. rewrite Hc, Ha, Hk. cbn [tabs_of t_arch t_spts]. by rewrite Hl, Ht.
Qed.

Lemma with_arch_via s cid i f cid' sctx va l : (forall x, post (f x) (shrunk x)) -> via_shared s cid' sctx va l -> post (with_arch s cid i f) (fun s' => via_shared s' cid' sctx va l).
Proof.
  intros Hf (c & a & n & t & Hc & Ha & Hl & Ht & El). unfold with_arch, get_ctx. apply post_any. intros c0 Ec0. apply post_any. intros a0 Ea0.
  eapply post_bind; [apply Hf|]. cbn beta. intros x [Lk Sp _]. apply post_ret. destruct (v_ctxs s !! cid) as [c1|] eqn:Ec1; [|discriminate]. injection Ec0 as ->.
  destruct (x_arches c0 !! i) as [a1|] eqn:Ea1; [|discriminate]. injection Ea0 as ->. destruct (decide (cid' = cid)) as [->|Hne].
  - rewrite Ec1 in Hc. injection Hc as ->. exists (mkCtx (x_regions c) (<[i := t_arch x]> (x_arches c))).
    destruct (decide (sctx = i)) as [->|Hi]; [rewrite Ea1 in Ha; injection Ha as ->; exists (t_arch x)|exists a]; exists n, t; cbn; rewrite lookup_insert_eq, Sp; split_and!; try done.
    + by rewrite lookup_insert_eq.
    + unfold link_at in *. by rewrite Lk.
    + by rewrite lookup_insert_ne.
  - exists c, a, n, t. cbn. rewrite lookup_insert_ne, Sp by done. done.
Qed.

Lemma for_arches_via s cid ids f cid' sctx va l : (forall x, post (f x) (shrunk x)) -> via_shared s cid' sctx va l -> post (for_arches s cid ids f) (fun s' => via_shared s' cid' sctx va l).
Proof.
  intros Hf. revert s. induction ids as [|i ids IH]; intros s Hv; cbn [for_arches]; [by apply post_ret|].
  eapply post_bind; [by apply with_arch_via|]. cbn beta. intros s1. apply IH.
Qed.

Lemma put_regions_via s cid c m cid' sctx va l : v_ctxs s !! cid = Some c -> via_shared s cid' sctx va l -> via_shared (put_ctx s cid (set_regions c m)) cid' sctx va l.
Proof.
  intros Hc (c' & a & i & t & Hc' & Ha & Hr). destruct (decide (cid' = cid)) as [->|Hne].
  - rewrite Hc in Hc'. injection Hc' as <-. exists (set_regions c m), a, i, t. cbn. by rewrite lookup_insert_eq.
  - exists c', a, i, t. cbn. by rewrite lookup_insert_ne.
Qed.

Lemma remove_object_via s cid slot cid' sctx va l : via_shared s cid' sctx va l -> post (remove_object MAX_SIZE s cid slot) (fun s' => via_shared s' cid' sctx va l).
Proof.
  intros Hv. unfold remove_object, get_ctx. destruct (v_ctxs s !! cid) as [c|] eqn:Ec; cbn [unwrap obind]; [|apply post_panic].
  apply post_any. intros start _. apply post_any. intros [[r|] m] _; [|by apply post_ret, put_regions_via].
  apply post_any. intros cur _. eapply post_bind; [apply for_arches_via; [intros x; apply arch_unmap_shrunk|by apply put_regions_via]|]. cbn beta.
  intros s1 Hv1. unfold remove_context. apply post_any. intros o _. apply post_any. intros m' _. by apply post_ret.
Qed.

(** A new shared table leaves those that are there. *)
Lemma new_table_via s x cid sctx va l : via_shared s cid sctx va l -> via_shared (set_tables s (v_kernel s) (<[fresh_spt s := x]> (v_spts s))) cid sctx va l.
Proof.
  intros (c & a & i & t & Hc & Ha & Hl & Ht & El). exists c, a, i, t. cbn. rewrite lookup_insert_ne; [done|].
  intros <-. apply (is_fresh (dom (v_spts s))). apply elem_of_dom. by exists t.
Qed.

Lemma insert_rest_via s cid slot id (mk : MapRegion) cid' sctx va l : via_shared s cid' sctx va l ->
  post (let! s := add_context s id cid in let! c := get_ctx s cid in let! start := start_vaddr MAX_SIZE slot in
    match lookup_region (x_regions c) start with
    | Some _ => Ret (s, Err Busy)
    | None => let! m := insert_region (x_regions c) mk in Ret (put_ctx s cid (set_regions c m), Ok tt)
    end) (fun x => via_shared x.1 cid' sctx va l).
Proof.
  intros Hv. unfold add_context. apply post_any. intros s2 Hs2. apply obind_Ret in Hs2 as (o & _ & Hs2). apply obind_Ret in Hs2 as (m & _ & [= <-]).
  apply post_any. intros c Ec. unfold get_ctx in Ec. cbn in Ec. destruct (v_ctxs s !! cid) as [c'|] eqn:Ec'; [|discriminate]. injection Ec as ->.
  apply post_any. intros start _. destruct (lookup_region _ _); [by apply post_ret|]. apply post_any. intros m' _. apply post_ret. by apply put_regions_via.
Qed.

Lemma insert_object_via s cid slot info cid' sctx va l : via_shared s cid' sctx va l -> post (insert_object MAX_SIZE s cid slot info) (fun x => via_shared x.1 cid' sctx va l).
Proof.
  intros Hv. unfold insert_object. eapply (post_bind _ _ (fun x => via_shared x.1 cid' sctx va l)).
  { destruct (has _ _); [|by apply post_ret]. apply post_any. intros t _. by apply post_ret. }
  intros [s1 shadow] Hv1. cbn [fst] in Hv1. apply post_any. intros range _. destruct (negb _ && _); apply insert_rest_via; [by apply new_table_via|done].
Qed.

(** C34: a shared table outlives the mapping it was made for.  Whatever an address of a slot
    translates to through a shared table, in any state that the operations reach, it still
    translates to after [sys_object_unmap] of the slot, when no region holds the address any
    more; and also after another object has been mapped in the slot. *)
Theorem unmap_keeps_shared s0 s cid slot s' lo sctx va l : boot s0 -> rtc step s0 s -> cid <> v_kid s -> sys_object_unmap MAX_SIZE s cid slot = Ret (s', Ok 0) ->
  start_vaddr MAX_SIZE slot = Ret lo -> lo <= va < lo + MAX_SIZE -> is_kernel (mkVirt va) = false -> via_shared s cid sctx va l ->
  (exists c, v_ctxs s' !! cid = Some c /\ lookup_region (x_regions c) va = None) /\ translate s' cid sctx va = Some l /\
  forall obj prot flags s2 r, sys_object_map MAX_SIZE s' slot obj cid prot flags = Ret (s2, r) -> translate s2 cid sctx va = Some l.
Proof.
  intros Hb Hr Hne Eu Elo Hva Hk Hv. pose proof (reach_Inv s0 s Hb Hr) as Hi. destruct (sys_unmap_slot _ _ _ _ _ Eu Elo) as [Er Elo'].
  destruct (remove_object_gone s cid _ Hi Hne _ Er) as [_ Hg]. pose proof (remove_object_via s cid _ cid sctx va l Hv _ Er) as Hv'. split_and!.
  - destruct Hv' as (c & a & i & t & Hc & _). exists c. split; [done|]. by apply (Hg lo).
  - by apply via_translate.
  - intros obj prot flags s2 r Em. unfold sys_object_map, map_object_into_context in Em. apply obind_Ret in Em as ([s3 res] & Em & [= <- _]).
    apply obind_Ret in Em as ([n|] & _ & Em); [|injection Em as <- _; by apply via_translate]. apply via_translate; [done|]. by apply (insert_object_via _ _ _ _ _ _ _ _ Hv' _ Em).
Qed.

(** *** Invalidation *)

(** C16: after the pages [lo] to [hi] of an object have been invalidated, in any state that
    the operations reach, no user context has a mapping, other than through a shared table, at
    the pages [lo] to [hi] counted from the start of any region of the object (or, when only
    writes are taken away, no writable one).  These are the places that show the pages [lo]
    to [hi] of the object in a region mapped with its null page; a region mapped with
    [NO_NULLPAGE] shows each page one place earlier, so there the places that are cleared are
    those of the pages [lo + 1] to [hi + 1] (see [VirtMemLost.nullpage_invalidation_misses]). *)
Theorem invalidate_reaches s0 s obj lo hi mode s' cid c r sctx va l : boot s0 -> rtc step s0 s -> range_in lo hi -> invalidate s obj lo hi mode = Ret s' ->
  cid <> v_kid s -> v_ctxs s' !! cid = Some c -> r ∈ mappings (x_regions c) -> r_obj r = obj -> is_kernel (mkVirt (r_range r).1) = false ->
  (r_range r).1 + lo * 4096 <= va < (r_range r).1 + hi * 4096 -> 4096 <= va -> unlinked s' cid sctx va -> translate s' cid sctx va = Some l ->
  mode = WriteProtect /\ p_write (perms (lf_set l)) = false.
Proof.
  intros Hb Hr Hin Ei Hne Hc Hrm Ho Hk Hva Hv4 Hu Ht. pose proof (reach_Inv s0 s Hb Hr) as Hi. destruct (invalidate_post obj lo hi mode s Hi Hin s' Ei) as (Hi' & Hmono & Hcl).
  destruct (mo_ctx mode s s' Hmono cid c Hc) as (c0 & Hc0 & Etree & _). rewrite (mappings_tree _ _ Etree) in Hrm.
  destruct (iv_ctx s Hi cid c0 Hne Hc0) as [Hreg _]. destruct (re_wf _ Hreg r Hrm) as (Hh & Hm & Hrok). pose proof (user_region _ _ Hrok Hk). pose proof max_pos. pose proof max_pages as Hp.
  assert (is_kernel (mkVirt va) = false) as Hkv.
  { destruct (is_kernel (mkVirt va)) eqn:E; [|done]. apply is_kernel_iff in E. destruct Hin as (_ & ? & _). lia. }
  destruct (translate_own s' cid sctx va l Hu Hkv Ht) as (c1 & a & Hc1 & Ha & Hl). rewrite Hc in Hc1. injection Hc1 as <-.
  assert (~ bad mode l) as Hnb.
  { eapply (Hcl cid Hne c0 r Hc0 Hrm Ho Hk c sctx a (page_of va) l Hc Ha); [unfold page_of; intros E%Z.div_small_iff; lia| |done].
    assert ((r_range r).1 = 4096 * ((r_range r).1 / MAX_SIZE * (MAX_SIZE / 4096))) as E1 by (pose proof (Z.div_mod (r_range r).1 MAX_SIZE ltac:(lia)); nia).
    unfold page_of. pose proof (Z.div_mod va 4096 ltac:(lia)). pose proof (Z.mod_pos_bound va 4096 ltac:(lia)). lia. }
  destruct mode; cbn in Hnb; [by destruct Hnb|]. split; [done|]. by destruct (p_write _).
Qed.

(** *** Faults *)
Lemma security_grants s t cid sctx id addr cause ip d s1 p :
  check_security sizeof_Cap MAX_SIZE lookup_object read_meta key_of s t cid sctx id addr cause ip d = Ret (s1, Ok p) ->
  is_kernel (mkVirt ip) = true \/ sctx = 0 \/ grants p (access_bits cause) = true.
Proof.
  unfold check_security. destruct (is_kernel (mkVirt ip)); [by left|]. destruct (Z.eqb_spec sctx 0); [by right; left|]. cbn [orb]. intros E. right. right. revert E.
  destruct (get_map_region _ _ _ _ _) as [[e|e]| |]; try discriminate. cbn [obind]. destruct (VirtAddr_sub _ _) as [v| |]; try discriminate. cbn [obind].
  destruct (SecCtx.mgr_lookup _ _ _ _ _ _ _ _ _) as [[h q]| |]; try discriminate. cbn [obind]. destruct (grants q _) eqn:Eg; [by intros [= _ <-]|].
  destruct (SecCtx.search_access _ _ _ _ _ _ _ _ _) as [[h' q']| |]; try discriminate. cbn [obind]. destruct (grants q' _) eqn:Eg'; [by intros [= _ <-]|discriminate].
Qed.

Lemma final_write r wp kern p d : p_write (perms (PageTableRead.stored (final_settings r wp kern p d))) = true ->
  has (r_prot r) WRITE = true /\ has (Z.lor (SecCtx.provide p) d) WRITE = true /\ has (SecCtx.restrict p) WRITE = false /\ wp = false.
Proof.
  cbn. rewrite !has_write. unfold final_perms. rewrite Z.land_spec, Z.ldiff_spec, mapping_perms_write, has_write. rewrite !andb_true_iff, !negb_true_iff. tauto.
Qed.

Lemma final_exec r wp kern p d : p_exec (perms (PageTableRead.stored (final_settings r wp kern p d))) = true ->
  has (r_prot r) EXEC = true /\ has (Z.lor (SecCtx.provide p) d) EXEC = true /\ has (SecCtx.restrict p) EXEC = false.
Proof.
  cbn. rewrite !has_exec. unfold final_perms. rewrite Z.land_spec, Z.ldiff_spec, mapping_perms_exec, has_exec. rewrite !andb_true_iff, !negb_true_iff. tauto.
Qed.

Abbreviation fault_with pins := (do_page_fault sizeof_Cap MAX_SIZE lookup_object read_meta key_of pins pager).

(** A leaf of a security context's own tables *)
Definition own_leaf s (cid sctx page : Z) (l : Leaf) : Prop :=
  exists c a, v_ctxs s !! cid = Some c /\ x_arches c !! sctx = Some a /\ a_leaves a !! page = Some l.

(** C7: whatever a page fault adds to the own tables of a security context of a user
    context (its leaves; the leaves of shared tables are not spoken of), in any state that the
    operations reach, it adds for the memory context of the faulting thread and the security
    context that was found to grant the access; it lies in the region of the faulting
    address; security has granted the access, or the code that faulted is the kernel's, or
    the active security context is the kernel's; and the new mapping is writable or executable
    only if the region is and what security provides or the object's default is, and security
    does not restrict it. *)
Theorem fault_authorised s0 s pins tid addr cause flags ip s' res cid sctx page l : boot s0 -> rtc step s0 s -> 0 <= addr -> pages_in pins s addr ->
  fault_with pins s tid addr cause flags ip = Ret (s', res) -> cid <> v_kid s -> own_leaf s' cid sctx page l -> ~ own_leaf s cid sctx page l ->
  exists t info p d, v_threads s !! tid = Some t /\ t_ctx t = cid /\ authorised s tid addr cause flags ip cid sctx info p d /\
    (r_range info).1 <= page * 4096 < (r_range info).2 /\
    (is_kernel (mkVirt ip) = true \/ SecCtx.active_id (t_mgr t) = 0 \/ grants p (access_bits cause) = true) /\
    (p_write (perms (lf_set l)) = true -> has (r_prot info) WRITE = true /\ has (Z.lor (SecCtx.provide p) d) WRITE = true /\ has (SecCtx.restrict p) WRITE = false) /\
    (p_exec (perms (lf_set l)) = true -> has (r_prot info) EXEC = true /\ has (Z.lor (SecCtx.provide p) d) EXEC = true /\ has (SecCtx.restrict p) EXEC = false).
Proof.
  intros Hb Hr Ha Hp Ef Hne (c' & a' & Hc' & Ha' & Hl') Hnew. pose proof (reach_Inv s0 s Hb Hr) as Hi.
  destruct (fault_added pins s tid addr cause flags ip Hi Hp Ha _ Ef) as [[E _ _ _]|(cid0 & sctx0 & info & p & d & Hau & [_ _ _ C] & Hu)]; cbn [fst] in *.
  { destruct Hnew. exists c', a'. by rewrite <- E. }
  specialize (C cid). rewrite Hc' in C. destruct (v_ctxs s !! cid) as [c|] eqn:Ec; [|done]. destruct C as [_ HA]. specialize (HA sctx). rewrite Ha' in HA.
  destruct (x_arches c !! sctx) as [a|] eqn:Ea; [|done]. destruct (HA page l Hl') as [Hl|(-> & -> & Hfl)]; [destruct Hnew; by exists c, a|].
  destruct (Hfl Hne) as (Hin & _ & _ & wp & Es). pose proof Hau as (t & sx & s1 & o & Et & Eg & Em & Eo & -> & Esec & ->).
  exists t, info, p, (o_prot o). rewrite Es. assert (cid0 = t_ctx t /\ sx = SecCtx.active_id (t_mgr t)) as [-> ->].
  { unfold get_context in Eg. destruct (Hu Hne) as [Hko _]. rewrite Hko in Eg. by injection Eg as <- <-. }
  split_and!; [done|done|done|lia|lia| | |].
  - by eapply security_grants.
  - intros (? & ? & ? & _)%final_write. done.
  - by intros ?%final_exec.
Qed.

(** *** A fault resolves the access *)

(** The page an address is in, as an offset into the region of its slot *)
Lemma region_offset r addr : slot_wf (r_range r) -> (r_range r).1 <= addr < (r_range r).2 ->
  (r_range r).1 + from_address MAX_SIZE addr * 4096 = page_of addr * 4096.
Proof.
  intros Hwf Ha. pose proof (slot_start_eq _ _ Hwf Ha) as Es. pose proof max_pos. pose proof max_pages as Hp. unfold from_address, PAGE_SIZE, page_of.
  pose proof (Z.div_mod addr MAX_SIZE ltac:(lia)) as Hd. assert (addr = addr mod MAX_SIZE + addr / MAX_SIZE * (MAX_SIZE / 4096) * 4096) as E by nia.
  assert (addr / 4096 = addr mod MAX_SIZE / 4096 + addr / MAX_SIZE * (MAX_SIZE / 4096)) as -> by (rewrite E at 1; by rewrite Z.div_add). nia.
Qed.

Lemma page_span page va : page_of va = page -> page * 4096 / SPAN = va / SPAN /\ page_of (page * 4096) = page.
Proof.
  unfold page_of. intros <-. split; [|by rewrite Z.div_mul]. change SPAN with (4096 * 262144). rewrite <- !Z.div_div by lia. by rewrite Z.div_mul.
Qed.

(** Where nothing is mapped yet, or what is mapped is replaced, the page is free. *)
Lemma page_freed x v hi w x1 page : PageTableInv.region_ok v hi -> is_kernel (mkVirt v) = false -> v = page * 4096 -> page <> 0 -> v + 4096 <= hi ->
  link_at (t_arch x) v = None -> a_leaves (t_arch x) !! page = None \/ w = true ->
  (if w && arch_mapped x (mkCursor v (hi - v)) then arch_unmap x (mkCursor v (hi - v)) else Ret x) = Ret x1 ->
  a_links (t_arch x1) = a_links (t_arch x) /\ a_leaves (t_arch x1) !! page = None.
Proof.
  intros Hr Hk Ev Hp Hhi Hl Hold. destruct w; cbn [andb].
  2:{ intros [= <-]. split; [done|]. by destruct Hold. }
  destruct (arch_mapped x _) eqn:Em; intros Ex.
  - split; [apply (arch_unmap_shrunk _ _ _ Ex)|]. eapply arch_unmap_gone; [done|done|exact Ex|lia|done].
  - injection Ex as <-. split; [done|]. destruct (a_leaves (t_arch x) !! page) as [l|] eqn:El; [|done]. exfalso. assert (arch_mapped x (mkCursor v (hi - v)) = true) as E; [|congruence].
    unfold arch_mapped. cbn [reader_finds c_start c_len]. rewrite (proj2 (Z.eqb_neq _ _)) by lia. replace (bool_decide _) with true; [done|]. symmetry. unfold leaf_at. rewrite Hk. unfold user_leaf. rewrite Hl. apply bool_decide_eq_true. exists l. subst v. unfold page_of. by rewrite Z.div_mul.
Qed.

(** Mapping a page makes its address translate to it. *)
Lemma mapper_resolves s cid sctx r addr page st s' : slot_wf (r_range r) -> is_kernel (mkVirt (r_range r).1) = false -> (r_range r).1 <= addr < (r_range r).2 ->
  4096 <= addr -> run_in (object_page MAX_SIZE r addr) page -> r_shared r = None -> unlinked s cid sctx addr ->
  (translate s cid sctx addr = None \/ p_write (perms st) = true) ->
  mapper s cid sctx r (from_address MAX_SIZE addr) (opp_new [(page, st)]) = Ret s' ->
  exists k, translate s' cid sctx addr = Some (mkLeaf (PageTree.physical_address page) (PageTableRead.stored st) k).
Proof.
  intros Hwf Hk Ha Hv4 Hrun Hs Hu Hold Em. pose proof (run_region r addr page Hwf Hk Hrun) as (Hr & Hk' & Hlo & Hhi). pose proof (region_offset r addr Hwf Ha) as Eoff.
  pose proof (from_address_range addr) as Hfr. unfold mapper in Em. rewrite page_count_one in Em. apply obind_Ret in Em as (cur & Ecur & Em).
  rewrite Hs in Em. apply cursor_post in Ecur; [|unfold as_byte_offset, PAGE_SIZE; lia]. unfold as_byte_offset, PAGE_SIZE in Ecur. rewrite Eoff in *. subst cur.
  set (v := page_of addr * 4096) in *. set (hi := v + 4096 * nr_pages page) in *. replace (4096 * nr_pages page) with (hi - v) in Em by lia.
  assert (is_kernel (mkVirt addr) = false) as Hka by (destruct Hwf as (_ & _ & Hok); pose proof (user_region _ _ Hok Hk); destruct (is_kernel (mkVirt addr)) eqn:E; [apply is_kernel_iff in E; lia|done]).
  destruct (page_span _ addr eq_refl) as [Espan Epage]. fold v in Espan, Epage.
  assert (v <> 0) as Hv0 by (unfold v, page_of; intros E; assert (addr / 4096 = 0) as E'%Z.div_small_iff by lia; lia).
  unfold with_arch, get_ctx in Em. destruct (v_ctxs s !! cid) as [c|] eqn:Ec; [|discriminate]. cbn [unwrap obind] in Em. destruct (x_arches c !! sctx) as [a|] eqn:Ea; [|discriminate]. cbn [unwrap obind] in Em.
  assert (link_at a v = None) as Hlink by (unfold link_at; rewrite Espan; by apply (Hu c a)).
  assert (translate s cid sctx addr = a_leaves a !! page_of addr) as Etr.
  { unfold translate. rewrite Ec, Ea. unfold leaf_at. rewrite Hka. unfold user_leaf. cbn. by rewrite (Hu c a Ec Ea). }
  apply obind_Ret in Em as (x' & Ex & Em). injection Em as <-. apply obind_Ret in Ex as (x1 & Ex1 & Ex).
  assert (a_links (t_arch x1) = a_links a /\ a_leaves (t_arch x1) !! page_of addr = None) as [El1 En1].
  { apply (page_freed _ v hi _ _ _ Hr Hk' eq_refl) in Ex1; [done|lia|destruct Hrun; lia|done|]. destruct Hold; [left; cbn; congruence|by right]. }
  assert (all_settings st (opp_new [(page, st)])) as Hg by (by repeat constructor).
  destruct (arch_map_first st (all_settings st) (opp_peek_settings st) (opp_consume_settings st) v hi x1 _ _ _ x' Hr Hk' Hv0 Hg eq_refl) as (k & Hleaf); [unfold link_at; by rewrite El1|by rewrite Epage|done|].
  pose proof (arch_map_grown st (all_settings st) (opp_peek_settings st) (opp_consume_settings st) v hi x1 _ Hr Hg x' Ex) as [Hlk _ _].
  exists k. unfold translate. cbn. rewrite lookup_insert_eq. cbn. rewrite lookup_insert_eq. unfold leaf_at. rewrite Hka. unfold user_leaf. cbn [tabs_of t_arch].
  destruct (link_at (t_arch x') addr) as [i|] eqn:El; [apply Hlk in El; rewrite El1, <- Espan in El; unfold link_at in Hlink; congruence|].
  rewrite Epage in Hleaf. rewrite Hleaf. cbn. by rewrite Z.add_0_r.
Qed.

Lemma same_unlinked s s1 cid sctx va : same s s1 -> unlinked s cid sctx va -> unlinked s1 cid sctx va.
Proof. intros [E _ _ _] Hu c a. rewrite E. apply Hu. Qed.

Lemma same_translate s s1 cid sctx va : same s s1 -> unlinked s cid sctx va -> is_kernel (mkVirt va) = false -> translate s1 cid sctx va = translate s cid sctx va.
Proof.
  intros [E _ _ _] Hu Hk. unfold translate. rewrite E. destruct (v_ctxs s !! cid) as [c|] eqn:Ec; [|done]. destruct (x_arches c !! sctx) as [a|] eqn:Ea; [|done].
  unfold leaf_at. rewrite Hk. unfold user_leaf. cbn [tabs_of t_arch]. by rewrite (Hu c a Ec Ea).
Qed.

Lemma check_settings_permits active addr r wp p d cause pa k : active <> 0 -> check_settings active addr (final_settings r wp false p d) cause = Ok tt ->
  permits (mkLeaf pa (PageTableRead.stored (final_settings r wp false p d)) k) cause = true /\ (cause = Write -> p_write (perms (final_settings r wp false p d)) = true).
Proof.
  intros Ha. unfold check_settings. cbn [mf_user mflags final_settings mapping_settings negb]. rewrite (proj2 (Z.eqb_neq _ _) Ha).
  destruct cause; cbn; destruct (has _ _); done.
Qed.

Lemma switch_to_active s tid t sctx addr p s' t' sctx' : SecCtx.active_id (t_mgr t) <> 0 -> used_sctx sctx addr p <> 0 -> switch_to s tid t sctx addr p = Ret (s', t', sctx') ->
  SecCtx.active_id (t_mgr t') <> 0.
Proof.
  unfold switch_to, used_sctx. intros Ha Hu. destruct (_ && _); [|by intros [= _ <- _]]. unfold SecCtx.switch_context. destruct (_ =? _); [by intros [= _ <- _]|].
  destruct (SecCtx.inactive _ !! _); [|by intros [= _ <- _]]. destruct (v_sec s !! _); [|discriminate]. by intros [= _ <- _].
Qed.

(** The object's page that the fault finds is the one that is mapped. *)
Lemma map_object_page_resolves pins s cid sctx active r addr cause p d s' : slot_wf (r_range r) -> is_kernel (mkVirt (r_range r).1) = false -> (r_range r).1 <= addr < (r_range r).2 ->
  4096 <= addr -> object_page MAX_SIZE r addr < MAX_PAGES MAX_SIZE -> pages_in pins s addr -> r_shared r = None -> is_kernel_object_memory (mkVirt addr) = false ->
  active <> 0 -> unlinked s cid sctx addr -> is_kernel (mkVirt addr) = false -> (translate s cid sctx addr = None \/ cause = Write) ->
  map_object_page MAX_SIZE pins pager s cid sctx active r addr cause p d = Ret (s', Ok tt) ->
  exists st s1, fault_page MAX_SIZE pins pager s (r_obj r) (object_page MAX_SIZE r addr) (if bool_decide (cause = Write) then PageTree.WRITE else 0) = Ret (st, s1) /\
    match st with
    | PageTree.Ready page _ => exists l, translate s' cid sctx addr = Some l /\ lf_pa l = PageTree.physical_address page /\ permits l cause = true
    | st => st = PageTree.NoPage
    end.
Proof.
  intros Hwf Hk Ha Hv4 Hpn Hp Hs Hko Hact Hu Hka Hold. unfold map_object_page. intros E. apply obind_Ret in E as ([st s1] & Ef & E). exists st, s1. split; [done|].
  pose proof (fault_page_same _ _ _ _ _ _ Ef) as Hs1. cbn [snd] in Hs1. apply obind_Ret in E as (o & _ & E). rewrite Hko in E. destruct st as [page sh| | | |]; try discriminate; try done.
  pose proof (proj1 (Hp s _ _ page s1 ltac:(done) (object_page_next r addr) Hpn) _ _ Ef) as Hrun. destruct (check_settings _ _ _ _) as [[]|e] eqn:Ec; [|discriminate].
  apply obind_Ret in E as (s2 & Ed & E). apply obind_Ret in E as (s3 & Em & E). injection E as <-.
  assert (same s s2) as Hs2. { eapply same_trans; [done|]. destruct (_ && _); [by eapply add_dirty_same|injection Ed as <-; apply same_refl]. }
  destruct (mapper_resolves s2 cid sctx r addr page (final_settings r sh false p d) s3 Hwf Hk Ha Hv4 Hrun Hs (same_unlinked _ _ _ _ _ Hs2 Hu)) as [k Hk3].
  - rewrite (same_translate s s2) by done. destruct Hold as [?| ->]; [by left|right]. by apply (check_settings_permits active addr r sh p d Write 0 0 Hact).
  - exact Em.
  - eexists. split; [exact Hk3|]. split; [done|]. by apply (check_settings_permits active addr).
Qed.

(** C15: let a thread of a user context, whose active security context is not the kernel's,
    fault on a user address outside the first page, in any state that the operations reach;
    let the region of the address have no shared table and no shadow, let no shared table be
    linked there, and let nothing have been mapped at the address or the access be a write.
    When the handler then returns without an error, the access that faulted goes through in
    the security context that was found to grant it (if that is not the kernel's): the address
    now translates to the frame of the object's page that the fault found, with the permission
    that the access needs; or the object had no page there.  (Where a page is mapped already,
    a fault for reading or executing it replaces nothing: it can return without an error and
    the access faults again.) *)
Theorem fault_resolves s0 s pins tid t addr cause flags ip sctx info p d s' : boot s0 -> rtc step s0 s -> pages_in pins s addr ->
  4096 <= addr -> is_kernel (mkVirt addr) = false -> v_threads s !! tid = Some t -> t_ctx t <> v_kid s -> SecCtx.active_id (t_mgr t) <> 0 ->
  authorised s tid addr cause flags ip (t_ctx t) sctx info p d -> sctx <> 0 -> r_shared info = None -> r_shadow info = None ->
  unlinked s (t_ctx t) sctx addr -> translate s (t_ctx t) sctx addr = None \/ cause = Write ->
  fault_with pins s tid addr cause flags ip = Ret (s', Ok tt) ->
  exists s1 st s2, alike s s1 /\
    fault_page MAX_SIZE pins pager s1 (r_obj info) (object_page MAX_SIZE info addr) (if bool_decide (cause = Write) then PageTree.WRITE else 0) = Ret (st, s2) /\
    match st with
    | PageTree.Ready page _ => exists l, translate s' (t_ctx t) sctx addr = Some l /\ lf_pa l = PageTree.physical_address page /\ permits l cause = true
    | st => st = PageTree.NoPage
    end.
Proof.
  intros Hb Hr Hp Hv4 Hk Et Hne Hact (t' & sx & s1 & o & Et' & Eg & Em & Eo & -> & Esec & ->) Hsx Hsh Hsd Hu Hold. pose proof (reach_Inv s0 s Hb Hr) as Hi.
  rewrite Et in Et'. injection Et' as <-. unfold do_page_fault. intros E. apply obind_Ret in E as ([] & Ev & E). destruct (check_violations addr cause flags) as [[]|] eqn:Ecv; [|discriminate].
  destruct (fault_user s t addr cause flags _ _ Ev Ecv Eg Hne) as (_ & Hko & _ & ->). rewrite Et in E. cbn [unwrap obind] in E. rewrite Eg in E. cbn [obind] in E. rewrite Em in E. cbn [obind] in E.
  destruct (fault_region s addr _ cause Hi Hne ltac:(lia) Hk _ Em info eq_refl) as (c & Hc & Hin & Ha & Hwf & Hkr).
  unfold page_fault_to_region in E. destruct (check_object_addr _ _ _ _ _) as [[]|] eqn:Eco; [|discriminate]. apply check_object_addr_ok in Eco. unfold get_obj in E. rewrite Eo in E. cbn [unwrap obind] in E.
  rewrite Esec in E. cbn [obind] in E. destruct (check_security_same _ _ _ _ _ _ _ _ _ _ Esec) as [Hs1 Hl1]. cbn [fst] in *.
  apply obind_Ret in E as ([[s2 t2] sx2] & Esw & E). destruct (switch_to_same _ _ _ _ _ _ _ Esw) as (Hs2 & Hl2 & ->). pose proof (switch_to_active _ _ _ _ _ _ _ _ _ Hact Hsx Esw) as Hact2.
  unfold region_map, map_shared, map_shadow_page in E. rewrite Hsh, Hsd in E. cbn [obind] in E. pose proof (same_trans _ _ _ Hs1 Hs2) as Hs12.
  assert (alike s s2) as Hl12 by (destruct Hl1 as (? & ? & ?), Hl2 as (? & ? & ?); unfold alike; split_and!; congruence).
  eapply map_object_page_resolves in E as (st & s3 & Ef & Hst); [by exists s2, st, s3|done|done|done|done|done|by eapply pages_in_alike|done|done|done|by eapply same_unlinked|done|].
  by rewrite (same_translate s s2).
Qed.
End inv.

(** ** A machine

    Objects of a gigabyte; two security contexts, 50 and 51, whose permissions on the objects
    7 (data), 8 and 9 (code) are cached; a thread in each, in the context 1. *)
#[local] Instance ex_checks : Build := true.
Definition MS : Z := 2 ^ 30.
Definition ex_key (_ : Z) : VerifyingKey := mkVerifyingKey [] Ecdsa_scheme.
Definition ex_cap : Cap := mkCap 0 0 0 0 Gate_default (mkRevoc 0) (mkSignature [] Ecdsa_scheme).
Definition ex_sec (id : Z) (l : list (Z * Z)) : SecCtx.SecurityContext :=
  SecCtx.mkSctx (Some (SecCtx.mkKobj id (SecCtx.SecCtxBase_new 7 0) (fun _ => ex_cap))) (list_to_map ((fun x => (x.1, SecCtx.mkPerms id x.2 0)) <$> l)).
Definition ex_obj (prot : Z) : Obj (T := ivals) := mkObj ∅ it_new false prot [].
Definition ex_pager (_ _ : Z) (t : ivals PageTree.PageRange) (h : PageTree.Heap (T := ivals)) := (t, h).
Definition ex_none (_ : Z) : option Z := None.
Definition ex_thread (sec : nat) (id : Z) : Thread := mkThread (SecCtx.mkMgr sec ∅ id) 1.
Definition ex_slots : KernelSlots := mkSlots (0xfffff00000000000 / MS) [].

Definition ex0 : Vm (T := ivals) :=
  mkVm {[0 := mkCtx rm_new {[0 := arch_new 0x9000]}]} 0 ∅ ∅ {[7 := ex_obj 0; 8 := ex_obj 0; 9 := ex_obj 4]} ∅
    (PageTree.mkHeap ∅ (fun _ => 0) 0 [0x100000; 0x101000; 0x102000; 0x103000; 0x104000; 0x105000])
    {[0%nat := ex_sec 50 [(7, 3); (8, 3); (9, 7)]; 1%nat := ex_sec 51 [(7, 7); (8, 1); (9, 7)]]}
    {[0%nat := ex_thread 0 50; 1%nat := ex_thread 1 51]} ex_slots.

Abbreviation ex_exec := (VirtMem.exec (T := ivals) 100 MS ex_none ex_none ex_key 0x9000 ex_pager).
Abbreviation ex_run := (run (T := ivals) 100 MS ex_none ex_none ex_key 0x9000 ex_pager).
Abbreviation ex_step := (step (T := ivals) 100 MS ex_none ex_none ex_key 0x9000 ex_pager).

Definition after (es : list (event (T := ivals))) : Vm (T := ivals) := ret_or ex0 (ex_run ex0 es).

(** The code is mapped at the slot 2, the data for reading and writing at the slot 3 and for
    reading at the slot 4. *)
Definition ex_setup : list (event (T := ivals)) := [ECtx 1; ESctx 1 50; ESctx 1 51; EMap 1 2 9 7 0; EMap 1 3 7 3 0; EMap 1 4 7 1 0].
Definition ex_addr : Z := 3 * MS + 0x1000.
Definition ex_ip : Z := 2 * MS + 0x1000.
Definition ex_fault : event (T := ivals) := EFault 0 ex_addr Write 1 ex_ip [].

Lemma ex_boot : boot MS ex0.
Proof.
  split; [by eexists| |by vm_compute].
  intros id o Ho. assert ((id, o) ∈ map_to_list (v_objs ex0)) as Hin by by apply elem_of_map_to_list.
  apply list_elem_of_In in Hin. vm_compute in Hin. by destruct Hin as [[= <- <-]|[[= <- <-]|[[= <- <-]|[]]]].
Qed.

Definition is_ret {A} (m : outcome A) : bool := match m with Ret _ => true | _ => false end.

Lemma after_step es e : is_ret (ex_run ex0 es) = true -> is_ret (ex_exec (after es) e) = true -> event_ok (T := ivals) MS ex_pager (after es) e ->
  ex_step (after es) (after (es ++ [e])).
Proof.
  intros Hr He Hok. exists e. split; [done|]. unfold after in *. assert (forall es s0, is_ret (ex_run s0 es) = true -> forall e, ex_run s0 (es ++ [e]) = ex_exec (ret_or ex0 (ex_run s0 es)) e) as Happ.
  { clear. induction es as [|e' es IH]; intros s0 Hr e; cbn in *; [by destruct (ex_exec s0 e)|]. destruct (ex_exec s0 e') as [s1| |]; [|discriminate..]. cbn [obind] in *. by apply IH. }
  rewrite (Happ _ _ Hr). by destruct (ex_exec _ e).
Qed.

Lemma ex_setup_reached : rtc ex_step ex0 (after ex_setup).
Proof.
  change ex0 with (after []) at 1. eapply rtc_l; [apply (after_step [] (ECtx 1)); [by vm_compute..|done]|].
  eapply rtc_l; [apply (after_step [_] (ESctx 1 50)); [by vm_compute..|done]|]. eapply rtc_l; [apply (after_step [_; _] (ESctx 1 51)); [by vm_compute..|done]|].
  eapply rtc_l; [apply (after_step [_; _; _] (EMap 1 2 9 7 0)); [by vm_compute..|by vm_compute]|].
  eapply rtc_l; [apply (after_step [_; _; _; _] (EMap 1 3 7 3 0)); [by vm_compute..|by vm_compute]|].
  eapply rtc_l; [apply (after_step [_; _; _; _; _] (EMap 1 4 7 1 0)); [by vm_compute..|by vm_compute]|]. apply rtc_refl.
Qed.

(** Every page of the machine is a single one. *)
Definition ready_count (x : outcome (PageTree.PageStatus * Vm (T := ivals))) : option Z :=
  match x with Ret (PageTree.Ready p _, _) => Some (PageTree.pr_count p) | _ => None end.

Lemma ex_pages : pages_in (T := ivals) MS ex_pager [] (after ex_setup) ex_addr.
Proof.
  intros s1 pn w page s2 (E1 & E2 & E3) Hpn Hmax. assert (pn = 1 \/ pn = 2) as Hp by (change (from_address MS ex_addr) with 1 in Hpn; lia). split.
  - intros id sh Ef. assert (v_objs (after ex_setup) !! id <> None) as Hid.
    { intros En. unfold fault_page, ensure_in_core, tree_try_get_page, get_obj in Ef. by rewrite E1, En in Ef. }
    destruct (v_objs (after ex_setup) !! id) as [o|] eqn:Eo; [|done]. apply elem_of_map_to_list, list_elem_of_In in Eo.
    assert (id = 7 \/ id = 8 \/ id = 9) as Hids by (vm_compute in Eo; destruct Eo as [[= <- _]|[[= <- _]|[[= <- _]|[]]]]; lia).
    apply (f_equal ready_count) in Ef. destruct s1 as [x1 x2 x3 x4 x5 x6 x7 x8 x9 x10]. cbn in E1, E2, E3. subst. unfold run_in, nr_pages.
    destruct page as [pg n k], Hp as [-> | ->], Hids as [->|[-> | ->]], w; vm_compute in Ef; injection Ef as <-; by vm_compute.
  - intros n Es. unfold shadow_get_page in Es. rewrite E3 in Es. discriminate.
Qed.

Definition ex_faulted : list (event (T := ivals)) := ex_setup ++ [ex_fault].

Lemma ex_faulted_reached : rtc ex_step ex0 (after ex_faulted).
Proof.
  eapply rtc_r; [apply ex_setup_reached|]. apply after_step; [by vm_compute..|]. split; [by vm_compute|apply ex_pages].
Qed.

Lemma link_unlinked `{IntervalTree T} (s : Vm (T := T)) cid sctx va :
  (v_ctxs s !! cid ≫= fun c => x_arches c !! sctx ≫= fun a => link_at a va) = None -> unlinked s cid sctx va.
Proof. intros E c a Hc Ha. rewrite Hc in E. cbn in E. by rewrite Ha in E. Qed.

Definition ex_leaf : Leaf := mkLeaf 0x100000 (mkSettings (PageTable.mkProt true true false) PageTable.WriteBack (mkMF false true)) 0.
Definition ex_leaf_ro : Leaf := mkLeaf 0x100000 (mkSettings (PageTable.mkProt true false false) PageTable.WriteBack (mkMF false true)) 0.

Lemma own_tables_sound_witness : exists c r, v_ctxs (after ex_faulted) !! 1 = Some c /\ lookup_region (x_regions c) ex_addr = Some r /\ has (r_prot r) WRITE = true.
Proof.
  destruct (own_tables_sound (T := ivals) 100 MS 30 ex_none ex_none ex_key 0x9000 ex_pager eq_refl ltac:(lia) ex0 (after ex_faulted) 1 50 ex_addr ex_leaf) as (c & r & Hc & Hr & Hw & _).
  - exact ex_boot.
  - exact ex_faulted_reached.
  - by vm_compute.
  - apply link_unlinked. by vm_compute.
  - by vm_compute.
  - by vm_compute.
  - by vm_compute.
  - exists c, r. split; [exact Hc|]. split; [exact Hr|]. by apply Hw.
Defined.

Definition ex_unmapped : Vm (T := ivals) := after (ex_faulted ++ [EUnmap 1 3]).

Lemma unmap_unmaps_witness : allowed (after ex_faulted) 1 50 ex_addr Write = true /\ translate ex_unmapped 1 50 ex_addr = None.
Proof.
  split; [by vm_compute|].
  apply (unmap_unmaps (T := ivals) 100 MS 30 ex_none ex_none ex_key 0x9000 ex_pager eq_refl ltac:(lia) ex0 (after ex_faulted) 1 3 ex_unmapped (3 * MS) 50 ex_addr).
  - exact ex_boot.
  - exact ex_faulted_reached.
  - by vm_compute.
  - by vm_compute.
  - by vm_compute.
  - by vm_compute.
  - by vm_compute.
  - by vm_compute.
  - apply link_unlinked. by vm_compute.
Defined.

(** The data is read at the slot 4, through the shared table of its region, and the slot is
    then unmapped. *)
Definition ex_ro : Z := 4 * MS + 0x1000.
Definition ex_shared : list (event (T := ivals)) := ex_setup ++ [EFault 0 ex_ro Read 1 ex_ip []].
Definition ex_released : Vm (T := ivals) := after (ex_shared ++ [EUnmap 1 4]).

Lemma ex_ro_pages : pages_in (T := ivals) MS ex_pager [] (after ex_setup) ex_ro.
Proof.
  assert (from_address MS ex_ro = from_address MS ex_addr) as E by by vm_compute. intros s1 pn w page s2. rewrite E. apply ex_pages.
Qed.

Lemma ex_shared_reached : rtc ex_step ex0 (after ex_shared).
Proof.
  eapply rtc_r; [apply ex_setup_reached|]. apply after_step; [by vm_compute..|]. split; [by vm_compute|apply ex_ro_pages].
Qed.

Definition shared_leaf (s : Vm (T := ivals)) (cid sctx va : Z) : option Leaf :=
  v_ctxs s !! cid ≫= fun c => x_arches c !! sctx ≫= fun a => link_at a va ≫= fun i => v_spts s !! i ≫= fun t => spt_leaf_at t va.

Lemma shared_leaf_via s cid sctx va l : shared_leaf s cid sctx va = Some l -> via_shared s cid sctx va l.
Proof.
  unfold shared_leaf. destruct (v_ctxs s !! cid) as [c|] eqn:Ec; [|done]. cbn. destruct (x_arches c !! sctx) as [a|] eqn:Ea; [|done]. cbn.
  destruct (link_at a va) as [i|] eqn:El; [|done]. cbn. destruct (v_spts s !! i) as [t|] eqn:Et; [|done]. cbn. intros E. by exists c, a, i, t.
Qed.

Lemma unmap_keeps_shared_witness : allowed (after ex_setup) 1 50 ex_ro Read = false /\ translate ex_released 1 50 ex_ro = Some ex_leaf_ro /\ permits ex_leaf_ro Read = true.
Proof.
  split; [by vm_compute|]. split; [|by vm_compute].
  apply (unmap_keeps_shared (T := ivals) 100 MS 30 ex_none ex_none ex_key 0x9000 ex_pager eq_refl ltac:(lia) ex0 (after ex_shared) 1 4 ex_released (4 * MS) 50 ex_ro).
  - exact ex_boot.
  - exact ex_shared_reached.
  - by vm_compute.
  - by vm_compute.
  - by vm_compute.
  - by vm_compute.
  - by vm_compute.
  - apply shared_leaf_via. by vm_compute.
Defined.

Definition ex_protected : Vm (T := ivals) := after (ex_faulted ++ [EInvalidate 7 0 16 WriteProtect]).
Definition ex_ctx : VirtContext (T := ivals) := default (mkCtx rm_new ∅) (v_ctxs ex_protected !! 1).
Definition ex_region : MapRegion := mkRegion 7 None PageTable.WriteBack 3 0 (3 * MS, 4 * MS) None.

Lemma invalidate_reaches_witness : translate ex_protected 1 50 ex_addr = Some ex_leaf_ro /\ p_write (perms (lf_set ex_leaf_ro)) = false.
Proof.
  split; [by vm_compute|].
  apply (invalidate_reaches (T := ivals) 100 MS 30 ex_none ex_none ex_key 0x9000 ex_pager eq_refl ltac:(lia) ex0 (after ex_faulted) 7 0 16 WriteProtect ex_protected 1 ex_ctx ex_region 50 ex_addr ex_leaf_ro).
  - exact ex_boot.
  - exact ex_faulted_reached.
  - by vm_compute.
  - by vm_compute.
  - by vm_compute.
  - by vm_compute.
  - apply list_elem_of_In. vm_compute. tauto.
  - by vm_compute.
  - by vm_compute.
  - by vm_compute.
  - by vm_compute.
  - apply link_unlinked. by vm_compute.
  - by vm_compute.
Defined.

Lemma fault_authorised_witness : allowed (after ex_setup) 1 50 ex_addr Write = false /\ exists t info p d, v_threads (after ex_setup) !! 0%nat = Some t /\
  has (r_prot info) WRITE = true /\ has (Z.lor (SecCtx.provide p) d) WRITE = true.
Proof.
  split; [by vm_compute|].
  destruct (fault_authorised (T := ivals) 100 MS 30 ex_none ex_none ex_key 0x9000 ex_pager eq_refl ltac:(lia) ex0 (after ex_setup) [] 0 ex_addr Write 1 ex_ip
    (after ex_faulted) (Ok tt) 1 50 (page_of ex_addr) ex_leaf) as (t & info & p & d & Ht & _ & _ & _ & _ & Hw & _).
  - exact ex_boot.
  - exact ex_setup_reached.
  - by vm_compute.
  - exact ex_pages.
  - by vm_compute.
  - by vm_compute.
  - exists (default (mkCtx rm_new ∅) (v_ctxs (after ex_faulted) !! 1)), (default (arch_new 0) (v_ctxs (after ex_faulted) !! 1 ≫= fun c => x_arches c !! 50)).
    split; [by vm_compute|]. split; by vm_compute.
  - intros (c & a & Hc & Ha & Hl).
    assert ((v_ctxs (after ex_setup) !! 1 ≫= fun c => x_arches c !! 50 ≫= fun a => a_leaves a !! page_of ex_addr) = Some ex_leaf) as E by (rewrite Hc; cbn; rewrite Ha; exact Hl).
    by vm_compute in E.
  - exists t, info, p, d. destruct (Hw eq_refl) as (? & ? & _). split; [exact Ht|]. by split.
Defined.

Definition ex_perms : SecCtx.PermsInfo := SecCtx.mkPerms 50 3 0.

Lemma ex_authorised : authorised (T := ivals) 100 MS ex_none ex_none ex_key (after ex_setup) 0 ex_addr Write 1 ex_ip 1 50 ex_region ex_perms 0.
Proof.
  exists (ex_thread 0 50), 50,
    (ret_or (ex0, Ok ex_perms) (check_security 100 MS ex_none ex_none ex_key (after ex_setup) (ex_thread 0 50) 1 50 7 ex_addr Write ex_ip 0)).1,
    (default (ex_obj 0) (v_objs (after ex_setup) !! 7)).
  split_and!; by vm_compute.
Qed.

Lemma fault_resolves_witness : exists s1 st s2, alike (after ex_setup) s1 /\
  fault_page MS [] ex_pager s1 7 1 PageTree.WRITE = Ret (st, s2) /\
  match st with
  | PageTree.Ready page _ => exists l, translate (after ex_faulted) 1 50 ex_addr = Some l /\ lf_pa l = PageTree.physical_address page /\ permits l Write = true
  | st => st = PageTree.NoPage
  end.
Proof.
  apply (fault_resolves (T := ivals) 100 MS 30 ex_none ex_none ex_key 0x9000 ex_pager eq_refl ltac:(lia) ex0 (after ex_setup) [] 0 (ex_thread 0 50) ex_addr Write 1 ex_ip
    50 ex_region ex_perms 0 (after ex_faulted)).
  - exact ex_boot.
  - exact ex_setup_reached.
  - exact ex_pages.
  - by vm_compute.
  - by vm_compute.
  - by vm_compute.
  - by vm_compute.
  - by vm_compute.
  - exact ex_authorised.
  - by vm_compute.
  - by vm_compute.
  - by vm_compute.
  - apply link_unlinked. by vm_compute.
  - right. by vm_compute.
  - by vm_compute.
Defined.
End VirtMemInv.
