(* ===== verification/VirtMemLost.v ===== *)
(** * Virtual memory contexts: what the operations get wrong

    Runs of the operations of [VirtMem] on the machine of [VirtMemInv] whose outcome is not
    what the code sets out to do.  Shared page tables outlive the mapping they were made for;
    an object mapped without its null page is invalidated one page off; taking writes away
    hands out the rest of the region's protections; mapping over a mapping leaves a count
    behind and reports success; a write that the region forbids faults for ever in the
    kernel's security context; a page copied on a write stays mapped where it was read; a
    slot at the end of user memory stops the kernel. *)
From S2P Require Import Prelude Address FrameAlloc IntervalTree PageTree ObjCopy PageTable PageTableInv PageTableRead Capability SecCtx DirtySet Region ArchPages VirtMem VirtMemInv.
Import Address Capability DirtySet Region ArchPages VirtMem VirtMemInv.
Import PageTable (perms, p_write, p_exec).

#[local] Open Scope Z_scope.

Module VirtMemLost.
#[local] Existing Instance ex_checks.

(** The code is mapped; the thread [tid] accesses an address. *)
Definition base : list (event (T := ivals)) := [ECtx 1; ESctx 1 50; ESctx 1 51; EMap 1 2 9 7 0].
Definition access (tid : nat) (va : Z) (cause : MemoryAccessKind) : event (T := ivals) := EFault tid va cause 1 ex_ip [].
Definition frame_at (s : Vm (T := ivals)) (sctx va : Z) : option Z := lf_pa <$> translate s 1 sctx va.
Definition returns (es : list (event (T := ivals))) : bool := is_ret (ex_run ex0 es).
Definition slot_object (s : Vm (T := ivals)) (slot : Z) : option Z := r_obj <$> ret_or None (lookup_slot MS s 1 slot).

Definition read_only : list (event (T := ivals)) := base ++ [EMap 1 3 7 1 0; access 0 ex_addr Read; EUnmap 1 3].
Definition mapped_over : list (event (T := ivals)) := read_only ++ [EMap 1 3 8 3 0; access 0 ex_addr Read].

(** An object mapped for reading is mapped through a shared page table, which unmapping
    passes over: after a read and [sys_object_unmap], the slot is free and the address still
    reads the object's page; and when another object is then mapped in the slot, the address
    reads the first object's page in the place of the second's. *)
Theorem unmapped_still_readable :
  returns mapped_over = true /\
  slot_object (after read_only) 3 = None /\ allowed (after read_only) 1 50 ex_addr Read = true /\
  slot_object (after mapped_over) 3 = Some 8 /\ frame_at (after mapped_over) 50 ex_addr = frame_at (after read_only) 50 ex_addr.
Proof. by vm_compute. Qed.

Definition no_nullpage : list (event (T := ivals)) := base ++ [EMap 1 3 7 3 NO_NULLPAGE; access 0 ex_addr Write].

(** Where the object is mapped without its null page, the address page [n] shows the object's
    page [n + 1]; invalidation takes the object's page numbers for address pages. *)
Theorem nullpage_invalidation_misses :
  returns (no_nullpage ++ [EInvalidate 7 2 3 Full]) = true /\ object_page MS (ret_or ex_region (let! o := lookup_slot MS (after no_nullpage) 1 3 in unwrap o)) ex_addr = 2 /\
  frame_at (after no_nullpage) 50 ex_addr = Some 0x100000 /\
  frame_at (after (no_nullpage ++ [EInvalidate 7 2 3 Full])) 50 ex_addr = Some 0x100000 /\
  frame_at (after (no_nullpage ++ [EInvalidate 7 1 2 Full])) 50 ex_addr = None.
Proof. by vm_compute. Qed.

Definition executable : list (event (T := ivals)) := base ++ [EMap 1 3 7 7 0; access 0 ex_addr Write].
Definition protected : list (event (T := ivals)) := executable ++ [EInvalidate 7 0 16 WriteProtect].

(** Taking write access away ([InvalidateMode::WriteProtect]) sets the protections of the
    region, not those the security context was granted: a page that was not executable in
    the security context 50, which may only read and write the object, becomes executable. *)
Theorem write_protect_grants_exec :
  returns protected = true /\ allowed (after executable) 1 50 ex_addr InstructionFetch = false /\ allowed (after protected) 1 50 ex_addr InstructionFetch = true.
Proof. by vm_compute. Qed.

Definition twice : list (event (T := ivals)) := base ++ [EMap 1 3 7 3 0; EMap 1 3 8 3 0].

(** Mapping a second object in a slot changes nothing but the second object's count of
    mappings, which is not taken back, even when the context is dropped; the caller of
    [sys_object_map] is told that the object is mapped. *)
Theorem busy_slot_leaks :
  returns (twice ++ [EUnmap 1 3; EDrop 1]) = true /\ slot_object (after twice) 3 = Some 7 /\
  match sys_object_map MS (after (base ++ [EMap 1 3 7 3 0])) 3 8 1 3 0 with Ret (_, Ok slot) => slot = 3 | _ => False end /\
  v_ctxs (after (twice ++ [EUnmap 1 3; EDrop 1])) !! 1 = None /\
  obj_ctxs (after (twice ++ [EUnmap 1 3; EDrop 1])) 8 1 = 1 /\ obj_ctxs (after (twice ++ [EUnmap 1 3; EDrop 1])) 7 1 = 0.
Proof. by vm_compute. Qed.

(** The object 8 is made a copy of the object 7: they share their pages, and the mappings of
    7 lose write access. *)
Definition copied (es : list (event (T := ivals))) : list (event (T := ivals)) :=
  let s := after es in
  es ++ [EOther {[8 := default it_new (o_tree <$> v_objs s !! 7)]} (v_heap s) (v_sec s) (v_threads s); EInvalidate 7 0 16 WriteProtect].

Definition read_twice : list (event (T := ivals)) := base ++ [EMap 1 3 7 3 0; access 0 ex_addr Read; access 1 ex_addr Read].
Definition written : list (event (T := ivals)) := copied read_twice ++ [access 1 ex_addr Write].

(** A page that is shared with a copy of the object is copied when it is written; the
    fault replaces it in the tables of the security context that wrote and nowhere else.  In
    the security context 50 of the same context the address still reads the page of before,
    which from then on is a page of the copy: it sees neither this write nor later ones. *)
Theorem copied_page_stays_mapped :
  returns written = true /\
  frame_at (after read_twice) 50 ex_addr = Some 0x100000 /\ frame_at (after read_twice) 51 ex_addr = Some 0x100000 /\
  frame_at (after written) 51 ex_addr = Some 0x101000 /\ allowed (after written) 1 50 ex_addr Read = true /\
  frame_at (after written) 50 ex_addr = Some 0x100000.
Proof. by vm_compute. Qed.

(** A thread in the kernel's security context *)
Definition ex_kthread (es : list (event (T := ivals))) : list (event (T := ivals)) :=
  let s := after es in es ++ [EOther ∅ (v_heap s) (v_sec s) (<[2%nat := ex_thread 0 0]> (v_threads s))].

Definition readable : list (event (T := ivals)) := ex_kthread (base ++ [EMap 1 3 7 1 0]).

(** In the kernel's security context the protections of the region are not looked at: a
    write to an object that is mapped for reading is not refused and not let through, so the
    access faults for ever; in another security context it is refused. *)
Theorem forbidden_write_refaults :
  returns (readable ++ [access 2 ex_addr Write; access 2 ex_addr Write]) = true /\
  match do_page_fault 100 MS ex_none ex_none ex_key [] ex_pager (after readable) 2 ex_addr Write 1 ex_ip with Ret (_, r) => r = Ok tt | _ => False end /\
  allowed (after (readable ++ [access 2 ex_addr Write])) 1 0 ex_addr Write = false /\
  match do_page_fault 100 MS ex_none ex_none ex_key [] ex_pager (after (readable ++ [access 2 ex_addr Write])) 2 ex_addr Write 1 ex_ip with Ret (_, r) => r = Ok tt | _ => False end /\
  match do_page_fault 100 MS ex_none ex_none ex_key [] ex_pager (after readable) 0 ex_addr Write 1 ex_ip with
  | Ret (_, r) => r = Err (MemoryContextViolation ex_addr Write)
  | _ => False
  end.
Proof. by vm_compute. Qed.

(** With objects of a gigabyte, a system call that asks to map anything in the last slot
    of user memory stops the kernel, in every state: the end of the slot is not an address.
    So does, with overflow checks, any slot number past the address space, in
    [sys_object_map] and in [sys_object_unmap]. *)
Theorem bad_slots_panic (s : Vm (T := ivals)) obj cid prot slot :
  sys_object_map MS s (2 ^ 47 / MS - 1) obj cid prot 0 = Panic /\
  (2 ^ 64 / MS <= slot -> sys_object_map MS s slot obj cid prot 0 = Panic /\ sys_object_unmap MS s cid slot = Panic).
Proof.
  split; [reflexivity|]. intros Hs. change (2 ^ 64 / MS) with (2 ^ 34) in Hs.
  assert (slot_of_usize MS slot = Panic) as E.
  { unfold slot_of_usize, chk. assert (in_u 64 (slot * MS) = false) as -> by (apply not_true_iff_false; rewrite in_u_spec; change MS with (2 ^ 30); lia). done. }
  unfold sys_object_map, map_object_into_context, sys_object_unmap. by rewrite E.
Qed.

Lemma bad_slots_panic_witness : sys_object_map MS ex0 (2 ^ 34) 7 1 3 0 = Panic /\ sys_object_unmap MS ex0 1 (2 ^ 34) = Panic.
Proof. apply (bad_slots_panic ex0 7 1 3 (2 ^ 34)). by vm_compute. Defined.
End VirtMemLost.
