(* ===== verification/MemTracker.v ===== *)
(** * Accounting of physical memory ([src/kernel/src/memory/tracker.rs])

    The tracker stands between the frame allocator and everyone who allocates or frees
    frames.  It keeps counts of the frames that are idle, used by the kernel and used for
    page data, takes frames out of the idle count before it asks the allocator for one, and
    lets threads wait for memory: a waiting thread enters itself in the list of waiters, and
    whoever frees a frame hands all of them to [add_all_to_requeue].

    Each access of a count, of the flags of a thread or of a list is a step; the frame
    allocator, under its lock, is the class [RawFrames], of which [TrackerFrames] makes the
    allocator of [FrameAlloc] an instance.  A thread that hands over is off its processor when its critical
    section has ended, and then runs again when it is scheduled (how [finish_blocking] and
    the requeue list get there access by access is in [ThreadSync]).  The thread that
    reclaims memory frees frames as any other thread; it is not modelled, and neither are
    the signals it is sent. *)
From S2P Require Import Prelude Intrusive FrameAlloc.
Import FrameAlloc (FrameRef).

#[local] Open Scope Z_scope.

Module MemTracker.

(** ** The frame allocator

    Frames are known by the place of their metadata, sizes are in pages.  Every caller asks
    for one of the layouts of [PHYS_LEVEL_LAYOUTS], and gets a frame of that level.  [raw_out]
    are the frames given out, [raw_avail] counts the pages that are free.  An allocation can
    fail with pages free when no frame fits.  [TrackerFrames] shows that the allocator of
    [FrameAlloc] is one. *)
Inductive PhysLevel := Level0 | Level1 | Level2.

Definition level_pages (l : PhysLevel) : Z := match l with Level0 => 1 | Level1 => 512 | Level2 => 262144 end.

Lemma level_pages_pos l : 0 < level_pages l.
Proof. by destruct l. Qed.

Class RawFrames (A : Type) := {
  raw_ok : A -> Prop;
  raw_out : A -> gmap FrameRef Z;
  raw_avail : A -> Z;
  raw_alloc_frame : A -> bool -> PhysLevel -> option FrameRef * A;
  raw_free_frame : A -> FrameRef -> A;
  raw_avail_pos a : raw_ok a -> 0 <= raw_avail a;
  raw_alloc_law a z l : raw_ok a ->
    match raw_alloc_frame a z l with
    | (Some f, a') => raw_ok a' /\ raw_out a !! f = None /\ raw_out a' = <[f := level_pages l]> (raw_out a) /\ raw_avail a' = raw_avail a - level_pages l
    | (None, a') => raw_ok a' /\ raw_out a' = raw_out a /\ raw_avail a' = raw_avail a
    end;
  raw_free_law a f n : raw_ok a -> raw_out a !! f = Some n ->
    raw_ok (raw_free_frame a f) /\ raw_out (raw_free_frame a f) = delete f (raw_out a) /\ raw_avail (raw_free_frame a f) = raw_avail a + n }.

(** ** The state *)

(** [FrameAllocFlags], with the level of the layout *)
Record req := mkReq { rq_zeroed : bool; rq_kernel : bool; rq_wait : bool; rq_level : PhysLevel }.

(** [layout.size() / FRAME_SIZE] *)
Definition rq_count (r : req) : Z := level_pages (rq_level r).
#[local] Arguments rq_count : simpl never.

(** Where a thread is in [try_alloc_frame], in [wait] and in [free_frame] *)
Inductive pc :=
| Out
| ALoad (r : req)
| ACas (r : req) (idle : Z)
| ARaw (r : req) (idle : Z)
| ABack (r : req) (idle : Z)
| AKind (r : req) (f : FrameRef)
| AUsed (r : req) (f : FrameRef)
| ACount (r : req) (f : FrameRef)
| WCount (r : req) (old : Z)
| WPush (r : req) (old : Z)
| WFlag (r : req) (old : Z)
| WCheck (r : req) (old : Z)
| Blocked (r : req)
| WReset (r : req)
| WDone (r : req)
| FIdle (f : FrameRef) (n : Z)
| FCount (f : FrameRef) (n : Z)
| FRaw (f : FrameRef) (n : Z)
| FTake
| FRequeue.

Section tracker.
Context `{RawFrames A}.

(** [frames] are the frames that callers have, with the count they are in and their size;
    [threads] that there is a current thread: it is not before threads are started. *)
Record sys := mkSys {
  kernel_used : Z; page_data : Z; idle : Z; allocated : Z; freed : Z; waiting : Z;
  mem : A; kernel : gset FrameRef; waiters : list nat;
  requeue : gset nat; critical : gset nat; sleep_done : gset nat;
  pcs : gmap nat pc; frames : gmap FrameRef (bool * Z); threads : bool }.

Definition set_pc (s : sys) (t : nat) (p : pc) : sys :=
  mkSys (kernel_used s) (page_data s) (idle s) (allocated s) (freed s) (waiting s) (mem s) (kernel s) (waiters s) (requeue s) (critical s) (sleep_done s) (<[t := p]> (pcs s)) (frames s) (threads s).
Definition set_used (s : sys) (k p : Z) : sys :=
  mkSys k p (idle s) (allocated s) (freed s) (waiting s) (mem s) (kernel s) (waiters s) (requeue s) (critical s) (sleep_done s) (pcs s) (frames s) (threads s).
Definition set_idle (s : sys) (i : Z) : sys :=
  mkSys (kernel_used s) (page_data s) i (allocated s) (freed s) (waiting s) (mem s) (kernel s) (waiters s) (requeue s) (critical s) (sleep_done s) (pcs s) (frames s) (threads s).
Definition set_stats (s : sys) (a f w : Z) : sys :=
  mkSys (kernel_used s) (page_data s) (idle s) a f w (mem s) (kernel s) (waiters s) (requeue s) (critical s) (sleep_done s) (pcs s) (frames s) (threads s).
Definition set_mem (s : sys) (m : A) (k : gset FrameRef) : sys :=
  mkSys (kernel_used s) (page_data s) (idle s) (allocated s) (freed s) (waiting s) m k (waiters s) (requeue s) (critical s) (sleep_done s) (pcs s) (frames s) (threads s).
Definition set_sleep (s : sys) (w : list nat) (q c d : gset nat) : sys :=
  mkSys (kernel_used s) (page_data s) (idle s) (allocated s) (freed s) (waiting s) (mem s) (kernel s) w q c d (pcs s) (frames s) (threads s).
Definition set_frames (s : sys) (x : gmap FrameRef (bool * Z)) : sys :=
  mkSys (kernel_used s) (page_data s) (idle s) (allocated s) (freed s) (waiting s) (mem s) (kernel s) (waiters s) (requeue s) (critical s) (sleep_done s) (pcs s) x (threads s).
Definition set_threads (s : sys) : sys :=
  mkSys (kernel_used s) (page_data s) (idle s) (allocated s) (freed s) (waiting s) (mem s) (kernel s) (waiters s) (requeue s) (critical s) (sleep_done s) (pcs s) (frames s) true.

(** [init]: [kern] pages belong to the kernel from the start. *)
Definition init (m : A) (kern : Z) : sys := mkSys kern 0 (raw_avail m) 0 0 0 m ∅ [] ∅ ∅ ∅ ∅ ∅ false.

(** ** [try_alloc_frame] *)
Definition alloc_step (s : sys) (t : nat) (p : pc) : sys :=
  match p with
  | ALoad r => set_pc s t (if rq_count r <=? idle s then ACas r (idle s) else if rq_wait r then WCount r (idle s) else Out)
  | ACas r i =>
      if idle s =? i then set_pc (set_idle s (i - rq_count r)) t (ARaw r i) else set_pc s t (ALoad r)
  | ARaw r i =>
      match raw_alloc_frame (mem s) (rq_zeroed r) (rq_level r) with
      | (Some f, m) => set_pc (set_mem s m (kernel s)) t (AKind r f)
      | (None, m) => set_pc (set_mem s m (kernel s)) t (ABack r i)
      end
  | ABack r i => set_pc (set_idle s (wrap 64 (idle s + rq_count r))) t (if rq_wait r then WCount r i else Out)
  | AKind r f => set_pc (set_mem s (mem s) (if rq_kernel r then {[f]} ∪ kernel s else kernel s ∖ {[f]})) t (AUsed r f)
  | AUsed r f =>
      let s := set_frames s (<[f := (rq_kernel r, rq_count r)]> (frames s)) in
      set_pc (if rq_kernel r then set_used s (wrap 64 (kernel_used s + rq_count r)) (page_data s)
              else set_used s (kernel_used s) (wrap 64 (page_data s + rq_count r))) t (ACount r f)
  | ACount r f => set_pc (set_stats s (wrap 64 (allocated s + rq_count r)) (freed s) (waiting s)) t Out
  | _ => s
  end.

(** ** [wait]

    Without a current thread it panics.  [push_back] panics on a thread whose link is in use.
    A thread that does not block leaves
    its critical section when [wait] returns. *)
Definition wait_step (s : sys) (t : nat) (p : pc) : outcome sys :=
  match p with
  | WCount r old =>
      if negb (threads s) then Panic
      else Ret (set_pc (set_sleep (set_stats s (allocated s) (freed s) (wrap 64 (waiting s + 1))) (waiters s) (requeue s) ({[t]} ∪ critical s) (sleep_done s)) t (WPush r old))
  | WPush r old =>
      if bool_decide (t ∈ waiters s) then Panic
      else Ret (set_pc (set_sleep s (waiters s ++ [t]) (requeue s) (critical s) (sleep_done s)) t (WFlag r old))
  | WFlag r old => Ret (set_pc (set_sleep s (waiters s) (requeue s) (critical s) ({[t]} ∪ sleep_done s)) t (WCheck r old))
  | WCheck r old =>
      if idle s =? old then Ret (set_pc (set_sleep s (waiters s) (requeue s) (critical s ∖ {[t]}) (sleep_done s)) t (Blocked r))
      else Ret (set_pc s t (WReset r))
  | WReset r => Ret (set_pc (set_sleep s (waiters s) (requeue s) (critical s) (sleep_done s ∖ {[t]})) t (WDone r))
  | WDone r =>
      Ret (set_pc (set_sleep (set_stats s (allocated s) (freed s) (wrap 64 (waiting s - 1))) (waiters s) (requeue s) (critical s ∖ {[t]}) (sleep_done s)) t (ALoad r))
  | _ => Ret s
  end.

(** ** [wake] *)

(** [!is_critical() && reset_sync_sleep_done()], and then [schedule_thread] *)
Definition can_run (s : sys) (t : nat) : bool := bool_decide (t ∉ critical s) && bool_decide (t ∈ sleep_done s).
Definition schedule (s : sys) (t : nat) : sys :=
  let s := set_sleep s (waiters s) (requeue s) (critical s) (sleep_done s ∖ {[t]}) in
  match pcs s !! t with Some (Blocked r) => set_pc s t (WReset r) | _ => s end.

(** [add_all_to_requeue] *)
Definition add_to_requeue (s : sys) (t : nat) : sys :=
  if can_run s t then schedule s t else set_sleep s (waiters s) ({[t]} ∪ requeue s) (critical s) (sleep_done s).
Definition add_all_to_requeue (s : sys) (ts : list nat) : sys := foldl add_to_requeue s ts.

(** [requeue_all] *)
Definition requeue_one (s : sys) (t : nat) : sys :=
  if can_run s t then schedule (set_sleep s (waiters s) (requeue s ∖ {[t]}) (critical s) (sleep_done s)) t else s.
Definition requeue_all (s : sys) : sys := foldl requeue_one s (elements (requeue s)).

(** ** [free_frame] *)

(** The first access, of the count that the frame is in: from then on the caller does not
    have the frame any more. *)
Definition free_first (s : sys) (t : nat) (f : FrameRef) (n : Z) : outcome sys :=
  let k := bool_decide (f ∈ kernel s) in
  let old := if k then kernel_used s else page_data s in
  let s := if k then set_used s (wrap 64 (kernel_used s - n)) (page_data s) else set_used s (kernel_used s) (wrap 64 (page_data s - n)) in
  let! _ := rassert (0 <? old) in
  Ret (set_pc (set_frames s (delete f (frames s))) t (FIdle f n)).

Definition free_step (s : sys) (t : nat) (p : pc) : outcome sys :=
  match p with
  | FIdle f n => Ret (set_pc (set_idle s (wrap 64 (idle s + n))) t (FCount f n))
  | FCount f n => Ret (set_pc (set_stats s (allocated s) (wrap 64 (freed s + n)) (waiting s)) t (FRaw f n))
  | FRaw f n => Ret (set_pc (set_mem s (raw_free_frame (mem s) f) (kernel s)) t FTake)
  | FTake => Ret (set_pc (add_all_to_requeue (set_sleep s [] (requeue s) (critical s) (sleep_done s)) (waiters s)) t FRequeue)
  | FRequeue => Ret (set_pc (requeue_all s) t Out)
  | _ => Ret s
  end.

(** ** Runs *)
Inductive event :=
| EAlloc (t : nat) (r : req)
| EFree (t : nat) (f : FrameRef)
| EStep (t : nat)
| EThreads.

Definition pc_of (s : sys) (t : nat) : pc := default Out (pcs s !! t).

Definition step_pc (s : sys) (t : nat) : outcome sys :=
  match pc_of s t with
  | Out | Blocked _ => Ret s
  | (ALoad _ | ACas _ _ | ARaw _ _ | ABack _ _ | AKind _ _ | AUsed _ _ | ACount _ _) as p => Ret (alloc_step s t p)
  | (WCount _ _ | WPush _ _ | WFlag _ _ | WCheck _ _ | WReset _ | WDone _) as p => wait_step s t p
  | (FIdle _ _ | FCount _ _ | FRaw _ _ | FTake | FRequeue) as p => free_step s t p
  end.

Definition exec (s : sys) (e : event) : outcome sys :=
  match e with
  | EAlloc t r => Ret (match pc_of s t with Out => set_pc s t (ALoad r) | _ => s end)
  | EFree t f =>
      match pc_of s t, frames s !! f with
      | Out, Some (_, n) => free_first s t f n
      | _, _ => Ret s
      end
  | EStep t => step_pc s t
  | EThreads => Ret (set_threads s)
  end.

Definition step (s s' : sys) : Prop := exists e, exec s e = Ret s'.

Fixpoint run (s : sys) (es : list event) : outcome sys :=
  match es with [] => Ret s | e :: es => let! s := exec s e in run s es end.

(** ** The counts *)

(** Pages taken out of one count and not yet in another, and what the idle count is ahead
    of the allocator *)
Definition moving (p : pc) : Z :=
  match p with
  | ARaw r _ | ABack r _ | AKind r _ | AUsed r _ => rq_count r
  | FIdle _ n => n
  | _ => 0
  end.
Definition ahead (p : pc) : Z :=
  match p with
  | ARaw r _ | ABack r _ => - rq_count r
  | FCount _ n | FRaw _ n => n
  | _ => 0
  end.

(** The frame that is on its way between the allocator and a caller *)
Definition moved (p : pc) : option (FrameRef * Z) :=
  match p with
  | AKind r f | AUsed r f => Some (f, rq_count r)
  | FIdle f n | FCount f n | FRaw f n => Some (f, n)
  | _ => None
  end.

Definition pc_ok (s : sys) (p : pc) : Prop :=
  match p with
  | ALoad r | ARaw r _ | ABack r _ | AKind r _ | ACount r _ | WCount r _ | WPush r _ | WFlag r _ | WCheck r _ | Blocked r | WReset r | WDone r => 0 < rq_count r
  | ACas r i => 0 < rq_count r <= i
  | AUsed r f => 0 < rq_count r /\ (f ∈ kernel s <-> rq_kernel r = true)
  | FIdle _ n | FCount _ n | FRaw _ n => 0 < n
  | _ => True
  end.

Definition in_count (k : bool) (x : bool * Z) : Z := if eqb x.1 k then x.2 else 0.

Record Acc (total kern : Z) (s : sys) : Prop := mkAcc {
  ac_raw : raw_ok (mem s);
  ac_total : idle s + kernel_used s + page_data s + gsum moving (pcs s) = total;
  ac_idle : idle s = raw_avail (mem s) + gsum ahead (pcs s);
  ac_nonneg : 0 <= idle s;
  ac_kernel : kernel_used s = kern + gsum (in_count true) (frames s);
  ac_page : page_data s = gsum (in_count false) (frames s);
  ac_pc t p : pcs s !! t = Some p -> pc_ok s p;
  ac_frame f k n : frames s !! f = Some (k, n) -> 0 < n /\ raw_out (mem s) !! f = Some n /\ (f ∈ kernel s <-> k = true);
  ac_moved t p f n : pcs s !! t = Some p -> moved p = Some (f, n) -> raw_out (mem s) !! f = Some n /\ frames s !! f = None;
  ac_once t u p q f n m : pcs s !! t = Some p -> pcs s !! u = Some q -> moved p = Some (f, n) -> moved q = Some (f, m) -> t = u }.

Lemma moving_nonneg s p : pc_ok s p -> 0 <= moving p.
Proof. destruct p; cbn; lia. Qed.

Lemma frames_nonneg total kern s k : Acc total kern s -> 0 <= gsum (in_count k) (frames s).
Proof.
  intros Ha. apply gsum_nonneg. intros f [k' n] Hf. destruct (ac_frame _ _ s Ha f k' n Hf). unfold in_count. cbn. destruct (eqb k' k); lia.
Qed.

Lemma moving_pos total kern s : Acc total kern s -> 0 <= gsum moving (pcs s).
Proof. intros Ha. apply gsum_nonneg. intros t p Hp. eapply moving_nonneg, (ac_pc _ _ s Ha), Hp. Qed.

Lemma pc_of_ok total kern s t : Acc total kern s -> pc_ok s (pc_of s t).
Proof. intros Ha. unfold pc_of. destruct (pcs s !! t) eqn:E; [by apply (ac_pc _ _ s Ha t)|done]. Qed.

(** A change of one thread's place, together with the counts *)
Lemma gsum_pc (w : pc -> Z) s t p : w Out = 0 -> gsum w (<[t := p]> (pcs s)) = gsum w (pcs s) - w (pc_of s t) + w p.
Proof. intros Hw. rewrite gsum_insert. unfold pc_of. destruct (pcs s !! t); cbn; lia. Qed.

(** A thread moves between two places where it has nothing. *)
Definition quiet (p : pc) : Prop := moving p = 0 /\ ahead p = 0 /\ moved p = None.

Lemma Acc_quiet total kern s t p : Acc total kern s -> quiet (pc_of s t) -> quiet p -> pc_ok s p -> Acc total kern (set_pc s t p).
Proof.
  intros Ha (M1 & A1 & _) (M2 & A2 & V2) Hok. pose proof Ha as [H1 H2 H3 H4 H5 H6 H7 H8 H9 H10]. split; cbn [set_pc mem idle kernel_used page_data pcs frames kernel]; try done.
  - rewrite gsum_pc by done. lia.
  - rewrite gsum_pc by done. lia.
  - intros u q [[-> <-]|[Hne Hq]]%lookup_insert_Some; [|by apply (H7 u)]. by destruct p.
  - intros u q f n [[-> <-]|[Hne Hq]]%lookup_insert_Some Hm; [congruence|by apply (H9 u q)].
  - intros u u' q q' f n m [[-> <-]|[Hne Hq]]%lookup_insert_Some [[-> <-]|[Hne' Hq']]%lookup_insert_Some Hm Hm'; try congruence. by apply (H10 u u' q q' f n m).
Qed.

Lemma Acc_sleep total kern s w q c d : Acc total kern s -> Acc total kern (set_sleep s w q c d).
Proof. intros []. by split. Qed.

Lemma Acc_stats total kern s a f w : Acc total kern s -> Acc total kern (set_stats s a f w).
Proof. intros []. by split. Qed.

(** Waking changes no count. *)
Lemma Acc_schedule total kern s t : Acc total kern s -> Acc total kern (schedule s t).
Proof.
  intros Ha. unfold schedule. set (s1 := set_sleep s _ _ _ _). assert (Acc total kern s1) as Ha1 by by apply Acc_sleep.
  destruct (pcs s1 !! t) as [p|] eqn:E; [|done]. pose proof (ac_pc _ _ s1 Ha1 t p E) as Hok. destruct p; try done. apply Acc_quiet; [done| |done|done].
  unfold pc_of. by rewrite E.
Qed.

Lemma Acc_requeue total kern s ts : Acc total kern s -> Acc total kern (add_all_to_requeue s ts).
Proof.
  unfold add_all_to_requeue. revert s. induction ts as [|t ts IH]; intros s Ha; [done|]. cbn. apply IH. unfold add_to_requeue.
  destruct (can_run s t); [by apply Acc_schedule|by apply Acc_sleep].
Qed.

Lemma Acc_requeue_all total kern s : Acc total kern s -> Acc total kern (requeue_all s).
Proof.
  unfold requeue_all. generalize (elements (requeue s)). intros ts. revert s. induction ts as [|t ts IH]; intros s Ha; [done|]. cbn. apply IH. unfold requeue_one.
  destruct (can_run s t); [by apply Acc_schedule, Acc_sleep|done].
Qed.

Lemma Acc_move total kern s s1 t p' : Acc total kern s -> pcs s1 = pcs s -> raw_ok (mem s1) ->
  idle s1 + kernel_used s1 + page_data s1 = idle s + kernel_used s + page_data s + moving (pc_of s t) - moving p' ->
  idle s1 - raw_avail (mem s1) = idle s - raw_avail (mem s) + ahead p' - ahead (pc_of s t) -> 0 <= idle s1 ->
  kernel_used s1 = kern + gsum (in_count true) (frames s1) -> page_data s1 = gsum (in_count false) (frames s1) ->
  pc_ok s1 p' -> (forall u q, u <> t -> pcs s !! u = Some q -> pc_ok s q -> pc_ok s1 q) ->
  (forall f k n, frames s1 !! f = Some (k, n) -> 0 < n /\ raw_out (mem s1) !! f = Some n /\ (f ∈ kernel s1 <-> k = true)) ->
  (forall u q f n, u <> t -> pcs s !! u = Some q -> moved q = Some (f, n) -> raw_out (mem s1) !! f = Some n /\ frames s1 !! f = None) ->
  (forall f n, moved p' = Some (f, n) -> raw_out (mem s1) !! f = Some n /\ frames s1 !! f = None /\
    forall u q m, u <> t -> pcs s !! u = Some q -> moved q <> Some (f, m)) ->
  Acc total kern (set_pc s1 t p').
Proof.
  intros Ha Ep Hraw Htot Hidle Hn Hk Hp Hok Hoks Hf Hm Hm'. pose proof Ha as [H1 H2 H3 H4 H5 H6 H7 H8 H9 H10]. split; cbn [set_pc mem idle kernel_used page_data pcs frames kernel]; try done.
  - rewrite Ep, gsum_pc by done. lia.
  - rewrite Ep, gsum_pc by done. lia.
  - rewrite Ep. intros u q [[-> <-]|[Hne Hq]]%lookup_insert_Some; [by destruct p'|]. assert (pc_ok s1 q) as Hq' by (apply (Hoks u); [done|done|by apply (H7 u)]). by destruct q.
  - rewrite Ep. intros u q f n [[-> <-]|[Hne Hq]]%lookup_insert_Some Hmv; [destruct (Hm' f n Hmv) as (? & ? & _); done|by apply (Hm u q)].
  - rewrite Ep. intros u u' q q' f n m [[-> <-]|[Hne Hq]]%lookup_insert_Some [[-> <-]|[Hne' Hq']]%lookup_insert_Some Hmv Hmv'.
    + done.
    + destruct (Hm' f n Hmv) as (_ & _ & Hx). by destruct (Hx u' q' m).
    + destruct (Hm' f m Hmv') as (_ & _ & Hx). by destruct (Hx u q n).
    + by apply (H10 u u' q q' f n m).
Qed.

Lemma pc_ok_kernel s s1 q : kernel s1 = kernel s -> pc_ok s q -> pc_ok s1 q.
Proof. intros E. destruct q; cbn; rewrite ?E; done. Qed.

(** A frame on its way is in the hands of one thread. *)
Lemma moved_other total kern s t p f n u q m : Acc total kern s -> pcs s !! t = Some p -> moved p = Some (f, n) -> u <> t -> pcs s !! u = Some q -> moved q <> Some (f, m).
Proof. intros Ha Hp Hm Hne Hq Hq'. apply Hne. by apply (ac_once _ _ s Ha u t q p f m n). Qed.

Lemma pc_of_Some s t p : pcs s !! t = Some p -> pc_of s t = p.
Proof. unfold pc_of. by intros ->. Qed.

(** Only the idle count changes. *)
Lemma Acc_idle total kern s t p i p' : Acc total kern s -> pcs s !! t = Some p -> i = idle s + moving p - moving p' -> i - idle s = ahead p' - ahead p -> 0 <= i ->
  pc_ok s p' -> (forall x, moved p' = Some x -> moved p = Some x) -> Acc total kern (set_pc (set_idle s i) t p').
Proof.
  intros Ha Hp Hi Hah Hn Hok Hmv. pose proof Ha as [H1 H2 H3 H4 H5 H6 H7 H8 H9 H10]. apply (Acc_move _ _ s); rewrite ?(pc_of_Some s t p Hp); cbn [set_idle mem idle kernel_used page_data pcs frames kernel]; try done; try lia.
  - intros u q f n _ Hq Hm. by apply (H9 u q).
  - intros f n Hm%Hmv. destruct (H9 t p f n Hp Hm). split; [done|]. split; [done|]. intros u q m Hne Hq. by eapply (moved_other _ _ s t).
Qed.

Lemma bounds total kern s : Acc total kern s -> 0 <= kern -> 0 <= idle s <= total /\ 0 <= kernel_used s <= total /\ 0 <= page_data s <= total.
Proof.
  intros Ha Hk. pose proof (frames_nonneg _ _ _ true Ha). pose proof (frames_nonneg _ _ _ false Ha). pose proof (moving_pos _ _ _ Ha). destruct Ha. lia.
Qed.

Lemma wrap_in z : 0 <= z < 2 ^ 64 -> wrap 64 z = z.
Proof. intros Hz. unfold wrap. by apply Z.mod_small. Qed.

Lemma moving_le total kern s t p : Acc total kern s -> pcs s !! t = Some p -> moving p <= gsum moving (pcs s).
Proof. intros Ha Hp. apply (gsum_ge moving (pcs s) t p); [|done]. intros u q Hq. eapply moving_nonneg, (ac_pc _ _ s Ha), Hq. Qed.

Lemma Acc_mem total kern s m : Acc total kern s -> raw_ok m -> raw_out m = raw_out (mem s) -> raw_avail m = raw_avail (mem s) -> Acc total kern (set_mem s m (kernel s)).
Proof. intros [] Hm Ho Hv. split; cbn; rewrite ?Ho, ?Hv; done. Qed.

(** Waking lets blocked threads run and changes the place of no other thread. *)
Definition woken (s s' : sys) : Prop := critical s' = critical s /\ waiters s' = waiters s /\
  forall t, pcs s' !! t = pcs s !! t \/ exists r, pcs s !! t = Some (Blocked r) /\ pcs s' !! t = Some (WReset r).

Lemma woken_refl s : woken s s.
Proof. split; [done|]. split; [done|]. by left. Qed.

Lemma woken_trans s1 s2 s3 : woken s1 s2 -> woken s2 s3 -> woken s1 s3.
Proof.
  intros (A1 & B1 & C1) (A2 & B2 & C2). split; [congruence|]. split; [congruence|]. intros t. destruct (C1 t) as [E1|(r & E1 & F1)], (C2 t) as [E2|(r' & E2 & F2)].
  - left. congruence.
  - right. exists r'. split; congruence.
  - right. exists r. split; congruence.
  - congruence.
Qed.

Lemma sleep_woken s q d : woken s (set_sleep s (waiters s) q (critical s) d).
Proof. split; [done|]. split; [done|]. by left. Qed.

Lemma schedule_woken s t : woken s (schedule s t).
Proof.
  unfold schedule. cbn. destruct (pcs s !! t) as [p|] eqn:E; [|apply sleep_woken]. destruct p; try apply sleep_woken. split; [done|]. split; [done|]. intros u. cbn.
  destruct (decide (u = t)) as [->|Hne]; [right; exists r; by rewrite lookup_insert_eq|left; by rewrite lookup_insert_ne].
Qed.

Lemma add_woken s t : woken s (add_to_requeue s t).
Proof. unfold add_to_requeue. destruct (can_run s t); [apply schedule_woken|apply sleep_woken]. Qed.

Lemma one_woken s t : woken s (requeue_one s t).
Proof. unfold requeue_one. destruct (can_run s t); [|apply woken_refl]. eapply woken_trans; [apply sleep_woken|apply schedule_woken]. Qed.

Lemma foldl_woken (f : sys -> nat -> sys) ts s : (forall s t, woken s (f s t)) -> woken s (foldl f s ts).
Proof.
  intros Hf. revert s. induction ts as [|t ts IH]; intros s; cbn; [apply woken_refl|]. by eapply woken_trans; [apply Hf|apply IH].
Qed.

Lemma woken_pc s s' t p : woken s s' -> pcs s !! t = Some p -> (forall r, p <> Blocked r) -> pcs s' !! t = Some p.
Proof. intros (_ & _ & Hw) Hp Hb. destruct (Hw t) as [->|(r & E & _)]; [done|]. rewrite Hp in E. injection E as ->. by destruct (Hb r). Qed.
Section counts.
Context (total kern : Z) (Hkern : 0 <= kern) (Htotal : total < 2 ^ 64).

Lemma alloc_Acc s t p : Acc total kern s -> pcs s !! t = Some p -> Acc total kern (alloc_step s t p).
Proof.
  intros Ha Hp. pose proof (ac_pc _ _ s Ha t p Hp) as Hok. pose proof (pc_of_Some s t p Hp) as Epc. pose proof (bounds _ _ s Ha Hkern) as (Bi & Bk & Bp). pose proof (moving_pos _ _ s Ha).
  pose proof (moving_le _ _ s t p Ha Hp) as Hle. pose proof Ha as [H1 H2 H3 H4 H5 H6 H7 H8 H9 H10].
  destruct p as [|r|r i|r i|r i|r f|r f|r f|r old|r old|r old|r old|r|r|r|f n|f n|f n| |]; cbn [alloc_step]; try done.
  - apply Acc_quiet; [done|by rewrite Epc|by repeat case_match|]. destruct (Z.leb_spec (rq_count r) (idle s)); [cbn in *; lia|by destruct (rq_wait r)].
  - cbn in Hok. destruct (Z.eqb_spec (idle s) i) as [Ei|_]; [|apply Acc_quiet; [done|by rewrite Epc|done|cbn; lia]].
    eapply Acc_idle; [done|done|..]; cbn; done || lia.
  - cbn in Hok, Hle. pose proof (raw_alloc_law (mem s) (rq_zeroed r) (rq_level r) H1) as Hlaw. fold (rq_count r) in Hlaw. destruct (raw_alloc_frame (mem s) (rq_zeroed r) (rq_level r)) as [[f|] m].
    + destruct Hlaw as (Hr & Hnone & Hout & Hav). apply (Acc_move _ _ s); rewrite ?Epc; cbn; try done; try lia.
      * intros f' k n Hf'. destruct (H8 f' k n Hf') as (? & Ho & ?). rewrite Hout, lookup_insert_ne by congruence. done.
      * intros u q f' n Hne Hq Hm. destruct (H9 u q f' n Hq Hm) as [Ho ?]. rewrite Hout, lookup_insert_ne by congruence. done.
      * intros f' n [= <- <-]. rewrite Hout, lookup_insert_eq. split; [done|]. split.
        -- destruct (frames s !! f) as [[k n]|] eqn:E; [|done]. destruct (H8 f k n E) as (_ & Ho & _). congruence.
        -- intros u q m' Hne Hq Hm. destruct (H9 u q f m' Hq Hm). congruence.
    + destruct Hlaw as (Hr & Hout & Hav). apply (Acc_idle _ _ (set_mem s m (kernel s)) t (ARaw r i) (idle s)); [by apply Acc_mem|done|cbn; done || lia..].
  - cbn in Hok, Hle. rewrite wrap_in by lia. destruct (rq_wait r); (eapply Acc_idle; [done|done|..]); cbn; done || lia.
  - cbn in Hok, Hle. destruct (H9 t _ f (rq_count r) Hp eq_refl) as [Ho Hn].
    assert (forall f', f' <> f -> f' ∈ (if rq_kernel r then {[f]} ∪ kernel s else kernel s ∖ {[f]}) <-> f' ∈ kernel s) as Hk by (intros f' Hne; destruct (rq_kernel r); set_solver).
    apply (Acc_move _ _ s); rewrite ?Epc; cbn; try done; try lia.
    + split; [done|]. destruct (rq_kernel r); set_solver.
    + intros u q Hne Hq. pose proof (H7 u q Hq) as Hq'. destruct q; cbn; try done. intros [? Hk']. split; [done|]. rewrite Hk; [done|]. intros ->. by destruct (moved_other _ _ s t _ f (rq_count r) u _ (rq_count r0) Ha Hp eq_refl Hne Hq).
    + intros f' k n Hf'. destruct (H8 f' k n Hf') as (? & ? & ?). rewrite Hk by congruence. done.
    + intros u q f' n _ Hq Hm. by apply (H9 u q).
    + intros f' n [= <- <-]. split; [done|]. split; [done|]. intros u q m Hne Hq. by eapply (moved_other _ _ s t).
  - cbn in Hok, Hle. destruct Hok as [Hpos Hkf]. destruct (H9 t _ f (rq_count r) Hp eq_refl) as [Ho Hn].
    assert (forall k, gsum (in_count k) (<[f := (rq_kernel r, rq_count r)]> (frames s)) = gsum (in_count k) (frames s) + in_count k (rq_kernel r, rq_count r)) as Hg by (intros k; rewrite gsum_insert, Hn; cbn; lia).
    assert (forall f' k n, <[f := (rq_kernel r, rq_count r)]> (frames s) !! f' = Some (k, n) -> 0 < n /\ raw_out (mem s) !! f' = Some n /\ (f' ∈ kernel s <-> k = true)) as Hfr.
    { intros f' k n [[<- [= <- <-]]|[Hne Hf']]%lookup_insert_Some; [done|by apply H8]. }
    assert (forall u q f' n, u <> t -> pcs s !! u = Some q -> moved q = Some (f', n) -> raw_out (mem s) !! f' = Some n /\ <[f := (rq_kernel r, rq_count r)]> (frames s) !! f' = None) as Hmv.
    { intros u q f' n Hne Hq Hm. destruct (H9 u q f' n Hq Hm). split; [done|]. rewrite lookup_insert_ne; [done|]. intros ->. by destruct (moved_other _ _ s t _ f' (rq_count r) u q n Ha Hp eq_refl Hne Hq). }
    destruct (rq_kernel r) eqn:Ek; cbn [set_frames set_used kernel_used page_data]; rewrite wrap_in by lia; apply (Acc_move _ _ s); rewrite ?Epc; cbn [set_used set_frames idle kernel_used page_data mem frames pcs moving ahead pc_ok moved kernel];
      rewrite ?Hg; rewrite ?H5, ?H6; cbn [in_count eqb fst snd]; done || lia.
  - apply Acc_quiet; [by apply Acc_stats|by cbn; unfold pc_of; cbn; rewrite Hp|done|done].
Qed.

Lemma wait_Acc s t p s' : Acc total kern s -> pcs s !! t = Some p -> wait_step s t p = Ret s' -> Acc total kern s'.
Proof.
  intros Ha Hp. pose proof (ac_pc _ _ s Ha t p Hp) as Hok. assert (forall w q c d a f n, pc_of (set_sleep (set_stats s a f n) w q c d) t = p) as Ep by (intros; by apply pc_of_Some).
  destruct p; cbn [wait_step]; try (intros [= <-]; done).
  - destruct (negb _); [discriminate|]. intros [= <-]. apply Acc_quiet; [by apply Acc_sleep, Acc_stats|by rewrite Ep|done|done].
  - destruct (bool_decide _); [discriminate|]. intros [= <-]. apply Acc_quiet; [by apply Acc_sleep|by rewrite (pc_of_Some _ t (WPush r old))|done|done].
  - intros [= <-]. apply Acc_quiet; [by apply Acc_sleep|by rewrite (pc_of_Some _ t (WFlag r old))|done|done].
  - destruct (idle s =? old); intros [= <-]; (apply Acc_quiet; [try by apply Acc_sleep|by rewrite (pc_of_Some _ t (WCheck r old))|done|done]). done.
  - intros [= <-]. apply Acc_quiet; [by apply Acc_sleep|by rewrite (pc_of_Some _ t (WReset r))|done|done].
  - intros [= <-]. apply Acc_quiet; [by apply Acc_sleep, Acc_stats|by rewrite Ep|done|done].
Qed.

Lemma free_first_Acc s t f k n : Acc total kern s -> pc_of s t = Out -> frames s !! f = Some (k, n) ->
  exists s', free_first s t f n = Ret s' /\ Acc total kern s'.
Proof.
  intros Ha Ept Hf. pose proof (bounds _ _ s Ha Hkern) as (Bi & Bk & Bp). pose proof Ha as [H1 H2 H3 H4 H5 H6 H7 H8 H9 H10].
  destruct (H8 f k n Hf) as (Hn & Ho & Hk).
  assert (forall b, gsum (in_count b) (delete f (frames s)) = gsum (in_count b) (frames s) - in_count b (k, n)) as Hg by (intros b; by apply gsum_delete).
  assert (n <= gsum (in_count k) (frames s)) as Hge.
  { replace n with (in_count k (k, n)) by (unfold in_count; cbn; by rewrite eqb_reflx). apply (gsum_ge _ _ f); [|done]. intros f' [k' n'] Hf'. destruct (H8 f' k' n' Hf') as (? & _). unfold in_count. cbn. destruct (eqb k' k); lia. }
  unfold free_first. assert (bool_decide (f ∈ kernel s) = k) as -> by (destruct k; [by apply bool_decide_eq_true, Hk|apply bool_decide_eq_false; rewrite Hk; done]).
  assert ((0 <? (if k then kernel_used s else page_data s)) = true) as -> by (apply Z.ltb_lt; destruct k; lia). cbn [rassert obind]. eexists. split; [done|].
  assert (Acc total kern (set_pc (set_frames (if k then set_used s (kernel_used s - n) (page_data s) else set_used s (kernel_used s) (page_data s - n)) (delete f (frames s))) t (FIdle f n))) as Hd.
  2:{ destruct k; rewrite wrap_in by lia; exact Hd. }
  destruct k; apply (Acc_move _ _ s); rewrite ?Ept; cbn [set_used set_frames idle kernel_used page_data mem frames pcs moving ahead pc_ok moved kernel];
    rewrite ?Hg, ?H5, ?H6; cbn [in_count eqb fst snd]; try done; try lia.
  all: first [intros f' k' n' [Hne Hf']%lookup_delete_Some; by apply H8
    |intros u q f' n' _ Hq Hm; destruct (H9 u q f' n' Hq Hm); split; [done|]; apply lookup_delete_None; by right
    |intros f' n' [= <- <-]; split; [done|]; split; [apply lookup_delete_eq|]; intros u q m Hne Hq Hm; destruct (H9 u q f m Hq Hm); congruence].
Qed.

Lemma free_Acc s t p s' : Acc total kern s -> pcs s !! t = Some p -> free_step s t p = Ret s' -> Acc total kern s'.
Proof.
  intros Ha Hp. pose proof (ac_pc _ _ s Ha t p Hp) as Hok. pose proof (pc_of_Some s t p Hp) as Epc. pose proof (bounds _ _ s Ha Hkern) as (Bi & Bk & Bp).
  pose proof (moving_le _ _ s t p Ha Hp) as Hle. pose proof Ha as [H1 H2 H3 H4 H5 H6 H7 H8 H9 H10].
  destruct p; cbn [free_step]; try (intros [= <-]; done).
  - cbn in Hok, Hle. intros [= <-]. rewrite wrap_in by lia. eapply Acc_idle; [done|done|..]; cbn; try done; try lia.
  - cbn in Hok. intros [= <-]. apply (Acc_move _ _ s); rewrite ?Epc; cbn; try done; try lia; [intros u q ? ? _ Hq Hm; by apply (H9 u q)|].
    intros f' n' [= <- <-]. destruct (H9 t _ f n Hp eq_refl). split; [done|]. split; [done|]. intros u q m Hne Hq. by eapply (moved_other _ _ s t).
  - cbn in Hok. intros [= <-]. destruct (H9 t _ f n Hp eq_refl) as [Ho Hn]. destruct (raw_free_law (mem s) f n H1 Ho) as (Hr & Hout & Hav).
    apply (Acc_move _ _ s); rewrite ?Epc; cbn; try done; try lia.
    + intros f' k n' Hf'. destruct (H8 f' k n' Hf') as (? & ? & ?). rewrite Hout, lookup_delete_ne by congruence. done.
    + intros u q f' n' Hne Hq Hm. destruct (H9 u q f' n' Hq Hm). rewrite Hout, lookup_delete_ne; [done|]. intros <-. by destruct (moved_other _ _ s t _ f n u q n' Ha Hp eq_refl Hne Hq).
  - intros [= <-]. apply Acc_quiet; [by apply Acc_requeue, Acc_sleep| |done|done].
    rewrite (pc_of_Some _ t FTake); [done|]. eapply woken_pc; [apply foldl_woken, add_woken|done|done].
  - intros [= <-]. apply Acc_quiet; [by apply Acc_requeue_all| |done|done].
    rewrite (pc_of_Some _ t FRequeue); [done|]. eapply woken_pc; [apply foldl_woken, one_woken|done|done].
Qed.

Lemma exec_Acc s e s' : Acc total kern s -> exec s e = Ret s' -> Acc total kern s'.
Proof.
  intros Ha. destruct e as [t r|t f|t|]; cbn [exec].
  - intros [= <-]. destruct (pc_of s t) eqn:Ep; try done. apply Acc_quiet; [done|by rewrite Ep|done|apply level_pages_pos].
  - destruct (pc_of s t) eqn:Ep; try (intros [= <-]; done). destruct (frames s !! f) as [[k n]|] eqn:Ef; [|intros [= <-]; done].
    intros E. destruct (free_first_Acc s t f k n Ha Ep Ef) as (s1 & E1 & Ha1). congruence.
  - unfold step_pc. destruct (pcs s !! t) as [p|] eqn:Ep; [rewrite (pc_of_Some s t p Ep)|unfold pc_of; rewrite Ep; by intros [= <-]].
    destruct p; try (intros [= <-]; done); first [intros <-%Ret_inj; by apply alloc_Acc|by apply wait_Acc|by apply free_Acc].
  - intros <-%Ret_inj. by destruct Ha.
Qed.
End counts.

(** ** Waiting *)

(** [Slp l]: the threads of [l] have been taken off the list of waiters and are about to be
    handed over. *)
Record Slp (l : list nat) (s : sys) : Prop := mkSlp {
  sl_in t : match pc_of s t with WPush _ _ | WFlag _ _ | WCheck _ _ => t ∈ critical s | WReset _ | WDone _ => True | _ => t ∉ critical s end;
  sl_done t : match pc_of s t with WCheck _ _ | Blocked _ => t ∈ sleep_done s | WReset _ => t ∈ sleep_done s -> t ∈ critical s | _ => t ∉ sleep_done s end;
  sl_kept t : match pc_of s t with WFlag _ _ | WCheck _ _ | Blocked _ => t ∈ l \/ t ∈ waiters s \/ t ∈ requeue s | _ => True end }.

Lemma kept_tail (t u : nat) l (w : list nat) (q : gset nat) : u ∈ t :: l \/ u ∈ w \/ u ∈ q -> u ∈ l \/ u ∈ w \/ u ∈ {[t]} ∪ q.
Proof. intros [[->|?]%elem_of_cons|[?|?]]; [right; right|left|right; left|right; right]; set_solver. Qed.

Lemma pc_of_set s t p u : pc_of (set_pc s t p) u = if decide (u = t) then p else pc_of s u.
Proof. unfold pc_of. cbn. case_decide as E; [subst; by rewrite lookup_insert_eq|by rewrite lookup_insert_ne]. Qed.

(** Handing a thread over: it runs, or is on the requeue list. *)
Lemma add_Slp s t l : Slp (t :: l) s -> Slp l (add_to_requeue s t).
Proof.
  intros [I1 I2 I3]. unfold add_to_requeue, can_run. destruct (bool_decide (t ∉ critical s)) eqn:Ec, (bool_decide (t ∈ sleep_done s)) eqn:Ed; cbn [andb].
  2-4: split; intros u; cbn; [exact (I1 u)|exact (I2 u)|]; specialize (I3 u); change (pc_of _ u) with (pc_of s u); destruct (pc_of s u); try done; by apply kept_tail.
  apply bool_decide_eq_true in Ec, Ed. pose proof (I2 t) as Ht. pose proof (I1 t) as Hi. destruct (pc_of s t) as [| | | | | | | | | | |r old|r|r| | | | | |] eqn:Ep; try done; [|specialize (Ht Ed); done].
  unfold schedule. cbn. unfold pc_of in Ep. destruct (pcs s !! t) as [p|] eqn:E; [|done]. cbn in Ep. subst p.
  split; intros u; rewrite pc_of_set; specialize (I1 u); specialize (I2 u); specialize (I3 u); destruct (decide (u = t)) as [->|Hne]; cbn; try done.
  - set_solver.
  - change (pc_of _ u) with (pc_of s u). destruct (pc_of s u); set_solver.
  - change (pc_of _ u) with (pc_of s u). destruct (pc_of s u); try done; destruct I3 as [[?|?]%elem_of_cons|[?|?]]; first [congruence|by auto].
Qed.

Lemma add_all_Slp ts s : Slp ts s -> Slp [] (add_all_to_requeue s ts).
Proof. unfold add_all_to_requeue. revert s. induction ts as [|t ts IH]; intros s Hs; cbn; [done|]. by apply IH, add_Slp. Qed.

Lemma one_Slp s t : Slp [] s -> Slp [] (requeue_one s t) /\ (t ∈ requeue (requeue_one s t) -> forall r, pc_of (requeue_one s t) t <> Blocked r).
Proof.
  intros Hs. pose proof Hs as [I1 I2 I3]. unfold requeue_one, can_run. destruct (bool_decide (t ∉ critical s)) eqn:Ec, (bool_decide (t ∈ sleep_done s)) eqn:Ed; cbn [andb].
  2-4: split; [done|]; intros _ r Hb; pose proof (I1 t) as Hi; pose proof (I2 t) as Hd; rewrite Hb in Hi, Hd; (apply bool_decide_eq_false in Ed; done) || (apply bool_decide_eq_false in Ec; done).
  apply bool_decide_eq_true in Ec, Ed. pose proof (I2 t) as Ht. pose proof (I1 t) as Hi. destruct (pc_of s t) as [| | | | | | | | | | |r old|r|r| | | | | |] eqn:Ep; try done; [|specialize (Ht Ed); done].
  unfold schedule. cbn. unfold pc_of in Ep. destruct (pcs s !! t) as [p|] eqn:E; [|done]. cbn in Ep. subst p. split; [|cbn; set_solver].
  split; intros u; rewrite pc_of_set; specialize (I1 u); specialize (I2 u); specialize (I3 u); destruct (decide (u = t)) as [->|Hne]; cbn; try done.
  - set_solver.
  - change (pc_of _ u) with (pc_of s u). destruct (pc_of s u); set_solver.
  - change (pc_of _ u) with (pc_of s u). destruct (pc_of s u); try done; (destruct I3 as [?|[?|?]]; [by auto|by auto|right; right; set_solver]).
Qed.

Lemma woken_back s s' t r : woken s s' -> pc_of s' t = Blocked r -> pc_of s t = Blocked r.
Proof. intros (_ & _ & Hw). unfold pc_of. destruct (Hw t) as [->|(r' & E & ->)]; [done|discriminate]. Qed.

Lemma one_requeue s t : requeue (requeue_one s t) ⊆ requeue s.
Proof. unfold requeue_one, schedule. destruct (can_run s t); [|done]. cbn. destruct (pcs s !! t) as [[]|]; cbn; set_solver. Qed.

(** After [requeue_all] no thread on the requeue list is blocked. *)
Lemma requeue_list ts s : Slp [] s -> let s' := foldl requeue_one s ts in
  Slp [] s' /\ requeue s' ⊆ requeue s /\ forall t r, t ∈ ts -> t ∈ requeue s' -> pc_of s' t <> Blocked r.
Proof.
  revert s. induction ts as [|u ts IH]; intros s Hs; cbn; [split; [done|]; split; [done|]; intros t r Ht; inversion Ht|].
  destruct (one_Slp s u Hs) as [Hs1 Hu]. destruct (IH _ Hs1) as (Hs2 & Hsub & Hts). split; [done|]. split; [etransitivity; [done|apply one_requeue]|].
  intros t r [->|Ht]%elem_of_cons Hq; [|by apply Hts]. intros Hb. apply (woken_back (requeue_one s u)) in Hb; [|apply foldl_woken, one_woken]. by apply (Hu (Hsub _ Hq) r).
Qed.

Lemma requeue_all_Slp s : Slp [] s -> Slp [] (requeue_all s) /\ forall t r, t ∈ requeue (requeue_all s) -> pc_of (requeue_all s) t <> Blocked r.
Proof.
  intros Hs. destruct (requeue_list (elements (requeue s)) s Hs) as (Hs' & Hsub & Hts). split; [done|]. intros t r Ht. apply Hts; [|done]. by apply elem_of_elements, Hsub.
Qed.

(** Places outside of [wait] *)
Definition calm (p : pc) : bool := match p with WPush _ _ | WFlag _ _ | WCheck _ _ | Blocked _ | WReset _ | WDone _ => false | _ => true end.

Lemma Slp_calm l s s1 t p : Slp l s -> pcs s1 = pcs s -> waiters s1 = waiters s -> requeue s1 = requeue s -> critical s1 = critical s -> sleep_done s1 = sleep_done s ->
  calm (pc_of s t) = true -> calm p = true -> Slp l (set_pc s1 t p).
Proof.
  intros [I1 I2 I3] Ep Ew Eq Ec Ed H1 H2. split; intros u; rewrite pc_of_set; cbn; rewrite ?Ew, ?Eq, ?Ec, ?Ed; unfold pc_of at 1; rewrite Ep; fold (pc_of s u); destruct (decide (u = t)) as [->|Hne]; [|apply I1| |apply I2| |apply I3].
  - specialize (I1 t). by destruct (pc_of s t), p.
  - specialize (I2 t). by destruct (pc_of s t), p.
  - by destruct p.
Qed.

(** A thread moves within [wait]. *)
Lemma Slp_wait s s1 t p : Slp [] s -> pcs s1 = pcs s -> requeue s1 = requeue s -> (forall u, u <> t -> u ∈ critical s1 <-> u ∈ critical s) ->
  (forall u, u <> t -> u ∈ sleep_done s1 <-> u ∈ sleep_done s) -> (forall u, u ∈ waiters s -> u ∈ waiters s1) ->
  match p with WPush _ _ | WFlag _ _ | WCheck _ _ => t ∈ critical s1 | WReset _ | WDone _ => True | _ => t ∉ critical s1 end ->
  match p with WCheck _ _ | Blocked _ => t ∈ sleep_done s1 | WReset _ => t ∈ sleep_done s1 -> t ∈ critical s1 | _ => t ∉ sleep_done s1 end ->
  match p with WFlag _ _ | WCheck _ _ | Blocked _ => t ∈ waiters s1 \/ t ∈ requeue s1 | _ => True end -> Slp [] (set_pc s1 t p).
Proof.
  intros [I1 I2 I3] Ep Eq Hc Hd Hw H1 H2 H3. split; intros u; rewrite pc_of_set; cbn; unfold pc_of at 1; rewrite Ep; fold (pc_of s u); destruct (decide (u = t)) as [->|Hne]; try done.
  - specialize (I1 u). destruct (pc_of s u); by rewrite ?Hc.
  - specialize (I2 u). destruct (pc_of s u); by rewrite ?Hd, ?Hc.
  - destruct p; auto.
  - specialize (I3 u). rewrite Eq. destruct (pc_of s u); try done; destruct I3 as [?|[?|?]]; auto.
Qed.

Lemma alloc_Slp s t p : Slp [] s -> pcs s !! t = Some p -> calm p = true -> Slp [] (alloc_step s t p).
Proof.
  intros Hs Hp Hc. rewrite <- (pc_of_Some s t p Hp) in Hc. destruct p; cbn [alloc_step]; try done.
  - eapply Slp_calm; try done. by repeat case_match.
  - destruct (idle s =? idle0); by eapply Slp_calm.
  - destruct (raw_alloc_frame _ _ _) as [[f|] m]; by eapply Slp_calm.
  - eapply Slp_calm; try done. by destruct (rq_wait r).
  - by eapply Slp_calm.
  - destruct (rq_kernel r); by eapply Slp_calm.
  - by eapply Slp_calm.
Qed.

Lemma wait_Slp s t p s' : Slp [] s -> pcs s !! t = Some p -> wait_step s t p = Ret s' -> Slp [] s'.
Proof.
  intros Hs Hp. pose proof Hs as [I1 I2 I3]. specialize (I1 t). specialize (I2 t). specialize (I3 t). rewrite (pc_of_Some s t p Hp) in I1, I2, I3.
  destruct p; cbn [wait_step]; try (intros <-%Ret_inj; done).
  - destruct (negb _); [discriminate|]. intros <-%Ret_inj. eapply Slp_wait; [exact Hs|..]; cbn; try done; set_solver.
  - destruct (bool_decide _); [discriminate|]. intros <-%Ret_inj. eapply Slp_wait; [exact Hs|..]; cbn; try done; set_solver.
  - intros <-%Ret_inj. eapply Slp_wait; [exact Hs|..]; cbn; try done; [set_solver..|]. destruct I3 as [I3|I3]; [inversion I3|done].
  - assert (t ∈ waiters s \/ t ∈ requeue s) as Hk by (destruct I3 as [I3|I3]; [inversion I3|done]).
    destruct (idle s =? old); intros <-%Ret_inj; (eapply Slp_wait; [exact Hs|..]; cbn; try done; set_solver).
  - intros <-%Ret_inj. eapply Slp_wait; [exact Hs|..]; cbn; try done; set_solver.
  - intros <-%Ret_inj. eapply Slp_wait; [exact Hs|..]; cbn; try done; set_solver.
Qed.

(** What the two steps of [wake] do *)
Lemma take_Slp s t : Slp [] s -> pcs s !! t = Some FTake -> let s1 := add_all_to_requeue (set_sleep s [] (requeue s) (critical s) (sleep_done s)) (waiters s) in
  Slp [] s1 /\ waiters s1 = [] /\ pcs s1 !! t = Some FTake.
Proof.
  intros [I1 I2 I3] Hp s1. set (s0 := set_sleep s [] _ _ _) in *.
  assert (woken s0 s1) as Hw by apply foldl_woken, add_woken. split; [|split; [apply Hw|by eapply woken_pc]]. apply add_all_Slp. split; [exact I1|exact I2|].
  intros u. specialize (I3 u). change (pc_of s0 u) with (pc_of s u). destruct (pc_of s u); try done; (destruct I3 as [I3|[?|?]]; [inversion I3|by auto|by auto]).
Qed.

Lemma free_Slp s t p s' : Slp [] s -> pcs s !! t = Some p -> free_step s t p = Ret s' -> Slp [] s'.
Proof.
  intros Hs Hp. pose proof (pc_of_Some s t p Hp) as Epc. destruct p; cbn [free_step]; try (intros <-%Ret_inj; done); intros <-%Ret_inj.
  - eapply Slp_calm; try done. by rewrite Epc.
  - eapply Slp_calm; try done. by rewrite Epc.
  - eapply Slp_calm; try done. by rewrite Epc.
  - destruct (take_Slp s t Hs Hp) as (Hs1 & _ & Hp1). eapply Slp_calm; [exact Hs1|done..|by rewrite (pc_of_Some _ _ _ Hp1)|done].
  - destruct (requeue_all_Slp s Hs) as [Hs1 _]. eapply Slp_calm; [exact Hs1|done..| |done].
    rewrite (pc_of_Some _ t FRequeue); [done|]. eapply woken_pc; [apply foldl_woken, one_woken|done|done].
Qed.

Lemma exec_Slp s e s' : Slp [] s -> exec s e = Ret s' -> Slp [] s'.
Proof.
  intros Hs. destruct e as [t r|t f|t|]; cbn [exec].
  - intros <-%Ret_inj. destruct (pc_of s t) eqn:Ep; try done. eapply Slp_calm; try done. by rewrite Ep.
  - destruct (pc_of s t) eqn:Ep; try (intros <-%Ret_inj; done). destruct (frames s !! f) as [[k n]|]; [|intros <-%Ret_inj; done].
    unfold free_first. destruct (rassert _) as [[]| |]; [|discriminate..]. cbn [obind]. intros <-%Ret_inj. destruct (bool_decide _); eapply Slp_calm; try done; by rewrite Ep.
  - unfold step_pc. destruct (pcs s !! t) as [p|] eqn:Ep; [rewrite (pc_of_Some s t p Ep)|unfold pc_of; rewrite Ep; by intros <-%Ret_inj].
    destruct p; try (intros [= <-]; done); first [intros <-%Ret_inj; by apply alloc_Slp|by apply wait_Slp|by apply free_Slp].
  - intros <-%Ret_inj. by destruct Hs.
Qed.

(** The two panics, of [wait]: there is no current thread, or it is linked already. *)
Definition stops (s : sys) (t : nat) : Prop := exists r old, pc_of s t = WCount r old /\ threads s = false \/ pc_of s t = WPush r old /\ t ∈ waiters s.

Lemma exec_panic total kern s e : 0 <= kern -> total < 2 ^ 64 -> Acc total kern s -> exec s e = Panic <-> exists t, e = EStep t /\ stops s t.
Proof.
  intros Hk Ht Ha. split.
  - destruct e as [t r|t f|t|]; cbn [exec]; [discriminate| | |discriminate].
    + destruct (pc_of s t) eqn:Ep; try discriminate. destruct (frames s !! f) as [[k n]|] eqn:Ef; [|discriminate].
      destruct (free_first_Acc total kern Hk Ht s t f k n Ha Ep Ef) as (s1 & E & _). congruence.
    + intros E. exists t. split; [done|]. revert E. unfold step_pc. destruct (pc_of s t) eqn:Ep; cbn; try discriminate; [| |by destruct (idle s =? old)].
      * destruct (threads s) eqn:Et; [discriminate|]. intros _. exists r, old. by left.
      * destruct (bool_decide (t ∈ waiters s)) eqn:Eb; [|discriminate]. apply bool_decide_eq_true in Eb. intros _. exists r, old. by right.
  - intros (t & -> & r & old & [[Hp E]|[Hp E]]); cbn; unfold step_pc; rewrite Hp; cbn; [by rewrite E|by rewrite bool_decide_true].
Qed.

Lemma init_Acc m kern : raw_ok m -> raw_out m = ∅ -> Acc (raw_avail m + kern) kern (init m kern).
Proof.
  intros Hm Ho. pose proof (raw_avail_pos m Hm). split; cbn; rewrite ?gsum_empty; try done; try lia.
Qed.

Lemma reach_Acc m kern s : raw_ok m -> raw_out m = ∅ -> 0 <= kern -> raw_avail m + kern < 2 ^ 64 -> rtc step (init m kern) s -> Acc (raw_avail m + kern) kern s.
Proof.
  intros Hm Ho Hk Ht Hr. eapply (rtc_invariant step); [by apply init_Acc| |done]. intros s1 s2 Ha (e & Ee). by eapply exec_Acc.
Qed.

Lemma init_Slp m kern : Slp [] (init m kern).
Proof. split; intros t; unfold pc_of; cbn; rewrite lookup_empty; cbn; set_solver. Qed.

Lemma reach_Slp m kern s : rtc step (init m kern) s -> Slp [] s.
Proof. intros Hr. eapply (rtc_invariant step); [apply (init_Slp m kern)| |done]. intros s1 s2 Hs (e & Ee). by eapply exec_Slp. Qed.

(** C17: whatever threads allocate, wait and free concurrently, every page is in exactly one
    of the counts or in the hands of one call: the idle, kernel and page counts and the
    pages on their way add up to the memory there is; the idle count differs from the
    allocator's free pages only by what is on its way; the kernel and page counts are those
    of the frames that callers hold, each of which the allocator has given out and no call
    is working on; a frame that the allocator gives is held by nobody; no count leaves its
    range; and no assertion fails.  A step panics exactly when it is the first of [wait] and
    there is no current thread yet, or when it enters a thread in the list of waiters that
    is still linked there. *)
Theorem memory_accounted m kern s : raw_ok m -> raw_out m = ∅ -> 0 <= kern -> raw_avail m + kern < 2 ^ 64 -> rtc step (init m kern) s ->
  idle s + kernel_used s + page_data s + gsum moving (pcs s) = raw_avail m + kern /\
  idle s = raw_avail (mem s) + gsum ahead (pcs s) /\
  kernel_used s = kern + gsum (in_count true) (frames s) /\ page_data s = gsum (in_count false) (frames s) /\
  (0 <= idle s < 2 ^ 64 /\ 0 <= kernel_used s < 2 ^ 64 /\ 0 <= page_data s < 2 ^ 64) /\
  (forall f k n, frames s !! f = Some (k, n) -> raw_out (mem s) !! f = Some n /\ forall t x, moved (pc_of s t) <> Some (f, x)) /\
  (forall t r i f m', pc_of s t = ARaw r i -> raw_alloc_frame (mem s) (rq_zeroed r) (rq_level r) = (Some f, m') -> frames s !! f = None) /\
  (forall e, exec s e = Panic <-> exists t, e = EStep t /\ stops s t).
Proof.
  intros Hm Ho Hk Ht Hr. pose proof (reach_Acc m kern s Hm Ho Hk Ht Hr) as Ha. pose proof (bounds _ _ s Ha Hk) as (Bi & Bk & Bp). pose proof Ha as [H1 H2 H3 H4 H5 H6 H7 H8 H9 H10].
  split_and!; try done; try lia.
  - intros f k n Hf. destruct (H8 f k n Hf) as (_ & ? & _). split; [done|]. intros t x Hx. unfold pc_of in Hx. destruct (pcs s !! t) as [p|] eqn:Ep; [|done]. destruct (H9 t p f x Ep Hx). congruence.
  - intros t r i f m' Hp Hal. pose proof (pc_of_ok _ _ s t Ha) as Hok. rewrite Hp in Hok. pose proof (raw_alloc_law (mem s) (rq_zeroed r) (rq_level r) H1) as Hl. rewrite Hal in Hl.
    destruct Hl as (_ & Hn & _). destruct (frames s !! f) as [[k n]|] eqn:Ef; [|done]. destruct (H8 f k n Ef) as (_ & ? & _). congruence.
  - intros e. by apply (exec_panic (raw_avail m + kern) kern).
Qed.

(** A thread that is blocked waiting for memory is on the list of waiters or on the
    requeue list, whatever the other threads do; and a call that frees memory takes every
    thread off the list of waiters and, when it returns, leaves no thread blocked that is on
    the requeue list, so that every thread that was waiting when it began runs again. *)
Theorem freeing_wakes m kern s : rtc step (init m kern) s ->
  (forall t r, pc_of s t = Blocked r -> t ∈ waiters s \/ t ∈ requeue s) /\
  (forall t s', pc_of s t = FTake -> exec s (EStep t) = Ret s' -> waiters s' = [] /\ forall u r, pc_of s' u = Blocked r -> u ∈ requeue s') /\
  (forall t s', pc_of s t = FRequeue -> exec s (EStep t) = Ret s' -> forall u r, pc_of s' u = Blocked r -> u ∉ requeue s').
Proof.
  intros Hr. pose proof (reach_Slp m kern s Hr) as Hs. split_and!.
  - intros t r Hb. pose proof (sl_kept [] s Hs t) as Hk. rewrite Hb in Hk. destruct Hk as [Hk|Hk]; [inversion Hk|done].
  - intros t s' Hp E. pose proof (exec_Slp s _ s' Hs E) as Hs'. assert (pcs s !! t = Some FTake) as Hp' by (unfold pc_of in Hp; destruct (pcs s !! t); [by cbn in Hp; subst|done]).
    destruct (take_Slp s t Hs Hp') as (_ & Hw & _). cbn in E. unfold step_pc in E. rewrite Hp in E. cbn in E. apply Ret_inj in E. rewrite <- E. split; [exact Hw|]. rewrite E.
    intros u r Hb. pose proof (sl_kept [] s' Hs' u) as Hk. rewrite Hb in Hk. rewrite <- E in Hk. cbn in Hk. rewrite Hw in Hk. rewrite <- E. cbn. destruct Hk as [Hk|[Hk|Hk]]; [inversion Hk..|done].
  - intros t s' Hp E u r Hb. cbn in E. unfold step_pc in E. rewrite Hp in E. cbn in E. apply Ret_inj in E. subst s'. destruct (requeue_all_Slp s Hs) as [_ Hq]. cbn. intros Hu. apply (Hq u r Hu).
    rewrite pc_of_set in Hb. by case_decide.
Qed.
End tracker.

(** ** An allocator

    Free frames of some size; an allocation takes one of exactly the size. *)
Record pool := mkPool { p_free : gmap FrameRef Z; p_out : gmap FrameRef Z }.

Definition pool_alloc (a : pool) (z : bool) (l : PhysLevel) : option FrameRef * pool :=
  let n := level_pages l in
  match List.find (fun x => x.2 =? n) (map_to_list (p_free a)) with
  | Some (f, _) => (Some f, mkPool (delete f (p_free a)) (<[f := n]> (p_out a)))
  | None => (None, a)
  end.
Definition pool_free (a : pool) (f : FrameRef) : pool :=
  match p_out a !! f with Some n => mkPool (<[f := n]> (p_free a)) (delete f (p_out a)) | None => a end.
Definition pool_ok (a : pool) : Prop := p_free a ##ₘ p_out a /\ (forall f n, p_free a !! f = Some n -> 0 < n) /\ forall f n, p_out a !! f = Some n -> 0 < n.

#[global] Instance pool_frames : RawFrames pool.
Proof.
  refine {| raw_ok := pool_ok; raw_out := p_out; raw_avail a := gsum id (p_free a); raw_alloc_frame := pool_alloc; raw_free_frame := pool_free |}.
  - abstract (intros a (_ & Hf & _); apply gsum_nonneg; intros f n Hn; specialize (Hf f n Hn); cbn; lia).
  - abstract (intros a z l (Hd & Hf & Ho); pose proof (level_pages_pos l) as Hn; unfold pool_alloc; revert Hn; generalize (level_pages l); intros n Hn; destruct (List.find _ _) as [[f x]|] eqn:E; [|done];
      apply find_some in E as [Hin Ex]; apply Z.eqb_eq in Ex; cbn in Ex; subst x; apply list_elem_of_In, elem_of_map_to_list in Hin;
      assert (p_out a !! f = None) as Hout by (by eapply map_disjoint_Some_l);
      split; [split; [|split]|split; [done|split; [done|cbn; by rewrite (gsum_delete id _ f n)]]]; cbn;
      [apply map_disjoint_insert_r_2; [apply lookup_delete_eq|by apply map_disjoint_delete_l]
      |intros g k [_ Hk]%lookup_delete_Some; by eapply Hf|intros g k [[<- <-]|[_ Hk]]%lookup_insert_Some; [done|by eapply Ho]]).
  - abstract (intros a f n (Hd & Hf & Ho) Hn; unfold pool_free; rewrite Hn; assert (p_free a !! f = None) as Hfree by (by eapply map_disjoint_Some_r);
      split; [split; [|split]|split; [done|cbn; rewrite gsum_insert, Hfree; cbn; lia]]; cbn;
      [apply map_disjoint_insert_l_2; [apply lookup_delete_eq|by apply map_disjoint_delete_r]
      |intros g k [[<- <-]|[_ Hk]]%lookup_insert_Some; [by eapply Ho|by eapply Hf]|intros g k [_ Hk]%lookup_delete_Some; by eapply Ho]).
Defined.

(** Frames of a page, and requests for one page that may wait *)
Definition fr (i : Z) : FrameRef := (0x1000, i).
Definition ex_pool (l : list Z) : pool := mkPool (list_to_map ((fun i => (fr i, 1)) <$> l)) ∅.
Definition page_req : req := mkReq false false true Level0.
Definition go (s : sys (A := pool)) (es : list event) : sys (A := pool) := ret_or s (run s es).

Lemma ex_pool_ok l : pool_ok (ex_pool l).
Proof.
  split; [apply map_disjoint_empty_r|]. split; [|intros f n; cbn; by rewrite lookup_empty]. intros f n Hn. cbn in Hn. apply elem_of_list_to_map_2 in Hn.
  apply list_elem_of_fmap in Hn as (x & [= -> ->] & _). lia.
Qed.

Lemma run_reaches (s : sys (A := pool)) es s' : run s es = Ret s' -> rtc step s s'.
Proof.
  revert s. induction es as [|e es IH]; intros s; cbn; [intros <-%Ret_inj; apply rtc_refl|]. intros (s1 & E1 & E2)%obind_Ret.
  eapply rtc_l; [by exists e|by apply IH].
Qed.

(** Two threads allocate a page each, a third waits, and one of the pages is freed. *)
Definition ex_es : list event :=
  [EThreads; EAlloc 0 page_req] ++ replicate 6 (EStep 0) ++ [EAlloc 1 page_req] ++ replicate 4 (EStep 1).
Definition ex_sys : sys := go (init (ex_pool [0; 1]) 5) ex_es.

Lemma memory_accounted_witness : gsum moving (pcs ex_sys) = 1 /\ idle ex_sys + kernel_used ex_sys + page_data ex_sys + gsum moving (pcs ex_sys) = 7.
Proof.
  destruct (memory_accounted (ex_pool [0; 1]) 5 ex_sys) as (Ht & Hi & Hk & Hp & _).
  - apply ex_pool_ok.
  - reflexivity.
  - lia.
  - vm_compute. reflexivity.
  - apply (run_reaches _ ex_es); vm_compute; reflexivity.
  - split; [vm_compute; reflexivity|exact Ht].
Defined.

(** Thread 1 waits for memory and is blocked; thread 0 frees its page. *)
Definition wait_es : list event :=
  [EThreads; EAlloc 0 page_req] ++ replicate 6 (EStep 0) ++ [EAlloc 1 page_req] ++ replicate 5 (EStep 1) ++ [EFree 0 (fr 0)] ++ replicate 3 (EStep 0).
Definition wait_sys : sys := go (init (ex_pool [0]) 0) wait_es.
Definition woken_sys : sys := go wait_sys [EStep 0].

Lemma freeing_wakes_witness : pc_of wait_sys 1 = Blocked page_req /\ (1%nat ∈ waiters wait_sys \/ 1%nat ∈ requeue wait_sys) /\ pc_of woken_sys 1 = WReset page_req /\ waiters woken_sys = [].
Proof.
  destruct (freeing_wakes (ex_pool [0]) 0 wait_sys) as (Hb & Hw & _).
  - apply (run_reaches _ wait_es); vm_compute; reflexivity.
  - assert (pc_of wait_sys 1 = Blocked page_req) as E by (vm_compute; reflexivity). split; [exact E|]. split; [exact (Hb 1%nat page_req E)|]. split; [vm_compute; reflexivity|].
    apply (Hw 0%nat woken_sys); vm_compute; reflexivity.
Defined.

(** ** What goes wrong *)

(** A thread finds no memory; a page is freed before it enters itself in the list of waiters,
    so it does not block, and it takes the page.  It is still in the list. *)
Definition stale_es : list event :=
  [EThreads; EAlloc 0 page_req] ++ replicate 6 (EStep 0) ++ [EAlloc 1 page_req; EStep 1] ++ [EFree 0 (fr 0)] ++ replicate 5 (EStep 0) ++ replicate 6 (EStep 1) ++ replicate 7 (EStep 1) ++ [EAlloc 1 page_req; EStep 1; EStep 1].

(** A thread that has waited for memory without blocking, because a page was freed just
    then, stays in the list of waiters when it goes on; when it has to wait for memory again
    before the next frame is freed, entering it a second time stops the kernel. *)
Theorem stale_waiter_panics : exists s, run (init (ex_pool [0]) 0) stale_es = Ret s /\ exec s (EStep 1) = Panic.
Proof. eexists. split; [vm_compute; reflexivity|]. vm_compute. reflexivity. Qed.

(** Thread 0 asks for a frame of level 1; thread 1 looks for a page before it is known that
    there is no such frame. *)
Definition large_req : req := mkReq false false false Level1.
Definition looks_es : list event := [EThreads; EAlloc 0 large_req; EStep 0; EStep 0; EAlloc 1 page_req] ++ replicate 5 (EStep 1).

Definition start_with `{RawFrames A} (m : A) (i : Z) : sys := mkSys 0 0 i 0 0 0 m ∅ [] ∅ ∅ ∅ ∅ ∅ false.
Definition stranded `{RawFrames A} (m : A) (i : Z) (p : pc) : sys :=
  mkSys 0 0 i 0 0 1 m ∅ [1%nat] ∅ ∅ {[1%nat]} {[0%nat := p; 1%nat := Blocked page_req]} ∅ true.

Lemma run_app `{RawFrames A} (s : sys) es es' : run s (es ++ es') = let! s := run s es in run s es'.
Proof. revert s. induction es as [|e es IH]; intros s; cbn; [done|]. destruct (exec s e); cbn; [apply IH|done..]. Qed.

(** An allocation that fails because no frame is large enough puts the pages it had taken
    out of the idle count back without waking anyone.  Whatever the allocator, when 512 pages
    are free but not as a frame of level 1, a thread that looked at the count in between is
    then blocked waiting for a page while all pages are free, and no thread is running that
    could wake it. *)
Theorem failed_allocation_strands `{RawFrames A} (m : A) : raw_ok m -> raw_avail m = 512 -> (raw_alloc_frame m false Level1).1 = None ->
  exists m', run (init m 0) (looks_es ++ replicate 2 (EStep 0)) = Ret (stranded m' 512 Out) /\ raw_avail m' = 512 /\ raw_out m' = raw_out m.
Proof.
  intros Hm Hav Hno. pose proof (raw_alloc_law m false Level1 Hm) as Hl. destruct (raw_alloc_frame m false Level1) as [o m'] eqn:E. cbn in Hno. subst o. destruct Hl as (_ & Ho & Ha).
  exists m'. split; [|by rewrite Ha]. unfold init. rewrite Hav, run_app. change (mkSys _ _ _ _ _ _ _ _ _ _ _ _ _ _ _) with (start_with m 512).
  assert (run (start_with m 512) looks_es = Ret (stranded m 0 (ARaw large_req 512))) as -> by (vm_compute; reflexivity). cbn [obind replicate run].
  assert (exec (stranded m 0 (ARaw large_req 512)) (EStep 0) = Ret (stranded m' 0 (ABack large_req 512))) as ->; [|vm_compute; reflexivity].
  cbn. unfold step_pc. change (pc_of _ 0) with (ARaw large_req 512). cbn. rewrite E. vm_compute. reflexivity.
Qed.

Lemma failed_allocation_strands_witness : exists m', run (init (ex_pool (seqZ 0 512)) 0) (looks_es ++ replicate 2 (EStep 0)) = Ret (stranded m' 512 Out) /\ raw_avail m' = 512.
Proof.
  destruct (failed_allocation_strands (ex_pool (seqZ 0 512))) as (m' & E & Ha & _).
  - apply ex_pool_ok.
  - vm_compute. reflexivity.
  - vm_compute. reflexivity.
  - exists m'. split; [exact E|exact Ha].
Defined.
End MemTracker.
