(* ===== verification/TrackerFrames.v ===== *)
(** * The frame allocator as the memory tracker uses it

    [MemTracker] is written against the class [RawFrames]; here the allocator of [FrameAlloc]
    is shown to be an instance, by the theorems of [FrameAllocSpec]: [raw_alloc_frame] with the
    layout of a level gives a frame of that level, which was not given out before and is the
    only one that becomes allocated, and [raw_free_frame] takes back exactly the frame it is
    given.  The free pages are those of the regions that are in no allocated frame. *)
From S2P Require Import Prelude Intrusive FrameAlloc FrameAllocInv FrameAllocSpec MemTracker.
Import FrameAlloc FrameAllocInv FrameAllocSpec.

#[local] Open Scope Z_scope.

Module TrackerFrames.

Section frames.
Context `{Build} {L : Type} `{LinkedList FrameRef L} (bits : Z).

#[local] Abbreviation npages ix := (len ix / FRAME_SIZE).

Record Frames := mkFrames { fa_heap : heap; fa_regions : list (AllocationRegion L) }.

Definition in_regions (rgs : list (AllocationRegion L)) (r : FrameRef) : bool := bool_decide (r.1 ∈ rbase <$> rgs).

(** The frames that are allocated, with their pages *)
Definition out_of (a : Frames) : gmap FrameRef Z :=
  map_imap (fun r f => if ADMITTED (flags f) && ALLOCATED (flags f) && in_regions (fa_regions a) r then Some (pages (flevel f)) else None) (fa_heap a).

Definition all_pages (rgs : list (AllocationRegion L)) : list FrameRef := rgs ≫= fun rg => (fun k => (rbase rg, k)) <$> seqZ 0 (npages (indexer rg)).
Definition avail (a : Frames) : Z := zlen (all_pages (fa_regions a)) - gsum id (out_of a).

Definition level_no (l : MemTracker.PhysLevel) : Z := match l with MemTracker.Level0 => 0 | MemTracker.Level1 => 1 | MemTracker.Level2 => 2 end.

(** [raw_alloc_frame(pff, PHYS_LEVEL_LAYOUTS[l])] and [raw_free_frame] *)
Definition frames_alloc (a : Frames) (z : bool) (l : MemTracker.PhysLevel) : option FrameRef * Frames :=
  match (let! lay := level_layout (level_no l) in raw_alloc_frame bits (mkFlags z false false false) lay (fa_heap a) (fa_regions a)) with
  | Ret (o, h, rgs) => (o, mkFrames h rgs)
  | _ => (None, a)
  end.

Definition frames_free (a : Frames) (r : FrameRef) : Frames :=
  match raw_free_frame bits (fa_heap a) (fa_regions a) r with Ret (h, rgs) => mkFrames h rgs | _ => a end.

Definition frames_ok (a : Frames) : Prop := PFA_ok bits (fa_heap a) (fa_regions a).

(** ** The frames given out *)
Lemma in_regions_spec rgs r : in_regions rgs r = true <-> exists rg, rg ∈ rgs /\ r.1 = rbase rg.
Proof. unfold in_regions. rewrite bool_decide_eq_true, list_elem_of_fmap. naive_solver. Qed.

Lemma out_spec h rgs r n : out_of (mkFrames h rgs) !! r = Some n <-> exists f, live h rgs r f /\ ALLOCATED (flags f) = true /\ n = pages (flevel f).
Proof.
  unfold out_of. cbn [fa_heap fa_regions]. rewrite map_lookup_imap. split.
  - destruct (h !! r) as [f|] eqn:Ef; [|done]. cbn. destruct (_ && _) eqn:E; [|done]. apply andb_true_iff in E as [[Ha Hal]%andb_true_iff (rg & Hin & Er)%in_regions_spec].
    intros [= <-]. exists f. split_and!; [|done|done]. exists rg, r.2. split; [done|]. rewrite <- Er. destruct r as [b i]. by split.
  - intros (f & (rg & i & Hin & -> & Hf & Ha) & Hal & ->). rewrite Hf. cbn. rewrite Ha, Hal. cbn [andb].
    by rewrite (proj2 (in_regions_spec rgs _)) by (by exists rg).
Qed.

Lemma live_indexer h (rgs rgs' : list (AllocationRegion L)) r f : map indexer rgs' = map indexer rgs -> live h rgs r f <-> live h rgs' r f.
Proof.
  assert (forall a b : list (AllocationRegion L), map indexer b = map indexer a -> live h a r f -> live h b r f) as Hd; [|split; by apply Hd].
  intros a b E (rg & i & Hin & -> & Hf). assert (indexer rg ∈ map indexer b) as Hx by (rewrite E; by apply (list_elem_of_fmap_2 indexer)).
  apply list_elem_of_fmap in Hx as (x & Ex & Hx). exists x, i. unfold rbase in *. by rewrite <- Ex.
Qed.

Lemma pages_indexer (rgs rgs' : list (AllocationRegion L)) : map indexer rgs' = map indexer rgs -> all_pages rgs' = all_pages rgs.
Proof.
  revert rgs'. induction rgs as [|x rgs IH]; intros [|y rgs']; cbn; try done. intros [= E1 E2]. unfold all_pages in *. cbn. unfold rbase. rewrite E1. f_equal. by apply IH.
Qed.

Lemma gsum_list (m : gmap FrameRef Z) : gsum id m = foldr (fun x acc => x.2 + acc) 0 (map_to_list m).
Proof. unfold gsum. rewrite map_fold_foldr. generalize (map_to_list m). intros l. induction l as [|[k v] l IH]; [done|]. cbn [foldr uncurry snd]. rewrite IH. done. Qed.

(** ** The pages of the frames given out are pages of the regions, each in one frame. *)
Definition frame_pages (x : FrameRef * Z) : list FrameRef := (fun k => (x.1.1, x.1.2 + k)) <$> seqZ 0 x.2.

Lemma frame_pages_elem x p : p ∈ frame_pages x <-> p.1 = x.1.1 /\ x.1.2 <= p.2 < x.1.2 + x.2.
Proof.
  unfold frame_pages. rewrite list_elem_of_fmap. setoid_rewrite elem_of_seqZ. destruct p as [b q]. cbn. split.
  - intros (k & [= -> ->] & Hk). lia.
  - intros [-> Hq]. exists (q - x.1.2). split; [f_equal; lia|lia].
Qed.

Lemma sum_length (l : list (FrameRef * Z)) : (forall x, x ∈ l -> 0 <= x.2) -> zlen (l ≫= frame_pages) = foldr (fun x acc => x.2 + acc) 0 l.
Proof.
  induction l as [|x l IH]; intros Hl; [done|]. cbn. unfold zlen in *. rewrite length_app, Nat2Z.inj_add. rewrite IH by (intros; apply Hl; by right).
  unfold frame_pages at 1. rewrite length_fmap, length_seqZ. specialize (Hl x ltac:(by left)). lia.
Qed.

Lemma live_page h (rgs : list (AllocationRegion L)) r f p : PFA_ok bits h rgs -> live h rgs r f -> p ∈ frame_pages (r, pages (flevel f)) -> p ∈ all_pages rgs.
Proof.
  intros Hok Hl [Hb Hp]%frame_pages_elem. destruct (live_Good bits h rgs r f Hok Hl) as (rg & i & Hin & -> & Hf & HG). cbn in Hb, Hp.
  destruct (t_frame _ _ _ (g_tiled _ _ _ _ HG) i f Hf) as (_ & _ & Hi & He & _).
  apply list_elem_of_bind. exists rg. split; [|done]. apply list_elem_of_fmap. exists p.2. split; [destruct p; cbn in *; congruence|]. apply elem_of_seqZ. lia.
Qed.

Lemma regions_base h (rgs : list (AllocationRegion L)) rg rg' : PFA_ok bits h rgs -> rg ∈ rgs -> rg' ∈ rgs -> rbase rg = rbase rg' -> rg = rg'.
Proof.
  induction rgs as [|x rgs IH]; [by intros _ ?%not_elem_of_nil|]. intros (_ & Hap & Hok). rewrite Forall_forall in Hap.
  intros [->|Hin]%elem_of_cons [->|Hin']%elem_of_cons E; [done| | |by apply IH].
  - by destruct (Hap rg' Hin').
  - by destruct (Hap rg Hin).
Qed.

Lemma live_once h (rgs : list (AllocationRegion L)) r r' f f' p : PFA_ok bits h rgs -> live h rgs r f -> live h rgs r' f' ->
  p ∈ frame_pages (r, pages (flevel f)) -> p ∈ frame_pages (r', pages (flevel f')) -> r = r'.
Proof.
  intros Hok Hl Hl' [Hb Hp]%frame_pages_elem [Hb' Hp']%frame_pages_elem.
  destruct (live_Good bits h rgs r f Hok Hl) as (rg & i & Hin & -> & Hf & HG). destruct Hl' as (rg' & i' & Hin' & -> & Hf'). cbn in *.
  assert (rg = rg') as <- by (apply (regions_base h rgs); [done..|congruence]). f_equal.
  apply (t_uniq _ _ _ (g_tiled _ _ _ _ HG) p.2); [by exists f|by exists f'].
Qed.

Lemma out_le h (rgs : list (AllocationRegion L)) : PFA_ok bits h rgs -> gsum id (out_of (mkFrames h rgs)) <= zlen (all_pages rgs).
Proof.
  intros Hok. set (m := out_of (mkFrames h rgs)). assert (forall x, x ∈ map_to_list m -> exists f, live h rgs x.1 f /\ x.2 = pages (flevel f) /\ 0 <= x.2) as Hx.
  { intros [r n] Hr%elem_of_map_to_list. apply out_spec in Hr as (f & Hl & _ & ->). exists f. split; [done|]. split; [done|]. cbn. apply Z.pow_nonneg. lia. }
  rewrite gsum_list, <- sum_length by (intros x Hin; by destruct (Hx x Hin) as (? & _ & _ & ?)).
  assert (map_to_list m ≫= frame_pages ⊆+ all_pages rgs) as Hs; [|apply submseteq_length in Hs; unfold zlen; lia].
  apply NoDup_submseteq.
  - apply NoDup_bind; [| |apply NoDup_map_to_list].
    + intros [r n] [r' n'] p Hr Hr' Hp Hp'. destruct (Hx _ Hr) as (f & Hl & E & _), (Hx _ Hr') as (f' & Hl' & E' & _). cbn in *. subst n n'.
      assert (r = r') as <- by by eapply live_once. apply elem_of_map_to_list in Hr, Hr'. congruence.
    + intros x _. apply NoDup_fmap_2; [intros k k' [= E]; lia|apply NoDup_seqZ].
  - intros p (x & Hp & Hin)%list_elem_of_bind. destruct (Hx x Hin) as (f & Hl & E & _). apply (live_page h rgs x.1 f); [done|done|]. rewrite <- E. by destruct x.
Qed.

(** ** The laws *)
Lemma level_layout_of l : level_layout (level_no l) = Ret (mkLayout (FRAME_SIZE * pages (level_no l)) (FRAME_SIZE * pages (level_no l))).
Proof. by destruct l. Qed.

Lemma level_exact l f : 0 <= flevel f <= 2 -> fits_layout (mkLayout (FRAME_SIZE * pages (level_no l)) (FRAME_SIZE * pages (level_no l))) f ->
  (forall k, 0 <= k < flevel f -> ~ (FRAME_SIZE * pages (level_no l) <= FRAME_SIZE * pages k /\ FRAME_SIZE * pages (level_no l) <= FRAME_SIZE * pages k)) ->
  pages (flevel f) = MemTracker.level_pages l.
Proof.
  intros Hf [Hs _] Hmin. cbn in Hs. assert (flevel f = level_no l) as ->; [|by destruct l].
  assert (0 <= level_no l <= 2) by (destruct l; cbn; lia). destruct (Z.lt_trichotomy (level_no l) (flevel f)) as [Hlt|[->|Hgt]]; [|done|].
  - exfalso. apply (Hmin (level_no l)); [lia|]. split; lia.
  - exfalso. assert (pages (flevel f) < pages (level_no l)) by (apply Z.pow_lt_mono_r; lia). unfold FRAME_SIZE in Hs. lia.
Qed.

Lemma frames_alloc_law a z l : frames_ok a ->
  match frames_alloc a z l with
  | (Some f, a') => frames_ok a' /\ out_of a !! f = None /\ out_of a' = <[f := MemTracker.level_pages l]> (out_of a) /\ avail a' = avail a - MemTracker.level_pages l
  | (None, a') => frames_ok a' /\ out_of a' = out_of a /\ avail a' = avail a
  end.
Proof.
  destruct a as [h rgs]. intros Hok. unfold frames_alloc. rewrite level_layout_of. cbn [obind fa_heap fa_regions].
  destruct (raw_alloc_spec bits (mkFlags z false false false) (mkLayout (FRAME_SIZE * pages (level_no l)) (FRAME_SIZE * pages (level_no l))) h rgs Hok)
    as (o & h' & rgs' & -> & Hok' & Em & Hkeep & Honly & Ho). pose proof (pages_indexer _ _ Em) as Ep.
  assert (forall r f, live h rgs r f -> ALLOCATED (flags f) = true -> live h' rgs' r f) as Hstay.
  { intros r f Hl Hal. pose proof (Hkeep r f Hl Hal) as Hr. apply (live_indexer h' rgs' rgs); [done|]. destruct Hl as (rg & i & Hin & -> & _ & Ha). exists rg, i. split_and!; [done|done|by split]. }
  destruct o as [r|].
  - destruct Ho as (f & [G1 G2 _ G4 G5 _ G7 G8]). assert (out_of (mkFrames h rgs) !! r = None) as Hnone.
    { apply eq_None_not_Some. intros [n (g & Hg & Hal & _)%out_spec]. by destruct (G7 r g Hg Hal). }
    assert (out_of (mkFrames h' rgs') = <[r := MemTracker.level_pages l]> (out_of (mkFrames h rgs))) as Eo.
    { rewrite <- (level_exact l f G5 G4 G8). apply map_eq. intros r'. apply option_eq. intros n. rewrite out_spec. destruct (decide (r' = r)) as [->|Hne].
      - rewrite lookup_insert_eq. split; [|intros [= <-]; by exists f]. intros (g & Hg & _ & ->). f_equal. f_equal. f_equal.
        destruct G1 as (? & ? & _ & -> & [Hf _]), Hg as (? & ? & _ & E & [Hg _]). congruence.
      - rewrite lookup_insert_ne, out_spec by done. split; intros (g & Hg & Hal & ->); exists g; (split; [|done]); [|by apply Hstay].
        destruct (Honly r' g Hg Hal) as [[= ?]|?]; [by destruct Hne|done]. }
    split; [done|]. split; [done|]. split; [done|]. unfold avail. cbn [fa_regions]. rewrite Eo, gsum_insert, Hnone, Ep. cbn. lia.
  - destruct Ho as [-> _]. assert (out_of (mkFrames h rgs') = out_of (mkFrames h rgs)) as Eo.
    { apply map_eq. intros r. apply option_eq. intros n. rewrite !out_spec. by setoid_rewrite (live_indexer h rgs rgs' r _ Em). }
    split; [done|]. split; [done|]. unfold avail. cbn [fa_regions]. by rewrite Eo, Ep.
Qed.

Lemma frames_free_law a f n : frames_ok a -> out_of a !! f = Some n ->
  frames_ok (frames_free a f) /\ out_of (frames_free a f) = delete f (out_of a) /\ avail (frames_free a f) = avail a + n.
Proof.
  destruct a as [h rgs]. intros Hok Hn. pose proof Hn as (g & Hg & Hal & ->)%out_spec. pose proof Hg as (rg & i & _ & _ & [_ Ha]).
  assert (h !! f = Some g) as Hf by (by destruct Hg as (? & ? & _ & -> & [? _])).
  unfold frames_free, raw_free_frame, deref. cbn [fa_heap fa_regions]. rewrite Hf. cbn [unwrap obind]. rewrite Ha, Hal. cbn [negb rassert obind].
  destruct (PFA_free_spec bits h rgs f g Hok Hg Hal) as (rgs' & -> & Em & Hok').
  assert (out_of (mkFrames (<[f := set_free g]> h) rgs') = delete f (out_of (mkFrames h rgs))) as Eo.
  { apply map_eq. intros r. apply option_eq. intros m. rewrite out_spec. setoid_rewrite <- (live_indexer _ rgs rgs' r _ Em). destruct (decide (r = f)) as [->|Hne].
    - rewrite lookup_delete_eq. split; [|done]. intros (x & (rg' & j & _ & -> & [Hx _]) & Hax & _). rewrite lookup_insert_eq in Hx. by injection Hx as <-.
    - rewrite lookup_delete_ne, out_spec by done. split; intros (x & (rg' & j & Hin & -> & [Hx ?]) & ? & ?); exists x; (split; [|done]); exists rg', j; split_and!; try done; split; try done.
      + by rewrite lookup_insert_ne in Hx by done.
      + by rewrite lookup_insert_ne by done. }
  split; [done|]. split; [done|]. unfold avail. cbn [fa_regions]. rewrite Eo, (gsum_delete id _ f _ Hn), (pages_indexer _ _ Em). cbn. lia.
Qed.

#[global] Instance allocator_frames : MemTracker.RawFrames Frames := {|
  MemTracker.raw_ok := frames_ok; MemTracker.raw_out := out_of; MemTracker.raw_avail := avail;
  MemTracker.raw_alloc_frame := frames_alloc; MemTracker.raw_free_frame := frames_free;
  MemTracker.raw_avail_pos a Ha := proj2 (Z.le_0_sub _ _) (out_le (fa_heap a) (fa_regions a) Ha);
  MemTracker.raw_alloc_law := frames_alloc_law; MemTracker.raw_free_law := frames_free_law |}.

(** A region that has just been made, as the tracker starts with it *)
Lemma fresh_frames sizeof_Frame m h rg : fresh_region bits sizeof_Frame m h rg ->
  frames_ok (mkFrames h [rg]) /\ out_of (mkFrames h [rg]) = ∅ /\ avail (mkFrames h [rg]) = npages (indexer rg).
Proof.
  intros [HG _ _ _ _ Hfree]. assert (out_of (mkFrames h [rg]) = ∅) as Eo.
  { apply map_eq. intros r. rewrite lookup_empty. apply eq_None_not_Some. intros [n (f & (rg' & i & Hin & -> & Hf) & Hal & _)%out_spec].
    apply list_elem_of_singleton in Hin as ->. by rewrite (Hfree i f Hf) in Hal. }
  split; [by split_and!|]. split; [done|]. unfold avail, all_pages, zlen. rewrite Eo, gsum_empty. cbn [fa_regions mbind list_bind].
  rewrite app_nil_r, length_fmap, length_seqZ. destruct (wf_len _ _ (g_wf _ _ _ _ HG)). assert (0 <= npages (indexer rg)) by (apply Z.div_pos; [lia|done]). lia.
Qed.
End frames.
End TrackerFrames.
