(* ===== verification/PagerReq.v ===== *)
(** * Requests to the pager ([src/kernel/src/pager.rs], [pager/inflight.rs], [pager/request.rs],
    [pager/queues.rs])

    A thread that needs something of the pager enters a request with the manager of requests
    in flight, unless the manager has an equal one; sends its commands over a queue; and
    waits until the request is done.  The thread that handles completions marks requests as
    done, wakes who waits for them, and removes them.

    What runs under the lock of the manager is one step.  The red-black tree that finds
    requests by their kind is the class [ReqTree].  The identifiers of commands are those of
    [IdCounter]: not in use.  A completion of page data and the end of a command, which the
    handler treats under two locks, are two events.  A thread that is signalled runs again
    (the hand-over is in [ThreadSync]).  Where a sync finds no free slot it tries again with
    the request it has, where the code makes the same request anew.  What a completion does
    to objects is not modelled, nor are the requests that the pager makes of the kernel. *)
From S2P Require Import Prelude Address.
Import Address (PhysAddr_new, praw, or_noncanonical).

#[local] Open Scope Z_scope.

Module PagerReq.

(** ** Commands and kinds of requests

    The specification of an object that is created stands for its place in the derived order;
    of a sync, the shadow and the information of the caller are left out. *)
Inductive KernelCommand :=
| ObjectInfoReq (id : Z)
| PageDataReq (id lo hi flags : Z)
| ObjectEvict (id lo hi plo phi version : Z) (fence : bool) (uniq_id : Z)
| ObjectDel (id : Z)
| ObjectCreate (id create nonce : Z)
| DramPages (lo hi : Z).

Inductive ReqKind :=
| Info (id : Z)
| PageData (id start len flags : Z)
| Sync (id : Z)
| SyncRegion (id unique_id : Z) (reqs : list KernelCommand)
| Del (id : Z)
| Create (id create nonce : Z)
| Pages (lo hi : Z).

#[export] Instance KernelCommand_eq_dec : EqDecision KernelCommand.
Proof. solve_decision. Defined.
#[export] Instance ReqKind_eq_dec : EqDecision ReqKind.
Proof. solve_decision. Defined.

(** The order that [ReqKind] derives, by which the tree of requests compares: by variant, and
    then by fields.  Of a [SyncRegionInfo], the field is its unique identifier. *)
Definition req_key (k : ReqKind) : list Z :=
  match k with
  | Info i => [0; i]
  | PageData i s l f => [1; i; s; l; f]
  | Sync i => [2; i]
  | SyncRegion _ u _ => [3; u]
  | Del i => [4; i]
  | Create i c n => [5; i; c; n]
  | Pages l h => [6; l; h]
  end.

Fixpoint lex (l l' : list Z) : comparison :=
  match l, l' with
  | [], [] => Eq
  | [], _ => Lt
  | _, [] => Gt
  | a :: l, b :: l' => match a ?= b with Eq => lex l l' | c => c end
  end.

Definition req_cmp (k k' : ReqKind) : comparison := lex (req_key k) (req_key k').

(** [ReqKind::partial_cmp], which takes a page request to equal one that starts inside of it *)
Definition disc (k : ReqKind) : Z :=
  match k with Info _ => 0 | PageData _ _ _ _ => 1 | Sync _ => 2 | SyncRegion _ _ _ => 3 | Del _ => 4 | Create _ _ _ => 5 | Pages _ _ => 6 end.

Definition partial_cmp (k k' : ReqKind) : comparison :=
  match k, k' with
  | Info i, Info i' => i ?= i'
  | PageData i s l _, PageData i' s' _ _ =>
      if i =? i' then if (s <=? s') && (s' <? s + l) then Eq else s ?= s' else i ?= i'
  | Sync i, Sync i' => i ?= i'
  | SyncRegion _ u _, SyncRegion _ u' _ => u ?= u'
  | Del i, Del i' => i ?= i'
  | Create i _ _, Create i' _ _ => i ?= i'
  | Pages l h, Pages l' h' => match l ?= l' with Eq => h ?= h' | c => c end
  | _, _ => disc k ?= disc k'
  end.

(** [all_pages], counted *)
Definition all_pages_count (k : ReqKind) : Z := match k with PageData _ _ l _ => l | _ => 0 end.

(** The sizes of an object and of the page at its start, which are constants of the runtime's
    interface, and the width of physical addresses, which the processor reports *)
Class ObjConsts := { MAX_SIZE : Z; NULLPAGE_SIZE : Z; PHYS_BITS : Z }.

(** [PageNumber::PAGE_SIZE] *)
Definition PAGE_SIZE : Z := 0x1000.

(** [Inflight::for_each_pager_req], where the request is to be sent *)
Definition commands `{ObjConsts} (k : ReqKind) : list KernelCommand :=
  match k with
  | Info i => [ObjectInfoReq i]
  | PageData i s l f => [PageDataReq i (s * NULLPAGE_SIZE) ((s + l) * NULLPAGE_SIZE) f]
  | Sync i => [ObjectEvict i 0 0 0 0 0 true 0]
  | Del i => [ObjectDel i]
  | Create i c n => [ObjectCreate i c n]
  | Pages l h => [DramPages l h]
  | SyncRegion _ _ reqs => reqs
  end.

(** ** Syncing a region: [new_sync_region]

    The pages of the dirty set that are in core: number, physical address and length in
    pages, split into runs that are consecutive in both. *)
Record DirtyPage := mkDirty { dp_num : Z; dp_phys : Z; dp_len : Z }.

Section sync.
Context `{ObjConsts}.

(** [addr.offset(PAGE_SIZE * len).unwrap()] *)
Definition page_end (p : DirtyPage) : outcome Z :=
  match or_noncanonical (checked_add 64 (dp_phys p) (PAGE_SIZE * dp_len p)) (PhysAddr_new PHYS_BITS) with
  | Ok a => Ret (praw a)
  | Err _ => Panic
  end.

Definition breaks (p q : DirtyPage) : outcome bool :=
  let! e := page_end p in
  Ret (negb (e =? dp_phys q) || negb (dp_num p + dp_len p =? dp_num q)).

Definition ends_slice (data : list DirtyPage) (i : nat) : outcome bool :=
  if (i =? length data)%nat then Ret true
  else
    let! p := unwrap (data !! pred i) in
    let! q := unwrap (data !! i) in
    breaks p q.

Fixpoint slices_from (data : list DirtyPage) (slice_start : nat) (idx : list nat) : outcome (list (list DirtyPage)) :=
  match idx with
  | [] => Ret []
  | i :: idx =>
      let! e := ends_slice data i in
      if e
      then let! sl := slices_from data i idx in Ret (take (i - slice_start) (drop slice_start data) :: sl)
      else slices_from data slice_start idx
  end.

Definition consecutive_slices (data : list DirtyPage) : outcome (list (list DirtyPage)) :=
  slices_from data 0 (seq 1 (length data)).

Definition evict_run (id version unique_id : Z) (is_last : bool) (run : list DirtyPage) : outcome KernelCommand :=
  let! f := unwrap (run !! 0%nat) in
  let! l := unwrap (last run) in
  let! e := page_end l in
  Ret (ObjectEvict id (dp_num f * PAGE_SIZE) ((dp_num l + dp_len l) * PAGE_SIZE) (dp_phys f) e version is_last unique_id).

Fixpoint evict_runs (id version unique_id : Z) (n i : nat) (runs : list (list DirtyPage)) : outcome (list KernelCommand) :=
  match runs with
  | [] => Ret []
  | run :: runs =>
      let! c := evict_run id version unique_id (i =? n - 1)%nat run in
      let! cs := evict_runs id version unique_id n (S i) runs in
      Ret (c :: cs)
  end.

Definition new_sync_region (id version unique_id : Z) (pages : list DirtyPage) : outcome ReqKind :=
  let! runs := consecutive_slices pages in
  let! reqs := evict_runs id version unique_id (length runs) 0 runs in
  Ret (SyncRegion id unique_id reqs).
End sync.

(** ** The chunk around a page: [get_object_page] *)
Definition meta_page `{ObjConsts} : Z := (MAX_SIZE - PAGE_SIZE) / PAGE_SIZE.
Definition next_multiple_of (n m : Z) : Z := if n mod m =? 0 then n else n + (m - n mod m).

Definition get_object_page `{Build} `{ObjConsts} (pn : Z) : outcome (option (Z * Z)) :=
  if MAX_SIZE / PAGE_SIZE <=? pn then Ret None
  else if pn * PAGE_SIZE =? MAX_SIZE - PAGE_SIZE then Ret (Some (pn, 1))
  else
    let chunk_size := 1024 in
    let! aligned := chk 64 (next_multiple_of (pn + 1) chunk_size - chunk_size) in
    let! count_to_end := chk 64 (meta_page - aligned) in
    let chunk_count := Z.min count_to_end chunk_size in
    let! ac := (if (pn <? chunk_size) && negb (pn =? 0)
                then let! c := chk 64 (chunk_count - 1) in Ret (1, c) else Ret (aligned, chunk_count)) in
    if ac.2 =? 0 then Ret None else Ret (Some ac).

(** ** Requests *)
Record Request := mkRequest { rq_kind : ReqKind; rq_waiters : list nat; rq_remaining : Z; rq_done : bool }.

Definition Request_new (k : ReqKind) : Request := mkRequest k [] (all_pages_count k) false.

(** [finished_pages], whose accesses only the handler of completions makes *)
Definition finished_pages (r : Request) (count : Z) : bool * Request :=
  let set n := mkRequest (rq_kind r) (rq_waiters r) n (rq_done r) in
  if rq_remaining r <? count then (true, set 0) else (rq_remaining r - count =? 0, set (rq_remaining r - count)).

Definition mark_done (r : Request) : Request := mkRequest (rq_kind r) (rq_waiters r) (rq_remaining r) true.

(** [Inflight] *)
Record Inflight := mkInflight { fl_id : nat; fl_kind : ReqKind; fl_needs_send : bool }.

#[export] Instance Inflight_eq_dec : EqDecision Inflight.
Proof. solve_decision. Defined.

(** ** The tree of requests

    What the intrusive red-black tree promises of its elements, with their indices in the
    table, as long as no two compare as equal. *)
Definition keys (l : list (ReqKind * nat)) : list (list Z) := map (fun x => req_key x.1) l.

Class ReqTree (T : Type) := {
  rt_elems : T -> list (ReqKind * nat);
  rt_new : T;
  rt_find : T -> ReqKind -> option nat;
  rt_insert : T -> ReqKind -> nat -> T;
  rt_remove : T -> ReqKind -> T;
  rt_new_law : rt_elems rt_new = [];
  rt_find_law t k i : NoDup (keys (rt_elems t)) -> rt_find t k = Some i <-> exists k', (k', i) ∈ rt_elems t /\ req_cmp k k' = Eq;
  rt_insert_law t k i : rt_elems (rt_insert t k i) ≡ₚ (k, i) :: rt_elems t;
  rt_remove_law t k k' i : NoDup (keys (rt_elems t)) -> (k', i) ∈ rt_elems t -> req_cmp k k' = Eq ->
    rt_elems t ≡ₚ (k', i) :: rt_elems (rt_remove t k) }.

(** ** The threads

    A thread enters its requests, sends the commands of those that were not there, and waits
    for each ([lookup_object_and_wait], [get_pages_and_wait], [cmd_object], [sync_region],
    [provide_pager_memory]). *)
Inductive Pc :=
| Out
| Adding (todo : list ReqKind) (fl : list Inflight) (wait : bool)
| Sending (cmds : list (KernelCommand * ReqKind)) (fl : list Inflight) (wait : bool)
| Waiting (fl : list Inflight)
| Blocked (fl : list Inflight).

Definition to_wait (fl : list Inflight) : Pc := match fl with [] => Out | _ => Waiting fl end.
Definition to_send (cmds : list (KernelCommand * ReqKind)) (fl : list Inflight) (wait : bool) : Pc :=
  match cmds with [] => if wait then to_wait fl else Out | _ => Sending cmds fl wait end.
Definition for_each_pager_req `{ObjConsts} (f : Inflight) : list (KernelCommand * ReqKind) :=
  if fl_needs_send f then map (fun c => (c, fl_kind f)) (commands (fl_kind f)) else [].
Definition to_add `{ObjConsts} (todo : list ReqKind) (fl : list Inflight) (wait : bool) : Pc :=
  match todo with [] => to_send (flat_map for_each_pager_req fl) fl wait | _ => Adding todo fl wait end.

#[export] Instance Pc_eq_dec : EqDecision Pc.
Proof. solve_decision. Defined.

Section pager.
Context `{OC : ObjConsts} `{ReqTree T}.

(** ** [InflightManager] *)
Definition NR_REQUESTS : nat := 256.

Record Mgr := mkMgr { requests : gmap nat Request; avail : gset nat; req_map : T; pager_ready : bool }.

Definition Mgr_new : Mgr := mkMgr ∅ (set_seq 0 NR_REQUESTS) rt_new false.

Definition put (m : Mgr) (i : nat) (r : Request) : Mgr := mkMgr (<[i := r]> (requests m)) (avail m) (req_map m) (pager_ready m).

Definition add_request (m : Mgr) (k : ReqKind) : outcome (option Inflight * Mgr) :=
  match rt_find (req_map m) k with
  | Some i => Ret (Some (mkInflight i k false), m)
  | None =>
      match List.find (fun b => bool_decide (b ∈ avail m)) (seq 0 NR_REQUESTS) with
      | None => Ret (None, m)
      | Some i =>
          let! _ := rassert (bool_decide (requests m !! i = None)) in
          Ret (Some (mkInflight i k true), mkMgr (<[i := Request_new k]> (requests m)) (avail m ∖ {[i]}) (rt_insert (req_map m) k i) (pager_ready m))
      end
  end.

(** The threads that wait for a request are taken off its list. *)
Definition signal (m : Mgr) (i : nat) : list nat * Mgr :=
  match requests m !! i with
  | Some r => (rq_waiters r, put m i (mkRequest (rq_kind r) [] (rq_remaining r) (rq_done r)))
  | None => ([], m)
  end.

(** [mark_done] and [signal] *)
Definition finish (m : Mgr) (i : nat) : list nat * Mgr :=
  match requests m !! i with Some r => signal (put m i (mark_done r)) i | None => ([], m) end.

Definition remove_request (m : Mgr) (k : ReqKind) : list nat * Mgr :=
  match rt_find (req_map m) k with
  | Some i =>
      let (w, m) := finish m i in
      (w, mkMgr (delete i (requests m)) ({[i]} ∪ avail m) (rt_remove (req_map m) k) (pager_ready m))
  | None => ([], m)
  end.

Definition request_ready (m : Mgr) (k : ReqKind) : list nat * Mgr :=
  match rt_find (req_map m) k with Some i => finish m i | None => ([], m) end.

(** [with_request] with [finished_pages], as [pager_compl_handle_page_data] ends *)
Definition pages_ready (m : Mgr) (k : ReqKind) (count : Z) : list nat * Mgr :=
  match rt_find (req_map m) k with
  | Some i =>
      match requests m !! i with
      | Some r => let (fin, r) := finished_pages r count in if fin then finish (put m i r) i else ([], put m i r)
      | None => ([], m)
      end
  | None => ([], m)
  end.

(** [setup_wait]: whether the thread is to block *)
Definition setup_wait (m : Mgr) (f : Inflight) (t : nat) : bool * Mgr :=
  match requests m !! fl_id f with
  | Some r => if rq_done r then (false, m) else (true, put m (fl_id f) (mkRequest (rq_kind r) (rq_waiters r ++ [t]) (rq_remaining r) (rq_done r)))
  | None => (false, m)
  end.
(** The thread that handles completions, which provides memory to the pager itself *)
Definition HANDLER : nat := 0.

Record World := mkWorld { mgr : Mgr; idmap : gmap Z (KernelCommand * ReqKind); counter : Z; pcs : gmap nat Pc }.

Definition init : World := mkWorld Mgr_new ∅ 1 ∅.
Definition pc_of (s : World) (t : nat) : Pc := default Out (pcs s !! t).
Definition set_pc (s : World) (t : nat) (p : Pc) : World := mkWorld (mgr s) (idmap s) (counter s) (<[t := p]> (pcs s)).
Definition with_mgr (s : World) (m : Mgr) : World := mkWorld m (idmap s) (counter s) (pcs s).

(** [requeue_all]: the threads that waited go on *)
Definition wake1 (t : nat) (s : World) : World := match pc_of s t with Blocked fl => set_pc s t (to_wait fl) | _ => s end.
Definition wake (ws : list nat) (s : World) : World := foldr wake1 s ws.
Definition handled (s : World) (r : list nat * Mgr) : World := wake r.1 (with_mgr s r.2).

Inductive Ev :=
| Begin (t : nat) (ks : list ReqKind) (wait : bool)
| BeginSync (t : nat) (id version : Z) (pages : list DirtyPage)
| Add (t : nat)
| Send (t : nat) (id : Z)
| SetupWait (t : nat)
| PageDataCompletion (id count : Z) (phys_ok : bool)
| ObjectInfoCompletion (id : Z)
| NoSuchObject (id : Z)
| Done (id : Z)
| Ready.

Definition is_region (k : ReqKind) : bool := match k with SyncRegion _ _ _ => true | _ => false end.
Definition is_pages (k : ReqKind) : bool := match k with Pages _ _ => true | _ => false end.

(** When a step can be taken: completions are handled while the handler is not at work, and a
    command is sent once the map of identifiers has room. *)
Definition ev_ok (s : World) (e : Ev) : bool :=
  match e with
  | Begin t ks wait =>
      bool_decide (pc_of s t = Out) && forallb (fun k => negb (is_region k)) ks &&
      (negb (t =? HANDLER)%nat || forallb is_pages ks && negb wait)
  | BeginSync t _ _ _ => bool_decide (pc_of s t = Out) && negb (t =? HANDLER)%nat
  | Add t => match pc_of s t with Adding (_ :: _) _ _ => true | _ => false end
  | Send t id =>
      match pc_of s t with Sending (_ :: _) _ _ => true | _ => false end &&
      (size (idmap s) <? NR_REQUESTS)%nat && bool_decide (idmap s !! id = None)
  | SetupWait t => match pc_of s t with Waiting (_ :: _) => true | _ => false end
  | PageDataCompletion id _ _ | ObjectInfoCompletion id | NoSuchObject id | Done id =>
      bool_decide (is_Some (idmap s !! id)) && bool_decide (pc_of s HANDLER = Out)
  | Ready => true
  end.

(** Whether the end of a command is the end of its request *)
Definition closes (c : KernelCommand) : bool := match c with ObjectEvict _ _ _ _ _ _ fence _ => fence | _ => true end.

(** Entering requests, with [is_ready] at the start *)
Definition begin (s : World) (t : nat) (ks : list ReqKind) (wait : bool) : outcome World :=
  if pager_ready (mgr s) then Ret (set_pc s t (to_add ks [] wait)) else Ret s.

Definition sync_region (s : World) (t : nat) (id version : Z) (pages : list DirtyPage) : outcome World :=
  let! k := new_sync_region id version (counter s) pages in
  let s := mkWorld (mgr s) (idmap s) (counter s + 1) (pcs s) in
  if pager_ready (mgr s) then Ret (set_pc s t (Adding [k] [] true)) else Ret s.

Definition enter (s : World) (t : nat) : outcome World :=
  match pc_of s t with
  | Adding (k :: todo) fl wait =>
      let! (f, m) := add_request (mgr s) k in
      match f with
      | Some f => Ret (set_pc (with_mgr s m) t (to_add todo (fl ++ [f]) wait))
      | None => Ret s
      end
  | _ => Ret s
  end.

(** [submit_pager_request], once the map has room *)
Definition submit_pager_request (s : World) (t : nat) (id : Z) : outcome World :=
  match pc_of s t with
  | Sending (ck :: cmds) fl wait =>
      Ret (set_pc (mkWorld (mgr s) (<[id := ck]> (idmap s)) (counter s) (pcs s)) t (to_send cmds fl wait))
  | _ => Ret s
  end.

Definition await (s : World) (t : nat) : outcome World :=
  match pc_of s t with
  | Waiting (f :: fl) =>
      let (b, m) := setup_wait (mgr s) f t in
      Ret (set_pc (with_mgr s m) t (if b then Blocked fl else to_wait fl))
  | _ => Ret s
  end.

(** The requests whose commands are sent with the object they are about *)
Definition has_object (k : ReqKind) : bool := match k with PageData _ _ _ _ | Sync _ | SyncRegion _ _ _ => true | _ => false end.

(** The handler of completions: what it does to the table for each kind of completion, and at
    the end of a command.  [count] pages are added to the object, one at a time: each unwraps
    the physical address that the pager gives and the object that the command was sent with. *)
Definition pager_compl_handle_page_data (s : World) (id count : Z) (phys_ok : bool) : outcome World :=
  match idmap s !! id with
  | Some (_, k) =>
      let! _ := rassert (negb (0 <? count) || phys_ok && has_object k) in
      Ret (handled s (pages_ready (mgr s) k count))
  | None => Ret s
  end.

Definition pager_compl_handle_object_info (s : World) (id : Z) : outcome World :=
  match idmap s !! id with Some (_, k) => Ret (handled s (request_ready (mgr s) k)) | None => Ret s end.

Definition pager_compl_handle_error (s : World) (id : Z) : outcome World :=
  match idmap s !! id with
  | Some (ObjectInfoReq _, k) => Ret (handled s (request_ready (mgr s) k))
  | _ => Ret s
  end.

Definition pager_compl_done (s : World) (id : Z) : outcome World :=
  match idmap s !! id with
  | Some (c, k) =>
      let s := if closes c then handled s (remove_request (mgr s) k) else s in
      Ret (mkWorld (mgr s) (delete id (idmap s)) (counter s) (pcs s))
  | None => Ret s
  end.

Definition set_ready (m : Mgr) : Mgr := mkMgr (requests m) (avail m) (req_map m) true.

Definition exec (s : World) (e : Ev) : outcome World :=
  match e with
  | Begin t ks wait => begin s t ks wait
  | BeginSync t id version pages => sync_region s t id version pages
  | Add t => enter s t
  | Send t id => submit_pager_request s t id
  | SetupWait t => await s t
  | PageDataCompletion id count phys_ok => pager_compl_handle_page_data s id count phys_ok
  | ObjectInfoCompletion id => pager_compl_handle_object_info s id
  | NoSuchObject id => pager_compl_handle_error s id
  | Done id => pager_compl_done s id
  | Ready => Ret (with_mgr s (set_ready (mgr s)))
  end.

Definition step (s s' : World) : Prop := exists e, ev_ok s e = true /\ exec s e = Ret s'.

(** A sync finds a page of the dirty set in core, and pages have lengths. *)
Definition finds_pages (e : Ev) : Prop := match e with BeginSync _ _ _ pages => pages <> [] /\ Forall (fun p => 0 < dp_len p) pages | _ => True end.
Definition fair_step (s s' : World) : Prop := exists e, finds_pages e /\ ev_ok s e = true /\ exec s e = Ret s'.
End pager.

Arguments begin {OC T} s t ks wait /.
Arguments sync_region {OC T} s t id version pages /.
Arguments enter {OC T H} s t /.
Arguments submit_pager_request {T} s t id /.
Arguments await {T} s t /.
Arguments pager_compl_handle_page_data {T H} s id count phys_ok /.
Arguments pager_compl_handle_object_info {T H} s id /.
Arguments pager_compl_handle_error {T H} s id /.
Arguments pager_compl_done {T H} s id /.
Arguments set_ready {T} m /.
End PagerReq.
