(* ===== verification/PagerReqInv.v ===== *)
(** * Requests to the pager: who waits is woken

    The invariant of the table of requests in flight and of the threads that wait
    ([PagerReq]); that every wait has a command outstanding whose end wakes it; the pages that
    a sync sends; the chunk around a page; and the two ways in which the handler of
    completions can come to wait for itself. *)
From S2P Require Import Prelude Address PagerReq.
Import Address (PhysAddr_new, or_noncanonical).

#[local] Open Scope Z_scope.

Module PagerReqInv.
Import PagerReq.

(** ** The derived order *)
Lemma lex_eq l l' : lex l l' = Eq <-> l = l'.
Proof.
  revert l'; induction l as [|a l IH]; intros [|b l']; simpl; try (split; congruence).
  destruct (a ?= b) eqn:E.
  - apply Z.compare_eq in E as ->. rewrite IH. split; congruence.
  - split; [done|]. intros [= <- _]. by rewrite Z.compare_refl in E.
  - split; [done|]. intros [= <- _]. by rewrite Z.compare_refl in E.
Qed.

Lemma req_cmp_eq k k' : req_cmp k k' = Eq <-> req_key k = req_key k'.
Proof. apply lex_eq. Qed.

(** ** The commands of a sync

    Pages that do not follow one another, where their ends are physical addresses *)
Definition parted (p q : DirtyPage) : bool := negb (dp_phys p + PAGE_SIZE * dp_len p =? dp_phys q) || negb (dp_num p + dp_len p =? dp_num q).

Definition end_ok `{ObjConsts} (p : DirtyPage) : bool :=
  let e := dp_phys p + PAGE_SIZE * dp_len p in in_u 64 e && ((PHYS_BITS =? 64) || (e <? Z.shiftl 1 PHYS_BITS)).

Lemma page_end_spec `{ObjConsts} p : page_end p = if end_ok p then Ret (dp_phys p + PAGE_SIZE * dp_len p) else Panic.
Proof.
  unfold page_end, end_ok, checked_add, or_noncanonical, PhysAddr_new. destruct (in_u 64 _); [|done]. cbn [andb]. by destruct (_ || _).
Qed.

Lemma breaks_spec `{ObjConsts} p q : breaks p q = if end_ok p then Ret (parted p q) else Panic.
Proof. unfold breaks. rewrite page_end_spec. by destruct (end_ok p). Qed.

(** The slices of [consecutive_slices], by recursion over what is left of the pages *)
Fixpoint runs (cur : list DirtyPage) (p : DirtyPage) (rest : list DirtyPage) : list (list DirtyPage) :=
  match rest with
  | [] => [cur ++ [p]]
  | q :: rest => if parted p q then (cur ++ [p]) :: runs [] q rest else runs (cur ++ [p]) q rest
  end.

(** The ends of all pages but the last are looked at. *)
Fixpoint inner_ok `{ObjConsts} (p : DirtyPage) (rest : list DirtyPage) : bool :=
  match rest with [] => true | q :: rest => end_ok p && inner_ok q rest end.

Lemma slices_runs `{ObjConsts} pre cur p rest :
  slices_from (pre ++ cur ++ p :: rest) (length pre) (seq (length pre + length cur + 1) (length rest + 1)) = if inner_ok p rest then Ret (runs cur p rest) else Panic.
Proof.
  revert pre cur p. induction rest as [|q rest IH]; intros pre cur p; cbn [length seq plus slices_from]; unfold ends_slice.
  - assert ((length pre + length cur + 1 =? length (pre ++ cur ++ [p]))%nat = true) as -> by (apply Nat.eqb_eq; rewrite !length_app; simpl; lia).
    simpl. rewrite drop_app_length. do 2 f_equal. apply take_ge. rewrite length_app. simpl. lia.
  - assert ((length pre + length cur + 1 =? length (pre ++ cur ++ p :: q :: rest))%nat = false) as -> by (apply Nat.eqb_neq; rewrite !length_app; simpl; lia).
    assert ((pre ++ cur ++ p :: q :: rest) !! pred (length pre + length cur + 1) = Some p /\ (pre ++ cur ++ p :: q :: rest) !! (length pre + length cur + 1)%nat = Some q) as [-> ->].
    { replace (pred (length pre + length cur + 1)) with (length (pre ++ cur) + 0)%nat by (rewrite length_app; lia).
      replace (length pre + length cur + 1)%nat with (length (pre ++ cur) + 1)%nat by (rewrite length_app; lia).
      rewrite !(app_assoc pre), !lookup_app_r by lia. by rewrite !Nat.add_sub_swap, !Nat.sub_diag by lia. }
    cbn [unwrap obind inner_ok runs]. rewrite breaks_spec. destruct (end_ok p); [|done]. cbn [obind andb]. destruct (parted p q).
    + specialize (IH (pre ++ cur ++ [p]) [] q). cbn [app] in IH.
      replace ((pre ++ cur ++ [p]) ++ q :: rest) with (pre ++ cur ++ p :: q :: rest) in IH by (by rewrite <- !app_assoc).
      replace (length (pre ++ cur ++ [p])) with (length pre + length cur + 1)%nat in IH by (rewrite !length_app; simpl; lia). simpl length in IH.
      replace (length pre + length cur + 1 + 0 + 1)%nat with (S (length pre + length cur + 1)) in IH by lia. rewrite IH. destruct (inner_ok q rest); [|done]. cbn [obind]. do 2 f_equal.
      rewrite drop_app_length. replace (length pre + length cur + 1 - length pre)%nat with (length (cur ++ [p])) by (rewrite length_app; simpl; lia).
      replace (cur ++ p :: q :: rest) with ((cur ++ [p]) ++ q :: rest) by (by rewrite <- app_assoc). by rewrite take_app_length.
    + specialize (IH pre (cur ++ [p]) q). rewrite <- IH. f_equal; [by rewrite <- !app_assoc|f_equal; rewrite !length_app; simpl; lia].
Qed.

Lemma consecutive_slices_runs `{ObjConsts} p rest : consecutive_slices (p :: rest) = if inner_ok p rest then Ret (runs [] p rest) else Panic.
Proof. unfold consecutive_slices. rewrite <- (slices_runs [] [] p rest). by rewrite (Nat.add_1_r (length rest)). Qed.

(** What the runs are: consecutive inside, not so from one to the next, and all the pages *)
Fixpoint chain (run : list DirtyPage) : Prop :=
  match run with p :: ((q :: _) as run) => parted p q = false /\ chain run | _ => True end.

Fixpoint apart (l : list (list DirtyPage)) : Prop :=
  match l with
  | r :: ((r' :: _) as l) => (exists p q, last r = Some p /\ head r' = Some q /\ parted p q = true) /\ apart l
  | _ => True
  end.

Lemma chain_snoc l p q : chain (l ++ [p]) -> parted p q = false -> chain ((l ++ [p]) ++ [q]).
Proof.
  induction l as [|a l IH]; [done|]. intros C B. destruct l as [|b l]; [by destruct C|].
  destruct C as [Cb C]. split; [done|]. by apply IH.
Qed.

Lemma runs_head cur p rest : exists r l, runs cur p rest = r :: l /\ head r = head (cur ++ [p]).
Proof.
  revert cur p. induction rest as [|q rest IH]; intros cur p; simpl; [eauto|].
  destruct (parted p q); [eauto|]. destruct (IH (cur ++ [p]) q) as (r & l & -> & E). exists r, l. split; [done|]. rewrite E. by destruct cur.
Qed.

Lemma runs_spec cur p rest : chain (cur ++ [p]) ->
  concat (runs cur p rest) = cur ++ p :: rest /\ Forall (fun r => r <> [] /\ chain r) (runs cur p rest) /\ apart (runs cur p rest).
Proof.
  revert cur p. induction rest as [|q rest IH]; intros cur p C; simpl.
  - rewrite app_nil_r. split_and!; [done| |done]. apply Forall_singleton. split; [by destruct cur|done].
  - destruct (parted p q) eqn:B.
    + destruct (IH [] q I) as (E & F & A). destruct (runs_head [] q rest) as (r & l & Er & Hr). split_and!.
      * simpl. rewrite E. by rewrite <- app_assoc.
      * constructor; [|done]. split; [by destruct cur|done].
      * rewrite Er in *. split; [|done]. exists p, q. rewrite last_snoc. done.
    + destruct (IH (cur ++ [p]) q) as (E & F & A); [by apply chain_snoc|]. rewrite E. split_and!; [by rewrite <- app_assoc|done..].
Qed.

(** The pages that a dirty page and a command stand for *)
Definition page_at (n a j : Z) : Z * Z := (n + j, a + PAGE_SIZE * j).
Definition expand_page (p : DirtyPage) : list (Z * Z) := page_at (dp_num p) (dp_phys p) <$> seqZ 0 (dp_len p).
Definition expand_cmd (c : KernelCommand) : list (Z * Z) :=
  match c with
  | ObjectEvict _ lo hi plo phi _ _ _ => page_at (lo / PAGE_SIZE) plo <$> seqZ 0 ((hi - lo) / PAGE_SIZE)
  | _ => []
  end.

Lemma chain_expand p r l : last (p :: r) = Some l -> chain (p :: r) -> Forall (fun p => 0 < dp_len p) (p :: r) ->
  let n := dp_num l + dp_len l - dp_num p in
  0 < n /\ dp_phys l + PAGE_SIZE * dp_len l = dp_phys p + PAGE_SIZE * n /\
  flat_map expand_page (p :: r) = page_at (dp_num p) (dp_phys p) <$> seqZ 0 n.
Proof.
  revert p. induction r as [|q r IH]; intros p L C [Pp F]%Forall_cons.
  - injection L as <-. simpl. split_and!; [lia..|]. rewrite app_nil_r. unfold expand_page. do 2 f_equal. lia.
  - destruct C as [B C]. apply orb_false_iff in B as [B1%negb_false_iff%Z.eqb_eq B2%negb_false_iff%Z.eqb_eq].
    destruct (IH q L C F) as (Hn & Hp & He). split_and!; [lia..|]. cbn [flat_map] in *. rewrite He. unfold expand_page.
    replace (dp_num l + dp_len l - dp_num p) with (dp_len p + (dp_num l + dp_len l - dp_num q)) by lia.
    rewrite seqZ_app, fmap_app by lia. f_equal.
    replace (0 + dp_len p) with (dp_len p + 0) by lia. rewrite <- fmap_add_seqZ, <- list_fmap_compose. apply list_fmap_ext. intros i x _. unfold page_at. simpl. f_equal; lia.
Qed.


(** One command per run: exactly its pages, and only the last is a fence. *)
Definition same_length (c : KernelCommand) : Prop := match c with ObjectEvict _ lo hi plo phi _ _ _ => hi - lo = phi - plo | _ => False end.

Lemma evict_run_spec `{ObjConsts} id v u b r : r <> [] -> chain r -> Forall (fun p => 0 < dp_len p) r -> Forall (fun p => end_ok p = true) r ->
  exists c, evict_run id v u b r = Ret c /\ closes c = b /\ same_length c /\ expand_cmd c = flat_map expand_page r.
Proof.
  intros N C F O. destruct r as [|p r]; [done|]. destruct (last (p :: r)) as [l|] eqn:L; [|by apply last_None in L].
  destruct (chain_expand _ _ _ L C F) as (Hn & Hp & He). unfold evict_run. rewrite L. cbn [lookup list_lookup unwrap obind]. rewrite page_end_spec.
  assert (end_ok l = true) as -> by (rewrite Forall_forall in O; apply O; by apply last_Some_elem_of). cbn [obind]. eexists. split; [reflexivity|]. split; [done|].
  split; [cbn; unfold PAGE_SIZE in *; lia|]. rewrite He. cbn [expand_cmd].
  rewrite Z.div_mul by done. do 2 f_equal. rewrite <- Z.mul_sub_distr_r, Z.div_mul by done. done.
Qed.

Lemma evict_runs_spec `{ObjConsts} id v u n i l : Forall (fun r => r <> [] /\ chain r) l -> Forall (Forall (fun p => 0 < dp_len p)) l ->
  Forall (Forall (fun p => end_ok p = true)) l -> (n = i + length l)%nat ->
  exists cs, evict_runs id v u n i l = Ret cs /\ flat_map expand_cmd cs = flat_map expand_page (concat l) /\ Forall same_length cs /\
    map closes cs = map (fun j => j =? n - 1)%nat (seq i (length l)).
Proof.
  revert i. induction l as [|r l IH]; intros i A B D En; simpl; [by exists []|].
  apply Forall_cons in A as [[N C] A]. apply Forall_cons in B as [P B]. apply Forall_cons in D as [O D].
  destruct (evict_run_spec id v u (i =? n - 1)%nat r N C P O) as (c & Ec & Hb & Hs & Hx). rewrite Ec. simpl.
  destruct (IH (S i) A B D) as (cs & -> & E1 & E2 & E3); [simpl in En; lia|]. simpl. eexists. split; [done|]. simpl.
  rewrite flat_map_app, Hx, E1, Hb, E3. split_and!; [done|by constructor|done].
Qed.

(** The end of the last page of a run is looked at. *)
Lemma evict_run_cases `{ObjConsts} id v u b r : (exists c, evict_run id v u b r = Ret c /\ forall x, last r = Some x -> end_ok x = true) \/ evict_run id v u b r = Panic.
Proof.
  unfold evict_run. destruct (r !! 0%nat); [|by right]. destruct (last r) as [x|]; [|by right]. cbn [unwrap obind]. rewrite page_end_spec.
  destruct (end_ok x) eqn:E; [|by right]. left. eexists. split; [done|]. by intros ? [= <-].
Qed.

Lemma evict_runs_panic `{ObjConsts} id v u n i l r x : last l = Some r -> last r = Some x -> end_ok x = false -> evict_runs id v u n i l = Panic.
Proof.
  revert i. induction l as [|r0 l IH]; intros i Hr Hx E; [done|]. cbn [evict_runs].
  destruct (evict_run_cases id v u (i =? n - 1)%nat r0) as [(c & -> & Hc)| ->]; [|done]. cbn [obind]. destruct l as [|r1 l].
  - injection Hr as ->. by rewrite (Hc x Hx) in E.
  - by rewrite (IH (S i) Hr Hx E).
Qed.

Lemma runs_last cur p rest : exists r, last (runs cur p rest) = Some r /\ last r = last (p :: rest).
Proof.
  revert cur p. induction rest as [|q rest IH]; intros cur p; cbn [runs].
  - exists (cur ++ [p]). split; [done|]. by rewrite last_snoc.
  - destruct (parted p q); [|destruct (IH (cur ++ [p]) q) as (r & Hr & El); by exists r].
    destruct (IH [] q) as (r & Hr & El). exists r. split; [|done]. by destruct (runs [] q rest).
Qed.

Lemma all_ends `{ObjConsts} p rest : forallb end_ok (p :: rest) = inner_ok p rest && match last (p :: rest) with Some x => end_ok x | None => true end.
Proof.
  revert p. induction rest as [|q rest IH]; intros p; [by cbn; rewrite andb_true_r|].
  change (forallb end_ok (p :: q :: rest)) with (end_ok p && forallb end_ok (q :: rest)). rewrite IH. cbn [inner_ok]. by rewrite andb_assoc.
Qed.

Lemma last_only n : map (fun j => j =? n)%nat (seq 0 (S n)) = replicate n false ++ [true].
Proof.
  rewrite seq_S, map_app. simpl. rewrite Nat.eqb_refl. f_equal.
  apply list_eq_same_length with n; rewrite ?length_map, ?length_seq, ?length_replicate; try done.
  intros j x y Hj. change (map ?f ?l) with (f <$> l). rewrite list_lookup_fmap, lookup_seq_lt by done. intros [= <-]. rewrite lookup_replicate_2 by done. intros [= <-]. apply Nat.eqb_neq. lia.
Qed.

Lemma new_sync_region_spec `{ObjConsts} id v u p rest : Forall (fun p => 0 < dp_len p) (p :: rest) ->
  if forallb end_ok (p :: rest) then
    consecutive_slices (p :: rest) = Ret (runs [] p rest) /\
    exists reqs, new_sync_region id v u (p :: rest) = Ret (SyncRegion id u reqs) /\
      flat_map expand_cmd reqs = flat_map expand_page (p :: rest) /\ Forall same_length reqs /\ length reqs = length (runs [] p rest) /\
      exists n, map closes reqs = replicate n false ++ [true]
  else new_sync_region id v u (p :: rest) = Panic.
Proof.
  intros F. unfold new_sync_region. rewrite consecutive_slices_runs. destruct (forallb end_ok (p :: rest)) eqn:O; rewrite all_ends in O.
  - apply andb_true_iff in O as [O1 O2]. rewrite O1. split; [done|]. cbn [obind].
    destruct (runs_spec [] p rest I) as (E & A & _). destruct (runs_head [] p rest) as (r & l & Er & _).
    assert (B : Forall (Forall (fun p => 0 < dp_len p)) (runs [] p rest)) by (apply Forall_concat; by rewrite E).
    assert (D : Forall (Forall (fun p => end_ok p = true)) (runs [] p rest)).
    { apply Forall_concat. rewrite E. apply Forall_forall. intros x Hx. assert (forallb end_ok (p :: rest) = true) as Hall by (by rewrite all_ends, O1, O2).
      rewrite forallb_forall in Hall. by apply Hall, list_elem_of_In. }
    destruct (evict_runs_spec id v u (length (runs [] p rest)) 0 _ A B D eq_refl) as (cs & Ec & E1 & E2 & E3). rewrite Ec.
    exists cs. split; [done|]. rewrite E1, E. split_and!; [done..| |].
    + apply (f_equal length) in E3. by rewrite !length_map, length_seq in E3.
    + rewrite E3, Er. exists (length l). simpl length. rewrite Nat.sub_1_r. simpl pred. apply last_only.
  - destruct (inner_ok p rest); [|done]. cbn [andb obind] in *. destruct (runs_last [] p rest) as (r & Hr & Hl). destruct (last (p :: rest)) as [x|]; [|done].
    by rewrite (evict_runs_panic id v u _ 0 _ r x Hr Hl O).
Qed.

Section inv.
Context `{OC : ObjConsts} `{ReqTree T}.
Implicit Types (m : Mgr (T := T)) (s : World (T := T)).










Lemma find_avail m i : List.find (fun b => bool_decide (b ∈ avail m)) (seq 0 NR_REQUESTS) = Some i -> i ∈ avail m.
Proof. intros [_ E]%List.find_some. by apply bool_decide_eq_true in E. Qed.























Lemma pager_pc_set s t p u : pc_of (set_pc s t p) u = if decide (t = u) then p else pc_of s u.
Proof. unfold pc_of. simpl. case_decide; [subst; by rewrite lookup_insert_eq|by rewrite lookup_insert_ne]. Qed.

































(** ** When the handler waits for itself

    The handler provides memory to the pager, and so enters and sends requests, while the
    slots and the identifiers that it waits for are freed by the handler alone. *)
Definition handler_stuck s : Prop :=
  (exists ck cmds fl w, pc_of s HANDLER = Sending (ck :: cmds) fl w /\ (NR_REQUESTS <= size (idmap s))%nat) \/
  (exists k todo fl w, pc_of s HANDLER = Adding (k :: todo) fl w /\ avail (mgr s) = ∅ /\ rt_find (req_map (mgr s)) k = None).

Lemma add_request_full m k : avail m = ∅ -> add_request m k = Ret (match rt_find (req_map m) k with Some i => Some (mkInflight i k false) | None => None end, m).
Proof.
  intros A. unfold add_request. case_match; [done|]. destruct (List.find _ _) as [i|] eqn:E; [|done].
  apply find_avail in E. set_solver.
Qed.

Lemma setup_wait_table m f t : avail (setup_wait m f t).2 = avail m /\ req_map (setup_wait m f t).2 = req_map m.
Proof. unfold setup_wait. by repeat case_match. Qed.

Lemma handler_stuck_set s t p : t <> HANDLER -> handler_stuck s -> handler_stuck (set_pc s t p).
Proof. intros N. unfold handler_stuck. rewrite pager_pc_set, decide_False by done. done. Qed.

Definition stays s s' : Prop :=
  (forall id x, idmap s !! id = Some x -> idmap s' !! id = Some x) /\ (forall t fl, pc_of s t = Blocked fl -> pc_of s' t = Blocked fl).

Lemma stays_set s s1 t p : idmap s ⊆ idmap s1 -> pcs s1 = pcs s -> (forall fl, pc_of s t <> Blocked fl) -> stays s (set_pc s1 t p).
Proof.
  intros D P B. split; [intros id x Hx; by apply (lookup_weaken _ _ _ _ Hx)|]. intros u fl E. rewrite pager_pc_set. unfold pc_of in *. rewrite P. case_decide; [|done].
  subst. by apply B in E.
Qed.

(** What a step can do while the handler is stuck *)
Lemma stuck_not_out s : handler_stuck s -> pc_of s HANDLER <> Out.
Proof. intros [(? & ? & ? & ? & -> & _)|(? & ? & ? & ? & -> & _)]; done. Qed.

Lemma stuck_Add s t s' : handler_stuck s -> ev_ok s (Add t) = true -> exec s (Add t) = Ret s' -> handler_stuck s' /\ stays s s'.
Proof.
  intros K O. simpl in *. destruct (pc_of s t) as [|[|k todo] fl w| | |] eqn:E; try done.
  assert (B : forall fl', pc_of s t <> Blocked fl') by (intros fl'; by rewrite E).
  destruct K as [(ck & cmds & fl' & w' & Eh & Hs)|(k' & todo' & fl' & w' & Eh & Ha & Hf)].
  - assert (N : t <> HANDLER) by congruence. intros ([[f|] m] & _ & <-%Ret_inj)%obind_Ret; [|split; [left; eauto 10|done]].
    split; [|by apply stays_set]. apply handler_stuck_set; [done|]. left. by exists ck, cmds, fl', w'.
  - rewrite (add_request_full _ _ Ha). simpl. destruct (decide (t = HANDLER)) as [->|N].
    + assert (k = k') as -> by congruence. rewrite Hf. intros <-%Ret_inj. split; [right; eauto 10|done].
    + case_match; intros <-%Ret_inj; [|split; [right; eauto 10|done]]. split; [|by apply stays_set].
      apply handler_stuck_set; [done|]. right. by exists k', todo', fl', w'.
Qed.

Lemma stuck_Send s t id s' : handler_stuck s -> ev_ok s (Send t id) = true -> exec s (Send t id) = Ret s' -> handler_stuck s' /\ stays s s'.
Proof.
  intros K [[O Hs%Nat.ltb_lt]%andb_true_iff Hid%bool_decide_eq_true]%andb_true_iff.
  destruct K as [(? & ? & ? & ? & _ & Hs')|K]; [lia|]. simpl. destruct (pc_of s t) as [| |[|ck cmds] fl w| |] eqn:E; try done.
  intros <-%Ret_inj. split.
  - apply handler_stuck_set; [|by right]. intros ->. by destruct K as (? & ? & ? & ? & Eh & _); rewrite E in Eh.
  - apply stays_set; [by apply insert_subseteq|done|]. intros fl'. by rewrite E.
Qed.

Lemma stuck_SetupWait s t s' : handler_stuck s -> exec s (SetupWait t) = Ret s' -> handler_stuck s' /\ stays s s'.
Proof.
  intros K. simpl. destruct (pc_of s t) as [| | |[|f fl]|] eqn:E; try (by intros <-%Ret_inj).
  pose proof (setup_wait_table (mgr s) f t) as [Ea Er]. destruct (setup_wait (mgr s) f t) as [b m]. simpl in *. intros <-%Ret_inj.
  split; [|apply stays_set; [done..|]; intros fl'; by rewrite E].
  apply handler_stuck_set; [intros ->; destruct K as [(? & ? & ? & ? & Eh & _)|(? & ? & ? & ? & Eh & _)]; congruence|].
  destruct K as [K|(k & todo & fl' & w & Eh & Ha & Hf)]; [by left|right]. exists k, todo, fl', w. simpl. by rewrite Ea, Er.
Qed.

Lemma stuck_step s s' : handler_stuck s -> step s s' -> handler_stuck s' /\ stays s s'.
Proof.
  intros K (e & O & E). pose proof (stuck_not_out _ K) as NO.
  destruct e as [t ks w|t id v pages|t|t id|t|id n|id|id|id|];
    try (simpl in O; apply andb_true_iff in O as [_ O%bool_decide_eq_true]; done).
  - simpl in O. apply andb_true_iff in O as [[O%bool_decide_eq_true _]%andb_true_iff _]. simpl in E.
    case_match; apply Ret_inj in E as <-; [|done]. split; [apply handler_stuck_set; [congruence|done]|].
    apply stays_set; [done..|]. intros fl. by rewrite O.
  - simpl in O. apply andb_true_iff in O as [O%bool_decide_eq_true _]. apply obind_Ret in E as (k & _ & E). simpl in E.
    case_match; apply Ret_inj in E as <-; [|done]. split; [apply handler_stuck_set; [congruence|done]|].
    apply stays_set; [done..|]. intros fl. by rewrite O.
  - by eapply stuck_Add.
  - by eapply stuck_Send.
  - by eapply stuck_SetupWait.
  - by apply Ret_inj in E as <-.
Qed.

(** C35: The handler of completions can come to wait for itself.  Once it is to send the pager
    a command while the map of identifiers is full, or to enter a request while no slot is
    free, it stays so whatever other threads do and whatever the pager completes: no command
    that the pager was sent ever ends, and no thread that is blocked goes on.  The handler
    makes requests as it provides memory to the pager for page data that was completed; the
    witness fills the map with the commands of one sync. *)
Theorem handler_waits_for_itself s s' : handler_stuck s -> rtc step s s' ->
  handler_stuck s' /\ (forall id, bool_decide (is_Some (idmap s !! id)) = true -> idmap s' !! id = idmap s !! id) /\
  (forall t fl, pc_of s t = Blocked fl -> pc_of s' t = Blocked fl).
Proof.
  intros K R. assert (X : handler_stuck s' /\ stays s s').
  { revert K. induction R as [s|s s1 s' St R IH]; intros K; [done|]. destruct (stuck_step _ _ K St) as [K1 [D1 B1]].
    destruct (IH K1) as [K2 [D2 B2]]. split; [done|]. split; auto. }
  destruct X as [K' [D B]]. split_and!; [done| |done]. intros id [x Hx]%bool_decide_eq_true. rewrite Hx. by apply D.
Qed.
End inv.

(** ** A tree, as a list *)
Definition list_find (t : list (ReqKind * nat)) (k : ReqKind) : option nat :=
  snd <$> List.find (fun x => bool_decide (req_cmp k x.1 = Eq)) t.
Fixpoint list_remove (t : list (ReqKind * nat)) (k : ReqKind) : list (ReqKind * nat) :=
  match t with [] => [] | x :: t => if bool_decide (req_cmp k x.1 = Eq) then t else x :: list_remove t k end.

Lemma list_find_law t k i : NoDup (keys t) -> list_find t k = Some i <-> exists k', (k', i) ∈ t /\ req_cmp k k' = Eq.
Proof.
  unfold list_find. induction t as [|[k0 j] t IH]; simpl; intros N.
  - split; [done|]. by intros (k' & ?%elem_of_nil & _).
  - apply NoDup_cons in N as [N0 N]. case_bool_decide as E; simpl.
    + split; [intros [= <-]; exists k0; split; [left|done]|]. intros (k' & [[= -> ->]|Hin]%elem_of_cons & E'); [done|].
      exfalso. apply N0. apply list_elem_of_fmap. exists (k', i). split; [|done]. apply req_cmp_eq in E, E'. simpl. congruence.
    + rewrite (IH N). split; intros (k' & Hin & E'); exists k'; (split; [|done]); [by right|].
      apply elem_of_cons in Hin as [[= -> ->]|?]; done.
Qed.

Lemma list_remove_law t k k' i : NoDup (keys t) -> (k', i) ∈ t -> req_cmp k k' = Eq -> t ≡ₚ (k', i) :: list_remove t k.
Proof.
  induction t as [|[k0 j] t IH]; simpl; intros N Hin E; [by apply elem_of_nil in Hin|].
  apply NoDup_cons in N as [N0 N]. apply elem_of_cons in Hin as [[= -> ->]|Hin].
  - by rewrite bool_decide_eq_true_2.
  - rewrite bool_decide_eq_false_2.
    + rewrite Permutation_swap. by rewrite <- IH.
    + intros E0. apply N0, list_elem_of_fmap. exists (k', i). split; [|done]. apply req_cmp_eq in E, E0. simpl. congruence.
Qed.

#[export] Instance ListTree : ReqTree (list (ReqKind * nat)) := {
  rt_elems := id; rt_new := []; rt_find := list_find; rt_insert t k i := (k, i) :: t; rt_remove := list_remove;
  rt_new_law := eq_refl; rt_find_law := list_find_law; rt_insert_law _ _ _ := Permutation_refl _; rt_remove_law := list_remove_law }.

(** Runs of events *)
Fixpoint run_evs `{ObjConsts} `{ReqTree T} (s : World (T := T)) (es : list Ev) : option (World (T := T)) :=
  match es with
  | [] => Some s
  | e :: es => if ev_ok s e then match exec s e with Ret s => run_evs s es | _ => None end else None
  end.

Lemma run_evs_rtc `{ObjConsts} `{ReqTree T} (s s' : World (T := T)) es : run_evs s es = Some s' -> rtc step s s'.
Proof.
  revert s. induction es as [|e es IH]; simpl; intros s; [intros [= ->]; done|].
  destruct (ev_ok s e) eqn:O; [|done]. destruct (exec s e) as [s1| |] eqn:E; [|done..]. intros R. eapply rtc_l; [by exists e|by apply IH].
Qed.


(** The constants, as an instance *)
#[export] Instance Consts : ObjConsts := { MAX_SIZE := 2 ^ 30; NULLPAGE_SIZE := 0x1000; PHYS_BITS := 48 }.

Definition LW : Type := World (T := list (ReqKind * nat)).
Definition ran (es : list Ev) : LW := default init (run_evs init es).

Lemma ran_eq es : match run_evs (init : LW) es with Some _ => true | None => false end = true -> run_evs init es = Some (ran es).
Proof. unfold ran. by destruct (run_evs init es). Qed.



(** *** Long runs, by their parts *)
Lemma run_evs_app `{ObjConsts} `{ReqTree T} (s s1 s2 : World (T := T)) es es' : run_evs s es = Some s1 -> run_evs s1 es' = Some s2 -> run_evs s (es ++ es') = Some s2.
Proof.
  revert s. induction es as [|e es IH]; simpl; intros s; [by intros [= ->]|].
  destruct (ev_ok s e); [|done]. destruct (exec s e); [|done..]. apply IH.
Qed.

Lemma run_evs_cons `{ObjConsts} `{ReqTree T} (s s1 s2 : World (T := T)) e es : ev_ok s e = true -> exec s e = Ret s1 -> run_evs s1 es = Some s2 -> run_evs s (e :: es) = Some s2.
Proof. intros O E R. simpl. by rewrite O, E. Qed.

(** A request of a new kind takes the first free slot. *)
Lemma Add_fresh `{ObjConsts} `{ReqTree T} (s : World (T := T)) t k todo fl w i : let m := mgr s in
  pc_of s t = Adding (k :: todo) fl w -> rt_find (req_map m) k = None ->
  List.find (fun b => bool_decide (b ∈ avail m)) (seq 0 NR_REQUESTS) = Some i -> requests m !! i = None ->
  exec s (Add t) = Ret (set_pc (with_mgr s (mkMgr (<[i := Request_new k]> (requests m)) (avail m ∖ {[i]}) (rt_insert (req_map m) k i) (pager_ready m)))
    t (to_add todo (fl ++ [mkInflight i k true]) w)).
Proof. intros m E Hf Ha Hr. subst m. simpl. rewrite E. unfold add_request. rewrite Hf, Ha. by rewrite bool_decide_eq_true_2. Qed.

(** The commands of a thread are sent one after the other while there is room for them. *)
Lemma run_sends `{ObjConsts} `{ReqTree T} (s : World (T := T)) t cmds fl w n : pc_of s t = to_send cmds fl w ->
  (forall i, (n <= i)%nat -> idmap s !! Z.of_nat i = None) -> (size (idmap s) + length cmds <= NR_REQUESTS)%nat ->
  exists s', run_evs s (map (fun i => Send t (Z.of_nat i)) (seq n (length cmds))) = Some s' /\ mgr s' = mgr s /\
    idmap s ⊆ idmap s' /\ size (idmap s') = (size (idmap s) + length cmds)%nat /\ (forall u, u <> t -> pc_of s' u = pc_of s u).
Proof.
  revert s n. induction cmds as [|ck cmds IH]; intros s n E N S.
  { exists s. split_and!; [done..|simpl; lia|done]. }
  cbn [length] in S. pose proof (N n (Nat.le_refl n)) as Hn.
  set (s1 := set_pc (mkWorld (mgr s) (<[Z.of_nat n := ck]> (idmap s)) (counter s) (pcs s)) t (to_send cmds fl w)).
  assert (S1 : size (idmap s1) = Datatypes.S (size (idmap s))) by (by apply map_size_insert_None).
  destruct (IH s1 (Datatypes.S n)) as (s' & R & M & D & Z & P).
  - unfold s1. by rewrite pager_pc_set, decide_True.
  - intros i Hi. simpl. rewrite lookup_insert_ne by lia. apply N. lia.
  - lia.
  - exists s'. split_and!.
    + cbn [length seq map]. apply (run_evs_cons _ s1); [|by cbn; rewrite E|done].
      cbn [ev_ok]. rewrite E. cbn [to_send]. rewrite bool_decide_eq_true_2 by done. rewrite (proj2 (Nat.ltb_lt _ _)) by lia. done.
    + done.
    + etrans; [|exact D]. by apply insert_subseteq.
    + simpl length. lia.
    + intros u Hu. rewrite P by done. unfold s1. by rewrite pager_pc_set, decide_False.
Qed.

(** 255 runs fill the map of identifiers next to one request for pages; the handler is then to
    provide a page of memory. *)
Definition scattered_page (i : nat) : DirtyPage := mkDirty (2 * Z.of_nat i + 1) (PAGE_SIZE * Z.of_nat i) 1.
Definition scattered : list DirtyPage := scattered_page 0 :: map scattered_page (seq 1 254).
Definition start_evs : list Ev := [Ready; Begin 1 [PageData 7 3 5 0] true; Add 1; Send 1 0; SetupWait 1].
Definition started : LW := ran start_evs.
Definition stuck_evs : list Ev :=
  start_evs ++ [BeginSync 2 8 0 scattered; Add 2] ++ map (fun i => Send 2 (Z.of_nat i)) (seq 1 255) ++
  [Begin HANDLER [Pages 0 4096] false; Add HANDLER].
Definition stuck_world : LW := ran stuck_evs.

Lemma scattered_runs cur n l : length (runs cur (scattered_page n) (map scattered_page (seq (S n) l))) = S l.
Proof.
  revert cur n. induction l as [|l IH]; intros cur n; [done|]. cbn [seq map runs].
  assert (parted (scattered_page n) (scattered_page (S n)) = true) as ->.
  { unfold parted. apply orb_true_iff. right. apply negb_true_iff, Z.eqb_neq. simpl dp_num. simpl dp_len. lia. }
  cbn [length]. by rewrite IH.
Qed.

Lemma scattered_end i : (i < 255)%nat -> end_ok (scattered_page i) = true.
Proof.
  intros Hi. unfold end_ok, scattered_page. cbn [dp_phys dp_len]. change (Z.shiftl 1 PHYS_BITS) with (2 ^ 48). unfold PAGE_SIZE.
  apply andb_true_iff. split; [apply in_u_spec; lia|]. apply orb_true_iff. right. apply Z.ltb_lt. lia.
Qed.

Lemma scattered_ends : forallb end_ok (scattered_page 0 :: map scattered_page (seq 1 254)) = true.
Proof.
  apply forallb_forall. intros x [<-|(i & <- & Hi)%in_map_iff]; apply scattered_end; [lia|]. apply in_seq in Hi. lia.
Qed.

Lemma scattered_reqs pages : pages = scattered_page 0 :: map scattered_page (seq 1 254) ->
  exists reqs, new_sync_region 8 0 1 pages = Ret (SyncRegion 8 1 reqs) /\ length reqs = 255%nat.
Proof.
  intros ->. assert (F : Forall (fun p => 0 < dp_len p) (scattered_page 0 :: map scattered_page (seq 1 254))) by (constructor; [done|]; by apply Forall_fmap, Forall_true).
  pose proof (new_sync_region_spec 8 0 1 _ _ F) as Hs. rewrite scattered_ends in Hs.
  destruct Hs as (_ & reqs & R & _ & _ & L & _). exists reqs. split; [exact R|]. rewrite L. apply scattered_runs.
Qed.

Lemma started_facts : run_evs init start_evs = Some started /\ counter started = 1 /\ pager_ready (mgr started) = true /\
  (forall t, pc_of started t = if decide (t = 1%nat) then Blocked [] else Out) /\
  idmap started = {[0 := (PageDataReq 7 0x3000 0x8000 0, PageData 7 3 5 0)]} /\
  (forall u reqs, rt_find (req_map (mgr started)) (SyncRegion 8 u reqs) = None) /\ rt_find (req_map (mgr started)) (Pages 0 4096) = None /\
  List.find (fun b => bool_decide (b ∈ avail (mgr started))) (seq 0 NR_REQUESTS) = Some 1%nat /\ requests (mgr started) !! 1%nat = None /\
  List.find (fun b => bool_decide (b ∈ avail (mgr started) ∖ {[1%nat]})) (seq 0 NR_REQUESTS) = Some 2%nat /\ requests (mgr started) !! 2%nat = None.
Proof.
  assert (P : pcs started = {[1%nat := Blocked []]}) by (vm_compute; reflexivity).
  split_and!; [apply ran_eq| | |intros t; unfold pc_of; rewrite P| |intros u reqs|..]; try (vm_compute; reflexivity).
  case_decide; [subst; by rewrite lookup_singleton_eq|by rewrite lookup_singleton_ne].
Qed.

(** The state in which all commands of the sync have been sent *)
Lemma filled pages : pages = scattered_page 0 :: map scattered_page (seq 1 254) ->
  exists s, run_evs init (start_evs ++ [BeginSync 2 8 0 pages; Add 2] ++ map (fun i => Send 2 (Z.of_nat i)) (seq 1 255)) = Some s /\
  size (idmap s) = NR_REQUESTS /\ is_Some (idmap s !! 0) /\ pc_of s 1 = Blocked [] /\ pc_of s HANDLER = Out /\ pager_ready (mgr s) = true /\
  rt_find (req_map (mgr s)) (Pages 0 4096) = None /\
  List.find (fun b => bool_decide (b ∈ avail (mgr s))) (seq 0 NR_REQUESTS) = Some 2%nat /\ requests (mgr s) !! 2%nat = None.
Proof.
  intros Hp. destruct started_facts as (R0 & C0 & P0 & T0 & D0 & F0 & F1 & A1 & Q1 & A2 & Q2). destruct (scattered_reqs pages Hp) as (reqs & Er & Lr). clear Hp.
  revert R0 C0 P0 T0 D0 F0 F1 A1 Q1 A2 Q2. generalize started. intros s0 R0 C0 P0 T0 D0 F0 F1 A1 Q1 A2 Q2.
  set (k := SyncRegion 8 1 reqs). set (s1 := set_pc (mkWorld (mgr s0) (idmap s0) (counter s0 + 1) (pcs s0)) 2 (Adding [k] [] true)).
  assert (E1 : exec s0 (BeginSync 2 8 0 pages) = Ret s1) by (unfold exec, sync_region; rewrite C0, Er; cbn [obind mgr]; unfold s1; by rewrite P0, C0).
  assert (P1 : pc_of s1 2 = Adding [k] [] true) by (unfold s1; by rewrite pager_pc_set).
  pose proof (Add_fresh s1 2 k [] [] true 1 P1 (F0 1 reqs) A1 Q1) as E2. set (cmds := map (fun c => (c, k)) reqs).
  assert (Ec : flat_map for_each_pager_req ([] ++ [mkInflight 1 k true]) = cmds) by apply app_nil_r.
  cbn [to_add] in E2. rewrite Ec in E2. set (s2 := set_pc _ _ _) in E2. assert (Lc : length cmds = 255%nat) by (unfold cmds; by rewrite length_map).
  destruct (run_sends s2 2 cmds [mkInflight 1 k true] true 1) as (s & R & M & D & Z & P).
  - unfold s2. by rewrite pager_pc_set.
  - intros i Hi. change (idmap s2) with (idmap s0). rewrite D0. apply lookup_singleton_ne. lia.
  - change (idmap s2) with (idmap s0). rewrite D0, map_size_singleton, Lc. reflexivity.
  - change (idmap s2) with (idmap s0) in D, Z. rewrite D0, ?map_size_singleton, Lc in Z. rewrite Lc in R.
    exists s. rewrite M. split_and!.
    + eapply run_evs_app; [exact R0|]. apply (run_evs_cons _ s1); [by cbn; rewrite T0|done|].
      apply (run_evs_cons _ s2); [by cbn -[s1]; rewrite P1|done|done].
    + exact Z.
    + eexists. eapply lookup_weaken; [|exact D]. rewrite D0. apply lookup_singleton_eq.
    + rewrite P by done. unfold s2, s1. rewrite pager_pc_set. rewrite decide_False by done. change (pc_of (with_mgr ?s _) 1) with (pc_of s 1). rewrite pager_pc_set. apply T0.
    + rewrite P by done. unfold s2, s1. rewrite pager_pc_set. rewrite decide_False by done. change (pc_of (with_mgr ?s _) HANDLER) with (pc_of s HANDLER). rewrite pager_pc_set. apply T0.
    + exact P0.
    + exact F1.
    + exact A2.
    + change (requests (mgr s2)) with (<[1%nat := Request_new k]> (requests (mgr s0))). by rewrite lookup_insert_ne.
Qed.

Lemma stuck_world_facts : run_evs init stuck_evs = Some stuck_world /\ handler_stuck stuck_world /\
  pc_of stuck_world 1 = Blocked [] /\ is_Some (idmap stuck_world !! 0).
Proof.
  destruct (filled scattered eq_refl) as (s & R & Z & D & B & O & P & F & A & Q).
  set (s1 := set_pc s HANDLER (Adding [Pages 0 4096] [] false)).
  assert (E1 : exec s (Begin HANDLER [Pages 0 4096] false) = Ret s1) by (unfold exec, begin; by rewrite P).
  assert (P1 : pc_of s1 HANDLER = Adding [Pages 0 4096] [] false) by (unfold s1; by rewrite pager_pc_set).
  pose proof (Add_fresh s1 HANDLER (Pages 0 4096) [] [] false 2 P1 F A Q) as E2. set (s2 := set_pc _ _ _) in E2.
  assert (S : run_evs init stuck_evs = Some s2).
  { unfold stuck_evs. rewrite !app_assoc. rewrite !app_assoc in R. eapply run_evs_app; [exact R|].
    apply (run_evs_cons _ s1); [unfold ev_ok; by rewrite O|done|]. apply (run_evs_cons _ s2); [unfold ev_ok; by rewrite P1|done|done]. }
  assert (W : stuck_world = s2) by (unfold stuck_world, ran; by rewrite S). rewrite W. split_and!; [done| | |exact D].
  - left. eexists _, [], _, false. split; [unfold s2; rewrite pager_pc_set; reflexivity|]. change (idmap s2) with (idmap s). by rewrite Z.
  - unfold s2, s1. rewrite pager_pc_set, decide_False by done. change (pc_of (with_mgr ?s _) 1) with (pc_of s 1). by rewrite pager_pc_set, decide_False.
Qed.

Lemma handler_waits_for_itself_witness : rtc step init stuck_world /\
  forall s', rtc step stuck_world s' -> pc_of s' 1 = Blocked [] /\ is_Some (idmap s' !! 0).
Proof.
  destruct stuck_world_facts as (R & K & B & D). split; [by apply (run_evs_rtc _ _ stuck_evs)|]. intros s' R'.
  destruct (handler_waits_for_itself stuck_world s' K R') as (_ & E & W).
  split; [exact (W 1%nat [] B)|]. rewrite (E 0 (bool_decide_eq_true_2 _ D)). exact D.
Defined.
(** ** A sync sends what is dirty *)

(** C29: for a dirty set of which pages are in core, the request for a sync is built without a
    panic just if every page ends at a physical address; its commands, in order, then stand
    for exactly the pages that were found, each with its physical address; each command names
    as much of the object as of memory; no two commands in a row could be one; and the last
    command alone is the fence that ends the request. *)
Theorem sync_sends_pages `{ObjConsts} id version u pages : pages <> [] -> Forall (fun p => 0 < dp_len p) pages ->
  if forallb end_ok pages then
    exists slices reqs, consecutive_slices pages = Ret slices /\ new_sync_region id version u pages = Ret (SyncRegion id u reqs) /\
      flat_map expand_cmd reqs = flat_map expand_page pages /\ Forall same_length reqs /\
      length reqs = length slices /\ apart slices /\
      exists n, map closes reqs = replicate n false ++ [true]
  else new_sync_region id version u pages = Panic.
Proof.
  intros N F. destruct pages as [|p rest]; [done|]. pose proof (new_sync_region_spec id version u p rest F) as Hs.
  destruct (forallb end_ok (p :: rest)); [|done]. destruct Hs as (C & reqs & E & X & S & L & n & Hn).
  exists (runs [] p rest), reqs. split_and!; [done..| |by exists n]. by destruct (runs_spec [] p rest I) as (_ & _ & A).
Qed.

Lemma sync_sends_pages_witness : new_sync_region 7 0 1 [mkDirty 4 0x5000 2; mkDirty 6 0x7000 1; mkDirty 9 0x8000 1] =
    Ret (SyncRegion 7 1 [ObjectEvict 7 0x4000 0x7000 0x5000 0x8000 0 false 1; ObjectEvict 7 0x9000 0xa000 0x8000 0x9000 0 true 1]) /\
  exists reqs, new_sync_region 7 0 1 [mkDirty 4 0x5000 2] = Ret (SyncRegion 7 1 reqs) /\ flat_map expand_cmd reqs = [(4, 0x5000); (5, 0x6000)].
Proof.
  split; [reflexivity|]. pose proof (sync_sends_pages 7 0 1 [mkDirty 4 0x5000 2]) as Hs. destruct Hs as (sl & reqs & _ & E & X & _); [discriminate|by repeat constructor|].
  exists reqs. split; [exact E|]. rewrite X. reflexivity.
Defined.

(** ** The chunk around a page *)

(** For every page of an object, the range of pages that is asked of the pager holds that
    page, is of at most 1024 pages, stays within the object and, but for page 0 itself, does
    not take in page 0; no subtraction underflows on the way; past the end of an object
    nothing is asked.  The size of an object is a number of pages. *)
Theorem chunk_covers `{Build} `{ObjConsts} np pn : 0 < np -> MAX_SIZE = np * PAGE_SIZE -> MAX_SIZE < 2 ^ 64 -> 0 <= pn ->
  (np <= pn -> get_object_page pn = Ret None) /\
  (pn < np -> exists a n, get_object_page pn = Ret (Some (a, n)) /\
     a <= pn < a + n /\ n <= 1024 /\ a + n <= np /\ (pn <> 0 -> 1 <= a)).
Proof.
  intros Np Em Mb P. assert (Mm : meta_page = np - 1).
  { unfold meta_page. rewrite Em. replace (np * PAGE_SIZE - PAGE_SIZE) with ((np - 1) * PAGE_SIZE) by lia. by apply Z.div_mul. }
  unfold get_object_page. rewrite Mm, Em, Z.div_mul by done.
  split; [intros L; by apply Z.leb_le in L as ->|]. intros L. destruct (Z.leb_spec np pn); [lia|].
  unfold PAGE_SIZE in *. destruct (Z.eqb_spec (pn * 0x1000) (np * 0x1000 - 0x1000)) as [E|E]; [exists pn, 1; split; [done|lia]|].
  assert (next_multiple_of (pn + 1) 1024 - 1024 = 1024 * (pn / 1024)) as ->.
  { unfold next_multiple_of. destruct (Z.eqb_spec ((pn + 1) mod 1024) 0); Z.div_mod_to_equations; lia. }
  assert (Q : 1024 * (pn / 1024) <= pn < 1024 * (pn / 1024) + 1024) by (Z.div_mod_to_equations; lia).
  revert Q. generalize (pn / 1024). intros q Q. cbv zeta. do 2 (rewrite chk_in by lia; cbn [obind]).
  destruct (Z.ltb_spec pn 1024), (Z.eqb_spec pn 0); cbn [andb negb]; [|rewrite chk_in by lia|..]; cbn [obind snd];
    match goal with |- context [?c =? 0] => destruct (Z.eqb_spec c 0) end; try lia; (eexists _, _; split; [reflexivity|]; lia).
Qed.

Lemma chunk_covers_witness : exists a n, @get_object_page (true : Build) Consts 1500 = Ret (Some (a, n)) /\ a <= 1500 < a + n.
Proof.
  destruct (@chunk_covers (true : Build) Consts 262144 1500) as [_ (a & n & E & B & _)]; [lia|reflexivity..|lia|lia|].
  exists a, n. exact (conj E B).
Defined.

(** ** Gaps *)
Definition reused_evs : list Ev :=
  [Ready; Begin 1 [Info 7] true; Add 1; Send 1 0; ObjectInfoCompletion 0; Done 0; Begin 2 [Sync 9] true; Add 2; SetupWait 1].
Definition empty_evs : list Ev := [Ready; BeginSync 1 7 0 []; Add 1; SetupWait 1].
Definition overlap_evs : list Ev :=
  [Ready; Begin 1 [PageData 7 5 1 1] false; Add 1; Send 1 0; Begin 2 [PageData 7 1 1023 0] true; Add 2; Send 2 1].

Definition waiters_at (s : LW) (i : nat) : option (ReqKind * list nat) := (fun r => (rq_kind r, rq_waiters r)) <$> requests (mgr s) !! i.
Definition outstanding (s : LW) : list (Z * (KernelCommand * ReqKind)) := map_to_list (idmap s).

(** Three runs in which requests go wrong.  A thread whose request was answered and
    removed before it came to wait is put on the list of the request of another thread that
    took over the slot.  A sync that finds none of its dirty pages in core enters a request
    without commands, and its thread is blocked with nothing outstanding that could end it.
    And a request for pages that overlaps one that is in flight, which the written comparison
    takes for the same, is entered and sent a second time, as the tree compares by the derived
    order. *)
Theorem requests_go_astray :
  (run_evs init reused_evs = Some (ran reused_evs) /\ pc_of (ran reused_evs) 1 = Blocked [] /\
   outstanding (ran reused_evs) = [] /\ waiters_at (ran reused_evs) 0 = Some (Sync 9, [1%nat])) /\
  (run_evs init empty_evs = Some (ran empty_evs) /\ pc_of (ran empty_evs) 1 = Blocked [] /\
   outstanding (ran empty_evs) = [] /\ waiters_at (ran empty_evs) 0 = Some (SyncRegion 7 1 [], [1%nat])) /\
  (partial_cmp (PageData 7 1 1023 0) (PageData 7 5 1 1) = Eq /\ run_evs init overlap_evs = Some (ran overlap_evs) /\
   length (outstanding (ran overlap_evs)) = 2%nat).
Proof.
  split_and!; match goal with |- run_evs _ _ = Some _ => apply ran_eq | _ => idtac end; vm_compute; reflexivity.
Qed.
End PagerReqInv.
